(* ===== verification/_CoqProject ===== *)
-Q . S2P
Prelude.v
Text.v
Lang.v
Leb128.v
Base32.v
Serialize.v
Types.v
TermIndex.v
Nlp.v
Keys.v
Bitmap.v
BitList.v
VecMap.v
KV.v
Blob.v
ChangeLog.v
RaftLog.v
Read.v
Query.v
JmapId.v
JmapChanges.v
JmapQuery.v
Acl.v
IdAssign.v
Compact.v
Write.v
Orm.v
OrmStore.v
Search.v
Gossip.v
Cluster.v
Election.v
Address.v
Lmtp.v
JmapDate.v
MergeLog.v
Rollback.v
Replicate.v
LogMatch.v
OAuth.v
JsonPointer.v
SetRequest.v
GetRequest.v
Mailbox.v
MailboxRead.v
Directory.v
Principals.v
