(* ===== verification/Prelude.v ===== *)
(** * Verification library of the Stalwart JMAP server

    The server keeps mail and its metadata in a key-value store and gives
    access to it over JMAP; mail arrives over LMTP; several servers form a
    cluster that replicates the store. The library translates parts of it into
    functions and proves theorems about them. Paths are below src/.

    ** The parts and their files

    Encodings (components/store/src/serialize, core). [Leb128], [Base32] and
    [Serialize] model leb128.rs, base32.rs and mod.rs; [Keys] every key of
    key.rs; [Types] the ids, collections and tags; [Bitmap] the packed bit sets
    of core/bitmap.rs; [BitList] the bit lists of serialize/bitmap.rs with the
    merge operators of the RocksDB binding; [VecMap] core/vec_map.rs.

    Store. [KV] is the trait [Store] as a class with laws, with a map as an
    instance. Over it [Blob] models blob/store.rs, blob/purge.rs and the blob
    store on disk (blob/local.rs), [ChangeLog]
    log/changes.rs, [RaftLog] log/raft.rs and log/entry.rs, [Compact]
    log/compact.rs, [IdAssign] write/id_assign.rs, [Write] write/update.rs and
    the documents and batches it is given, [Read] and [Query] the reads and
    filters of read/, [Acl] read/acl.rs.

    Text (components/store/src/nlp). [Lang] the languages and their detection,
    [Nlp] tokenizers, stemmer and snippets, [TermIndex] term_index.rs, [Search]
    the text conditions of read/query.rs over all of these.

    JMAP (components/jmap/src). [JmapId] and [JmapDate] model types/,
    [JmapChanges] jmap_store/changes.rs and query_changes.rs, [JmapQuery]
    jmap_store/query.rs. [Orm] is the object-relational layer (orm/): objects
    with properties, tags and rights, and the documents that keep their
    indexes; [OrmStore] takes these documents through the writer. [JsonPointer] models types/json_pointer.rs; [SetRequest] and
    [GetRequest] the requests that change and read objects, with the helpers
    of jmap_store/set.rs and get.rs that all types of objects share.

    Objects over these. [Mailbox] and [MailboxRead] model mailboxes
    (components/jmap_mail/src/mailbox): schema, changes, paths, reads, queries
    as a tree. [Address] has the sanitizers of components/jmap/src/lib.rs,
    [Directory] the schema of principals, logins, groups and the expansion of
    recipients (components/jmap_sharing/src/principal/account.rs), [Principals]
    the changes and reads of principals (set.rs, get.rs, query.rs and mod.rs
    of the same directory).

    Authorization (src/authorization). [OAuth] models the authorization codes,
    the device flow and the access tokens. [Text] has the functions on strings
    of the Rust standard library that several parts call.

    Cluster (src/cluster). [Gossip] the packets, [Cluster] one node with the
    handlers of gossip/, raft/ and main.rs, [Election] the nodes of a shard and
    their messages. [MergeLog] models log/changes_merge.rs and [Rollback] the
    files log/rollback_get.rs, rollback_prepare.rs and rollback_remove.rs.
    [Replicate] is the copying of log entries (log/entries_get.rs,
    log/changes_get.rs, follower/log_update.rs), [LogMatch] the search for a
    common entry (log/index_match.rs, follower/log_match.rs,
    follower/log_synchronize.rs), each with its side of leader/spawn_leader.rs.

    Mail reception (src/lmtp). [Lmtp] the parser, the session, the answers and
    the distribution of a message to its recipients.

    ** How code is translated

    A [w]-bit integer is a [Z]; [wrap] is written where arithmetic can leave
    the range, [fits] states the range. Bytes are a [list Z]. A [Result] or
    [Option] is an [option], or a [res] where a panic is told from an error.
    An operation on the store takes it and returns it; where the source has
    written before it fails, the store is returned with the error. Loops over
    an iterator recurse on the list it yields, which is that of the store when
    the loop starts. Crates and services are classes: Roaring bitmaps
    ([Roaring], [Treemap]), bit packing ([BitPacker]), Unicode tables
    ([Unicode]), stemmers and segmenters ([Linguistics]), language detection
    ([Whatlang]), blob back ends ([BlobStore]), and for LMTP the directory,
    the delivery to an account, the clock and TLS ([Backend]); serialization
    of objects is [OrmCodec]. What a type of objects uses of the store is a
    class too ([SetStore], [MailboxStore], [Directory], [PrincipalStore]), whose
    laws say that a query finds the objects whose properties match. Their laws
    are classes of their own; the laws that a numbered theorem assumes have an
    instance that its witness uses.

    ** What the theorems show

    - Round trips: term indexes, access tokens, JSON pointers, and (unnumbered)
      dates, merged changes, dot-stuffed mail, integers, keys, ids and gossip
      packets.
    - Queries: evaluation with a stack is the set algebra of the filter and
      terminates; JMAP filters mean what they say; results are restricted to
      what is shared with the caller; the window of a page.
    - Writing: the bitmaps and logs after a batch, deletion undoes insertion,
      a written text is found by the queries that share its words.
    - Logs: changes are the net effect of the entries, pages lose nothing,
      compaction keeps the records above its index and replaces those up to it
      by snapshots that replay to the same ids, merging entries is the difference between the
      documents before and after, a rollback removes exactly the entries above
      an index and records what it removed; leader and follower agree on an
      entry that both have, and a follower that is rolled back gets the log of
      its leader.
    - Objects: the sorted index, tags, rights and value that the writer leaves
      in the store are those of the object after every insertion and merge, and
      are gone after its deletion. A set request answers each object once and
      logs what it reports, no more; objects that others refer to are created first, and
      the sorting ends; a get request returns only what the caller may see.
    - Mailboxes: a request for one mailbox keeps a tree with distinct names and
      roles; paths lead to the mailboxes they name; counts and tree listings.
    - Principals: a request for one principal keeps the directory (one owner of
      an address, members that exist, distinct domains); logins and recipients
      are exact; the search for groups ends.
    - OAuth: in runs that interleave at every atomic operation a request gets a
      token for a code only after a login that no request marked as used before;
      a token is valid until it expires.
    - Blobs and access: purging, also of the blob files on disk, blob access and shared documents are exact;
      assigned ids are fresh.
    - Cluster: one leader per term when nodes keep their votes, committed
      indexes meet every election quorum, nodes stay well formed.
    - LMTP: the division of the input into reads does not matter, each account
      of the recipients of a transaction gets its message once, each recipient
      one answer.
    - Dates: conversions agree with a calendar of month lengths.
    - Error theorems give executions in which the code does not do what it
      should: two leaders of a term, chunks of a rejected message delivered with
      the next, compaction that mixes up accounts or forgets deletions, negative
      timestamps, tombstones taken for a pending rollback, common entries that
      are rolled back, mailboxes that become their own ancestors, rights on the
      wrong mailbox, groups that are too deep, two owners of an address, two
      tokens of one login, words that are lost from the index.

    ** Bounds and fuel

    Fuel appears where recursion is not structural. Readers of bytes take the
    length of the input, since each round consumes a byte; draining a packed
    set takes its 64 bits; the stack machine of queries has a proved number of
    steps; the client loop that fetches pages gets a number of rounds that its
    theorem shows to be enough, and so do the exchanges of log entries, the
    sorting of objects to create and the search for groups. The loop that passes
    over ids of deleted accounts has one round more than there are such ids,
    which is enough if ids are not given twice ([Principals.fresh_id_enough]).

    ** Not modelled

    Debug assertions and logging; disk errors and options of RocksDB; threads,
    locks, channels, sockets and TLS, except as inputs and outputs of handlers.
    The updates of documents and blobs that a leader and a follower exchange
    behind the log entries (the rest of src/cluster/leader, follower and log),
    lost connections between them, and the RPC layer.
    Sorting by the store iterator (read/iterator.rs) and the deletion of the
    data of an account. The methods of mail, threads, identities, submissions,
    vacation responses, Sieve scripts and push subscriptions, copies between
    accounts, and the JSON forms of mailboxes and principals, which serde reads
    and writes. Sessions and rate limits; the HTTP, WebSocket and event source
    servers, the API dispatcher, background services and settings. Several of
    these are mostly calls into other crates (parsing of mail, HTTP, serde,
    Sieve); the others are state machines that remain to be translated. *)

From Stdlib Require Export ZArith Lia.
From stdpp Require Export base list gmap sets fin_maps numbers sorting.

#[global] Open Scope Z_scope.

(** ** Machine integers

    An unsigned [w]-bit integer of the source is a [Z]; arithmetic that can
    leave the range is followed by [wrap], because the release profile of the
    crate builds with [overflow-checks = false]. *)
Definition wrap (w z : Z) : Z := z mod 2 ^ w.
Definition fits (w z : Z) : Prop := 0 <= z < 2 ^ w.

Abbreviation u8 := (wrap 8).
Abbreviation u32 := (wrap 32).
Abbreviation u64 := (wrap 64).
Abbreviation U32_MAX := (2 ^ 32 - 1).
Abbreviation U64_MAX := (2 ^ 64 - 1).

(** A byte string: a Rust [Vec<u8>] or [&[u8]]. *)
Abbreviation is_byte := (fits 8).
Abbreviation bytes_ok := (Forall is_byte).

Lemma wrap_fits w z : 0 <= w -> fits w (wrap w z).
Proof. intros. apply Z.mod_pos_bound. lia. Qed.

Lemma wrap_small w z : fits w z -> wrap w z = z.
Proof. apply Z.mod_small. Qed.

Lemma fits_mono w w' z : 0 <= w <= w' -> fits w z -> fits w' z.
Proof.
  intros Hw [H0 H1]. split; [done|].
  apply Z.lt_le_trans with (2 ^ w); [done|]. apply Z.pow_le_mono_r; lia.
Qed.

Lemma fits_byte_shiftr w z n : 0 <= n -> fits w z -> fits w (z ≫ n).
Proof.
  intros Hn [H0 H1]. unfold fits. rewrite Z.shiftr_div_pow2 by done.
  split; [apply Z.div_pos; lia|].
  apply Z.le_lt_trans with z; [|done].
  apply Z.div_le_upper_bound; [lia|]. nia.
Qed.

(** Bitwise facts: masks are remainders and disjoint [or] is addition. *)
Lemma land_mask z n : 0 <= n -> Z.land z (2 ^ n - 1) = z mod 2 ^ n.
Proof. intros. rewrite <- Z.land_ones by done. by rewrite Z.ones_equiv, Z.sub_1_r. Qed.

Lemma fits_testbit w z i : fits w z -> w <= i -> Z.testbit z i = false.
Proof.
  intros [H0 H1] Hi. destruct (Z.eq_dec z 0) as [->|]; [apply Z.bits_0|].
  apply Z.bits_above_log2; [done|].
  apply Z.lt_le_trans with w; [|done]. apply Z.log2_lt_pow2; lia.
Qed.

Lemma lor_disjoint_add a b n :
  0 <= n -> fits n a -> Z.lor a (b * 2 ^ n) = a + b * 2 ^ n.
Proof.
  intros Hn Ha. rewrite <- Z.shiftl_mul_pow2 by done.
  rewrite Z.add_nocarry_lxor; [rewrite <- Z.lxor_lor; [done|] |];
    apply Z.bits_inj'; intros i Hi; rewrite Z.land_spec, Z.bits_0;
    (destruct (Z.lt_ge_cases i n);
      [rewrite Z.shiftl_spec_low by done; by rewrite andb_false_r
      |rewrite (fits_testbit n a i) by done; done]).
Qed.

Lemma fits_bits w z :
  0 <= w -> 0 <= z -> (forall i, w <= i -> Z.testbit z i = false) -> fits w z.
Proof.
  intros Hw Hz Hb. replace z with (z mod 2 ^ w); [apply Z.mod_pos_bound; lia|].
  apply Z.bits_inj'. intros i Hi. destruct (Z.lt_ge_cases i w).
  - by rewrite Z.mod_pow2_bits_low.
  - rewrite Z.mod_pow2_bits_high by lia. symmetry. by apply Hb.
Qed.

Lemma lor_fits w a b : 0 <= w -> fits w a -> fits w b -> fits w (Z.lor a b).
Proof.
  intros Hw Ha Hb. apply fits_bits; [done| |].
  - apply Z.lor_nonneg. split; [apply Ha|apply Hb].
  - intros i Hi. rewrite Z.lor_spec, (fits_testbit w a), (fits_testbit w b) by done. done.
Qed.

Lemma land_fits_l w a b : 0 <= w -> fits w a -> fits w (Z.land a b).
Proof.
  intros Hw Ha. apply fits_bits; [done| |].
  - apply Z.land_nonneg. left. apply Ha.
  - intros i Hi. by rewrite Z.land_spec, (fits_testbit w a).
Qed.

Lemma land_nonzero a b :
  0 <= b ->
  Z.land a b <> 0 <-> exists i, 0 <= i /\ Z.testbit a i = true /\ Z.testbit b i = true.
Proof.
  intros Hb. assert (0 <= Z.land a b) as Hl by (apply Z.land_nonneg; by right). split.
  - intros Hnz. exists (Z.log2 (Z.land a b)). split; [apply Z.log2_nonneg|].
    apply andb_true_iff. rewrite <- Z.land_spec. apply Z.bit_log2. lia.
  - intros (i & Hi & Ha & Hbi) Hz. assert (Z.testbit (Z.land a b) i = false) as Hf by (rewrite Hz; apply Z.bits_0).
    rewrite Z.land_spec, Ha, Hbi in Hf. done.
Qed.

(** A decidable fact about a [w]-bit value is proved by checking all of them. *)
Lemma fits_decide (P : Z -> Prop) `{forall z, Decision (P z)} w :
  forallb (fun z => bool_decide (P z)) (seqZ 0 (2 ^ w)) = true -> forall z, fits w z -> P z.
Proof.
  intros Hf z Hz. rewrite forallb_forall in Hf. apply (bool_decide_eq_true_1 (P z)), Hf.
  apply list_elem_of_In, elem_of_seqZ. unfold fits in Hz. lia.
Qed.

(** Rewriting with the decoder of an encoded prefix. *)
Create Rewrite HintDb codec.

(** [dlia]: linear arithmetic with division and remainder by constants. *)
Ltac dlia := unfold fits in *; Z.to_euclidean_division_equations; lia.

(** An association list without repeated keys has one value per key. *)
Lemma NoDup_fst_inj {A B} (l : list (A * B)) x a b :
  NoDup l.*1 -> (x, a) ∈ l -> (x, b) ∈ l -> a = b.
Proof.
  induction l as [|[k v] l IH]; cbn; [by intros _ ?%not_elem_of_nil|].
  intros [Hk Hnd]%NoDup_cons. rewrite !elem_of_cons.
  assert (forall w, (k, w) ∉ l) as Hno by (intros w Hin; apply Hk; by apply (list_elem_of_fmap_2' fst _ _ _ Hin)).
  intros [[= -> ->]|Ha] [[= Hb]|Hb]; try by eauto.
  - subst. by apply Hno in Hb.
  - subst. by apply Hno in Ha.
Qed.

(** Lists strictly sorted by a key are determined by their elements. *)
Lemma sorted_by_unique {A} (R : A -> A -> Prop) (l k : list A) :
  (forall x, ~ R x x) -> Transitive R ->
  StronglySorted R l -> StronglySorted R k -> (forall x, x ∈ l <-> x ∈ k) -> l = k.
Proof.
  intros Hirr Htr Hl. revert k. induction Hl as [|x l Hl IH Hx]; intros k Hk Hm.
  - destruct k as [|y k]; [done|]. exfalso. apply (not_elem_of_nil y), Hm, elem_of_cons. by left.
  - destruct k as [|y k]; [exfalso; apply (not_elem_of_nil x), Hm, elem_of_cons; by left|].
    apply StronglySorted_inv in Hk as [Hk Hy]. rewrite Forall_forall in Hx, Hy.
    assert (x = y) as <-.
    { destruct (proj1 (elem_of_cons _ _ _) (proj1 (Hm x) ltac:(apply elem_of_cons; by left)))
        as [|Hxk]; [done|].
      destruct (proj1 (elem_of_cons _ _ _) (proj2 (Hm y) ltac:(apply elem_of_cons; by left)))
        as [|Hyl]; [done|]. destruct (Hirr x). etrans; [by apply Hx|by apply Hy]. }
    f_equal. apply IH; [done|]. intros z. specialize (Hm z). rewrite !elem_of_cons in Hm.
    split; intros Hz.
    + destruct (proj1 Hm (or_intror Hz)) as [->|?]; [|done]. exfalso. by eapply Hirr, Hx.
    + destruct (proj2 Hm (or_intror Hz)) as [->|?]; [|done]. exfalso. by eapply Hirr, Hy.
Qed.

Lemma StronglySorted_filter {A} (R : A -> A -> Prop) (P : A -> Prop) `{forall x, Decision (P x)} l :
  StronglySorted R l -> StronglySorted R (filter P l).
Proof.
  induction 1 as [|x l Hs IH Hx]; [constructor|]. rewrite filter_cons.
  destruct (decide (P x)); [|done]. constructor; [done|].
  rewrite Forall_forall in *. intros y [_ Hy]%list_elem_of_filter. by apply Hx.
Qed.

Lemma filter_all {A} (P : A -> Prop) `{forall x, Decision (P x)} l : Forall P l -> filter P l = l.
Proof. induction 1 as [|x l Hx _ IH]; [done|]. by rewrite filter_cons_True, IH. Qed.
Lemma NoDup_fmap_filter {A B} (f : A -> B) (P : A -> Prop) `{forall x, Decision (P x)} (l : list A) :
  NoDup (f <$> l) -> NoDup (f <$> filter P l).
Proof.
  induction l as [|x l IH]; [done|]. rewrite fmap_cons, filter_cons. intros [Hx Hl]%NoDup_cons. case_decide; [|by apply IH].
  cbn. apply NoDup_cons. split; [|by apply IH]. intros (y & E & [_ Hy]%list_elem_of_filter)%list_elem_of_fmap.
  apply Hx. rewrite E. by apply list_elem_of_fmap_2.
Qed.
Lemma filter_none {A} (P : A -> Prop) `{forall x, Decision (P x)} l :
  (forall x, x ∈ l -> ~ P x) -> filter P l = [].
Proof.
  induction l as [|x l IH]; intros Hn; [done|]. rewrite filter_cons, decide_False.
  - apply IH. intros y Hy. apply Hn, elem_of_cons. by right.
  - apply Hn, elem_of_cons. by left.
Qed.

(** A sorted list is split by a bound. *)
Lemma sorted_split {A} (f : A -> Z) b (l : list A) :
  StronglySorted (fun x y => f x < f y) l -> l = filter (fun x => f x <= b) l ++ filter (fun x => b < f x) l.
Proof.
  induction 1 as [|x l Hs IH Hlt]; [done|]. rewrite !filter_cons.
  destruct (decide (f x <= b)), (decide (b < f x)); try lia; [cbn; by f_equal|].
  rewrite Forall_forall in Hlt. rewrite filter_none; cbn [app].
  - f_equal. rewrite IH at 1. rewrite filter_none; [done|]. intros y Hy. specialize (Hlt _ Hy). lia.
  - intros y Hy. specialize (Hlt _ Hy). lia.
Qed.

(** ** Results of fallible code: a value, a returned error, or a panic *)
Inductive res (A : Type) : Type := Ok (a : A) | Err | Panic.
Arguments Ok {A} a.
Arguments Err {A}.
Arguments Panic {A}.

#[export] Instance res_ret : MRet res := @Ok.
#[export] Instance res_bind : MBind res :=
  fun A B f r => match r with Ok a => f a | Err => Err | Panic => Panic end.
#[export] Instance res_fmap : FMap res :=
  fun A B f r => match r with Ok a => Ok (f a) | Err => Err | Panic => Panic end.

(** [Result]s whose errors carry values. *)
#[export] Instance sum_bind E : MBind (sum E) := fun A B f r => match r with inl e => inl e | inr a => f a end.
#[export] Instance sum_fmap E : FMap (sum E) := fun A B f r => match r with inl e => inl e | inr a => inr (f a) end.

(** [ok_or_else(..)?] and [unwrap()]. *)
Definition ok_or {A} (o : option A) : res A := match o with Some a => Ok a | None => Err end.
Definition unwrap {A} (o : option A) : res A := match o with Some a => Ok a | None => Panic end.

Fixpoint res_mapM {A B} (f : A -> res B) (l : list A) : res (list B) :=
  match l with
  | [] => Ok []
  | a :: l => b ← f a; bs ← res_mapM f l; Ok (b :: bs)
  end.

Lemma StronglySorted_impl {A} (R R' : A -> A -> Prop) l :
  StronglySorted R l -> (forall x y, x ∈ l -> y ∈ l -> R x y -> R' x y) -> StronglySorted R' l.
Proof.
  induction 1 as [|x l Hs IH Hx]; intros Himp; [constructor|]. constructor.
  - apply IH. intros y z Hy Hz. apply Himp; apply elem_of_cons; by right.
  - rewrite Forall_forall in *. intros y Hy.
    apply Himp; [apply elem_of_cons; by left|apply elem_of_cons; by right|by apply Hx].
Qed.

Lemma filter_on {A} (P Q : A -> Prop) `{forall x, Decision (P x)} `{forall x, Decision (Q x)} (l : list A) :
  (forall x, x ∈ l -> P x <-> Q x) -> filter P l = filter Q l.
Proof.
  induction l as [|x l IH]; intros Hl; [done|]. rewrite !filter_cons, IH.
  - apply decide_ext. apply Hl, elem_of_cons. by left.
  - intros y Hy. apply Hl, elem_of_cons. by right.
Qed.
