(* ===== verification/Text.v ===== *)
(** * Texts of the Rust standard library

    The functions on strings, characters and numbers in decimal notation that
    several components call. Strings are lists of UTF-8 bytes. *)

From S2P Require Import Prelude.
#[local] Open Scope Z_scope.

Definition is_ascii_whitespace (ch : Z) : bool := (ch =? 32) || (ch =? 9) || (ch =? 10) || (ch =? 12) || (ch =? 13).
Definition to_ascii_lowercase (ch : Z) : Z := if (65 <=? ch) && (ch <=? 90) then ch + 32 else ch.
Definition eq_ignore_ascii_case (s s' : list Z) : bool :=
  bool_decide (map to_ascii_lowercase s = map to_ascii_lowercase s').

(** [str::parse] of an unsigned integer of [w] bits: digits after an optional
    plus sign, without overflow. *)
Fixpoint parse_digits (w acc : Z) (s : list Z) : option Z :=
  match s with
  | [] => Some acc
  | ch :: s =>
      if (48 <=? ch) && (ch <=? 57) && (acc * 10 + (ch - 48) <? 2 ^ w) then parse_digits w (acc * 10 + (ch - 48)) s else None
  end.
Definition parse_uint (w : Z) (s : list Z) : option Z :=
  match s with
  | [] | [43] => None
  | 43 :: s => parse_digits w 0 s
  | _ => parse_digits w 0 s
  end.

(** Decimal digits, as [format!] prints an unsigned integer of up to 64 bits. *)
Fixpoint decimal_loop (fuel : nat) (n : Z) (acc : list Z) : list Z :=
  match fuel with
  | O => acc
  | S fuel => let acc := (48 + n mod 10) :: acc in if n <? 10 then acc else decimal_loop fuel (n / 10) acc
  end.
Definition decimal (n : Z) : list Z := decimal_loop 20 n [].

(** [str::split_once]: the parts before and after the first [ch]. *)
Fixpoint split_once (ch : Z) (s : list Z) : option (list Z * list Z) :=
  match s with
  | [] => None
  | c :: s => if c =? ch then Some ([], s) else prod_map (cons c) id <$> split_once ch s
  end.

(** ** Lemmas *)

Definition is_digit (ch : Z) : Prop := 48 <= ch <= 57.
Definition digits_value (s : list Z) : Z := foldl (fun v ch => v * 10 + (ch - 48)) 0 s.

Lemma decimal_loop_app fuel n acc : decimal_loop fuel n acc = decimal_loop fuel n [] ++ acc.
Proof.
  revert n acc. induction fuel as [|fuel IH]; intros n acc; [done|]. cbn [decimal_loop].
  destruct (n <? 10); [done|]. rewrite IH, (IH _ [_]), <- app_assoc. done.
Qed.

Lemma decimal_loop_digits fuel n : Forall is_digit (decimal_loop fuel n []).
Proof.
  revert n. induction fuel as [|fuel IH]; intros n; [constructor|]. cbn [decimal_loop].
  assert (is_digit (48 + n mod 10)) by (unfold is_digit; pose proof (Z.mod_pos_bound n 10); lia).
  destruct (n <? 10); [by apply Forall_singleton|]. rewrite decimal_loop_app.
  apply Forall_app. by rewrite Forall_singleton.
Qed.

Lemma decimal_digits n : Forall is_digit (decimal n).
Proof. apply decimal_loop_digits. Qed.

Lemma decimal_loop_value fuel n : 0 <= n < 10 ^ Z.of_nat fuel -> digits_value (decimal_loop fuel n []) = n.
Proof.
  revert n. induction fuel as [|fuel IH]; intros n Hn; [cbn in *; lia|]. cbn [decimal_loop].
  pose proof (Z.div_mod n 10). destruct (Z.ltb_spec n 10).
  - cbn. rewrite Z.mod_small; lia.
  - rewrite decimal_loop_app. unfold digits_value in *. rewrite foldl_app, IH; [cbn; lia|].
    rewrite Nat2Z.inj_succ, Z.pow_succ_r in Hn by lia.
    split; [apply Z.div_pos; lia|apply Z.div_lt_upper_bound; lia].
Qed.

Lemma decimal_value n : fits 64 n -> digits_value (decimal n) = n.
Proof. intros Hn. apply decimal_loop_value. unfold fits in Hn. cbn in *. lia. Qed.

Lemma decimal_inj n n' : fits 64 n -> fits 64 n' -> decimal n = decimal n' -> n = n'.
Proof. intros Hn Hn' E. by rewrite <- (decimal_value n), E, decimal_value. Qed.

Lemma decimal_nonempty n : decimal n <> [].
Proof.
  unfold decimal. change 20%nat with (S 19). generalize 19%nat. intros fuel. cbn [decimal_loop]. destruct (n <? 10); [done|].
  rewrite decimal_loop_app. by intros [_ ?]%app_nil.
Qed.

Lemma digits_grow v s : 0 <= v -> Forall is_digit s -> v <= foldl (fun v ch => v * 10 + (ch - 48)) v s.
Proof.
  intros Hv Hs. revert v Hv. induction Hs as [|c s Hc Hs IH]; intros v Hv; cbn; [lia|].
  unfold is_digit in Hc. etrans; [|apply IH]; lia.
Qed.

Lemma parse_digits_value w v s :
  0 <= v -> Forall is_digit s -> foldl (fun v ch => v * 10 + (ch - 48)) v s < 2 ^ w ->
  parse_digits w v s = Some (foldl (fun v ch => v * 10 + (ch - 48)) v s).
Proof.
  intros Hv Hs. revert v Hv. induction Hs as [|c s Hc Hs IH]; intros v Hv Hw; cbn in *; [done|].
  unfold is_digit in Hc. pose proof (digits_grow (v * 10 + (c - 48)) s ltac:(lia) Hs).
  rewrite (proj2 (Z.leb_le 48 c)), (proj2 (Z.leb_le c 57)), (proj2 (Z.ltb_lt _ _)) by lia. cbn. apply IH; lia.
Qed.

Lemma parse_decimal w n : w <= 64 -> fits w n -> parse_uint w (decimal n) = Some n.
Proof.
  intros Hw Hn. assert (fits 64 n) as Hn'.
  { unfold fits in *. destruct Hn as [? Hn]. split; [done|]. eapply Z.lt_le_trans; [exact Hn|].
    apply Z.pow_le_mono_r; lia. }
  assert (parse_uint w (decimal n) = parse_digits w 0 (decimal n)) as ->.
  { pose proof (decimal_digits n) as Hd. pose proof (decimal_nonempty n).
    destruct (decimal n) as [|c s]; [done|]. apply Forall_cons in Hd as [Hc _].
    unfold is_digit in Hc. assert (c = 48 \/ c = 49 \/ c = 50 \/ c = 51 \/ c = 52 \/ c = 53 \/ c = 54 \/
      c = 55 \/ c = 56 \/ c = 57) as Hcs by lia.
    repeat (destruct Hcs as [->|Hcs]; [by destruct s|]). subst c. by destruct s. }
  pose proof (decimal_value n Hn') as Hv. unfold digits_value in Hv.
  rewrite parse_digits_value, Hv; [done|lia|apply decimal_digits|]. rewrite Hv. unfold fits in Hn. lia.
Qed.

Lemma split_once_first ch a b : ch ∉ a -> split_once ch (a ++ ch :: b) = Some (a, b).
Proof.
  intros Ha. induction a as [|c a IH]; cbn.
  - by rewrite Z.eqb_refl.
  - apply not_elem_of_cons in Ha as [? Ha]. rewrite (proj2 (Z.eqb_neq c ch)) by congruence. by rewrite IH.
Qed.

Lemma split_once_Some ch s a b : split_once ch s = Some (a, b) -> s = a ++ ch :: b /\ ch ∉ a.
Proof.
  revert a b. induction s as [|c s IH]; intros a b E; [done|]. cbn in E.
  destruct (Z.eqb_spec c ch) as [->|Hc]; [injection E as <- <-; split; [done|apply not_elem_of_nil]|].
  destruct (split_once ch s) as [[a' b']|]; [|done]. injection E as <- <-.
  destruct (IH _ _ eq_refl) as [-> ?]. split; [done|]. apply not_elem_of_cons. split; congruence.
Qed.

(** The first occurrence of a separator determines both parts. *)
Lemma separated_inj (ch : Z) a b a' b' : ch ∉ a -> ch ∉ a' -> a ++ ch :: b = a' ++ ch :: b' -> a = a' /\ b = b'.
Proof.
  intros Ha Ha' E. pose proof (split_once_first ch a b Ha) as H1. rewrite E, split_once_first in H1 by done.
  injection H1 as -> ->. done.
Qed.
