(* ===== verification/Lang.v ===== *)
(** * Languages: components/store/src/nlp/mod.rs, nlp/lang.rs

    The languages of the store, their ISO 639 codes, and [LanguageDetector],
    which guesses the language of texts: each text adds the guess of the
    [whatlang] crate, weighted by the length of the text, and the language with
    the highest score wins. Scores are [f64]: IEEE 754 binary64, computed by
    the Standard Library's specification of floating point. The order in which
    a hash map is iterated decides between equal scores and is left open. *)

From Stdlib Require Import SpecFloat String Ascii.
From S2P Require Import Prelude.
#[local] Open Scope Z_scope.

Module Language.
Inductive t : Set :=
| Esperanto | English | Russian | Mandarin | Spanish | Portuguese | Italian | Bengali | French | German
| Ukrainian | Georgian | Arabic | Hindi | Japanese | Hebrew | Yiddish | Polish | Amharic | Javanese | Korean
| Bokmal | Danish | Swedish | Finnish | Turkish | Dutch | Hungarian | Czech | Greek | Bulgarian | Belarusian
| Marathi | Kannada | Romanian | Slovene | Croatian | Serbian | Macedonian | Lithuanian | Latvian | Estonian
| Tamil | Vietnamese | Urdu | Thai | Gujarati | Uzbek | Punjabi | Azerbaijani | Indonesian | Telugu | Persian
| Malayalam | Oriya | Burmese | Nepali | Sinhalese | Khmer | Turkmen | Akan | Zulu | Shona | Afrikaans
| Latin | Slovak | Catalan | Tagalog | Armenian | Unknown | None_.

Definition all : list t :=
  [Esperanto; English; Russian; Mandarin; Spanish; Portuguese; Italian; Bengali; French; German; Ukrainian;
   Georgian; Arabic; Hindi; Japanese; Hebrew; Yiddish; Polish; Amharic; Javanese; Korean; Bokmal; Danish;
   Swedish; Finnish; Turkish; Dutch; Hungarian; Czech; Greek; Bulgarian; Belarusian; Marathi; Kannada;
   Romanian; Slovene; Croatian; Serbian; Macedonian; Lithuanian; Latvian; Estonian; Tamil; Vietnamese; Urdu;
   Thai; Gujarati; Uzbek; Punjabi; Azerbaijani; Indonesian; Telugu; Persian; Malayalam; Oriya; Burmese;
   Nepali; Sinhalese; Khmer; Turkmen; Akan; Zulu; Shona; Afrikaans; Latin; Slovak; Catalan; Tagalog;
   Armenian; Unknown; None_].

(** [language as usize]. *)
Definition code (l : t) : Z :=
  match l with
  | Esperanto => 0 | English => 1 | Russian => 2 | Mandarin => 3 | Spanish => 4 | Portuguese => 5
  | Italian => 6 | Bengali => 7 | French => 8 | German => 9 | Ukrainian => 10 | Georgian => 11 | Arabic => 12
  | Hindi => 13 | Japanese => 14 | Hebrew => 15 | Yiddish => 16 | Polish => 17 | Amharic => 18
  | Javanese => 19 | Korean => 20 | Bokmal => 21 | Danish => 22 | Swedish => 23 | Finnish => 24
  | Turkish => 25 | Dutch => 26 | Hungarian => 27 | Czech => 28 | Greek => 29 | Bulgarian => 30
  | Belarusian => 31 | Marathi => 32 | Kannada => 33 | Romanian => 34 | Slovene => 35 | Croatian => 36
  | Serbian => 37 | Macedonian => 38 | Lithuanian => 39 | Latvian => 40 | Estonian => 41 | Tamil => 42
  | Vietnamese => 43 | Urdu => 44 | Thai => 45 | Gujarati => 46 | Uzbek => 47 | Punjabi => 48
  | Azerbaijani => 49 | Indonesian => 50 | Telugu => 51 | Persian => 52 | Malayalam => 53 | Oriya => 54
  | Burmese => 55 | Nepali => 56 | Sinhalese => 57 | Khmer => 58 | Turkmen => 59 | Akan => 60 | Zulu => 61
  | Shona => 62 | Afrikaans => 63 | Latin => 64 | Slovak => 65 | Catalan => 66 | Tagalog => 67
  | Armenian => 68 | Unknown => 69 | None_ => 70
  end.

Lemma all_code l : all !! Z.to_nat (code l) = Some l.
Proof. by destruct l. Qed.

Lemma code_inj l l' : code l = code l' -> l = l'.
Proof. intros E. pose proof (all_code l) as Hl. rewrite E, all_code in Hl. by injection Hl. Qed.

#[export] Instance eq_dec : EqDecision t.
Proof.
  intros l l'. destruct (Z.eq_dec (code l) (code l')) as [E|E].
  - left. by apply code_inj.
  - right. congruence.
Defined.

Lemma code_range l : 0 <= code l <= 70.
Proof. destruct l; cbn; lia. Qed.
End Language.
#[export] Existing Instance Language.eq_dec.
Abbreviation Language := Language.t (only parsing).
Abbreviation English := Language.English.
Abbreviation Mandarin := Language.Mandarin.
Abbreviation Japanese := Language.Japanese.
Abbreviation Unknown := Language.Unknown.

(** The characters of an ASCII literal. *)
Definition chars (s : string) : list Z := map (fun c => Z.of_N (N_of_ascii c)) (list_ascii_of_string s).

(** The part of a text before the first occurrence of a character:
    [split_once(ch).map(|c| c.0).unwrap_or(text)]. *)
Fixpoint until (ch : Z) (text : list Z) : list Z :=
  match text with [] => [] | c :: text => if c =? ch then [] else c :: until ch text end.

Definition ISO_639 : list (string * Language) :=
  [("en", Language.English); ("es", Language.Spanish); ("pt", Language.Portuguese); ("it", Language.Italian);
   ("fr", Language.French); ("de", Language.German); ("ru", Language.Russian); ("zh", Language.Mandarin);
   ("ja", Language.Japanese); ("ar", Language.Arabic); ("hi", Language.Hindi); ("ko", Language.Korean);
   ("bn", Language.Bengali); ("he", Language.Hebrew); ("ur", Language.Urdu); ("fa", Language.Persian);
   ("ml", Language.Malayalam); ("or", Language.Oriya); ("my", Language.Burmese); ("ne", Language.Nepali);
   ("si", Language.Sinhalese); ("km", Language.Khmer); ("tk", Language.Turkmen); ("am", Language.Amharic);
   ("az", Language.Azerbaijani); ("id", Language.Indonesian); ("te", Language.Telugu);
   ("ta", Language.Tamil); ("vi", Language.Vietnamese); ("gu", Language.Gujarati); ("pa", Language.Punjabi);
   ("uz", Language.Uzbek); ("hy", Language.Armenian); ("ka", Language.Georgian); ("la", Language.Latin);
   ("sl", Language.Slovene); ("hr", Language.Croatian); ("sr", Language.Serbian);
   ("mk", Language.Macedonian); ("lt", Language.Lithuanian); ("lv", Language.Latvian);
   ("et", Language.Estonian); ("tl", Language.Tagalog); ("af", Language.Afrikaans); ("zu", Language.Zulu);
   ("sn", Language.Shona); ("ak", Language.Akan)]%string.
Definition from_iso_639 (code : list Z) : option Language :=
  snd <$> find (fun e => bool_decide (chars e.1 = until 45 code)) ISO_639.

(** ** Detection *)

(** The UTF-8 length of a character and of a text. *)
Definition len_utf8 (c : Z) : Z :=
  if c <? 0x80 then 1 else if c <? 0x800 then 2 else if c <? 0x10000 then 3 else 4.
Fixpoint str_len (s : list Z) : Z :=
  match s with [] => 0 | c :: s => len_utf8 c + str_len s end.

(** [f64]. *)
Abbreviation f64 := spec_float.
Definition f64_add : f64 -> f64 -> f64 := SFadd 53 1024.
Definition f64_mul : f64 -> f64 -> f64 := SFmul 53 1024.
Definition f64_div : f64 -> f64 -> f64 := SFdiv 53 1024.
Definition f64_of (n : Z) : f64 := binary_normalize 53 1024 n 0 false.
Definition f64_zero : f64 := S754_zero false.

(** The languages of [whatlang]. *)
Module Lang.
Inductive t : Set :=
| Epo | Eng | Rus | Cmn | Spa | Por | Ita | Ben | Fra | Deu | Ukr | Kat | Ara | Hin | Jpn | Heb | Yid | Pol
| Amh | Jav | Kor | Nob | Dan | Swe | Fin | Tur | Nld | Hun | Ces | Ell | Bul | Bel | Mar | Kan | Ron | Slv
| Hrv | Srp | Mkd | Lit | Lav | Est | Tam | Vie | Urd | Tha | Guj | Uzb | Pan | Aze | Ind | Tel | Pes | Mal
| Ori | Mya | Nep | Sin | Khm | Tuk | Aka | Zul | Sna | Afr | Lat | Slk | Cat | Tgl | Hye.
End Lang.

Definition lang_language (lang : Lang.t) : Language :=
  match lang with
  | Lang.Epo => Language.Esperanto | Lang.Eng => Language.English | Lang.Rus => Language.Russian
  | Lang.Cmn => Language.Mandarin | Lang.Spa => Language.Spanish | Lang.Por => Language.Portuguese
  | Lang.Ita => Language.Italian | Lang.Ben => Language.Bengali | Lang.Fra => Language.French
  | Lang.Deu => Language.German | Lang.Ukr => Language.Ukrainian | Lang.Kat => Language.Georgian
  | Lang.Ara => Language.Arabic | Lang.Hin => Language.Hindi | Lang.Jpn => Language.Japanese
  | Lang.Heb => Language.Hebrew | Lang.Yid => Language.Yiddish | Lang.Pol => Language.Polish
  | Lang.Amh => Language.Amharic | Lang.Jav => Language.Javanese | Lang.Kor => Language.Korean
  | Lang.Nob => Language.Bokmal | Lang.Dan => Language.Danish | Lang.Swe => Language.Swedish
  | Lang.Fin => Language.Finnish | Lang.Tur => Language.Turkish | Lang.Nld => Language.Dutch
  | Lang.Hun => Language.Hungarian | Lang.Ces => Language.Czech | Lang.Ell => Language.Greek
  | Lang.Bul => Language.Bulgarian | Lang.Bel => Language.Belarusian | Lang.Mar => Language.Marathi
  | Lang.Kan => Language.Kannada | Lang.Ron => Language.Romanian | Lang.Slv => Language.Slovene
  | Lang.Hrv => Language.Croatian | Lang.Srp => Language.Serbian | Lang.Mkd => Language.Macedonian
  | Lang.Lit => Language.Lithuanian | Lang.Lav => Language.Latvian | Lang.Est => Language.Estonian
  | Lang.Tam => Language.Tamil | Lang.Vie => Language.Vietnamese | Lang.Urd => Language.Urdu
  | Lang.Tha => Language.Thai | Lang.Guj => Language.Gujarati | Lang.Uzb => Language.Uzbek
  | Lang.Pan => Language.Punjabi | Lang.Aze => Language.Azerbaijani | Lang.Ind => Language.Indonesian
  | Lang.Tel => Language.Telugu | Lang.Pes => Language.Persian | Lang.Mal => Language.Malayalam
  | Lang.Ori => Language.Oriya | Lang.Mya => Language.Burmese | Lang.Nep => Language.Nepali
  | Lang.Sin => Language.Sinhalese | Lang.Khm => Language.Khmer | Lang.Tuk => Language.Turkmen
  | Lang.Aka => Language.Akan | Lang.Zul => Language.Zulu | Lang.Sna => Language.Shona
  | Lang.Afr => Language.Afrikaans | Lang.Lat => Language.Latin | Lang.Slk => Language.Slovak
  | Lang.Cat => Language.Catalan | Lang.Tgl => Language.Tagalog | Lang.Hye => Language.Armenian
  end.

Record WeightedAverage := mkAverage { wa_weight : Z; wa_occurrences : Z; wa_confidence : f64 }.
(** The map of the detector in the order of its first insertions. *)
Abbreviation LanguageDetector := (list (Language * WeightedAverage)) (only parsing).

(** [whatlang::detect], and the order of iteration of a hash map. *)
Class Whatlang := {
  whatlang_detect : list Z -> option (Lang.t * f64);
  iteration_order : LanguageDetector -> LanguageDetector
}.
Class WhatlangLaws `{Whatlang} : Prop := { iteration_perm m : iteration_order m ≡ₚ m }.

Section Detector.
Context `{Whatlang}.

Definition detect_single (text : list Z) : option (Language * f64) :=
  '(lang, confidence) ← whatlang_detect text; Some (lang_language lang, confidence).

(** [entry(language).or_insert_with(..)] and the update of the entry. *)
Fixpoint update_entry (f : WeightedAverage -> WeightedAverage) (language : Language) (m : LanguageDetector) : LanguageDetector :=
  match m with
  | [] => [(language, f (mkAverage 0 0 f64_zero))]
  | (l, w) :: m => if bool_decide (l = language) then (l, f w) :: m else (l, w) :: update_entry f language m
  end.

(** The score of a text below which [detect] returns [Unknown] does not change
    what is recorded. *)
Definition lang_detect (m : LanguageDetector) (text : list Z) (min_score : f64) : LanguageDetector * Language :=
  match detect_single text with
  | Some (language, confidence) =>
      (update_entry (fun w => mkAverage (wa_weight w + str_len text) (wa_occurrences w + 1)
         (f64_add (wa_confidence w) (f64_mul confidence (f64_of (str_len text))))) language m,
       match SFcompare confidence min_score with Some Lt => Unknown | _ => language end)
  | None => (m, Unknown)
  end.

Definition score (w : WeightedAverage) : f64 :=
  f64_mul (f64_div (wa_confidence w) (f64_of (wa_weight w))) (f64_of (wa_occurrences w)).
(** [max_by]: the last of the greatest entries. *)
Fixpoint max_by (best : Language * WeightedAverage) (m : LanguageDetector) : Language * WeightedAverage :=
  match m with
  | [] => best
  | e :: m => max_by (match SFcompare (score best.2) (score e.2) with Some Gt => best | _ => e end) m
  end.
Definition most_frequent_language (m : LanguageDetector) : option Language :=
  match iteration_order m with [] => None | e :: m => Some (max_by e m).1 end.

(** [MIN_LANGUAGE_SCORE], 0.5. *)
Definition MIN_LANGUAGE_SCORE : f64 := S754_finite false 4503599627370496 (-53).
End Detector.

(** ** What the detector answers *)

Section Detected.
Context `{WhatlangLaws}.

Lemma update_entry_langs f language m l : l ∈ (update_entry f language m).*1 <-> l = language \/ l ∈ m.*1.
Proof.
  induction m as [|[l' w] m IH]; cbn [update_entry].
  - rewrite fmap_cons, elem_of_cons. done.
  - case_bool_decide as E; cbn [fmap list_fmap fst] in *; rewrite !elem_of_cons; [naive_solver|]. rewrite IH. naive_solver.
Qed.

Lemma detect_langs texts m min l :
  l ∈ (fold_left (fun m text => (lang_detect m text min).1) texts m).*1 <->
  l ∈ m.*1 \/ exists text confidence, text ∈ texts /\ detect_single text = Some (l, confidence).
Proof.
  revert m. induction texts as [|text texts IH]; intros m; cbn [fold_left].
  { split; [by left|]. intros [?|(? & ? & ?%not_elem_of_nil & _)]; done. }
  rewrite IH. unfold lang_detect. destruct (detect_single text) as [[l' c]|] eqn:E; cbn [fst].
  - rewrite update_entry_langs. split.
    + intros [[->|?]|(t & ? & ? & ?)]; [right; exists text, c; set_solver|by left|right; exists t; set_solver].
    + intros [?|(t & c' & [->|?]%elem_of_cons & Et)]; [naive_solver..|naive_solver].
  - split; [|].
    + intros [?|(t & ? & ? & ?)]; [by left|right; exists t; set_solver].
    + intros [?|(t & c' & [->|?]%elem_of_cons & Et)]; [by left|congruence|right; by exists t, c'].
Qed.

Lemma max_by_elem best m : max_by best m ∈ best :: m.
Proof.
  revert best. induction m as [|e m IH]; intros best; cbn [max_by]; [by apply list_elem_of_singleton|].
  pose proof (IH (match SFcompare (score best.2) (score e.2) with Some Gt => best | _ => e end)) as Hm.
  apply elem_of_cons in Hm as [->|?]; [|set_solver]. repeat case_match; set_solver.
Qed.

(** The language of a batch of texts is one that some text was guessed to have;
    there is none exactly when no text was guessed. *)
Lemma detected_language texts min :
  match most_frequent_language (fold_left (fun m text => (lang_detect m text min).1) texts []) with
  | Some l => exists text confidence, text ∈ texts /\ detect_single text = Some (l, confidence)
  | None => forall text, text ∈ texts -> detect_single text = None
  end.
Proof.
  set (m := fold_left _ _ _). pose proof (iteration_perm m) as Hp. unfold most_frequent_language.
  destruct (iteration_order m) as [|e m'].
  - intros text Hin. destruct (detect_single text) as [[l c]|] eqn:E; [|done].
    assert (l ∈ m.*1) as Hl by (apply detect_langs; right; by exists text, c).
    by rewrite <- Hp in Hl; apply not_elem_of_nil in Hl.
  - assert ((max_by e m').1 ∈ m.*1) as [Hl|?]%detect_langs; [|by apply not_elem_of_nil in Hl|done].
    rewrite <- Hp. apply list_elem_of_fmap_2, max_by_elem.
Qed.

Lemma lang_language_known lang : lang_language lang <> Unknown /\ lang_language lang <> Language.None_.
Proof. by destruct lang. Qed.

(** So a guessed language is neither unknown nor none. *)
Lemma detected_known texts min l :
  most_frequent_language (fold_left (fun m text => (lang_detect m text min).1) texts []) = Some l ->
  l <> Unknown /\ l <> Language.None_.
Proof.
  pose proof (detected_language texts min) as Hd. intros E. rewrite E in Hd. destruct Hd as (text & c & _ & Ed).
  unfold detect_single in Ed. destruct (whatlang_detect text) as [[lang c']|]; [|done]. injection Ed as <- _.
  apply lang_language_known.
Qed.
End Detected.
