(* ===== verification/Leb128.v ===== *)
(** * Variable-length integers: components/store/src/serialize/leb128.rs

    The encoder [to_leb128_bytes], the writer-based encoder
    [to_leb128_writer], the two decoders ([from_leb128_bytes] on slices,
    [from_leb128_it] on any byte iterator) and the two skippers, for the five
    integer types the macro [impl_unsigned_leb128!] instantiates.

    The trait bounds of the source are classes: [ByteIterator] for
    [Iterator<Item = u8>] and [IoWrite] for [std::io::Write]. *)

From S2P Require Import Prelude.

(** The instantiations of [impl_unsigned_leb128!]: the type and its shifts. *)
Inductive int_ty : Set := U8 | U16 | U32 | U64 | Usize.

Definition bits (t : int_ty) : Z :=
  match t with U8 => 8 | U16 => 16 | U32 => 32 | U64 | Usize => 64 end.

Definition shifts (t : int_ty) : list Z :=
  match t with
  | U8 => [0]
  | U16 => [0; 7; 14]
  | U32 => [0; 7; 14; 21; 28]
  | U64 | Usize => [0; 7; 14; 21; 28; 35; 42; 49; 56; 63]
  end.

(** [Iterator::next] of a byte iterator and [Write::write] of a byte sink. *)
Class ByteIterator (S : Type) := it_next : S -> option (Z * S).
Class IoWrite (W : Type) := io_write : W -> list Z -> option (W * Z).

(** [std::slice::Iter<u8>]. *)
#[export] Instance slice_iter : ByteIterator (list Z) :=
  fun l => match l with [] => None | b :: l' => Some (b, l') end.

(** The encoding loop. The fuel is the number of loop iterations; ten cover
    every 64-bit value ([leb128_unfold]). *)
Fixpoint to_leb128_loop (fuel : nat) (value : Z) : list Z :=
  match fuel with
  | O => []
  | S fuel =>
      if value <? 0x80 then [u8 value]
      else u8 (Z.lor (Z.land value 0x7f) 0x80) :: to_leb128_loop fuel (value ≫ 7)
  end.

Definition leb128_fuel : nat := 10.

Definition leb128 (value : Z) : list Z := to_leb128_loop leb128_fuel value.

(** [to_leb128_bytes] and its alias [Vec::push_leb128] append to the buffer. *)
Definition to_leb128_bytes (value : Z) (out : list Z) : list Z := out ++ leb128 value.
Definition push_leb128 (out : list Z) (value : Z) : list Z := to_leb128_bytes value out.

(** [to_leb128_writer]: one [write] call per byte, counting bytes written. *)
Fixpoint to_leb128_writer_loop `{IoWrite W} (fuel : nat) (value : Z) (out : W)
    (bytes_written : Z) : option (W * Z) :=
  match fuel with
  | O => None
  | S fuel =>
      if value <? 0x80 then
        '(out, n) ← io_write out [u8 value]; Some (out, bytes_written + n)
      else
        '(out, n) ← io_write out [u8 (Z.lor (Z.land value 0x7f) 0x80)];
        to_leb128_writer_loop fuel (value ≫ 7) out (bytes_written + n)
  end.

Definition to_leb128_writer `{IoWrite W} (value : Z) (out : W) : option (W * Z) :=
  to_leb128_writer_loop leb128_fuel value out 0.

(** [from_leb128_it]: zips the shifts with the iterator, so it reads at most
    one byte per shift; [<<] discards the bits above the width. *)
Fixpoint from_leb128_loop `{ByteIterator It} (w : Z) (shifts : list Z) (result : Z)
    (it : It) : option (Z * It) :=
  match shifts with
  | [] => None
  | shift :: shifts =>
      match it_next it with
      | None => None
      | Some (byte, it) =>
          if Z.land byte 0x80 =? 0 then
            Some (Z.lor result (wrap w (byte ≪ shift)), it)
          else
            from_leb128_loop w shifts
              (Z.lor result (wrap w (Z.land byte 0x7f ≪ shift))) it
      end
  end.

Definition from_leb128_it `{ByteIterator It} (t : int_ty) (it : It) : option (Z * It) :=
  from_leb128_loop (bits t) (shifts t) 0 it.
Abbreviation next_leb128 := from_leb128_it.

(** [from_leb128_bytes]: the same on a slice, returning the bytes consumed. *)
Fixpoint from_leb128_bytes_loop (w : Z) (shifts : list Z) (pos : nat) (result : Z)
    (slice : list Z) : option (Z * nat) :=
  match shifts, slice with
  | shift :: shifts, byte :: slice =>
      if Z.land byte 0x80 =? 0 then
        Some (Z.lor result (wrap w (byte ≪ shift)), Nat.add pos 1)
      else
        from_leb128_bytes_loop w shifts (S pos)
          (Z.lor result (wrap w (Z.land byte 0x7f ≪ shift))) slice
  | _, _ => None
  end.

Definition from_leb128_bytes (t : int_ty) (slice : list Z) : option (Z * nat) :=
  from_leb128_bytes_loop (bits t) (shifts t) 0 0 slice.
Abbreviation read_leb128 := from_leb128_bytes.

(** [Leb128Iterator::skip_leb128] on a slice iterator. *)
Fixpoint skip_leb128 (it : list Z) : option (list Z) :=
  match it with
  | [] => None
  | byte :: it => if Z.land byte 0x80 =? 0 then Some it else skip_leb128 it
  end.

(** [Leb128Reader::skip_leb128]: the position after the encoded integer. *)
Fixpoint skip_leb128_pos (pos : nat) (slice : list Z) : option nat :=
  match slice with
  | [] => None
  | byte :: slice =>
      if Z.land byte 0x80 =? 0 then Some (Nat.add pos 1) else skip_leb128_pos (S pos) slice
  end.

(** The loop [for pos in 0..count { acc = f(pos, acc, it.next_leb128()?) }]
    over a slice iterator. Every iteration consumes a byte, so the length of
    the input bounds the iterations that succeed. *)
Fixpoint for_leb128_loop {A} (t : int_ty) (fuel : nat) (f : Z -> A -> Z -> A) (pos count : Z)
    (acc : A) (it : list Z) : option (A * list Z) :=
  if count <=? pos then Some (acc, it)
  else
    match fuel with
    | O => None
    | S fuel =>
        '(id, it) ← from_leb128_it t it;
        for_leb128_loop t fuel f (pos + 1) count (f pos acc id) it
    end.

Definition for_leb128 {A} (t : int_ty) (f : Z -> A -> Z -> A) (count : Z) (acc : A) (it : list Z)
    : option (A * list Z) :=
  for_leb128_loop t (length it) f 0 count acc it.

(** ** The iterator protocol: [yields it bs it'] holds when calling [next]
    [length bs] times on [it] produces [bs] and leaves the iterator at [it']. *)
Inductive yields `{ByteIterator It} : It -> list Z -> It -> Prop :=
| yields_nil it : yields it [] it
| yields_cons it b it' bs it'' :
    it_next it = Some (b, it') -> yields it' bs it'' -> yields it (b :: bs) it''.
#[export] Hint Constructors yields : core.

Lemma slice_yields (bs rest : list Z) : yields (bs ++ rest) bs rest.
Proof. induction bs; by econstructor. Qed.

(** ** Encoding *)

Lemma leb128_low_byte v :
  128 <= v -> u8 (Z.lor (Z.land v 0x7f) 0x80) = v mod 128 + 128.
Proof.
  intros H. pose proof (Z.mod_pos_bound v 128 ltac:(lia)) as Hm.
  change (u8 (Z.lor (Z.land v (2 ^ 7 - 1)) (1 * 2 ^ 7)) = v mod 128 + 128).
  rewrite land_mask, lor_disjoint_add by done.
  apply wrap_small. unfold fits. lia.
Qed.

Lemma shiftr7 v : v ≫ 7 = v / 128.
Proof. by rewrite Z.shiftr_div_pow2 by lia. Qed.

Lemma leb128_high_bit m : 0 <= m < 128 -> (Z.land (m + 128) 0x80 =? 0) = false.
Proof.
  intros Hm. apply Z.eqb_neq. intros H.
  assert (Z.testbit (Z.land (m + 128) 0x80) 7 = false) as Hb by (rewrite H; apply Z.bits_0).
  rewrite Z.land_spec, andb_true_r in Hb.
  apply Z.testbit_false in Hb; [|lia]. change (2 ^ 7) with 128 in Hb.
  replace (m + 128) with (1 * 128 + m) in Hb by lia.
  rewrite Z.div_add_l, (Z.div_small m) in Hb by lia. discriminate Hb.
Qed.

Lemma leb128_low_bit v : 0 <= v < 128 -> (Z.land v 0x80 =? 0) = true.
Proof.
  intros Hv. apply Z.eqb_eq, Z.bits_inj'. intros i Hi. rewrite Z.land_spec, Z.bits_0.
  destruct (Z.eq_dec i 7) as [->|Hne].
  - rewrite (fits_testbit 7) by (unfold fits; lia). done.
  - replace (Z.testbit 0x80 i) with false; [apply andb_false_r|].
    change 0x80 with (2 ^ 7). symmetry. apply Z.pow2_bits_false. lia.
Qed.

Lemma leb128_low_bits m : 0 <= m < 128 -> Z.land (m + 128) 0x7f = m.
Proof.
  intros Hm. change 0x7f with (2 ^ 7 - 1). rewrite land_mask by lia.
  replace (m + 128) with (m + 1 * 2 ^ 7) by lia.
  rewrite Z.mod_add by lia. by apply Z.mod_small.
Qed.

(** The fuel suffices: ten steps satisfy the loop equation of the source for
    every 64-bit value. *)
Lemma to_leb128_loop_fuel n m v :
  (n <= m)%nat -> 0 <= v < 2 ^ (7 * Z.of_nat n) -> to_leb128_loop m v = to_leb128_loop n v \/ v = 0 /\ n = O.
Proof.
  revert m v. induction n as [|n IH]; intros m v Hnm Hv.
  - right. split; [|done]. change (2 ^ _) with 1 in Hv. lia.
  - left. destruct m as [|m]; [lia|]. cbn [to_leb128_loop].
    destruct (Z.ltb_spec v 0x80); [done|]. f_equal.
    rewrite shiftr7. destruct (IH m (v / 128)) as [IHeq|[Hz ->]]; [lia| |done|].
    + replace (7 * Z.of_nat (S n)) with (7 * Z.of_nat n + 7) in Hv by lia.
      rewrite Z.pow_add_r in Hv by lia. change (2 ^ 7) with 128 in Hv.
      split; [apply Z.div_pos; lia|apply Z.div_lt_upper_bound; lia].
    + change (2 ^ _) with 128 in Hv. lia.
Qed.

Lemma leb128_unfold v :
  fits 64 v ->
  leb128 v = if v <? 0x80 then [u8 v] else (v mod 128 + 128) :: leb128 (v / 128).
Proof.
  intros [H0 H1]. unfold leb128, leb128_fuel.
  change (to_leb128_loop 10 v) with
    (if v <? 0x80 then [u8 v]
     else u8 (Z.lor (Z.land v 0x7f) 0x80) :: to_leb128_loop 9 (v ≫ 7)).
  destruct (Z.ltb_spec v 0x80); [done|].
  rewrite leb128_low_byte, shiftr7 by lia. f_equal.
  destruct (to_leb128_loop_fuel 9 10 (v / 128)) as [->|[_ ?]]; [lia| |done|done].
  split; [apply Z.div_pos; lia|apply Z.div_lt_upper_bound; lia].
Qed.


(** ** Decoding *)

(** The shift lists grow by seven from their first element. *)
Fixpoint shift_chain (k : Z) (l : list Z) : Prop :=
  match l with [] => True | s :: l => s = k /\ shift_chain (k + 7) l end.

Lemma shifts_chain t : shift_chain 0 (shifts t).
Proof. destruct t; cbn; lia. Qed.

Lemma shiftl_mul a n : 0 <= n -> a ≪ n = a * 2 ^ n.
Proof. apply Z.shiftl_mul_pow2. Qed.

Lemma fits_add_shift k r m :
  0 <= k -> fits k r -> 0 <= m < 128 -> fits (k + 7) (r + m * 2 ^ k).
Proof.
  intros Hk [? ?] Hm. unfold fits. rewrite Z.pow_add_r by lia.
  change (2 ^ 7) with 128. nia.
Qed.

Lemma from_leb128_loop_yields `{ByteIterator It} w sh k r v (it it' : It) :
  shift_chain k sh -> 0 <= k -> sh <> [] -> fits k r -> fits 64 v ->
  v < 2 ^ (7 * Z.of_nat (length sh)) -> r + v * 2 ^ k < 2 ^ w ->
  yields it (leb128 v) it' ->
  from_leb128_loop w sh r it = Some (r + v * 2 ^ k, it').
Proof.
  revert k r v it. induction sh as [|s sh IH]; [done|].
  intros k r v it [-> Hch] Hk _ Hr Hv Hlen Hw Hy.
  rewrite leb128_unfold in Hy by done. destruct Hv as [Hv0 Hv1]. destruct Hr as [Hr0 Hr1].
  cbn [from_leb128_loop].
  destruct (Z.ltb_spec v 0x80) as [Hsmall|Hbig]; inversion Hy as [|? ? it1 ? ? Hn Hy']; subst.
  - rewrite wrap_small in Hn by (unfold fits; lia). rewrite Hn.
    rewrite leb128_low_bit by lia. inversion Hy'; subst.
    rewrite shiftl_mul, wrap_small by (unfold fits; nia).
    by rewrite lor_disjoint_add by (unfold fits; lia).
  - pose proof (Z.mod_pos_bound v 128 ltac:(lia)) as Hm.
    pose proof (Z.div_mod v 128 ltac:(lia)) as Hdm.
    pose proof (Z.pow_pos_nonneg 2 k ltac:(lia) Hk) as Hpk.
    rewrite Hn, leb128_high_bit, leb128_low_bits by lia.
    rewrite shiftl_mul, wrap_small by (unfold fits; nia).
    rewrite lor_disjoint_add by (unfold fits; lia).
    rewrite (IH (k + 7) _ (v / 128)); try done; try lia.
    + rewrite Z.pow_add_r by lia. do 2 f_equal. change (2 ^ 7) with 128. nia.
    + intros ->. cbn in Hlen. lia.
    + by apply fits_add_shift.
    + unfold fits. split; [apply Z.div_pos; lia|apply Z.div_lt_upper_bound; lia].
    + apply Z.div_lt_upper_bound; [lia|]. cbn [length] in Hlen.
      replace (7 * Z.of_nat (S (length sh))) with (7 + 7 * Z.of_nat (length sh)) in Hlen by lia.
      rewrite Z.pow_add_r in Hlen by lia. done.
    + rewrite Z.pow_add_r by lia. change (2 ^ 7) with 128. nia.
Qed.

(** [decodable t v]: the value is of type [t] and its encoding has no more
    bytes than the decoder of [t] reads. *)
Definition decodable (t : int_ty) (v : Z) : Prop :=
  fits (bits t) v /\ v < 2 ^ (7 * Z.of_nat (length (shifts t))).

Lemma decodable_fits t v : decodable t v <-> match t with U8 => fits 7 v | _ => fits (bits t) v end.
Proof.
  unfold decodable, fits. destruct t; cbn [shifts length bits];
    change (7 * Z.of_nat _) with 7 || change (7 * Z.of_nat _) with 21
      || change (7 * Z.of_nat _) with 35 || change (7 * Z.of_nat _) with 70;
    lia.
Qed.

Lemma decodable_u64 t v : decodable t v -> fits 64 v.
Proof. intros [Hv _]. eapply fits_mono; [|done]. destruct t; cbn; lia. Qed.

Lemma u64_decodable v : fits 64 v -> decodable U64 v.
Proof. intros. by apply decodable_fits. Qed.
Lemma usize_decodable v : fits 64 v -> decodable Usize v.
Proof. intros. by apply decodable_fits. Qed.

Lemma next_leb128_yields `{ByteIterator It} t v (it it' : It) :
  decodable t v -> yields it (leb128 v) it' -> next_leb128 t it = Some (v, it').
Proof.
  intros Hd Hy. pose proof (decodable_u64 t v Hd) as H64. destruct Hd as [Hv Hl].
  unfold from_leb128_it. rewrite (from_leb128_loop_yields _ _ 0 0 v it it');
    try done; try apply shifts_chain.
  - by rewrite Z.mul_1_r.
  - by destruct t.
  - by rewrite Z.mul_1_r; apply Hv.
Qed.

Lemma next_leb128_app t v rest : decodable t v -> next_leb128 t (leb128 v ++ rest) = Some (v, rest).
Proof. intros Hd. eapply next_leb128_yields; [done|apply slice_yields]. Qed.

Lemma from_leb128_loop_suffix w sh r (l : list Z) v rest :
  from_leb128_loop w sh r l = Some (v, rest) ->
  exists pre, l = pre ++ rest /\ (1 <= length pre <= length sh)%nat.
Proof.
  revert r l. induction sh as [|s sh IH]; intros r [|b l]; [done..|].
  cbn. destruct (_ =? 0).
  - intros [= <- <-]. exists [b]. cbn. split; [done|lia].
  - intros (pre & -> & Hlen)%IH. exists (b :: pre). cbn. split; [done|lia].
Qed.

(** The two decoders agree: the slice decoder reports how many bytes the
    iterator decoder consumed. *)
Lemma from_leb128_loops_agree w sh pos r l :
  from_leb128_bytes_loop w sh pos r l =
  '(v, rest) ← from_leb128_loop w sh r l; Some (v, (pos + (length l - length rest))%nat).
Proof.
  revert pos r l. induction sh as [|s sh IH]; intros pos r [|b l]; [done..|].
  cbn. destruct (_ =? 0).
  - cbn. do 2 f_equal. lia.
  - rewrite IH. destruct (from_leb128_loop _ _ _ l) as [[v rest]|] eqn:E; [|done].
    apply from_leb128_loop_suffix in E as (pre & -> & ?). cbn. do 2 f_equal.
    rewrite length_app. lia.
Qed.

Lemma read_leb128_app t v rest :
  decodable t v -> read_leb128 t (leb128 v ++ rest) = Some (v, length (leb128 v)).
Proof.
  intros Hd. unfold from_leb128_bytes. rewrite from_leb128_loops_agree.
  change (from_leb128_loop _ _ _ ?l) with (next_leb128 t l). rewrite next_leb128_app by done.
  cbn. do 2 f_equal. rewrite length_app. lia.
Qed.

Lemma read_leb128_all t v :
  decodable t v -> read_leb128 t (leb128 v) = Some (v, length (leb128 v)).
Proof. intros Hd. pose proof (read_leb128_app t v [] Hd) as E. by rewrite app_nil_r in E. Qed.

Lemma from_leb128_loop_fits w sh r (l rest : list Z) v :
  0 <= w -> fits w r -> from_leb128_loop w sh r l = Some (v, rest) -> fits w v.
Proof.
  intros Hw. revert r l. induction sh as [|s sh IH]; intros r [|b l] Hr; [done..|].
  cbn. destruct (_ =? 0).
  - intros [= <- _]. by apply lor_fits, wrap_fits.
  - apply IH. by apply lor_fits, wrap_fits.
Qed.

(** Induction over the loop iterations of the encoder. *)
Lemma leb128_ind (P : Z -> Prop) :
  (forall v, 0 <= v < 128 -> P v) ->
  (forall v, 128 <= v -> fits 64 v -> fits 64 (v / 128) -> P (v / 128) -> P v) ->
  forall v, fits 64 v -> P v.
Proof.
  intros Hb Hs v Hv. pose proof (proj1 Hv) as H0. revert Hv. pattern v.
  apply Z_lt_induction; [|done]. clear v H0. intros v IH Hv.
  destruct (Z.lt_ge_cases v 128); [apply Hb; split; [apply Hv|done]|].
  assert (0 <= v / 128 < v) as Hlt.
  { split; [apply Z.div_pos; lia|apply Z.div_lt; lia]. }
  assert (fits 64 (v / 128)) by (destruct Hv; unfold fits; lia).
  apply Hs; auto.
Qed.

(** Every encoded byte but the last has its high bit set. *)
Lemma leb128_shape v :
  fits 64 v ->
  exists pre last, leb128 v = pre ++ [last] /\ 0 <= last < 128 /\
    Forall (fun b => 128 <= b < 256) pre.
Proof.
  revert v. apply leb128_ind.
  - intros v Hv. exists [], v. rewrite leb128_unfold by (unfold fits; lia).
    rewrite (proj2 (Z.ltb_lt _ _)), wrap_small by (unfold fits; lia). done.
  - intros v Hb Hv _ (pre & last & Heq & Hl & Hpre).
    exists ((v mod 128 + 128) :: pre), last. rewrite leb128_unfold by done.
    rewrite (proj2 (Z.ltb_ge _ _)) by lia. rewrite Heq. split; [done|]. split; [done|].
    constructor; [|done]. pose proof (Z.mod_pos_bound v 128 ltac:(lia)). lia.
Qed.

Lemma leb128_ok v : fits 64 v -> bytes_ok (leb128 v).
Proof.
  intros (pre & last & -> & Hl & Hpre)%leb128_shape. apply Forall_app. split.
  - eapply Forall_impl; [done|]. cbn. unfold fits. intros. lia.
  - repeat constructor. 1: lia. cbn. lia.
Qed.

Lemma high_byte_continues b : 128 <= b < 256 -> (Z.land b 0x80 =? 0) = false.
Proof. intros. replace b with ((b - 128) + 128) by lia. apply leb128_high_bit. lia. Qed.

Lemma skip_leb128_app v rest : fits 64 v -> skip_leb128 (leb128 v ++ rest) = Some rest.
Proof.
  intros (pre & last & -> & Hl & Hpre)%leb128_shape. induction Hpre as [|b pre Hb _ IH]; cbn.
  - by rewrite leb128_low_bit.
  - by rewrite high_byte_continues.
Qed.

Lemma skip_leb128_pos_app v rest p :
  fits 64 v -> skip_leb128_pos p (leb128 v ++ rest) = Some (p + length (leb128 v))%nat.
Proof.
  intros (pre & last & -> & Hl & Hpre)%leb128_shape. revert p.
  induction Hpre as [|b pre Hb _ IH]; intros p; cbn.
  - by rewrite leb128_low_bit.
  - rewrite high_byte_continues, IH by done. f_equal. rewrite !length_app. cbn. lia.
Qed.

(** The writer-based encoder produces the same bytes, one [write] per byte. *)
Fixpoint write_each `{IoWrite W} (out : W) (bs : list Z) (n : Z) : option (W * Z) :=
  match bs with
  | [] => Some (out, n)
  | b :: bs => '(out, k) ← io_write out [b]; write_each out bs (n + k)
  end.

Lemma to_leb128_writer_bytes `{IoWrite W} v (out : W) :
  fits 64 v -> to_leb128_writer v out = write_each out (leb128 v) 0.
Proof.
  intros Hv. unfold to_leb128_writer, leb128. assert (v < 2 ^ (7 * Z.of_nat leb128_fuel)) as Hf.
  { destruct Hv. change (7 * Z.of_nat leb128_fuel) with 70. lia. }
  assert (0 < leb128_fuel)%nat as Hp by (unfold leb128_fuel; lia).
  clear Hv. revert Hf Hp. generalize leb128_fuel, v, out, 0.
  intros fuel. induction fuel as [|fuel IH]; intros u o n Hf Hp; [lia|]. cbn.
  destruct (Z.ltb_spec u 0x80) as [?|Hb]; cbn; [done|].
  destruct (io_write _ _) as [[o' k]|]; [|done]. cbn.
  rewrite shiftr7. apply IH.
  - apply Z.div_lt_upper_bound; [lia|].
    replace (7 * Z.of_nat (S fuel)) with (7 + 7 * Z.of_nat fuel) in Hf by lia.
    rewrite Z.pow_add_r in Hf by lia. done.
  - destruct fuel; [|lia]. cbn in Hf. lia.
Qed.

(** The loop reads back what a loop of [push_leb128] wrote. *)
Fixpoint fold_pos {A} (f : Z -> A -> Z -> A) (pos : Z) (ids : list Z) (acc : A) : A :=
  match ids with
  | [] => acc
  | id :: ids => fold_pos f (pos + 1) ids (f pos acc id)
  end.

Lemma leb128_nonempty v : (1 <= length (leb128 v))%nat.
Proof. unfold leb128, leb128_fuel. cbn [to_leb128_loop]. destruct (v <? 0x80); cbn; lia. Qed.

(** Seven bits per byte. *)
Lemma leb128_length k v :
  (1 <= k <= 10)%nat -> 0 <= v < 2 ^ (7 * Z.of_nat k) -> (length (leb128 v) <= k)%nat.
Proof.
  intros Hk Hv. unfold leb128. destruct (to_leb128_loop_fuel k leb128_fuel v) as [->|[_ ->]]; [unfold leb128_fuel; lia|done| |lia].
  clear. revert v. induction k as [|k IH]; intros v; cbn [to_leb128_loop]; [cbn; lia|].
  destruct (v <? 0x80); cbn [length]; [lia|]. specialize (IH (v ≫ 7)). lia.
Qed.

Lemma for_leb128_loop_app {A} t (f : Z -> A -> Z -> A) fuel pos ids acc rest :
  Forall (decodable t) ids -> (length ids <= fuel)%nat ->
  for_leb128_loop t fuel f pos (pos + Z.of_nat (length ids)) acc (flat_map leb128 ids ++ rest) =
  Some (fold_pos f pos ids acc, rest).
Proof.
  intros Hids. revert fuel pos acc. induction Hids as [|id ids Hid _ IH]; intros fuel pos acc Hf.
  - cbn [length flat_map app]. destruct fuel; cbn; by rewrite (proj2 (Z.leb_le _ _)) by lia.
  - cbn [length] in *. destruct fuel as [|fuel]; [lia|]. cbn [for_leb128_loop flat_map].
    rewrite (proj2 (Z.leb_gt _ _)) by lia. rewrite <- app_assoc, next_leb128_app by done.
    cbn [mbind option_bind fold_pos].
    replace (pos + Z.of_nat (S (length ids))) with (pos + 1 + Z.of_nat (length ids)) by lia.
    apply IH. lia.
Qed.

Lemma flat_map_leb128_length ids : (length ids <= length (flat_map leb128 ids))%nat.
Proof.
  induction ids as [|d l IH]; [done|]. cbn [flat_map length]. rewrite length_app.
  pose proof (leb128_nonempty d). lia.
Qed.

Lemma for_leb128_app {A} t (f : Z -> A -> Z -> A) ids acc rest :
  Forall (decodable t) ids ->
  for_leb128 t f (Z.of_nat (length ids)) acc (flat_map leb128 ids ++ rest) =
  Some (fold_pos f 0 ids acc, rest).
Proof.
  intros Hids. apply (for_leb128_loop_app t f _ 0 ids); [done|].
  rewrite length_app. pose proof (flat_map_leb128_length ids). lia.
Qed.

Lemma fold_pos_const {A} (f : A -> Z -> A) pos ids acc :
  fold_pos (fun _ => f) pos ids acc = fold_left f ids acc.
Proof. revert pos acc. induction ids as [|id ids IH]; intros pos acc; cbn; [done|apply IH]. Qed.

#[global] Arguments for_leb128 : simpl never.
#[global] Arguments from_leb128_it : simpl never.
#[global] Arguments from_leb128_bytes : simpl never.
#[global] Arguments leb128 : simpl never.

#[export] Hint Rewrite next_leb128_app read_leb128_app skip_leb128_app
  using (first [done | (split; [done|cbn; lia])]) : codec.

(** ** Properties *)

(** Round trip of variable-length integers. For every integer type of the
    codec and every value whose encoding its decoder can read, decoding the
    encoding of the value followed by any bytes gives back the value and
    leaves exactly those bytes; the slice decoder returns the same value and
    the length of the encoding, and both skippers stop at the same place. *)
Theorem leb128_roundtrip t v rest :
  decodable t v ->
  next_leb128 t (leb128 v ++ rest) = Some (v, rest) /\
  read_leb128 t (leb128 v ++ rest) = Some (v, length (leb128 v)) /\
  skip_leb128 (leb128 v ++ rest) = Some rest /\
  skip_leb128_pos 0 (leb128 v ++ rest) = Some (length (leb128 v)).
Proof.
  intros Hd. pose proof (decodable_u64 _ _ Hd). split_and!.
  - by apply next_leb128_app.
  - by apply read_leb128_app.
  - by apply skip_leb128_app.
  - by apply (skip_leb128_pos_app v rest 0).
Qed.

Lemma leb128_roundtrip_witness :
  decodable U64 624485 /\ next_leb128 U64 (leb128 624485 ++ [7; 8]) = Some (624485, [7; 8]).
Proof.
  assert (decodable U64 624485) as Hd by (apply decodable_fits; unfold fits; cbn; lia).
  split; [exact Hd|]. exact (proj1 (leb128_roundtrip U64 624485 [7; 8] Hd)).
Defined.

(** Decoding untrusted bytes is bounded: whatever the input, a decoded
    value fits the integer type, the decoder has consumed at least one byte
    and at most one per shift, and the slice decoder accepts exactly the same
    inputs, with the same value and the number of bytes consumed. *)
Theorem next_leb128_bounded t l :
  match next_leb128 t l with
  | Some (v, rest) =>
      fits (bits t) v /\
      (exists pre, l = pre ++ rest /\ (1 <= length pre <= length (shifts t))%nat) /\
      read_leb128 t l = Some (v, (length l - length rest)%nat)
  | None => read_leb128 t l = None
  end.
Proof.
  unfold from_leb128_bytes. rewrite from_leb128_loops_agree.
  unfold from_leb128_it. destruct (from_leb128_loop _ _ _ l) as [[v rest]|] eqn:E; cbn; [|done].
  split_and!; [|by eapply from_leb128_loop_suffix|done].
  eapply from_leb128_loop_fits; [| |done]; [by destruct t|]. unfold fits. destruct t; cbn; lia.
Qed.

(** The [u8] instantiation of the codec has a single shift: it encodes
    every byte value but its decoder refuses every encoding of 128 and above,
    so the [u8] round trip holds exactly below 128. *)
Theorem leb128_u8_half v rest :
  fits 8 v ->
  next_leb128 U8 (leb128 v ++ rest) = if v <? 128 then Some (v, rest) else None.
Proof.
  intros Hv. destruct (Z.ltb_spec v 128) as [Hs|Hb].
  - apply next_leb128_app, decodable_fits. split; [apply Hv|done].
  - rewrite leb128_unfold by (eapply fits_mono; [|done]; lia).
    rewrite (proj2 (Z.ltb_ge _ _)) by done.
    unfold from_leb128_it. cbn -[Z.add Z.modulo Z.div].
    pose proof (Z.mod_pos_bound v 128 ltac:(lia)).
    by rewrite high_byte_continues by lia.
Qed.

Lemma leb128_u8_half_witness :
  fits 8 200 /\ next_leb128 U8 (leb128 200 ++ []) = None.
Proof.
  assert (fits 8 200) as H by (unfold fits; lia).
  split; [exact H|]. exact (leb128_u8_half 200 [] H).
Defined.
