(* ===== verification/Base32.v ===== *)
(** * Base-32 text: components/store/src/serialize/base32.rs

    [Base32Writer] is a byte sink that emits characters of a 32-letter
    alphabet as bytes are pushed, [Base32Reader] the iterator that reads them
    back. Both are instances of the classes the variable-length integer codec
    is written against, which is how JMAP ids, states and blob ids are
    printed and parsed. A string is the list of its character codes. *)

From S2P Require Import Prelude Leb128.

Definition BASE32_ALPHABET : list Z :=
  [97; 98; 99; 100; 101; 102; 103; 104; 105; 106; 107; 108; 109; 110; 111; 112; 113;
   114; 115; 116; 117; 118; 119; 120; 121; 122; 55; 57; 50; 48; 49; 51].

Definition BASE32_INVERSE : list Z :=
  replicate 48 255 ++ [29; 30; 28; 31] ++ replicate 3 255 ++ [26; 255; 27] ++
  replicate 17 255 ++ seqZ 10 16 ++ replicate 6 255 ++ seqZ 0 26 ++ replicate 133 255.

Definition U8_MAX : Z := 255.

Record Base32Writer := mkBase32Writer {
  bw_last_byte : Z;
  bw_pos : Z;
  bw_result : list Z
}.

Definition Base32Writer_new : Base32Writer := mkBase32Writer 0 0 [].

Definition push_char (w : Base32Writer) (ch : Z) : Base32Writer :=
  mkBase32Writer (bw_last_byte w) (bw_pos w) (bw_result w ++ [ch]).

(** The pair [(ch1, ch2)] of [push_byte]. *)
Definition base32_chars (pos last_byte byte : Z) : Z * Z :=
  match pos with
  | 0 => (Z.land byte 0xF8 ≫ 3, U8_MAX)
  | 1 => (Z.lor (Z.land last_byte 0x07 ≪ 2) (Z.land byte 0xC0 ≫ 6), Z.land byte 0x3E ≫ 1)
  | 2 => (Z.lor (Z.land last_byte 0x01 ≪ 4) (Z.land byte 0xF0 ≫ 4), U8_MAX)
  | 3 => (Z.lor (Z.land last_byte 0x0F ≪ 1) (byte ≫ 7), Z.land byte 0x7C ≫ 2)
  | _ => (Z.lor (Z.land last_byte 0x03 ≪ 3) (Z.land byte 0xE0 ≫ 5), Z.land byte 0x1F)
  end.

(** Indexing the alphabet; every index is below 32 ([ch1_range], [ch2_range]). *)
Definition alphabet_at (i : Z) : Z := BASE32_ALPHABET !!! Z.to_nat i.

Definition push_byte (w : Base32Writer) (byte : Z) (is_remainder : bool) : Base32Writer :=
  let '(ch1, ch2) := base32_chars (bw_pos w mod 5) (bw_last_byte w) byte in
  let result := bw_result w ++ [alphabet_at ch1] in
  if is_remainder then mkBase32Writer (bw_last_byte w) (bw_pos w) result
  else
    let result := if negb (ch2 =? U8_MAX) then result ++ [alphabet_at ch2] else result in
    mkBase32Writer byte (bw_pos w + 1) result.

Definition finalize (w : Base32Writer) : list Z :=
  if negb (bw_pos w mod 5 =? 0) then bw_result (push_byte w 0 true) else bw_result w.

Definition write_bytes (w : Base32Writer) (bytes : list Z) : Base32Writer :=
  fold_left (fun w byte => push_byte w byte false) bytes w.

#[export] Instance base32_write : IoWrite Base32Writer :=
  fun w bytes => let w' := write_bytes w bytes in Some (w', bw_pos w' - bw_pos w).

Record Base32Reader := mkBase32Reader {
  br_bytes : list Z;
  br_last_byte : Z;
  br_pos : Z
}.

Definition Base32Reader_new (bytes : list Z) : Base32Reader := mkBase32Reader bytes 0 0.

(** [map_byte] always advances the underlying iterator. *)
Definition map_byte (r : Base32Reader) : option Z * Base32Reader :=
  match br_bytes r with
  | b :: bytes =>
      let byte := BASE32_INVERSE !!! Z.to_nat b in
      if negb (byte =? U8_MAX) then (Some byte, mkBase32Reader bytes byte (br_pos r))
      else (None, mkBase32Reader bytes (br_last_byte r) (br_pos r))
  | [] => (None, r)
  end.

Definition base32_next (r : Base32Reader) : option (Z * Base32Reader) :=
  let pos := br_pos r mod 5 in
  let last_byte := br_last_byte r in
  match map_byte r with
  | (None, _) => None
  | (Some byte, r) =>
      let r := mkBase32Reader (br_bytes r) (br_last_byte r) (br_pos r + 1) in
      let '(next, r') := map_byte r in
      let next := default 0 next in
      match pos with
      | 0 => Some (Z.lor (u8 (byte ≪ 3)) (next ≫ 2), r')
      | 1 => Some (Z.lor (Z.lor (u8 (last_byte ≪ 6)) (u8 (byte ≪ 1))) (next ≫ 4), r')
      | 2 => Some (Z.lor (u8 (last_byte ≪ 4)) (byte ≫ 1), r)
      | 3 => Some (Z.lor (Z.lor (u8 (last_byte ≪ 7)) (u8 (byte ≪ 2))) (next ≫ 3), r')
      | _ => Some (Z.lor (u8 (last_byte ≪ 5)) byte, r)
      end
  end.

#[export] Instance base32_iter : ByteIterator Base32Reader := base32_next.

(** ** Symbols: the five-bit values behind the characters *)

Definition ch1 (pos last byte : Z) : Z := (base32_chars pos last byte).1.
Definition ch2 (pos byte : Z) : list Z :=
  let c := (base32_chars pos 0 byte).2 in if c =? U8_MAX then [] else [c].

(** The symbols emitted for [bytes] from a writer at [pos], remainder included. *)
Fixpoint symbols (pos last : Z) (bytes : list Z) : list Z :=
  match bytes with
  | [] => if pos =? 0 then [] else [ch1 pos last 0]
  | b :: bytes => ch1 pos last b :: ch2 pos b ++ symbols ((pos + 1) mod 5) b bytes
  end.

Definition text (syms : list Z) : list Z := alphabet_at <$> syms.

Lemma byte_fields b :
  is_byte b ->
  Z.land b 0xF8 ≫ 3 = b / 8 /\ Z.land b 0xC0 ≫ 6 = b / 64 /\ Z.land b 0x3E ≫ 1 = b / 2 mod 32 /\
  Z.land b 0xF0 ≫ 4 = b / 16 /\ b ≫ 7 = b / 128 /\ Z.land b 0x7C ≫ 2 = b / 4 mod 32 /\
  Z.land b 0xE0 ≫ 5 = b / 32 /\ Z.land b 0x1F = b mod 32 /\
  Z.land b 0x07 ≪ 2 = b mod 8 * 2 ^ 2 /\ Z.land b 0x01 ≪ 4 = b mod 2 * 2 ^ 4 /\
  Z.land b 0x0F ≪ 1 = b mod 16 * 2 ^ 1 /\ Z.land b 0x03 ≪ 3 = b mod 4 * 2 ^ 3.
Proof.
  revert b. apply (fits_decide _ 8). by vm_compute.
Qed.

Lemma lor_low a b n : 0 <= n -> fits n a -> Z.lor (b * 2 ^ n) a = b * 2 ^ n + a.
Proof. intros. rewrite Z.lor_comm, lor_disjoint_add by done. lia. Qed.

(** The symbols of a byte, arithmetically. *)
Lemma ch1_spec pos last b :
  0 <= pos < 5 -> is_byte last -> is_byte b ->
  ch1 pos last b =
  match pos with
  | 0 => b / 8
  | 1 => last mod 8 * 4 + b / 64
  | 2 => last mod 2 * 16 + b / 16
  | 3 => last mod 16 * 2 + b / 128
  | _ => last mod 4 * 8 + b / 32
  end.
Proof.
  intros Hp Hl Hb. pose proof (byte_fields b Hb) as Fb. pose proof (byte_fields last Hl) as Fl.
  destruct_and! Fb. destruct_and! Fl.
  assert (pos = 0 \/ pos = 1 \/ pos = 2 \/ pos = 3 \/ pos = 4) as [->|[->|[->|[->| ->]]]] by lia;
    unfold ch1; cbn -[Z.land Z.lor Z.shiftl Z.shiftr Z.modulo Z.div Z.pow Z.mul];
    repeat match goal with H : _ = _ |- _ => rewrite H; clear H end; [done|..];
    rewrite lor_low; try done; clear - Hb Hl; dlia.
Qed.

Lemma ch1_range pos last b :
  0 <= pos < 5 -> is_byte last -> is_byte b -> fits 5 (ch1 pos last b).
Proof.
  intros Hp Hl Hb. rewrite ch1_spec by done.
  assert (pos = 0 \/ pos = 1 \/ pos = 2 \/ pos = 3 \/ pos = 4) as [->|[->|[->|[->| ->]]]] by lia;
    clear Hp; dlia.
Qed.

Lemma ch2_spec pos b :
  0 <= pos < 5 -> is_byte b ->
  ch2 pos b =
  match pos with 1 => [b / 2 mod 32] | 3 => [b / 4 mod 32] | 4 => [b mod 32] | _ => [] end.
Proof.
  intros Hp Hb. pose proof (byte_fields b Hb) as Fb. destruct_and! Fb.
  assert (forall x, 0 <= x < 32 -> (x =? U8_MAX) = false) as Hmax
    by (intros; apply Z.eqb_neq; unfold U8_MAX; lia).
  assert (pos = 0 \/ pos = 1 \/ pos = 2 \/ pos = 3 \/ pos = 4) as [->|[->|[->|[->| ->]]]] by lia;
    unfold ch2; cbn -[Z.land Z.lor Z.shiftl Z.shiftr Z.modulo Z.div]; try done;
    repeat match goal with H : _ = _ |- _ => rewrite H; clear H end;
    by rewrite Hmax by (apply Z.mod_pos_bound; lia).
Qed.

Lemma ch2_range pos b : 0 <= pos < 5 -> is_byte b -> Forall (fits 5) (ch2 pos b).
Proof.
  intros Hp Hb. rewrite ch2_spec by done.
  assert (pos = 0 \/ pos = 1 \/ pos = 2 \/ pos = 3 \/ pos = 4) as [->|[->|[->|[->| ->]]]] by lia;
    repeat constructor; apply Z.mod_pos_bound; lia.
Qed.

(** The alphabet and its inverse table agree on every symbol. *)
Lemma alphabet_inverse c :
  fits 5 c ->
  is_byte (alphabet_at c) /\ BASE32_INVERSE !!! Z.to_nat (alphabet_at c) = c /\ c <> U8_MAX.
Proof.
  revert c. apply (fits_decide _ 5). by vm_compute.
Qed.

Lemma symbols_range pos last bs :
  0 <= pos < 5 -> is_byte last -> bytes_ok bs -> Forall (fits 5) (symbols pos last bs).
Proof.
  intros Hp Hl Hbs. revert pos last Hp Hl.
  induction Hbs as [|b bs Hb _ IH]; intros pos last Hp Hl; cbn.
  - destruct (pos =? 0); repeat constructor; apply ch1_range; done.
  - constructor; [by apply ch1_range|]. apply Forall_app. split; [by apply ch2_range|].
    apply IH; [|done]. apply Z.mod_pos_bound; lia.
Qed.

(** ** The writer emits the text of the symbols *)

Lemma push_byte_spec w b :
  let p := bw_pos w mod 5 in
  push_byte w b false =
  mkBase32Writer b (bw_pos w + 1)
    (bw_result w ++ text (ch1 p (bw_last_byte w) b :: ch2 p b)).
Proof.
  cbn. unfold push_byte, ch1, ch2, text. pose proof (Z.mod_pos_bound (bw_pos w) 5 ltac:(lia)).
  set (p := bw_pos w mod 5) in *.
  assert (p = 0 \/ p = 1 \/ p = 2 \/ p = 3 \/ p = 4) as [->|[->|[->|[->| ->]]]] by lia;
    cbn -[Z.land Z.lor Z.shiftl Z.shiftr alphabet_at]; try done;
    destruct (_ =? U8_MAX); cbn -[alphabet_at]; rewrite <- ?app_assoc; done.
Qed.

Lemma finalize_write w bs :
  finalize (write_bytes w bs) =
  bw_result w ++ text (symbols (bw_pos w mod 5) (bw_last_byte w) bs).
Proof.
  revert w. induction bs as [|b bs IH]; intros w; cbn [symbols].
  - unfold write_bytes, finalize. cbn. destruct (bw_pos w mod 5 =? 0) eqn:E; cbn.
    + by rewrite app_nil_r.
    + unfold push_byte, ch1. by destruct (base32_chars _ _ _).
  - change (write_bytes w (b :: bs)) with (write_bytes (push_byte w b false) bs).
    rewrite IH, push_byte_spec. cbn [bw_result bw_pos bw_last_byte].
    rewrite Zplus_mod_idemp_l, <- app_assoc. unfold text. cbn. by rewrite fmap_app.
Qed.

(** ** The reader reads the symbols back *)

Lemma map_byte_text c syms last pos :
  fits 5 c ->
  map_byte (mkBase32Reader (text (c :: syms)) last pos) =
  (Some c, mkBase32Reader (text syms) c pos).
Proof.
  intros (_ & Hinv & Hne)%alphabet_inverse. unfold map_byte. cbn -[U8_MAX BASE32_INVERSE].
  rewrite Hinv. by rewrite (proj2 (Z.eqb_neq _ _) Hne).
Qed.

(** The reader at a position: before a group it has read nothing of what
    follows, inside a group it is one symbol ahead. *)
Inductive reads_at (pos last : Z) (bs : list Z) : Base32Reader -> Prop :=
| reads_at_group r :
    pos = 0 -> br_pos r mod 5 = 0 -> br_bytes r = text (symbols 0 last bs) ->
    reads_at pos last bs r
| reads_at_inside r c syms :
    pos <> 0 -> br_pos r mod 5 = pos -> symbols pos last bs = c :: syms ->
    br_last_byte r = c -> br_bytes r = text syms -> reads_at pos last bs r.

(** The first symbol inside a group depends only on the next byte, if any. *)
Lemma symbols_inside pos last bs :
  pos <> 0 -> exists syms, symbols pos last bs = ch1 pos last (hd 0 bs) :: syms.
Proof.
  intros Hp. destruct bs; cbn; [|by eexists]. rewrite (proj2 (Z.eqb_neq _ _) Hp). by eexists.
Qed.

Lemma reader_eq_0 c c' : 0 <= c < 32 -> 0 <= c' < 32 ->
  Z.lor (u8 (c ≪ 3)) (c' ≫ 2) = c * 8 + c' / 4.
Proof.
  intros. rewrite Z.shiftl_mul_pow2, Z.shiftr_div_pow2, wrap_small by dlia.
  apply lor_low; dlia.
Qed.

Lemma u8_shl c n k : 0 <= n <= 8 -> k = 2 ^ (8 - n) -> u8 (c ≪ n) = c mod k * 2 ^ n.
Proof.
  intros Hn ->. rewrite Z.shiftl_mul_pow2 by lia. unfold wrap.
  replace (2 ^ 8) with (2 ^ (8 - n) * 2 ^ n) by (rewrite <- Z.pow_add_r by lia; f_equal; lia).
  rewrite Z.mul_mod_distr_r; [done|..]; apply Z.pow_nonzero; lia.
Qed.

Lemma reader_eq_1 l c c' : 0 <= c < 32 -> 0 <= c' < 32 ->
  Z.lor (Z.lor (u8 (l ≪ 6)) (u8 (c ≪ 1))) (c' ≫ 4) = l mod 4 * 64 + c * 2 + c' / 16.
Proof.
  intros. rewrite (u8_shl l 6 4), (u8_shl c 1 128), Z.shiftr_div_pow2, (Z.mod_small c) by lia.
  rewrite (lor_low (c * _)) by dlia.
  replace (l mod 4 * 2 ^ 6 + c * 2 ^ 1) with ((l mod 4 * 32 + c) * 2 ^ 1) by lia.
  rewrite lor_low by dlia. change (2 ^ 4) with 16. lia.
Qed.

Lemma reader_eq_3 l c c' : 0 <= c < 32 -> 0 <= c' < 32 ->
  Z.lor (Z.lor (u8 (l ≪ 7)) (u8 (c ≪ 2))) (c' ≫ 3) = l mod 2 * 128 + c * 4 + c' / 8.
Proof.
  intros. rewrite (u8_shl l 7 2), (u8_shl c 2 64), Z.shiftr_div_pow2, (Z.mod_small c) by lia.
  rewrite (lor_low (c * _)) by dlia.
  replace (l mod 2 * 2 ^ 7 + c * 2 ^ 2) with ((l mod 2 * 32 + c) * 2 ^ 2) by lia.
  rewrite lor_low by dlia. change (2 ^ 3) with 8. lia.
Qed.

Lemma reader_eq_2 l x n : 0 <= x < 2 ^ n -> 4 <= n <= 5 ->
  Z.lor (u8 (l ≪ n)) x = l mod 2 ^ (8 - n) * 2 ^ n + x.
Proof. intros. rewrite (u8_shl l n _ ltac:(lia) eq_refl). apply lor_low; [lia|done]. Qed.

Lemma next_intro {It} (x b : Z) (r : It) (Q : It -> Prop) :
  x = b -> Q r -> exists r', Some (x, r) = Some (b, r') /\ Q r'.
Proof. intros -> HQ. by exists r. Qed.

(** One call of [next] inside or at the start of a group. *)
Lemma base32_next_step pos last b bs r :
  0 <= pos < 5 -> is_byte last -> is_byte b -> bytes_ok bs ->
  reads_at pos last (b :: bs) r ->
  exists r', it_next r = Some (b, r') /\ reads_at ((pos + 1) mod 5) b bs r'.
Proof.
  intros Hp Hl Hb Hbs Hr.
  pose proof (ch1_range pos last b Hp Hl Hb) as Hc.
  pose proof (ch2_range pos b Hp Hb) as Hd.
  assert (is_byte (hd 0 bs)) as Hh by (destruct Hbs; [unfold fits; cbn; lia|done]).
  assert (0 <= (pos + 1) mod 5 < 5) as Hp' by (apply Z.mod_pos_bound; lia).
  pose proof (ch1_range _ b (hd 0 bs) Hp' Hb Hh) as Hn.
  pose proof (ch1_spec _ b (hd 0 bs) Hp' Hb Hh) as Hns.
  pose proof (ch1_spec _ last b Hp Hl Hb) as Hcs.
  unfold it_next, base32_iter, base32_next.
  assert (br_pos r mod 5 = pos) as Hpos by (destruct Hr; congruence).
  assert ((br_pos r + 1) mod 5 = (pos + 1) mod 5) as Hpos' by (rewrite <- Hpos; dlia).
  pose proof (symbols_inside ((pos + 1) mod 5) b bs) as Hsy.
  pose proof (ch2_spec pos b Hp Hb) as Hds.
  rewrite Hpos. rewrite Hds in Hd.
  assert (pos = 0 \/ pos = 1 \/ pos = 2 \/ pos = 3 \/ pos = 4) as [->|[->|[->|[->| ->]]]] by lia;
  destruct Hr as [r ? _ Hb0|r c syms Hne _ Hs Hlc Hb0]; try done; destruct r as [rb rl rp];
    cbn [symbols br_bytes br_last_byte br_pos] in *; subst rb.
  all: match goal with H : context [(?a + 1) mod 5] |- _ =>
    let v := eval compute in ((a + 1) mod 5) in change ((a + 1) mod 5) with v in * end.
  all: try (injection Hs as <- <-; subst rl); try specialize (Hsy ltac:(done)) as [sy Hsy];
    try rewrite Hds; cbn [app]; apply Forall_cons_1 in Hd as [Hd _] || idtac;
    try rewrite Hsy; cbn [symbols app]; rewrite map_byte_text by done;
    cbn [br_bytes br_last_byte br_pos]; cbv iota in Hcs, Hns.
  - rewrite map_byte_text by done. apply next_intro; [|by eapply reads_at_inside].
    cbn [default id]. rewrite reader_eq_0 by done. clear - Hcs Hns Hb Hh. dlia.
  - rewrite map_byte_text by done. apply next_intro; [|by eapply reads_at_inside].
    cbn [default id]. rewrite reader_eq_1 by done. clear - Hcs Hns Hb Hh. dlia.
  - destruct (map_byte _). apply next_intro; [|by eapply reads_at_inside].
    rewrite Z.shiftr_div_pow2, reader_eq_2 by (clear - Hn; dlia). clear - Hcs Hns Hb Hh. dlia.
  - rewrite map_byte_text by done. apply next_intro; [|by eapply reads_at_inside].
    cbn [default id]. rewrite reader_eq_3 by done. clear - Hcs Hns Hb Hh. dlia.
  - destruct (map_byte _). apply next_intro; [|by eapply reads_at_group].
    rewrite reader_eq_2 by (clear - Hd; dlia). clear - Hcs Hns Hb Hh. dlia.
Qed.

Lemma base32_next_end pos last r : reads_at pos last [] r -> it_next r = None.
Proof.
  intros [r' -> _ Hb|r' c syms Hne _ Hs _ Hb]; cbn in *;
    unfold it_next, base32_iter, base32_next, map_byte; [by rewrite Hb|].
  rewrite (proj2 (Z.eqb_neq _ _) Hne) in Hs. injection Hs as _ <-. by rewrite Hb.
Qed.

Lemma base32_reads pos last bs rest r :
  0 <= pos < 5 -> is_byte last -> bytes_ok (bs ++ rest) -> reads_at pos last (bs ++ rest) r ->
  exists pos' last' r',
    yields r bs r' /\ reads_at pos' last' rest r' /\ 0 <= pos' < 5 /\ is_byte last'.
Proof.
  revert pos last r. induction bs as [|b bs IH]; intros pos last r Hp Hl Hok Hr.
  - exists pos, last, r. done.
  - cbn in *. apply Forall_cons in Hok as [Hb Hok].
    destruct (base32_next_step pos last b (bs ++ rest) r) as (r1 & Hn & Hr1); [done..|].
    destruct (IH _ _ _ (Z.mod_pos_bound (pos + 1) 5 ltac:(lia)) Hb Hok Hr1)
      as (pos' & last' & r' & Hy & ?).
    exists pos', last', r'. split; [by econstructor|done].
Qed.

(** Reading what a fresh writer wrote: the reader yields the written bytes one
    by one, whatever prefix of them is read first, and then ends. *)
Lemma base32_written bs rest :
  bytes_ok (bs ++ rest) ->
  exists pos last r,
    yields (Base32Reader_new (finalize (write_bytes Base32Writer_new (bs ++ rest)))) bs r /\
    reads_at pos last rest r /\ 0 <= pos < 5 /\ is_byte last.
Proof.
  intros Hok. rewrite finalize_write. cbn [bw_pos bw_last_byte Base32Writer_new bw_result app].
  apply (base32_reads 0 0); [lia|unfold fits; lia|done|]. by apply reads_at_group.
Qed.

(** [write_leb128] on a [Base32Writer] pushes the encoded bytes. *)
Lemma write_each_base32 w bs n :
  write_each w bs n = Some (write_bytes w bs, n + Z.of_nat (length bs)).
Proof.
  revert w n. induction bs as [|b bs IH]; intros w n; cbn.
  - by rewrite Z.add_0_r.
  - rewrite IH. do 2 f_equal. rewrite push_byte_spec. cbn. lia.
Qed.

Lemma write_leb128_base32 w v :
  fits 64 v ->
  to_leb128_writer v w = Some (write_bytes w (leb128 v), Z.of_nat (length (leb128 v))).
Proof. intros Hv. by rewrite to_leb128_writer_bytes, write_each_base32. Qed.

Lemma write_bytes_app w bs bs' : write_bytes w (bs ++ bs') = write_bytes (write_bytes w bs) bs'.
Proof. apply fold_left_app. Qed.

(** ** Properties *)

(** Base-32 round trip: for every byte string, iterating a [Base32Reader]
    over the text a [Base32Writer] produced for it yields exactly those bytes
    and then ends, for every length modulo the five-byte group. *)
Theorem base32_roundtrip bs :
  bytes_ok bs ->
  exists r, yields (Base32Reader_new (finalize (write_bytes Base32Writer_new bs))) bs r /\
    it_next r = None.
Proof.
  intros Hok. destruct (base32_written bs []) as (p & l & r & Hy & Hr & _ & _);
    rewrite ?app_nil_r in *; [done|]. exists r. split; [done|by eapply base32_next_end].
Qed.

Lemma base32_roundtrip_witness :
  finalize (write_bytes Base32Writer_new [84; 4; 43; 77; 62; 55; 92]) =
    [107; 113; 99; 99; 119; 116; 106; 49; 103; 48; 111; 97] /\
  exists r, yields (Base32Reader_new
      (finalize (write_bytes Base32Writer_new [84; 4; 43; 77; 62; 55; 92])))
    [84; 4; 43; 77; 62; 55; 92] r /\ it_next r = None.
Proof.
  split; [vm_compute; reflexivity|].
  apply base32_roundtrip. repeat constructor; cbn; lia.
Defined.
