(* ===== verification/Serialize.v ===== *)
(** * Fixed-width integers and byte order: components/store/src/serialize/mod.rs

    Big- and little-endian encodings of machine integers, the checked slice
    reads of [DeserializeBigEndian], the [StoreSerialize] and
    [StoreDeserialize] implementations of the integer types, and the
    lexicographic order of byte strings, which is the order in which the
    key-value store iterates its keys. *)

From S2P Require Import Prelude.

(** [to_be_bytes] and [from_be_bytes] of an [8 * n]-bit integer. *)
Fixpoint be_bytes (n : nat) (v : Z) : list Z :=
  match n with
  | O => []
  | S n => u8 (v ≫ (8 * Z.of_nat n)) :: be_bytes n v
  end.
Definition from_be_bytes (l : list Z) : Z := fold_left (fun acc b => acc * 256 + b) l 0.

(** [to_le_bytes] and [from_le_bytes]. *)
Fixpoint le_bytes (n : nat) (v : Z) : list Z :=
  match n with
  | O => []
  | S n => u8 v :: le_bytes n (v ≫ 8)
  end.
Fixpoint from_le_bytes (l : list Z) : Z :=
  match l with
  | [] => 0
  | b :: l => b + 256 * from_le_bytes l
  end.

(** [slice::get] on the ranges [i..j] and [i..]. *)
Definition get_range (l : list Z) (i j : nat) : option (list Z) :=
  if ((i <=? j) && (j <=? length l))%nat then Some (take (j - i) (drop i l)) else None.
Definition get_from (l : list Z) (i : nat) : option (list Z) :=
  if (i <=? length l)%nat then Some (drop i l) else None.

(** [DeserializeBigEndian] for byte slices. *)
Definition deserialize_be_u32 (bytes : list Z) (index : nat) : option Z :=
  from_be_bytes <$> get_range bytes index (index + 4).
Definition deserialize_be_u64 (bytes : list Z) (index : nat) : option Z :=
  from_be_bytes <$> get_range bytes index (index + 8).

(** [StoreSerialize] and [StoreDeserialize]: the values the store holds. The
    conversion of a slice to an array fails unless the lengths agree. *)
Class StoreSerialize (A : Type) := store_serialize : A -> option (list Z).
Class StoreDeserialize (A : Type) := store_deserialize : list Z -> option A.

Definition serialize_le (n : nat) (v : Z) : option (list Z) := Some (le_bytes n v).
Definition deserialize_le (n : nat) (bytes : list Z) : option Z :=
  if (length bytes =? n)%nat then Some (from_le_bytes bytes) else None.

(** [i64] shares the little-endian bytes of its two's complement. *)
Definition i64_of_u64 (v : Z) : Z := if v <? 2 ^ 63 then v else v - 2 ^ 64.
Definition serialize_i64 (v : Z) : option (list Z) := Some (le_bytes 8 (u64 v)).
Definition deserialize_i64 (bytes : list Z) : option Z := i64_of_u64 <$> deserialize_le 8 bytes.

(** [Vec<u8>]. *)
#[export] Instance vec_deserialize : StoreDeserialize (list Z) := Some.

(** ** Big endian *)

Lemma be_bytes_length n v : length (be_bytes n v) = n.
Proof. induction n; cbn; auto. Qed.

Lemma be_bytes_ok n v : bytes_ok (be_bytes n v).
Proof. induction n; cbn; constructor; [apply wrap_fits; lia|done]. Qed.

Lemma pow256 n : 2 ^ (8 * Z.of_nat n) = 256 ^ Z.of_nat n.
Proof. by rewrite Z.pow_mul_r by lia. Qed.

Lemma be_head n v : u8 (v ≫ (8 * Z.of_nat n)) = v / 256 ^ Z.of_nat n mod 256.
Proof. unfold wrap. by rewrite Z.shiftr_div_pow2, pow256 by lia. Qed.

Lemma mod_256_S n v :
  v mod 256 ^ Z.of_nat (S n) =
  (v / 256 ^ Z.of_nat n mod 256) * 256 ^ Z.of_nat n + v mod 256 ^ Z.of_nat n.
Proof.
  rewrite Nat2Z.inj_succ, Z.pow_succ_r by lia.
  assert (0 < 256 ^ Z.of_nat n) by (apply Z.pow_pos_nonneg; lia).
  rewrite (Z.mul_comm 256), Z.rem_mul_r by lia. lia.
Qed.

Lemma fold_be_bytes n v acc :
  fold_left (fun acc b => acc * 256 + b) (be_bytes n v) acc =
  acc * 256 ^ Z.of_nat n + v mod 256 ^ Z.of_nat n.
Proof.
  revert acc. induction n as [|n IH]; intros acc.
  - cbn. rewrite Z.mod_1_r. lia.
  - cbn [be_bytes fold_left]. rewrite IH, be_head, mod_256_S.
    rewrite Nat2Z.inj_succ, Z.pow_succ_r by lia. lia.
Qed.

Lemma from_be_bytes_be n v : fits (8 * Z.of_nat n) v -> from_be_bytes (be_bytes n v) = v.
Proof.
  intros Hv. unfold from_be_bytes. rewrite fold_be_bytes, <- pow256.
  rewrite Z.mod_small by done. lia.
Qed.

Lemma be_bytes_inj n v v' :
  fits (8 * Z.of_nat n) v -> fits (8 * Z.of_nat n) v' -> be_bytes n v = be_bytes n v' -> v = v'.
Proof. intros Hv Hv' He. by rewrite <- (from_be_bytes_be n v), He, from_be_bytes_be. Qed.

Lemma get_range_app pre mid post :
  get_range (pre ++ mid ++ post) (length pre) (length pre + length mid) = Some mid.
Proof.
  unfold get_range. rewrite !length_app.
  rewrite (proj2 (Nat.leb_le _ _)), (proj2 (Nat.leb_le _ _)) by lia. cbn.
  rewrite drop_app_length. replace (_ + _ - _)%nat with (length mid) by lia.
  by rewrite take_app_length.
Qed.

Lemma deserialize_be_u64_app pre v post :
  fits 64 v -> deserialize_be_u64 (pre ++ be_bytes 8 v ++ post) (length pre) = Some v.
Proof.
  intros Hv. unfold deserialize_be_u64.
  pose proof (get_range_app pre (be_bytes 8 v) post) as E. rewrite be_bytes_length in E.
  rewrite E. cbn [fmap option_fmap option_map].
  by rewrite from_be_bytes_be.
Qed.

Lemma deserialize_be_u32_app pre v post :
  fits 32 v -> deserialize_be_u32 (pre ++ be_bytes 4 v ++ post) (length pre) = Some v.
Proof.
  intros Hv. unfold deserialize_be_u32.
  pose proof (get_range_app pre (be_bytes 4 v) post) as E. rewrite be_bytes_length in E.
  rewrite E. cbn [fmap option_fmap option_map].
  by rewrite from_be_bytes_be.
Qed.

(** ** Little endian *)

Lemma le_bytes_length n v : length (le_bytes n v) = n.
Proof. revert v; induction n; cbn; auto. Qed.

Lemma from_le_bytes_le n v : fits (8 * Z.of_nat n) v -> from_le_bytes (le_bytes n v) = v.
Proof.
  revert v. induction n as [|n IH]; intros v Hv.
  - destruct Hv as [? Hv]. cbn in *. lia.
  - cbn [le_bytes from_le_bytes]. rewrite Z.shiftr_div_pow2 by lia. unfold wrap.
    change (2 ^ 8) with 256. rewrite IH; [dlia|].
    destruct Hv as [H0 H1]. replace (8 * Z.of_nat (S n)) with (8 + 8 * Z.of_nat n) in H1 by lia.
    rewrite Z.pow_add_r in H1 by lia.
    split; [apply Z.div_pos; lia|apply Z.div_lt_upper_bound; [lia|done]].
Qed.

Lemma deserialize_le_le n v :
  fits (8 * Z.of_nat n) v -> deserialize_le n (le_bytes n v) = Some v.
Proof. intros. unfold deserialize_le. by rewrite le_bytes_length, Nat.eqb_refl, from_le_bytes_le. Qed.

(** ** Lexicographic order *)

Fixpoint bytes_cmp (l k : list Z) : comparison :=
  match l, k with
  | [], [] => Eq
  | [], _ :: _ => Lt
  | _ :: _, [] => Gt
  | a :: l, b :: k => match a ?= b with Eq => bytes_cmp l k | c => c end
  end.

Definition bytes_lt (l k : list Z) : Prop := bytes_cmp l k = Lt.
Definition bytes_le (l k : list Z) : Prop := bytes_cmp l k <> Gt.
#[export] Instance bytes_lt_dec : RelDecision bytes_lt.
Proof. intros l k. unfold bytes_lt. apply _. Defined.
#[export] Instance bytes_le_dec : RelDecision bytes_le.
Proof. intros l k. unfold bytes_le. apply _. Defined.

Lemma bytes_cmp_eq l k : bytes_cmp l k = Eq <-> l = k.
Proof.
  revert k. induction l as [|a l IH]; intros [|b k]; cbn; try done.
  destruct (Z.compare_spec a b); [|split; [done|intros [= ? ?]; lia]..].
  subst. rewrite IH. split; [by intros ->|by intros [= ->]].
Qed.

Lemma bytes_cmp_refl l : bytes_cmp l l = Eq.
Proof. by apply bytes_cmp_eq. Qed.

Lemma bytes_cmp_antisym l k : bytes_cmp k l = CompOpp (bytes_cmp l k).
Proof.
  revert k. induction l as [|a l IH]; intros [|b k]; cbn; try done.
  rewrite (Z.compare_antisym a b). by destruct (a ?= b); cbn.
Qed.

Lemma bytes_cmp_app_l x l k : bytes_cmp (x ++ l) (x ++ k) = bytes_cmp l k.
Proof. induction x as [|a x IH]; cbn; [done|]. by rewrite Z.compare_refl. Qed.

Lemma bytes_lt_trans l k m : bytes_lt l k -> bytes_lt k m -> bytes_lt l m.
Proof.
  unfold bytes_lt. revert k m. induction l as [|a l IH]; intros [|b k] [|c m]; cbn; try done.
  destruct (Z.compare_spec a b), (Z.compare_spec b c), (Z.compare_spec a c); try done; try lia.
  apply IH.
Qed.

Lemma bytes_le_lt_eq l k : bytes_le l k <-> bytes_lt l k \/ l = k.
Proof.
  unfold bytes_le, bytes_lt. rewrite <- bytes_cmp_eq. destruct (bytes_cmp l k); intuition congruence.
Qed.

Lemma bytes_lt_irrefl l : ~ bytes_lt l l.
Proof. unfold bytes_lt. by rewrite bytes_cmp_refl. Qed.

#[export] Instance bytes_le_trans : Transitive bytes_le.
Proof.
  intros l k m. rewrite !bytes_le_lt_eq. intros [H1| ->] [H2| ->]; eauto using bytes_lt_trans.
Qed.
#[export] Instance bytes_le_total : Total bytes_le.
Proof.
  intros l k. unfold bytes_le. rewrite (bytes_cmp_antisym l k). destruct (bytes_cmp l k); cbn; auto.
Qed.
#[export] Instance bytes_le_antisymm : AntiSymm (=) bytes_le.
Proof.
  intros l k. unfold bytes_le. rewrite (bytes_cmp_antisym l k), <- bytes_cmp_eq.
  by destruct (bytes_cmp l k).
Qed.
#[export] Instance bytes_le_refl : Reflexive bytes_le.
Proof. intros l. unfold bytes_le. by rewrite bytes_cmp_refl. Qed.

Lemma bytes_not_le l k : ~ bytes_le l k <-> bytes_lt k l.
Proof.
  unfold bytes_le, bytes_lt. rewrite (bytes_cmp_antisym l k).
  destruct (bytes_cmp l k); cbn; naive_solver.
Qed.

(** Big-endian integers compare as numbers: the order of keys in the store. *)
Lemma bytes_cmp_be n v v' x x' :
  fits (8 * Z.of_nat n) v -> fits (8 * Z.of_nat n) v' ->
  bytes_cmp (be_bytes n v ++ x) (be_bytes n v' ++ x') =
  match v ?= v' with Eq => bytes_cmp x x' | c => c end.
Proof.
  intros Hv Hv'. unfold fits in *. rewrite pow256 in *.
  rewrite <- (Z.mod_small v (256 ^ Z.of_nat n)), <- (Z.mod_small v' (256 ^ Z.of_nat n)) at 2 by done.
  clear Hv Hv'. induction n as [|n IH].
  - cbn. by rewrite !Z.mod_1_r.
  - cbn [be_bytes app bytes_cmp]. rewrite !be_head, IH, !mod_256_S. clear IH.
    pose proof (Z.mod_pos_bound v (256 ^ Z.of_nat n) ltac:(apply Z.pow_pos_nonneg; lia)).
    pose proof (Z.mod_pos_bound v' (256 ^ Z.of_nat n) ltac:(apply Z.pow_pos_nonneg; lia)).
    generalize dependent (v mod 256 ^ Z.of_nat n). generalize dependent (v' mod 256 ^ Z.of_nat n).
    generalize (v / 256 ^ Z.of_nat n mod 256), (v' / 256 ^ Z.of_nat n mod 256).
    generalize (256 ^ Z.of_nat n). intros p a a' r Hr r' Hr'.
    destruct (Z.compare_spec a a') as [->|?|?].
    + destruct (Z.compare_spec r' r), (Z.compare_spec (a' * p + r') (a' * p + r)); (done || lia).
    + destruct (Z.compare_spec (a * p + r') (a' * p + r)); (done || nia).
    + destruct (Z.compare_spec (a * p + r') (a' * p + r)); (done || nia).
Qed.

#[global] Arguments be_bytes : simpl never.
#[global] Arguments le_bytes : simpl never.
