(* ===== verification/Types.v ===== *)
(** * Data types of the store: core/collection.rs, core/tag.rs, core/error.rs, blob/mod.rs, lib.rs

    Account and document ids are [u32], field and tag ids [u8], change ids
    and Raft indexes [u64]; all are [Z] with the bound stated where a theorem
    needs it. *)

From S2P Require Import Prelude Serialize.

Abbreviation AccountId := Z (only parsing).
Abbreviation DocumentId := Z (only parsing).
Abbreviation FieldId := Z (only parsing).
Abbreviation ChangeId := Z (only parsing).
Abbreviation LogIndex := Z (only parsing).
Abbreviation TermId := Z (only parsing).

Module Collection.
Inductive t : Set :=
| Principal | PushSubscription | Mail | Mailbox | Thread | Identity | EmailSubmission
| SieveScript | None.

#[export] Instance eq_dec : EqDecision t.
Proof. solve_decision. Defined.

Definition to_u8 (c : t) : Z :=
  match c with
  | Principal => 0 | PushSubscription => 1 | Mail => 2 | Mailbox => 3 | Thread => 4
  | Identity => 5 | EmailSubmission => 6 | SieveScript => 7 | None => 8
  end.

Definition of_u8 (value : Z) : t :=
  match value with
  | 0 => Principal | 1 => PushSubscription | 2 => Mail | 3 => Mailbox | 4 => Thread
  | 5 => Identity | 6 => EmailSubmission | 7 => SieveScript | _ => None
  end.

Lemma of_to_u8 c : of_u8 (to_u8 c) = c.
Proof. by destruct c. Qed.

Lemma to_u8_range c : 0 <= to_u8 c <= 8.
Proof. destruct c; cbn; lia. Qed.

Lemma to_u8_inj c c' : to_u8 c = to_u8 c' -> c = c'.
Proof. intros H. by rewrite <- (of_to_u8 c), H, of_to_u8. Qed.

#[export] Instance countable : Countable t.
Proof.
  refine (inj_countable' (fun c => Z.to_N (to_u8 c)) (fun n => of_u8 (Z.of_N n)) _).
  by intros [].
Defined.
End Collection.
#[export] Existing Instances Collection.eq_dec Collection.countable.

(** [StoreError], without its texts. *)
Module StoreError.
Inductive t : Set := InternalError | SerializeError | DeserializeError | InvalidArguments | AnchorNotFound | DataCorruption | NotFound.
End StoreError.
Abbreviation result A := (StoreError.t + A)%type.

(** [SharedBitmap]: the documents shared with an account, if there are any. *)
Definition has_some_access (shared : option (gset Z)) : bool :=
  match shared with Some b => negb (bool_decide (b = ∅)) | None => false end.
Definition shared_has_access (shared : option (gset Z)) (document_id : DocumentId) : bool :=
  match shared with Some b => bool_decide (document_id ∈ b) | None => false end.

(** [RecipientType]: what an address stands for. *)
Inductive RecipientType : Set :=
| Individual (account_id : AccountId)
| RList (accounts : list (AccountId * list Z))
| NotFound.

(** [TypeState] and its [TryFrom<Collection>]. *)
Inductive TypeState : Set := TSEmail | TSEmailDelivery | TSEmailSubmission | TSMailbox | TSThread | TSIdentity | TSNone.
#[export] Instance type_state_eq_dec : EqDecision TypeState.
Proof. solve_decision. Defined.
Definition type_state (c : Collection.t) : option TypeState :=
  match c with
  | Collection.Mail => Some TSEmail
  | Collection.Mailbox => Some TSMailbox
  | Collection.Thread => Some TSThread
  | Collection.Identity => Some TSIdentity
  | Collection.EmailSubmission => Some TSEmailSubmission
  | _ => None
  end.

(** [Tag]: a static id, a document id, a text (its UTF-8 bytes) or the default. *)
Inductive Tag : Set :=
| Static (id : Z)
| Id (id : Z)
| Text (text : list Z)
| Default.

#[export] Instance Tag_eq_dec : EqDecision Tag.
Proof. solve_decision. Defined.

Definition BLOB_HASH_LEN : nat := 32.
Definition BLOB_LOCAL : Z := 0.
Definition BLOB_EXTERNAL : Z := 1.

(** [BlobId]: the 32-byte SHA-256 hash, stored locally or externally. *)
Inductive BlobId : Set :=
| Local_ (hash : list Z)
| External (hash : list Z).

Definition blob_is_local (id : BlobId) : bool :=
  match id with Local_ _ => true | External _ => false end.
Definition blob_hash (id : BlobId) : list Z :=
  match id with Local_ h | External h => h end.

Definition blob_wf (id : BlobId) : Prop :=
  length (blob_hash id) = BLOB_HASH_LEN /\ bytes_ok (blob_hash id).

Definition blob_serialize (id : BlobId) : list Z :=
  (if blob_is_local id then BLOB_LOCAL else BLOB_EXTERNAL) :: blob_hash id.

Definition blob_deserialize (bytes : list Z) : option BlobId :=
  match bytes with
  | [] => None
  | b :: _ =>
      hash ← get_range bytes 1 (BLOB_HASH_LEN + 1);
      Some (if b =? BLOB_LOCAL then Local_ hash else External hash)
  end.

#[export] Instance BlobId_eq_dec : EqDecision BlobId.
Proof. solve_decision. Defined.

Lemma blob_deserialize_app id rest :
  blob_wf id -> blob_deserialize (blob_serialize id ++ rest) = Some id.
Proof.
  intros [Hl _]. unfold blob_deserialize, blob_serialize. cbn [app].
  pose proof (get_range_app [if blob_is_local id then BLOB_LOCAL else BLOB_EXTERNAL]
    (blob_hash id) rest) as E. cbn [length app] in E. rewrite Hl in E.
  change (1 + BLOB_HASH_LEN)%nat with (BLOB_HASH_LEN + 1)%nat in E. rewrite E.
  by destruct id.
Qed.
