(* ===== verification/TermIndex.v ===== *)
(** * The term index: components/store/src/nlp/term_index.rs

    For each document with full-text fields the store keeps the words of its
    parts in order, each with the id of its stem, its offset and its length.
    Ids and offsets are written in bit-packed blocks of 256, 128 and 32 values
    and a rest of variable-length integers. The builder, the serializer, the
    two deserializers and the matcher used by phrase search and search
    snippets are modelled; the bit packer is the [bitpacking] crate, a class
    here with the laws its documentation states. *)

From S2P Require Import Prelude Leb128 Serialize Types.

(** [String::from_utf8]: the well-formed byte sequences of the Unicode standard. *)
Definition in_range (lo hi b : Z) : bool := (lo <=? b) && (b <=? hi).
Fixpoint utf8_valid (l : list Z) : bool :=
  match l with
  | [] => true
  | b :: l1 =>
      if in_range 0 0x7F b then utf8_valid l1
      else
        match l1 with
        | b1 :: l2 =>
            if in_range 0xC2 0xDF b then in_range 0x80 0xBF b1 && utf8_valid l2
            else
              match l2 with
              | b2 :: l3 =>
                  if in_range 0xE0 0xEF b then
                    in_range (if b =? 0xE0 then 0xA0 else 0x80) (if b =? 0xED then 0x9F else 0xBF) b1 &&
                    in_range 0x80 0xBF b2 && utf8_valid l3
                  else
                    match l3 with
                    | b3 :: l4 =>
                        in_range 0xF0 0xF4 b &&
                        in_range (if b =? 0xF0 then 0x90 else 0x80) (if b =? 0xF4 then 0x8F else 0xBF) b1 &&
                        in_range 0x80 0xBF b2 && in_range 0x80 0xBF b3 && utf8_valid l4
                    | [] => false
                    end
              | [] => false
              end
        | [] => false
        end
  end.

Abbreviation TermId := Z (only parsing).
Definition LENGTH_SIZE : nat := 4.

Record Term : Set := mkTerm { term_id : TermId; term_id_stemmed : TermId; term_offset : Z; term_len : Z }.
Record TermGroup : Set := mkTermGroup { tg_field_id : FieldId; tg_part_id : Z; tg_terms : list Term }.
Record TermIndexBuilderItem : Set := mkBuilderItem { bi_field : FieldId; bi_part_id : Z; bi_terms : list Term }.
Record TermIndexBuilder : Type := mkBuilder {
  tb_terms : gmap (list Z) Z; tb_items : list TermIndexBuilderItem }.
Record TermIndexItem : Set := mkItem {
  ti_field_id : FieldId; ti_part_id : Z; ti_terms_len : nat; ti_terms : list Z }.
Record TermIndex : Type := mkTermIndex { token_map : gmap (list Z) Z; ti_items : list TermIndexItem }.
Record MatchTerm : Set := mkMatchTerm { mt_id : TermId; mt_id_stemmed : TermId }.

(** [StemmedToken]: a word of a text, its stem if it has one, offset and length. *)
Record StemmedToken : Set := mkToken {
  tk_word : list Z; tk_stemmed_word : option (list Z); tk_offset : Z; tk_len : Z }.

#[export] Instance Term_eq_dec : EqDecision Term.
Proof. solve_decision. Defined.

(** ** The bit packer: blocks of 32, 128 or 256 values of 32 bits *)

Class BitPacker := {
  num_bits : nat -> list Z -> Z;
  compress : nat -> list Z -> Z -> list Z;
  decompress : nat -> list Z -> Z -> list Z;
  num_bits_sorted : nat -> Z -> list Z -> Z;
  compress_sorted : nat -> Z -> list Z -> Z -> list Z;
  decompress_sorted : nat -> Z -> list Z -> Z -> list Z
}.

Definition is_block (n : nat) : Prop := n = 32%nat \/ n = 128%nat \/ n = 256%nat.

(** [num_bits] is at most the width of a value, [compress] writes [num_bits * BLOCK_LEN / 8] bytes
    that [decompress] reads back; the sorted variants need values that do not
    decrease from the initial one. *)
Class BitPackerLaws `{BitPacker} : Prop := {
  num_bits_range n l : 0 <= num_bits n l <= 32;
  num_bits_sorted_range n i l : 0 <= num_bits_sorted n i l <= 32;
  compress_ok n l :
    is_block n -> length l = n -> Forall (fits 32) l ->
    length (compress n l (num_bits n l)) = (Z.to_nat (num_bits n l) * n / 8)%nat /\
    decompress n (compress n l (num_bits n l)) (num_bits n l) = l;
  compress_sorted_ok n i l :
    is_block n -> length l = n -> Forall (fits 32) l -> StronglySorted Z.le (i :: l) ->
    length (compress_sorted n i l (num_bits_sorted n i l)) =
      (Z.to_nat (num_bits_sorted n i l) * n / 8)%nat /\
    decompress_sorted n i (compress_sorted n i l (num_bits_sorted n i l)) (num_bits_sorted n i l) = l
}.

(** [match remaining { 0..=31 => 0, 32..=127 => 32, 128..=255 => 128, _ => 256 }]. *)
Definition block_len (remaining : nat) : nat :=
  if (remaining <=? 31)%nat then 0 else if (remaining <=? 127)%nat then 32
  else if (remaining <=? 255)%nat then 128 else 256.

(** ** Building *)

Definition builder_new : TermIndexBuilder := mkBuilder ∅ [].

(** [self.terms.entry(word).or_insert_with(|| id)] with [id = self.terms.len() as u32]. *)
Definition intern (terms : gmap (list Z) Z) (word : list Z) : TermId * gmap (list Z) Z :=
  match terms !! word with
  | Some id => (id, terms)
  | None => (u32 (Z.of_nat (size terms)), <[word := u32 (Z.of_nat (size terms))]> terms)
  end.

Definition add_token (b : TermIndexBuilder) (word : list Z) (offset len : Z) : Term * TermIndexBuilder :=
  let '(id, terms) := intern (tb_terms b) word in
  (mkTerm id id offset len, mkBuilder terms (tb_items b)).

Definition add_stemmed_token (b : TermIndexBuilder) (token : StemmedToken) : Term * TermIndexBuilder :=
  let '(id, terms) := intern (tb_terms b) (tk_word token) in
  let '(id_stemmed, terms) :=
    match tk_stemmed_word token with
    | Some stemmed_word => intern terms stemmed_word
    | None => (id, terms)
    end in
  (mkTerm id id_stemmed (tk_offset token) (tk_len token), mkBuilder terms (tb_items b)).

Definition add_terms (b : TermIndexBuilder) (field : FieldId) (part_id : Z) (terms : list Term)
    : TermIndexBuilder :=
  mkBuilder (tb_terms b) (tb_items b ++ [mkBuilderItem field part_id terms]).

(** The loop of [prepare_batch] over the words of a full-text part. *)
Fixpoint add_tokens (b : TermIndexBuilder) (tokens : list StemmedToken) : list Term * TermIndexBuilder :=
  match tokens with
  | [] => ([], b)
  | token :: tokens =>
      let '(term, b) := add_stemmed_token b token in
      let '(terms, b) := add_tokens b tokens in
      (term :: terms, b)
  end.
Definition index_part (b : TermIndexBuilder) (field : FieldId) (part_id : Z) (tokens : list StemmedToken)
    : TermIndexBuilder :=
  let '(terms, b) := add_tokens b tokens in
  if bool_decide (terms = []) then b else add_terms b field part_id terms.

Definition builder_is_empty (b : TermIndexBuilder) : bool := bool_decide (tb_items b = []).

(** ** Writing *)

Section TermIndex.
Context `{BitPacker}.

(** [for (word, id) in &self.terms { terms[*id as usize] = word }]. *)
Fixpoint place_words (l : list (list Z * Z)) (words : list (list Z)) : res (list (list Z)) :=
  match l with
  | [] => Ok words
  | (word, id) :: l =>
      if (Z.to_nat id <? length words)%nat then place_words l (<[Z.to_nat id := word]> words) else Panic
  end.

(** The [while pos < len] loop over the ids or the offsets; every iteration
    consumes a value, so the number of values bounds the iterations. *)
Fixpoint pack_loop (fuel : nat) (is_sorted : bool) (initial_value : Z) (chunk : list Z) : list Z :=
  match chunk, fuel with
  | [], _ | _, O => []
  | _, S fuel =>
      let n := block_len (length chunk) in
      if (0 <? n)%nat then
        let block := take n chunk in
        if is_sorted then
          let num_bits := num_bits_sorted n initial_value block in
          num_bits :: compress_sorted n initial_value block num_bits ++
            pack_loop fuel is_sorted (default 0 (last block)) (drop n chunk)
        else
          let num_bits := num_bits n block in
          num_bits :: compress n block num_bits ++ pack_loop fuel is_sorted initial_value (drop n chunk)
      else fold_left push_leb128 chunk []
  end.
Definition pack (is_sorted : bool) (chunk : list Z) : list Z :=
  pack_loop (length chunk) is_sorted 0 chunk.

Definition terms_bytes (terms : list Term) : list Z :=
  pack false (terms ≫= (fun t => [term_id t; term_id_stemmed t])) ++
  pack true (term_offset <$> terms) ++ (term_len <$> terms).

Definition item_bytes (item : TermIndexBuilderItem) : list Z :=
  let terms := terms_bytes (bi_terms item) in
  le_bytes 4 (u32 (Z.of_nat (length terms))) ++ [bi_field item] ++
  push_leb128 (push_leb128 [] (bi_part_id item)) (Z.of_nat (length (bi_terms item))) ++ terms.

Definition builder_serialize (b : TermIndexBuilder) : res (list Z) :=
  if bool_decide (tb_terms b = ∅) then Err
  else
    words ← place_words (map_to_list (tb_terms b)) (replicate (size (tb_terms b)) []);
    Ok (push_leb128 [] (Z.of_nat (size (tb_terms b))) ++ (words ≫= (fun word => word ++ [0])) ++
        (tb_items b ≫= item_bytes)).

(** ** Reading *)

(** The bytes up to the first NUL, and those after it. *)
Fixpoint split_nul (bytes : list Z) : option (list Z * list Z) :=
  match bytes with
  | [] => None
  | b :: bytes => if b =? 0 then Some ([], bytes) else '(w, rest) ← split_nul bytes; Some (b :: w, rest)
  end.

(** The words; each takes at least a byte. *)
Fixpoint read_words (fuel : nat) (count : Z) (bytes : list Z) : option (list (list Z) * list Z) :=
  if count <=? 0 then Some ([], bytes)
  else
    match fuel with
    | O => None
    | S fuel =>
        '(word, bytes) ← split_nul bytes;
        if utf8_valid word then
          '(words, bytes) ← read_words fuel (count - 1) bytes;
          Some (word :: words, bytes)
        else None
    end.

(** [bytes.get(pos..)?.read_leb128()?; pos += bytes_read]. *)
Definition read_skip (t : int_ty) (bytes : list Z) : option (Z * list Z) :=
  '(v, n) ← read_leb128 t bytes; Some (v, drop n bytes).

Definition read_header (bytes : list Z) : option (nat * FieldId * list Z) :=
  len ← get_range bytes 0 LENGTH_SIZE;
  '(field, bytes) ← it_next (drop LENGTH_SIZE bytes);
  Some (Z.to_nat (from_le_bytes len), field, bytes).

Fixpoint read_items (fuel : nat) (bytes : list Z) : option (list TermIndexItem) :=
  match bytes, fuel with
  | [], _ => Some []
  | _, O => None
  | _, S fuel =>
      '(item_len, field, bytes) ← read_header bytes;
      '(part_id, bytes) ← read_skip U32 bytes;
      '(terms_len, bytes) ← read_skip Usize bytes;
      terms ← get_range bytes 0 item_len;
      items ← read_items fuel (drop item_len bytes);
      Some (mkItem field part_id (Z.to_nat terms_len) terms :: items)
  end.

Definition term_index_deserialize (bytes : list Z) : option TermIndex :=
  '(num_tokens, bytes) ← read_skip U32 bytes;
  '(words, bytes) ← read_words (length bytes) num_tokens bytes;
  items ← read_items (length bytes) bytes;
  Some (mkTermIndex
    (fold_left (fun m '(i, word) => <[word := Z.of_nat i]> m) (imap pair words) ∅) items).

Definition get_match_term (ti : TermIndex) (word : list Z) (stemmed_word : option (list Z)) : MatchTerm :=
  let id := default U32_MAX (token_map ti !! word) in
  mkMatchTerm id (default id (w ← stemmed_word; token_map ti !! w)).

(** [skip_items]: the bytes of [remaining_items] values; the two loops of the
    source are one here, over blocks and single values. *)
Fixpoint skip_items (fuel : nat) (bytes : list Z) (remaining_items : nat) : res nat :=
  match remaining_items, fuel with
  | O, _ => Ok O
  | _, O => Err
  | _, S fuel =>
      let n := block_len remaining_items in
      if (0 <? n)%nat then
        '(num_bits, _) ← ok_or (it_next bytes);
        let read := (Z.to_nat num_bits * n / 8 + 1)%nat in
        rest ← skip_items fuel (drop read bytes) (remaining_items - n);
        Ok (read + rest)%nat
      else
        read ← ok_or (skip_leb128_pos 0 bytes);
        rest ← skip_items fuel (drop read bytes) (remaining_items - 1);
        Ok (read + rest)%nat
  end.

(** [count] variable-length integers. *)
Fixpoint read_values (count : nat) (bytes : list Z) : res (nat * list Z) :=
  match count with
  | O => Ok (O, [])
  | S count =>
      '(val, read) ← ok_or (read_leb128 U32 bytes);
      '(rest, vals) ← read_values count (drop read bytes);
      Ok ((read + rest)%nat, val :: vals)
  end.

Definition uncompress_chunk (bytes : list Z) (remaining_items : nat) (initial_value : option Z)
    : res (nat * list Z) :=
  let n := block_len remaining_items in
  if (0 <? n)%nat then
    '(num_bits, _) ← ok_or (it_next bytes);
    let bytes_read := (Z.to_nat num_bits * n / 8 + 1)%nat in
    block ← ok_or (get_range bytes 1 bytes_read);
    Ok (bytes_read,
        match initial_value with
        | Some initial_value => decompress_sorted n initial_value block num_bits
        | None => decompress n block num_bits
        end)
  else read_values remaining_items bytes.

(** [chunks_exact(2)]. *)
Fixpoint chunk_pairs (chunk : list Z) : list (TermId * TermId) :=
  match chunk with
  | a :: b :: chunk => (a, b) :: chunk_pairs chunk
  | _ => []
  end.

(** ** Matching *)

(** The variables of the loop over the terms of an item. *)
Record matching : Type := mkMatching {
  ms_term_pos : nat; ms_terms : list Term; ms_partial_match : list Term; ms_matched_mask : Z }.

Definition found (st : matching) (ids : TermId * TermId) : Term :=
  mkTerm ids.1 ids.2 (u32 (Z.of_nat (ms_term_pos st))) 0.
Definition next_term (st : matching) : matching :=
  mkMatching (S (ms_term_pos st)) (ms_terms st) (ms_partial_match st) (ms_matched_mask st).

(** One term of a phrase match; the boolean tells that the loop is left. *)
Definition phrase_term (match_terms : list MatchTerm) (match_many : bool) (ids : TermId * TermId)
    (st : matching) : res (matching * bool) :=
  let partial := ms_partial_match st in
  match match_terms !! length partial with
  | None => Panic
  | Some m =>
      if mt_id m =? ids.1 then
        let partial := partial ++ [found st ids] in
        if (length partial =? length match_terms)%nat then
          let st := mkMatching (ms_term_pos st) (ms_terms st ++ partial) [] (ms_matched_mask st) in
          if negb match_many then Ok (st, true) else Ok (next_term st, false)
        else Ok (next_term (mkMatching (ms_term_pos st) (ms_terms st) partial (ms_matched_mask st)), false)
      else
        Ok (next_term (mkMatching (ms_term_pos st) (ms_terms st)
              (if (0 <? length partial)%nat then [] else partial) (ms_matched_mask st)), false)
  end.

Definition word_matches (m : MatchTerm) (ids : TermId * TermId) : bool :=
  (mt_id m =? ids.1) || (mt_id m =? ids.2) ||
  (negb (mt_id_stemmed m =? mt_id m) && ((mt_id_stemmed m =? ids.1) || (mt_id_stemmed m =? ids.2))).

(** The position of the first match term that matches. *)
Fixpoint match_loop (match_terms : list MatchTerm) (ids : TermId * TermId) (match_pos : nat) : option nat :=
  match match_terms with
  | [] => None
  | m :: match_terms =>
      if word_matches m ids then Some match_pos else match_loop match_terms ids (S match_pos)
  end.

(** One term of a match of any of the words; [!(1 << match_pos)] is on [u64]. *)
Definition any_term (match_terms : list MatchTerm) (match_many : bool) (ids : TermId * TermId)
    (st : matching) : res (matching * bool) :=
  let st :=
    match match_loop match_terms ids 0 with
    | Some match_pos =>
        mkMatching (ms_term_pos st) (ms_terms st) (ms_partial_match st ++ [found st ids])
          (Z.land (ms_matched_mask st) (U64_MAX - u64 (1 ≪ Z.of_nat match_pos)))
    | None => st
    end in
  if negb match_many && (ms_matched_mask st =? 0) then Ok (st, true) else Ok (next_term st, false).

Definition match_term (match_terms : list MatchTerm) (match_phrase match_many : bool) :=
  if match_phrase then phrase_term match_terms match_many else any_term match_terms match_many.

Fixpoint match_chunk (f : TermId * TermId -> matching -> res (matching * bool))
    (chunk : list (TermId * TermId)) (st : matching) : res (matching * bool) :=
  match chunk with
  | [] => Ok (st, false)
  | ids :: chunk => '(st, stop) ← f ids st; if stop : bool then Ok (st, true) else match_chunk f chunk st
  end.

(** ['term_loop]: the state and the byte position it stops at. Every chunk has
    a term, so the number of terms bounds the iterations. *)
Fixpoint term_loop (fuel : nat) (f : TermId * TermId -> matching -> res (matching * bool))
    (item : TermIndexItem) (byte_pos : nat) (st : matching) : res (matching * nat) :=
  if (ms_term_pos st <? ti_terms_len item)%nat then
    match fuel with
    | O => Err
    | S fuel =>
        bytes ← ok_or (get_from (ti_terms item) byte_pos);
        '(bytes_read, chunk) ←
          uncompress_chunk bytes (ti_terms_len item * 2 - ms_term_pos st * 2) None;
        '(st, stop) ← match_chunk f (chunk_pairs chunk) st;
        if stop : bool then Ok (st, (byte_pos + bytes_read)%nat)
        else term_loop fuel f item (byte_pos + bytes_read) st
    end
  else Ok (st, byte_pos).

(** The iterator over the matched terms: those done, the current one, the rest. *)
Record offsets : Type := mkOffsets { os_done : list Term; os_term : Term; os_rest : list Term }.
Definition offsets_terms (o : offsets) : list Term := os_done o ++ os_term o :: os_rest o.

(** [item.terms[item.terms.len() - item.terms_len + offset]]. *)
Definition length_at (item : TermIndexItem) (offset : nat) : res Z :=
  let i := (length (ti_terms item) + offset)%nat in
  if (i <? ti_terms_len item)%nat then Err else ok_or (ti_terms item !! (i - ti_terms_len item)%nat).

(** The offsets of a chunk; [inr] when every matched term has its offset. *)
Fixpoint offset_chunk (item : TermIndexItem) (chunk : list Z) (term_pos : nat) (o : offsets)
    : res (nat * offsets + list Term) :=
  match chunk with
  | [] => Ok (inl (term_pos, o))
  | offset :: chunk =>
      let term := os_term o in
      if term_offset term =? u32 (Z.of_nat term_pos) then
        len ← length_at item (Z.to_nat (term_offset term));
        let done := os_done o ++ [mkTerm (term_id term) (term_id_stemmed term) offset len] in
        match os_rest o with
        | next :: rest => offset_chunk item chunk (S term_pos) (mkOffsets done next rest)
        | [] => Ok (inr done)
        end
      else offset_chunk item chunk (S term_pos) o
  end.

Fixpoint offset_loop (fuel : nat) (item : TermIndexItem) (byte_pos : nat) (initial_value : Z)
    (term_pos : nat) (o : offsets) : res (list Term) :=
  if (term_pos <? ti_terms_len item)%nat then
    match fuel with
    | O => Err
    | S fuel =>
        bytes ← ok_or (get_from (ti_terms item) byte_pos);
        '(bytes_read, chunk) ←
          uncompress_chunk bytes (ti_terms_len item - term_pos) (Some initial_value);
        initial_value ← unwrap (last chunk);
        r ← offset_chunk item chunk term_pos o;
        match r with
        | inl (term_pos, o) => offset_loop fuel item (byte_pos + bytes_read) initial_value term_pos o
        | inr terms => Ok terms
        end
    end
  else Ok (offsets_terms o).

(** The offsets of the matched terms of an item, read after its ids. *)
Definition with_offsets (item : TermIndexItem) (term_pos byte_pos : nat) (terms : list Term)
    : res (list Term) :=
  match terms with
  | [] => Panic
  | term :: terms =>
      skipped ←
        (if (term_pos <? ti_terms_len item)%nat then
           bytes ← ok_or (get_from (ti_terms item) byte_pos);
           skip_items ((ti_terms_len item - term_pos) * 2) bytes ((ti_terms_len item - term_pos) * 2)
         else Ok O);
      offset_loop (ti_terms_len item) item (byte_pos + skipped) 0 0 (mkOffsets [] term terms)
  end.

Section MatchTerms.
Variables (match_terms : list MatchTerm) (match_in : option (gset FieldId)).
Variables match_phrase match_many include_offsets : bool.

(** The loop over the items, with [matched_mask] and [result]. *)
Fixpoint item_loop (items : list TermIndexItem) (matched_mask : Z) (result : list TermGroup)
    : res (list TermGroup) :=
  match items with
  | [] => Ok result
  | item :: items =>
      if match match_in with Some fields => bool_decide (ti_field_id item ∉ fields) | None => false end then
        item_loop items matched_mask result
      else
        '(st, byte_pos) ← term_loop (ti_terms_len item) (match_term match_terms match_phrase match_many)
          item 0 (mkMatching 0 [] [] matched_mask);
        let terms := if negb match_phrase then ms_terms st ++ ms_partial_match st else ms_terms st in
        if bool_decide (terms = []) then item_loop items (ms_matched_mask st) result
        else
          terms ← (if include_offsets then with_offsets item (ms_term_pos st) byte_pos terms else Ok terms);
          let result := result ++ [mkTermGroup (ti_field_id item) (ti_part_id item) terms] in
          if negb match_many then Ok result else item_loop items (ms_matched_mask st) result
  end.

(** [u64::MAX >> (64 - match_terms.len())], where the subtraction wraps and
    the shift is taken modulo 64. *)
Definition words_mask : Z := U64_MAX ≫ ((64 - Z.of_nat (length match_terms)) mod 64).

Definition term_index_match (ti : TermIndex) : res (option (list TermGroup)) :=
  if negb match_phrase && negb ((1 <=? length match_terms) && (length match_terms <=? 64))%nat then Err
  else
    result ← item_loop (ti_items ti) words_mask [];
    Ok (if bool_decide (result = []) then None else Some result).
End MatchTerms.

(** ** [TokenIndex]: the words of a document by field *)

Record Terms : Type := mkTerms { te_field_id : FieldId; exact_terms : gset Z; stemmed_terms : gset Z }.
Record TokenIndex : Type := mkTokenIndex { tokens : list (list Z); token_terms : list Terms }.

Definition insert_term (t : Terms) (ids : TermId * TermId) : Terms :=
  mkTerms (te_field_id t) ({[ids.1]} ∪ exact_terms t)
    (if negb (ids.1 =? ids.2) then {[ids.2]} ∪ stemmed_terms t else stemmed_terms t).

(** The terms of an item; [bytes] starts at the item. *)
Fixpoint token_loop (fuel : nat) (bytes : list Z) (terms_len term_pos : nat) (t : Terms) : option Terms :=
  if (term_pos <? terms_len)%nat then
    match fuel with
    | O => None
    | S fuel =>
        match uncompress_chunk bytes ((terms_len - term_pos) * 2) None with
        | Ok (bytes_read, chunk) =>
            let pairs := chunk_pairs chunk in
            token_loop fuel (drop bytes_read bytes) terms_len (term_pos + length pairs)
              (fold_left insert_term pairs t)
        | _ => None
        end
    end
  else Some t.

Fixpoint token_items (fuel : nat) (bytes : list Z) : option (list Terms) :=
  match bytes, fuel with
  | [], _ => Some []
  | _, O => None
  | _, S fuel =>
      '(item_len, field, bytes) ← read_header bytes;
      bytes_read ← skip_leb128_pos 0 bytes;
      '(terms_len, bytes) ← read_skip Usize (drop bytes_read bytes);
      t ← token_loop (Z.to_nat terms_len) bytes (Z.to_nat terms_len) 0 (mkTerms field ∅ ∅);
      ts ← token_items fuel (drop item_len bytes);
      Some (t :: ts)
  end.

Definition token_index_deserialize (bytes : list Z) : option TokenIndex :=
  '(num_tokens, bytes) ← read_skip U32 bytes;
  '(words, bytes) ← read_words (length bytes) num_tokens bytes;
  terms ← token_items (length bytes) bytes;
  Some (mkTokenIndex words terms).
End TermIndex.

(** ** Reading packed values back *)

Lemma block_len_cases n :
  (block_len n = 0%nat /\ (n <= 31)%nat) \/ (is_block (block_len n) /\ (block_len n <= n)%nat).
Proof.
  unfold block_len, is_block. destruct (Nat.leb_spec n 31); [by left|right].
  destruct (Nat.leb_spec n 127); [lia|]. destruct (Nat.leb_spec n 255); lia.
Qed.

Lemma is_block_even n : is_block n -> (0 < n)%nat /\ Nat.Even n.
Proof. intros [->|[->| ->]]; (split; [lia|]); [by exists 16%nat|by exists 64%nat|by exists 128%nat]. Qed.

Lemma fold_push_values l buf : fold_left push_leb128 l buf = buf ++ flat_map leb128 l.
Proof.
  revert buf. induction l as [|x l IH]; intros buf; cbn; [by rewrite app_nil_r|].
  rewrite IH. unfold push_leb128, to_leb128_bytes. by rewrite <- app_assoc.
Qed.

Lemma read_values_app l rest :
  Forall (fits 32) l ->
  read_values (length l) (flat_map leb128 l ++ rest) = Ok (length (flat_map leb128 l), l).
Proof.
  induction 1 as [|x l Hx _ IH]; [done|]. cbn [length read_values flat_map].
  rewrite <- app_assoc, read_leb128_app by by apply decodable_fits.
  cbn [ok_or mbind res_bind]. rewrite drop_app_length, IH. cbn [mbind res_bind].
  by rewrite length_app.
Qed.

Lemma sorted_split_last i hd tl x :
  StronglySorted Z.le (i :: hd ++ tl) -> last hd = Some x ->
  StronglySorted Z.le (i :: hd) /\ StronglySorted Z.le (x :: tl).
Proof.
  intros [Hs Hi]%StronglySorted_inv Hl. apply Forall_app in Hi as [Hi _].
  apply last_Some in Hl as (l & ->). split.
  - constructor; [|done]. clear Hi. induction (l ++ [x]) as [|y k IH]; [constructor|].
    apply StronglySorted_inv in Hs as [Hs Hy]. constructor; [by apply IH|]. by apply Forall_app in Hy as [? _].
  - clear Hi. induction l as [|y l IH]; [done|]. apply StronglySorted_inv in Hs as [Hs _]. by apply IH.
Qed.

Section Packing.
Context `{BitPackerLaws}.

Definition pack_from (is_sorted : bool) (initial : Z) (l : list Z) : list Z :=
  pack_loop (length l) is_sorted initial l.

Lemma pack_loop_fuel fuel s i l :
  (length l <= fuel)%nat -> pack_loop fuel s i l = pack_from s i l.
Proof.
  unfold pack_from. assert (forall n m f i l, (length l <= n)%nat -> (length l <= m)%nat -> (length l <= f)%nat ->
    pack_loop m s i l = pack_loop f s i l) as Hgen; [|intros; apply (Hgen (length l)); lia].
  clear. induction n as [|n IH]; intros m f i [|x l] Hn Hm Hf; try (by destruct m, f); [cbn in Hn; lia|].
  destruct m as [|m]; [cbn in Hm; lia|]. destruct f as [|f]; [cbn in Hf; lia|]. cbn [pack_loop].
  destruct (Nat.ltb_spec 0 (block_len (length (x :: l)))) as [Hb|Hb]; [|done].
  pose proof (length_drop (x :: l) (block_len (length (x :: l)))) as Hd. cbn [length] in *.
  by destruct s; rewrite (IH m f) by lia.
Qed.

(** The values a reader is left with after the first chunk. *)
Lemma uncompress_pack (s : bool) i l rest :
  l <> [] -> Forall (fits 32) l -> (s = true -> StronglySorted Z.le (i :: l)) ->
  exists k hd tl i',
    uncompress_chunk (pack_from s i l ++ rest) (length l) (if s then Some i else None) = Ok (k, hd) /\
    l = hd ++ tl /\ hd <> [] /\ (Nat.Even (length l) -> Nat.Even (length hd)) /\
    (k <= length (pack_from s i l ++ rest))%nat /\
    drop k (pack_from s i l ++ rest) = pack_from s i' tl ++ rest /\
    (s = true -> last hd = Some i' /\ StronglySorted Z.le (i' :: tl)).
Proof.
  intros Hne Hf Hs. destruct (block_len_cases (length l)) as [[Hb Hn]|[Hb Hn]].
  - exists (length (flat_map leb128 l)), l, [], (default 0 (last l)).
    assert (pack_from s i l = flat_map leb128 l) as ->.
    { unfold pack_from. destruct l as [|x l]; [done|]. cbn [length pack_loop].
      change (S (length l)) with (length (x :: l)). rewrite Hb. cbn. by rewrite fold_push_values. }
    unfold uncompress_chunk. rewrite Hb. cbn [Nat.ltb Nat.leb]. split_and!; try done.
    + by apply read_values_app.
    + by rewrite app_nil_r.
    + rewrite length_app. lia.
    + by rewrite drop_app_length.
    + intros ->. split; [|repeat constructor]. destruct (last l) eqn:E; [done|]. by apply last_None in E.
  - set (n := block_len (length l)) in *. destruct (is_block_even n Hb) as [Hpos Heven].
    assert (length (take n l) = n) as Htl by (rewrite length_take; lia).
    assert (Forall (fits 32) (take n l)) as Hft by by apply Forall_take.
    assert (last (take n l) <> None) as Hlast.
    { rewrite last_None. intros E. rewrite E in Htl. cbn in Htl. lia. }
    assert (s = true -> StronglySorted Z.le (i :: take n l) /\
      StronglySorted Z.le (default 0 (last (take n l)) :: drop n l)) as Hsort.
    { intros E. specialize (Hs E). rewrite <- (take_drop n l) in Hs.
      destruct (last (take n l)) as [x|] eqn:Ex; [|done]. by eapply sorted_split_last. }
    set (nb := if s then num_bits_sorted n i (take n l) else num_bits n (take n l)).
    set (cb := if s then compress_sorted n i (take n l) nb else compress n (take n l) nb).
    assert (length cb = (Z.to_nat nb * n / 8)%nat /\
      (if s then decompress_sorted n i cb nb else decompress n cb nb) = take n l) as [Hlen Hdec].
    { unfold cb, nb. destruct s; [apply compress_sorted_ok|apply compress_ok]; try done. by apply Hsort. }
    assert (pack_from s i l = nb :: cb ++ pack_from s (if s then default 0 (last (take n l)) else i) (drop n l)) as ->.
    { unfold pack_from at 1. destruct l as [|x l]; [done|]. cbn [length pack_loop].
      change (S (length l)) with (length (x :: l)). fold n. rewrite (proj2 (Nat.ltb_lt 0 n) Hpos).
      unfold cb, nb. pose proof (length_drop (x :: l) n) as Hd. cbn [length] in Hd.
      destruct s; rewrite pack_loop_fuel by lia; done. }
    exists (S (length cb)), (take n l), (drop n l), (if s then default 0 (last (take n l)) else i).
    split_and!.
    + unfold uncompress_chunk. fold n. rewrite (proj2 (Nat.ltb_lt 0 n) Hpos). cbn [app].
      cbn [it_next slice_iter ok_or mbind res_bind]. rewrite <- Hlen, Nat.add_1_r.
      pose proof (get_range_app [nb] cb (pack_from s (if s then default 0 (last (take n l)) else i) (drop n l) ++ rest))
        as Hg. cbn [length app] in Hg. rewrite <- app_assoc. change (1 + length cb)%nat with (S (length cb)) in Hg. rewrite Hg. cbn [ok_or mbind res_bind].
      by destruct s; rewrite Hdec.
    + by rewrite take_drop.
    + intros E. rewrite E in Htl. cbn in Htl. lia.
    + by rewrite Htl.
    + rewrite length_app. cbn [length]. rewrite length_app. lia.
    + cbn [app drop]. rewrite <- app_assoc. by rewrite drop_app_length.
    + intros ->. split; [|by apply Hsort]. by destruct (last (take n l)).
Qed.
End Packing.

Lemma chunk_pairs_app hd tl :
  Nat.Even (length hd) -> chunk_pairs (hd ++ tl) = chunk_pairs hd ++ chunk_pairs tl.
Proof.
  intros [k Hk]. revert hd Hk. induction k as [|k IH]; intros [|a [|b hd]] Hk; cbn in *; try lia; [done|].
  by rewrite IH by lia.
Qed.

Lemma chunk_pairs_length l : Nat.Even (length l) -> (length (chunk_pairs l) * 2 = length l)%nat.
Proof.
  intros [k Hk]. revert l Hk. induction k as [|k IH]; intros [|a [|b l]] Hk; cbn in *; try lia.
  rewrite IH by lia. lia.
Qed.

Definition term_ids (t : Term) : TermId * TermId := (term_id t, term_id_stemmed t).
Definition ids_of (terms : list Term) : list Z := terms ≫= (fun t => [term_id t; term_id_stemmed t]).

Lemma ids_of_pairs terms : chunk_pairs (ids_of terms) = term_ids <$> terms.
Proof. induction terms as [|t terms IH]; [done|]. cbn. by f_equal. Qed.

Lemma ids_of_length terms : length (ids_of terms) = (length terms * 2)%nat.
Proof. induction terms as [|t terms IH]; [done|]. cbn. do 2 f_equal. exact IH. Qed.

Section Readers.
Context `{BitPackerLaws}.

Lemma Even_sub n m : Nat.Even (n + m) -> Nat.Even n -> Nat.Even m.
Proof. intros [a Ha] [b Hb]. exists (a - b)%nat. lia. Qed.

(** Reading the ids of an item chunk by chunk. *)
Lemma ids_chunk i ids rest :
  ids <> [] -> Forall (fits 32) ids -> Nat.Even (length ids) ->
  exists k hd tl, uncompress_chunk (pack_from false i ids ++ rest) (length ids) None = Ok (k, hd) /\
    ids = hd ++ tl /\ Nat.Even (length hd) /\ (0 < length hd)%nat /\ Nat.Even (length tl) /\
    chunk_pairs ids = chunk_pairs hd ++ chunk_pairs tl /\ Forall (fits 32) tl /\
    (k <= length (pack_from false i ids ++ rest))%nat /\
    exists i', drop k (pack_from false i ids ++ rest) = pack_from false i' tl ++ rest.
Proof.
  intros Hne Hf He. destruct (uncompress_pack false i ids rest) as (k & hd & tl & i' & E & Hl & Hh & Hev & Hk & Hd & _);
    [done..|]. specialize (Hev He).
  exists k, hd, tl. split_and!; try done.
  - destruct hd; [done|cbn; lia].
  - rewrite Hl, length_app in He. by eapply Even_sub.
  - rewrite Hl. by apply chunk_pairs_app.
  - rewrite Hl in Hf. by apply Forall_app in Hf as [_ ?].
  - by exists i'.
Qed.

Lemma token_loop_spec fuel i ids rest n p t :
  Forall (fits 32) ids -> length ids = ((n - p) * 2)%nat -> (p <= n)%nat -> (n - p <= fuel)%nat ->
  token_loop fuel (pack_from false i ids ++ rest) n p t = Some (fold_left insert_term (chunk_pairs ids) t).
Proof.
  revert i ids p t. induction fuel as [|fuel IH]; intros i ids p t Hf Hl Hp Hfuel; cbn [token_loop].
  { rewrite (proj2 (Nat.ltb_ge _ _)) by lia. destruct ids; [done|cbn in Hl; lia]. }
  destruct (Nat.ltb_spec p n) as [Hlt|Hge].
  2: { destruct ids; [done|cbn in Hl; lia]. }
  rewrite <- Hl. destruct (ids_chunk i ids rest) as (k & hd & tl & E & Hids & He & Hpos & He' & Hpairs & Hf' & _ & i' & Hd).
  { intros ->. cbn in Hl. lia. } { done. } { rewrite Hl. exists (n - p)%nat. lia. }
  rewrite E. cbv beta iota. rewrite Hd, Hpairs, fold_left_app.
  pose proof (chunk_pairs_length hd He) as Hc. rewrite Hids, length_app in Hl. apply IH; [done|lia..].
Qed.

Definition advances (f : TermId * TermId -> matching -> res (matching * bool)) : Prop :=
  forall ids st st', f ids st = Ok (st', false) -> ms_term_pos st' = S (ms_term_pos st).

Lemma match_chunk_pos f pairs st st' :
  advances f -> match_chunk f pairs st = Ok (st', false) ->
  ms_term_pos st' = (ms_term_pos st + length pairs)%nat.
Proof.
  intros Hf. revert st. induction pairs as [|p pairs IH]; intros st; cbn [match_chunk length].
  - intros [= <-]. lia.
  - destruct (f p st) as [[st1 [|]]| |] eqn:E; cbn [mbind res_bind]; try done. intros E'%IH. apply Hf in E. lia.
Qed.

Lemma match_chunk_app f l k st :
  match_chunk f (l ++ k) st =
  ('(st, stop) ← match_chunk f l st; if stop : bool then Ok (st, true) else match_chunk f k st).
Proof.
  revert st. induction l as [|x l IH]; intros st; cbn [app match_chunk mbind res_bind]; [done|].
  by destruct (f x st) as [[st1 [|]]| |]; cbn.
Qed.

(** The loop over the terms of an item matches all of its ids in order. *)
Lemma term_loop_spec fuel f item pre i ids rest st :
  advances f -> Forall (fits 32) ids -> ti_terms item = pre ++ pack_from false i ids ++ rest ->
  length ids = ((ti_terms_len item - ms_term_pos st) * 2)%nat ->
  (ti_terms_len item - ms_term_pos st <= fuel)%nat ->
  match match_chunk f (chunk_pairs ids) st with
  | Ok (st', stop) => exists bp, term_loop fuel f item (length pre) st = Ok (st', bp) /\
      (stop = false -> bp = length (pre ++ pack_from false i ids))
  | Err => term_loop fuel f item (length pre) st = Err
  | Panic => term_loop fuel f item (length pre) st = Panic
  end.
Proof.
  intros Hadv. revert pre i ids st. induction fuel as [|fuel IH]; intros pre i ids st Hf Hi Hl Hfuel; cbn [term_loop].
  { assert (ids = []) as -> by (destruct ids; [done|cbn in Hl; lia]).
    rewrite (proj2 (Nat.ltb_ge _ _)) by lia. cbn. eexists. split; [done|]. intros _. by rewrite app_nil_r. }
  destruct (Nat.ltb_spec (ms_term_pos st) (ti_terms_len item)) as [Hlt|Hge].
  2: { assert (ids = []) as -> by (destruct ids; [done|cbn in Hl; lia]).
       cbn. eexists. split; [done|]. intros _. by rewrite app_nil_r. }
  unfold get_from. rewrite (proj2 (Nat.leb_le _ _)) by (rewrite Hi, length_app; lia).
  cbn [ok_or mbind res_bind]. rewrite Hi, drop_app_length.
  replace (ti_terms_len item * 2 - ms_term_pos st * 2)%nat with (length ids) by lia.
  destruct (ids_chunk i ids rest) as (k & hd & tl & E & Hids & He & Hpos & He' & Hpairs & Hf' & Hk & i' & Hd).
  { intros ->. cbn in Hl. lia. } { done. } { rewrite Hl. eexists. by rewrite Nat.mul_comm. }
  rewrite E, Hpairs, match_chunk_app. cbn [mbind res_bind].
  destruct (match_chunk f (chunk_pairs hd) st) as [[st1 [|]]| |] eqn:E1; cbn [mbind res_bind]; try done.
  { eexists. split; [done|]. done. }
  pose proof (match_chunk_pos _ _ _ _ Hadv E1) as Hp. pose proof (chunk_pairs_length hd He) as Hc.
  rewrite Hids, length_app in Hl.
  specialize (IH (pre ++ take k (pack_from false i ids ++ rest)) i' tl st1 Hf').
  assert (length (pre ++ take k (pack_from false i ids ++ rest)) = (length pre + k)%nat) as Hlen
    by (rewrite length_app, length_take; lia).
  rewrite Hlen in IH. assert (length (pre ++ take k (pack_from false i ids ++ rest)) + length (pack_from false i' tl)
    = length (pre ++ pack_from false i ids))%nat as Hbp.
  { assert (length (pack_from false i ids ++ rest) = (k + length (pack_from false i' tl ++ rest))%nat) as E2
      by (rewrite <- Hd, length_drop; lia).
    rewrite !length_app in *. rewrite length_take, length_app. lia. }
  specialize (IH ltac:(by rewrite Hi, <- app_assoc, <- Hd, take_drop) ltac:(lia) ltac:(lia)).
  destruct (match_chunk f (chunk_pairs tl) st1) as [[st2 stop]| |]; [|done..].
  destruct IH as (bp & -> & Hstop). exists bp. split; [done|]. intros ->. rewrite Hstop by done.
  rewrite <- Hbp. rewrite !length_app. lia.
Qed.
End Readers.

(** ** Offsets and lengths of the matched terms *)

Section Offsets.
Context `{BitPackerLaws}.
(** the terms of the item, and which of them match *)
Variables (full : list Term) (P : Term -> bool) (item : TermIndexItem) (body : list Z).
Hypothesis full_len : ti_terms_len item = length full.
Hypothesis full_small : Z.of_nat (length full) < 2 ^ 32.
Hypothesis item_terms : ti_terms item = body ++ (term_len <$> full).

(** The matched terms as the id loop leaves them: position for offset, no length. *)
Fixpoint marks (pos : nat) (l : list Term) : list Term :=
  match l with
  | [] => []
  | t :: l =>
      if P t then mkTerm (term_id t) (term_id_stemmed t) (u32 (Z.of_nat pos)) 0 :: marks (S pos) l
      else marks (S pos) l
  end.

Lemma marks_app pos l k : marks pos (l ++ k) = marks pos l ++ marks (pos + length l) k.
Proof.
  revert pos. induction l as [|t l IH]; intros pos; cbn [app marks length]; [by rewrite Nat.add_0_r|].
  rewrite IH, Nat.add_succ_r. by destruct (P t).
Qed.

Lemma length_at_spec pos t : full !! pos = Some t -> length_at item pos = Ok (term_len t).
Proof.
  intros Ht. assert (pos < length full)%nat as Hlt by by eapply lookup_lt_Some.
  unfold length_at. rewrite item_terms, full_len, length_app, length_fmap.
  rewrite (proj2 (Nat.ltb_ge _ _)) by lia.
  replace (length body + length full + pos - length full)%nat with (length body + pos)%nat by lia.
  rewrite lookup_app_r by lia. replace (length body + pos - length body)%nat with pos by lia.
  by rewrite list_lookup_fmap, Ht.
Qed.

Lemma u32_pos pos : (pos <= length full)%nat -> u32 (Z.of_nat pos) = Z.of_nat pos.
Proof. intros. apply wrap_small. unfold fits. lia. Qed.

Lemma marks_later pos l t : (pos + length l <= length full)%nat -> t ∈ marks pos l -> Z.of_nat pos <= term_offset t.
Proof.
  revert pos. induction l as [|x l IH]; intros pos Hp; cbn [marks]; [by intros ?%not_elem_of_nil|].
  cbn [length] in Hp. destruct (P x).
  - intros [->|Hin]%elem_of_cons; [cbn; by rewrite u32_pos by lia|]. apply IH in Hin; lia.
  - intros Hin. apply IH in Hin; lia.
Qed.

Lemma marks_nil pos l : marks pos l = [] -> filter (fun t => P t = true) l = [].
Proof.
  revert pos. induction l as [|x l IH]; intros pos; cbn [marks]; [done|]. rewrite filter_cons.
  destruct (P x); [done|]. intros Hm. rewrite decide_False by done. by eapply IH.
Qed.

(** A chunk of offsets completes the matched terms at its positions. *)
Lemma offset_chunk_spec pre hd tl done t rest :
  full = pre ++ hd ++ tl -> marks (length pre) (hd ++ tl) = t :: rest ->
  offset_chunk item (term_offset <$> hd) (length pre) (mkOffsets done t rest) =
  match marks (length pre + length hd) tl with
  | [] => Ok (inr (done ++ filter (fun t => P t = true) hd))
  | t' :: rest' => Ok (inl ((length pre + length hd)%nat, mkOffsets (done ++ filter (fun t => P t = true) hd) t' rest'))
  end.
Proof.
  revert pre done t rest. induction hd as [|x hd IH]; intros pre done t rest Hfull Hm.
  - cbn [app] in Hm. rewrite Nat.add_0_r, Hm. cbn. by rewrite app_nil_r.
  - cbn [fmap list_fmap offset_chunk os_term os_rest os_done length].
    assert (length full = length pre + S (length hd) + length tl)%nat as Hlen
      by (rewrite Hfull, length_app; cbn; rewrite length_app; lia).
    assert (length (pre ++ [x]) = S (length pre)) as Hpre by (rewrite length_app; cbn; lia).
    specialize (IH (pre ++ [x])). rewrite Hpre in IH.
    assert (full = (pre ++ [x]) ++ hd ++ tl) as Hfull' by (by rewrite <- app_assoc).
    rewrite filter_cons. cbn [app marks] in Hm.
    rewrite u32_pos by lia. rewrite Nat.add_succ_r. rewrite u32_pos in Hm by lia.
    destruct (P x) eqn:Ex.
    + injection Hm as <- Hm. cbn [term_offset term_id term_id_stemmed]. rewrite Z.eqb_refl, Nat2Z.id.
      rewrite (length_at_spec _ x) by (rewrite Hfull; cbn [app]; by rewrite list_lookup_middle).
      cbn [mbind res_bind]. rewrite decide_True by done.
      destruct x as [i i' o n]. cbn [term_id term_id_stemmed term_offset term_len] in *.
      destruct rest as [|t' rest'].
      * rewrite marks_app in Hm. apply app_nil in Hm as [Hm1 Hm2].
        replace (S (length pre) + length hd)%nat with (S (length pre + length hd))%nat in Hm2 by lia. rewrite Hm2.
        by rewrite (marks_nil _ _ Hm1).
      * rewrite IH by done. rewrite <- app_assoc. done.
    + rewrite (proj2 (Z.eqb_neq _ _)).
      2: { assert (t ∈ marks (S (length pre)) (hd ++ tl)) as Hin by (rewrite Hm; by apply elem_of_cons; left).
           apply marks_later in Hin; [lia|]. rewrite length_app. lia. }
      rewrite IH by done. rewrite decide_False by congruence. done.
Qed.

Lemma offset_loop_spec fuel pre tl bpre i done t rest :
  full = pre ++ tl -> Forall (fun t => fits 32 (term_offset t)) tl ->
  StronglySorted Z.le (i :: (term_offset <$> tl)) ->
  body = bpre ++ pack_from true i (term_offset <$> tl) ->
  marks (length pre) tl = t :: rest -> (length tl <= fuel)%nat ->
  offset_loop fuel item (length bpre) i (length pre) (mkOffsets done t rest) =
  Ok (done ++ filter (fun t => P t = true) tl).
Proof.
  revert pre tl bpre i done t rest. induction fuel as [|fuel IH];
    intros pre tl bpre i done t rest Hfull Hfits Hsorted Hbody Hm Hfuel.
  { destruct tl; [done|cbn in Hfuel; lia]. }
  assert (tl <> []) as Hne by by intros ->. cbn [offset_loop].
  assert (length full = length pre + length tl)%nat as Hlen by (by rewrite Hfull, length_app).
  assert (0 < length tl)%nat by (destruct tl; [done|cbn; lia]).
  rewrite full_len, (proj2 (Nat.ltb_lt _ _)) by lia.
  unfold get_from. rewrite (proj2 (Nat.leb_le _ _)) by (rewrite item_terms, length_app, Hbody, length_app; lia).
  cbn [ok_or mbind res_bind]. rewrite item_terms, Hbody, <- app_assoc, drop_app_length.
  replace (length full - length pre)%nat with (length (term_offset <$> tl)) by (rewrite length_fmap; lia).
  destruct (uncompress_pack true i (term_offset <$> tl) (term_len <$> full))
    as (k & hd & rs & i' & E & Hl & Hh & _ & Hk & Hd & Hs').
  { intros ?%fmap_nil_inv. done. } { by apply Forall_fmap. } { done. }
  rewrite E. cbn [mbind res_bind]. destruct (Hs' eq_refl) as [Hlast Hsort']. rewrite Hlast.
  cbn [unwrap mbind res_bind]. apply fmap_app_inv in Hl as (h & r & -> & -> & ->).
  rewrite (offset_chunk_spec pre h r) by done. rewrite filter_app, app_assoc.
  destruct (marks (length pre + length h) r) as [|t' rest'] eqn:Em; cbn [mbind res_bind].
  { by rewrite (marks_nil _ _ Em), app_nil_r. }
  apply Forall_app in Hfits as [_ Hfits]. rewrite fmap_app in *.
  set (packed := pack_from true i ((term_offset <$> h) ++ (term_offset <$> r))) in *.
  assert (length packed = (k + length (pack_from true i' (term_offset <$> r)))%nat) as Hpk.
  { assert (length (packed ++ (term_len <$> full)) =
      (k + length (pack_from true i' (term_offset <$> r) ++ (term_len <$> full)))%nat) as E2
      by (rewrite <- Hd, length_drop; lia). rewrite !length_app in E2. lia. }
  pose proof (IH (pre ++ h) r (bpre ++ take k packed) i' (done ++ filter (fun t => P t = true) h) t' rest') as IH'.
  rewrite !length_app, length_take in IH'. replace (k `min` length packed)%nat with k in IH' by lia.
  apply IH'; [by rewrite <- app_assoc|done|done| |done|].
  - rewrite Hbody, <- app_assoc. f_equal. rewrite drop_app_le in Hd by lia.
    apply app_inv_tail in Hd. by rewrite <- Hd, take_drop.
  - rewrite length_app in Hfuel. destruct h; [done|cbn in Hfuel; lia].
Qed.
End Offsets.

(** ** Items of a builder and what is read back *)

Definition term_fits (t : Term) : Prop :=
  fits 32 (term_id t) /\ fits 32 (term_id_stemmed t) /\ fits 32 (term_offset t) /\ is_byte (term_len t).

Definition word_hit (match_terms : list MatchTerm) (t : Term) : bool :=
  existsb (fun m => word_matches m (term_ids t)) match_terms.

Lemma match_loop_hit mts ids p :
  match match_loop mts ids p with Some _ => true | None => false end = existsb (fun m => word_matches m ids) mts.
Proof. revert p. induction mts as [|m mts IH]; intros p; cbn; [done|]. by destruct (word_matches m ids). Qed.

Lemma any_term_advances mts many : advances (any_term mts many).
Proof.
  intros ids st st'. unfold any_term. destruct (match_loop mts ids 0); destruct (negb many && _); try done;
    by intros [= <-].
Qed.

Lemma phrase_term_advances mts many : advances (phrase_term mts many).
Proof.
  intros ids st st'. unfold phrase_term. destruct (mts !! _); [|done]. destruct (mt_id m =? ids.1).
  - destruct (length _ =? length mts)%nat; [destruct (negb many); [done|]|]; by intros [= <-].
  - by intros [= <-].
Qed.

(** Matching any of the words in a run of terms collects the terms hit. *)
Lemma any_chunk mts l st :
  exists mask, match_chunk (any_term mts true) (term_ids <$> l) st =
    Ok (mkMatching (ms_term_pos st + length l) (ms_terms st)
          (ms_partial_match st ++ marks (word_hit mts) (ms_term_pos st) l) mask, false).
Proof.
  revert st. induction l as [|t l IH]; intros st; cbn [fmap list_fmap match_chunk marks length].
  { exists (ms_matched_mask st). rewrite Nat.add_0_r, app_nil_r. by destruct st. }
  assert (forall ids st, any_term mts true ids st = Ok (next_term
    match match_loop mts ids 0 with
    | Some match_pos =>
        mkMatching (ms_term_pos st) (ms_terms st) (ms_partial_match st ++ [found st ids])
          (Z.land (ms_matched_mask st) (U64_MAX - u64 (1 ≪ Z.of_nat match_pos)))
    | None => st
    end, false)) as Hany by done.
  rewrite Hany. clear Hany. unfold word_hit at 1. rewrite <- (match_loop_hit mts (term_ids t) 0).
  destruct (match_loop mts (term_ids t) 0) as [k|]; cbn [mbind res_bind].
  - destruct (IH (next_term (mkMatching (ms_term_pos st) (ms_terms st) (ms_partial_match st ++ [found st (term_ids t)])
      (Z.land (ms_matched_mask st) (U64_MAX - u64 (1 ≪ Z.of_nat k)))))) as [mask E].
    exists mask. etrans; [exact E|]. cbn [next_term ms_term_pos ms_terms ms_partial_match ms_matched_mask].
    rewrite <- app_assoc. by rewrite Nat.add_succ_r.
  - destruct (IH (next_term st)) as [mask E]. exists mask. etrans; [exact E|].
    cbn [next_term ms_term_pos ms_terms ms_partial_match ms_matched_mask]. by rewrite Nat.add_succ_r.
Qed.

Section Items.
Context `{BitPackerLaws}.

Record builder_item_wf (bi : TermIndexBuilderItem) : Prop := {
  bw_terms : Forall term_fits (bi_terms bi);
  bw_sorted : StronglySorted Z.le (term_offset <$> bi_terms bi);
  bw_small : Z.of_nat (length (bi_terms bi)) < 2 ^ 32;
  bw_bytes : Z.of_nat (length (terms_bytes (bi_terms bi))) < 2 ^ 32;
  bw_field : is_byte (bi_field bi);
  bw_part : fits 32 (bi_part_id bi)
}.

Definition stored_item (bi : TermIndexBuilderItem) : TermIndexItem :=
  mkItem (bi_field bi) (bi_part_id bi) (length (bi_terms bi)) (terms_bytes (bi_terms bi)).

Lemma ids_of_fits terms : Forall term_fits terms -> Forall (fits 32) (ids_of terms).
Proof. induction 1 as [|t terms (? & ? & _) _ IH]; [constructor|]. constructor; [done|]. constructor; [done|exact IH]. Qed.

Lemma pack_pack_from s l : pack s l = pack_from s 0 l.
Proof. done. Qed.

Lemma stored_terms bi :
  ti_terms (stored_item bi) =
  (pack_from false 0 (ids_of (bi_terms bi)) ++ pack_from true 0 (term_offset <$> bi_terms bi)) ++
  (term_len <$> bi_terms bi).
Proof. unfold stored_item, terms_bytes. cbn [ti_terms]. by rewrite <- app_assoc, !pack_pack_from. Qed.

(** The terms of a stored item that match any of the words, with offsets. *)
Lemma any_item mts bi mask :
  builder_item_wf bi ->
  exists st bp, term_loop (length (bi_terms bi)) (any_term mts true) (stored_item bi) 0 (mkMatching 0 [] [] mask) = Ok (st, bp) /\
    ms_terms st = [] /\ ms_partial_match st = marks (word_hit mts) 0 (bi_terms bi) /\
    (forall t ts, ms_partial_match st = t :: ts ->
      with_offsets (stored_item bi) (ms_term_pos st) bp (t :: ts) =
      Ok (filter (fun t => word_hit mts t = true) (bi_terms bi))).
Proof.
  intros Hwf. set (terms := bi_terms bi) in *.
  pose proof (term_loop_spec (length terms) (any_term mts true) (stored_item bi) [] 0 (ids_of terms)
    (pack_from true 0 (term_offset <$> terms) ++ (term_len <$> terms)) (mkMatching 0 [] [] mask)
    (any_term_advances mts true) (ids_of_fits _ (bw_terms _ Hwf))) as Hloop.
  cbn [ms_term_pos ti_terms_len stored_item length app] in Hloop.
  specialize (Hloop ltac:(rewrite app_assoc; apply (stored_terms bi))
    ltac:(rewrite ids_of_length; fold terms; lia) ltac:(fold terms; lia)).
  rewrite ids_of_pairs in Hloop. destruct (any_chunk mts terms (mkMatching 0 [] [] mask)) as [mask' E].
  rewrite E in Hloop. destruct Hloop as (bp & Hst & Hbp). specialize (Hbp eq_refl).
  eexists _, bp. split; [exact Hst|]. cbn [ms_terms ms_partial_match ms_term_pos app]. split_and!; [done..|].
  intros t ts Hm. unfold with_offsets. cbn [ti_terms_len stored_item]. fold terms. cbn [Nat.add].
  rewrite Nat.ltb_irrefl. cbn [mbind res_bind]. rewrite Nat.add_0_r, Hbp.
  apply (offset_loop_spec terms (word_hit mts) (stored_item bi)
    (pack_from false 0 (ids_of terms) ++ pack_from true 0 (term_offset <$> terms)))
    with (pre := []) (tl := terms); try done.
  - apply Hwf.
  - apply stored_terms.
  - eapply Forall_impl; [apply Hwf|]. intros ? (_ & _ & ? & _). done.
  - constructor; [apply Hwf|]. apply Forall_fmap. eapply Forall_impl; [apply Hwf|]. intros ? (_ & _ & [? _] & _). done.
Qed.

(** The parts with a matching term, and those terms. *)
Definition hits (mts : list MatchTerm) (bi : TermIndexBuilderItem) : option TermGroup :=
  match filter (fun t => word_hit mts t = true) (bi_terms bi) with
  | [] => None
  | terms => Some (mkTermGroup (bi_field bi) (bi_part_id bi) terms)
  end.

Lemma marks_filter P pos l : marks P pos l = [] <-> filter (fun t => P t = true) l = [].
Proof.
  revert pos. induction l as [|x l IH]; intros pos; cbn [marks]; [done|]. rewrite filter_cons.
  destruct (P x); [by rewrite decide_True|]. rewrite decide_False by done. apply IH.
Qed.

Lemma item_loop_any mts items mask result :
  Forall builder_item_wf items ->
  item_loop mts None false true true (stored_item <$> items) mask result = Ok (result ++ omap (hits mts) items).
Proof.
  intros Hwf. revert mask result. induction Hwf as [|bi items Hbi _ IH]; intros mask result; cbn [fmap list_fmap item_loop omap list_omap].
  { by rewrite app_nil_r. }
  destruct (any_item mts bi mask Hbi) as (st & bp & E & Ht & Hp & Hoff).
  change (ti_terms_len (stored_item bi)) with (length (bi_terms bi)). change (match_term mts false true) with (any_term mts true).
  rewrite E. cbn [mbind res_bind negb]. rewrite Ht. cbn [app]. unfold hits at 1.
  destruct (ms_partial_match st) as [|t ts] eqn:Em.
  - rewrite bool_decide_eq_true_2, IH by done. symmetry in Hp. apply marks_filter in Hp. by rewrite Hp.
  - rewrite bool_decide_eq_false_2 by done. rewrite (Hoff t ts) by done. cbn [mbind res_bind]. rewrite IH.
    destruct (filter _ (bi_terms bi)) as [|x l] eqn:Ef.
    + exfalso. apply marks_filter with (pos := 0%nat) in Ef. congruence.
    + by rewrite <- app_assoc.
Qed.

Lemma item_bytes_split bi :
  item_bytes bi = le_bytes 4 (u32 (Z.of_nat (length (terms_bytes (bi_terms bi))))) ++ bi_field bi ::
    leb128 (bi_part_id bi) ++ leb128 (Z.of_nat (length (bi_terms bi))) ++ terms_bytes (bi_terms bi).
Proof. unfold item_bytes, push_leb128, to_leb128_bytes. cbn [app]. by rewrite <- !app_assoc. Qed.

Lemma read_header_item bi rest :
  builder_item_wf bi ->
  read_header (item_bytes bi ++ rest) =
  Some (length (terms_bytes (bi_terms bi)), bi_field bi,
    leb128 (bi_part_id bi) ++ leb128 (Z.of_nat (length (bi_terms bi))) ++ terms_bytes (bi_terms bi) ++ rest).
Proof.
  intros Hwf. rewrite item_bytes_split, <- app_assoc. unfold read_header.
  set (len := u32 _). pose proof (get_range_app [] (le_bytes 4 len) ((bi_field bi :: leb128 (bi_part_id bi) ++
    leb128 (Z.of_nat (length (bi_terms bi))) ++ terms_bytes (bi_terms bi)) ++ rest)) as Hg.
  cbn [length app Nat.add] in Hg. rewrite le_bytes_length in Hg. unfold LENGTH_SIZE. cbn [app]. rewrite Hg.
  cbn [mbind option_bind]. rewrite <- (le_bytes_length 4 len) at 1. rewrite drop_app_length. cbn [it_next slice_iter mbind option_bind].
  rewrite from_le_bytes_le by (apply wrap_fits; lia). unfold len. rewrite wrap_small by (pose proof (bw_bytes _ Hwf); unfold fits; lia).
  rewrite Nat2Z.id. by rewrite <- !app_assoc.
Qed.

Lemma read_skip_app t v rest : decodable t v -> read_skip t (leb128 v ++ rest) = Some (v, rest).
Proof. intros Hd. unfold read_skip. rewrite read_leb128_app by done. cbn [mbind option_bind]. by rewrite drop_app_length. Qed.

Lemma terms_len_decodable bi : builder_item_wf bi -> decodable Usize (Z.of_nat (length (bi_terms bi))).
Proof. intros Hwf. apply usize_decodable. pose proof (bw_small _ Hwf). unfold fits. lia. Qed.

Lemma item_bytes_nonempty bi rest : exists b bs, item_bytes bi ++ rest = b :: bs.
Proof. rewrite item_bytes_split. by eexists _, _. Qed.

Lemma read_items_app items fuel :
  Forall builder_item_wf items -> (length items <= fuel)%nat ->
  read_items fuel (items ≫= item_bytes) = Some (stored_item <$> items).
Proof.
  intros Hwf. revert fuel. induction Hwf as [|bi items Hbi _ IH]; intros fuel Hf; [by destruct fuel|].
  cbn [length] in Hf. destruct fuel as [|fuel]; [lia|]. cbn [mbind list_bind].
  destruct (item_bytes_nonempty bi (items ≫= item_bytes)) as (b & bs & E).
  cbn [mbind] in E. rewrite E. cbn [read_items]. rewrite <- E, read_header_item by done.
  cbn [mbind option_bind]. rewrite read_skip_app by (apply decodable_fits; apply Hbi). cbn [mbind option_bind].
  rewrite read_skip_app by by apply terms_len_decodable. cbn [mbind option_bind].
  pose proof (get_range_app [] (terms_bytes (bi_terms bi)) (items ≫= item_bytes)) as Hg. cbn [length app Nat.add mbind] in Hg.
  rewrite Hg. cbn [mbind option_bind]. rewrite drop_app_length, IH by lia. cbn [mbind option_bind].
  by rewrite Nat2Z.id.
Qed.

Lemma token_items_app items fuel :
  Forall builder_item_wf items -> (length items <= fuel)%nat ->
  token_items fuel (items ≫= item_bytes) =
  Some ((fun bi => fold_left insert_term (term_ids <$> bi_terms bi) (mkTerms (bi_field bi) ∅ ∅)) <$> items).
Proof.
  intros Hwf. revert fuel. induction Hwf as [|bi items Hbi _ IH]; intros fuel Hf; [by destruct fuel|].
  cbn [length] in Hf. destruct fuel as [|fuel]; [lia|]. cbn [mbind list_bind].
  destruct (item_bytes_nonempty bi (items ≫= item_bytes)) as (b & bs & E).
  cbn [mbind] in E. rewrite E. cbn [token_items]. rewrite <- E, read_header_item by done.
  cbn [mbind option_bind]. rewrite skip_leb128_pos_app.
  2: { eapply fits_mono; [|apply Hbi]. lia. }
  cbn [mbind option_bind Nat.add]. rewrite drop_app_length, read_skip_app by by apply terms_len_decodable.
  cbn [mbind option_bind]. rewrite Nat2Z.id.
  set (rest := items ≫= item_bytes) in *.
  assert (terms_bytes (bi_terms bi) ++ rest = pack_from false 0 (ids_of (bi_terms bi)) ++
    (pack_from true 0 (term_offset <$> bi_terms bi) ++ (term_len <$> bi_terms bi)) ++ rest) as E'.
  { pose proof (stored_terms bi) as Hs. cbn [stored_item ti_terms] in Hs. rewrite Hs. by rewrite <- !app_assoc. }
  rewrite E'. rewrite token_loop_spec; [|by apply ids_of_fits, Hbi|rewrite ids_of_length; lia|lia|lia].
  rewrite <- E'. cbn [mbind option_bind]. rewrite drop_app_length, IH by lia. cbn [mbind option_bind].
  by rewrite ids_of_pairs.
Qed.
End Items.

(** ** Words *)

Definition word_ok (w : list Z) : Prop := utf8_valid w = true /\ 0 ∉ w.

Lemma bind_length {A B} (f : A -> list B) l :
  (forall x, (1 <= length (f x))%nat) -> (length l <= length (l ≫= f))%nat.
Proof.
  intros Hf. induction l as [|x l IH]; [done|]. cbn [length mbind list_bind]. rewrite length_app.
  specialize (Hf x). cbn [mbind] in IH. lia.
Qed.

Lemma split_nul_app w rest : 0 ∉ w -> split_nul (w ++ 0 :: rest) = Some (w, rest).
Proof.
  induction w as [|b w IH]; intros Hn; cbn; [done|]. rewrite not_elem_of_cons in Hn. destruct Hn as [Hb Hn].
  rewrite (proj2 (Z.eqb_neq _ _)) by done. by rewrite IH.
Qed.

Lemma read_words_app words fuel rest :
  Forall word_ok words -> (length words <= fuel)%nat ->
  read_words fuel (Z.of_nat (length words)) ((words ≫= (fun w => w ++ [0])) ++ rest) = Some (words, rest).
Proof.
  intros Hw. revert fuel. induction Hw as [|w words [Hu Hn] _ IH]; intros fuel Hf; [by destruct fuel|].
  cbn [length] in *. destruct fuel as [|fuel]; [lia|]. cbn [read_words mbind list_bind].
  rewrite (proj2 (Z.leb_gt _ _)) by lia. rewrite <- !app_assoc. cbn [app]. rewrite split_nul_app by done.
  cbn [mbind option_bind]. rewrite Hu. replace (Z.of_nat (S (length words)) - 1) with (Z.of_nat (length words)) by lia.
  cbn [mbind] in IH. rewrite IH by lia. done.
Qed.

Lemma place_words_spec l v :
  NoDup (l.*2) -> Forall (fun p => 0 <= p.2 < Z.of_nat (length v)) l ->
  exists v', place_words l v = Ok v' /\ length v' = length v /\
    (forall w i, (w, i) ∈ l -> v' !! Z.to_nat i = Some w) /\
    (forall j, ~ Z.of_nat j ∈ l.*2 -> v' !! j = v !! j).
Proof.
  revert v. induction l as [|[w i] l IH]; intros v Hnd Hl; cbn [place_words].
  { exists v. split_and!; try done. by intros w i ?%not_elem_of_nil. }
  cbn in Hnd. apply NoDup_cons in Hnd as [Hi Hnd]. apply Forall_cons in Hl as [Hr Hl]. cbn [snd] in Hr.
  rewrite (proj2 (Nat.ltb_lt _ _)) by lia.
  destruct (IH (<[Z.to_nat i := w]> v)) as (v' & E & Hlen & Hin & Hout); [done| |].
  { rewrite length_insert. done. }
  rewrite length_insert in Hlen. exists v'. split_and!; [done..| |].
  - intros w' i' [[= -> ->]|Hw]%elem_of_cons; [|by apply Hin].
    rewrite Hout by (rewrite Z2Nat.id by lia; done). apply list_lookup_insert_eq. lia.
  - intros j Hj. cbn in Hj. rewrite not_elem_of_cons in Hj. destruct Hj as [Hj1 Hj2].
    rewrite Hout by done. apply list_lookup_insert_ne. lia.
Qed.

(** Numbering the words back into a map. *)
Definition number_words (words : list (list Z)) : gmap (list Z) Z :=
  fold_left (fun m '(i, word) => <[word := Z.of_nat i]> m) (imap pair words) ∅.

Lemma number_words_lookup words w i :
  NoDup words -> number_words words !! w = Some i <-> exists n, i = Z.of_nat n /\ words !! n = Some w.
Proof.
  intros Hnd. unfold number_words.
  assert (forall k l (m : gmap (list Z) Z), NoDup l -> (forall x, x ∈ l -> m !! x = None) ->
    fold_left (fun m '(i, word) => <[word := Z.of_nat i]> m) (imap (fun j x => ((k + j)%nat, x)) l) m !! w = Some i <->
    m !! w = Some i \/ exists n, i = Z.of_nat (k + n) /\ l !! n = Some w) as Hgen.
  { intros k l. revert k. induction l as [|x l IH]; intros k m Hl Hm; cbn [imap fold_left].
    - split; [by left|]. intros [?|(n & _ & Hn)]; [done|]. by rewrite lookup_nil in Hn.
    - apply NoDup_cons in Hl as [Hx Hl]. rewrite Nat.add_0_r.
      rewrite (imap_ext _ (fun j x => ((S k + j)%nat, x))) by (intros; cbn; f_equal; lia).
      rewrite IH; [|done|].
      + split.
        * intros [Hw|(n & -> & Hn)]; [|right; exists (S n); split; [f_equal; lia|done]].
          destruct (decide (x = w)) as [->|Hne].
          -- rewrite lookup_insert_eq in Hw. injection Hw as <-. right. exists 0%nat. split; [f_equal; lia|done].
          -- rewrite lookup_insert_ne in Hw by done. by left.
        * intros [Hw|([|n] & -> & Hn)].
          -- left. rewrite lookup_insert_ne; [done|]. intros ->. rewrite Hm in Hw; [done|]. by apply elem_of_cons; left.
          -- injection Hn as ->. left. rewrite lookup_insert_eq. f_equal. lia.
          -- right. exists n. split; [f_equal; lia|done].
      + intros y Hy. rewrite lookup_insert_ne by (intros ->; done). apply Hm, elem_of_cons. by right. }
  specialize (Hgen 0%nat words ∅ Hnd ltac:(intros; apply lookup_empty)). cbn [Nat.add] in Hgen.
  rewrite (imap_ext _ (fun j x => (j, x))) by done. rewrite Hgen. rewrite lookup_empty. naive_solver.
Qed.

(** ** Phrases *)

Section Phrase.
Variable mts : list MatchTerm.
Hypothesis mts_ne : mts <> [].
Abbreviation phrase := (mt_id <$> mts).
Abbreviation step := (phrase_term mts false).

Lemma mts_lookup n : (n < length mts)%nat -> exists m, mts !! n = Some m.
Proof. intros Hn. apply lookup_lt_is_Some_2 in Hn as [m Hm]. by exists m. Qed.

(** The partial match is a prefix of the phrase that ends the terms read. *)
Definition phrase_inv (seen : list Z) (st : matching) : Prop :=
  ms_terms st = [] /\ (length (ms_partial_match st) < length mts)%nat /\
  exists d, seen = d ++ take (length (ms_partial_match st)) phrase.

Lemma phrase_step seen st ids :
  phrase_inv seen st ->
  (exists st', step ids st = Ok (st', false) /\ phrase_inv (seen ++ [ids.1]) st') \/
  (exists st' d, step ids st = Ok (st', true) /\ ms_terms st' <> [] /\ seen ++ [ids.1] = d ++ phrase).
Proof.
  intros (Ht & Hlt & d & ->). unfold phrase_term. destruct (mts_lookup _ Hlt) as (m & Hm). rewrite Hm.
  assert (phrase !! length (ms_partial_match st) = Some (mt_id m)) as Hp by by rewrite list_lookup_fmap, Hm.
  destruct (Z.eqb_spec (mt_id m) ids.1) as [E|E].
  - rewrite length_app. cbn [length]. rewrite Nat.add_1_r. rewrite E in Hp.
    pose proof (take_S_r _ _ _ Hp) as Htake.
    destruct (Nat.eqb_spec (S (length (ms_partial_match st))) (length mts)) as [El|El].
    + right. eexists _, d. split; [done|]. cbn [ms_terms negb]. rewrite Ht. split; [by intros [_ [_ ?]%app_nil]%app_nil|].
      rewrite <- app_assoc, <- Htake, El. by rewrite take_ge by by rewrite length_fmap.
    + left. eexists. split; [done|]. split; [done|]. cbn [next_term ms_partial_match].
      rewrite length_app. cbn [length]. rewrite Nat.add_1_r. split; [lia|].
      exists d. by rewrite <- app_assoc, <- Htake.
  - left. eexists. split; [done|]. split; [done|]. cbn [next_term ms_partial_match].
    assert ((if (0 <? length (ms_partial_match st))%nat then [] else ms_partial_match st) = []) as ->
      by (by destruct (ms_partial_match st)).
    split; [destruct mts; [done|cbn; lia]|]. eexists. by rewrite app_nil_r.
Qed.

(** A phrase that is found occurs in the terms, and matching never fails. *)
Lemma phrase_sound pairs seen st :
  phrase_inv seen st ->
  exists st' stop, match_chunk step pairs st = Ok (st', stop) /\
    if stop then ms_terms st' <> [] /\ exists d e, seen ++ pairs.*1 = d ++ phrase ++ e
    else ms_terms st' = [].
Proof.
  revert seen st. induction pairs as [|ids pairs IH]; intros seen st Hi; cbn [match_chunk].
  { exists st, false. split; [done|]. apply Hi. }
  destruct (phrase_step seen st ids Hi) as [(st1 & -> & Hi1)|(st1 & d & -> & Hne & Ed)]; cbn [mbind res_bind].
  - destruct (IH _ _ Hi1) as (st' & stop & E & Hs). exists st', stop. split; [done|].
    destruct stop; [|done]. destruct Hs as (? & d & e & Ee). split; [done|]. exists d, e. rewrite <- Ee.
    by rewrite <- app_assoc.
  - exists st1, true. split; [done|]. split; [done|]. exists d, pairs.*1. rewrite app_assoc, <- Ed, <- app_assoc. done.
Qed.

Lemma phrase_skip pairs st k :
  ms_partial_match st = [] -> ms_terms st = [] ->
  (forall m0, mts !! 0%nat = Some m0 -> Forall (fun ids => ids.1 <> mt_id m0) pairs) ->
  exists st', match_chunk step (pairs ++ k) st = match_chunk step k st' /\
    ms_partial_match st' = [] /\ ms_terms st' = [].
Proof.
  revert st. induction pairs as [|ids pairs IH]; intros st Hp Ht Hno; cbn [app match_chunk]; [by exists st|].
  destruct (mts_lookup 0) as (m & Hm); [destruct mts; [done|cbn; lia]|].
  pose proof (Hno m Hm) as Hall. apply Forall_cons in Hall as [Hne _].
  assert (exists st1, step ids st = Ok (st1, false) /\ ms_partial_match st1 = [] /\ ms_terms st1 = [])
    as (st1 & -> & Hp1 & Ht1).
  { unfold phrase_term. rewrite Hp. cbn [length]. rewrite Hm, (proj2 (Z.eqb_neq _ _)) by done. by eexists. }
  cbn [mbind res_bind]. apply IH; [done|done|]. intros m0 Hm0. specialize (Hno m0 Hm0).
  by apply Forall_cons in Hno as [_ ?].
Qed.

Lemma phrase_run pairs k st :
  ms_terms st = [] -> (length (ms_partial_match st) < length mts)%nat ->
  pairs.*1 = drop (length (ms_partial_match st)) phrase ->
  exists st', match_chunk step (pairs ++ k) st = Ok (st', true) /\ ms_terms st' <> [].
Proof.
  revert st. induction pairs as [|ids pairs IH]; intros st Ht Hlt Hp.
  { symmetry in Hp. apply (f_equal length) in Hp. rewrite length_drop, length_fmap in Hp. cbn in Hp. lia. }
  destruct (mts_lookup _ Hlt) as (m & Hm). cbn [fmap list_fmap] in Hp.
  rewrite (drop_S _ (mt_id m)) in Hp by by rewrite list_lookup_fmap, Hm.
  injection Hp as E Hp. cbn [app match_chunk].
  assert (step ids st = let partial := ms_partial_match st ++ [found st ids] in
    if (S (length (ms_partial_match st)) =? length mts)%nat
    then Ok (mkMatching (ms_term_pos st) (ms_terms st ++ partial) [] (ms_matched_mask st), true)
    else Ok (next_term (mkMatching (ms_term_pos st) (ms_terms st) partial (ms_matched_mask st)), false)) as ->.
  { unfold phrase_term. rewrite Hm, E, Z.eqb_refl, length_app. cbn [length]. by rewrite Nat.add_1_r. }
  cbn zeta. destruct (Nat.eqb_spec (S (length (ms_partial_match st))) (length mts)) as [El|El]; cbn [mbind res_bind].
  - eexists. split; [done|]. cbn. rewrite Ht. by intros [_ [_ ?]%app_nil]%app_nil.
  - apply IH; cbn [next_term ms_terms ms_partial_match]; [done| |].
    + rewrite length_app. cbn. lia.
    + rewrite length_app. cbn [length]. by rewrite Nat.add_1_r.
Qed.
End Phrase.

(** ** The whole index *)

Section Index.
Context `{BitPackerLaws}.

(** The ids of a term are numbers of words. *)
Definition term_known (m : gmap (list Z) Z) (t : Term) : Prop :=
  (exists w, m !! w = Some (term_id t)) /\ (exists w, m !! w = Some (term_id_stemmed t)).

(** The words are numbered [0 .. size - 1] and the items are within bounds. *)
Record builder_wf (b : TermIndexBuilder) : Prop := {
  bw_ids w i : tb_terms b !! w = Some i -> 0 <= i < Z.of_nat (size (tb_terms b));
  bw_inj w w' i : tb_terms b !! w = Some i -> tb_terms b !! w' = Some i -> w = w';
  bw_words w i : tb_terms b !! w = Some i -> word_ok w;
  bw_size : Z.of_nat (size (tb_terms b)) < 2 ^ 32;
  bw_items : Forall builder_item_wf (tb_items b);
  bw_known : Forall (fun bi => Forall (term_known (tb_terms b)) (bi_terms bi)) (tb_items b)
}.

Lemma number_lookup (m : gmap (list Z) Z) :
  (forall w i, m !! w = Some i -> 0 <= i < Z.of_nat (size m)) ->
  (forall w w' i, m !! w = Some i -> m !! w' = Some i -> w = w') ->
  NoDup ((map_to_list m).*2) /\ forall n, (n < size m)%nat -> exists w, m !! w = Some (Z.of_nat n).
Proof.
  intros Hr Hinj. assert (NoDup ((map_to_list m).*2)) as Hnd.
  { pose proof (NoDup_map_to_list m) as Hm.
    assert (forall l, l ⊆ map_to_list m -> NoDup l -> NoDup l.*2) as Hgen; [|by apply Hgen].
    induction l as [|[w i] l IH]; intros Hsub Hl; [constructor|]. apply NoDup_cons in Hl as [Hx Hl].
    cbn. apply NoDup_cons. split; [|apply IH; [set_solver|done]].
    intros ([w' i'] & E & Hin)%list_elem_of_fmap. cbn in E. subst i'.
    assert (w = w') as ->; [|done]. eapply (Hinj w w' i); apply elem_of_map_to_list, Hsub; set_solver. }
  split; [done|]. intros n Hn.
  assert (Z.of_nat n ∈ (map_to_list m).*2) as Hin.
  { assert ((map_to_list m).*2 ≡ₚ seqZ 0 (Z.of_nat (size m))) as ->; [|apply elem_of_seqZ; lia].
    apply submseteq_length_Permutation.
    - apply NoDup_submseteq; [done|]. intros i ([w i'] & -> & Hw%elem_of_map_to_list)%list_elem_of_fmap.
      apply elem_of_seqZ. specialize (Hr _ _ Hw). cbn. lia.
    - rewrite length_fmap, length_map_to_list, length_seqZ. lia. }
  apply list_elem_of_fmap in Hin as ([w i] & E & Hw%elem_of_map_to_list). exists w. cbn in E. by rewrite E.
Qed.

(** The vector of words lists each word at its number. *)
Lemma placed_words b :
  builder_wf b ->
  exists words, place_words (map_to_list (tb_terms b)) (replicate (size (tb_terms b)) []) = Ok words /\
    length words = size (tb_terms b) /\
    forall n w, words !! n = Some w <-> tb_terms b !! w = Some (Z.of_nat n).
Proof.
  intros Hwf. destruct (number_lookup (tb_terms b) (bw_ids _ Hwf) (bw_inj _ Hwf)) as [Hnd Hsurj].
  destruct (place_words_spec (map_to_list (tb_terms b)) (replicate (size (tb_terms b)) [])) as (v & E & Hlen & Hin & _).
  { done. }
  { rewrite length_replicate. apply Forall_forall. intros [w i] Hw%elem_of_map_to_list. cbn. by eapply bw_ids. }
  rewrite length_replicate in Hlen. exists v. split; [done|]. split; [done|]. intros n w. split.
  - intros Hv. destruct (Hsurj n) as (w' & Hw'); [rewrite <- Hlen; by eapply lookup_lt_Some|].
    specialize (Hin w' (Z.of_nat n)). rewrite Nat2Z.id, Hv in Hin.
    assert (Some w = Some w') as [= ->] by (apply Hin; by apply elem_of_map_to_list). done.
  - intros Hw. rewrite <- (Nat2Z.id n). apply Hin. by apply elem_of_map_to_list.
Qed.

(** ** Building keeps the invariant *)

(** What a stemmer yields: words in UTF-8 without NUL, at offsets that do not
    decrease, few enough for 32-bit sizes. *)
Record tokens_wf (tokens : list StemmedToken) : Prop := {
  tw_words : Forall (fun t => word_ok (tk_word t) /\ (forall w, tk_stemmed_word t = Some w -> word_ok w)) tokens;
  tw_offsets : Forall (fun t => fits 32 (tk_offset t) /\ is_byte (tk_len t)) tokens;
  tw_sorted : StronglySorted Z.le (tk_offset <$> tokens);
  tw_few : 16 * Z.of_nat (length tokens) < 2 ^ 32
}.

Record numbered (m : gmap (list Z) Z) : Prop := {
  nb_ids w i : m !! w = Some i -> 0 <= i < Z.of_nat (size m);
  nb_inj w w' i : m !! w = Some i -> m !! w' = Some i -> w = w';
  nb_words w i : m !! w = Some i -> word_ok w
}.

Lemma intern_numbered m w :
  numbered m -> word_ok w -> Z.of_nat (size m) + 1 < 2 ^ 32 ->
  numbered (intern m w).2 /\ (intern m w).2 !! w = Some (intern m w).1 /\ m ⊆ (intern m w).2 /\
  (size (intern m w).2 <= size m + 1)%nat.
Proof.
  intros Hn Hw Hs. unfold intern. destruct (m !! w) as [i|] eqn:Em; cbn [fst snd].
  { split_and!; [done..|lia]. }
  assert (u32 (Z.of_nat (size m)) = Z.of_nat (size m)) as -> by (apply wrap_small; unfold fits; lia).
  pose proof (map_size_insert_None w (Z.of_nat (size m)) m Em) as Hsz.
  split_and!; [|apply lookup_insert_eq|by apply insert_subseteq|lia]. split.
  - intros w' i. rewrite Hsz, lookup_insert_Some. intros [[_ <-]|[_ Hi%(nb_ids _ Hn)]]; lia.
  - intros w1 w2 i. rewrite !lookup_insert_Some.
    intros [[<- <-]|[_ Hi]] [[<- Hj]|[_ Hj]]; [done|apply (nb_ids _ Hn) in Hj; lia|apply (nb_ids _ Hn) in Hi; lia|].
    by apply (nb_inj _ Hn w1 w2 i).
  - intros w' i. rewrite lookup_insert_Some. intros [[<- _]|[_ Hi]]; [done|by eapply nb_words].
Qed.

Lemma add_tokens_items tokens b : tb_items (add_tokens b tokens).2 = tb_items b.
Proof.
  revert b. induction tokens as [|t tokens IH]; intros b; [done|]. cbn [add_tokens].
  destruct (add_stemmed_token b t) as [term b1] eqn:E1. specialize (IH b1).
  destruct (add_tokens b1 tokens) as [terms b2]. cbn [snd] in *. rewrite IH. unfold add_stemmed_token in E1.
  destruct (intern (tb_terms b) (tk_word t)), (match tk_stemmed_word t with Some s => intern _ s | None => _ end).
  by injection E1 as <- <-.
Qed.

Lemma term_known_mono m m' t : m ⊆ m' -> term_known m t -> term_known m' t.
Proof. intros Hm [[w Hw] [w' Hw']]. split; [exists w|exists w']; by eapply lookup_weaken. Qed.

Lemma add_stemmed_token_spec b t :
  numbered (tb_terms b) -> word_ok (tk_word t) -> (forall w, tk_stemmed_word t = Some w -> word_ok w) ->
  Z.of_nat (size (tb_terms b)) + 2 < 2 ^ 32 ->
  let '(term, b') := add_stemmed_token b t in
  numbered (tb_terms b') /\ tb_terms b ⊆ tb_terms b' /\ (size (tb_terms b') <= size (tb_terms b) + 2)%nat /\
  term_known (tb_terms b') term /\ term_offset term = tk_offset t /\ term_len term = tk_len t.
Proof.
  intros Hn Hw Hst Hs. unfold add_stemmed_token.
  destruct (intern_numbered (tb_terms b) (tk_word t) Hn Hw ltac:(lia)) as (Hn1 & Hl1 & Hsub1 & Hs1).
  destruct (intern (tb_terms b) (tk_word t)) as [id m1]. cbn [fst snd] in *.
  destruct (tk_stemmed_word t) as [w|] eqn:Ew.
  - destruct (intern_numbered m1 w Hn1 (Hst w eq_refl) ltac:(lia)) as (Hn2 & Hl2 & Hsub2 & Hs2).
    destruct (intern m1 w) as [id2 m2]. cbn [fst snd tb_terms] in *. split_and!; try done; [by etrans|lia|].
    split; [exists (tk_word t); by eapply lookup_weaken|by exists w].
  - cbn [tb_terms]. split_and!; try done; [lia|]. split; by exists (tk_word t).
Qed.

Lemma add_tokens_spec tokens b :
  numbered (tb_terms b) ->
  Forall (fun t => word_ok (tk_word t) /\ (forall w, tk_stemmed_word t = Some w -> word_ok w)) tokens ->
  Z.of_nat (size (tb_terms b)) + 2 * Z.of_nat (length tokens) < 2 ^ 32 ->
  let '(terms, b') := add_tokens b tokens in
  numbered (tb_terms b') /\ tb_terms b ⊆ tb_terms b' /\
  (size (tb_terms b') <= size (tb_terms b) + 2 * length tokens)%nat /\
  Forall (term_known (tb_terms b')) terms /\
  term_offset <$> terms = tk_offset <$> tokens /\ term_len <$> terms = tk_len <$> tokens.
Proof.
  intros Hn Hw. revert b Hn. induction Hw as [|t tokens [Ht Hst] _ IH]; intros b Hn Hs; cbn [add_tokens length] in *.
  { split_and!; [done..|lia|constructor|done|done]. }
  pose proof (add_stemmed_token_spec b t Hn Ht Hst ltac:(lia)) as Hadd.
  destruct (add_stemmed_token b t) as [term b1]. destruct Hadd as (Hn1 & Hsub1 & Hs1 & Hk1 & Ho1 & Hl1).
  specialize (IH b1 Hn1 ltac:(lia)). destruct (add_tokens b1 tokens) as [terms b2].
  destruct IH as (Hn2 & Hsub2 & Hs2 & Hk2 & Ho2 & Hl2). split_and!; [done|by etrans|lia| | |].
  - constructor; [|done]. by eapply term_known_mono.
  - cbn. by rewrite Ho1, Ho2.
  - cbn. by rewrite Hl1, Hl2.
Qed.

(** Five bytes per value bound a packed list. *)
Lemma fold_push_length l acc : Forall (fits 32) l -> (length (fold_left push_leb128 l acc) <= length acc + 5 * length l)%nat.
Proof.
  intros Hl. revert acc. induction Hl as [|v l Hv _ IH]; intros acc; cbn [fold_left length]; [lia|].
  specialize (IH (push_leb128 acc v)).
  assert (length (push_leb128 acc v) = length acc + length (leb128 v))%nat by (unfold push_leb128, to_leb128_bytes; by rewrite length_app).
  assert (length (leb128 v) <= 5)%nat by (apply leb128_length; [lia|unfold fits in Hv; lia]). lia.
Qed.
Lemma packed_bits b n : is_block n -> 0 <= b <= 32 -> (S (Z.to_nat b * n / 8) <= 5 * n)%nat.
Proof.
  intros Hn Hb. assert (Z.to_nat b * n <= 32 * n)%nat by (apply Nat.mul_le_mono_r; lia).
  assert (Z.to_nat b * n / 8 <= 4 * n)%nat; [|unfold is_block in Hn; lia].
  apply Nat.Div0.div_le_upper_bound. lia.
Qed.

Lemma pack_loop_length fuel s i l :
  Forall (fits 32) l -> (s = true -> StronglySorted Z.le (i :: l)) ->
  (length (pack_loop fuel s i l) <= 5 * length l)%nat.
Proof.
  revert i l. induction fuel as [|fuel IH]; intros i [|x l] Hl Hs; cbn [pack_loop]; try (cbn; lia).
  set (l' := x :: l) in *. destruct (block_len_cases (length l')) as [[-> _]|[Hb Hle]].
  { change (0 <? 0)%nat with false. cbv iota. apply (fold_push_length l' []) in Hl. cbn [length] in Hl. lia. }
  set (n := block_len (length l')) in *. rewrite (proj2 (Nat.ltb_lt 0 n)) by (unfold is_block in Hb; lia).
  assert (length (take n l') = n) as Hn by (rewrite length_take; lia).
  pose proof (length_drop l' n) as Hd.
  destruct s; cbn [length]; rewrite length_app.
  - pose proof (Hs eq_refl) as Hsort. rewrite <- (take_drop n l') in Hsort.
    destruct (compress_sorted_ok n i (take n l') Hb Hn) as [-> _].
    { by apply Forall_take. }
    { by apply (StronglySorted_app_1_l _ (i :: take n l') (drop n l')). }
    pose proof (packed_bits _ n Hb (num_bits_sorted_range n i (take n l'))).
    assert (length (pack_loop fuel true (default 0%Z (last (take n l'))) (drop n l')) <= 5 * length (drop n l'))%nat; [|lia].
    apply IH; [by apply Forall_drop|]. intros _.
    destruct (last (take n l')) as [z|] eqn:Ez; [|apply last_None in Ez; rewrite Ez in Hn; unfold is_block in Hb; cbn in Hn; lia].
    apply last_Some in Ez as [k Ek]. rewrite Ek in Hsort. cbn [default].
    replace (i :: (k ++ [z]) ++ drop n l') with ((i :: k) ++ (z :: drop n l')) in Hsort by (cbn; by rewrite <- app_assoc).
    by apply StronglySorted_app_1_r in Hsort.
  - destruct (compress_ok n (take n l') Hb Hn) as [-> _]; [by apply Forall_take|].
    pose proof (packed_bits _ n Hb (num_bits_range n (take n l'))).
    specialize (IH i (drop n l') (Forall_drop _ _ _ Hl) ltac:(done)). lia.
Qed.

Lemma terms_bytes_length terms :
  Forall term_fits terms -> StronglySorted Z.le (term_offset <$> terms) ->
  (length (terms_bytes terms) <= 16 * length terms)%nat.
Proof.
  intros Hf Hs. unfold terms_bytes, pack. rewrite !length_app.
  pose proof (length_fmap term_offset terms) as Hl1. pose proof (length_fmap term_len terms) as Hl2.
  pose proof (pack_loop_length (length (ids_of terms)) false 0 (ids_of terms) (ids_of_fits _ Hf) ltac:(done)) as Hids.
  assert (length (ids_of terms) = 2 * length terms)%nat as E by (unfold ids_of; clear; induction terms; cbn in *; lia).
  assert (Forall (fits 32) (term_offset <$> terms)) as Ho by (apply Forall_fmap; eapply Forall_impl; [done|]; by intros t (_ & _ & ? & _)).
  pose proof (pack_loop_length (length (term_offset <$> terms)) true 0 (term_offset <$> terms) Ho) as Hoff.
  unfold ids_of in *.
  assert (StronglySorted Z.le (0 :: (term_offset <$> terms))) as Hs0.
  { constructor; [done|]. eapply Forall_impl; [done|]. unfold fits. cbn. lia. }
  specialize (Hoff (fun _ => Hs0)). lia.
Qed.

Lemma builder_new_wf : builder_wf builder_new.
Proof. split; cbn; try done; constructor. Qed.

Lemma index_part_wf b field part tokens :
  builder_wf b -> is_byte field -> fits 32 part -> tokens_wf tokens ->
  Z.of_nat (size (tb_terms b)) + 2 * Z.of_nat (length tokens) < 2 ^ 32 ->
  builder_wf (index_part b field part tokens) /\
  (size (tb_terms (index_part b field part tokens)) <= size (tb_terms b) + 2 * length tokens)%nat.
Proof.
  intros Hb Hf Hp Ht Hs. assert (numbered (tb_terms b)) as Hn by (split; by apply Hb). unfold index_part.
  pose proof (add_tokens_spec tokens b Hn (tw_words _ Ht) Hs) as Hadd. pose proof (add_tokens_items tokens b) as Hitems.
  destruct (add_tokens b tokens) as [terms b']. destruct Hadd as (Hn' & Hsub & Hsz & Hk & Ho & Hl). cbn [snd] in Hitems.
  assert (Forall (fun bi => Forall (term_known (tb_terms b')) (bi_terms bi)) (tb_items b')) as Hold.
  { rewrite Hitems. eapply Forall_impl; [apply (bw_known _ Hb)|]. intros bi Hbi.
    eapply Forall_impl; [exact Hbi|]. intros t Hkt. by eapply term_known_mono. }
  assert (Forall builder_item_wf (tb_items b')) as Hold' by (rewrite Hitems; apply Hb).
  assert (Z.of_nat (size (tb_terms b')) < 2 ^ 32) as Hsz' by lia.
  assert (length terms = length tokens) as Hlen by (apply (f_equal length) in Ho; by rewrite !length_fmap in Ho).
  case_bool_decide; (split; [|cbn [tb_terms add_terms]; lia]); split; cbn [tb_terms tb_items add_terms]; try (by apply Hn'); try done.
  - apply Forall_app. split; [done|]. constructor; [|constructor].
    assert (Forall term_fits terms) as Hfit.
    { apply Forall_forall. intros t Hin. rewrite Forall_forall in Hk. destruct (Hk t Hin) as [[w Hw] [w' Hw']].
      apply (nb_ids _ Hn') in Hw, Hw'. pose proof (tw_offsets _ Ht) as Hto. apply Forall_and in Hto as [Hto Htl].
      assert (Forall (fits 32) (term_offset <$> terms)) as Hfo by (rewrite Ho; by apply Forall_fmap).
      assert (Forall is_byte (term_len <$> terms)) as Hfl by (rewrite Hl; by apply Forall_fmap).
      rewrite Forall_fmap, Forall_forall in Hfo, Hfl. split_and!; [unfold fits; lia..|by apply Hfo|by apply Hfl]. }
    pose proof (tw_few _ Ht). assert (StronglySorted Z.le (term_offset <$> terms)) as Hso by (rewrite Ho; apply Ht).
    split; cbn [bi_terms bi_field bi_part_id]; try done; [lia|]. pose proof (terms_bytes_length terms Hfit Hso). lia.
  - apply Forall_app. split; [done|]. by constructor.
Qed.

Definition index_parts (parts : list (FieldId * Z * list StemmedToken)) (b : TermIndexBuilder) : TermIndexBuilder :=
  fold_left (fun b '(field, part_id, tokens) => index_part b field part_id tokens) parts b.

Lemma index_parts_wf parts b :
  Forall (fun '(field, part_id, tokens) => is_byte field /\ fits 32 part_id /\ tokens_wf tokens) parts ->
  builder_wf b -> Z.of_nat (size (tb_terms b)) + 2 * Z.of_nat (length (parts ≫= snd)) < 2 ^ 32 ->
  builder_wf (index_parts parts b).
Proof.
  intros Hp. revert b. induction Hp as [|[[field part] tokens] parts (Hf & Hpt & Ht) _ IH]; intros b Hb Hs; [done|].
  unfold index_parts in *. cbn [fold_left] in *. rewrite bind_cons, length_app in Hs. cbn [snd] in Hs.
  destruct (index_part_wf b field part tokens Hb Hf Hpt Ht ltac:(lia)) as [Hb' Hsz]. apply IH; [done|lia].
Qed.

(** ** Every word of a part is in the index *)

(** [tm] is the term of token [t] in an index with numbering [m]. *)
Definition term_for (m : gmap (list Z) Z) (t : StemmedToken) (tm : Term) : Prop :=
  m !! tk_word t = Some (term_id tm) /\ forall w, tk_stemmed_word t = Some w -> m !! w = Some (term_id_stemmed tm).

Lemma term_for_mono m m' t tm : m ⊆ m' -> term_for m t tm -> term_for m' t tm.
Proof. intros Hm [Hw Hs]. split; [by eapply lookup_weaken|]. intros w Ew. eapply lookup_weaken; [|done]. by apply Hs. Qed.

Lemma intern_grows m w : m ⊆ (intern m w).2 /\ (intern m w).2 !! w = Some (intern m w).1.
Proof.
  unfold intern. destruct (m !! w) as [i|] eqn:Em; cbn [fst snd]; [done|]. split; [by apply insert_subseteq|apply lookup_insert_eq].
Qed.
Lemma add_stemmed_token_for b t :
  tb_terms b ⊆ tb_terms (add_stemmed_token b t).2 /\
  term_for (tb_terms (add_stemmed_token b t).2) t (add_stemmed_token b t).1.
Proof.
  unfold add_stemmed_token. destruct (intern_grows (tb_terms b) (tk_word t)) as [Hsub Hw].
  destruct (intern (tb_terms b) (tk_word t)) as [id m1]. cbn [fst snd] in *. unfold term_for.
  destruct (tk_stemmed_word t) as [w|].
  - destruct (intern_grows m1 w) as [Hsub' Hw']. destruct (intern m1 w) as [id2 m2]. cbn [fst snd tb_terms term_id term_id_stemmed] in *.
    split; [by etrans|]. split; [by eapply lookup_weaken|]. by intros ? [= <-].
  - cbn [fst snd tb_terms term_id]. done.
Qed.

Lemma add_tokens_for tokens b :
  tb_terms b ⊆ tb_terms (add_tokens b tokens).2 /\
  forall t, t ∈ tokens -> exists tm, tm ∈ (add_tokens b tokens).1 /\ term_for (tb_terms (add_tokens b tokens).2) t tm.
Proof.
  revert b. induction tokens as [|t tokens IH]; intros b; cbn [add_tokens]; [split; [done|]; by intros t ?%not_elem_of_nil|].
  destruct (add_stemmed_token_for b t) as [Hsub Ht]. destruct (add_stemmed_token b t) as [term b1]. cbn [fst snd] in *.
  destruct (IH b1) as [Hsub' Hts]. destruct (add_tokens b1 tokens) as [terms b2]. cbn [fst snd] in *. split; [by etrans|].
  intros t' [->|Hin]%elem_of_cons.
  - exists term. split; [by apply elem_of_cons; left|]. by eapply term_for_mono.
  - destruct (Hts t' Hin) as (tm & Htm & Hf). exists tm. split; [by apply elem_of_cons; right|done].
Qed.

(** A token of field [f] has its term in some item of the index. *)
Definition indexed_in (b : TermIndexBuilder) (f : FieldId) (t : StemmedToken) : Prop :=
  exists bi tm, bi ∈ tb_items b /\ bi_field bi = f /\ tm ∈ bi_terms bi /\ term_for (tb_terms b) t tm.

Lemma index_part_for b f p tokens :
  (forall f' t, indexed_in b f' t -> indexed_in (index_part b f p tokens) f' t) /\
  (forall t, t ∈ tokens -> indexed_in (index_part b f p tokens) f t).
Proof.
  unfold index_part. destruct (add_tokens_for tokens b) as [Hsub Ht]. pose proof (add_tokens_items tokens b) as Hi.
  destruct (add_tokens b tokens) as [terms b']. cbn [fst snd] in *. split.
  - intros f' t (bi & tm & Hbi & Hf & Htm & Hfor). exists bi, tm. case_bool_decide; cbn [tb_items tb_terms add_terms].
    + rewrite Hi. split_and!; [done..|by eapply term_for_mono].
    + rewrite Hi. split_and!; [by apply elem_of_app; left|done..|by eapply term_for_mono].
  - intros t Hin. destruct (Ht t Hin) as (tm & Htm & Hfor). case_bool_decide as Hn; [subst; by apply not_elem_of_nil in Htm|].
    exists (mkBuilderItem f p terms), tm. cbn [tb_items tb_terms add_terms bi_field bi_terms]. split_and!; try done.
    apply elem_of_app. right. by apply list_elem_of_singleton.
Qed.

Lemma index_parts_for parts b :
  (forall f t, indexed_in b f t -> indexed_in (index_parts parts b) f t) /\
  (forall f p tokens t, (f, p, tokens) ∈ parts -> t ∈ tokens -> indexed_in (index_parts parts b) f t).
Proof.
  revert b. induction parts as [|[[f p] tokens] parts IH]; intros b.
  { split; [done|]. by intros ???? ?%not_elem_of_nil. }
  unfold index_parts in *. cbn [fold_left]. destruct (index_part_for b f p tokens) as [Hold Hnew].
  destruct (IH (index_part b f p tokens)) as [IHold IHnew]. split; [auto|].
  intros f' p' tokens' t [[= -> -> ->]|Hin]%elem_of_cons Ht; [by apply IHold, Hnew|by eapply IHnew].
Qed.

Definition terms_of (bi : TermIndexBuilderItem) : Terms :=
  fold_left insert_term (term_ids <$> bi_terms bi) (mkTerms (bi_field bi) ∅ ∅).

(** The bytes of a builder, and what both readers make of them. *)
Lemma index_bytes b :
  builder_wf b -> tb_terms b <> ∅ ->
  exists bytes words, builder_serialize b = Ok bytes /\
    (forall n w, words !! n = Some w <-> tb_terms b !! w = Some (Z.of_nat n)) /\
    term_index_deserialize bytes = Some (mkTermIndex (tb_terms b) (stored_item <$> tb_items b)) /\
    token_index_deserialize bytes = Some (mkTokenIndex words (terms_of <$> tb_items b)).
Proof.
  intros Hwf Hne. destruct (placed_words b Hwf) as (words & E & Hlen & Hw). unfold builder_serialize.
  rewrite bool_decide_eq_false_2 by done. rewrite E. cbn [mbind res_bind].
  eexists _, words. split; [done|]. split; [done|].
  assert (NoDup words) as Hnd.
  { apply NoDup_alt. intros i j w Hi%Hw Hj%Hw. rewrite Hi in Hj. injection Hj. lia. }
  assert (Forall word_ok words) as Hok.
  { apply Forall_lookup_2. intros n w Hn%Hw. by eapply bw_words. }
  assert (number_words words = tb_terms b) as Hnum.
  { apply map_eq. intros w. apply option_eq. intros i. rewrite number_words_lookup by done. split.
    - intros (n & -> & Hn). by apply Hw.
    - intros Hi. pose proof (bw_ids _ Hwf _ _ Hi). exists (Z.to_nat i). split; [lia|]. apply Hw. by rewrite Z2Nat.id by lia. }
  unfold term_index_deserialize, token_index_deserialize, push_leb128, to_leb128_bytes. cbn [app].
  assert (decodable U32 (Z.of_nat (size (tb_terms b)))) as Hd.
  { apply decodable_fits. pose proof (bw_size _ Hwf). unfold fits. cbn. lia. }
  rewrite !read_skip_app by done. cbn [mbind option_bind]. rewrite <- Hlen.
  assert (forall x, (1 <= length (item_bytes x))%nat) as Hib.
  { intros x. rewrite item_bytes_split, length_app, le_bytes_length. lia. }
  rewrite read_words_app; [|done|].
  2: { rewrite length_app. etrans; [apply (bind_length (fun w => w ++ [0])); intros; rewrite length_app; cbn; lia|lia]. }
  cbn [mbind option_bind]. rewrite read_items_app, token_items_app by (apply Hwf || by apply bind_length).
  cbn [mbind option_bind]. split; [|done]. by rewrite <- Hnum.
Qed.

(** A phrase occurs in an item; it does so first when no earlier term is its first word. *)
Definition occurs (mts : list MatchTerm) (bi : TermIndexBuilderItem) : Prop :=
  exists d e, term_id <$> bi_terms bi = d ++ (mt_id <$> mts) ++ e.
Definition occurs_first (mts : list MatchTerm) (bi : TermIndexBuilderItem) : Prop :=
  exists d mid e, bi_terms bi = d ++ mid ++ e /\ term_id <$> mid = mt_id <$> mts /\
    forall m0, mts !! 0%nat = Some m0 -> Forall (fun t => term_id t <> mt_id m0) d.

Lemma phrase_item mts bi mask :
  builder_item_wf bi -> mts <> [] ->
  exists st bp, term_loop (length (bi_terms bi)) (phrase_term mts false) (stored_item bi) 0
      (mkMatching 0 [] [] mask) = Ok (st, bp) /\
    (ms_terms st <> [] -> occurs mts bi) /\ (occurs_first mts bi -> ms_terms st <> []).
Proof.
  intros Hwf Hne. set (terms := bi_terms bi) in *.
  pose proof (term_loop_spec (length terms) (phrase_term mts false) (stored_item bi) [] 0 (ids_of terms)
    (pack_from true 0 (term_offset <$> terms) ++ (term_len <$> terms)) (mkMatching 0 [] [] mask)
    (phrase_term_advances mts false) (ids_of_fits _ (bw_terms _ Hwf))) as Hloop.
  cbn [ms_term_pos ti_terms_len stored_item length app] in Hloop.
  specialize (Hloop ltac:(rewrite app_assoc; apply (stored_terms bi))
    ltac:(rewrite ids_of_length; fold terms; lia) ltac:(fold terms; lia)).
  rewrite ids_of_pairs in Hloop.
  assert ((term_ids <$> terms).*1 = term_id <$> terms) as Hfst by (rewrite <- list_fmap_compose; done).
  destruct (phrase_sound mts Hne (term_ids <$> terms) [] (mkMatching 0 [] [] mask)) as (st & stop & E & Hs).
  { split; [done|]. split; [destruct mts; [done|cbn; lia]|]. by exists []. }
  rewrite E in Hloop. destruct Hloop as (bp & Hst & _). exists st, bp. split; [done|]. split.
  - destruct stop; [|done]. intros _. destruct Hs as (_ & d & e & He). exists d, e. fold terms. by rewrite <- Hfst, <- He.
  - intros (d & mid & e & Hterms & Hmid & Hd). fold terms in Hterms. rewrite Hterms, !fmap_app in E.
    destruct (phrase_skip mts Hne (term_ids <$> d) (mkMatching 0 [] [] mask) ((term_ids <$> mid) ++ (term_ids <$> e)))
      as (st1 & E1 & Hp1 & Ht1); [done|done| |].
    { intros m0 Hm0. apply Forall_fmap. by apply Hd. }
    destruct (phrase_run mts (term_ids <$> mid) (term_ids <$> e) st1) as (st2 & E2 & Hne2); [done| | |].
    { rewrite Hp1. destruct mts; [done|cbn; lia]. }
    { rewrite Hp1, drop_0, <- Hmid. by rewrite <- list_fmap_compose. }
    rewrite E1, E2 in E. by injection E as <- <-.
Qed.

Lemma phrase_items mts items mask :
  Forall builder_item_wf items -> mts <> [] ->
  exists r, item_loop mts None true false false (stored_item <$> items) mask [] = Ok r /\
    (r <> [] -> exists bi, bi ∈ items /\ occurs mts bi) /\
    (forall bi, bi ∈ items -> occurs_first mts bi -> r <> []).
Proof.
  intros Hwf Hne. revert mask. induction Hwf as [|bi items Hbi _ IH]; intros mask; cbn [fmap list_fmap item_loop].
  { exists []. split_and!; [done..|]. by intros bi ?%not_elem_of_nil. }
  destruct (phrase_item mts bi mask Hbi Hne) as (st & bp & E & Hs & Hc).
  change (ti_terms_len (stored_item bi)) with (length (bi_terms bi)). change (match_term mts true false) with (phrase_term mts false).
  rewrite E. cbn [mbind res_bind negb]. case_bool_decide as Ht.
  - destruct (IH (ms_matched_mask st)) as (r & -> & Hr & Hr'). exists r. split; [done|]. split.
    + intros (bi' & Hin & Ho)%Hr. exists bi'. split; [|done]. by apply elem_of_cons; right.
    + intros bi' [->|Hin]%elem_of_cons Ho; [by apply Hc in Ho|by eapply Hr'].
  - cbn [mbind res_bind app]. eexists. split; [done|]. split; [|done].
    intros _. exists bi. split; [by apply elem_of_cons; left|by apply Hs].
Qed.

Lemma terms_of_sets bi :
  te_field_id (terms_of bi) = bi_field bi /\
  (forall i, i ∈ exact_terms (terms_of bi) <-> exists t, t ∈ bi_terms bi /\ term_id t = i) /\
  (forall i, i ∈ stemmed_terms (terms_of bi) <->
    exists t, t ∈ bi_terms bi /\ term_id_stemmed t = i /\ term_id t <> i).
Proof.
  assert (forall l t0, let r := fold_left insert_term (term_ids <$> l) t0 in
    te_field_id r = te_field_id t0 /\
    (forall i, i ∈ exact_terms r <-> i ∈ exact_terms t0 \/ exists t, t ∈ l /\ term_id t = i) /\
    (forall i, i ∈ stemmed_terms r <->
      i ∈ stemmed_terms t0 \/ exists t, t ∈ l /\ term_id_stemmed t = i /\ term_id t <> i)) as Hgen.
  { induction l as [|t l IH]; intros t0; cbn [fmap list_fmap fold_left].
    - cbn zeta. split; [done|]. split; intros i; (split; [by left|]); intros [?|(? & ?%not_elem_of_nil & _)]; done.
    - destruct (IH (insert_term t0 (term_ids t))) as (H1 & H2 & H3). cbn zeta in *. split; [by rewrite H1|].
      split; intros i; setoid_rewrite elem_of_cons; [rewrite H2|rewrite H3]; cbn [insert_term exact_terms stemmed_terms term_ids fst snd].
      + rewrite elem_of_union, elem_of_singleton. naive_solver.
      + destruct (Z.eqb_spec (term_id t) (term_id_stemmed t)) as [E|E]; cbn [negb].
        * split; [naive_solver|]. intros [?|(t' & [->|?] & ? & ?)]; [by left|congruence|right; eauto].
        * rewrite elem_of_union, elem_of_singleton. naive_solver. }
  destruct (Hgen (bi_terms bi) (mkTerms (bi_field bi) ∅ ∅)) as (H1 & H2 & H3). split; [done|].
  split; intros i; [etrans; [apply H2|]|etrans; [apply H3|]]; cbn; set_solver.
Qed.

(** Building an index keeps its invariant: starting from no words and
    indexing any sequence of parts, words stay numbered [0, 1, ..] without
    gaps or duplicates, every term refers to a numbered word, and each part
    takes at most 16 bytes per word, so its length fits its 32-bit header. *)
Theorem index_parts_invariant (parts : list (FieldId * Z * list StemmedToken)) :
  Forall (fun '(field, part_id, tokens) => is_byte field /\ fits 32 part_id /\ tokens_wf tokens) parts ->
  2 * Z.of_nat (length (parts ≫= snd)) < 2 ^ 32 ->
  let b := index_parts parts builder_new in
  builder_wf b /\
  Forall (fun bi => length (terms_bytes (bi_terms bi)) <= 16 * length (bi_terms bi))%nat (tb_items b).
Proof.
  intros Hp Hs. pose proof (index_parts_wf parts builder_new Hp builder_new_wf Hs) as Hwf. split; [done|].
  eapply Forall_impl; [apply (bw_items _ Hwf)|]. intros bi Hbi. by apply terms_bytes_length; destruct Hbi.
Qed.

(** Searching for words finds all of them. On the bytes of a builder,
    matching any of up to 64 words with offsets, as search snippets do,
    returns for every part the terms equal to one of the words or sharing its
    stem, in order, each with the offset and the length it was added with, and
    nothing for the parts without such a term. *)
Theorem search_words_exact b bytes ti match_terms :
  builder_wf b -> builder_serialize b = Ok bytes -> term_index_deserialize bytes = Some ti ->
  (1 <= length match_terms <= 64)%nat ->
  term_index_match match_terms None false true true ti =
  Ok (match omap (hits match_terms) (tb_items b) with [] => None | groups => Some groups end).
Proof.
  intros Hwf Hs Hti Hlen. assert (tb_terms b <> ∅) as Hne.
  { intros E. unfold builder_serialize in Hs. by rewrite bool_decide_eq_true_2 in Hs. }
  destruct (index_bytes b Hwf Hne) as (bytes' & words & Hs' & _ & Hti' & _).
  assert (bytes' = bytes) as -> by congruence. assert (ti = mkTermIndex (tb_terms b) (stored_item <$> tb_items b)) as -> by congruence.
  unfold term_index_match. cbn [negb andb ti_items].
  rewrite (proj2 (Nat.leb_le _ _)), (proj2 (Nat.leb_le _ _)) by lia. cbn [andb negb].
  rewrite item_loop_any by apply Hwf. cbn [mbind res_bind app].
  by destruct (omap (hits match_terms) (tb_items b)); [rewrite bool_decide_eq_true_2|rewrite bool_decide_eq_false_2].
Qed.

(** C34. Term indexes round trip. What a builder with numbered words
    serializes to is read back by both readers: [TermIndex] gets the number of
    every word and the items with their packed terms as they were written, and
    unpacking them, by matching up to 64 words, returns for every item the
    terms of these words with the word, stem, offset and length they were added
    with; [TokenIndex] gets the words by number and, per item, exactly the ids
    of its words and the ids of the stems that differ from their word. *)
Theorem term_index_roundtrip b :
  builder_wf b -> tb_terms b <> ∅ ->
  exists bytes ti tk, builder_serialize b = Ok bytes /\
    term_index_deserialize bytes = Some ti /\ token_index_deserialize bytes = Some tk /\
    token_map ti = tb_terms b /\
    (forall n w, tokens tk !! n = Some w <-> tb_terms b !! w = Some (Z.of_nat n)) /\
    Forall2 (fun bi item => ti_field_id item = bi_field bi /\ ti_part_id item = bi_part_id bi /\
      ti_terms_len item = length (bi_terms bi) /\ ti_terms item = terms_bytes (bi_terms bi)) (tb_items b) (ti_items ti) /\
    (forall match_terms, (1 <= length match_terms <= 64)%nat ->
      term_index_match match_terms None false true true ti =
      Ok (match omap (hits match_terms) (tb_items b) with [] => None | groups => Some groups end)) /\
    Forall2 (fun bi t => te_field_id t = bi_field bi /\
      (forall i, i ∈ exact_terms t <-> exists tm, tm ∈ bi_terms bi /\ term_id tm = i) /\
      (forall i, i ∈ stemmed_terms t <->
        exists tm, tm ∈ bi_terms bi /\ term_id_stemmed tm = i /\ term_id tm <> i))
      (tb_items b) (token_terms tk).
Proof.
  intros Hwf Hne. destruct (index_bytes b Hwf Hne) as (bytes & words & Hs & Hw & Hti & Htk).
  eexists bytes, _, _. split; [done|]. split; [done|]. split; [done|]. split; [done|]. split; [done|]. split; [|split].
  - cbn [ti_items]. apply Forall2_fmap_r, Forall_Forall2_diag, Forall_forall. done.
  - intros match_terms Hlen. by apply (search_words_exact b bytes).
  - cbn [token_terms]. apply Forall2_fmap_r, Forall_Forall2_diag, Forall_forall. intros bi _. apply terms_of_sets.
Qed.

Lemma known_word b t w :
  builder_wf b -> term_known (tb_terms b) t ->
  term_id t = default U32_MAX (tb_terms b !! w) <-> tb_terms b !! w = Some (term_id t).
Proof.
  intros Hwf [[w0 Hw0] _]. pose proof (bw_ids _ Hwf _ _ Hw0). pose proof (bw_size _ Hwf).
  destruct (tb_terms b !! w) as [i|]; cbn; [split; congruence|]. split; [lia|done].
Qed.

(** Phrase search, as the query uses it, only returns documents that have
    the phrase: if it matches, some part has consecutive terms that are the
    words of the phrase; it finds the phrase in any part where no term before
    the occurrence is the first word of the phrase; and it never fails on an
    index that was written by the builder. *)
Theorem phrase_search_sound b bytes ti phrase :
  builder_wf b -> builder_serialize b = Ok bytes -> term_index_deserialize bytes = Some ti ->
  phrase <> [] ->
  let match_terms := (fun w => get_match_term ti w None) <$> phrase in
  exists r, term_index_match match_terms None true false false ti = Ok r /\
    (r <> None -> exists bi d mid e, bi ∈ tb_items b /\ bi_terms bi = d ++ mid ++ e /\
      Forall2 (fun t w => tb_terms b !! w = Some (term_id t)) mid phrase) /\
    (forall bi d mid e w0 ws, bi ∈ tb_items b -> bi_terms bi = d ++ mid ++ e -> phrase = w0 :: ws ->
      Forall2 (fun t w => tb_terms b !! w = Some (term_id t)) mid phrase ->
      Forall (fun t => tb_terms b !! w0 <> Some (term_id t)) d -> r <> None).
Proof.
  intros Hwf Hs Hti Hne match_terms. assert (tb_terms b <> ∅) as Hne'.
  { intros E. unfold builder_serialize in Hs. by rewrite bool_decide_eq_true_2 in Hs. }
  destruct (index_bytes b Hwf Hne') as (bytes' & words & Hs' & _ & Hti' & _).
  assert (bytes' = bytes) as -> by congruence. assert (ti = mkTermIndex (tb_terms b) (stored_item <$> tb_items b)) as -> by congruence.
  assert (match_terms <> []) as Hm by (intros ?%fmap_nil_inv; done).
  assert (mt_id <$> match_terms = (fun w => default U32_MAX (tb_terms b !! w)) <$> phrase) as Hids
    by (unfold match_terms; rewrite <- list_fmap_compose; done).
  destruct (phrase_items match_terms (tb_items b) (words_mask match_terms) (bw_items _ Hwf) Hm) as (r & E & Hr & Hr').
  unfold term_index_match. cbn [negb andb ti_items]. rewrite E. cbn [mbind res_bind].
  eexists. split; [done|]. case_bool_decide as Er.
  - split; [done|]. intros bi d mid e w0 ws Hin Hbi Hph Hmid Hd _. apply (Hr' bi Hin); [|done].
    exists d, mid, e. split; [done|]. rewrite Hids. split.
    + clear - Hmid. induction Hmid as [|t w mid phrase Hw _ IH]; [done|]. cbn. by rewrite Hw, IH.
    + intros m0 Hm0. unfold match_terms in Hm0. rewrite Hph in Hm0. injection Hm0 as <-. cbn [mt_id get_match_term token_map].
      pose proof (bw_known _ Hwf) as Hk. rewrite Forall_forall in Hk. specialize (Hk bi Hin).
      rewrite Hbi, Forall_app in Hk. destruct Hk as [Hk _]. rewrite Forall_forall in *. intros t Ht.
      rewrite known_word by (done || by apply Hk). by apply Hd.
  - split; [|done]. intros _. destruct (Hr Er) as (bi & Hin & d & e & Hde). rewrite Hids in Hde.
    apply fmap_app_inv in Hde as (d' & r1 & -> & Hde & Hbi). symmetry in Hde. apply fmap_app_inv in Hde as (mid & e' & Hmid & -> & ->).
    exists bi, d', mid, e'. split; [done|]. split; [done|].
    pose proof (bw_known _ Hwf) as Hk. rewrite Forall_forall in Hk. specialize (Hk bi Hin).
    rewrite Hbi, !Forall_app in Hk. destruct Hk as (_ & Hk & _). clear - Hwf Hmid Hk.
    revert phrase Hmid. induction Hk as [|t mid Ht _ IH]; intros [|w phrase] Hmid; try done.
    cbn in Hmid. injection Hmid as Hw Hmid. constructor; [by apply known_word|by apply IH].
Qed.
End Index.

(** ** A packer that stores every value in 32 bits *)

Module PlainPacker.
Fixpoint read4 (l : list Z) : list Z :=
  match l with
  | a :: b :: c :: d :: l => from_le_bytes [a; b; c; d] :: read4 l
  | _ => []
  end.

#[export] Instance packer : BitPacker := {
  num_bits _ _ := 32;
  compress _ l _ := flat_map (le_bytes 4) l;
  decompress _ bytes _ := read4 bytes;
  num_bits_sorted _ _ _ := 32;
  compress_sorted _ _ l _ := flat_map (le_bytes 4) l;
  decompress_sorted _ _ bytes _ := read4 bytes
}.

Lemma read4_bytes l : Forall (fits 32) l -> read4 (flat_map (le_bytes 4) l) = l.
Proof.
  induction 1 as [|x l Hx _ IH]; [done|]. change (flat_map (le_bytes 4) (x :: l)) with (le_bytes 4 x ++ flat_map (le_bytes 4) l).
  pose proof (from_le_bytes_le 4 x Hx) as Hr. pose proof (le_bytes_length 4 x) as Hl.
  destruct (le_bytes 4 x) as [|a [|b [|c [|d [|? ?]]]]]; try done.
  change (from_le_bytes [a; b; c; d] :: read4 (flat_map (le_bytes 4) l) = x :: l). by rewrite Hr, IH.
Qed.

Lemma bytes4_length l : length (flat_map (le_bytes 4) l) = (4 * length l)%nat.
Proof.
  induction l as [|x l IH]; [done|]. change (flat_map (le_bytes 4) (x :: l)) with (le_bytes 4 x ++ flat_map (le_bytes 4) l).
  rewrite length_app, le_bytes_length, IH. cbn [length]. lia.
Qed.

#[export] Instance packer_laws : BitPackerLaws.
Proof.
  split; intros; [split; cbn; lia..| |].
  - unfold compress, num_bits, decompress, packer. rewrite bytes4_length. split; [|by apply read4_bytes].
    replace (Z.to_nat 32 * n)%nat with (4 * length l * 8)%nat by lia. by rewrite Nat.div_mul by lia.
  - unfold compress_sorted, num_bits_sorted, decompress_sorted, packer. rewrite bytes4_length. split; [|by apply read4_bytes].
    replace (Z.to_nat 32 * n)%nat with (4 * length l * 8)%nat by lia. by rewrite Nat.div_mul by lia.
Qed.
End PlainPacker.

Module TermSample.
Export PlainPacker.

(** The words "a" (with stem "b"), "a" and "c" of one part. *)
Definition parts : list Term := [mkTerm 0 1 0 1; mkTerm 0 1 2 1; mkTerm 2 2 4 1].
Definition builder : TermIndexBuilder :=
  mkBuilder {[ [97] := 0; [98] := 1; [99] := 2 ]} [mkBuilderItem 7 0 parts].
Definition bytes : list Z := match builder_serialize builder with Ok b => b | _ => [] end.
Definition index : TermIndex := default (mkTermIndex ∅ []) (term_index_deserialize bytes).
End TermSample.
Import TermSample.

Lemma sample_words w i :
  tb_terms builder !! w = Some i -> (w, i) ∈ [([97], 0); ([98], 1); ([99], 2)].
Proof.
  cbn [builder tb_terms]. rewrite lookup_insert_Some, lookup_insert_Some, lookup_singleton_Some.
  intros [[<- <-]|[_ [[<- <-]|[_ [<- <-]]]]]; set_solver.
Qed.

Lemma sample_builder_wf : builder_wf builder.
Proof.
  split.
  - intros w i Hin%sample_words. change (size (tb_terms builder)) with 3%nat.
    rewrite !elem_of_cons, elem_of_nil in Hin. naive_solver lia.
  - intros w w' i Hin%sample_words Hin'%sample_words. rewrite !elem_of_cons, elem_of_nil in *. naive_solver lia.
  - intros w i Hin%sample_words. rewrite !elem_of_cons, elem_of_nil in Hin.
    destruct Hin as [[= -> ->]|[[= -> ->]|[[= -> ->]|[]]]]; (split; [done|set_solver]).
  - change (size (tb_terms builder)) with 3%nat. lia.
  - constructor; [|constructor]. split; cbn [bi_terms bi_field bi_part_id]; try (unfold fits; lia).
    + repeat constructor; cbn; lia.
    + repeat constructor; cbn; lia.
    + cbn. lia.
    + vm_compute. reflexivity.
  - constructor; [|constructor]. repeat constructor; cbn;
      first [by exists [97]|by exists [98]|by exists [99]].
Qed.

Lemma index_parts_invariant_witness :
  builder_wf (index_part builder_new 7 0
    [mkToken [97] (Some [98]) 0 1; mkToken [97] (Some [98]) 2 1; mkToken [99] None 4 1]) /\
  index_part builder_new 7 0
    [mkToken [97] (Some [98]) 0 1; mkToken [97] (Some [98]) 2 1; mkToken [99] None 4 1] = builder.
Proof.
  split; [|vm_compute; reflexivity].
  apply (index_parts_invariant [(7, 0, [mkToken [97] (Some [98]) 0 1; mkToken [97] (Some [98]) 2 1; mkToken [99] None 4 1])]).
  - constructor; [|constructor]. split_and!; [split; lia..|]. split.
    + repeat constructor; cbn; try (set_solver); intros w [= <-]; set_solver.
    + repeat constructor; cbn; lia.
    + repeat constructor; cbn; lia.
    + cbn. lia.
  - cbn. lia.
Defined.

Lemma term_index_roundtrip_witness :
  exists ti tk, term_index_deserialize TermSample.bytes = Some ti /\ token_index_deserialize TermSample.bytes = Some tk /\
    tokens tk !! 1%nat = Some [98] /\
    term_index_match [mkMatchTerm 2 2] None false true true ti = Ok (Some [mkTermGroup 7 0 [mkTerm 2 2 4 1]]).
Proof.
  destruct (term_index_roundtrip builder sample_builder_wf) as (bs & ti & tk & Hs & Hti & Htk & _ & Hw & _ & Hm & _).
  - intros E. apply (f_equal size) in E. vm_compute in E. discriminate E.
  - exists ti, tk. unfold TermSample.bytes. rewrite Hs. split; [exact Hti|]. split; [exact Htk|]. split; [apply Hw; vm_compute; reflexivity|].
    rewrite Hm by (cbn; lia). vm_compute. reflexivity.
Defined.

Lemma search_words_exact_witness :
  term_index_match [mkMatchTerm 1 1] None false true true TermSample.index =
  Ok (Some [mkTermGroup 7 0 [mkTerm 0 1 0 1; mkTerm 0 1 2 1]]).
Proof.
  etransitivity; [apply (search_words_exact builder TermSample.bytes TermSample.index [mkMatchTerm 1 1] sample_builder_wf)|].
  - vm_compute. reflexivity.
  - vm_compute. reflexivity.
  - cbn. lia.
  - vm_compute. reflexivity.
Defined.

Lemma phrase_search_sound_witness :
  exists r, term_index_match ((fun w => get_match_term TermSample.index w None) <$> [[97]; [97]]) None true false false
    TermSample.index = Ok r /\ r <> None.
Proof.
  destruct (phrase_search_sound builder TermSample.bytes TermSample.index [[97]; [97]] sample_builder_wf) as (r & E & _ & Hr).
  - vm_compute. reflexivity.
  - vm_compute. reflexivity.
  - discriminate.
  - exists r. split; [exact E|].
    apply (Hr (mkBuilderItem 7 0 parts) [] [mkTerm 0 1 0 1; mkTerm 0 1 2 1] [mkTerm 2 2 4 1] [97] [[97]]).
    + by apply elem_of_cons; left.
    + reflexivity.
    + reflexivity.
    + repeat constructor; vm_compute; reflexivity.
    + constructor.
Defined.

(** Phrase search misses phrases: after a partial match fails, the term
    that ended it is not tried as the start of the phrase. The part with the
    words "a a c" has the phrase "a c", which is not found. *)
Theorem phrase_search_misses :
  term_id <$> parts = [0] ++ [0; 2] ++ [] /\
  (fun w => mt_id (get_match_term TermSample.index w None)) <$> [[97]; [99]] = [0; 2] /\
  term_index_match ((fun w => get_match_term TermSample.index w None) <$> [[97]; [99]]) None true false false
    TermSample.index = Ok None.
Proof. split_and!; vm_compute; reflexivity. Qed.
