(* ===== verification/Nlp.v ===== *)
(** * Text analysis: components/store/src/nlp/tokenizers, nlp/stemmer.rs,
      nlp/search_snippet.rs

    A text is the list of its characters (Unicode scalar values); offsets and
    lengths count UTF-8 bytes, as in Rust. The tokenizers and the stemmer yield
    the words of a text with their offsets; [generate_snippet] marks matched
    words in a piece of the text that has them. The character classes of the
    Unicode tables, the Snowball stemmers and the Chinese and Japanese
    segmenters are classes. *)

From S2P Require Import Prelude Lang Leb128 Serialize Types TermIndex.

(** ** Characters and strings *)

Class Unicode := {
  is_alphanumeric : Z -> bool;
  is_uppercase : Z -> bool;
  is_whitespace : Z -> bool;
  to_lowercase : list Z -> list Z
}.

Definition is_char (c : Z) : Prop := 0 <= c < 0xD800 \/ 0xE000 <= c < 0x110000.

Definition encode_utf8 (c : Z) : list Z :=
  if c <? 0x80 then [c]
  else if c <? 0x800 then [0xC0 + c / 2 ^ 6; 0x80 + c mod 2 ^ 6]
  else if c <? 0x10000 then [0xE0 + c / 2 ^ 12; 0x80 + c / 2 ^ 6 mod 2 ^ 6; 0x80 + c mod 2 ^ 6]
  else [0xF0 + c / 2 ^ 18; 0x80 + c / 2 ^ 12 mod 2 ^ 6; 0x80 + c / 2 ^ 6 mod 2 ^ 6; 0x80 + c mod 2 ^ 6].

(** [as_bytes]. *)
Definition str_bytes (s : list Z) : list Z := s ≫= encode_utf8.

(** The characters before a byte offset, and the others; no result inside a
    character or past the end. *)
Fixpoint split_at (s : list Z) (offset : Z) : option (list Z * list Z) :=
  if offset =? 0 then Some ([], s)
  else
    match s with
    | [] => None
    | c :: s =>
        if offset <? len_utf8 c then None
        else '(hd, tl) ← split_at s (offset - len_utf8 c); Some (c :: hd, tl)
    end.
(** [text.get(first..last)]. *)
Definition str_get (s : list Z) (first last : Z) : option (list Z) :=
  if last <? first then None
  else
    '(_, tl) ← split_at s first;
    '(hd, _) ← split_at tl (last - first);
    Some hd.

Fixpoint char_indices (pos : Z) (s : list Z) : list (Z * Z) :=
  match s with [] => [] | c :: s => (pos, c) :: char_indices (pos + len_utf8 c) s end.

(** ** Tokenizers *)

Record Token : Set := mkWord { wd_word : list Z; wd_offset : Z; wd_len : Z }.
(** [Token::new]: the casts truncate. *)
Definition token_new (offset len : Z) (word : list Z) : Token := mkWord word (u32 offset) (u8 len).

Section Tokenizers.
Context `{Unicode}.

(** [filter_map(..).next()] on the iterator: the position of the first character
    that ends the word, which is consumed, with a flag updated on the way. *)
Fixpoint token_end (flag : bool) (mark : Z -> bool) (text_len : Z) (it : list (Z * Z))
    : Z * bool * list (Z * Z) :=
  match it with
  | [] => (text_len, flag, [])
  | (pos, ch) :: it =>
      if is_alphanumeric ch then token_end (flag || mark ch) mark text_len it else (pos, flag, it)
  end.

(** The items of [IndoEuropeanTokenizer]; every round consumes a character. *)
Fixpoint indo_european_loop (fuel : nat) (max_token_length : Z) (text : list Z) (it : list (Z * Z))
    : res (list Token) :=
  match fuel, it with
  | O, _ | _, [] => Ok []
  | S fuel, (token_start, ch) :: it =>
      if is_alphanumeric ch then
        let '(token_end, is_upper, it) := token_end (is_uppercase ch) is_uppercase (str_len text) it in
        let token_len := token_end - token_start in
        if (token_start <? token_end) && (token_len <=? max_token_length) then
          word ← unwrap (str_get text token_start token_end);
          tokens ← indo_european_loop fuel max_token_length text it;
          Ok (token_new token_start token_len (if is_upper then to_lowercase word else word) :: tokens)
        else indo_european_loop fuel max_token_length text it
      else indo_european_loop fuel max_token_length text it
  end.
Definition indo_european_tokens (max_token_length : Z) (text : list Z) : res (list Token) :=
  indo_european_loop (length text) max_token_length text (char_indices 0 text).

Definition is_ascii (c : Z) : bool := c <? 128.

(** The items of [WordTokenizer]: a word and [is_ascii], which does not look at
    the first character of the word. *)
Fixpoint word_loop (fuel : nat) (text : list Z) (it : list (Z * Z)) : res (list (Token * bool)) :=
  match fuel, it with
  | O, _ | _, [] => Ok []
  | S fuel, (token_start, ch) :: it =>
      if is_alphanumeric ch then
        let '(token_end, not_ascii, it) := token_end false (fun ch => negb (is_ascii ch)) (str_len text) it in
        let token_len := token_end - token_start in
        if token_start <? token_end then
          word ← unwrap (str_get text token_start token_end);
          tokens ← word_loop fuel text it;
          Ok ((token_new token_start token_len word, negb not_ascii) :: tokens)
        else word_loop fuel text it
      else word_loop fuel text it
  end.
Definition word_tokens (text : list Z) : res (list (Token * bool)) :=
  word_loop (length text) text (char_indices 0 text).

(** The pieces of a word, at their place in it. *)
Fixpoint piece_tokens (max_token_length token_offset token_len_cur : Z) (pieces : list (list Z)) : list Token :=
  match pieces with
  | [] => []
  | piece :: pieces =>
      let rest := piece_tokens max_token_length token_offset (token_len_cur + str_len piece) pieces in
      if str_len piece <=? max_token_length
      then token_new (token_offset + token_len_cur) (str_len piece) piece :: rest
      else rest
  end.
(** The items of [ChineseTokenizer] and [JapaneseTokenizer], by segmenter. *)
Fixpoint segment_words (segment : list Z -> list (list Z)) (max_token_length : Z) (words : list (Token * bool))
    : list Token :=
  match words with
  | [] => []
  | (token, is_ascii) :: words =>
      (if negb is_ascii then piece_tokens max_token_length (wd_offset token) 0 (segment (wd_word token))
       else if wd_len token <=? max_token_length then [token] else []) ++
      segment_words segment max_token_length words
  end.
End Tokenizers.

(** ** Stemming *)

Inductive Algorithm : Set :=
| Arabic | Danish | Dutch | EnglishAlg | Finnish | French | German | Greek | Hungarian | Italian
| Norwegian | Portuguese | Romanian | Russian | Spanish | Swedish | Tamil | Turkish.

Definition STEMMER_MAP : list (option Algorithm) :=
  [None; Some EnglishAlg; Some Russian; None; Some Spanish; Some Portuguese; Some Italian; None; Some French;
   Some German; None; None; Some Arabic; None; None; None; None; None; None; None; None; Some Norwegian;
   Some Danish; Some Swedish; Some Finnish; Some Turkish; Some Dutch; Some Hungarian; None; Some Greek; None;
   None; None; None; Some Romanian; None; None; None; None; None; None; None; Some Tamil] ++
  replicate 27 None.

(** [rust_stemmers] ([inl] for a borrowed result), [jieba_rs] and [tinysegmenter]. *)
Class Linguistics := {
  snowball : Algorithm -> list Z -> list Z + list Z;
  jieba_cut : list Z -> list (list Z);
  tinysegmenter : list Z -> list (list Z)
}.

Section Stemmer.
Context `{Unicode} `{Linguistics}.

Definition tokenizer_tokens (text : list Z) (language : Language) (max_token_length : Z) : res (list Token) :=
  if bool_decide (language = Japanese) then
    segment_words tinysegmenter max_token_length <$> word_tokens text
  else if bool_decide (language = Mandarin) then
    segment_words jieba_cut max_token_length <$> word_tokens text
  else indo_european_tokens max_token_length text.

Definition stem_token (stemmer : option Algorithm) (token : Token) : StemmedToken :=
  mkToken (str_bytes (wd_word token))
    (algorithm ← stemmer;
     match snowball algorithm (wd_word token) with
     | inr text =>
         if negb (str_len text =? wd_len token) || negb (bool_decide (text = wd_word token))
         then Some (str_bytes text) else None
     | inl _ => None
     end)
    (wd_offset token) (wd_len token).

(** The items of [Stemmer::new(text, language, max_token_length)]. *)
Definition stemmer_tokens (text : list Z) (language : Language) (max_token_length : Z) : res (list StemmedToken) :=
  stemmer ← unwrap (STEMMER_MAP !! Z.to_nat (Language.code language));
  tokens ← tokenizer_tokens text language max_token_length;
  Ok (map (stem_token stemmer) tokens).
End Stemmer.

(** ** Search snippets *)

Section Snippet.
Context `{Unicode}.

Definition escape_char (c : Z) : list Z :=
  if c =? 38 then [38; 97; 109; 112; 59]
  else if c =? 60 then [38; 108; 116; 59]
  else if c =? 62 then [38; 103; 116; 59]
  else if c =? 34 then [38; 113; 117; 111; 116; 59]
  else if (c =? 10) || (c =? 13) then [32]
  else [c].
Definition escape_char_len (c : Z) : Z :=
  if c =? 38 then 5 else if c =? 60 then 4 else if c =? 62 then 4 else if c =? 34 then 6
  else if (c =? 13) || (c =? 10) then 1 else len_utf8 c.

(** The start of the context before the first match: up to two words or forty bytes. *)
Fixpoint context_loop (start_offset : Z) (it : list (Z * Z)) (word_count from_offset : Z) (last_is_space : bool) : Z :=
  match it with
  | [] => from_offset
  | (pos, ch) :: it =>
      if is_whitespace ch && negb last_is_space && (word_count + 1 =? 3) then from_offset
      else
        let word_count := if is_whitespace ch && negb last_is_space then word_count + 1 else word_count in
        if 40 <=? start_offset - pos then pos
        else context_loop start_offset it word_count pos (is_whitespace ch)
  end.

(** Copying with runs of white space reduced to one. *)
Fixpoint copy_loop (last_is_space : bool) (chars snippet : list Z) : list Z :=
  match chars with
  | [] => snippet
  | ch :: chars =>
      if is_whitespace ch && last_is_space then copy_loop last_is_space chars snippet
      else copy_loop (is_whitespace ch) chars (snippet ++ escape_char ch)
  end.
(** The same up to 255 bytes; the flag is [break 'outer]. *)
Fixpoint limited_loop (last_is_space : bool) (chars snippet : list Z) : list Z * bool :=
  match chars with
  | [] => (snippet, false)
  | ch :: chars =>
      if is_whitespace ch && last_is_space then limited_loop last_is_space chars snippet
      else if str_len snippet + escape_char_len ch <=? 255
      then limited_loop (is_whitespace ch) chars (snippet ++ escape_char ch)
      else (snippet, true)
  end.

Definition MARK : list Z := [60; 109; 97; 114; 107; 62].
Definition END_MARK : list Z := [60; 47; 109; 97; 114; 107; 62].

Fixpoint terms_loop (text : list Z) (terms : list Term) (snippet : list Z) : option (list Z) :=
  match terms with
  | [] => Some snippet
  | term :: terms =>
      if 255 <? str_len snippet + 6 * 2 + term_len term + 1 then Some snippet
      else
        word ← str_get text (term_offset term) (term_offset term + term_len term);
        let snippet := snippet ++ MARK ++ word ++ END_MARK in
        let next_offset := match terms with next_term :: _ => term_offset next_term | [] => str_len text end in
        between ← str_get text (term_offset term + term_len term) next_offset;
        let '(snippet, stop) := limited_loop false between snippet in
        if stop then Some snippet else terms_loop text terms snippet
  end.

Definition generate_snippet (terms : list Term) (text : list Z) : option (list Z) :=
  start_offset ← term_offset <$> head terms;
  snippet ←
    (if 0 <? start_offset then
       from_offset ←
         (if 240 <? str_len text then
            before ← str_get text 0 start_offset;
            Some (context_loop start_offset (rev (char_indices 0 before)) 0 0 false)
          else Some 0);
       before ← str_get text from_offset start_offset;
       Some (copy_loop false before [])
     else Some []);
  terms_loop text terms snippet.
End Snippet.

(** ** Strings *)

Lemma len_utf8_range c : 1 <= len_utf8 c <= 4.
Proof. unfold len_utf8. repeat case_match; lia. Qed.
Lemma str_len_nonneg s : 0 <= str_len s.
Proof. induction s as [|c s IH]; cbn; [lia|]. pose proof (len_utf8_range c). lia. Qed.
Lemma str_len_app s t : str_len (s ++ t) = str_len s + str_len t.
Proof. induction s as [|c s IH]; cbn; [done|]. lia. Qed.
Lemma str_len_length s : Z.of_nat (length s) <= str_len s.
Proof. induction s as [|c s IH]; cbn [str_len length]; [lia|]. pose proof (len_utf8_range c). lia. Qed.

Lemma split_at_app s t : split_at (s ++ t) (str_len s) = Some (s, t).
Proof.
  induction s as [|c s IH]; cbn [app str_len]; [by destruct t|]. cbn [split_at].
  pose proof (len_utf8_range c). pose proof (str_len_nonneg s).
  rewrite (proj2 (Z.eqb_neq _ 0)) by lia. rewrite (proj2 (Z.ltb_ge _ _)) by lia.
  replace (len_utf8 c + str_len s - len_utf8 c) with (str_len s) by lia. by rewrite IH.
Qed.
Lemma split_at_inv s o hd tl : split_at s o = Some (hd, tl) -> s = hd ++ tl /\ str_len hd = o.
Proof.
  revert o hd. induction s as [|c s IH]; intros o hd; cbn [split_at]; destruct (Z.eqb_spec o 0) as [->|].
  - by intros [= <- <-].
  - done.
  - by intros [= <- <-].
  - destruct (o <? len_utf8 c); [done|]. destruct (split_at s (o - len_utf8 c)) as [[hd' tl']|] eqn:E; [|done].
    intros [= <- <-]. apply IH in E as [-> E]. cbn. split; [done|]. lia.
Qed.

Lemma str_get_iff s i j w :
  str_get s i j = Some w <-> exists a b, s = a ++ w ++ b /\ str_len a = i /\ i + str_len w = j.
Proof.
  unfold str_get. split.
  - destruct (Z.ltb_spec j i); [done|]. destruct (split_at s i) as [[a tl]|] eqn:E1; [|done].
    apply split_at_inv in E1 as [-> E1]. cbn [mbind option_bind].
    destruct (split_at tl (j - i)) as [[hd b]|] eqn:E2; [|done]. apply split_at_inv in E2 as [-> E2].
    intros [= ->]. exists a, b. split_and!; [done..|lia].
  - intros (a & b & -> & <- & <-). pose proof (str_len_nonneg w). rewrite (proj2 (Z.ltb_ge _ _)) by lia.
    rewrite split_at_app. cbn [mbind option_bind]. replace (str_len a + str_len w - str_len a) with (str_len w) by lia.
    by rewrite split_at_app.
Qed.

Lemma char_indices_app pos s t :
  char_indices pos (s ++ t) = char_indices pos s ++ char_indices (pos + str_len s) t.
Proof.
  revert pos. induction s as [|c s IH]; intros pos; cbn; [by rewrite Z.add_0_r|]. by rewrite IH, Z.add_assoc.
Qed.

Lemma encode_utf8_length c : Z.of_nat (length (encode_utf8 c)) = len_utf8 c.
Proof. unfold encode_utf8, len_utf8. by repeat case_match. Qed.
Lemma str_bytes_length s : Z.of_nat (length (str_bytes s)) = str_len s.
Proof.
  induction s as [|c s IH]; [done|]. unfold str_bytes in *. cbn [mbind list_bind str_len].
  rewrite length_app, Nat2Z.inj_add, encode_utf8_length, IH. done.
Qed.

(** Encoding gives well-formed UTF-8, without NUL if no character is NUL. *)
Lemma in_range_true lo hi b : lo <= b <= hi -> in_range lo hi b = true.
Proof. intros Hb. unfold in_range. apply andb_true_iff. split; apply Z.leb_le; lia. Qed.
Lemma in_range_false lo hi b : b < lo \/ hi < b -> in_range lo hi b = false.
Proof. intros Hb. unfold in_range. apply andb_false_iff. destruct Hb; [left|right]; apply Z.leb_gt; lia. Qed.

Lemma utf8_valid_encode c rest : is_char c -> utf8_valid (encode_utf8 c ++ rest) = utf8_valid rest.
Proof.
  intros Hc. unfold encode_utf8, is_char in *.
  pose proof (Z.mod_pos_bound c (2 ^ 6) ltac:(lia)). pose proof (Z.mod_pos_bound (c / 2 ^ 6) (2 ^ 6) ltac:(lia)).
  pose proof (Z.mod_pos_bound (c / 2 ^ 12) (2 ^ 6) ltac:(lia)).
  destruct (Z.ltb_spec c 0x80); [cbn [app utf8_valid]; by rewrite in_range_true by lia|].
  destruct (Z.ltb_spec c 0x800).
  { assert (2 <= c / 2 ^ 6 < 32) by (split; [apply Z.div_le_lower_bound; lia|apply Z.div_lt_upper_bound; lia]).
    cbn [app utf8_valid]. rewrite in_range_false, !in_range_true by lia. done. }
  destruct (Z.ltb_spec c 0x10000).
  { assert (0 <= c / 2 ^ 12 < 16) by (split; [apply Z.div_le_lower_bound; lia|apply Z.div_lt_upper_bound; lia]).
    assert (c / 2 ^ 6 mod 2 ^ 6 = c / 2 ^ 6 - 64 * (c / 2 ^ 12)) as Hm.
    { rewrite Z.mod_eq by lia. rewrite Z.div_div by lia. done. }
    assert (c / 2 ^ 6 = (c - c mod 2 ^ 6) / 2 ^ 6) by (rewrite Z.mod_eq by lia; replace (c - (c - 2 ^ 6 * (c / 2 ^ 6))) with (c / 2 ^ 6 * 2 ^ 6) by lia; by rewrite Z.div_mul by lia).
    pose proof (Z.div_mod c (2 ^ 6) ltac:(lia)).
    cbn [app utf8_valid]. rewrite in_range_false, in_range_false, (in_range_true 0xE0 0xEF) by lia.
    rewrite (in_range_true 0x80 0xBF (0x80 + c mod 2 ^ 6)) by lia. rewrite in_range_true; [done|].
    split; [destruct (Z.eqb_spec (0xE0 + c / 2 ^ 12) 0xE0); lia|destruct (Z.eqb_spec (0xE0 + c / 2 ^ 12) 0xED); lia]. }
  assert (0 <= c / 2 ^ 18 <= 4) by (split; [apply Z.div_le_lower_bound; lia|]; apply Z.lt_succ_r; apply Z.div_lt_upper_bound; lia).
  assert (c / 2 ^ 12 mod 2 ^ 6 = c / 2 ^ 12 - 64 * (c / 2 ^ 18)) as Hm.
  { rewrite Z.mod_eq by lia. rewrite Z.div_div by lia. done. }
  assert (16 <= c / 2 ^ 12 < 272) by (split; [apply Z.div_le_lower_bound; lia|apply Z.div_lt_upper_bound; lia]).
  cbn [app utf8_valid]. rewrite !in_range_false by lia. rewrite (in_range_true 0xF0 0xF4) by lia.
  rewrite !(in_range_true 0x80 0xBF) by lia. rewrite in_range_true; [done|].
  split; [destruct (Z.eqb_spec (0xF0 + c / 2 ^ 18) 0xF0); lia|destruct (Z.eqb_spec (0xF0 + c / 2 ^ 18) 0xF4); lia].
Qed.

Lemma encode_utf8_nonzero c : is_char c -> c <> 0 -> 0 ∉ encode_utf8 c.
Proof.
  intros Hc Hn. unfold encode_utf8, is_char in *.
  assert (forall a n, 0 <= a -> 0 < n -> 0 <= a / n) as Hd by (intros; by apply Z.div_pos).
  assert (forall a n, 0 < n -> 0 <= a mod n) as Hm by (intros; by apply Z.mod_pos_bound).
  pose proof (Hd c (2 ^ 6)). pose proof (Hd c (2 ^ 12)). pose proof (Hd c (2 ^ 18)).
  pose proof (Hm c (2 ^ 6)). pose proof (Hm (c / 2 ^ 6) (2 ^ 6)). pose proof (Hm (c / 2 ^ 12) (2 ^ 6)).
  repeat case_match; rewrite !elem_of_cons, elem_of_nil; lia.
Qed.

Lemma str_bytes_ok s : Forall (fun c => is_char c /\ c <> 0) s -> word_ok (str_bytes s).
Proof.
  induction 1 as [|c s [Hc Hn] _ [IHv IHz]]; [split; [done|apply not_elem_of_nil]|].
  unfold str_bytes in *. cbn [mbind list_bind]. split; [by rewrite utf8_valid_encode|].
  rewrite elem_of_app. intros [?|?]; [by eapply encode_utf8_nonzero|done].
Qed.

(** ** Words: maximal runs of alphanumeric characters *)

Section Words.
Context `{Unicode}.

Definition emit (pos : Z) (run : list Z) : list (Z * list Z) :=
  match run with [] => [] | _ => [(pos - str_len run, run)] end.
(** The runs of a text that starts at byte [pos], after the characters [run] of an open run. *)
Fixpoint runs (pos : Z) (run text : list Z) : list (Z * list Z) :=
  match text with
  | [] => emit pos run
  | c :: text =>
      if is_alphanumeric c then runs (pos + len_utf8 c) (run ++ [c]) text
      else emit pos run ++ runs (pos + len_utf8 c) [] text
  end.
Definition text_runs (text : list Z) : list (Z * list Z) := runs 0 [] text.

Fixpoint word_of (text : list Z) : list Z :=
  match text with [] => [] | c :: text => if is_alphanumeric c then c :: word_of text else [] end.
Fixpoint after_word (text : list Z) : list Z :=
  match text with [] => [] | c :: text => if is_alphanumeric c then after_word text else c :: text end.

Lemma word_split text : text = word_of text ++ after_word text.
Proof. induction text as [|c text IH]; cbn; [done|]. destruct (is_alphanumeric c); [|done]. cbn. by rewrite <- IH. Qed.
Lemma word_alphanumeric text : forallb is_alphanumeric (word_of text) = true.
Proof. induction text as [|c text IH]; cbn; [done|]. destruct (is_alphanumeric c) eqn:Ec; [|done]. cbn. by rewrite Ec. Qed.
Lemma after_word_head text c rest : after_word text = c :: rest -> is_alphanumeric c = false.
Proof.
  induction text as [|b text IH]; cbn; [done|]. destruct (is_alphanumeric b) eqn:Eb; [done|]. by intros [= <- _].
Qed.

Lemma runs_word pos run text :
  runs pos run text = emit (pos + str_len (word_of text)) (run ++ word_of text) ++
    match after_word text with
    | [] => []
    | c :: rest => runs (pos + str_len (word_of text) + len_utf8 c) [] rest
    end.
Proof.
  revert pos run. induction text as [|c text IH]; intros pos run; cbn [runs word_of after_word str_len].
  - by rewrite Z.add_0_r, !app_nil_r.
  - destruct (is_alphanumeric c); cbn [str_len]; [|by rewrite Z.add_0_r, app_nil_r].
    rewrite IH, <- app_assoc. cbn [app]. by rewrite !Z.add_assoc.
Qed.

Lemma token_end_word flag mark pos text text_len :
  pos + str_len text = text_len ->
  token_end flag mark text_len (char_indices pos text) =
  (pos + str_len (word_of text), flag || existsb mark (word_of text),
   match after_word text with [] => [] | c :: rest => char_indices (pos + str_len (word_of text) + len_utf8 c) rest end).
Proof.
  revert flag pos. induction text as [|c text IH]; intros flag pos Hl; cbn [char_indices token_end word_of after_word str_len existsb] in *.
  - by rewrite Hl, orb_false_r.
  - destruct (is_alphanumeric c); cbn [str_len existsb].
    + rewrite IH by lia. by rewrite orb_assoc, !Z.add_assoc.
    + by rewrite Z.add_0_r, orb_false_r.
Qed.

(** What a word contributes: its token if it is short enough. *)
Definition lower_word (run : list Z) : list Z := if existsb is_uppercase run then to_lowercase run else run.
Definition run_token (max_token_length : Z) (r : Z * list Z) : list Token :=
  if str_len r.2 <=? max_token_length then [token_new r.1 (str_len r.2) (lower_word r.2)] else [].

Lemma indo_european_loop_runs fuel max a text :
  (length text <= fuel)%nat ->
  indo_european_loop fuel max (a ++ text) (char_indices (str_len a) text) =
  Ok (runs (str_len a) [] text ≫= run_token max).
Proof.
  revert a text. induction fuel as [|fuel IH]; intros a [|c text] Hf; cbn [length] in Hf; try done; [lia|].
  cbn [char_indices indo_european_loop runs app].
  assert (forall w c' rest, text = w ++ c' :: rest ->
    indo_european_loop fuel max (a ++ c :: text) (char_indices (str_len a + len_utf8 c + str_len w + len_utf8 c') rest) =
    Ok (runs (str_len a + len_utf8 c + str_len w + len_utf8 c') [] rest ≫= run_token max)) as Hrest.
  { intros w c' rest ->. specialize (IH (a ++ c :: w ++ [c']) rest). rewrite length_app in Hf. cbn [length] in Hf.
    rewrite <- !app_assoc in IH. cbn [app] in IH. rewrite <- app_assoc, !str_len_app in IH. cbn [app str_len] in IH.
    rewrite str_len_app in IH. cbn [str_len] in IH.
    replace (str_len a + len_utf8 c + str_len w + len_utf8 c') with
      (str_len a + (len_utf8 c + (str_len w + (len_utf8 c' + 0)))) by lia. apply IH. lia. }
  destruct (is_alphanumeric c) eqn:Ec.
  - rewrite token_end_word by (rewrite str_len_app; cbn [str_len]; lia).
    rewrite runs_word. cbn [app].
    set (w := word_of text) in *. set (rest := after_word text) in *.
    assert (text = w ++ rest) as Ht by apply word_split.
    assert (emit (str_len a + len_utf8 c + str_len w) (c :: w) = [(str_len a, c :: w)]) as ->
      by (cbn [emit str_len]; do 2 f_equal; lia).
    assert (indo_european_loop fuel max (a ++ c :: text)
      match rest with [] => [] | c' :: rest => char_indices (str_len a + len_utf8 c + str_len w + len_utf8 c') rest end =
      Ok (match rest with [] => [] | c' :: rest => runs (str_len a + len_utf8 c + str_len w + len_utf8 c') [] rest end ≫= run_token max)) as Hr.
    { destruct rest as [|c' rest']; [by destruct fuel|]. by apply Hrest. }
    rewrite bind_app. cbn [mbind list_bind app]. unfold run_token at 1. cbn [fst snd str_len existsb lower_word].
    pose proof (len_utf8_range c). pose proof (str_len_nonneg w).
    rewrite (proj2 (Z.ltb_lt _ _)) by lia. cbn [andb].
    replace (str_len a + len_utf8 c + str_len w - str_len a) with (len_utf8 c + str_len w) by lia.
    destruct (len_utf8 c + str_len w <=? max); [|exact Hr].
    assert (str_get (a ++ c :: text) (str_len a) (str_len a + len_utf8 c + str_len w) = Some (c :: w)) as ->.
    { apply str_get_iff. exists a, rest. split; [rewrite Ht; done|]. split; [done|]. cbn [str_len]. lia. }
    cbn [unwrap mbind res_bind]. rewrite Hr. done.
  - cbn [emit app]. specialize (IH (a ++ [c]) text ltac:(lia)). rewrite <- app_assoc, str_len_app in IH.
    cbn [app str_len] in IH. by rewrite Z.add_0_r in IH.
Qed.

Lemma indo_european_tokens_runs max text :
  indo_european_tokens max text = Ok (text_runs text ≫= run_token max).
Proof. apply (indo_european_loop_runs (length text) max [] text). done. Qed.
(** A maximal run at byte [start] of the text. *)
Definition maximal_run (text : list Z) (start : Z) (run : list Z) : Prop :=
  run <> [] /\ forallb is_alphanumeric run = true /\
  exists a b, text = a ++ run ++ b /\ str_len a = start /\
    (forall c, last a = Some c -> is_alphanumeric c = false) /\
    (forall c, head b = Some c -> is_alphanumeric c = false).

Lemma emit_elem pos run s r : (s, r) ∈ emit pos run <-> run <> [] /\ s = pos - str_len run /\ r = run.
Proof.
  destruct run as [|c run]; cbn [emit]; [rewrite elem_of_nil; naive_solver|].
  rewrite list_elem_of_singleton. split; [intros [= -> ->]; done|intros (_ & -> & ->); done].
Qed.

Lemma runs_sound a run text s r :
  forallb is_alphanumeric run = true -> (forall c, last a = Some c -> is_alphanumeric c = false) ->
  (s, r) ∈ runs (str_len (a ++ run)) run text -> maximal_run (a ++ run ++ text) s r.
Proof.
  assert (forall a run b, run <> [] -> forallb is_alphanumeric run = true ->
    (forall c, last a = Some c -> is_alphanumeric c = false) -> (forall c, head b = Some c -> is_alphanumeric c = false) ->
    maximal_run (a ++ run ++ b) (str_len (a ++ run) - str_len run) run) as Hemit.
  { intros a0 r0 b Hne Hr Ha Hb. split_and!; [done..|]. exists a0, b. split_and!; try done. rewrite str_len_app. lia. }
  revert a run. induction text as [|c text IH]; intros a run Hr Ha; cbn [runs].
  - intros (Hne & -> & ->)%emit_elem. by apply Hemit.
  - destruct (is_alphanumeric c) eqn:Ec.
    + intros Hin. specialize (IH a (run ++ [c])). rewrite app_assoc, str_len_app in IH. cbn [str_len] in IH.
      rewrite Z.add_0_r, <- (app_assoc run) in IH. apply IH; [by rewrite forallb_app, Hr; cbn; rewrite Ec|done|done].
    + rewrite elem_of_app. intros [(Hne & -> & ->)%emit_elem|Hin].
      * apply Hemit; try done. by intros ? [= <-].
      * specialize (IH (a ++ run ++ [c]) []). rewrite app_nil_r, !str_len_app in IH. cbn [str_len app] in IH.
        rewrite Z.add_0_r, <- !app_assoc in IH. cbn [app] in IH. apply IH; [done| |by rewrite str_len_app, <- Z.add_assoc in Hin].
        rewrite app_assoc, last_snoc. by intros ? [= <-].
Qed.

Lemma alnum_app l k : forallb is_alphanumeric (l ++ k) = true <-> forallb is_alphanumeric l = true /\ forallb is_alphanumeric k = true.
Proof. by rewrite forallb_app, andb_true_iff. Qed.

(** A maximal run that starts inside a run is that run. *)
Lemma run_unique run text a' r b :
  forallb is_alphanumeric run = true -> (forall c, head text = Some c -> is_alphanumeric c = false) ->
  run ++ text = a' ++ r ++ b -> r <> [] -> forallb is_alphanumeric r = true ->
  (forall c, last a' = Some c -> is_alphanumeric c = false) -> (forall c, head b = Some c -> is_alphanumeric c = false) ->
  (length a' < length run \/ a' = [])%nat -> a' = [] /\ r = run.
Proof.
  intros Hrun Htext Heq Hne Hr Ha Hb Hlen.
  assert (a' = []) as ->.
  { destruct Hlen as [Hlen|?]; [|done]. apply app_eq_inv in Heq as [(k & Hk & _)|(k & Hk & _)].
    - destruct (decide (a' = [])) as [|Hn]; [done|]. apply last_is_Some in Hn as [c Hc]. pose proof (Ha c Hc) as Hf.
      apply last_Some in Hc as [l ->]. rewrite Hk, !alnum_app in Hrun. cbn in Hrun. rewrite Hf in Hrun. naive_solver.
    - apply (f_equal length) in Hk. rewrite length_app in Hk. lia. }
  split; [done|]. cbn [app] in Heq. apply app_eq_inv in Heq as [(k & Hk & Hk')|(k & Hk & Hk')].
  - destruct k as [|c k]; [by rewrite app_nil_r in Hk|]. rewrite Hk, alnum_app in Hrun. cbn in Hrun.
    rewrite (Hb c) in Hrun by (rewrite Hk'; done). naive_solver.
  - destruct k as [|c k]; [by rewrite app_nil_r in Hk|]. rewrite Hk, alnum_app in Hr. cbn in Hr.
    rewrite (Htext c) in Hr by (rewrite Hk'; done). naive_solver.
Qed.

Lemma runs_complete a run text s r :
  forallb is_alphanumeric run = true -> str_len a <= s -> maximal_run (a ++ run ++ text) s r ->
  (s, r) ∈ runs (str_len (a ++ run)) run text.
Proof.
  revert a run. induction text as [|c text IH]; intros a run Hrun Hs Hm; cbn [runs].
  - destruct Hm as (Hne & Hr & a1 & b & Heq & <- & Ha & Hb). rewrite app_nil_r in Heq. apply emit_elem.
    assert (exists a', a1 = a ++ a') as [a' ->].
    { apply app_eq_inv in Heq as [(k & -> & _)|(k & -> & _)]; [|by exists k]. rewrite str_len_app in Hs.
      pose proof (str_len_length k). destruct k as [|]; [exists []; by rewrite !app_nil_r|cbn [length] in *; lia]. }
    rewrite <- app_assoc in Heq. apply app_inv_head in Heq.
    destruct (run_unique run [] a' r b) as [-> ->]; try done; [by rewrite app_nil_r|..].
    { intros x Hx. apply Ha. rewrite last_app, Hx. done. }
    { apply (f_equal length) in Heq. rewrite !length_app in Heq. destruct r; [done|]. cbn in Heq. left. lia. }
    rewrite app_nil_r, str_len_app. split; [done|]. split; [lia|done].
  - destruct (is_alphanumeric c) eqn:Ec.
    + specialize (IH a (run ++ [c])).
      assert (str_len (a ++ run ++ [c]) = str_len (a ++ run) + len_utf8 c) as E by (rewrite !str_len_app; cbn; lia).
      rewrite E, <- (app_assoc run) in IH. apply IH; [by rewrite alnum_app; cbn; rewrite Ec|done|done].
    + pose proof Hm as (Hne & Hr & a1 & b & Heq & Hs1 & Ha & Hb).
      assert (exists a', a1 = a ++ a') as [a' ->].
      { apply app_eq_inv in Heq as [(k & -> & _)|(k & -> & _)]; [|by exists k]. rewrite <- Hs1, str_len_app in Hs.
        pose proof (str_len_length k). destruct k as [|]; [exists []; by rewrite !app_nil_r|cbn [length] in *; lia]. }
      rewrite <- app_assoc in Heq. apply app_inv_head in Heq. apply elem_of_app.
      destruct (decide (length a' < length run \/ a' = [])%nat) as [Hlt|Hge].
      * left. destruct (run_unique run (c :: text) a' r b) as [-> ->]; try done.
        { by intros ? [= <-]. }
        { intros x Hx. apply Ha. rewrite last_app, Hx. done. }
        apply emit_elem. rewrite app_nil_r in Hs1. rewrite str_len_app. split; [done|]. split; [lia|done].
      * right. assert (exists k, a' = run ++ [c] ++ k) as [k ->].
        { apply app_eq_inv in Heq as [(k & -> & Hk)|(k & -> & Hk)].
          - rewrite length_app in Hge. assert (k = []) as -> by (destruct k; [done|exfalso; apply Hge; left; cbn; lia]).
            exfalso. destruct r as [|x r]; [done|]. injection Hk as -> _. cbn in Hr. by rewrite Ec in Hr.
          - destruct k as [|x k]; [|by injection Hk as -> _; exists k].
            exfalso. destruct r as [|x r]; [done|]. injection Hk as -> _. cbn in Hr. by rewrite Ec in Hr. }
        specialize (IH (a ++ run ++ [c]) []). rewrite app_nil_r in IH.
        assert (str_len (a ++ run ++ [c]) = str_len (a ++ run) + len_utf8 c) as E by (rewrite !str_len_app; cbn; lia).
        rewrite E, <- !app_assoc in IH. apply IH; [done| |done].
        rewrite <- Hs1, !str_len_app. cbn [str_len]. pose proof (str_len_nonneg k). lia.
Qed.

Lemma text_runs_elem text s r : (s, r) ∈ text_runs text <-> maximal_run text s r.
Proof.
  unfold text_runs. split.
  - apply (runs_sound [] [] text s r); done.
  - intros Hm. apply (runs_complete [] [] text s r); [done| |done]. destruct Hm as (_ & _ & a & b & _ & <- & _).
    apply str_len_nonneg.
Qed.

Lemma runs_above pos run text s r : (s, r) ∈ runs pos run text -> pos - str_len run <= s.
Proof.
  revert pos run. induction text as [|c text IH]; intros pos run; cbn [runs].
  - intros (_ & -> & _)%emit_elem. lia.
  - pose proof (len_utf8_range c). pose proof (str_len_nonneg run). destruct (is_alphanumeric c).
    + intros Hin%IH. rewrite str_len_app in Hin. cbn in Hin. lia.
    + rewrite elem_of_app. intros [(_ & -> & _)%emit_elem|Hin%IH]; [lia|]. cbn in Hin. lia.
Qed.
Lemma runs_sorted pos run text : StronglySorted (fun x y => x.1 < y.1) (runs pos run text).
Proof.
  revert pos run. induction text as [|c text IH]; intros pos run; cbn [runs].
  - destruct run; repeat constructor.
  - destruct (is_alphanumeric c); [done|]. destruct run as [|x run]; cbn [emit app]; [done|]. constructor; [done|].
    apply Forall_forall. intros [s r] Hin%runs_above. cbn [fst str_len] in *.
    pose proof (len_utf8_range c). pose proof (len_utf8_range x). pose proof (str_len_nonneg run). lia.
Qed.
End Words.

(** ** From a text to an index *)

(** Facts of the Unicode tables and of the stemmers: NUL is not alphanumeric,
    and lower case and stems are made of characters other than NUL. *)
Abbreviation char_ok := (fun c => is_char c /\ c <> 0).
Class UnicodeLaws `{Unicode} : Prop := {
  alphanumeric_nonzero : is_alphanumeric 0 = false;
  lowercase_ok s : Forall char_ok s -> Forall char_ok (to_lowercase s)
}.
Class LinguisticsLaws `{Linguistics} : Prop := {
  snowball_ok a s : Forall char_ok s -> Forall char_ok (match snowball a s with inl t | inr t => t end)
}.

Section Stemmed.
Context `{UnicodeLaws} `{LinguisticsLaws}.

Lemma alphanumeric_ok run : forallb is_alphanumeric run = true -> Forall is_char run -> Forall char_ok run.
Proof.
  rewrite forallb_forall, !Forall_forall. intros Ha Hc c Hin. split; [by apply Hc|]. intros ->.
  specialize (Ha 0 ltac:(by apply list_elem_of_In)). by rewrite alphanumeric_nonzero in Ha.
Qed.

Lemma runs_length pos run text : (length (runs pos run text) <= length run + length text)%nat.
Proof.
  revert pos run. induction text as [|c text IH]; intros pos run; cbn [runs length]; [destruct run; cbn; lia|].
  destruct (is_alphanumeric c).
  - specialize (IH (pos + len_utf8 c) (run ++ [c])). rewrite length_app in IH. cbn in IH. lia.
  - specialize (IH (pos + len_utf8 c) []). rewrite length_app. destruct run; cbn [emit length] in *; lia.
Qed.

Lemma run_tokens_length max l : (length (l ≫= run_token max) <= length l)%nat.
Proof.
  induction l as [|r l IH]; [done|]. cbn [mbind list_bind length]. rewrite length_app. unfold run_token at 1.
  case_match; cbn [length]; unfold mbind in *; lia.
Qed.

Lemma run_tokens_sorted max l :
  Forall (fun r => fits 32 r.1) l -> StronglySorted (fun x y => x.1 < y.1) l ->
  StronglySorted Z.le (wd_offset <$> (l ≫= run_token max)).
Proof.
  intros Hf. induction 1 as [|r l Hs IH Hr]; [constructor|]. apply Forall_cons in Hf as [Hf0 Hf].
  rewrite bind_cons, fmap_app. unfold run_token at 1. destruct (str_len r.2 <=? max); [|by apply IH].
  cbn [fmap list_fmap app]. constructor; [by apply IH|]. apply Forall_forall.
  intros o (t & -> & Ht)%list_elem_of_fmap. apply list_elem_of_bind in Ht as (r' & Ht & Hin). unfold run_token in Ht.
  destruct (str_len r'.2 <=? max); [|by apply not_elem_of_nil in Ht]. apply list_elem_of_singleton in Ht as ->.
  rewrite Forall_forall in Hr, Hf. specialize (Hr _ Hin). specialize (Hf _ Hin). cbn.
  rewrite !wrap_small by done. lia.
Qed.

Lemma text_runs_fits text : str_len text < 2 ^ 32 -> Forall (fun r => fits 32 r.1) (text_runs text).
Proof.
  intros Hl. apply Forall_forall. intros [s r] (_ & _ & a & b & -> & <- & _)%text_runs_elem. cbn [fst].
  rewrite !str_len_app in Hl. pose proof (str_len_nonneg a). pose proof (str_len_nonneg r). pose proof (str_len_nonneg b).
  unfold fits. lia.
Qed.

Lemma run_tokens_elem max text t :
  0 <= max <= 255 -> str_len text < 2 ^ 32 ->
  t ∈ (text_runs text ≫= run_token max) <->
  exists start run, maximal_run text start run /\ str_len run <= max /\ t = mkWord (lower_word run) start (str_len run).
Proof.
  intros Hm Hl. pose proof (text_runs_fits text Hl) as Hf. rewrite Forall_forall in Hf. split.
  - intros ([s r] & Ht & Hin)%list_elem_of_bind. specialize (Hf _ Hin). apply text_runs_elem in Hin. exists s, r.
    unfold run_token in Ht. cbn [fst snd] in *. destruct (Z.leb_spec (str_len r) max); [|by apply not_elem_of_nil in Ht].
    apply list_elem_of_singleton in Ht as ->. split_and!; [done..|]. unfold token_new. pose proof (str_len_nonneg r).
    rewrite !wrap_small; [done|unfold fits; lia|done].
  - intros (s & r & Hr & Hle & ->). apply text_runs_elem in Hr. specialize (Hf _ Hr). apply list_elem_of_bind.
    exists (s, r). split; [|done]. unfold run_token. cbn [fst snd] in *. rewrite (proj2 (Z.leb_le _ _)) by done.
    apply list_elem_of_singleton. unfold token_new. pose proof (str_len_nonneg r).
    rewrite !wrap_small; [done|unfold fits; lia|done].
Qed.

Lemma stem_token_word_ok stemmer t :
  Forall char_ok (wd_word t) ->
  word_ok (tk_word (stem_token stemmer t)) /\
  (forall w, tk_stemmed_word (stem_token stemmer t) = Some w -> word_ok w).
Proof.
  intros Hw. split; [by apply str_bytes_ok|]. intros w. cbn [stem_token tk_stemmed_word].
  destruct stemmer as [al|]; [|done]. cbn [mbind option_bind]. pose proof (snowball_ok al _ Hw) as Hs.
  destruct (snowball al (wd_word t)); [done|]. case_match; [|done]. intros [= <-]. by apply str_bytes_ok.
Qed.

Lemma stemmer_tokens_wf text language max :
  Forall is_char text -> 16 * str_len text < 2 ^ 32 -> 0 <= max <= 255 ->
  language <> Language.None_ -> language <> Japanese -> language <> Mandarin ->
  exists tokens, stemmer_tokens text language max = Ok tokens /\ tokens_wf tokens /\ (length tokens <= length text)%nat.
Proof.
  intros Hc Hl Hm Hlang Hj Hz. unfold stemmer_tokens, tokenizer_tokens.
  destruct (lookup_lt_is_Some_2 STEMMER_MAP (Z.to_nat (Language.code language))) as [stemmer ->].
  { change (length STEMMER_MAP) with 70%nat. pose proof (Language.code_range language).
    assert (Language.code language <> 70) by (intros E; by apply Hlang, Language.code_inj). lia. }
  cbn [unwrap mbind res_bind]. rewrite !bool_decide_false, indo_european_tokens_runs by done.
  cbn [mbind res_bind]. eexists. split; [done|].
  assert (length (map (stem_token stemmer) (text_runs text ≫= run_token max)) <= length text)%nat as Hlen.
  { rewrite length_map. pose proof (run_tokens_length max (text_runs text)). pose proof (runs_length 0 [] text).
    unfold text_runs in *. cbn [length] in *. lia. }
  split; [|done].
  assert (forall t, t ∈ (text_runs text ≫= run_token max) ->
    Forall char_ok (wd_word t) /\ fits 32 (wd_offset t) /\ is_byte (wd_len t)) as Ht.
  { intros t (s & r & (Hne & Hr & a & b & -> & <- & _) & Hle & ->)%run_tokens_elem; [|done|lia]. cbn [wd_word wd_offset wd_len].
    apply Forall_app in Hc as [_ [Hc _]%Forall_app]. pose proof (alphanumeric_ok r Hr Hc) as Hok.
    rewrite !str_len_app in Hl. pose proof (str_len_nonneg a). pose proof (str_len_nonneg r). pose proof (str_len_nonneg b).
    split_and!; [|unfold is_byte, fits; lia..]. unfold lower_word. case_match; [by apply lowercase_ok|done]. }
  split.
  - apply Forall_map, Forall_forall. intros t Hin. by apply stem_token_word_ok, Ht.
  - apply Forall_map, Forall_forall. intros t Hin. by apply Ht.
  - assert (forall l, tk_offset <$> map (stem_token stemmer) l = wd_offset <$> l) as ->.
    { induction l as [|t l IH]; [done|]. cbn [map]. rewrite !fmap_cons, IH. done. }
    apply run_tokens_sorted; [apply text_runs_fits; lia|apply runs_sorted].
  - pose proof (str_len_length text). lia.
Qed.
End Stemmed.

(** ** Snippets *)

Definition special (c : Z) : bool := (c =? 38) || (c =? 60) || (c =? 62) || (c =? 34).
Definition entities : list (list Z) :=
  [[38; 97; 109; 112; 59]; [38; 108; 116; 59]; [38; 103; 116; 59]; [38; 113; 117; 111; 116; 59]].
(** HTML text with words in [mark] elements and nothing else. *)
Inductive marked : list Z -> Prop :=
| marked_nil : marked []
| marked_plain c s : special c = false -> marked s -> marked (c :: s)
| marked_entity e s : e ∈ entities -> marked s -> marked (e ++ s)
| marked_word w s : Forall (fun c => special c = false) w -> marked s -> marked (MARK ++ w ++ END_MARK ++ s).

Lemma marked_app s t : marked s -> marked t -> marked (s ++ t).
Proof.
  induction 1 as [|c s Hc _ IH|e s He _ IH|w s Hw _ IH]; intros Ht; [done|..].
  - cbn. constructor; [done|by apply IH].
  - rewrite <- app_assoc. constructor; [done|by apply IH].
  - rewrite <- !app_assoc. apply marked_word; [done|by apply IH].
Qed.

Section Snippets.
Context `{Unicode}.

Lemma escape_marked c : marked (escape_char c).
Proof.
  unfold escape_char.
  destruct (Z.eqb_spec c 38); [rewrite <- (app_nil_r [_; _; _; _; _]); apply marked_entity; [by repeat (apply elem_of_cons; (by left) || right)|constructor]|].
  destruct (Z.eqb_spec c 60); [rewrite <- (app_nil_r [_; _; _; _]); apply marked_entity; [by repeat (apply elem_of_cons; (by left) || right)|constructor]|].
  destruct (Z.eqb_spec c 62); [rewrite <- (app_nil_r [_; _; _; _]); apply marked_entity; [by repeat (apply elem_of_cons; (by left) || right)|constructor]|].
  destruct (Z.eqb_spec c 34); [rewrite <- (app_nil_r [_; _; _; _; _; _]); apply marked_entity; [by repeat (apply elem_of_cons; (by left) || right)|constructor]|].
  case_match; (constructor; [|constructor]); [done|]. unfold special. repeat (rewrite (proj2 (Z.eqb_neq _ _)) by done). done.
Qed.
Lemma escape_len c : str_len (escape_char c) = escape_char_len c.
Proof.
  unfold escape_char, escape_char_len. rewrite (orb_comm (c =? 13)).
  destruct (c =? 38), (c =? 60), (c =? 62), (c =? 34), ((c =? 10) || (c =? 13)); try done. cbn [str_len]. lia.
Qed.
Lemma escape_len_range c : 1 <= escape_char_len c <= 6 /\ escape_char_len c <= 6 * len_utf8 c.
Proof. unfold escape_char_len. pose proof (len_utf8_range c). repeat case_match; lia. Qed.

Lemma copy_loop_spec last chars snippet :
  str_len (copy_loop last chars snippet) <= str_len snippet + 6 * str_len chars /\
  (marked snippet -> marked (copy_loop last chars snippet)).
Proof.
  revert last snippet. induction chars as [|c chars IH]; intros last snippet; cbn [copy_loop str_len]; [split; [lia|done]|].
  pose proof (len_utf8_range c). pose proof (escape_len_range c). destruct (is_whitespace c && last).
  - destruct (IH last snippet) as [Hl Hm]. split; [lia|done].
  - destruct (IH (is_whitespace c) (snippet ++ escape_char c)) as [Hl Hm]. rewrite str_len_app, escape_len in Hl.
    split; [lia|]. intros Hs. apply Hm, marked_app; [done|apply escape_marked].
Qed.

Lemma limited_loop_spec last chars snippet :
  (str_len snippet <= 255 -> str_len (limited_loop last chars snippet).1 <= 255) /\
  (marked snippet -> marked (limited_loop last chars snippet).1).
Proof.
  revert last snippet. induction chars as [|c chars IH]; intros last snippet; cbn [limited_loop]; [done|].
  destruct (is_whitespace c && last); [done|]. destruct (Z.leb_spec (str_len snippet + escape_char_len c) 255); [|done].
  destruct (IH (is_whitespace c) (snippet ++ escape_char c)) as [Hl Hm]. rewrite str_len_app, escape_len in Hl.
  split; [intros _; by apply Hl|]. intros Hs. apply Hm, marked_app; [done|apply escape_marked].
Qed.

Lemma terms_loop_bound text terms snippet s :
  terms_loop text terms snippet = Some s -> str_len snippet <= 255 -> str_len s <= 255.
Proof.
  revert snippet. induction terms as [|t terms IH]; intros snippet; cbn [terms_loop]; [congruence|].
  destruct (Z.ltb_spec 255 (str_len snippet + 6 * 2 + term_len t + 1)); [congruence|].
  destruct (str_get text (term_offset t) _) as [w|] eqn:Ew; [|done]. cbn [mbind option_bind].
  destruct (str_get text (term_offset t + term_len t) _) as [between|]; [|done]. cbn [mbind option_bind].
  apply str_get_iff in Ew as (a & b & _ & _ & Hw).
  assert (str_len (snippet ++ MARK ++ w ++ END_MARK) <= 255) as Hb.
  { rewrite !str_len_app. change (str_len MARK) with 6. change (str_len END_MARK) with 7. lia. }
  pose proof (proj1 (limited_loop_spec false between (snippet ++ MARK ++ w ++ END_MARK)) Hb) as Hl.
  destruct (limited_loop false between (snippet ++ MARK ++ w ++ END_MARK)) as [snippet' []]; cbn [fst] in Hl; [congruence|].
  intros E _. by apply IH in E.
Qed.

Lemma terms_loop_marked text terms snippet s :
  (forall t w, t ∈ terms -> str_get text (term_offset t) (term_offset t + term_len t) = Some w ->
    Forall (fun c => special c = false) w) ->
  terms_loop text terms snippet = Some s -> marked snippet -> marked s.
Proof.
  revert snippet. induction terms as [|t terms IH]; intros snippet Hw; cbn [terms_loop]; [congruence|].
  destruct (255 <? str_len snippet + 6 * 2 + term_len t + 1); [congruence|].
  destruct (str_get text (term_offset t) _) as [w|] eqn:Ew; [|done]. cbn [mbind option_bind].
  destruct (str_get text (term_offset t + term_len t) _) as [between|]; [|done]. cbn [mbind option_bind].
  intros E Hs. assert (marked (snippet ++ MARK ++ w ++ END_MARK)) as Hm.
  { apply marked_app; [done|]. rewrite <- (app_nil_r END_MARK). apply marked_word; [|constructor].
    apply (Hw t w); [by apply elem_of_cons; left|done]. }
  pose proof (proj2 (limited_loop_spec false between (snippet ++ MARK ++ w ++ END_MARK)) Hm) as Hl.
  destruct (limited_loop false between (snippet ++ MARK ++ w ++ END_MARK)) as [snippet' []]; cbn [fst] in Hl; [congruence|].
  apply (IH snippet'); [|done|done]. intros t' w' Hin. apply Hw. by apply elem_of_cons; right.
Qed.

(** The context is at most one character and 39 bytes. *)
Lemma context_loop_spec before suffix wc from last :
  str_len suffix < 40 ->
  match suffix with [] => before <> [] /\ wc <> 2 | _ => from = str_len before end ->
  exists pre c rest, before ++ suffix = pre ++ c :: rest /\ str_len rest < 40 /\
    context_loop (str_len (before ++ suffix)) (rev (char_indices 0 before)) wc from last = str_len pre.
Proof.
  revert suffix wc from last. induction before as [|c before IH] using rev_ind; intros suffix wc from last Hs Hst.
  - destruct suffix as [|c rest]; [by destruct Hst|]. subst from. exists [], c, rest. split; [done|]. split; [|done].
    cbn [str_len] in Hs. pose proof (len_utf8_range c). lia.
  - rewrite char_indices_app, rev_app_distr. cbn [char_indices rev app]. cbn [context_loop]. rewrite Z.add_0_l.
    assert (exists pre c' rest, (before ++ [c]) ++ suffix = pre ++ c' :: rest /\ str_len rest < 40 /\
      from = str_len pre \/ suffix = [] /\ wc <> 2) as Hbreak.
    { destruct suffix as [|c' rest]; [exists [], 0, []; right; split; [done|apply Hst]|]. exists (before ++ [c]), c', rest. left.
      split; [done|]. split; [|done]. cbn [str_len] in Hs. pose proof (len_utf8_range c'). lia. }
    destruct (is_whitespace c && negb last && (wc + 1 =? 3)) eqn:Eb.
    { destruct Hbreak as (pre & c' & rest & [(? & ? & ?)|[-> Hwc]]); [by exists pre, c', rest|].
      apply andb_true_iff in Eb as [_ Eb%Z.eqb_eq]. lia. }
    rewrite <- app_assoc. cbn [app]. destruct (Z.leb_spec 40 (str_len (before ++ c :: suffix) - str_len before)) as [H40|H40].
    + by exists before, c, suffix.
    + rewrite str_len_app in H40. apply IH; [lia|done].
Qed.
(** Terms that lie in the text one after the other. *)
Inductive spans : Z -> list Z -> list Term -> Prop :=
| spans_nil pos text : spans pos text []
| spans_cons pos a w rest t terms :
    term_offset t = pos + str_len a -> term_len t = str_len w ->
    spans (pos + str_len a + str_len w) rest terms -> spans pos (a ++ w ++ rest) (t :: terms).

Lemma terms_loop_total p text terms snippet :
  spans (str_len p) text terms -> exists s, terms_loop (p ++ text) terms snippet = Some s.
Proof.
  intros Hsp. remember (str_len p) as pos eqn:Hpos. revert p Hpos snippet.
  induction Hsp as [pos text|pos a w rest t terms Ho Hl Hsp IH]; intros p -> snippet; cbn [terms_loop]; [by eexists|].
  destruct (255 <? _); [by eexists|].
  assert (str_get (p ++ a ++ w ++ rest) (term_offset t) (term_offset t + term_len t) = Some w) as ->.
  { apply str_get_iff. exists (p ++ a), rest. rewrite <- app_assoc, str_len_app. split; [done|]. lia. }
  cbn [mbind option_bind].
  assert (exists between, str_get (p ++ a ++ w ++ rest) (term_offset t + term_len t)
    (match terms with next_term :: _ => term_offset next_term | [] => str_len (p ++ a ++ w ++ rest) end) = Some between) as [between ->].
  { inversion Hsp as [|? a2 w2 rest2 t2 terms2 Ho2 Hl2 Hsp2 Hp2 Hr2 Ht2]; subst.
    - exists rest. apply str_get_iff. exists (p ++ a ++ w), []. rewrite app_nil_r, <- !app_assoc, !str_len_app. split; [done|]. lia.
    - exists a2. apply str_get_iff. exists (p ++ a ++ w), (w2 ++ rest2). rewrite <- !app_assoc, !str_len_app. split; [done|]. lia. }
  cbn [mbind option_bind]. destruct (limited_loop false between _) as [snippet' []]; [by eexists|].
  destruct (IH (p ++ a ++ w)) with (snippet := snippet') as [s E]; [rewrite !str_len_app; lia|].
  rewrite <- !app_assoc in E. by exists s.
Qed.

(** The text before the first term, and what is copied of it. *)
Lemma snippet_start t terms text a :
  term_offset t = str_len a -> (exists rest, text = a ++ rest) -> 240 < str_len text ->
  exists snippet, str_len snippet <= 255 /\ generate_snippet (t :: terms) text = terms_loop text (t :: terms) snippet.
Proof.
  intros Ho [rest ->] Hl. unfold generate_snippet. cbn [head fmap option_fmap option_map mbind option_bind]. rewrite Ho.
  destruct (Z.ltb_spec 0 (str_len a)) as [Ha|Ha]; [|exists []; split; [cbn; lia|done]].
  rewrite (proj2 (Z.ltb_lt 240 _)) by done.
  assert (str_get (a ++ rest) 0 (str_len a) = Some a) as -> by (apply str_get_iff; exists [], rest; split; [done|]; split; [done|lia]).
  cbn [mbind option_bind].
  destruct (context_loop_spec a [] 0 0 false) as (pre & c & suf & Heq & Hsuf & Hc); [cbn; lia|split; [by intros ->|lia]|].
  rewrite app_nil_r in Heq, Hc. rewrite Hc.
  assert (str_get (a ++ rest) (str_len pre) (str_len a) = Some (c :: suf)) as ->.
  { apply str_get_iff. exists pre, rest. rewrite Heq, <- app_assoc. split; [done|]. split; [done|]. by rewrite str_len_app. }
  cbn [mbind option_bind]. eexists. split; [|done]. cbn [copy_loop]. rewrite andb_false_r. cbn [app].
  pose proof (proj1 (copy_loop_spec (is_whitespace c) suf (escape_char c))) as Hcl. rewrite escape_len in Hcl.
  pose proof (escape_len_range c). lia.
Qed.
End Snippets.

(** ** Properties *)

(** Tokens are the words of the text: for any text shorter than 4 GiB the
    tokenizer yields, in order, exactly the maximal runs of alphanumeric
    characters that are at most [max] bytes long, in lower case, each with the
    byte offset and length it has in the text; slicing never panics. *)
Theorem tokenizer_words `{Unicode} max text :
  0 <= max <= 255 -> str_len text < 2 ^ 32 ->
  exists tokens, indo_european_tokens max text = Ok tokens /\
    StronglySorted Z.le (wd_offset <$> tokens) /\
    forall token, token ∈ tokens <->
      exists start run, maximal_run text start run /\ str_len run <= max /\
        token = mkWord (lower_word run) start (str_len run).
Proof.
  intros Hm Hl. eexists. split; [apply indo_european_tokens_runs|]. split.
  - apply run_tokens_sorted; [by apply text_runs_fits|apply runs_sorted].
  - intros token. by apply run_tokens_elem.
Qed.

(** C36. Snippets of long texts are complete and bounded: for terms that lie in
    the text one after the other, a text longer than 240 bytes always has a
    snippet, of at most 255 bytes, as RFC 8621 section 5 requires. *)
Theorem snippet_bounded `{Unicode} terms text :
  terms <> [] -> spans 0 text terms -> 240 < str_len text ->
  exists s, generate_snippet terms text = Some s /\ str_len s <= 255.
Proof.
  intros Hne Hsp Hl. inversion Hsp as [|? a w rest t terms' Ho Hlen Hsp' Hp Ht Hterms]; subst; [done|].
  destruct (snippet_start t terms' (a ++ w ++ rest) a) as (snippet & Hs & ->); [done|by eexists|done|].
  destruct (terms_loop_total [] (a ++ w ++ rest) (t :: terms') snippet Hsp) as [s E]. exists s. split; [done|].
  by eapply terms_loop_bound.
Qed.

(** Snippets are safe to display: when the matched words have no character
    with a meaning in HTML, as words of the tokenizer have, the snippet is
    escaped text with the words in mark elements and no other markup, whatever
    the text contains. *)
Theorem snippet_safe `{Unicode} terms text s :
  (forall t w, t ∈ terms -> str_get text (term_offset t) (term_offset t + term_len t) = Some w ->
    Forall (fun c => special c = false) w) ->
  generate_snippet terms text = Some s -> marked s.
Proof.
  intros Hw. unfold generate_snippet. destruct (term_offset <$> head terms) as [start|]; [|done]. cbn [mbind option_bind].
  intros E. assert (exists snippet, marked snippet /\ terms_loop text terms snippet = Some s) as (snippet & Hm & Es).
  { destruct (0 <? start); [|exists []; split; [constructor|done]]. cbn [mbind option_bind] in E.
    destruct (if 240 <? str_len text then _ else _) as [from|]; [|done]. cbn [mbind option_bind] in E.
    destruct (str_get text from start) as [before|]; [|done]. cbn [mbind option_bind] in E.
    eexists. split; [|exact E]. apply copy_loop_spec. constructor. }
  by eapply terms_loop_marked.
Qed.

(** ** ASCII, for examples *)
Module AsciiText.
Definition lower (c : Z) : Z := if (65 <=? c) && (c <=? 90) then c + 32 else c.
#[export] Instance ascii : Unicode := {|
  is_alphanumeric c := ((65 <=? c) && (c <=? 90)) || ((97 <=? c) && (c <=? 122)) || ((48 <=? c) && (c <=? 57));
  is_uppercase c := (65 <=? c) && (c <=? 90);
  is_whitespace c := (c =? 32) || ((9 <=? c) && (c <=? 13));
  to_lowercase := map lower
|}.
#[export] Instance ascii_laws : UnicodeLaws.
Proof.
  split; [done|]. intros s Hs. apply Forall_map. eapply Forall_impl; [exact Hs|]. intros c [Hc Hn].
  unfold lower, is_char in *. destruct (Z.leb_spec 65 c), (Z.leb_spec c 90); cbn; lia.
Qed.
(** Stems drop a final s or d; words are not segmented. *)
#[export] Instance simple : Linguistics := {|
  snowball _ w := match last w with Some 115 | Some 100 => inr (take (length w - 1) w) | _ => inl w end;
  jieba_cut w := [w];
  tinysegmenter w := [w]
|}.
#[export] Instance simple_laws : LinguisticsLaws.
Proof. split. intros a s Hs. unfold snowball, simple. repeat case_match; simplify_eq; try done; by apply Forall_take. Qed.
End AsciiText.
Import AsciiText.

Lemma tokenizer_words_witness :
  exists tokens, indo_european_tokens 25 [84; 111; 32; 98; 101] = Ok tokens /\ mkWord [116; 111] 0 2 ∈ tokens.
Proof.
  destruct (tokenizer_words 25 [84; 111; 32; 98; 101] ltac:(lia) ltac:(cbn; lia)) as (tokens & E & _ & Ht).
  exists tokens. split; [exact E|]. apply Ht. exists 0, [84; 111]. split; [|split; [cbn; lia|reflexivity]].
  split; [done|]. split; [reflexivity|]. exists [], [32; 98; 101]. split_and!; [done..|]. by intros c [= <-].
Defined.

(** A text of 251 bytes with the word "a" after 250 quotes. *)
Definition long_text : list Z := replicate 250 34 ++ [97].

Lemma snippet_bounded_witness :
  exists s, generate_snippet [mkTerm 0 0 250 1] long_text = Some s /\ str_len s <= 255.
Proof.
  apply (snippet_bounded [mkTerm 0 0 250 1] long_text).
  - discriminate.
  - apply (spans_cons 0 (replicate 250 34) [97] [] (mkTerm 0 0 250 1) []); [vm_compute; reflexivity..|constructor].
  - vm_compute. reflexivity.
Defined.

Lemma snippet_safe_witness :
  exists s, generate_snippet [mkTerm 0 0 1 1] [60; 97; 62] = Some s /\ marked s.
Proof.
  eexists. split; [vm_compute; reflexivity|].
  apply (snippet_safe [mkTerm 0 0 1 1] [60; 97; 62]); [|vm_compute; reflexivity].
  intros t w ->%list_elem_of_singleton E. vm_compute in E. injection E as <-. repeat constructor.
Defined.

(** Short texts have no limit: the context before the first match of a text
    of at most 240 bytes is copied whole, and each quote takes six bytes, so a
    text of 201 bytes has a snippet of 1200 bytes, in which the matched word
    does not even appear. *)
Theorem snippet_exceeds :
  exists s, generate_snippet [mkTerm 0 0 200 1] (replicate 200 34 ++ [97]) = Some s /\
    str_len s = 1200 /\ 97 ∉ s.
Proof.
  eexists. split; [vm_compute; reflexivity|]. split; [vm_compute; reflexivity|].
  apply (bool_decide_eq_true_1 _). vm_compute. reflexivity.
Qed.

(** Long words slip through in Chinese and Japanese texts: the length of a
    word is cut to eight bits before it is compared with the limit, so a word
    of 260 letters is indexed, with length 4. *)
Theorem segmented_long_word :
  tokenizer_tokens (replicate 260 97) Mandarin 25 = Ok [mkWord (replicate 260 97) 0 4] /\
  tokenizer_tokens (replicate 260 97) English 25 = Ok [].
Proof. split; vm_compute; reflexivity. Qed.
