(* ===== verification/Keys.v ===== *)
(** * Store keys: components/store/src/serialize/key.rs

    The byte layout of every key of the five column families. A key must
    identify what it was built from (no two records share a key), and the keys
    that are iterated must sort as the values they encode. *)

From S2P Require Import Prelude Leb128 Serialize Types.

Definition BM_DOCUMENT_IDS : Z := 0.
Definition BM_TERM : Z := 0x10.
Definition BM_TAG : Z := 0x20.
Definition TERM_EXACT : Z := 0x00.
Definition TERM_STEMMED : Z := 0x01.
Definition TAG_ID : Z := 0x00.
Definition TAG_TEXT : Z := 0x01.
Definition TAG_STATIC : Z := 0x02.
Definition INTERNAL_KEY_PREFIX : Z := 0.
Definition FOLLOWER_COMMIT_INDEX_KEY : list Z := [INTERNAL_KEY_PREFIX; 1].
Definition LEADER_COMMIT_INDEX_KEY : list Z := [INTERNAL_KEY_PREFIX; 2].

Module ValueKey.
Definition serialize_collection (account : AccountId) (collection : Collection.t) : list Z :=
  push_leb128 [] account ++ [Collection.to_u8 collection].

Definition serialize_value (account : AccountId) (collection : Collection.t)
    (document : DocumentId) (field : FieldId) : list Z :=
  push_leb128 (push_leb128 [] account ++ [Collection.to_u8 collection]) document ++ [field].

Definition serialize_term_index (account : AccountId) (collection : Collection.t)
    (document : DocumentId) : list Z :=
  push_leb128 (push_leb128 [] account ++ [Collection.to_u8 collection]) document.

Definition serialize_acl (grant_account to_account : AccountId) (to_collection : Collection.t)
    (to_document : DocumentId) : list Z :=
  let bytes := push_leb128 [] grant_account ++ [255] in
  let bytes := push_leb128 bytes to_account ++ [Collection.to_u8 to_collection] in
  push_leb128 bytes to_document.

Definition serialize_acl_prefix (grant_account to_account : AccountId)
    (to_collection : Collection.t) : list Z :=
  let bytes := push_leb128 [] grant_account ++ [255] in
  let bytes := if negb (to_account =? U32_MAX) then push_leb128 bytes to_account else bytes in
  if bool_decide (to_collection <> Collection.None) then bytes ++ [Collection.to_u8 to_collection]
  else bytes.

Definition deserialize_acl_target (bytes : list Z) : option (AccountId * Collection.t * DocumentId) :=
  '(account, it) ← next_leb128 U32 bytes;
  '(c, it) ← it_next it;
  '(document, _) ← next_leb128 U32 it;
  Some (account, Collection.of_u8 c, document).
End ValueKey.

Module BlobKey.
Definition prefix (id : BlobId) : list Z :=
  (if blob_is_local id then BLOB_LOCAL else BLOB_EXTERNAL) :: blob_hash id.

Definition serialize_link (id : BlobId) (account : AccountId) (collection : Collection.t)
    (document : DocumentId) : list Z :=
  push_leb128 (push_leb128 (prefix id) account ++ [Collection.to_u8 collection]) document.

Definition serialize_prefix (id : BlobId) (account : AccountId) : list Z :=
  if negb (account =? U32_MAX) then push_leb128 (prefix id) account else prefix id.

Definition serialize_collection (id : BlobId) (account : AccountId) (collection : Collection.t)
    : list Z :=
  push_leb128 (prefix id) account ++ [Collection.to_u8 collection].

Definition serialize (id : BlobId) : list Z := prefix id.
End BlobKey.

Module BitmapKey.
(** [serialize_term] as built without the [term_hash] feature. *)
Definition serialize_term (account : AccountId) (collection : Collection.t) (field : FieldId)
    (term : list Z) (is_exact : bool) : list Z :=
  let bytes := term ++ [field] ++ [Collection.to_u8 collection] ++
    [Z.lor BM_TERM (if is_exact then TERM_EXACT else TERM_STEMMED)] in
  push_leb128 bytes account.

Definition tag_key (tag : Tag) : list Z * Z :=
  match tag with
  | Static id => ([id], TAG_STATIC)
  | Id id => (push_leb128 [] id, TAG_ID)
  | Text text => (text, TAG_TEXT)
  | Default => ([0], TAG_STATIC)
  end.

Definition serialize_tag (account : AccountId) (collection : Collection.t) (field : FieldId)
    (tag : Tag) : list Z :=
  let '(bytes, bm_type) := tag_key tag in
  push_leb128 (bytes ++ [field] ++ [Collection.to_u8 collection] ++ [Z.lor BM_TAG bm_type]) account.

Definition serialize_document_ids (account : AccountId) (collection : Collection.t) : list Z :=
  push_leb128 ([Collection.to_u8 collection] ++ [BM_DOCUMENT_IDS]) account.

(** [Iterator::rposition] of the last byte with the high bit clear. *)
Fixpoint rposition_low (l : list Z) : option nat :=
  match l with
  | [] => None
  | b :: l =>
      match rposition_low l with
      | Some p => Some (S p)
      | None => if Z.land b 0x80 =? 0 then Some O else None
      end
  end.

(** [bytes.len() - 1] wraps on the empty slice, whose range is then refused. *)
Definition deserialize_account_id (bytes : list Z) : option AccountId :=
  match bytes with
  | [] => None
  | _ =>
      range ← get_range bytes 0 (length bytes - 1);
      start_pos ← rposition_low range;
      range ← get_from bytes (start_pos + 1);
      fst <$> read_leb128 U32 range
  end.
End BitmapKey.

Module IndexKey.
Definition serialize_collection (account : AccountId) (collection : Collection.t) : list Z :=
  be_bytes 4 account ++ [Collection.to_u8 collection].

Definition serialize_field (account : AccountId) (collection : Z) (field : FieldId) : list Z :=
  be_bytes 4 account ++ [collection] ++ [field].

Definition serialize_key (account : AccountId) (collection : Collection.t) (field : FieldId)
    (key : list Z) : list Z :=
  be_bytes 4 account ++ [Collection.to_u8 collection] ++ [field] ++ key.

Definition serialize (account : AccountId) (collection : Collection.t) (document : DocumentId)
    (field : FieldId) (key : list Z) : list Z :=
  be_bytes 4 account ++ [Collection.to_u8 collection] ++ [field] ++ key ++ be_bytes 4 document.

(** [bytes.len() - 4] wraps on a shorter slice, whose range is then refused. *)
Definition deserialize_document_id (bytes : list Z) : option DocumentId :=
  if (4 <=? length bytes)%nat then from_be_bytes <$> get_from bytes (length bytes - 4) else None.
End IndexKey.

(** [RaftId]: an index of the log and the term of its entry. *)
Record RaftId := mkRaftId { rid_term : TermId; rid_index : LogIndex }.

#[export] Instance RaftId_eq_dec : EqDecision RaftId.
Proof. solve_decision. Defined.

Module LogKey.
Definition CHANGE_KEY_PREFIX : Z := 0.
Definition RAFT_KEY_PREFIX : Z := 1.
Definition ROLLBACK_KEY_PREFIX : Z := 2.
Definition PENDING_UPDATES_KEY_PREFIX : Z := 3.
Definition TOMBSTONE_KEY_PREFIX : Z := 3.

Definition CHANGE_KEY_LEN : nat := 14.
Definition RAFT_KEY_LEN : nat := 17.
Definition ROLLBACK_KEY_LEN : nat := 6.
Definition RAFT_TERM_POS : nat := 9.
Definition CHANGE_ID_POS : nat := 6.
Definition ACCOUNT_POS : nat := 1.
Definition COLLECTION_POS : nat := 5.
Definition TOMBSTONE_INDEX_POS : nat := 1.
Definition TOMBSTONE_ACCOUNT_POS : nat := 9.

Definition deserialize_raft (bytes : list Z) : option RaftId :=
  index ← deserialize_be_u64 bytes 1;
  term ← deserialize_be_u64 bytes (1 + 8);
  Some (mkRaftId term index).

Definition serialize_raft (id : RaftId) : list Z :=
  RAFT_KEY_PREFIX :: be_bytes 8 (rid_index id) ++ be_bytes 8 (rid_term id).

Definition serialize_change (account : AccountId) (collection : Collection.t)
    (change_id : ChangeId) : list Z :=
  CHANGE_KEY_PREFIX :: be_bytes 4 account ++ [Collection.to_u8 collection] ++ be_bytes 8 change_id.

Definition serialize_rollback (account : AccountId) (collection : Collection.t) : list Z :=
  ROLLBACK_KEY_PREFIX :: be_bytes 4 account ++ [Collection.to_u8 collection].

Definition serialize_pending_update (index seq_id : LogIndex) : list Z :=
  PENDING_UPDATES_KEY_PREFIX :: be_bytes 8 index ++ be_bytes 8 seq_id.

Definition serialize_tombstone (index : LogIndex) (account : AccountId) : list Z :=
  TOMBSTONE_KEY_PREFIX :: be_bytes 8 index ++ be_bytes 4 account.

Definition deserialize_change_id (bytes : list Z) : option ChangeId :=
  deserialize_be_u64 bytes CHANGE_ID_POS.
End LogKey.

(** ** Bitmap keys end with the account, preceded by a type byte below 128 *)

Lemma rposition_low_app l b k :
  0 <= b < 128 -> Forall (fun b => 128 <= b < 256) k ->
  BitmapKey.rposition_low (l ++ b :: k) = Some (length l).
Proof.
  intros Hb Hk. assert (BitmapKey.rposition_low k = None) as Hn.
  { induction Hk as [|x k Hx _ IH]; [done|]. cbn. by rewrite IH, high_byte_continues. }
  induction l as [|x l IH]; cbn; [by rewrite Hn, leb128_low_bit|by rewrite IH].
Qed.

Lemma deserialize_account_id_app body t account :
  0 <= t < 128 -> fits 32 account ->
  BitmapKey.deserialize_account_id (body ++ t :: leb128 account) = Some account.
Proof.
  intros Ht Ha. assert (decodable U32 account) as Hd by by apply decodable_fits.
  pose proof (read_leb128_app U32 account [] Hd) as Hr. rewrite app_nil_r in Hr.
  destruct (leb128_shape account) as (pre & last & He & _ & Hpre); [by eapply decodable_u64|].
  assert (exists b l, body ++ t :: leb128 account = b :: l) as (b & l & Hne)
    by (destruct body; eauto).
  unfold BitmapKey.deserialize_account_id. rewrite Hne, <- Hne. clear b l Hne.
  assert (get_range (body ++ t :: leb128 account) 0 (length (body ++ t :: leb128 account) - 1)
    = Some (body ++ t :: pre)) as ->.
  { pose proof (get_range_app [] (body ++ t :: pre) [last]) as E. cbn [app length] in E.
    rewrite <- app_assoc in E. cbn [app] in E. rewrite <- He in E. rewrite <- E.
    f_equal. rewrite He, !length_app. cbn. rewrite !length_app. cbn. lia. }
  cbn [mbind option_bind]. rewrite rposition_low_app by done. cbn [mbind option_bind].
  unfold get_from. rewrite (proj2 (Nat.leb_le _ _)) by (rewrite length_app; cbn; lia).
  rewrite drop_app_ge by lia. replace (length body + 1 - length body)%nat with 1%nat by lia.
  rewrite skipn_cons, drop_0. cbn [mbind option_bind]. by rewrite Hr.
Qed.

Lemma leb128_inj v v' : fits 64 v -> fits 64 v' -> leb128 v = leb128 v' -> v = v'.
Proof.
  intros Hv Hv' He. assert (decodable U64 v) as H by by apply decodable_fits.
  assert (decodable U64 v') as H' by by apply decodable_fits.
  apply (next_leb128_app _ _ []) in H, H'. rewrite He in H. congruence.
Qed.

Lemma account_key_inj body t account body' t' account' :
  0 <= t < 128 -> 0 <= t' < 128 -> fits 32 account -> fits 32 account' ->
  body ++ t :: leb128 account = body' ++ t' :: leb128 account' ->
  body = body' /\ t = t' /\ account = account'.
Proof.
  intros Ht Ht' Ha Ha' He. pose proof (deserialize_account_id_app body t account Ht Ha) as H.
  rewrite He, deserialize_account_id_app in H by done. injection H as <-.
  change (t :: ?l) with ([t] ++ l) in He. change (t' :: ?l) with ([t'] ++ l) in He.
  rewrite !app_assoc in He. apply app_inv_tail, app_inj_tail in He as [? ?]. done.
Qed.

(** What a bitmap key is built from. *)
Inductive bitmap_key : Set :=
| KTerm (account : Z) (collection : Collection.t) (field : Z) (term : list Z) (is_exact : bool)
| KTag (account : Z) (collection : Collection.t) (field : Z) (tag : Tag)
| KDocumentIds (account : Z) (collection : Collection.t).

Definition bitmap_key_bytes (k : bitmap_key) : list Z :=
  match k with
  | KTerm a c f t e => BitmapKey.serialize_term a c f t e
  | KTag a c f t => BitmapKey.serialize_tag a c f t
  | KDocumentIds a c => BitmapKey.serialize_document_ids a c
  end.

Definition bitmap_key_account (k : bitmap_key) : Z :=
  match k with KTerm a _ _ _ _ | KTag a _ _ _ | KDocumentIds a _ => a end.

Definition tag_wf (t : Tag) : Prop := match t with Id id => fits 32 id | _ => True end.
Definition bitmap_key_wf (k : bitmap_key) : Prop :=
  fits 32 (bitmap_key_account k) /\ match k with KTag _ _ _ t => tag_wf t | _ => True end.

(** [Tag::Default] is stored as the static tag 0. *)
Definition tag_canon (t : Tag) : Tag := match t with Default => Static 0 | t => t end.
Definition bitmap_key_canon (k : bitmap_key) : bitmap_key :=
  match k with KTag a c f t => KTag a c f (tag_canon t) | k => k end.

(** The key without its account, and its type byte. *)
Definition bitmap_key_body (k : bitmap_key) : list Z :=
  match k with
  | KTerm _ c f t _ => t ++ [f; Collection.to_u8 c]
  | KTag _ c f t => (BitmapKey.tag_key t).1 ++ [f; Collection.to_u8 c]
  | KDocumentIds _ c => [Collection.to_u8 c]
  end.
Definition bitmap_key_type (k : bitmap_key) : Z :=
  match k with
  | KTerm _ _ _ _ e => Z.lor BM_TERM (if e then TERM_EXACT else TERM_STEMMED)
  | KTag _ _ _ t => Z.lor BM_TAG (BitmapKey.tag_key t).2
  | KDocumentIds _ _ => BM_DOCUMENT_IDS
  end.

Lemma bitmap_key_bytes_split k :
  bitmap_key_bytes k = bitmap_key_body k ++ bitmap_key_type k :: leb128 (bitmap_key_account k).
Proof.
  destruct k as [a c f t e|a c f t|a c]; cbn;
    unfold BitmapKey.serialize_term, BitmapKey.serialize_tag, BitmapKey.serialize_document_ids,
      push_leb128, to_leb128_bytes; [|destruct t; cbn|]; rewrite <- ?app_assoc; done.
Qed.

Lemma bitmap_key_type_range k : 0 <= bitmap_key_type k < 128.
Proof. destruct k as [? ? ? ? []|? ? ? []|]; split; by vm_compute. Qed.

Lemma app_two_inj {A} (l l' : list A) a b a' b' :
  l ++ [a; b] = l' ++ [a'; b'] -> l = l' /\ a = a' /\ b = b'.
Proof. intros [? ?]%app_inj_2; [|done]. naive_solver. Qed.

Lemma tag_key_inj t t' :
  tag_wf t -> tag_wf t' -> (BitmapKey.tag_key t).1 = (BitmapKey.tag_key t').1 ->
  Z.lor BM_TAG (BitmapKey.tag_key t).2 = Z.lor BM_TAG (BitmapKey.tag_key t').2 ->
  tag_canon t = tag_canon t'.
Proof.
  destruct t, t'; cbn; try done; intros H H' He _; try (f_equal; congruence).
  unfold push_leb128, to_leb128_bytes in He. f_equal.
  apply leb128_inj; [apply (fits_mono 32); [lia|done]..|done].
Qed.

(** ** Log keys sort as what they encode *)

Definition cmp_then (c d : comparison) : comparison := match c with Eq => d | Lt => Lt | Gt => Gt end.

Lemma bytes_cmp_byte a b l k : bytes_cmp (a :: l) (b :: k) = cmp_then (a ?= b) (bytes_cmp l k).
Proof. cbn. by destruct (a ?= b). Qed.

Lemma bytes_cmp_be32 v v' x x' :
  fits 32 v -> fits 32 v' ->
  bytes_cmp (be_bytes 4 v ++ x) (be_bytes 4 v' ++ x') = cmp_then (v ?= v') (bytes_cmp x x').
Proof. apply (bytes_cmp_be 4). Qed.

Lemma bytes_cmp_be64 v v' x x' :
  fits 64 v -> fits 64 v' ->
  bytes_cmp (be_bytes 8 v ++ x) (be_bytes 8 v' ++ x') = cmp_then (v ?= v') (bytes_cmp x x').
Proof. apply (bytes_cmp_be 8). Qed.

Lemma bytes_cmp_be64_nil v v' :
  fits 64 v -> fits 64 v' -> bytes_cmp (be_bytes 8 v) (be_bytes 8 v') = (v ?= v').
Proof.
  intros. rewrite <- (app_nil_r (be_bytes 8 v)), <- (app_nil_r (be_bytes 8 v')).
  rewrite bytes_cmp_be64 by done. by destruct (v ?= v').
Qed.

Lemma change_key_cmp a c i a' c' i' :
  fits 32 a -> fits 32 a' -> fits 64 i -> fits 64 i' ->
  bytes_cmp (LogKey.serialize_change a c i) (LogKey.serialize_change a' c' i') =
  cmp_then (a ?= a') (cmp_then (Collection.to_u8 c ?= Collection.to_u8 c') (i ?= i')).
Proof.
  intros. unfold LogKey.serialize_change. rewrite bytes_cmp_byte. cbn [cmp_then Z.compare].
  rewrite bytes_cmp_be32 by done. cbn [app]. by rewrite bytes_cmp_byte, bytes_cmp_be64_nil by done.
Qed.

Lemma raft_key_cmp r r' :
  fits 64 (rid_index r) -> fits 64 (rid_index r') -> fits 64 (rid_term r) ->
  fits 64 (rid_term r') ->
  bytes_cmp (LogKey.serialize_raft r) (LogKey.serialize_raft r') =
  cmp_then (rid_index r ?= rid_index r') (rid_term r ?= rid_term r').
Proof.
  intros. unfold LogKey.serialize_raft. rewrite bytes_cmp_byte. cbn [cmp_then Z.compare Pos.compare Pos.compare_cont].
  by rewrite bytes_cmp_be64, bytes_cmp_be64_nil by done.
Qed.

Lemma deserialize_raft_serialize r rest :
  fits 64 (rid_index r) -> fits 64 (rid_term r) ->
  LogKey.deserialize_raft (LogKey.serialize_raft r ++ rest) = Some r.
Proof.
  intros Hi Ht. unfold LogKey.deserialize_raft, LogKey.serialize_raft.
  pose proof (deserialize_be_u64_app [LogKey.RAFT_KEY_PREFIX] (rid_index r)
    (be_bytes 8 (rid_term r) ++ rest) Hi) as E1.
  pose proof (deserialize_be_u64_app (LogKey.RAFT_KEY_PREFIX :: be_bytes 8 (rid_index r))
    (rid_term r) rest Ht) as E2.
  cbn [length app] in E1, E2. rewrite be_bytes_length in E2.
  cbn [app]. rewrite <- app_assoc, E1. cbn [mbind option_bind].
  change (1 + 8)%nat with 9%nat. rewrite E2. by destruct r.
Qed.

Lemma deserialize_change_id_serialize a c i rest :
  fits 64 i -> LogKey.deserialize_change_id (LogKey.serialize_change a c i ++ rest) = Some i.
Proof.
  intros Hi. unfold LogKey.deserialize_change_id, LogKey.serialize_change.
  pose proof (deserialize_be_u64_app
    (LogKey.CHANGE_KEY_PREFIX :: be_bytes 4 a ++ [Collection.to_u8 c]) i rest Hi) as E.
  cbn [length app] in E. rewrite length_app, be_bytes_length in E.
  cbn [app]. rewrite <- !app_assoc in *. exact E.
Qed.

Lemma deserialize_document_id_serialize a c d f k :
  fits 32 d -> IndexKey.deserialize_document_id (IndexKey.serialize a c d f k) = Some d.
Proof.
  intros Hd. unfold IndexKey.serialize. rewrite !app_assoc.
  set (pre := ((be_bytes 4 a ++ _) ++ _) ++ k). clearbody pre.
  unfold IndexKey.deserialize_document_id, get_from.
  rewrite length_app, be_bytes_length, !(proj2 (Nat.leb_le _ _)) by lia.
  replace (length pre + 4 - 4)%nat with (length pre) by lia.
  rewrite drop_app_length. cbn [fmap option_fmap option_map]. by rewrite from_be_bytes_be.
Qed.

(** ** Value keys *)

Inductive value_key : Set :=
| VCollection (account : Z) (collection : Collection.t)
| VValue (account : Z) (collection : Collection.t) (document field : Z)
| VTermIndex (account : Z) (collection : Collection.t) (document : Z)
| VAcl (grant_account to_account : Z) (to_collection : Collection.t) (to_document : Z).

Definition value_key_bytes (k : value_key) : list Z :=
  match k with
  | VCollection a c => ValueKey.serialize_collection a c
  | VValue a c d f => ValueKey.serialize_value a c d f
  | VTermIndex a c d => ValueKey.serialize_term_index a c d
  | VAcl g a c d => ValueKey.serialize_acl g a c d
  end.

Definition value_key_wf (k : value_key) : Prop :=
  match k with
  | VCollection a _ => fits 32 a
  | VValue a _ d _ | VTermIndex a _ d => fits 32 a /\ fits 32 d
  | VAcl g a _ d => fits 32 g /\ fits 32 a /\ fits 32 d
  end.

(** A parser of value keys, the inverse of [value_key_bytes]. *)
Definition value_key_parse (bytes : list Z) : option value_key :=
  '(account, it) ← next_leb128 U32 bytes;
  '(c, it) ← it_next it;
  if c =? 255 then
    '(a, c, d) ← ValueKey.deserialize_acl_target it;
    Some (VAcl account a c d)
  else
    match it with
    | [] => Some (VCollection account (Collection.of_u8 c))
    | _ =>
        '(document, it) ← next_leb128 U32 it;
        match it with
        | [] => Some (VTermIndex account (Collection.of_u8 c) document)
        | f :: _ => Some (VValue account (Collection.of_u8 c) document f)
        end
    end.

Lemma u32_decodable v : fits 32 v <-> decodable U32 v.
Proof. symmetry. apply (decodable_fits U32). Qed.

Lemma collection_not_255 c : (Collection.to_u8 c =? 255) = false.
Proof. by destruct c. Qed.

Lemma leb128_cons v : exists b l, leb128 v = b :: l.
Proof. unfold leb128, leb128_fuel. cbn [to_leb128_loop]. destruct (v <? 0x80); eauto. Qed.

Lemma deserialize_acl_target_app a c d rest :
  fits 32 a -> fits 32 d ->
  ValueKey.deserialize_acl_target
    (leb128 a ++ Collection.to_u8 c :: leb128 d ++ rest) = Some (a, c, d).
Proof.
  intros Ha%u32_decodable Hd%u32_decodable. unfold ValueKey.deserialize_acl_target.
  rewrite next_leb128_app by done. cbn. rewrite next_leb128_app by done. cbn.
  by rewrite Collection.of_to_u8.
Qed.

Lemma value_key_parse_bytes k :
  value_key_wf k -> value_key_parse (value_key_bytes k) = Some k.
Proof.
  unfold value_key_parse; destruct k as [a c|a c d f|a c d|g a c d]; cbn [value_key_wf];
    intros Hwf; destruct_and? Hwf;
    repeat match goal with H : fits 32 _ |- _ => apply u32_decodable in H end;
    cbn [value_key_bytes];
    unfold ValueKey.serialize_collection, ValueKey.serialize_value,
      ValueKey.serialize_term_index, ValueKey.serialize_acl, push_leb128, to_leb128_bytes;
    cbv zeta; cbn [app]; rewrite <- ?app_assoc, next_leb128_app by done; cbn [mbind option_bind];
    cbn [it_next slice_iter app mbind option_bind]; rewrite ?collection_not_255, ?Collection.of_to_u8.
  - done.
  - destruct (leb128_cons d) as (b & l & E). rewrite E. cbn [app]. rewrite app_comm_cons, <- E.
    by rewrite next_leb128_app.
  - destruct (leb128_cons d) as (b & l & E). rewrite E, <- E.
    rewrite <- (app_nil_r (leb128 d)). by rewrite next_leb128_app.
  - rewrite <- (app_nil_r (leb128 d)).
    by rewrite deserialize_acl_target_app by (by apply u32_decodable).
Qed.

(** ** Properties *)

Lemma bitmap_key_bytes_inj k k' :
  bitmap_key_wf k -> bitmap_key_wf k' ->
  bitmap_key_bytes k = bitmap_key_bytes k' -> bitmap_key_canon k = bitmap_key_canon k'.
Proof.
  intros [Ha Ht] [Ha' Ht']. rewrite !bitmap_key_bytes_split.
  intros (Hb & Hty & Hacc)%account_key_inj; try apply bitmap_key_type_range; try done.
  destruct k as [a c f t e|a c f t|a c], k' as [a' c' f' t' e'|a' c' f' t'|a' c']; cbn in Hb, Hacc;
    try (exfalso; repeat match goal with b : bool |- _ => destruct b | t : Tag |- _ => destruct t end;
      done); subst a'.
  - apply app_two_inj in Hb as (-> & -> & ->%Collection.to_u8_inj).
    by destruct e, e'.
  - apply app_two_inj in Hb as (Htk & -> & ->%Collection.to_u8_inj).
    cbn. f_equal. by apply tag_key_inj.
  - injection Hb as ->%Collection.to_u8_inj. done.
Qed.

(** Bitmap keys identify what they index: two keys built by
    [serialize_term], [serialize_tag] or [serialize_document_ids] are equal
    only when they were built from the same kind, account, collection, field
    and term or tag ([Tag::Default] being the static tag 0), and
    [deserialize_account_id] reads the account back from every key. *)
Theorem bitmap_keys_unambiguous k k' :
  bitmap_key_wf k -> bitmap_key_wf k' ->
  BitmapKey.deserialize_account_id (bitmap_key_bytes k) = Some (bitmap_key_account k) /\
  (bitmap_key_bytes k = bitmap_key_bytes k' -> bitmap_key_canon k = bitmap_key_canon k').
Proof.
  intros Hk Hk'. split; [|by apply bitmap_key_bytes_inj]. rewrite bitmap_key_bytes_split.
  apply deserialize_account_id_app; [apply bitmap_key_type_range|apply Hk].
Qed.

Lemma bitmap_keys_unambiguous_witness :
  bitmap_key_wf (KTag 4294967295 Collection.Mailbox 2 (Id 300)) /\
  BitmapKey.deserialize_account_id
    (bitmap_key_bytes (KTag 4294967295 Collection.Mailbox 2 (Id 300))) = Some 4294967295.
Proof.
  assert (bitmap_key_wf (KTag 4294967295 Collection.Mailbox 2 (Id 300))) as H
    by (repeat split; cbn; lia).
  split; [exact H|].
  exact (proj1 (bitmap_keys_unambiguous _ (KTag 4294967295 Collection.Mailbox 2 (Id 300)) H H)).
Defined.

(** Value keys identify what they hold: the four kinds of keys of the
    values column family (collection, field value, term index and ACL grant)
    can all be read back from their bytes, so keys of the same or of different
    kinds never collide. *)
Theorem value_keys_unambiguous k k' :
  value_key_wf k -> value_key_wf k' -> value_key_bytes k = value_key_bytes k' -> k = k'.
Proof.
  intros H H' He. apply value_key_parse_bytes in H, H'. rewrite He in H. congruence.
Qed.

Lemma value_keys_unambiguous_witness :
  value_key_bytes (VValue 1 Collection.Mail 128 7) = [1; 2; 128; 1; 7] /\
  VValue 1 Collection.Mail 128 7 = VValue 1 Collection.Mail 128 7.
Proof.
  split; [reflexivity|].
  apply value_keys_unambiguous; [repeat split; cbn; lia..|reflexivity].
Defined.

(** The store iterates log keys in log order: change keys sort by account,
    then collection, then change id, and Raft keys by index, then term; change
    ids and Raft ids are read back from their keys. *)
Theorem log_keys_ordered a c i a' c' i' r r' :
  fits 32 a -> fits 32 a' -> fits 64 i -> fits 64 i' ->
  fits 64 (rid_index r) -> fits 64 (rid_index r') -> fits 64 (rid_term r) ->
  fits 64 (rid_term r') ->
  bytes_cmp (LogKey.serialize_change a c i) (LogKey.serialize_change a' c' i') =
    cmp_then (a ?= a') (cmp_then (Collection.to_u8 c ?= Collection.to_u8 c') (i ?= i')) /\
  bytes_cmp (LogKey.serialize_raft r) (LogKey.serialize_raft r') =
    cmp_then (rid_index r ?= rid_index r') (rid_term r ?= rid_term r') /\
  LogKey.deserialize_change_id (LogKey.serialize_change a c i) = Some i /\
  LogKey.deserialize_raft (LogKey.serialize_raft r) = Some r.
Proof.
  intros. split_and!.
  - by apply change_key_cmp.
  - by apply raft_key_cmp.
  - rewrite <- (app_nil_r (LogKey.serialize_change _ _ _)). by apply deserialize_change_id_serialize.
  - rewrite <- (app_nil_r (LogKey.serialize_raft _)). by apply deserialize_raft_serialize.
Qed.

Lemma log_keys_ordered_witness :
  bytes_cmp (LogKey.serialize_change 1 Collection.Mail 255)
    (LogKey.serialize_change 1 Collection.Mail 256) = Lt.
Proof.
  refine (proj1 (log_keys_ordered 1 Collection.Mail 255 1 Collection.Mail 256
    (mkRaftId 0 0) (mkRaftId 0 0) _ _ _ _ _ _ _ _)); cbn; unfold fits; lia.
Defined.
