(* ===== verification/Bitmap.v ===== *)
(** * Small bit sets: components/store/src/core/bitmap.rs

    [Bitmap<T>] packs a set of enumeration items in a [u64]. The trait
    [BitmapItem] is a class whose laws the two item types of the store,
    [Collection] and [ACL], satisfy; the set operations are proved to compute
    on the sets of items the words stand for. *)

From S2P Require Import Prelude Types.

(** [BitmapItem: From<u64> + Into<u64>] with [max] and [is_valid]. *)
Class BitmapItem (T : Type) := {
  item_to : T -> Z;
  item_of : Z -> T;
  item_max : Z;
  item_valid : T -> bool
}.

(** What an implementation of the trait promises. *)
Class BitmapItemLaws (T : Type) `{BitmapItem T} := {
  item_max_range : 0 < item_max < 64;
  item_of_to x : item_of (item_to x) = x;
  item_to_of i : 0 <= i < item_max -> item_to (item_of i) = i;
  item_to_range x : 0 <= item_to x <= item_max;
  item_valid_iff x : item_valid x = (item_to x <? item_max)
}.

(** [1 << item] on [u64]. *)
Definition bit (i : Z) : Z := u64 (1 ≪ i).
Definition leading_zeros (b : Z) : Z := 63 - Z.log2 b.

Section Bitmap.
Context `{BitmapItemLaws T}.

Definition bm_new : Z := 0.
Definition bm_all : Z := U64_MAX ≫ (64 - item_max).
Definition bm_union (b items : Z) : Z := Z.lor b items.
Definition bm_intersection (b items : Z) : Z := Z.land b items.
Definition bm_insert (b : Z) (item : T) : Z := Z.lor b (bit (item_to item)).
Definition bm_remove (b : Z) (item : T) : Z := Z.lxor b (bit (item_to item)).
Definition bm_contains (b : Z) (item : T) : bool := negb (Z.land b (bit (item_to item)) =? 0).
Definition bm_is_empty (b : Z) : bool := b =? 0.

(** [clear] returns the previous bits and leaves the empty set. *)
Definition bm_clear (b : Z) : Z * Z := (b, 0).

(** [pop] and [Iterator::next]: the highest item. *)
Definition bm_pop (b : Z) : option (T * Z) :=
  if negb (b =? 0) then
    let item := 63 - leading_zeros b in
    Some (item_of item, Z.lxor b (bit item))
  else None.

(** [From<Vec<T>>], [FromIterator] and [From<&Vec<T>>]. *)
Definition bm_from_list (values : list T) : Z :=
  fold_left (fun bitmap value => if item_valid value then bm_insert bitmap value else bitmap)
    values bm_new.

(** [From<Bitmap<T>> for Vec<T>]: pops until empty, at most once per bit. *)
Fixpoint bm_drain (fuel : nat) (b : Z) : list T :=
  match fuel with
  | O => []
  | S fuel =>
      match bm_pop b with
      | Some (item, b) => item :: bm_drain fuel b
      | None => []
      end
  end.
Definition bm_to_list (b : Z) : list T := bm_drain 64 b.

(** ** Bits *)

Lemma bit_pow i : 0 <= i < 64 -> bit i = 2 ^ i.
Proof.
  intros Hi. unfold bit. rewrite Z.shiftl_1_l. apply wrap_small. split; [lia|].
  apply Z.pow_lt_mono_r; lia.
Qed.

Lemma testbit_bit i j : 0 <= i < 64 -> 0 <= j -> Z.testbit (bit i) j = (i =? j).
Proof. intros Hi Hj. rewrite bit_pow by done. apply Z.pow2_bits_eqb. lia. Qed.

Lemma item_range x : 0 <= item_to x < 64.
Proof. pose proof (item_to_range x). pose proof item_max_range. lia. Qed.
Hint Resolve item_range : core.

Lemma bm_contains_testbit b x : bm_contains b x = Z.testbit b (item_to x).
Proof.
  unfold bm_contains. pose proof (item_range x) as Hx.
  destruct (Z.testbit b (item_to x)) eqn:E.
  - apply negb_true_iff, Z.eqb_neq. intros Hz.
    assert (Z.testbit (Z.land b (bit (item_to x))) (item_to x) = false) as Hf
      by (rewrite Hz; apply Z.bits_0).
    by rewrite Z.land_spec, E, testbit_bit, Z.eqb_refl in Hf by lia.
  - apply negb_false_iff, Z.eqb_eq, Z.bits_inj'. intros j Hj.
    rewrite Z.land_spec, testbit_bit, Z.bits_0 by lia.
    destruct (Z.eqb_spec (item_to x) j) as [<-|]; [by rewrite E|by rewrite andb_false_r].
Qed.

Lemma item_to_eqb x y : (item_to x =? item_to y) = true <-> x = y.
Proof.
  rewrite Z.eqb_eq. split; [|by intros ->]. intros He.
  by rewrite <- (item_of_to x), He, item_of_to.
Qed.

Lemma bm_insert_contains b x y :
  bm_contains (bm_insert b x) y = true <-> x = y \/ bm_contains b y = true.
Proof.
  rewrite !bm_contains_testbit. unfold bm_insert.
  rewrite Z.lor_spec, testbit_bit, orb_true_iff, item_to_eqb by (auto; apply item_range). tauto.
Qed.

Lemma bm_remove_contains b x y :
  bm_contains (bm_remove b x) y = xorb (bm_contains b y) (item_to x =? item_to y).
Proof.
  rewrite !bm_contains_testbit. unfold bm_remove.
  by rewrite Z.lxor_spec, testbit_bit by (auto; apply item_range).
Qed.

Lemma bm_insert_fits b x : fits 64 b -> fits 64 (bm_insert b x).
Proof. intros Hb. apply lor_fits; [lia|done|]. apply wrap_fits. lia. Qed.

Lemma pop_top b : 0 < b < 2 ^ 64 -> Z.lxor b (bit (Z.log2 b)) = b - 2 ^ Z.log2 b.
Proof.
  intros Hb. pose proof (Z.log2_spec b ltac:(lia)) as [Hlo Hhi].
  assert (0 <= Z.log2 b < 64) as Hl by (split; [apply Z.log2_nonneg|apply Z.log2_lt_pow2; lia]).
  rewrite bit_pow by done. rewrite Z.pow_succ_r in Hhi by lia.
  set (k := Z.log2 b) in *. set (r := b - 2 ^ k).
  assert (fits k r) as Hr by (unfold fits; lia).
  replace b with (Z.lxor r (2 ^ k)); [by rewrite Z.lxor_assoc, Z.lxor_nilpotent, Z.lxor_0_r|].
  rewrite <- Z.add_nocarry_lxor; [lia|]. apply Z.bits_inj'. intros i Hi.
  rewrite Z.land_spec, Z.bits_0, Z.pow2_bits_eqb by lia.
  destruct (Z.eqb_spec k i) as [<-|]; [by rewrite (fits_testbit k)|apply andb_false_r].
Qed.

Lemma testbit_below_top b i :
  0 < b -> 0 <= i -> Z.testbit b i = (i =? Z.log2 b) || Z.testbit (b - 2 ^ Z.log2 b) i.
Proof.
  intros Hb Hi. pose proof (Z.log2_spec b Hb) as [Hlo Hhi]. pose proof (Z.log2_nonneg b).
  rewrite Z.pow_succ_r in Hhi by lia. set (k := Z.log2 b) in *. set (r := b - 2 ^ k).
  assert (fits k r) as Hr by (unfold fits; lia).
  replace b with (Z.lor r (1 * 2 ^ k)) by (rewrite lor_disjoint_add by done; lia).
  rewrite Z.mul_1_l, Z.lor_spec, Z.pow2_bits_eqb, orb_comm by lia. by rewrite (Z.eqb_sym k).
Qed.

(** Draining lists exactly the bits that are set, highest first. *)
Lemma bm_drain_spec n b i :
  0 <= b < 2 ^ Z.of_nat n -> b < 2 ^ item_max -> 0 <= i ->
  (Z.testbit b i = true <-> i < item_max /\ item_of i ∈ bm_drain n b).
Proof.
  revert b. induction n as [|n IH]; intros b Hn Hm Hi.
  - replace b with 0 by (cbn in Hn; lia). rewrite Z.bits_0. cbn. split; [done|by intros [_ ?%not_elem_of_nil]].
  - cbn [bm_drain]. unfold bm_pop, leading_zeros.
    destruct (Z.eqb_spec b 0) as [->|Hne]; cbn;
      [rewrite Z.bits_0; split; [done|by intros [_ ?%not_elem_of_nil]]|].
    pose proof item_max_range as Hmax. pose proof (Z.log2_nonneg b) as Hl0.
    assert (Z.log2 b < item_max) as Hlm by (apply Z.log2_lt_pow2; lia).
    assert (b < 2 ^ 64) by (eapply Z.lt_trans; [done|apply Z.pow_lt_mono_r; lia]).
    replace (63 - (63 - Z.log2 b)) with (Z.log2 b) by lia.
    rewrite pop_top, testbit_below_top, orb_true_iff, Z.eqb_eq by lia.
    pose proof (Z.log2_spec b ltac:(lia)) as [Hlo Hhi]. rewrite Z.pow_succ_r in Hhi by lia.
    assert (Z.log2 b <= Z.of_nat n) by (apply Z.lt_succ_r, Z.log2_lt_pow2; lia).
    assert (2 ^ Z.log2 b <= 2 ^ Z.of_nat n) by (apply Z.pow_le_mono_r; lia).
    rewrite IH, elem_of_cons by lia. split.
    + intros [->|[? ?]]; auto.
    + intros [Him [He|?]]; [left|by right].
      rewrite <- (item_to_of i), He, item_to_of by lia. done.
Qed.

Lemma bm_from_list_contains l x :
  bm_contains (bm_from_list l) x = true <-> item_valid x = true /\ x ∈ l.
Proof.
  unfold bm_from_list. assert (bm_contains bm_new x = false) as Hnew
    by (rewrite bm_contains_testbit; apply Z.bits_0).
  revert Hnew. generalize bm_new. induction l as [|y l IH] using rev_ind; intros b Hb; cbn.
  - rewrite Hb. split; [done|by intros [_ ?%not_elem_of_nil]].
  - rewrite fold_left_app. cbn. destruct (item_valid y) eqn:Ey.
    + rewrite bm_insert_contains, IH, elem_of_app, list_elem_of_singleton by done.
      intuition congruence.
    + rewrite IH, elem_of_app, list_elem_of_singleton by done. intuition congruence.
Qed.

Lemma bm_from_list_fits l : fits item_max (bm_from_list l).
Proof.
  pose proof item_max_range. unfold bm_from_list.
  assert (fits item_max bm_new) as Hnew by (unfold bm_new, fits; lia).
  revert Hnew. generalize bm_new. induction l as [|y l IH]; intros b Hb; cbn; [done|].
  apply IH. destruct (item_valid y) eqn:Ey; [|done]. apply lor_fits; [lia|done|].
  rewrite item_valid_iff, Z.ltb_lt in Ey. pose proof (item_to_range y).
  rewrite bit_pow by lia. split; [lia|]. apply Z.pow_lt_mono_r; lia.
Qed.

Lemma bm_ext a b :
  fits item_max a -> fits item_max b ->
  (forall i, 0 <= i < item_max -> Z.testbit a i = Z.testbit b i) -> a = b.
Proof.
  intros Ha Hb He. apply Z.bits_inj'. intros i Hi. destruct (Z.lt_ge_cases i item_max).
  - by apply He.
  - by rewrite (fits_testbit item_max a), (fits_testbit item_max b).
Qed.

Lemma bm_to_list_contains b x :
  fits item_max b -> item_valid x = true -> (x ∈ bm_to_list b <-> bm_contains b x = true).
Proof.
  intros [Hb0 Hb1] Hv. rewrite item_valid_iff, Z.ltb_lt in Hv. pose proof (item_to_range x).
  pose proof item_max_range. rewrite bm_contains_testbit. unfold bm_to_list.
  rewrite (bm_drain_spec 64 b (item_to x)); [rewrite item_of_to; tauto| |done|lia].
  split; [done|]. eapply Z.lt_trans; [done|]. apply Z.pow_lt_mono_r; lia.
Qed.

Lemma bm_all_testbit i : 0 <= i -> Z.testbit bm_all i = (i <? item_max).
Proof.
  intros Hi. pose proof item_max_range. unfold bm_all.
  replace U64_MAX with (Z.ones 64) by (vm_compute; done).
  rewrite Z.shiftr_spec by done. destruct (Z.ltb_spec i item_max).
  - apply Z.ones_spec_low. lia.
  - apply Z.ones_spec_high. lia.
Qed.

End Bitmap.

(** ** The two item types *)

#[export] Instance collection_item : BitmapItem Collection.t := {
  item_to := Collection.to_u8;
  item_of := Collection.of_u8;
  item_max := 8;
  item_valid c := negb (bool_decide (c = Collection.None))
}.

#[export] Instance collection_item_laws : BitmapItemLaws Collection.t.
Proof.
  split; [done|apply Collection.of_to_u8| |apply Collection.to_u8_range|by intros []].
  intros i Hi. cbn in *.
  assert (i = 0 \/ i = 1 \/ i = 2 \/ i = 3 \/ i = 4 \/ i = 5 \/ i = 6 \/ i = 7) by lia.
  naive_solver.
Qed.

Module ACL.
Inductive t : Set :=
| Read | Modify | Delete | ReadItems | AddItems | ModifyItems | RemoveItems | CreateChild
| Administer | Submit | None_.

#[export] Instance acl_eq_dec : EqDecision t.
Proof. solve_decision. Defined.

Definition to_u64 (a : t) : Z :=
  match a with
  | Read => 0 | Modify => 1 | Delete => 2 | ReadItems => 3 | AddItems => 4 | ModifyItems => 5
  | RemoveItems => 6 | CreateChild => 7 | Administer => 8 | Submit => 9 | None_ => 10
  end.

Definition of_u64 (v : Z) : t :=
  match v with
  | 0 => Read | 1 => Modify | 2 => Delete | 3 => ReadItems | 4 => AddItems | 5 => ModifyItems
  | 6 => RemoveItems | 7 => CreateChild | 8 => Administer | 9 => Submit | _ => None_
  end.
End ACL.
#[export] Existing Instance ACL.acl_eq_dec.

#[export] Instance acl_item : BitmapItem ACL.t := {
  item_to := ACL.to_u64;
  item_of := ACL.of_u64;
  item_max := 10;
  item_valid a := negb (bool_decide (a = ACL.None_))
}.

#[export] Instance acl_item_laws : BitmapItemLaws ACL.t.
Proof.
  split; [done|by intros []| |intros []; cbn; lia|by intros []].
  intros i Hi. cbn in *.
  assert (i = 0 \/ i = 1 \/ i = 2 \/ i = 3 \/ i = 4 \/ i = 5 \/ i = 6 \/ i = 7 \/ i = 8 \/ i = 9)
    by lia. naive_solver.
Qed.

(** ** Properties *)

(** [Bitmap<T>] is a set of items, for every item type that keeps the laws
    of the trait: building it from a list keeps exactly the valid items of the
    list, turning it into a list lists exactly the items it contains, the two
    conversions are inverse on bitmaps without stray bits, [all] contains
    every valid item, and union and intersection act on the sets. *)
Theorem bitmap_is_set `{BitmapItemLaws T} :
  (forall (l : list T) x, bm_contains (bm_from_list l) x = true <-> item_valid x = true /\ x ∈ l) /\
  (forall b (x : T), fits item_max b -> item_valid x = true ->
     (x ∈ bm_to_list b <-> bm_contains b x = true)) /\
  (forall b, fits item_max b -> bm_from_list (T := T) (bm_to_list b) = b) /\
  (forall x : T, item_valid x = true -> bm_contains bm_all x = true) /\
  (forall a b (x : T), bm_contains (bm_union a b) x = bm_contains a x || bm_contains b x) /\
  (forall a b (x : T), bm_contains (bm_intersection a b) x = bm_contains a x && bm_contains b x).
Proof.
  split_and!.
  - apply bm_from_list_contains.
  - intros b x. apply bm_to_list_contains.
  - intros b Hb. apply bm_ext; [apply bm_from_list_fits|done|]. intros i Hi.
    assert (item_valid (item_of i : T) = true) as Hv
      by (rewrite item_valid_iff, item_to_of by done; apply Z.ltb_lt; lia).
    rewrite <- (item_to_of (T := T) i) by done. rewrite <- !bm_contains_testbit.
    apply eq_true_iff_eq. rewrite bm_from_list_contains, bm_to_list_contains by done. tauto.
  - intros x Hv. rewrite bm_contains_testbit, bm_all_testbit by apply item_range.
    by rewrite <- item_valid_iff.
  - intros a b x. rewrite !bm_contains_testbit. apply Z.lor_spec.
  - intros a b x. rewrite !bm_contains_testbit. apply Z.land_spec.
Qed.

(** [insert] adds an item and nothing else; [remove] flips it: on a bitmap
    that contains the item it removes it and nothing else, but on one that
    does not contain it, it adds it. *)
Theorem bitmap_insert_remove `{BitmapItemLaws T} b (x y : T) :
  (bm_contains (bm_insert b x) y = true <-> x = y \/ bm_contains b y = true) /\
  (bm_contains (bm_remove b x) y = xorb (bm_contains b y) (item_to x =? item_to y)) /\
  bm_contains (bm_remove b x) x = negb (bm_contains b x).
Proof.
  split_and!; [apply bm_insert_contains|apply bm_remove_contains|].
  rewrite bm_remove_contains, Z.eqb_refl. by destruct (bm_contains b x).
Qed.

Lemma bitmap_is_set_witness :
  bm_contains (bm_from_list [ACL.Read; ACL.Submit]) ACL.Submit = true /\
  bm_from_list (T := ACL.t) (bm_to_list 5) = 5.
Proof.
  pose proof (bitmap_is_set (T := ACL.t)) as (Hl & _ & Hr & _). split.
  - apply Hl. by split; [|vm_compute; repeat constructor].
  - by apply Hr.
Defined.

Lemma bitmap_insert_remove_witness :
  bm_contains (bm_remove (bm_from_list [ACL.Read]) ACL.Modify) ACL.Modify = true.
Proof.
  by rewrite (proj2 (proj2 (bitmap_insert_remove (bm_from_list [ACL.Read]) ACL.Modify ACL.Modify))).
Defined.
