(* ===== verification/BitList.v ===== *)
(** * Bitmaps of document ids: components/store/src/serialize/bitmap.rs,
      components/store_rocksdb/src/lib.rs

    A set of document ids is stored either as a serialized [RoaringBitmap] or
    as a bit list, a sequence of set and clear operations in chunks of at most
    128 documents. Writers append bit lists, and the merge operator of the
    store folds them into the stored value. A [RoaringBitmap] is the finite
    set of its elements; its serialization belongs to the [roaring] crate and
    is a class with the round trip the code relies on. *)

From S2P Require Import Prelude Leb128 Serialize.

Definition BIT_SET : Z := 0x80.
Definition BIT_CLEAR : Z := 0.
Definition IS_BITLIST : Z := 0.
Definition IS_BITMAP : Z := 1.

(** Document ids are [u32]. *)
Definition docs_ok (bm : gset Z) : Prop := set_Forall (fits 32) bm.

(** [RoaringBitmap::serialize_into] and [deserialize_unchecked_from]. *)
Class Roaring := {
  roaring_serialize : gset Z -> list Z;
  roaring_deserialize : list Z -> option (gset Z)
}.
(** Serialization round trips, and a [RoaringBitmap] holds [u32] values. *)
Class RoaringLaws `{Roaring} : Prop := {
  roaring_roundtrip bm : docs_ok bm -> roaring_deserialize (roaring_serialize bm) = Some bm;
  roaring_docs bytes bm : roaring_deserialize bytes = Some bm -> docs_ok bm
}.

(** ** Reading a bit list *)

(** The inner loop: [items] documents to read, [None] for the remaining input
    when it ends early and the outer loop is left. *)
Fixpoint bitlist_items (items : nat) (is_set : bool) (bm : gset Z) (it : list Z)
    : gset Z * option (list Z) :=
  match items with
  | O => (bm, Some it)
  | S items =>
      match next_leb128 U32 it with
      | Some (doc_id, it) =>
          bitlist_items items is_set (if is_set then {[doc_id]} ∪ bm else bm ∖ {[doc_id]}) it
      | None => (bm, None)
      end
  end.

(** The outer loop; every iteration consumes a header byte, so the length of
    the input bounds the iterations. *)
Fixpoint bitlist_loop (fuel : nat) (bm : gset Z) (it : list Z) : gset Z :=
  match fuel, it with
  | S fuel, header :: it =>
      let items := Z.to_nat (Z.land header 0x7F + 1) in
      let is_set := negb (Z.land header BIT_SET =? 0) in
      match bitlist_items items is_set bm it with
      | (bm, Some it) => bitlist_loop fuel bm it
      | (bm, None) => bm
      end
  | _, _ => bm
  end.

Definition deserialize_bitlist (bm : gset Z) (bytes : list Z) : gset Z :=
  bitlist_loop (length bytes) bm (drop 1 bytes).

Section Roaring.
Context `{Roaring}.

Definition deserialize_bitmap (bytes : list Z) : option (gset Z) :=
  roaring_deserialize (drop 1 bytes).

(** [StoreDeserialize for RoaringBitmap]. *)
Definition bitmap_deserialize (bytes : list Z) : option (gset Z) :=
  match bytes with
  | [] => None
  | b :: _ =>
      if b =? IS_BITMAP then deserialize_bitmap bytes
      else if b =? IS_BITLIST then Some (deserialize_bitlist ∅ bytes)
      else None
  end.

(** [StoreSerialize for RoaringBitmap]. *)
Definition bitmap_serialize (bm : gset Z) : list Z := IS_BITMAP :: roaring_serialize bm.

(** The loop of [bitmap_merge] over the operands. *)
Fixpoint bitmap_merge_loop (bm : gset Z) (operands : list (list Z)) : option (gset Z) :=
  match operands with
  | [] => Some bm
  | op :: operands =>
      match op with
      | [] => None
      | b :: _ =>
          if b =? IS_BITMAP then
            match deserialize_bitmap op with
            | Some union_bm =>
                bitmap_merge_loop (if negb (bool_decide (bm = ∅)) then bm ∪ union_bm else union_bm)
                  operands
            | None => None
            end
          else if b =? IS_BITLIST then bitmap_merge_loop (deserialize_bitlist bm op) operands
          else None
      end
  end.

Definition bitmap_merge (existing_val : option (list Z)) (operands : list (list Z))
    : option (list Z) :=
  match existing_val, operands with
  | None, [op] => Some op
  | _, _ =>
      bm ← match existing_val with Some v => bitmap_deserialize v | None => Some ∅ end;
      bm ← bitmap_merge_loop bm operands;
      Some (IS_BITMAP :: roaring_serialize bm)
  end.

(** [bitmap_compact]: whether the compaction filter removes a value. *)
Definition bitmap_compact_removes (value : list Z) : bool :=
  match bitmap_deserialize value with
  | Some bm => bool_decide (bm = ∅)
  | None => false
  end.
End Roaring.

(** ** Writing bit lists *)

(** [set_bit] and [clear_bit]. *)
Definition single_bit (flag : Z) (document : Z) : list Z :=
  push_leb128 [IS_BITLIST; flag] document.
Definition set_bit := single_bit BIT_SET.
Definition clear_bit := single_bit BIT_CLEAR.

(** [set_bits] and [clear_bits]: the loop over [documents.enumerate()] with
    its three variables, then the last header is patched. *)
Fixpoint many_bits_loop (flag : Z) (pos : nat) (documents : list Z)
    (st : list Z * nat * nat) : list Z * nat * nat :=
  match documents with
  | [] => st
  | document :: documents =>
      let '(buf, header_pos, total_docs) := st in
      let '(buf, header_pos) :=
        if (pos mod 128 =? 0)%nat then (buf ++ [Z.lor flag 0x7F], length buf)
        else (buf, header_pos) in
      many_bits_loop flag (S pos) documents (push_leb128 buf document, header_pos, pos)
  end.
Definition many_bits (flag : Z) (documents : list Z) : list Z :=
  let '(buf, header_pos, total_docs) := many_bits_loop flag 0 documents ([IS_BITLIST], 0%nat, 0%nat) in
  <[header_pos := Z.lor flag (Z.of_nat (total_docs mod 128))]> buf.
Definition set_bits := many_bits BIT_SET.
Definition clear_bits := many_bits BIT_CLEAR.

(** [set_clear_bits]: one buffer per operation. *)
Record bit_buf := mkBitBuf { bb_buf : list Z; bb_header_pos : nat; bb_total_docs : nat }.
Definition bit_buf_new : bit_buf := mkBitBuf [IS_BITLIST] 0 0.

Definition push_document (flag : Z) (b : bit_buf) (document : Z) : bit_buf :=
  let b :=
    if (bb_total_docs b mod 128 =? 0)%nat then
      mkBitBuf (bb_buf b ++ [Z.lor flag 0x7F]) (length (bb_buf b)) (bb_total_docs b)
    else b in
  mkBitBuf (push_leb128 (bb_buf b) document) (bb_header_pos b) (bb_total_docs b + 1).

Definition patch_header (flag : Z) (b : bit_buf) : list Z :=
  if (0 <? bb_total_docs b)%nat then
    <[bb_header_pos b := Z.lor flag (Z.of_nat ((bb_total_docs b - 1) mod 128))]> (bb_buf b)
  else bb_buf b.

Definition set_clear_step (st : bit_buf * bit_buf) (d : Z * bool) : bit_buf * bit_buf :=
  let '(set_buf, clear_buf) := st in
  if d.2 then (push_document BIT_SET set_buf d.1, clear_buf)
  else (set_buf, push_document BIT_CLEAR clear_buf d.1).

Definition set_clear_bits (documents : list (Z * bool)) : list Z :=
  let '(set_buf, clear_buf) := fold_left set_clear_step documents (bit_buf_new, bit_buf_new) in
  let set_bytes := patch_header BIT_SET set_buf in
  let clear_bytes := patch_header BIT_CLEAR clear_buf in
  if ((0 <? bb_total_docs set_buf) && (0 <? bb_total_docs clear_buf))%nat then
    set_bytes ++ drop 1 clear_bytes
  else if (0 <? bb_total_docs set_buf)%nat then set_bytes
  else clear_bytes.

(** [numeric_value_merge]: the merge operator of the values column family;
    [+=] on [i64] wraps. *)
Definition i64_add (a b : Z) : Z := i64_of_u64 (u64 (a + b)).
Fixpoint numeric_merge_loop (value : Z) (operands : list (list Z)) : option Z :=
  match operands with
  | [] => Some value
  | op :: operands => v ← deserialize_i64 op; numeric_merge_loop (i64_add value v) operands
  end.
Definition numeric_value_merge (value : option (list Z)) (operands : list (list Z))
    : option (list Z) :=
  v ← match value with Some v => deserialize_i64 v | None => Some 0 end;
  v ← numeric_merge_loop v operands;
  Some (le_bytes 8 (u64 v)).

(** ** What a bit list means *)

Definition bit_apply (is_set : bool) (bm : gset Z) (docs : list Z) : gset Z :=
  if is_set then list_to_set docs ∪ bm else bm ∖ list_to_set docs.

Definition flag_of (is_set : bool) : Z := if is_set then BIT_SET else BIT_CLEAR.

Lemma bit_apply_app s bm l k : bit_apply s bm (l ++ k) = bit_apply s (bit_apply s bm l) k.
Proof. destruct s; cbn; rewrite list_to_set_app_L; set_solver. Qed.

Lemma bit_apply_nil s bm : bit_apply s bm [] = bm.
Proof. destruct s; cbn; set_solver. Qed.

Abbreviation docs_bytes := (flat_map leb128).

(** A chunk: a header with the operation and the count less one, then the documents. *)
Definition chunk_bytes (s : bool) (c : list Z) : list Z :=
  Z.lor (flag_of s) (Z.of_nat (length c - 1)) :: docs_bytes c.
Abbreviation chunks_bytes s := (flat_map (chunk_bytes s)).
Definition chunk_ok (c : list Z) : Prop := (1 <= length c <= 128)%nat /\ Forall (fits 32) c.

Lemma header_spec s n :
  fits 7 n ->
  Z.land (Z.lor (flag_of s) n) 0x7F = n /\ negb (Z.land (Z.lor (flag_of s) n) BIT_SET =? 0) = s.
Proof. revert n. destruct s; apply (fits_decide _ 7); by vm_compute. Qed.

Lemma bitlist_items_docs s bm c rest :
  Forall (fits 32) c ->
  bitlist_items (length c) s bm (docs_bytes c ++ rest) = (bit_apply s bm c, Some rest).
Proof.
  intros Hc. revert bm. induction Hc as [|d c Hd _ IH]; intros bm; cbn.
  - by rewrite bit_apply_nil.
  - rewrite <- app_assoc, next_leb128_app by by apply decodable_fits. rewrite IH.
    f_equal. destruct s; cbn; set_solver.
Qed.

Lemma bitlist_items_shorter items s bm it bm' it' :
  bitlist_items items s bm it = (bm', Some it') -> (length it' <= length it)%nat.
Proof.
  revert bm it. induction items as [|n IH]; intros bm it; cbn; [by intros [= -> ->]|].
  destruct (next_leb128 U32 it) as [[d it1]|] eqn:E; [|done]. intros H%IH.
  apply from_leb128_loop_suffix in E as (pre & -> & ?). rewrite length_app. lia.
Qed.

Lemma bitlist_loop_fuel n m bm it :
  (length it <= n)%nat -> (length it <= m)%nat -> bitlist_loop n bm it = bitlist_loop m bm it.
Proof.
  revert m bm it. induction n as [|n IH]; intros [|m] bm [|h it]; cbn; try done; try lia.
  intros Hn Hm. destruct (bitlist_items _ _ _ _) as [bm' [it'|]] eqn:E; [|done].
  apply bitlist_items_shorter in E. apply IH; lia.
Qed.

Lemma bitlist_loop_chunk n s bm c rest :
  chunk_ok c -> (length (chunk_bytes s c ++ rest) <= n)%nat ->
  bitlist_loop n bm (chunk_bytes s c ++ rest) = bitlist_loop (length rest) (bit_apply s bm c) rest.
Proof.
  intros [Hl Hc]. destruct n as [|n]; [cbn; lia|]. cbn [chunk_bytes app bitlist_loop length].
  intros Hn. destruct (header_spec s (Z.of_nat (length c - 1))) as [-> ->]; [unfold fits; lia|].
  replace (Z.to_nat _) with (length c) by lia. rewrite bitlist_items_docs by done.
  apply bitlist_loop_fuel; [|done]. rewrite length_app in Hn. lia.
Qed.

#[local] Arguments chunk_bytes : simpl never.
Lemma bitlist_loop_chunks n s bm cs rest :
  Forall chunk_ok cs -> (length (chunks_bytes s cs ++ rest) <= n)%nat ->
  bitlist_loop n bm (chunks_bytes s cs ++ rest) =
  bitlist_loop (length rest) (bit_apply s bm (concat cs)) rest.
Proof.
  intros Hcs. revert n bm. induction Hcs as [|c cs Hc _ IH]; intros n bm Hn; cbn [flat_map concat app] in *.
  - rewrite bit_apply_nil. by apply bitlist_loop_fuel.
  - rewrite <- app_assoc in *. rewrite bitlist_loop_chunk by done.
    by rewrite IH, bit_apply_app.
Qed.

(** ** The writers build chunks *)

(** After pushing [docs]: all chunks but the last are full. *)
Inductive bit_buf_inv (s : bool) (docs : list Z) : bit_buf -> Prop :=
| bit_buf_empty : docs = [] -> bit_buf_inv s docs bit_buf_new
| bit_buf_chunks full cur :
    docs = concat full ++ cur -> Forall (fun c => length c = 128%nat) full ->
    (1 <= length cur <= 128)%nat ->
    bit_buf_inv s docs
      (mkBitBuf (IS_BITLIST :: chunks_bytes s full ++ Z.lor (flag_of s) 0x7F :: docs_bytes cur)
        (1 + length (chunks_bytes s full)) (128 * length full + length cur)).

Lemma full_chunk_bytes s c :
  length c = 128%nat -> chunk_bytes s c = Z.lor (flag_of s) 0x7F :: docs_bytes c.
Proof. intros Hl. unfold chunk_bytes. by rewrite Hl. Qed.

Lemma docs_bytes_snoc c d : docs_bytes (c ++ [d]) = docs_bytes c ++ leb128 d.
Proof. rewrite flat_map_app. cbn. by rewrite app_nil_r. Qed.

Lemma chunks_bytes_snoc s full c :
  length c = 128%nat ->
  chunks_bytes s (full ++ [c]) = chunks_bytes s full ++ Z.lor (flag_of s) 0x7F :: docs_bytes c.
Proof. intros Hl. rewrite flat_map_app. cbn. by rewrite app_nil_r, full_chunk_bytes. Qed.

Lemma bit_buf_chunks_eq s docs full cur b :
  docs = concat full ++ cur -> Forall (fun c => length c = 128%nat) full ->
  (1 <= length cur <= 128)%nat ->
  bb_buf b = IS_BITLIST :: chunks_bytes s full ++ Z.lor (flag_of s) 0x7F :: docs_bytes cur ->
  bb_header_pos b = (1 + length (chunks_bytes s full))%nat ->
  bb_total_docs b = (128 * length full + length cur)%nat -> bit_buf_inv s docs b.
Proof. destruct b; cbn. intros -> ? ? -> -> ->. by constructor. Qed.

Lemma push_document_inv s docs b d :
  bit_buf_inv s docs b -> bit_buf_inv s (docs ++ [d]) (push_document (flag_of s) b d).
Proof.
  intros [->|full cur -> Hf Hc]; unfold push_document; cbn [bb_buf bb_header_pos bb_total_docs].
  - apply (bit_buf_chunks_eq s _ [] [d]); cbn; rewrite ?app_nil_r; (done || lia).
  - rewrite (Nat.mul_comm 128), Nat.add_comm, Nat.Div0.mod_add.
    destruct (decide (length cur = 128%nat)) as [He|Hne].
    + rewrite He. cbn [Nat.eqb Nat.modulo].
      apply (bit_buf_chunks_eq s _ (full ++ [cur]) [d]);
        rewrite ?chunks_bytes_snoc, ?concat_app, ?Forall_app, ?length_app by done;
        cbn; rewrite ?app_nil_r, ?length_app, <- ?app_assoc; try (done || lia).
      split; [done|]. by repeat constructor.
    + rewrite (proj2 (Nat.eqb_neq _ 0)) by (rewrite Nat.mod_small; lia).
      apply (bit_buf_chunks_eq s _ full (cur ++ [d])); cbn;
        rewrite ?docs_bytes_snoc, ?length_app, <- ?app_assoc; cbn; try (done || lia).
Qed.

Lemma fold_push_inv s docs docs' b :
  bit_buf_inv s docs b -> bit_buf_inv s (docs ++ docs') (fold_left (push_document (flag_of s)) docs' b).
Proof.
  revert docs b. induction docs' as [|d l IH]; intros docs b Hb; cbn; [by rewrite app_nil_r|].
  rewrite cons_middle, app_assoc. by apply IH, push_document_inv.
Qed.

Lemma insert_mid {A} (a x y : A) l k :
  <[(1 + length l)%nat := y]> (a :: l ++ x :: k) = a :: l ++ y :: k.
Proof.
  cbn. f_equal. rewrite <- (Nat.add_0_r (length l)). apply (insert_app_r l (x :: k) 0 y).
Qed.

(** Patching the header turns the buffer into well-formed chunks. *)
Lemma patch_header_chunks s docs b :
  bit_buf_inv s docs b -> Forall (fits 32) docs ->
  exists cs, patch_header (flag_of s) b = IS_BITLIST :: chunks_bytes s cs /\
    concat cs = docs /\ Forall chunk_ok cs.
Proof.
  intros [->|full cur -> Hf Hc] Hd; [by exists []|].
  apply Forall_app in Hd as [Hd Hdc]. exists (full ++ [cur]).
  rewrite concat_app. cbn [concat]. rewrite app_nil_r. split_and!; [|done|].
  - unfold patch_header. cbn [bb_buf bb_header_pos bb_total_docs].
    rewrite (proj2 (Nat.ltb_lt _ _)), insert_mid, flat_map_app by lia.
    cbn [flat_map]. rewrite app_nil_r. unfold chunk_bytes. do 5 f_equal.
    replace (128 * length full + length cur - 1)%nat
      with (length cur - 1 + length full * 128)%nat by lia.
    rewrite Nat.Div0.mod_add, Nat.mod_small by lia. done.
  - apply Forall_app. split; [|apply Forall_singleton; by split].
    rewrite Forall_concat in Hd. rewrite Forall_forall in Hf, Hd.
    apply Forall_forall. intros c Hin. split; [rewrite (Hf c Hin); lia|by apply Hd].
Qed.

Lemma deserialize_chunks bm cs cs' :
  Forall chunk_ok cs -> Forall chunk_ok cs' ->
  deserialize_bitlist bm (IS_BITLIST :: chunks_bytes true cs ++ chunks_bytes false cs') =
  bit_apply false (bit_apply true bm (concat cs)) (concat cs').
Proof.
  intros Hcs Hcs'. unfold deserialize_bitlist. rewrite skipn_cons, drop_0.
  rewrite bitlist_loop_chunks by (done || cbn; lia).
  rewrite <- (app_nil_r (chunks_bytes false cs')) at 2.
  by rewrite bitlist_loop_chunks by (rewrite ?app_nil_r; done).
Qed.

Lemma deserialize_chunks_one bm s cs :
  Forall chunk_ok cs ->
  deserialize_bitlist bm (IS_BITLIST :: chunks_bytes s cs) = bit_apply s bm (concat cs).
Proof.
  intros Hcs. destruct s.
  - pose proof (deserialize_chunks bm cs [] Hcs ltac:(done)) as E. cbn [flat_map concat] in E.
    by rewrite app_nil_r, bit_apply_nil in E.
  - pose proof (deserialize_chunks bm [] cs ltac:(done) Hcs) as E. cbn [flat_map concat app] in E.
    by rewrite bit_apply_nil in E.
Qed.

(** The documents of a [set_clear_bits] call, by operation. *)
Definition docs_with (s : bool) (documents : list (Z * bool)) : list Z :=
  (filter (fun d => d.2 = s) documents).*1.

Lemma set_clear_fold documents sb cb :
  fold_left set_clear_step documents (sb, cb) =
  (fold_left (push_document BIT_SET) (docs_with true documents) sb,
   fold_left (push_document BIT_CLEAR) (docs_with false documents) cb).
Proof.
  revert sb cb. induction documents as [|[d []] l IH]; intros sb cb; [done|..];
    cbn [fold_left]; unfold set_clear_step at 2; cbn [snd fst]; rewrite IH;
    unfold docs_with; rewrite !filter_cons; cbn; done.
Qed.

Lemma bit_buf_total s docs b : bit_buf_inv s docs b -> bb_total_docs b = length docs.
Proof.
  intros [->|full cur -> Hf _]; [done|]. cbn [bb_total_docs]. rewrite length_app. f_equal.
  induction Hf as [|c full Hc _ IH]; [done|]. cbn [concat length]. rewrite length_app. lia.
Qed.

(** What applying the operations in order gives. *)
Definition apply_documents (bm : gset Z) (documents : list (Z * bool)) : gset Z :=
  bit_apply false (bit_apply true bm (docs_with true documents)) (docs_with false documents).

Lemma set_clear_bits_spec bm documents :
  Forall (fits 32) documents.*1 ->
  deserialize_bitlist bm (set_clear_bits documents) = apply_documents bm documents.
Proof.
  intros Hd. unfold set_clear_bits. rewrite set_clear_fold.
  assert (forall s, Forall (fits 32) (docs_with s documents)) as Hs.
  { intros s. rewrite Forall_forall in *. intros d ([d' s'] & -> & [_ Hin]%list_elem_of_filter)%list_elem_of_fmap.
    apply Hd. by eapply list_elem_of_fmap_2'. }
  pose proof (fold_push_inv true [] (docs_with true documents) _ (bit_buf_empty true [] eq_refl)) as I1.
  pose proof (fold_push_inv false [] (docs_with false documents) _ (bit_buf_empty false [] eq_refl)) as I2.
  cbn [app flag_of] in I1, I2.
  destruct (patch_header_chunks _ _ _ I1 (Hs true)) as (cs & E1 & C1 & K1).
  destruct (patch_header_chunks _ _ _ I2 (Hs false)) as (cs' & E2 & C2 & K2).
  cbn [flag_of] in E1, E2. rewrite E1, E2, (bit_buf_total _ _ _ I1), (bit_buf_total _ _ _ I2).
  unfold apply_documents. rewrite <- C1, <- C2, skipn_cons, drop_0.
  destruct (Nat.ltb_spec 0 (length (concat cs))), (Nat.ltb_spec 0 (length (concat cs')));
    cbn [andb app].
  - by apply deserialize_chunks.
  - destruct (concat cs') eqn:E; [|cbn in *; lia].
    by rewrite deserialize_chunks_one, bit_apply_nil.
  - destruct (concat cs) eqn:E; [|cbn in *; lia].
    by rewrite deserialize_chunks_one, bit_apply_nil.
  - destruct (concat cs) eqn:E; [|cbn in *; lia].
    by rewrite deserialize_chunks_one, bit_apply_nil.
Qed.

Lemma set_clear_bits_head documents : exists l, set_clear_bits documents = IS_BITLIST :: l.
Proof.
  unfold set_clear_bits. rewrite set_clear_fold.
  assert (forall s docs, exists l, patch_header (flag_of s)
    (fold_left (push_document (flag_of s)) docs bit_buf_new) = IS_BITLIST :: l) as Hh.
  { intros s docs. pose proof (fold_push_inv s [] docs _ (bit_buf_empty s [] eq_refl)) as Hi.
    inversion Hi as [He Hn|full cur He Hf Hc Hn]; [by eexists|].
    unfold patch_header. cbn [bb_total_docs bb_header_pos bb_buf].
    destruct (_ <? _)%nat; [|by eexists]. rewrite insert_mid. by eexists. }
  destruct (Hh true (docs_with true documents)) as [l1 E1].
  destruct (Hh false (docs_with false documents)) as [l2 E2]. cbn [flag_of] in *.
  rewrite E1, E2. destruct (_ && _); [|destruct (_ <? _)%nat]; by eexists.
Qed.

Lemma many_bits_loop_fold flag pos docs buf hp td :
  let b := fold_left (push_document flag) docs (mkBitBuf buf hp pos) in
  many_bits_loop flag pos docs (buf, hp, td) =
  (bb_buf b, bb_header_pos b, match docs with [] => td | _ => (bb_total_docs b - 1)%nat end).
Proof.
  revert pos buf hp td. induction docs as [|d docs IH]; intros pos buf hp td; [done|].
  assert (push_document flag (mkBitBuf buf hp pos) d =
    let '(buf, hp) := if (pos mod 128 =? 0)%nat then (buf ++ [Z.lor flag 0x7F], length buf)
                      else (buf, hp) in mkBitBuf (push_leb128 buf d) hp (S pos)) as E.
  { unfold push_document. cbn [bb_total_docs]. rewrite Nat.add_1_r. by destruct (_ =? 0)%nat. }
  cbn [many_bits_loop fold_left]. rewrite E.
  destruct (pos mod 128 =? 0)%nat; rewrite IH; destruct docs; try done;
    cbn [fold_left bb_total_docs bb_buf bb_header_pos];
    by replace (S pos - 1)%nat with pos by lia.
Qed.

Lemma many_bits_patch flag docs :
  docs <> [] ->
  bb_total_docs (fold_left (push_document flag) docs bit_buf_new) <> 0%nat ->
  many_bits flag docs = patch_header flag (fold_left (push_document flag) docs bit_buf_new).
Proof.
  intros Hne Ht. unfold many_bits. rewrite many_bits_loop_fold.
  change (mkBitBuf [IS_BITLIST] 0 0) with bit_buf_new.
  unfold patch_header. rewrite (proj2 (Nat.ltb_lt _ _)) by lia. by destruct docs.
Qed.

Lemma many_bits_spec s bm docs :
  docs <> [] -> Forall (fits 32) docs ->
  deserialize_bitlist bm (many_bits (flag_of s) docs) = bit_apply s bm docs.
Proof.
  intros Hne Hd. pose proof (fold_push_inv s [] docs _ (bit_buf_empty s [] eq_refl)) as Hi.
  cbn [app] in Hi. rewrite many_bits_patch; [|done|].
  - destruct (patch_header_chunks _ _ _ Hi Hd) as (cs & -> & <- & Hok).
    by apply deserialize_chunks_one.
  - rewrite (bit_buf_total _ _ _ Hi). by destruct docs.
Qed.

Lemma single_bit_many flag d : single_bit flag d = many_bits flag [d].
Proof. cbn. unfold single_bit, push_leb128, to_leb128_bytes. cbn. by rewrite Z.lor_0_r. Qed.

(** The operations one after the other. *)
Definition apply_document (bm : gset Z) (d : Z * bool) : gset Z :=
  if d.2 then {[d.1]} ∪ bm else bm ∖ {[d.1]}.

Lemma elem_of_docs_with x s documents : x ∈ docs_with s documents <-> (x, s) ∈ documents.
Proof.
  unfold docs_with. rewrite list_elem_of_fmap. split.
  - by intros ([y s'] & -> & [Hs ?]%list_elem_of_filter); cbn in *; subst.
  - intros Hin. exists (x, s). by rewrite list_elem_of_filter.
Qed.

Lemma elem_of_apply_documents x bm documents :
  x ∈ apply_documents bm documents <->
  ((x, true) ∈ documents \/ x ∈ bm) /\ (x, false) ∉ documents.
Proof.
  unfold apply_documents, bit_apply. rewrite elem_of_difference, elem_of_union.
  by rewrite !elem_of_list_to_set, !elem_of_docs_with.
Qed.

Lemma elem_of_apply_in_order x bm documents :
  NoDup documents.*1 ->
  x ∈ fold_left apply_document documents bm <->
  (x, true) ∈ documents \/ (x ∈ bm /\ (x, false) ∉ documents).
Proof.
  revert bm. induction documents as [|[d s] l IH]; intros bm; cbn [fold_left fmap list_fmap].
  - intros _. rewrite !elem_of_nil. tauto.
  - intros [Hd Hnd]%NoDup_cons. rewrite IH by done. rewrite !elem_of_cons.
    assert (forall s', (d, s') ∉ l) as Hno.
    { intros s' Hin. by apply Hd, (list_elem_of_fmap_2' fst _ _ _ Hin). }
    unfold apply_document. cbn. destruct s; set_unfold.
    + destruct (decide (x = d)) as [->|]; naive_solver.
    + destruct (decide (x = d)) as [->|]; naive_solver.
Qed.

(** ** The merge operator *)

#[local] Arguments deserialize_bitlist : simpl never.
#[local] Arguments deserialize_bitmap : simpl never.

Section Merge.
Context `{RoaringLaws}.

Lemma bitlist_items_ok items s bm it :
  docs_ok bm -> docs_ok (bitlist_items items s bm it).1.
Proof.
  revert bm it. induction items as [|n IH]; intros bm it Hbm; cbn; [done|].
  destruct (next_leb128 U32 it) as [[d it']|] eqn:E; [|done]. apply IH.
  apply from_leb128_loop_fits in E; [|done|unfold fits; cbn; lia].
  destruct s; intros x; set_unfold; [intros [->|?]; [done|by apply Hbm]|intros [? _]; by apply Hbm].
Qed.

Lemma deserialize_bitlist_ok bm bytes : docs_ok bm -> docs_ok (deserialize_bitlist bm bytes).
Proof.
  unfold deserialize_bitlist. generalize (length bytes), (drop 1 bytes). intros n it.
  revert bm it. induction n as [|n IH]; intros bm [|h it] Hbm; cbn; try done.
  pose proof (bitlist_items_ok (Z.to_nat (Z.land h 127 + 1))
    (negb (Z.land h BIT_SET =? 0)) bm it Hbm) as Hi.
  destruct (bitlist_items _ _ _ _) as [bm' [it'|]]; [by apply IH|done].
Qed.

Lemma bitmap_deserialize_ok bytes bm : bitmap_deserialize bytes = Some bm -> docs_ok bm.
Proof.
  destruct bytes as [|b l]; [done|]. unfold bitmap_deserialize.
  destruct (b =? IS_BITMAP); [apply roaring_docs|]. destruct (b =? IS_BITLIST); [|done].
  intros [= <-]. by apply deserialize_bitlist_ok.
Qed.

Lemma bitmap_merge_loop_ok bm ops bm' :
  docs_ok bm -> bitmap_merge_loop bm ops = Some bm' -> docs_ok bm'.
Proof.
  revert bm. induction ops as [|[|b op] ops IH]; intros bm Hbm; cbn; [by intros [= <-]|done|].
  destruct (b =? IS_BITMAP).
  - destruct (deserialize_bitmap _) as [u|] eqn:E; [|done]. apply roaring_docs in E. apply IH.
    destruct (negb _); [|done]. by apply set_Forall_union.
  - destruct (b =? IS_BITLIST); [|done]. apply IH. by apply deserialize_bitlist_ok.
Qed.

Lemma bitmap_deserialize_serialize bm :
  docs_ok bm -> bitmap_deserialize (IS_BITMAP :: roaring_serialize bm) = Some bm.
Proof. intros. unfold bitmap_deserialize, deserialize_bitmap. cbn. by apply roaring_roundtrip. Qed.

Lemma bitmap_merge_loop_app bm ops ops' :
  bitmap_merge_loop bm (ops ++ ops') = bm ← bitmap_merge_loop bm ops; bitmap_merge_loop bm ops'.
Proof.
  revert bm. induction ops as [|[|b op] ops IH]; intros bm; cbn; [done..|].
  destruct (b =? IS_BITMAP); [destruct (deserialize_bitmap _); [apply IH|done]|].
  destruct (b =? IS_BITLIST); [apply IH|done].
Qed.

(** The set a stored value stands for; an absent key is the empty set. *)
Definition bitmap_value (v : option (list Z)) : option (gset Z) :=
  match v with Some v => bitmap_deserialize v | None => Some ∅ end.

Lemma bitmap_merge_loop_single op : bitmap_merge_loop ∅ [op] = bitmap_deserialize op.
Proof.
  destruct op as [|b op]; [done|]. cbn. destruct (b =? IS_BITMAP).
  - unfold deserialize_bitmap. cbn. by destruct (roaring_deserialize _).
  - by destruct (b =? IS_BITLIST).
Qed.

Lemma bitmap_merge_value v ops :
  (b ← bitmap_merge v ops; bitmap_deserialize b) =
  (bm ← bitmap_value v; bitmap_merge_loop bm ops).
Proof.
  assert (forall bm ops, docs_ok bm ->
    (b ← (bm ← bitmap_merge_loop bm ops; Some (IS_BITMAP :: roaring_serialize bm));
     bitmap_deserialize b) = bitmap_merge_loop bm ops) as Hgen.
  { intros bm l Hbm. destruct (bitmap_merge_loop bm l) as [bm'|] eqn:E; [|done].
    cbn [mbind option_bind]. apply bitmap_deserialize_serialize. by eapply bitmap_merge_loop_ok. }
  destruct v as [v|]; [|destruct ops as [|op [|op' ops]]]; cbn [bitmap_value].
  - unfold bitmap_merge. destruct (bitmap_deserialize v) as [bm|] eqn:E; [|done].
    cbn [mbind option_bind]. apply Hgen. by eapply bitmap_deserialize_ok.
  - by apply (Hgen ∅ []).
  - symmetry. apply bitmap_merge_loop_single.
  - by apply (Hgen ∅ (op :: op' :: ops)).
Qed.

Lemma merge_loop_batches batches bm :
  Forall (fun b => Forall (fits 32) b.*1) batches ->
  bitmap_merge_loop bm (set_clear_bits <$> batches) = Some (fold_left apply_documents batches bm).
Proof.
  intros Hb. revert bm. induction Hb as [|b batches Hb _ IH]; intros bm; [done|].
  cbn [fmap list_fmap fold_left]. rewrite <- (set_clear_bits_spec bm b Hb), <- IH.
  destruct (set_clear_bits_head b) as [l ->]. done.
Qed.
End Merge.

Lemma i64_of_u64_id v : -2 ^ 63 <= v < 2 ^ 63 -> i64_of_u64 (u64 v) = v.
Proof.
  intros Hv. unfold i64_of_u64, wrap. destruct (Z.lt_ge_cases v 0).
  - rewrite <- (Z.mod_unique v (2 ^ 64) (-1) (v + 2 ^ 64)) by lia.
    destruct (Z.ltb_spec (v + 2 ^ 64) (2 ^ 63)); lia.
  - rewrite Z.mod_small by lia. by rewrite (proj2 (Z.ltb_lt _ _)) by lia.
Qed.

Lemma u64_i64_of_u64 v : u64 (i64_of_u64 v) = u64 v.
Proof.
  unfold i64_of_u64, wrap. destruct (v <? _); [done|].
  replace (v - 2 ^ 64) with (v + (-1) * 2 ^ 64) by lia. by rewrite Z.mod_add.
Qed.

Lemma i64_of_u64_range v : fits 64 v -> -2 ^ 63 <= i64_of_u64 v < 2 ^ 63.
Proof. unfold i64_of_u64, fits. intros. destruct (Z.ltb_spec v (2 ^ 63)); lia. Qed.

Lemma deserialize_i64_serialize v :
  -2 ^ 63 <= v < 2 ^ 63 -> deserialize_i64 (le_bytes 8 (u64 v)) = Some v.
Proof.
  intros Hv. unfold deserialize_i64. rewrite deserialize_le_le by (apply wrap_fits; lia).
  cbn. by rewrite i64_of_u64_id.
Qed.

Lemma from_le_bytes_fits l : bytes_ok l -> fits (8 * Z.of_nat (length l)) (from_le_bytes l).
Proof.
  induction 1 as [|b l Hb _ IH]; [done|]. cbn [length from_le_bytes].
  replace (8 * Z.of_nat (S (length l))) with (8 + 8 * Z.of_nat (length l)) by lia.
  unfold fits in *. rewrite Z.pow_add_r by lia. change (2 ^ 8) with 256 in *. nia.
Qed.

Lemma deserialize_i64_range bytes v :
  bytes_ok bytes -> deserialize_i64 bytes = Some v -> -2 ^ 63 <= v < 2 ^ 63.
Proof.
  unfold deserialize_i64, deserialize_le. intros Hb.
  destruct (Nat.eqb_spec (length bytes) 8) as [Hl|]; [|done]. intros [= <-].
  apply i64_of_u64_range. apply from_le_bytes_fits in Hb. by rewrite Hl in Hb.
Qed.

Lemma i64_add_assoc a b c : i64_add a (i64_add b c) = i64_add (i64_add a b) c.
Proof.
  unfold i64_add. f_equal. unfold wrap.
  rewrite <- (Zplus_mod_idemp_r (i64_of_u64 _)), <- (Zplus_mod_idemp_l (i64_of_u64 _)).
  change ((i64_of_u64 ?x) mod 2 ^ 64) with (u64 (i64_of_u64 x)).
  rewrite !u64_i64_of_u64. unfold wrap.
  rewrite !Zmod_mod, Zplus_mod_idemp_r, Zplus_mod_idemp_l. f_equal. lia.
Qed.

Lemma numeric_merge_loop_app v ops ops' :
  numeric_merge_loop v (ops ++ ops') = v ← numeric_merge_loop v ops; numeric_merge_loop v ops'.
Proof.
  revert v. induction ops as [|op ops IH]; intros v; cbn; [done|].
  destruct (deserialize_i64 op); [|done]. cbn. apply IH.
Qed.

Lemma numeric_merge_loop_range ops v v' :
  -2 ^ 63 <= v < 2 ^ 63 -> numeric_merge_loop v ops = Some v' -> -2 ^ 63 <= v' < 2 ^ 63.
Proof.
  revert v. induction ops as [|op ops IH]; intros v Hv; cbn; [by intros [= <-]|].
  destruct (deserialize_i64 op); [|done]. cbn. apply IH. apply i64_of_u64_range, wrap_fits. lia.
Qed.

Lemma numeric_merge_loop_add ops v s :
  numeric_merge_loop 0 ops = Some s ->
  -2 ^ 63 <= v < 2 ^ 63 -> numeric_merge_loop v ops = Some (i64_add v s).
Proof.
  intros Hs Hv. assert (forall a, -2 ^ 63 <= a < 2 ^ 63 -> i64_add a 0 = a) as Hz.
  { intros a Ha. unfold i64_add. rewrite Z.add_0_r. by apply i64_of_u64_id. }
  assert (forall ops a b s, numeric_merge_loop b ops = Some s ->
    numeric_merge_loop (i64_add a b) ops = Some (i64_add a s)) as Hgen.
  { clear. induction ops as [|op ops IH]; intros a b s; cbn; [by intros [= <-]|].
    destruct (deserialize_i64 op); [|done]. cbn. rewrite <- i64_add_assoc. apply IH. }
  rewrite <- (Hz v) at 1 by done. by apply Hgen.
Qed.

(** ** A concrete serialization, showing that the laws can be met *)

Module ListRoaring.
Fixpoint read_all (fuel : nat) (it : list Z) : list Z :=
  match fuel with
  | O => []
  | S fuel => match next_leb128 U32 it with Some (d, it) => d :: read_all fuel it | None => [] end
  end.

#[export] Instance list_roaring : Roaring := {
  roaring_serialize bm := docs_bytes (elements bm);
  roaring_deserialize bytes := Some (list_to_set (read_all (length bytes) bytes))
}.

Lemma read_all_docs n l : Forall (fits 32) l -> (length l <= n)%nat -> read_all n (docs_bytes l) = l.
Proof.
  intros Hl. revert n. induction Hl as [|d l Hd _ IH]; intros [|n] Hn; cbn in *; try done; try lia.
  rewrite next_leb128_app by by apply decodable_fits. rewrite IH by lia. done.
Qed.

Lemma read_all_ok n it : Forall (fits 32) (read_all n it).
Proof.
  revert it. induction n as [|n IH]; intros it; cbn; [done|].
  destruct (next_leb128 U32 it) as [[d it']|] eqn:E; [|done]. constructor; [|done].
  eapply (from_leb128_loop_fits 32); [| |exact E]; unfold fits; lia.
Qed.

#[export] Instance list_roaring_laws : RoaringLaws.
Proof.
  split.
  - intros bm Hbm. cbn. rewrite read_all_docs; [by rewrite list_to_set_elements_L| |].
    + by apply set_Forall_elements.
    + apply flat_map_leb128_length.
  - intros bytes bm [= <-] d. rewrite elem_of_list_to_set. intros Hin.
    pose proof (read_all_ok (length bytes) bytes) as Hok. rewrite Forall_forall in Hok. by apply Hok.
Qed.
End ListRoaring.

(** ** Properties *)

(** The bit-list writers and reader agree: applying the bytes of
    [set_clear_bits] to a bitmap sets and clears exactly the documents given,
    in the order given when no document is repeated, for any number of
    documents (any number of 128-document chunks); [set_bits], [clear_bits],
    [set_bit] and [clear_bit] likewise. *)
Theorem bit_lists_apply bm documents docs d :
  Forall (fits 32) documents.*1 -> NoDup documents.*1 ->
  docs <> [] -> Forall (fits 32) docs -> fits 32 d ->
  deserialize_bitlist bm (set_clear_bits documents) = fold_left apply_document documents bm /\
  deserialize_bitlist bm (set_bits docs) = list_to_set docs ∪ bm /\
  deserialize_bitlist bm (clear_bits docs) = bm ∖ list_to_set docs /\
  deserialize_bitlist bm (set_bit d) = {[d]} ∪ bm /\
  deserialize_bitlist bm (clear_bit d) = bm ∖ {[d]}.
Proof.
  intros Hok Hnd Hne Hdocs Hd. split_and!.
  - rewrite set_clear_bits_spec by done. apply set_eq. intros x.
    rewrite elem_of_apply_documents, elem_of_apply_in_order by done. split; [naive_solver|].
    intros [Hin|?]; [split; [by left|] | naive_solver]. intros Hin'.
    by eapply (NoDup_fst_inj _ _ _ _ Hnd Hin) in Hin'.
  - by apply (many_bits_spec true).
  - by apply (many_bits_spec false).
  - unfold set_bit. rewrite single_bit_many, (many_bits_spec true); [cbn; set_solver|done|by constructor].
  - unfold clear_bit. rewrite single_bit_many, (many_bits_spec false); [cbn; set_solver|done|by constructor].
Qed.

Lemma bit_lists_apply_witness :
  deserialize_bitlist {[4]} (set_clear_bits [(1, true); (4, false); (300, true)]) = {[1; 300]}.
Proof.
  rewrite (proj1 (bit_lists_apply {[4]} [(1, true); (4, false); (300, true)] [7] 9
    ltac:(repeat constructor; cbn; lia) ltac:(apply (bool_decide_unpack _); vm_compute; exact I)
    ltac:(discriminate) ltac:(repeat constructor; cbn; lia) ltac:(split; cbn; lia))).
  apply (bool_decide_eq_true_1 _). vm_compute. reflexivity.
Defined.

(** C40. The merge operator is faithful: the stored value it produces stands
    for the set obtained by applying the operands, in order, to the set the
    previous value stood for, however the store groups operands into merge
    calls, and dropping an empty bitmap at compaction changes no later read
    or merge. *)
Theorem bitmap_merge_faithful `{RoaringLaws} v ops ops' batches :
  Forall (fun b => Forall (fits 32) b.*1) batches ->
  (b ← bitmap_merge v (set_clear_bits <$> batches); bitmap_deserialize b) =
    (bm ← bitmap_value v; Some (fold_left apply_documents batches bm)) /\
  (b1 ← bitmap_merge v ops; b2 ← bitmap_merge (Some b1) ops'; bitmap_deserialize b2) =
    (b ← bitmap_merge v (ops ++ ops'); bitmap_deserialize b) /\
  (forall v', bitmap_compact_removes v' = true ->
     bitmap_value (Some v') = bitmap_value None /\
     (b ← bitmap_merge (Some v') ops; bitmap_deserialize b) =
       (b ← bitmap_merge None ops; bitmap_deserialize b)).
Proof.
  intros Hb. split_and!.
  - rewrite bitmap_merge_value. destruct (bitmap_value v) as [bm|]; [|done].
    cbn [mbind option_bind]. by apply merge_loop_batches.
  - rewrite bitmap_merge_value.
    transitivity (b1 ← bitmap_merge v ops; bm ← bitmap_deserialize b1; bitmap_merge_loop bm ops').
    + destruct (bitmap_merge v ops) as [b1|]; [|done]. apply (bitmap_merge_value (Some b1)).
    + pose proof (bitmap_merge_value v ops) as E. destruct (bitmap_value v) as [bm|]; cbn in *.
      * rewrite bitmap_merge_loop_app, <- E. by destruct (bitmap_merge v ops).
      * destruct (bitmap_merge v ops) as [b1|]; [|done]. cbn in *. by rewrite E.
  - intros v' Hc. assert (bitmap_value (Some v') = bitmap_value None) as Hv.
    { unfold bitmap_compact_removes in Hc. cbn. destruct (bitmap_deserialize v') as [bm|]; [|done].
      by apply bool_decide_eq_true_1 in Hc as ->. }
    by rewrite !bitmap_merge_value, Hv.
Qed.

#[local] Existing Instances ListRoaring.list_roaring ListRoaring.list_roaring_laws.

Lemma bitmap_merge_faithful_witness :
  (b ← bitmap_merge None (set_clear_bits <$> [[(1, true); (2, true)]; [(1, false)]]);
   bitmap_deserialize b) = Some {[2]}.
Proof.
  rewrite (proj1 (bitmap_merge_faithful None [] [] [[(1, true); (2, true)]; [(1, false)]]
    ltac:(repeat constructor; cbn; lia))).
  apply (bool_decide_eq_true_1 _). vm_compute. reflexivity.
Defined.

(** Counters merge associatively: replacing any run of operands by the
    result of merging that run on its own, as the associative merge operator
    allows the store to do, does not change the merged value. *)
Theorem numeric_merge_associative v ops1 ops2 ops3 m :
  from_option (fun b => bytes_ok b) True v -> numeric_value_merge None ops2 = Some m ->
  numeric_value_merge v (ops1 ++ [m] ++ ops3) = numeric_value_merge v (ops1 ++ ops2 ++ ops3).
Proof.
  intros Hv Hm. unfold numeric_value_merge in *. cbn [mbind option_bind] in Hm.
  destruct (numeric_merge_loop 0 ops2) as [s|] eqn:Es; [|done].
  assert (m = le_bytes 8 (u64 s)) as -> by (cbn in Hm; congruence). clear Hm.
  destruct (match v with Some _ => _ | None => _ end) as [v0|] eqn:Ev; [|done].
  cbn [mbind option_bind]. f_equal. rewrite !numeric_merge_loop_app.
  destruct (numeric_merge_loop v0 ops1) as [v1|] eqn:E1; [|done].
  cbn [mbind option_bind numeric_merge_loop app].
  rewrite numeric_merge_loop_app, deserialize_i64_serialize.
  - rewrite (numeric_merge_loop_add ops2 v1 s); [done|done|].
    eapply (numeric_merge_loop_range ops1 v0); [|done].
    destruct v; [by eapply deserialize_i64_range|]. injection Ev as <-. lia.
  - eapply (numeric_merge_loop_range ops2 0); [lia|done].
Qed.

Lemma numeric_merge_associative_witness :
  numeric_value_merge None [le_bytes 8 5; le_bytes 8 7] = Some (le_bytes 8 12) /\
  numeric_value_merge None ([le_bytes 8 1] ++ [le_bytes 8 12] ++ []) =
  numeric_value_merge None ([le_bytes 8 1] ++ [le_bytes 8 5; le_bytes 8 7] ++ []).
Proof.
  split; [reflexivity|]. apply numeric_merge_associative; [exact I|reflexivity].
Defined.
