(* ===== verification/VecMap.v ===== *)
(** * Maps as two vectors: components/store/src/core/vec_map.rs

    [VecMap] keeps its keys and values in two vectors of the same length. Each
    operation is proved to act as the corresponding operation of a finite map
    on the association that the vectors represent. Indexing [v\[pos\]] and
    [swap_remove] panic out of range, so they return [None] there; the
    invariant excludes it. *)

From S2P Require Import Prelude.

Record VecMap (K V : Type) := mkVecMap { vm_k : list K; vm_v : list V }.
Arguments mkVecMap {K V}.
Arguments vm_k {K V}.
Arguments vm_v {K V}.

(** [Vec::swap_remove]: takes the element out and moves the last one there. *)
Definition vec_swap_remove {A} (l : list A) (pos : nat) : option (A * list A) :=
  x ← l !! pos;
  y ← last l;
  Some (x, take (length l - 1) (<[pos := y]> l)).

Lemma vec_swap_remove_Some {A} (l : list A) pos x :
  l !! pos = Some x ->
  exists l', vec_swap_remove l pos = Some (x, l') /\ length l' = (length l - 1)%nat /\
    forall i, l' !! i =
      if decide (i < length l - 1)%nat then l !! (if decide (i = pos) then length l - 1 else i)%nat
      else None.
Proof.
  intros Hx. unfold vec_swap_remove. rewrite Hx. cbn.
  pose proof (lookup_lt_Some _ _ _ Hx) as Hlt.
  rewrite last_lookup, <- Nat.sub_1_r.
  destruct (lookup_lt_is_Some_2 l (length l - 1)) as [y Hy]; [lia|]. rewrite Hy. cbn.
  eexists. split; [done|]. split; [rewrite length_take, length_insert; lia|].
  intros i. destruct (decide (i < length l - 1)%nat).
  - rewrite lookup_take_lt by lia. destruct (decide (i = pos)) as [->|].
    + by rewrite list_lookup_insert_eq.
    + by rewrite list_lookup_insert_ne by done.
  - apply lookup_take_ge. lia.
Qed.

Section VecMap.
Context {K V : Type} `{EqDecision K}.
Abbreviation VecMap := (VecMap K V).

(** [iter().position(|k| k == key)]. *)
Definition position (key : K) (k : list K) : option nat := fst <$> list_find (eq key) k.

Definition vm_new : VecMap := mkVecMap [] [].

Definition vm_set (m : VecMap) (key : K) (value : V) : VecMap * bool :=
  match position key (vm_k m) with
  | Some pos => (mkVecMap (vm_k m) (<[pos := value]> (vm_v m)), false)
  | None => (mkVecMap (vm_k m ++ [key]) (vm_v m ++ [value]), true)
  end.

Definition vm_append (m : VecMap) (key : K) (value : V) : VecMap :=
  mkVecMap (vm_k m ++ [key]) (vm_v m ++ [value]).

Definition vm_get (m : VecMap) (key : K) : option V :=
  pos ← position key (vm_k m); vm_v m !! pos.

Definition vm_contains_key (m : VecMap) (key : K) : bool := bool_decide (key ∈ vm_k m).

(** [remove_entry]; [remove] drops the key. *)
Definition vm_remove_entry (m : VecMap) (key : K) : option (K * V * VecMap) :=
  pos ← position key (vm_k m);
  '(k, ks) ← vec_swap_remove (vm_k m) pos;
  '(v, vs) ← vec_swap_remove (vm_v m) pos;
  Some (k, v, mkVecMap ks vs).
Definition vm_remove (m : VecMap) (key : K) : option (V * VecMap) :=
  '(_, v, m) ← vm_remove_entry m key; Some (v, m).

Definition vm_swap_remove (m : VecMap) (index : nat) : option (V * VecMap) :=
  '(_, ks) ← vec_swap_remove (vm_k m) index;
  '(v, vs) ← vec_swap_remove (vm_v m) index;
  Some (v, mkVecMap ks vs).

Definition vm_len (m : VecMap) : nat := length (vm_k m).
Definition vm_clear (m : VecMap) : VecMap := vm_new.
Definition vm_iter (m : VecMap) : list (K * V) := zip (vm_k m) (vm_v m).

(** [get_mut_or_insert_with]: the position of the value handed out. *)
Definition vm_get_mut_or_insert (m : VecMap) (key : K) (default : V) : VecMap * nat :=
  match position key (vm_k m) with
  | Some pos => (m, pos)
  | None => (vm_append m key default, length (vm_v m))
  end.

Definition vm_from_iter (l : list (K * V)) : VecMap :=
  fold_left (fun m kv => vm_append m kv.1 kv.2) l vm_new.

(** ** Invariant: one value per key, no key twice *)
Record vm_inv (m : VecMap) : Prop := {
  vm_inv_length : length (vm_k m) = length (vm_v m);
  vm_inv_nodup : NoDup (vm_k m)
}.

Lemma position_Some key ks pos :
  NoDup ks -> position key ks = Some pos <-> ks !! pos = Some key.
Proof.
  intros Hnd. unfold position. rewrite fmap_Some. split.
  - intros ([i x] & (H1 & -> & _)%list_find_Some & ->). done.
  - intros Hl. exists (pos, key). split; [|done]. apply list_find_Some. split_and!; [done..|].
    intros j y Hj Hlt ->. pose proof (NoDup_lookup _ _ _ _ Hnd Hj Hl). lia.
Qed.

Lemma position_None key ks : position key ks = None <-> key ∉ ks.
Proof.
  unfold position. rewrite fmap_None, list_find_None, Forall_forall. split.
  - intros H Hin. by apply (H key).
  - intros H x Hin <-. done.
Qed.

(** What the map associates with a key: the value at the key's index. *)
Definition vm_maps (m : VecMap) (key : K) (v : V) : Prop :=
  exists i, vm_k m !! i = Some key /\ vm_v m !! i = Some v.

Lemma vm_get_maps m key v : vm_inv m -> vm_get m key = Some v <-> vm_maps m key v.
Proof.
  intros [Hl Hnd]. unfold vm_get, vm_maps. rewrite bind_Some.
  split; intros (i & Hi & Hv); exists i; (split; [|done]); by apply (position_Some key _ i Hnd).
Qed.

Lemma vm_get_None m key : vm_inv m -> vm_get m key = None <-> key ∉ vm_k m.
Proof.
  intros Hm. rewrite <- position_None. unfold vm_get.
  destruct (position key (vm_k m)) as [i|] eqn:E; cbn; [|done].
  destruct Hm as [Hl Hnd]. apply position_Some in E; [|done].
  split; [|done]. intros Hn. apply lookup_lt_Some in E.
  apply lookup_ge_None_1 in Hn. lia.
Qed.

Lemma vm_new_inv : vm_inv vm_new.
Proof. split; [done|constructor]. Qed.

Lemma vm_append_inv m key v : vm_inv m -> key ∉ vm_k m -> vm_inv (vm_append m key v).
Proof.
  intros [Hl Hnd] Hk. split; cbn; [rewrite !length_app; cbn; lia|].
  apply NoDup_app. split_and!; [done| |by repeat constructor; apply not_elem_of_nil].
  intros x Hx ->%list_elem_of_singleton. done.
Qed.

Lemma vm_append_get m key v key' :
  vm_inv m -> key ∉ vm_k m ->
  vm_get (vm_append m key v) key' = if decide (key = key') then Some v else vm_get m key'.
Proof.
  intros Hm Hk. pose proof (vm_append_inv m key v Hm Hk) as Ha. pose proof (vm_inv_length _ Hm) as Hl.
  destruct (decide (key = key')) as [<-|Hne].
  - apply vm_get_maps; [done|]. exists (length (vm_k m)). cbn.
    by rewrite list_lookup_middle, Hl, list_lookup_middle.
  - apply option_eq. intros w. rewrite !vm_get_maps by done. split.
    + intros (i & Hi & Hv). exists i. cbn in *.
      apply lookup_snoc_Some in Hi as [[? ?]|[_ ?]]; [|done].
      apply lookup_snoc_Some in Hv as [[? ?]|[? ?]]; [done|lia].
    + intros (i & Hi & Hv). exists i. cbn. split; by apply lookup_app_l_Some.
Qed.

Lemma vm_set_inv m key v : vm_inv m -> vm_inv (vm_set m key v).1.
Proof.
  intros Hm. unfold vm_set. destruct (position key (vm_k m)) eqn:E.
  - destruct Hm. split; cbn; [by rewrite length_insert|done].
  - apply vm_append_inv; [done|by apply position_None].
Qed.

Lemma vm_set_get m key v key' :
  vm_inv m ->
  vm_get (vm_set m key v).1 key' = if decide (key = key') then Some v else vm_get m key'.
Proof.
  intros Hm. unfold vm_set. destruct (position key (vm_k m)) as [pos|] eqn:E.
  - pose proof (vm_inv_nodup _ Hm) as Hnd. pose proof (vm_inv_length _ Hm) as Hl.
    apply position_Some in E; [|done]. unfold vm_get. cbn [fst vm_k vm_v].
    destruct (decide (key = key')) as [<-|Hne].
    + rewrite (proj2 (position_Some key _ pos Hnd)) by done. cbn.
      apply list_lookup_insert_eq. apply lookup_lt_Some in E. lia.
    + destruct (position key' (vm_k m)) as [i|] eqn:E'; [|done]. cbn.
      apply position_Some in E'; [|done]. apply list_lookup_insert_ne. congruence.
  - apply vm_append_get; [done|by apply position_None].
Qed.

(** The index a surviving entry came from. *)
Lemma vm_remove_entry_Some m key pos v :
  vm_inv m -> vm_k m !! pos = Some key -> vm_v m !! pos = Some v ->
  exists m', vm_remove_entry m key = Some (key, v, m') /\ vm_inv m' /\
    vm_len m' = (vm_len m - 1)%nat /\
    forall k w, vm_maps m' k w <-> vm_maps m k w /\ k <> key.
Proof.
  intros [Hl Hnd] Hk Hv. unfold vm_remove_entry.
  rewrite (proj2 (position_Some key _ pos Hnd)) by done. cbn [mbind option_bind].
  destruct (vec_swap_remove_Some _ _ _ Hk) as (ks & -> & Hks & Lk).
  destruct (vec_swap_remove_Some _ _ _ Hv) as (vs & -> & Hvs & Lv).
  cbn [mbind option_bind]. exists (mkVecMap ks vs). split; [done|].
  pose proof (lookup_lt_Some _ _ _ Hk) as Hlt. rewrite <- Hl in Lv. split_and!.
  - split; cbn; [congruence|]. apply NoDup_alt. intros i j x. rewrite !Lk.
    destruct (decide (i < _)%nat); [|done]. destruct (decide (j < _)%nat); [|done]. intros Hi Hj.
    pose proof (NoDup_lookup _ _ _ _ Hnd Hi Hj) as E. revert E. repeat case_decide; lia.
  - done.
  - intros k w. unfold vm_maps. cbn. split.
    + intros (i & Hi & Hw). rewrite Lk in Hi. rewrite Lv in Hw.
      destruct (decide (i < length (vm_k m) - 1)%nat); [|done].
      split; [by eexists|]. intros ->. pose proof (NoDup_lookup _ _ _ _ Hnd Hi Hk) as E.
      revert E. case_decide; lia.
    + intros [(i & Hi & Hw) Hne]. assert (i <> pos) by congruence.
      pose proof (lookup_lt_Some _ _ _ Hi).
      exists (if decide (i = length (vm_k m) - 1)%nat then pos else i). rewrite Lk, Lv.
      destruct (decide (i = length (vm_k m) - 1)%nat) as [->|].
      * repeat (case_decide; try lia). done.
      * repeat (case_decide; try lia). done.
Qed.

Lemma vm_key_get m k : vm_inv m -> k ∈ vm_k m <-> exists v, vm_get m k = Some v.
Proof.
  intros Hm. pose proof (vm_get_None m k Hm) as HN. destruct (vm_get m k) as [v|].
  - split; [by eauto|]. intros _. destruct (decide (k ∈ vm_k m)); [done|]. by apply HN in n.
  - split; [intros Hk; by apply HN in Hk|]. by intros [? ?].
Qed.

Lemma vm_remove_entry_get m k v :
  vm_inv m -> vm_get m k = Some v ->
  exists m', vm_remove_entry m k = Some (k, v, m') /\ vm_inv m' /\ forall k', vm_get m' k' = if decide (k = k') then None else vm_get m k'.
Proof.
  intros Hm Hv. apply vm_get_maps in Hv as (i & Hi & Hv); [|done].
  destruct (vm_remove_entry_Some m k i v) as (m' & Hr & Hm' & _ & Hmaps); [done..|]. exists m'. split_and!; [done..|].
  intros k'. apply option_eq. intros w. rewrite vm_get_maps, Hmaps by done. destruct (decide (k = k')) as [<-|].
  - split; [by intros [_ ?]|done].
  - rewrite vm_get_maps by done. naive_solver.
Qed.

Lemma vm_iter_elem m p w : vm_inv m -> (p, w) ∈ vm_iter m <-> vm_get m p = Some w.
Proof.
  intros Hm. rewrite vm_get_maps by done. unfold vm_iter, vm_maps. rewrite list_elem_of_lookup. split.
  - intros (i & Hi). rewrite lookup_zip_with in Hi. destruct (vm_k m !! i) eqn:Ek; [|done]. destruct (vm_v m !! i) eqn:Ev; [|done].
    injection Hi as -> ->. eauto.
  - intros (i & Hk & Hv). exists i. by rewrite lookup_zip_with, Hk, Hv.
Qed.
Lemma vm_iter_values m : vm_inv m -> (vm_iter m).*2 = vm_v m.
Proof. intros [Hl _]. apply snd_zip. lia. Qed.
End VecMap.

(** The values mapped in place. *)
Lemma vm_map_get {K V W} `{EqDecision K} (m : VecMap K V) (f : V -> W) :
  vm_inv m -> vm_inv (mkVecMap (vm_k m) (map f (vm_v m))) /\ forall k, vm_get (mkVecMap (vm_k m) (map f (vm_v m))) k = f <$> vm_get m k.
Proof.
  intros [Hl Hnd]. split; [split; cbn; [by rewrite length_map|done]|]. intros k. unfold vm_get. cbn [vm_k vm_v].
  destruct (position k (vm_k m)); [|done]. cbn. apply list_lookup_fmap.
Qed.

(** ** Properties *)

(** [VecMap] is a finite map: every operation keeps the invariant (as many
    values as keys, no key twice); [set] maps the key to the value and leaves
    the other keys alone, reporting whether the key is new; [remove] returns
    the value of the key and leaves exactly the other associations, although
    it reorders the vectors; on an absent key it does nothing. *)
Theorem vec_map_refines_map {K V : Type} `{EqDecision K} (m : VecMap K V) key v :
  vm_inv m ->
  vm_inv (vm_set m key v).1 /\
  (vm_set m key v).2 = negb (vm_contains_key m key) /\
  (forall k, vm_get (vm_set m key v).1 k = if decide (key = k) then Some v else vm_get m k) /\
  match vm_remove m key with
  | Some (w, m') =>
      vm_get m key = Some w /\ vm_inv m' /\ vm_len m' = (vm_len m - 1)%nat /\
      forall k, vm_get m' k = if decide (key = k) then None else vm_get m k
  | None => vm_get m key = None /\ vm_contains_key m key = false
  end.
Proof.
  intros Hm. split_and!; [by apply vm_set_inv| |by intros k; apply vm_set_get|].
  - unfold vm_set, vm_contains_key. destruct (position key (vm_k m)) as [i|] eqn:E; cbn.
    + apply position_Some in E; [|apply Hm]. rewrite bool_decide_eq_true_2; [done|].
      by eapply list_elem_of_lookup_2.
    + apply position_None in E. by rewrite bool_decide_eq_false_2.
  - unfold vm_remove, vm_contains_key. destruct (vm_get m key) as [w|] eqn:E.
    + apply vm_get_maps in E as Hmaps; [|done]. destruct Hmaps as (pos & Hk & Hv).
      destruct (vm_remove_entry_Some m key pos w Hm Hk Hv) as (m' & -> & Hm' & Hlen & Hmaps).
      cbn. split_and!; try done. intros k. apply option_eq. intros u. rewrite vm_get_maps, Hmaps by done.
      destruct (decide (key = k)) as [->|]; [naive_solver|]. rewrite vm_get_maps by done. naive_solver.
    + apply vm_get_None in E as Hk; [|done]. unfold vm_remove_entry.
      rewrite (proj2 (position_None key _) Hk). cbn. split; [done|]. by apply bool_decide_eq_false_2.
Qed.

Lemma vec_map_refines_map_witness :
  vm_get (vm_set (mkVecMap [1; 2; 3] [10; 20; 30]) 2 99).1 2 = Some 99.
Proof.
  assert (vm_inv (mkVecMap [1; 2; 3] [10; 20; 30])) as H.
  { split; [reflexivity|]. apply (bool_decide_unpack _). vm_compute. exact I. }
  exact (proj1 (proj2 (proj2 (vec_map_refines_map (mkVecMap [1; 2; 3] [10; 20; 30]) 2 99 H))) 2).
Defined.
