(* ===== verification/KV.v ===== *)
(** * The key-value store interface: components/store/src/lib.rs (trait [Store]),
      components/store/src/write/operation.rs, components/store_rocksdb/src/lib.rs

    The rest of the store is written against the [Store] trait. It is a class
    here; [StoreLaws] states what the clients rely on: iterators list the keys
    of a column family in byte order from a start key, and a write batch
    applies its operations in order. [MemStore] is an instance with finite
    maps. Disk errors of the backend are not modelled: every [Result] of a
    client is an [option] whose [None] is an error the client raises itself. *)

From S2P Require Import Prelude Serialize.

Inductive ColumnFamily : Set := Bitmaps | Values | Indexes | Blobs | Logs.
Inductive Direction : Set := Forward | Backward.

#[export] Instance ColumnFamily_eq_dec : EqDecision ColumnFamily.
Proof. solve_decision. Defined.

Inductive WriteOperation : Set :=
| OpSet (cf : ColumnFamily) (key value : list Z)
| OpDelete (cf : ColumnFamily) (key : list Z)
| OpMerge (cf : ColumnFamily) (key value : list Z).

Definition op_cf (op : WriteOperation) : ColumnFamily :=
  match op with OpSet cf _ _ | OpDelete cf _ | OpMerge cf _ _ => cf end.
Definition op_key (op : WriteOperation) : list Z :=
  match op with OpSet _ k _ | OpDelete _ k | OpMerge _ k _ => k end.

Class Store (DB : Type) := {
  db_get : DB -> ColumnFamily -> list Z -> option (list Z);
  db_iterator : DB -> ColumnFamily -> list Z -> Direction -> list (list Z * list Z);
  db_write : DB -> list WriteOperation -> DB;
  (** the merge operator of a column family on an existing value and one operand *)
  db_merge_op : ColumnFamily -> option (list Z) -> list Z -> option (list Z)
}.

(** The effect of an operation on the value of a key of a column family. *)
Definition op_effect `{Store DB} (cf : ColumnFamily) (key : list Z) (value : option (list Z))
    (op : WriteOperation) : option (list Z) :=
  if bool_decide (op_cf op = cf /\ op_key op = key) then
    match op with
    | OpSet _ _ v => Some v
    | OpDelete _ _ => None
    | OpMerge _ _ v => db_merge_op cf value v
    end
  else value.

Definition keys_below (l : list (list Z * list Z)) : Prop :=
  StronglySorted (fun kv kv' => bytes_lt kv.1 kv'.1) l.
Definition keys_above (l : list (list Z * list Z)) : Prop :=
  StronglySorted (fun kv kv' => bytes_lt kv'.1 kv.1) l.

Class StoreLaws (DB : Type) `{Store DB} : Prop := {
  db_write_get db ops cf key :
    db_get (db_write db ops) cf key = fold_left (op_effect cf key) ops (db_get db cf key);
  db_forward_elem db cf start k v :
    (k, v) ∈ db_iterator db cf start Forward <-> db_get db cf k = Some v /\ bytes_le start k;
  db_forward_sorted db cf start : keys_below (db_iterator db cf start Forward);
  db_backward_elem db cf start k v :
    (k, v) ∈ db_iterator db cf start Backward <-> db_get db cf k = Some v /\ bytes_le k start;
  db_backward_sorted db cf start : keys_above (db_iterator db cf start Backward)
}.

(** [starts_with] on byte slices. *)
Fixpoint starts_with (key prefix : list Z) {struct prefix} : bool :=
  match prefix, key with
  | [], _ => true
  | p :: prefix, k :: key => (p =? k) && starts_with key prefix
  | _ :: _, [] => false
  end.

Lemma starts_with_iff key prefix : starts_with key prefix = true <-> exists rest, key = prefix ++ rest.
Proof.
  revert key. induction prefix as [|p prefix IH]; intros key; cbn; [split; [by exists key|done]|].
  destruct key as [|k key]; [by split; [done|intros [? ?]]|]. rewrite andb_true_iff, Z.eqb_eq, IH.
  split; [intros [-> [r ->]]; by exists r|intros [r [= -> ->]]; eauto].
Qed.

(** A key between two keys with a prefix has the prefix. *)
Lemma prefix_between p x y k :
  bytes_le (p ++ x) k -> bytes_le k (p ++ y) -> starts_with k p = true.
Proof.
  unfold bytes_le. revert k. induction p as [|a p IH]; intros k; [done|].
  destruct k as [|b k]; cbn; [done|].
  destruct (Z.compare_spec a b) as [->|Hlt|Hgt].
  - rewrite Z.compare_refl, Z.eqb_refl. apply IH.
  - intros _. destruct (Z.compare_spec b a); [lia|lia|done].
  - done.
Qed.

(** [take_while] of an iterator loop that breaks at the first key without the prefix. *)
Fixpoint take_prefix (p : list Z) (l : list (list Z * list Z)) : list (list Z * list Z) :=
  match l with
  | [] => []
  | kv :: l => if starts_with kv.1 p then kv :: take_prefix p l else []
  end.

Section Iteration.
Context `{StoreLaws DB}.

Lemma take_prefix_elem p l k v :
  keys_below l -> (forall kv, kv ∈ l -> exists x, bytes_le (p ++ x) kv.1) ->
  (k, v) ∈ take_prefix p l <-> (k, v) ∈ l /\ starts_with k p = true.
Proof.
  intros Hs Hstart. induction Hs as [|kv l Hs IH Hlt]; cbn.
  - split; [by intros ?%not_elem_of_nil|]. intros [?%not_elem_of_nil _]. done.
  - destruct (starts_with kv.1 p) eqn:E.
    + rewrite !elem_of_cons, IH by (intros; apply Hstart; by apply elem_of_cons; right).
      split; [intros [<-|[? ?]]; auto|intros [[<-|?] ?]; auto].
    + split; [by intros ?%not_elem_of_nil|]. intros [Hin Hp]. exfalso.
      apply elem_of_cons in Hin as [<-|Hin]; [cbn in E; congruence|].
      destruct (Hstart kv) as [x Hx]; [by apply elem_of_cons; left|].
      apply starts_with_iff in Hp as [y ->]. rewrite Forall_forall in Hlt.
      specialize (Hlt _ Hin). cbn in Hlt. rewrite (prefix_between p x y) in E; [done|done|].
      apply bytes_le_lt_eq. by left.
Qed.

Lemma take_prefix_sorted p l : keys_below l -> keys_below (take_prefix p l).
Proof.
  intros Hs. induction Hs as [|kv l Hs IH Hlt]; cbn; [constructor|].
  destruct (starts_with kv.1 p); [|constructor]. constructor; [done|].
  rewrite Forall_forall in *. intros kv' Hin. apply Hlt. clear - Hin.
  induction l as [|kv0 l IH]; cbn in Hin; [done|].
  destruct (starts_with kv0.1 p); [|by apply not_elem_of_nil in Hin].
  apply elem_of_cons in Hin as [->|?]; apply elem_of_cons; auto.
Qed.

(** A loop over the keys with prefix [p] from [p ++ x] visits, in order,
    exactly the entries of the column family with that prefix from there on. *)
Lemma prefix_iteration db cf p x k v :
  (k, v) ∈ take_prefix p (db_iterator db cf (p ++ x) Forward) <->
  db_get db cf k = Some v /\ starts_with k p = true /\ bytes_le (p ++ x) k.
Proof.
  rewrite take_prefix_elem; [|apply db_forward_sorted|].
  - rewrite db_forward_elem. tauto.
  - intros [k' v'] [_ Hle]%db_forward_elem. by exists x.
Qed.

(** Deleting a list of keys of a column family. *)
Lemma write_deletes (db : DB) cf0 keys cf k :
  db_get (db_write db (OpDelete cf0 <$> keys)) cf k = if decide (cf = cf0 /\ k ∈ keys) then None else db_get db cf k.
Proof.
  rewrite db_write_get. generalize (db_get db cf k). induction keys as [|k' keys IH]; intros o; cbn [fmap list_fmap fold_left].
  - by rewrite decide_False by (by intros [_ ?%not_elem_of_nil]).
  - rewrite IH. unfold op_effect. cbn [op_cf op_key]. clear IH.
    case_bool_decide as E1; destruct (decide _) as [E2|E2], (decide _) as [E3|E3]; try done;
      exfalso; rewrite elem_of_cons in *; naive_solver.
Qed.

(** A scan from a prefix visits every entry with the prefix. *)
Lemma prefix_scan db cf p k v :
  (k, v) ∈ take_prefix p (db_iterator db cf p Forward) <->
  db_get db cf k = Some v /\ starts_with k p = true.
Proof.
  pose proof (prefix_iteration db cf p [] k v) as Hp. rewrite app_nil_r in Hp. rewrite Hp.
  split; [tauto|]. intros [Hg Hs]. split_and!; [done..|]. apply starts_with_iff in Hs as [x ->].
  unfold bytes_le. rewrite <- (app_nil_r p) at 1. rewrite bytes_cmp_app_l. by destruct x.
Qed.

(** Reading the first entry of a backward iteration: the greatest key not above the start. *)
Lemma backward_first db cf start :
  match db_iterator db cf start Backward with
  | [] => forall k v, db_get db cf k = Some v -> ~ bytes_le k start
  | (k, v) :: _ =>
      db_get db cf k = Some v /\ bytes_le k start /\
      forall k' v', db_get db cf k' = Some v' -> bytes_le k' start -> bytes_le k' k
  end.
Proof.
  pose proof (db_backward_sorted db cf start) as Hs.
  pose proof (db_backward_elem db cf start) as He.
  destruct (db_iterator db cf start Backward) as [|[k v] l].
  - intros k v Hg Hle. apply (not_elem_of_nil (k, v)), He. done.
  - destruct (proj1 (He k v)) as [Hg Hle]; [by apply elem_of_cons; left|]. split_and!; [done..|].
    intros k' v' Hg' Hle'. apply StronglySorted_inv in Hs as [_ Hs]. rewrite Forall_forall in Hs.
    assert ((k', v') ∈ (k, v) :: l) as Hin by (apply He; done).
    apply elem_of_cons in Hin as [[= -> ->]|Hin]; [done|].
    apply bytes_le_lt_eq. left. by apply (Hs (k', v')).
Qed.

Lemma forward_first db cf start :
  match db_iterator db cf start Forward with
  | [] => forall k v, db_get db cf k = Some v -> ~ bytes_le start k
  | (k, v) :: _ =>
      db_get db cf k = Some v /\ bytes_le start k /\
      forall k' v', db_get db cf k' = Some v' -> bytes_le start k' -> bytes_le k k'
  end.
Proof.
  pose proof (db_forward_sorted db cf start) as Hs.
  pose proof (db_forward_elem db cf start) as He.
  destruct (db_iterator db cf start Forward) as [|[k v] l].
  - intros k v Hg Hle. apply (not_elem_of_nil (k, v)), He. done.
  - destruct (proj1 (He k v)) as [Hg Hle]; [by apply elem_of_cons; left|]. split_and!; [done..|].
    intros k' v' Hg' Hle'. apply StronglySorted_inv in Hs as [_ Hs]. rewrite Forall_forall in Hs.
    assert ((k', v') ∈ (k, v) :: l) as Hin by (apply He; done).
    apply elem_of_cons in Hin as [[= -> ->]|Hin]; [done|].
    apply bytes_le_lt_eq. left. by apply (Hs (k', v')).
Qed.
End Iteration.

(** ** An in-memory instance *)

Module MemStore.
Abbreviation table := (gmap (list Z) (list Z)).
Record t := mk { bitmaps : table; values : table; indexes : table; blobs : table; logs : table }.

Definition empty : t := mk ∅ ∅ ∅ ∅ ∅.

Definition cf_table (db : t) (cf : ColumnFamily) : table :=
  match cf with
  | Bitmaps => bitmaps db | Values => values db | Indexes => indexes db
  | Blobs => blobs db | Logs => logs db
  end.

Definition cf_alter (f : table -> table) (db : t) (cf : ColumnFamily) : t :=
  match cf with
  | Bitmaps => mk (f (bitmaps db)) (values db) (indexes db) (blobs db) (logs db)
  | Values => mk (bitmaps db) (f (values db)) (indexes db) (blobs db) (logs db)
  | Indexes => mk (bitmaps db) (values db) (f (indexes db)) (blobs db) (logs db)
  | Blobs => mk (bitmaps db) (values db) (indexes db) (f (blobs db)) (logs db)
  | Logs => mk (bitmaps db) (values db) (indexes db) (blobs db) (f (logs db))
  end.

Definition key_le (kv kv' : list Z * list Z) : Prop := bytes_le kv.1 kv'.1.
#[export] Instance key_le_dec : RelDecision key_le.
Proof. intros kv kv'. unfold key_le. apply _. Defined.

Definition sorted (m : table) : list (list Z * list Z) := merge_sort key_le (map_to_list m).

Definition iterator (db : t) (cf : ColumnFamily) (start : list Z) (d : Direction) :=
  match d with
  | Forward => filter (fun kv => bytes_le start kv.1) (sorted (cf_table db cf))
  | Backward => reverse (filter (fun kv => bytes_le kv.1 start) (sorted (cf_table db cf)))
  end.

Section MemStore.
Variable merge_op : ColumnFamily -> option (list Z) -> list Z -> option (list Z).

Definition apply_op (db : t) (op : WriteOperation) : t :=
  match op with
  | OpSet cf k v => cf_alter (insert k v) db cf
  | OpDelete cf k => cf_alter (delete k) db cf
  | OpMerge cf k v => cf_alter (partial_alter (fun o => merge_op cf o v) k) db cf
  end.

Definition store : Store t := {|
  db_get db cf k := cf_table db cf !! k;
  db_iterator := iterator;
  db_write db ops := fold_left apply_op ops db;
  db_merge_op := merge_op
|}.

Lemma cf_table_alter f db cf cf' :
  cf_table (cf_alter f db cf) cf' =
  if decide (cf = cf') then f (cf_table db cf') else cf_table db cf'.
Proof. by destruct cf, cf'. Qed.

Lemma elem_of_sorted m k v : (k, v) ∈ sorted m <-> m !! k = Some v.
Proof. unfold sorted. rewrite merge_sort_Permutation. apply elem_of_map_to_list. Qed.

#[local] Instance key_le_trans : Transitive key_le.
Proof. intros x y z. apply bytes_le_trans. Qed.
#[local] Instance key_le_total : Total key_le.
Proof. intros x y. apply bytes_le_total. Qed.

Lemma sorted_keys m : keys_below (sorted m).
Proof.
  assert (NoDup (sorted m).*1) as Hnd.
  { unfold sorted. rewrite merge_sort_Permutation. apply NoDup_fst_map_to_list. }
  pose proof (StronglySorted_merge_sort key_le (map_to_list m)) as Hs.
  change (StronglySorted key_le (sorted m)) in Hs.
  induction Hs as [|kv l Hs IH Hle]; [constructor|]. cbn in Hnd.
  apply NoDup_cons in Hnd as [Hk Hnd]. constructor; [by apply IH|].
  rewrite Forall_forall in *. intros kv' Hin.
  destruct (proj1 (bytes_le_lt_eq _ _) (Hle _ Hin)) as [?|He]; [done|].
  exfalso. apply Hk. rewrite He. by apply list_elem_of_fmap_2.
Qed.

Lemma reverse_sorted (l : list (list Z * list Z)) : keys_below l -> keys_above (reverse l).
Proof.
  induction 1 as [|x l Hs IH Hx]; [constructor|]. rewrite reverse_cons.
  unfold keys_above in *. clear Hs. rewrite Forall_forall in Hx.
  assert (forall y, y ∈ reverse l -> bytes_lt x.1 y.1) as Hr
    by (intros y Hy; apply Hx; by apply elem_of_reverse).
  clear Hx. induction IH as [|y l' Hl' IH' Hy]; cbn.
  - by repeat constructor.
  - constructor; [apply IH'; intros; apply Hr; by apply elem_of_cons; right|].
    apply Forall_app. split; [done|]. constructor; [|done]. apply Hr. by apply elem_of_cons; left.
Qed.

Lemma apply_op_get db op cf k :
  cf_table (apply_op db op) cf !! k = @op_effect t store cf k (cf_table db cf !! k) op.
Proof.
  unfold op_effect. destruct op as [cf' k' v|cf' k'|cf' k' v]; cbn; rewrite cf_table_alter;
    (destruct (decide (cf' = cf)) as [->|];
      [|by rewrite bool_decide_eq_false_2 by naive_solver]);
    (destruct (decide (k' = k)) as [->|];
      [rewrite bool_decide_eq_true_2 by done|rewrite bool_decide_eq_false_2 by naive_solver]).
  - apply lookup_insert_eq.
  - by apply lookup_insert_ne.
  - apply lookup_delete_eq.
  - by apply lookup_delete_ne.
  - by rewrite lookup_partial_alter_eq.
  - by apply lookup_partial_alter_ne.
Qed.

Lemma laws : @StoreLaws t store.
Proof.
  split; cbn.
  - intros db ops cf key. revert db. induction ops as [|op ops IH]; intros db; cbn; [done|].
    by rewrite IH, apply_op_get.
  - intros db cf start k v. rewrite list_elem_of_filter, elem_of_sorted. cbn. tauto.
  - intros db cf start. apply StronglySorted_filter, sorted_keys.
  - intros db cf start k v. rewrite elem_of_reverse, list_elem_of_filter, elem_of_sorted. cbn. tauto.
  - intros db cf start. apply reverse_sorted, StronglySorted_filter, sorted_keys.
Qed.
End MemStore.

(** The store without merge operators, for the column families that have none. *)
Definition plain_merge (cf : ColumnFamily) (old : option (list Z)) (v : list Z) : option (list Z) :=
  Some v.
End MemStore.

Module PlainStore.
#[export] Instance plain_store : Store MemStore.t := MemStore.store MemStore.plain_merge.
#[export] Instance plain_laws : StoreLaws MemStore.t := MemStore.laws MemStore.plain_merge.

(** A key of a store that was only written with [OpSet]. *)
Lemma written_get cf ops k v :
  Forall (fun op => exists cf key value, op = OpSet cf key value) ops ->
  db_get (db_write MemStore.empty ops) cf k = Some v -> OpSet cf k v ∈ ops.
Proof.
  intros Hops. rewrite db_write_get. assert (db_get MemStore.empty cf k = None) as -> by (by destruct cf).
  assert (forall o, fold_left (op_effect cf k) ops o = Some v -> o = Some v \/ OpSet cf k v ∈ ops) as Hgen.
  { induction Hops as [|op ops (cf' & key & value & ->) _ IH]; intros o; cbn [fold_left]; [by left|].
    intros [Ho|Hin]%IH; [|right; by apply elem_of_cons; right]. unfold op_effect in Ho. cbn [op_cf op_key] in Ho.
    case_bool_decide as Hk; [|by left]. right. destruct Hk as [-> <-]. injection Ho as <-.
    by apply elem_of_cons; left. }
  intros [?|?]%Hgen; done.
Qed.
End PlainStore.
