(* ===== verification/Blob.v ===== *)
(** * Blobs: components/store/src/blob/store.rs, blob/purge.rs, blob/local.rs

    A blob is kept under the hash of its contents, in the database or in an
    external store, with links: ephemeral ones with a timestamp, written on
    upload, and permanent ones of documents. [purge_blobs] removes expired
    ephemeral links and the blobs without a link left. The external store is
    the trait [BlobStore], a class here, with what a purge relies on as the laws
    [BlobStoreLaws], which [LocalBlobStore], one file per blob, satisfies; the
    lock that serialises operations on a blob and the clock are not part of the
    state: the time is an argument. *)

From S2P Require Import Prelude Leb128 Base32 Serialize Types Keys KV.

(** The operations of the trait [BlobStore] on its state [E]. *)
Class BlobStore (E : Type) := {
  ext_put : E -> BlobId -> list Z -> res E;
  ext_get_range : E -> BlobId -> Z -> Z -> res (option (list Z));
  ext_delete : E -> BlobId -> E
}.

(** A deleted external blob is not there any more, and the others are. *)
Definition external_id (id : BlobId) : Prop := blob_is_local id = false /\ blob_wf id.
Class BlobStoreLaws (E : Type) `{BlobStore E} : Prop := {
  ext_deleted e id first last : external_id id -> ext_get_range (ext_delete e id) id first last = Ok None;
  ext_others e id id' first last : external_id id -> external_id id' -> id <> id' ->
    ext_get_range (ext_delete e id) id' first last = ext_get_range e id' first last
}.

(** ** [LocalBlobStore]: files by path

    The file system maps the components of a path to the bytes of a file; that
    it fails, or that other processes change it, is not modelled. *)
Abbreviation files := (gmap (list (list Z)) (list Z)).

(** [Display for BlobId], and ["{:x}"] of a byte. *)
Definition blob_display (id : BlobId) : list Z := finalize (Base32.write_bytes Base32Writer_new (blob_hash id)).
Definition hex_digit (n : Z) : Z := if n <? 10 then 48 + n else 87 + n.
Definition lower_hex (b : Z) : list Z := if b <? 16 then [hex_digit b] else [hex_digit (b / 16); hex_digit (b mod 16)].

Section LocalBlobStore.
Variables (base_path : list (list Z)) (hash_levels : nat).

Definition get_path (id : BlobId) : list (list Z) :=
  base_path ++ (lower_hex <$> take hash_levels (blob_hash id)) ++ [blob_display id].

Definition file_put (fs : files) (id : BlobId) (blob : list Z) : res files :=
  match fs !! get_path id with
  | Some old => Ok (if (length old =? length blob)%nat then fs else <[get_path id := blob]> fs)
  | None => Ok (<[get_path id := blob]> fs)
  end.
(** The size of the buffer is a subtraction of [u32]s. *)
Definition file_get_range (fs : files) (id : BlobId) (first last : Z) : res (option (list Z)) :=
  match fs !! get_path id with
  | None => Ok None
  | Some blob =>
      if negb (first =? 0) || negb (last =? U32_MAX) then
        let blob_size := u32 (Z.of_nat (length blob)) in
        let from_offset := if first <? blob_size then first else 0 in
        if Z.min last blob_size <? from_offset then Panic
        else Ok (Some (take (Z.to_nat (Z.min last blob_size - from_offset)) (drop (Z.to_nat from_offset) blob)))
      else Ok (Some blob)
  end.
Definition file_delete (fs : files) (id : BlobId) : files := delete (get_path id) fs.

Definition LocalBlobStore : BlobStore files := Build_BlobStore files file_put file_get_range file_delete.
End LocalBlobStore.

Lemma yields_functional `{ByteIterator It} (it it1 it2 : It) bs bs' :
  yields it bs it1 -> yields it bs' it2 -> it_next it1 = None -> it_next it2 = None -> bs = bs'.
Proof.
  intros Hy. revert bs' it2. induction Hy as [it|it b it' bs it'' Hn _ IH]; intros bs' it2 Hy' He He'.
  - inversion Hy' as [|? ? ? ? ? Hn]; subst; [done|congruence].
  - inversion Hy' as [|? b' it3 bs3 ? Hn' Hy3]; subst; [congruence|]. rewrite Hn in Hn'. injection Hn' as <- <-. f_equal. by eapply IH.
Qed.
Lemma blob_display_inj id id' : external_id id -> external_id id' -> blob_display id = blob_display id' -> id = id'.
Proof.
  intros [Hl [_ Hb]] [Hl' [_ Hb']] E. destruct (base32_roundtrip _ Hb) as (it & Hy & He), (base32_roundtrip _ Hb') as (it' & Hy' & He').
  unfold blob_display in E. rewrite E in Hy. pose proof (yields_functional _ _ _ _ _ Hy Hy' He He') as Eh.
  destruct id, id'; cbn in *; congruence.
Qed.
Lemma LocalBlobStore_laws base_path hash_levels : @BlobStoreLaws files (LocalBlobStore base_path hash_levels).
Proof.
  split; cbn; unfold file_get_range, file_delete.
  - intros e id first last _. by rewrite lookup_delete_eq.
  - intros e id id' first last Hid Hid' Hne. rewrite lookup_delete_ne; [done|]. intros E. apply Hne. apply blob_display_inj; [done..|].
    unfold get_path in E. rewrite !(assoc_L (++)) in E. by apply app_inj_tail in E as [_ ?].
Qed.

Section Blob.
Context `{Store DB} `{BlobStore E}.

(** [config.blob_temp_ttl]. *)
Variable blob_temp_ttl : Z.

Record blobs := mkBlobs { bl_db : DB; bl_ext : E }.

Definition db_exists (db : DB) (cf : ColumnFamily) (key : list Z) : bool :=
  bool_decide (db_get db cf key <> None).

Definition blob_store (timestamp : Z) (s : blobs) (blob_id : BlobId) (bytes : list Z) : res (blobs * list Z) :=
  let key := BlobKey.serialize blob_id in
  if db_exists (bl_db s) Blobs key then Ok (s, bytes)
  else
    '(ext, result, value) ←
      (if negb (blob_is_local blob_id) then
         ext ← ext_put (bl_ext s) blob_id bytes; Ok (ext, bytes, [])
       else Ok (bl_ext s, [], bytes));
    Ok (mkBlobs (db_write (bl_db s)
          [OpSet Blobs key value;
           OpSet Blobs (BlobKey.serialize_prefix blob_id 0) (le_bytes 8 timestamp)]) ext, result).

Definition blob_exists (db : DB) (blob_id : BlobId) : bool := db_exists db Blobs (BlobKey.serialize blob_id).

Definition blob_link_ephemeral (timestamp : Z) (db : DB) (blob_id : BlobId) (account_id : AccountId) : DB :=
  db_write db [OpSet Blobs (BlobKey.serialize_prefix blob_id account_id) (le_bytes 8 timestamp)].

Definition blob_get (s : blobs) (blob_id : BlobId) : res (option (list Z)) :=
  if negb (blob_is_local blob_id) then ext_get_range (bl_ext s) blob_id 0 U32_MAX
  else Ok (db_get (bl_db s) Blobs (BlobKey.serialize blob_id)).

Definition blob_get_range (s : blobs) (blob_id : BlobId) (first last : Z) : res (option (list Z)) :=
  if negb (blob_is_local blob_id) then ext_get_range (bl_ext s) blob_id first last
  else Ok (bytes ← db_get (bl_db s) Blobs (BlobKey.serialize blob_id);
           get_range bytes (Z.to_nat first) (Z.to_nat last)).

(** The loop of [blob_account_has_access]. *)
Fixpoint account_access_loop (prefix : list Z) (account_ids : list AccountId) (it : list (list Z * list Z)) : bool :=
  match it with
  | [] => false
  | (key, _) :: it =>
      if starts_with key prefix then
        if (length prefix <? length key)%nat then
          match read_leb128 U32 (drop (length prefix) key) with
          | Some (account_id, _) =>
              if bool_decide (account_id ∈ account_ids) then true
              else account_access_loop prefix account_ids it
          | None => false
          end
        else account_access_loop prefix account_ids it
      else false
  end.
Definition blob_account_has_access (db : DB) (blob_id : BlobId) (account_ids : list AccountId) : bool :=
  let prefix := BlobKey.serialize_prefix blob_id U32_MAX in
  account_access_loop prefix account_ids (db_iterator db Blobs prefix Forward).

Fixpoint document_access_loop (prefix : list Z) (documents : gset Z) (it : list (list Z * list Z)) : bool :=
  match it with
  | [] => false
  | (key, _) :: it =>
      if starts_with key prefix && (length prefix <? length key)%nat then
        match read_leb128 U32 (drop (length prefix) key) with
        | Some (document_id, _) =>
            if bool_decide (document_id ∈ documents) then true else document_access_loop prefix documents it
        | None => false
        end
      else false
  end.
Definition blob_document_has_access (db : DB) (blob_id : BlobId) (account_id : AccountId)
    (collection : Collection.t) (documents : gset Z) : bool :=
  let prefix := BlobKey.serialize_collection blob_id account_id collection in
  document_access_loop prefix documents (db_iterator db Blobs prefix Forward).

Definition blob_any_linked_document (db : DB) (blob_id : BlobId) (account_id : AccountId)
    (collection : Collection.t) : option DocumentId :=
  let prefix := BlobKey.serialize_collection blob_id account_id collection in
  match db_iterator db Blobs prefix Forward with
  | (key, _) :: _ =>
      if starts_with key prefix && (length prefix <? length key)%nat then
        fst <$> read_leb128 U32 (drop (length prefix) key)
      else None
  | [] => None
  end.

(** ** Purging *)

Definition BASE_LEN : nat := (BLOB_HASH_LEN + 1)%nat.

Definition expired (now timestamp : Z) : bool :=
  ((timestamp <=? now) && (blob_temp_ttl <? now - timestamp)) ||
  ((now <? timestamp) && (blob_temp_ttl <? timestamp - now)).

(** The variables of [purge_blobs]; the counter is a [u32]. *)
Record purge := mkPurge {
  pg_blobs : blobs; pg_batch : list WriteOperation; pg_blob_id : list Z; pg_link_count : Z }.

Definition delete_blobs (st : purge) : res purge :=
  '(batch, ext) ←
    (if pg_link_count st =? 0 then
       let batch := pg_batch st ++ [OpDelete Blobs (pg_blob_id st)] in
       if bool_decide (head (pg_blob_id st) = Some BLOB_EXTERNAL) then
         id ← unwrap (blob_deserialize (pg_blob_id st));
         Ok (batch, ext_delete (bl_ext (pg_blobs st)) id)
       else Ok (batch, bl_ext (pg_blobs st))
     else Ok (pg_batch st, bl_ext (pg_blobs st)));
  let db := bl_db (pg_blobs st) in
  Ok (match batch with
      | [] => mkPurge (mkBlobs db ext) [] (pg_blob_id st) (pg_link_count st)
      | _ => mkPurge (mkBlobs (db_write db batch) ext) [] (pg_blob_id st) (pg_link_count st)
      end).

(** [blob_link_count += 1]. *)
Definition count_link (st : purge) : purge :=
  mkPurge (pg_blobs st) (pg_batch st) (pg_blob_id st) (u32 (pg_link_count st + 1)).

Definition purge_link (now : Z) (key value : list Z) (st : purge) : res purge :=
  match skip_leb128_pos 0 (drop BASE_LEN key) with
  | Some bytes_read =>
      if (length key =? BASE_LEN + bytes_read)%nat then
        timestamp ← ok_or (deserialize_le 8 value);
        if expired now timestamp then
          Ok (mkPurge (pg_blobs st) (pg_batch st ++ [OpDelete Blobs key]) (pg_blob_id st) (pg_link_count st))
        else Ok (count_link st)
      else Ok (count_link st)
  | None => Ok st
  end.

Definition purge_entry (now : Z) (key value : list Z) (st : purge) : res purge :=
  if (length key <? BASE_LEN)%nat then Ok st
  else
    st ← (if bool_decide (take BASE_LEN key <> pg_blob_id st) then
            st ← delete_blobs st;
            Ok (mkPurge (pg_blobs st) (pg_batch st) (take BASE_LEN key) 0)
          else Ok st);
    if (BASE_LEN <? length key)%nat then purge_link now key value st else Ok st.

Fixpoint purge_loop (now : Z) (it : list (list Z * list Z)) (st : purge) : res purge :=
  match it with
  | [] => Ok st
  | (key, value) :: it => st ← purge_entry now key value st; purge_loop now it st
  end.

Definition purge_blobs (now : Z) (s : blobs) : res blobs :=
  st ← purge_loop now (db_iterator (bl_db s) Blobs [] Forward)
         (mkPurge s [] (replicate BASE_LEN 0) U32_MAX);
  pg_blobs <$> delete_blobs st.
End Blob.

(** ** What a purge removes *)

Section Purge.
Context `{StoreLaws DB} `{BlobStoreLaws E}.
Variables (blob_temp_ttl now : Z) (s0 : blobs (DB := DB) (E := E)).
Abbreviation db0 := (bl_db s0).
Abbreviation entry := (list Z * list Z)%type.

Definition long (e : entry) : bool := (BASE_LEN <=? length e.1)%nat.
Definition base (e : entry) : list Z := take BASE_LEN e.1.
(** A link: something after the hash that starts with an account id. *)
Definition link_bytes (e : entry) : option nat :=
  if (BASE_LEN <? length e.1)%nat then skip_leb128_pos 0 (drop BASE_LEN e.1) else None.
Definition ephemeral (e : entry) : bool :=
  match link_bytes e with Some n => (length e.1 =? BASE_LEN + n)%nat | None => false end.
Definition link_expired (e : entry) : bool :=
  ephemeral e && expired blob_temp_ttl now (default 0 (deserialize_le 8 e.2)).
Definition live_link (e : entry) : bool :=
  match link_bytes e with Some _ => negb (link_expired e) | None => false end.

(** Keys removed once every group but the current one is finished. *)
Definition no_live (d : list entry) (b : list Z) : bool :=
  forallb (fun e => negb (bool_decide (base e = b) && live_link e)) d.
Definition unlinked (d : list entry) (k : list Z) : bool :=
  existsb (fun e => long e && bool_decide (base e = k)) d && no_live d k.
Definition outdated (d : list entry) (k : list Z) : bool :=
  existsb (fun e => bool_decide (e.1 = k) && link_expired e) d.
Definition gone (d : list entry) (cur k : list Z) : bool :=
  negb (bool_decide (take BASE_LEN k = cur)) && (outdated d k || unlinked d k).

Definition cur_expired (d : list entry) (cur : list Z) : list (list Z) :=
  fst <$> filter (fun e => base e = cur /\ link_expired e = true) d.
Definition live_count (d : list entry) (b : list Z) : nat :=
  length (filter (fun e => base e = b /\ live_link e = true) d).

Record purge_inv (d : list entry) (st : purge (DB := DB) (E := E)) : Prop := {
  pi_cur : (forallb (fun e => negb (long e)) d = true /\ pg_link_count st = U32_MAX /\ pg_blob_id st = replicate BASE_LEN 0) \/
    (exists d1 e d2, d = d1 ++ e :: d2 /\ long e = true /\ base e = pg_blob_id st /\
      forallb (fun e => negb (long e)) d2 = true /\
      pg_link_count st = Z.of_nat (live_count d (pg_blob_id st)));
  pi_batch : pg_batch st = OpDelete Blobs <$> cur_expired d (pg_blob_id st);
  pi_db cf k : db_get (bl_db (pg_blobs st)) cf k =
    if decide (cf = Blobs /\ gone d (pg_blob_id st) k = true) then None else db_get db0 cf k;
  pi_ext id first last : external_id id -> ext_get_range (bl_ext (pg_blobs st)) id first last =
    if gone d (pg_blob_id st) (BlobKey.serialize id) then Ok None else ext_get_range (bl_ext s0) id first last
}.

Lemma link_bytes_long e n : link_bytes e = Some n -> long e = true.
Proof. unfold link_bytes, long. destruct (Nat.ltb_spec BASE_LEN (length e.1)); [|done]. intros _. apply Nat.leb_le. lia. Qed.
Lemma live_link_long e : live_link e = true -> long e = true.
Proof. unfold live_link. destruct (link_bytes e) eqn:En; [|done]. intros _. by eapply link_bytes_long. Qed.
Lemma link_expired_long e : link_expired e = true -> long e = true.
Proof.
  unfold link_expired, ephemeral. destruct (link_bytes e) eqn:En; [|done]. intros _. by eapply link_bytes_long.
Qed.

Lemma base_length e : long e = true -> length (base e) = BASE_LEN.
Proof. unfold long, base. intros Hl%Nat.leb_le. rewrite length_take. lia. Qed.
Lemma base_base e : take BASE_LEN (base e) = base e.
Proof. unfold base. by rewrite take_take, Nat.min_id. Qed.

Lemma outdated_elem d k :
  outdated d k = true <-> exists e, e ∈ d /\ e.1 = k /\ link_expired e = true.
Proof.
  unfold outdated. rewrite existsb_exists. split.
  - intros (e & Hin%list_elem_of_In & [Hk%bool_decide_eq_true He]%andb_true_iff). by exists e.
  - intros (e & Hin%list_elem_of_In & Hk & He). exists e. split; [done|]. by rewrite bool_decide_eq_true_2, He.
Qed.
Lemma no_live_elem d b : no_live d b = true <-> forall e, e ∈ d -> base e = b -> live_link e = false.
Proof.
  unfold no_live. rewrite forallb_forall. setoid_rewrite <- list_elem_of_In.
  split; intros Hd e He; specialize (Hd e He).
  - intros Hb. rewrite bool_decide_eq_true_2 in Hd by done. by destruct (live_link e).
  - case_bool_decide as Hb; [by rewrite (Hd Hb)|done].
Qed.
Lemma unlinked_elem d k :
  unlinked d k = true <->
  (exists e, e ∈ d /\ long e = true /\ base e = k) /\ forall e, e ∈ d -> base e = k -> live_link e = false.
Proof.
  unfold unlinked. rewrite andb_true_iff, no_live_elem, existsb_exists. apply and_iff_compat_r. split.
  - intros (e & Hin%list_elem_of_In & [Hl Hk%bool_decide_eq_true]%andb_true_iff). by exists e.
  - intros (e & Hin%list_elem_of_In & Hl & Hk). exists e. split; [done|]. by rewrite Hl, bool_decide_eq_true_2.
Qed.
Lemma cur_expired_elem d cur k :
  k ∈ cur_expired d cur <-> outdated d k = true /\ take BASE_LEN k = cur.
Proof.
  unfold cur_expired. rewrite list_elem_of_fmap, outdated_elem. split.
  - intros (e & -> & [[Hb He] Hin]%list_elem_of_filter). split; [by exists e|done].
  - intros [(e & Hin & <- & He) Hb]. exists e. split; [done|]. by apply list_elem_of_filter.
Qed.
Lemma live_count_zero d b : live_count d b = 0%nat <-> forall e, e ∈ d -> base e = b -> live_link e = false.
Proof.
  unfold live_count. split.
  - intros Hl%length_zero_iff_nil e Hin Hb. destruct (live_link e) eqn:El; [|done].
    assert (e ∈ filter (fun e => base e = b /\ live_link e = true) d) as Hf by by apply list_elem_of_filter.
    rewrite Hl in Hf. by apply not_elem_of_nil in Hf.
  - intros Hd. rewrite filter_none; [done|]. intros e Hin [Hb El]. rewrite Hd in El by done. done.
Qed.

(** The counter tells whether the current group has a link left. *)
Lemma count_unlinked d st : purge_inv d st -> unlinked d (pg_blob_id st) = (pg_link_count st =? 0).
Proof.
  intros Hi. apply eq_true_iff_eq. rewrite unlinked_elem, Z.eqb_eq.
  destruct (pi_cur _ _ Hi) as [(Hs & Hm & _)|(d1 & e & d2 & Hd & Hl & Hb & _ & Hc)].
  - split; [|rewrite Hm; by intros [=]]. intros [(e & Hin & Hl & _) _]. rewrite forallb_forall in Hs.
    specialize (Hs e ltac:(by apply list_elem_of_In)). by rewrite Hl in Hs.
  - rewrite <- live_count_zero, Hc. split; [lia|]. intros Hz. split; [|lia].
    exists e. split; [rewrite Hd; apply elem_of_app; right; by apply elem_of_cons; left|done].
Qed.

(** Leaving a group: its expired links go, and the blob if no link is left. *)
Lemma delete_blobs_spec d st :
  purge_inv d st ->
  exists st', delete_blobs st = Ok st' /\ pg_batch st' = [] /\
    forall cf k, db_get (bl_db (pg_blobs st')) cf k =
      if decide (cf = Blobs /\ (outdated d k || unlinked d k) = true) then None else db_get db0 cf k.
Proof.
  intros Hi.
  assert (forall keys, (forall k, k ∈ keys <-> take BASE_LEN k = pg_blob_id st /\ (outdated d k || unlinked d k) = true) ->
    forall cf k, db_get (db_write (bl_db (pg_blobs st)) (OpDelete Blobs <$> keys)) cf k =
      if decide (cf = Blobs /\ (outdated d k || unlinked d k) = true) then None else db_get db0 cf k) as Hw.
  { intros keys Hk cf k. rewrite write_deletes, (pi_db _ _ Hi). unfold gone.
    specialize (Hk k). destruct (decide (take BASE_LEN k = pg_blob_id st)) as [Hb|Hb].
    - rewrite bool_decide_eq_true_2 by done. cbn [negb andb]. rewrite (decide_False (P := cf = Blobs /\ false = true)) by naive_solver.
      apply decide_ext. rewrite Hk. tauto.
    - rewrite bool_decide_eq_false_2 by done. cbn [negb andb].
      rewrite (decide_False (P := cf = Blobs /\ k ∈ keys)) by (intros [_ ?%Hk]; tauto). done. }
  assert (forall k, k ∈ cur_expired d (pg_blob_id st) <-> take BASE_LEN k = pg_blob_id st /\ outdated d k = true) as Hexp
    by (intros k; rewrite cur_expired_elem; tauto).
  assert (forall k, take BASE_LEN k = pg_blob_id st -> unlinked d k = true -> k = pg_blob_id st) as Hcur.
  { intros k Hk [(e & _ & _ & <-) _]%unlinked_elem. by rewrite <- Hk, base_base. }
  assert (Hpi := pi_cur _ _ Hi). unfold delete_blobs. rewrite (pi_batch _ _ Hi).
  destruct (Z.eqb_spec (pg_link_count st) 0) as [E0|E0].
  - destruct Hpi as [(_ & Hm & _)|(d1 & e & d2 & Hd & Hl & Hb & _ & Hc)]; [lia|].
    assert (unlinked d (pg_blob_id st) = true) as Hun by (rewrite count_unlinked, E0 by done; done).
    assert (forall k, k ∈ cur_expired d (pg_blob_id st) ++ [pg_blob_id st] <->
      take BASE_LEN k = pg_blob_id st /\ (outdated d k || unlinked d k) = true) as Hkeys.
    { intros k. rewrite elem_of_app, list_elem_of_singleton, Hexp, orb_true_iff. split.
      - intros [[? ?]| ->]; [tauto|]. split; [by rewrite <- Hb, base_base|by right].
      - intros [Hk [?|?]]; [by left|right; by apply Hcur]. }
    specialize (Hw _ Hkeys). rewrite fmap_app in Hw. cbn [fmap list_fmap] in Hw.
    assert (exists op ops, (OpDelete Blobs <$> cur_expired d (pg_blob_id st)) ++ [OpDelete Blobs (pg_blob_id st)] = op :: ops)
      as (op & ops & Ebatch) by (destruct (cur_expired d (pg_blob_id st)); by eexists _, _).
    case_bool_decide.
    + assert (exists id, blob_deserialize (pg_blob_id st) = Some id) as (id & ->).
      { rewrite <- Hb. pose proof (base_length e Hl) as Hlen. unfold blob_deserialize.
        destruct (base e) as [|b0 bs] eqn:Eb; [done|]. unfold get_range. rewrite Hlen. by eexists. }
      cbn [unwrap mbind res_bind]. rewrite Ebatch, <- Ebatch. eexists. split; [done|]. split; [done|]. apply Hw.
    + cbn [mbind res_bind]. rewrite Ebatch, <- Ebatch. eexists. split; [done|]. split; [done|]. apply Hw.
  - assert (forall k, take BASE_LEN k = pg_blob_id st -> unlinked d k = false) as Hun.
    { intros k Hk. destruct (unlinked d k) eqn:Eu; [|done]. exfalso. pose proof (Hcur k Hk Eu) as ->.
      rewrite count_unlinked in Eu by done. lia. }
    specialize (Hw (cur_expired d (pg_blob_id st)) ltac:(intros k; rewrite Hexp, orb_true_iff; split;
      [tauto|intros [Hk [?|Hu]]; [done|by rewrite Hun in Hu]])).
    cbn [mbind res_bind]. destruct (cur_expired d (pg_blob_id st)) as [|k0 ks] eqn:Ek; cbn [fmap list_fmap].
    + eexists. split; [done|]. split; [done|]. cbn [pg_blobs bl_db]. intros cf k. rewrite <- Hw.
      by rewrite write_deletes, decide_False by (by intros [_ ?%not_elem_of_nil]).
    + eexists. split; [done|]. split; [done|]. apply Hw.
Qed.

(** The external store follows. *)
Lemma blob_key_take id : blob_wf id -> take BASE_LEN (BlobKey.serialize id) = BlobKey.serialize id.
Proof. intros [Hl _]. apply take_ge. unfold BlobKey.serialize, BlobKey.prefix. cbn [length]. rewrite Hl. unfold BASE_LEN. lia. Qed.
Lemma blob_key_not_outdated d id : blob_wf id -> outdated d (BlobKey.serialize id) = false.
Proof.
  intros [Hl _]. apply not_true_iff_false. intros (e & _ & Hk & Hx)%outdated_elem. revert Hx. unfold link_expired, ephemeral, link_bytes.
  rewrite Hk. unfold BlobKey.serialize, BlobKey.prefix, BASE_LEN. cbn [length]. rewrite Hl. by vm_compute.
Qed.
Lemma current_id d st :
  purge_inv d st -> (forall e, e ∈ d -> bytes_ok e.1) -> pg_link_count st = 0 -> head (pg_blob_id st) = Some BLOB_EXTERNAL ->
  exists id, blob_deserialize (pg_blob_id st) = Some id /\ external_id id /\ BlobKey.serialize id = pg_blob_id st.
Proof.
  intros Hi Hok Hz Hh. destruct (pi_cur _ _ Hi) as [(_ & Hm & _)|(d1 & e & d2 & Hd & Hl & Hb & _)]; [rewrite Hz in Hm; discriminate Hm|].
  assert (bytes_ok (pg_blob_id st)) as Hc.
  { rewrite <- Hb. apply Forall_take, Hok. rewrite Hd. apply elem_of_app. right. by apply elem_of_cons; left. }
  pose proof (base_length e Hl) as Hlen. rewrite Hb in Hlen. destruct (pg_blob_id st) as [|b0 hash]; [done|].
  injection Hh as ->. injection Hlen as Hlen. apply Forall_cons in Hc as [_ Hc].
  assert (blob_wf (External hash)) as Hwf by (split; [exact Hlen|exact Hc]).
  exists (External hash). split; [|done]. pose proof (blob_deserialize_app (External hash) [] Hwf) as Er. by rewrite app_nil_r in Er.
Qed.
Lemma delete_blobs_ext d st st' id first last :
  purge_inv d st -> (forall e, e ∈ d -> bytes_ok e.1) -> delete_blobs st = Ok st' -> external_id id ->
  ext_get_range (bl_ext (pg_blobs st')) id first last =
  if outdated d (BlobKey.serialize id) || unlinked d (BlobKey.serialize id) then Ok None else ext_get_range (bl_ext s0) id first last.
Proof.
  intros Hi Hok Hd Hid. pose proof (pi_ext _ _ Hi id first last Hid) as He. destruct Hid as [Hloc Hwf].
  unfold gone in He. rewrite blob_key_take, blob_key_not_outdated in * by done. cbn [orb] in *.
  assert (forall ext, delete_blobs st = Ok st' -> (if pg_link_count st =? 0 then
       if bool_decide (head (pg_blob_id st) = Some BLOB_EXTERNAL) then
         id ← unwrap (blob_deserialize (pg_blob_id st)); Ok (ext_delete (bl_ext (pg_blobs st)) id)
       else Ok (bl_ext (pg_blobs st)) else Ok (bl_ext (pg_blobs st))) = Ok ext -> bl_ext (pg_blobs st') = ext) as Hext.
  { intros ext. unfold delete_blobs. destruct (pg_link_count st =? 0); 
      [destruct (decide (head (pg_blob_id st) = Some BLOB_EXTERNAL)); [rewrite !bool_decide_eq_true_2 by done; destruct (blob_deserialize _)|rewrite !bool_decide_eq_false_2 by done]|];
      cbn [unwrap mbind res_bind]; [|done|..]; destruct (pg_batch st); cbn [app]; by intros [= <-] [= <-]. }
  specialize (fun ext => Hext ext Hd). destruct (decide (BlobKey.serialize id = pg_blob_id st)) as [Hk|Hk].
  - rewrite bool_decide_eq_true_2 in He by done. rewrite Hk, count_unlinked by done. cbn [negb andb] in He. destruct (Z.eqb_spec (pg_link_count st) 0) as [Hz|Hz].
    + assert (head (pg_blob_id st) = Some BLOB_EXTERNAL) as Hh by (rewrite <- Hk; unfold BlobKey.serialize, BlobKey.prefix; by rewrite Hloc).
      destruct (current_id d st Hi Hok Hz Hh) as (id' & Ed & Hid' & Es). rewrite bool_decide_eq_true_2, Ed in Hext by done.
      rewrite (Hext _ eq_refl). assert (id' = id) as ->; [|by apply ext_deleted].
      rewrite <- Hk in Es. unfold BlobKey.serialize, BlobKey.prefix in Es. destruct id, id', Hid'; cbn in *; congruence.
    + by rewrite (Hext _ eq_refl).
  - rewrite bool_decide_eq_false_2 in He by done. cbn [negb andb] in He. rewrite <- He. destruct (Z.eqb_spec (pg_link_count st) 0) as [Hz|Hz]; [|by rewrite (Hext _ eq_refl)].
    destruct (decide (head (pg_blob_id st) = Some BLOB_EXTERNAL)) as [Hh|Hh]; [|rewrite bool_decide_eq_false_2 in Hext by done; by rewrite (Hext _ eq_refl)].
    destruct (current_id d st Hi Hok Hz Hh) as (id' & Ed & Hid' & Es). rewrite bool_decide_eq_true_2, Ed in Hext by done. rewrite (Hext _ eq_refl).
    apply ext_others; [done..|]. congruence.
Qed.

(** Adding an entry of the current group changes nothing in the other groups. *)
Lemma gone_snoc d e cur k : long e = false \/ base e = cur -> gone (d ++ [e]) cur k = gone d cur k.
Proof.
  intros He. unfold gone. case_bool_decide as Hk; [done|]. cbn [negb andb].
  unfold outdated, unlinked, no_live. rewrite !existsb_app, forallb_app. cbn [existsb forallb].
  rewrite !orb_false_r, andb_true_r. destruct He as [He|He].
  - assert (link_expired e = false) as ->.
    { destruct (link_expired e) eqn:Ex; [|done]. apply link_expired_long in Ex. congruence. }
    assert (live_link e = false) as ->.
    { destruct (live_link e) eqn:Ex; [|done]. apply live_link_long in Ex. congruence. }
    rewrite He, !andb_false_r. cbn. by rewrite !orb_false_r, andb_true_r.
  - assert (base e <> k) as Hne by (intros <-; by rewrite base_base in Hk).
    assert (e.1 <> k) as Hne' by (intros <-; done).
    rewrite !(bool_decide_eq_false_2 (base e = k)), (bool_decide_eq_false_2 (e.1 = k)) by done.
    rewrite andb_false_r. cbn. by rewrite !orb_false_r, andb_true_r.
Qed.

Lemma cur_expired_snoc d e cur :
  cur_expired (d ++ [e]) cur =
  cur_expired d cur ++ (if bool_decide (base e = cur) && link_expired e then [e.1] else []).
Proof.
  unfold cur_expired. rewrite filter_app, fmap_app, filter_cons. f_equal.
  case_bool_decide; cbn [andb]; [destruct (link_expired e)|]; case_decide; naive_solver.
Qed.
Lemma live_count_snoc d e cur :
  live_count (d ++ [e]) cur = (live_count d cur + if bool_decide (base e = cur) && live_link e then 1 else 0)%nat.
Proof.
  unfold live_count. rewrite filter_app, length_app, filter_cons. f_equal.
  case_bool_decide; cbn [andb]; [destruct (live_link e)|]; case_decide; naive_solver.
Qed.
Lemma live_count_le d cur : (live_count d cur <= length d)%nat.
Proof. apply length_filter. Qed.

(** An entry read while its group is current. *)
Lemma purge_link_inv d e st :
  long e = true -> base e = pg_blob_id st -> Z.of_nat (length d) + 1 < 2 ^ 32 ->
  (ephemeral e = true -> is_Some (deserialize_le 8 e.2)) ->
  pg_link_count st = Z.of_nat (live_count d (pg_blob_id st)) ->
  pg_batch st = OpDelete Blobs <$> cur_expired d (pg_blob_id st) ->
  (forall cf k, db_get (bl_db (pg_blobs st)) cf k =
    if decide (cf = Blobs /\ gone d (pg_blob_id st) k = true) then None else db_get db0 cf k) ->
  (forall id first last, external_id id -> ext_get_range (bl_ext (pg_blobs st)) id first last =
    if gone d (pg_blob_id st) (BlobKey.serialize id) then Ok None else ext_get_range (bl_ext s0) id first last) ->
  exists st', (if (BASE_LEN <? length e.1)%nat then purge_link blob_temp_ttl now e.1 e.2 st else Ok st) = Ok st' /\
    purge_inv (d ++ [e]) st'.
Proof.
  intros Hl Hb Hsmall Hts Hc Hbatch Hdb Hext.
  assert (forall st', pg_blobs st' = pg_blobs st -> pg_blob_id st' = pg_blob_id st ->
    pg_link_count st' = pg_link_count st + (if live_link e then 1 else 0) ->
    pg_batch st' = pg_batch st ++ (if link_expired e then [OpDelete Blobs e.1] else []) -> purge_inv (d ++ [e]) st') as Hok.
  { intros st' E1 E2 E3 E4. split; rewrite ?E1, ?E2.
    - right. exists d, e, []. split; [done|]. split; [done|]. split; [done|]. split; [done|].
      rewrite E3, Hc, live_count_snoc, bool_decide_eq_true_2 by done. cbn [andb]. destruct (live_link e); lia.
    - rewrite E4, Hbatch, cur_expired_snoc, bool_decide_eq_true_2, fmap_app by done. cbn [andb]. by destruct (link_expired e).
    - intros cf k. rewrite Hdb, gone_snoc by by right. done.
    - intros id first last Hid. by rewrite Hext, gone_snoc by (done || by right). }
  pose proof (live_count_le d (pg_blob_id st)) as Hle. revert Hok Hts.
  unfold purge_link, live_link, link_expired, ephemeral, link_bytes.
  destruct (BASE_LEN <? length e.1)%nat.
  2: { intros Hok _. exists st. split; [done|]. apply Hok; try done; [lia|by rewrite app_nil_r]. }
  destruct (skip_leb128_pos 0 (drop BASE_LEN e.1)) as [n|].
  2: { intros Hok _. exists st. split; [done|]. apply Hok; try done; [lia|by rewrite app_nil_r]. }
  assert (u32 (pg_link_count st + 1) = pg_link_count st + 1) as Hu by (apply wrap_small; unfold fits; lia).
  destruct (length e.1 =? BASE_LEN + n)%nat; cbn [andb negb].
  - intros Hok Hts. destruct (Hts eq_refl) as (ts & Hd). rewrite Hd in *. cbn [ok_or mbind res_bind default id] in *.
    destruct (expired blob_temp_ttl now ts); cbn [negb] in Hok.
    + eexists. split; [done|]. apply Hok; try done. cbn. lia.
    + eexists. split; [done|]. apply Hok; try done. by rewrite app_nil_r.
  - intros Hok _. eexists. split; [done|]. apply Hok; try done. by rewrite app_nil_r.
Qed.

Section Entries.
Variable all : list entry.
Hypothesis all_sorted : keys_below all.
Hypothesis all_small : Z.of_nat (length all) < 2 ^ 32 - 1.
Hypothesis all_stamped : forall e, e ∈ all -> ephemeral e = true -> is_Some (deserialize_le 8 e.2).
Hypothesis all_bytes : forall e, e ∈ all -> bytes_ok e.1.
(** no blob has the key of 33 zeros *)
Hypothesis all_nonzero : forall e, e ∈ all -> base e <> replicate BASE_LEN 0.

Lemma key_before d e rest e' : all = d ++ e :: rest -> e' ∈ d -> bytes_lt e'.1 e.1.
Proof.
  intros Hall. revert all_sorted. rewrite Hall. clear. induction d as [|x d IH]; [by intros _ ?%not_elem_of_nil|].
  cbn. intros [Hs Hx]%StronglySorted_inv [->|Hin]%elem_of_cons; [|by apply IH].
  rewrite Forall_forall in Hx. apply Hx, elem_of_app. right. by apply elem_of_cons; left.
Qed.

Lemma base_between e x e' :
  long x = true -> bytes_le e.1 x.1 -> bytes_le x.1 e'.1 -> base e = base e' -> long e' = true -> base x = base e'.
Proof.
  intros Hx H1' H2' Hb Hl. rewrite <- (take_drop BASE_LEN e.1), <- (take_drop BASE_LEN e'.1) in *.
  change (take BASE_LEN e.1) with (base e) in *. change (take BASE_LEN e'.1) with (base e') in *. rewrite Hb in H1'.
  pose proof (prefix_between _ _ _ _ H1' H2') as [r Hr]%starts_with_iff. pose proof (base_length e' Hl) as Hlen.
  unfold base at 1. rewrite Hr, <- Hlen. apply take_app_length.
Qed.

(** A group is read in one go. *)
Lemma fresh_group d e rest st e' :
  all = d ++ e :: rest -> purge_inv d st -> long e = true -> base e <> pg_blob_id st -> e' ∈ d ->
  base e' = base e -> False.
Proof.
  intros Hall Hi Hl Hne Hin Hb. assert (long e' = true) as Hl'.
  { unfold long. apply Nat.leb_le. pose proof (base_length e Hl) as Hlen. rewrite <- Hb in Hlen. unfold base in Hlen.
    rewrite length_take in Hlen. lia. }
  destruct (pi_cur _ _ Hi) as [(Hs & _)|(d1 & x & d2 & -> & Hx & Hbx & Hs & _)]; rewrite forallb_forall in Hs.
  { specialize (Hs e' ltac:(by apply list_elem_of_In)). by rewrite Hl' in Hs. }
  apply Hne. rewrite <- Hbx. symmetry. apply elem_of_app in Hin as [Hin|[->|Hin]%elem_of_cons].
  - apply (base_between e'); try done; apply bytes_le_lt_eq; left.
    + apply (key_before d1 x (d2 ++ e :: rest)); [|done]. by rewrite Hall, <- app_assoc.
    + eapply key_before; [done|]. apply elem_of_app. right. by apply elem_of_cons; left.
  - done.
  - specialize (Hs e' ltac:(by apply list_elem_of_In)). by rewrite Hl' in Hs.
Qed.

Lemma purge_entry_inv d e rest st :
  all = d ++ e :: rest -> purge_inv d st ->
  exists st', purge_entry blob_temp_ttl now e.1 e.2 st = Ok st' /\ purge_inv (d ++ [e]) st'.
Proof.
  intros Hall Hi. unfold purge_entry. fold (base e). assert (e ∈ all) as Hin
    by (rewrite Hall; apply elem_of_app; right; by apply elem_of_cons; left).
  assert (Z.of_nat (length d) + 1 < 2 ^ 32) as Hsmall.
  { apply (f_equal length) in Hall. rewrite length_app in Hall. cbn in Hall. lia. }
  destruct (Nat.ltb_spec (length e.1) BASE_LEN) as [Hshort|Hlong].
  - exists st. split; [done|]. assert (long e = false) as Hl by (apply Nat.leb_gt; lia).
    assert (link_expired e = false) as Hex by (destruct (link_expired e) eqn:Ex; [apply link_expired_long in Ex; congruence|done]).
    assert (live_link e = false) as Hlv by (destruct (live_link e) eqn:Ex; [apply live_link_long in Ex; congruence|done]).
    split.
    + destruct (pi_cur _ _ Hi) as [(Hs & ?)|(d1 & x & d2 & -> & Hx & Hb & Hs & Hc)]; [left|right].
      * rewrite forallb_app. cbn [forallb]. by rewrite Hs, Hl.
      * exists d1, x, (d2 ++ [e]). rewrite <- app_assoc. split; [done|]. split; [done|]. split; [done|].
        rewrite forallb_app. cbn [forallb]. rewrite Hs, Hl. split; [done|].
        change (d1 ++ (x :: d2) ++ [e]) with (d1 ++ x :: d2 ++ [e]).
        replace (d1 ++ x :: d2 ++ [e]) with ((d1 ++ x :: d2) ++ [e]) by by rewrite <- app_assoc.
        rewrite live_count_snoc, Hlv, andb_false_r. by rewrite Nat.add_0_r.
    + rewrite cur_expired_snoc, Hex, andb_false_r, app_nil_r. apply Hi.
    + intros cf k. rewrite gone_snoc by by left. apply Hi.
    + intros id first last Hid. rewrite gone_snoc by by left. by apply Hi.
  - assert (long e = true) as Hl by (apply Nat.leb_le; lia). case_bool_decide as Hb.
    + destruct (delete_blobs_spec d st Hi) as (st1 & E1 & Hb1 & Hdb1).
      pose proof (fun id f l => delete_blobs_ext d st st1 id f l Hi ltac:(intros e' Hd; apply all_bytes; rewrite Hall; by apply elem_of_app; left) E1) as Hext1.
      rewrite E1. cbn [mbind res_bind].
      assert (forall e', e' ∈ d -> base e' <> base e) as Hfresh by (intros e' Hd Hbe; by eapply fresh_group).
      assert (forall k, take BASE_LEN k = base e -> (outdated d k || unlinked d k) = false) as Hnone.
      { intros k Hk. apply not_true_iff_false. intros [(e' & Hd & <- & _)%outdated_elem|[(e' & Hd & _ & <-) _]%unlinked_elem]%orb_true_iff.
        - by apply (Hfresh e').
        - rewrite base_base in Hk. by apply (Hfresh e'). }
      apply (purge_link_inv d e (mkPurge (pg_blobs st1) (pg_batch st1) (base e) 0)); try done; cbn [pg_link_count pg_blob_id pg_batch pg_blobs].
      * intros Hep. by apply all_stamped.
      * replace (live_count d (base e)) with 0%nat; [done|]. symmetry. apply live_count_zero.
        intros e' Hd Hbe. by destruct (Hfresh e' Hd).
      * rewrite Hb1. unfold cur_expired. rewrite filter_none; [done|]. intros e' Hd [Hbe _]. by apply (Hfresh e').
      * intros cf k. rewrite Hdb1. unfold gone. case_bool_decide as Hk; [|done]. by rewrite Hnone.
      * intros id first last Hid. rewrite Hext1 by done. unfold gone. case_bool_decide as Hk; [|done]. by rewrite Hnone.
    + cbn [mbind res_bind]. assert (base e = pg_blob_id st) as Hb' by (destruct (decide (base e = pg_blob_id st)); [done|by destruct Hb]).
      apply (purge_link_inv d e st); try done.
      * intros Hep. by apply all_stamped.
      * destruct (pi_cur _ _ Hi) as [(_ & _ & Hz)|(? & ? & ? & _ & _ & _ & _ & ?)]; [|done].
        exfalso. apply (all_nonzero e Hin). by rewrite <- Hz.
      * apply Hi.
      * apply Hi.
      * apply Hi.
Qed.

Lemma purge_loop_inv d rest st :
  all = d ++ rest -> purge_inv d st ->
  exists st', purge_loop blob_temp_ttl now rest st = Ok st' /\ purge_inv all st'.
Proof.
  revert d st. induction rest as [|e rest IH]; intros d st Hall Hi.
  - rewrite app_nil_r in Hall. subst d. by exists st.
  - destruct (purge_entry_inv d e rest st Hall Hi) as (st1 & E1 & Hi1). destruct e as [k v].
    cbn [purge_loop]. cbn [fst snd] in E1. rewrite E1. cbn [mbind res_bind].
    apply (IH (d ++ [(k, v)])); [|done]. by rewrite <- app_assoc.
Qed.
End Entries.

(** ** In terms of the keys of links *)

Lemma blob_key_length id : blob_wf id -> length (BlobKey.serialize id) = BASE_LEN.
Proof. intros [Hl _]. unfold BlobKey.serialize, BlobKey.prefix. cbn [length]. rewrite Hl. unfold BASE_LEN. lia. Qed.

Lemma blob_key_base id x v : blob_wf id -> base (BlobKey.serialize id ++ x, v) = BlobKey.serialize id /\
  long (BlobKey.serialize id ++ x, v) = true.
Proof.
  intros Hwf. pose proof (blob_key_length id Hwf) as Hl. unfold base, long. cbn [fst]. rewrite <- Hl. split.
  - apply take_app_length.
  - apply Nat.leb_le. rewrite length_app. lia.
Qed.

Lemma link_key id a c doc :
  BlobKey.serialize_link id a c doc = BlobKey.serialize id ++ leb128 a ++ Collection.to_u8 c :: leb128 doc.
Proof. unfold BlobKey.serialize_link, BlobKey.serialize, push_leb128, to_leb128_bytes. by rewrite <- !app_assoc. Qed.
Lemma ephemeral_key id a : a <> U32_MAX -> BlobKey.serialize_prefix id a = BlobKey.serialize id ++ leb128 a.
Proof. intros Ha. unfold BlobKey.serialize_prefix. by rewrite (proj2 (Z.eqb_neq _ _)). Qed.

Lemma key_link_bytes id a x v :
  blob_wf id -> fits 32 a -> link_bytes (BlobKey.serialize id ++ leb128 a ++ x, v) = Some (length (leb128 a)).
Proof.
  intros Hwf Ha. pose proof (blob_key_length id Hwf) as Hl. unfold link_bytes. cbn [fst].
  rewrite (proj2 (Nat.ltb_lt _ _)) by (rewrite !length_app; pose proof (leb128_nonempty a); lia).
  rewrite <- Hl, drop_app_length, skip_leb128_pos_app; [done|]. eapply fits_mono; [|done]. lia.
Qed.

Lemma document_link_live id a c doc v :
  blob_wf id -> fits 32 a -> live_link (BlobKey.serialize_link id a c doc, v) = true.
Proof.
  intros Hwf Ha. rewrite link_key. unfold live_link, link_expired, ephemeral. rewrite key_link_bytes by done. cbn [fst].
  rewrite (proj2 (Nat.eqb_neq _ _)); [done|]. rewrite !length_app, blob_key_length by done. cbn [length]. lia.
Qed.

Lemma ephemeral_link id a v :
  blob_wf id -> fits 32 a -> a <> U32_MAX ->
  ephemeral (BlobKey.serialize_prefix id a, v) = true /\
  live_link (BlobKey.serialize_prefix id a, v) = negb (link_expired (BlobKey.serialize_prefix id a, v)).
Proof.
  intros Hwf Ha Hne. rewrite ephemeral_key by done. rewrite <- (app_nil_r (leb128 a)).
  unfold live_link, ephemeral. rewrite key_link_bytes by done. cbn [fst]. split; [|done].
  rewrite app_nil_r, length_app, blob_key_length by done. apply Nat.eqb_refl.
Qed.

(** A store that can be purged: keys are bytes, ephemeral links carry a
    timestamp, no blob has the key of 33 zeros, and there are fewer than
    [2^32 - 1] keys. *)
Record purgeable : Prop := {
  pu_small : Z.of_nat (length (db_iterator db0 Blobs [] Forward)) < 2 ^ 32 - 1;
  pu_bytes k v : db_get db0 Blobs k = Some v -> bytes_ok k;
  pu_stamped k v : db_get db0 Blobs k = Some v -> ephemeral (k, v) = true -> is_Some (deserialize_le 8 v);
  pu_nonzero k v : db_get db0 Blobs k = Some v -> take BASE_LEN k <> replicate BASE_LEN 0
}.

Lemma purge_spec :
  purgeable ->
  let all := db_iterator db0 Blobs [] Forward in
  exists s', purge_blobs blob_temp_ttl now s0 = Ok s' /\
    (forall cf k, db_get (bl_db s') cf k =
      if decide (cf = Blobs /\ (outdated all k || unlinked all k) = true) then None else db_get db0 cf k) /\
    forall id first last, external_id id -> ext_get_range (bl_ext s') id first last =
      if unlinked all (BlobKey.serialize id) then Ok None else ext_get_range (bl_ext s0) id first last.
Proof.
  intros Hp all.
  assert (forall e, e ∈ all -> db_get db0 Blobs e.1 = Some e.2) as Hget.
  { intros [k v] [? _]%db_forward_elem. done. }
  destruct (purge_loop_inv all (db_forward_sorted db0 Blobs []) (pu_small Hp)) with (d := @nil entry) (rest := all)
    (st := mkPurge s0 [] (replicate BASE_LEN 0) U32_MAX) as (st & E1 & Hi).
  - intros [k v] Hin%Hget. by apply (pu_stamped Hp).
  - intros [k v] Hin%Hget. by eapply (pu_bytes Hp).
  - intros [k v] Hin%Hget. by eapply (pu_nonzero Hp).
  - done.
  - split; [by left|done|..]; cbn [pg_blob_id pg_blobs]; unfold gone; cbn [outdated unlinked existsb]; intros *; rewrite andb_false_r;
      [rewrite decide_False; [done|]; by intros [_ ?]|done].
  - destruct (delete_blobs_spec all st Hi) as (st' & E2 & _ & Hdb). exists (pg_blobs st').
    unfold purge_blobs. fold all. rewrite E1. cbn [mbind res_bind]. rewrite E2. split; [done|]. split; [done|].
    intros id first last Hid. rewrite (delete_blobs_ext all st st' id first last Hi); [|by intros [k v] Hin%Hget; eapply (pu_bytes Hp)|done|done].
    by rewrite blob_key_not_outdated by apply Hid.
Qed.

(** Which links a purge at [now] drops, by key. *)
Definition permanent (id : BlobId) (key : list Z) : Prop :=
  exists a c doc, fits 32 a /\ key = BlobKey.serialize_link id a c doc.
Definition temporary (id : BlobId) (key v : list Z) (is_expired : bool) : Prop :=
  exists a ts, fits 32 a /\ a <> U32_MAX /\ key = BlobKey.serialize_prefix id a /\
    deserialize_le 8 v = Some ts /\ expired blob_temp_ttl now ts = is_expired.

Lemma temporary_link id key v b :
  blob_wf id -> temporary id key v b ->
  link_expired (key, v) = b /\ live_link (key, v) = negb b /\ exists x, x <> [] /\ key = BlobKey.serialize id ++ x.
Proof.
  intros Hwf (a & ts & Ha & Hne & -> & Hts & He). destruct (ephemeral_link id a v Hwf Ha Hne) as [Hep Hl].
  assert (link_expired (BlobKey.serialize_prefix id a, v) = b) as Hx.
  { unfold link_expired. rewrite Hep. cbn [snd andb]. rewrite Hts. cbn. by rewrite He. }
  split; [done|]. rewrite Hl, Hx. split; [done|]. exists (leb128 a). split; [|by apply ephemeral_key].
  intros Hn. pose proof (leb128_nonempty a) as Hq. rewrite Hn in Hq. cbn in Hq. lia.
Qed.
Lemma permanent_link id key v :
  blob_wf id -> permanent id key ->
  link_expired (key, v) = false /\ live_link (key, v) = true /\ exists x, x <> [] /\ key = BlobKey.serialize id ++ x.
Proof.
  intros Hwf (a & c & doc & Ha & ->). pose proof (document_link_live id a c doc v Hwf Ha) as Hd. split_and!; [|done|].
  - unfold live_link in Hd. destruct (link_bytes _); [|done]. by apply negb_true_iff.
  - eexists. split; [|apply link_key]. intros [Hn _]%app_nil. pose proof (leb128_nonempty a) as Hq. rewrite Hn in Hq. cbn in Hq. lia.
Qed.
Lemma own_key_no_link id v : blob_wf id -> link_bytes (BlobKey.serialize id, v) = None.
Proof. intros Hwf. unfold link_bytes. cbn [fst]. by rewrite blob_key_length, Nat.ltb_irrefl. Qed.

(** A live link keeps its blob and itself. *)
Lemma live_kept all id x v :
  blob_wf id -> x <> [] -> (forall v', (BlobKey.serialize id ++ x, v') ∈ all -> v' = v) ->
  (BlobKey.serialize id ++ x, v) ∈ all ->
  link_expired (BlobKey.serialize id ++ x, v) = false -> live_link (BlobKey.serialize id ++ x, v) = true ->
  (outdated all (BlobKey.serialize id) || unlinked all (BlobKey.serialize id)) = false /\
  (outdated all (BlobKey.serialize id ++ x) || unlinked all (BlobKey.serialize id ++ x)) = false.
Proof.
  intros Hwf Hx Huniq Hin Hexp Hlive. split; apply not_true_iff_false;
    intros [([k' v'] & He & Hk' & Hex)%outdated_elem|[(e & _ & Hl & He) Hn]%unlinked_elem]%orb_true_iff.
  - cbn [fst] in Hk'. subst k'. unfold link_expired, ephemeral in Hex. by rewrite own_key_no_link in Hex.
  - specialize (Hn _ Hin (proj1 (blob_key_base id x v Hwf))). congruence.
  - cbn [fst] in Hk'. subst k'. rewrite (Huniq v' He) in Hex. congruence.
  - apply base_length in Hl. rewrite He, length_app, blob_key_length in Hl by done. destruct x; [done|cbn in Hl; lia].
Qed.

(** A blob whose links are all expired goes, with its links. *)
Definition only_expired (all : list entry) (id : BlobId) : Prop :=
  forall k v, (k, v) ∈ all -> starts_with k (BlobKey.serialize id) = true -> k = BlobKey.serialize id \/ temporary id k v true.
Lemma base_starts id k : base k = BlobKey.serialize id -> starts_with k.1 (BlobKey.serialize id) = true.
Proof. intros Hb. apply starts_with_iff. exists (drop BASE_LEN k.1). rewrite <- Hb. symmetry. apply take_drop. Qed.
Lemma expired_unlinked all id key v :
  blob_wf id -> (key, v) ∈ all -> starts_with key (BlobKey.serialize id) = true -> only_expired all id ->
  unlinked all (BlobKey.serialize id) = true.
Proof.
  intros Hwf Hin [x ->]%starts_with_iff Hlinks. apply unlinked_elem. destruct (blob_key_base id x v Hwf) as [Hb Hl].
  split; [by eexists|]. intros [k' v'] Hin' Hb'.
  destruct (Hlinks k' v' Hin' (base_starts id (k', v') Hb')) as [->|Ht]; [unfold live_link; by rewrite own_key_no_link|].
  by destruct (temporary_link id k' v' true Hwf Ht) as (_ & -> & _).
Qed.
Lemma expired_dropped all id key v :
  blob_wf id -> (key, v) ∈ all -> starts_with key (BlobKey.serialize id) = true -> only_expired all id ->
  (outdated all key || unlinked all key) = true.
Proof.
  intros Hwf Hin Hs Hlinks. apply orb_true_iff. destruct (Hlinks key v Hin Hs) as [->|Ht]; [right|left].
  - by eapply expired_unlinked.
  - apply outdated_elem. exists (key, v). by destruct (temporary_link id key v true Hwf Ht) as (? & _).
Qed.

(** The contents of a blob, wherever they are. *)
Lemma kept_contents all s' id :
  (forall cf k, db_get (bl_db s') cf k = if decide (cf = Blobs /\ (outdated all k || unlinked all k) = true) then None else db_get db0 cf k) ->
  (forall id first last, external_id id -> ext_get_range (bl_ext s') id first last =
    if unlinked all (BlobKey.serialize id) then Ok None else ext_get_range (bl_ext s0) id first last) ->
  blob_wf id -> unlinked all (BlobKey.serialize id) = false ->
  blob_get s' id = blob_get s0 id /\ forall first last, blob_get_range s' id first last = blob_get_range s0 id first last.
Proof.
  intros Hdb Hext Hwf Hu. unfold blob_get, blob_get_range. destruct (blob_is_local id) eqn:El; cbn [negb].
  - by rewrite Hdb, blob_key_not_outdated, Hu, decide_False by (done || by intros [_ ?]).
  - split; [|intros first last]; by rewrite Hext, Hu by done.
Qed.
Lemma dropped_contents all s' id :
  (forall cf k, db_get (bl_db s') cf k = if decide (cf = Blobs /\ (outdated all k || unlinked all k) = true) then None else db_get db0 cf k) ->
  (forall id first last, external_id id -> ext_get_range (bl_ext s') id first last =
    if unlinked all (BlobKey.serialize id) then Ok None else ext_get_range (bl_ext s0) id first last) ->
  blob_wf id -> unlinked all (BlobKey.serialize id) = true ->
  blob_get s' id = Ok None /\ forall first last, blob_get_range s' id first last = Ok None.
Proof.
  intros Hdb Hext Hwf Hu. unfold blob_get, blob_get_range. destruct (blob_is_local id) eqn:El; cbn [negb].
  - by rewrite Hdb, Hu, orb_true_r, decide_True by done.
  - split; [|intros first last]; by rewrite Hext, Hu by done.
Qed.
End Purge.

(** C37. Purging removes exactly the unlinked blobs. [purge_blobs] succeeds and
    touches no other column family; a blob with a document link, or with an
    ephemeral link that has not expired, keeps its contents, in the database or
    in the external store, and that link; a blob whose only links are expired
    ephemeral ones disappears with all its keys and its contents, also from the
    external store; an external blob the database does not know stays. *)
Theorem purge_exact `{StoreLaws DB} `{BlobStoreLaws E} ttl now (s : blobs (DB := DB) (E := E)) id :
  purgeable s -> blob_wf id ->
  exists s', purge_blobs ttl now s = Ok s' /\
    (forall cf k, cf <> Blobs -> db_get (bl_db s') cf k = db_get (bl_db s) cf k) /\
    (forall key v, db_get (bl_db s) Blobs key = Some v -> permanent id key \/ temporary ttl now id key v false ->
      db_get (bl_db s') Blobs (BlobKey.serialize id) = db_get (bl_db s) Blobs (BlobKey.serialize id) /\
      db_get (bl_db s') Blobs key = Some v /\ blob_get s' id = blob_get s id /\
      forall first last, blob_get_range s' id first last = blob_get_range s id first last) /\
    ((forall key v, db_get (bl_db s) Blobs key = Some v -> starts_with key (BlobKey.serialize id) = true ->
        key = BlobKey.serialize id \/ temporary ttl now id key v true) ->
      forall key, starts_with key (BlobKey.serialize id) = true ->
        db_get (bl_db s') Blobs key = None /\
        (db_get (bl_db s) Blobs key <> None -> blob_get s' id = Ok None /\ forall first last, blob_get_range s' id first last = Ok None)) /\
    ((forall key, starts_with key (BlobKey.serialize id) = true -> db_get (bl_db s) Blobs key = None) ->
      blob_get s' id = blob_get s id /\ forall first last, blob_get_range s' id first last = blob_get_range s id first last).
Proof.
  intros Hp Hwf. destruct (purge_spec ttl now s Hp) as (s' & Ep & Hdb & Hext). exists s'. split; [done|].
  set (all := db_iterator (bl_db s) Blobs [] Forward) in *.
  assert (forall k v, (k, v) ∈ all <-> db_get (bl_db s) Blobs k = Some v) as Hall.
  { intros k v. unfold all. rewrite db_forward_elem. split; [tauto|]. intros Hg. split; [done|]. by destruct k. }
  split_and!.
  - intros cf k Hcf. rewrite Hdb, decide_False; [done|]. by intros [? _].
  - intros key v Hg Hlink.
    assert (link_expired ttl now (key, v) = false /\ live_link ttl now (key, v) = true /\
      exists x, x <> [] /\ key = BlobKey.serialize id ++ x) as (Hexp & Hlive & x & Hx & ->).
    { destruct Hlink as [Hl|Hl]; [by apply permanent_link|by apply temporary_link]. }
    destruct (live_kept ttl now all id x v) as [E1 E2]; [done|done| |by apply Hall|done|done|].
    + intros v' Hin%Hall. rewrite Hg in Hin. by injection Hin.
    + pose proof E1 as [_ Eu]%orb_false_iff. rewrite !Hdb, E1, E2, !decide_False by naive_solver. split; [done|]. split; [done|].
      by apply (kept_contents ttl now s all).
  - intros Hlinks key Hkey. assert (only_expired ttl now all id) as Hlinks' by (intros k' v' Hin%Hall; by apply Hlinks).
    destruct (db_get (bl_db s) Blobs key) as [v|] eqn:Hg.
    + apply Hall in Hg. split; [rewrite Hdb, decide_True; [done|]; split; [done|]; by eapply expired_dropped|].
      intros _. apply (dropped_contents ttl now s all); [done..|]. by eapply expired_unlinked.
    + split; [rewrite Hdb, Hg; by case_decide|done].
  - intros Hnone. apply (kept_contents ttl now s all); [done..|]. apply not_true_iff_false.
    intros [([k v] & Hin%Hall & _ & Hb%base_starts) _]%unlinked_elem. by rewrite Hnone in Hin.
Qed.

(** ** Access *)

Section Access.
Context `{StoreLaws DB}.

(** Every key under the blob's hash is the blob's own key or a link. *)
Definition links_wf (db : DB) (id : BlobId) : Prop :=
  forall k v, db_get db Blobs k = Some v -> starts_with k (BlobKey.serialize id) = true ->
    k = BlobKey.serialize id \/ exists a x, fits 32 a /\ k = BlobKey.serialize id ++ leb128 a ++ x.

Lemma account_loop_exact p ids it :
  (forall k v, (k, v) ∈ take_prefix p it -> k = p \/ exists a x, fits 32 a /\ k = p ++ leb128 a ++ x) ->
  account_access_loop p ids it = true <->
  exists a x v, a ∈ ids /\ fits 32 a /\ (p ++ leb128 a ++ x, v) ∈ take_prefix p it.
Proof.
  induction it as [|[k v] it IH]; cbn [account_access_loop take_prefix].
  { intros _. split; [done|]. by intros (? & ? & ? & _ & _ & ?%not_elem_of_nil). }
  cbn [fst]. destruct (starts_with k p); [|intros _; split; [done|]; by intros (? & ? & ? & _ & _ & ?%not_elem_of_nil)].
  intros Hl. specialize (IH (fun k' v' Hin => Hl k' v' (proj2 (elem_of_cons _ _ _) (or_intror Hin)))).
  destruct (Hl k v (proj2 (elem_of_cons _ _ _) (or_introl eq_refl))) as [->|(a & x & Ha & ->)].
  - rewrite Nat.ltb_irrefl, IH. setoid_rewrite elem_of_cons. split; [naive_solver|].
    intros (a & x & v' & Hin & Ha & [Heq|Hr]); [|by exists a, x, v']. exfalso. apply (f_equal (length ∘ fst)) in Heq.
    cbn in Heq. rewrite !length_app in Heq. pose proof (leb128_nonempty a). lia.
  - rewrite (proj2 (Nat.ltb_lt _ _)) by (rewrite !length_app; pose proof (leb128_nonempty a); lia).
    rewrite drop_app_length, read_leb128_app by by apply decodable_fits. case_bool_decide as Hi.
    + split; [|done]. intros _. exists a, x, v. split_and!; [done..|]. by apply elem_of_cons; left.
    + rewrite IH. setoid_rewrite elem_of_cons. split; [naive_solver|].
      intros (a' & x' & v' & Hin & Ha' & [Heq|Hr]); [|by exists a', x', v']. exfalso. apply Hi.
      apply (f_equal fst) in Heq. cbn [fst] in Heq. apply app_inv_head in Heq.
      assert (a' = a) as <-; [|done]. pose proof (read_leb128_app U32 a' x' (proj2 (decodable_fits U32 a') Ha')) as Er.
      rewrite Heq, read_leb128_app in Er by by apply decodable_fits. congruence.
Qed.
End Access.

(** Access to a blob is by link: [blob_account_has_access] answers yes exactly
    when one of the accounts has an ephemeral or a document link to the blob,
    whatever other links are stored around it. *)
Theorem blob_access_exact `{StoreLaws DB} (db : DB) id ids :
  links_wf db id ->
  blob_account_has_access db id ids = true <->
  exists a x v, a ∈ ids /\ fits 32 a /\ db_get db Blobs (BlobKey.serialize id ++ leb128 a ++ x) = Some v.
Proof.
  intros Hwf. unfold blob_account_has_access.
  assert (BlobKey.serialize_prefix id U32_MAX = BlobKey.serialize id) as -> by done.
  rewrite account_loop_exact.
  - setoid_rewrite prefix_scan. split; [naive_solver|]. intros (a & x & v & Hi & Ha & Hg). exists a, x, v.
    split_and!; try done. apply starts_with_iff. by eexists.
  - intros k v [Hg Hs]%prefix_scan. by apply (Hwf k v).
Qed.

(** ** A sample store: a linked blob and one with an expired upload, both in
    files, and a fresh upload in the database *)
Module SampleBlobs.
Import PlainStore.
Definition blob_root : list (list Z) := [[98; 108; 111; 98; 115]].
#[export] Instance disk : BlobStore files := LocalBlobStore blob_root 2.
#[export] Instance disk_laws : BlobStoreLaws files := LocalBlobStore_laws blob_root 2.
#[export] Instance no_external : BlobStore unit := {|
  ext_put _ _ _ := Ok tt; ext_get_range _ _ _ _ := Ok None; ext_delete _ _ := tt
|}.

Definition linked : BlobId := External (replicate BLOB_HASH_LEN 1).
Definition recent : BlobId := Local_ (replicate BLOB_HASH_LEN 2).
Definition stale : BlobId := External (replicate BLOB_HASH_LEN 3).

Definition ops : list WriteOperation :=
  [OpSet Blobs (BlobKey.serialize linked) [];
   OpSet Blobs (BlobKey.serialize_link linked 5 Collection.Mail 300) [];
   OpSet Blobs (BlobKey.serialize recent) [20];
   OpSet Blobs (BlobKey.serialize_prefix recent 0) (le_bytes 8 990);
   OpSet Blobs (BlobKey.serialize stale) [];
   OpSet Blobs (BlobKey.serialize_prefix stale 0) (le_bytes 8 100)].
Definition sample : blobs (DB := MemStore.t) (E := files) :=
  mkBlobs (db_write MemStore.empty ops) {[ get_path blob_root 2 linked := [10]; get_path blob_root 2 stale := [30] ]}.

Lemma sample_blob_get k v : db_get (bl_db sample) Blobs k = Some v -> OpSet Blobs k v ∈ ops.
Proof. apply written_get. repeat (constructor; [by eexists _, _, _|]). constructor. Qed.

Lemma sample_purgeable : purgeable sample.
Proof.
  split; [vm_compute; done|..]; intros k v Hin%sample_blob_get; unfold ops in Hin;
    repeat (apply elem_of_cons in Hin as [[= -> ->]|Hin]; [vm_compute; first [done | by eexists | by repeat constructor]|]);
    by apply not_elem_of_nil in Hin.
Qed.

Lemma sample_cases (P : list Z -> list Z -> Prop) :
  Forall (fun op => match op with OpSet Blobs k v => P k v | _ => True end) ops ->
  forall k v, db_get (bl_db sample) Blobs k = Some v -> P k v.
Proof. rewrite Forall_forall. intros Hf k v Hin%sample_blob_get. apply (Hf _ Hin). Qed.

Lemma sample_links_wf : links_wf (bl_db sample) linked.
Proof.
  refine (sample_cases (fun k v => starts_with k (BlobKey.serialize linked) = true ->
    k = BlobKey.serialize linked \/ exists a x, fits 32 a /\ k = BlobKey.serialize linked ++ leb128 a ++ x) _). unfold ops.
  apply Forall_cons_2; [intros _; by left|]. apply Forall_cons_2; [|repeat constructor; by vm_compute].
  intros _. right. eexists 5, _. split; [unfold fits; lia|]. apply link_key.
Qed.
End SampleBlobs.
Import PlainStore SampleBlobs.

Lemma purge_exact_witness :
  exists s', purge_blobs 60 1000 sample = Ok s' /\
    db_get (bl_db s') Blobs (BlobKey.serialize stale) = None /\ blob_get sample stale = Ok (Some [30]) /\ blob_get s' stale = Ok None.
Proof.
  destruct (purge_exact 60 1000 sample stale sample_purgeable) as (s' & E & _ & _ & Hd & _).
  - split; [done|]. repeat constructor; done.
  - exists s'. split; [done|]. destruct (Hd) with (key := BlobKey.serialize stale) as [Hn Hc]; [|by vm_compute|].
    + refine (sample_cases (fun k v => starts_with k (BlobKey.serialize stale) = true ->
        k = BlobKey.serialize stale \/ temporary 60 1000 stale k v true) _). unfold ops.
      do 4 (apply Forall_cons_2; [intros Hs; vm_compute in Hs; discriminate Hs|]). apply Forall_cons_2; [intros _; by left|].
      apply Forall_cons_2; [|by apply Forall_nil]. intros _. right. exists 0, 100. unfold fits. split_and!; [lia..|done| |]; by vm_compute.
    + split; [done|]. split; [vm_compute; reflexivity|]. apply Hc. by vm_compute.
Defined.

Lemma blob_access_exact_witness :
  blob_account_has_access (bl_db sample) linked [7; 5] = true /\
  exists a x v, a ∈ [7; 5] /\ fits 32 a /\
    db_get (bl_db sample) Blobs (BlobKey.serialize linked ++ leb128 a ++ x) = Some v.
Proof.
  assert (blob_account_has_access (bl_db sample) linked [7; 5] = true) as Ha by by vm_compute.
  split; [done|]. by apply (blob_access_exact (bl_db sample) linked [7; 5] sample_links_wf).
Defined.

(** A range behind the end of an external blob is read from its start; a
    range of a blob in the database gives nothing. *)
Theorem range_behind_end :
  blob_get_range sample linked 5 6 = Ok (Some [10]) /\ blob_get_range sample recent 5 6 = Ok None.
Proof. split; vm_compute; reflexivity. Qed.
