(* ===== verification/ChangeLog.v ===== *)
(** * The change log: components/store/src/log/changes.rs, write/batch.rs

    Every write appends, per account and collection, an entry listing the ids
    inserted, updated, child-updated and deleted. [Foo/changes] folds the
    entries after a state into one list of changes in which every id appears
    once, in its net effect. Parsing, folding and the range scans over the
    store are modelled; the central theorem characterises the fold id by id. *)

From Stdlib Require Import Btauto.
From S2P Require Import Prelude Leb128 Serialize Types Keys KV.

Inductive Change : Set :=
| Insert (id : Z)
| Update (id : Z)
| ChildUpdate (id : Z)
| Delete (id : Z).

#[export] Instance Change_eq_dec : EqDecision Change.
Proof. solve_decision. Defined.

Record Changes := mkChanges {
  changes : list Change;
  from_change_id : ChangeId;
  to_change_id : ChangeId
}.
Definition Changes_default : Changes := mkChanges [] 0 0.

(** [RoaringTreemap]: a set of [u64] values, iterated in increasing order. *)
Class Treemap := {
  treemap_serialize : gset Z -> list Z;
  treemap_deserialize : list Z -> option (gset Z)
}.
Definition ids_ok (ids : gset Z) : Prop := set_Forall (fits 64) ids.
Class TreemapLaws `{Treemap} : Prop := {
  treemap_roundtrip ids : ids_ok ids -> treemap_deserialize (treemap_serialize ids) = Some ids;
  treemap_ids bytes ids : treemap_deserialize bytes = Some ids -> ids_ok ids
}.
Definition treemap_iter (ids : gset Z) : list Z := merge_sort Z.le (elements ids).

(** ** Writing: [batch::Change] *)

Module Batch.
Definition ENTRY : Z := 0.
Definition SNAPSHOT : Z := 1.

(** The four hash sets, in the order the serializer iterates them. *)
Record Change := mkChange {
  inserts : list Z;
  updates : list Z;
  deletes : list Z;
  child_updates : list Z
}.

Definition serialize (c : Change) : list Z :=
  let buf := [ENTRY] in
  let buf := push_leb128 buf (Z.of_nat (length (inserts c))) in
  let buf := push_leb128 buf (Z.of_nat (length (updates c))) in
  let buf := push_leb128 buf (Z.of_nat (length (child_updates c))) in
  let buf := push_leb128 buf (Z.of_nat (length (deletes c))) in
  fold_left (fun buf list => fold_left push_leb128 list buf)
    [inserts c; updates c; child_updates c; deletes c] buf.
End Batch.

(** ** Reading: [Changes::deserialize] *)

(** The scan of an update: [None] when the id was inserted by an earlier entry;
    otherwise the list without the first update of the id, and whether that
    was a full update. *)
Fixpoint scan_update (id : Z) (l : list Change) : option (list Change * bool) :=
  match l with
  | [] => Some ([], false)
  | c :: l' =>
      match c with
      | Insert i =>
          if i =? id then None else '(r, b) ← scan_update id l'; Some (c :: r, b)
      | Update i =>
          if i =? id then Some (l', true) else '(r, b) ← scan_update id l'; Some (c :: r, b)
      | ChildUpdate i =>
          if i =? id then Some (l', false) else '(r, b) ← scan_update id l'; Some (c :: r, b)
      | Delete _ => '(r, b) ← scan_update id l'; Some (c :: r, b)
      end
  end.

Definition push_update (is_child_update : bool) (l : list Change) (id : Z) : list Change :=
  match scan_update id l with
  | None => l
  | Some (r, found_update) =>
      let is_child_update := if found_update then false else is_child_update in
      r ++ [if negb is_child_update then Update id else ChildUpdate id]
  end.

(** The scan of a deletion: whether the id had been inserted, and the list
    without its first insertion or update. *)
Fixpoint scan_delete (id : Z) (l : list Change) : list Change * bool :=
  match l with
  | [] => ([], false)
  | c :: l' =>
      match c with
      | Insert i => if i =? id then (l', true) else let '(r, b) := scan_delete id l' in (c :: r, b)
      | Update i | ChildUpdate i =>
          if i =? id then (l', false) else let '(r, b) := scan_delete id l' in (c :: r, b)
      | Delete _ => let '(r, b) := scan_delete id l' in (c :: r, b)
      end
  end.

Definition push_delete (l : list Change) (id : Z) : list Change :=
  let '(r, was_insert) := scan_delete id l in
  if was_insert then r else r ++ [Delete id].

Definition push_insert (l : list Change) (id : Z) : list Change := l ++ [Insert id].

Section ChangeLog.
Context `{Treemap}.

Definition deserialize_changes (changes : list Change) (bytes : list Z) : option (list Change) :=
  match bytes with
  | [] => None
  | tag :: it =>
      if tag =? Batch.ENTRY then
        '(total_inserts, it) ← next_leb128 Usize it;
        '(total_updates, it) ← next_leb128 Usize it;
        '(total_child_updates, it) ← next_leb128 Usize it;
        '(total_deletes, it) ← next_leb128 Usize it;
        '(changes, it) ← for_leb128 U64 (fun _ => push_insert) total_inserts changes it;
        '(changes, it) ←
          for_leb128 U64
            (fun change_pos => push_update (total_updates <=? change_pos))
            (if (0 <? total_updates) || (0 <? total_child_updates)
             then u64 (total_updates + total_child_updates) else 0) changes it;
        '(changes, it) ← for_leb128 U64 (fun _ => push_delete) total_deletes changes it;
        Some changes
      else if tag =? Batch.SNAPSHOT then
        ids ← treemap_deserialize it;
        Some (fold_left push_insert (treemap_iter ids) changes)
      else None
  end.

(** ** Queries over the log *)

Inductive Query : Set :=
| All
| Since (change_id : ChangeId)
| SinceInclusive (change_id : ChangeId)
| RangeInclusive (from_id to_id : ChangeId).

Context `{Store DB}.

Definition get_last_change_id (db : DB) (account : AccountId) (collection : Collection.t)
    : option (option ChangeId) :=
  let match_key := LogKey.serialize_change account collection U64_MAX in
  match db_iterator db Logs match_key Backward with
  | (key, _) :: _ =>
      if starts_with key (take LogKey.CHANGE_ID_POS match_key) then
        Some <$> LogKey.deserialize_change_id key
      else Some None
  | [] => Some None
  end.

Definition query_range (q : Query) : bool * ChangeId * ChangeId :=
  match q with
  | All => (true, 0, 0)
  | Since id => (false, id, 0)
  | SinceInclusive id => (true, id, 0)
  | RangeInclusive from to => (true, from, to)
  end.

(** The loop of [get_changes]: the state is the change log and [is_first]. *)
Fixpoint get_changes_loop (prefix : list Z) (is_inclusive : bool) (from to : ChangeId)
    (it : list (list Z * list Z)) (st : Changes * bool) : option (Changes * bool) :=
  match it with
  | [] => Some st
  | (key, value) :: it =>
      if negb (starts_with key prefix) then Some st
      else
        change_id ← LogKey.deserialize_change_id key;
        if (from <? change_id) || (is_inclusive && (change_id =? from)) then
          if (0 <? to) && (to <? change_id) then Some st
          else
            let '(changelog, is_first) := st in
            let from_id := if is_first then change_id else from_change_id changelog in
            cs ← deserialize_changes (changes changelog) value;
            get_changes_loop prefix is_inclusive from to it (mkChanges cs from_id change_id, false)
        else get_changes_loop prefix is_inclusive from to it st
  end.

Definition get_changes (db : DB) (account : AccountId) (collection : Collection.t) (query : Query)
    : option Changes :=
  let '(is_inclusive, from, to) := query_range query in
  let key := LogKey.serialize_change account collection from in
  let prefix := take LogKey.CHANGE_ID_POS key in
  '(changelog, is_first) ←
    get_changes_loop prefix is_inclusive from to (db_iterator db Logs key Forward)
      (Changes_default, true);
  Some (if (is_first : bool) then
          mkChanges (changes changelog) from (if 0 <? to then to else from)
        else changelog).
End ChangeLog.

(** ** An entry as a sequence of operations *)

Inductive log_op : Set := OIns (id : Z) | OUpd (id : Z) | OChd (id : Z) | ODel (id : Z).

#[export] Instance log_op_eq_dec : EqDecision log_op.
Proof. solve_decision. Defined.

Definition op_id (o : log_op) : Z :=
  match o with OIns i | OUpd i | OChd i | ODel i => i end.

Definition apply_op (l : list Change) (o : log_op) : list Change :=
  match o with
  | OIns id => push_insert l id
  | OUpd id => push_update false l id
  | OChd id => push_update true l id
  | ODel id => push_delete l id
  end.

Definition change_ops (c : Batch.Change) : list log_op :=
  (OIns <$> Batch.inserts c) ++ (OUpd <$> Batch.updates c) ++
  (OChd <$> Batch.child_updates c) ++ (ODel <$> Batch.deletes c).

(** The ids are [u64] values and the sets have fewer than [2^63] elements. *)
Definition change_wf (c : Batch.Change) : Prop :=
  Forall (fits 64)
    (Batch.inserts c ++ Batch.updates c ++ Batch.child_updates c ++ Batch.deletes c) /\
  Z.of_nat (length (Batch.inserts c)) < 2 ^ 63 /\ Z.of_nat (length (Batch.updates c)) < 2 ^ 63 /\
  Z.of_nat (length (Batch.child_updates c)) < 2 ^ 63 /\
  Z.of_nat (length (Batch.deletes c)) < 2 ^ 63.

Lemma fold_push_leb128 l buf : fold_left push_leb128 l buf = buf ++ flat_map leb128 l.
Proof.
  revert buf. induction l as [|x l IH]; intros buf; cbn; [by rewrite app_nil_r|].
  rewrite IH. unfold push_leb128, to_leb128_bytes. by rewrite <- app_assoc.
Qed.

Lemma batch_serialize_bytes c :
  Batch.serialize c =
  Batch.ENTRY :: leb128 (Z.of_nat (length (Batch.inserts c))) ++
    leb128 (Z.of_nat (length (Batch.updates c))) ++
    leb128 (Z.of_nat (length (Batch.child_updates c))) ++
    leb128 (Z.of_nat (length (Batch.deletes c))) ++
    flat_map leb128 (Batch.inserts c) ++
    flat_map leb128 (Batch.updates c ++ Batch.child_updates c) ++
    flat_map leb128 (Batch.deletes c) ++ [].
Proof.
  unfold Batch.serialize, push_leb128, to_leb128_bytes. cbn [fold_left].
  rewrite !fold_push_leb128, flat_map_app, app_nil_r. cbn [app]. by rewrite <- !app_assoc.
Qed.

Lemma fold_pos_updates upd chd l :
  fold_pos (fun pos => push_update (Z.of_nat (length upd) <=? pos)) 0 (upd ++ chd) l =
  fold_left (push_update true) chd (fold_left (push_update false) upd l).
Proof.
  assert (forall n pos ids l, n <= pos ->
    fold_pos (fun pos => push_update (n <=? pos)) pos ids l = fold_left (push_update true) ids l) as Hc.
  { intros n pos ids. revert pos. induction ids as [|id ids IH]; intros pos l' Hp; cbn; [done|].
    rewrite IH by lia. by rewrite (proj2 (Z.leb_le _ _)). }
  assert (forall n pos upd l, n = pos + Z.of_nat (length upd) ->
    fold_pos (fun pos => push_update (n <=? pos)) pos (upd ++ chd) l =
    fold_left (push_update true) chd (fold_left (push_update false) upd l)) as Hu.
  { intros n pos u. revert pos. induction u as [|id u IH]; intros pos l' Hp; cbn.
    - apply Hc. cbn in Hp. lia.
    - rewrite IH by (cbn in Hp; lia). by rewrite (proj2 (Z.leb_gt _ _)) by (cbn in Hp; lia). }
  apply Hu. lia.
Qed.

Lemma fold_apply_ops {A} (mk : A -> log_op) (f : list Change -> A -> list Change) ids l :
  (forall l id, apply_op l (mk id) = f l id) ->
  fold_left apply_op (mk <$> ids) l = fold_left f ids l.
Proof. intros Hf. revert l. induction ids as [|id ids IH]; intros l; cbn; [done|]. by rewrite IH, Hf. Qed.

(** Reading an entry back performs its operations, inserts first. *)
Lemma deserialize_batch_serialize `{Treemap} l c :
  change_wf c ->
  deserialize_changes l (Batch.serialize c) = Some (fold_left apply_op (change_ops c) l).
Proof.
  intros (Hids & Hi & Hu & Hc & Hd). rewrite !Forall_app in Hids.
  destruct Hids as (Wi & Wu & Wc & Wd).
  rewrite batch_serialize_bytes. unfold deserialize_changes. cbn [Z.eqb Batch.ENTRY].
  repeat (rewrite next_leb128_app by (apply usize_decodable; unfold fits; lia);
    cbn [mbind option_bind]).
  rewrite for_leb128_app by (eapply Forall_impl; [done|apply u64_decodable]).
  cbn [mbind option_bind]. rewrite fold_pos_const.
  assert ((if (0 <? Z.of_nat (length (Batch.updates c))) ||
    (0 <? Z.of_nat (length (Batch.child_updates c)))
    then u64 (Z.of_nat (length (Batch.updates c)) + Z.of_nat (length (Batch.child_updates c)))
    else 0) = Z.of_nat (length (Batch.updates c ++ Batch.child_updates c))) as ->.
  { rewrite length_app, Nat2Z.inj_add, wrap_small by (unfold fits; lia).
    destruct (Z.ltb_spec 0 (Z.of_nat (length (Batch.updates c)))),
      (Z.ltb_spec 0 (Z.of_nat (length (Batch.child_updates c)))); cbn; lia. }
  rewrite for_leb128_app by (apply Forall_app; split; (eapply Forall_impl; [done|apply u64_decodable])).
  cbn [mbind option_bind]. rewrite fold_pos_updates.
  rewrite for_leb128_app by (eapply Forall_impl; [done|apply u64_decodable]).
  cbn [mbind option_bind]. rewrite fold_pos_const. f_equal. unfold change_ops.
  rewrite !fold_left_app. by rewrite !(fold_apply_ops _ _) by done.
Qed.

(** ** The fold, id by id *)

Definition change_id_of (c : Change) : Z :=
  match c with Insert i | Update i | ChildUpdate i | Delete i => i end.

(** What the list says about one id. *)
Definition cell (id : Z) (l : list Change) : list Change := filter (fun c => change_id_of c = id) l.

#[global] Arguments cell : simpl never.

Lemma cell_cons id c l :
  cell id (c :: l) = if decide (change_id_of c = id) then c :: cell id l else cell id l.
Proof. unfold cell. by rewrite filter_cons. Qed.

Lemma cell_app id l k : cell id (l ++ k) = cell id l ++ cell id k.
Proof. unfold cell. by rewrite filter_app. Qed.

(** Case analysis on one change of the list and whether it is about the id. *)
Ltac cell_cases c j :=
  destruct c as [i|i|i|i]; cbn [scan_update scan_delete];
  rewrite ?cell_cons; cbn [change_id_of];
  destruct (Z.eqb_spec i j) as [->|?];
  rewrite ?decide_True, ?decide_False by done; cbn [scan_update scan_delete];
  rewrite ?Z.eqb_refl.

Lemma scan_update_cell j l :
  scan_update j (cell j l) = (fun rb => (cell j rb.1, rb.2)) <$> scan_update j l.
Proof.
  induction l as [|c l IH]; [done|]. cell_cases c j; try done; rewrite ?IH;
    destruct (scan_update j l) as [[r b]|]; try done; cbn;
    rewrite ?cell_cons; cbn; by rewrite ?decide_True, ?decide_False by done.
Qed.

Lemma scan_update_other id j l r b :
  id <> j -> scan_update j l = Some (r, b) -> cell id r = cell id l.
Proof.
  intros Hne. revert r b. induction l as [|c l IH]; intros r b; [by intros [= <- <-]|].
  rewrite cell_cons.
  destruct c as [i|i|i|i]; cbn [scan_update change_id_of];
    try (destruct (Z.eqb_spec i j) as [->|?];
      [first [done | intros [= <- <-]; by rewrite decide_False]|]);
    (destruct (scan_update j l) as [[r' b']|]; [|done]); intros [= <- <-];
    rewrite cell_cons; cbn [change_id_of]; by rewrite (IH r' b').
Qed.

Lemma cell_push_update id b l j :
  cell id (push_update b l j) = if decide (j = id) then push_update b (cell id l) id else cell id l.
Proof.
  unfold push_update. destruct (decide (j = id)) as [->|Hne].
  - rewrite scan_update_cell. destruct (scan_update id l) as [[r found]|]; [|done]. cbn.
    rewrite cell_app. f_equal. destruct (negb _); cbn; by rewrite cell_cons, decide_True.
  - destruct (scan_update j l) as [[r found]|] eqn:E; [|done].
    rewrite cell_app, (scan_update_other id j l r found) by done.
    destruct (negb _); rewrite cell_cons, decide_False by done; apply app_nil_r.
Qed.

Lemma scan_delete_cell j l :
  scan_delete j (cell j l) = (cell j (scan_delete j l).1, (scan_delete j l).2).
Proof.
  induction l as [|c l IH]; [done|]. cell_cases c j; try done; rewrite ?IH;
    destruct (scan_delete j l) as [r b]; try done; cbn;
    rewrite ?cell_cons; cbn; by rewrite ?decide_True, ?decide_False by done.
Qed.

Lemma scan_delete_other id j l : id <> j -> cell id (scan_delete j l).1 = cell id l.
Proof.
  intros Hne. induction l as [|c l IH]; [done|]. rewrite cell_cons.
  destruct c as [i|i|i|i]; cbn [scan_delete change_id_of];
    try (destruct (Z.eqb_spec i j) as [->|?]; [by rewrite decide_False|]);
    destruct (scan_delete j l) as [r b]; cbn [fst] in *; rewrite cell_cons; cbn [change_id_of];
    by rewrite IH.
Qed.

Lemma cell_push_delete id l j :
  cell id (push_delete l j) = if decide (j = id) then push_delete (cell id l) id else cell id l.
Proof.
  unfold push_delete. destruct (decide (j = id)) as [->|Hne].
  - rewrite scan_delete_cell. destruct (scan_delete id l) as [r []]; cbn; [done|].
    by rewrite cell_app, cell_cons, decide_True.
  - pose proof (scan_delete_other id j l ltac:(done)) as E.
    destruct (scan_delete j l) as [r []]; cbn in *; [done|].
    rewrite cell_app, cell_cons, decide_False by done. by rewrite E, app_nil_r.
Qed.

Lemma cell_apply_op id l o :
  cell id (apply_op l o) = if decide (op_id o = id) then apply_op (cell id l) o else cell id l.
Proof.
  destruct o as [j|j|j|j]; cbn [apply_op op_id].
  - unfold push_insert. rewrite cell_app, cell_cons. cbn.
    destruct (decide (j = id)); [done|apply app_nil_r].
  - rewrite cell_push_update. by destruct (decide (j = id)) as [->|].
  - rewrite cell_push_update. by destruct (decide (j = id)) as [->|].
  - rewrite cell_push_delete. by destruct (decide (j = id)) as [->|].
Qed.

Lemma cell_fold id ops l :
  cell id (fold_left apply_op ops l) =
  fold_left apply_op (filter (fun o => op_id o = id) ops) (cell id l).
Proof.
  revert l. induction ops as [|o ops IH]; intros l; [done|]. cbn [fold_left].
  rewrite IH, cell_apply_op, filter_cons. by destruct (decide (op_id o = id)).
Qed.

(** ** The life of an id *)

(** The operations on an id make sense when it is inserted at most once and
    before anything else, and nothing follows its deletion (ids are never
    reused). *)
Fixpoint life_ok (seen dead : bool) (ops : list log_op) : bool :=
  match ops with
  | [] => true
  | OIns _ :: ops => negb seen && negb dead && life_ok true dead ops
  | OUpd _ :: ops | OChd _ :: ops => negb dead && life_ok true dead ops
  | ODel _ :: ops => negb dead && life_ok true true ops
  end.

(** The net effect of the operations on an id, from whether it was inserted,
    updated, child-updated and deleted. *)
Definition net (id : Z) (ins upd chd del : bool) : list Change :=
  match ins, del with
  | true, true => []
  | true, false => [Insert id]
  | false, true => [Delete id]
  | false, false => if upd then [Update id] else if chd then [ChildUpdate id] else []
  end.

Definition net_change (id : Z) (ops : list log_op) : list Change :=
  net id (bool_decide (OIns id ∈ ops)) (bool_decide (OUpd id ∈ ops))
    (bool_decide (OChd id ∈ ops)) (bool_decide (ODel id ∈ ops)).

Definition ops_of (id : Z) (ops : list log_op) : list log_op := filter (fun o => op_id o = id) ops.

Lemma bool_decide_cons {A} `{EqDecision A} (x y : A) l :
  bool_decide (x ∈ y :: l) = bool_decide (x = y) || bool_decide (x ∈ l).
Proof.
  rewrite <- bool_decide_or. apply bool_decide_ext. apply elem_of_cons.
Qed.

Lemma life_step id o ins upd chd del :
  op_id o = id -> life_ok (ins || upd || chd || del) del [o] = true ->
  apply_op (net id ins upd chd del) o =
  net id (ins || bool_decide (OIns id = o)) (upd || bool_decide (OUpd id = o))
    (chd || bool_decide (OChd id = o)) (del || bool_decide (ODel id = o)).
Proof.
  intros <-. destruct o as [i|i|i|i]; cbn [op_id]; repeat (case_bool_decide; try done);
    destruct ins, upd, chd, del; try done; intros _; cbn;
    unfold push_update, push_delete; cbn; by rewrite ?Z.eqb_refl.
Qed.

Lemma life_ok_cons s d o ops :
  life_ok s d (o :: ops) = true ->
  life_ok s d [o] = true /\
  life_ok true (d || match o with ODel _ => true | _ => false end) ops = true.
Proof.
  destruct o; cbn; rewrite ?andb_true_iff, ?orb_false_r, ?orb_true_r; naive_solver.
Qed.

Lemma life_fold id ops ins upd chd del :
  Forall (fun o => op_id o = id) ops -> life_ok (ins || upd || chd || del) del ops = true ->
  fold_left apply_op ops (net id ins upd chd del) =
  net id (ins || bool_decide (OIns id ∈ ops)) (upd || bool_decide (OUpd id ∈ ops))
    (chd || bool_decide (OChd id ∈ ops)) (del || bool_decide (ODel id ∈ ops)).
Proof.
  intros Hid. revert ins upd chd del. induction Hid as [|o ops Ho _ IH]; intros ins upd chd del.
  - intros _. cbn. by rewrite !orb_false_r.
  - intros [H1 H2]%life_ok_cons. cbn [fold_left]. rewrite life_step, IH; [|clear IH|done|done].
    + by rewrite !bool_decide_cons, !orb_assoc.
    + rewrite <- H2. destruct o; cbn in Ho; subst; repeat (case_bool_decide; try done);
        f_equal; btauto.
Qed.

Lemma elem_of_ops_of id o ops : op_id o = id -> o ∈ ops_of id ops <-> o ∈ ops.
Proof. intros. unfold ops_of. rewrite list_elem_of_filter. tauto. Qed.

Lemma cell_net id ops :
  life_ok false false (ops_of id ops) = true ->
  cell id (fold_left apply_op ops []) = net_change id ops.
Proof.
  intros Hl. rewrite cell_fold. change (cell id []) with (net id false false false false).
  change (filter _ ops) with (ops_of id ops). rewrite life_fold; [| |done].
  - unfold net_change. cbn [orb]. f_equal; apply bool_decide_ext; by apply elem_of_ops_of.
  - apply Forall_forall. intros o [Ho _]%list_elem_of_filter. done.
Qed.

(** ** Range scans *)

(** Keys of the log that carry the change prefix are change keys. *)
Definition log_wf `{Store DB} (db : DB) : Prop :=
  forall k v, db_get db Logs k = Some v -> starts_with k [LogKey.CHANGE_KEY_PREFIX] = true ->
  exists a c i, fits 32 a /\ fits 64 i /\ k = LogKey.serialize_change a c i.

Definition change_prefix (a : AccountId) (c : Collection.t) : list Z :=
  LogKey.CHANGE_KEY_PREFIX :: be_bytes 4 a ++ [Collection.to_u8 c].

Lemma change_key_split a c i : LogKey.serialize_change a c i = change_prefix a c ++ be_bytes 8 i.
Proof. unfold LogKey.serialize_change, change_prefix. cbn [app]. by rewrite <- app_assoc. Qed.

Lemma change_prefix_length a c : length (change_prefix a c) = LogKey.CHANGE_ID_POS.
Proof. unfold change_prefix. cbn [length]. by rewrite length_app, be_bytes_length. Qed.

Lemma take_change_prefix a c i :
  take LogKey.CHANGE_ID_POS (LogKey.serialize_change a c i) = change_prefix a c.
Proof. rewrite change_key_split, <- (change_prefix_length a c). apply take_app_length. Qed.

Lemma change_key_prefix_inj a c i a' c' :
  fits 32 a -> fits 32 a' ->
  starts_with (LogKey.serialize_change a c i) (change_prefix a' c') = true -> a = a' /\ c = c'.
Proof.
  intros Ha Ha'. rewrite starts_with_iff, change_key_split. intros [rest He].
  apply app_inj_1 in He as [He _]; [|by rewrite !change_prefix_length].
  unfold change_prefix in He.
  assert (be_bytes 4 a ++ [Collection.to_u8 c] = be_bytes 4 a' ++ [Collection.to_u8 c']) as He'
    by congruence. apply app_inj_2 in He' as [H1 H2]; [|done].
  apply (be_bytes_inj 4) in H1 as ->; [|done..].
  by injection H2 as ->%Collection.to_u8_inj.
Qed.

Lemma change_key_starts a c i : starts_with (LogKey.serialize_change a c i) (change_prefix a c) = true.
Proof. apply starts_with_iff. rewrite change_key_split. by eexists. Qed.

Lemma change_id_decode a c i :
  fits 64 i -> LogKey.deserialize_change_id (LogKey.serialize_change a c i) = Some i.
Proof.
  intros Hi. rewrite <- (app_nil_r (LogKey.serialize_change a c i)).
  by apply deserialize_change_id_serialize.
Qed.

Lemma change_key_lt a c i i' :
  fits 32 a -> fits 64 i -> fits 64 i' ->
  bytes_lt (LogKey.serialize_change a c i) (LogKey.serialize_change a c i') <-> i < i'.
Proof.
  intros. unfold bytes_lt. rewrite change_key_cmp by done. rewrite !Z.compare_refl. cbn.
  apply Z.compare_lt_iff.
Qed.

Lemma change_key_le a c i i' :
  fits 32 a -> fits 64 i -> fits 64 i' ->
  bytes_le (LogKey.serialize_change a c i) (LogKey.serialize_change a c i') <-> i <= i'.
Proof.
  intros. unfold bytes_le. rewrite change_key_cmp by done. rewrite !Z.compare_refl. cbn.
  apply Z.compare_le_iff.
Qed.

Lemma change_key_inj a c i i' :
  fits 64 i -> fits 64 i' -> LogKey.serialize_change a c i = LogKey.serialize_change a c i' -> i = i'.
Proof.
  intros Hi Hi' He. apply (change_id_decode a c) in Hi, Hi'. rewrite He in Hi. congruence.
Qed.

Section Scans.
Context `{Treemap} `{StoreLaws DB}.

(** The entries a scan from [from] visits, as pairs of change id and value. *)
Definition visited (db : DB) (a : AccountId) (c : Collection.t) (from : ChangeId)
    : list (ChangeId * list Z) :=
  (fun kv => (default 0 (LogKey.deserialize_change_id kv.1), kv.2)) <$>
  take_prefix (change_prefix a c) (db_iterator db Logs (LogKey.serialize_change a c from) Forward).

Lemma visited_key db a c from k v :
  log_wf db -> fits 32 a -> fits 64 from ->
  (k, v) ∈ take_prefix (change_prefix a c)
    (db_iterator db Logs (LogKey.serialize_change a c from) Forward) <->
  exists i, fits 64 i /\ from <= i /\ k = LogKey.serialize_change a c i /\ db_get db Logs k = Some v.
Proof.
  intros Hwf Ha Hf. rewrite change_key_split, prefix_iteration, <- change_key_split. split.
  - intros (Hg & Hp & Hle). assert (Hp0 := Hp). apply starts_with_iff in Hp as [rest ->].
    destruct (Hwf _ _ Hg) as (a' & c' & i & Ha' & Hi & Hk); [done|].
    rewrite Hk in *. apply change_key_prefix_inj in Hp0 as [-> ->]; [|done..].
    exists i. split_and!; try done. by eapply change_key_le.
  - intros (i & Hi & Hle & -> & Hg). split_and!; [done|apply change_key_starts|].
    by apply change_key_le.
Qed.

Lemma elem_of_visited db a c from i v :
  log_wf db -> fits 32 a -> fits 64 from ->
  (i, v) ∈ visited db a c from <->
  fits 64 i /\ from <= i /\ db_get db Logs (LogKey.serialize_change a c i) = Some v.
Proof.
  intros Hwf Ha Hf. unfold visited. rewrite list_elem_of_fmap. split.
  - intros ([k w] & [= -> ->] & Hin). apply visited_key in Hin as (i & Hi & Hle & -> & Hg); [|done..].
    cbn. rewrite change_id_decode by done. done.
  - intros (Hi & Hle & Hg). exists (LogKey.serialize_change a c i, v). cbn.
    rewrite change_id_decode by done. split; [done|]. apply visited_key; [done..|]. by exists i.
Qed.

Lemma change_ids_sorted a c l :
  fits 32 a -> keys_below l ->
  (forall kv, kv ∈ l -> exists i, fits 64 i /\ kv.1 = LogKey.serialize_change a c i) ->
  StronglySorted (fun e e' => e.1 < e'.1)
    ((fun kv => (default 0 (LogKey.deserialize_change_id kv.1), kv.2)) <$> l).
Proof.
  intros Ha Hs Hk. induction Hs as [|kv l Hs IH Hlt]; [constructor|]. cbn [fmap list_fmap].
  constructor; [apply IH; intros; apply Hk, elem_of_cons; by right|]. rewrite Forall_forall in Hlt.
  apply Forall_forall. intros e (kv' & -> & Hin)%list_elem_of_fmap. specialize (Hlt _ Hin).
  destruct (Hk kv) as (i & Hi & E); [by apply elem_of_cons; left|].
  destruct (Hk kv') as (i' & Hi' & E'); [by apply elem_of_cons; right|].
  cbn. rewrite E, E' in *. rewrite !change_id_decode by done. cbn. by eapply change_key_lt.
Qed.

Lemma visited_sorted db a c from :
  log_wf db -> fits 32 a -> fits 64 from ->
  StronglySorted (fun e e' => e.1 < e'.1) (visited db a c from).
Proof.
  intros Hwf Ha Hf. apply (change_ids_sorted a c); [done| |].
  - apply take_prefix_sorted, db_forward_sorted.
  - intros [k v] (i & Hi & _ & -> & _)%visited_key; [|done..]. by exists i.
Qed.

(** The ids a query selects. *)
Definition selects (is_inclusive : bool) (from to id : ChangeId) : bool :=
  ((from <? id) || (is_inclusive && (id =? from))) && negb ((0 <? to) && (to <? id)).
Definition in_range (q : Query) (id : ChangeId) : bool :=
  let '(is_inclusive, from, to) := query_range q in selects is_inclusive from to id.

Definition query_from (q : Query) : ChangeId := (query_range q).1.2.
Definition query_to (q : Query) : ChangeId := (query_range q).2.

(** Folding the selected entries into the state of the loop. *)
Fixpoint run_entries (st : Changes * bool) (l : list (ChangeId * list Z)) : option (Changes * bool) :=
  match l with
  | [] => Some st
  | (id, v) :: l =>
      cs ← deserialize_changes (changes st.1) v;
      run_entries (mkChanges cs (if st.2 then id else from_change_id st.1) id, false) l
  end.

Lemma loop_selects incl from to prefix it st :
  let ents := (fun kv => (default 0 (LogKey.deserialize_change_id kv.1), kv.2)) <$>
    take_prefix prefix it in
  (forall kv, kv ∈ take_prefix prefix it -> is_Some (LogKey.deserialize_change_id kv.1)) ->
  StronglySorted (fun e e' : ChangeId * list Z => e.1 < e'.1) ents ->
  get_changes_loop prefix incl from to it st =
  run_entries st (filter (fun e => selects incl from to e.1 = true) ents).
Proof.
  cbn zeta. revert st. induction it as [|[k v] it IH]; intros st Hd Hs; [done|].
  cbn [take_prefix get_changes_loop fst] in *. destruct (starts_with k prefix); [|done].
  cbn [negb fmap list_fmap fst snd] in *. destruct (Hd (k, v)) as [cid Hid]; [by apply elem_of_cons; left|].
  cbn [fst] in Hid. rewrite Hid in *. cbn [mbind option_bind default id] in *.
  apply StronglySorted_inv in Hs as [Hs Hlt].
  specialize (fun st => IH st (fun kv Hin => Hd kv (proj2 (elem_of_cons _ _ _) (or_intror Hin))) Hs).
  rewrite filter_cons. cbn [fst]. pose proof (eq_refl (selects incl from to cid)) as Hsel.
  unfold selects at 2 in Hsel.
  destruct ((from <? cid) || (incl && (cid =? from))) eqn:E1; cbn [andb] in Hsel.
  - destruct ((0 <? to) && (to <? cid)) eqn:E2; cbn [negb] in Hsel.
    + rewrite decide_False by congruence. apply andb_true_iff in E2 as [E2 E3]. rewrite Z.ltb_lt in E3.
      rewrite filter_none; [done|]. rewrite Forall_forall in Hlt.
      intros e He. specialize (Hlt e He). cbn in Hlt. unfold selects.
      rewrite E2, (proj2 (Z.ltb_lt to e.1)) by lia. by rewrite andb_false_r.
    + rewrite decide_True by done. destruct st as [cl first]. cbn [run_entries fst snd].
      destruct (deserialize_changes (changes cl) v); [|done]. cbn [mbind option_bind]. apply IH.
  - by rewrite decide_False by congruence.
Qed.

Definition finish (q : Query) (st : Changes * bool) : Changes :=
  if st.2 then
    mkChanges (changes st.1) (query_from q) (if 0 <? query_to q then query_to q else query_from q)
  else st.1.

Lemma get_changes_entries db a c q :
  log_wf db -> fits 32 a -> fits 64 (query_from q) ->
  get_changes db a c q =
  finish q <$> run_entries (Changes_default, true)
    (filter (fun e => in_range q e.1 = true) (visited db a c (query_from q))).
Proof.
  intros Hwf Ha Hf. unfold get_changes, query_from, query_to, in_range, visited in *.
  destruct (query_range q) as [[incl from] to] eqn:Eq. cbn [fst snd] in *.
  rewrite take_change_prefix, loop_selects.
  - unfold finish, query_from, query_to. rewrite Eq.
    by destruct (run_entries _ _) as [[cl []]|].
  - intros [k v] (i & Hi & _ & -> & _)%visited_key; [|done..]. cbn. by rewrite change_id_decode.
  - by apply visited_sorted.
Qed.

(** A log of parsed entries, as the store holds it. *)
Definition stored (e : ChangeId * Batch.Change) : ChangeId * list Z := (e.1, Batch.serialize e.2).
Definition log_ops (log : list (ChangeId * Batch.Change)) : list log_op :=
  concat ((fun e => change_ops e.2) <$> log).

Lemma run_entries_stored log cl first :
  Forall (fun e => change_wf e.2) log ->
  run_entries (cl, first) (stored <$> log) =
  Some match log with
       | [] => (cl, first)
       | e :: _ =>
           (mkChanges (fold_left apply_op (log_ops log) (changes cl))
              (if first then e.1 else from_change_id cl) (default 0 (fst <$> last log)), false)
       end.
Proof.
  intros Hwf. revert cl first. induction Hwf as [|[i ch] log Hch _ IH]; intros cl first; [done|].
  cbn [fmap list_fmap stored fst snd run_entries]. cbn in Hch.
  rewrite deserialize_batch_serialize by done. cbn [mbind option_bind]. rewrite IH.
  unfold log_ops. cbn [fmap list_fmap concat fst snd]. rewrite fold_left_app.
  destruct log as [|[i' ch'] log]; [done|]. done.
Qed.

Lemma in_range_from q i : in_range q i = true -> query_from q <= i.
Proof.
  unfold in_range, query_from, selects. destruct (query_range q) as [[incl from] to]. cbn.
  rewrite andb_true_iff, orb_true_iff, andb_true_iff, Z.ltb_lt, Z.eqb_eq. lia.
Qed.

(** The entries of a scan that a predicate selects, when they are known. *)
Lemma visited_stored db a c from (P : ChangeId -> bool) log :
  log_wf db -> fits 32 a -> fits 64 from -> (forall i, fits 64 i -> P i = true -> from <= i) ->
  StronglySorted (fun e e' => e.1 < e'.1) log ->
  (forall i v, (fits 64 i /\ P i = true /\
       db_get db Logs (LogKey.serialize_change a c i) = Some v) <->
     exists ch, (i, ch) ∈ log /\ v = Batch.serialize ch) ->
  filter (fun e => P e.1 = true) (visited db a c from) = stored <$> log.
Proof.
  intros Hwf Ha Hf HP Hs Hlog.
  apply (sorted_by_unique (fun e e' : ChangeId * list Z => e.1 < e'.1)).
  - intros x Hx. lia.
  - intros x y z Hxy Hyz. lia.
  - apply StronglySorted_filter. by apply visited_sorted.
  - clear Hlog. induction Hs as [|e log Hs IH Hlt]; [constructor|]. cbn. constructor; [done|].
    apply Forall_fmap. done.
  - intros [i v]. rewrite list_elem_of_filter, elem_of_visited, list_elem_of_fmap by done. cbn.
    pose proof (Hlog i v) as Hiv. split.
    + intros (Hr & Hi & _ & Hg). destruct (proj1 Hiv) as (ch & Hin & ->); [done|]. by exists (i, ch).
    + intros ([i' ch] & [= <- ->] & Hin). destruct (proj2 Hiv) as (Hi & Hr & Hg); [by exists ch|].
      split_and!; try done. by apply HP.
Qed.

Lemma selected_stored db a c q log :
  log_wf db -> fits 32 a -> fits 64 (query_from q) ->
  StronglySorted (fun e e' => e.1 < e'.1) log ->
  (forall i v, (fits 64 i /\ in_range q i = true /\
       db_get db Logs (LogKey.serialize_change a c i) = Some v) <->
     exists ch, (i, ch) ∈ log /\ v = Batch.serialize ch) ->
  filter (fun e => in_range q e.1 = true) (visited db a c (query_from q)) = stored <$> log.
Proof. intros. apply visited_stored; [done..| |done|done]. intros i _. apply in_range_from. Qed.
End Scans.

(** ** Properties *)

(** C25. The result of [get_changes] is the net effect of the log. Let [log] be
    the entries stored for an account and collection whose change ids the
    query selects, in increasing order. Then [get_changes] succeeds, and for
    every id whose operations make sense (inserted at most once and first,
    nothing after its deletion) it reports exactly: a creation if the id was
    inserted and not deleted, nothing if it was inserted and deleted, a
    deletion if it was only deleted, an update if it was updated, a child
    update if it was only child-updated, and nothing otherwise. The states
    returned are the first and last change ids of the log, or those of the
    query when the log is empty. *)
Theorem get_changes_net_effect `{Treemap} `{StoreLaws DB} (db : DB) a c q log :
  log_wf db -> fits 32 a -> fits 64 (query_from q) ->
  StronglySorted (fun e e' => e.1 < e'.1) log -> Forall (fun e => change_wf e.2) log ->
  (forall i v, (fits 64 i /\ in_range q i = true /\
       db_get db Logs (LogKey.serialize_change a c i) = Some v) <->
     exists ch, (i, ch) ∈ log /\ v = Batch.serialize ch) ->
  exists cl, get_changes db a c q = Some cl /\
    (forall id, life_ok false false (ops_of id (log_ops log)) = true ->
       cell id (changes cl) = net_change id (log_ops log)) /\
    from_change_id cl = default (query_from q) (fst <$> head log) /\
    to_change_id cl = default (if 0 <? query_to q then query_to q else query_from q)
      (fst <$> last log).
Proof.
  intros Hwf Ha Hf Hs Hch Hlog.
  rewrite get_changes_entries, (selected_stored db a c q log), run_entries_stored by done.
  eexists. split; [done|]. destruct log as [|[i ch] log].
  - split; [|done]. intros id _. done.
  - cbn [finish fst snd changes from_change_id to_change_id head fmap option_fmap option_map default Changes_default].
    split_and!; [|done|].
    + intros id Hl. by apply cell_net.
    + rewrite last_cons. by destruct (last log).
Qed.

(** A store with two entries for account 1: the first inserts 10 and 11 and
    updates 5, the second updates 10, deletes 11 and child-updates 6. *)
Definition sample_log : list (ChangeId * Batch.Change) :=
  [(3, Batch.mkChange [10; 11] [5] [] []); (7, Batch.mkChange [] [10] [11] [6])].

Module SampleStore.
(** The ids one after the other, up to the end of the input. *)
Fixpoint read_ids (fuel : nat) (bytes : list Z) : option (gset Z) :=
  match bytes, fuel with
  | [], _ => Some ∅
  | _ :: _, O => None
  | _ :: _, S fuel =>
      '(id, it) ← next_leb128 U64 bytes;
      ids ← read_ids fuel it;
      Some ({[id]} ∪ ids)
  end.

#[export] Instance sample_treemap : Treemap := {
  treemap_serialize ids := flat_map leb128 (elements ids);
  treemap_deserialize bytes := read_ids (length bytes) bytes
}.

Lemma read_ids_app l fuel :
  Forall (fits 64) l -> (length l <= fuel)%nat ->
  read_ids fuel (flat_map leb128 l) = Some (list_to_set l).
Proof.
  intros Hl. revert fuel. induction Hl as [|x l Hx _ IH]; intros fuel Hf; [by destruct fuel|].
  cbn [length] in Hf. destruct fuel as [|fuel]; [lia|]. cbn [flat_map].
  destruct (leb128 x ++ flat_map leb128 l) as [|b bs] eqn:E.
  { pose proof (leb128_nonempty x). apply (f_equal length) in E. rewrite length_app in E. cbn in E. lia. }
  cbn [read_ids]. rewrite <- E, next_leb128_app by by apply u64_decodable.
  cbn [mbind option_bind]. rewrite IH by lia. done.
Qed.

Lemma read_ids_ok fuel bytes ids : read_ids fuel bytes = Some ids -> ids_ok ids.
Proof.
  revert bytes ids. induction fuel as [|fuel IH]; intros [|b bytes] ids; cbn [read_ids]; try done.
  1, 2: intros [= <-]; by apply set_Forall_empty.
  destruct (next_leb128 U64 (b :: bytes)) as [[id it]|] eqn:E; [|done]. cbn [mbind option_bind].
  destruct (read_ids fuel it) as [ids'|] eqn:E'; [|done]. intros [= <-].
  apply set_Forall_union; [apply set_Forall_singleton|by eapply IH].
  by eapply (from_leb128_loop_fits 64).
Qed.

#[export] Instance sample_treemap_laws : TreemapLaws.
Proof.
  split; cbn.
  - intros ids Hok. rewrite read_ids_app; [by rewrite list_to_set_elements_L| |apply flat_map_leb128_length].
    apply Forall_forall. intros x Hx. by apply Hok, elem_of_elements.
  - intros bytes ids. apply read_ids_ok.
Qed.
Export PlainStore.

Definition db_of_log (a : AccountId) (c : Collection.t) (log : list (ChangeId * Batch.Change))
    : MemStore.t :=
  db_write MemStore.empty
    ((fun e => OpSet Logs (LogKey.serialize_change a c e.1) (Batch.serialize e.2)) <$> log).
End SampleStore.
Import SampleStore.

Lemma db_of_log_get a c log k v :
  db_get (SampleStore.db_of_log a c log) Logs k = Some v ->
  exists e, e ∈ log /\ k = LogKey.serialize_change a c e.1 /\ v = Batch.serialize e.2.
Proof.
  unfold SampleStore.db_of_log. rewrite db_write_get. change (db_get MemStore.empty Logs k) with (@None (list Z)).
  assert (forall o, fold_left (op_effect Logs k)
    ((fun e : ChangeId * Batch.Change => OpSet Logs (LogKey.serialize_change a c e.1) (Batch.serialize e.2)) <$> log) o = Some v ->
    o = Some v \/ exists e, e ∈ log /\ k = LogKey.serialize_change a c e.1 /\ v = Batch.serialize e.2) as Hgen.
  { induction log as [|e log IH]; intros o; cbn; [by left|]. intros [Ho|(e' & Hin & ?)]%IH.
    - unfold op_effect in Ho. cbn in Ho. case_bool_decide as Hk; [|by left].
      right. exists e. destruct Hk as [_ <-]. injection Ho as <-. split; [|done]. by apply elem_of_cons; left.
    - right. exists e'. split; [|done]. by apply elem_of_cons; right. }
  intros [?|?]%Hgen; done.
Qed.

Lemma db_of_log_elem a c log i ch :
  Forall (fun e => fits 64 e.1) log -> StronglySorted (fun e e' => e.1 < e'.1) log ->
  (i, ch) ∈ log ->
  db_get (db_of_log a c log) Logs (LogKey.serialize_change a c i) = Some (Batch.serialize ch).
Proof.
  intros Hok Hs Hin. unfold db_of_log. rewrite db_write_get.
  change (db_get MemStore.empty Logs _) with (@None (list Z)). generalize (@None (list Z)).
  induction Hs as [|e log Hs IH Hlt]; [by apply not_elem_of_nil in Hin|].
  apply Forall_cons in Hok as [He Hok]. intros o. cbn [fmap list_fmap fold_left].
  apply elem_of_cons in Hin as [<-|Hin]; [|by apply IH]. clear IH Hs. cbn [fst snd] in *.
  unfold op_effect at 2. cbn. rewrite bool_decide_eq_true_2 by done.
  assert (forall o, o = Some (Batch.serialize ch) -> fold_left (op_effect Logs (LogKey.serialize_change a c i))
    ((fun e : ChangeId * Batch.Change => OpSet Logs (LogKey.serialize_change a c e.1) (Batch.serialize e.2)) <$> log) o
    = Some (Batch.serialize ch)) as Hgen; [|by apply Hgen].
  induction log as [|e log IH]; intros o' ->; cbn; [done|].
  apply Forall_cons in Hok as [He' Hok]. apply Forall_cons in Hlt as [Hlt0 Hlt]. cbn in Hlt0.
  apply IH; [done..|]. unfold op_effect. cbn. rewrite bool_decide_eq_false_2; [done|].
  intros [_ Hk]. apply change_key_inj in Hk; [lia|done..].
Qed.

Lemma db_of_log_wf a c log :
  fits 32 a -> Forall (fun e => fits 64 e.1) log -> log_wf (db_of_log a c log).
Proof.
  intros Ha Hl k v (e & He & -> & _)%db_of_log_get _. exists a, c, e.1.
  rewrite Forall_forall in Hl. split_and!; [done|by apply Hl|done].
Qed.

Lemma db_of_log_snoc a c log e i :
  fits 64 i -> fits 64 e.1 -> i <> e.1 ->
  db_get (db_of_log a c (log ++ [e])) Logs (LogKey.serialize_change a c i) =
  db_get (db_of_log a c log) Logs (LogKey.serialize_change a c i).
Proof.
  intros Hi He Hne. unfold db_of_log. rewrite fmap_app, !db_write_get, fold_left_app. cbn [fold_left fmap list_fmap].
  unfold op_effect at 1. cbn. rewrite bool_decide_eq_false_2; [done|].
  intros [_ Hk]. apply change_key_inj in Hk; [congruence|done..].
Qed.

Lemma get_changes_net_effect_witness :
  exists cl, get_changes (db_of_log 1 Collection.Mail sample_log) 1 Collection.Mail (Since 2) = Some cl /\
    cell 10 (changes cl) = [Insert 10] /\ cell 11 (changes cl) = [] /\ to_change_id cl = 7.
Proof.
  destruct (get_changes_net_effect (db_of_log 1 Collection.Mail sample_log) 1 Collection.Mail
    (Since 2) sample_log) as (cl & Hcl & Hnet & _ & Hto).
  - apply db_of_log_wf; [split; cbn; lia|repeat constructor; cbn; lia].
  - split; cbn; lia.
  - split; cbn; lia.
  - repeat constructor.
  - repeat constructor; cbn; lia.
  - intros i v. split.
    + intros (Hi & Hr & (e & He & Hk & ->)%db_of_log_get).
      cbv [sample_log] in He. rewrite !elem_of_cons, elem_of_nil in He.
      destruct He as [->|[->|[]]]; (apply change_key_inj in Hk; [|exact Hi|split; cbn; lia]);
        subst i; eexists; (split; [|reflexivity]); cbv [sample_log]; rewrite !elem_of_cons; auto.
    + intros (ch & Hin & ->). split_and!.
      * cbv [sample_log] in Hin. rewrite !elem_of_cons, elem_of_nil in Hin.
        destruct Hin as [[= -> _]|[[= -> _]|[]]]; split; cbn; lia.
      * cbv [sample_log] in Hin. rewrite !elem_of_cons, elem_of_nil in Hin.
        destruct Hin as [[= -> _]|[[= -> _]|[]]]; reflexivity.
      * apply db_of_log_elem; [|repeat constructor|exact Hin].
        repeat (constructor; [split; cbn; lia|]). constructor.
  - exists cl. split; [exact Hcl|]. split_and!.
    + rewrite (Hnet 10 eq_refl). vm_compute. reflexivity.
    + rewrite (Hnet 11 eq_refl). vm_compute. reflexivity.
    + exact Hto.
Defined.

(** [get_last_change_id] returns the greatest change id stored for an
    account and collection, and nothing exactly when none is stored. *)
Theorem get_last_change_id_max `{StoreLaws DB} (db : DB) a c :
  log_wf db -> fits 32 a ->
  match get_last_change_id db a c with
  | Some (Some i) =>
      fits 64 i /\ is_Some (db_get db Logs (LogKey.serialize_change a c i)) /\
      forall i' v, fits 64 i' -> db_get db Logs (LogKey.serialize_change a c i') = Some v -> i' <= i
  | Some None => forall i, fits 64 i -> db_get db Logs (LogKey.serialize_change a c i) = None
  | None => False
  end.
Proof.
  intros Hwf Ha. unfold get_last_change_id. rewrite take_change_prefix.
  assert (fits 64 U64_MAX) as Hmax by (unfold fits; lia).
  pose proof (backward_first db Logs (LogKey.serialize_change a c U64_MAX)) as Hb.
  destruct (db_iterator db Logs _ Backward) as [|[k v] it].
  - intros i Hi. apply eq_None_not_Some. intros [v Hg]. apply (Hb _ _ Hg).
    apply change_key_le; [done..|]. unfold fits in Hi. lia.
  - destruct Hb as (Hg & Hle & Hmaxk). destruct (starts_with k (change_prefix a c)) eqn:Hp.
    + destruct (Hwf k v Hg) as (a' & c' & i & Ha' & Hi & ->).
      { apply starts_with_iff in Hp as [rest ->]. done. }
      apply change_key_prefix_inj in Hp as [-> ->]; [|done..].
      rewrite change_id_decode by done. cbn. split_and!; [done|by eexists|].
      intros i' v' Hi' Hg'. apply (change_key_le a c); [done..|]. apply (Hmaxk _ _ Hg').
      apply change_key_le; [done..|]. unfold fits in Hi'. lia.
    + intros i Hi. apply eq_None_not_Some. intros [v' Hg']. cut (starts_with k (change_prefix a c) = true);
        [congruence|]. rewrite change_key_split in Hle.
      apply (prefix_between _ (be_bytes 8 i) (be_bytes 8 U64_MAX)); [|done].
      rewrite <- change_key_split. apply (Hmaxk _ _ Hg'). apply change_key_le; [done..|].
      unfold fits in Hi. lia.
Qed.

Lemma get_last_change_id_max_witness :
  get_last_change_id (db_of_log 1 Collection.Mail sample_log) 1 Collection.Mail = Some (Some 7) /\
  fits 64 7 /\
  is_Some (db_get (db_of_log 1 Collection.Mail sample_log) Logs (LogKey.serialize_change 1 Collection.Mail 7)).
Proof.
  assert (get_last_change_id (db_of_log 1 Collection.Mail sample_log) 1 Collection.Mail = Some (Some 7))
    as E by (vm_compute; reflexivity).
  split; [exact E|].
  pose proof (get_last_change_id_max (db_of_log 1 Collection.Mail sample_log) 1 Collection.Mail) as H.
  rewrite E in H. destruct H as (H1 & H2 & _).
  - apply db_of_log_wf; [split; cbn; lia|repeat constructor; cbn; lia].
  - split; cbn; lia.
  - split; assumption.
Defined.
