(* ===== verification/RaftLog.v ===== *)
(** * The Raft log: components/store/src/log/raft.rs, log/entry.rs, lib.rs

    Each committed write has a Raft id, the term and index under which its
    entry is stored; entries list the account and the collections it changed.
    The neighbours of an id in the log, id assignment and the entry codec are
    modelled. *)

From S2P Require Import Prelude Leb128 Serialize Types Keys Bitmap KV ChangeLog.

Definition raft_id_none : RaftId := mkRaftId 0 U64_MAX.
Definition raft_id_is_none (id : RaftId) : bool := rid_index id =? U64_MAX.

Definition raft_id_serialize (id : RaftId) : list Z :=
  push_leb128 (push_leb128 [] (rid_term id)) (rid_index id).
Definition raft_id_deserialize (bytes : list Z) : option RaftId :=
  '(term, it) ← next_leb128 U64 bytes;
  '(index, it) ← next_leb128 U64 it;
  Some (mkRaftId term index).

Section RaftLog.
Context `{Store DB}.

Definition get_prev_raft_id (db : DB) (key : RaftId) : option (option RaftId) :=
  match db_iterator db Logs (LogKey.serialize_raft key) Backward with
  | (key, _) :: _ =>
      if starts_with key [LogKey.RAFT_KEY_PREFIX] then Some <$> LogKey.deserialize_raft key
      else Some None
  | [] => Some None
  end.

Definition get_next_raft_id (db : DB) (key : RaftId) : option (option RaftId) :=
  match db_iterator db Logs (LogKey.serialize_raft key) Forward with
  | (key, _) :: _ =>
      if starts_with key [LogKey.RAFT_KEY_PREFIX] then Some <$> LogKey.deserialize_raft key
      else Some None
  | [] => Some None
  end.

(** The counters [raft_term] and [raft_index] of a freshly opened store. *)
Definition init_raft_id (db : DB) : option RaftId :=
  last ← get_prev_raft_id db (mkRaftId U64_MAX U64_MAX);
  Some match last with
       | Some id => mkRaftId (rid_term id) (u64 (rid_index id + 1))
       | None => mkRaftId 0 U64_MAX
       end.
End RaftLog.

(** [assign_raft_id]: the id of the next write, and the new [raft_index]. *)
Definition assign_raft_id (raft_term raft_index : Z) : RaftId * Z :=
  (mkRaftId raft_term (u64 (raft_index + 1)), u64 (raft_index + 1)).

(** ** Entries *)

Inductive Entry : Set :=
| Item (account_id : AccountId) (changed_collections : Z)
| Snapshot (changed_accounts : list (Z * list AccountId)).

(** The entry written by [prepare_batch]. *)
Definition item_bytes (account_id : AccountId) (collections : Z) : list Z :=
  [Batch.ENTRY] ++ le_bytes 4 account_id ++ le_bytes 8 collections.

(** The entry written by [compact_log_up_to]. *)
Definition snapshot_bytes (changed_collections : list (Z * list AccountId)) : list Z :=
  fold_left
    (fun bytes '(collections, account_ids) =>
       let bytes := push_leb128 bytes collections in
       let bytes := push_leb128 bytes (Z.of_nat (length account_ids)) in
       fold_left push_leb128 account_ids bytes)
    changed_collections
    (push_leb128 [Batch.SNAPSHOT] (Z.of_nat (length changed_collections))).

Fixpoint snapshot_groups (fuel : nat) (count : Z) (it : list Z)
    (acc : list (Z * list AccountId)) : option (list (Z * list AccountId)) :=
  if count <=? 0 then Some acc
  else
    match fuel with
    | O => None
    | S fuel =>
        '(collections, it) ← next_leb128 U64 it;
        '(total_accounts, it) ← next_leb128 Usize it;
        '(accounts, it) ← for_leb128 U32 (fun _ l id => l ++ [id]) total_accounts [] it;
        snapshot_groups fuel (count - 1) it (acc ++ [(collections, accounts)])
    end.

Definition entry_deserialize (bytes : list Z) : option Entry :=
  match bytes with
  | [] => None
  | tag :: it =>
      if tag =? Batch.ENTRY then
        account ← get_range bytes 1 (1 + 4);
        account ← deserialize_le 4 account;
        collections ← get_from bytes (1 + 4);
        collections ← deserialize_le 8 collections;
        Some (Item account collections)
      else if tag =? Batch.SNAPSHOT then
        '(total_collections, it) ← next_leb128 Usize it;
        groups ← snapshot_groups (length it) total_collections it [];
        Some (Snapshot groups)
      else None
  end.

(** [next_account]: an item gives its account once; a snapshot pops accounts
    from the last group, dropping groups as they empty. *)
Fixpoint snapshot_next (fuel : nat) (groups : list (Z * list AccountId))
    : option (AccountId * Z * list (Z * list AccountId)) :=
  match fuel with
  | O => None
  | S fuel =>
      match last groups with
      | None => None
      | Some (collections, account_ids) =>
          match last account_ids with
          | Some account_id =>
              Some (account_id, collections,
                take (length groups - 1) groups ++
                  [(collections, take (length account_ids - 1) account_ids)])
          | None => snapshot_next fuel (take (length groups - 1) groups)
          end
      end
  end.

Definition next_account (e : Entry) : option (AccountId * Z * Entry) :=
  match e with
  | Item account_id changed_collections =>
      if negb (bm_is_empty changed_collections) then
        Some (account_id, (bm_clear changed_collections).1,
          Item account_id (bm_clear changed_collections).2)
      else None
  | Snapshot groups =>
      '(account_id, collections, groups) ← snapshot_next (S (length groups)) groups;
      Some (account_id, collections, Snapshot groups)
  end.

(** Draining an entry. *)
Fixpoint drain_entry (fuel : nat) (e : Entry) : list (AccountId * Z) :=
  match fuel with
  | O => []
  | S fuel =>
      match next_account e with
      | Some (a, c, e) => (a, c) :: drain_entry fuel e
      | None => []
      end
  end.

(** ** Neighbours in the log *)

Definition rid_fits (r : RaftId) : Prop := fits 64 (rid_index r) /\ fits 64 (rid_term r).
Definition rid_le (r r' : RaftId) : Prop :=
  rid_index r < rid_index r' \/ (rid_index r = rid_index r' /\ rid_term r <= rid_term r').

(** Keys of the log that carry the Raft prefix are Raft keys. *)
Definition raft_wf `{Store DB} (db : DB) : Prop :=
  forall k v, db_get db Logs k = Some v -> starts_with k [LogKey.RAFT_KEY_PREFIX] = true ->
  exists r, rid_fits r /\ k = LogKey.serialize_raft r.

Definition in_log `{Store DB} (db : DB) (r : RaftId) : Prop :=
  rid_fits r /\ is_Some (db_get db Logs (LogKey.serialize_raft r)).

Lemma raft_key_le r r' :
  rid_fits r -> rid_fits r' ->
  bytes_le (LogKey.serialize_raft r) (LogKey.serialize_raft r') <-> rid_le r r'.
Proof.
  intros [? ?] [? ?]. unfold bytes_le, rid_le. rewrite raft_key_cmp by done.
  destruct (Z.compare_spec (rid_index r) (rid_index r')) as [E|?|?]; cbn.
  - rewrite Z.compare_le_iff. lia.
  - split; [lia|done].
  - split; [done|lia].
Qed.

Lemma raft_key_starts r : starts_with (LogKey.serialize_raft r) [LogKey.RAFT_KEY_PREFIX] = true.
Proof. done. Qed.

Lemma raft_key_decode r : rid_fits r -> LogKey.deserialize_raft (LogKey.serialize_raft r) = Some r.
Proof.
  intros [? ?]. rewrite <- (app_nil_r (LogKey.serialize_raft r)). by apply deserialize_raft_serialize.
Qed.

Section Neighbours.
Context `{StoreLaws DB}.

Lemma get_prev_raft_id_spec db key :
  raft_wf db -> rid_fits key ->
  match get_prev_raft_id db key with
  | Some (Some r) =>
      in_log db r /\ rid_le r key /\ forall r', in_log db r' -> rid_le r' key -> rid_le r' r
  | Some None => forall r, in_log db r -> ~ rid_le r key
  | None => False
  end.
Proof.
  intros Hwf Hkey. unfold get_prev_raft_id.
  pose proof (backward_first db Logs (LogKey.serialize_raft key)) as Hb.
  destruct (db_iterator db Logs _ Backward) as [|[k v] it].
  - intros r [Hr [v Hg]] Hle. apply (Hb _ _ Hg). by apply raft_key_le.
  - destruct Hb as (Hg & Hle & Hmax). destruct (starts_with k _) eqn:Hp.
    + destruct (Hwf k v Hg Hp) as (r & Hr & ->). rewrite raft_key_decode by done. cbn.
      split_and!; [by split; eauto|by apply raft_key_le|].
      intros r' [Hr' [v' Hg']] Hle'. apply raft_key_le; [done..|]. apply (Hmax _ _ Hg').
      by apply raft_key_le.
    + intros r [Hr [v' Hg']] Hle'.
      assert (starts_with k [LogKey.RAFT_KEY_PREFIX] = true); [|congruence].
      eapply (prefix_between [LogKey.RAFT_KEY_PREFIX]); [apply (Hmax _ _ Hg')|exact Hle].
      by apply raft_key_le.
Qed.

Lemma get_next_raft_id_spec db key :
  raft_wf db -> rid_fits key ->
  match get_next_raft_id db key with
  | Some (Some r) =>
      in_log db r /\ rid_le key r /\ forall r', in_log db r' -> rid_le key r' -> rid_le r r'
  | Some None => forall r, in_log db r -> ~ rid_le key r
  | None => False
  end.
Proof.
  intros Hwf Hkey. unfold get_next_raft_id.
  pose proof (forward_first db Logs (LogKey.serialize_raft key)) as Hb.
  destruct (db_iterator db Logs _ Forward) as [|[k v] it].
  - intros r [Hr [v Hg]] Hle. apply (Hb _ _ Hg). by apply raft_key_le.
  - destruct Hb as (Hg & Hle & Hmin). destruct (starts_with k _) eqn:Hp.
    + destruct (Hwf k v Hg Hp) as (r & Hr & ->). rewrite raft_key_decode by done. cbn.
      split_and!; [by split; eauto|by apply raft_key_le|].
      intros r' [Hr' [v' Hg']] Hle'. apply raft_key_le; [done..|]. apply (Hmin _ _ Hg').
      by apply raft_key_le.
    + intros r [Hr [v' Hg']] Hle'.
      assert (starts_with k [LogKey.RAFT_KEY_PREFIX] = true); [|congruence].
      eapply (prefix_between [LogKey.RAFT_KEY_PREFIX]); [exact Hle|apply (Hmin _ _ Hg')].
      by apply raft_key_le.
Qed.
End Neighbours.

(** ** Entry codec *)

Definition group_bytes (g : Z * list AccountId) : list Z :=
  leb128 g.1 ++ leb128 (Z.of_nat (length g.2)) ++ flat_map leb128 g.2.

Definition group_wf (g : Z * list AccountId) : Prop :=
  fits 64 g.1 /\ Z.of_nat (length g.2) < 2 ^ 64 /\ Forall (fits 32) g.2.

Lemma snapshot_fold groups bytes :
  fold_left
    (fun bytes '(collections, account_ids) =>
       let bytes := push_leb128 bytes collections in
       let bytes := push_leb128 bytes (Z.of_nat (length account_ids)) in
       fold_left push_leb128 account_ids bytes) groups bytes =
  bytes ++ flat_map group_bytes groups.
Proof.
  revert bytes. induction groups as [|[c l] groups IH]; intros bytes; cbn [fold_left flat_map];
    [by rewrite app_nil_r|].
  rewrite IH, fold_push_leb128. unfold group_bytes, push_leb128, to_leb128_bytes. cbn.
  by rewrite <- !app_assoc.
Qed.

Lemma snapshot_bytes_groups groups :
  snapshot_bytes groups =
  Batch.SNAPSHOT :: leb128 (Z.of_nat (length groups)) ++ flat_map group_bytes groups.
Proof.
  unfold snapshot_bytes. rewrite snapshot_fold. unfold push_leb128, to_leb128_bytes. done.
Qed.

Lemma fold_snoc (ids acc : list Z) : fold_left (fun l id => l ++ [id]) ids acc = acc ++ ids.
Proof.
  revert acc. induction ids as [|id ids IH]; intros acc; cbn; [by rewrite app_nil_r|].
  rewrite IH. by rewrite <- app_assoc.
Qed.

Lemma snapshot_groups_bytes groups fuel acc rest :
  Forall group_wf groups -> (length groups <= fuel)%nat ->
  snapshot_groups fuel (Z.of_nat (length groups)) (flat_map group_bytes groups ++ rest) acc =
  Some (acc ++ groups).
Proof.
  intros Hwf. revert fuel acc. induction Hwf as [|[c l] groups (Hc & Hn & Hl) _ IH]; intros fuel acc Hf.
  - destruct fuel; cbn; by rewrite app_nil_r.
  - cbn [length] in *. destruct fuel as [|fuel]; [lia|]. cbn [snapshot_groups flat_map].
    rewrite (proj2 (Z.leb_gt _ _)) by lia. unfold group_bytes at 1. cbn [fst snd] in *.
    rewrite <- !app_assoc, next_leb128_app by by apply u64_decodable. cbn [mbind option_bind].
    rewrite next_leb128_app by (apply usize_decodable; unfold fits; lia). cbn [mbind option_bind].
    rewrite for_leb128_app by (eapply Forall_impl; [done|intros; by apply u32_decodable]).
    cbn [mbind option_bind]. rewrite fold_pos_const, fold_snoc.
    replace (Z.of_nat (S (length groups)) - 1) with (Z.of_nat (length groups)) by lia.
    rewrite IH by lia. by rewrite <- app_assoc.
Qed.

Lemma groups_bytes_length groups : (length groups <= length (flat_map group_bytes groups))%nat.
Proof.
  induction groups as [|[c l] groups IH]; [done|]. cbn [flat_map length]. rewrite length_app.
  unfold group_bytes at 1. rewrite length_app. pose proof (leb128_nonempty c). cbn in *. lia.
Qed.

Lemma entry_snapshot_roundtrip groups :
  Forall group_wf groups -> Z.of_nat (length groups) < 2 ^ 64 ->
  entry_deserialize (snapshot_bytes groups) = Some (Snapshot groups).
Proof.
  intros Hwf Hn. rewrite snapshot_bytes_groups. cbn [entry_deserialize Z.eqb Batch.SNAPSHOT Batch.ENTRY].
  rewrite next_leb128_app by (apply usize_decodable; unfold fits; lia). cbn [mbind option_bind].
  rewrite <- (app_nil_r (flat_map group_bytes groups)) at 2.
  by rewrite snapshot_groups_bytes by (done || apply groups_bytes_length).
Qed.

Lemma entry_item_roundtrip a c :
  fits 32 a -> fits 64 c -> entry_deserialize (item_bytes a c) = Some (Item a c).
Proof.
  intros Ha Hc. unfold entry_deserialize, item_bytes. cbn [app Z.eqb Batch.ENTRY].
  pose proof (get_range_app [Batch.ENTRY] (le_bytes 4 a) (le_bytes 8 c)) as E.
  cbn [length app] in E. rewrite le_bytes_length in E. rewrite E. cbn [mbind option_bind].
  rewrite (deserialize_le_le 4) by done. cbn [mbind option_bind].
  unfold get_from. cbn [length]. rewrite length_app, !le_bytes_length. cbn [Nat.leb Nat.add].
  rewrite skipn_cons. rewrite drop_app_ge by (rewrite le_bytes_length; lia).
  rewrite le_bytes_length, Nat.sub_diag, drop_0. cbn [mbind option_bind].
  by rewrite (deserialize_le_le 8) by done.
Qed.

(** Draining a snapshot visits every account of every group once. *)
Definition group_accounts (g : Z * list AccountId) : list (AccountId * Z) :=
  (fun a => (a, g.1)) <$> g.2.

Lemma take_snoc {A} (l : list A) x : take (length (l ++ [x]) - 1) (l ++ [x]) = l.
Proof. rewrite length_app, Nat.add_sub. apply take_app_length. Qed.

Lemma snapshot_next_spec groups fuel :
  (length groups < fuel)%nat ->
  match snapshot_next fuel groups with
  | Some (a, c, groups') =>
      groups ≫= group_accounts = (groups' ≫= group_accounts) ++ [(a, c)]
  | None => groups ≫= group_accounts = []
  end.
Proof.
  revert groups. induction fuel as [|fuel IH]; intros groups Hf; [lia|]. cbn [snapshot_next].
  destruct groups as [|[c l] groups _] using rev_ind; [done|]. rewrite last_snoc.
  destruct l as [|a l _] using rev_ind; cbn [last].
  - rewrite take_snoc, bind_app. cbn. rewrite app_nil_r. apply IH.
    rewrite length_app in Hf. cbn in Hf. lia.
  - rewrite last_snoc, !take_snoc, !bind_app. cbn. unfold group_accounts. cbn.
    by rewrite !app_nil_r, fmap_app, app_assoc.
Qed.

Lemma drain_snapshot fuel groups :
  (length (groups ≫= group_accounts) < fuel)%nat ->
  drain_entry fuel (Snapshot groups) = reverse (groups ≫= group_accounts).
Proof.
  revert groups. induction fuel as [|fuel IH]; intros groups Hf; [lia|].
  cbn [drain_entry next_account].
  pose proof (snapshot_next_spec groups (S (length groups)) ltac:(lia)) as Hs.
  destruct (snapshot_next _ groups) as [[[a c] groups']|]; cbn [mbind option_bind].
  - rewrite Hs, reverse_app in *. cbn. rewrite IH; [done|].
    rewrite length_app in Hf. cbn in Hf. lia.
  - by rewrite Hs.
Qed.

(** ** Properties *)

(** Neighbours in the Raft log: [get_prev_raft_id] returns the greatest
    stored id not above the given one, [get_next_raft_id] the least one not
    below it, in the order of indexes and then terms, and each returns
    nothing exactly when there is none, whatever other records the log column
    family holds. *)
Theorem raft_neighbours `{StoreLaws DB} (db : DB) key :
  raft_wf db -> rid_fits key ->
  (match get_prev_raft_id db key with
   | Some (Some r) =>
       in_log db r /\ rid_le r key /\ forall r', in_log db r' -> rid_le r' key -> rid_le r' r
   | Some None => forall r, in_log db r -> ~ rid_le r key
   | None => False
   end) /\
  (match get_next_raft_id db key with
   | Some (Some r) =>
       in_log db r /\ rid_le key r /\ forall r', in_log db r' -> rid_le key r' -> rid_le r r'
   | Some None => forall r, in_log db r -> ~ rid_le key r
   | None => False
   end).
Proof. intros Hwf Hk. split; [by apply get_prev_raft_id_spec|by apply get_next_raft_id_spec]. Qed.

Module RaftSample.
Export PlainStore.

(** One Raft entry and the change record it belongs to. *)
Definition db : MemStore.t :=
  db_write MemStore.empty
    [OpSet Logs (LogKey.serialize_raft (mkRaftId 2 7)) (item_bytes 1 4);
     OpSet Logs (LogKey.serialize_change 1 Collection.Mail 7) [0; 0; 0; 0; 0]].
End RaftSample.
Import RaftSample.

Lemma raft_sample_wf : raft_wf RaftSample.db.
Proof.
  intros k v. unfold RaftSample.db. rewrite db_write_get. cbn [fold_left].
  unfold op_effect. cbn [op_cf op_key]. case_bool_decide as H1.
  - destruct H1 as [_ <-]. intros _ Hp. discriminate Hp.
  - case_bool_decide as H2; [|done]. destruct H2 as [_ <-]. intros _ _.
    exists (mkRaftId 2 7). split; [split; split; cbn; lia|done].
Qed.

Lemma raft_neighbours_witness :
  get_prev_raft_id RaftSample.db (mkRaftId 0 9) = Some (Some (mkRaftId 2 7)) /\
  in_log RaftSample.db (mkRaftId 2 7).
Proof.
  assert (get_prev_raft_id RaftSample.db (mkRaftId 0 9) = Some (Some (mkRaftId 2 7))) as E
    by (vm_compute; reflexivity).
  split; [exact E|].
  destruct (raft_neighbours RaftSample.db (mkRaftId 0 9) raft_sample_wf) as [H _];
    [split; split; cbn; lia|].
  rewrite E in H. exact (proj1 H).
Defined.

(** Raft entries round trip: the item entries written with each batch and
    the snapshot entries written by compaction are read back as they were,
    and draining an entry with [next_account] yields every account with its
    changed collections exactly once and terminates. *)
Theorem raft_entry_roundtrip a c groups :
  fits 32 a -> fits 64 c -> Forall group_wf groups -> Z.of_nat (length groups) < 2 ^ 64 ->
  entry_deserialize (item_bytes a c) = Some (Item a c) /\
  entry_deserialize (snapshot_bytes groups) = Some (Snapshot groups) /\
  drain_entry 2 (Item a c) = (if c =? 0 then [] else [(a, c)]) /\
  drain_entry (S (length (groups ≫= group_accounts))) (Snapshot groups) =
    reverse (groups ≫= group_accounts).
Proof.
  intros Ha Hc Hg Hn. split_and!.
  - by apply entry_item_roundtrip.
  - by apply entry_snapshot_roundtrip.
  - cbn. unfold bm_is_empty. by destruct (c =? 0).
  - apply drain_snapshot. lia.
Qed.

Lemma raft_entry_roundtrip_witness :
  entry_deserialize (snapshot_bytes [(4, [1; 300]); (6, [2])]) =
    Some (Snapshot [(4, [1; 300]); (6, [2])]) /\
  drain_entry 4 (Snapshot [(4, [1; 300]); (6, [2])]) = [(2, 6); (300, 4); (1, 4)].
Proof.
  destruct (raft_entry_roundtrip 1 4 [(4, [1; 300]); (6, [2])]) as (_ & H1 & _ & H2).
  - split; cbn; lia.
  - split; cbn; lia.
  - repeat constructor; cbn; lia.
  - cbn. lia.
  - split; [exact H1|exact H2].
Defined.

(** Ids assigned after opening a store. When the log is empty the first
    write gets index 0; otherwise the counter starts one past the last stored
    index, so that the first write gets the last index plus two: always above
    every stored index, and one index is skipped by every restart. *)
Theorem assign_after_open `{StoreLaws DB} (db : DB) id :
  raft_wf db -> init_raft_id db = Some id ->
  (forall r, in_log db r -> rid_index r < 2 ^ 64 - 2) ->
  let assigned := (assign_raft_id (rid_term id) (rid_index id)).1 in
  (forall r, in_log db r -> rid_index r < rid_index assigned) /\
  ((forall r, ~ in_log db r) -> rid_index assigned = 0) /\
  (forall r, in_log db r ->
     exists last, in_log db last /\ rid_index r <= rid_index last /\
       rid_index assigned = rid_index last + 2).
Proof.
  intros Hwf Hinit Hmax. unfold init_raft_id in Hinit.
  assert (rid_fits (mkRaftId U64_MAX U64_MAX)) as Hfit by (split; cbn; unfold fits; lia).
  pose proof (get_prev_raft_id_spec db _ Hwf Hfit) as Hp.
  assert (forall r, in_log db r -> rid_le r (mkRaftId U64_MAX U64_MAX)) as Hle.
  { intros r [[? ?] _]. unfold rid_le, fits in *. cbn. lia. }
  destruct (get_prev_raft_id db _) as [[last|]|]; [| |done]; injection Hinit as <-; cbn.
  - destruct Hp as (Hin & _ & Hgr). pose proof (Hmax _ Hin). pose proof (proj1 (proj1 Hin)) as Hf.
    assert (forall r, in_log db r -> rid_index r <= rid_index last) as Hidx.
    { intros r Hr. destruct (Hgr r Hr (Hle r Hr)); lia. }
    rewrite (wrap_small 64 (rid_index last + 1)), wrap_small by (unfold fits in *; lia). split_and!.
    + intros r Hr. specialize (Hidx r Hr). lia.
    + intros Hno. by destruct (Hno last).
    + intros r Hr. exists last. specialize (Hidx r Hr). split_and!; [done|lia|lia].
  - split_and!; [|done|]; intros r Hr; by destruct (Hp r Hr (Hle r Hr)).
Qed.

Lemma assign_after_open_witness :
  init_raft_id RaftSample.db = Some (mkRaftId 2 8) /\
  rid_index (assign_raft_id 2 8).1 = 9 /\ in_log RaftSample.db (mkRaftId 2 7).
Proof.
  assert (init_raft_id RaftSample.db = Some (mkRaftId 2 8)) as E by (vm_compute; reflexivity).
  assert (in_log RaftSample.db (mkRaftId 2 7)) as Hin
    by (split; [split; split; cbn; lia|vm_compute; eexists; reflexivity]).
  split; [exact E|]. split; [|exact Hin].
  destruct (assign_after_open RaftSample.db (mkRaftId 2 8) raft_sample_wf E) as (_ & _ & H).
  - intros r [[Hi Ht] [v Hv]].
    unfold RaftSample.db in Hv. rewrite db_write_get in Hv. cbn [fold_left] in Hv.
    unfold op_effect in Hv. cbn [op_cf op_key] in Hv. case_bool_decide as H1.
    + destruct H1 as [_ H1]. discriminate H1.
    + case_bool_decide as H2; [|discriminate Hv]. destruct H2 as [_ H2].
      apply (f_equal LogKey.deserialize_raft) in H2. rewrite (raft_key_decode r) in H2 by (split; assumption).
      assert (LogKey.deserialize_raft (LogKey.serialize_raft (mkRaftId 2 7)) = Some (mkRaftId 2 7)) as H3
        by (vm_compute; reflexivity).
      rewrite H3 in H2. injection H2 as <-. cbn. lia.
  - reflexivity.
Defined.
