(* ===== verification/Read.v ===== *)
(** * Reading bitmaps and indexes: components/store/src/read/bitmap.rs, read/get.rs

    Bitmaps are looked up by key and combined; the sorted index column family
    answers comparisons by scanning forward or backward from the compared
    value. *)

From S2P Require Import Prelude Leb128 Serialize Types Keys BitList KV.

Inductive ComparisonOperator : Set :=
| LowerThan | LowerEqualThan | GreaterThan | GreaterEqualThan | Equal.

Definition FIELD_PREFIX_LEN : nat := 6.

Section Read.
Context `{Roaring} `{Store DB}.
Implicit Types (db : DB).

(** [db.get::<U>] and [db.multi_get::<U>]: an undecodable value is an error. *)
Definition get_as {U} (deserialize : list Z -> option U) db cf (key : list Z) : res (option U) :=
  match db_get db cf key with
  | Some bytes => Some <$> ok_or (deserialize bytes)
  | None => Ok None
  end.
Definition multi_get_as {U} (deserialize : list Z -> option U) db cf (keys : list (list Z))
    : res (list (option U)) :=
  res_mapM (get_as deserialize db cf) keys.

Definition get_bitmap db (key : list Z) : res (option (gset Z)) :=
  bm ← get_as bitmap_deserialize db Bitmaps key;
  Ok (bm ← bm; if negb (bool_decide (bm = ∅)) then Some bm else None).

(** The loop of [get_bitmaps_intersection]. *)
Fixpoint intersect_loop (result : option (gset Z)) (bitmaps : list (option (gset Z)))
    : option (gset Z) :=
  match bitmaps with
  | [] => result
  | Some bitmap :: bitmaps =>
      match result with
      | Some result =>
          let result := result ∩ bitmap in
          if bool_decide (result = ∅) then Some result else intersect_loop (Some result) bitmaps
      | None => intersect_loop (Some bitmap) bitmaps
      end
  | None :: _ => None
  end.
Definition get_bitmaps_intersection db (keys : list (list Z)) : res (option (gset Z)) :=
  intersect_loop None <$> multi_get_as bitmap_deserialize db Bitmaps keys.

Fixpoint union_loop (result : option (gset Z)) (bitmaps : list (option (gset Z)))
    : option (gset Z) :=
  match bitmaps with
  | [] => result
  | Some bitmap :: bitmaps =>
      union_loop (Some match result with Some result => result ∪ bitmap | None => bitmap end) bitmaps
  | None :: bitmaps => union_loop result bitmaps
  end.
Definition get_bitmaps_union db (keys : list (list Z)) : res (option (gset Z)) :=
  union_loop None <$> multi_get_as bitmap_deserialize db Bitmaps keys.

Definition get_document_ids db (account : AccountId) (collection : Collection.t)
    : res (option (gset Z)) :=
  get_bitmap db (BitmapKey.serialize_document_ids account collection).

Definition get_tag db (account : AccountId) (collection : Collection.t) (field : FieldId) (tag : Tag)
    : res (option (gset Z)) :=
  get_bitmap db (BitmapKey.serialize_tag account collection field tag).

(** What [range_to_bitmap] does with an entry. *)
Inductive range_action : Set := RContinue | RBreak | RInsert.

Definition range_match (op : ComparisonOperator) (value match_value : list Z) : range_action :=
  match op, bytes_cmp value match_value with
  | LowerThan, Eq => RContinue
  | LowerThan, Gt => RBreak
  | LowerEqualThan, Gt => RBreak
  | GreaterThan, Eq => RContinue
  | GreaterThan, Lt => RBreak
  | GreaterEqualThan, Lt => RBreak
  | Equal, Lt | Equal, Gt => RBreak
  | _, _ => RInsert
  end.

(** [key.len() - 4] wraps on shorter keys, whose range is then refused. *)
Fixpoint range_loop (op : ComparisonOperator) (match_prefix match_value : list Z)
    (it : list (list Z * list Z)) (bm : gset Z) : res (gset Z) :=
  match it with
  | [] => Ok bm
  | (key, _) :: it =>
      if negb (starts_with key match_prefix) then Ok bm
      else if (length key <? 4)%nat then Err
      else
        let doc_id_pos := (length key - 4)%nat in
        value ← ok_or (get_range key FIELD_PREFIX_LEN doc_id_pos);
        match range_match op value match_value with
        | RContinue => range_loop op match_prefix match_value it bm
        | RBreak => Ok bm
        | RInsert =>
            d ← ok_or (deserialize_be_u32 key doc_id_pos);
            range_loop op match_prefix match_value it ({[d]} ∪ bm)
        end
  end.

Definition range_direction (op : ComparisonOperator) : Direction :=
  match op with
  | GreaterThan | GreaterEqualThan | Equal => Forward
  | LowerThan | LowerEqualThan => Backward
  end.

(** Slicing [match_key] at 6 panics when it is shorter. *)
Definition range_to_bitmap db (match_key : list Z) (op : ComparisonOperator)
    : res (option (gset Z)) :=
  if (length match_key <? FIELD_PREFIX_LEN)%nat then Panic
  else
    Some <$> range_loop op (take FIELD_PREFIX_LEN match_key) (drop FIELD_PREFIX_LEN match_key)
      (db_iterator db Indexes match_key (range_direction op)) ∅.
End Read.

(** ** Set operations *)

Lemma fold_intersect_empty (bitmaps : list (gset Z)) : fold_left (∩) bitmaps ∅ = ∅.
Proof. induction bitmaps as [|b bitmaps IH]; [done|]. cbn. by rewrite intersection_empty_l_L. Qed.

Lemma intersect_loop_Some bitmaps r :
  default ∅ (intersect_loop (Some r) (Some <$> bitmaps)) = fold_left (∩) bitmaps r.
Proof.
  revert r. induction bitmaps as [|b bitmaps IH]; intros r; cbn; [done|].
  case_bool_decide as E; cbn; [by rewrite E, fold_intersect_empty|apply IH].
Qed.

(** ** Range scans *)

(** The key of an index entry: prefix, value, document id. *)
Definition field_prefix (a : AccountId) (c : Collection.t) (f : FieldId) : list Z :=
  be_bytes 4 a ++ [Collection.to_u8 c] ++ [f].

Lemma field_prefix_length a c f : length (field_prefix a c f) = FIELD_PREFIX_LEN.
Proof. unfold field_prefix. by rewrite !length_app, be_bytes_length. Qed.

Lemma index_key_split a c d f v :
  IndexKey.serialize a c d f v = field_prefix a c f ++ v ++ be_bytes 4 d.
Proof. unfold IndexKey.serialize, field_prefix. by rewrite <- !app_assoc. Qed.

Lemma match_key_split a c f v : IndexKey.serialize_key a c f v = field_prefix a c f ++ v.
Proof. unfold IndexKey.serialize_key, field_prefix. by rewrite <- !app_assoc. Qed.

(** Every entry of the field holds a value of [n] bytes and a document id. *)
Definition field_wf `{Store DB} (db : DB) a c f (n : nat) : Prop :=
  forall k x, db_get db Indexes k = Some x -> starts_with k (field_prefix a c f) = true ->
  exists v d, length v = n /\ fits 32 d /\ k = IndexKey.serialize a c d f v.

Definition indexed `{Store DB} (db : DB) a c f (v : list Z) (d : DocumentId) : Prop :=
  fits 32 d /\ is_Some (db_get db Indexes (IndexKey.serialize a c d f v)).

Lemma bytes_cmp_same_length v v' x y :
  length v = length v' ->
  bytes_cmp (v ++ x) (v' ++ y) = cmp_then (bytes_cmp v v') (bytes_cmp x y).
Proof.
  revert v'. induction v as [|b v IH]; intros [|b' v'] Hl; try done.
  cbn [app]. rewrite !bytes_cmp_byte, IH by (cbn in Hl; lia). by destruct (b ?= b').
Qed.

(** An index key against the key of a compared value of the same length. *)
Lemma index_key_cmp a c f v d mv :
  length v = length mv ->
  bytes_cmp (IndexKey.serialize a c d f v) (IndexKey.serialize_key a c f mv) =
  cmp_then (bytes_cmp v mv) Gt.
Proof.
  intros Hl. rewrite index_key_split, match_key_split, bytes_cmp_app_l.
  rewrite <- (app_nil_r mv) at 1. rewrite bytes_cmp_same_length by done. f_equal.
Qed.

Lemma index_key_value a c f v d :
  get_range (IndexKey.serialize a c d f v) FIELD_PREFIX_LEN
    (length (IndexKey.serialize a c d f v) - 4) = Some v.
Proof.
  rewrite index_key_split. pose proof (get_range_app (field_prefix a c f) v (be_bytes 4 d)) as E.
  rewrite <- E. rewrite <- (field_prefix_length a c f). f_equal.
  rewrite !length_app, be_bytes_length. lia.
Qed.

Lemma index_key_doc a c f v d :
  fits 32 d ->
  deserialize_be_u32 (IndexKey.serialize a c d f v) (length (IndexKey.serialize a c d f v) - 4) = Some d.
Proof.
  intros Hd. rewrite index_key_split, app_assoc.
  pose proof (deserialize_be_u32_app (field_prefix a c f ++ v) d [] Hd) as E.
  rewrite app_nil_r in E. rewrite <- E. f_equal. rewrite !length_app, be_bytes_length. lia.
Qed.

Lemma index_key_inj a c f v d v' d' :
  length v = length v' -> fits 32 d -> fits 32 d' ->
  IndexKey.serialize a c d f v = IndexKey.serialize a c d' f v' -> v = v' /\ d = d'.
Proof.
  intros Hl Hd Hd'. rewrite !index_key_split. intros He%app_inv_head.
  apply app_inj_1 in He as [-> He]; [|done]. split; [done|]. by apply (be_bytes_inj 4).
Qed.

Lemma index_key_long a c f v d : (length (IndexKey.serialize a c d f v) <? 4)%nat = false.
Proof.
  apply Nat.ltb_ge. rewrite index_key_split, !length_app, be_bytes_length. lia.
Qed.

Section Range.
Context (a : AccountId) (c : Collection.t) (f : FieldId) (mv : list Z) (op : ComparisonOperator).

Definition entry_of (kv : list Z * list Z) (v : list Z) (d : DocumentId) : Prop :=
  length v = length mv /\ fits 32 d /\ kv.1 = IndexKey.serialize a c d f v.

(** The entries after one at which the scan stops do not match. *)
Definition stop_safe (kv kv' : list Z * list Z) : Prop :=
  forall v' d', entry_of kv' v' d' -> range_match op v' mv = RInsert ->
  exists v d, entry_of kv v d /\ range_match op v mv <> RBreak.

Definition matches (it : list (list Z * list Z)) (d : DocumentId) : Prop :=
  exists kv v, kv ∈ it /\ entry_of kv v d /\ range_match op v mv = RInsert.

Lemma entry_of_inj v d x v' d' :
  length v = length mv -> fits 32 d ->
  entry_of (IndexKey.serialize a c d f v, x) v' d' -> v' = v /\ d' = d.
Proof.
  intros Hl Hd (Hl' & Hd' & He). cbn in He. symmetry in He.
  apply index_key_inj in He as [-> ->]; [done|congruence|done..].
Qed.

Lemma matches_cons kv it d :
  matches (kv :: it) d <->
  (exists v, entry_of kv v d /\ range_match op v mv = RInsert) \/ matches it d.
Proof.
  split.
  - intros (kv' & v & [->|Hin]%elem_of_cons & He & Hi); [left; by exists v|right; by exists kv', v].
  - intros [(v & He & Hi)|(kv' & v & Hin & He & Hi)].
    + exists kv, v. split; [by apply elem_of_cons; left|done].
    + exists kv', v. split; [by apply elem_of_cons; right|done].
Qed.

Lemma matches_stop kv it d :
  Forall (stop_safe kv) it ->
  (forall v d, entry_of kv v d -> range_match op v mv = RBreak) -> ~ matches (kv :: it) d.
Proof.
  rewrite Forall_forall, matches_cons. intros Hsafe Hno [(v & He & Hi)|(kv' & v & Hin & He & Hi)].
  - specialize (Hno _ _ He). congruence.
  - destruct (Hsafe _ Hin _ _ He Hi) as (v0 & d0 & He0 & Hne). by apply Hne, (Hno v0 d0).
Qed.

Lemma range_loop_spec it (bm : gset Z) :
  Forall (fun kv => starts_with kv.1 (field_prefix a c f) = true -> exists v d, entry_of kv v d) it ->
  StronglySorted stop_safe it ->
  exists bm', range_loop op (field_prefix a c f) mv it bm = Ok bm' /\
    forall d, d ∈ bm' <-> d ∈ bm \/ matches it d.
Proof.
  intros Hent Hs. revert bm. induction Hs as [|[k x] it Hs IH Hsafe]; intros bm.
  - exists bm. split; [done|]. intros d. split; [by left|].
    intros [?|(? & ? & ?%not_elem_of_nil & _)]; done.
  - apply Forall_cons in Hent as [Hk Hent]. specialize (IH Hent).
    cbn [range_loop fst] in *. destruct (starts_with k (field_prefix a c f)) eqn:Hp; cbn [negb].
    + destruct (Hk eq_refl) as (v & d & Hl & Hd & Hkey). cbn in Hkey. subst k.
      rewrite index_key_long, index_key_value. cbn [ok_or mbind res_bind].
      pose proof (fun v' d' => entry_of_inj v d x v' d' Hl Hd) as Hinj.
      destruct (range_match op v mv) eqn:Hm.
      * destruct (IH bm) as (bm' & -> & Hbm'). exists bm'. split; [done|]. intros d1.
        rewrite Hbm', matches_cons. split; [tauto|]. intros [?|[(v1 & He & Hi)|?]]; [by left| |by right].
        apply Hinj in He as [-> ->]. congruence.
      * exists bm. split; [done|]. intros d1. split; [by left|]. intros [?|Hmt]; [done|].
        exfalso. revert Hmt. apply matches_stop; [done|]. by intros v' d' [-> _]%Hinj.
      * rewrite index_key_doc by done. cbn [ok_or mbind res_bind].
        destruct (IH ({[d]} ∪ bm)) as (bm' & -> & Hbm'). exists bm'. split; [done|]. intros d1.
        rewrite Hbm', elem_of_union, elem_of_singleton, matches_cons. split.
        -- intros [[->|?]|?]; [|by auto..]. right. left. by exists v.
        -- intros [?|[(v1 & He & Hi)|?]]; [by auto| |by auto]. apply Hinj in He as [-> ->]. by auto.
    + exists bm. split; [done|]. intros d1. split; [by left|]. intros [?|Hmt]; [done|].
      exfalso. revert Hmt. apply matches_stop; [done|]. intros v d (_ & _ & He). cbn in He. subst k.
      assert (starts_with (IndexKey.serialize a c d f v) (field_prefix a c f) = true); [|congruence].
      apply starts_with_iff. rewrite index_key_split. by eexists.
Qed.
End Range.

(** The comparison an operator stands for; [c] compares the entry to the bound. *)
Definition op_holds (op : ComparisonOperator) (c : comparison) : bool :=
  match op, c with
  | LowerThan, Lt | LowerEqualThan, Lt | LowerEqualThan, Eq
  | GreaterThan, Gt | GreaterEqualThan, Gt | GreaterEqualThan, Eq | Equal, Eq => true
  | _, _ => false
  end.

Section RangeScan.
Context `{StoreLaws DB}.
Variables (db : DB) (a : AccountId) (c : Collection.t) (f : FieldId) (mv : list Z).
Hypothesis (Hwf : field_wf db a c f (length mv)).

(** The value bounds of the two scan directions: a forward scan from the bound
    sees the values from it on, a backward scan only the values below it. *)
Lemma forward_entry k v d :
  entry_of a c f mv (k, []) v d ->
  bytes_le (IndexKey.serialize_key a c f mv) k <-> bytes_cmp v mv <> Lt.
Proof.
  intros (Hl & _ & He). cbn in He. subst k. unfold bytes_le.
  rewrite bytes_cmp_antisym, index_key_cmp by done. destruct (bytes_cmp v mv); cbn; naive_solver.
Qed.

Lemma backward_entry k v d :
  entry_of a c f mv (k, []) v d ->
  bytes_le k (IndexKey.serialize_key a c f mv) <-> bytes_cmp v mv = Lt.
Proof.
  intros (Hl & _ & He). cbn in He. subst k. unfold bytes_le. rewrite index_key_cmp by done.
  destruct (bytes_cmp v mv); cbn; naive_solver.
Qed.

Lemma entry_key kv v d : entry_of a c f mv kv v d <-> entry_of a c f mv (kv.1, []) v d.
Proof. done. Qed.

Lemma entry_prefix kv v d :
  entry_of a c f mv kv v d -> starts_with kv.1 (field_prefix a c f) = true.
Proof. intros (_ & _ & ->). apply starts_with_iff. rewrite index_key_split. by eexists. Qed.

Lemma field_entry k x :
  db_get db Indexes k = Some x -> starts_with k (field_prefix a c f) = true ->
  exists v d, entry_of a c f mv (k, x) v d.
Proof. intros Hg Hp. destruct (Hwf k x Hg Hp) as (v & d & Hl & Hd & ->). by exists v, d. Qed.

Lemma entry_value_le kv kv' v v' d d' :
  entry_of a c f mv kv v d -> entry_of a c f mv kv' v' d' -> bytes_lt kv.1 kv'.1 ->
  bytes_cmp v v' <> Gt.
Proof.
  intros (Hl & _ & ->) (Hl' & _ & ->). unfold bytes_lt. rewrite !index_key_split, bytes_cmp_app_l.
  rewrite bytes_cmp_same_length by congruence. by destruct (bytes_cmp v v').
Qed.

Lemma forward_safe op :
  range_direction op = Forward ->
  StronglySorted (stop_safe a c f mv op)
    (db_iterator db Indexes (IndexKey.serialize_key a c f mv) Forward).
Proof.
  intros Hop. eapply StronglySorted_impl; [apply db_forward_sorted|].
  intros [k x] [k' x'] [Hg Hle]%db_forward_elem [Hg' _]%db_forward_elem Hlt v' d' He' Hm'.
  destruct (field_entry k x Hg) as (v & d & He).
  { pose proof (entry_prefix _ _ _ He') as [y Hy]%starts_with_iff. cbn in Hlt, Hy. subst k'.
    rewrite match_key_split in Hle. eapply prefix_between; [exact Hle|].
    apply bytes_le_lt_eq. by left. }
  exists v, d. split; [done|]. pose proof (entry_value_le _ _ _ _ _ _ He He' Hlt) as Hvv.
  apply entry_key, forward_entry in He. cbn in He, Hle. apply He in Hle.
  revert Hm'. unfold range_match. destruct op; try done.
  - by destruct (bytes_cmp v mv).
  - by destruct (bytes_cmp v mv).
  - destruct (bytes_cmp v' mv) eqn:E; try done. apply bytes_cmp_eq in E as ->.
    by destruct (bytes_cmp v mv).
Qed.

Lemma backward_safe op :
  range_direction op = Backward ->
  StronglySorted (stop_safe a c f mv op)
    (db_iterator db Indexes (IndexKey.serialize_key a c f mv) Backward).
Proof.
  intros Hop. eapply StronglySorted_impl; [apply db_backward_sorted|].
  intros [k x] [k' x'] [Hg Hle]%db_backward_elem [Hg' _]%db_backward_elem Hlt v' d' He' Hm'.
  destruct (field_entry k x Hg) as (v & d & He).
  { pose proof (entry_prefix _ _ _ He') as [y Hy]%starts_with_iff. cbn in Hlt, Hy. subst k'.
    rewrite match_key_split in Hle. eapply prefix_between; [|exact Hle].
    apply bytes_le_lt_eq. by left. }
  exists v, d. split; [done|].
  apply entry_key, backward_entry in He. cbn in He, Hle. apply He in Hle.
  unfold range_match. rewrite Hle. by destruct op.
Qed.

Lemma scan_entries op :
  Forall (fun kv => starts_with kv.1 (field_prefix a c f) = true ->
      exists v d, entry_of a c f mv kv v d)
    (db_iterator db Indexes (IndexKey.serialize_key a c f mv) (range_direction op)).
Proof.
  apply Forall_forall. intros [k x] Hin Hp. cbn in Hp. apply (field_entry k x); [|done].
  destruct (range_direction op); [by apply db_forward_elem in Hin as [? _]|].
  by apply db_backward_elem in Hin as [? _].
Qed.

(** The documents a scan selects. *)
Lemma scan_matches op d :
  matches a c f mv op
    (db_iterator db Indexes (IndexKey.serialize_key a c f mv) (range_direction op)) d <->
  exists v, length v = length mv /\ indexed db a c f v d /\
    op_holds (match op with LowerEqualThan => LowerThan | op => op end) (bytes_cmp v mv) = true.
Proof.
  split.
  - intros ([k x] & v & Hin & He & Hm). exists v. pose proof He as (Hl & Hd & Hk). cbn in Hk. subst k.
    assert (db_get db Indexes (IndexKey.serialize a c d f v) = Some x) as Hg.
    { destruct (range_direction op); [by apply db_forward_elem in Hin as [? _]|].
      by apply db_backward_elem in Hin as [? _]. }
    split_and!; [done|split; [done|by eexists]|].
    unfold range_match in Hm. apply entry_key in He.
    destruct op; cbn [range_direction] in Hin;
      [apply db_backward_elem in Hin as [_ Hin]; apply (backward_entry _ _ _ He) in Hin; by rewrite Hin
      |apply db_backward_elem in Hin as [_ Hin]; apply (backward_entry _ _ _ He) in Hin; by rewrite Hin
      |by destruct (bytes_cmp v mv)..].
  - intros (v & Hl & [Hd [x Hg]] & Ho). exists (IndexKey.serialize a c d f v, x), v.
    assert (entry_of a c f mv (IndexKey.serialize a c d f v, x) v d) as He by done.
    split_and!; [|done|].
    + pose proof (proj1 (entry_key _ _ _) He) as He'.
      destruct op; cbn [range_direction];
        first [apply db_backward_elem | apply db_forward_elem]; (split; [done|]);
        first [apply (backward_entry _ _ _ He') | apply (forward_entry _ _ _ He')];
        by destruct (bytes_cmp v mv).
    + unfold range_match. by destruct op, (bytes_cmp v mv).
Qed.

Lemma range_to_bitmap_spec op :
  exists bm, range_to_bitmap db (IndexKey.serialize_key a c f mv) op = Ok (Some bm) /\
    forall d, d ∈ bm <-> exists v, length v = length mv /\ indexed db a c f v d /\
      op_holds (match op with LowerEqualThan => LowerThan | op => op end) (bytes_cmp v mv) = true.
Proof.
  unfold range_to_bitmap. rewrite match_key_split, length_app, field_prefix_length.
  rewrite (proj2 (Nat.ltb_ge _ _)) by lia. rewrite <- (field_prefix_length a c f).
  rewrite take_app_length, drop_app_length, <- match_key_split.
  destruct (range_loop_spec a c f mv op
    (db_iterator db Indexes (IndexKey.serialize_key a c f mv) (range_direction op)) ∅)
    as (bm & Hbm & Hel).
  - apply scan_entries.
  - destruct (range_direction op) eqn:E; [by apply forward_safe|by apply backward_safe].
  - exists bm. rewrite Hbm. split; [done|]. intros d. rewrite Hel, scan_matches. set_solver.
Qed.
End RangeScan.

(** On an index field whose values all have the length of the compared
    value (integers and dates), [range_to_bitmap] for [<], [>], [>=] and [=]
    returns exactly the documents with an indexed value in that relation to
    the compared one: no entry before the scan's start, after its early break
    or of another field, collection or account matters. *)
Theorem range_to_bitmap_exact `{StoreLaws DB} (db : DB) a c f mv op :
  field_wf db a c f (length mv) -> op <> LowerEqualThan ->
  exists bm, range_to_bitmap db (IndexKey.serialize_key a c f mv) op = Ok (Some bm) /\
    forall d, d ∈ bm <->
      exists v, length v = length mv /\ indexed db a c f v d /\ op_holds op (bytes_cmp v mv) = true.
Proof.
  intros Hwf Hop. destruct (range_to_bitmap_spec db a c f mv Hwf op) as (bm & Hbm & Hel).
  exists bm. split; [done|]. by destruct op.
Qed.

(** [LowerEqualThan] returns the documents strictly below the compared
    value: the backward scan starts at the value's key, which is below every
    entry holding that value, so the equal entries are never visited. *)
Theorem range_lower_equal_is_strict `{StoreLaws DB} (db : DB) a c f mv :
  field_wf db a c f (length mv) ->
  exists bm, range_to_bitmap db (IndexKey.serialize_key a c f mv) LowerEqualThan = Ok (Some bm) /\
    range_to_bitmap db (IndexKey.serialize_key a c f mv) LowerThan = Ok (Some bm) /\
    forall d, d ∈ bm <->
      exists v, length v = length mv /\ indexed db a c f v d /\ bytes_cmp v mv = Lt.
Proof.
  intros Hwf. destruct (range_to_bitmap_spec db a c f mv Hwf LowerEqualThan) as (bm & Hbm & Hel).
  destruct (range_to_bitmap_spec db a c f mv Hwf LowerThan) as (bm' & Hbm' & Hel').
  assert (bm' = bm) as -> by (apply set_eq; intros d; by rewrite Hel, Hel').
  exists bm. split_and!; [done..|]. intros d. rewrite Hel.
  split; intros (v & Hl & Hi & Ho); exists v; (split_and!; [done..|]);
    [by destruct (bytes_cmp v mv)|by rewrite Ho].
Qed.

(** ** A sample index: three messages and their received dates *)
Module RangeSample.
Export PlainStore.

Definition entries : list (DocumentId * Z) := [(1, 100); (2, 200); (3, 300)].
Definition db : MemStore.t :=
  db_write MemStore.empty
    (map (fun e => OpSet Indexes (IndexKey.serialize 7 Collection.Mail e.1 4 (be_bytes 8 e.2)) []) entries).

Lemma db_field_wf : field_wf db 7 Collection.Mail 4 8.
Proof.
  intros k x Hg _. change (MemStore.cf_table db Indexes !! k = Some x) in Hg. apply elem_of_map_to_list in Hg. vm_compute in Hg.
  repeat (apply elem_of_cons in Hg as [Hg|Hg]; [injection Hg as -> ->|]);
    [..|by apply not_elem_of_nil in Hg];
    first [exists (be_bytes 8 100), 1; by split_and!
          |exists (be_bytes 8 200), 2; by split_and!
          |exists (be_bytes 8 300), 3; by split_and!].
Qed.
End RangeSample.
Import RangeSample.

Lemma range_to_bitmap_exact_witness :
  exists bm,
    range_to_bitmap RangeSample.db (IndexKey.serialize_key 7 Collection.Mail 4 (be_bytes 8 200))
      GreaterEqualThan = Ok (Some bm) /\
    forall d, d ∈ bm <->
      exists v, length v = 8%nat /\ indexed RangeSample.db 7 Collection.Mail 4 v d /\
        op_holds GreaterEqualThan (bytes_cmp v (be_bytes 8 200)) = true.
Proof.
  apply (range_to_bitmap_exact RangeSample.db 7 Collection.Mail 4 (be_bytes 8 200) GreaterEqualThan);
    [apply db_field_wf|done].
Defined.

Lemma range_lower_equal_is_strict_witness :
  exists bm,
    range_to_bitmap RangeSample.db (IndexKey.serialize_key 7 Collection.Mail 4 (be_bytes 8 200))
      LowerEqualThan = Ok (Some bm) /\
    range_to_bitmap RangeSample.db (IndexKey.serialize_key 7 Collection.Mail 4 (be_bytes 8 200))
      LowerThan = Ok (Some bm) /\
    forall d, d ∈ bm <->
      exists v, length v = 8%nat /\ indexed RangeSample.db 7 Collection.Mail 4 v d /\
        bytes_cmp v (be_bytes 8 200) = Lt.
Proof.
  apply (range_lower_equal_is_strict RangeSample.db 7 Collection.Mail 4 (be_bytes 8 200)).
  apply db_field_wf.
Defined.
