(* ===== verification/Query.v ===== *)
(** * Queries: components/store/src/read/filter.rs, read/query.rs,
      [LogicalOperator::apply] of serialize/bitmap.rs

    A filter is a tree of conditions under AND, OR and NOT. [query_store]
    evaluates it with an explicit stack of partially evaluated groups; it is a
    step function here, proved equal to the recursive evaluation of the tree
    and to the set algebra the operators stand for. Tokenizing, stemming and
    the phrase match against a document's term index are an interface. *)

From S2P Require Import Prelude Lang Leb128 Serialize Types TermIndex Nlp Keys BitList KV Read.

Inductive LogicalOperator : Set := And | Or | Not.
#[export] Instance LogicalOperator_eq_dec : EqDecision LogicalOperator.
Proof. solve_decision. Defined.

(** The values a condition compares with; a float is its bit pattern, a text
    its UTF-8 bytes. *)
Inductive Query : Set :=
| Keyword (keyword : list Z)
| Tokenize (text : list Z)
| Index (text : list Z)
| Match (text : list Z) (language : Language) (match_phrase : bool)
| Integer (i : Z)
| LongInteger (i : Z)
| Float (bits : Z)
| QTag (tag : Tag).

Record FilterCondition : Set := mkCondition {
  fc_field : FieldId; fc_op : ComparisonOperator; fc_value : Query }.

Inductive Filter : Type :=
| Condition (c : FilterCondition)
| Operator (operator : LogicalOperator) (conditions : list Filter)
| DocumentSet (set : gset Z)
| FNone.

(** [LogicalOperator::apply]: the new value of [dest]. *)
Definition apply (op : LogicalOperator) (dest src : option (gset Z)) (not_mask : gset Z)
    : option (gset Z) :=
  match dest with
  | Some dest =>
      match op with
      | And => match src with Some src => Some (dest ∩ src) | None => Some ∅ end
      | Or => match src with Some src => Some (dest ∪ src) | None => Some dest end
      | Not =>
          match src with
          | Some src => Some (dest ∩ ((src ∖ not_mask) ∪ (not_mask ∖ src)))
          | None => Some dest
          end
      end
  | None =>
      match src with
      | Some src => Some match op with Not => (src ∖ not_mask) ∪ (not_mask ∖ src) | _ => src end
      | None => Some match op with Not => not_mask | _ => ∅ end
      end
  end.

(** The text analysis [query_store] calls: [Tokenizer], [Stemmer] (a word and
    its stem, if any), and [get_term_index] with [match_terms] on a phrase;
    the latter is [Ok false] for a document without term index. *)
Class Search (DB : Type) := {
  tokenize : list Z -> Language -> list (list Z);
  stem : list Z -> Language -> list (list Z * option (list Z));
  phrase_matches : DB -> AccountId -> Collection.t -> DocumentId -> list (list Z) -> res bool;
  default_language : Language
}.

Record State : Type := mkState {
  st_op : LogicalOperator; st_it : list Filter; st_bm : option (gset Z) }.

Section Query.
Context `{Roaring} `{Store DB} `{!Search DB}.
Variables (db : DB) (account_id : AccountId) (collection : Collection.t).
(** the [document_ids] bitmap of the collection *)
Variable document_ids : gset Z.

Definition term_key (field : FieldId) (word : list Z) (is_exact : bool) : list Z :=
  BitmapKey.serialize_term account_id collection field word is_exact.

(** The keys of the words of a phrase, one per distinct word. *)
Fixpoint phrase_keys (field : FieldId) (phrase words : list (list Z)) : list (list Z) :=
  match words with
  | [] => []
  | word :: words =>
      (if bool_decide (word ∈ phrase) then [] else [term_key field word true]) ++
      phrase_keys field (phrase ++ [word]) words
  end.

Fixpoint match_candidates (phrase : list (list Z)) (candidates : list DocumentId)
    (results : gset Z) : res (gset Z) :=
  match candidates with
  | [] => Ok results
  | document_id :: candidates =>
      is_match ← phrase_matches db account_id collection document_id phrase;
      match_candidates phrase candidates (if is_match : bool then {[document_id]} ∪ results else results)
  end.

Definition match_phrase (field : FieldId) (text : list Z) (language : Language)
    : res (option (gset Z)) :=
  let phrase := tokenize text language in
  candidates ← get_bitmaps_intersection db (phrase_keys field [] phrase);
  match candidates with
  | Some candidates => Some <$> match_candidates phrase (elements candidates) ∅
  | None => Ok None
  end.

(** The new keys of a token, and the keys requested so far. *)
Fixpoint token_keys (requested : list (list Z)) (keys : list (list Z)) : list (list Z) * list (list Z) :=
  match keys with
  | [] => ([], requested)
  | key :: keys =>
      if bool_decide (key ∈ requested) then token_keys requested keys
      else let '(new, requested) := token_keys (key :: requested) keys in (key :: new, requested)
  end.

Definition stem_keys (field : FieldId) (token : list Z * option (list Z)) : list (list Z) :=
  [term_key field token.1 true; term_key field token.1 false] ++
  match token.2 with
  | Some word => [term_key field word true; term_key field word false]
  | None => []
  end.

Fixpoint match_tokens (field : FieldId) (requested : list (list Z)) (text_bitmap : option (gset Z))
    (tokens : list (list Z * option (list Z))) : res (option (gset Z)) :=
  match tokens with
  | [] => Ok text_bitmap
  | token :: tokens =>
      let '(keys, requested) := token_keys requested (stem_keys field token) in
      match keys with
      | [] => match_tokens field requested text_bitmap tokens
      | _ =>
          bm ← get_bitmaps_union db keys;
          let text_bitmap := apply And text_bitmap bm document_ids in
          if bool_decide (text_bitmap = Some ∅) then Ok text_bitmap
          else match_tokens field requested text_bitmap tokens
      end
  end.

Definition range_condition (c : FilterCondition) (value : list Z) : res (option (gset Z)) :=
  range_to_bitmap db (IndexKey.serialize_key account_id collection (fc_field c) value) (fc_op c).

(** The bitmap of a condition. *)
Definition eval_condition (c : FilterCondition) : res (option (gset Z)) :=
  match fc_value c with
  | Keyword keyword => get_bitmap db (term_key (fc_field c) keyword true)
  | Tokenize text =>
      get_bitmaps_intersection db
        (map (fun word => term_key (fc_field c) word true) (tokenize text English))
  | Match text language true => match_phrase (fc_field c) text language
  | Match text language false =>
      match_tokens (fc_field c) [] None
        (stem text (if bool_decide (language = Unknown) then default_language else language))
  | Integer i => range_condition c (be_bytes 4 i)
  | LongInteger i => range_condition c (be_bytes 8 i)
  | Float bits => range_condition c (be_bytes 8 bits)
  | Index text => range_condition c text
  | QTag tag => get_bitmap db (BitmapKey.serialize_tag account_id collection (fc_field c) tag)
  end.

(** A filter that is not a group, applied to the bitmap of its group. *)
Definition apply_leaf (op : LogicalOperator) (bm : option (gset Z)) (cond : Filter)
    : res (option (gset Z)) :=
  match cond with
  | Condition c => src ← eval_condition c; Ok (apply op bm src document_ids)
  | DocumentSet set => Ok (apply op bm (Some set) document_ids)
  | _ => Ok bm
  end.

(** One turn of the loops of [query_store]: the next filter of the current
    group, or the return to the enclosing one. Breaking out of the inner loop
    drops the rest of the group. [inr] is the result. *)
Definition step (state : State) (stack : list State)
    : res ((State * list State) + option (gset Z)) :=
  let '(mkState op it bm) := state in
  match it with
  | Operator operator conditions :: it =>
      Ok (inl (mkState operator conditions None, mkState op it bm :: stack))
  | cond :: it =>
      bm ← apply_leaf op bm cond;
      if bool_decide (op = And) then
        bm' ← unwrap bm;
        Ok (inl (mkState op (if bool_decide (bm' = ∅) then [] else it) bm, stack))
      else Ok (inl (mkState op it bm, stack))
  | [] =>
      match stack with
      | mkState prev_op prev_it prev_bm :: stack =>
          Ok (inl (mkState prev_op prev_it (apply prev_op prev_bm bm document_ids), stack))
      | [] => Ok (inr bm)
      end
  end.

(** [None] when the fuel runs out. *)
Fixpoint run (fuel : nat) (state : State) (stack : list State) : option (res (option (gset Z))) :=
  match fuel with
  | O => None
  | S fuel =>
      match step state stack with
      | Ok (inl (state, stack)) => run fuel state stack
      | Ok (inr bm) => Some (Ok bm)
      | Err => Some Err
      | Panic => Some Panic
      end
  end.

(** The result set of [query_store], before sorting. *)
Definition query_results (fuel : nat) (filter : Filter) : option (res (gset Z)) :=
  match filter with
  | FNone => Some (Ok document_ids)
  | DocumentSet set => Some (Ok set)
  | Operator operator conditions =>
      fmap (M := res) (default ∅) <$> run fuel (mkState operator conditions None) []
  | Condition c => fmap (M := res) (default ∅) <$> run fuel (mkState And [filter] None) []
  end.
End Query.

Definition query_store `{Roaring} `{Store DB} `{!Search DB} (fuel : nat) (db : DB)
    (account_id : AccountId) (collection : Collection.t) (filter : Filter) : option (res (gset Z)) :=
  match get_document_ids db account_id collection with
  | Ok ids => query_results db account_id collection (default ∅ ids) fuel filter
  | Err => Some Err
  | Panic => Some Panic
  end.

(** ** Recursive evaluation *)

Section FilterInd.
Variables (P : Filter -> Prop)
  (HC : forall c, P (Condition c))
  (HO : forall op conds, Forall P conds -> P (Operator op conds))
  (HD : forall set, P (DocumentSet set)) (HN : P FNone).

Fixpoint Filter_nested_ind (f : Filter) : P f :=
  match f with
  | Condition c => HC c
  | Operator op conds =>
      HO op conds ((fix go l : Forall P l :=
        match l with
        | [] => Forall_nil_2 P
        | f :: l => Forall_cons_2 P f l (Filter_nested_ind f) (go l)
        end) conds)
  | DocumentSet set => HD set
  | FNone => HN
  end.
End FilterInd.

(** The steps a filter takes: two for a group besides those of its parts. *)
Fixpoint filter_cost (f : Filter) : nat :=
  match f with
  | Operator _ conds => 2 + foldr (fun f n => filter_cost f + n)%nat 0%nat conds
  | _ => 1
  end.
Definition conditions_cost (l : list Filter) : nat := foldr (fun f n => filter_cost f + n)%nat 0%nat l.
Definition query_fuel (f : Filter) : nat := S (filter_cost f).

Section Evaluation.
Context `{Roaring} `{Store DB} `{!Search DB}.
Variables (db : DB) (account_id : AccountId) (collection : Collection.t) (document_ids : gset Z).

(** A filter applied to the bitmap of its group, and whether the group is decided. *)
Fixpoint eval_filter (op : LogicalOperator) (bm : option (gset Z)) (f : Filter) {struct f}
    : res (option (gset Z) * bool) :=
  match f with
  | Operator operator conds =>
      sub ← (fix go (bm : option (gset Z)) (l : list Filter) {struct l}
          : res (option (gset Z)) :=
        match l with
        | [] => Ok bm
        | f :: l => r ← eval_filter operator bm f; if (r.2 : bool) then Ok r.1 else go r.1 l
        end) None conds;
      Ok (apply op bm sub document_ids, false)
  | _ =>
      bm ← apply_leaf db account_id collection document_ids op bm f;
      if bool_decide (op = And) then bm' ← unwrap bm; Ok (bm, bool_decide (bm' = ∅)) else Ok (bm, false)
  end.

Fixpoint eval_conditions (op : LogicalOperator) (bm : option (gset Z)) (l : list Filter)
    : res (option (gset Z)) :=
  match l with
  | [] => Ok bm
  | f :: l => r ← eval_filter op bm f; if (r.2 : bool) then Ok r.1 else eval_conditions op r.1 l
  end.

Lemma eval_operator op bm operator conds :
  eval_filter op bm (Operator operator conds) =
  (sub ← eval_conditions operator None conds; Ok (apply op bm sub document_ids, false)).
Proof.
  cbn [eval_filter]. f_equal. generalize (None : option (gset Z)).
  induction conds as [|f conds IH]; intros bm'; cbn [eval_conditions]; [done|].
  destruct (eval_filter operator bm' f) as [[bm1 []]| |]; cbn; [done|apply IH|done..].
Qed.

Abbreviation step_ := (step db account_id collection document_ids).
Abbreviation run_ := (run db account_id collection document_ids).

(** What a run does once a group has been evaluated to [r]. *)
Definition continue_with (k : nat) (op : LogicalOperator) (stack : list State)
    (r : res (option (gset Z))) : option (res (option (gset Z))) :=
  match r with
  | Ok bm => run_ k (mkState op [] bm) stack
  | Err => Some Err
  | Panic => Some Panic
  end.

Definition runs_filter (f : Filter) : Prop := forall op bm it stack k,
  exists k', (k <= k')%nat /\
  run_ (filter_cost f + k) (mkState op (f :: it) bm) stack =
  match eval_filter op bm f with
  | Ok (bm', stop) => run_ k' (mkState op (if stop then [] else it) bm') stack
  | Err => Some Err
  | Panic => Some Panic
  end.

Definition runs_conditions (l : list Filter) : Prop := forall op bm stack k,
  exists k', (k <= k')%nat /\
  run_ (conditions_cost l + k) (mkState op l bm) stack =
  continue_with k' op stack (eval_conditions op bm l).

Lemma runs_leaf f :
  match f with Operator _ _ => False | _ => True end -> runs_filter f.
Proof.
  intros Hf op bm it stack k. exists k. split; [done|]. destruct f; [|done|..];
    cbn [filter_cost Nat.add run step eval_filter];
    (destruct (apply_leaf _ _ _ _ _ _ _) as [bm'| |]; cbn; [|done..]; case_bool_decide; [|done];
     by destruct bm').
Qed.

Lemma run_conditions l : Forall runs_filter l -> runs_conditions l.
Proof.
  induction 1 as [|f l Hf Hl IH]; intros op bm stack k; [by exists k|].
  unfold conditions_cost. cbn [foldr]. rewrite <- Nat.add_assoc. fold (conditions_cost l).
  destruct (Hf op bm l stack (conditions_cost l + k)%nat) as (k1 & Hk1 & ->).
  cbn [eval_conditions]. destruct (eval_filter op bm f) as [[bm' []]| |]; cbn;
    [exists k1; split; [lia|done]| |by exists k..].
  destruct (IH op bm' stack (k1 - conditions_cost l)%nat) as (k2 & Hk2 & E).
  replace (conditions_cost l + (k1 - conditions_cost l))%nat with k1 in E by lia.
  exists k2. split; [lia|done].
Qed.

Lemma run_filter f : runs_filter f.
Proof.
  induction f as [c|operator conds IH|set|] using Filter_nested_ind; try by apply runs_leaf.
  intros op bm it stack k. rewrite eval_operator. cbn [filter_cost]. fold (conditions_cost conds).
  replace (2 + conditions_cost conds + k)%nat with (S (conditions_cost conds + S k)) by lia.
  cbn [run step].
  destruct (run_conditions conds IH operator None (mkState op it bm :: stack) (S k)) as (k1 & Hk1 & ->).
  destruct (eval_conditions operator None conds) as [sub| |]; cbn; [|by exists k..].
  destruct k1 as [|k1]; [lia|]. exists k1. split; [lia|done].
Qed.

Definition reference_results (filter : Filter) : res (gset Z) :=
  match filter with
  | FNone => Ok document_ids
  | DocumentSet set => Ok set
  | Operator operator conditions => default ∅ <$> eval_conditions operator None conditions
  | Condition c => default ∅ <$> eval_conditions And None [filter]
  end.

Lemma run_whole fuel op l :
  (conditions_cost l < fuel)%nat ->
  run_ fuel (mkState op l None) [] = Some (eval_conditions op None l).
Proof.
  intros Hfuel. assert (Forall runs_filter l) as Hl by (apply Forall_forall; intros; apply run_filter).
  destruct (run_conditions l Hl op None [] (fuel - conditions_cost l)%nat) as (k & Hk & E).
  replace (conditions_cost l + (fuel - conditions_cost l))%nat with fuel in E by lia. rewrite E.
  destruct (eval_conditions op None l); cbn; [|done..]. destruct k; [lia|done].
Qed.

Lemma query_results_reference fuel filter :
  (query_fuel filter <= fuel)%nat ->
  query_results db account_id collection document_ids fuel filter = Some (reference_results filter).
Proof.
  unfold query_fuel. intros Hfuel. destruct filter as [c|operator conds|set|]; cbn; [| |done..].
  - rewrite run_whole by (unfold conditions_cost; cbn in *; lia). done.
  - rewrite run_whole by (cbn in Hfuel; fold (conditions_cost conds) in Hfuel; lia). done.
Qed.

(** ** Set algebra *)

(** The documents of a condition. *)
Definition condition_set (c : FilterCondition) : gset Z :=
  match eval_condition db account_id collection document_ids c with Ok (Some s) => s | _ => ∅ end.

Fixpoint denote (f : Filter) : gset Z :=
  match f with
  | Condition c => condition_set c
  | DocumentSet set => set
  | FNone => document_ids
  | Operator And conds => foldr (fun f s => denote f ∩ s) document_ids conds
  | Operator Or conds => foldr (fun f s => denote f ∪ s) ∅ conds
  | Operator Not conds => document_ids ∖ foldr (fun f s => denote f ∪ s) ∅ conds
  end.

(** Conditions evaluate to documents of the collection, and groups are not
    empty and hold no [Filter::None]. *)
Fixpoint filter_wf (f : Filter) : Prop :=
  match f with
  | Condition c =>
      (exists o, eval_condition db account_id collection document_ids c = Ok o) /\
      condition_set c ⊆ document_ids
  | DocumentSet set => set ⊆ document_ids
  | Operator _ conds => conds <> [] /\ foldr (fun f P => filter_wf f /\ P) True conds
  | FNone => False
  end.

Definition all_wf (conds : list Filter) : Prop := foldr (fun f P => filter_wf f /\ P) True conds.
Definition union_of (conds : list Filter) : gset Z := foldr (fun f s => denote f ∪ s) ∅ conds.
Definition inter_of (conds : list Filter) : gset Z :=
  foldr (fun f s => denote f ∩ s) document_ids conds.

(** The bitmap of a group after one more part that denotes [s]. *)
Definition combine (op : LogicalOperator) (bm : option (gset Z)) (s : gset Z) : gset Z :=
  match op, bm with
  | And, Some b => b ∩ s
  | Or, Some b => b ∪ s
  | Not, Some b => b ∖ s
  | Not, None => document_ids ∖ s
  | _, None => s
  end.

Abbreviation combine_all op := (fold_left (fun bm f => Some (combine op bm (denote f)))).

Definition bm_ok (bm : option (gset Z)) : Prop :=
  match bm with Some b => b ⊆ document_ids | None => True end.

Lemma apply_combine op bm src :
  bm_ok bm -> default ∅ src ⊆ document_ids ->
  apply op bm src document_ids = Some (combine op bm (default ∅ src)).
Proof.
  intros Hbm Hsrc. destruct bm as [b|], src as [s|], op; cbn in *; f_equal; set_solver.
Qed.

Lemma combine_ok op bm s : bm_ok bm -> s ⊆ document_ids -> combine op bm s ⊆ document_ids.
Proof. intros Hbm Hs. destruct op, bm as [b|]; cbn in *; set_solver. Qed.

Lemma denote_operator op conds :
  denote (Operator op conds) =
  match op with And => inter_of conds | Or => union_of conds | Not => document_ids ∖ union_of conds end.
Proof. by destruct op. Qed.

Lemma denote_subset f : filter_wf f -> denote f ⊆ document_ids.
Proof.
  induction f as [c|op conds IH|set|] using Filter_nested_ind; cbn [filter_wf]; [by intros [_ ?]| |done|done].
  intros [_ Hwf]. rewrite denote_operator. destruct op; [| |set_solver].
  - clear IH Hwf. unfold inter_of. induction conds; cbn; [done|set_solver].
  - unfold union_of. fold (all_wf conds) in Hwf. induction IH as [|f conds Hf _ IHc]; cbn; [set_solver|].
    destruct Hwf as [Hwf1 Hwf2]. specialize (Hf Hwf1). specialize (IHc Hwf2). by apply union_least.
Qed.

Definition evaluates (f : Filter) : Prop := filter_wf f -> forall op bm, bm_ok bm ->
  exists stop, eval_filter op bm f = Ok (Some (combine op bm (denote f)), stop) /\
    (stop = true -> op = And /\ combine op bm (denote f) = ∅).

Lemma combine_all_empty l : combine_all And l (Some ∅) = Some ∅.
Proof. induction l as [|f l IH]; [done|]. cbn. by rewrite intersection_empty_l_L. Qed.

Lemma eval_conditions_combine op l bm :
  Forall evaluates l -> all_wf l -> bm_ok bm ->
  eval_conditions op bm l = Ok (combine_all op l bm).
Proof.
  intros Hl. revert bm. induction Hl as [|f l Hf _ IH]; intros bm Hwf Hbm; [done|].
  destruct Hwf as [Hwf1 Hwf2]. destruct (Hf Hwf1 op bm Hbm) as (stop & He & Hstop).
  cbn [eval_conditions fold_left]. rewrite He. destruct stop; cbn.
  - destruct (Hstop eq_refl) as [-> ->]. by rewrite combine_all_empty.
  - apply IH; [done|]. by apply combine_ok, denote_subset.
Qed.

Lemma combine_all_Some op l b :
  combine_all op l (Some b) =
  Some match op with And => foldr (fun f s => denote f ∩ s) b l | Or => b ∪ union_of l
       | Not => b ∖ union_of l end.
Proof.
  revert b. unfold union_of. induction l as [|f l IH]; intros b; cbn.
  - destruct op; f_equal; set_solver.
  - rewrite IH. destruct op; cbn; f_equal; [|set_solver..].
    clear. induction l as [|f' l IH]; cbn; [set_solver|]. set_solver.
Qed.

Lemma combine_all_denote op l :
  l <> [] -> all_wf l -> combine_all op l None = Some (denote (Operator op l)).
Proof.
  destruct l as [|f l]; [done|]. intros _ [Hwf _]. pose proof (denote_subset f Hwf).
  cbn [fold_left]. rewrite combine_all_Some, denote_operator. unfold inter_of, union_of. cbn [foldr].
  destruct op; cbn; f_equal; [|set_solver..].
  clear Hwf. induction l as [|f' l IH]; cbn; set_solver.
Qed.

Lemma eval_denote f : evaluates f.
Proof.
  assert (forall op bm src, bm_ok bm -> default ∅ src ⊆ document_ids -> exists stop,
    (if bool_decide (op = And)
     then bm' ← unwrap (apply op bm src document_ids);
          Ok (apply op bm src document_ids, bool_decide (bm' = ∅))
     else Ok (apply op bm src document_ids, false)) =
    Ok (Some (combine op bm (default ∅ src)), stop) /\
    (stop = true -> op = And /\ combine op bm (default ∅ src) = ∅)) as Hleaf.
  { intros op bm src Hbm Hsrc. rewrite apply_combine by done.
    case_bool_decide; cbn; eexists; (split; [done|]); [|done]. by intros ?%bool_decide_eq_true. }
  induction f as [c|operator conds IH|set|] using Filter_nested_ind; intros Hwf op bm Hbm; [| | |done].
  - destruct Hwf as [[o Ho] Hs]. unfold condition_set in *. cbn [eval_filter apply_leaf denote].
    unfold condition_set. rewrite Ho in *. destruct o as [s|]; [apply (Hleaf op bm (Some s))|apply (Hleaf op bm None)]; done.
  - exists false. split; [|done]. pose proof (denote_subset _ Hwf) as Hsub.
    destruct Hwf as [Hne Hwf]. rewrite eval_operator, eval_conditions_combine by done.
    cbn [mbind res_bind]. rewrite combine_all_denote by done. by rewrite apply_combine.
  - by apply (Hleaf op bm (Some set)).
Qed.

Lemma reference_denote f :
  match f with FNone => True | _ => filter_wf f end -> reference_results f = Ok (denote f).
Proof.
  assert (forall l, Forall evaluates l) as Hall by (intros l; apply Forall_forall; intros; apply eval_denote).
  destruct f as [c|operator conds|set|]; intros Hwf; [| |done..].
  - cbn [reference_results]. rewrite eval_conditions_combine by done. done.
  - destruct Hwf as [Hne Hwf]. cbn [reference_results].
    rewrite eval_conditions_combine, combine_all_denote by done. done.
Qed.
End Evaluation.

(** ** Properties *)

(** C3. [query_store] terminates on every filter tree, within a number of
    turns linear in its size, and the explicit stack computes the recursive
    evaluation: groups return to the enclosing group in order, an empty AND
    group stops early, and errors and panics of a condition end the query. *)
Theorem query_store_stack_machine `{Roaring} `{Store DB} `{!Search DB} fuel (db : DB) a c filter :
  (query_fuel filter <= fuel)%nat ->
  query_store fuel db a c filter =
  Some (ids ← get_document_ids db a c; reference_results db a c (default ∅ ids) filter).
Proof.
  intros Hfuel. unfold query_store. destruct (get_document_ids db a c) as [ids| |]; [|done..].
  by apply query_results_reference.
Qed.

(** C1. On a filter without [Filter::None] and empty groups, whose conditions
    evaluate to documents of the collection, the result is the set algebra of
    the tree: AND is intersection, OR is union, and NOT is the complement of
    the union within the collection's documents, although it is computed with
    exclusive or; no filter at all selects every document. *)
Theorem query_store_set_algebra `{Roaring} `{Store DB} `{!Search DB} fuel (db : DB) a c filter ids :
  get_document_ids db a c = Ok ids ->
  match filter with FNone => True | _ => filter_wf db a c (default ∅ ids) filter end ->
  (query_fuel filter <= fuel)%nat ->
  query_store fuel db a c filter = Some (Ok (denote db a c (default ∅ ids) filter)).
Proof.
  intros Hids Hwf Hfuel. unfold query_store. rewrite Hids, query_results_reference by done.
  by rewrite reference_denote.
Qed.

(** ** A sample collection: documents 1 to 4, of which 2 and 3 have a tag *)
Module QuerySample.
Export PlainStore ListRoaring.
#[export] Instance sample_search : Search MemStore.t := {
  tokenize text _ := [text];
  stem text _ := [(text, None)];
  phrase_matches _ _ _ _ _ := Ok true;
  default_language := English
}.

Definition db : MemStore.t :=
  db_write MemStore.empty
    [OpSet Bitmaps (BitmapKey.serialize_document_ids 7 Collection.Mail)
       (bitmap_serialize (list_to_set [1; 2; 3; 4]));
     OpSet Bitmaps (BitmapKey.serialize_tag 7 Collection.Mail 9 (Static 1))
       (bitmap_serialize (list_to_set [2; 3]))].

Definition filter : Filter :=
  Operator And [Operator Not [Condition (mkCondition 9 Equal (QTag (Static 1)))];
                DocumentSet (list_to_set [1; 2])].
End QuerySample.
Import QuerySample.

Lemma query_store_stack_machine_witness :
  query_store (query_fuel QuerySample.filter) QuerySample.db 7 Collection.Mail QuerySample.filter =
  Some (ids ← get_document_ids QuerySample.db 7 Collection.Mail;
        reference_results QuerySample.db 7 Collection.Mail (default ∅ ids) QuerySample.filter).
Proof. apply (query_store_stack_machine (query_fuel QuerySample.filter)). done. Defined.

Lemma query_store_set_algebra_witness :
  query_store (query_fuel QuerySample.filter) QuerySample.db 7 Collection.Mail QuerySample.filter =
  Some (Ok {[1]}).
Proof.
  rewrite (query_store_set_algebra (query_fuel QuerySample.filter) QuerySample.db 7 Collection.Mail
    QuerySample.filter (Some (list_to_set [1; 2; 3; 4]))); [by vm_compute|by vm_compute| |done].
  split; [done|]. split; [split; [done|split; [split|done]]|split; [|done]].
  - by eexists; vm_compute.
  - apply (bool_decide_eq_true_1 _). by vm_compute.
  - cbn [filter_wf]. apply (bool_decide_eq_true_1 _). by vm_compute.
Defined.
