(* ===== verification/JmapId.v ===== *)
(** * Identifiers of the protocol: components/jmap/src/types/jmap.rs, state.rs, blob.rs

    JMAP ids are 64-bit integers printed in base 32 without leading zeros;
    states and blob ids are printed through [Base32Writer] behind a letter
    that says their kind. Strings are lists of character codes. *)

From S2P Require Import Prelude Leb128 Base32 Serialize Types Bitmap.

(** ** JMAPId *)

(** ["singleton"] *)
Definition SINGLETON : list Z := [115; 105; 110; 103; 108; 101; 116; 111; 110].

(** [JMAPId::singleton] and the default id. *)
Definition id_singleton : Z := U64_MAX.

Fixpoint id_parse_loop (value : list Z) (place id : Z) : option Z :=
  match value with
  | [] => Some id
  | ch :: value =>
      i ← BASE32_INVERSE !! Z.to_nat ch;
      if i =? U8_MAX then None
      else id_parse_loop value (place ≫ 5) (u64 (id + u64 (i * place)))
  end.

Definition id_parse (value : list Z) : option Z :=
  if bool_decide (1 <= length value <= 13)%nat then
    if negb (bool_decide (value = SINGLETON)) then
      id_parse_loop value (u64 (0x20 ^ (Z.of_nat (length value) - 1))) 0
    else Some U64_MAX
  else None.

Definition QUAD_SHIFT : Z := 60.
Definition QUAD_RESET : Z := 4.
Definition FIVE_SHIFT : Z := 59.
Definition FIVE_RESET : Z := 5.
Definition STOP_BIT : Z := u64 (1 ≪ QUAD_SHIFT).

(** The loop of [as_string] runs at most twelve times, once per five bits. *)
Fixpoint id_digits (fuel : nat) (n : Z) : list Z :=
  match fuel with
  | O => []
  | S fuel =>
      if n =? STOP_BIT then []
      else alphabet_at (n ≫ FIVE_SHIFT) :: id_digits fuel (u64 (n ≪ FIVE_RESET))
  end.

Definition id_as_string (id : Z) : list Z :=
  if id =? U64_MAX then SINGLETON
  else if id =? 0 then [97]
  else
    let n := Z.lor (u64 (id ≪ QUAD_RESET)) 1 in
    if id ≫ QUAD_SHIFT =? 0 then id_digits 13 (u64 (n ≪ (leading_zeros n / 5 * 5)))
    else alphabet_at (id ≫ QUAD_SHIFT) :: id_digits 13 n.

Definition id_from_parts (prefix_id doc_id : DocumentId) : Z := Z.lor (u64 (prefix_id ≪ 32)) doc_id.
Definition id_document_id (id : Z) : DocumentId := u32 (Z.land id 0xFFFFFFFF).
Definition id_prefix_id (id : Z) : DocumentId := u32 (id ≫ 32).

(** ** JMAPState *)

Inductive JMAPState : Set :=
| Initial
| Exact (change_id : ChangeId)
| Intermediate (from_id to_id : ChangeId) (items_sent : Z).

#[export] Instance JMAPState_eq_dec : EqDecision JMAPState.
Proof. solve_decision. Defined.

(** [fmt]; subtraction of the two ids wraps, and writing to memory cannot fail. *)
Definition write_leb (w : Base32Writer) (v : Z) : Base32Writer :=
  match to_leb128_writer v w with Some (w, _) => w | None => w end.

Definition state_to_string (s : JMAPState) : list Z :=
  finalize
    match s with
    | Initial => push_char Base32Writer_new 110
    | Exact id => write_leb (push_char Base32Writer_new 115) id
    | Intermediate from_id to_id items_sent =>
        write_leb (write_leb (write_leb (push_char Base32Writer_new 114) from_id)
          (u64 (to_id - from_id))) items_sent
    end.

Definition state_parse (id : list Z) : option JMAPState :=
  ch ← head id;
  if ch =? 110 then Some Initial
  else if ch =? 115 then
    '(id, _) ← next_leb128 U64 (Base32Reader_new (tail id)); Some (Exact id)
  else if ch =? 114 then
    '(from_id, it) ← next_leb128 U64 (Base32Reader_new (tail id));
    '(delta, it) ← next_leb128 U64 it;
    if from_id + delta <=? U64_MAX then
      '(items_sent, _) ← next_leb128 Usize it;
      if 0 <? items_sent then Some (Intermediate from_id (from_id + delta) items_sent) else None
    else None
  else None.

Definition state_get_change_id (s : JMAPState) : ChangeId :=
  match s with Exact id => id | Intermediate _ to_id _ => to_id | Initial => U64_MAX end.

(** ** JMAPBlob *)

Record BlobSection : Set := mkSection { bs_offset_start : Z; bs_size : Z; bs_encoding : Z }.
Record JMAPBlob : Set := mkBlob { jb_id : BlobId; jb_section : option BlobSection }.

Definition blob_new_section (id : BlobId) (offset_start offset_end encoding : Z) : JMAPBlob :=
  mkBlob id (Some (mkSection offset_start (u64 (offset_end - offset_start)) encoding)).

Definition blob_to_string (b : JMAPBlob) : list Z :=
  finalize
    match jb_section b with
    | Some section =>
        let ch := u8 ((if blob_is_local (jb_id b) then 99 else 104) + bs_encoding section) in
        let w := write_bytes (push_char Base32Writer_new ch) (blob_hash (jb_id b)) in
        write_leb (write_leb w (bs_offset_start section)) (bs_size section)
    | None =>
        write_bytes (push_char Base32Writer_new (if blob_is_local (jb_id b) then 97 else 98))
          (blob_hash (jb_id b))
    end.

(** Reading the [n] bytes of the hash. *)
Fixpoint read_hash (n : nat) (it : Base32Reader) : option (list Z * Base32Reader) :=
  match n with
  | O => Some ([], it)
  | S n =>
      '(byte, it) ← it_next it;
      '(hash, it) ← read_hash n it;
      Some (byte :: hash, it)
  end.

(** Where the blob is and its section's encoding, from the first letter. *)
Definition blob_kind (b : Z) : option (bool * option Z) :=
  if b =? 98 then Some (false, None)
  else if b =? 97 then Some (true, None)
  else if (99 <=? b) && (b <=? 103) then Some (true, Some (b - 99))
  else if (104 <=? b) && (b <=? 108) then Some (false, Some (b - 104))
  else None.

Definition blob_parse (id : list Z) : option JMAPBlob :=
  b ← head id;
  '(is_local, encoding) ← blob_kind b;
  '(hash, it) ← read_hash BLOB_HASH_LEN (Base32Reader_new (tail id));
  let id := if (is_local : bool) then Local_ hash else External hash in
  match encoding with
  | Some encoding =>
      '(offset_start, it) ← next_leb128 Usize it;
      '(size, _) ← next_leb128 Usize it;
      Some (mkBlob id (Some (mkSection offset_start size encoding)))
  | None => Some (mkBlob id None)
  end.

Definition blob_start_offset (b : JMAPBlob) : Z :=
  match jb_section b with Some section => bs_offset_start section | None => 0 end.

(** ** Base-32 digits *)

(** The [k] five-bit digits of [x]. *)
Fixpoint digits5 (k : nat) (x : Z) : list Z :=
  match k with
  | O => []
  | S k => x / 32 ^ Z.of_nat k :: digits5 k (x mod 32 ^ Z.of_nat k)
  end.

Lemma digits5_length k x : length (digits5 k x) = k.
Proof. revert x. induction k as [|k IH]; intros x; cbn; [done|by rewrite IH]. Qed.

Lemma pow32_pos k : 0 < 32 ^ Z.of_nat k.
Proof. apply Z.pow_pos_nonneg; lia. Qed.

Lemma pow32_S k : 32 ^ Z.of_nat (S k) = 32 * 32 ^ Z.of_nat k.
Proof. rewrite Nat2Z.inj_succ, Z.pow_succ_r by lia. done. Qed.

Lemma digit_range k x : 0 <= x < 32 ^ Z.of_nat (S k) -> 0 <= x / 32 ^ Z.of_nat k < 32.
Proof.
  intros Hx. rewrite pow32_S in Hx. pose proof (pow32_pos k).
  split; [apply Z.div_pos; lia|apply Z.div_lt_upper_bound; lia].
Qed.

Lemma pow32_split k : (k <= 12)%nat -> 32 ^ Z.of_nat k * 32 ^ Z.of_nat (12 - k) = 2 ^ 60.
Proof.
  intros Hk. rewrite <- Z.pow_add_r by lia. replace (Z.of_nat k + Z.of_nat (12 - k)) with 12 by lia.
  done.
Qed.

Lemma id_digits_spec k fuel x :
  (k <= 12)%nat -> (k < fuel)%nat -> 0 <= x < 32 ^ Z.of_nat k ->
  id_digits fuel ((16 * x + 1) * 32 ^ Z.of_nat (12 - k)) = map alphabet_at (digits5 k x).
Proof.
  revert fuel x. induction k as [|k IH]; intros [|fuel] x Hk Hf Hx; try lia.
  - replace x with 0 by (cbn in Hx; lia). done.
  - pose proof (pow32_split (S k) Hk) as Hp. pose proof (pow32_split k ltac:(lia)) as Hp'.
    pose proof (pow32_pos k). pose proof (pow32_pos (12 - S k)).
    cbn [id_digits digits5 map]. rewrite pow32_S in Hx, Hp.
    replace (12 - k)%nat with (S (12 - S k)) in Hp' by lia. rewrite pow32_S in Hp'.
    set (q := 32 ^ Z.of_nat (12 - S k)) in *. set (p := 32 ^ Z.of_nat k) in *.
    destruct (Z.eqb_spec ((16 * x + 1) * q) STOP_BIT) as [E|_].
    { exfalso. change STOP_BIT with (2 ^ 60) in E. assert (16 * x + 1 = 32 * p) by nia. lia. }
    f_equal.
    + f_equal. unfold FIVE_SHIFT. rewrite Z.shiftr_div_pow2 by lia.
      replace (2 ^ 59) with (16 * p * q) by (rewrite <- (Z.mul_assoc 32) in Hp; lia).
      rewrite Z.div_mul_cancel_r by lia. rewrite <- Z.div_div by lia. f_equal. dlia.
    + unfold FIVE_RESET, wrap. rewrite Z.shiftl_mul_pow2 by lia.
      replace (2 ^ 64) with (16 * p * (32 * q)) by lia.
      replace ((16 * x + 1) * q * 2 ^ 5) with ((16 * x + 1) * (32 * q)) by lia.
      rewrite Z.mul_mod_distr_r by lia.
      replace ((16 * x + 1) mod (16 * p)) with (16 * (x mod p) + 1).
      2: { symmetry. rewrite Z.rem_mul_r by lia.
           replace ((16 * x + 1) mod 16) with 1 by dlia.
           replace ((16 * x + 1) / 16) with x by dlia. lia. }
      unfold q. rewrite <- pow32_S. replace (S (12 - S k)) with (12 - k)%nat by lia.
      apply IH; [lia..|]. apply Z.mod_pos_bound. lia.
Qed.

(** The alphabet and its inverse. *)
Lemma digit_inverse d : 0 <= d < 32 -> BASE32_INVERSE !! Z.to_nat (alphabet_at d) = Some d.
Proof.
  intros Hd. apply (fits_decide (fun d => BASE32_INVERSE !! Z.to_nat (alphabet_at d) = Some d) 5);
    [by vm_compute|exact Hd].
Qed.

Lemma id_parse_digits k x id place :
  0 <= x < 32 ^ Z.of_nat k -> 0 <= id -> fits 64 (id + x) ->
  match k with O => True | S k => place = 32 ^ Z.of_nat k end ->
  id_parse_loop (map alphabet_at (digits5 k x)) place id = Some (id + x).
Proof.
  revert x id place. induction k as [|k IH]; intros x id place Hx Hid Hfit Hplace.
  - cbn in *. f_equal. lia.
  - subst place. cbn [digits5 map id_parse_loop]. pose proof (digit_range k x Hx) as Hd.
    rewrite digit_inverse by done. cbn [mbind option_bind].
    pose proof (pow32_pos k). pose proof (Z.div_mod x (32 ^ Z.of_nat k) ltac:(lia)) as Hdm.
    pose proof (Z.mod_pos_bound x (32 ^ Z.of_nat k) ltac:(lia)) as Hm.
    rewrite (proj2 (Z.eqb_neq _ _)) by (unfold U8_MAX; lia).
    rewrite (wrap_small 64 (_ * _)) by (unfold fits in *; nia).
    rewrite (wrap_small 64) by (unfold fits in *; nia).
    rewrite IH; [f_equal; lia|done|unfold fits in *; nia| |].
    + replace (id + x / 32 ^ Z.of_nat k * 32 ^ Z.of_nat k + x mod 32 ^ Z.of_nat k) with (id + x) by lia.
      done.
    + destruct k as [|k]; [done|]. rewrite Z.shiftr_div_pow2, pow32_S by lia.
      change (2 ^ 5) with 32. rewrite Z.mul_comm, Z.div_mul; lia.
Qed.

(** [as_string] prints the digits of the id, without a leading zero. *)
Lemma id_as_string_digits id :
  fits 64 id -> id <> U64_MAX -> id <> 0 ->
  exists k, (1 <= k <= 13)%nat /\ id < 32 ^ Z.of_nat k /\
    id_as_string id = map alphabet_at (digits5 k id).
Proof.
  intros [H0 H1] Hmax Hnz. unfold id_as_string.
  rewrite (proj2 (Z.eqb_neq _ _) Hmax), (proj2 (Z.eqb_neq _ _) Hnz).
  assert (Z.lor (u64 (id ≪ QUAD_RESET)) 1 = 16 * (id mod 2 ^ 60) + 1) as ->.
  { unfold wrap, QUAD_RESET. rewrite Z.shiftl_mul_pow2 by lia. rewrite Z.lor_comm.
    replace (id * 2 ^ 4 mod 2 ^ 64) with ((id mod 2 ^ 60) * 2 ^ 4) by dlia.
    rewrite (lor_disjoint_add 1 _ 4) by (unfold fits; lia). lia. }
  unfold QUAD_SHIFT. rewrite Z.shiftr_div_pow2 by lia.
  destruct (Z.eqb_spec (id / 2 ^ 60) 0) as [Hz|Hz].
  - rewrite (Z.mod_small id) by dlia. assert (id < 2 ^ 60) as Hid by dlia. clear H1 Hmax Hz.
    set (n := 16 * id + 1). assert (0 < n) as Hn by lia.
    pose proof (Z.log2_spec n Hn) as [Hl1 Hl2]. unfold leading_zeros.
    assert (Z.log2 n < 64) as Hlt by (apply Z.log2_lt_pow2; lia).
    assert (4 <= Z.log2 n) as Hge by (apply Z.log2_le_pow2; lia).
    set (j := Z.to_nat ((63 - Z.log2 n) / 5)).
    assert ((63 - Z.log2 n) / 5 = Z.of_nat j) as -> by (unfold j; rewrite Z2Nat.id; dlia).
    assert (5 * Z.of_nat j <= 63 - Z.log2 n) as Hj by (unfold j; rewrite Z2Nat.id; dlia).
    assert (j <= 11)%nat as Hj' by lia.
    assert (n < 2 ^ (64 - 5 * Z.of_nat j)) as Hb.
    { eapply Z.lt_le_trans; [exact Hl2|]. apply Z.pow_le_mono_r; lia. }
    assert (16 * 32 ^ Z.of_nat (12 - j) = 2 ^ (64 - 5 * Z.of_nat j)) as Hpw.
    { change 16 with (2 ^ 4). change 32 with (2 ^ 5). rewrite <- Z.pow_mul_r, <- Z.pow_add_r by lia.
      f_equal. lia. }
    exists (12 - j)%nat. split_and!; [lia..|].
    rewrite <- (id_digits_spec (12 - j) 13 id) by lia. f_equal.
    replace (12 - (12 - j))%nat with j by lia. rewrite Z.shiftl_mul_pow2 by lia.
    replace (2 ^ (Z.of_nat j * 5)) with (32 ^ Z.of_nat j)
      by (change 32 with (2 ^ 5); rewrite <- Z.pow_mul_r by lia; f_equal; lia).
    apply wrap_small. split; [pose proof (pow32_pos j); lia|].
    pose proof (pow32_split j ltac:(lia)). pose proof (pow32_pos j). nia.
  - exists 13%nat. split_and!; [lia..|change (32 ^ Z.of_nat 13) with (2 ^ 65); lia|].
    change (digits5 13 id) with (id / 2 ^ 60 :: digits5 12 (id mod 2 ^ 60)). cbn [map]. f_equal.
    rewrite <- (id_digits_spec 12 13) by (try lia; apply Z.mod_pos_bound; lia).
    f_equal. cbn. lia.
Qed.

(** The id whose digits spell ["singleton"]. *)
Definition SINGLETON_CLASH : Z := 20080258862541.

Lemma id_parse_text k id :
  (1 <= k <= 13)%nat -> fits 64 id -> id < 32 ^ Z.of_nat k ->
  id_parse (map alphabet_at (digits5 k id)) =
  Some (if bool_decide (map alphabet_at (digits5 k id) = SINGLETON) then U64_MAX else id).
Proof.
  intros Hk Hid Hlt. unfold id_parse. rewrite length_map, digits5_length.
  rewrite bool_decide_eq_true_2 by done. case_bool_decide as E; cbn [negb]; [done|].
  rewrite id_parse_digits; [done|unfold fits in Hid; lia|lia|done|].
  destruct k as [|k]; [lia|]. replace (Z.of_nat (S k) - 1) with (Z.of_nat k) by lia.
  apply wrap_small. split; [pose proof (pow32_pos k); lia|].
  change (2 ^ 64) with (2 ^ 4 * 32 ^ 12). apply Z.le_lt_trans with (32 ^ 12); [|done].
  apply Z.pow_le_mono_r; lia.
Qed.

Lemma digits_singleton k id :
  (1 <= k <= 13)%nat -> fits 64 id -> id < 32 ^ Z.of_nat k ->
  map alphabet_at (digits5 k id) = SINGLETON -> id = SINGLETON_CLASH.
Proof.
  intros Hk Hid Hlt E. assert (k = 9%nat) as ->.
  { apply (f_equal length) in E. by rewrite length_map, digits5_length in E. }
  pose proof (id_parse_digits 9 id 0 (32 ^ 8)) as Hp. rewrite E in Hp.
  specialize (Hp ltac:(unfold fits in Hid; lia) ltac:(lia) Hid eq_refl).
  rewrite Z.add_0_l in Hp. apply (inj Some). rewrite <- Hp. by vm_compute.
Qed.

(** ** Codes behind a kind letter *)

Lemma write_leb_bytes w v : fits 64 v -> write_leb w v = write_bytes w (leb128 v).
Proof. intros Hv. unfold write_leb. by rewrite write_leb128_base32. Qed.

(** The text of bytes written behind a letter is the letter and the text of
    the bytes. *)
Lemma finalize_char ch bs :
  finalize (write_bytes (push_char Base32Writer_new ch) bs) =
  ch :: finalize (write_bytes Base32Writer_new bs).
Proof. by rewrite !finalize_write. Qed.

(** An iterator over the text of [rest]. *)
Definition reading (it : Base32Reader) (rest : list Z) : Prop :=
  bytes_ok rest /\ exists pos last, reads_at pos last rest it /\ 0 <= pos < 5 /\ is_byte last.

Lemma reading_new bs :
  bytes_ok bs -> reading (Base32Reader_new (finalize (write_bytes Base32Writer_new bs))) bs.
Proof.
  intros Hbs. destruct (base32_written [] bs Hbs) as (pos & last & r & Hy & Hr & Hp & Hl).
  inversion Hy; subst. split; [done|]. by exists pos, last.
Qed.

Lemma reading_yields it bs rest :
  reading it (bs ++ rest) -> exists it', yields it bs it' /\ reading it' rest.
Proof.
  intros (Hok & pos & last & Hr & Hp & Hl).
  destruct (base32_reads pos last bs rest it Hp Hl Hok Hr) as (p' & l' & r' & Hy & Hr' & ?).
  apply Forall_app in Hok as [_ Hok]. exists r'. split; [done|]. split; [done|]. by exists p', l'.
Qed.

Lemma reading_leb128 t it v rest :
  decodable t v -> reading it (leb128 v ++ rest) ->
  exists it', next_leb128 t it = Some (v, it') /\ reading it' rest.
Proof.
  intros Hd Hr. destruct (reading_yields _ _ _ Hr) as (it' & Hy & Hr').
  exists it'. split; [by eapply next_leb128_yields|done].
Qed.

Lemma read_hash_yields n it bs it' : yields it bs it' -> length bs = n -> read_hash n it = Some (bs, it').
Proof.
  intros Hy. revert n. induction Hy as [it|it b it1 bs it' Hn Hy IH]; intros n Hl; subst n; cbn; [done|].
  rewrite Hn. cbn. by rewrite (IH (length bs)).
Qed.

(** ** Properties *)

(** Round trip of JMAP ids, and its one exception: parsing the text of any
    64-bit id gives the id back, except that the id 20080258862541 is printed
    as the word the parser reserves for the singleton id. *)
Theorem jmap_id_roundtrip id :
  fits 64 id ->
  id_parse (id_as_string id) = Some (if id =? SINGLETON_CLASH then U64_MAX else id).
Proof.
  intros Hid. destruct (decide (id = U64_MAX)) as [->|Hmax]; [by vm_compute|].
  destruct (decide (id = 0)) as [->|Hnz]; [by vm_compute|].
  destruct (Z.eqb_spec id SINGLETON_CLASH) as [->|Hne]; [by vm_compute|].
  destruct (id_as_string_digits id Hid Hmax Hnz) as (k & Hk & Hlt & ->).
  rewrite id_parse_text by done. f_equal. case_bool_decide as E; [|done].
  by apply digits_singleton in E.
Qed.

Lemma jmap_id_roundtrip_witness :
  id_parse (id_as_string SINGLETON_CLASH) = Some U64_MAX /\
  id_parse (id_as_string (id_from_parts 4675 17)) = Some (id_from_parts 4675 17).
Proof.
  split; [apply (jmap_id_roundtrip SINGLETON_CLASH)|apply (jmap_id_roundtrip (id_from_parts 4675 17))];
    by split; vm_compute.
Defined.

Definition state_wf (s : JMAPState) : Prop :=
  match s with
  | Initial => True
  | Exact id => fits 64 id
  | Intermediate from_id to_id items_sent =>
      fits 64 from_id /\ fits 64 to_id /\ from_id <= to_id /\ fits 64 items_sent /\ 0 < items_sent
  end.

(** Round trip of states: parsing the text of a state returned to a client
    gives the state back, for the initial state, every change id and every
    intermediate state with an ordered range and a positive item count. *)
Theorem jmap_state_roundtrip s : state_wf s -> state_parse (state_to_string s) = Some s.
Proof.
  unfold state_to_string, state_parse. destruct s as [|id|f t n]; intros Hwf; [done| |].
  - rewrite write_leb_bytes, finalize_char by done. cbn [head mbind option_bind Z.eqb tail].
    rewrite <- (app_nil_r (leb128 id)).
    assert (bytes_ok (leb128 id ++ [])) as Hok by (rewrite app_nil_r; by apply leb128_ok).
    destruct (reading_leb128 U64 _ _ _ (u64_decodable _ Hwf) (reading_new _ Hok)) as (it & E & _).
    cbn [mbind option_bind]. by rewrite E.
  - destruct Hwf as (Hf & Ht & Hle & Hn & Hpos).
    assert (fits 64 (t - f)) as Hd by (unfold fits in *; lia). rewrite (wrap_small 64) by done.
    rewrite !write_leb_bytes, <- !write_bytes_app, finalize_char by done.
    pose proof (leb128_ok f Hf) as Hbf. pose proof (leb128_ok _ Hd) as Hbd. pose proof (leb128_ok n Hn) as Hbn.
    rewrite <- (app_nil_r (leb128 n)).
    assert (bytes_ok (leb128 f ++ leb128 (t - f) ++ leb128 n ++ [])) as Hok by (rewrite !Forall_app; auto).
    destruct (reading_leb128 U64 _ _ _ (u64_decodable _ Hf) (reading_new _ Hok)) as (it1 & E1 & R1).
    destruct (reading_leb128 U64 _ _ _ (u64_decodable _ Hd) R1) as (it2 & E2 & R2).
    destruct (reading_leb128 Usize _ _ _ (usize_decodable _ Hn) R2) as (it3 & E3 & _).
    cbn [head mbind option_bind Z.eqb Pos.eqb tail]. rewrite E1. cbn [mbind option_bind].
    rewrite E2. cbn [mbind option_bind]. rewrite (proj2 (Z.leb_le _ _)) by (unfold fits in *; lia).
    rewrite E3. cbn [mbind option_bind]. rewrite (proj2 (Z.ltb_lt _ _)) by done. do 2 f_equal. lia.
Qed.

Lemma jmap_state_roundtrip_witness :
  state_parse (state_to_string (Intermediate 1024 2048 100)) = Some (Intermediate 1024 2048 100).
Proof. apply (jmap_state_roundtrip (Intermediate 1024 2048 100)). cbn. unfold fits. lia. Defined.

Lemma blob_kind_section is_local enc :
  0 <= enc <= 4 -> blob_kind (u8 ((if (is_local : bool) then 99 else 104) + enc)) = Some (is_local, Some enc).
Proof.
  intros Henc. assert (enc = 0 \/ enc = 1 \/ enc = 2 \/ enc = 3 \/ enc = 4) as Hcase by lia.
  destruct is_local, Hcase as [->|[->|[->|[->| ->]]]]; by vm_compute.
Qed.

Lemma blob_kind_whole is_local : blob_kind (if (is_local : bool) then 97 else 98) = Some (is_local, None).
Proof. by destruct is_local. Qed.

Definition jmap_blob_wf (b : JMAPBlob) : Prop :=
  length (blob_hash (jb_id b)) = BLOB_HASH_LEN /\ bytes_ok (blob_hash (jb_id b)) /\
  match jb_section b with
  | Some s => fits 64 (bs_offset_start s) /\ fits 64 (bs_size s) /\ 0 <= bs_encoding s <= 4
  | None => True
  end.

(** Round trip of blob ids: parsing the text of a blob id gives back the
    hash, where the blob is stored, and the section with its offset, size and
    transfer encoding, for the five encodings the letters can tell apart. *)
Theorem jmap_blob_roundtrip b : jmap_blob_wf b -> blob_parse (blob_to_string b) = Some b.
Proof.
  destruct b as [id section]. intros (Hl & Hh & Hs). cbn [jb_id jb_section] in *.
  unfold blob_to_string, blob_parse. cbn [jb_id jb_section].
  assert (id = if blob_is_local id then Local_ (blob_hash id) else External (blob_hash id)) as Hid
    by by destruct id.
  destruct section as [[off size enc]|]; cbn [bs_offset_start bs_size bs_encoding] in *.
  - destruct Hs as (Hoff & Hsize & Henc). rewrite !write_leb_bytes, <- !write_bytes_app, finalize_char by done.
    pose proof (leb128_ok off Hoff). pose proof (leb128_ok size Hsize). rewrite <- (app_nil_r (leb128 size)).
    assert (bytes_ok (blob_hash id ++ leb128 off ++ leb128 size ++ [])) as Hok by (rewrite !Forall_app; auto).
    destruct (reading_yields _ _ _ (reading_new _ Hok)) as (it1 & Hy & R1).
    destruct (reading_leb128 Usize _ _ _ (usize_decodable _ Hoff) R1) as (it2 & E2 & R2).
    destruct (reading_leb128 Usize _ _ _ (usize_decodable _ Hsize) R2) as (it3 & E3 & _).
    cbn [head mbind option_bind tail].
    rewrite blob_kind_section by done. cbn [mbind option_bind].
    rewrite (read_hash_yields _ _ _ _ Hy Hl). cbn [mbind option_bind].
    rewrite E2. cbn [mbind option_bind]. rewrite E3. cbn [mbind option_bind]. by rewrite <- Hid.
  - rewrite finalize_char. rewrite <- (app_nil_r (blob_hash id)) in Hh.
    destruct (reading_yields _ _ _ (reading_new _ Hh)) as (it1 & Hy & _). rewrite app_nil_r in Hy.
    cbn [head mbind option_bind tail]. rewrite blob_kind_whole. cbn [mbind option_bind].
    rewrite (read_hash_yields _ _ _ _ Hy Hl). cbn [mbind option_bind]. by rewrite <- Hid.
Qed.

Lemma jmap_blob_roundtrip_witness :
  blob_parse (blob_to_string (blob_new_section (Local_ (seqZ 0 32)) 10 300 2)) =
  Some (blob_new_section (Local_ (seqZ 0 32)) 10 300 2).
Proof.
  apply (jmap_blob_roundtrip (blob_new_section (Local_ (seqZ 0 32)) 10 300 2)).
  split_and!; [done| |by split; vm_compute..]. apply Forall_forall. intros x Hx%elem_of_seqZ.
  unfold fits. lia.
Defined.
