(* ===== verification/JmapChanges.v ===== *)
(** * Foo/changes and Foo/queryChanges: components/jmap/src/jmap_store/changes.rs,
      query_changes.rs

    A client learns the changes since a state in pages. The server keeps no
    session: the state it returns with an incomplete page holds the range of
    change ids and the number of items sent, and the pages are cut from the
    end of the net changes of that range. *)

From S2P Require Import Prelude Leb128 Serialize Types Keys KV ChangeLog Base32 Bitmap JmapId.

Record ChangesResponse : Type := mkResponse {
  cr_old_state : JMAPState;
  cr_new_state : JMAPState;
  cr_has_more_changes : bool;
  cr_created : list Z;
  cr_updated : list Z;
  cr_destroyed : list Z;
  cr_total_changes : nat;
  cr_has_children_changes : bool
}.

Definition ChangesResponse_empty : ChangesResponse :=
  mkResponse Initial Initial false [] [] [] 0 false.

(** The loop that sorts the changes of a page. *)
Definition created_ids (l : list Change) : list Z :=
  omap (fun c => match c with Insert id => Some id | _ => None end) l.
Definition updated_ids (l : list Change) : list Z :=
  omap (fun c => match c with Update id | ChildUpdate id => Some id | _ => None end) l.
Definition destroyed_ids (l : list Change) : list Z :=
  omap (fun c => match c with Delete id => Some id | _ => None end) l.
Definition items_changed (l : list Change) : bool :=
  existsb (fun c => match c with Update _ => true | _ => false end) l.

Section Changes.
Context `{Treemap} `{Store DB}.
(** [config.changes_max_results] *)
Variable changes_max_results : Z.

Definition get_state (db : DB) (account : AccountId) (collection : Collection.t) : option JMAPState :=
  id ← get_last_change_id db account collection;
  Some match id with Some id => Exact id | None => Initial end.

Definition effective_max (max_changes : option Z) : Z :=
  let max_changes := default 0 max_changes in
  if (0 <? changes_max_results) && (changes_max_results <? max_changes)
  then changes_max_results else max_changes.

(** The items already sent and the change log a state continues from; [None]
    inside is the early return of an empty response. *)
Definition continue_from (db : DB) (account : AccountId) (collection : Collection.t)
    (since_state : JMAPState) : option (option (Z * Changes)) :=
  match since_state with
  | Initial =>
      changelog ← get_changes db account collection All;
      Some (if bool_decide (changes changelog = []) && (from_change_id changelog =? 0)
            then None else Some (0, changelog))
  | Exact change_id =>
      changelog ← get_changes db account collection (Since change_id);
      Some (Some (0, changelog))
  | Intermediate from_id to_id items_sent =>
      changelog ← get_changes db account collection (RangeInclusive from_id to_id);
      if Z.of_nat (length (changes changelog)) <=? items_sent then
        changelog ← get_changes db account collection (Since to_id);
        Some (Some (0, changelog))
      else
        let kept := take (length (changes changelog) - Z.to_nat items_sent) (changes changelog) in
        Some (Some (items_sent, mkChanges kept (from_change_id changelog) (to_change_id changelog)))
  end.

(** The response to a request that has sent [items_sent] items before. *)
Definition respond (since_state : JMAPState) (max_changes items_sent : Z) (changelog : Changes)
    : ChangesResponse :=
  let n := length (changes changelog) in
  let has_more := (0 <? max_changes) && (max_changes <? Z.of_nat n) in
  let page := if has_more then drop (n - Z.to_nat max_changes) (changes changelog)
              else changes changelog in
  mkResponse since_state
    (if has_more then
       Intermediate (from_change_id changelog) (to_change_id changelog) (u64 (items_sent + max_changes))
     else Exact (to_change_id changelog))
    has_more (created_ids page) (updated_ids page) (destroyed_ids page) (length page)
    (negb (bool_decide (updated_ids page = [])) && negb (items_changed page)).

Definition jmap_changes (db : DB) (account : AccountId) (collection : Collection.t)
    (since_state : JMAPState) (max_changes : option Z) : option ChangesResponse :=
  r ← continue_from db account collection since_state;
  Some match r with
       | None => ChangesResponse_empty
       | Some (items_sent, changelog) =>
           respond since_state (effective_max max_changes) items_sent changelog
       end.

(** A client that asks for pages until there are no more, the store being
    [dbs n] when page [n] is requested. *)
Fixpoint fetch (fuel : nat) (dbs : nat -> DB) (account : AccountId) (collection : Collection.t)
    (since_state : JMAPState) (max_changes : option Z) : option (list ChangesResponse) :=
  match fuel with
  | O => None
  | S fuel =>
      r ← jmap_changes (dbs 0%nat) account collection since_state max_changes;
      if cr_has_more_changes r then
        rs ← fetch fuel (fun n => dbs (S n)) account collection (cr_new_state r) max_changes;
        Some (r :: rs)
      else Some [r]
  end.
End Changes.

(** ** Foo/queryChanges *)

Record QueryChanges : Type := mkQueryChanges {
  qc_old_state : JMAPState;
  qc_new_state : JMAPState;
  qc_total : option nat;
  qc_removed : list Z;
  qc_added : list (Z * nat)
}.

(** The ids of the current result that are new or changed, with their index,
    up to [up_to_id]. *)
Fixpoint added_items (up_to_id : option Z) (is_added : Z -> bool) (index : nat) (ids : list Z)
    : list (Z * nat) :=
  match ids with
  | [] => []
  | id :: ids =>
      if bool_decide (up_to_id = Some id) then []
      else (if is_added id then [(id, index)] else []) ++ added_items up_to_id is_added (S index) ids
  end.

(** [query_response]: the ids, the total and whether the order is immutable. *)
Definition query_changes (changes : ChangesResponse) (up_to_id : option Z)
    (query_response : option (list Z * option nat * bool)) : QueryChanges :=
  match query_response with
  | Some (ids, total, is_immutable) =>
      let '(removed, added) :=
        if (0 <? cr_total_changes changes)%nat then
          if negb is_immutable then
            (cr_updated changes ++ cr_destroyed changes,
             added_items up_to_id (fun id => bool_decide (id ∈ cr_created changes) ||
               bool_decide (id ∈ cr_updated changes)) 0 ids)
          else
            (cr_destroyed changes,
             added_items up_to_id (fun id => bool_decide (id ∈ cr_created changes)) 0 ids)
        else ([], []) in
      mkQueryChanges (cr_old_state changes) (cr_new_state changes) total removed added
  | None => mkQueryChanges (cr_old_state changes) (cr_new_state changes) None [] []
  end.

(** ** Ranges of the log *)

Section Ranges.
Context `{Treemap} `{StoreLaws DB}.

Abbreviation id_sorted := (StronglySorted (fun e e' : ChangeId * list Z => e.1 < e'.1)).

Lemma run_entries_range st l cl first :
  run_entries st l = Some (cl, first) ->
  match l with
  | [] => (cl, first) = st
  | e :: _ => first = false /\ to_change_id cl = default 0 (fst <$> last l) /\
      from_change_id cl = if st.2 then e.1 else from_change_id st.1
  end.
Proof.
  revert st. induction l as [|[i v] l IH]; intros st; cbn; [by intros [= <-]|].
  destruct (deserialize_changes (changes st.1) v) as [cs|]; [|done]. cbn. intros Hr.
  specialize (IH _ Hr). destruct l as [|[i' v'] l]; cbn in *.
  - by injection IH as -> ->.
  - destruct IH as (-> & Ht & Hf). done.
Qed.

(** The selected entries of a query without an upper bound. *)
Abbreviation selected db a c q :=
  (filter (fun e => in_range q e.1 = true) (visited db a c (query_from q))).

Definition unbounded (q : Query) : Prop :=
  match q with RangeInclusive _ _ => False | _ => True end.

Lemma unbounded_range q i j : unbounded q -> in_range q i = true -> i <= j -> in_range q j = true.
Proof.
  destruct q as [|k|k|]; cbn [unbounded]; [..|done]; intros _; unfold in_range, selects; cbn;
    rewrite !andb_true_r, ?orb_true_iff, ?andb_true_iff, ?Z.ltb_lt, ?Z.eqb_eq; lia.
Qed.

Lemma sorted_bounds (l : list (ChangeId * list Z)) e0 e :
  id_sorted (e0 :: l) -> e ∈ e0 :: l -> e0.1 <= e.1 <= default 0 (fst <$> last (e0 :: l)).
Proof.
  revert e0 e. induction l as [|e1 l IH]; intros e0 e Hs Hin.
  - apply list_elem_of_singleton in Hin as ->. cbn. lia.
  - apply StronglySorted_inv in Hs as [Hs Hlt]. apply Forall_cons in Hlt as [Hlt _].
    apply elem_of_cons in Hin as [->|Hin].
    + destruct (IH e1 e1 Hs ltac:(by apply elem_of_cons; left)) as [_ Hle]. cbn in *. lia.
    + destruct (IH e1 e Hs Hin) as [Hle1 Hle2]. cbn in *. lia.
Qed.

(** Two stores that agree on the entries up to [to]. *)
Definition agree_up_to (db db' : DB) (a : AccountId) (c : Collection.t) (to : ChangeId) : Prop :=
  forall i, fits 64 i -> i <= to ->
  db_get db' Logs (LogKey.serialize_change a c i) = db_get db Logs (LogKey.serialize_change a c i).

(** Asking again for the range of ids a query returned selects the same
    entries, also after entries have been added to the log. *)
Lemma selected_again db db' a c q e l :
  log_wf db -> log_wf db' -> fits 32 a -> fits 64 (query_from q) -> unbounded q ->
  selected db a c q = e :: l ->
  let to := default 0 (fst <$> last (e :: l)) in
  0 < to -> agree_up_to db db' a c to ->
  selected db' a c (RangeInclusive e.1 to) = e :: l.
Proof.
  intros Hwf Hwf' Ha Hf Hq Hsel to Hto Hag.
  assert (id_sorted (e :: l)) as Hs
    by (rewrite <- Hsel; apply StronglySorted_filter; by apply visited_sorted).
  assert (forall x, x ∈ e :: l <-> (in_range q x.1 = true) /\ x ∈ visited db a c (query_from q)) as Hel
    by (intros x; by rewrite <- Hsel, list_elem_of_filter).
  destruct (proj1 (Hel e) ltac:(by apply elem_of_cons; left)) as [Hqe Hve]. destruct e as [i0 v0].
  apply elem_of_visited in Hve as (Hi0 & Hle0 & Hg0); [|done..]. cbn [fst] in *.
  apply (sorted_by_unique (fun e e' : ChangeId * list Z => e.1 < e'.1)).
  - intros x Hx. lia.
  - intros x y z Hxy Hyz. lia.
  - apply StronglySorted_filter. by apply visited_sorted.
  - done.
  - intros [i v]. rewrite Hel, list_elem_of_filter, !elem_of_visited by done.
    change (query_from (RangeInclusive i0 to)) with i0. cbn [fst]. split.
    + intros (Hr & Hi & Hle & Hg). assert (i <= to) as Hto'.
      { unfold in_range, selects in Hr. cbn in Hr. rewrite (proj2 (Z.ltb_lt 0 to)) in Hr by done.
        cbn in Hr. rewrite andb_true_iff, negb_true_iff, Z.ltb_ge in Hr. lia. }
      rewrite Hag in Hg by done. assert (in_range q i = true) as Hqi by by apply (unbounded_range q i0).
      split_and!; try done. by apply in_range_from.
    + intros (Hr & Hi & Hle & Hg).
      assert ((i, v) ∈ (i0, v0) :: l) as Hin by (apply Hel; split; [done|by apply elem_of_visited]).
      destruct (sorted_bounds _ _ _ Hs Hin) as [Hb1 Hb2]. cbn [fst] in Hb1. fold to in Hb2.
      change (fst (i, v)) with i in Hb2.
      rewrite Hag by done. split_and!; try done. unfold in_range, selects. cbn.
      rewrite andb_true_iff, orb_true_iff, negb_true_iff, andb_false_iff, Z.ltb_lt, Z.eqb_eq, !Z.ltb_ge.
      lia.
Qed.

Lemma get_changes_again db db' a c q cl :
  log_wf db -> log_wf db' -> fits 32 a -> fits 64 (query_from q) -> unbounded q ->
  get_changes db a c q = Some cl -> changes cl <> [] ->
  0 < to_change_id cl -> agree_up_to db db' a c (to_change_id cl) ->
  get_changes db' a c (RangeInclusive (from_change_id cl) (to_change_id cl)) = Some cl.
Proof.
  intros Hwf Hwf' Ha Hf Hq. rewrite (get_changes_entries db) by done.
  destruct (selected db a c q) as [|e l] eqn:Hsel; [by intros [= <-]|].
  destruct (run_entries _ (e :: l)) as [[cl' first]|] eqn:Hr; [|done].
  destruct (run_entries_range _ _ _ _ Hr) as (-> & Ht & Hfr). cbn in Hfr. intros [= <-] _.
  unfold finish. cbn [fst snd]. rewrite Ht, Hfr. intros Hto Hag.
  assert (e ∈ visited db a c (query_from q)) as Hve.
  { apply (list_elem_of_filter (fun e => in_range q e.1 = true)). rewrite Hsel.
    by apply elem_of_cons; left. }
  destruct e as [i0 v0]. apply elem_of_visited in Hve as (Hi0 & _ & _); [|done..].
  rewrite get_changes_entries by done. cbn [fst].
  pose proof (selected_again db db' a c q (i0, v0) l Hwf Hwf' Ha Hf Hq Hsel Hto Hag) as E.
  cbn [fst] in E. rewrite E, Hr. done.
Qed.
End Ranges.

(** ** Pages *)

(** Pages, last one first, hold the changes [l] in order. *)
Definition covers (rs : list ChangesResponse) (l : list Change) : Prop :=
  concat (reverse (cr_created <$> rs)) = created_ids l /\
  concat (reverse (cr_updated <$> rs)) = updated_ids l /\
  concat (reverse (cr_destroyed <$> rs)) = destroyed_ids l.

Definition ends_at (rs : list ChangesResponse) (s : JMAPState) : Prop :=
  exists r, last rs = Some r /\ cr_new_state r = s /\ cr_has_more_changes r = false.

Lemma covers_cons r rs l page :
  cr_created r = created_ids page -> cr_updated r = updated_ids page ->
  cr_destroyed r = destroyed_ids page -> covers rs l -> covers (r :: rs) (l ++ page).
Proof.
  intros Hc Hu Hd (H1 & H2 & H3). unfold covers. cbn [fmap list_fmap].
  rewrite !reverse_cons, !concat_app, H1, H2, H3. cbn [concat]. rewrite !app_nil_r, Hc, Hu, Hd.
  unfold created_ids, updated_ids, destroyed_ids. by rewrite !omap_app.
Qed.

Section Paging.
Context `{Treemap} `{StoreLaws DB}.
Variables (changes_max_results : Z) (max_changes : option Z) (a : AccountId) (c : Collection.t).
Variable (cl : Changes).
Abbreviation m := (effective_max changes_max_results max_changes).
Abbreviation n := (length (changes cl)).
Hypotheses (Hm : 0 < m) (Hn : fits 64 (Z.of_nat n)).

Definition small_pages (rs : list ChangesResponse) : Prop :=
  Forall (fun r => Z.of_nat (cr_total_changes r) <= m) rs.

(** The pages from a response on: the rest comes from [rest] pages that
    continue at the state it returns. *)
Lemma respond_pages s sent l :
  0 <= sent ->
  Z.of_nat (length l) = Z.of_nat n - sent ->
  let r := respond s m sent (mkChanges l (from_change_id cl) (to_change_id cl)) in
  (cr_has_more_changes r = false /\ covers [r] l /\ ends_at [r] (Exact (to_change_id cl)) /\
     small_pages [r]) \/
  (cr_has_more_changes r = true /\ m < Z.of_nat (length l) /\
   cr_new_state r = Intermediate (from_change_id cl) (to_change_id cl) (sent + m) /\
   small_pages [r] /\
   forall rs, covers rs (take (length l - Z.to_nat m) l) -> covers (r :: rs) l).
Proof.
  intros Hsent Hl. cbn zeta. unfold respond. cbn [changes from_change_id to_change_id].
  rewrite (proj2 (Z.ltb_lt 0 m)) by done. cbn [andb].
  destruct (Z.ltb_spec m (Z.of_nat (length l))) as [Hlt|Hge].
  - right. cbn [cr_has_more_changes cr_new_state]. split_and!; [done|done| | |].
    + f_equal. apply wrap_small. unfold fits in *. lia.
    + constructor; [|done]. cbn. rewrite length_drop. lia.
    + intros rs Hrs. match goal with |- covers ?x _ =>
        cut (covers x (take (length l - Z.to_nat m) l ++ drop (length l - Z.to_nat m) l)) end;
        [by rewrite take_drop|by apply covers_cons].
  - left. cbn [cr_has_more_changes]. split_and!; [done| |by eexists|].
    + split_and!; cbn; by rewrite app_nil_r.
    + constructor; [|done]. cbn. lia.
Qed.

Lemma fetch_rest fuel dbs sent :
  (forall k, get_changes (dbs k) a c (RangeInclusive (from_change_id cl) (to_change_id cl)) = Some cl) ->
  0 <= sent < Z.of_nat n -> (Z.of_nat n - sent < Z.of_nat fuel) ->
  exists rs,
    fetch changes_max_results fuel dbs a c (Intermediate (from_change_id cl) (to_change_id cl) sent)
      max_changes = Some rs /\
    covers rs (take (n - Z.to_nat sent) (changes cl)) /\ ends_at rs (Exact (to_change_id cl)) /\
    small_pages rs.
Proof.
  revert dbs sent. induction fuel as [|fuel IH]; intros dbs sent Hdbs Hsent Hfuel; [lia|].
  cbn [fetch]. unfold jmap_changes. cbn [continue_from]. rewrite Hdbs. cbn [mbind option_bind].
  rewrite (proj2 (Z.leb_gt _ _)) by lia. cbn [mbind option_bind].
  set (l := take (n - Z.to_nat sent) (changes cl)).
  assert (Z.of_nat (length l) = Z.of_nat n - sent) as Hl by (unfold l; rewrite length_take; lia).
  destruct (respond_pages (Intermediate (from_change_id cl) (to_change_id cl) sent) sent l)
    as [(Hmore & Hc & He & Hp)|(Hmore & Hlt & Hs & Hp & Hc)]; [lia|done|..].
  - rewrite Hmore. by eexists.
  - rewrite Hmore, Hs. destruct (IH (fun k => dbs (S k)) (sent + m)) as (rs & -> & Hrs & He & Hps);
      [done|lia..|]. eexists. split; [done|]. split_and!.
    + apply Hc. unfold l. rewrite take_take. fold l. rewrite Hl in *.
      replace ((length l - Z.to_nat m) `min` (n - Z.to_nat sent))%nat with (n - Z.to_nat (sent + m))%nat
        by lia. done.
    + destruct He as (r' & Hlast & ?). exists r'. split; [|done]. rewrite last_cons. by rewrite Hlast.
    + apply Forall_cons in Hp as [Hp _]. by constructor.
Qed.
End Paging.

(** ** Properties *)

(** The log query behind a first request. *)
Definition first_query (s : JMAPState) : Query :=
  match s with Exact id => Since id | _ => All end.

(** C27. Paging through Foo/changes is complete and exact, also while the log
    grows. A client that starts from the initial or an exact state and asks
    for pages of any positive size until none is left gets, over all pages,
    the created, updated and destroyed ids of the unpaged answer, each once
    and in the same order within the range; no page is larger than the limit,
    and the last state is the exact state of the whole range. Entries logged
    between two pages do not disturb it (the range being bounded by a positive
    change id); they follow from the last state. *)
Theorem changes_paging_complete `{Treemap} `{StoreLaws DB} cmr mc (dbs : nat -> DB) a c s cl :
  (forall k, log_wf (dbs k)) -> fits 32 a -> state_wf s ->
  match s with Intermediate _ _ _ => False | _ => True end ->
  get_changes (dbs 0%nat) a c (first_query s) = Some cl -> changes cl <> [] ->
  fits 64 (Z.of_nat (length (changes cl))) -> 0 < to_change_id cl ->
  (forall k, agree_up_to (dbs 0%nat) (dbs k) a c (to_change_id cl)) ->
  0 < effective_max cmr mc ->
  exists rs, fetch cmr (S (length (changes cl))) dbs a c s mc = Some rs /\
    covers rs (changes cl) /\ ends_at rs (Exact (to_change_id cl)) /\ small_pages cmr mc rs.
Proof.
  intros Hwf Ha Hs Hst Hget Hne Hn Hto Hag Hm.
  assert (fits 64 (query_from (first_query s))) as Hf by (destruct s; [by split|done..]).
  assert (continue_from (dbs 0%nat) a c s = Some (Some (0, cl))) as Hcont.
  { destruct s as [|id|]; cbn in *; [|by rewrite Hget|done]. rewrite Hget. cbn.
    by rewrite bool_decide_eq_false_2. }
  assert (mkChanges (changes cl) (from_change_id cl) (to_change_id cl) = cl) as Hcl by by destruct cl.
  cbn [fetch]. unfold jmap_changes. rewrite Hcont. cbn [mbind option_bind].
  destruct (respond_pages cmr mc cl Hm Hn s 0 (changes cl))
    as [(Hmore & Hc & He & Hp)|(Hmore & Hlt & Hs' & Hp & Hc)];
    [lia|lia|..]; rewrite Hcl in *; rewrite Hmore.
  - by eexists.
  - rewrite Hs'. destruct (fetch_rest cmr mc a c cl Hm Hn (length (changes cl)) (fun k => dbs (S k)) (0 + effective_max cmr mc))
      as (rs & -> & Hrs & He & Hps); [|lia..|].
    { intros k. eapply get_changes_again; eauto. by destruct s. }
    eexists. split; [done|]. split_and!; [apply Hc; by rewrite Z.add_0_l in Hrs| |].
    + destruct He as (r' & Hlast & ?). exists r'. split; [|done]. rewrite last_cons. by rewrite Hlast.
    + apply Forall_cons in Hp as [Hp _]. by constructor.
Qed.

Import SampleStore.

(** The sample log, to which an entry is added after the first page. *)
Definition growing_log (k : nat) : MemStore.t :=
  db_of_log 1 Collection.Mail
    (if (k =? 0)%nat then sample_log else sample_log ++ [(9, Batch.mkChange [20] [] [] [])]).

Lemma changes_paging_complete_witness :
  exists rs, fetch 0 4 growing_log 1 Collection.Mail (Exact 2) (Some 2) = Some rs /\
    ends_at rs (Exact 7).
Proof.
  destruct (changes_paging_complete 0 (Some 2) growing_log 1 Collection.Mail (Exact 2)
    (mkChanges [Insert 10; Update 5; ChildUpdate 6] 3 7)) as (rs & Hrs & _ & He & _).
  - intros k. unfold growing_log. destruct (k =? 0)%nat;
      (apply db_of_log_wf; [by split|repeat constructor; by vm_compute]).
  - by split.
  - by split.
  - done.
  - by vm_compute.
  - done.
  - by split.
  - done.
  - intros k i Hi Hle. unfold growing_log. destruct (k =? 0)%nat; [done|]. cbn [Nat.eqb].
    apply db_of_log_snoc; [done|by split|]. cbn in *. lia.
  - done.
  - exists rs. split; [exact Hrs|exact He].
Defined.

(** The first entry of a store has change id 0, which as the upper bound of a
    range stands for no bound. *)
Definition zero_log (k : nat) : MemStore.t :=
  db_of_log 1 Collection.Mail
    (if (k =? 0)%nat then [(0, Batch.mkChange [1; 2; 3] [] [] [])]
     else [(0, Batch.mkChange [1; 2; 3] [] [] []); (1, Batch.mkChange [4; 5] [] [] [])]).

(** Without the positive bound paging can lose changes: when the range of
    an intermediate state ends at change id 0 and the log grows before the
    second page, the client ends in the last state of the log without having
    seen the objects created in between, and sees others twice. *)
Theorem changes_paging_zero_loses :
  (exists rs, fetch 0 5 zero_log 1 Collection.Mail Initial (Some 2) = Some rs /\
     map cr_created rs = [[2; 3]; [2; 3]; [1]] /\ ends_at rs (Exact 1)) /\
  (exists r, jmap_changes 0 (zero_log 1) 1 Collection.Mail Initial None = Some r /\
     cr_created r = [1; 2; 3; 4; 5]).
Proof.
  split; eexists; (split; [by vm_compute|]); [|done]. split; [done|]. by eexists.
Qed.


(** ** Query changes *)

(** A client updates its copy of the result: it drops the removed ids and
    inserts the added ones at their index, in order. *)
Definition insert_at (l : list Z) (item : Z * nat) : list Z :=
  take item.2 l ++ item.1 :: drop item.2 l.
Definition apply_query_changes (qc : QueryChanges) (old : list Z) : list Z :=
  fold_left insert_at (qc_added qc) (filter (fun id => id ∉ qc_removed qc) old).

Lemma added_items_insert is_added p l :
  fold_left insert_at (added_items None is_added (length p) l)
    (p ++ filter (fun id => is_added id = false) l) = p ++ l.
Proof.
  revert p. induction l as [|x l IH]; intros p; [done|]. cbn [added_items].
  rewrite bool_decide_eq_false_2 by done. rewrite filter_cons.
  specialize (IH (p ++ [x])). rewrite length_app, Nat.add_1_r, <- !app_assoc in IH. cbn [app] in IH.
  destruct (is_added x) eqn:E.
  - rewrite decide_False by done. cbn [app fold_left]. unfold insert_at at 2. cbn [fst snd].
    by rewrite take_app_length, drop_app_length.
  - by rewrite decide_True by done.
Qed.

Definition unchanged (ch : ChangesResponse) (id : Z) : Prop :=
  (id ∉ cr_created ch) /\ (id ∉ cr_updated ch) /\ (id ∉ cr_destroyed ch).

(** Foo/queryChanges brings the client's copy up to date: if the objects
    that were not created, updated or destroyed are the same, in the same
    relative order, in the old and the new result, no created object was in
    the old result and no destroyed one is in the new, then dropping [removed]
    from the old result and inserting [added] at the given indexes yields the
    new result. *)
Theorem query_changes_converge ch old new total :
  (0 < cr_total_changes ch)%nat ->
  (forall id, id ∈ old -> id ∉ cr_created ch) -> (forall id, id ∈ new -> id ∉ cr_destroyed ch) ->
  filter (unchanged ch) old = filter (unchanged ch) new ->
  apply_query_changes (query_changes ch None (Some (new, total, false))) old = new.
Proof.
  intros Hpos Hold Hnew Heq. unfold apply_query_changes, query_changes.
  rewrite (proj2 (Nat.ltb_lt _ _) Hpos). cbn [negb qc_added qc_removed].
  etrans; [|apply (added_items_insert (fun id => bool_decide (id ∈ cr_created ch) ||
    bool_decide (id ∈ cr_updated ch)) [] new)]. cbn [length app]. f_equal.
  rewrite (filter_on _ (unchanged ch) old), Heq; [symmetry; apply filter_on|].
  - intros id Hin. specialize (Hnew id Hin). unfold unchanged.
    rewrite orb_false_iff, !bool_decide_eq_false. tauto.
  - intros id Hin. specialize (Hold id Hin). unfold unchanged. rewrite not_elem_of_app. tauto.
Qed.

Lemma query_changes_converge_witness :
  apply_query_changes
    (query_changes (mkResponse (Exact 1) (Exact 2) false [9] [5] [7] 3 false) None
       (Some ([5; 3; 9; 4], None, false))) [3; 7; 4; 5] = [5; 3; 9; 4].
Proof.
  apply (query_changes_converge (mkResponse (Exact 1) (Exact 2) false [9] [5] [7] 3 false)).
  - cbn. lia.
  - intros id. cbn [cr_created cr_destroyed]. rewrite !elem_of_cons, !elem_of_nil. lia.
  - intros id. cbn [cr_created cr_destroyed]. rewrite !elem_of_cons, !elem_of_nil. lia.
  - by vm_compute.
Defined.
