(* ===== verification/JmapQuery.v ===== *)
(** * Foo/query: components/jmap/src/jmap_store/query.rs, request/query.rs

    The filter of a request is turned into a store filter with an explicit
    stack, the sorted result of the store is restricted to the documents the
    caller may see, and a window of it is returned. *)

From S2P Require Import Prelude Leb128 Serialize Types Keys BitList KV Read Query.
From S2P Require Import Bitmap Base32 JmapId.

(** ** Parsing filters *)

(** [query::Filter] over the conditions of an object type. *)
Inductive JFilter (C : Type) : Type :=
| JOperator (operator : LogicalOperator) (conditions : list (JFilter C))
| JCondition (cond : C)
| JEmpty.
Arguments JOperator {C} operator conditions.
Arguments JCondition {C} cond.
Arguments JEmpty {C}.

Record QueryState (C : Type) : Type := mkQueryState {
  qs_op : LogicalOperator; qs_terms : list Filter; qs_it : list (JFilter C) }.
Arguments mkQueryState {C} qs_op qs_terms qs_it.

Definition is_filter_none (f : Filter) : bool := match f with FNone => true | _ => false end.

Section ParseFilter.
Context {C : Type}.
Variable parse_fnc : C -> res Filter.

(** The filter of a finished group. *)
Definition group_filter (op : LogicalOperator) (terms : list Filter) : Filter :=
  match terms with [] => FNone | _ => Operator op terms end.

Definition parse_step (state : QueryState C) (stack : list (QueryState C))
    : res ((QueryState C * list (QueryState C)) + Filter) :=
  let '(mkQueryState op terms it) := state in
  match it with
  | JOperator operator conditions :: it =>
      Ok (inl (mkQueryState operator [] conditions, mkQueryState op terms it :: stack))
  | JCondition cond :: it => f ← parse_fnc cond; Ok (inl (mkQueryState op (terms ++ [f]) it, stack))
  | JEmpty :: it => Ok (inl (mkQueryState op terms it, stack))
  | [] =>
      let filter := group_filter op terms in
      match stack with
      | mkQueryState prev_op prev_terms prev_it :: stack =>
          Ok (inl (mkQueryState prev_op
                     (if is_filter_none filter then prev_terms else prev_terms ++ [filter]) prev_it,
                   stack))
      | [] => Ok (inr filter)
      end
  end.

Fixpoint parse_run (fuel : nat) (state : QueryState C) (stack : list (QueryState C))
    : option (res Filter) :=
  match fuel with
  | O => None
  | S fuel =>
      match parse_step state stack with
      | Ok (inl (state, stack)) => parse_run fuel state stack
      | Ok (inr filter) => Some (Ok filter)
      | Err => Some Err
      | Panic => Some Panic
      end
  end.

(** [parse_filter]; a request without filter keeps [Filter::None]. *)
Definition parse_filter (fuel : nat) (filter : option (JFilter C)) : option (res Filter) :=
  match filter with
  | Some (JOperator op conditions) => parse_run fuel (mkQueryState op [] conditions) []
  | Some condition => parse_run fuel (mkQueryState And [] [condition]) []
  | None => Some (Ok FNone)
  end.
End ParseFilter.

(** ** The window of a result *)

Record QueryResponse : Type := mkQueryResponse {
  qr_position : Z; qr_ids : list Z; qr_total : option nat; qr_limit : option Z }.

(** The variables of the loop of [paginate]. *)
Record window : Type := mkWindow {
  w_ids : list Z; w_position : Z; w_anchor_offset : Z; w_anchor_found : bool }.

Definition limit_reached (limit : Z) (ids : list Z) : bool :=
  (0 <? limit) && (Z.of_nat (length ids) =? limit).

Fixpoint paginate_loop (limit : Z) (anchor : option Z) (jmap_ids : list Z) (w : window) : window :=
  match jmap_ids with
  | [] => w
  | jmap_id :: jmap_ids =>
      let '(mkWindow ids position anchor_offset anchor_found) := w in
      match anchor with
      | None =>
          if 0 <? position then
            paginate_loop limit anchor jmap_ids (mkWindow ids (position - 1) anchor_offset anchor_found)
          else
            let w := mkWindow (ids ++ [jmap_id]) position anchor_offset anchor_found in
            if (position =? 0) && limit_reached limit (ids ++ [jmap_id]) then w
            else paginate_loop limit anchor jmap_ids w
      | Some anchor_id =>
          if 0 <=? anchor_offset then
            if negb anchor_found && negb (jmap_id =? anchor_id) then
              paginate_loop limit anchor jmap_ids w
            else if 0 <? anchor_offset then
              paginate_loop limit anchor jmap_ids (mkWindow ids position (anchor_offset - 1) true)
            else
              let w := mkWindow (ids ++ [jmap_id]) position anchor_offset true in
              if limit_reached limit (ids ++ [jmap_id]) then w
              else paginate_loop limit anchor jmap_ids w
          else if jmap_id =? anchor_id then mkWindow (ids ++ [jmap_id]) anchor_offset anchor_offset true
          else paginate_loop limit anchor jmap_ids (mkWindow (ids ++ [jmap_id]) position anchor_offset false)
      end
  end.

(** [paginate]: the position and ids of the response; [Err] is AnchorNotFound. *)
Definition paginate (jmap_ids : list Z) (limit position : Z) (anchor : option Z) (anchor_offset : Z)
    : res (Z * list Z) :=
  let w := paginate_loop limit anchor jmap_ids (mkWindow [] position anchor_offset false) in
  let has_anchor := bool_decide (is_Some anchor) in
  if negb has_anchor || w_anchor_found w then
    if negb has_anchor && (0 <=? position) then
      Ok (if w_position w =? 0 then position else 0, w_ids w)
    else if 0 <=? w_position w then Ok (w_position w, w_ids w)
    else
      let len := Z.of_nat (length (w_ids w)) in
      let offset := Z.abs (w_position w) in
      let start_offset := if offset <? len then len - offset else 0 in
      let end_offset := if 0 <? limit then Z.min (start_offset + limit) len else len in
      Ok (start_offset, take (Z.to_nat (end_offset - start_offset)) (drop (Z.to_nat start_offset) (w_ids w)))
  else Err.

(** ** The query method *)

(** Iterating the sorted documents through [filter_map_fnc]; an error ends the
    iteration. *)
Fixpoint iterate_ids (filter_map_fnc : DocumentId -> res (option Z)) (docs : list DocumentId) : list Z :=
  match docs with
  | [] => []
  | d :: docs =>
      match filter_map_fnc d with
      | Ok (Some id) => id :: iterate_ids filter_map_fnc docs
      | Ok None => iterate_ids filter_map_fnc docs
      | _ => []
      end
  end.

Record QueryArgs : Type := mkQueryArgs {
  qa_limit : option Z; qa_position : option Z; qa_anchor : option Z; qa_anchor_offset : option Z;
  qa_calculate_total : option bool }.

(** The ids of the result the caller may see. *)
Definition visible_ids (shared_documents : option (option (gset Z)))
    (filter_map_fnc : DocumentId -> res (option Z)) (results : list DocumentId) : list Z :=
  let ids := iterate_ids filter_map_fnc results in
  match shared_documents with
  | Some shared => filter (fun id => shared_has_access shared (id_document_id id) = true) ids
  | None => ids
  end.

(** [query] on the sorted documents of the result; [shared_documents] is given
    when the account is shared with the caller. *)
Definition query (query_max_results : Z) (request : QueryArgs) (shared_documents : option (option (gset Z)))
    (filter_map_fnc : DocumentId -> res (option Z)) (extra_filters : option (list Z -> res (list Z)))
    (results : list DocumentId) : res QueryResponse :=
  let total_if (n : nat) := if default false (qa_calculate_total request) then Some n else None in
  if match shared_documents with Some shared => negb (has_some_access shared) | None => false end
  then Ok (mkQueryResponse 0 [] None None)
  else if bool_decide (qa_limit request = Some 0) then
    Ok (mkQueryResponse 0 [] (total_if (length results)) None)
  else
    let limit := match qa_limit request with
                 | Some limit => Z.min limit query_max_results
                 | None => query_max_results
                 end in
    let position := default 0 (qa_position request) in
    let anchor_offset := default 0 (qa_anchor_offset request) in
    let ids := visible_ids shared_documents filter_map_fnc results in
    '(ids, total_results) ←
      match extra_filters with
      | Some extra_filters => ids ← extra_filters ids; Ok (ids, length ids)
      | None => Ok (ids, length results)
      end;
    '(position, ids) ← paginate ids limit position (qa_anchor request) anchor_offset;
    Ok (mkQueryResponse position ids (total_if total_results)
          (if (0 <? limit) && (limit <? Z.of_nat total_results) then Some limit else None)).

(** ** Recursive parsing *)

Section JFilterInd.
Context {C : Type}.
Variables (P : JFilter C -> Prop)
  (HO : forall op conds, Forall P conds -> P (JOperator op conds))
  (HC : forall c, P (JCondition c)) (HE : P JEmpty).

Fixpoint JFilter_nested_ind (f : JFilter C) : P f :=
  match f with
  | JOperator op conds =>
      HO op conds ((fix go l : Forall P l :=
        match l with
        | [] => Forall_nil_2 P
        | f :: l => Forall_cons_2 P f l (JFilter_nested_ind f) (go l)
        end) conds)
  | JCondition c => HC c
  | JEmpty => HE
  end.
End JFilterInd.

Fixpoint jfilter_cost {C} (f : JFilter C) : nat :=
  match f with
  | JOperator _ conds => 2 + foldr (fun f n => jfilter_cost f + n)%nat 0%nat conds
  | _ => 1
  end.
Definition jconditions_cost {C} (l : list (JFilter C)) : nat :=
  foldr (fun f n => jfilter_cost f + n)%nat 0%nat l.
Definition parse_fuel {C} (f : JFilter C) : nat := S (jfilter_cost f).

Section Parsing.
Context {C : Type} (parse_fnc : C -> res Filter).

(** The terms a filter adds to its group: none when it is empty. *)
Fixpoint terms_of (f : JFilter C) : res (list Filter) :=
  match f with
  | JOperator op conds =>
      terms ← (fix go (l : list (JFilter C)) {struct l} : res (list Filter) :=
        match l with
        | [] => Ok []
        | f :: l => ts ← terms_of f; rest ← go l; Ok (ts ++ rest)
        end) conds;
      Ok match group_filter op terms with FNone => [] | filter => [filter] end
  | JCondition c => f ← parse_fnc c; Ok [f]
  | JEmpty => Ok []
  end.

Fixpoint all_terms (l : list (JFilter C)) : res (list Filter) :=
  match l with
  | [] => Ok []
  | f :: l => ts ← terms_of f; rest ← all_terms l; Ok (ts ++ rest)
  end.

Lemma terms_of_operator op conds :
  terms_of (JOperator op conds) =
  (terms ← all_terms conds; Ok match group_filter op terms with FNone => [] | filter => [filter] end).
Proof. done. Qed.

Abbreviation prun := (parse_run parse_fnc).

Definition parses_filter (f : JFilter C) : Prop := forall op terms it stack k,
  exists k', (k <= k')%nat /\
  prun (jfilter_cost f + k) (mkQueryState op terms (f :: it)) stack =
  match terms_of f with
  | Ok ts => prun k' (mkQueryState op (terms ++ ts) it) stack
  | Err => Some Err
  | Panic => Some Panic
  end.

Lemma parse_conditions l op terms stack k :
  Forall parses_filter l ->
  exists k', (k <= k')%nat /\
  prun (jconditions_cost l + k) (mkQueryState op terms l) stack =
  match all_terms l with
  | Ok ts => prun k' (mkQueryState op (terms ++ ts) []) stack
  | Err => Some Err
  | Panic => Some Panic
  end.
Proof.
  intros Hl. revert terms. induction Hl as [|f l Hf _ IH] in k |- *; intros terms.
  - exists k. cbn. by rewrite app_nil_r.
  - unfold jconditions_cost. cbn [foldr]. rewrite <- Nat.add_assoc. fold (jconditions_cost l).
    destruct (Hf op terms l stack (jconditions_cost l + k)%nat) as (k1 & Hk1 & ->).
    cbn [all_terms]. destruct (terms_of f) as [ts| |]; cbn; [|by exists k..].
    destruct (IH (k1 - jconditions_cost l)%nat (terms ++ ts)) as (k2 & Hk2 & E).
    replace (jconditions_cost l + (k1 - jconditions_cost l))%nat with k1 in E by lia. rewrite E.
    exists k2. split; [lia|]. destruct (all_terms l); cbn; [|done..]. by rewrite app_assoc.
Qed.

Lemma parse_any f : parses_filter f.
Proof.
  induction f as [operator conds IH|c|] using JFilter_nested_ind; intros op terms it stack k.
  - rewrite terms_of_operator. cbn [jfilter_cost]. fold (jconditions_cost conds).
    replace (2 + jconditions_cost conds + k)%nat with (S (jconditions_cost conds + S k)) by lia.
    cbn [parse_run parse_step].
    destruct (parse_conditions conds operator [] (mkQueryState op terms it :: stack) (S k) IH)
      as (k1 & Hk1 & ->).
    destruct (all_terms conds) as [ts| |]; cbn [mbind res_bind app]; [|by exists k..].
    destruct k1 as [|k1]; [lia|]. exists k1. split; [lia|]. cbn [parse_run parse_step].
    destruct ts; cbn; [by rewrite app_nil_r|done].
  - exists k. split; [done|]. cbn [jfilter_cost Nat.add parse_run parse_step terms_of].
    by destruct (parse_fnc c).
  - exists k. split; [done|]. cbn. by rewrite app_nil_r.
Qed.

(** The filter of a request. *)
Definition parsed (filter : option (JFilter C)) : res Filter :=
  match filter with
  | Some (JOperator op conds) => group_filter op <$> all_terms conds
  | Some f => group_filter And <$> all_terms [f]
  | None => Ok FNone
  end.

Lemma parse_whole fuel op l :
  (jconditions_cost l < fuel)%nat ->
  prun fuel (mkQueryState op [] l) [] = Some (group_filter op <$> all_terms l).
Proof.
  intros Hfuel. assert (Forall parses_filter l) as Hl by (apply Forall_forall; intros; apply parse_any).
  destruct (parse_conditions l op [] [] (fuel - jconditions_cost l)%nat Hl) as (k & Hk & E).
  replace (jconditions_cost l + (fuel - jconditions_cost l))%nat with fuel in E by lia. rewrite E.
  destruct (all_terms l); cbn; [|done..]. destruct k; [lia|done].
Qed.

Lemma parse_filter_parsed fuel filter :
  match filter with Some f => (parse_fuel f <= fuel)%nat | None => True end ->
  parse_filter parse_fnc fuel filter = Some (parsed filter).
Proof.
  unfold parse_fuel. destruct filter as [[op conds|c|]|]; cbn; intros Hfuel; [| | |done].
  - apply parse_whole. fold (jconditions_cost conds) in Hfuel. lia.
  - apply (parse_whole fuel And [JCondition c]). cbn. lia.
  - apply (parse_whole fuel And [JEmpty]). cbn. lia.
Qed.
End Parsing.

(** ** The meaning of a request's filter *)

Section Meaning.
Context `{Roaring} `{Store DB} `{!Search DB} {C : Type}.
Variables (db : DB) (a : AccountId) (c : Collection.t) (document_ids : gset Z).
Variable parse_fnc : C -> res Filter.

(** Every condition has a store filter that evaluates within the collection. *)
Definition conditions_ok : Prop :=
  forall cond, exists f, parse_fnc cond = Ok f /\ filter_wf db a c document_ids f.

Definition cond_set (cond : C) : gset Z :=
  match parse_fnc cond with Ok f => denote db a c document_ids f | _ => ∅ end.

Definition combine_sets (op : LogicalOperator) (sets : list (gset Z)) : option (gset Z) :=
  match sets with
  | [] => None
  | _ => Some match op with
              | And => foldr (∩) document_ids sets
              | Or => foldr (∪) ∅ sets
              | Not => document_ids ∖ foldr (∪) ∅ sets
              end
  end.

(** The documents a filter selects; [None] when it holds no condition, and
    such parts do not count in their group. *)
Fixpoint meaning (f : JFilter C) : option (gset Z) :=
  match f with
  | JOperator op conds =>
      combine_sets op (foldr (fun f sets => option_list (meaning f) ++ sets) [] conds)
  | JCondition cond => Some (cond_set cond)
  | JEmpty => None
  end.

Hypothesis Hcond : conditions_ok.

Abbreviation wf := (filter_wf db a c document_ids).
Abbreviation den := (denote db a c document_ids).

Definition means (ts : list Filter) (sets : list (gset Z)) : Prop :=
  Forall wf ts /\ map den ts = sets.

Lemma all_wf_Forall ts : Forall wf ts -> all_wf db a c document_ids ts.
Proof. induction 1; [done|]. by split. Qed.

Lemma denote_group op t ts :
  Some (den (Operator op (t :: ts))) = combine_sets op (map den (t :: ts)).
Proof.
  rewrite denote_operator. unfold combine_sets, inter_of, union_of. cbn [map]. f_equal.
  destruct op; cbn; do 2 f_equal; induction ts as [|t' ts IH]; cbn; congruence.
Qed.

Lemma group_means op ts sets :
  means ts sets ->
  means match group_filter op ts with FNone => [] | filter => [filter] end
    (option_list (combine_sets op sets)).
Proof.
  intros [Hwf <-]. destruct ts as [|t ts]; [by split|].
  change (match group_filter op (t :: ts) with FNone => [] | filter => [filter] end) with [Operator op (t :: ts)].
  rewrite <- denote_group. split; [|done]. constructor; [|done]. split; [done|]. by apply all_wf_Forall.
Qed.

Definition sets_of (conds : list (JFilter C)) : list (gset Z) :=
  foldr (fun f sets => option_list (meaning f) ++ sets) [] conds.

Lemma all_terms_mean conds :
  Forall (fun f => exists ts, terms_of parse_fnc f = Ok ts /\ means ts (option_list (meaning f))) conds ->
  exists ts, all_terms parse_fnc conds = Ok ts /\ means ts (sets_of conds).
Proof.
  induction 1 as [|f conds (ts1 & H1 & Hwf1 & Hm1) _ (ts2 & H2 & Hwf2 & Hm2)]; [by exists []|].
  exists (ts1 ++ ts2). cbn [all_terms sets_of foldr]. rewrite H1, H2. split; [done|]. split.
  - by apply Forall_app.
  - by rewrite map_app, Hm1, Hm2.
Qed.

Lemma terms_mean f : exists ts, terms_of parse_fnc f = Ok ts /\ means ts (option_list (meaning f)).
Proof.
  induction f as [op conds IH|cond|] using JFilter_nested_ind.
  - destruct (all_terms_mean conds IH) as (ts & Hts & Hm).
    rewrite terms_of_operator, Hts. eexists. split; [done|]. by apply group_means.
  - destruct (Hcond cond) as (f & Hf & Hwf). exists [f]. cbn. unfold cond_set. rewrite Hf.
    split; [done|]. by split; [constructor|].
  - by exists [].
Qed.

Definition wf_or_none (f : Filter) : Prop := match f with FNone => True | _ => wf f end.

(** A group of terms and the sets they denote. *)
Lemma group_denotes op ts sets :
  means ts sets ->
  wf_or_none (group_filter op ts) /\
  den (group_filter op ts) = default document_ids (combine_sets op sets).
Proof.
  intros [Hwf <-]. destruct ts as [|t ts]; [done|]. rewrite <- denote_group. split; [|done].
  split; [done|]. by apply all_wf_Forall.
Qed.

Lemma single_meaning f :
  match f with JOperator _ _ => False | _ => True end ->
  default document_ids (combine_sets And (sets_of [f])) = default document_ids (meaning f).
Proof.
  destruct f as [|cond|]; [done| |done]. intros _. cbn. unfold cond_set.
  destruct (Hcond cond) as (f & -> & Hwf). apply denote_subset in Hwf. set_solver.
Qed.

Lemma parsed_means filter :
  exists f, parsed parse_fnc filter = Ok f /\
    wf_or_none f /\
    den f = default document_ids (filter ≫= meaning).
Proof.
  assert (forall conds, exists ts, all_terms parse_fnc conds = Ok ts /\ means ts (sets_of conds)) as Hall
    by (intros conds; apply all_terms_mean, Forall_forall; intros; apply terms_mean).
  destruct filter as [f|]; [|by exists FNone]. cbn [mbind option_bind].
  destruct f as [op conds|cond|]; cbn [parsed].
  - destruct (Hall conds) as (ts & -> & Hm). eexists. split; [done|]. by apply group_denotes.
  - rewrite <- single_meaning by done. destruct (Hall [JCondition cond]) as (ts & -> & Hm).
    eexists. split; [done|]. by apply group_denotes.
  - rewrite <- single_meaning by done. destruct (Hall [JEmpty]) as (ts & -> & Hm).
    eexists. split; [done|]. by apply group_denotes.
Qed.
End Meaning.

(** ** Windows *)

Definition limited (limit : Z) (ids : list Z) : list Z :=
  if 0 <? limit then take (Z.to_nat limit) ids else ids.

(** Collecting from here on: up to the limit. *)
Lemma limited_cons limit ids x l :
  Z.of_nat (length ids) < limit \/ limit <= 0 ->
  limited limit (ids ++ x :: l) =
  if limit_reached limit (ids ++ [x]) then ids ++ [x] else limited limit ((ids ++ [x]) ++ l).
Proof.
  intros Hl. unfold limited, limit_reached. rewrite <- app_assoc. cbn [app]. rewrite length_app. cbn [length].
  destruct (Z.ltb_spec 0 limit); cbn [andb]; [|done].
  destruct (Z.eqb_spec (Z.of_nat (length ids + 1)) limit); [|done].
  replace (Z.to_nat limit) with (length (ids ++ [x])) by (rewrite length_app; cbn; lia).
  change (x :: l) with ([x] ++ l). by rewrite app_assoc, take_app_length.
Qed.

Lemma not_reached limit ids x :
  Z.of_nat (length ids) < limit \/ limit <= 0 -> limit_reached limit (ids ++ [x]) = false ->
  Z.of_nat (length (ids ++ [x])) < limit \/ limit <= 0.
Proof.
  unfold limit_reached. rewrite length_app. cbn [length].
  rewrite andb_false_iff, Z.ltb_ge, Z.eqb_neq. lia.
Qed.

(** No anchor and a position that is not negative. *)
Lemma paginate_collect limit l ids off found :
  Z.of_nat (length ids) < limit \/ limit <= 0 ->
  paginate_loop limit None l (mkWindow ids 0 off found) =
  mkWindow (limited limit (ids ++ l)) 0 off found.
Proof.
  revert ids. induction l as [|x l IH]; intros ids Hl; cbn [paginate_loop].
  - rewrite app_nil_r. unfold limited. destruct (Z.ltb_spec 0 limit); [|done].
    by rewrite take_ge by lia.
  - cbn [Z.ltb Z.eqb Z.compare andb]. rewrite limited_cons by done.
    destruct (limit_reached limit (ids ++ [x])) eqn:E; [done|]. apply IH. by eapply not_reached.
Qed.

Lemma paginate_skip limit l p off found :
  0 <= p ->
  paginate_loop limit None l (mkWindow [] p off found) =
  mkWindow (limited limit (drop (Z.to_nat p) l)) (Z.max 0 (p - Z.of_nat (length l))) off found.
Proof.
  revert p. induction l as [|x l IH]; intros p Hp.
  - cbn [paginate_loop length]. rewrite drop_nil. f_equal; [|lia]. unfold limited.
    by destruct (0 <? limit); rewrite ?take_nil.
  - destruct (Z.eq_dec p 0) as [->|Hne].
    + rewrite paginate_collect by (cbn; lia). done.
    + cbn [paginate_loop]. rewrite (proj2 (Z.ltb_lt 0 p)) by lia. rewrite IH by lia.
      replace (Z.to_nat p) with (S (Z.to_nat (p - 1))) by lia. cbn [drop length]. f_equal. lia.
Qed.

(** A negative position collects everything. *)
Lemma paginate_all limit l ids p off found :
  p < 0 -> paginate_loop limit None l (mkWindow ids p off found) = mkWindow (ids ++ l) p off found.
Proof.
  intros Hp. revert ids. induction l as [|x l IH]; intros ids; cbn [paginate_loop].
  - by rewrite app_nil_r.
  - rewrite (proj2 (Z.ltb_ge 0 p)), (proj2 (Z.eqb_neq p 0)) by lia. cbn [andb].
    by rewrite IH, <- app_assoc.
Qed.

(** An anchor with an offset that is not negative. *)
Lemma paginate_anchor_found limit x l ids off p :
  0 <= off -> (Z.of_nat (length ids) < limit \/ limit <= 0) -> (off = 0 \/ ids = []) ->
  exists off', paginate_loop limit (Some x) l (mkWindow ids p off true) =
  mkWindow (limited limit (ids ++ drop (Z.to_nat off) l)) p off' true.
Proof.
  revert ids off. induction l as [|y l IH]; intros ids off Hoff Hl Hz; cbn [paginate_loop].
  - exists off. rewrite drop_nil, app_nil_r. unfold limited. destruct (Z.ltb_spec 0 limit); [|done].
    by rewrite take_ge by lia.
  - rewrite (proj2 (Z.leb_le 0 off)) by done. cbn [negb andb].
    destruct (Z.ltb_spec 0 off) as [Hpos|Hneg].
    + destruct Hz as [?| ->]; [lia|]. destruct (IH [] (off - 1)) as [off' ->]; [lia|done|by right|].
      exists off'. replace (Z.to_nat off) with (S (Z.to_nat (off - 1))) by lia. done.
    + replace off with 0 by lia. change (drop (Z.to_nat 0) (y :: l)) with (y :: l).
      pose proof (limited_cons limit ids y l Hl) as Hc.
      destruct (limit_reached limit (ids ++ [y])) eqn:E; [exists 0; by rewrite Hc|].
      destruct (IH (ids ++ [y]) 0) as [off' ->]; [lia|by eapply not_reached|by left|].
      exists off'. by rewrite Hc.
Qed.

Lemma paginate_anchor limit x l1 l2 off p :
  0 <= off -> x ∉ l1 ->
  exists off', paginate_loop limit (Some x) (l1 ++ x :: l2) (mkWindow [] p off false) =
  mkWindow (limited limit (drop (Z.to_nat off) (x :: l2))) p off' true.
Proof.
  intros Hoff. induction l1 as [|y l1 IH]; intros Hx.
  - pose proof (paginate_anchor_found limit x (x :: l2) [] off p Hoff ltac:(cbn; lia) ltac:(by right)) as [off' E].
    exists off'. rewrite <- (app_nil_l (drop _ _)), <- E. cbn [app paginate_loop].
    by rewrite (proj2 (Z.leb_le 0 off)), Z.eqb_refl.
  - apply not_elem_of_cons in Hx as [Hxy Hx]. cbn [app paginate_loop].
    rewrite (proj2 (Z.leb_le 0 off)), (proj2 (Z.eqb_neq y x)) by done. cbn [negb andb]. by apply IH.
Qed.

Lemma paginate_no_anchor limit x l ids off p :
  x ∉ l -> w_anchor_found (paginate_loop limit (Some x) l (mkWindow ids p off false)) = false.
Proof.
  revert ids. induction l as [|y l IH]; intros ids Hx; [done|].
  apply not_elem_of_cons in Hx as [Hxy Hx]. cbn [paginate_loop].
  rewrite (proj2 (Z.eqb_neq y x)) by done. cbn [negb andb]. destruct (0 <=? off); by apply IH.
Qed.

(** An anchor with a negative offset: everything up to the anchor. *)
Lemma paginate_before_anchor limit x l1 l2 ids off p :
  off < 0 -> x ∉ l1 ->
  paginate_loop limit (Some x) (l1 ++ x :: l2) (mkWindow ids p off false) =
  mkWindow (ids ++ l1 ++ [x]) off off true.
Proof.
  intros Hoff. revert ids. induction l1 as [|y l1 IH]; intros ids Hx; cbn [app paginate_loop].
  - by rewrite (proj2 (Z.leb_gt 0 off)), Z.eqb_refl.
  - apply not_elem_of_cons in Hx as [Hxy Hx].
    rewrite (proj2 (Z.leb_gt 0 off)), (proj2 (Z.eqb_neq y x)) by done.
    rewrite IH by done. by rewrite <- app_assoc.
Qed.

(** The slice of [paginate]. *)
Lemma window_limited limit start ids :
  0 <= start <= Z.of_nat (length ids) ->
  take (Z.to_nat ((if 0 <? limit then Z.min (start + limit) (Z.of_nat (length ids))
                   else Z.of_nat (length ids)) - start)) (drop (Z.to_nat start) ids) =
  limited limit (drop (Z.to_nat start) ids).
Proof.
  intros Hs. unfold limited. destruct (Z.ltb_spec 0 limit).
  - destruct (Z.min_spec (start + limit) (Z.of_nat (length ids))) as [[? ->]|[? ->]].
    + f_equal. lia.
    + rewrite !take_ge; rewrite ?length_drop; [done|lia..].
  - apply take_ge. rewrite length_drop. lia.
Qed.

Lemma paginate_loop_subset limit anchor l w :
  w_ids (paginate_loop limit anchor l w) ⊆ w_ids w ++ l.
Proof.
  revert w. induction l as [|x l IH]; intros [ids p off found]; cbn [paginate_loop].
  - by rewrite app_nil_r.
  - assert (forall ids' p off found, ids' ⊆ ids ++ [x] ->
      w_ids (paginate_loop limit anchor l (mkWindow ids' p off found)) ⊆ ids ++ x :: l) as Hnext.
    { intros ids' p' off' found' Hs. etrans; [apply IH|]. cbn [w_ids].
      change (x :: l) with ([x] ++ l). rewrite app_assoc. set_solver. }
    assert (ids ++ [x] ⊆ ids ++ x :: l) as Hx by set_solver.
    assert (ids ⊆ ids ++ [x]) as Hi by set_solver.
    destruct anchor as [y|]; repeat case_match; cbn [w_ids]; try done; by apply Hnext.
Qed.

Lemma paginate_subset ids limit p anchor off pos page id :
  paginate ids limit p anchor off = Ok (pos, page) -> id ∈ page -> id ∈ ids.
Proof.
  intros Hp Hin. apply (paginate_loop_subset limit anchor ids (mkWindow [] p off false)).
  unfold paginate in Hp. set (w := paginate_loop _ _ _ _) in *.
  repeat case_match; try done; injection Hp as _ <-; try done.
  all: match type of Hin with _ ∈ take ?n (drop ?m ?l) =>
    rewrite <- (take_drop m l), <- (take_drop n (drop m l)), !elem_of_app end;
    right; by left.
Qed.

(** ** Properties *)

(** C2. From the request to the result set: for every filter tree of a request
    whose conditions have well-formed store filters, [parse_filter] terminates
    with a store filter, and evaluating it selects what the tree means: AND is
    intersection, OR union, NOT the complement of the union within the
    collection; empty filters and groups are left out of their group, and a
    request without any condition selects every document. *)
Theorem jmap_filter_meaning `{Roaring} `{Store DB} `{!Search DB} {C} (db : DB) a c ids
    (parse_fnc : C -> res Filter) (filter : option (JFilter C)) fuel :
  conditions_ok db a c ids parse_fnc ->
  match filter with Some f => (parse_fuel f <= fuel)%nat | None => True end ->
  exists f, parse_filter parse_fnc fuel filter = Some (Ok f) /\
    forall fuel', (query_fuel f <= fuel')%nat ->
    query_results db a c ids fuel' f =
      Some (Ok (default ids (filter ≫= meaning db a c ids parse_fnc))).
Proof.
  intros Hcond Hfuel. destruct (parsed_means db a c ids parse_fnc Hcond filter) as (f & Hf & Hwf & Hden).
  exists f. rewrite parse_filter_parsed, Hf by done. split; [done|]. intros fuel' Hfuel'.
  rewrite query_results_reference, reference_denote, Hden by done. done.
Qed.

Import QuerySample.

(** Conditions that are sets of documents 1 and 2. *)
Definition pair_subset : Type := {s : gset Z | s ⊆ {[1; 2]}}.
Lemma two_in_pair : ({[2]} : gset Z) ⊆ {[1; 2]}.
Proof. set_solver. Qed.
Definition only_two : pair_subset := exist (fun s : gset Z => s ⊆ {[1; 2]}) {[2]} two_in_pair.

Lemma jmap_filter_meaning_witness :
  exists f,
    parse_filter (fun s : pair_subset => Ok (DocumentSet (proj1_sig s))) 9
      (Some (JOperator Not [JEmpty; JOperator Or []; JCondition only_two])) = Some (Ok f) /\
    forall fuel', (query_fuel f <= fuel')%nat ->
    query_results QuerySample.db 7 Collection.Mail {[1; 2]} fuel' f = Some (Ok {[1]}).
Proof.
  destruct (jmap_filter_meaning QuerySample.db 7 Collection.Mail {[1; 2]}
    (fun s : pair_subset => Ok (DocumentSet (proj1_sig s)))
    (Some (JOperator Not [JEmpty; JOperator Or []; JCondition only_two])) 9) as (f & Hf & Hq).
  - intros [s Hs]. eexists. split; [done|]. exact Hs.
  - vm_compute. lia.
  - exists f. split; [exact Hf|]. intros fuel' Hfuel. rewrite (Hq fuel' Hfuel). by vm_compute.
Defined.

(** The window of a result: without anchor, a position from the start or
    (negative) from the end selects the ids from there up to the limit; with
    an anchor and an offset that is not negative, the ids from that many
    places after the anchor; a missing anchor is an error. *)
Theorem paginate_window ids limit position anchor_offset x l1 l2 :
  (0 <= position ->
   paginate ids limit position None anchor_offset =
     Ok (if position <=? Z.of_nat (length ids) then position else 0,
         limited limit (drop (Z.to_nat position) ids))) /\
  (position < 0 ->
   let start := Z.max 0 (Z.of_nat (length ids) + position) in
   paginate ids limit position None anchor_offset =
     Ok (start, limited limit (drop (Z.to_nat start) ids))) /\
  (0 <= anchor_offset -> 0 <= position -> x ∉ l1 ->
   paginate (l1 ++ x :: l2) limit position (Some x) anchor_offset =
     Ok (position, limited limit (drop (length l1 + Z.to_nat anchor_offset) (l1 ++ x :: l2)))) /\
  (x ∉ ids -> paginate ids limit position (Some x) anchor_offset = Err).
Proof.
  split_and!.
  - intros Hp. unfold paginate. rewrite paginate_skip by done. cbn [w_position w_ids w_anchor_found].
    rewrite bool_decide_eq_false_2 by by intros []. cbn [negb orb andb].
    rewrite (proj2 (Z.leb_le 0 position)) by done. do 2 f_equal.
    destruct (Z.leb_spec position (Z.of_nat (length ids)));
      [rewrite (proj2 (Z.eqb_eq _ 0)) by lia|rewrite (proj2 (Z.eqb_neq _ 0)) by lia]; done.
  - intros Hp. unfold paginate. rewrite paginate_all by done. cbn [w_position w_ids w_anchor_found app].
    rewrite bool_decide_eq_false_2 by by intros []. cbn [negb orb andb].
    rewrite (proj2 (Z.leb_gt 0 position)) by done.
    assert ((if Z.abs position <? Z.of_nat (length ids) then Z.of_nat (length ids) - Z.abs position else 0) =
      Z.max 0 (Z.of_nat (length ids) + position)) as -> by (destruct (Z.ltb_spec (Z.abs position) (Z.of_nat (length ids))); lia).
    do 2 f_equal. apply window_limited; lia.
  - intros Hoff Hp Hx. unfold paginate.
    destruct (paginate_anchor limit x l1 l2 anchor_offset position Hoff Hx) as [off' ->].
    cbn [w_position w_ids w_anchor_found]. rewrite bool_decide_eq_true_2 by done. cbn [negb orb andb].
    rewrite (proj2 (Z.leb_le 0 position)) by done. do 2 f_equal. by rewrite <- drop_drop, drop_app_length.
  - intros Hx. unfold paginate. rewrite paginate_no_anchor by done.
    by rewrite bool_decide_eq_true_2.
Qed.

Lemma paginate_window_witness :
  paginate [10; 11; 12; 13] 2 1 None 0 = Ok (1, [11; 12]) /\
  paginate [10; 11; 12; 13] 2 (-3) None 0 = Ok (1, [11; 12]) /\
  paginate [10; 11; 12; 13] 2 0 (Some 11) 1 = Ok (0, [12; 13]) /\
  paginate [10; 11; 12; 13] 2 0 (Some 99) 1 = Err.
Proof.
  pose proof (fun p o => paginate_window [10; 11; 12; 13] 2 p o 99 [] []) as H.
  split_and!; [by apply (H 1 0)|by apply (H (-3) 0)| |].
  - apply (paginate_window [] 2 0 1 11 [10] [12; 13]); [lia|lia|]. rewrite elem_of_cons, elem_of_nil. lia.
  - apply (H 0 1). rewrite !elem_of_cons, elem_of_nil. lia.
Defined.

(** With a negative anchor offset the window never reaches past the
    anchor: it starts at one place after the requested one, counted from the
    anchor, and ends at the anchor, whatever the limit and however many ids
    follow. *)
Theorem paginate_negative_anchor limit position anchor_offset x l1 l2 :
  anchor_offset < 0 -> x ∉ l1 ->
  let start := Z.max 0 (Z.of_nat (length l1) + 1 + anchor_offset) in
  paginate (l1 ++ x :: l2) limit position (Some x) anchor_offset =
  Ok (start, limited limit (drop (Z.to_nat start) (l1 ++ [x]))).
Proof.
  intros Hoff Hx start. unfold paginate. rewrite paginate_before_anchor by done.
  cbn [w_position w_ids w_anchor_found app]. rewrite bool_decide_eq_true_2 by done. cbn [negb orb andb].
  rewrite (proj2 (Z.leb_gt 0 anchor_offset)) by done.
  assert (Z.of_nat (length (l1 ++ [x])) = Z.of_nat (length l1) + 1) as Hlen by (rewrite length_app; cbn; lia).
  assert ((if Z.abs anchor_offset <? Z.of_nat (length (l1 ++ [x]))
    then Z.of_nat (length (l1 ++ [x])) - Z.abs anchor_offset else 0) = start) as ->
    by (rewrite Hlen; unfold start; destruct (Z.ltb_spec (Z.abs anchor_offset) (Z.of_nat (length l1) + 1)); lia).
  do 2 f_equal. apply window_limited; lia.
Qed.

Lemma paginate_negative_anchor_witness :
  paginate [10; 11; 12; 13; 14] 10 0 (Some 12) (-1) = Ok (2, [12]).
Proof.
  apply (paginate_negative_anchor 10 0 (-1) 12 [10; 11] [13; 14]); [lia|].
  rewrite !elem_of_cons, elem_of_nil. lia.
Defined.

(** C38. A caller only sees what is shared with it: when the account is shared
    with the caller rather than its own, every id returned belongs to a
    document of the shared set, with or without extra filters that select
    among the ids they are given. *)
Theorem query_only_shared max request shared filter_map extra results r :
  match extra with
  | Some f => forall ids ids', f ids = Ok ids' -> ids' ⊆ ids
  | None => True
  end ->
  query max request (Some shared) filter_map extra results = Ok r ->
  forall id, id ∈ qr_ids r -> shared_has_access shared (id_document_id id) = true.
Proof.
  intros Hextra. unfold query. destruct (has_some_access shared); cbn [negb];
    [|by intros [= <-] id ?%not_elem_of_nil].
  case_bool_decide; [by intros [= <-] id ?%not_elem_of_nil|].
  assert (forall id, id ∈ visible_ids (Some shared) filter_map results ->
    shared_has_access shared (id_document_id id) = true) as Hvis
    by (intros id; unfold visible_ids; by intros [? _]%list_elem_of_filter).
  set (ids := visible_ids _ _ _) in *.
  destruct (match extra with Some f => _ | None => _ end) as [[ids' total]| |] eqn:E;
    cbn [mbind res_bind]; [|done..].
  assert (ids' ⊆ ids) as Hsub.
  { destruct extra as [f|]; [|by injection E as <- <-].
    destruct (f ids) as [i| |] eqn:Ef; cbn in E; [|done..]. injection E as <- <-. by eapply Hextra. }
  destruct (paginate ids' _ _ _ _) as [[pos page]| |] eqn:Ep; cbn [mbind res_bind]; [|done..].
  intros [= <-] id Hin. cbn [qr_ids] in Hin. apply Hvis, Hsub. by eapply paginate_subset.
Qed.

(** The total that is reported without extra filters counts the documents
    of the result before those not shared with the caller are removed, so it
    tells the caller how many hidden documents match. *)
Theorem query_total_counts_hidden max request shared filter_map results r :
  query max request (Some shared) filter_map None results = Ok r ->
  has_some_access shared = true -> qa_calculate_total request = Some true ->
  qr_total r = Some (length results).
Proof.
  intros Hq Hs Hc. unfold query in Hq. rewrite Hs, Hc in Hq. cbn [negb default] in Hq.
  case_bool_decide; [by injection Hq as <-|]. cbn [mbind res_bind] in Hq.
  destruct (paginate _ _ _ _ _) as [[pos page]| |]; cbn in Hq; [|done..]. by injection Hq as <-.
Qed.

(** A result of three documents of which one is shared. *)
Definition shared_query : res QueryResponse :=
  query 100 (mkQueryArgs None None None None (Some true)) (Some (Some {[2]})) (fun d => Ok (Some d)) None
    [1; 2; 3].

Lemma query_only_shared_witness :
  exists r, shared_query = Ok r /\ qr_ids r = [2] /\
    forall id, id ∈ qr_ids r -> shared_has_access (Some {[2]}) (id_document_id id) = true.
Proof.
  eexists. split; [by vm_compute|]. split; [done|].
  apply (query_only_shared 100 (mkQueryArgs None None None None (Some true)) (Some {[2]})
    (fun d => Ok (Some d)) None [1; 2; 3]); [done|by vm_compute].
Defined.

Lemma query_total_counts_hidden_witness :
  exists r, shared_query = Ok r /\ qr_ids r = [2] /\ qr_total r = Some 3%nat.
Proof.
  eexists. split; [by vm_compute|]. split; [done|].
  apply (query_total_counts_hidden 100 (mkQueryArgs None None None None (Some true)) (Some {[2]})
    (fun d => Ok (Some d)) [1; 2; 3]); by vm_compute.
Defined.
