(* ===== verification/Acl.v ===== *)
(** * Access control lists: components/store/src/read/acl.rs

    A grant is an entry of the values column family: its key names the
    grantee, the owner, the collection and the document, its value is the set
    of rights. Rights are looked up per document or collected by scanning the
    keys of each principal the caller is a member of. *)

From S2P Require Import Prelude Leb128 Serialize Types Keys Bitmap BitList KV Read.

Section Acl.
Context `{Store DB}.
Implicit Types (db : DB).

(** [u64::deserialize] as [Bitmap]. *)
Definition acl_deserialize (value : list Z) : option Z := deserialize_le 8 value.

(** The collections a grant opens. *)
Definition granted_collections (acl : Z) (to_collection : Collection.t) : Z :=
  let collections := bm_new in
  let collections :=
    if bm_contains acl ACL.Read then bm_insert collections to_collection else collections in
  if bm_contains acl ACL.ReadItems && bool_decide (to_collection = Collection.Mailbox)
  then bm_insert collections Collection.Mail else collections.

(** Adding collections to the entry of an account, or a new entry. *)
Fixpoint add_sharing (shared_accounts : list (AccountId * Z)) (to_account_id : AccountId)
    (collections : Z) : list (AccountId * Z) :=
  match shared_accounts with
  | [] => [(to_account_id, collections)]
  | (account_id, b) :: shared_accounts =>
      if account_id =? to_account_id then (account_id, bm_union b collections) :: shared_accounts
      else (account_id, b) :: add_sharing shared_accounts to_account_id collections
  end.

Fixpoint shared_accounts_loop (member_of : list AccountId) (prefix : list Z)
    (it : list (list Z * list Z)) (shared_accounts : list (AccountId * Z))
    : res (list (AccountId * Z)) :=
  match it with
  | [] => Ok shared_accounts
  | (key, value) :: it =>
      if starts_with key prefix && (length prefix + 2 <? length key)%nat &&
         negb (key !!! length prefix =? 255)
      then
        '(to_account_id, to_collection, _) ← ok_or (ValueKey.deserialize_acl_target (drop (length prefix) key));
        acl ← ok_or (acl_deserialize value);
        let collections := granted_collections acl to_collection in
        shared_accounts_loop member_of prefix it
          (if bool_decide (to_account_id ∈ member_of) || bm_is_empty collections then shared_accounts
           else add_sharing shared_accounts to_account_id collections)
      else Ok shared_accounts
  end.

Fixpoint shared_accounts_of db (member_of members : list AccountId)
    (shared_accounts : list (AccountId * Z)) : res (list (AccountId * Z)) :=
  match members with
  | [] => Ok shared_accounts
  | account_id :: members =>
      let prefix := ValueKey.serialize_acl_prefix account_id U32_MAX Collection.None in
      shared_accounts ←
        shared_accounts_loop member_of prefix (db_iterator db Values prefix Forward) shared_accounts;
      shared_accounts_of db member_of members shared_accounts
  end.
Definition get_shared_accounts db (member_of : list AccountId) : res (list (AccountId * Z)) :=
  shared_accounts_of db member_of member_of [].

Fixpoint shared_documents_loop (prefix : list Z) (acls : Z) (it : list (list Z * list Z))
    (shared_documents : gset Z) : res (gset Z) :=
  match it with
  | [] => Ok shared_documents
  | (key, value) :: it =>
      if starts_with key prefix && (length prefix <? length key)%nat then
        '(document_id, _) ← ok_or (read_leb128 U32 (drop (length prefix) key));
        acl ← ok_or (acl_deserialize value);
        shared_documents_loop prefix acls it
          (if bm_is_empty (bm_intersection acl acls) then shared_documents
           else {[document_id]} ∪ shared_documents)
      else Ok shared_documents
  end.

Fixpoint shared_documents_of db (members : list AccountId) (to_account_id : AccountId)
    (to_collection : Collection.t) (acls : Z) (shared_documents : gset Z) : res (gset Z) :=
  match members with
  | [] => Ok shared_documents
  | account_id :: members =>
      let prefix := ValueKey.serialize_acl_prefix account_id to_account_id to_collection in
      shared_documents ←
        shared_documents_loop prefix acls (db_iterator db Values prefix Forward) shared_documents;
      shared_documents_of db members to_account_id to_collection acls shared_documents
  end.

Definition get_shared_documents db (member_of : list AccountId) (to_account_id : AccountId)
    (to_collection : Collection.t) (acls : Z) : res (option (gset Z)) :=
  shared_documents ← shared_documents_of db member_of to_account_id to_collection acls ∅;
  Ok (if negb (bool_decide (shared_documents = ∅)) then Some shared_documents else None).

Fixpoint get_acl_loop db (members : list AccountId) (to_account_id : AccountId)
    (to_collection : Collection.t) (to_document_id : DocumentId) (acl : Z) : res Z :=
  match members with
  | [] => Ok acl
  | account_id :: members =>
      item_acl ← get_as acl_deserialize db Values
        (ValueKey.serialize_acl account_id to_account_id to_collection to_document_id);
      get_acl_loop db members to_account_id to_collection to_document_id
        (match item_acl with Some item_acl => bm_union acl item_acl | None => acl end)
  end.
Definition get_acl db (member_of : list AccountId) (to_account_id : AccountId)
    (to_collection : Collection.t) (to_document_id : DocumentId) : res Z :=
  get_acl_loop db member_of to_account_id to_collection to_document_id bm_new.
End Acl.

(** ** Grants in the store *)

Definition acl_prefix (g : AccountId) : list Z := leb128 g ++ [255].

Lemma acl_key_split g t c d :
  ValueKey.serialize_acl g t c d = acl_prefix g ++ leb128 t ++ Collection.to_u8 c :: leb128 d.
Proof.
  unfold ValueKey.serialize_acl, acl_prefix, push_leb128, to_leb128_bytes. cbn [app].
  by rewrite <- !app_assoc.
Qed.

Lemma acl_prefix_all g : ValueKey.serialize_acl_prefix g U32_MAX Collection.None = acl_prefix g.
Proof. done. Qed.

Lemma acl_prefix_target g t c :
  t <> U32_MAX -> c <> Collection.None ->
  ValueKey.serialize_acl_prefix g t c = acl_prefix g ++ leb128 t ++ [Collection.to_u8 c].
Proof.
  intros Ht Hc. unfold ValueKey.serialize_acl_prefix, acl_prefix, push_leb128, to_leb128_bytes.
  rewrite (proj2 (Z.eqb_neq t U32_MAX)), bool_decide_eq_true_2 by done. cbn [negb app].
  by rewrite <- !app_assoc.
Qed.

Section Grants.
Context `{StoreLaws DB}.

(** The entries under the prefix of a grantee are grants with an eight-byte value. *)
Definition acl_wf (db : DB) (g : AccountId) : Prop :=
  forall k v, db_get db Values k = Some v -> starts_with k (acl_prefix g) = true ->
  exists t c d acl, fits 32 t /\ fits 32 d /\ fits 64 acl /\
    k = ValueKey.serialize_acl g t c d /\ v = le_bytes 8 acl.

(** [g] has the rights [acl] on the document. *)
Definition granted (db : DB) (g t : AccountId) (c : Collection.t) (d : DocumentId) (acl : Z) : Prop :=
  fits 64 acl /\ db_get db Values (ValueKey.serialize_acl g t c d) = Some (le_bytes 8 acl).

Lemma acl_value_decode acl : fits 64 acl -> acl_deserialize (le_bytes 8 acl) = Some acl.
Proof. intros. by apply deserialize_le_le. Qed.

Lemma le_bytes_inj8 x y : fits 64 x -> fits 64 y -> le_bytes 8 x = le_bytes 8 y -> x = y.
Proof.
  intros Hx%acl_value_decode Hy%acl_value_decode E. rewrite E in Hx. congruence.
Qed.

Lemma granted_fun db g t c d acl acl' : granted db g t c d acl -> granted db g t c d acl' -> acl = acl'.
Proof.
  intros [Hf Hg] [Hf' Hg']. apply le_bytes_inj8; [done..|]. congruence.
Qed.

Lemma acl_target_inj t c d t' c' rest :
  fits 32 t -> fits 32 t' ->
  leb128 t' ++ Collection.to_u8 c' :: leb128 d = (leb128 t ++ [Collection.to_u8 c]) ++ rest ->
  t' = t /\ c' = c /\ rest = leb128 d.
Proof.
  intros Ht%u32_decodable Ht'%u32_decodable E.
  pose proof (next_leb128_app U32 t' (Collection.to_u8 c' :: leb128 d) Ht') as E1.
  rewrite E, <- app_assoc, next_leb128_app in E1 by done. cbn [app] in E1.
  injection E1 as -> Ec ->. split_and!; [done|by apply Collection.to_u8_inj|done].
Qed.

Lemma acl_key_doc_inj g t c d d' :
  fits 32 d -> fits 32 d' -> ValueKey.serialize_acl g t c d = ValueKey.serialize_acl g t c d' -> d = d'.
Proof.
  rewrite !acl_key_split. intros Hd%u32_decodable Hd'%u32_decodable E%app_inv_head%app_inv_head.
  apply (f_equal tail) in E. cbn [tail] in E.
  apply leb128_inj; [by eapply decodable_u64..|done].
Qed.

(** ** Scans over the grants of a document's collection *)

Lemma documents_loop_spec prefix acls it sd :
  (forall kv, kv ∈ it -> starts_with kv.1 prefix = true -> exists d acl, fits 32 d /\ fits 64 acl /\
     kv.1 = prefix ++ leb128 d /\ kv.2 = le_bytes 8 acl) ->
  exists sd', shared_documents_loop prefix acls it sd = Ok sd' /\
    forall d, d ∈ sd' <-> d ∈ sd \/ exists acl, fits 32 d /\ fits 64 acl /\ Z.land acl acls <> 0 /\
      (prefix ++ leb128 d, le_bytes 8 acl) ∈ take_prefix prefix it.
Proof.
  revert sd. induction it as [|[k v] it IH]; intros sd Hit.
  - exists sd. split; [done|]. intros d. split; [by left|].
    intros [?|(acl & _ & _ & _ & ?%not_elem_of_nil)]; done.
  - cbn [shared_documents_loop take_prefix fst]. destruct (starts_with k prefix) eqn:Hp; cbn [andb].
    + destruct (Hit (k, v)) as (d & acl & Hd & Hacl & Hk & Hv); [by apply elem_of_cons; left|done|].
      cbn in Hk, Hv. subst k v. pose proof (leb128_nonempty d) as Hne.
      rewrite (proj2 (Nat.ltb_lt _ _)) by (rewrite length_app; lia). rewrite drop_app_length.
      rewrite read_leb128_all by by apply u32_decodable.
      cbn [ok_or mbind res_bind]. rewrite acl_value_decode by done. cbn [ok_or mbind res_bind].
      edestruct IH as (sd' & -> & Hsd'); [by intros kv Hin; apply Hit; apply elem_of_cons; right|].
      exists sd'. split; [done|]. intros d'. rewrite Hsd'. unfold bm_is_empty, bm_intersection.
      setoid_rewrite elem_of_cons. destruct (Z.eqb_spec (Z.land acl acls) 0) as [Hz|Hz].
      * split; [intros [?|(acl' & ? & ? & ? & ?)]; eauto 10|].
        intros [?|(acl' & Hd' & Hacl' & Hnz & [E|?])]; [by left| |by eauto 10].
        apply (f_equal snd) in E. cbn [snd] in E. exfalso. apply Hnz.
        by rewrite (le_bytes_inj8 acl' acl).
      * rewrite elem_of_union, elem_of_singleton. split.
        -- intros [[->|?]|(acl' & ? & ? & ? & ?)]; eauto 10.
        -- intros [?|(acl' & Hd' & Hacl' & Hnz & [E|?])]; [by auto| |by eauto 10].
           apply (f_equal fst), app_inv_head in E. left. left.
           apply leb128_inj; [by eapply fits_mono; [|done]..|done].
    + exists sd. split; [done|]. intros d. split; [by left|].
      intros [?|(acl & _ & _ & _ & ?%not_elem_of_nil)]; done.
Qed.

Section Target.
Variables (db : DB) (t : AccountId) (c : Collection.t) (acls : Z).
Hypotheses (Ht : fits 32 t) (Hmax : t <> U32_MAX) (Hc : c <> Collection.None).

Abbreviation target_prefix g := (acl_prefix g ++ leb128 t ++ [Collection.to_u8 c]).

Lemma target_key g d : ValueKey.serialize_acl g t c d = target_prefix g ++ leb128 d.
Proof. rewrite acl_key_split, <- !app_assoc. done. Qed.

Lemma target_entry g k v :
  acl_wf db g -> db_get db Values k = Some v -> starts_with k (target_prefix g) = true ->
  exists d acl, fits 32 d /\ fits 64 acl /\ k = target_prefix g ++ leb128 d /\ v = le_bytes 8 acl.
Proof.
  intros Hwf Hg [rest ->]%starts_with_iff. rewrite <- app_assoc in *.
  destruct (Hwf _ _ Hg) as (t' & c' & d & acl & Ht' & Hd & Hacl & Hk & ->).
  { apply starts_with_iff. by eexists. }
  rewrite acl_key_split in Hk. apply app_inv_head in Hk. symmetry in Hk.
  apply acl_target_inj in Hk as (-> & -> & ->); [|done..].
  exists d, acl. split_and!; [done..| |done]. by rewrite !app_assoc.
Qed.

(** The documents with one of the rights [acls] granted to [g]. *)
Definition grants (g : AccountId) (d : DocumentId) : Prop :=
  exists acl, fits 32 d /\ granted db g t c d acl /\ Z.land acl acls <> 0.

Lemma member_documents g sd :
  acl_wf db g ->
  exists sd', shared_documents_loop (ValueKey.serialize_acl_prefix g t c) acls
      (db_iterator db Values (ValueKey.serialize_acl_prefix g t c) Forward) sd = Ok sd' /\
    forall d, d ∈ sd' <-> d ∈ sd \/ grants g d.
Proof.
  intros Hwf. rewrite acl_prefix_target by done.
  destruct (documents_loop_spec (target_prefix g) acls
    (db_iterator db Values (target_prefix g) Forward) sd) as (sd' & E & Hsd').
  { intros [k v] [Hg _]%db_forward_elem Hp. by apply target_entry. }
  exists sd'. split; [done|]. intros d. rewrite Hsd'. unfold grants, granted.
  setoid_rewrite prefix_scan. rewrite target_key.
  split; (intros [?|(acl & Hacl)]; [by left|right; exists acl]); [tauto|]. split_and!; try tauto.
  apply starts_with_iff. by eexists.
Qed.

Lemma all_members_documents members sd :
  (forall g, g ∈ members -> acl_wf db g) ->
  exists sd', shared_documents_of db members t c acls sd = Ok sd' /\
    forall d, d ∈ sd' <-> d ∈ sd \/ exists g, g ∈ members /\ grants g d.
Proof.
  revert sd. induction members as [|g members IH]; intros sd Hwf.
  - exists sd. split; [done|]. intros d. split; [by left|]. intros [?|(g & ?%not_elem_of_nil & _)]; done.
  - cbn [shared_documents_of]. destruct (member_documents g sd) as (sd1 & -> & H1).
    { apply Hwf, elem_of_cons. by left. }
    cbn [mbind res_bind]. destruct (IH sd1) as (sd2 & -> & H2).
    { intros g' Hg'. apply Hwf, elem_of_cons. by right. }
    exists sd2. split; [done|]. intros d. rewrite H2, H1. setoid_rewrite elem_of_cons.
    split; [intros [[?|?]|(g' & ? & ?)]; eauto 10|intros [?|(g' & [->|?] & ?)]; eauto 10].
Qed.

(** Looking the rights of one document up. *)
Lemma get_acl_loop_spec d members acl :
  (forall g, g ∈ members -> acl_wf db g) ->
  exists acl', get_acl_loop db members t c d acl = Ok acl' /\
    forall i, 0 <= i -> Z.testbit acl' i = true <->
      Z.testbit acl i = true \/ exists g b, g ∈ members /\ granted db g t c d b /\ Z.testbit b i = true.
Proof.
  revert acl. induction members as [|g members IH]; intros acl Hwf.
  - exists acl. split; [done|]. intros i Hi. split; [by left|].
    intros [?|(g & b & ?%not_elem_of_nil & _)]; done.
  - assert (exists o, get_as acl_deserialize db Values (ValueKey.serialize_acl g t c d) = Ok o /\
      forall b, granted db g t c d b <-> o = Some b) as (o & Ho & Hgr).
    { unfold get_as. destruct (db_get db Values _) as [v|] eqn:Hg.
      - destruct (Hwf g ltac:(by apply elem_of_cons; left) _ _ Hg) as (t' & c' & d' & b & _ & _ & Hb & _ & ->).
        { apply starts_with_iff. rewrite acl_key_split. by eexists. }
        rewrite acl_value_decode by done. exists (Some b). split; [done|]. intros b'.
        assert (granted db g t c d b) as Hb1 by done.
        split; [intros Hb2; f_equal; by eapply granted_fun|intros [= <-]; done].
      - exists None. split; [done|]. intros b. unfold granted. rewrite Hg. split; [by intros [_ ?]|done]. }
    cbn [get_acl_loop]. rewrite Ho. cbn [mbind res_bind].
    edestruct IH as (acl' & -> & Hacl'); [intros g' Hg'; apply Hwf, elem_of_cons; by right|].
    exists acl'. split; [done|]. intros i Hi. rewrite Hacl' by done. setoid_rewrite elem_of_cons.
    assert (Z.testbit match o with Some item_acl => bm_union acl item_acl | None => acl end i = true <->
      Z.testbit acl i = true \/ exists b, granted db g t c d b /\ Z.testbit b i = true) as Hbit.
    { setoid_rewrite Hgr. destruct o as [b|].
      - unfold bm_union. rewrite Z.lor_spec, orb_true_iff.
        split; [intros [?|?]; eauto|intros [?|(b' & [= ->] & ?)]; auto].
      - split; [by left|]. by intros [?|(b' & ? & _)]. }
    rewrite Hbit. split.
    + intros [[?|(b & ? & ?)]|(g' & b & ? & ? & ?)]; eauto 10.
    + intros [?|(g' & b & [->|?] & ? & ?)]; eauto 10.
Qed.
End Target.
End Grants.

(** ** Scans over all grants of a principal *)

(** The collections of an account in a list of shared accounts. *)
Fixpoint sharing_of (l : list (AccountId * Z)) (t : AccountId) : Z :=
  match l with
  | [] => 0
  | (account_id, b) :: l => if account_id =? t then b else sharing_of l t
  end.

Lemma sharing_of_add l t b t' :
  sharing_of (add_sharing l t b) t' =
  if t =? t' then Z.lor (sharing_of l t) b else sharing_of l t'.
Proof.
  induction l as [|[a x] l IH]; cbn [add_sharing sharing_of]; [by destruct (t =? t')|].
  destruct (Z.eqb_spec a t) as [->|Hat]; cbn [sharing_of].
  - by destruct (Z.eqb_spec t t').
  - rewrite IH. destruct (Z.eqb_spec a t') as [->|]; [|done]. by rewrite (proj2 (Z.eqb_neq t t')) by done.
Qed.

(** The encoding of the owner starts with the byte that ends the scan. *)
Definition starts_with_ff (t : AccountId) : Prop := head (leb128 t) = Some 255.

Lemma starts_with_ff_iff t : fits 32 t -> starts_with_ff t <-> 128 <= t /\ t mod 128 = 127.
Proof.
  intros Ht. unfold starts_with_ff. rewrite leb128_unfold by (eapply fits_mono; [|done]; lia).
  destruct (Z.ltb_spec t 0x80); cbn [head]; split.
  - intros [= E]. rewrite wrap_small in E by dlia. lia.
  - lia.
  - intros [= E]. split; [done|]. lia.
  - intros [_ ->]. done.
Qed.

Lemma acl_key_first g t c d :
  (ValueKey.serialize_acl g t c d) !!! length (acl_prefix g) = 255 <-> starts_with_ff t.
Proof.
  rewrite acl_key_split, lookup_total_app_r, Nat.sub_diag by lia. unfold starts_with_ff.
  destruct (leb128_cons t) as (b & l & ->). cbn. split; congruence.
Qed.

Lemma acl_target_decode g t c d :
  fits 32 t -> fits 32 d ->
  ValueKey.deserialize_acl_target (drop (length (acl_prefix g)) (ValueKey.serialize_acl g t c d)) =
  Some (t, c, d).
Proof.
  intros Ht Hd. rewrite acl_key_split, drop_app_length.
  pose proof (deserialize_acl_target_app t c d [] Ht Hd) as E. by rewrite app_nil_r in E.
Qed.

Section Accounts.
Context `{StoreLaws DB}.
Variables (db : DB) (member_of : list AccountId).

Lemma accounts_loop_spec g it l :
  (forall kv, kv ∈ it -> starts_with kv.1 (acl_prefix g) = true ->
     exists t c d acl, fits 32 t /\ fits 32 d /\ fits 64 acl /\ ~ starts_with_ff t /\
       kv.1 = ValueKey.serialize_acl g t c d /\ kv.2 = le_bytes 8 acl) ->
  exists l', shared_accounts_loop member_of (acl_prefix g) it l = Ok l' /\
    forall t i, fits 32 t -> Z.testbit (sharing_of l' t) i = true <->
      Z.testbit (sharing_of l t) i = true \/
      (t ∉ member_of) /\ exists c d acl, fits 32 d /\ fits 64 acl /\
        (ValueKey.serialize_acl g t c d, le_bytes 8 acl) ∈ take_prefix (acl_prefix g) it /\
        Z.testbit (granted_collections acl c) i = true.
Proof.
  revert l. induction it as [|[k v] it IH]; intros l Hit.
  - exists l. split; [done|]. intros t i _. split; [by left|].
    intros [?|(_ & c & d & acl & _ & _ & ?%not_elem_of_nil & _)]; done.
  - cbn [shared_accounts_loop take_prefix fst]. destruct (starts_with k (acl_prefix g)) eqn:Hp; cbn [andb].
    2: { exists l. split; [done|]. intros t i _. split; [by left|].
         intros [?|(_ & c & d & acl & _ & _ & ?%not_elem_of_nil & _)]; done. }
    destruct (Hit (k, v)) as (t & c & d & acl & Ht & Hd & Hacl & Hff & Hk & Hv);
      [by apply elem_of_cons; left|done|]. cbn [fst snd] in Hk, Hv. subst k v.
    rewrite (proj2 (Z.eqb_neq _ 255)) by (intros Hx%acl_key_first; by apply Hff).
    rewrite (proj2 (Nat.ltb_lt _ _))
      by (rewrite acl_key_split, !length_app; cbn [length]; pose proof (leb128_nonempty t); pose proof (leb128_nonempty d); lia).
    cbn [negb andb]. rewrite acl_target_decode by done.
    cbn [ok_or mbind res_bind]. rewrite acl_value_decode by done. cbn [ok_or mbind res_bind].
    edestruct IH as (l' & -> & Hl'); [by intros kv Hin; apply Hit; apply elem_of_cons; right|].
    exists l'. split; [done|]. intros t' i Ht'. rewrite Hl' by done. setoid_rewrite elem_of_cons.
    assert (forall c' d' acl', fits 32 d' -> fits 64 acl' ->
      (ValueKey.serialize_acl g t' c' d', le_bytes 8 acl') = (ValueKey.serialize_acl g t c d, le_bytes 8 acl) ->
      t' = t /\ c' = c /\ acl' = acl) as Hinj.
    { intros c' d' acl' Hd' Hacl' E. pose proof (f_equal snd E) as E2. apply (f_equal fst) in E.
      cbn [fst snd] in *. rewrite !acl_key_split in E. apply app_inv_head in E.
      change (Collection.to_u8 c :: leb128 d) with ([Collection.to_u8 c] ++ leb128 d) in E.
      rewrite app_assoc in E. apply acl_target_inj in E as (-> & -> & _); [|done..].
      split_and!; [done..|]. by apply le_bytes_inj8. }
    assert (Z.testbit (sharing_of (if bool_decide (t ∈ member_of) || bm_is_empty (granted_collections acl c)
        then l else add_sharing l t (granted_collections acl c)) t') i = true <->
      Z.testbit (sharing_of l t') i = true \/
      (t' ∉ member_of) /\ t' = t /\ Z.testbit (granted_collections acl c) i = true) as ->.
    { case_bool_decide as Hm; cbn [orb]; [split; [by left|]; by intros [?|(? & -> & _)]|].
      unfold bm_is_empty. destruct (Z.eqb_spec (granted_collections acl c) 0) as [->|].
      - rewrite Z.bits_0. split; [by left|]. by intros [?|(_ & _ & ?)].
      - rewrite sharing_of_add. destruct (Z.eqb_spec t t') as [->|Hne].
        + rewrite Z.lor_spec, orb_true_iff. tauto.
        + split; [by left|]. intros [?|(_ & -> & _)]; done. }
    split.
    + intros [[?|(Hm & -> & Hb)]|(Hm & c' & d' & acl' & ? & ? & ? & ?)]; [by left| |]; right;
        (split; [done|]); [exists c, d, acl; auto|exists c', d', acl'; auto].
    + intros [?|(Hm & c' & d' & acl' & Hd' & Hacl' & [E|?] & Hb)]; [by auto| |].
      * apply Hinj in E as (-> & -> & ->); [|done..]. left. right. done.
      * right. split; [done|]. by exists c', d', acl'.
Qed.

Lemma shared_accounts_of_spec members l :
  (forall g, g ∈ members -> acl_wf db g) ->
  (forall g t c d acl, g ∈ members -> fits 32 t -> granted db g t c d acl -> ~ starts_with_ff t) ->
  exists l', shared_accounts_of db member_of members l = Ok l' /\
    forall t i, fits 32 t -> Z.testbit (sharing_of l' t) i = true <->
      Z.testbit (sharing_of l t) i = true \/
      (t ∉ member_of) /\ exists g c d acl, g ∈ members /\ fits 32 d /\ granted db g t c d acl /\
        Z.testbit (granted_collections acl c) i = true.
Proof.
  revert l. induction members as [|g members IH]; intros l Hw Hff.
  - exists l. split; [done|]. intros t i _. split; [by left|].
    intros [?|(_ & g & c & d & acl & ?%not_elem_of_nil & _)]; done.
  - assert (g ∈ g :: members) as Hg0 by (by apply elem_of_cons; left).
    cbn [shared_accounts_of]. rewrite acl_prefix_all.
    destruct (accounts_loop_spec g (db_iterator db Values (acl_prefix g) Forward) l) as (l1 & -> & H1).
    { intros [k v] [Hget _]%db_forward_elem Hp. cbn [fst snd] in *.
      destruct (Hw g Hg0 k v Hget Hp) as (t & c & d & acl & Ht & Hd & Hacl & -> & ->).
      exists t, c, d, acl. split_and!; try done. by apply (Hff g t c d acl). }
    cbn [mbind res_bind]. destruct (IH l1) as (l2 & -> & H2).
    { intros g' Hg'. apply Hw, elem_of_cons. by right. }
    { intros g' t c d acl Hg'. apply Hff, elem_of_cons. by right. }
    exists l2. split; [done|]. intros t i Ht. rewrite H2, H1 by done. setoid_rewrite elem_of_cons.
    setoid_rewrite prefix_scan. unfold granted. split.
    + intros [[?|(Hm & c & d & acl & ? & ? & [? _] & ?)]|(Hm & g' & c & d & acl & ? & ? & ? & ?)];
        [by left|right; split; [done|]; exists g, c, d, acl; auto|right; split; [done|]].
      exists g', c, d, acl; auto.
    + intros [?|(Hm & g' & c & d & acl & [->|?] & ? & [? ?] & ?)]; [by auto|left; right|right].
      * split; [done|]. exists c, d, acl. split_and!; try done. apply starts_with_iff.
        rewrite acl_key_split. by eexists.
      * split; [done|]. by exists g', c, d, acl.
Qed.
End Accounts.

(** The collections a grant opens: the one it is for with the right to read,
    and the messages of a mailbox with the right to read items. *)
Definition opens (acl : Z) (c col : Collection.t) : Prop :=
  bm_contains acl ACL.Read = true /\ col = c \/
  bm_contains acl ACL.ReadItems = true /\ c = Collection.Mailbox /\ col = Collection.Mail.

Lemma granted_collections_opens acl c col :
  bm_contains (granted_collections acl c) col = true <-> opens acl c col.
Proof.
  assert (bm_contains bm_new col = false) as Hnew by (rewrite bm_contains_testbit; apply Z.bits_0).
  unfold granted_collections, opens.
  destruct (bm_contains acl ACL.Read), (bm_contains acl ACL.ReadItems); cbn [andb]; try case_bool_decide;
    rewrite ?bm_insert_contains, ?Hnew; intuition congruence.
Qed.

Lemma ff_loop_empty `{StoreLaws DB} (db : DB) member_of members :
  (forall g, g ∈ members -> acl_wf db g) ->
  (forall g t c d acl, g ∈ members -> fits 32 t -> granted db g t c d acl -> starts_with_ff t) ->
  shared_accounts_of db member_of members [] = Ok [].
Proof.
  induction members as [|g members IH]; intros Hwf Hff; [done|]. cbn [shared_accounts_of].
  assert (g ∈ g :: members) as Hg by (by apply elem_of_cons; left). rewrite acl_prefix_all.
  assert (shared_accounts_loop member_of (acl_prefix g) (db_iterator db Values (acl_prefix g) Forward) [] = Ok [])
    as ->.
  { pose proof (forward_first db Values (acl_prefix g)) as Hf.
    destruct (db_iterator db Values (acl_prefix g) Forward) as [|[k v] it]; [done|].
    destruct Hf as (Hget & _ & _). cbn [shared_accounts_loop].
    destruct (starts_with k (acl_prefix g)) eqn:Hp; [|done].
    destruct (Hwf g Hg k v Hget Hp) as (t & c & d & acl & Ht & Hd & Hacl & -> & ->).
    rewrite (proj2 (acl_key_first g t c d)) by (by apply (Hff g t c d acl)).
    cbn [negb Z.eqb Pos.eqb]. by rewrite andb_false_r. }
  cbn [mbind res_bind]. apply IH.
  - intros g' Hg'. apply Hwf, elem_of_cons. by right.
  - intros g' t c d acl Hg'. apply Hff, elem_of_cons. by right.
Qed.

(** ** Properties *)

(** C39. The two ways to learn what a caller may do agree. For an owner and a
    collection, [get_shared_documents] returns exactly the documents on which
    [get_acl] reports, over all principals the caller is a member of, at least
    one of the requested rights; it returns no set exactly when there is none.
    [get_acl] is the union of the stored grants. *)
Theorem shared_documents_agree_with_acl `{StoreLaws DB} (db : DB) member_of t c acls :
  fits 32 t -> t <> U32_MAX -> c <> Collection.None -> 0 <= acls ->
  (forall g, g ∈ member_of -> acl_wf db g) ->
  exists r, get_shared_documents db member_of t c acls = Ok r /\
    (r = None <-> default ∅ r = ∅) /\
    forall d, fits 32 d ->
    exists acl, get_acl db member_of t c d = Ok acl /\
      (d ∈ default ∅ r <-> Z.land acl acls <> 0) /\
      forall right_ : ACL.t, bm_contains acl right_ = true <->
        exists g b, g ∈ member_of /\ granted db g t c d b /\ bm_contains b right_ = true.
Proof.
  intros Ht Hmax Hc Hacls Hwf. unfold get_shared_documents.
  destruct (all_members_documents db t c acls Ht Hmax Hc member_of ∅ Hwf) as (sd & -> & Hsd).
  cbn [mbind res_bind]. eexists. split; [done|].
  assert (default ∅ (if negb (bool_decide (sd = ∅)) then Some sd else None) = sd) as ->
    by (case_bool_decide; cbn; congruence).
  split; [case_bool_decide; cbn; split; congruence|]. intros d Hd.
  destruct (get_acl_loop_spec db t c d member_of bm_new Hwf) as (acl & Hacl & Hbits).
  exists acl. split; [done|].
  assert (forall i, 0 <= i -> Z.testbit acl i = true <->
    exists g b, g ∈ member_of /\ granted db g t c d b /\ Z.testbit b i = true) as Hb.
  { intros i Hi. rewrite Hbits by done. unfold bm_new. rewrite Z.bits_0. split; [by intros [?|?]|by right]. }
  split.
  - rewrite Hsd, land_nonzero by done. split.
    + intros [?%elem_of_empty|(g & Hg & b & _ & Hb1 & Hnz)]; [done|].
      apply land_nonzero in Hnz as (i & Hi & Hbi & Hai); [|done]. exists i. split_and!; [done| |done].
      apply Hb; [done|]. by exists g, b.
    + intros (i & Hi & (g & b & Hg & Hgr & Hbi)%Hb & Hai); [|done]. right. exists g. split; [done|].
      exists b. split_and!; [done..|]. apply land_nonzero; [done|]. by exists i.
  - intros x. rewrite bm_contains_testbit. setoid_rewrite bm_contains_testbit. apply Hb, item_range.
Qed.

Import PlainStore.

(** The accounts shared with a caller: when no owner that granted something
    has an id that ends in seven one bits (other than 127), the list tells, for
    every account the caller is not a member of, exactly the collections that
    some grant opens. *)
Theorem shared_accounts_exact `{StoreLaws DB} (db : DB) member_of :
  (forall g, g ∈ member_of -> acl_wf db g) ->
  (forall g t c d acl, g ∈ member_of -> fits 32 t -> granted db g t c d acl ->
     ~ (128 <= t /\ t mod 128 = 127)) ->
  exists l, get_shared_accounts db member_of = Ok l /\
    forall t col, fits 32 t ->
    bm_contains (sharing_of l t) col = true <->
    (t ∉ member_of) /\ exists g c d acl, g ∈ member_of /\ fits 32 d /\ granted db g t c d acl /\
      opens acl c col.
Proof.
  intros Hwf Hff. destruct (shared_accounts_of_spec db member_of member_of [] Hwf) as (l & Hl & Hspec).
  - intros g t c d acl Hg Ht Hgr Hx%starts_with_ff_iff; [|done]. by apply (Hff g t c d acl).
  - exists l. split; [done|]. intros t col Ht. rewrite bm_contains_testbit, Hspec by done.
    cbn [sharing_of]. rewrite Z.bits_0. setoid_rewrite <- bm_contains_testbit.
    setoid_rewrite granted_collections_opens. split; [by intros [?|?]|by right].
Qed.

(** Grants by the other owners are lost: if all grants to the principals of
    a caller come from owners whose id is at least 128 and ends in seven one
    bits, so that its encoding starts with the byte 0xFF, the caller is told
    that nothing is shared with it. *)
Theorem shared_accounts_ff_ignored `{StoreLaws DB} (db : DB) member_of :
  (forall g, g ∈ member_of -> acl_wf db g) ->
  (forall g t c d acl, g ∈ member_of -> fits 32 t -> granted db g t c d acl ->
     128 <= t /\ t mod 128 = 127) ->
  get_shared_accounts db member_of = Ok [].
Proof.
  intros Hwf Hff. apply ff_loop_empty; [done|]. intros g t c d acl Hg Ht Hgr.
  apply starts_with_ff_iff; [done|]. by apply (Hff g t c d acl).
Qed.

(** A grant of reading and modifying document 5 of account 9's mailboxes. *)
Definition acl_sample (owner : AccountId) : MemStore.t :=
  db_write MemStore.empty
    [OpSet Values (ValueKey.serialize_acl 3 owner Collection.Mailbox 5)
       (le_bytes 8 (bm_from_list [ACL.Read; ACL.Modify]))].

Lemma acl_sample_entry owner k v :
  db_get (acl_sample owner) Values k = Some v ->
  k = ValueKey.serialize_acl 3 owner Collection.Mailbox 5 /\ v = le_bytes 8 3.
Proof.
  unfold acl_sample. rewrite db_write_get. cbn [fold_left]. unfold op_effect. cbn [op_cf op_key].
  case_bool_decide as Hk; [|done]. destruct Hk as [_ <-]. intros <-%(inj Some). split; [done|by vm_compute].
Qed.

Lemma acl_sample_wf owner : fits 32 owner -> acl_wf (acl_sample owner) 3.
Proof. intros Ho k v [-> ->]%acl_sample_entry _. by exists owner, Collection.Mailbox, 5, 3. Qed.

Lemma acl_sample_owner owner g t c d acl :
  fits 32 owner -> fits 32 t -> g ∈ [3] -> granted (acl_sample owner) g t c d acl -> t = owner.
Proof.
  intros Ho Ht ->%list_elem_of_singleton [_ [E _]%acl_sample_entry]. rewrite !acl_key_split in E.
  apply app_inv_head in E. change (Collection.to_u8 Collection.Mailbox :: leb128 5) with
    ([Collection.to_u8 Collection.Mailbox] ++ leb128 5) in E. rewrite app_assoc in E.
  by apply acl_target_inj in E as (-> & _).
Qed.

Lemma shared_documents_agree_with_acl_witness :
  exists r, get_shared_documents (acl_sample 9) [3] 9 Collection.Mailbox (bm_from_list [ACL.Modify]) = Ok r /\
    (r = None <-> default ∅ r = ∅).
Proof.
  destruct (shared_documents_agree_with_acl (acl_sample 9) [3] 9 Collection.Mailbox (bm_from_list [ACL.Modify]))
    as (r & Hr & Hn & _).
  - by split.
  - done.
  - done.
  - by vm_compute.
  - intros g ->%list_elem_of_singleton. by apply acl_sample_wf.
  - exists r. split; [exact Hr|exact Hn].
Defined.

Lemma shared_accounts_exact_witness :
  exists l, get_shared_accounts (acl_sample 9) [3] = Ok l /\
    bm_contains (sharing_of l 9) Collection.Mailbox = true.
Proof.
  destruct (shared_accounts_exact (acl_sample 9) [3]) as (l & Hl & Hspec).
  - intros g ->%list_elem_of_singleton. by apply acl_sample_wf.
  - intros g t c d acl Hg Ht Hgr%(acl_sample_owner 9); [lia|by split|done..].
  - exists l. split; [exact Hl|]. apply Hspec; [by split|]. split; [rewrite elem_of_cons, elem_of_nil; lia|].
    exists 3, Collection.Mailbox, 5, 3. split_and!.
    + by apply elem_of_cons; left.
    + by split.
    + split; [by split|vm_compute; reflexivity].
    + left. split; vm_compute; reflexivity.
Defined.

Lemma shared_accounts_ff_ignored_witness :
  get_shared_accounts (acl_sample 255) [3] = Ok [] /\
  get_shared_documents (acl_sample 255) [3] 255 Collection.Mailbox (bm_from_list [ACL.Read]) =
    Ok (Some {[5]}).
Proof.
  split; [|by vm_compute]. apply shared_accounts_ff_ignored.
  - intros g ->%list_elem_of_singleton. by apply acl_sample_wf.
  - intros g t c d acl Hg Ht Hgr%(acl_sample_owner 255); [by subst t|by split|done..].
Defined.
