(* ===== verification/IdAssign.v ===== *)
(** * Assigning document ids: components/store/src/write/id_assign.rs

    An [IdAssigner] is built from the bitmap of the documents in use, keeps
    the gaps below the highest one as freed ids, and hands out the gaps before
    new ids. *)

From S2P Require Import Prelude Types.

Record IdAssigner : Type := mkAssigner { freed_ids : option (gset Z); next_id : DocumentId }.

(** [RoaringBitmap::max] and [min]. *)
Definition bitmap_max (bm : gset Z) : option Z :=
  match elements bm with [] => None | x :: l => Some (fold_left Z.max l x) end.
Definition bitmap_min (bm : gset Z) : option Z :=
  match elements bm with [] => None | x :: l => Some (fold_left Z.min l x) end.

Definition assigner_new (used_ids : option (gset Z)) : res IdAssigner :=
  match used_ids with
  | Some used_ids =>
      max ← unwrap (bitmap_max used_ids);
      let next_id := u32 (max + 1) in
      let all := list_to_set (seqZ 0 next_id) in
      let freed_ids := (all ∖ used_ids) ∪ (used_ids ∖ all) in
      Ok (mkAssigner (if negb (bool_decide (freed_ids = ∅)) then Some freed_ids else None) next_id)
  | None => Ok (mkAssigner None 0)
  end.

Definition assign_document_id (a : IdAssigner) : res (DocumentId * IdAssigner) :=
  match freed_ids a with
  | Some freed =>
      id ← unwrap (bitmap_min freed);
      let freed := freed ∖ {[id]} in
      Ok (id, mkAssigner (if bool_decide (freed = ∅) then None else Some freed) (next_id a))
  | None => Ok (next_id a, mkAssigner None (u32 (next_id a + 1)))
  end.

(** Assigning [n] ids in a row. *)
Fixpoint assign_many (n : nat) (a : IdAssigner) : res (list DocumentId * IdAssigner) :=
  match n with
  | O => Ok ([], a)
  | S n =>
      '(id, a) ← assign_document_id a;
      '(ids, a) ← assign_many n a;
      Ok (id :: ids, a)
  end.

(** ** Extrema *)

Lemma fold_max_spec l x :
  fold_left Z.max l x ∈ x :: l /\ forall y, y ∈ x :: l -> y <= fold_left Z.max l x.
Proof.
  revert x. induction l as [|z l IH]; intros x; cbn [fold_left].
  - split; [by apply elem_of_cons; left|]. intros y ->%list_elem_of_singleton. done.
  - destruct (IH (Z.max x z)) as [Hin Hle]. rewrite !elem_of_cons in *. split.
    + destruct Hin as [->|?]; [|auto]. destruct (Z.max_spec x z) as [[_ ->]|[_ ->]]; auto.
    + pose proof (Hle (Z.max x z) ltac:(by apply elem_of_cons; left)) as Hm.
      intros y [->|[->|Hy]%elem_of_cons]%elem_of_cons; [lia..|]. by apply Hle, elem_of_cons; right.
Qed.

Lemma fold_min_spec l x :
  fold_left Z.min l x ∈ x :: l /\ forall y, y ∈ x :: l -> fold_left Z.min l x <= y.
Proof.
  revert x. induction l as [|z l IH]; intros x; cbn [fold_left].
  - split; [by apply elem_of_cons; left|]. intros y ->%list_elem_of_singleton. done.
  - destruct (IH (Z.min x z)) as [Hin Hle]. rewrite !elem_of_cons in *. split.
    + destruct Hin as [->|?]; [|auto]. destruct (Z.min_spec x z) as [[_ ->]|[_ ->]]; auto.
    + pose proof (Hle (Z.min x z) ltac:(by apply elem_of_cons; left)) as Hm.
      intros y [->|[->|Hy]%elem_of_cons]%elem_of_cons; [lia..|]. by apply Hle, elem_of_cons; right.
Qed.

Lemma bitmap_max_spec bm :
  match bitmap_max bm with
  | Some m => m ∈ bm /\ forall y, y ∈ bm -> y <= m
  | None => bm = ∅
  end.
Proof.
  unfold bitmap_max. destruct (elements bm) as [|x l] eqn:E.
  - by apply elements_empty_iff, leibniz_equiv in E.
  - pose proof (fold_max_spec l x) as Hs. rewrite <- E in Hs. by setoid_rewrite elem_of_elements in Hs.
Qed.

Lemma bitmap_min_spec bm :
  match bitmap_min bm with
  | Some m => m ∈ bm /\ forall y, y ∈ bm -> m <= y
  | None => bm = ∅
  end.
Proof.
  unfold bitmap_min. destruct (elements bm) as [|x l] eqn:E.
  - by apply elements_empty_iff, leibniz_equiv in E.
  - pose proof (fold_min_spec l x) as Hs. rewrite <- E in Hs. by setoid_rewrite elem_of_elements in Hs.
Qed.

(** ** The invariant: which ids are taken *)

Record assigner_inv (a : IdAssigner) (taken : gset Z) : Prop := {
  inv_range : forall i, i ∈ taken -> 0 <= i < next_id a;
  inv_next : 0 <= next_id a <= U32_MAX;
  inv_freed : forall i, i ∈ default ∅ (freed_ids a) <-> 0 <= i < next_id a /\ i ∉ taken;
  inv_some : forall freed, freed_ids a = Some freed -> freed <> ∅
}.

Lemma assigner_new_inv used :
  (forall i, i ∈ default ∅ used -> 0 <= i < U32_MAX) -> used <> Some ∅ ->
  exists a, assigner_new used = Ok a /\ assigner_inv a (default ∅ used).
Proof.
  intros Hrange Hne. destruct used as [used|]; cbn [assigner_new default] in *.
  - pose proof (bitmap_max_spec used) as Hmax. destruct (bitmap_max used) as [m|]; [|congruence].
    destruct Hmax as [Hm Hle]. pose proof (Hrange m Hm) as Hmr. cbn [unwrap mbind res_bind].
    rewrite wrap_small by (unfold fits; lia). set (all := list_to_set (seqZ 0 (m + 1)) : gset Z).
    assert (forall i, i ∈ all <-> 0 <= i < m + 1) as Hall
      by (intros i; unfold all; rewrite elem_of_list_to_set, elem_of_seqZ; lia).
    set (freed := all ∖ used ∪ used ∖ all).
    assert (forall i, i ∈ freed <-> 0 <= i < m + 1 /\ i ∉ used) as Hfreed.
    { intros i. unfold freed. rewrite elem_of_union, !elem_of_difference, Hall. split; [|by left].
      intros [?|[Hi Hn]]; [done|]. exfalso. apply Hn. specialize (Hle i Hi). specialize (Hrange i Hi). lia. }
    eexists. split; [done|]. split; cbn [next_id freed_ids].
    + intros i Hi. specialize (Hle i Hi). specialize (Hrange i Hi). lia.
    + lia.
    + intros i. rewrite <- Hfreed. case_bool_decide as E; cbn; [by rewrite E|done].
    + intros freed'. case_bool_decide; cbn; congruence.
  - eexists. split; [done|]. split; cbn [next_id freed_ids default]; [set_solver|lia| |done].
    intros i. split; [by intros ?%elem_of_empty|lia].
Qed.

Lemma assign_document_id_inv a taken :
  assigner_inv a taken -> next_id a < U32_MAX ->
  exists id a', assign_document_id a = Ok (id, a') /\ (id ∉ taken) /\ 0 <= id <= next_id a /\
    (forall j, 0 <= j < id -> j ∈ taken) /\ assigner_inv a' ({[id]} ∪ taken) /\
    next_id a' <= next_id a + 1.
Proof.
  intros [Hrange Hnext Hfreed Hsome] Hlt. unfold assign_document_id.
  destruct (freed_ids a) as [freed|] eqn:Ef; cbn [default] in Hfreed.
  - specialize (Hsome freed eq_refl). pose proof (bitmap_min_spec freed) as Hmin.
    destruct (bitmap_min freed) as [id|]; [|congruence]. destruct Hmin as [Hid Hle].
    cbn [unwrap mbind res_bind]. eexists _, _. split; [done|]. pose proof (proj1 (Hfreed id) Hid) as [Hr Hnt].
    split_and!; try done; try lia.
    + intros j Hj. destruct (decide (j ∈ taken)) as [|Hn]; [done|]. exfalso.
      assert (j ∈ freed) as Hjf by (apply Hfreed; split; [lia|done]). specialize (Hle j Hjf). lia.
    + split; cbn [next_id freed_ids]; [|done| |].
      * intros i [->%elem_of_singleton|Hi]%elem_of_union; [done|by apply Hrange].
      * intros i. rewrite not_elem_of_union, not_elem_of_singleton.
        case_bool_decide as E; simpl; [|rewrite elem_of_difference, Hfreed, elem_of_singleton; tauto].
        split; [by intros ?%elem_of_empty|]. intros (Hi & Hne & Hn). rewrite <- E.
        apply elem_of_difference. rewrite Hfreed, elem_of_singleton. done.
      * intros freed'. case_bool_decide; congruence.
    + cbn. lia.
  - eexists _, _. split; [done|]. rewrite wrap_small by (unfold fits; lia).
    assert (forall j, 0 <= j < next_id a -> j ∈ taken) as Hall.
    { intros j Hj. destruct (decide (j ∈ taken)) as [|Hn]; [done|]. exfalso.
      apply (not_elem_of_empty (C := gset Z) j), Hfreed. done. }
    split_and!; try done; try lia.
    + intros Hi%Hrange. lia.
    + split; cbn [next_id freed_ids default]; [|lia| |done].
      * intros i [->%elem_of_singleton|Hi%Hrange]%elem_of_union; lia.
      * intros i. rewrite not_elem_of_union, not_elem_of_singleton.
        split; [by intros ?%elem_of_empty|]. intros (Hi & Hne & Hn). exfalso. apply Hn, Hall. lia.
Qed.

Lemma assign_many_inv n a taken :
  assigner_inv a taken -> next_id a + Z.of_nat n <= U32_MAX ->
  exists ids a', assign_many n a = Ok (ids, a') /\ length ids = n /\ NoDup ids /\
    (forall id, id ∈ ids -> (id ∉ taken) /\ 0 <= id < U32_MAX) /\
    assigner_inv a' (list_to_set ids ∪ taken) /\
    (forall id j, id ∈ ids -> 0 <= j < id -> j ∈ ids \/ j ∈ taken).
Proof.
  revert a taken. induction n as [|n IH]; intros a taken Hinv Hn.
  - exists [], a. cbn. split_and!; [done|done|constructor|by intros id ?%not_elem_of_nil| |
      by intros id j ?%not_elem_of_nil]. by rewrite union_empty_l_L.
  - destruct (assign_document_id_inv a taken Hinv) as (id & a1 & E1 & Hnt & Hr & Hleast & Hinv1 & Hn1); [lia|].
    destruct (IH a1 _ Hinv1) as (ids & a2 & E2 & Hlen & Hnd & Hfresh & Hinv2 & Hall); [lia|].
    exists (id :: ids), a2. cbn [assign_many]. rewrite E1. cbn [mbind res_bind]. rewrite E2. split_and!.
    + done.
    + cbn. lia.
    + constructor; [|done]. intros [Hid _]%Hfresh. apply Hid. set_solver.
    + intros j [->|Hj]%elem_of_cons; [split; [done|lia]|]. destruct (Hfresh j Hj) as [Hj1 Hj2].
      split; [|done]. set_solver.
    + replace (list_to_set (id :: ids) ∪ taken) with (list_to_set ids ∪ ({[id]} ∪ taken)) by set_solver. done.
    + intros x j [->|Hx]%elem_of_cons Hj; [right; by apply Hleast|].
      destruct (Hall x j Hx Hj) as [?|[->%elem_of_singleton|?]%elem_of_union];
        [left; by apply elem_of_cons; right|left; by apply elem_of_cons; left|by right].
Qed.

(** ** Properties *)

(** Document ids are never handed out twice: from an assigner built on the
    documents in use, any number of assignments below the limit of 32 bits
    succeeds and returns distinct ids, none of them in use, and always the
    lowest free ones. *)
Theorem assigned_ids_fresh used n :
  (forall i, i ∈ default ∅ used -> 0 <= i < U32_MAX) -> used <> Some ∅ ->
  (forall i, i ∈ default ∅ used -> i + 1 + Z.of_nat n <= U32_MAX) -> Z.of_nat n <= U32_MAX ->
  exists a ids a', assigner_new used = Ok a /\ assign_many n a = Ok (ids, a') /\
    length ids = n /\ NoDup ids /\
    (forall id, id ∈ ids -> (id ∉ default ∅ used) /\ 0 <= id < U32_MAX) /\
    (forall id j, id ∈ ids -> 0 <= j < id -> j ∈ ids \/ j ∈ default ∅ used).
Proof.
  intros Hr Hne Hn Hn0. destruct (assigner_new_inv used Hr Hne) as (a & Ha & Hinv).
  destruct (assign_many_inv n a (default ∅ used) Hinv) as (ids & a' & E & Hlen & Hnd & Hf & _ & Hl).
  - destruct used as [used|]; cbn in Ha; [|injection Ha as <-; cbn; lia].
    pose proof (bitmap_max_spec used) as Hm. destruct (bitmap_max used) as [m|]; [|done].
    cbn in Ha. injection Ha as <-. cbn [next_id]. destruct Hm as [Hm _]. specialize (Hn m Hm).
    specialize (Hr m Hm). rewrite wrap_small by (unfold fits; lia). done.
  - by exists a, ids, a'.
Qed.

Lemma assigned_ids_fresh_witness :
  exists a a', assigner_new (Some {[0; 2; 5]}) = Ok a /\ assign_many 4 a = Ok ([1; 3; 4; 6], a').
Proof.
  destruct (assigned_ids_fresh (Some {[0; 2; 5]}) 4) as (a & ids & a' & Ha & Hm & _).
  - intros i. cbn. rewrite !elem_of_union, !elem_of_singleton. lia.
  - intros E. apply (f_equal (fun o => bool_decide (0 ∈ default ∅ o))) in E. by vm_compute in E.
  - intros i. cbn. rewrite !elem_of_union, !elem_of_singleton. lia.
  - lia.
  - exists a. vm_compute in Ha. injection Ha as <-. vm_compute in Hm. injection Hm as <- <-.
    eexists. by vm_compute.
Defined.
