(* ===== verification/Compact.v ===== *)
(** * Log compaction: components/store/src/log/compact.rs

    [compact_log_up_to] replaces, per account and collection, the change
    entries up to an id by one snapshot of the ids that are still there, and
    the Raft entries up to that index by one snapshot of the collections each
    account changed. Both loops, the writes they make on the way and the early
    return are modelled. Operations return the store, also on an error, since
    what was written stays, and whether they succeeded. *)

From S2P Require Import Prelude Leb128 Serialize Types Keys Bitmap KV ChangeLog RaftLog.

(** [for _ in 0..count { bytes_it.skip_leb128()? }]: each skip consumes a byte. *)
Fixpoint skip_ids_loop (fuel : nat) (count : Z) (it : list Z) : option (list Z) :=
  if count <=? 0 then Some it
  else
    match fuel with
    | O => None
    | S fuel => it ← skip_leb128 it; skip_ids_loop fuel (count - 1) it
    end.
Definition skip_ids (count : Z) (it : list Z) : option (list Z) := skip_ids_loop (length it) count it.

Section Compact.
Context `{Treemap} `{Store DB}.

Definition deserialize_inserts (inserted_ids : gset Z) (bytes : list Z) : option (gset Z) :=
  match bytes with
  | [] => None
  | tag :: bytes_it =>
      if tag =? Batch.ENTRY then
        '(total_inserts, bytes_it) ← next_leb128 Usize bytes_it;
        '(total_updates, bytes_it) ← next_leb128 Usize bytes_it;
        '(total_child_updates, bytes_it) ← next_leb128 Usize bytes_it;
        '(total_deletes, bytes_it) ← next_leb128 Usize bytes_it;
        '(inserted_ids, bytes_it) ←
          for_leb128 U64 (fun _ ids id => ids ∪ {[id]}) total_inserts inserted_ids bytes_it;
        bytes_it ← skip_ids total_updates bytes_it;
        bytes_it ← skip_ids total_child_updates bytes_it;
        '(inserted_ids, bytes_it) ←
          for_leb128 U64 (fun _ ids id => ids ∖ {[id]}) total_deletes inserted_ids bytes_it;
        Some inserted_ids
      else if tag =? Batch.SNAPSHOT then treemap_deserialize bytes_it
      else None
  end.

Definition change_snapshot (ids : gset Z) : list Z := Batch.SNAPSHOT :: treemap_serialize ids.

(** The batch is returned; the caller's set of ids is cleared. *)
Definition serialize_snapshot (write_batch : list WriteOperation) (inserted_ids : gset Z)
    (current_account_id : AccountId) (current_collection : Collection.t) (last_change_id : ChangeId)
    : list WriteOperation * gset Z :=
  (write_batch ++
     [OpSet Logs (LogKey.serialize_change current_account_id current_collection last_change_id)
        (change_snapshot inserted_ids)], ∅).

(** The variables of [compact_log_up_to]. *)
Record compaction := mkCompaction {
  db : DB;
  current_account_id : AccountId;
  current_collection : Collection.t;
  inserted_ids : gset Z;
  write_batch : list WriteOperation;
  has_changes : bool
}.

(** [if !write_batch.is_empty() { self.db.write(serialize_snapshot(..)) }]. *)
Definition write_snapshot (up_to : ChangeId) (st : compaction) : compaction :=
  match write_batch st with
  | [] => st
  | _ :: _ =>
      let '(batch, ids) := serialize_snapshot (write_batch st) (inserted_ids st)
        (current_account_id st) (current_collection st) up_to in
      mkCompaction (db_write (db st) batch) (current_account_id st) (current_collection st) ids []
        (has_changes st)
  end.

Definition enter_group (up_to : ChangeId) (account_id : AccountId) (collection : Collection.t)
    (st : compaction) : compaction :=
  if negb (account_id =? current_account_id st) ||
     negb (bool_decide (collection = current_collection st)) then
    let st := write_snapshot up_to st in
    mkCompaction (db st) account_id collection (inserted_ids st) (write_batch st) (has_changes st)
  else st.

Definition compact_entry (up_to change_id : ChangeId) (key value : list Z) (st : compaction)
    : option compaction :=
  if up_to <? change_id then Some st
  else
    ids ← deserialize_inserts (inserted_ids st) value;
    Some (mkCompaction (db st) (current_account_id st) (current_collection st) ids
      (if negb (change_id =? up_to) then write_batch st ++ [OpDelete Logs key] else write_batch st)
      (if negb (change_id =? up_to) then has_changes st else true)).

Fixpoint compact_loop (up_to : ChangeId) (it : list (list Z * list Z)) (st : compaction)
    : compaction * bool :=
  match it with
  | [] => (st, true)
  | (key, value) :: it =>
      if negb (starts_with key [LogKey.CHANGE_KEY_PREFIX]) then (st, true)
      else
        match deserialize_be_u32 key LogKey.ACCOUNT_POS, key !! LogKey.COLLECTION_POS with
        | Some account_id, Some collection =>
            let st := enter_group up_to account_id (Collection.of_u8 collection) st in
            match LogKey.deserialize_change_id key with
            | Some change_id =>
                match compact_entry up_to change_id key value st with
                | Some st => compact_loop up_to it st
                | None => (st, false)
                end
            | None => (st, false)
            end
        | _, _ => (st, false)
        end
  end.

(** ** The Raft entries *)

Definition add_collections (changed_accounts : gmap AccountId Z) (account_id : AccountId)
    (collections : Z) : gmap AccountId Z :=
  <[account_id := bm_union (default 0 (changed_accounts !! account_id)) collections]> changed_accounts.

Definition entry_accounts (changed_accounts : gmap AccountId Z) (e : Entry) : gmap AccountId Z :=
  match e with
  | Item account_id changed_collections =>
      add_collections changed_accounts account_id changed_collections
  | Snapshot new_changed_accounts =>
      fold_left
        (fun m '(new_changed_collection, accounts) =>
           fold_left (fun m account => add_collections m account new_changed_collection) accounts m)
        new_changed_accounts changed_accounts
  end.

(** The state: the batch of deletions, [changed_accounts] and [last_term]. *)
Fixpoint compact_raft_loop (up_to : LogIndex) (it : list (list Z * list Z))
    (st : list WriteOperation * gmap AccountId Z * TermId)
    : option (list WriteOperation * gmap AccountId Z * TermId) :=
  match it with
  | [] => Some st
  | (key, value) :: it =>
      if negb (starts_with key [LogKey.RAFT_KEY_PREFIX]) then Some st
      else
        raft_id ← LogKey.deserialize_raft key;
        if rid_index raft_id <=? up_to then
          entry ← entry_deserialize value;
          let '(batch, accounts, last_term) := st in
          let accounts := entry_accounts accounts entry in
          compact_raft_loop up_to it
            (if negb (rid_index raft_id =? up_to) then (batch ++ [OpDelete Logs key], accounts, last_term)
             else (batch, accounts, rid_term raft_id))
        else Some st
  end.

(** [changed_collections]: the accounts by the set of collections they
    changed. The hash maps are iterated in the order of the finite maps. *)
Definition accounts_by_collections (changed_accounts : gmap AccountId Z) : gmap Z (list AccountId) :=
  fold_left
    (fun m '(account_id, collections) =>
       <[collections := default [] (m !! collections) ++ [account_id]]> m)
    (map_to_list changed_accounts) ∅.

Definition compact_raft (up_to : LogIndex) (db : DB) : DB * bool :=
  match compact_raft_loop up_to (db_iterator db Logs [LogKey.RAFT_KEY_PREFIX] Forward)
          ([], ∅, U64_MAX) with
  | Some (write_batch, changed_accounts, last_term) =>
      (db_write db (write_batch ++
         [OpSet Logs (LogKey.serialize_raft (mkRaftId last_term up_to))
            (snapshot_bytes (map_to_list (accounts_by_collections changed_accounts)))]), true)
  | None => (db, false)
  end.

Definition compact_log_up_to (db0 : DB) (up_to : ChangeId) : DB * bool :=
  let '(st, ok) :=
    compact_loop up_to (db_iterator db0 Logs [LogKey.CHANGE_KEY_PREFIX] Forward)
      (mkCompaction db0 0 Collection.None ∅ [] false) in
  if negb ok then (db st, false)
  else if negb (has_changes st) then (db st, true)
  else compact_raft up_to (db (write_snapshot up_to st)).

Definition compact_log (db0 : DB) (max_changes : Z) : DB * bool :=
  match get_next_raft_id db0 (mkRaftId 0 0), get_prev_raft_id db0 (mkRaftId U64_MAX U64_MAX) with
  | Some (Some first), Some (Some last) =>
      let first_index := rid_index first in
      let last_index := rid_index last in
      if (first_index <? last_index) && (max_changes <? last_index - first_index) then
        compact_log_up_to db0 (u64 (last_index - max_changes + 1))
      else (db0, true)
  | Some _, Some _ => (db0, true)
  | _, _ => (db0, false)
  end.
End Compact.

(** ** What an entry does to the set of ids *)

Lemma skip_ids_loop_app fuel ids rest :
  Forall (fits 64) ids -> (length ids <= fuel)%nat ->
  skip_ids_loop fuel (Z.of_nat (length ids)) (flat_map leb128 ids ++ rest) = Some rest.
Proof.
  intros Hids. revert fuel. induction Hids as [|id ids Hid _ IH]; intros fuel Hf; [by destruct fuel|].
  cbn [length] in *. destruct fuel as [|fuel]; [lia|]. cbn [skip_ids_loop flat_map].
  rewrite (proj2 (Z.leb_gt _ _)) by lia. rewrite <- app_assoc, skip_leb128_app by done.
  cbn [mbind option_bind]. replace (Z.of_nat (S (length ids)) - 1) with (Z.of_nat (length ids)) by lia.
  apply IH. lia.
Qed.

Lemma skip_ids_app ids rest :
  Forall (fits 64) ids ->
  skip_ids (Z.of_nat (length ids)) (flat_map leb128 ids ++ rest) = Some rest.
Proof.
  intros Hids. apply skip_ids_loop_app; [done|]. rewrite length_app.
  pose proof (flat_map_leb128_length ids). lia.
Qed.

Lemma fold_union (l : list Z) (ids : gset Z) :
  fold_left (fun ids id => ids ∪ {[id]}) l ids = ids ∪ list_to_set l.
Proof. revert ids. induction l as [|x l IH]; intros ids; cbn; [set_solver|]. rewrite IH. set_solver. Qed.
Lemma fold_difference (l : list Z) (ids : gset Z) :
  fold_left (fun ids id => ids ∖ {[id]}) l ids = ids ∖ list_to_set l.
Proof. revert ids. induction l as [|x l IH]; intros ids; cbn; [set_solver|]. rewrite IH. set_solver. Qed.

(** The values of the change entries. *)
Definition entry_value `{Treemap} (v : list Z) : Prop :=
  (exists c, change_wf c /\ v = Batch.serialize c) \/ (exists ids, ids_ok ids /\ v = change_snapshot ids).

Lemma deserialize_inserts_entry `{Treemap} ids c :
  change_wf c ->
  deserialize_inserts ids (Batch.serialize c) =
  Some ((ids ∪ list_to_set (Batch.inserts c)) ∖ list_to_set (Batch.deletes c)).
Proof.
  intros (Hids & Hi & Hu & Hc & Hd). rewrite !Forall_app in Hids.
  destruct Hids as (Wi & Wu & Wc & Wd).
  rewrite batch_serialize_bytes, flat_map_app. unfold deserialize_inserts.
  rewrite (Z.eqb_refl Batch.ENTRY).
  repeat (rewrite next_leb128_app by (apply usize_decodable; unfold fits; lia);
    cbn [mbind option_bind]).
  rewrite for_leb128_app by (eapply Forall_impl; [done|apply u64_decodable]).
  cbn [mbind option_bind]. rewrite <- !app_assoc, skip_ids_app by done. cbn [mbind option_bind].
  rewrite skip_ids_app by done. cbn [mbind option_bind].
  rewrite for_leb128_app by (eapply Forall_impl; [done|apply u64_decodable]).
  cbn [mbind option_bind]. by rewrite !fold_pos_const, fold_union, fold_difference.
Qed.

Lemma entry_value_ids `{TreemapLaws} v ids :
  entry_value v -> ids_ok ids -> exists ids', deserialize_inserts ids v = Some ids' /\ ids_ok ids'.
Proof.
  intros [(c & Hc & ->)|(ids' & Hok & ->)] Hids.
  - rewrite deserialize_inserts_entry by done. eexists; split; [done|].
    destruct Hc as [[Hf _]%Forall_app _]. rewrite Forall_forall in Hf.
    intros x [[Hx|Hx%elem_of_list_to_set]%elem_of_union _]%elem_of_difference; [by apply Hids|].
    by apply Hf.
  - exists ids'. split; [|done]. by apply treemap_roundtrip.
Qed.

(** ** The log as entries *)

Abbreviation group := (AccountId * Collection.t)%type.
Abbreviation entry := (group * (ChangeId * list Z))%type.
Definition group_key (g : group) (i : ChangeId) : list Z := LogKey.serialize_change g.1 g.2 i.
Definition entry_key (e : entry) : list Z := group_key e.1 e.2.1.
Definition group_fits (g : group) : Prop := fits 32 g.1.
Definition entry_fits (e : entry) : Prop := group_fits e.1 /\ fits 64 e.2.1.

Lemma group_key_inj g i g' i' :
  group_fits g -> group_fits g' -> fits 64 i -> fits 64 i' ->
  group_key g i = group_key g' i' -> g = g' /\ i = i'.
Proof.
  destruct g as [a c], g' as [a' c']. unfold group_key. cbn [fst snd]. intros Ha Ha' Hi Hi' E.
  assert (a = a' /\ c = c') as [-> ->].
  { apply (change_key_prefix_inj a c i a' c'); [done..|]. rewrite E. apply change_key_starts. }
  split; [done|]. by eapply change_key_inj.
Qed.

Lemma group_key_starts g i : starts_with (group_key g i) [LogKey.CHANGE_KEY_PREFIX] = true.
Proof. done. Qed.

Lemma group_key_fields g i :
  group_fits g -> fits 64 i ->
  deserialize_be_u32 (group_key g i) LogKey.ACCOUNT_POS = Some g.1 /\
  group_key g i !! LogKey.COLLECTION_POS = Some (Collection.to_u8 g.2) /\
  LogKey.deserialize_change_id (group_key g i) = Some i.
Proof.
  intros Hg Hi. unfold group_key. split_and!; [| |by apply change_id_decode].
  - apply (deserialize_be_u32_app [LogKey.CHANGE_KEY_PREFIX]). exact Hg.
  - rewrite change_key_split. unfold change_prefix.
    rewrite lookup_app_l by (cbn [length]; rewrite length_app, be_bytes_length; unfold LogKey.COLLECTION_POS; cbn; lia).
    change ((be_bytes 4 g.1 ++ [Collection.to_u8 g.2]) !! 4%nat = Some (Collection.to_u8 g.2)).
    rewrite lookup_app_r; rewrite be_bytes_length; done.
Qed.

(** An entry between two entries of a group is of the group. *)
Lemma group_between g i e i' :
  group_fits g -> entry_fits e -> bytes_le (group_key g i) (entry_key e) ->
  bytes_le (entry_key e) (group_key g i') -> e.1 = g.
Proof.
  destruct g as [a c], e as [[a' c'] [j v]]. unfold entry_key, group_key. cbn [fst snd].
  intros Ha [Ha' _] H1 H2. rewrite (change_key_split a c) in H1, H2.
  pose proof (prefix_between _ _ _ _ H1 H2) as Hp.
  apply change_key_prefix_inj in Hp as [-> ->]; done.
Qed.

Lemma Forall_image {A B} (f : A -> B) (P : A -> Prop) (l : list B) :
  (forall y, y ∈ l -> exists x, y = f x /\ P x) -> exists k, l = f <$> k /\ Forall P k.
Proof.
  induction l as [|y l IH]; intros Hl; [by exists []|].
  destruct (Hl y) as (x & -> & Hx); [by apply elem_of_cons; left|].
  destruct IH as (k & -> & Hk); [intros z Hz; by apply Hl, elem_of_cons; right|].
  exists (x :: k). split; [done|]. by constructor.
Qed.

Section Loop.
Context `{TreemapLaws} `{StoreLaws DB}.
Variables (db0 : DB) (up_to : ChangeId).
Hypothesis up_to_fits : fits 64 up_to.

(** Deleting some keys of the log and setting one. *)
Lemma write_deletes_set (db : DB) keys key v cf k :
  db_get (db_write db ((OpDelete Logs <$> keys) ++ [OpSet Logs key v])) cf k =
  if decide (cf = Logs /\ k = key) then Some v
  else if decide (cf = Logs /\ k ∈ keys) then None else db_get db cf k.
Proof.
  rewrite <- write_deletes, !db_write_get, fold_left_app. cbn [fold_left]. unfold op_effect at 1. cbn [op_cf op_key].
  case_bool_decide as Hk; destruct (decide _) as [Hd|Hd]; [done|naive_solver..|done].
Qed.

(** The ids left by a run of entries. *)
Fixpoint live (ids : gset Z) (l : list (ChangeId * list Z)) : option (gset Z) :=
  match l with
  | [] => Some ids
  | (_, v) :: l => ids ← deserialize_inserts ids v; live ids l
  end.

(** The part of a group up to [up_to], and the ids of it to delete. *)
Definition old (g : group) (d : list entry) : list (ChangeId * list Z) :=
  snd <$> filter (fun e => e.1 = g /\ e.2.1 <= up_to) d.
Definition dels (g : group) (d : list entry) : list ChangeId :=
  (fun e => e.2.1) <$> filter (fun e => e.1 = g /\ e.2.1 < up_to) d.

Definition snapshot_of (g : group) (d : list entry) : list Z :=
  change_snapshot (default ∅ (live ∅ (old g d))).

(** The value of a key once the entries [d] of its group are compacted. *)
Definition compacted (d : list entry) (g : group) (i : ChangeId) : option (list Z) :=
  match dels g d with
  | [] => db_get db0 Logs (group_key g i)
  | _ :: _ =>
      if decide (i = up_to) then Some (snapshot_of g d)
      else if decide (i ∈ dels g d) then None
      else db_get db0 Logs (group_key g i)
  end.

Definition current (st : compaction (DB := DB)) : group := (current_account_id st, current_collection st).

Definition other_key (cf : ColumnFamily) (k : list Z) : Prop :=
  cf = Logs -> forall g i, group_fits g -> fits 64 i -> k <> group_key g i.

(** The state after the entries [d]: the groups before the current one are
    compacted, the current one is being read. *)
Record group_inv (d : list entry) (st : compaction (DB := DB)) : Prop := {
  inv_ids : live ∅ (old (current st) d) = Some (inserted_ids st);
  inv_ids_ok : ids_ok (inserted_ids st);
  inv_batch : write_batch st = OpDelete Logs <$> (group_key (current st) <$> dels (current st) d);
  inv_has : has_changes st = true <-> exists e, e ∈ d /\ e.2.1 = up_to;
  inv_wf : log_wf (db st);
  inv_other cf k : other_key cf k -> db_get (db st) cf k = db_get db0 cf k;
  inv_db g i : group_fits g -> fits 64 i ->
    db_get (db st) Logs (group_key g i) =
    if decide (g = current st) then db_get db0 Logs (group_key g i) else compacted d g i
}.
Record loop_inv (d : list entry) (st : compaction (DB := DB)) : Prop := {
  inv_cur : d = [] \/ exists d' e, d = d' ++ [e] /\ e.1 = current st;
  inv_group :> group_inv d st
}.

Lemma live_snoc ids l i v : live ids (l ++ [(i, v)]) = ids ← live ids l; deserialize_inserts ids v.
Proof.
  revert ids. induction l as [|[j w] l IH]; intros ids; cbn [app live mbind option_bind].
  - by destruct (deserialize_inserts ids v).
  - destruct (deserialize_inserts ids w); [|done]. apply IH.
Qed.

Lemma elem_of_dels g d i : i ∈ dels g d <-> exists v, (g, (i, v)) ∈ d /\ i < up_to.
Proof.
  unfold dels. rewrite list_elem_of_fmap. split.
  - intros ([g' [j v]] & -> & [[<- Hlt] Hin]%list_elem_of_filter). by exists v.
  - intros (v & Hin & Hlt). exists (g, (i, v)). split; [done|]. by apply list_elem_of_filter.
Qed.

Lemma group_current_fits d st :
  Forall entry_fits d -> loop_inv d st -> d <> [] -> group_fits (current st).
Proof.
  intros Hf Hi Hd. destruct (inv_cur _ _ Hi) as [?|(d' & e & -> & <-)]; [done|].
  rewrite Forall_app, Forall_singleton in Hf. apply Hf.
Qed.

Lemma dels_fits g d i : Forall entry_fits d -> i ∈ dels g d -> fits 64 i.
Proof. rewrite Forall_forall. intros Hf (v & Hin & _)%elem_of_dels. apply (Hf _ Hin). Qed.

(** Writing the snapshot of the current group. *)
Lemma write_snapshot_db d st :
  Forall entry_fits d -> loop_inv d st ->
  log_wf (db (write_snapshot up_to st)) /\
  (forall cf k, other_key cf k -> db_get (db (write_snapshot up_to st)) cf k = db_get db0 cf k) /\
  (forall g i, group_fits g -> fits 64 i ->
    db_get (db (write_snapshot up_to st)) Logs (group_key g i) = compacted d g i).
Proof.
  intros Hf Hi. unfold write_snapshot. destruct (dels (current st) d) as [|x xs] eqn:Ed.
  { rewrite (inv_batch _ _ Hi), Ed. cbn. split; [apply (inv_wf _ _ Hi)|]. split; [apply (inv_other _ _ Hi)|].
    intros g i Hg Hii. rewrite (inv_db _ _ Hi) by done. destruct (decide _) as [->|]; [|done].
    unfold compacted. by rewrite Ed. }
  assert (group_fits (current st)) as Hc.
  { apply (group_current_fits d); [done..|]. intros ->. discriminate. }
  assert (exists op ops, write_batch st = op :: ops) as (op & ops & Hb).
  { rewrite (inv_batch _ _ Hi), Ed. by eexists _, _. }
  rewrite Hb. cbn [serialize_snapshot db]. rewrite <- Hb, (inv_batch _ _ Hi).
  change (LogKey.serialize_change (current_account_id st) (current_collection st) up_to)
    with (group_key (current st) up_to). split; [|split].
  - intros k v. rewrite write_deletes_set. destruct (decide _) as [[_ ->]|_].
    { intros _ _. by exists (current st).1, (current st).2, up_to. }
    destruct (decide _); [done|]. apply (inv_wf _ _ Hi).
  - intros cf k Hk. rewrite write_deletes_set, !decide_False; [by apply (inv_other _ _ Hi)| |].
    + intros [-> (i & -> & Hin)%list_elem_of_fmap]. apply (Hk eq_refl (current st) i); [done| |done].
      by eapply dels_fits.
    + intros [-> ->]. by apply (Hk eq_refl (current st) up_to).
  - intros g i Hg Hii. rewrite write_deletes_set, (inv_db _ _ Hi) by done.
    unfold compacted, snapshot_of. destruct (decide (g = current st)) as [->|Hne].
    + rewrite (inv_ids _ _ Hi), Ed. cbv beta iota. cbn [default id].
      destruct (decide (i = up_to)) as [->|Hn]; [by rewrite decide_True|].
      rewrite decide_False by (intros [_ [_ ?]%group_key_inj]; done).
      destruct (decide (i ∈ x :: xs)) as [Hin|Hin].
      * rewrite decide_True; [done|]. split; [done|]. by apply list_elem_of_fmap_2.
      * rewrite decide_False; [done|].
        intros [_ (j & Ej & Hj)%list_elem_of_fmap]. apply Hin.
        apply group_key_inj in Ej as [_ ->]; [done..|].
        apply (dels_fits (current st) d); [done|by rewrite Ed].
    + destruct (decide _) as [[_ [? _]%group_key_inj]|_]; [done..|].
      destruct (decide _) as [[_ (j & Ej & Hj)%list_elem_of_fmap]|_]; [|done].
      apply group_key_inj in Ej as [? _]; [done..|by eapply dels_fits].
Qed.

(** The entries read so far and the ones to come, in the order of their keys. *)
Definition entry_lt (e e' : entry) : Prop := bytes_lt (entry_key e) (entry_key e').

Section Entries.
Variable all : list entry.
Hypothesis all_fits : Forall entry_fits all.
Hypothesis all_sorted : StronglySorted entry_lt all.
Hypothesis all_values : forall e, e ∈ all -> entry_value e.2.2.
(** No group has its only entry up to [up_to] at [up_to] itself. *)
Hypothesis all_earlier : forall g v,
  (g, (up_to, v)) ∈ all -> exists i v', (g, (i, v')) ∈ all /\ i < up_to.

Lemma prefix_fits d e rest : all = d ++ e :: rest -> Forall entry_fits d /\ entry_fits e.
Proof. intros E. rewrite E in all_fits. apply Forall_app in all_fits as [? [? _]%Forall_cons]. done. Qed.

Lemma before d e rest e' : all = d ++ e :: rest -> e' ∈ d -> entry_lt e' e.
Proof.
  intros E. revert all_sorted. rewrite E. clear. induction d as [|x d IH]; [by intros _ ?%not_elem_of_nil|].
  cbn. intros [Hs Hx]%StronglySorted_inv [->|Hin]%elem_of_cons; [|by apply IH].
  rewrite Forall_forall in Hx. apply Hx, elem_of_app. right. by apply elem_of_cons; left.
Qed.

(** A group is read in one go: when an entry has been read that is of the
    group of the next one, the last entry read is of that group. *)
Lemma group_run d l e rest i v :
  all = (d ++ [l]) ++ e :: rest -> (e.1, (i, v)) ∈ d ++ [l] -> e.1 = l.1.
Proof.
  intros E Hin. destruct (prefix_fits _ _ _ E) as [Hd He].
  apply elem_of_app in Hin as [Hin|<-%list_elem_of_singleton]; [|done].
  symmetry. apply (group_between _ i _ e.2.1).
  - apply He.
  - rewrite Forall_app, Forall_singleton in Hd. apply Hd.
  - apply bytes_le_lt_eq. left. refine (before d l (e :: rest) (e.1, (i, v)) _ Hin).
    by rewrite E, <- app_assoc.
  - apply bytes_le_lt_eq. left. eapply before; [done|]. apply elem_of_app. right.
    by apply list_elem_of_singleton.
Qed.
Lemma new_group d e rest st i v :
  all = d ++ e :: rest -> loop_inv d st -> e.1 <> current st -> ~ (e.1, (i, v)) ∈ d.
Proof.
  intros E Hi Hne Hin. destruct (inv_cur _ _ Hi) as [->|(d' & l & -> & Hl)]; [by apply not_elem_of_nil in Hin|].
  apply Hne. rewrite <- Hl. by eapply group_run.
Qed.

Lemma old_dels g d : dels g d = [] -> (forall v, ~ (g, (up_to, v)) ∈ d) -> old g d = [].
Proof.
  intros Hd Hu. unfold old. rewrite filter_none; [done|]. intros [g' [i v]] Hin [Hg Hle]. cbn in *. subst g'.
  destruct (decide (i = up_to)) as [->|]; [by eapply Hu|].
  apply (not_elem_of_nil i). rewrite <- Hd. apply elem_of_dels. exists v. split; [done|lia].
Qed.

Lemma absent_group g d : (forall i v, ~ (g, (i, v)) ∈ d) -> old g d = [] /\ dels g d = [].
Proof.
  intros Hn. assert (dels g d = []) as Hd.
  { destruct (dels g d) as [|i l] eqn:E; [done|]. exfalso.
    destruct (proj1 (elem_of_dels g d i)) as (v & Hin & _); [rewrite E; by apply elem_of_cons; left|].
    by eapply Hn. }
  split; [|done]. apply old_dels; [done|]. intros v. apply Hn.
Qed.

(** With [all_earlier], a group without a deletion has left no ids behind. *)
Lemma no_leak d e rest st :
  all = d ++ e :: rest -> loop_inv d st -> dels (current st) d = [] -> inserted_ids st = ∅.
Proof.
  intros E Hi Hd. pose proof (inv_ids _ _ Hi) as Hids. rewrite old_dels in Hids; [by injection Hids|done|].
  intros v Hin. destruct (all_earlier (current st) v) as (i & v' & Hin' & Hlt).
  { rewrite E. apply elem_of_app. by left. }
  rewrite E in Hin'. assert ((current st, (i, v')) ∈ d) as Hin2.
  { apply elem_of_app in Hin' as [?|Hin']; [done|]. exfalso.
    assert (entry_lt (current st, (up_to, v)) (current st, (i, v'))) as Hb.
    { apply elem_of_cons in Hin' as [->|Hin']; [by eapply before|].
      apply list_elem_of_split in Hin' as (l1 & l2 & ->).
      apply (before (d ++ e :: l1) _ l2); [by rewrite E, <- app_assoc|].
      apply elem_of_app. by left. }
    assert (group_fits (current st) /\ fits 64 i) as [Hg Hii].
    { rewrite Forall_forall in all_fits. apply (all_fits (current st, (i, v'))). rewrite E.
      apply elem_of_app. by right. }
    unfold entry_lt, entry_key, group_key in Hb. cbn [fst snd] in Hb.
    rewrite change_key_lt in Hb by done. lia. }
  apply (not_elem_of_nil i). rewrite <- Hd. apply elem_of_dels. by exists v'.
Qed.

Lemma enter_group_inv d e rest st :
  all = d ++ e :: rest -> loop_inv d st ->
  let st' := enter_group up_to e.1.1 e.1.2 st in current st' = e.1 /\ group_inv d st'.
Proof.
  intros E Hi. destruct (prefix_fits _ _ _ E) as [Hd He]. cbn zeta. unfold enter_group.
  destruct (decide (e.1 = current st)) as [Hc|Hc].
  { assert (e.1.1 = current_account_id st) as -> by by rewrite Hc.
    assert (e.1.2 = current_collection st) as -> by by rewrite Hc.
    rewrite Z.eqb_refl, bool_decide_eq_true_2 by done.
    cbn. split; [done|apply Hi]. }
  assert (negb (e.1.1 =? current_account_id st) ||
    negb (bool_decide (e.1.2 = current_collection st)) = true) as ->.
  { destruct (Z.eqb_spec e.1.1 (current_account_id st)), (bool_decide_reflect (e.1.2 = current_collection st));
      cbn; try done. exfalso. apply Hc. destruct e as [[? ?] ?]. cbn in *. by subst. }
  destruct (absent_group e.1 d (fun i v => new_group d e rest st i v E Hi Hc)) as [Ho Hdel].
  destruct (write_snapshot_db d st Hd Hi) as (Hwf & Hother & Hdb).
  assert (inserted_ids (write_snapshot up_to st) = ∅ /\ write_batch (write_snapshot up_to st) = [] /\
    has_changes (write_snapshot up_to st) = has_changes st) as (Hids & Hb & Hh).
  { unfold write_snapshot. destruct (write_batch st) eqn:Eb; [|done]. split_and!; [|done..].
    eapply no_leak; [done..|]. rewrite (inv_batch _ _ Hi) in Eb. by apply fmap_nil_inv, fmap_nil_inv in Eb. }
  split; [by destruct e as [[? ?] ?]|].
  assert (forall s, current (mkCompaction (db s) e.1.1 e.1.2 (inserted_ids s) (write_batch s)
    (has_changes s)) = e.1) as Hcur by (intros; by destruct e as [[? ?] ?]).
  split; rewrite ?Hcur; cbn [inserted_ids write_batch has_changes db].
  - by rewrite Ho, Hids.
  - rewrite Hids. by apply set_Forall_empty.
  - by rewrite Hdel, Hb.
  - rewrite Hh. apply (inv_has _ _ Hi).
  - exact Hwf.
  - apply Hother.
  - intros g i Hg Hii. rewrite Hdb by done. destruct (decide _) as [->|]; [|done].
    unfold compacted. by rewrite Hdel.
Qed.

Lemma old_snoc g d e :
  old g (d ++ [e]) = old g d ++ (if decide (e.1 = g /\ e.2.1 <= up_to) then [e.2] else []).
Proof. unfold old. rewrite filter_app, fmap_app, filter_cons. by destruct (decide _). Qed.
Lemma dels_snoc g d e :
  dels g (d ++ [e]) = dels g d ++ (if decide (e.1 = g /\ e.2.1 < up_to) then [e.2.1] else []).
Proof. unfold dels. rewrite filter_app, fmap_app, filter_cons. by destruct (decide _). Qed.

Lemma compacted_above d g i : up_to < i -> compacted d g i = db_get db0 Logs (group_key g i).
Proof.
  intros Hlt. unfold compacted. destruct (dels g d) as [|x xs] eqn:Ed; [done|].
  rewrite decide_False by lia. destruct (decide _) as [Hin|]; [|done]. rewrite <- Ed in Hin.
  apply elem_of_dels in Hin as (? & _ & ?). lia.
Qed.

Lemma compacted_snoc d e g i : g <> e.1 -> compacted (d ++ [e]) g i = compacted d g i.
Proof.
  intros Hg. unfold compacted, snapshot_of. rewrite dels_snoc, old_snoc.
  rewrite (decide_False (P := e.1 = g /\ e.2.1 < up_to)), (decide_False (P := e.1 = g /\ e.2.1 <= up_to))
    by (intros [? _]; congruence). by rewrite !app_nil_r.
Qed.

Lemma has_snoc d e st (b : bool) :
  group_inv d st -> (b = true <-> e.2.1 = up_to) ->
  has_changes st || b = true <-> exists e', e' ∈ d ++ [e] /\ e'.2.1 = up_to.
Proof.
  intros Hi Hb. rewrite orb_true_iff, (inv_has _ _ Hi), Hb. split.
  - intros [(e' & Hin & He)|He]; [exists e'|exists e]; (split; [|done]); apply elem_of_app;
      [by left|right]. by apply list_elem_of_singleton.
  - intros (e0 & [Hin|E0%list_elem_of_singleton]%elem_of_app & He); [left; by exists e0|right; by subst].
Qed.

Lemma compact_entry_inv d e rest st :
  all = d ++ e :: rest -> current st = e.1 -> group_inv d st ->
  exists st', compact_entry up_to e.2.1 (entry_key e) e.2.2 st = Some st' /\ loop_inv (d ++ [e]) st'.
Proof.
  intros E Hc Hi. unfold compact_entry. destruct (Z.ltb_spec up_to e.2.1) as [Hlt|Hle].
  - exists st. split; [done|]. split; [right; exists d, e; split; [done|by symmetry]|]. split.
    + rewrite old_snoc, decide_False by (intros [_ ?]; lia). rewrite app_nil_r. apply (inv_ids _ _ Hi).
    + apply (inv_ids_ok _ _ Hi).
    + rewrite dels_snoc, decide_False by (intros [_ ?]; lia). rewrite app_nil_r. apply (inv_batch _ _ Hi).
    + rewrite <- (has_snoc d e st false Hi), orb_false_r; [done|]. split; [done|lia].
    + apply (inv_wf _ _ Hi).
    + apply (inv_other _ _ Hi).
    + intros g i Hg Hii. rewrite (inv_db _ _ Hi) by done. destruct (decide _); [done|].
      rewrite compacted_snoc; [done|by rewrite <- Hc].
  - destruct (entry_value_ids e.2.2 (inserted_ids st)) as (ids & Hids & Hok).
    { apply all_values. rewrite E. apply elem_of_app. right. by apply elem_of_cons; left. }
    { apply (inv_ids_ok _ _ Hi). }
    rewrite Hids. cbn [mbind option_bind]. eexists. split; [done|].
    split; [right; exists d, e; split; [done|by symmetry]|].
    change (current (mkCompaction _ _ _ _ _ _)) with (current st).
    split; cbn [db inserted_ids write_batch has_changes]; try change (current (mkCompaction _ _ _ _ _ _)) with (current st).
    + rewrite old_snoc, decide_True by (split; [by symmetry|done]). destruct e as [g [i v]]. cbn [snd].
      rewrite live_snoc, (inv_ids _ _ Hi). done.
    + done.
    + rewrite dels_snoc, (inv_batch _ _ Hi). destruct (Z.eqb_spec e.2.1 up_to); cbn [negb].
      * by rewrite decide_False, app_nil_r by (intros [_ ?]; lia).
      * rewrite decide_True by (split; [by symmetry|lia]). rewrite !fmap_app. cbn. by rewrite Hc.
    + rewrite <- (has_snoc d e st (e.2.1 =? up_to) Hi) by apply Z.eqb_eq.
      destruct (Z.eqb_spec e.2.1 up_to); cbn [negb]; by destruct (has_changes st).
    + apply (inv_wf _ _ Hi).
    + apply (inv_other _ _ Hi).
    + intros g i Hg Hii. rewrite (inv_db _ _ Hi) by done. destruct (decide _); [done|].
      rewrite compacted_snoc; [done|by rewrite <- Hc].
Qed.

Definition kv_of (e : entry) : list Z * list Z := (entry_key e, e.2.2).

Lemma compact_loop_inv d rest st :
  all = d ++ rest -> loop_inv d st ->
  exists st', compact_loop up_to (kv_of <$> rest) st = (st', true) /\ loop_inv all st'.
Proof.
  revert d st. induction rest as [|e rest IH]; intros d st E Hi.
  - rewrite app_nil_r in E. subst d. by exists st.
  - destruct (prefix_fits _ _ _ E) as [_ [Hg He]].
    destruct (enter_group_inv d e rest st E Hi) as [Hc Hi'].
    destruct (compact_entry_inv d e rest _ E Hc Hi') as (st' & Hst' & Hi2).
    cbn [fmap list_fmap compact_loop kv_of]. unfold kv_of at 1. unfold entry_key at 1 2 3 4.
    destruct (group_key_fields e.1 e.2.1 Hg He) as (-> & -> & ->).
    rewrite group_key_starts, Collection.of_to_u8. cbn [negb].
    change (group_key e.1 e.2.1) with (entry_key e). rewrite Hst'. apply (IH (d ++ [e])); [|done].
    by rewrite <- app_assoc.
Qed.
End Entries.

(** ** From the store to its entries *)

Lemma compact_loop_prefix it st :
  compact_loop up_to (take_prefix [LogKey.CHANGE_KEY_PREFIX] it) st = compact_loop up_to it st.
Proof.
  revert st. induction it as [|[k v] it IH]; intros st; [done|]. cbn [take_prefix fst].
  destruct (starts_with k _) eqn:E; cbn [compact_loop]; rewrite E; [|done]. cbn [negb].
  destruct (deserialize_be_u32 _ _), (k !! LogKey.COLLECTION_POS); try done. destruct (LogKey.deserialize_change_id k); [|done].
  destruct (compact_entry _ _ _ _ _); [|done]. apply IH.
Qed.

Lemma log_entries :
  log_wf db0 ->
  exists all, take_prefix [LogKey.CHANGE_KEY_PREFIX]
      (db_iterator db0 Logs [LogKey.CHANGE_KEY_PREFIX] Forward) = kv_of <$> all /\
    Forall entry_fits all /\ StronglySorted entry_lt all /\
    forall e, e ∈ all <-> entry_fits e /\ db_get db0 Logs (entry_key e) = Some e.2.2.
Proof.
  intros Hwf. pose proof (prefix_scan db0 Logs [LogKey.CHANGE_KEY_PREFIX]) as Hscan.
  pose proof (take_prefix_sorted [LogKey.CHANGE_KEY_PREFIX] _
    (db_forward_sorted db0 Logs [LogKey.CHANGE_KEY_PREFIX])) as Hs.
  destruct (Forall_image kv_of entry_fits (take_prefix [LogKey.CHANGE_KEY_PREFIX]
      (db_iterator db0 Logs [LogKey.CHANGE_KEY_PREFIX] Forward))) as (all & E & Hall).
  { intros [k v] [Hg Hp]%Hscan. destruct (Hwf k v Hg Hp) as (a & c & i & Ha & Hi & ->).
    exists ((a, c), (i, v)). done. }
  exists all. rewrite E in *. split_and!; [done..| |].
  - clear - Hs. induction all as [|e all IH]; [constructor|].
    cbn [fmap list_fmap] in Hs. apply StronglySorted_inv in Hs as [Hs Hlt].
    constructor; [by apply IH|]. rewrite Forall_fmap in Hlt. done.
  - intros e. split.
    + intros Hin. rewrite Forall_forall in Hall. split; [by apply Hall|].
      apply (Hscan (entry_key e)). apply list_elem_of_fmap. by exists e.
    + intros [Hf Hg]. assert ((entry_key e, e.2.2) ∈ kv_of <$> all) as Hin by by apply Hscan.
      apply list_elem_of_fmap in Hin as (e' & E' & Hin). rewrite Forall_forall in Hall.
      pose proof (f_equal fst E') as Hk. pose proof (f_equal snd E') as Hv. clear E'.
      specialize (Hall _ Hin). destruct e as [g [i v]], e' as [g' [i' v']], Hf, Hall. unfold kv_of, entry_key in Hk, Hv.
      cbn [fst snd] in *. apply group_key_inj in Hk as [-> ->]; [|done..]. subst v'. exact Hin.
Qed.

Lemma live_app ids l k : live ids (l ++ k) = ids ← live ids l; live ids k.
Proof.
  revert ids. induction l as [|[j w] l IH]; intros ids; cbn [app live mbind option_bind]; [done|].
  destruct (deserialize_inserts ids w); [|done]. apply IH.
Qed.

Lemma live_ok ids l :
  (forall e, e ∈ l -> entry_value e.2) -> ids_ok ids -> exists ids', live ids l = Some ids' /\ ids_ok ids'.
Proof.
  revert ids. induction l as [|[i v] l IH]; intros ids Hl Hok; [by exists ids|].
  destruct (entry_value_ids v ids) as (ids' & E & Hok'); [|done|].
  { apply (Hl (i, v)), elem_of_cons. by left. }
  cbn [live]. rewrite E. cbn [mbind option_bind]. apply IH; [|done].
  intros e He. apply Hl, elem_of_cons. by right.
Qed.

(** The ids of a group according to the log. *)
Definition log_set (db : DB) (g : group) : option (gset Z) := live ∅ (visited db g.1 g.2 0).

Definition change_values (db : DB) : Prop :=
  forall g i v, group_fits g -> fits 64 i -> db_get db Logs (group_key g i) = Some v -> entry_value v.

Definition of_db (all : list entry) : Prop :=
  forall e, e ∈ all <-> entry_fits e /\ db_get db0 Logs (entry_key e) = Some e.2.2.

Lemma compacted_below all g i :
  of_db all -> group_fits g -> fits 64 i -> i < up_to -> compacted all g i = None.
Proof.
  intros Hall Hg Hi Hlt. unfold compacted.
  assert (forall v, db_get db0 Logs (group_key g i) = Some v -> i ∈ dels g all) as Hin.
  { intros v Hv. apply elem_of_dels. exists v. split; [|done]. by apply Hall. }
  destruct (db_get db0 Logs (group_key g i)) as [v|]; [specialize (Hin v eq_refl)|].
  - destruct (dels g all) as [|x xs]; [by apply not_elem_of_nil in Hin|].
    by rewrite decide_False, decide_True by (done || lia).
  - destruct (dels g all); [done|]. rewrite decide_False by lia. by destruct (decide _).
Qed.

Lemma elem_of_group db g i v :
  log_wf db -> group_fits g ->
  (i, v) ∈ visited db g.1 g.2 0 <-> fits 64 i /\ db_get db Logs (group_key g i) = Some v.
Proof.
  intros Hwf Hg. rewrite elem_of_visited by (done || (unfold fits; lia)). unfold group_key. split.
  - tauto.
  - intros [Hi ?]. split_and!; [done| |done]. destruct Hi. lia.
Qed.

Lemma group_sorted g l :
  (forall e, e ∈ l -> e.1 = g /\ entry_fits e) -> StronglySorted entry_lt l ->
  StronglySorted (fun e e' : ChangeId * list Z => e.1 < e'.1) (snd <$> l).
Proof.
  intros Hl Hs. induction Hs as [|e l Hs IH Hlt]; [constructor|]. cbn [fmap list_fmap].
  constructor; [apply IH; intros; apply Hl, elem_of_cons; by right|].
  rewrite Forall_fmap. rewrite Forall_forall in *. intros e' He'. specialize (Hlt _ He').
  destruct (Hl e) as [Eg [Hg Hi]]; [by apply elem_of_cons; left|].
  destruct (Hl e') as [Eg' [Hg' Hi']]; [by apply elem_of_cons; right|].
  unfold entry_lt, entry_key, group_key in Hlt. rewrite Eg', <- Eg in Hlt.
  by rewrite change_key_lt in Hlt.
Qed.

Lemma old_visited all g :
  log_wf db0 -> group_fits g -> StronglySorted entry_lt all -> of_db all ->
  old g all = filter (fun e => e.1 <= up_to) (visited db0 g.1 g.2 0).
Proof.
  intros Hwf Hg Hs Hall. apply (sorted_by_unique (fun e e' => e.1 < e'.1)).
  - intros x. lia.
  - intros x y z. lia.
  - apply (group_sorted g); [|by apply StronglySorted_filter].
    intros e [[? _] [? _]%Hall]%list_elem_of_filter. done.
  - apply StronglySorted_filter, visited_sorted; [done..|]. unfold fits. lia.
  - intros [i v]. unfold old. rewrite list_elem_of_filter, elem_of_group, list_elem_of_fmap by done. split.
    + intros ([g' [i' v']] & [= -> ->] & [[<- Hle] [[_ Hi] Hin]%Hall]%list_elem_of_filter). done.
    + intros (Hle & Hi & Hin). exists (g, (i, v)). split; [done|].
      apply list_elem_of_filter. split; [done|]. by apply Hall.
Qed.

(** The group after compaction: the snapshot, then the entries above [up_to]. *)
Lemma visited_compacted db1 all g :
  log_wf db0 -> log_wf db1 -> group_fits g -> of_db all ->
  (forall i, fits 64 i -> db_get db1 Logs (group_key g i) = compacted all g i) ->
  visited db1 g.1 g.2 0 =
  match dels g all with
  | [] => visited db0 g.1 g.2 0
  | _ :: _ => (up_to, snapshot_of g all) :: filter (fun e => up_to < e.1) (visited db0 g.1 g.2 0)
  end.
Proof.
  intros Hwf Hwf1 Hg Hall Hdb. assert (fits 64 0) as Hz by (unfold fits; lia).
  pose proof (visited_sorted db0 g.1 g.2 0 Hwf Hg Hz) as Hs0.
  apply (sorted_by_unique (fun e e' => e.1 < e'.1)).
  - intros x. lia.
  - intros x y z. lia.
  - by apply visited_sorted.
  - destruct (dels g all); [done|]. constructor; [by apply StronglySorted_filter|].
    apply Forall_forall. intros e [? _]%list_elem_of_filter. done.
  - intros [i v]. rewrite elem_of_group by done. unfold compacted in Hdb.
    destruct (dels g all) as [|x xs] eqn:Ed.
    + rewrite elem_of_group by done. split; intros [Hi Hv]; (split; [done|]); by rewrite <- Hv, Hdb.
    + rewrite elem_of_cons, list_elem_of_filter, elem_of_group by done. split.
      * intros [Hi Hv]. rewrite Hdb in Hv by done. destruct (decide (i = up_to)) as [->|Hn].
        { left. congruence. }
        destruct (decide _) as [|Hx]; [done|]. right. split; [|done]. cbn [fst].
        destruct (Z.lt_ge_cases up_to i) as [?|Hge]; [done|]. exfalso. apply Hx. rewrite <- Ed.
        apply elem_of_dels. exists v. split; [|lia]. by apply Hall.
      * intros [[= -> ->]|(Hlt & Hi & Hv)]; (split; [done|]); rewrite Hdb by done.
        { by rewrite decide_True. }
        cbn [fst] in Hlt. rewrite !decide_False; [done| |lia]. rewrite <- Ed.
        intros (? & _ & ?)%elem_of_dels. lia.
Qed.

(** *** The meaning of a log

    What the entries of an account and collection say, apart from how they are
    read: a change adds and removes ids, a snapshot lists them all. *)
Inductive log_record : Type := RChange (change : Batch.Change) | RSnapshot (ids : gset Z).
Definition record_wf (r : log_record) : Prop := match r with RChange c => change_wf c | RSnapshot ids => ids_ok ids end.
Definition record_bytes (r : log_record) : list Z :=
  match r with RChange c => Batch.serialize c | RSnapshot ids => change_snapshot ids end.
Definition record_effect (ids : gset Z) (r : log_record) : gset Z :=
  match r with
  | RChange c => (ids ∪ list_to_set (Batch.inserts c)) ∖ list_to_set (Batch.deletes c)
  | RSnapshot ids => ids
  end.
Definition replay (l : list (ChangeId * log_record)) : gset Z := fold_left (fun ids e => record_effect ids e.2) l ∅.

(** The log of a group consists of the records [l], by id. *)
Record log_records (db : DB) (g : group) (l : list (ChangeId * log_record)) : Prop := {
  lr_wf e : e ∈ l -> fits 64 e.1 /\ record_wf e.2;
  lr_sorted : StronglySorted (fun e e' => e.1 < e'.1) l;
  lr_get i v : fits 64 i -> db_get db Logs (group_key g i) = Some v <-> exists r, (i, r) ∈ l /\ v = record_bytes r
}.
(** One snapshot in place of the records up to [up_to], if there are any. *)
Definition compact_records (l : list (ChangeId * log_record)) : list (ChangeId * log_record) :=
  match filter (fun e => e.1 <= up_to) l with [] => [] | recs => [(up_to, RSnapshot (replay recs))] end ++
  filter (fun e => up_to < e.1) l.

Definition stored_record (e : ChangeId * log_record) : ChangeId * list Z := (e.1, record_bytes e.2).
Lemma stored_sorted l :
  StronglySorted (fun e e' : ChangeId * log_record => e.1 < e'.1) l <->
  StronglySorted (fun e e' : ChangeId * list Z => e.1 < e'.1) (stored_record <$> l).
Proof.
  induction l as [|e l IH]; [by split; constructor|]. cbn [fmap list_fmap]. split; intros [Hs Hl]%StronglySorted_inv; constructor;
    [by apply IH|by rewrite Forall_fmap|by apply IH|by rewrite Forall_fmap in Hl].
Qed.
Lemma stored_filter (P : ChangeId -> Prop) `{forall i, Decision (P i)} (l : list (ChangeId * log_record)) :
  filter (fun e => P e.1) (stored_record <$> l) = stored_record <$> filter (fun e => P e.1) l.
Proof. induction l as [|e l IH]; [done|]. cbn [fmap list_fmap]. rewrite !filter_cons. cbn [fst stored_record]. case_decide; [cbn; by f_equal|done]. Qed.

Lemma log_records_visited db g l :
  log_wf db -> group_fits g ->
  log_records db g l <-> (forall e, e ∈ l -> fits 64 e.1 /\ record_wf e.2) /\ visited db g.1 g.2 0 = stored_record <$> l.
Proof.
  intros Hwf Hg. assert (fits 64 0) as Hz by (unfold fits; lia). pose proof (visited_sorted db g.1 g.2 0 Hwf Hg Hz) as Hs. split.
  - intros [Hl Hsl Hget]. split; [done|]. apply (sorted_by_unique (fun e e' => e.1 < e'.1)); [intros x; lia|intros x y z; lia|done|by apply stored_sorted|].
    intros [i v]. rewrite elem_of_group, list_elem_of_fmap by done. split.
    + intros [Hi (rr & Hin & ->)%Hget]; [|done]. by exists (i, rr).
    + intros ([i' rr] & [= -> ->] & Hin). destruct (Hl _ Hin) as [Hi _]. split; [done|]. apply Hget; [done|]. by exists rr.
  - intros [Hl Hv]. rewrite Hv in Hs. split; [done|by apply stored_sorted|]. intros i v Hi.
    pose proof (elem_of_group db g i v Hwf Hg) as Hin. rewrite Hv, list_elem_of_fmap in Hin. split.
    + intros Hd. destruct (proj2 Hin (conj Hi Hd)) as ([i' rr] & [= -> ->] & ?). by exists rr.
    + intros (rr & Hr & ->). apply Hin. by exists (i, rr).
Qed.

Lemma live_replay ids l :
  (forall e, e ∈ l -> fits 64 e.1 /\ record_wf e.2) ->
  live ids (stored_record <$> l) = Some (fold_left (fun ids e => record_effect ids e.2) l ids).
Proof.
  revert ids. induction l as [|[i rr] l IH]; intros ids Hl; [done|]. cbn [fmap list_fmap live fold_left stored_record fst snd].
  destruct (Hl (i, rr)) as [_ Hr]; [by apply elem_of_cons; left|].
  assert (deserialize_inserts ids (record_bytes rr) = Some (record_effect ids rr)) as ->.
  { destruct rr as [c|ids']; cbn [record_bytes record_effect]; [by apply deserialize_inserts_entry|by apply treemap_roundtrip]. }
  apply IH. intros e He. apply Hl, elem_of_cons. by right.
Qed.
Lemma replay_ok l : (forall e, e ∈ l -> fits 64 e.1 /\ record_wf e.2) -> ids_ok (replay l).
Proof.
  intros Hl. destruct (live_ok ∅ (stored_record <$> l)) as (ids & E & Hok).
  - intros [i v] ([i' rr] & [= -> ->] & Hin)%list_elem_of_fmap. destruct (Hl _ Hin) as [_ Hr].
    destruct rr as [c|ids]; [left; by exists c|right; by exists ids].
  - by apply set_Forall_empty.
  - rewrite live_replay in E by done. injection E as <-. done.
Qed.
Lemma records_exist db g : log_wf db -> change_values db -> group_fits g -> exists l, log_records db g l.
Proof.
  intros Hwf Hv Hg.
  destruct (Forall_image stored_record (fun e => fits 64 e.1 /\ record_wf e.2) (visited db g.1 g.2 0)) as (l & E & Hl).
  - intros [i v] [Hi Hget]%elem_of_group; [|done..].
    destruct (Hv g i v Hg Hi Hget) as [(c & Hc & ->)|(ids & Hok & ->)]; [by exists (i, RChange c)|by exists (i, RSnapshot ids)].
  - exists l. apply log_records_visited; [done..|]. split; [|done]. by rewrite Forall_forall in Hl.
Qed.

Lemma replay_compacted l :
  StronglySorted (fun e e' => e.1 < e'.1) l -> replay (compact_records l) = replay l.
Proof.
  intros Hs. rewrite (sorted_split fst up_to l Hs) at 2. unfold replay, compact_records. rewrite !fold_left_app.
  by destruct (filter (fun e => e.1 <= up_to) l).
Qed.

(** The records of a group after compaction. *)
Lemma records_compacted db1 all g l :
  log_wf db0 -> log_wf db1 -> group_fits g -> StronglySorted entry_lt all -> of_db all ->
  (forall v, db_get db0 Logs (group_key g up_to) = Some v -> dels g all <> []) ->
  (forall i, fits 64 i -> db_get db1 Logs (group_key g i) = compacted all g i) ->
  log_records db0 g l -> log_records db1 g (compact_records l).
Proof.
  intros Hwf Hwf1 Hg Hs Hall Hearlier Hdb Hlr. pose proof (lr_sorted _ _ _ Hlr) as Hsl.
  apply log_records_visited in Hlr as [Hl Hv]; [|done..]. apply log_records_visited; [done..|].
  pose proof (old_visited all g Hwf Hg Hs Hall) as Hold. rewrite Hv in Hold.
  pose proof (stored_filter (fun i => i <= up_to) l) as Fl. pose proof (stored_filter (fun i => up_to < i) l) as Fh. cbn beta in Fl, Fh. rewrite Fl in Hold.
  assert (forall e, e ∈ filter (fun e => e.1 <= up_to) l -> fits 64 e.1 /\ record_wf e.2) as Hlow
    by (intros e [_ ?]%list_elem_of_filter; by apply Hl).
  assert (forall e, e ∈ l -> e.1 <= up_to -> dels g all <> []) as Hd.
  { intros [i rr] Hin Hle. destruct (proj1 (elem_of_group db0 g i (record_bytes rr) Hwf Hg)) as [Hi Hget].
    { rewrite Hv. by apply (list_elem_of_fmap_2 stored_record l (i, rr)). }
    destruct (decide (i = up_to)) as [->|Hne]; [by eapply Hearlier|]. intros E.
    assert (i ∈ dels g all) as Hi'; [|rewrite E in Hi'; by apply not_elem_of_nil in Hi'].
    apply elem_of_dels. exists (record_bytes rr). split; [by apply Hall|cbn in Hle; lia]. }
  unfold compact_records. rewrite (visited_compacted db1 all g Hwf Hwf1 Hg Hall Hdb), Hv, Fh.
  unfold snapshot_of. rewrite Hold, live_replay by done. split.
  - intros e [He|[_ He]%list_elem_of_filter]%elem_of_app; [|by apply Hl].
    destruct (filter _ l) as [|e1 l1] eqn:Ef; [by apply not_elem_of_nil in He|]. apply list_elem_of_singleton in He as ->.
    split; [exact up_to_fits|]. apply (replay_ok (e1 :: l1)). by rewrite <- Ef in *.
  - destruct (filter (fun e => e.1 <= up_to) l) as [|e1 l1] eqn:Ef.
    + assert (dels g all = []) as ->; [|cbn; f_equal; pose proof (sorted_split fst up_to l Hsl) as Hl'; by rewrite Ef in Hl'].
      destruct (dels g all) as [|i ids] eqn:Ed; [done|]. exfalso.
      assert (i ∈ dels g all) as Hi by (rewrite Ed; by apply elem_of_cons; left).
      unfold old in Hold. unfold dels in Hi. apply list_elem_of_fmap in Hi as (e & -> & [[Hg' Hlt] Hin]%list_elem_of_filter).
      apply (not_elem_of_nil e.2). change ([] : list (ChangeId * list Z)) with (stored_record <$> []). rewrite <- Hold.
      apply list_elem_of_fmap_2, list_elem_of_filter. split; [split; [done|lia]|done].
    + destruct (dels g all) as [|i ids]; [|done]. exfalso. apply (Hd e1); [|..|done].
      all: assert (e1 ∈ filter (fun e => e.1 <= up_to) l) as [? ?]%list_elem_of_filter by (rewrite Ef; by apply elem_of_cons; left); done.
Qed.
End Loop.

(** ** The Raft snapshot *)

(** The accounts of an entry with the collections it records for them. *)
Definition entry_pairs (e : Entry) : list (AccountId * Z) :=
  match e with
  | Item a c => [(a, c)]
  | Snapshot groups => groups ≫= group_accounts
  end.
Definition recorded (l : list (AccountId * Z)) (a : AccountId) : Z :=
  fold_right (fun p z => if p.1 =? a then Z.lor p.2 z else z) 0 l.
Definition entry_ok (e : Entry) : Prop :=
  Forall (fun p => fits 32 p.1 /\ fits 64 p.2) (entry_pairs e).

Definition add_pairs (m : gmap AccountId Z) (l : list (AccountId * Z)) : gmap AccountId Z :=
  fold_left (fun m p => add_collections m p.1 p.2) l m.

Lemma entry_accounts_pairs m e : entry_accounts m e = add_pairs m (entry_pairs e).
Proof.
  destruct e as [a c|groups]; [done|]. cbn [entry_accounts entry_pairs]. revert m.
  induction groups as [|[c l] groups IH]; intros m; [done|]. cbn [fold_left mbind list_bind].
  unfold add_pairs. rewrite fold_left_app. rewrite IH. unfold add_pairs. f_equal.
  unfold group_accounts. cbn [fst snd]. clear IH. revert m.
  induction l as [|a l IH]; intros m; [done|]. cbn. apply IH.
Qed.

Lemma add_pairs_recorded m l a :
  default 0 (add_pairs m l !! a) = Z.lor (default 0 (m !! a)) (recorded l a).
Proof.
  revert m. induction l as [|[b c] l IH]; intros m; cbn [add_pairs fold_left recorded fold_right fst snd].
  - by rewrite Z.lor_0_r.
  - change (default 0 (add_pairs (add_collections m b c) l !! a) =
      Z.lor (default 0 (m !! a)) (if b =? a then Z.lor c (recorded l a) else recorded l a)).
    rewrite IH. unfold add_collections, bm_union. destruct (Z.eqb_spec b a) as [->|Hn].
    + rewrite lookup_insert_eq. cbn [default id]. by rewrite Z.lor_assoc.
    + by rewrite lookup_insert_ne.
Qed.

Definition accounts_ok (m : gmap AccountId Z) : Prop :=
  map_Forall (fun a c => fits 32 a /\ fits 64 c) m.

Lemma add_pairs_ok m l :
  accounts_ok m -> Forall (fun p => fits 32 p.1 /\ fits 64 p.2) l -> accounts_ok (add_pairs m l).
Proof.
  intros Hm Hl. revert m Hm. induction Hl as [|[a c] l [Ha Hc] _ IH]; intros m Hm; [done|].
  apply IH. unfold add_collections. apply map_Forall_insert_2; [|done]. split; [done|].
  cbn [fst snd] in *. unfold bm_union. apply lor_fits; [done| |done].
  destruct (m !! a) as [c'|] eqn:E; [by apply (Hm _ _ E)|]. cbn. unfold fits; lia.
Qed.

(** Accounts grouped by their collections. *)
Abbreviation members g c := (default [] (g !! c)).

Lemma members_insert (g : gmap Z (list AccountId)) c l c' :
  members (<[c := l]> g) c' = if decide (c = c') then l else members g c'.
Proof. destruct (decide (c = c')) as [->|]; [by rewrite lookup_insert_eq|by rewrite lookup_insert_ne]. Qed.

Lemma group_fold_spec l (g : gmap Z (list AccountId)) :
  NoDup (l.*1) -> (forall a c, (a, c) ∈ l -> forall c', ~ a ∈ members g c') ->
  (forall c, NoDup (members g c)) ->
  let g' := fold_left (fun m '(a, c) => <[c := members m c ++ [a]]> m) l g in
  (forall a c, a ∈ members g' c <-> a ∈ members g c \/ (a, c) ∈ l) /\
  (forall c, NoDup (members g' c)) /\ (size g' <= size g + length l)%nat.
Proof.
  revert g. induction l as [|[a c] l IH]; intros g Hnd Hfresh Hg; cbn [fold_left].
  - cbn zeta. split; [|split; [done|cbn; lia]]. intros a c. split; [by left|]. by intros [?|?%not_elem_of_nil].
  - cbn in Hnd. apply NoDup_cons in Hnd as [Ha Hnd].
    destruct (IH (<[c := members g c ++ [a]]> g)) as (H1 & H2 & H3); [done|..].
    + intros b d Hin c'. rewrite members_insert. assert (a <> b) as Hab.
      { intros <-. apply Ha. apply list_elem_of_fmap. by exists (a, d). }
      assert (forall c', ~ b ∈ members g c') as Hb
        by (intros; eapply Hfresh; by apply elem_of_cons; right).
      destruct (decide _); [|apply Hb].
      intros [?%Hb|?%list_elem_of_singleton]%elem_of_app; [done|congruence].
    + intros c'. rewrite members_insert. destruct (decide _); [|done]. apply NoDup_app.
      split_and!; [done| |apply NoDup_singleton].
      intros x Hx ->%list_elem_of_singleton. by eapply (Hfresh a c); [apply elem_of_cons; left|].
    + cbn zeta. split; [|split; [done|]].
      * intros b d. rewrite H1, members_insert, elem_of_cons. destruct (decide (c = d)) as [->|Hn].
        -- rewrite elem_of_app, list_elem_of_singleton. naive_solver.
        -- naive_solver.
      * etrans; [apply H3|]. rewrite map_size_insert. cbn [length]. destruct (g !! c); cbn; lia.
Qed.

Lemma accounts_by_collections_spec m :
  let g := accounts_by_collections m in
  (forall a c, a ∈ members g c <-> m !! a = Some c) /\
  (forall c, NoDup (members g c)) /\ (size g <= size m)%nat.
Proof.
  destruct (group_fold_spec (map_to_list m) ∅) as (H1 & H2 & H3).
  - apply NoDup_fst_map_to_list.
  - intros a c _ c'. rewrite lookup_empty. apply not_elem_of_nil.
  - intros c. rewrite lookup_empty. constructor.
  - cbn zeta. split; [|split; [done|]].
    + intros a c. rewrite <- elem_of_map_to_list. unfold accounts_by_collections. rewrite H1, lookup_empty.
      split; [by intros [?%not_elem_of_nil|?]|by right].
    + unfold accounts_by_collections. by rewrite map_size_empty, length_map_to_list in H3.
Qed.

Lemma NoDup_bounded (l : list Z) n : 0 <= n -> NoDup l -> Forall (fun x => 0 <= x < n) l -> Z.of_nat (length l) <= n.
Proof.
  intros Hn Hnd Hl. assert (l ⊆+ seqZ 0 n) as Hs.
  { apply NoDup_submseteq; [done|]. intros x Hx. apply elem_of_seqZ. rewrite Forall_forall in Hl.
    specialize (Hl _ Hx). lia. }
  apply submseteq_length in Hs. rewrite length_seqZ in Hs. lia.
Qed.

Lemma accounts_by_collections_keys m c l :
  accounts_by_collections m !! c = Some l -> exists a, m !! a = Some c.
Proof.
  intros E. assert (l <> []) as Hl.
  { revert E. unfold accounts_by_collections.
    assert (forall k (g : gmap Z (list AccountId)), map_Forall (fun _ l => l <> []) g ->
      map_Forall (fun _ l => l <> []) (fold_left (fun m '(a, c) => <[c := members m c ++ [a]]> m) k g)) as Hgen.
    { induction k as [|[a d] k IH]; intros g Hg; [done|]. apply IH, map_Forall_insert_2; [|done].
      by intros [_ ?]%app_nil. }
    by apply (Hgen _ ∅), map_Forall_empty. }
  destruct l as [|a l]; [done|]. exists a. apply accounts_by_collections_spec. rewrite E.
  by apply elem_of_cons; left.
Qed.

Lemma recorded_testbit l a n :
  0 <= n -> Z.testbit (recorded l a) n = true <-> exists c, (a, c) ∈ l /\ Z.testbit c n = true.
Proof.
  intros Hn. induction l as [|[b c] l IH]; cbn [recorded fold_right fst snd].
  - rewrite Z.testbit_0_l. split; [done|]. by intros (? & ?%not_elem_of_nil & _).
  - setoid_rewrite elem_of_cons. change (fold_right _ 0 l) with (recorded l a).
    destruct (Z.eqb_spec b a) as [->|Hb].
    + rewrite Z.lor_spec, orb_true_iff, IH. naive_solver.
    + rewrite IH. naive_solver.
Qed.

Lemma grouped_pairs m a c :
  (a, c) ∈ map_to_list (accounts_by_collections m) ≫= group_accounts <-> m !! a = Some c.
Proof.
  destruct (accounts_by_collections_spec m) as [<- _]. rewrite list_elem_of_bind. split.
  - intros ([c' l] & Hin & Hl%elem_of_map_to_list). apply list_elem_of_fmap in Hin as (b & [= -> ->] & Hb).
    cbn in Hl. by rewrite Hl.
  - intros Hin. destruct (accounts_by_collections m !! c) as [l|] eqn:E; [|by apply not_elem_of_nil in Hin].
    exists (c, l). split; [|by apply elem_of_map_to_list]. apply list_elem_of_fmap. by exists a.
Qed.

(** The Raft snapshot is read back, and records for each account the
    collections gathered for it. *)
Lemma raft_snapshot_decode m :
  accounts_ok m ->
  let groups := map_to_list (accounts_by_collections m) in
  entry_deserialize (snapshot_bytes groups) = Some (Snapshot groups).
Proof.
  intros Hm. destruct (accounts_by_collections_spec m) as (Ha & Hnd & Hsz). cbn zeta.
  assert (forall l : list Z, NoDup l -> Forall (fits 32) l -> Z.of_nat (length l) <= 2 ^ 32) as Hlen
    by (intros l H1 H2; apply NoDup_bounded; [lia|done..]).
  apply entry_snapshot_roundtrip.
  - apply Forall_forall. intros [c l] Hl%elem_of_map_to_list.
    destruct (accounts_by_collections_keys _ _ _ Hl) as (a & E).
    specialize (Ha) with (c := c). specialize (Hnd c). rewrite Hl in Ha, Hnd. cbn in Ha, Hnd.
    assert (Forall (fits 32) l) as Hf
      by (apply Forall_forall; intros b Hb%Ha; by apply (Hm _ _ Hb)).
    split_and!; [apply (Hm _ _ E)| |done]. specialize (Hlen l Hnd Hf). cbn [snd]. lia.
  - rewrite length_map_to_list. assert (Z.of_nat (size m) <= 2 ^ 32); [|lia].
    rewrite <- length_map_to_list, <- (length_fmap fst). apply Hlen; [apply NoDup_fst_map_to_list|].
    apply Forall_forall. intros a ([b c] & -> & E%elem_of_map_to_list)%list_elem_of_fmap.
    apply (Hm _ _ E).
Qed.

(** The entries of the Raft log: id, value and decoded value. *)
Abbreviation raft_entry := (RaftId * (list Z * Entry))%type.
Definition raft_kv (e : raft_entry) : list Z * list Z := (LogKey.serialize_raft e.1, e.2.1).
Definition raft_entry_fits (e : raft_entry) : Prop :=
  rid_fits e.1 /\ entry_deserialize e.2.1 = Some e.2.2 /\ entry_ok e.2.2.

Lemma compact_raft_loop_spec up_to l batch m t :
  Forall raft_entry_fits l -> StronglySorted (fun e e' => rid_index e.1 <= rid_index e'.1) l ->
  let old := filter (fun e => rid_index e.1 <= up_to) l in
  compact_raft_loop up_to (raft_kv <$> l) (batch, m, t) =
  Some (batch ++ (OpDelete Logs <$> ((fun e => LogKey.serialize_raft e.1) <$>
          filter (fun e => rid_index e.1 < up_to) l)),
        add_pairs m (old ≫= (fun e => entry_pairs e.2.2)),
        fold_left (fun t e => if rid_index e.1 =? up_to then rid_term e.1 else t) old t).
Proof.
  cbn zeta. intros Hf Hs. revert batch m t. induction Hs as [|e l Hs IH Hle]; intros batch m t.
  { cbn. by rewrite app_nil_r. }
  apply Forall_cons in Hf as [(Hr & Hv & _) Hf]. cbn [fmap list_fmap compact_raft_loop raft_kv].
  unfold raft_kv at 1. rewrite raft_key_starts, raft_key_decode by done. cbn [negb mbind option_bind].
  rewrite Forall_forall in Hle. rewrite !filter_cons.
  destruct (Z.leb_spec (rid_index e.1) up_to) as [Hu|Hu].
  - rewrite Hv. cbn [option_bind]. rewrite (decide_True (P := rid_index e.1 <= up_to)) by done.
    cbn [mbind list_bind fold_left]. unfold add_pairs. rewrite fold_left_app.
    change (fold_left _ (entry_pairs e.2.2) m) with (add_pairs m (entry_pairs e.2.2)).
    rewrite <- entry_accounts_pairs. destruct (Z.eqb_spec (rid_index e.1) up_to) as [E|E]; cbn [negb].
    + rewrite (decide_False (P := rid_index e.1 < up_to)) by lia. by apply IH.
    + rewrite (decide_True (P := rid_index e.1 < up_to)) by lia. etrans; [by apply IH|].
      cbn [fmap list_fmap]. by rewrite <- app_assoc.
  - rewrite !decide_False by lia.
    rewrite !filter_none by (intros e' He'; specialize (Hle _ He'); lia). cbn. by rewrite app_nil_r.
Qed.

Lemma last_term_spec up_to r0 (l : list raft_entry) t :
  (forall e, e ∈ l -> rid_index e.1 = up_to -> e.1 = r0) ->
  t = rid_term r0 \/ (exists e, e ∈ l /\ rid_index e.1 = up_to) ->
  fold_left (fun t e => if rid_index e.1 =? up_to then rid_term e.1 else t) l t = rid_term r0.
Proof.
  revert t. induction l as [|e l IH]; intros t Hu Ht; cbn [fold_left].
  - destruct Ht as [?|(? & ?%not_elem_of_nil & _)]; done.
  - apply IH; [intros e' He'; apply Hu, elem_of_cons; by right|].
    destruct (Z.eqb_spec (rid_index e.1) up_to) as [E|E].
    + left. f_equal. apply Hu; [by apply elem_of_cons; left|done].
    + destruct Ht as [?|(e' & [->|?]%elem_of_cons & ?)]; [by left|done|right; by exists e'].
Qed.

Section RaftCompaction.
Context `{StoreLaws DB}.

(** The Raft log of a store: Raft keys with readable entries, and one entry at [up_to]. *)
Record raft_compactable (db : DB) (up_to : LogIndex) (r0 : RaftId) : Prop := {
  rc_wf : raft_wf db;
  rc_values r v : rid_fits r -> db_get db Logs (LogKey.serialize_raft r) = Some v ->
    exists e, entry_deserialize v = Some e /\ entry_ok e;
  rc_last : in_log db r0 /\ rid_index r0 = up_to;
  rc_unique r : in_log db r -> rid_index r = up_to -> r = r0
}.

Lemma raft_key_inj r r' :
  rid_fits r -> rid_fits r' -> LogKey.serialize_raft r = LogKey.serialize_raft r' -> r = r'.
Proof. intros Hr Hr' E. apply raft_key_decode in Hr, Hr'. rewrite E in Hr. congruence. Qed.

Lemma compact_raft_loop_prefix up_to it st :
  compact_raft_loop up_to (take_prefix [LogKey.RAFT_KEY_PREFIX] it) st = compact_raft_loop up_to it st.
Proof.
  revert st. induction it as [|[k v] it IH]; intros st; [done|]. cbn [take_prefix fst].
  destruct (starts_with k _) eqn:E; cbn [compact_raft_loop]; rewrite E; [|done]. cbn [negb].
  destruct (LogKey.deserialize_raft k); [|done]. cbn [mbind option_bind]. destruct (_ <=? _); [|done].
  destruct (entry_deserialize v); [|done]. cbn [mbind option_bind]. destruct st as [[? ?] ?]. apply IH.
Qed.

Lemma raft_entries (db : DB) up_to r0 :
  raft_compactable db up_to r0 ->
  exists l, take_prefix [LogKey.RAFT_KEY_PREFIX] (db_iterator db Logs [LogKey.RAFT_KEY_PREFIX] Forward) =
      raft_kv <$> l /\
    Forall raft_entry_fits l /\ StronglySorted (fun e e' => rid_index e.1 <= rid_index e'.1) l /\
    (forall e, e ∈ l -> db_get db Logs (LogKey.serialize_raft e.1) = Some e.2.1) /\
    (forall r v, rid_fits r -> db_get db Logs (LogKey.serialize_raft r) = Some v ->
      exists e, e ∈ l /\ e.1 = r /\ e.2.1 = v).
Proof.
  intros Hc. pose proof (prefix_scan db Logs [LogKey.RAFT_KEY_PREFIX]) as Hscan.
  pose proof (take_prefix_sorted [LogKey.RAFT_KEY_PREFIX] _
    (db_forward_sorted db Logs [LogKey.RAFT_KEY_PREFIX])) as Hs.
  destruct (Forall_image raft_kv raft_entry_fits (take_prefix [LogKey.RAFT_KEY_PREFIX]
      (db_iterator db Logs [LogKey.RAFT_KEY_PREFIX] Forward))) as (l & E & Hl).
  { intros [k v] [Hg Hp]%Hscan. destruct (rc_wf _ _ _ Hc k v Hg Hp) as (r & Hr & ->).
    destruct (rc_values _ _ _ Hc r v Hr Hg) as (e & He & Hok). by exists (r, (v, e)). }
  exists l. rewrite E in *. split; [done|]. split; [done|]. split; [|split].
  - clear - Hs Hl. induction l as [|e l IH]; [constructor|]. apply Forall_cons in Hl as [[He _] Hl].
    cbn [fmap list_fmap] in Hs. apply StronglySorted_inv in Hs as [Hs Hlt].
    constructor; [by apply IH|]. rewrite Forall_fmap in Hlt. rewrite Forall_forall in *.
    intros e' Hin. destruct (Hl _ Hin) as [He' _]. specialize (Hlt _ Hin).
    destruct (proj1 (raft_key_le e.1 e'.1 He He')) as [?|[? _]]; [|lia..].
    apply bytes_le_lt_eq. by left.
  - intros e Hin. apply (Hscan (LogKey.serialize_raft e.1)). by apply (list_elem_of_fmap_2 raft_kv).
  - intros r v Hr Hg. assert ((LogKey.serialize_raft r, v) ∈ raft_kv <$> l) as Hin by by apply Hscan.
    apply list_elem_of_fmap in Hin as (e & E' & Hin). exists e. rewrite Forall_forall in Hl.
    pose proof (f_equal fst E') as Hk. pose proof (f_equal snd E') as Hv. unfold raft_kv in Hk, Hv.
    cbn [fst snd] in Hk, Hv. split_and!; [done| |done]. symmetry. apply raft_key_inj; [done| |done].
    by apply Hl.
Qed.

Definition raft_old (db : DB) (up_to : LogIndex) (a : AccountId) (n : Z) : Prop :=
  exists r v e, rid_fits r /\ rid_index r <= up_to /\
    db_get db Logs (LogKey.serialize_raft r) = Some v /\ entry_deserialize v = Some e /\
    Z.testbit (recorded (entry_pairs e) a) n = true.

Lemma raft_accounts_recorded (db : DB) up_to l :
  Forall raft_entry_fits l ->
  (forall e, e ∈ l -> db_get db Logs (LogKey.serialize_raft e.1) = Some e.2.1) ->
  (forall r v, rid_fits r -> db_get db Logs (LogKey.serialize_raft r) = Some v ->
    exists e, e ∈ l /\ e.1 = r /\ e.2.1 = v) ->
  let m := add_pairs ∅ (filter (fun e => rid_index e.1 <= up_to) l ≫= (fun e => entry_pairs e.2.2)) in
  accounts_ok m /\
  forall a n, 0 <= n -> Z.testbit (default 0 (m !! a)) n = true <-> raft_old db up_to a n.
Proof.
  cbn zeta. intros Hf Hin Hall. rewrite Forall_forall in Hf. split.
  - apply add_pairs_ok; [apply map_Forall_empty|]. apply Forall_forall.
    intros p (e & Hp & [_ He]%list_elem_of_filter)%list_elem_of_bind.
    destruct (Hf _ He) as (_ & _ & Hok). by eapply Forall_forall in Hok.
  - intros a n Hn. rewrite add_pairs_recorded, lookup_empty. cbn [default id].
    rewrite Z.lor_0_l, recorded_testbit by done. unfold raft_old. split.
    + intros (c & (e & Hp & [Hle He]%list_elem_of_filter)%list_elem_of_bind & Hb).
      destruct (Hf _ He) as (Hr & Hd & _). exists e.1, e.2.1, e.2.2. split_and!; [done..|by apply Hin|done|].
      apply recorded_testbit; [done|]. by exists c.
    + intros (r & v & e & Hr & Hle & Hg & Hd & (c & Hp & Hb)%recorded_testbit); [|done].
      destruct (Hall r v Hr Hg) as (e' & He' & <- & <-). destruct (Hf _ He') as (_ & Hd' & _).
      exists c. split; [|done]. apply list_elem_of_bind. exists e'. split; [congruence|].
      by apply list_elem_of_filter.
Qed.

Lemma compact_raft_spec (db : DB) up_to r0 :
  raft_compactable db up_to r0 ->
  exists db', compact_raft up_to db = (db', true) /\
    (forall cf k, (cf = Logs -> forall r, rid_fits r -> k <> LogKey.serialize_raft r) ->
      db_get db' cf k = db_get db cf k) /\
    (forall r, rid_fits r -> rid_index r < up_to -> db_get db' Logs (LogKey.serialize_raft r) = None) /\
    (forall r, rid_fits r -> up_to < rid_index r ->
      db_get db' Logs (LogKey.serialize_raft r) = db_get db Logs (LogKey.serialize_raft r)) /\
    exists v e, db_get db' Logs (LogKey.serialize_raft r0) = Some v /\ entry_deserialize v = Some e /\
      forall a n, 0 <= n -> Z.testbit (recorded (entry_pairs e) a) n = true <-> raft_old db up_to a n.
Proof.
  intros Hc. destruct (raft_entries db up_to r0 Hc) as (l & E & Hf & Hs & Hin & Hall).
  destruct (raft_accounts_recorded db up_to l Hf Hin Hall) as [Hok Hrec].
  destruct (rc_last _ _ _ Hc) as [[Hr0 [v0 Hv0]] Hi0]. unfold compact_raft.
  rewrite <- compact_raft_loop_prefix, E, compact_raft_loop_spec by done. cbn [app].
  rewrite (last_term_spec up_to r0).
  2: { intros e [_ He]%list_elem_of_filter Hi. apply (rc_unique _ _ _ Hc); [|done]. rewrite Forall_forall in Hf.
       split; [by apply Hf|]. rewrite Hin by done. by eexists. }
  2: { right. destruct (Hall r0 v0 Hr0 Hv0) as (e & He & Er & _). exists e. rewrite Er. split; [|done].
       apply list_elem_of_filter. rewrite Er. split; [lia|done]. }
  assert (mkRaftId (rid_term r0) up_to = r0) as -> by (destruct r0; cbn in *; by subst).
  set (m := add_pairs ∅ _) in *. eexists. split; [reflexivity|].
  assert (forall r, rid_fits r -> LogKey.serialize_raft r ∈
    (fun e : raft_entry => LogKey.serialize_raft e.1) <$> filter (fun e => rid_index e.1 < up_to) l <->
    rid_index r < up_to /\ is_Some (db_get db Logs (LogKey.serialize_raft r))) as Hdel.
  { intros r Hr. rewrite list_elem_of_fmap. split.
    - intros (e & Ek & [Hlt He]%list_elem_of_filter). rewrite Forall_forall in Hf.
      apply raft_key_inj in Ek as ->; [|done|by apply Hf]. split; [done|]. rewrite Hin by done. by eexists.
    - intros [Hlt [v Hv]]. destruct (Hall r v Hr Hv) as (e & He & <- & _). exists e. split; [done|].
      by apply list_elem_of_filter. }
  split; [|split; [|split]].
  - intros cf k Hk. rewrite write_deletes_set. destruct (decide _) as [[-> ->]|_]; [by destruct (Hk eq_refl r0)|].
    destruct (decide _) as [[-> (e & -> & [_ He]%list_elem_of_filter)%list_elem_of_fmap]|_]; [|done].
    rewrite Forall_forall in Hf. destruct (Hk eq_refl e.1); [by apply Hf|done].
  - intros r Hr Hlt. rewrite write_deletes_set.
    destruct (decide _) as [[_ ->%raft_key_inj]|_]; [lia|done..|].
    destruct (decide _) as [|Hn]; [done|].
    destruct (db_get db Logs (LogKey.serialize_raft r)) as [v|] eqn:Ev; [|done].
    destruct Hn. split; [done|]. apply Hdel; [done|]. rewrite Ev. by eauto.
  - intros r Hr Hlt. rewrite write_deletes_set.
    destruct (decide _) as [[_ ->%raft_key_inj]|_]; [lia|done..|].
    destruct (decide _) as [[_ [? _]%Hdel]|_]; [lia|done..].
  - rewrite write_deletes_set, decide_True by done. eexists _, _. split; [done|].
    split; [by apply raft_snapshot_decode|]. intros a n Hn. rewrite <- Hrec by done.
    cbn [entry_pairs]. rewrite recorded_testbit by done. setoid_rewrite grouped_pairs.
    destruct (m !! a) as [c|]; cbn.
    + split; [intros (c' & [= ->] & ?); done|eauto].
    + rewrite Z.testbit_0_l. split; [by intros (? & ? & _)|done].
Qed.
End RaftCompaction.

(** ** The whole compaction *)

Section Compaction.
Context `{TreemapLaws} `{StoreLaws DB}.

(** A log that [compact_log_up_to] is given: well-formed keys and values, a
    change and a Raft entry at [up_to], and no group whose only entry up to
    [up_to] is at [up_to]. *)
Record compactable (db : DB) (up_to : ChangeId) (r0 : RaftId) : Prop := {
  cp_up_to : fits 64 up_to;
  cp_log : log_wf db;
  cp_values : change_values db;
  cp_raft : raft_compactable db up_to r0;
  cp_some : exists g v, group_fits g /\ db_get db Logs (group_key g up_to) = Some v;
  cp_earlier g v : group_fits g -> db_get db Logs (group_key g up_to) = Some v ->
    exists i v', fits 64 i /\ i < up_to /\ db_get db Logs (group_key g i) = Some v'
}.

Lemma raft_prefix_other k : starts_with k [LogKey.RAFT_KEY_PREFIX] = true -> other_key Logs k.
Proof. intros [x ->]%starts_with_iff _ g i _ _ E. apply (f_equal head) in E. discriminate E. Qed.

Lemma raft_other_key r : other_key Logs (LogKey.serialize_raft r).
Proof. apply raft_prefix_other, raft_key_starts. Qed.

Lemma raft_compactable_same (db db1 : DB) up_to r0 :
  raft_compactable db up_to r0 ->
  (forall cf k, other_key cf k -> db_get db1 cf k = db_get db cf k) -> raft_compactable db1 up_to r0.
Proof.
  intros [Hwf Hv Hl Hu] Hsame.
  assert (forall r, db_get db1 Logs (LogKey.serialize_raft r) = db_get db Logs (LogKey.serialize_raft r)) as Hr
    by (intros r; apply Hsame, raft_other_key).
  split; unfold in_log in *.
  - intros k v Hg Hp. apply (Hwf k v); [|done]. rewrite <- Hsame; [done|]. by apply raft_prefix_other.
  - intros r v. rewrite Hr. apply Hv.
  - by rewrite Hr.
  - intros r. rewrite Hr. apply Hu.
Qed.

(** The first loop, with its last snapshot: every group is compacted. *)
Lemma compact_changes_spec db up_to r0 :
  compactable db up_to r0 ->
  exists all st, StronglySorted entry_lt all /\ of_db db all /\
    compact_loop up_to (db_iterator db Logs [LogKey.CHANGE_KEY_PREFIX] Forward)
      (mkCompaction db 0 Collection.None ∅ [] false) = (st, true) /\ has_changes st = true /\
    let db1 := Compact.db (write_snapshot up_to st) in
    log_wf db1 /\
    (forall cf k, other_key cf k -> db_get db1 cf k = db_get db cf k) /\
    (forall g i, group_fits g -> fits 64 i -> db_get db1 Logs (group_key g i) = compacted db up_to all g i).
Proof.
  intros Hc. pose proof (cp_up_to _ _ _ Hc) as Hu.
  destruct (log_entries db (cp_log _ _ _ Hc)) as (all & E & Hf & Hs & Hall).
  destruct (compact_loop_inv db up_to Hu all Hf Hs) with (d := @nil entry) (rest := all)
    (st := mkCompaction db 0 Collection.None ∅ [] false) as (st & Est & Hi).
  - intros e [[Hg Hi] Hv]%Hall. by eapply (cp_values _ _ _ Hc e.1 e.2.1).
  - intros g v [[Hg _] Hv]%Hall. destruct (cp_earlier _ _ _ Hc g v Hg Hv) as (i & v' & Hi & Hlt & Hv').
    exists i, v'. split; [|done]. apply Hall. done.
  - done.
  - split; [by left|]. split; cbn; try done; [|by apply (cp_log _ _ _ Hc)|].
    + split; [done|]. by intros (? & ?%not_elem_of_nil & _).
    + intros g i _ _. by destruct (decide _).
  - exists all, st. split; [done|]. split; [done|].
    split; [by rewrite <- compact_loop_prefix, E|]. split; [|by apply write_snapshot_db].
    apply (inv_has _ _ _ _ Hi). destruct (cp_some _ _ _ Hc) as (g & v & Hg & Hv).
    exists (g, (up_to, v)). split; [|done]. by apply Hall.
Qed.

Lemma compact_log_up_to_spec db up_to r0 :
  compactable db up_to r0 ->
  exists db1 db', compact_log_up_to db up_to = (db', true) /\ compact_raft up_to db1 = (db', true) /\
    raft_compactable db1 up_to r0 /\
    (forall cf k, other_key cf k -> db_get db1 cf k = db_get db cf k) /\
    log_wf db' /\
    exists all, StronglySorted entry_lt all /\ of_db db all /\
      forall g i, group_fits g -> fits 64 i ->
        db_get db' Logs (group_key g i) = compacted db up_to all g i.
Proof.
  intros Hc. destruct (compact_changes_spec db up_to r0 Hc) as (all & st & Hs & Hall & Est & Hh & Hwf & Hother & Hdb).
  set (db1 := Compact.db (write_snapshot up_to st)) in *.
  assert (raft_compactable db1 up_to r0) as Hr by by eapply raft_compactable_same; [apply Hc|].
  destruct (compact_raft_spec db1 up_to r0 Hr) as (db' & E & Hsame & _).
  exists db1, db'. split; [|split; [done|]].
  { unfold compact_log_up_to. rewrite Est. cbn [negb]. rewrite Hh. exact E. }
  split; [done|]. split; [done|]. split.
  { intros k v Hk Hp. apply (Hwf k v); [|done]. rewrite <- Hsame; [done|]. intros _ r _ ->. discriminate Hp. }
  exists all. split; [done|]. split; [done|]. intros g i Hg Hi. rewrite <- Hdb by done. apply Hsame. intros _ r _ Ek.
  by destruct (raft_other_key r eq_refl g i).
Qed.

(** C28. Compaction keeps the meaning of the log. On a well-formed log with an
    entry at [up_to], in which every account and collection with an entry at
    [up_to] also has an earlier one, [compact_log_up_to] succeeds. The log of
    every account and collection is a list of changes and snapshots, and
    afterwards it is that list with the part up to [up_to] replaced by one
    snapshot of the ids that the part leaves behind: all entries below [up_to]
    are gone, those above are untouched, and the ids that inserting, deleting
    and loading snapshots in the order of the log leaves behind are the same. *)
Theorem compaction_preserves_log (db : DB) up_to r0 :
  compactable db up_to r0 ->
  let '(db', ok) := compact_log_up_to db up_to in
  ok = true /\
  forall g, group_fits g ->
    (exists l, log_records db g l) /\
    (forall l, log_records db g l -> log_records db' g (compact_records up_to l) /\ replay (compact_records up_to l) = replay l) /\
    (forall i, fits 64 i -> i < up_to -> db_get db' Logs (group_key g i) = None) /\
    (forall i, fits 64 i -> up_to < i ->
      db_get db' Logs (group_key g i) = db_get db Logs (group_key g i)).
Proof.
  intros Hc. destruct (compact_log_up_to_spec db up_to r0 Hc)
    as (db1 & db' & -> & _ & _ & _ & Hwf & all & Hs & Hall & Hdb).
  split; [done|]. intros g Hg. split; [by apply records_exist; [apply Hc..|]|]. split.
  - intros l Hl. split; [|apply replay_compacted, Hl].
    apply (records_compacted db up_to (cp_up_to _ _ _ Hc) db' all); try done; [apply Hc| |by intros; apply Hdb].
    intros v Hv. destruct (cp_earlier _ _ _ Hc g v Hg Hv) as (i & v' & Hi & Hlt & Hv') . intros E.
    assert (i ∈ dels up_to g all) as Hin; [|rewrite E in Hin; by apply not_elem_of_nil in Hin].
    apply elem_of_dels. exists v'. split; [by apply Hall|done].
  - split; intros i Hi Hlt; rewrite Hdb by done.
    + by eapply compacted_below.
    + by apply compacted_above.
Qed.

(** Compaction keeps the Raft log for followers that lag behind. The Raft
    entries below [up_to] are removed and those above kept; the entry at
    [up_to] becomes a snapshot that can be read back and that records, for
    every account, a collection if and only if some entry up to [up_to]
    recorded it. *)
Theorem compaction_raft_snapshot (db : DB) up_to r0 :
  compactable db up_to r0 ->
  let '(db', ok) := compact_log_up_to db up_to in
  (forall r, rid_fits r -> rid_index r < up_to -> db_get db' Logs (LogKey.serialize_raft r) = None) /\
  (forall r, rid_fits r -> up_to < rid_index r ->
    db_get db' Logs (LogKey.serialize_raft r) = db_get db Logs (LogKey.serialize_raft r)) /\
  exists v e, db_get db' Logs (LogKey.serialize_raft r0) = Some v /\ entry_deserialize v = Some e /\
    forall a n, 0 <= n ->
      Z.testbit (recorded (entry_pairs e) a) n = true <->
      exists r v' e', rid_fits r /\ rid_index r <= up_to /\
        db_get db Logs (LogKey.serialize_raft r) = Some v' /\ entry_deserialize v' = Some e' /\
        Z.testbit (recorded (entry_pairs e') a) n = true.
Proof.
  intros Hc. destruct (compact_log_up_to_spec db up_to r0 Hc) as (db1 & db' & -> & E & Hr & Hother & _).
  assert (forall r, db_get db1 Logs (LogKey.serialize_raft r) = db_get db Logs (LogKey.serialize_raft r)) as Hsame
    by (intros r; apply Hother, raft_other_key).
  destruct (compact_raft_spec db1 up_to r0 Hr) as (db2 & E2 & _ & Hbelow & Habove & v & e & Hv & He & Hbits).
  assert (db2 = db') as -> by congruence. split; [done|]. split.
  - intros r Hf Hlt. by rewrite Habove, Hsame.
  - exists v, e. split; [done|]. split; [done|]. intros a n Hn. rewrite Hbits by done. unfold raft_old.
    by setoid_rewrite Hsame.
Qed.
End Compaction.

(** ** Logs on which compaction can be run *)

Module CompactSample.
Export ChangeLog.SampleStore.

Definition set_change (a : AccountId) (i : ChangeId) (ins del : list Z) : WriteOperation :=
  OpSet Logs (group_key (a, Collection.Mail) i) (Batch.serialize (Batch.mkChange ins [] del [])).
Definition set_raft (i : LogIndex) (a : AccountId) : WriteOperation :=
  OpSet Logs (LogKey.serialize_raft (mkRaftId 1 i)) (item_bytes a 4).

(** Account 1 has its changes at 1, 3 and 4, account 2 at 2. *)
Definition log_ops : list WriteOperation :=
  [set_change 1 1 [10; 11] []; set_raft 1 1; set_change 2 2 [20] []; set_raft 2 2;
   set_change 1 3 [] [10]; set_raft 3 1; set_change 1 4 [12] []; set_raft 4 1].
Definition log : MemStore.t := db_write MemStore.empty log_ops.

(** Account 1 has its only change at 3, account 2 at 2. *)
Definition leaky : MemStore.t :=
  db_write MemStore.empty
    [set_change 2 2 [20] []; set_raft 2 2; set_change 1 3 [77] []; set_raft 3 1].

Definition mail (a : AccountId) : group := (a, Collection.Mail).
End CompactSample.
Import CompactSample.

(** Compaction mixes up accounts when a group has its only entry at
    [up_to]: no snapshot is written for it, its ids are not cleared, and they
    enter the snapshot of the next group that has one. Here the id 77 of
    account 1 becomes part of the log of account 2. *)
Theorem compaction_leaks_ids :
  log_set leaky (mail 1) = Some {[77]} /\ log_set leaky (mail 2) = Some {[20]} /\
  (compact_log_up_to leaky 3).2 = true /\
  log_set (compact_log_up_to leaky 3).1 (mail 2) = Some {[20; 77]}.
Proof. split_and!; vm_compute; reflexivity. Qed.

(** Compaction drops deletions that clients have yet to see. A client of
    account 1 that stopped at state 1 has the ids 10 and 11. Before
    compaction up to 3 its changes are the deletion of 10 and the creation of
    12; after it they are the creation of 11 and 12, and 10 is never deleted. *)
Theorem compaction_forgets_deletions :
  changes <$> get_changes log 1 Collection.Mail (Since 1) = Some [Delete 10; Insert 12] /\
  (compact_log_up_to log 3).2 = true /\
  changes <$> get_changes (compact_log_up_to log 3).1 1 Collection.Mail (Since 1) =
    Some [Insert 11; Insert 12].
Proof. split_and!; vm_compute; reflexivity. Qed.

(** The entries of the sample log. *)
Definition sample_changes : list (group * ChangeId * Batch.Change) :=
  [(mail 1, 1, Batch.mkChange [10; 11] [] [] []); (mail 2, 2, Batch.mkChange [20] [] [] []);
   (mail 1, 3, Batch.mkChange [] [] [10] []); (mail 1, 4, Batch.mkChange [12] [] [] [])].
Definition sample_raft : list (LogIndex * AccountId) := [(1, 1); (2, 2); (3, 1); (4, 1)].

Lemma sample_get k v :
  db_get CompactSample.log Logs k = Some v ->
  (exists e, e ∈ sample_changes /\ k = group_key e.1.1 e.1.2 /\ v = Batch.serialize e.2) \/
  (exists e, e ∈ sample_raft /\ k = LogKey.serialize_raft (mkRaftId 1 e.1) /\ v = item_bytes e.2 4).
Proof.
  intros Hin%written_get; [|by repeat (constructor; [by eexists _, _, _|])].
  unfold log_ops in Hin.
  repeat (apply elem_of_cons in Hin as [Hin|Hin];
    [pose proof (f_equal op_key Hin) as Hk; cbn [op_key set_change set_raft] in Hk;
     pose proof (f_equal (fun op => match op with OpSet _ _ v => v | _ => [] end) Hin) as Hv;
     cbn [set_change set_raft] in Hv; clear Hin|]); [..|by apply not_elem_of_nil in Hin].
  all: first [left; eexists (_, _, _); split_and!; [|exact Hk|exact Hv]; by set_solver
             |right; eexists (_, _); split_and!; [|exact Hk|exact Hv]; by set_solver].
Qed.

Lemma sample_changes_ok e :
  e ∈ sample_changes -> group_fits e.1.1 /\ fits 64 e.1.2 /\ change_wf e.2.
Proof.
  unfold sample_changes. rewrite !elem_of_cons, elem_of_nil. unfold group_fits, change_wf, fits.
  intros [->|[->|[->|[->|[]]]]]; cbn; repeat split; try lia; repeat constructor; lia.
Qed.

Lemma sample_change_get g i v :
  group_fits g -> fits 64 i -> db_get CompactSample.log Logs (group_key g i) = Some v ->
  exists c, (g, i, c) ∈ sample_changes /\ v = Batch.serialize c.
Proof.
  intros Hg Hi [([[g' i'] c] & Hin & Hk & ->)|(e & _ & Hk & _)]%sample_get.
  - destruct (sample_changes_ok _ Hin) as (Hg' & Hi' & _). cbn [fst snd] in *.
    apply group_key_inj in Hk as [-> ->]; [|done..]. by exists c.
  - apply (f_equal head) in Hk. discriminate Hk.
Qed.

Lemma sample_raft_get r v :
  rid_fits r -> db_get CompactSample.log Logs (LogKey.serialize_raft r) = Some v ->
  exists e, e ∈ sample_raft /\ r = mkRaftId 1 e.1 /\ v = item_bytes e.2 4.
Proof.
  intros Hr [(e & _ & Hk & _)|(e & Hin & Hk & ->)]%sample_get.
  - apply (f_equal head) in Hk. discriminate Hk.
  - exists e. split; [done|]. split; [|done]. apply raft_key_inj; [done| |done].
    revert Hin. unfold sample_raft. rewrite !elem_of_cons, elem_of_nil.
    intros [->|[->|[->|[->|[]]]]]; split; split; cbn; lia.
Qed.

Lemma sample_compactable : compactable CompactSample.log 3 (mkRaftId 1 3).
Proof.
  split.
  - split; lia.
  - intros k v [(e & Hin & -> & _)|(e & _ & -> & _)]%sample_get Hp; [|discriminate Hp].
    destruct (sample_changes_ok _ Hin) as (Hg & Hi & _). by exists e.1.1.1, e.1.1.2, e.1.2.
  - intros g i v Hg Hi (c & Hin & ->)%sample_change_get; [|done..]. left. exists c. split; [|done].
    apply (sample_changes_ok _ Hin).
  - split.
    + intros k v [(e & _ & -> & _)|(e & Hin & -> & _)]%sample_get Hp; [discriminate Hp|].
      exists (mkRaftId 1 e.1). split; [|done]. revert Hin. unfold sample_raft. rewrite !elem_of_cons, elem_of_nil.
      intros [->|[->|[->|[->|[]]]]]; split; split; cbn; lia.
    + intros r v Hr (e & Hin & _ & ->)%sample_raft_get; [|done]. exists (Item e.2 4).
      revert Hin. unfold sample_raft. rewrite !elem_of_cons, elem_of_nil.
      intros [->|[->|[->|[->|[]]]]]; (split; [vm_compute; reflexivity|]); repeat constructor; cbn; lia.
    + split; [|done]. split; [split; split; cbn; lia|]. vm_compute. by eexists.
    + intros r [Hr [v (e & Hin & -> & _)%sample_raft_get]]; [|done]. cbn. by intros ->.
  - exists (mail 1), (Batch.serialize (Batch.mkChange [] [] [10] [])). split; [split; cbn; lia|].
    vm_compute. reflexivity.
  - intros g v Hg (c & Hin & _)%sample_change_get; [|done|split; lia].
    assert (g = mail 1) as ->.
    { revert Hin. unfold sample_changes. rewrite !elem_of_cons, elem_of_nil.
      intros [[=]|[[=]|[[=]|[[=]|[]]]]]; congruence. }
    exists 1. eexists. split; [split; lia|]. split; [lia|]. vm_compute. reflexivity.
Qed.

(** The log of account 1. *)
Definition sample_records : list (ChangeId * log_record) :=
  [(1, RChange (Batch.mkChange [10; 11] [] [] [])); (3, RChange (Batch.mkChange [] [] [10] []));
   (4, RChange (Batch.mkChange [12] [] [] []))].
Lemma sample_records_log : log_records CompactSample.log (mail 1) sample_records.
Proof.
  split.
  - unfold sample_records. intros e. rewrite !elem_of_cons, elem_of_nil. unfold record_wf, change_wf, fits.
    intros [->|[->|[->|[]]]]; cbn; repeat split; try lia; repeat constructor; lia.
  - unfold sample_records. repeat constructor; cbn; lia.
  - intros i v Hi. split.
    + intros (c & Hin & ->)%sample_change_get; [|by split; cbn; lia|done]. exists (RChange c). split; [|done].
      revert Hin. unfold sample_changes, sample_records. rewrite !elem_of_cons, elem_of_nil.
      intros [[= -> ->]|[[=]|[[= -> ->]|[[= -> ->]|[]]]]]; set_solver.
    + intros (rr & Hin & ->). revert Hin. unfold sample_records. rewrite !elem_of_cons, elem_of_nil.
      intros [[= -> ->]|[[= -> ->]|[[= -> ->]|[]]]]; vm_compute; reflexivity.
Qed.

Lemma compaction_preserves_log_witness :
  replay sample_records = {[11; 12]} /\
  log_records (compact_log_up_to CompactSample.log 3).1 (mail 1) (compact_records 3 sample_records) /\
  compact_records 3 sample_records = [(3, RSnapshot {[11]}); (4, RChange (Batch.mkChange [12] [] [] []))].
Proof.
  pose proof (compaction_preserves_log CompactSample.log 3 (mkRaftId 1 3) sample_compactable) as Hp.
  destruct (compact_log_up_to CompactSample.log 3) as [db' ok]. destruct Hp as [_ Hp].
  destruct (Hp (mail 1)) as (_ & Hl & _); [split; cbn; lia|].
  split; [vm_compute; reflexivity|]. split; [|vm_compute; reflexivity]. by apply Hl, sample_records_log.
Defined.

Lemma compaction_raft_snapshot_witness :
  db_get (compact_log_up_to CompactSample.log 3).1 Logs (LogKey.serialize_raft (mkRaftId 1 2)) = None.
Proof.
  pose proof (compaction_raft_snapshot CompactSample.log 3 (mkRaftId 1 3) sample_compactable) as Hp.
  destruct (compact_log_up_to CompactSample.log 3) as [db' ok]. destruct Hp as [Hp _].
  apply Hp; [split; split; cbn; lia|cbn; lia].
Defined.
