(* ===== verification/Write.v ===== *)
(** * Writing documents: components/store/src/write/update.rs, write/batch.rs,
      write/options.rs, write/field.rs, core/document.rs, core/number.rs

    A batch of documents is turned into one list of store operations: the
    bitmaps of its documents, words and tags, stored and indexed values, the
    term index as a linked blob, blob links, access grants, and the entries of
    the change log and the Raft log. The state is the store with its blobs and
    the counters of the Raft log. Language detection, SHA-256 and the bincode
    form of tombstones are an interface. An error drops the state: the caller
    gets no result, and the store keeps at most a term index blob that has only
    an ephemeral link. *)

From S2P Require Import Prelude Lang Leb128 Serialize Types TermIndex Nlp Keys Bitmap BitList VecMap KV Blob ChangeLog RaftLog Read.

(** ** Options of a field *)

Definition F_STORE : Z := 0x01 ≪ 32.
Definition F_INDEX : Z := 0x02 ≪ 32.
Definition F_CLEAR : Z := 0x04 ≪ 32.
Definition F_NONE : Z := 0.
Definition F_KEYWORD : Z := 1.
Definition F_TOKENIZE : Z := 2.
Definition F_FULL_TEXT : Z := 3.

Definition opt_store (o : Z) : Z := Z.lor o F_STORE.
Definition opt_index (o : Z) : Z := Z.lor o F_INDEX.
Definition opt_clear (o : Z) : Z := Z.lor o F_CLEAR.
Definition opt_keyword (o : Z) : Z := Z.lor o F_KEYWORD.
Definition opt_tokenize (o : Z) : Z := Z.lor o F_TOKENIZE.
Definition opt_full_text (o part_id : Z) : Z := Z.lor o (F_FULL_TEXT + part_id).

Definition is_store (o : Z) : bool := negb (Z.land o F_STORE =? 0).
Definition is_index (o : Z) : bool := negb (Z.land o F_INDEX =? 0).
Definition is_clear (o : Z) : bool := negb (Z.land o F_CLEAR =? 0).
Definition get_text_options (o : Z) : Z := Z.land o 0xFFFFFFFF.
Definition is_full_text (o : Z) : bool := F_FULL_TEXT <=? get_text_options o.

(** ** Documents *)

Definition MAX_TOKEN_LENGTH : Z := 25.

Record Field (A : Type) := mkField { f_field : FieldId; f_options : Z; f_value : A }.
Arguments mkField {A}.
Arguments f_field {A}.
Arguments f_options {A}.
Arguments f_value {A}.

(** A text is its characters, a float its bit pattern. *)
Record Text := mkText { tx_text : list Z; tx_language : Language }.
Inductive Number : Set := NInteger (i : Z) | NLongInteger (i : Z) | NFloat (bits : Z).
Record Permission := mkPermission { perm_id : AccountId; perm_acl : Z }.

Definition number_to_be_bytes (n : Number) : list Z :=
  match n with NInteger i => be_bytes 4 i | NLongInteger i => be_bytes 8 i | NFloat b => be_bytes 8 b end.
Definition number_serialize (n : Number) : list Z :=
  match n with NInteger i => le_bytes 4 i | NLongInteger i => le_bytes 8 i | NFloat b => le_bytes 8 b end.

Record Document := mkDocument {
  d_collection : Collection.t;
  d_document_id : DocumentId;
  d_term_index : option (BlobId * Z);
  d_text_fields : list (Field Text);
  d_number_fields : list (Field Number);
  d_binary_fields : list (Field (list Z));
  d_tag_fields : list (Field Tag);
  d_acls : list (Permission * Z);
  d_blobs : list (BlobId * Z)
}.
Definition document_new (collection : Collection.t) (document_id : DocumentId) : Document :=
  mkDocument collection document_id None [] [] [] [] [] [].
Definition document_text (document : Document) (field : FieldId) (value : list Z) (language : Language) (options : Z) : Document :=
  let 'mkDocument c id ti texts numbers binaries tags acls blobs := document in
  mkDocument c id ti (texts ++ [mkField field options (mkText value language)]) numbers binaries tags acls blobs.
Definition document_binary (document : Document) (field : FieldId) (value : list Z) (options : Z) : Document :=
  let 'mkDocument c id ti texts numbers binaries tags acls blobs := document in
  mkDocument c id ti texts numbers (binaries ++ [mkField field options value]) tags acls blobs.
Definition document_number (document : Document) (field : FieldId) (value : Number) (options : Z) : Document :=
  let 'mkDocument c id ti texts numbers binaries tags acls blobs := document in
  mkDocument c id ti texts (numbers ++ [mkField field options value]) binaries tags acls blobs.
Definition document_tag (document : Document) (field : FieldId) (value : Tag) (options : Z) : Document :=
  let 'mkDocument c id ti texts numbers binaries tags acls blobs := document in
  mkDocument c id ti texts numbers binaries (tags ++ [mkField field options value]) acls blobs.
Definition document_blob (document : Document) (blob : BlobId) (options : Z) : Document :=
  let 'mkDocument c id ti texts numbers binaries tags acls blobs := document in
  mkDocument c id ti texts numbers binaries tags acls (blobs ++ [(blob, options)]).
Definition document_acl (document : Document) (acl : Permission) (options : Z) : Document :=
  let 'mkDocument c id ti texts numbers binaries tags acls blobs := document in
  mkDocument c id ti texts numbers binaries tags (acls ++ [(acl, options)]) blobs.
Definition document_term_index (document : Document) (blob : BlobId) (options : Z) : Document :=
  let 'mkDocument c id _ texts numbers binaries tags acls blobs := document in
  mkDocument c id (Some (blob, options)) texts numbers binaries tags acls blobs.
Definition document_is_empty (document : Document) : bool :=
  match d_text_fields document, d_number_fields document, d_binary_fields document, d_tag_fields document with
  | [], [], [], [] => true
  | _, _, _, _ => false
  end.

Inductive WriteAction := WInsert (document : Document) | WUpdate (document : Document) | WDelete (document : Document).
Definition action_document (a : WriteAction) : Document :=
  match a with WInsert d | WUpdate d | WDelete d => d end.

(** A batch; only the linked batches of the outermost one are written. *)
Inductive WriteBatch := mkBatch
  (account_id : AccountId) (changes : VecMap Collection.t Batch.Change)
  (documents : list WriteAction) (linked_batch : list WriteBatch).
Definition wb_account_id (b : WriteBatch) := let 'mkBatch a _ _ _ := b in a.
Definition wb_changes (b : WriteBatch) := let 'mkBatch _ c _ _ := b in c.
Definition wb_documents (b : WriteBatch) := let 'mkBatch _ _ d _ := b in d.
Definition wb_linked_batch (b : WriteBatch) := let 'mkBatch _ _ _ l := b in l.
Definition batch_new (account_id : AccountId) : WriteBatch := mkBatch account_id (mkVecMap [] []) [] [].
Definition batch_insert (account_id : AccountId) (document : Document) : WriteBatch :=
  mkBatch account_id (mkVecMap [] []) [WInsert document] [].
Definition batch_delete (account_id : AccountId) (collection : Collection.t) (document_id : DocumentId) : WriteBatch :=
  mkBatch account_id (mkVecMap [] []) [WDelete (document_new collection document_id)] [].
Definition batch_is_empty (b : WriteBatch) : bool :=
  match wb_documents b, vm_k (wb_changes b) with [], [] => true | _, _ => false end.
Definition push_action (b : WriteBatch) (action : WriteAction) : WriteBatch :=
  mkBatch (wb_account_id b) (wb_changes b) (wb_documents b ++ [action]) (wb_linked_batch b).
Definition insert_document (b : WriteBatch) (document : Document) : WriteBatch := push_action b (WInsert document).
Definition update_document (b : WriteBatch) (document : Document) : WriteBatch := push_action b (WUpdate document).
Definition delete_document (b : WriteBatch) (document : Document) : WriteBatch := push_action b (WDelete document).
Definition add_linked_batch (b batch : WriteBatch) : WriteBatch :=
  mkBatch (wb_account_id b) (wb_changes b) (wb_documents b) (wb_linked_batch b ++ [batch]).
(** The taken batch, and what is left in place. *)
Definition batch_take (b : WriteBatch) : WriteBatch * WriteBatch := (b, batch_new (wb_account_id b)).

(** ** The log of a batch *)

(** [HashSet::insert]. *)
Definition hash_insert (ids : list Z) (id : Z) : list Z := if bool_decide (id ∈ ids) then ids else ids ++ [id].
Definition change_default : Batch.Change := Batch.mkChange [] [] [] [].
Definition log_change (f : Batch.Change -> Batch.Change) (b : WriteBatch) (collection : Collection.t) : WriteBatch :=
  let '(m, pos) := vm_get_mut_or_insert (wb_changes b) collection change_default in
  mkBatch (wb_account_id b) (mkVecMap (vm_k m) (alter f pos (vm_v m))) (wb_documents b) (wb_linked_batch b).
Definition log_insert (b : WriteBatch) (collection : Collection.t) (id : Z) : WriteBatch :=
  log_change (fun c => Batch.mkChange (hash_insert (Batch.inserts c) id) (Batch.updates c) (Batch.deletes c) (Batch.child_updates c)) b collection.
Definition log_update (b : WriteBatch) (collection : Collection.t) (id : Z) : WriteBatch :=
  log_change (fun c => Batch.mkChange (Batch.inserts c) (hash_insert (Batch.updates c) id) (Batch.deletes c) (Batch.child_updates c)) b collection.
Definition log_child_update (b : WriteBatch) (collection : Collection.t) (id : Z) : WriteBatch :=
  log_change (fun c => Batch.mkChange (Batch.inserts c) (Batch.updates c) (Batch.deletes c) (hash_insert (Batch.child_updates c) id)) b collection.
Definition log_delete (b : WriteBatch) (collection : Collection.t) (id : Z) : WriteBatch :=
  log_change (fun c => Batch.mkChange (Batch.inserts c) (Batch.updates c) (hash_insert (Batch.deletes c) id) (Batch.child_updates c)) b collection.
Definition log_move (b : WriteBatch) (collection : Collection.t) (old_id new_id : Z) : WriteBatch :=
  log_change (fun c => Batch.mkChange (hash_insert (Batch.inserts c) new_id) (Batch.updates c) (hash_insert (Batch.deletes c) old_id) (Batch.child_updates c)) b collection.

(** ** The bitmaps of a batch: per key, the documents to set and to clear *)

Abbreviation bitmap_list := (gmap (list Z) (gmap Z bool)).
Definition set_document (document : DocumentId) (is_set : bool) (bitmaps : bitmap_list) (key : list Z) : bitmap_list :=
  <[key := <[document := is_set]> (default ∅ (bitmaps !! key))]> bitmaps.

(** What the writer needs of the outside: the language guesses of [whatlang],
    SHA-256, and [bincode::serialize] of tombstones. *)
Class WriteEnv := {
  write_whatlang :: Whatlang;
  sha256 : list Z -> list Z;
  bincode : list Document -> option (list Z)
}.

Section Write.
Context `{Store DB} `{BlobStore E} `{Unicode} `{Linguistics} `{BitPacker} `{WriteEnv}.
Variables (default_language : Language) (timestamp : Z).
Abbreviation blobs := (blobs (DB := DB) (E := E)).

Section Documents.
Variables (account_id : AccountId) (collection : Collection.t) (document_id : DocumentId).

Definition term_bit (field : FieldId) (is_set is_exact : bool) (bitmaps : bitmap_list) (word : list Z) : bitmap_list :=
  set_document document_id is_set bitmaps (BitmapKey.serialize_term account_id collection field word is_exact).
Definition token_bits (field : FieldId) (is_set : bool) (bitmaps : bitmap_list) (token : StemmedToken) : bitmap_list :=
  let bitmaps := term_bit field is_set true bitmaps (tk_word token) in
  match tk_stemmed_word token with
  | Some stemmed_word => term_bit field is_set false bitmaps stemmed_word
  | None => bitmaps
  end.

(** The operation for a field: set or delete. *)
Definition set_or_delete (is_clear : bool) (cf : ColumnFamily) (key value : list Z) : WriteOperation :=
  if is_clear then OpDelete cf key else OpSet cf key value.

Definition value_key (field : FieldId) : list Z := ValueKey.serialize_value account_id collection document_id field.
Definition term_index_key : list Z := ValueKey.serialize_term_index account_id collection document_id.
Definition index_key (field : FieldId) (value : list Z) : list Z :=
  IndexKey.serialize account_id collection document_id field value.

(** The [is_stored] and [is_indexed] operations of a field. *)
Definition field_ops {A} (field : Field A) (stored indexed : list Z) : list WriteOperation :=
  let clear := is_clear (f_options field) in
  (if is_store (f_options field) then [set_or_delete clear Values (value_key (f_field field)) stored] else []) ++
  (if is_index (f_options field) then [set_or_delete clear Indexes (index_key (f_field field) indexed) []] else []).

Record text_state := mkTextState {
  ts_bitmaps : bitmap_list; ts_ops : list WriteOperation; ts_index : TermIndexBuilder }.

Definition text_field (language : Language) (st : text_state) (field : Field Text) : res text_state :=
  let is_set := negb (is_clear (f_options field)) in
  let text := tx_text (f_value field) in
  let options := get_text_options (f_options field) in
  '(bitmaps, index) ←
    (if options =? F_KEYWORD then
       Ok (term_bit (f_field field) is_set true (ts_bitmaps st) (str_bytes text), ts_index st)
     else if options =? F_TOKENIZE then
       tokens ← tokenizer_tokens text (tx_language (f_value field)) MAX_TOKEN_LENGTH;
       Ok (fold_left (term_bit (f_field field) is_set true) (map (fun t => str_bytes (wd_word t)) tokens) (ts_bitmaps st),
           ts_index st)
     else if options =? F_NONE then Ok (ts_bitmaps st, ts_index st)
     else
       let language := if bool_decide (tx_language (f_value field) = Unknown) then language else tx_language (f_value field) in
       tokens ← stemmer_tokens text language MAX_TOKEN_LENGTH;
       Ok (fold_left (token_bits (f_field field) is_set) tokens (ts_bitmaps st),
           index_part (ts_index st) (f_field field) (u32 (options - F_FULL_TEXT)) tokens));
  Ok (mkTextState bitmaps (ts_ops st ++ field_ops field (str_bytes text) (str_bytes text)) index).
Fixpoint text_fields_loop (language : Language) (st : text_state) (fields : list (Field Text)) : res text_state :=
  match fields with
  | [] => Ok st
  | field :: fields => st ← text_field language st field; text_fields_loop language st fields
  end.

(** The language of the full texts whose language is unknown. *)
Definition batch_language (fields : list (Field Text)) : Language :=
  let unknown := filter (fun f => is_full_text (f_options f) = true /\ tx_language (f_value f) = Unknown) fields in
  let lang_detector := fold_left (fun m f => (lang_detect m (tx_text (f_value f)) MIN_LANGUAGE_SCORE).1) unknown [] in
  default default_language (most_frequent_language lang_detector).

Definition text_fields (s : blobs) (bitmaps : bitmap_list) (ops : list WriteOperation) (fields : list (Field Text))
    : res (blobs * bitmap_list * list WriteOperation * list (BlobId * Z)) :=
  st ← text_fields_loop (batch_language fields) (mkTextState bitmaps ops builder_new) fields;
  if builder_is_empty (ts_index st) then Ok (s, ts_bitmaps st, ts_ops st, [])
  else
    bytes ← builder_serialize (ts_index st);
    let blob_id := Local_ (sha256 bytes) in
    '(s, _) ← blob_store timestamp s blob_id bytes;
    Ok (s, ts_bitmaps st, ts_ops st ++ [OpSet Values term_index_key (blob_serialize blob_id)], [(blob_id, 0)]).

(** The words of an existing term index. *)
Fixpoint index_words (field : FieldId) (is_set is_exact : bool) (words : list (list Z)) (ids : list TermId)
    (bitmaps : bitmap_list) : res bitmap_list :=
  match ids with
  | [] => Ok bitmaps
  | id :: ids =>
      word ← ok_or (words !! Z.to_nat id);
      index_words field is_set is_exact words ids (term_bit field is_set is_exact bitmaps word)
  end.
Fixpoint index_terms (is_set : bool) (words : list (list Z)) (terms : list Terms) (bitmaps : bitmap_list)
    : res bitmap_list :=
  match terms with
  | [] => Ok bitmaps
  | term :: terms =>
      bitmaps ← index_words (te_field_id term) is_set true words (elements (exact_terms term)) bitmaps;
      bitmaps ← index_words (te_field_id term) is_set false words (elements (stemmed_terms term)) bitmaps;
      index_terms is_set words terms bitmaps
  end.
Definition existing_index (s : blobs) (bitmaps : bitmap_list) (ops : list WriteOperation) (term_index : BlobId * Z)
    : res (bitmap_list * list WriteOperation) :=
  let '(blob_id, options) := term_index in
  blob ← blob_get s blob_id;
  bytes ← ok_or blob;
  token_index ← ok_or (token_index_deserialize bytes);
  bitmaps ← index_terms (negb (is_clear options)) (tokens token_index) (token_terms token_index) bitmaps;
  Ok (bitmaps, ops ++ [set_or_delete (is_clear options) Values term_index_key (blob_serialize blob_id)]).

Definition number_ops (fields : list (Field Number)) : list WriteOperation :=
  fields ≫= (fun f => field_ops f (number_serialize (f_value f)) (number_to_be_bytes (f_value f))).
Definition tag_bits (bitmaps : bitmap_list) (field : Field Tag) : bitmap_list :=
  set_document document_id (negb (is_clear (f_options field))) bitmaps
    (BitmapKey.serialize_tag account_id collection (f_field field) (f_value field)).
Definition binary_ops (fields : list (Field (list Z))) : list WriteOperation :=
  map (fun f => set_or_delete (is_clear (f_options f)) Values (value_key (f_field f)) (f_value f)) fields.
Definition blob_ops (links : list (BlobId * Z)) : list WriteOperation :=
  map (fun '(id, options) =>
    set_or_delete (is_clear options) Blobs (BlobKey.serialize_link id account_id collection document_id) []) links.
Definition acl_ops (acls : list (Permission * Z)) : list WriteOperation :=
  map (fun '(acl, options) =>
    set_or_delete (is_clear options) Values (ValueKey.serialize_acl (perm_id acl) account_id collection document_id)
      (le_bytes 8 (perm_acl acl))) acls.
End Documents.

(** ** A document *)

Record prepared := mkPrepared {
  pr_blobs : blobs; pr_ops : list WriteOperation; pr_bitmaps : bitmap_list; pr_tombstones : list Document }.

(** The bit of the document in its collection, and the term index to clear. *)
Definition enter_document (account_id : AccountId) (st : prepared) (action : WriteAction)
    : res (bitmap_list * option (BlobId * Z)) :=
  let document := action_document action in
  let key := BitmapKey.serialize_document_ids account_id (d_collection document) in
  match action with
  | WInsert _ => Ok (set_document (d_document_id document) true (pr_bitmaps st) key, d_term_index document)
  | WUpdate _ => Ok (pr_bitmaps st, d_term_index document)
  | WDelete _ =>
      stored ← get_as blob_deserialize (bl_db (pr_blobs st)) Values
        (term_index_key account_id (d_collection document) (d_document_id document));
      Ok (set_document (d_document_id document) false (pr_bitmaps st) key,
          match stored with Some blob_id => Some (blob_id, opt_clear 0) | None => d_term_index document end)
  end.

Definition is_delete (action : WriteAction) : bool := match action with WDelete _ => true | _ => false end.

Definition prepare_document (account_id : AccountId) (tombstone_deletions : bool) (st : prepared) (action : WriteAction)
    : res prepared :=
  let document := action_document action in
  let c := d_collection document in
  let d := d_document_id document in
  if is_delete action && tombstone_deletions then
    Ok (mkPrepared (pr_blobs st) (pr_ops st) (pr_bitmaps st) (pr_tombstones st ++ [document]))
  else
    '(bitmaps, term_index) ← enter_document account_id st action;
    '(s, bitmaps, ops, links) ←
      (match d_text_fields document with
       | [] => Ok (pr_blobs st, bitmaps, pr_ops st, [])
       | fields => text_fields account_id c d (pr_blobs st) bitmaps (pr_ops st) fields
       end);
    '(bitmaps, ops) ←
      (match term_index with
       | Some term_index => existing_index account_id c d s bitmaps ops term_index
       | None => Ok (bitmaps, ops)
       end);
    let ops := ops ++ number_ops account_id c d (d_number_fields document) in
    let bitmaps := fold_left (tag_bits account_id c d) (d_tag_fields document) bitmaps in
    let ops := ops ++ binary_ops account_id c d (d_binary_fields document) in
    let links := d_blobs document ++ links ++ match term_index with Some t => [t] | None => [] end in
    let ops := ops ++ blob_ops account_id c d links in
    let ops := ops ++ acl_ops account_id c d (d_acls document) in
    Ok (mkPrepared s ops bitmaps (pr_tombstones st)).

Fixpoint prepare_documents (account_id : AccountId) (tombstone_deletions : bool) (st : prepared) (actions : list WriteAction)
    : res prepared :=
  match actions with
  | [] => Ok st
  | action :: actions =>
      st ← prepare_document account_id tombstone_deletions st action;
      prepare_documents account_id tombstone_deletions st actions
  end.

(** [for (key, doc_id_list) in bitmap_list]; no key repeats, so the order of the
    hash maps does not matter. *)
Definition bitmap_ops (bitmaps : bitmap_list) : list WriteOperation :=
  map (fun '(key, documents) => OpMerge Bitmaps key (set_clear_bits (map_to_list documents))) (map_to_list bitmaps).

(** ** A batch *)

Record store := mkStore { s_blobs : blobs; s_raft_term : Z; s_raft_index : Z; s_tombstone_deletions : bool }.
Record WriteChanges := mkWriteChanges { wc_collections : Z; wc_change_id : Z }.

Definition log_change_ops (account_id : AccountId) (index : LogIndex) (changes : list (Collection.t * Batch.Change))
    : list WriteOperation :=
  map (fun '(collection, log_entry) =>
    OpSet Logs (LogKey.serialize_change account_id collection index) (Batch.serialize log_entry)) changes.
Definition batch_collections (changes : list (Collection.t * Batch.Change)) : Z :=
  fold_left (fun collections ch => bm_insert collections ch.1) changes bm_new.

Definition prepare_batch (s : store) (ops : list WriteOperation) (batch : WriteBatch) (tombstone_deletions : bool)
    : res (store * list WriteOperation * option WriteChanges) :=
  let account_id := wb_account_id batch in
  st ← prepare_documents account_id tombstone_deletions (mkPrepared (s_blobs s) ops ∅ []) (wb_documents batch);
  let ops := pr_ops st ++ bitmap_ops (pr_bitmaps st) in
  let changes := vm_iter (wb_changes batch) in
  match changes with
  | [] => Ok (mkStore (pr_blobs st) (s_raft_term s) (s_raft_index s) (s_tombstone_deletions s), ops, None)
  | _ =>
      let '(raft_id, raft_index) := assign_raft_id (s_raft_term s) (s_raft_index s) in
      let ops := ops ++ log_change_ops account_id (rid_index raft_id) changes in
      let collections := batch_collections changes in
      let ops := ops ++ [OpSet Logs (LogKey.serialize_raft raft_id) (RaftLog.item_bytes account_id collections)] in
      ops ←
        (match pr_tombstones st with
         | [] => Ok ops
         | tombstones =>
             bytes ← ok_or (bincode tombstones);
             Ok (ops ++ [OpSet Logs (LogKey.serialize_tombstone (rid_index raft_id) account_id) bytes])
         end);
      Ok (mkStore (pr_blobs st) (s_raft_term s) raft_index (s_tombstone_deletions s), ops,
          Some (mkWriteChanges collections (rid_index raft_id)))
  end.

Fixpoint prepare_linked (s : store) (ops : list WriteOperation) (batches : list WriteBatch) (tombstone_deletions : bool)
    : res (store * list WriteOperation) :=
  match batches with
  | [] => Ok (s, ops)
  | batch :: batches =>
      '(s, ops, _) ← prepare_batch s ops batch tombstone_deletions;
      prepare_linked s ops batches tombstone_deletions
  end.

(** [self.db.write(ops)]. *)
Definition submit (s : store) (ops : list WriteOperation) : store :=
  mkStore (mkBlobs (db_write (bl_db (s_blobs s)) ops) (bl_ext (s_blobs s)))
    (s_raft_term s) (s_raft_index s) (s_tombstone_deletions s).

Definition write (s : store) (batch : WriteBatch) : res (store * option WriteChanges) :=
  '(s, ops) ← prepare_linked s [] (wb_linked_batch batch) (s_tombstone_deletions s);
  '(s, ops, changes) ← prepare_batch s ops batch (s_tombstone_deletions s);
  Ok (submit s ops, changes).

Definition commit_write (s : store) (batch : WriteBatch) : res (store * option WriteChanges) :=
  '(s, ops, changes) ← prepare_batch s [] batch false;
  Ok (submit s ops, changes).

Definition untag (s : store) (account_id : AccountId) (collection : Collection.t) (field : FieldId) (tag : Tag)
    (untag_document_ids : list DocumentId) : store :=
  submit s [OpMerge Bitmaps (BitmapKey.serialize_tag account_id collection field tag) (clear_bits untag_document_ids)].
End Write.

(** ** Bits: what a batch assigns to the bitmaps *)

(** What a bitmap list says of a document under a key. *)
Definition assigned (bitmaps : bitmap_list) (key : list Z) (document : DocumentId) : option bool :=
  m ← bitmaps !! key; m !! document.

Lemma assigned_set d b bm k k' d' :
  assigned (set_document d b bm k) k' d' =
  if decide (k = k' /\ d = d') then Some b else assigned bm k' d'.
Proof.
  unfold assigned, set_document. destruct (decide (k = k')) as [<-|Hk].
  - rewrite lookup_insert_eq. cbn [mbind option_bind]. destruct (decide (d = d')) as [<-|Hd].
    + by rewrite lookup_insert_eq, decide_True.
    + rewrite lookup_insert_ne, decide_False by naive_solver. by destruct (bm !! k).
  - by rewrite lookup_insert_ne, decide_False by naive_solver.
Qed.

Abbreviation bits := (list (list Z * bool)).
Definition assign_bits (d : DocumentId) (l : bits) (bm : bitmap_list) : bitmap_list :=
  fold_left (fun bm kb => set_document d kb.2 bm kb.1) l bm.
Lemma assign_bits_app d l l' bm : assign_bits d (l ++ l') bm = assign_bits d l' (assign_bits d l bm).
Proof. apply fold_left_app. Qed.

(** The last assignment to a document under a key. *)
Definition last_bit (effects : list (list Z * DocumentId * bool)) (key : list Z) (d : DocumentId) : option bool :=
  fold_left (fun acc '(k, d', b) => if bool_decide (k = key /\ d' = d) then Some b else acc) effects None.
Definition doc_effects (d : DocumentId) (l : bits) : list (list Z * DocumentId * bool) :=
  map (fun kb => (kb.1, d, kb.2)) l.

Lemma last_bit_app l l' key d :
  last_bit (l ++ l') key d = match last_bit l' key d with Some b => Some b | None => last_bit l key d end.
Proof.
  unfold last_bit. rewrite fold_left_app. generalize (fold_left (fun acc '(k, d', b) => if bool_decide (k = key /\ d' = d) then Some b else acc) l None).
  induction l' as [|[[k d'] b] l' IH] using rev_ind; intros o; [done|]. rewrite !fold_left_app. cbn.
  case_bool_decide; [done|]. apply IH.
Qed.

Lemma assigned_bits d l bm key d' :
  assigned (assign_bits d l bm) key d' =
  match last_bit (doc_effects d l) key d' with Some b => Some b | None => assigned bm key d' end.
Proof.
  induction l as [|[k b] l IH] using rev_ind; [done|].
  unfold doc_effects in *. rewrite assign_bits_app, map_app, last_bit_app. cbn [map fst snd assign_bits fold_left].
  rewrite assigned_set. unfold last_bit at 1. cbn. destruct (decide _) as [Hk|Hk].
  - by rewrite bool_decide_eq_true_2.
  - by rewrite bool_decide_eq_false_2.
Qed.

(** ** What the operations do to a key *)

Definition avoids (cf : ColumnFamily) (ops : list WriteOperation) : Prop := Forall (fun op => op_cf op <> cf) ops.
Lemma avoids_app cf ops ops' : avoids cf (ops ++ ops') <-> avoids cf ops /\ avoids cf ops'.
Proof. apply Forall_app. Qed.

(** The store merges bitmaps with [bitmap_merge]. *)
Class BitmapMerges (DB : Type) `{Store DB} `{Roaring} : Prop :=
  merges_bitmaps v op : db_merge_op Bitmaps v op = bitmap_merge v [op].

Section Effects.
Context `{StoreLaws DB}.

Lemma op_effect_other cf k v op : op_cf op <> cf \/ op_key op <> k -> op_effect cf k v op = v.
Proof. intros Hne. unfold op_effect. rewrite bool_decide_eq_false_2; [done|]. naive_solver. Qed.

Lemma ops_effect_other cf k v ops :
  Forall (fun op => op_cf op <> cf \/ op_key op <> k) ops -> fold_left (op_effect cf k) ops v = v.
Proof. intros Ho. revert v. induction Ho as [|op ops Hop _ IH]; intros v; [done|]. cbn. by rewrite op_effect_other. Qed.

Lemma avoids_effect cf k v ops : avoids cf ops -> fold_left (op_effect cf k) ops v = v.
Proof. intros Ha. apply ops_effect_other. eapply Forall_impl; [exact Ha|]. by left. Qed.

Lemma blob_store_other `{BlobStore E} ts (s : blobs (DB := DB) (E := E)) id bytes s' r cf k :
  blob_store ts s id bytes = Ok (s', r) -> cf <> Blobs -> db_get (bl_db s') cf k = db_get (bl_db s) cf k.
Proof.
  unfold blob_store. destruct (db_exists _ _ _); [by intros [= -> _] _|].
  destruct (negb (blob_is_local id)).
  - destruct (ext_put _ _ _); [|done..]. cbn [mbind res_bind]. intros [= <- _] Hcf. cbn [bl_db].
    rewrite db_write_get. apply avoids_effect. constructor; [|constructor; [|constructor]]; cbn; congruence.
  - cbn [mbind res_bind]. intros [= <- _] Hcf. cbn [bl_db].
    rewrite db_write_get. apply avoids_effect. constructor; [|constructor; [|constructor]]; cbn; congruence.
Qed.

(** ** Merging the bitmaps *)

Context `{RoaringLaws} `{!BitmapMerges DB}.

Definition bitmap_after (bm : gset Z) (f : DocumentId -> option bool) (bm' : gset Z) : Prop :=
  forall d, d ∈ bm' <-> match f d with Some b => b = true | None => d ∈ bm end.

Lemma merge_documents v bm (m : gmap Z bool) :
  bitmap_value v = Some bm -> (forall d b, m !! d = Some b -> fits 32 d) ->
  exists bm', bitmap_value (db_merge_op Bitmaps v (set_clear_bits (map_to_list m))) = Some bm' /\
    bitmap_after bm (fun d => m !! d) bm'.
Proof.
  intros Hv Hm. rewrite merges_bitmaps.
  assert (Forall (fits 32) (map_to_list m).*1) as Hf.
  { apply Forall_fmap, Forall_forall. intros [d b] Hin%elem_of_map_to_list. by eapply Hm. }
  pose proof (bitmap_merge_value v [set_clear_bits (map_to_list m)]) as Hmv. rewrite Hv in Hmv. cbn [mbind option_bind] in Hmv.
  pose proof (merge_loop_batches [map_to_list m] bm) as Hl. cbn [fmap list_fmap fold_left] in Hl. rewrite Hl in Hmv by (repeat constructor; done).
  destruct (bitmap_merge v [set_clear_bits (map_to_list m)]) as [b|] eqn:Eb; [|done]. cbn [mbind option_bind] in Hmv.
  eexists. split; [exact Hmv|]. intros d. rewrite elem_of_apply_documents, !elem_of_map_to_list.
  destruct (m !! d) as [[]|]; naive_solver.
Qed.

Lemma bitmap_ops_effect (bitmaps : bitmap_list) key v bm :
  bitmap_value v = Some bm -> (forall k d b, assigned bitmaps k d = Some b -> fits 32 d) ->
  exists bm', bitmap_value (fold_left (op_effect Bitmaps key) (bitmap_ops bitmaps) v) = Some bm' /\
    bitmap_after bm (assigned bitmaps key) bm'.
Proof.
  intros Hv Hf. unfold bitmap_ops.
  destruct (bitmaps !! key) as [m|] eqn:Ek.
  - apply elem_of_map_to_list in Ek as Hin. apply list_elem_of_split in Hin as (l1 & l2 & Hl).
    pose proof (NoDup_fst_map_to_list bitmaps) as Hnd. rewrite Hl, fmap_app in Hnd. cbn in Hnd.
    apply NoDup_app in Hnd as (_ & Hn1 & Hnd2). apply NoDup_cons in Hnd2 as [Hn2 _].
    rewrite Hl, map_app, fold_left_app. cbn [map fold_left].
    assert (forall l, key ∉ l.*1 -> Forall (fun op => op_cf op <> Bitmaps \/ op_key op <> key)
      (map (fun '(key, documents) => OpMerge Bitmaps key (set_clear_bits (map_to_list documents))) l)) as Hother.
    { intros l Hk. apply Forall_map, Forall_forall. intros [k' m'] Hin. right. cbn. intros <-.
      apply Hk, (list_elem_of_fmap_2' fst _ _ _ Hin). done. }
    rewrite (ops_effect_other _ _ _ _ (Hother l2 Hn2)).
    rewrite (ops_effect_other _ _ v _ (Hother l1 (fun Hin => Hn1 key Hin (proj2 (elem_of_cons _ _ _) (or_introl eq_refl))))).
    unfold op_effect. rewrite bool_decide_eq_true_2 by done.
    destruct (merge_documents v bm m Hv) as (bm' & Hb & Ha).
    { intros d b Hd. apply (Hf key d b). unfold assigned. by rewrite Ek. }
    exists bm'. split; [done|]. intros d. unfold assigned. rewrite Ek. apply Ha.
  - exists bm. rewrite ops_effect_other; [split; [done|]|].
    + intros d. unfold assigned. by rewrite Ek.
    + apply Forall_map, Forall_forall. intros [k' m'] Hin%elem_of_map_to_list. right. cbn. intros ->. congruence.
Qed.
End Effects.

(** ** The bits of a document *)

Section Bits.
Context `{StoreLaws DB} `{BlobStore E} `{Unicode} `{Linguistics} `{BitPacker} `{WriteEnv}.
Variables (default_language : Language) (timestamp : Z).

Definition token_keys_of (a : AccountId) (c : Collection.t) (f : FieldId) (t : StemmedToken) : list (list Z) :=
  BitmapKey.serialize_term a c f (tk_word t) true ::
  match tk_stemmed_word t with Some w => [BitmapKey.serialize_term a c f w false] | None => [] end.

(** The keys a text field is found under. *)
Definition text_keys (a : AccountId) (c : Collection.t) (language : Language) (field : Field Text) : res (list (list Z)) :=
  let text := tx_text (f_value field) in
  let options := get_text_options (f_options field) in
  let key word := BitmapKey.serialize_term a c (f_field field) word true in
  if options =? F_KEYWORD then Ok [key (str_bytes text)]
  else if options =? F_TOKENIZE then
    tokens ← tokenizer_tokens text (tx_language (f_value field)) MAX_TOKEN_LENGTH;
    Ok (map (fun t => key (str_bytes (wd_word t))) tokens)
  else if options =? F_NONE then Ok []
  else
    tokens ← stemmer_tokens text
      (if bool_decide (tx_language (f_value field) = Unknown) then language else tx_language (f_value field)) MAX_TOKEN_LENGTH;
    Ok (tokens ≫= token_keys_of a c (f_field field)).
Definition text_bits (a : AccountId) (c : Collection.t) (language : Language) (field : Field Text) : res bits :=
  keys ← text_keys a c language field;
  Ok (map (fun k => (k, negb (is_clear (f_options field)))) keys).
Definition tag_bit (a : AccountId) (c : Collection.t) (field : Field Tag) : list Z * bool :=
  (BitmapKey.serialize_tag a c (f_field field) (f_value field), negb (is_clear (f_options field))).

(** The bits of an inserted or updated document without existing term index. *)
Definition action_bits (a : AccountId) (action : WriteAction) : res bits :=
  let document := action_document action in
  let c := d_collection document in
  texts ← res_mapM (text_bits a c (batch_language default_language (d_text_fields document))) (d_text_fields document);
  Ok (match action with
      | WInsert _ => [(BitmapKey.serialize_document_ids a c, true)]
      | WUpdate _ => []
      | WDelete _ => [(BitmapKey.serialize_document_ids a c, false)]
      end ++ concat texts ++ map (tag_bit a c) (d_tag_fields document)).

Lemma term_bits_assign a c d f s e words bm :
  fold_left (term_bit a c d f s e) words bm =
  assign_bits d (map (fun w => (BitmapKey.serialize_term a c f w e, s)) words) bm.
Proof. revert bm. induction words as [|w words IH]; intros bm; [done|]. cbn. apply IH. Qed.

Lemma token_bits_assign a c d f s toks bm :
  fold_left (token_bits a c d f s) toks bm =
  assign_bits d (map (fun k => (k, s)) (toks ≫= token_keys_of a c f)) bm.
Proof.
  revert bm. induction toks as [|t toks IH]; intros bm; [done|]. rewrite bind_cons, map_app, assign_bits_app.
  cbn [fold_left]. rewrite IH. f_equal. unfold token_bits, token_keys_of. by destruct (tk_stemmed_word t).
Qed.

Lemma text_field_spec a c d language st field st' :
  text_field a c d language st field = Ok st' ->
  exists l, text_bits a c language field = Ok l /\ ts_bitmaps st' = assign_bits d l (ts_bitmaps st) /\
    ts_ops st' = ts_ops st ++ field_ops a c d field (str_bytes (tx_text (f_value field))) (str_bytes (tx_text (f_value field))).
Proof.
  unfold text_field, text_bits, text_keys. destruct (get_text_options (f_options field) =? F_KEYWORD).
  { cbn [mbind res_bind]. intros [= <-]. eexists. split; [done|]. done. }
  destruct (get_text_options (f_options field) =? F_TOKENIZE).
  { destruct (tokenizer_tokens _ _ _) as [toks| |]; [|done..]. cbn [mbind res_bind]. intros [= <-]. eexists. split; [done|].
    cbn [ts_bitmaps ts_ops]. rewrite term_bits_assign, !map_map. done. }
  destruct (get_text_options (f_options field) =? F_NONE).
  { cbn [mbind res_bind]. intros [= <-]. eexists. split; [done|]. done. }
  destruct (stemmer_tokens _ _ _) as [toks| |]; [|done..]. cbn [mbind res_bind]. intros [= <-]. eexists. split; [done|].
  cbn [ts_bitmaps ts_ops]. by rewrite token_bits_assign.
Qed.

Lemma field_ops_avoid {A} a c d (field : Field A) st ix cf :
  cf <> Values -> cf <> Indexes -> avoids cf (field_ops a c d field st ix).
Proof.
  intros Hv Hi. unfold field_ops, set_or_delete. apply avoids_app.
  split; repeat case_match; repeat constructor; cbn; congruence.
Qed.

Lemma text_fields_loop_spec a c d language st fields st' :
  text_fields_loop a c d language st fields = Ok st' ->
  exists l new, res_mapM (text_bits a c language) fields = Ok l /\
    ts_bitmaps st' = assign_bits d (concat l) (ts_bitmaps st) /\ ts_ops st' = ts_ops st ++ new /\
    forall cf, cf <> Values -> cf <> Indexes -> avoids cf new.
Proof.
  revert st. induction fields as [|f fields IH]; intros st; cbn [text_fields_loop res_mapM].
  - intros [= <-]. exists [], []. split_and!; [done..|by rewrite app_nil_r|constructor].
  - destruct (text_field a c d language st f) as [st1| |] eqn:Ef; [|done..]. cbn [mbind res_bind].
    apply text_field_spec in Ef as (l & -> & Hb & Ho). intros (ls & new & -> & Hb' & Ho' & Hav)%IH.
    eexists _, _. cbn [mbind res_bind]. split; [done|]. cbn [concat]. rewrite assign_bits_app, <- Hb. split; [done|].
    rewrite Ho', Ho, <- app_assoc. split; [done|]. intros cf Hv Hi. apply avoids_app. split; [by apply field_ops_avoid|by apply Hav].
Qed.

Lemma text_fields_spec a c d (s : blobs (DB := DB) (E := E)) bm ops fields s' bm' ops' links :
  text_fields default_language timestamp a c d s bm ops fields = Ok (s', bm', ops', links) ->
  exists l new, res_mapM (text_bits a c (batch_language default_language fields)) fields = Ok l /\
    bm' = assign_bits d (concat l) bm /\ ops' = ops ++ new /\
    (forall cf, cf <> Values -> cf <> Indexes -> avoids cf new) /\
    (forall cf k, cf <> Blobs -> db_get (bl_db s') cf k = db_get (bl_db s) cf k).
Proof.
  unfold text_fields. destruct (text_fields_loop _ _ _ _ _ _) as [st| |] eqn:Ef; [|done..]. cbn [mbind res_bind].
  apply text_fields_loop_spec in Ef as (l & new & Hl & Hb & Ho & Hav). cbn [ts_bitmaps ts_ops] in *.
  destruct (builder_is_empty (ts_index st)).
  { intros [= <- <- <- <-]. eexists _, _. split_and!; done. }
  destruct (builder_serialize (ts_index st)) as [bytes| |]; [|done..]. cbn [mbind res_bind].
  destruct (blob_store timestamp s (Local_ (sha256 bytes)) bytes) as [[s1 r]| |] eqn:Es; [|done..]. cbn [mbind res_bind].
  intros [= <- <- <- <-]. eexists _, _. split; [done|]. split; [done|]. rewrite Ho, <- app_assoc. split; [done|]. split.
  - intros cf Hv Hi. apply avoids_app. split; [by apply Hav|]. repeat constructor. cbn. congruence.
  - intros cf k Hcf. by eapply blob_store_other.
Qed.

(** The keys of an existing term index. *)
Lemma index_words_spec a c d f s e words ids bm bm' :
  index_words a c d f s e words ids bm = Ok bm' ->
  exists l, Forall2 (fun id w => words !! Z.to_nat id = Some w) ids l /\
    bm' = assign_bits d (map (fun w => (BitmapKey.serialize_term a c f w e, s)) l) bm.
Proof.
  revert bm. induction ids as [|id ids IH]; intros bm; cbn [index_words]; [intros [= <-]; by exists []|].
  destruct (words !! Z.to_nat id) as [w|] eqn:Ew; [|done]. cbn [ok_or mbind res_bind].
  intros (l & Hl & ->)%IH. exists (w :: l). split; [by constructor|done].
Qed.
Definition index_keys (a : AccountId) (c : Collection.t) (words : list (list Z)) (terms : list Terms) (k : list Z) : Prop :=
  exists t e id w, t ∈ terms /\ id ∈ (if e : bool then exact_terms t else stemmed_terms t) /\
    words !! Z.to_nat id = Some w /\ k = BitmapKey.serialize_term a c (te_field_id t) w e.

Lemma index_terms_spec a c d s words terms bm bm' :
  index_terms a c d s words terms bm = Ok bm' ->
  exists keys, bm' = assign_bits d (map (fun k => (k, s)) keys) bm /\ forall k, k ∈ keys <-> index_keys a c words terms k.
Proof.
  revert bm. induction terms as [|t terms IH]; intros bm; cbn [index_terms].
  { intros [= <-]. exists []. split; [done|]. intros k. rewrite elem_of_nil. split; [done|]. by intros (t & ? & ? & ? & ?%elem_of_nil & _). }
  destruct (index_words _ _ _ _ _ true _ _ _) as [bm1| |] eqn:E1; [|done..]. cbn [mbind res_bind].
  destruct (index_words _ _ _ _ _ false _ _ _) as [bm2| |] eqn:E2; [|done..]. cbn [mbind res_bind].
  apply index_words_spec in E1 as (l1 & Hl1 & ->), E2 as (l2 & Hl2 & ->). intros (keys & -> & Hk)%IH.
  exists (map (fun w => BitmapKey.serialize_term a c (te_field_id t) w true) l1 ++
          map (fun w => BitmapKey.serialize_term a c (te_field_id t) w false) l2 ++ keys).
  split; [by rewrite !map_app, !assign_bits_app, !map_map|]. intros k. rewrite !elem_of_app, Hk. unfold index_keys.
  assert (forall e (ids : gset Z) l, Forall2 (fun id w => words !! Z.to_nat id = Some w) (elements ids) l ->
    k ∈ map (fun w => BitmapKey.serialize_term a c (te_field_id t) w e) l <->
    exists id w, id ∈ ids /\ words !! Z.to_nat id = Some w /\ k = BitmapKey.serialize_term a c (te_field_id t) w e) as Hw.
  { intros e ids l Hf. rewrite list_elem_of_fmap. split.
    - intros (w & -> & Hin). apply list_elem_of_lookup in Hin as [i Hi].
      destruct (Forall2_lookup_r _ _ _ _ _ Hf Hi) as (id & Hid & Hw). exists id, w. split; [|done].
      apply elem_of_elements, list_elem_of_lookup. by exists i.
    - intros (id & w & Hid & Hw & ->). exists w. split; [done|]. apply elem_of_elements, list_elem_of_lookup in Hid as [i Hi].
      destruct (Forall2_lookup_l _ _ _ _ _ Hf Hi) as (w' & Hw' & Hww). apply list_elem_of_lookup. exists i. congruence. }
  rewrite (Hw true _ _ Hl1), (Hw false _ _ Hl2). setoid_rewrite elem_of_cons. clear -Hw. split.
  - intros [(id & w & ? & ? & ?)|[(id & w & ? & ? & ?)|(t' & e & id & w & ? & ?)]].
    + exists t, true, id, w. naive_solver.
    + exists t, false, id, w. naive_solver.
    + exists t', e, id, w. naive_solver.
  - intros (t' & [] & id & w & [->|Hin] & Hid & Hww & Hk).
    + left. by exists id, w.
    + right. right. by exists t', true, id, w.
    + right. left. by exists id, w.
    + right. right. by exists t', false, id, w.
Qed.

(** ** Preparing documents *)

Lemma map_avoid {A} (f : A -> WriteOperation) l cf : (forall x, op_cf (f x) <> cf) -> avoids cf (map f l).
Proof. intros Hf. apply Forall_map, Forall_forall. intros x _. apply Hf. Qed.
Lemma set_or_delete_cf clear cf k v : op_cf (set_or_delete clear cf k v) = cf.
Proof. by destruct clear. Qed.

Lemma number_ops_avoid a c d fields cf : cf <> Values -> cf <> Indexes -> avoids cf (number_ops a c d fields).
Proof.
  intros Hv Hi. unfold number_ops. induction fields as [|f fields IH]; [constructor|]. rewrite bind_cons.
  apply avoids_app. split; [by apply field_ops_avoid|done].
Qed.
Lemma tail_ops_avoid a c d numbers binaries links acls cf :
  cf <> Values -> cf <> Indexes -> cf <> Blobs ->
  avoids cf (number_ops a c d numbers ++ binary_ops a c d binaries ++ blob_ops a c d links ++ acl_ops a c d acls).
Proof.
  intros Hv Hi Hb. rewrite !avoids_app. split_and!; [by apply number_ops_avoid|..];
    apply map_avoid; intros [? ?] || intros ?; rewrite set_or_delete_cf; congruence.
Qed.

Lemma existing_index_spec a c d (s : blobs (DB := DB) (E := E)) bm ops id options bm' ops' :
  existing_index a c d s bm ops (id, options) = Ok (bm', ops') ->
  exists bytes tk keys, blob_get s id = Ok (Some bytes) /\ token_index_deserialize bytes = Some tk /\
    bm' = assign_bits d (map (fun k => (k, negb (is_clear options))) keys) bm /\
    (forall k, k ∈ keys <-> index_keys a c (tokens tk) (token_terms tk) k) /\
    ops' = ops ++ [set_or_delete (is_clear options) Values (term_index_key a c d) (blob_serialize id)].
Proof.
  unfold existing_index. destruct (blob_get s id) as [[bytes|]| |]; [|done..]. cbn [mbind res_bind ok_or].
  destruct (token_index_deserialize bytes) as [tk|] eqn:Et; [|done]. cbn [mbind res_bind ok_or].
  destruct (index_terms _ _ _ _ _ _ _) as [bm1| |] eqn:Ei; [|done..]. cbn [mbind res_bind]. intros [= <- <-].
  apply index_terms_spec in Ei as (keys & -> & Hk). exists bytes, tk, keys. done.
Qed.

Lemma tag_bits_assign a c d fields bm :
  fold_left (tag_bits a c d) fields bm = assign_bits d (map (tag_bit a c) fields) bm.
Proof. revert bm. induction fields as [|f fields IH]; intros bm; [done|]. cbn. apply IH. Qed.

(** What a step adds: bits of its document, operations on other column
    families, and at most blobs. *)
Record adds (d : DocumentId) (l : bits) (st st' : prepared (DB := DB) (E := E)) (new : list WriteOperation) : Prop := {
  ad_bitmaps : pr_bitmaps st' = assign_bits d l (pr_bitmaps st);
  ad_ops : pr_ops st' = pr_ops st ++ new;
  ad_avoid cf : cf <> Values -> cf <> Indexes -> cf <> Blobs -> avoids cf new;
  ad_db cf k : cf <> Blobs -> db_get (bl_db (pr_blobs st')) cf k = db_get (bl_db (pr_blobs st)) cf k
}.

Lemma enter_document_spec a (st : prepared (DB := DB) (E := E)) action bm ti :
  enter_document a st action = Ok (bm, ti) ->
  bm = assign_bits (d_document_id (action_document action))
    (match action with
     | WInsert doc => [(BitmapKey.serialize_document_ids a (d_collection doc), true)]
     | WUpdate _ => []
     | WDelete doc => [(BitmapKey.serialize_document_ids a (d_collection doc), false)]
     end) (pr_bitmaps st) /\
  (is_delete action = false -> ti = d_term_index (action_document action)).
Proof.
  unfold enter_document. destruct action as [doc|doc|doc]; cbn [action_document]; [by intros [= <- <-]..|].
  destruct (get_as _ _ _ _) as [v| |]; [|done..]. cbn [mbind res_bind]. by intros [= <- <-].
Qed.

Lemma prepare_document_spec a tomb st action st' :
  prepare_document default_language timestamp a tomb st action = Ok st' ->
  is_delete action && tomb = false ->
  exists head texts index new,
    adds (d_document_id (action_document action)) (head ++ index ++ map (tag_bit a (d_collection (action_document action))) (d_tag_fields (action_document action))) st st' new /\
    res_mapM (text_bits a (d_collection (action_document action)) (batch_language default_language (d_text_fields (action_document action)))) (d_text_fields (action_document action)) = Ok texts /\
    head = match action with
     | WInsert doc => [(BitmapKey.serialize_document_ids a (d_collection doc), true)]
     | WUpdate _ => []
     | WDelete doc => [(BitmapKey.serialize_document_ids a (d_collection doc), false)]
     end ++ concat texts /\
    (is_delete action = false -> d_term_index (action_document action) = None -> index = []) /\
    pr_tombstones st' = pr_tombstones st.
Proof.
  intros Hp Hd. unfold prepare_document in Hp. rewrite Hd in Hp. set (doc := action_document action) in *.
  destruct (enter_document a st action) as [[bm ti]| |] eqn:Ee; [|done..]. cbn [mbind res_bind] in Hp.
  apply enter_document_spec in Ee as [Hbm Hti]. fold doc in Hbm, Hti. set (entry := match action with WInsert _ => _ | _ => _ end) in *.
  destruct (match d_text_fields doc with [] => _ | _ => _ end) as [[[[s bm1] ops1] links]| |] eqn:Et; [|done..]. cbn [mbind res_bind] in Hp.
  assert (exists l new, res_mapM (text_bits a (d_collection doc) (batch_language default_language (d_text_fields doc))) (d_text_fields doc) = Ok l /\
    bm1 = assign_bits (d_document_id doc) (concat l) bm /\ ops1 = pr_ops st ++ new /\
    (forall cf, cf <> Values -> cf <> Indexes -> avoids cf new) /\
    (forall cf k, cf <> Blobs -> db_get (bl_db s) cf k = db_get (bl_db (pr_blobs st)) cf k)) as (texts & new1 & Htexts & Hbm1 & Hops1 & Hav1 & Hdb).
  { destruct (d_text_fields doc) as [|f fs] eqn:Ef; [|by apply text_fields_spec in Et].
    injection Et as <- <- <- <-. exists [], []. split_and!; [done..|by rewrite app_nil_r|constructor|done]. }
  destruct (match ti with Some t => existing_index _ _ _ _ _ _ t | None => _ end) as [[bm2 ops2]| |] eqn:Ei; [|done..]. cbn [mbind res_bind] in Hp.
  injection Hp as <-.
  assert (exists index new, bm2 = assign_bits (d_document_id doc) index bm1 /\ ops2 = ops1 ++ new /\
    (forall cf, cf <> Values -> avoids cf new) /\ (ti = None -> index = [])) as (index & new2 & Hbm2 & Hops2 & Hav2 & Hidx).
  { destruct ti as [[id options]|]; [|injection Ei as <- <-; exists [], []; split_and!; [done|by rewrite app_nil_r|constructor|done]].
    apply existing_index_spec in Ei as (bytes & tk & keys & _ & _ & -> & _ & ->). eexists _, _. split_and!; [done..| |done].
    intros cf Hv. repeat constructor. rewrite set_or_delete_cf. congruence. }
  exists (entry ++ concat texts), texts, index. eexists. split; [split|split_and!; [done..| |done]].
  - cbn [pr_bitmaps]. rewrite tag_bits_assign, !assign_bits_app. by rewrite <- Hbm, <- Hbm1, <- Hbm2.
  - cbn [pr_ops]. rewrite Hops2, Hops1, <- !app_assoc. reflexivity.
  - intros cf Hv Hi Hb. rewrite !avoids_app. split; [by apply Hav1|]. split; [by apply Hav2|].
    pose proof (tail_ops_avoid a (d_collection doc) (d_document_id doc) (d_number_fields doc) (d_binary_fields doc)
      (d_blobs doc ++ links ++ match ti with Some t => [t] | None => [] end) (d_acls doc) cf Hv Hi Hb) as Ht.
    rewrite !avoids_app in Ht. naive_solver.
  - cbn [pr_blobs]. done.
  - intros Hnd Hnone. apply Hidx. rewrite <- Hnone. by apply Hti.
Qed.

(** ** Preparing batches *)

Definition plain_action (action : WriteAction) : Prop :=
  is_delete action = false /\ d_term_index (action_document action) = None.
Definition batch_effects (a : AccountId) (actions : list WriteAction) : res (list (list Z * DocumentId * bool)) :=
  effects ← res_mapM (fun action =>
    l ← action_bits a action; Ok (doc_effects (d_document_id (action_document action)) l)) actions;
  Ok (concat effects).

Lemma prepare_plain a tomb st action st' :
  plain_action action -> prepare_document default_language timestamp a tomb st action = Ok st' ->
  exists l new, action_bits a action = Ok l /\ adds (d_document_id (action_document action)) l st st' new.
Proof.
  intros [Hd Hn] Hp. apply prepare_document_spec in Hp as (head & texts & index & new & Ha & Ht & -> & Hi & _); [|by rewrite Hd].
  unfold action_bits. rewrite Ht. cbn [mbind res_bind]. eexists _, _. split; [done|].
  rewrite (Hi Hd Hn) in Ha. cbn [app] in Ha. rewrite <- app_assoc in Ha. by destruct action.
Qed.

Lemma prepare_documents_plain a tomb st actions st' :
  Forall plain_action actions -> prepare_documents default_language timestamp a tomb st actions = Ok st' ->
  exists effects, batch_effects a actions = Ok effects /\
    forall key d, assigned (pr_bitmaps st') key d =
      match last_bit effects key d with Some b => Some b | None => assigned (pr_bitmaps st) key d end.
Proof.
  intros Hp. revert st. induction Hp as [|action actions Hact _ IH]; intros st; cbn [prepare_documents].
  - intros [= <-]. exists []. done.
  - destruct (prepare_document _ _ _ _ _ _) as [st1| |] eqn:E1; [|done..]. cbn [mbind res_bind].
    destruct (prepare_plain _ _ _ _ _ Hact E1) as (l & new & Hl & Ha).
    intros (effects & He & Has)%IH. unfold batch_effects in *. cbn [res_mapM]. rewrite Hl. cbn [mbind res_bind].
    destruct (res_mapM _ actions) as [ls| |]; [|done..]. cbn [mbind res_bind] in *. injection He as <-.
    eexists. split; [done|]. intros key d. rewrite Has, (ad_bitmaps _ _ _ _ _ Ha), assigned_bits. cbn [concat].
    rewrite last_bit_app. by destruct (last_bit (concat ls) key d).
Qed.

Record frame (docs : list DocumentId) (st st' : prepared (DB := DB) (E := E)) : Prop := {
  fr_ops : exists new, pr_ops st' = pr_ops st ++ new /\ forall cf, cf <> Values -> cf <> Indexes -> cf <> Blobs -> avoids cf new;
  fr_bitmaps key d b : assigned (pr_bitmaps st') key d = Some b -> assigned (pr_bitmaps st) key d = Some b \/ d ∈ docs;
  fr_db cf k : cf <> Blobs -> db_get (bl_db (pr_blobs st')) cf k = db_get (bl_db (pr_blobs st)) cf k
}.
Abbreviation action_ids := (map (fun action => d_document_id (action_document action))).

Lemma last_bit_docs d l key d' b : last_bit (doc_effects d l) key d' = Some b -> d = d'.
Proof.
  induction l as [|[k x] l IH] using rev_ind; [done|]. unfold doc_effects in *. rewrite map_app, last_bit_app.
  cbn. case_bool_decide as Hk; [intros _; by destruct Hk|apply IH].
Qed.

Lemma prepare_documents_frame a tomb st actions st' :
  prepare_documents default_language timestamp a tomb st actions = Ok st' -> frame (action_ids actions) st st'.
Proof.
  revert st. induction actions as [|action actions IH]; intros st; cbn [prepare_documents].
  - intros [= <-]. split; [exists []; split; [by rewrite app_nil_r|constructor]|by left|done].
  - destruct (prepare_document _ _ _ _ _ _) as [st1| |] eqn:E1; [|done..]. cbn [mbind res_bind]. intros Hf%IH.
    assert (frame [d_document_id (action_document action)] st st1) as Hf1.
    { destruct (is_delete action && tomb) eqn:Ed.
      - unfold prepare_document in E1. rewrite Ed in E1. injection E1 as <-.
        split; [exists []; split; [by rewrite app_nil_r|constructor]|by left|done].
      - destruct (prepare_document_spec _ _ _ _ _ E1 Ed) as (head & texts & index & new & Ha & _). destruct Ha as [Hb Ho Hav Hdb].
        split; [by exists new| |done]. intros key d b. rewrite Hb, assigned_bits.
        destruct (last_bit _ key d) eqn:El; [|by left]. intros _. apply last_bit_docs in El. right. by apply list_elem_of_singleton. }
    destruct Hf as [(n2 & Ho2 & Hv2) Hb2 Hd2], Hf1 as [(n1 & Ho1 & Hv1) Hb1 Hd1]. split.
    + exists (n1 ++ n2). rewrite Ho2, Ho1, <- app_assoc. split; [done|]. intros cf ???. apply avoids_app. split; [by apply Hv1|by apply Hv2].
    + intros key d b Has. cbn [map]. destruct (Hb2 key d b Has) as [Hl|Hr]; [|right; by apply elem_of_cons; right].
      destruct (Hb1 key d b Hl) as [?|Hin%list_elem_of_singleton]; [by left|right; by apply elem_of_cons; left].
    + intros cf k Hcf. by rewrite Hd2, Hd1.
Qed.

(** A batch without linked batches, and the operations it submits. *)
Lemma write_spec s a changes actions s' r :
  write default_language timestamp s (mkBatch a changes actions []) = Ok (s', r) ->
  exists st logs raft_index,
    prepare_documents default_language timestamp a (s_tombstone_deletions s) (mkPrepared (s_blobs s) [] ∅ []) actions = Ok st /\
    s' = submit (mkStore (pr_blobs st) (s_raft_term s) raft_index (s_tombstone_deletions s)) (pr_ops st ++ bitmap_ops (pr_bitmaps st) ++ logs) /\
    Forall (fun op => op_cf op = Logs) logs /\
    match vm_iter changes with
    | [] => r = None /\ logs = [] /\ raft_index = s_raft_index s
    | l =>
        r = Some (mkWriteChanges (batch_collections l) (u64 (s_raft_index s + 1))) /\ raft_index = u64 (s_raft_index s + 1) /\
        exists tombs, logs = log_change_ops a raft_index l ++
          [OpSet Logs (LogKey.serialize_raft (mkRaftId (s_raft_term s) raft_index)) (RaftLog.item_bytes a (batch_collections l))] ++ tombs /\
          (pr_tombstones st = [] -> tombs = []) /\
          Forall (fun op => op_key op = LogKey.serialize_tombstone raft_index a) tombs
    end.
Proof.
  unfold write. cbn [wb_linked_batch prepare_linked mbind res_bind]. unfold prepare_batch.
  cbn [wb_account_id wb_documents wb_changes].
  destruct (prepare_documents _ _ _ _ _ _) as [st| |] eqn:Ep; [|done..]. cbn [mbind res_bind].
  destruct (vm_iter changes) as [|ch l].
  - cbn [mbind res_bind]. intros [= <- <-]. exists st, [], (s_raft_index s). split; [done|]. rewrite app_nil_r. split; [done|]. split; [constructor|done].
  - cbn [assign_raft_id]. set (l' := ch :: l). set (idx := u64 (s_raft_index s + 1)).
    assert (Forall (fun op => op_cf op = Logs) (log_change_ops a idx l')) as Hlc.
    { apply Forall_map, Forall_forall. by intros [c e] _. }
    destruct (pr_tombstones st) as [|t ts] eqn:Ets; [|destruct (bincode (t :: ts)) as [bytes|]; [|done]]; cbn [ok_or mbind res_bind rid_index]; intros [= <- <-].
    + exists st, (log_change_ops a idx l' ++ [OpSet Logs (LogKey.serialize_raft (mkRaftId (s_raft_term s) idx)) (RaftLog.item_bytes a (batch_collections l'))]), idx.
      split; [done|]. rewrite <- !app_assoc. split; [done|]. split; [apply Forall_app; split; [done|by repeat constructor]|].
      split; [done|]. split; [done|]. exists []. rewrite app_nil_r. split_and!; [done..|constructor].
    + exists st, (log_change_ops a idx l' ++ [OpSet Logs (LogKey.serialize_raft (mkRaftId (s_raft_term s) idx)) (RaftLog.item_bytes a (batch_collections l'))] ++
        [OpSet Logs (LogKey.serialize_tombstone idx a) bytes]), idx.
      split; [done|]. rewrite <- !app_assoc. split; [done|]. split; [rewrite !Forall_app; split_and!; [done|by repeat constructor..]|].
      split; [done|]. split; [done|]. eexists. split; [done|]. split; [congruence|]. by repeat constructor.
Qed.
End Bits.

Section Submitted.
Context `{StoreLaws DB} `{BlobStore E} `{Unicode} `{Linguistics} `{BitPacker} `{WriteEnv}.
Variables (default_language : Language) (timestamp : Z).

(** The value of a key after a write: the operations of the documents, then
    the bitmaps and the logs. *)
Lemma write_get s a changes actions s' r st cf k :
  write default_language timestamp s (mkBatch a changes actions []) = Ok (s', r) ->
  prepare_documents default_language timestamp a (s_tombstone_deletions s) (mkPrepared (s_blobs s) [] ∅ []) actions = Ok st ->
  cf <> Logs ->
  db_get (bl_db (s_blobs s')) cf k =
  fold_left (op_effect cf k) (bitmap_ops (pr_bitmaps st)) (fold_left (op_effect cf k) (pr_ops st) (db_get (bl_db (pr_blobs st)) cf k)).
Proof.
  intros Hw Hp Hcf. apply write_spec in Hw as (st' & logs & idx & Hp' & -> & Hlogs & _). rewrite Hp in Hp'. injection Hp' as <-.
  cbn [submit s_blobs bl_db]. rewrite db_write_get, !fold_left_app. apply avoids_effect.
  eapply Forall_impl; [exact Hlogs|]. cbn. congruence.
Qed.

Lemma bitmap_ops_cf bitmaps cf : cf <> Bitmaps -> avoids cf (bitmap_ops bitmaps).
Proof. intros Hcf. apply Forall_map, Forall_forall. intros [k m] _. cbn. congruence. Qed.

Lemma write_total s a changes actions st :
  prepare_documents default_language timestamp a (s_tombstone_deletions s) (mkPrepared (s_blobs s) [] ∅ []) actions = Ok st ->
  pr_tombstones st = [] ->
  exists s' r, write default_language timestamp s (mkBatch a changes actions []) = Ok (s', r).
Proof.
  intros Hp Ht. unfold write, prepare_batch. cbn [wb_linked_batch prepare_linked wb_account_id wb_documents wb_changes mbind res_bind].
  rewrite Hp. cbn [mbind res_bind]. rewrite Ht. destruct (vm_iter changes); cbn [mbind res_bind]; [by eexists _, _|].
  cbn [assign_raft_id mbind res_bind]. by eexists _, _.
Qed.

Context `{RoaringLaws} `{!BitmapMerges DB}.

Lemma write_bitmap s a changes actions s' r st key bm :
  write default_language timestamp s (mkBatch a changes actions []) = Ok (s', r) ->
  prepare_documents default_language timestamp a (s_tombstone_deletions s) (mkPrepared (s_blobs s) [] ∅ []) actions = Ok st ->
  Forall (fits 32) (map (fun action => d_document_id (action_document action)) actions) ->
  bitmap_value (db_get (bl_db (s_blobs s)) Bitmaps key) = Some bm ->
  exists bm', bitmap_value (db_get (bl_db (s_blobs s')) Bitmaps key) = Some bm' /\
    bitmap_after bm (assigned (pr_bitmaps st) key) bm'.
Proof.
  intros Hw Hp Hids Hbm. rewrite (write_get s a changes actions s' r st) by done.
  destruct (prepare_documents_frame _ _ _ _ _ _ _ Hp) as [(new & Ho & Hav) Hbits Hdb]. cbn [pr_ops pr_blobs pr_bitmaps app] in *.
  rewrite (avoids_effect Bitmaps key _ (pr_ops st)) by (rewrite Ho; by apply Hav). rewrite Hdb by done.
  apply bitmap_ops_effect; [done|]. intros k d b [Hn|Hin]%Hbits; [done|]. rewrite Forall_forall in Hids. by apply Hids.
Qed.
End Submitted.

(** ** The logs of a batch *)

Section Logged.
Context `{StoreLaws DB} `{BlobStore E} `{Unicode} `{Linguistics} `{BitPacker} `{WriteEnv}.
Variables (default_language : Language) (timestamp : Z).

Lemma prepare_documents_tombstones a st actions st' :
  prepare_documents default_language timestamp a false st actions = Ok st' ->
  pr_tombstones st' = pr_tombstones (DB := DB) (E := E) st.
Proof.
  revert st. induction actions as [|action actions IH]; intros st; cbn [prepare_documents]; [by intros [= <-]|].
  destruct (prepare_document _ _ _ _ _ _) as [st1| |] eqn:E1; [|done..]. cbn [mbind res_bind]. intros ->%IH.
  by apply prepare_document_spec in E1 as (_ & _ & _ & _ & _ & _ & _ & _ & ?); [|apply andb_false_r].
Qed.

Lemma change_key_collection a c c' i : LogKey.serialize_change a c i = LogKey.serialize_change a c' i -> c = c'.
Proof.
  unfold LogKey.serialize_change. intros Heq. apply (f_equal tail) in Heq. cbn [tail] in Heq.
  apply app_inv_head, (f_equal head) in Heq. cbn [app head] in Heq. apply Collection.to_u8_inj. congruence.
Qed.

Lemma log_change_ops_effect a i changes key v :
  NoDup changes.*1 ->
  (forall c change, (c, change) ∈ changes -> key = LogKey.serialize_change a c i ->
    fold_left (op_effect (DB := DB) Logs key) (log_change_ops a i changes) v = Some (Batch.serialize change)) /\
  ((forall c, c ∈ changes.*1 -> key <> LogKey.serialize_change a c i) ->
    fold_left (op_effect (DB := DB) Logs key) (log_change_ops a i changes) v = v).
Proof.
  intros Hnd. split.
  - intros c change Hin ->. apply list_elem_of_split in Hin as (l1 & l2 & ->). unfold log_change_ops.
    rewrite map_app, fold_left_app. cbn [map fold_left]. rewrite ops_effect_other.
    + unfold op_effect. by rewrite bool_decide_eq_true_2.
    + apply Forall_map, Forall_forall. intros [c' e'] Hin. right. cbn [op_key]. intros <-%change_key_collection.
      rewrite fmap_app in Hnd. apply NoDup_app in Hnd as (_ & _ & [Hn _]%NoDup_cons). by apply Hn, (list_elem_of_fmap_2' fst _ _ _ Hin).
  - intros Hk. apply ops_effect_other, Forall_map, Forall_forall. intros [c' e'] Hin. right. cbn [op_key]. intros Heq.
    by apply (Hk c'); [apply (list_elem_of_fmap_2' fst _ _ _ Hin)|].
Qed.

Lemma batch_collections_contains changes c :
  bm_contains (batch_collections changes) c = true <-> c ∈ changes.*1.
Proof.
  unfold batch_collections. assert (forall b, bm_contains (fold_left (fun cs ch => bm_insert cs ch.1) changes b) c = true <->
    c ∈ changes.*1 \/ bm_contains b c = true) as Hgen.
  { induction changes as [|[c' e] changes IH]; intros b; cbn [fold_left fmap list_fmap]; [rewrite elem_of_nil; tauto|].
    rewrite IH, bm_insert_contains, elem_of_cons. naive_solver. }
  rewrite Hgen. split; [|by left]. intros [?|Hn]; [done|]. rewrite bm_contains_testbit in Hn. unfold bm_new in Hn. by rewrite Z.bits_0 in Hn.
Qed.

Lemma vm_iter_keys {K V} (m : VecMap K V) : length (vm_k m) = length (vm_v m) -> (vm_iter m).*1 = vm_k m.
Proof. intros Hl. unfold vm_iter. apply fst_zip. lia. Qed.
Lemma vm_iter_get {K V} `{EqDecision K} (m : VecMap K V) k v : vm_inv m -> vm_get m k = Some v -> (k, v) ∈ vm_iter m.
Proof.
  intros Hm (i & Hk & Hv)%(vm_get_maps m k v Hm). unfold vm_iter. apply list_elem_of_lookup. exists i.
  by rewrite lookup_zip_with, Hk, Hv.
Qed.
End Logged.

(** ** Inserting and deleting a text document *)

Section InsertDelete.
Context `{StoreLaws DB} `{BlobStore E} `{UnicodeLaws} `{LinguisticsLaws} `{BitPackerLaws} `{WriteEnv} `{RoaringLaws} `{!BitmapMerges DB}.
Variables (default_language : Language) (timestamp : Z) (a : AccountId) (c : Collection.t) (d : DocumentId).

(** A full-text field whose text can be indexed; its stems differ from their words. *)
Record full_text_wf (language : Language) (f : Field Text) : Prop := {
  ft_options : is_full_text (f_options f) = true;
  ft_set : is_clear (f_options f) = false;
  ft_field : is_byte (f_field f);
  ft_chars : Forall is_char (tx_text (f_value f));
  ft_small : 16 * str_len (tx_text (f_value f)) < 2 ^ 32;
  ft_language : let l := if bool_decide (tx_language (f_value f) = Unknown) then language else tx_language (f_value f) in
    l <> Language.None_ /\ l <> Japanese /\ l <> Mandarin;
  ft_stems tokens t w :
    stemmer_tokens (tx_text (f_value f))
      (if bool_decide (tx_language (f_value f) = Unknown) then language else tx_language (f_value f)) MAX_TOKEN_LENGTH = Ok tokens ->
    t ∈ tokens -> tk_stemmed_word t = Some w -> w <> tk_word t
}.

Abbreviation part := (FieldId * Z * list StemmedToken)%type.
Definition part_keys (p : part) : list (list Z) := p.2 ≫= token_keys_of a c p.1.1.
Definition part_wf (p : part) : Prop :=
  is_byte p.1.1 /\ fits 32 p.1.2 /\ tokens_wf p.2 /\ forall t w, t ∈ p.2 -> tk_stemmed_word t = Some w -> w <> tk_word t.

Lemma full_text_field language st f st' :
  full_text_wf language f -> text_field a c d language st f = Ok st' ->
  exists p, part_wf p /\ text_bits a c language f = Ok (map (fun k => (k, true)) (part_keys p)) /\
    ts_index st' = index_part (ts_index st) p.1.1 p.1.2 p.2 /\ (length p.2 <= length (tx_text (f_value f)))%nat.
Proof.
  intros Hf. pose proof (ft_options _ _ Hf) as Ho. unfold is_full_text in Ho. apply Z.leb_le in Ho.
  unfold text_field, text_bits, text_keys. unfold F_FULL_TEXT in *.
  rewrite !(proj2 (Z.eqb_neq (get_text_options (f_options f)) _)) by (unfold F_KEYWORD, F_TOKENIZE, F_NONE; lia).
  destruct (stemmer_tokens_wf (tx_text (f_value f)) _ MAX_TOKEN_LENGTH (ft_chars _ _ Hf) (ft_small _ _ Hf) ltac:(unfold MAX_TOKEN_LENGTH; lia)
    (proj1 (ft_language _ _ Hf)) (proj1 (proj2 (ft_language _ _ Hf))) (proj2 (proj2 (ft_language _ _ Hf)))) as (tokens & Et & Hwf & Hlen).
  rewrite Et. cbn [mbind res_bind]. intros [= <-]. rewrite (ft_set _ _ Hf).
  exists (f_field f, u32 (get_text_options (f_options f) - 3), tokens). cbn [fst snd]. split; [split_and!; cbn [fst snd]|split_and!; try done].
  - apply Hf.
  - apply Z.mod_pos_bound. lia.
  - done.
  - intros t w. by apply (ft_stems _ _ Hf).
Qed.

Lemma full_text_loop language st fields st' :
  Forall (full_text_wf language) fields -> text_fields_loop a c d language st fields = Ok st' ->
  exists parts, Forall part_wf parts /\
    res_mapM (text_bits a c language) fields = Ok (map (fun p => map (fun k => (k, true)) (part_keys p)) parts) /\
    ts_index st' = index_parts parts (ts_index st) /\
    (length (parts ≫= snd) <= length (fields ≫= (fun f => tx_text (f_value f))))%nat.
Proof.
  intros Hf. revert st. induction Hf as [|f fields Hf _ IH]; intros st; cbn [text_fields_loop res_mapM].
  - intros [= <-]. exists []. done.
  - destruct (text_field a c d language st f) as [st1| |] eqn:E1; [|done..]. cbn [mbind res_bind].
    destruct (full_text_field _ _ _ _ Hf E1) as (p & Hp & Hb & Hi & Hl). intros (parts & Hps & Hbs & Hi' & Hl')%IH.
    exists (p :: parts). rewrite Hb, Hbs, Hi', Hi. cbn [mbind res_bind map]. split_and!; [by constructor|done|by destruct p as [[? ?] ?]|].
    rewrite !bind_cons, !length_app. lia.
Qed.

(** A term index covers the keys its words were set under. *)
Lemma index_covers b words f t k :
  builder_wf b -> (forall n w, words !! n = Some w <-> tb_terms b !! w = Some (Z.of_nat n)) ->
  indexed_in b f t -> (forall w, tk_stemmed_word t = Some w -> w <> tk_word t) -> k ∈ token_keys_of a c f t ->
  index_keys a c words (terms_of <$> tb_items b) k.
Proof.
  intros Hwf Hw (bi & tm & Hbi & <- & Htm & Hword & Hstem) Hne Hk.
  destruct (terms_of_sets bi) as (Hf & He & Hs).
  assert (forall w i, tb_terms b !! w = Some i -> words !! Z.to_nat i = Some w) as Hnum.
  { intros w i Hi. apply Hw. rewrite Z2Nat.id; [done|]. by apply (bw_ids _ Hwf) in Hi as [? _]. }
  unfold token_keys_of in Hk. apply elem_of_cons in Hk as [->|Hk].
  - exists (terms_of bi), true, (term_id tm), (tk_word t). split_and!; [by apply list_elem_of_fmap_2| |by apply Hnum|by rewrite Hf].
    apply He. by exists tm.
  - destruct (tk_stemmed_word t) as [w|]; [|by apply not_elem_of_nil in Hk]. apply list_elem_of_singleton in Hk as ->.
    specialize (Hstem w eq_refl). specialize (Hne w eq_refl).
    exists (terms_of bi), false, (term_id_stemmed tm), w. split_and!; [by apply list_elem_of_fmap_2| |by apply Hnum|by rewrite Hf].
    apply Hs. exists tm. split_and!; [done..|]. intros Heq. apply Hne. rewrite Heq in Hword. by eapply (bw_inj _ Hwf).
Qed.

Lemma index_words_total f s e words ids bm :
  Forall (fun id => is_Some (words !! Z.to_nat id)) ids -> exists bm', index_words a c d f s e words ids bm = Ok bm'.
Proof.
  intros Hf. revert bm. induction Hf as [|id ids [w Hw] _ IH]; intros bm; cbn [index_words]; [by eexists|].
  rewrite Hw. cbn [ok_or mbind res_bind]. apply IH.
Qed.
Lemma index_terms_total s words terms bm :
  (forall t id, t ∈ terms -> id ∈ exact_terms t \/ id ∈ stemmed_terms t -> is_Some (words !! Z.to_nat id)) ->
  exists bm', index_terms a c d s words terms bm = Ok bm'.
Proof.
  revert bm. induction terms as [|t terms IH]; intros bm Hk; cbn [index_terms]; [by eexists|].
  assert (forall e, Forall (fun id => is_Some (words !! Z.to_nat id)) (elements (if e : bool then exact_terms t else stemmed_terms t))) as Hf.
  { intros e. apply Forall_forall. intros id Hid%elem_of_elements. apply (Hk t); [by apply elem_of_cons; left|]. destruct e; [by left|by right]. }
  destruct (index_words_total (te_field_id t) s true words _ bm (Hf true)) as [bm1 ->]. cbn [mbind res_bind].
  destruct (index_words_total (te_field_id t) s false words _ bm1 (Hf false)) as [bm2 ->]. cbn [mbind res_bind].
  apply IH. intros t' id Hin. apply Hk. by apply elem_of_cons; right.
Qed.

Lemma index_ids_known b (words : list (list Z)) :
  builder_wf b -> (forall n w, words !! n = Some w <-> tb_terms b !! w = Some (Z.of_nat n)) ->
  forall t id, t ∈ terms_of <$> tb_items b -> id ∈ exact_terms t \/ id ∈ stemmed_terms t -> is_Some (words !! Z.to_nat id).
Proof.
  intros Hwf Hw t id (bi & -> & Hbi)%list_elem_of_fmap Hid. destruct (terms_of_sets bi) as (_ & He & Hs).
  pose proof (bw_known _ Hwf) as Hk. rewrite Forall_forall in Hk. specialize (Hk bi Hbi). rewrite Forall_forall in Hk.
  assert (exists w, tb_terms b !! w = Some id) as [w Hi].
  { destruct Hid as [(tm & Htm & <-)%He|(tm & Htm & <- & _)%Hs]; by apply (Hk tm Htm). }
  exists w. apply Hw. rewrite Z2Nat.id; [done|]. by apply (bw_ids _ Hwf) in Hi as [? _].
Qed.

(** ** The store after an insertion *)

Abbreviation tik := (term_index_key a c d).
Abbreviation link id := (BlobKey.serialize_link id a c d).

Lemma text_fields_loop_ops language st fields st' :
  text_fields_loop a c d language st fields = Ok st' ->
  ts_ops st' = ts_ops st ++ (fields ≫= fun f => field_ops a c d f (str_bytes (tx_text (f_value f))) (str_bytes (tx_text (f_value f)))).
Proof.
  revert st. induction fields as [|f fields IH]; intros st; cbn [text_fields_loop].
  - intros [= <-]. by rewrite app_nil_r.
  - destruct (text_field a c d language st f) as [st1| |] eqn:E1; [|done..]. cbn [mbind res_bind].
    apply text_field_spec in E1 as (l & _ & _ & Ho). intros ->%IH. by rewrite Ho, bind_cons, <- app_assoc.
Qed.

Lemma field_ops_other {A} (f : Field A) st ix :
  Forall (fun op => op_cf op <> Values \/ op_key op <> tik) (field_ops a c d f st ix).
Proof.
  assert (value_key a c d (f_field f) <> tik) as Hne.
  { intros Heq. apply (f_equal length) in Heq. unfold value_key, term_index_key, ValueKey.serialize_value, ValueKey.serialize_term_index in Heq.
    rewrite !length_app in Heq. cbn in Heq. lia. }
  unfold field_ops, set_or_delete. apply Forall_app. split; repeat case_match; try (by apply Forall_nil); apply Forall_singleton; cbn; first [by left|by right].
Qed.

Lemma prefix_inj id id' : BlobKey.prefix id = BlobKey.prefix id' -> id = id'.
Proof. unfold BlobKey.prefix, BLOB_LOCAL, BLOB_EXTERNAL. destruct id, id'; cbn; congruence. Qed.
Lemma link_inj id id' : link id = link id' -> id = id'.
Proof.
  rewrite !link_key. intros Heq%app_inv_tail. by apply prefix_inj.
Qed.
Lemma link_length id : blob_wf id -> (BASE_LEN + 3 <= length (link id))%nat.
Proof.
  intros Hwf. rewrite link_key, !length_app, blob_key_length by done. cbn [length].
  pose proof (leb128_nonempty a). pose proof (leb128_nonempty d). lia.
Qed.

(** Storing a local blob sets its contents and no link of a document. *)
Lemma blob_store_local (s : blobs (DB := DB) (E := E)) hash bytes :
  blob_wf (Local_ hash) -> (forall v, db_get (bl_db s) Blobs (BlobKey.serialize (Local_ hash)) = Some v -> v = bytes) ->
  exists s' r, blob_store timestamp s (Local_ hash) bytes = Ok (s', r) /\
    db_get (bl_db s') Blobs (BlobKey.serialize (Local_ hash)) = Some bytes /\
    forall id, blob_wf id -> db_get (bl_db s') Blobs (link id) = db_get (bl_db s) Blobs (link id).
Proof.
  intros Hwf Hv. unfold blob_store. destruct (db_get (bl_db s) Blobs (BlobKey.serialize (Local_ hash))) as [v|] eqn:Eg.
  { unfold db_exists. rewrite bool_decide_eq_true_2 by (by rewrite Eg). eexists _, _. split; [done|].
    rewrite Eg. split; [by rewrite (Hv v eq_refl)|done]. }
  unfold db_exists. rewrite bool_decide_eq_false_2 by (rewrite Eg; by intros ?). cbn [blob_is_local negb mbind res_bind].
  eexists _, _. split; [done|]. cbn [bl_db].
  assert (BlobKey.serialize_prefix (Local_ hash) 0 = BlobKey.serialize (Local_ hash) ++ leb128 0) as Hp by by apply ephemeral_key.
  split.
  - rewrite db_write_get. cbn [fold_left]. rewrite (op_effect_other _ _ _ (OpSet Blobs (BlobKey.serialize_prefix _ _) _)).
    + unfold op_effect. by rewrite bool_decide_eq_true_2.
    + right. cbn [op_key]. rewrite Hp. intros Heq. apply (f_equal length) in Heq. rewrite length_app in Heq. change (length (leb128 0)) with 1%nat in Heq. lia.
  - intros id Hid. pose proof (link_length id Hid) as Hl. pose proof (blob_key_length _ Hwf) as Hb.
    rewrite db_write_get. apply ops_effect_other. constructor; [|constructor; [|constructor]]; right; cbn [op_key]; intros Heq;
      rewrite <- Heq in Hl; [|rewrite Hp, length_app in Hl; change (length (leb128 0)) with 1%nat in Hl]; lia.
Qed.

Definition text_document (fields : list (Field Text)) : Document := mkDocument c d None fields [] [] [] [] [].
Abbreviation docs_key := (BitmapKey.serialize_document_ids a c).
Definition text_ops (fields : list (Field Text)) : list WriteOperation :=
  fields ≫= fun f => field_ops a c d f (str_bytes (tx_text (f_value f))) (str_bytes (tx_text (f_value f))).

Lemma concat_part_keys (parts : list part) :
  concat (map (fun p => map (fun k => (k, true)) (part_keys p)) parts) = map (fun k => (k, true)) (parts ≫= part_keys).
Proof. induction parts as [|p parts IH]; [done|]. cbn [map concat]. by rewrite IH, bind_cons, map_app. Qed.

Lemma insert_prepared (bl : blobs (DB := DB) (E := E)) fields st :
  Forall (full_text_wf (batch_language default_language fields)) fields ->
  prepare_document default_language timestamp a false (mkPrepared bl [] ∅ []) (WInsert (text_document fields)) = Ok st ->
  exists parts, Forall part_wf parts /\
    (length (parts ≫= snd) <= length (fields ≫= (fun f => tx_text (f_value f))))%nat /\
    pr_bitmaps st = assign_bits d ((docs_key, true) :: map (fun k => (k, true)) (parts ≫= part_keys)) ∅ /\
    ((tb_items (index_parts parts builder_new) = [] /\ pr_blobs st = bl /\ pr_ops st = text_ops fields) \/
     exists bytes r, tb_items (index_parts parts builder_new) <> [] /\ builder_serialize (index_parts parts builder_new) = Ok bytes /\
       blob_store timestamp bl (Local_ (sha256 bytes)) bytes = Ok (pr_blobs st, r) /\
       pr_ops st = text_ops fields ++
         [OpSet Values tik (blob_serialize (Local_ (sha256 bytes))); OpSet Blobs (link (Local_ (sha256 bytes))) []]).
Proof.
  intros Hf. unfold prepare_document, enter_document. cbn [is_delete andb action_document text_document d_collection d_document_id d_text_fields
    d_term_index d_number_fields d_tag_fields d_binary_fields d_blobs d_acls pr_bitmaps pr_blobs pr_ops mbind res_bind].
  destruct fields as [|f0 fields']; [|set (fields := f0 :: fields') in *].
  { cbn [mbind res_bind]. intros [= <-]. exists []. split_and!; [done..|]. by left. }
  unfold text_fields. destruct (text_fields_loop _ _ _ _ _ _) as [ts| |] eqn:El; [|done..]. cbn [mbind res_bind].
  destruct (full_text_loop _ _ _ _ Hf El) as (parts & Hp & Hb & Hi & Hl). pose proof (text_fields_loop_ops _ _ _ _ El) as Ho.
  apply text_fields_loop_spec in El as (l & _ & Hb' & Hbm & _ & _). rewrite Hb in Hb'. injection Hb' as <-.
  cbn [ts_bitmaps ts_ops ts_index] in *. rewrite concat_part_keys in Hbm. fold (text_ops fields) in Ho. cbn [app] in Ho.
  unfold builder_is_empty. rewrite Hi. intros Hst. exists parts. split; [done|]. split; [done|].
  revert Hst. case_bool_decide as Hempty.
  - cbn [mbind res_bind]. intros [= <-]. split; [cbn [pr_bitmaps fold_left]; by rewrite Hbm|]. left.
    cbn [pr_ops pr_blobs]. rewrite Ho. unfold number_ops, binary_ops, blob_ops, acl_ops. cbn. by rewrite !app_nil_r.
  - destruct (builder_serialize _) as [bytes| |] eqn:Es; [|done..]. cbn [mbind res_bind].
    destruct (blob_store _ _ _ _) as [[bl' r]| |] eqn:Eb; [|done..]. cbn [mbind res_bind]. intros [= <-].
    split; [cbn [pr_bitmaps fold_left]; by rewrite Hbm|]. right. exists bytes, r. split_and!; [done..|].
    cbn [pr_ops]. rewrite Ho. unfold number_ops, binary_ops, blob_ops, acl_ops. cbn [map mbind list_bind app]. by rewrite !app_nil_r, <- app_assoc.
Qed.

(** ** Deleting the document *)

Lemma delete_prepared (bl : blobs (DB := DB) (E := E)) id bytes words b :
  builder_wf b -> (forall n w, words !! n = Some w <-> tb_terms b !! w = Some (Z.of_nat n)) ->
  token_index_deserialize bytes = Some (mkTokenIndex words (terms_of <$> tb_items b)) ->
  blob_wf (Local_ id) -> db_get (bl_db bl) Values tik = Some (blob_serialize (Local_ id)) ->
  db_get (bl_db bl) Blobs (BlobKey.serialize (Local_ id)) = Some bytes ->
  exists keys, prepare_document default_language timestamp a false (mkPrepared bl [] ∅ []) (WDelete (document_new c d)) =
    Ok (mkPrepared bl [OpDelete Values tik; OpDelete Blobs (link (Local_ id))]
      (assign_bits d ((docs_key, false) :: map (fun k => (k, false)) keys) ∅) []) /\
    forall k, k ∈ keys <-> index_keys a c words (terms_of <$> tb_items b) k.
Proof.
  intros Hwf Hw Htk Hid Hv Hb. unfold prepare_document, enter_document.
  cbn [is_delete andb action_document document_new d_collection d_document_id d_text_fields
    d_term_index d_number_fields d_tag_fields d_binary_fields d_blobs d_acls pr_bitmaps pr_blobs pr_ops pr_tombstones mbind res_bind].
  unfold get_as. rewrite Hv.
  assert (blob_deserialize (blob_serialize (Local_ id)) = Some (Local_ id)) as ->.
  { pose proof (blob_deserialize_app (Local_ id) [] Hid) as Hbd. by rewrite app_nil_r in Hbd. }
  cbn [ok_or fmap res_fmap mbind res_bind]. unfold existing_index, blob_get. cbn [blob_is_local negb]. rewrite Hb. cbn [mbind res_bind ok_or].
  rewrite Htk. cbn [mbind res_bind ok_or tokens token_terms].
  destruct (index_terms_total (negb (is_clear (opt_clear 0))) words (terms_of <$> tb_items b)
    (set_document d false ∅ docs_key) (index_ids_known b words Hwf Hw)) as [bm Ebm].
  rewrite Ebm. apply index_terms_spec in Ebm as (keys & -> & Hk). cbn [mbind res_bind].
  exists keys. split; [|done]. reflexivity.
Qed.

(** ** From one end to the other *)

(** The document is new to a store whose blobs are named by their contents. *)
Record insertable (s : store (DB := DB) (E := E)) (fields : list (Field Text)) : Prop := {
  in_tombstones : s_tombstone_deletions s = false;
  in_fields : Forall (full_text_wf (batch_language default_language fields)) fields;
  in_small : 2 * Z.of_nat (length (fields ≫= (fun f => tx_text (f_value f)))) < 2 ^ 32;
  in_id : fits 32 d;
  in_sha bytes : blob_wf (Local_ (sha256 bytes));
  in_content bytes v : db_get (bl_db (s_blobs s)) Blobs (BlobKey.serialize (Local_ (sha256 bytes))) = Some v -> v = bytes;
  in_no_index : db_get (bl_db (s_blobs s)) Values tik = None;
  in_no_link id : blob_wf id -> db_get (bl_db (s_blobs s)) Blobs (link id) = None;
  in_no_bit key bm : bitmap_value (db_get (bl_db (s_blobs s)) Bitmaps key) = Some bm -> d ∉ bm
}.

Lemma assigned_keys v keys key x :
  assigned (assign_bits d (map (fun k => (k, v)) keys) ∅) key x =
  if decide (x = d /\ key ∈ keys) then Some v else None.
Proof.
  rewrite assigned_bits. induction keys as [|k keys IH] using rev_ind.
  { rewrite decide_False by (by intros [_ ?%not_elem_of_nil]). done. }
  unfold doc_effects in *. rewrite map_app, map_app, last_bit_app. cbn [map fst snd]. unfold last_bit at 1. cbn.
  case_bool_decide as Hk; [destruct Hk as [-> ->]; by rewrite decide_True by (split; [done|]; apply elem_of_app; right; by apply list_elem_of_singleton)|].
  rewrite IH. apply decide_ext. rewrite elem_of_app, list_elem_of_singleton. naive_solver.
Qed.

Lemma one_document s action st :
  prepare_documents default_language timestamp a (s_tombstone_deletions s) (mkPrepared (s_blobs s) [] ∅ []) [action] = Ok st <->
  prepare_document default_language timestamp a (s_tombstone_deletions s) (mkPrepared (s_blobs s) [] ∅ []) action = Ok st.
Proof. cbn [prepare_documents]. by destruct (prepare_document _ _ _ _ _ _). Qed.


Lemma parts_wf parts fields :
  Forall part_wf parts -> (length (parts ≫= snd) <= length (fields ≫= (fun f : Field Text => tx_text (f_value f))))%nat ->
  2 * Z.of_nat (length (fields ≫= (fun f => tx_text (f_value f)))) < 2 ^ 32 -> builder_wf (index_parts parts builder_new).
Proof.
  intros Hp Hl Hs. apply index_parts_wf; [|apply builder_new_wf|cbn [builder_new tb_terms]; rewrite map_size_empty; lia].
  eapply Forall_impl; [exact Hp|]. intros [[f p] tokens] (? & ? & ? & _). done.
Qed.

Lemma part_key_token (parts : list part) k :
  Forall part_wf parts -> k ∈ parts ≫= part_keys ->
  exists f t, indexed_in (index_parts parts builder_new) f t /\ k ∈ token_keys_of a c f t /\
    forall w, tk_stemmed_word t = Some w -> w <> tk_word t.
Proof.
  intros Hp ([[f p] tokens] & Hk & Hin)%list_elem_of_bind. unfold part_keys in Hk. cbn [fst snd] in Hk.
  apply list_elem_of_bind in Hk as (t & Hk & Ht). exists f, t. split; [by eapply index_parts_for|]. split; [done|].
  rewrite Forall_forall in Hp. destruct (Hp _ Hin) as (_ & _ & _ & Hst). intros w. by apply Hst.
Qed.

(** What the store holds for the document after the insertion. *)
Definition holds (s : store (DB := DB) (E := E)) (b : TermIndexBuilder) : Prop :=
  (tb_items b = [] /\ db_get (bl_db (s_blobs s)) Values tik = None /\
    forall id, blob_wf id -> db_get (bl_db (s_blobs s)) Blobs (link id) = None) \/
  exists bytes, builder_serialize b = Ok bytes /\
    db_get (bl_db (s_blobs s)) Values tik = Some (blob_serialize (Local_ (sha256 bytes))) /\
    db_get (bl_db (s_blobs s)) Blobs (BlobKey.serialize (Local_ (sha256 bytes))) = Some bytes /\
    forall id, blob_wf id -> id <> Local_ (sha256 bytes) -> db_get (bl_db (s_blobs s)) Blobs (link id) = None.

Lemma text_ops_effect fields cf k v :
  cf = Blobs \/ cf = Values /\ k = tik -> fold_left (op_effect cf k) (text_ops fields) v = v.
Proof.
  intros Hcf. apply ops_effect_other. unfold text_ops. induction fields as [|f fields IH]; [constructor|]. rewrite bind_cons.
  apply Forall_app. split; [|done]. destruct Hcf as [->|[-> ->]]; [|apply field_ops_other].
  eapply Forall_impl; [by apply (field_ops_avoid a c d f _ _ Blobs)|]. by left.
Qed.

Lemma insert_holds s fields changes s1 r :
  insertable s fields -> write default_language timestamp s (mkBatch a changes [WInsert (text_document fields)] []) = Ok (s1, r) ->
  exists parts, Forall part_wf parts /\ builder_wf (index_parts parts builder_new) /\
    s_tombstone_deletions s1 = false /\ holds s1 (index_parts parts builder_new) /\
    forall key bm, bitmap_value (db_get (bl_db (s_blobs s)) Bitmaps key) = Some bm ->
      exists bm1, bitmap_value (db_get (bl_db (s_blobs s1)) Bitmaps key) = Some bm1 /\
        bitmap_after bm (fun x => if decide (x = d /\ key ∈ docs_key :: (parts ≫= part_keys)) then Some true else None) bm1.
Proof.
  intros Hin Hw. pose proof Hw as (st & logs & idx & Hp & Hs1 & _)%write_spec.
  pose proof Hp as Hp1. apply one_document in Hp1. rewrite (in_tombstones _ _ Hin) in Hp1.
  destruct (insert_prepared _ _ _ (in_fields _ _ Hin) Hp1) as (parts & Hparts & Hlen & Hbits & Hcase).
  exists parts. split; [done|]. split; [by eapply parts_wf; [..|apply Hin]|].
  split; [subst s1; cbn [submit s_tombstone_deletions]; apply Hin|]. split.
  - pose proof (fun cf k => write_get _ _ _ _ _ _ _ _ _ cf k Hw Hp) as Hget.
    assert (forall cf k v, cf <> Bitmaps -> fold_left (op_effect cf k) (bitmap_ops (pr_bitmaps st)) v = v) as Hbo
      by (intros; by apply avoids_effect, bitmap_ops_cf).
    destruct Hcase as [(Hempty & Hbl & Hops)|(bytes & r' & Hne & Hser & Hst & Hops)].
    + left. split; [done|]. rewrite Hget, Hbo, Hops, text_ops_effect, Hbl by (done || by right). split; [apply Hin|].
      intros id Hid. rewrite Hget, Hbo, Hops, text_ops_effect, Hbl by (done || by left). by apply Hin.
    + right. exists bytes. split; [done|].
      destruct (blob_store_local (s_blobs s) (sha256 bytes) bytes (in_sha _ _ Hin bytes) (in_content _ _ Hin bytes)) as (bl' & r2 & Hst' & Hb & Hlinks).
      rewrite Hst in Hst'. injection Hst' as <- _. pose proof (in_sha _ _ Hin bytes) as Hsha.
      pose proof (link_length _ Hsha) as Hll. pose proof (blob_key_length _ Hsha) as Hbl.
      split_and!.
      * rewrite Hget, Hbo, Hops, fold_left_app, text_ops_effect by (done || by right). cbn [fold_left].
        rewrite (op_effect_other _ _ _ (OpSet Blobs _ _)) by (by left). unfold op_effect. by rewrite bool_decide_eq_true_2.
      * rewrite Hget, Hbo, Hops, fold_left_app, text_ops_effect by (done || by left). cbn [fold_left].
        rewrite !op_effect_other; [done|by left|right; cbn [op_key]; intros Heq; rewrite Heq in Hll; lia].
      * intros id Hid Hnid. rewrite Hget, Hbo, Hops, fold_left_app, text_ops_effect by (done || by left). cbn [fold_left].
        rewrite !op_effect_other; [rewrite Hlinks by done; by apply Hin|by left|right; cbn [op_key]; by intros ?%link_inj].
  - intros key bm Hbm. destruct (write_bitmap _ _ _ _ _ _ _ _ _ key bm Hw Hp) as (bm1 & Hb1 & Ha); [|done|].
    { apply Forall_singleton, Hin. }
    exists bm1. split; [done|]. intros x. rewrite (Ha x), Hbits.
    change ((docs_key, true) :: map (fun k => (k, true)) (parts ≫= part_keys)) with (map (fun k => (k, true)) (docs_key :: (parts ≫= part_keys))).
    by rewrite assigned_keys.
Qed.

(** Deleting a document the store holds a term index for. *)
Lemma delete_holds s1 b changes :
  builder_wf b -> (forall bytes, blob_wf (Local_ (sha256 bytes))) -> fits 32 d -> s_tombstone_deletions s1 = false -> holds s1 b ->
  exists s2 r keys, write default_language timestamp s1 (mkBatch a changes [WDelete (document_new c d)] []) = Ok (s2, r) /\
    db_get (bl_db (s_blobs s2)) Values tik = None /\
    (forall id, blob_wf id -> db_get (bl_db (s_blobs s2)) Blobs (link id) = None) /\
    (forall f t k, indexed_in b f t -> (forall w, tk_stemmed_word t = Some w -> w <> tk_word t) ->
      k ∈ token_keys_of a c f t -> k ∈ keys) /\
    forall key bm, bitmap_value (db_get (bl_db (s_blobs s1)) Bitmaps key) = Some bm ->
      exists bm2, bitmap_value (db_get (bl_db (s_blobs s2)) Bitmaps key) = Some bm2 /\
        bitmap_after bm (fun x => if decide (x = d /\ key ∈ docs_key :: keys) then Some false else None) bm2.
Proof.
  intros Hwf Hsha Hd Htomb Hholds.
  assert (exists ops keys, prepare_documents default_language timestamp a (s_tombstone_deletions s1) (mkPrepared (s_blobs s1) [] ∅ []) [WDelete (document_new c d)] =
      Ok (mkPrepared (s_blobs s1) ops (assign_bits d ((docs_key, false) :: map (fun k => (k, false)) keys) ∅) []) /\
    fold_left (op_effect Values tik) ops (db_get (bl_db (s_blobs s1)) Values tik) = None /\
    (forall id, blob_wf id -> fold_left (op_effect Blobs (link id)) ops (db_get (bl_db (s_blobs s1)) Blobs (link id)) = None) /\
    forall f t k, indexed_in b f t -> (forall w, tk_stemmed_word t = Some w -> w <> tk_word t) ->
      k ∈ token_keys_of a c f t -> k ∈ keys) as (ops & keys & Hp & Hv & Hl & Hk).
  { destruct Hholds as [(Hempty & Hnone & Hlinks)|(bytes & Hser & Hv & Hb & Hlinks)].
    - exists [], []. split; [apply one_document; rewrite Htomb; unfold prepare_document, enter_document, get_as; cbn [pr_blobs action_document document_new d_collection d_document_id]; rewrite Hnone; reflexivity|].
      split_and!; [done..|]. intros f t k (bi & tm & Hbi & _). rewrite Hempty in Hbi. by apply not_elem_of_nil in Hbi.
    - assert (tb_terms b <> ∅) as Hne by (intros Hn; unfold builder_serialize in Hser; by rewrite bool_decide_eq_true_2 in Hser).
      destruct (index_bytes b Hwf Hne) as (bytes' & words & Hser' & Hw & _ & Htk). rewrite Hser in Hser'. injection Hser' as <-.
      destruct (delete_prepared (s_blobs s1) (sha256 bytes) bytes words b Hwf Hw Htk (Hsha bytes) Hv Hb) as (keys & Hp & Hk).
      eexists _, keys. split; [apply one_document; rewrite Htomb; exact Hp|]. split_and!.
      + cbn [fold_left]. rewrite (op_effect_other _ _ _ (OpDelete Blobs _)) by (by left). unfold op_effect. by rewrite bool_decide_eq_true_2.
      + intros id Hid. cbn [fold_left]. rewrite (op_effect_other _ _ _ (OpDelete Values _)) by (by left). unfold op_effect. cbn [op_cf op_key].
        case_bool_decide as Heq; [done|]. apply Hlinks; [done|]. intros ->. by apply Heq.
      + intros f t k Hi Hst Hkt. apply Hk. by eapply index_covers. }
  destruct (write_total default_language timestamp s1 a changes _ _ Hp eq_refl) as (s2 & r & Hw). exists s2, r, keys. split; [done|].
  pose proof (fun cf k => write_get _ _ _ _ _ _ _ _ _ cf k Hw Hp) as Hget. cbn [pr_ops pr_blobs pr_bitmaps] in Hget.
  split_and!; [| |done|].
  - by rewrite Hget, Hv, avoids_effect by (done || by apply bitmap_ops_cf).
  - intros id Hid. by rewrite Hget, Hl, avoids_effect by (done || by apply bitmap_ops_cf).
  - intros key bm Hbm. destruct (write_bitmap _ _ _ _ _ _ _ _ _ key bm Hw Hp) as (bm1 & Hb1 & Ha); [by apply Forall_singleton|done|].
    exists bm1. split; [done|]. intros x. rewrite (Ha x). cbn [pr_bitmaps].
    change ((docs_key, false) :: map (fun k => (k, false)) keys) with (map (fun k => (k, false)) (docs_key :: keys)).
    by rewrite assigned_keys.
Qed.
End InsertDelete.

(** ** Properties *)

(** C18. A write changes the bitmaps as its documents say: after a batch of
    inserted and updated documents, a document is in a bitmap exactly when the
    last bit the batch gives it under that key is set, or the batch gives it
    none and it was there before. The bits are those of the collection, of
    keywords, words and stems, and of tags. *)
Theorem write_updates_bitmaps `{StoreLaws DB} `{BlobStore E} `{Unicode} `{Linguistics} `{BitPacker} `{WriteEnv}
    `{RoaringLaws} `{!BitmapMerges DB} language timestamp (s : store (DB := DB) (E := E)) a changes actions s' r :
  Forall plain_action actions -> Forall (fits 32) (map (fun action => d_document_id (action_document action)) actions) ->
  write language timestamp s (mkBatch a changes actions []) = Ok (s', r) ->
  exists effects, batch_effects language a actions = Ok effects /\
    forall key bm, bitmap_value (db_get (bl_db (s_blobs s)) Bitmaps key) = Some bm ->
      exists bm', bitmap_value (db_get (bl_db (s_blobs s')) Bitmaps key) = Some bm' /\
        forall d, d ∈ bm' <-> match last_bit effects key d with Some b => b = true | None => d ∈ bm end.
Proof.
  intros Hact Hids Hw. pose proof Hw as (st & _ & _ & Hp & _)%write_spec.
  destruct (prepare_documents_plain _ _ _ _ _ _ _ Hact Hp) as (effects & He & Has). exists effects. split; [done|].
  intros key bm Hbm. destruct (write_bitmap _ _ _ _ _ _ _ _ _ key bm Hw Hp Hids Hbm) as (bm' & Hb & Ha). exists bm'. split; [done|].
  intros d. rewrite (Ha d), Has. cbn [pr_bitmaps]. unfold assigned. rewrite lookup_empty. by destruct (last_bit effects key d).
Qed.

(** C19. Deleting undoes inserting. When a new document with full-text fields is
    written and then deleted with no more than its id, the deletion succeeds,
    every bitmap of the store is what it was before the insertion, for every
    word, stem and collection, and neither a term index nor a blob link of the
    document remains, so the blob of its term index can be purged. *)
Theorem insert_then_delete `{StoreLaws DB} `{BlobStore E} `{UnicodeLaws} `{LinguisticsLaws} `{BitPackerLaws} `{WriteEnv}
    `{RoaringLaws} `{!BitmapMerges DB} language timestamp a c d (s : store (DB := DB) (E := E)) fields changes changes' s1 r :
  insertable language a c d s fields ->
  write language timestamp s (mkBatch a changes [WInsert (text_document c d fields)] []) = Ok (s1, r) ->
  exists s2 r', write language timestamp s1 (mkBatch a changes' [WDelete (document_new c d)] []) = Ok (s2, r') /\
    (forall key bm, bitmap_value (db_get (bl_db (s_blobs s)) Bitmaps key) = Some bm ->
      bitmap_value (db_get (bl_db (s_blobs s2)) Bitmaps key) = Some bm) /\
    db_get (bl_db (s_blobs s2)) Values (ValueKey.serialize_term_index a c d) = None /\
    forall id, blob_wf id -> db_get (bl_db (s_blobs s2)) Blobs (BlobKey.serialize_link id a c d) = None.
Proof.
  intros Hin Hw. destruct (insert_holds language timestamp a c d s fields changes s1 r Hin Hw) as (parts & Hparts & Hwf & Ht & Hh & Hins).
  destruct (delete_holds language timestamp a c d s1 _ changes' Hwf (in_sha _ _ _ _ _ _ Hin) (in_id _ _ _ _ _ _ Hin) Ht Hh)
    as (s2 & r' & keys & Hw2 & Hv & Hl & Hcov & Hdel).
  exists s2, r'. split; [done|]. split; [|done]. intros key bm Hbm.
  destruct (Hins key bm Hbm) as (bm1 & Hb1 & Ha1). destruct (Hdel key bm1 Hb1) as (bm2 & -> & Ha2). f_equal.
  apply set_eq. intros x. rewrite (Ha2 x). pose proof (in_no_bit _ _ _ _ _ _ Hin key bm Hbm) as Hno.
  destruct (decide (x = d /\ key ∈ BitmapKey.serialize_document_ids a c :: keys)) as [[-> _]|Hnk]; [naive_solver|].
  rewrite (Ha1 x). destruct (decide _) as [[-> Hk]|]; [|done]. exfalso. apply Hnk. split; [done|].
  apply elem_of_cons in Hk as [->|Hk]; [by apply elem_of_cons; left|]. apply elem_of_cons. right.
  destruct (part_key_token a c parts key Hparts Hk) as (f & t & Hi & Hkt & Hst). by eapply Hcov.
Qed.

(** A write is logged once: a batch with changes takes the next Raft index,
    stores the change of each collection under that index, and a Raft entry for
    the account whose bitmap lists exactly the changed collections; every other
    log entry stays as it was. *)
Theorem write_logs_changes `{StoreLaws DB} `{BlobStore E} `{Unicode} `{Linguistics} `{BitPacker} `{WriteEnv}
    language timestamp (s : store (DB := DB) (E := E)) a changes actions s' r :
  vm_inv changes -> vm_k changes <> [] -> s_tombstone_deletions s = false -> 0 <= s_raft_index s < 2 ^ 64 - 1 ->
  write language timestamp s (mkBatch a changes actions []) = Ok (s', r) ->
  let i := s_raft_index s + 1 in
  let raft_key := LogKey.serialize_raft (mkRaftId (s_raft_term s) i) in
  s_raft_index s' = i /\
  (forall c change, vm_get changes c = Some change ->
    db_get (bl_db (s_blobs s')) Logs (LogKey.serialize_change a c i) = Some (Batch.serialize change)) /\
  (exists collections, r = Some (mkWriteChanges collections i) /\
    db_get (bl_db (s_blobs s')) Logs raft_key = Some (RaftLog.item_bytes a collections) /\
    forall c, bm_contains collections c = true <-> c ∈ vm_k changes) /\
  (forall key, key <> raft_key -> (forall c, c ∈ vm_k changes -> key <> LogKey.serialize_change a c i) ->
    db_get (bl_db (s_blobs s')) Logs key = db_get (bl_db (s_blobs s)) Logs key).
Proof.
  intros Hinv Hne Htomb Hidx Hw i raft_key. pose proof Hw as (st & logs & idx & Hp & Hs' & Hlogs & Hr)%write_spec.
  pose proof (vm_iter_keys changes (vm_inv_length _ Hinv)) as Hkeys.
  assert (u64 (s_raft_index s + 1) = i) as Hi by (apply wrap_small; unfold fits; lia).
  pose proof Hp as Ht. rewrite Htomb in Ht. apply prepare_documents_tombstones in Ht. cbn [pr_tombstones] in Ht.
  destruct (vm_iter changes) as [|ch l] eqn:El; [by rewrite <- Hkeys in Hne|]. set (l' := ch :: l) in *. clearbody l'.
  rewrite Hi in Hr. destruct Hr as (-> & -> & tombs & -> & Hnil & _). specialize (Hnil Ht). subst tombs.
  destruct (prepare_documents_frame _ _ _ _ _ _ _ Hp) as [(new & Ho & Hav) _ Hdb]. cbn [pr_ops pr_blobs app] in Ho, Hdb.
  assert (forall key, db_get (bl_db (s_blobs s')) Logs key =
    op_effect Logs key (fold_left (op_effect Logs key) (log_change_ops a i l') (db_get (bl_db (s_blobs s)) Logs key))
      (OpSet Logs raft_key (RaftLog.item_bytes a (batch_collections l')))) as Hget.
  { intros key. rewrite Hs'. cbn [submit s_blobs bl_db]. rewrite db_write_get, !fold_left_app. cbn [fold_left].
    rewrite (avoids_effect Logs key _ (pr_ops st)) by (rewrite Ho; by apply Hav).
    rewrite (avoids_effect Logs key _ (bitmap_ops _)) by by apply bitmap_ops_cf. by rewrite Hdb. }
  assert (NoDup l'.*1) as Hnd by (rewrite Hkeys; apply Hinv).
  assert (forall c, LogKey.serialize_change a c i <> raft_key) as Hck by (by intros c Heq; apply (f_equal head) in Heq).
  split; [by rewrite Hs'|]. split_and!.
  - intros c change Hc. rewrite Hget, op_effect_other by (right; cbn [op_key]; by intros ?%eq_sym%Hck).
    apply (proj1 (log_change_ops_effect a i l' _ _ Hnd) c change); [|done]. rewrite <- El. by apply vm_iter_get.
  - exists (batch_collections l'). split; [done|]. split; [rewrite Hget; unfold op_effect; by rewrite bool_decide_eq_true_2|].
    intros c. by rewrite batch_collections_contains, Hkeys.
  - intros key Hnr Hnc. rewrite Hget, op_effect_other by (right; cbn [op_key]; congruence).
    apply (proj2 (log_change_ops_effect a i l' key _ Hnd)). by rewrite Hkeys.
Qed.

(** ** A sample: the text "cats a" in an empty store *)
Module WriteSample.
Export PlainPacker AsciiText ListRoaring SampleBlobs.
Definition merge_op (cf : ColumnFamily) (old : option (list Z)) (v : list Z) : option (list Z) :=
  match cf with Bitmaps => bitmap_merge old [v] | _ => Some v end.
#[export] Instance sample_store : Store MemStore.t := MemStore.store merge_op.
#[export] Instance sample_store_laws : StoreLaws MemStore.t := MemStore.laws merge_op.
#[export] Instance sample_merges : BitmapMerges MemStore.t.
Proof. by intros v op. Qed.
#[export] Instance sample_env : WriteEnv := {|
  write_whatlang := {| whatlang_detect _ := None; iteration_order m := m |};
  sha256 bytes := map u8 (take 32 (bytes ++ replicate 32 0));
  bincode _ := Some []
|}.

Definition empty_store : store (DB := MemStore.t) (E := unit) := mkStore (mkBlobs MemStore.empty tt) 0 0 false.
Definition cats : Field Text := mkField 3 (opt_full_text 0 0) (mkText [99; 97; 116; 115; 32; 97] English).
Definition changes : VecMap Collection.t Batch.Change := mkVecMap [Collection.Mail] [Batch.mkChange [8] [] [] []].
Definition insert_batch : WriteBatch := mkBatch 1 changes [WInsert (text_document Collection.Mail 8 [cats])] [].
Definition inserted : store (DB := MemStore.t) (E := unit) :=
  match write English 0 empty_store insert_batch with Ok (s, _) => s | _ => empty_store end.
Definition reported : option WriteChanges :=
  match write English 0 empty_store insert_batch with Ok (_, r) => r | _ => None end.

Lemma insert_runs : write English 0 empty_store insert_batch = Ok (inserted, reported).
Proof. unfold inserted, reported. assert (exists x, write English 0 empty_store insert_batch = Ok x) as [[s r] ->]; [|done].
  eexists. vm_compute. reflexivity. Qed.

Lemma empty_get cf k : db_get MemStore.empty cf k = None.
Proof. by destruct cf. Qed.

Lemma sample_insertable : insertable English 1 Collection.Mail 8 empty_store [cats].
Proof.
  split; cbn [empty_store s_tombstone_deletions s_blobs bl_db]; try done.
  - constructor; [|constructor]. split; cbn [cats f_options f_field f_value tx_text tx_language]; try done.
    + repeat constructor; unfold is_char; lia.
    + intros tokens t w E. vm_compute in E. injection E as <-. intros [->|[->|Hin%elem_of_nil]%elem_of_cons]%elem_of_cons; [|done|done].
      by intros [= <-].
  - split; [unfold sha256, sample_env, blob_hash; rewrite length_map, length_take, length_app, length_replicate; unfold BLOB_HASH_LEN; lia|].
    cbn [blob_hash]. apply Forall_map, Forall_forall. intros b _. apply Z.mod_pos_bound. lia.
  - intros key bm. rewrite empty_get. intros [= <-]. set_solver.
Qed.
End WriteSample.
Import WriteSample.

Lemma write_updates_bitmaps_witness :
  exists bm, bitmap_value (db_get (bl_db (s_blobs inserted)) Bitmaps
    (BitmapKey.serialize_term 1 Collection.Mail 3 [99; 97; 116] false)) = Some bm /\ 8 ∈ bm.
Proof.
  destruct (write_updates_bitmaps English 0 empty_store 1 changes [WInsert (text_document Collection.Mail 8 [cats])] inserted reported) as (effects & He & Hk).
  - repeat constructor.
  - constructor; [split; cbn; lia|constructor].
  - exact insert_runs.
  - destruct (Hk (BitmapKey.serialize_term 1 Collection.Mail 3 [99; 97; 116] false) ∅) as (bm & Hb & Hd); [by rewrite empty_get|].
    exists bm. split; [exact Hb|]. apply Hd. vm_compute in He. injection He as <-. vm_compute. reflexivity.
Defined.

Lemma insert_then_delete_witness :
  exists s2 r, write English 0 inserted (mkBatch 1 changes [WDelete (document_new Collection.Mail 8)] []) = Ok (s2, r) /\
    bitmap_value (db_get (bl_db (s_blobs s2)) Bitmaps (BitmapKey.serialize_term 1 Collection.Mail 3 [99; 97; 116] false)) = Some ∅.
Proof.
  destruct (insert_then_delete English 0 1 Collection.Mail 8 empty_store [cats] changes changes inserted reported sample_insertable insert_runs)
    as (s2 & r & Hw & Hb & _).
  exists s2, r. split; [exact Hw|]. apply Hb. by rewrite empty_get.
Defined.

Lemma write_logs_changes_witness :
  db_get (bl_db (s_blobs inserted)) Logs (LogKey.serialize_change 1 Collection.Mail 1) = Some (Batch.serialize (Batch.mkChange [8] [] [] [])).
Proof.
  refine (proj1 (proj2 (write_logs_changes English 0 empty_store 1 changes [WInsert (text_document Collection.Mail 8 [cats])] inserted reported
    _ _ _ _ insert_runs)) Collection.Mail _ _).
  - split; [done|]. repeat constructor. apply not_elem_of_nil.
  - discriminate.
  - reflexivity.
  - cbn. lia.
  - reflexivity.
Defined.
