(* ===== verification/Orm.v ===== *)
(** * Objects in the store: components/jmap/src/orm

    [TinyORM] keeps the properties, tags and access rights of a JMAP object.
    Inserting, merging changes into and deleting an object fills a document
    with what is to be written: the serialized object, index entries to add and
    to clear, tags and rights. The traits [Object] and [orm::Value] are
    classes. The last operation of a document on each index entry, tag, right
    and value brings those of the old object to those of the new one; [OrmStore]
    shows that the writer carries this out. A hash set of tags is a set, iterated in
    the order of its elements, since no result depends on the order; bincode is
    an interface. *)

From S2P Require Import Prelude Lang Leb128 Serialize Types TermIndex Nlp Keys Bitmap BitList VecMap KV Blob ChangeLog RaftLog Read Write.
#[local] Open Scope Z_scope.

#[export] Instance tag_countable : Countable Tag.
Proof.
  refine (inj_countable'
    (fun t => match t with Static i => inl (inl i) | Id i => inl (inr i) | Types.Text s => inr (Some s) | Default => inr None end)
    (fun x => match x with inl (inl i) => Static i | inl (inr i) => Id i | inr (Some s) => Types.Text s | inr None => Default end) _).
  by intros [].
Defined.

#[export] Instance permission_eq_dec : EqDecision Permission.
Proof. solve_decision. Defined.
#[export] Instance number_eq_dec : EqDecision Number.
Proof. solve_decision. Defined.
#[export] Instance vec_map_eq_dec {K V} `{EqDecision K, EqDecision V} : EqDecision (VecMap K V).
Proof. solve_decision. Defined.

(** How a value is indexed. *)
Inductive Index : Set :=
| IText (text : list Z) | ITextList (texts : list (list Z)) | IInteger (i : Z) | IIntegerList (l : list Z)
| ILongInteger (i : Z) | INull.

(** The traits [orm::Value] and [Object]. *)
Class OrmValue (V : Type) := {
  ov_eq_dec :: EqDecision V;
  index_as : V -> Index;
  value_is_empty : V -> bool;
  value_len : V -> Z;
  value_default : V }.

Class Object (P V : Type) := {
  ob_eq_dec :: EqDecision P;
  ob_value :: OrmValue V;
  property_id : P -> FieldId;
  required : list P;
  indexed : list (P * Z);
  max_len : list (P * Z);
  collection : Collection.t }.

(** Properties have different numbers, [FIELD_ID] is not one of them, and no
    index option clears. *)
Class ObjectLaws (P V : Type) `{Object P V} : Prop := {
  property_id_inj : Inj (=) (=) property_id;
  property_id_field p : property_id p <> 255;
  indexed_set : Forall (fun e => is_clear e.2 = false) indexed }.

Record TinyORM (P V : Type) := mkOrm {
  properties : VecMap P V; tags : VecMap P (gset Tag); acls : list Permission }.
Arguments mkOrm {P V}.
Arguments properties {P V}.
Arguments tags {P V}.
Arguments acls {P V}.

(** [bincode] of objects. *)
Class OrmCodec (P V : Type) := {
  orm_serialize : TinyORM P V -> option (list Z);
  orm_deserialize : list Z -> option (TinyORM P V) }.

Definition FIELD_ID : Z := 255.

Section Orm.
Context `{Object P V} `{OrmCodec P V}.
Abbreviation TinyORM := (TinyORM P V).

(** ** Properties *)

Definition orm_new : TinyORM := mkOrm vm_new vm_new [].
Definition track_changes (source : TinyORM) : TinyORM := mkOrm vm_new (tags source) (acls source).
Definition orm_get (o : TinyORM) (p : P) : option V := vm_get (properties o) p.
Definition orm_set (o : TinyORM) (p : P) (v : V) : TinyORM := mkOrm (vm_set (properties o) p v).1 (tags o) (acls o).
Definition vm_drop {W} (m : VecMap P W) (p : P) : VecMap P W := from_option snd m (vm_remove m p).
Definition orm_remove (o : TinyORM) (p : P) : option V * TinyORM :=
  (fst <$> vm_remove (properties o) p, mkOrm (vm_drop (properties o) p) (tags o) (acls o)).
Definition has_property (o : TinyORM) (p : P) : bool := vm_contains_key (properties o) p.

(** ** Tags *)

(** [get_mut(key).map(f)]. *)
Definition vm_update {W} (m : VecMap P W) (p : P) (f : W -> W) : VecMap P W :=
  match position p (vm_k m) with
  | Some pos => mkVecMap (vm_k m) (alter f pos (vm_v m))
  | None => m
  end.
Definition orm_tag (o : TinyORM) (p : P) (t : Tag) : TinyORM :=
  let (m, pos) := vm_get_mut_or_insert (tags o) p ∅ in
  mkOrm (properties o) (mkVecMap (vm_k m) (alter (fun s => {[t]} ∪ s) pos (vm_v m))) (acls o).
Definition orm_untag (o : TinyORM) (p : P) (t : Tag) : TinyORM :=
  mkOrm (properties o) (vm_update (tags o) p (fun s => s ∖ {[t]})) (acls o).
Definition untag_all (o : TinyORM) (p : P) : TinyORM := mkOrm (properties o) (vm_update (tags o) p (fun _ => ∅)) (acls o).
Definition get_tags (o : TinyORM) (p : P) : option (gset Tag) := vm_get (tags o) p.
Definition has_tags (o : TinyORM) (p : P) : bool :=
  match get_tags o p with Some s => negb (bool_decide (s = ∅)) | None => false end.
Definition get_changed_tags (o changes : TinyORM) (p : P) : gset Tag :=
  match get_tags o p, get_tags changes p with
  | Some s, Some s' => if bool_decide (s = s') then ∅ else (s ∖ s') ∪ (s' ∖ s)
  | Some s, None => s
  | None, Some s' => s'
  | None, None => ∅
  end.
Definition get_added_tags (o changes : TinyORM) (p : P) : gset Tag :=
  match get_tags o p, get_tags changes p with
  | Some s, Some s' => if bool_decide (s = s') then ∅ else s' ∖ s
  | None, Some s' => s'
  | _, _ => ∅
  end.
Definition get_removed_tags (o changes : TinyORM) (p : P) : gset Tag :=
  match get_tags o p, get_tags changes p with
  | Some s, Some s' => if bool_decide (s = s') then ∅ else s ∖ s'
  | Some s, None => s
  | _, _ => ∅
  end.

(** ** Access rights *)

Definition set_acls (o : TinyORM) (l : list Permission) : TinyORM := mkOrm (properties o) (tags o) l.
Definition perm_position (id : AccountId) (l : list Permission) : option nat :=
  fst <$> list_find (fun p => perm_id p = id) l.
Definition revoke (l : list Permission) (id : AccountId) : list Permission :=
  match perm_position id l with
  | Some pos => from_option snd l (vec_swap_remove l pos)
  | None => l
  end.
Definition acl_revoke (o : TinyORM) (id : AccountId) : TinyORM := set_acls o (revoke (acls o) id).
Definition acl_update (o : TinyORM) (id : AccountId) (acl : Z) : TinyORM :=
  if bm_is_empty acl then acl_revoke o id
  else
    set_acls o
      match perm_position id (acls o) with
      | Some pos => alter (fun p => mkPermission (perm_id p) acl) pos (acls o)
      | None => acls o ++ [mkPermission id acl]
      end.
Definition acl_set (o : TinyORM) (id : AccountId) (acl : ACL.t) (is_set : bool) : TinyORM :=
  if bool_decide (acl = ACL.None_) then o
  else
    match perm_position id (acls o) with
    | Some pos =>
        if is_set then set_acls o (alter (fun p => mkPermission (perm_id p) (bm_insert (perm_acl p) acl)) pos (acls o))
        else
          let l := alter (fun p => mkPermission (perm_id p) (bm_remove (perm_acl p) acl)) pos (acls o) in
          if from_option (fun p => bm_is_empty (perm_acl p)) false (l !! pos) then acl_revoke (set_acls o l) id
          else set_acls o l
    | None => if is_set then set_acls o (acls o ++ [mkPermission id (bm_insert bm_new acl)]) else o
    end.
Definition acl_clear (o : TinyORM) : TinyORM := set_acls o [].

(** [sort_unstable]: by account, then by rights. *)
Definition perm_le (p q : Permission) : Prop := perm_id p < perm_id q \/ (perm_id p = perm_id q /\ perm_acl p <= perm_acl q).
#[export] Instance perm_le_dec p q : Decision (perm_le p q).
Proof. unfold perm_le. apply _. Defined.
Definition acl_finish (o : TinyORM) : TinyORM := set_acls o (merge_sort perm_le (acls o)).
Definition acl_check (o : TinyORM) (id : AccountId) (acl : ACL.t) : bool :=
  match list_find (fun p => perm_id p = id) (acls o) with
  | Some (_, p) => bm_contains (perm_acl p) acl
  | None => false
  end.

(** The permissions as a hash map from accounts to rights. *)
Definition changed_acls (l l' : list Permission) (m : gmap AccountId Z) : gmap AccountId Z :=
  fold_left (fun m p => if bool_decide (p ∈ l') then m
                        else <[perm_id p := from_option (fun a => bm_union a (perm_acl p)) (perm_acl p) (m !! perm_id p)]> m) l m.
Definition get_changed_acls (o : TinyORM) (changes : option TinyORM) : option (list Permission) :=
  match changes with
  | Some changes =>
      if bool_decide (acls changes = acls o) then None
      else Some ((fun kv => mkPermission kv.1 kv.2) <$>
             map_to_list (changed_acls (acls changes) (acls o) (changed_acls (acls o) (acls changes) ∅)))
  | None => match acls o with [] => None | l => Some l end
  end.

(** ** Filling documents *)

(** The options of an indexed property. *)
Definition find_indexed (p : P) : option Z := snd <$> find (fun e => bool_decide (e.1 = p)) indexed.

Definition index_texts (p : P) (options : Z) (d : Document) (l : list (list Z)) : Document :=
  fold_left (fun d t => document_text d (property_id p) t Unknown options) l d.
Definition index_integers (p : P) (options : Z) (d : Document) (l : list Z) : Document :=
  fold_left (fun d i => document_number d (property_id p) (NInteger i) options) l d.
Definition index_value (p : P) (options : Z) (d : Document) (i : Index) : Document :=
  match i with
  | IText t => document_text d (property_id p) t Unknown options
  | ITextList l => index_texts p options d l
  | IInteger i => document_number d (property_id p) (NInteger i) options
  | IIntegerList l => index_integers p options d l
  | ILongInteger i => document_number d (property_id p) (NLongInteger i) options
  | INull => d
  end.
Definition is_null (i : Index) : bool := match i with INull => true | _ => false end.

Definition insert_orm (o : TinyORM) (d : Document) : option Document :=
  (fun bytes => document_binary d FIELD_ID bytes (opt_store F_NONE)) <$> orm_serialize o.
Definition delete_orm (d : Document) : Document := document_binary d FIELD_ID [] (opt_clear F_NONE).

Definition tag_document (p : P) (options : Z) (d : Document) (l : list Tag) : Document :=
  fold_left (fun d t => document_tag d (property_id p) t options) l d.
Definition acl_document (options : Z) (d : Document) (l : list Permission) : Document :=
  fold_left (fun d acl => document_acl d acl options) l d.

Definition orm_update_document (o : TinyORM) (d : Document) (is_delete : bool) : Document :=
  match indexed, vm_k (tags o) with
  | [], [] => d
  | _, _ =>
      let clear options := if is_delete then opt_clear options else options in
      let d := fold_left (fun d '(p, v) =>
        match find_indexed p with Some options => index_value p (clear options) d (index_as v) | None => d end)
        (vm_iter (properties o)) d in
      let d := fold_left (fun d '(p, s) => tag_document p (clear F_NONE) d (elements s)) (vm_iter (tags o)) d in
      acl_document (clear F_NONE) d (acls o)
  end.

Definition orm_insert (o : TinyORM) (d : Document) : option Document :=
  (fun d => orm_update_document o d false) <$> insert_orm o d.
Definition orm_delete (o : TinyORM) (d : Document) : Document := orm_update_document o (delete_orm d) true.

(** The errors of validation, with the property they name. *)
Inductive set_error := PropertyEmpty (p : P) | PropertyTooLong (p : P) (n : Z) | SerializeError.

Fixpoint check_required (empty : P -> bool) (l : list P) : option set_error :=
  match l with
  | [] => None
  | p :: l => if empty p then Some (PropertyEmpty p) else check_required empty l
  end.
Fixpoint check_max_len (len : P -> option Z) (l : list (P * Z)) : option set_error :=
  match l with
  | [] => None
  | (p, n) :: l =>
      if from_option (fun k => n <? k) false (len p) then Some (PropertyTooLong p n) else check_max_len len l
  end.

Definition insert_validate (o : TinyORM) (d : Document) : set_error + Document :=
  match check_required (fun p => from_option value_is_empty true (orm_get o p)) required with
  | Some e => inl e
  | None =>
      match check_max_len (fun p => value_len <$> orm_get o p) max_len with
      | Some e => inl e
      | None => match orm_insert o d with Some d => inr d | None => inl SerializeError end
      end
  end.

(** ** Merging changes *)

Record merge_state := mkMerge { ms_properties : VecMap P V; ms_document : Document; ms_changed : bool }.

(** A list: the entries that are gone are cleared, the new ones added. *)
Definition diff_list {A} `{EqDecision A} (add : Z -> Document -> list A -> Document) (options : Z) (d : Document)
    (current new : list A) : Document :=
  add options (add (opt_clear options) d (filter (fun x => x ∉ new) current)) (filter (fun x => x ∉ current) new).

Definition merge_property (st : merge_state) (change : P * V) : merge_state :=
  let (p, new_value) := change in
  let props := ms_properties st in
  let d := ms_document st in
  let replace d :=
    let '(d, do_insert) :=
      match find_indexed p with
      | Some options => (index_value p options d (index_as new_value), negb (is_null (index_as new_value)))
      | None => (d, negb (value_is_empty new_value))
      end in
    mkMerge (if do_insert then (vm_set props p new_value).1 else vm_drop props p) d true in
  match vm_get props p with
  | None => replace d
  | Some current_value =>
      if bool_decide (current_value = new_value) then st
      else
        match find_indexed p with
        | None => replace d
        | Some options =>
            match index_as current_value with
            | ITextList current =>
                match index_as new_value with
                | ITextList new => mkMerge (vm_set props p new_value).1 (diff_list (index_texts p) options d current new) true
                | _ => mkMerge (vm_drop props p) (index_texts p (opt_clear options) d current) true
                end
            | IIntegerList current =>
                match index_as new_value with
                | IIntegerList new => mkMerge (vm_set props p new_value).1 (diff_list (index_integers p) options d current new) true
                | _ => mkMerge (vm_drop props p) (index_integers p (opt_clear options) d current) true
                end
            | current => replace (index_value p (opt_clear options) d current)
            end
        end
  end.

Definition clear_tags (tags tags' : VecMap P (gset Tag)) (d : Document) : Document :=
  fold_left (fun d '(p, s) =>
    match vm_get tags' p with
    | Some s' => if bool_decide (s = s') then d else tag_document p (opt_clear F_NONE) d (filter (fun t => t ∉ s') (elements s))
    | None => d
    end) (vm_iter tags) d.
Definition add_tags (tags tags' : VecMap P (gset Tag)) (d : Document) : Document :=
  fold_left (fun d '(p, s') =>
    match vm_get tags p with
    | Some s => if bool_decide (s' = s) then d else tag_document p F_NONE d (filter (fun t => t ∉ s) (elements s'))
    | None => tag_document p F_NONE d (elements s')
    end) (vm_iter tags') d.

(** The object merged, its document, and whether anything changed. *)
Definition orm_merge (o : TinyORM) (d : Document) (changes : TinyORM) : option (TinyORM * Document * bool) :=
  let st := fold_left merge_property (vm_iter (properties changes)) (mkMerge (properties o) d false) in
  let d := ms_document st in
  let tags_differ := negb (bool_decide (tags o = tags changes)) in
  let d := if tags_differ then add_tags (tags o) (tags changes) (clear_tags (tags o) (tags changes) d) else d in
  let acls_differ := negb (bool_decide (acls o = acls changes)) in
  let d := if acls_differ then
             acl_document F_NONE
               (acl_document (opt_clear F_NONE) d
                 (filter (fun acl => Forall (fun ca => perm_id ca <> perm_id acl) (acls changes)) (acls o)))
               (filter (fun acl => acl ∉ acls o) (acls changes))
           else d in
  let o' := mkOrm (ms_properties st) (if tags_differ then tags changes else tags o)
              (if acls_differ then acls changes else acls o) in
  if ms_changed st || tags_differ || acls_differ then
    d ← insert_orm o' d; Some (o', d, true)
  else Some (o', d, false).

Definition merge_full (o : TinyORM) (d : Document) (changes : TinyORM) : option (TinyORM * Document * bool) :=
  let changes :=
    if bool_decide (vm_k (properties o) = vm_k (properties changes)) then changes
    else
      fold_left (fun c p => if has_property c p then c
                            else mkOrm (vm_append (properties c) p value_default) (tags c) (acls c))
        (vm_k (properties o)) changes in
  orm_merge o d changes.

(** The lengths of unchanged properties are not checked: [ok_or] takes the
    closure as the error value. *)
Definition merge_validate (o : TinyORM) (d : Document) (changes : TinyORM) : set_error + (TinyORM * Document * bool) :=
  match check_required (fun p => match orm_get changes p with
                                 | Some v => value_is_empty v
                                 | None => bool_decide (orm_get o p = None)
                                 end) required with
  | Some e => inl e
  | None =>
      match check_max_len (fun p => value_len <$> orm_get changes p) max_len with
      | Some e => inl e
      | None => match orm_merge o d changes with Some r => inr r | None => inl SerializeError end
      end
  end.
End Orm.

(** ** What a document does

    The last operation on a key. *)
Definition last_op {K A} `{EqDecision K} (ops : list (K * A)) (k : K) : option A :=
  fold_left (fun acc op => if bool_decide (op.1 = k) then Some op.2 else acc) ops None.

Lemma last_op_app {K A} `{EqDecision K} (l l' : list (K * A)) k :
  last_op (l ++ l') k = match last_op l' k with Some x => Some x | None => last_op l k end.
Proof.
  unfold last_op. rewrite fold_left_app.
  generalize (fold_left (fun acc (op : K * A) => if bool_decide (op.1 = k) then Some op.2 else acc) l None).
  induction l' as [|op l' IH] using rev_ind; intros o; [done|]. rewrite !fold_left_app. cbn.
  case_bool_decide; [done|]. apply IH.
Qed.

Lemma last_op_const {K A B} `{EqDecision K} (f : B -> K) (x : A) (l : list B) k :
  last_op ((fun b => (f b, x)) <$> l) k = if decide (k ∈ (f <$> l)) then Some x else None.
Proof.
  induction l as [|b l IH] using rev_ind; [done|]. rewrite !fmap_app, last_op_app, IH. cbn.
  case_bool_decide as Hb.
  - rewrite decide_True; [done|]. apply elem_of_app. right. by apply list_elem_of_singleton.
  - destruct (decide (k ∈ (f <$> l))) as [Hin|Hin].
    + rewrite decide_True; [done|]. apply elem_of_app. by left.
    + rewrite decide_False; [done|]. intros [?|Hk%list_elem_of_singleton]%elem_of_app; [done|]. by subst.
Qed.

Inductive entry : Set := EText (text : list Z) | ENumber (number : Number).
#[export] Instance entry_eq_dec : EqDecision entry.
Proof. solve_decision. Defined.

Definition index_entries (i : Index) : list entry :=
  match i with
  | IText t => [EText t]
  | ITextList l => EText <$> l
  | IInteger i => [ENumber (NInteger i)]
  | IIntegerList l => (fun i => ENumber (NInteger i)) <$> l
  | ILongInteger i => [ENumber (NLongInteger i)]
  | INull => []
  end.

Definition text_entry (f : Field Write.Text) : (FieldId * entry) * bool :=
  ((f_field f, EText (tx_text (f_value f))), negb (is_clear (f_options f))).
Definition number_entry (f : Field Number) : (FieldId * entry) * bool :=
  ((f_field f, ENumber (f_value f)), negb (is_clear (f_options f))).
Definition tag_entry (f : Field Tag) : (FieldId * Tag) * bool :=
  ((f_field f, f_value f), negb (is_clear (f_options f))).
Definition acl_entry (a : Permission * Z) : AccountId * option Z :=
  (perm_id a.1, if is_clear a.2 then None else Some (perm_acl a.1)).
Definition binary_entry (f : Field (list Z)) : FieldId * option (list Z) :=
  (f_field f, if is_clear (f_options f) then None else Some (f_value f)).

Definition index_op (d : Document) (f : FieldId) (e : entry) : option bool :=
  match e with
  | EText _ => last_op (text_entry <$> d_text_fields d) (f, e)
  | ENumber _ => last_op (number_entry <$> d_number_fields d) (f, e)
  end.
Definition tag_op (d : Document) (f : FieldId) (t : Tag) : option bool := last_op (tag_entry <$> d_tag_fields d) (f, t).
Definition acl_op (d : Document) (id : AccountId) : option (option Z) := last_op (acl_entry <$> d_acls d) id.
Definition binary_op (d : Document) (f : FieldId) : option (option (list Z)) := last_op (binary_entry <$> d_binary_fields d) f.

(** The part of a document besides index entries. *)
Definition same_rest (d d' : Document) : Prop :=
  d_collection d' = d_collection d /\ d_document_id d' = d_document_id d /\ d_term_index d' = d_term_index d /\
  d_binary_fields d' = d_binary_fields d /\ d_tag_fields d' = d_tag_fields d /\ d_acls d' = d_acls d /\
  d_blobs d' = d_blobs d.

#[export] Instance same_rest_preorder : PreOrder same_rest.
Proof.
  split; [done|]. intros d1 d2 d3 (? & ? & ? & ? & ? & ? & ?) (? & ? & ? & ? & ? & ? & ?).
  repeat split; congruence.
Qed.

Lemma opt_clear_is_clear o : is_clear (opt_clear o) = true.
Proof.
  unfold is_clear, opt_clear. apply negb_true_iff, Z.eqb_neq. intros E.
  assert (Z.testbit (Z.land (Z.lor o F_CLEAR) F_CLEAR) 34 = false) as Hb by (rewrite E; apply Z.bits_0).
  rewrite Z.land_spec, Z.lor_spec in Hb. change (Z.testbit F_CLEAR 34) with true in Hb. by rewrite orb_true_r in Hb.
Qed.

Section Documents.
Context `{ObjectLaws P V}.

Lemma index_texts_fields (p : P) o d l :
  d_text_fields (index_texts p o d l) = d_text_fields d ++ ((fun t => mkField (property_id p) o (mkText t Unknown)) <$> l) /\
  d_number_fields (index_texts p o d l) = d_number_fields d /\ same_rest d (index_texts p o d l).
Proof.
  revert d. induction l as [|t l IH]; intros d; [by cbn; rewrite app_nil_r|].
  change (index_texts p o d (t :: l)) with (index_texts p o (document_text d (property_id p) t Unknown o) l).
  destruct (IH (document_text d (property_id p) t Unknown o)) as (E1 & E2 & E3).
  rewrite E1, E2. destruct d. cbn. rewrite <- app_assoc. split; [done|]. split; [done|]. etrans; [|exact E3]. done.
Qed.

Lemma index_integers_fields (p : P) o d l :
  d_number_fields (index_integers p o d l) = d_number_fields d ++ ((fun i => mkField (property_id p) o (NInteger i)) <$> l) /\
  d_text_fields (index_integers p o d l) = d_text_fields d /\ same_rest d (index_integers p o d l).
Proof.
  revert d. induction l as [|i l IH]; intros d; [by cbn; rewrite app_nil_r|].
  change (index_integers p o d (i :: l)) with (index_integers p o (document_number d (property_id p) (NInteger i) o) l).
  destruct (IH (document_number d (property_id p) (NInteger i) o)) as (E1 & E2 & E3).
  rewrite E1, E2. destruct d. cbn. rewrite <- app_assoc. split; [done|]. split; [done|]. etrans; [|exact E3]. done.
Qed.

(** Indexing a value is the last operation on its entries, and on no others. *)
Lemma index_texts_op (p : P) o d l f e :
  index_op (index_texts p o d l) f e =
  if decide (f = property_id p /\ e ∈ (EText <$> l)) then Some (negb (is_clear o)) else index_op d f e.
Proof.
  destruct (index_texts_fields p o d l) as (Ht & Hn & _). destruct e as [t|n]; cbn [index_op].
  - rewrite Ht, fmap_app, last_op_app. unfold text_entry at 1. rewrite <- list_fmap_compose. unfold compose. cbn.
    rewrite (last_op_const (fun t => (property_id p, EText t))).
    destruct (decide ((f, EText t) ∈ _)) as [Hin|Hin].
    + apply list_elem_of_fmap in Hin as (t' & [= -> ->] & Hin). rewrite decide_True; [done|]. split; [done|]. by apply list_elem_of_fmap_2.
    + rewrite decide_False; [done|]. intros [-> (t' & [= ->] & Hin')%list_elem_of_fmap]. apply Hin.
      by apply (list_elem_of_fmap_2 (fun t => (property_id p, EText t))).
  - rewrite Hn, decide_False; [done|]. by intros [_ (? & ? & _)%list_elem_of_fmap].
Qed.

Lemma index_integers_op (p : P) o d l f e :
  index_op (index_integers p o d l) f e =
  if decide (f = property_id p /\ e ∈ ((fun i => ENumber (NInteger i)) <$> l)) then Some (negb (is_clear o)) else index_op d f e.
Proof.
  destruct (index_integers_fields p o d l) as (Hn & Ht & _). destruct e as [t|n]; cbn [index_op].
  - rewrite Ht, decide_False; [done|]. by intros [_ (? & ? & _)%list_elem_of_fmap].
  - rewrite Hn, fmap_app, last_op_app. unfold number_entry at 1. rewrite <- list_fmap_compose. unfold compose. cbn.
    rewrite (last_op_const (fun i => (property_id p, ENumber (NInteger i)))).
    destruct (decide ((f, ENumber n) ∈ _)) as [Hin|Hin].
    + apply list_elem_of_fmap in Hin as (i & [= -> ->] & Hin). rewrite decide_True; [done|]. split; [done|].
      by apply (list_elem_of_fmap_2 (fun i => ENumber (NInteger i))).
    + rewrite decide_False; [done|]. intros [-> (i & [= ->] & Hin')%list_elem_of_fmap]. apply Hin.
      by apply (list_elem_of_fmap_2 (fun i => (property_id p, ENumber (NInteger i)))).
Qed.

Lemma index_value_op (p : P) o d i f e :
  index_op (index_value p o d i) f e =
  if decide (f = property_id p /\ e ∈ index_entries i) then Some (negb (is_clear o)) else index_op d f e.
Proof.
  destruct i as [t|l|i|l|i|]; cbn [index_value index_entries].
  - apply (index_texts_op p o d [t]).
  - apply index_texts_op.
  - apply (index_integers_op p o d [i]).
  - apply index_integers_op.
  - destruct e as [t|n]; destruct d as [dc di dt dx dn db dg da dl]; cbn [index_op document_number d_text_fields d_number_fields].
    + rewrite decide_False; [done|]. by intros [_ ?%list_elem_of_singleton].
    + rewrite fmap_app, last_op_app. unfold last_op at 1. cbn. case_bool_decide as Hb.
      * injection Hb as <- <-. rewrite decide_True; [done|]. split; [done|]. by apply list_elem_of_singleton.
      * rewrite decide_False; [done|]. intros [-> [= ->]%list_elem_of_singleton]. done.
  - rewrite decide_False; [done|]. by intros [_ ?%elem_of_nil].
Qed.

Lemma index_value_rest (p : P) o d i : same_rest d (index_value p o d i).
Proof.
  destruct i; cbn [index_value]; [by destruct d|apply index_texts_fields|by destruct d|apply index_integers_fields|by destruct d|done].
Qed.

(** The entries of a property. *)
Definition entries (p : P) (v : option V) : list entry :=
  match find_indexed p, v with Some _, Some v => index_entries (index_as v) | _, _ => [] end.

Lemma find_indexed_set (p : P) o : find_indexed p = Some o -> is_clear o = false.
Proof.
  unfold find_indexed. destruct (find _ _) as [[q o']|] eqn:E; [|done]. intros [= <-].
  apply List.find_some in E as [Hin _]. pose proof indexed_set as Hs. rewrite List.Forall_forall in Hs. apply (Hs _ Hin).
Qed.

(** An entry is there after the operations of a document. *)
Definition applied (before : Prop) (op : option bool) : Prop := match op with Some b => b = true | None => before end.
#[export] Instance applied_proper : Proper (iff ==> eq ==> iff) applied.
Proof. intros P1 P2 HP o ? <-. by destruct o. Qed.

(** Document [d'] brings property [p] from value [v] to value [v'] and leaves the rest alone. *)
Definition moves (p : P) (d d' : Document) (v v' : option V) : Prop :=
  same_rest d d' /\
  (forall f e, f <> property_id p -> index_op d' f e = index_op d f e) /\
  ((forall e, index_op d (property_id p) e = None) ->
   forall e, e ∈ entries p v' <-> applied (e ∈ entries p v) (index_op d' (property_id p) e)).

Lemma replace_moves (p : P) d v new (b : bool) :
  b = (match find_indexed p with Some _ => negb (is_null (index_as new)) | None => negb (value_is_empty new) end) ->
  moves p d
    (match find_indexed p with
     | Some o => index_value p o (match v with Some cur => index_value p (opt_clear o) d (index_as cur) | None => d end) (index_as new)
     | None => d end)
    v (if b then Some new else None).
Proof.
  intros Hb. destruct (find_indexed p) as [o|] eqn:Ho.
  - pose proof (find_indexed_set p o Ho) as Hset. split; [|split].
    + etrans; [|apply index_value_rest]. destruct v; [apply index_value_rest|done].
    + intros f e Hf. rewrite index_value_op, decide_False by tauto. destruct v; [|done].
      by rewrite index_value_op, decide_False by tauto.
    + intros Hnone e. unfold entries. rewrite Ho, index_value_op, Hset. cbn [negb].
      assert (e ∈ match (if b then Some new else None) with Some v => index_entries (index_as v) | None => [] end <->
              e ∈ index_entries (index_as new)) as ->.
      { subst b. destruct (index_as new) eqn:E; cbn; by rewrite ?E. }
      destruct (decide (e ∈ index_entries (index_as new))) as [Hin|Hin].
      * rewrite decide_True by done. cbn. tauto.
      * rewrite decide_False by tauto. split; [done|]. destruct v as [cur|]; [|cbn; rewrite Hnone; cbn; by intros ?%elem_of_nil].
        rewrite index_value_op, opt_clear_is_clear. case_decide as Hc; [done|]. rewrite Hnone. cbn. tauto.
  - split; [done|]. split; [done|]. intros Hnone e. unfold entries. rewrite Ho, Hnone. done.
Qed.

Lemma drop_moves (p : P) d o cur :
  find_indexed p = Some o -> moves p d (index_value p (opt_clear o) d (index_as cur)) (Some cur) None.
Proof.
  intros Ho. split; [apply index_value_rest|]. split.
  - intros f e Hf. by rewrite index_value_op, decide_False by tauto.
  - intros Hnone e. unfold entries. rewrite Ho, index_value_op, opt_clear_is_clear.
    case_decide as Hc; cbn; [by split; [intros ?%elem_of_nil|]|]. rewrite Hnone. cbn. split; [by intros ?%elem_of_nil|tauto].
Qed.

(** Lists: [add] indexes the items [g x]. *)
Lemma diff_moves {A} `{EqDecision A} (p : P) d o (g : A -> entry) (add : Z -> Document -> list A -> Document) cur new lc ln :
  find_indexed p = Some o -> Inj (=) (=) g ->
  (forall o d l f e, index_op (add o d l) f e =
     if decide (f = property_id p /\ e ∈ (g <$> l)) then Some (negb (is_clear o)) else index_op d f e) ->
  (forall o d l, same_rest d (add o d l)) ->
  index_entries (index_as cur) = g <$> lc -> index_entries (index_as new) = g <$> ln ->
  moves p d (diff_list add o d lc ln) (Some cur) (Some new).
Proof.
  intros Ho Hg Hop Hrest Hc Hn. pose proof (find_indexed_set p o Ho) as Hset. unfold diff_list. split; [etrans; apply Hrest|]. split.
  - intros f e Hf. by rewrite !Hop, !decide_False by tauto.
  - intros Hnone e. unfold entries. rewrite Ho, Hc, Hn, !Hop, Hset, opt_clear_is_clear, Hnone. cbn [negb].
    destruct (decide (e ∈ (g <$> ln))) as [(x & -> & Hx)%list_elem_of_fmap|Hin].
    + destruct (decide (x ∈ lc)) as [Hx'|Hx'].
      * rewrite decide_False, decide_False; cbn; [split; intros _; by apply list_elem_of_fmap_2|..].
        -- intros [_ (y & <-%Hg & Hy)%list_elem_of_fmap]. apply list_elem_of_filter in Hy as [Hy _]. done.
        -- intros [_ (y & <-%Hg & Hy)%list_elem_of_fmap]. apply list_elem_of_filter in Hy as [Hy _]. done.
      * rewrite decide_True; cbn; [split; [done|]; intros _; by apply list_elem_of_fmap_2|].
        split; [done|]. apply list_elem_of_fmap_2, list_elem_of_filter. done.
    + rewrite decide_False by (intros [_ (y & -> & Hy)%list_elem_of_fmap]; apply list_elem_of_filter in Hy as [_ Hy];
        by apply Hin, list_elem_of_fmap_2).
      split; [done|]. case_decide as Hd; cbn; [done|]. intros (x & -> & Hx)%list_elem_of_fmap. exfalso. apply Hd.
      split; [done|]. apply list_elem_of_fmap_2, list_elem_of_filter. split; [|done]. intros ?. by apply Hin, list_elem_of_fmap_2.
Qed.

Lemma moves_refl (p : P) d v : moves p d d v v.
Proof. split; [done|]. split; [done|]. intros Hnone e. by rewrite Hnone. Qed.

Lemma vm_drop_spec {W} (m : VecMap P W) p :
  vm_inv m -> vm_inv (vm_drop m p) /\ forall q, vm_get (vm_drop m p) q = if decide (p = q) then None else vm_get m q.
Proof.
  intros Hm. unfold vm_drop, vm_remove. destruct (vm_get m p) as [v|] eqn:E.
  - pose proof E as (i & Hi & Hv)%(vm_get_maps m p v Hm).
    destruct (vm_remove_entry_Some m p i v Hm Hi Hv) as (m' & -> & Hm' & _ & Hmaps). cbn. split; [done|]. intros q.
    apply option_eq. intros w. rewrite vm_get_maps, Hmaps by done. case_decide as Hq.
    + subst. by split; [intros []|].
    + rewrite vm_get_maps by done. split; [by intros []|]. intros ?. split; [done|congruence].
  - assert (vm_remove_entry m p = None) as ->.
    { apply vm_get_None, position_None in E; [|done]. unfold vm_remove_entry. by rewrite E. }
    cbn. split; [done|]. intros q. case_decide as Hq; [by subst|done].
Qed.

Definition merged (st : merge_state) (p : P) (v : option V) (d : Document) (b : bool) : merge_state :=
  mkMerge (match v with Some v => (vm_set (ms_properties st) p v).1 | None => vm_drop (ms_properties st) p end) d b.

Lemma merged_get st p v d b :
  vm_inv (ms_properties st) ->
  vm_inv (ms_properties (merged st p v d b)) /\
  (forall q, vm_get (ms_properties (merged st p v d b)) q = if decide (p = q) then v else vm_get (ms_properties st) q).
Proof.
  intros Hm. destruct v as [v|]; cbn; [|by apply vm_drop_spec].
  split; [by apply vm_set_inv|]. intros q. rewrite vm_set_get by done. by case_decide.
Qed.

(** One change brings its property to a new value, and its index entries too. *)
Lemma merge_property_cases st p new :
  merge_property st (p, new) = st /\ vm_get (ms_properties st) p = Some new \/
  exists v d, merge_property st (p, new) = merged st p v d true /\ moves p (ms_document st) d (vm_get (ms_properties st) p) v.
Proof.
  unfold merge_property.
  set (b := match find_indexed p with Some _ => negb (is_null (index_as new)) | None => negb (value_is_empty new) end).
  pose proof (replace_moves p (ms_document st) (vm_get (ms_properties st) p) new b eq_refl) as Hrep.
  destruct (vm_get (ms_properties st) p) as [cur|] eqn:Ecur.
  2: { right. exists (if b then Some new else None). eexists. split; [|exact Hrep].
       unfold merged, b. destruct (find_indexed p); cbn; [by destruct (is_null _)|by destruct (value_is_empty new)]. }
  case_bool_decide as Heq; [left; by subst|]. right.
  destruct (find_indexed p) as [o|] eqn:Ho.
  2: { exists (if b then Some new else None), (ms_document st). split; [|exact Hrep]. unfold merged, b. by destruct (value_is_empty new). }
  destruct (index_as cur) as [t|lc|i|lc|i|] eqn:Ic;
    try (exists (if b then Some new else None); eexists; (split; [|exact Hrep]); unfold merged, b; by destruct (is_null (index_as new))).
  - destruct (index_as new) as [t|ln|i|ln|i|] eqn:In;
      try (exists None; eexists; (split; [done|]); pose proof (drop_moves p (ms_document st) o cur Ho) as Hd; rewrite Ic in Hd; exact Hd).
    exists (Some new). eexists. split; [done|].
    apply (diff_moves p (ms_document st) o EText (index_texts p) cur new lc ln Ho).
    + by intros ?? [= ->].
    + intros. apply index_texts_op.
    + intros. apply index_texts_fields.
    + by rewrite Ic.
    + by rewrite In.
  - destruct (index_as new) as [t|ln|i|ln|i|] eqn:In;
      try (exists None; eexists; (split; [done|]); pose proof (drop_moves p (ms_document st) o cur Ho) as Hd; rewrite Ic in Hd; exact Hd).
    exists (Some new). eexists. split; [done|].
    apply (diff_moves p (ms_document st) o (fun i => ENumber (NInteger i)) (index_integers p) cur new lc ln Ho).
    + by intros ?? [= ->].
    + intros. apply index_integers_op.
    + intros. apply index_integers_fields.
    + by rewrite Ic.
    + by rewrite In.
Qed.

(** All changes. *)
Record merging (old : VecMap P V) (d0 : Document) (todo : list P) (st : merge_state) : Prop := {
  mg_inv : vm_inv (ms_properties st);
  mg_rest : same_rest d0 (ms_document st);
  mg_todo p e : p ∈ todo -> index_op (ms_document st) (property_id p) e = None /\ vm_get (ms_properties st) p = vm_get old p;
  mg_moved p e : e ∈ entries p (vm_get (ms_properties st) p) <->
    applied (e ∈ entries p (vm_get old p)) (index_op (ms_document st) (property_id p) e);
  mg_other f e : (forall p, f <> property_id p) -> index_op (ms_document st) f e = index_op d0 f e }.

Lemma merge_property_merging old d0 p new todo st :
  merging old d0 (p :: todo) st -> p ∉ todo -> merging old d0 todo (merge_property st (p, new)).
Proof.
  intros Hst Hp. destruct (merge_property_cases st p new) as [[-> Hg]|(v & d & -> & Hrest & Hother & Hmoved)].
  - destruct Hst as [Hi Hr Ht Hm Ho]. split; try done. intros q e Hq. apply Ht. by right.
  - destruct (merged_get st p v d true (mg_inv _ _ _ _ Hst)) as [Hinv Hget].
    assert (forall q e, q <> p -> index_op d (property_id q) e = index_op (ms_document st) (property_id q) e) as Hq.
    { intros q e Hq. apply Hother. intros ?%property_id_inj. done. }
    split; [done|by etrans; [apply (mg_rest _ _ _ _ Hst)|]| | |].
    + intros q e Hin. assert (q <> p) as Hne by congruence. rewrite Hget, decide_False by done. cbn [merged ms_document].
      rewrite Hq by done. apply (mg_todo _ _ _ _ Hst q e). by right.
    + intros q e. rewrite Hget. cbn [merged ms_document]. destruct (decide (p = q)) as [<-|Hne].
      * assert (forall e, index_op (ms_document st) (property_id p) e = None /\ vm_get (ms_properties st) p = vm_get old p) as Htodo.
        { intros e'. apply (mg_todo _ _ _ _ Hst). by left. }
        rewrite Hmoved by (intros e'; apply Htodo). by rewrite (proj2 (Htodo e)).
      * rewrite Hq by done. apply (mg_moved _ _ _ _ Hst).
    + intros f e Hf. cbn [merged ms_document]. rewrite Hother by apply Hf. by apply (mg_other _ _ _ _ Hst).
Qed.

Lemma merge_changed st l :
  let st' := fold_left merge_property l st in ms_changed st' = false -> st' = st.
Proof.
  revert st. induction l as [|[p v] l IH]; intros st; cbn [fold_left]; [done|]. cbn zeta. intros Hc.
  pose proof (IH _ Hc) as E. destruct (merge_property_cases st p v) as [[E' _]|(w & d & E' & _)].
  - by rewrite E, E'.
  - rewrite E, E' in Hc. done.
Qed.

Lemma merge_properties_merging old d0 l st :
  merging old d0 l.*1 st -> NoDup l.*1 -> merging old d0 [] (fold_left merge_property l st).
Proof.
  revert st. induction l as [|[p v] l IH]; intros st Hst Hnd; [done|]. cbn [fold_left].
  apply NoDup_cons in Hnd as [Hp Hnd]. apply IH; [|done]. by apply merge_property_merging.
Qed.

(** The value that a property has after a change: the new one, or none. A
    value that can be kept is kept unless it takes the place of a list. *)
Definition keeps (p : P) (v : V) : bool :=
  match find_indexed p with Some _ => negb (is_null (index_as v)) | None => negb (value_is_empty v) end.
Definition scalar (v : V) : bool := match index_as v with ITextList _ | IIntegerList _ => false | _ => true end.

Lemma merge_property_value st p new :
  (exists v d b, merge_property st (p, new) = merged st p v d b /\ (v = Some new \/ v = None) /\
    (keeps p new = true -> from_option scalar true (vm_get (ms_properties st) p) = true -> v = Some new) /\
    (keeps p new = false -> v = None)) \/
  merge_property st (p, new) = st /\ vm_get (ms_properties st) p = Some new.
Proof.
  unfold merge_property, keeps, scalar.
  assert (Hyes : forall d (k s : bool), k = true -> exists v d' b, mkMerge (vm_set (ms_properties st) p new).1 d true = merged st p v d' b /\
    (v = Some new \/ v = None) /\ (k = true -> s = true -> v = Some new) /\ (k = false -> v = None)).
  { intros d k s' ->. exists (Some new), d, true. split_and!; by auto. }
  assert (Hno : forall d (k s : bool), k && s = false -> exists v d' b, mkMerge (vm_drop (ms_properties st) p) d true = merged st p v d' b /\
    (v = Some new \/ v = None) /\ (k = true -> s = true -> v = Some new) /\ (k = false -> v = None)).
  { intros d k s' Hk. exists None, d, true. split_and!; auto. by intros -> ->. }
  destruct (vm_get (ms_properties st) p) as [cur|] eqn:Ecur; [case_bool_decide as Heq; [right; by subst|]|]; left.
  - destruct (find_indexed p) as [o|].
    + cbn [from_option]. destruct (index_as cur).
      all: try (destruct (is_null (index_as new)) eqn:En; cbn [negb]; [by apply Hno|by apply Hyes]).
      * destruct (index_as new); cbn; by first [apply Hyes|apply Hno].
      * destruct (index_as new); cbn; by first [apply Hyes|apply Hno].
    + destruct (value_is_empty new); cbn [negb]; [by apply Hno|by apply Hyes].
  - destruct (find_indexed p) as [o|]; [destruct (is_null (index_as new))|destruct (value_is_empty new)]; cbn [negb];
      by first [apply Hyes|apply Hno].
Qed.

Lemma merge_properties_get l st p :
  vm_inv (ms_properties st) -> NoDup l.*1 ->
  let st' := fold_left merge_property l st in
  vm_inv (ms_properties st') /\
  (p ∉ l.*1 -> vm_get (ms_properties st') p = vm_get (ms_properties st) p) /\
  (forall v, (p, v) ∈ l ->
    (vm_get (ms_properties st') p = Some v \/ vm_get (ms_properties st') p = None) /\
    (keeps p v = true -> from_option scalar true (vm_get (ms_properties st) p) = true -> vm_get (ms_properties st') p = Some v) /\
    (keeps p v = false -> vm_get (ms_properties st) p <> Some v -> vm_get (ms_properties st') p = None)).
Proof.
  cbn zeta. revert st. induction l as [|[q w] l IH]; intros st Hst Hnd; cbn [fold_left].
  { split_and!; [done..|]. intros v Hv. by apply elem_of_nil in Hv. }
  apply NoDup_cons in Hnd as [Hq Hnd]. set (st1 := merge_property st (q, w)).
  assert (vm_inv (ms_properties st1) /\ (p <> q -> vm_get (ms_properties st1) p = vm_get (ms_properties st) p) /\
    (vm_get (ms_properties st1) q = Some w \/ vm_get (ms_properties st1) q = None) /\
    (keeps q w = true -> from_option scalar true (vm_get (ms_properties st) q) = true -> vm_get (ms_properties st1) q = Some w) /\
    (keeps q w = false -> vm_get (ms_properties st) q <> Some w -> vm_get (ms_properties st1) q = None)) as (I1 & I2 & I3 & I4 & I5).
  { unfold st1. destruct (merge_property_value st q w) as [(v & d & b & -> & Hv & Hk & Hn)|[-> Hg]]; [|split_and!; by auto].
    destruct (merged_get st q v d b Hst) as [M1 M2]. split_and!; [done|..]; rewrite ?M2; intros; rewrite ?decide_True by done; auto.
    by rewrite decide_False by congruence. }
  destruct (IH _ I1 Hnd) as (J1 & J2 & J3). split_and!; [done|..].
  - intros [Hp Hl]%not_elem_of_cons. rewrite J2 by done. auto.
  - intros v [[= -> ->]|Hin]%elem_of_cons.
    + rewrite J2 by done. done.
    + assert (p <> q) as Hne by (intros ->; apply Hq; by apply (list_elem_of_fmap_2 fst _ (q, v))).
      rewrite <- (I2 Hne). by apply J3.
Qed.

(** ** Tags *)

(** The part of a document besides tags. *)
Definition same_but_tags (d d' : Document) : Prop :=
  d_collection d' = d_collection d /\ d_document_id d' = d_document_id d /\ d_term_index d' = d_term_index d /\
  d_text_fields d' = d_text_fields d /\ d_number_fields d' = d_number_fields d /\
  d_binary_fields d' = d_binary_fields d /\ d_acls d' = d_acls d /\ d_blobs d' = d_blobs d.

#[export] Instance same_but_tags_preorder : PreOrder same_but_tags.
Proof.
  split; [done|]. intros d1 d2 d3 (? & ? & ? & ? & ? & ? & ? & ?) (? & ? & ? & ? & ? & ? & ? & ?).
  repeat split; congruence.
Qed.

Lemma tag_document_op (p : P) o d l f t :
  tag_op (tag_document p o d l) f t =
  if decide (f = property_id p /\ t ∈ l) then Some (negb (is_clear o)) else tag_op d f t.
Proof.
  assert (d_tag_fields (tag_document p o d l) = d_tag_fields d ++ ((fun t => mkField (property_id p) o t) <$> l)) as E.
  { revert d. induction l as [|x l IH]; intros d; [by cbn; rewrite app_nil_r|].
    change (tag_document p o d (x :: l)) with (tag_document p o (document_tag d (property_id p) x o) l).
    rewrite IH. destruct d. cbn. by rewrite <- app_assoc. }
  unfold tag_op. rewrite E, fmap_app, last_op_app. unfold tag_entry at 1. rewrite <- list_fmap_compose. unfold compose. cbn.
  rewrite (last_op_const (fun t => (property_id p, t))). destruct (decide ((f, t) ∈ _)) as [Hin|Hin].
  - apply list_elem_of_fmap in Hin as (x & [= -> ->] & Hin). by rewrite decide_True.
  - rewrite decide_False; [done|]. intros [-> Ht]. apply Hin. by apply (list_elem_of_fmap_2 (fun t => (property_id p, t))).
Qed.

Lemma tag_document_rest (p : P) o d l : same_but_tags d (tag_document p o d l).
Proof.
  revert d. induction l as [|x l IH]; intros d; [done|].
  change (tag_document p o d (x :: l)) with (tag_document p o (document_tag d (property_id p) x o) l).
  etrans; [|apply IH]. by destruct d.
Qed.

(** A loop over the properties of a map that tags [g p s]. *)
Definition tag_loop (g : P -> gset Tag -> list Tag) (o : Z) (l : list (P * gset Tag)) (d : Document) : Document :=
  fold_left (fun d ps => tag_document ps.1 o d (g ps.1 ps.2)) l d.

Lemma tag_loop_op g o l d (q : P) t :
  ((exists s, (q, s) ∈ l /\ t ∈ g q s) -> tag_op (tag_loop g o l d) (property_id q) t = Some (negb (is_clear o))) /\
  (~ (exists s, (q, s) ∈ l /\ t ∈ g q s) -> tag_op (tag_loop g o l d) (property_id q) t = tag_op d (property_id q) t).
Proof.
  revert d. induction l as [|[p s] l IH]; intros d.
  - split; [|done]. by intros (s & ?%elem_of_nil & _).
  - change (tag_loop g o ((p, s) :: l) d) with (tag_loop g o l (tag_document p o d (g p s))).
    destruct (IH (tag_document p o d (g p s))) as [IH1 IH2]. split.
    + intros (s' & [[= -> ->]|Hin]%elem_of_cons & Ht); [|apply IH1; eauto].
      destruct (decide (Exists (fun ps => ps.1 = p /\ t ∈ g p ps.2) l)) as [He|He].
      * apply Exists_exists in He as ([p' s'] & Hin & Hp & Ht'). cbn in Hp, Ht'. subst p'. apply IH1. eauto.
      * rewrite IH2; [by rewrite tag_document_op, decide_True|]. intros (s' & Hin & Ht'). apply He.
        apply Exists_exists. exists (p, s'). done.
    + intros Hn. rewrite IH2, tag_document_op, decide_False; [done| |].
      * intros [<-%property_id_inj Ht]. apply Hn. exists s. split; [by left|done].
      * intros (s' & Hin & Ht). apply Hn. exists s'. split; [by right|done].
Qed.

Lemma tag_loop_rest g o l d : same_but_tags d (tag_loop g o l d).
Proof.
  revert d. induction l as [|[p s] l IH]; intros d; [done|].
  change (tag_loop g o ((p, s) :: l) d) with (tag_loop g o l (tag_document p o d (g p s))).
  etrans; [apply tag_document_rest|apply IH].
Qed.

Definition cleared_tags (m' : VecMap P (gset Tag)) (p : P) (s : gset Tag) : list Tag :=
  match vm_get m' p with
  | Some s' => if bool_decide (s = s') then [] else filter (fun t => t ∉ s') (elements s)
  | None => []
  end.
Definition added_tags (m : VecMap P (gset Tag)) (p : P) (s' : gset Tag) : list Tag :=
  match vm_get m p with
  | Some s => if bool_decide (s' = s) then [] else filter (fun t => t ∉ s) (elements s')
  | None => elements s'
  end.

Lemma clear_tags_loop m m' d : clear_tags m m' d = tag_loop (cleared_tags m') (opt_clear F_NONE) (vm_iter m) d.
Proof.
  unfold clear_tags, tag_loop. generalize (vm_iter m). intros l. revert d.
  induction l as [|[p s] l IH]; intros d; [done|]. cbn [fold_left fst snd]. rewrite <- IH. f_equal.
  unfold cleared_tags. destruct (vm_get m' p); [|done]. by case_bool_decide.
Qed.
Lemma add_tags_loop m m' d : add_tags m m' d = tag_loop (added_tags m) F_NONE (vm_iter m') d.
Proof.
  unfold add_tags, tag_loop. generalize (vm_iter m'). intros l. revert d.
  induction l as [|[p s] l IH]; intros d; [done|]. cbn [fold_left fst snd]. rewrite <- IH. f_equal.
  unfold added_tags. destruct (vm_get m p); [|done]. by case_bool_decide.
Qed.

(** Clearing and adding brings the tags of a property from one map to the
    other, if the other map has the property at all. *)
Lemma merge_tags_op m m' d (p : P) t :
  vm_inv m -> vm_inv m' -> (forall p, p ∈ vm_k m -> p ∈ vm_k m') -> tag_op d (property_id p) t = None ->
  t ∈ default ∅ (vm_get m' p) <->
  applied (t ∈ default ∅ (vm_get m p)) (tag_op (add_tags m m' (clear_tags m m' d)) (property_id p) t).
Proof.
  intros Hm Hm' Hsub Hd. rewrite add_tags_loop, clear_tags_loop.
  pose proof (tag_loop_op (added_tags m) F_NONE (vm_iter m') (tag_loop (cleared_tags m') (opt_clear F_NONE) (vm_iter m) d) p t) as [A1 A2].
  pose proof (tag_loop_op (cleared_tags m') (opt_clear F_NONE) (vm_iter m) d p t) as [C1 C2]. rewrite opt_clear_is_clear in C1.
  destruct (vm_get m' p) as [s'|] eqn:E'; cbn [default].
  - destruct (decide (t ∈ added_tags m p s')) as [Ha|Ha].
    + rewrite A1 by (exists s'; by rewrite vm_iter_elem). cbn. split; [done|]. intros _. revert Ha. unfold added_tags.
      destruct (vm_get m p) as [s|]; [case_bool_decide; [by intros ?%elem_of_nil|]|].
      * by intros [_ ?%elem_of_elements]%list_elem_of_filter.
      * by intros ?%elem_of_elements.
    + rewrite A2 by (intros (s & Hs & Ht); rewrite vm_iter_elem in Hs by done; congruence).
      unfold added_tags in Ha. destruct (vm_get m p) as [s|] eqn:E; cbn [default].
      2: { rewrite C2, Hd by (intros (s & Hs & _); rewrite vm_iter_elem in Hs by done; congruence).
           cbn. rewrite <- elem_of_elements. split; [done|by intros ?%elem_of_empty]. }
      destruct (decide (t ∈ cleared_tags m' p s)) as [Hc|Hc].
      * rewrite C1 by (exists s; by rewrite vm_iter_elem). cbn. split; [|done]. intros Hin. revert Hc. unfold cleared_tags. rewrite E'.
        destruct (bool_decide (s = s')); [by intros ?%elem_of_nil|]. by intros [? _]%list_elem_of_filter.
      * rewrite C2, Hd by (intros (s1 & Hs & ?); rewrite vm_iter_elem in Hs by done; congruence). cbn.
        unfold cleared_tags in Hc. rewrite E' in Hc. destruct (decide (s = s')) as [->|Hne]; [done|].
        rewrite bool_decide_eq_false_2 in Hc by done. rewrite bool_decide_eq_false_2 in Ha by congruence.
        split.
        -- intros Hin. destruct (decide (t ∈ s)); [done|]. exfalso. apply Ha, list_elem_of_filter. by rewrite elem_of_elements.
        -- intros Hin. destruct (decide (t ∈ s')); [done|]. exfalso. apply Hc, list_elem_of_filter. by rewrite elem_of_elements.
  - assert (vm_get m p = None) as E. { apply vm_get_None in E'; [|done]. apply vm_get_None; [done|]. auto. }
    rewrite A2, C2, Hd, E by (intros (s & Hs & _); rewrite vm_iter_elem in Hs by done; congruence). done.
Qed.

(** ** Rights *)

Definition rights (l : list Permission) (id : AccountId) : option Z :=
  (fun ip => perm_acl ip.2) <$> list_find (fun p => perm_id p = id) l.

Definition same_but_acls (d d' : Document) : Prop :=
  d_collection d' = d_collection d /\ d_document_id d' = d_document_id d /\ d_term_index d' = d_term_index d /\
  d_text_fields d' = d_text_fields d /\ d_number_fields d' = d_number_fields d /\
  d_binary_fields d' = d_binary_fields d /\ d_tag_fields d' = d_tag_fields d /\ d_blobs d' = d_blobs d.

#[export] Instance same_but_acls_preorder : PreOrder same_but_acls.
Proof.
  split; [done|]. intros d1 d2 d3 (? & ? & ? & ? & ? & ? & ? & ?) (? & ? & ? & ? & ? & ? & ? & ?).
  repeat split; congruence.
Qed.

Lemma acl_document_fields o d l :
  d_acls (acl_document o d l) = d_acls d ++ ((fun a => (a, o)) <$> l) /\ same_but_acls d (acl_document o d l).
Proof.
  revert d. induction l as [|a l IH]; intros d; [cbn; by rewrite app_nil_r|].
  change (acl_document o d (a :: l)) with (acl_document o (document_acl d a o) l).
  destruct (IH (document_acl d a o)) as (E1 & E2). rewrite E1. destruct d. cbn. rewrite <- app_assoc. done.
Qed.

Lemma rights_Some l id acl :
  NoDup (perm_id <$> l) -> rights l id = Some acl <-> mkPermission id acl ∈ l.
Proof.
  intros Hnd. unfold rights. rewrite fmap_Some. split.
  - intros ([i [id' acl']] & (Hl & Hid & _)%list_find_Some & E). cbn in *. subst. by apply list_elem_of_lookup_2 in Hl.
  - intros (i & Hi)%list_elem_of_lookup. exists (i, mkPermission id acl). split; [|done]. apply list_find_Some. split; [done|].
    split; [done|]. intros j y Hj Hlt E. assert (j = i); [|lia].
    eapply (NoDup_lookup _ _ _ id Hnd); rewrite list_lookup_fmap; [by rewrite Hj; cbn; rewrite E|by rewrite Hi].
Qed.

Lemma rights_None l id : rights l id = None <-> id ∉ (perm_id <$> l).
Proof.
  unfold rights. rewrite fmap_None, list_find_None, Forall_forall. split.
  - intros Hn (p & -> & Hp)%list_elem_of_fmap. by apply (Hn p).
  - intros Hn p Hp <-. by apply Hn, list_elem_of_fmap_2.
Qed.

Lemma last_acl_set o l id :
  is_clear o = false -> NoDup (perm_id <$> l) ->
  last_op (acl_entry <$> ((fun a => (a, o)) <$> l)) id = Some <$> rights l id.
Proof.
  intros Ho. induction l as [|p l IH] using rev_ind; intros Hnd; [done|].
  pose proof Hnd as Hall. rewrite fmap_app in Hnd. apply NoDup_app in Hnd as (Hnd & _ & _).
  rewrite !fmap_app, last_op_app, IH by done. unfold last_op at 1. cbn. rewrite Ho. case_bool_decide as Hp.
  - subst id. assert (rights (l ++ [p]) (perm_id p) = Some (perm_acl p)) as ->; [|done].
    apply rights_Some; [done|]. destruct p. apply elem_of_app. right. by apply list_elem_of_singleton.
  - f_equal. apply option_eq. intros acl. rewrite !rights_Some, elem_of_app, list_elem_of_singleton by done.
    split; [by left|]. intros [?|<-]; [done|]. by destruct Hp.
Qed.

Lemma last_acl o del l id :
  is_clear o = del -> NoDup (perm_id <$> l) ->
  last_op (acl_entry <$> ((fun a => (a, o)) <$> l)) id = (fun acl => if del then None else Some acl) <$> rights l id.
Proof.
  intros Ho Hnd. destruct del; [|rewrite last_acl_set by done; by destruct (rights l id)].
  rewrite <- list_fmap_compose. unfold compose, acl_entry. cbn. rewrite Ho, last_op_const.
  destruct (rights l id) as [acl|] eqn:Er; cbn.
  - rewrite decide_True; [done|]. apply rights_Some in Er; [|done]. by apply (list_elem_of_fmap_2 perm_id _ (mkPermission id acl)).
  - apply rights_None in Er. by rewrite decide_False.
Qed.

Lemma merge_acls_op l l' d id :
  NoDup (perm_id <$> l) -> NoDup (perm_id <$> l') -> acl_op d id = None ->
  rights l' id =
  default (rights l id) (acl_op (acl_document F_NONE
    (acl_document (opt_clear F_NONE) d (filter (fun acl => Forall (fun ca => perm_id ca <> perm_id acl) l') l))
    (filter (fun acl => acl ∉ l) l')) id).
Proof.
  intros Hl Hl' Hd. unfold acl_op. rewrite (proj1 (acl_document_fields _ _ _)), fmap_app, last_op_app.
  assert (NoDup (perm_id <$> filter (fun acl => acl ∉ l) l')) as Hf.
  { by apply NoDup_fmap_filter. }
  rewrite last_acl_set by done. destruct (rights (filter (fun acl => acl ∉ l) l') id) as [acl|] eqn:Ea; cbn.
  - apply rights_Some in Ea; [|done]. apply list_elem_of_filter in Ea as [_ Ea]. by apply rights_Some.
  - apply rights_None in Ea. rewrite (proj1 (acl_document_fields _ _ _)), fmap_app, last_op_app.
    rewrite <- list_fmap_compose. unfold compose, acl_entry at 1. cbn. rewrite opt_clear_is_clear, last_op_const.
    destruct (rights l' id) as [acl|] eqn:E'.
    + apply rights_Some in E'; [|done]. destruct (decide (mkPermission id acl ∈ l)) as [Hin|Hin].
      * rewrite decide_False; [change (last_op _ _) with (acl_op d id); rewrite Hd; cbn; symmetry; by apply rights_Some|].
        intros (p & -> & Hp)%list_elem_of_fmap. apply list_elem_of_filter in Hp as [Hp _]. rewrite Forall_forall in Hp. by apply (Hp _ E').
      * exfalso. apply Ea. apply (list_elem_of_fmap_2 perm_id _ (mkPermission id acl)), list_elem_of_filter. done.
    + destruct (rights l id) as [acl|] eqn:El; cbn.
      * rewrite decide_True; [done|]. apply rights_Some in El; [|done].
        apply (list_elem_of_fmap_2 perm_id _ (mkPermission id acl)), list_elem_of_filter. split; [|done].
        apply rights_None in E'. apply Forall_forall. intros ca Hca E. cbn in E. subst. by apply E', list_elem_of_fmap_2.
      * rewrite decide_False; [change (last_op _ _) with (acl_op d id); by rewrite Hd|].
        apply rights_None in El. intros (p & -> & [_ Hp]%list_elem_of_filter)%list_elem_of_fmap. by apply El, list_elem_of_fmap_2.
Qed.
End Documents.

(** ** Objects and what the store holds of them *)

(** A specification of what a document asks of the store: whole index entries,
    tags, rights and the serialized object. [OrmStore] relates it to the keys
    of the store. *)
Record stored := mkStored {
  st_index : FieldId -> entry -> Prop; st_tag : FieldId -> Tag -> Prop; st_acl : AccountId -> option Z;
  st_object : option (list Z) }.

Definition apply_document (s : stored) (d : Document) : stored :=
  mkStored (fun f e => applied (st_index s f e) (index_op d f e)) (fun f t => applied (st_tag s f t) (tag_op d f t))
    (fun id => default (st_acl s id) (acl_op d id)) (default (st_object s) (binary_op d FIELD_ID)).

Definition stored_empty : stored := mkStored (fun _ _ => False) (fun _ _ => False) (fun _ => None) None.

Section Refinement.
Context `{ObjectLaws P V} `{OrmCodec P V}.
Abbreviation TinyORM := (TinyORM P V).

Record orm_inv (o : TinyORM) : Prop := {
  inv_properties : vm_inv (properties o);
  inv_tags : vm_inv (tags o);
  inv_acls : NoDup (perm_id <$> acls o) }.

(** What is asked for is an object. *)
Record holds (s : stored) (o : TinyORM) : Prop := {
  holds_index p e : st_index s (property_id p) e <-> e ∈ entries p (orm_get o p);
  holds_tags p t : st_tag s (property_id p) t <-> t ∈ default ∅ (get_tags o p);
  holds_acls id : st_acl s id = rights (acls o) id;
  holds_object : st_object s = orm_serialize o }.

Lemma insert_orm_fields (o : TinyORM) d d' :
  insert_orm o d = Some d' ->
  (forall f e, index_op d' f e = index_op d f e) /\ (forall f t, tag_op d' f t = tag_op d f t) /\
  (forall id, acl_op d' id = acl_op d id) /\ binary_op d' FIELD_ID = Some (orm_serialize o).
Proof.
  unfold insert_orm. destruct (orm_serialize o) as [bytes|]; [|done]. intros [= <-]. destruct d as [dc di dt dx dn db dg da dl].
  split; [by intros ? []|]. split; [done|]. split; [done|]. unfold binary_op.
  cbn [document_binary d_binary_fields]. by rewrite fmap_app, last_op_app.
Qed.

(** The parts of a merge: what the document does to index entries, tags and rights. *)
Record merge_parts (o changes o1 : TinyORM) (d : Document) : Prop := {
  mp_inv : orm_inv o1;
  mp_index p e : e ∈ entries p (orm_get o1 p) <-> applied (e ∈ entries p (orm_get o p)) (index_op d (property_id p) e);
  mp_tags p t : t ∈ default ∅ (get_tags o1 p) <-> applied (t ∈ default ∅ (get_tags o p)) (tag_op d (property_id p) t);
  mp_acls id : rights (acls o1) id = default (rights (acls o) id) (acl_op d id) }.

Lemma merge_parts_of (o changes : TinyORM) c i st d1 d2 (td ad : bool) :
  orm_inv o -> orm_inv changes -> (forall p, p ∈ vm_k (tags o) -> p ∈ vm_k (tags changes)) ->
  merging (properties o) (document_new c i) [] st ->
  td = negb (bool_decide (tags o = tags changes)) -> ad = negb (bool_decide (acls o = acls changes)) ->
  d1 = (if td then add_tags (tags o) (tags changes) (clear_tags (tags o) (tags changes) (ms_document st)) else ms_document st) ->
  d2 = (if ad then
          acl_document F_NONE
            (acl_document (opt_clear F_NONE) d1
              (filter (fun acl => Forall (fun ca => perm_id ca <> perm_id acl) (acls changes)) (acls o)))
            (filter (fun acl => acl ∉ acls o) (acls changes))
        else d1) ->
  merge_parts o changes
    (mkOrm (ms_properties st) (if td then tags changes else tags o) (if ad then acls changes else acls o)) d2.
Proof.
  intros Ho Hc Htags Hst Htd Had Hd1 Hd2.
  assert (same_but_tags (ms_document st) d1) as R1.
  { subst d1. destruct td; [|done]. rewrite add_tags_loop, clear_tags_loop. etrans; apply tag_loop_rest. }
  assert (same_but_acls d1 d2) as R2.
  { subst d2. destruct ad; [|done]. etrans; apply acl_document_fields. }
  destruct (mg_rest _ _ _ _ Hst) as (_ & _ & _ & _ & Etag & Eacl & _), R1 as (_ & _ & _ & Ex1 & En1 & _ & Ea1 & _),
    R2 as (_ & _ & _ & Ex2 & En2 & _ & Et2 & _). split.
  - split; cbn; [apply Hst|destruct td; [apply Hc|apply Ho]|destruct ad; [apply Hc|apply Ho]].
  - intros p e. unfold orm_get. cbn [properties]. rewrite (mg_moved _ _ _ _ Hst p e).
    assert (index_op d2 (property_id p) e = index_op (ms_document st) (property_id p) e) as ->; [|done].
    unfold index_op. destruct e; congruence.
  - intros p t. assert (tag_op d2 (property_id p) t = tag_op d1 (property_id p) t) as -> by (unfold tag_op; congruence).
    assert (tag_op (ms_document st) (property_id p) t = None) as Hnone by (unfold tag_op; by rewrite Etag).
    subst d1. unfold get_tags. destruct td; cbn [tags]; [|by rewrite Hnone].
    apply merge_tags_op; [apply Ho|apply Hc|done|done].
  - intros id. assert (acl_op d1 id = None) as Hnone by (unfold acl_op; by rewrite Ea1, Eacl).
    subst d2. destruct ad; cbn [acls]; [|by rewrite Hnone]. apply merge_acls_op; [apply Ho|apply Hc|done].
Qed.

(** A property after a merge. *)
Lemma orm_merge_get (o changes o' : TinyORM) d d' b p :
  vm_inv (properties o) -> vm_inv (properties changes) -> orm_merge o d changes = Some (o', d', b) ->
  vm_inv (properties o') /\
  match orm_get changes p with
  | None => orm_get o' p = orm_get o p
  | Some v => (orm_get o' p = Some v \/ orm_get o' p = None) /\
      (keeps p v = true -> from_option scalar true (orm_get o p) = true -> orm_get o' p = Some v) /\
      (keeps p v = false -> orm_get o p <> Some v -> orm_get o' p = None)
  end.
Proof.
  intros Ho Hc Hm. assert (properties o' = ms_properties (fold_left merge_property (vm_iter (properties changes)) (mkMerge (properties o) d false))) as Hp.
  { revert Hm. unfold orm_merge. destruct (_ || _); [|by intros [= <- <- <-]]. destruct (insert_orm _ _); [|done]. by intros [= <- <- <-]. }
  pose proof (vm_iter_keys _ (vm_inv_length _ Hc)) as Hk.
  destruct (merge_properties_get (vm_iter (properties changes)) (mkMerge (properties o) d false) p) as (J1 & J2 & J3); [done|rewrite Hk; apply Hc|].
  unfold orm_get. rewrite Hp, Hk in *. split; [done|]. destruct (vm_get (properties changes) p) as [v|] eqn:Ev.
  - apply J3. by apply vm_iter_elem.
  - apply J2. by apply vm_get_None.
Qed.

(** An object merged with changes, as the document says. *)
Lemma orm_merge_holds (o changes o' : TinyORM) c i d changed s :
  orm_inv o -> orm_inv changes -> (forall p, p ∈ vm_k (tags o) -> p ∈ vm_k (tags changes)) ->
  orm_merge o (document_new c i) changes = Some (o', d, changed) -> holds s o ->
  orm_inv o' /\ holds (apply_document s d) o' /\ (changed = false -> o' = o /\ d = document_new c i).
Proof.
  intros Ho Hc Htags Hm Hs. unfold orm_merge in Hm.
  set (st := fold_left merge_property (vm_iter (properties changes)) _) in Hm.
  assert (merging (properties o) (document_new c i) [] st) as Hst.
  { apply merge_properties_merging; [|rewrite vm_iter_keys by apply Hc; apply Hc].
    split; cbn; [apply Ho|done|by intros p []|by intros p []|done]. }
  set (td := negb (bool_decide (tags o = tags changes))) in *. set (d1 := if td then _ else ms_document st) in Hm.
  set (ad := negb (bool_decide (acls o = acls changes))) in *. set (d2 := if ad then _ else d1) in Hm.
  pose proof (merge_parts_of o changes c i st d1 d2 td ad Ho Hc Htags Hst eq_refl eq_refl eq_refl eq_refl) as [Hinv Hi Ht Ha].
  set (o1 := mkOrm _ _ _) in *. destruct (ms_changed st || td || ad) eqn:Ech.
  - destruct (insert_orm o1 d2) as [d'|] eqn:Ed; [|done]. injection Hm as <- <- <-.
    destruct (insert_orm_fields _ _ _ Ed) as (Ei & Et & Ea & Eb). split; [done|]. split; [|done].
    split; cbn [apply_document st_index st_tag st_acl st_object]; [intros p e; rewrite Ei, Hi, (holds_index _ _ Hs)|intros p t; rewrite Et, Ht, (holds_tags _ _ Hs)|
      intros id; by rewrite Ea, Ha, (holds_acls _ _ Hs)|by rewrite Eb]; done.
  - apply orb_false_iff in Ech as [[Ech Etd]%orb_false_iff Ead]. injection Hm as <- <- <-.
    assert (d2 = document_new c i /\ o1 = o) as [Ed Eo].
    { unfold o1, d2, d1. rewrite Etd, Ead. pose proof (merge_changed _ _ Ech) as Est. fold st in Est. rewrite Est. by destruct o. }
    split; [done|]. rewrite Ed, Eo. split; [|done].
    split; cbn; [intros p e; destruct e; apply Hs|intros p t; apply Hs|intros id; apply Hs|apply Hs].
Qed.

(** ** Inserting and deleting *)

Definition index_step (is_delete : bool) (d : Document) (pv : P * V) : Document :=
  match find_indexed pv.1 with
  | Some options => index_value pv.1 (if is_delete then opt_clear options else options) d (index_as pv.2)
  | None => d
  end.

Lemma index_step_op del d (p : P) v (q : P) e :
  index_op (index_step del d (p, v)) (property_id q) e =
  if decide (p = q /\ e ∈ entries p (Some v)) then Some (negb del) else index_op d (property_id q) e.
Proof.
  unfold index_step, entries. cbn [fst snd]. destruct (find_indexed p) as [o|] eqn:Ho.
  - rewrite index_value_op.
    assert (is_clear (if del then opt_clear o else o) = del) as ->.
    { destruct del; [apply opt_clear_is_clear|by apply find_indexed_set in Ho]. }
    destruct (decide (p = q /\ e ∈ index_entries (index_as v))) as [[-> Hin]|Hin]; [by rewrite decide_True|].
    rewrite decide_False; [done|]. intros [->%property_id_inj Hin']. by apply Hin.
  - rewrite decide_False; [done|]. by intros [_ ?%elem_of_nil].
Qed.

Lemma index_loop_op del l d (q : P) e :
  ((exists v, (q, v) ∈ l /\ e ∈ entries q (Some v)) -> index_op (fold_left (index_step del) l d) (property_id q) e = Some (negb del)) /\
  (~ (exists v, (q, v) ∈ l /\ e ∈ entries q (Some v)) ->
   index_op (fold_left (index_step del) l d) (property_id q) e = index_op d (property_id q) e).
Proof.
  revert d. induction l as [|[p v] l IH]; intros d; cbn [fold_left].
  - split; [|done]. by intros (v & ?%elem_of_nil & _).
  - destruct (IH (index_step del d (p, v))) as [IH1 IH2]. split.
    + intros (v' & [[= -> ->]|Hin]%elem_of_cons & He); [|apply IH1; eauto].
      destruct (decide (Exists (fun pv => pv.1 = p /\ e ∈ entries p (Some pv.2)) l)) as [Hx|Hx].
      * apply Exists_exists in Hx as ([p' v'] & Hin & Hp & He'). cbn in Hp, He'. subst p'. apply IH1. eauto.
      * rewrite IH2; [by rewrite index_step_op, decide_True|]. intros (v' & Hin & He'). apply Hx. apply Exists_exists.
        exists (p, v'). done.
    + intros Hn. rewrite IH2, index_step_op, decide_False; [done| |].
      * intros [-> He]. apply Hn. exists v. split; [by left|done].
      * intros (v' & Hin & He). apply Hn. exists v'. split; [by right|done].
Qed.

Lemma index_loop_rest del l d : same_rest d (fold_left (index_step del) l d).
Proof.
  revert d. induction l as [|[p v] l IH]; intros d; [done|]. cbn [fold_left]. etrans; [|apply IH].
  unfold index_step. destruct (find_indexed _); [apply index_value_rest|done].
Qed.

(** An object without indexed properties and tags writes no rights. *)
Definition writes_rights (o : TinyORM) : Prop := indexed = [] -> vm_k (tags o) = [] -> acls o = [].

Lemma update_document_loops (o : TinyORM) d del :
  indexed <> [] \/ vm_k (tags o) <> [] ->
  orm_update_document o d del =
  acl_document (if del then opt_clear F_NONE else F_NONE)
    (tag_loop (fun _ s => elements s) (if del then opt_clear F_NONE else F_NONE) (vm_iter (tags o))
      (fold_left (index_step del) (vm_iter (properties o)) d)) (acls o).
Proof.
  intros Hne. unfold orm_update_document.
  assert (forall (l : list (P * V)) d, fold_left (fun d '(p, v) => match find_indexed p with
    | Some options => index_value p (if del then opt_clear options else options) d (index_as v) | None => d end) l d =
    fold_left (index_step del) l d) as E1.
  { induction l as [|[p v] l IH]; intros d'; [done|]. cbn. by rewrite IH. }
  assert (forall o (l : list (P * gset Tag)) d, fold_left (fun d '(p, s) => tag_document p o d (elements s)) l d =
    tag_loop (fun _ s => elements s) o l d) as E2.
  { intros o'. induction l as [|[p v] l IH]; intros d'; [done|]. cbn. by rewrite IH. }
  destruct indexed as [|x l]; [destruct (vm_k (tags o)) as [|y k] eqn:Ek; [by destruct Hne|]|]; by rewrite E1, E2.
Qed.

(** The operations of an object on its index entries, tags and rights. *)
Definition object_ops (o : TinyORM) (del : bool) (d d' : Document) : Prop :=
  (forall p e, index_op d' (property_id p) e = if decide (e ∈ entries p (orm_get o p)) then Some (negb del) else None) /\
  (forall p t, tag_op d' (property_id p) t = if decide (t ∈ default ∅ (get_tags o p)) then Some (negb del) else None) /\
  (forall id, acl_op d' id = (fun acl => if del then None else Some acl) <$> rights (acls o) id) /\
  d_binary_fields d' = d_binary_fields d.

Lemma update_document_skip (o : TinyORM) d del :
  orm_inv o -> writes_rights o -> (forall f e, index_op d f e = None) -> (forall f t, tag_op d f t = None) ->
  (forall id, acl_op d id = None) -> indexed = [] -> vm_k (tags o) = [] -> object_ops o del d (orm_update_document o d del).
Proof.
  intros Ho Hw Hi Ht Ha Hx Hk. pose proof (Hw Hx Hk) as Hacl. unfold orm_update_document, object_ops. rewrite Hx, Hk. split_and!; [| | |done].
  - intros p e. rewrite Hi. unfold entries, find_indexed. rewrite Hx. cbn. by destruct (decide (e ∈ [])) as [?%elem_of_nil|].
  - intros p t. rewrite Ht. unfold get_tags. rewrite (proj2 (vm_get_None (tags o) p ltac:(apply Ho))) by (rewrite Hk; apply not_elem_of_nil).
    cbn. by rewrite decide_False by apply not_elem_of_empty.
  - intros id. by rewrite Ha, Hacl.
Qed.

(** What a document without earlier operations does for the object. *)
Lemma update_document_ops (o : TinyORM) d del :
  orm_inv o -> writes_rights o -> (forall f e, index_op d f e = None) -> (forall f t, tag_op d f t = None) ->
  (forall id, acl_op d id = None) -> object_ops o del d (orm_update_document o d del).
Proof.
  intros Ho Hw Hi Ht Ha.
  destruct (decide (indexed = [] /\ vm_k (tags o) = [])) as [[Hx Hk]|Hne]; [by apply update_document_skip|].
  unfold object_ops. rewrite update_document_loops by (destruct (decide (indexed = [])); [right; tauto|by left]).
  set (d1 := fold_left (index_step del) _ d).
  set (o' := if del then opt_clear F_NONE else F_NONE).
  assert (is_clear o' = del) as Ho'. { unfold o'. destruct del; [apply opt_clear_is_clear|done]. }
  pose proof (index_loop_rest del (vm_iter (properties o)) d) as (_ & _ & _ & Eb & Et & Ea & _). fold d1 in Eb, Et, Ea.
  pose proof (tag_loop_rest (fun _ s => elements s) o' (vm_iter (tags o)) d1) as (_ & _ & _ & Ex2 & En2 & Eb2 & Ea2 & _).
  set (d2 := tag_loop _ _ _ d1) in *.
  destruct (acl_document_fields o' d2 (acls o)) as (Ea3 & _ & _ & _ & Ex3 & En3 & Eb3 & Et3 & _).
  set (d3 := acl_document o' d2 (acls o)) in *. split_and!; [| | |congruence].
  - intros p e. assert (index_op d3 (property_id p) e = index_op d1 (property_id p) e) as ->.
    { unfold index_op. destruct e; congruence. }
    destruct (index_loop_op del (vm_iter (properties o)) d p e) as [I1 I2]. fold d1 in I1, I2. unfold orm_get.
    destruct (vm_get (properties o) p) as [v|] eqn:Ev.
    * destruct (decide (e ∈ entries p (Some v))) as [He|He].
      -- apply I1. exists v. by rewrite vm_iter_elem by apply Ho.
      -- rewrite I2, Hi; [done|]. intros (v' & Hv' & He'). rewrite vm_iter_elem in Hv' by apply Ho. congruence.
    * rewrite I2, Hi; [|intros (v' & Hv' & He'); rewrite vm_iter_elem in Hv' by apply Ho; congruence].
      unfold entries. by destruct (find_indexed p).
  - intros p t. assert (tag_op d3 (property_id p) t = tag_op d2 (property_id p) t) as -> by (unfold tag_op; congruence).
    assert (tag_op d1 (property_id p) t = None) as Hnone by (unfold tag_op; rewrite Et; apply Ht).
    destruct (tag_loop_op (fun _ s => elements s) o' (vm_iter (tags o)) d1 p t) as [T1 T2]. fold d2 in T1, T2.
    rewrite Ho' in T1. unfold get_tags.
    destruct (decide (t ∈ default ∅ (vm_get (tags o) p))) as [Hin|Hin].
    * destruct (vm_get (tags o) p) as [s|] eqn:Es; [|by apply elem_of_empty in Hin].
      apply T1. exists s. rewrite vm_iter_elem by apply Ho. split; [done|]. by apply elem_of_elements.
    * rewrite T2; [done|]. intros (s & Hs & ?%elem_of_elements). rewrite vm_iter_elem in Hs by apply Ho. apply Hin. by rewrite Hs.
  - intros id. assert (acl_op d2 id = None) as Hnone by (unfold acl_op; rewrite Ea2, Ea; apply Ha).
    unfold acl_op. rewrite Ea3, fmap_app, last_op_app. change (last_op (acl_entry <$> d_acls d2) id) with (acl_op d2 id).
    rewrite Hnone, (last_acl o' del) by (done || apply Ho). by destruct (rights (acls o) id).
Qed.
End Refinement.

(** ** The life of an object

    What the handlers of the object types do to an object before it is
    written. *)
Inductive edit (P V : Type) :=
| ESet (p : P) (v : V) | ERemove (p : P) | ETag (p : P) (t : Tag) | EUntag (p : P) (t : Tag) | EUntagAll (p : P)
| EAclUpdate (id : AccountId) (acl : Z) | EAclSet (id : AccountId) (acl : ACL.t) (is_set : bool)
| EAclRevoke (id : AccountId) | EAclClear | EAclFinish.
Arguments ESet {P V}.
Arguments ERemove {P V}.
Arguments ETag {P V}.
Arguments EUntag {P V}.
Arguments EUntagAll {P V}.
Arguments EAclUpdate {P V}.
Arguments EAclSet {P V}.
Arguments EAclRevoke {P V}.
Arguments EAclClear {P V}.
Arguments EAclFinish {P V}.

Section Life.
Context `{ObjectLaws P V} `{OrmCodec P V}.
Abbreviation TinyORM := (TinyORM P V).

Definition apply_edit (o : TinyORM) (e : edit P V) : TinyORM :=
  match e with
  | ESet p v => orm_set o p v
  | ERemove p => (orm_remove o p).2
  | ETag p t => orm_tag o p t
  | EUntag p t => orm_untag o p t
  | EUntagAll p => untag_all o p
  | EAclUpdate id acl => acl_update o id acl
  | EAclSet id acl is_set => acl_set o id acl is_set
  | EAclRevoke id => acl_revoke o id
  | EAclClear => acl_clear o
  | EAclFinish => acl_finish o
  end.
Definition edited (o : TinyORM) (l : list (edit P V)) : TinyORM := fold_left apply_edit l o.

Lemma vm_update_inv {W} (m : VecMap P W) p f : vm_inv m -> vm_inv (vm_update m p f) /\ vm_k (vm_update m p f) = vm_k m.
Proof.
  intros [Hl Hnd]. unfold vm_update. destruct (position p (vm_k m)); [|done]. split; [|done]. split; cbn; [by rewrite length_alter|done].
Qed.

Lemma alter_ids (f : Permission -> Permission) (pos : nat) (l : list Permission) :
  (forall p, perm_id (f p) = perm_id p) -> perm_id <$> alter f pos l = perm_id <$> l.
Proof.
  intros Hf. apply list_eq. intros i. rewrite !list_lookup_fmap. destruct (decide (i = pos)) as [->|Hne].
  - rewrite list_lookup_alter_eq. destruct (l !! pos); cbn; [by rewrite Hf|done].
  - by rewrite list_lookup_alter_ne.
Qed.

Lemma perm_position_None id l : perm_position id l = None <-> id ∉ (perm_id <$> l).
Proof. rewrite <- rights_None. unfold perm_position, rights. by rewrite !fmap_None. Qed.

Lemma append_ids l id acl : perm_position id l = None -> NoDup (perm_id <$> l) -> NoDup (perm_id <$> l ++ [mkPermission id acl]).
Proof.
  intros Hp%perm_position_None Hnd. rewrite fmap_app. apply NoDup_app. split; [done|]. cbn.
  split; [by intros x Hx ->%list_elem_of_singleton|]. apply NoDup_singleton.
Qed.

Lemma revoke_ids l id : NoDup (perm_id <$> l) -> NoDup (perm_id <$> revoke l id).
Proof.
  intros Hnd. unfold revoke. destruct (perm_position id l) as [pos|] eqn:E; [|done].
  unfold perm_position in E. apply fmap_Some in E as ([i p] & (Hl & _)%list_find_Some & ->). cbn.
  destruct (vec_swap_remove_Some l i p Hl) as (l' & -> & Hlen & Hlook). cbn. apply NoDup_alt. intros j k x.
  rewrite !list_lookup_fmap, !Hlook. intros Hj Hk. apply lookup_lt_Some in Hl.
  destruct (decide (j < length l - 1)%nat); [|done]. destruct (decide (k < length l - 1)%nat); [|done].
  rewrite <- list_lookup_fmap in Hj. rewrite <- list_lookup_fmap in Hk.
  pose proof (NoDup_lookup _ _ _ _ Hnd Hj Hk) as E. revert E. repeat case_decide; lia.
Qed.

(** Edits keep the invariant and never take a property out of the tags. *)
Lemma edit_inv o e : orm_inv o -> orm_inv (apply_edit o e) /\ forall p, p ∈ vm_k (tags o) -> p ∈ vm_k (tags (apply_edit o e)).
Proof.
  intros Ho. destruct Ho as [Hp Ht Ha]. destruct e as [p v|p|p t|p t|p|id acl|id acl b|id| |]; cbn [apply_edit].
  - split; [|done]. split; [by apply vm_set_inv|done..].
  - split; [|done]. split; [by apply vm_drop_spec|done..].
  - unfold orm_tag. destruct (vm_get_mut_or_insert (tags o) p ∅) as [m pos] eqn:Em. unfold vm_get_mut_or_insert in Em.
    assert (vm_inv m /\ forall q, q ∈ vm_k (tags o) -> q ∈ vm_k m) as [[Hl Hnd] Hk].
    { destruct (position p (vm_k (tags o))) eqn:Ep; injection Em as <- <-; [done|].
      split; [apply vm_append_inv; [done|by apply position_None]|]. cbn. intros q Hq. apply elem_of_app. by left. }
    split; [|done]. split; [done| |done]. split; cbn; [by rewrite length_alter|done].
  - destruct (vm_update_inv (tags o) p (fun s => s ∖ {[t]}) Ht) as [Hm Hk]. cbn. rewrite Hk. done.
  - destruct (vm_update_inv (tags o) p (fun _ => ∅) Ht) as [Hm Hk]. cbn. rewrite Hk. done.
  - unfold acl_update. destruct (bm_is_empty acl); [split; [|done]; split; [done..|by apply revoke_ids]|].
    split; [|done]. split; [done..|]. cbn. destruct (perm_position id (acls o)) eqn:E; [by rewrite alter_ids|by apply append_ids].
  - unfold acl_set. case_bool_decide; [done|]. destruct (perm_position id (acls o)) as [pos|] eqn:E.
    + destruct b; [split; [|done]; split; [done..|]; cbn; by rewrite alter_ids|].
      match goal with |- context [alter ?f pos (acls o)] => assert (NoDup (perm_id <$> alter f pos (acls o))) as Hn by (by rewrite alter_ids) end.
      case_match; (split; [|done]); (split; [done..|]); cbn; [by apply revoke_ids|done].
    + destruct b; [|done]. split; [|done]. split; [done..|]. cbn. by apply append_ids.
  - split; [|done]. split; [done..|by apply revoke_ids].
  - split; [|done]. split; [done..|constructor].
  - split; [|done]. split; [done..|]. cbn. rewrite merge_sort_Permutation. done.
Qed.

Lemma edited_inv l o : orm_inv o -> orm_inv (edited o l) /\ forall p, p ∈ vm_k (tags o) -> p ∈ vm_k (tags (edited o l)).
Proof.
  revert o. induction l as [|e l IH]; intros o Ho; [done|]. cbn. destruct (edit_inv o e Ho) as [He Hk].
  destruct (IH _ He) as [Hl Hk']. auto.
Qed.

Lemma orm_new_inv : orm_inv (orm_new : TinyORM).
Proof. split; [apply vm_new_inv..|constructor]. Qed.

Lemma object_insert_holds (o : TinyORM) c i d :
  orm_inv o -> writes_rights o -> orm_insert o (document_new c i) = Some d -> holds (apply_document stored_empty d) o.
Proof.
  intros Ho Hw Hi. unfold orm_insert in Hi. destruct (insert_orm o (document_new c i)) as [d0|] eqn:E0; [|done]. injection Hi as <-.
  destruct (insert_orm_fields _ _ _ E0) as (Ei & Et & Ea & Eb).
  destruct (update_document_ops o d0 false Ho Hw) as (Ui & Ut & Ua & Ub).
  { intros f e. rewrite Ei. by destruct e. } { intros f t. by rewrite Et. } { intros id. by rewrite Ea. }
  split; cbn [apply_document stored_empty st_index st_tag st_acl st_object].
  - intros p e. rewrite Ui. case_decide as Hd; cbn; tauto.
  - intros p t. rewrite Ut. case_decide as Hd; cbn; tauto.
  - intros id. rewrite Ua. by destruct (rights (acls o) id).
  - unfold binary_op in *. rewrite Ub, Eb. by destruct (orm_serialize o).
Qed.

Lemma object_delete_holds (o : TinyORM) c i s :
  orm_inv o -> writes_rights o -> holds s o ->
  let s' := apply_document s (orm_delete o (document_new c i)) in
  (forall p e, ~ st_index s' (property_id p) e) /\ (forall p t, ~ st_tag s' (property_id p) t) /\
  (forall id, st_acl s' id = None) /\ st_object s' = None.
Proof.
  intros Ho Hw Hs. cbn zeta. unfold orm_delete. set (d0 := delete_orm (document_new c i)).
  destruct (update_document_ops o d0 true Ho Hw) as (Ui & Ut & Ua & Ub); [by intros ? []|done..|].
  split_and!; cbn [apply_document st_index st_tag st_acl st_object].
  - intros p e. rewrite Ui, (holds_index _ _ Hs). by case_decide.
  - intros p t. rewrite Ut, (holds_tags _ _ Hs). by case_decide.
  - intros id. rewrite Ua, (holds_acls _ _ Hs). by destruct (rights (acls o) id).
  - unfold binary_op. by rewrite Ub.
Qed.
End Life.

(** ** Tags in the store

    The tags of a document are bits of bitmaps; what the writer does to them is
    what the document says. *)
Section Stored.
Context `{StoreLaws DB} `{BlobStore E} `{Unicode} `{Linguistics} `{BitPacker} `{WriteEnv} `{RoaringLaws} `{!BitmapMerges DB}.
Variables (default_language : Language) (timestamp : Z).

Lemma res_mapM_text_keys a c language fields l k b :
  res_mapM (text_bits a c language) fields = Ok l -> (k, b) ∈ concat l ->
  exists f w e, k = bitmap_key_bytes (KTerm a c f w e).
Proof.
  revert l. induction fields as [|f fields IH]; intros l; cbn [res_mapM]; [intros [= <-]; by intros ?%elem_of_nil|].
  destruct (text_bits a c language f) as [l1| |] eqn:E1; [|done..]. cbn [mbind res_bind].
  destruct (res_mapM _ fields) as [l2| |]; [|done..]. cbn [mbind res_bind]. intros [= <-]. cbn [concat].
  intros [Hin|Hin]%elem_of_app; [|by eapply IH]. unfold text_bits in E1.
  destruct (text_keys a c language f) as [keys| |] eqn:Ek; [|done..]. cbn [mbind res_bind] in E1. injection E1 as <-.
  apply list_elem_of_fmap in Hin as (k' & [= -> _] & Hk). unfold text_keys in Ek.
  destruct (_ =? F_KEYWORD); [injection Ek as <-; apply list_elem_of_singleton in Hk as ->; by eexists _, _, true|].
  destruct (_ =? F_TOKENIZE).
  { destruct (tokenizer_tokens _ _ _); [|done..]. cbn [mbind res_bind] in Ek. injection Ek as <-.
    apply list_elem_of_fmap in Hk as (t & -> & _). by eexists _, _, true. }
  destruct (_ =? F_NONE); [injection Ek as <-; by apply elem_of_nil in Hk|].
  destruct (stemmer_tokens _ _ _); [|done..]. cbn [mbind res_bind] in Ek. injection Ek as <-.
  apply list_elem_of_bind in Hk as (t & [->|Ht]%elem_of_cons & _); [by eexists _, _, true|].
  destruct (tk_stemmed_word t); [|by apply elem_of_nil in Ht]. apply list_elem_of_singleton in Ht as ->. by eexists _, _, false.
Qed.

Lemma last_bit_none l key d : (forall k b, (k, d, b) ∈ l -> k <> key) -> last_bit l key d = None.
Proof.
  induction l as [|[[k d'] b] l IH] using rev_ind; intros Hn; [done|]. rewrite last_bit_app. unfold last_bit at 1. cbn.
  rewrite bool_decide_eq_false_2, IH; [done| |].
  - intros k' b' Hin. apply (Hn k' b'), elem_of_app. by left.
  - intros [-> ->]. eapply Hn; [|done]. apply elem_of_app. right. by apply list_elem_of_singleton.
Qed.

(** Tags by their key: the default tag is the static tag 0. *)
Definition canonical (t : Tag) : Prop := tag_wf t /\ tag_canon t = t.

Lemma tag_bits_last a c d f t (fields : list (Field Tag)) :
  fits 32 a -> canonical t -> Forall (fun x => canonical (f_value x)) fields ->
  last_bit (doc_effects d (map (tag_bit a c) fields)) (BitmapKey.serialize_tag a c f t) d =
  last_op (tag_entry <$> fields) (f, t).
Proof.
  intros Ha [Ht Hct] Hf. induction fields as [|x fields IH] using rev_ind; [done|].
  apply Forall_app in Hf as [Hf [Hx Hcx]%Forall_singleton]. unfold doc_effects in *. rewrite !map_app, last_bit_app, last_op_app, IH by done.
  unfold last_bit at 1, last_op at 1. cbn.
  assert (BitmapKey.serialize_tag a c (f_field x) (f_value x) = BitmapKey.serialize_tag a c f t <-> (f_field x, f_value x) = (f, t)) as Hk.
  { split; [|by intros [= -> ->]]. intros Hkey.
    apply (bitmap_key_bytes_inj (KTag a c (f_field x) (f_value x)) (KTag a c f t)) in Hkey; [|done..]. cbn in Hkey. congruence. }
  case_bool_decide as Hb; case_bool_decide as Hb'; [done|tauto| |done]. exfalso. apply Hb. split; [by apply Hk|done].
Qed.

(** An updated document sets and clears the bits of its tags. *)
Lemma write_tags s a changes d s' r f t bm :
  write default_language timestamp s (mkBatch a changes [WUpdate d] []) = Ok (s', r) ->
  d_term_index d = None -> fits 32 a -> fits 32 (d_document_id d) ->
  canonical t -> Forall (fun x => canonical (f_value x)) (d_tag_fields d) ->
  bitmap_value (db_get (bl_db (s_blobs s)) Bitmaps (BitmapKey.serialize_tag a (d_collection d) f t)) = Some bm ->
  exists bm', bitmap_value (db_get (bl_db (s_blobs s')) Bitmaps (BitmapKey.serialize_tag a (d_collection d) f t)) = Some bm' /\
    (d_document_id d ∈ bm' <-> applied (d_document_id d ∈ bm) (tag_op d f t)) /\
    forall d', d' <> d_document_id d -> d' ∈ bm' <-> d' ∈ bm.
Proof.
  intros Hw Hti Ha Hd Ht Hf Hbm. pose proof (write_spec _ _ _ _ _ _ _ _ Hw) as (st & logs & idx & Hp & _).
  assert (Forall plain_action [WUpdate d]) as Hplain by (by repeat constructor).
  destruct (prepare_documents_plain _ _ _ _ _ _ _ Hplain Hp) as (effects & He & Has).
  destruct (write_bitmap _ _ s a changes [WUpdate d] s' r st _ bm Hw Hp ltac:(constructor; [exact Hd|constructor]) Hbm) as (bm' & Hbm' & Haft).
  exists bm'. split; [done|]. unfold batch_effects in He. cbn [res_mapM action_document] in He.
  destruct (action_bits default_language a (WUpdate d)) as [l| |] eqn:El; [|done..]. cbn [mbind res_bind concat] in He. injection He as <-.
  unfold action_bits in El. cbn [action_document] in El. destruct (res_mapM _ _) as [texts| |] eqn:Et; [|done..].
  cbn [mbind res_bind app] in El. injection El as <-.
  set (key := BitmapKey.serialize_tag a (d_collection d) f t) in *.
  assert (forall d', assigned (pr_bitmaps st) key d' = if decide (d' = d_document_id d) then tag_op d f t else None) as Hbits.
  { intros d'. rewrite Has, app_nil_r. change (assigned (pr_bitmaps _) key d') with (assigned ∅ key d'). unfold assigned at 1. rewrite lookup_empty. cbn.
    case_decide as Hd'.
    - subst d'. unfold doc_effects at 1. rewrite map_app, last_bit_app.
      pose proof (tag_bits_last a (d_collection d) (d_document_id d) f t (d_tag_fields d) Ha Ht Hf) as Htb. unfold doc_effects in Htb.
      fold key in Htb. rewrite Htb, last_bit_none; [unfold tag_op; by destruct (last_op _ _)|].
      intros k b ([k' b'] & [= -> ->] & Hin)%list_elem_of_fmap. destruct (res_mapM_text_keys _ _ _ _ _ _ _ Et Hin) as (f' & w & e & ->). intros Hkey.
      by apply (bitmap_key_bytes_inj (KTerm a (d_collection d) f' w e) (KTag a (d_collection d) f t)) in Hkey; [|by split|by split; [|apply Ht]].
    - destruct (last_bit _ key d') eqn:El; [|done]. apply last_bit_docs in El. done. }
  split.
  - rewrite (Haft (d_document_id d)), Hbits, decide_True by done. done.
  - intros d' Hne. by rewrite (Haft d'), Hbits, decide_False by done.
Qed.

Context `{ObjectLaws P V} `{OrmCodec P V}.

Definition canonical_tags (m : VecMap P (gset Tag)) : Prop := forall p s t, vm_get m p = Some s -> t ∈ s -> canonical t.

Lemma tag_loop_canonical g o l d :
  Forall (fun x => canonical (f_value x)) (d_tag_fields d) -> (forall p s t, (p, s) ∈ l -> t ∈ g p s -> canonical t) ->
  Forall (fun x => canonical (f_value x)) (d_tag_fields (tag_loop g o l d)).
Proof.
  revert d. induction l as [|[p s] l IH]; intros d Hd Hl; [done|].
  change (tag_loop g o ((p, s) :: l) d) with (tag_loop g o l (tag_document p o d (g p s))).
  apply IH; [|intros q s' t Hin; apply Hl; by right].
  assert (forall t, t ∈ g p s -> canonical t) as Hg by (intros t; apply Hl; by left).
  revert d Hd Hg. induction (g p s) as [|t ts IHt]; intros d Hd Hg; [done|].
  change (tag_document p o d (t :: ts)) with (tag_document p o (document_tag d (property_id p) t o) ts).
  apply IHt; [|intros t' ?; apply Hg; by right]. destruct d. cbn in *. apply Forall_app. split; [done|].
  apply Forall_singleton. cbn. apply Hg. by left.
Qed.

Lemma merge_tag_fields (o changes o' : TinyORM P V) c i d b :
  orm_inv o -> orm_inv changes -> canonical_tags (tags o) -> canonical_tags (tags changes) ->
  orm_merge o (document_new c i) changes = Some (o', d, b) ->
  Forall (fun x => canonical (f_value x)) (d_tag_fields d) /\ d_term_index d = None /\ d_document_id d = i /\ d_collection d = c.
Proof.
  intros Ho Hc Hto Htc Hm. unfold orm_merge in Hm.
  set (st := fold_left merge_property _ _) in Hm.
  assert (merging (properties o) (document_new c i) [] st) as Hst.
  { apply merge_properties_merging; [|rewrite vm_iter_keys by apply Hc; apply Hc].
    split; cbn; [apply Ho|done|by intros p []|by intros p []|done]. }
  destruct (mg_rest _ _ _ _ Hst) as (Rc & Ri & Rt & _ & Rg & _).
  set (d1 := if negb (bool_decide (tags o = tags changes)) then _ else ms_document st) in Hm.
  assert (Forall (fun x => canonical (f_value x)) (d_tag_fields d1) /\ d_term_index d1 = None /\ d_document_id d1 = i /\ d_collection d1 = c) as H1'.
  { unfold d1. destruct (negb _); [|by rewrite Rg, Rt, Ri, Rc].
    rewrite add_tags_loop, clear_tags_loop.
    destruct (tag_loop_rest (added_tags (tags o)) F_NONE (vm_iter (tags changes)) (tag_loop (cleared_tags (tags changes)) (opt_clear F_NONE) (vm_iter (tags o)) (ms_document st))) as (Ec & Ei & Et & _).
    destruct (tag_loop_rest (cleared_tags (tags changes)) (opt_clear F_NONE) (vm_iter (tags o)) (ms_document st)) as (Ec' & Ei' & Et' & _).
    rewrite Et, Et', Ei, Ei', Ec, Ec', Rt, Ri, Rc. split; [|done]. apply tag_loop_canonical; [apply tag_loop_canonical; [by rewrite Rg|]|].
    - intros p s t Hs%vm_iter_elem Ht; [|apply Ho]. apply (Hto p s t Hs). revert Ht. unfold cleared_tags.
      destruct (vm_get (tags changes) p) as [g|]; [|by intros ?%elem_of_nil]. destruct (bool_decide (s = g)); [by intros ?%elem_of_nil|]. by intros [_ ?%elem_of_elements]%list_elem_of_filter.
    - intros p s t Hs%vm_iter_elem Ht; [|apply Hc]. apply (Htc p s t Hs). revert Ht. unfold added_tags.
      destruct (vm_get (tags o) p) as [g|]; [destruct (bool_decide (s = g)); [by intros ?%elem_of_nil|]; by intros [_ ?%elem_of_elements]%list_elem_of_filter|by intros ?%elem_of_elements]. }
  set (d2 := if negb (bool_decide (acls o = acls changes)) then _ else d1) in Hm.
  assert (same_but_acls d1 d2) as (Ec & Ei & Et & _ & _ & _ & Eg & _).
  { unfold d2. destruct (negb (bool_decide (acls o = acls changes))); [|done]. etrans; apply acl_document_fields. }
  assert (Forall (fun x => canonical (f_value x)) (d_tag_fields d2) /\ d_term_index d2 = None /\ d_document_id d2 = i /\ d_collection d2 = c) as H2'
    by (by rewrite Eg, Et, Ei, Ec).
  destruct (ms_changed st || _ || _); [|by injection Hm as _ <- _].
  unfold insert_orm in Hm. destruct (orm_serialize _); [|done]. injection Hm as _ <- _. by destruct d2.
Qed.
End Stored.

(** C21. Tags stay searchable: when an object is edited (its mailboxes, keywords
    or role are tags), the change is merged and the document written to the
    store, then the bitmap of every tag contains the document exactly if the
    edited object has the tag, and other documents are not affected. *)
Theorem tags_stay_searchable `{StoreLaws DB} `{BlobStore E} `{Unicode} `{Linguistics} `{BitPacker} `{WriteEnv} `{RoaringLaws}
    `{!BitmapMerges DB} `{ObjectLaws P V} `{OrmCodec P V}
    language timestamp s a i changes (o o' : TinyORM P V) l d b s' r :
  orm_inv o -> canonical_tags (tags o) -> canonical_tags (tags (edited (track_changes o) l)) -> fits 32 a -> fits 32 i ->
  (forall p t, canonical t -> exists bm,
    bitmap_value (db_get (bl_db (s_blobs s)) Bitmaps (BitmapKey.serialize_tag a collection (property_id p) t)) = Some bm /\
    (i ∈ bm <-> t ∈ default ∅ (get_tags o p))) ->
  orm_merge o (document_new collection i) (edited (track_changes o) l) = Some (o', d, b) ->
  write language timestamp s (mkBatch a changes [WUpdate d] []) = Ok (s', r) ->
  forall p t, canonical t -> exists bm bm',
    bitmap_value (db_get (bl_db (s_blobs s)) Bitmaps (BitmapKey.serialize_tag a collection (property_id p) t)) = Some bm /\
    bitmap_value (db_get (bl_db (s_blobs s')) Bitmaps (BitmapKey.serialize_tag a collection (property_id p) t)) = Some bm' /\
    (i ∈ bm' <-> t ∈ default ∅ (get_tags o' p)) /\ (forall j, j <> i -> j ∈ bm' <-> j ∈ bm).
Proof.
  intros Ho Hto Htc Ha Hi Hbefore Hm Hw p t Ht.
  assert (orm_inv (track_changes o)) as Htr by (split; [apply vm_new_inv|apply Ho..]). destruct (edited_inv l _ Htr) as [Hc Hk].
  destruct (merge_tag_fields o _ o' collection i d b Ho Hc Hto Htc Hm) as (Hf & Hti & Hdi & Hdc).
  destruct (Hbefore p t Ht) as (bm & Hbm & Hin).
  destruct (write_tags language timestamp s a changes d s' r (property_id p) t bm Hw Hti Ha) as (bm' & Hbm' & Hd & Hother);
    [by rewrite Hdi|done|done|by rewrite Hdc|].
  rewrite Hdi in Hd, Hother. rewrite Hdc in Hbm'. exists bm, bm'. split; [done|]. split; [done|]. split; [|done].
  set (s0 := mkStored (fun f e => exists q, f = property_id q /\ e ∈ entries q (orm_get o q))
    (fun f t => exists q, f = property_id q /\ t ∈ default ∅ (get_tags o q)) (rights (acls o)) (orm_serialize o)).
  assert (holds s0 o) as Hs0.
  { split; cbn; try done; intros q x; (split; [|by exists q]); by intros (q' & <-%property_id_inj & ?). }
  destruct (orm_merge_holds o _ o' collection i d b s0 Ho Hc Hk Hm Hs0) as (_ & Hs' & _).
  rewrite <- (holds_tags _ _ Hs' p t), Hd. cbn. apply applied_proper; [|done]. rewrite Hin. symmetry. apply (holds_tags _ _ Hs0).
Qed.

(** ** Access rights of one account *)

Section Rights.
Context `{ObjectLaws P V}.
Abbreviation TinyORM := (TinyORM P V).

Lemma acl_check_rights (o : TinyORM) id acl :
  acl_check o id acl = from_option (fun a => bm_contains a acl) false (rights (acls o) id).
Proof. unfold acl_check, rights. by destruct (list_find _ _) as [[? ?]|]. Qed.

Lemma perm_position_Some id l pos : perm_position id l = Some pos -> exists p, l !! pos = Some p /\ perm_id p = id.
Proof. unfold perm_position. intros ([i p] & (Hl & Hid & _)%list_find_Some & ->)%fmap_Some. eauto. Qed.

Lemma rights_alter l id pos (f : Z -> Z) :
  NoDup (perm_id <$> l) -> perm_position id l = Some pos ->
  rights (alter (fun p => mkPermission (perm_id p) (f (perm_acl p))) pos l) id = f <$> rights l id.
Proof.
  intros Hnd Hp. apply perm_position_Some in Hp as ([id' acl] & Hl & <-). cbn [perm_id].
  assert (rights l id' = Some acl) as -> by (apply rights_Some; [done|by eapply list_elem_of_lookup_2]).
  apply rights_Some; [by rewrite alter_ids|]. apply list_elem_of_lookup. exists pos. by rewrite list_lookup_alter_eq, Hl.
Qed.

Lemma rights_revoke l id : NoDup (perm_id <$> l) -> rights (revoke l id) id = None.
Proof.
  intros Hnd. unfold revoke. destruct (perm_position id l) as [pos|] eqn:E; [|by apply rights_None, perm_position_None].
  apply perm_position_Some in E as (p & Hl & Hid). destruct (vec_swap_remove_Some l pos p Hl) as (l' & -> & _ & Hlook). cbn.
  apply rights_None. intros (i & Hi)%list_elem_of_lookup. rewrite list_lookup_fmap, Hlook in Hi.
  destruct (decide (i < length l - 1)%nat); [|done]. rewrite <- list_lookup_fmap in Hi.
  assert ((perm_id <$> l) !! pos = Some id) as Hp by (by rewrite list_lookup_fmap, Hl; cbn; rewrite Hid).
  pose proof (NoDup_lookup _ _ _ _ Hnd Hi Hp) as Hx. revert Hx. case_decide; lia.
Qed.

(** Setting a right grants it. Clearing one flips it: an account that has some
    rights gets the right if it did not have it. *)
Lemma acl_set_check (o : TinyORM) id acl :
  orm_inv o -> acl <> ACL.None_ ->
  acl_check (acl_set o id acl true) id acl = true /\
  acl_check (acl_set o id acl false) id acl =
    match rights (acls o) id with Some _ => negb (acl_check o id acl) | None => false end.
Proof.
  intros Ho Hacl. pose proof (inv_acls _ Ho) as Hnd. rewrite !acl_check_rights. unfold acl_set. rewrite bool_decide_eq_false_2 by done.
  destruct (perm_position id (acls o)) as [pos|] eqn:E.
  - pose proof (perm_position_Some _ _ _ E) as ([id' a] & Hl & Hid). cbn in Hid. subst id'.
    assert (rights (acls o) id = Some a) as Hr by (apply rights_Some; [done|by eapply list_elem_of_lookup_2]).
    cbn [set_acls acls]. rewrite (rights_alter _ _ _ (fun x => bm_insert x acl)), Hr by done. cbn [fmap option_fmap option_map from_option].
    split; [apply bm_insert_contains; by left|]. rewrite list_lookup_alter_eq, Hl. cbn [fmap option_fmap option_map from_option perm_acl].
    assert (bm_contains (bm_remove a acl) acl = negb (bm_contains a acl)) as Hflip.
    { rewrite bm_remove_contains, Z.eqb_refl. by destruct (bm_contains a acl). }
    destruct (bm_is_empty (bm_remove a acl)) eqn:Ee.
    + unfold acl_revoke. cbn [set_acls acls]. rewrite rights_revoke by (by rewrite alter_ids). cbn.
      rewrite <- Hflip. apply Z.eqb_eq in Ee. by rewrite Ee.
    + cbn [set_acls acls]. by rewrite (rights_alter _ _ _ (fun x => bm_remove x acl)), Hr by done.
  - pose proof E as Hn%perm_position_None%rights_None. rewrite Hn. cbn [set_acls acls from_option]. split; [|done].
    assert (rights (acls o ++ [mkPermission id (bm_insert bm_new acl)]) id = Some (bm_insert bm_new acl)) as ->.
    { apply rights_Some; [by apply append_ids|]. apply elem_of_app. right. by apply list_elem_of_singleton. }
    cbn. apply bm_insert_contains. by left.
Qed.
End Rights.

(** Clearing a right grants it: an account with some rights on an object
    that does not have a right gets it when the right is set to false. *)
Theorem cleared_right_is_granted `{ObjectLaws P V} (o : TinyORM P V) id acl a :
  orm_inv o -> acl <> ACL.None_ -> rights (acls o) id = Some a -> acl_check o id acl = false ->
  acl_check (acl_set o id acl false) id acl = true.
Proof. intros Ho Hacl Hr Hc. destruct (acl_set_check o id acl Ho Hacl) as [_ ->]. by rewrite Hr, Hc. Qed.

(** ** Words of lists

    An item taken out of a list whose property is indexed by words takes its
    words with it, also those that it shares with an item that stays. *)
Lemma last_bit_all_false (keys : list (list Z)) k d :
  k ∈ keys -> last_bit (doc_effects d (map (fun k => (k, false)) keys)) k d = Some false.
Proof.
  induction keys as [|k' keys IH] using rev_ind; intros Hk; [by apply elem_of_nil in Hk|]. unfold doc_effects in *.
  rewrite !map_app, last_bit_app. unfold last_bit at 1. cbn. case_bool_decide as Hb; [done|].
  apply elem_of_app in Hk as [Hk| ->%list_elem_of_singleton]; [by apply IH|]. by destruct Hb.
Qed.

Lemma shared_word_lost `{ObjectLaws P V} `{Unicode} `{Linguistics} `{WriteEnv} language (p : P) options a c i x y words w :
  get_text_options (opt_clear options) = F_TOKENIZE -> x <> y ->
  tokenizer_tokens x Unknown MAX_TOKEN_LENGTH = Ok words -> w ∈ (str_bytes ∘ wd_word <$> words) ->
  exists l, action_bits language a (WUpdate (diff_list (index_texts p) options (document_new c i) [x; y] [y])) = Ok l /\
    last_bit (doc_effects i l) (BitmapKey.serialize_term a c (property_id p) w true) i = Some false.
Proof.
  intros Ho Hxy Hw Hin.
  assert (diff_list (index_texts p) options (document_new c i) [x; y] [y] =
    document_text (document_new c i) (property_id p) x Unknown (opt_clear options)) as ->.
  { unfold diff_list. rewrite !filter_cons, filter_nil, decide_True by (by rewrite list_elem_of_singleton).
    rewrite (decide_False (P := y ∉ [y])) by (intros Hn; apply Hn; by apply list_elem_of_singleton).
    rewrite decide_False; [done|]. intros Hn. apply Hn. by right; left. }
  unfold action_bits. cbn [action_document document_text document_new d_text_fields d_collection d_tag_fields res_mapM app].
  unfold text_bits, text_keys. cbn [f_value f_options f_field tx_text tx_language]. rewrite Ho. cbn [Z.eqb F_TOKENIZE F_KEYWORD Pos.eqb].
  rewrite Hw. cbn [mbind res_bind]. rewrite opt_clear_is_clear. eexists. split; [done|]. cbn [negb concat app map]. rewrite !app_nil_r.
  apply (last_bit_all_false (map (fun t => BitmapKey.serialize_term a c (property_id p) (str_bytes (wd_word t)) true) words)).
  apply list_elem_of_fmap in Hin as (t & -> & Ht). by apply (list_elem_of_fmap_2 (fun t => BitmapKey.serialize_term a c (property_id p) (str_bytes (wd_word t)) true)).
Qed.

(** ** A sample object: a name and mailboxes *)
Module OrmSample.
Inductive property : Set := Name | Mailboxes.
Inductive value : Set := VText (text : list Z) | VNull.
#[export] Instance value_eq_dec : EqDecision value.
Proof. solve_decision. Defined.
#[export] Instance property_eq_dec : EqDecision property.
Proof. solve_decision. Defined.
#[export] Instance value_orm : OrmValue value := {|
  ov_eq_dec := value_eq_dec;
  index_as v := match v with VText t => IText t | VNull => INull end;
  value_is_empty v := bool_decide (v = VNull); value_len _ := 0; value_default := VNull |}.
#[export] Instance object : Object property value := {|
  ob_eq_dec := property_eq_dec; ob_value := value_orm;
  property_id p := match p with Name => 0 | Mailboxes => 1 end;
  required := [Name]; indexed := [(Name, Z.lor F_KEYWORD F_INDEX)]; max_len := []; collection := Collection.Mail |}.
#[export] Instance laws : ObjectLaws property value.
Proof.
  split; [by intros [] []|by intros []|]. cbn. repeat constructor.
Qed.
#[export] Instance codec : OrmCodec property value := {| orm_serialize _ := Some [1]; orm_deserialize _ := None |}.

Definition first : list (edit property value) :=
  [ESet Name (VText [97]); ETag Mailboxes (Id 1); ETag Mailboxes (Id 2); EAclUpdate 5 (bm_from_list [ACL.Read])].
Definition created : TinyORM property value := edited orm_new first.
(** An object without tags in an empty store, and its first tag. *)
Definition untagged : TinyORM property value := edited orm_new [ESet Name (VText [97])].
Definition tagging : list (edit property value) := [ETag Mailboxes (Id 1)].
Definition tagged : TinyORM property value * Document * bool :=
  default (untagged, document_new Collection.Mail 8, false)
    (orm_merge untagged (document_new Collection.Mail 8) (edited (track_changes untagged) tagging)).
Import WriteSample.
Definition written : store (DB := MemStore.t) (E := unit) :=
  match write English 0 empty_store (mkBatch 1 changes [WUpdate tagged.1.2] []) with Ok (s, _) => s | _ => empty_store end.
Lemma written_runs : exists r, write English 0 empty_store (mkBatch 1 changes [WUpdate tagged.1.2] []) = Ok (written, r).
Proof.
  unfold written. assert (exists x, write English 0 empty_store (mkBatch 1 changes [WUpdate tagged.1.2] []) = Ok x) as [[s r] ->]; [|eauto].
  eexists. vm_compute. reflexivity.
Qed.
End OrmSample.
Import (hints) OrmSample.

Lemma cleared_right_is_granted_witness :
  acl_check (acl_set OrmSample.created 5 ACL.Modify false) 5 ACL.Modify = true.
Proof.
  apply (cleared_right_is_granted OrmSample.created 5 ACL.Modify (bm_from_list [ACL.Read]));
    [apply edited_inv, orm_new_inv|done|by vm_compute|by vm_compute].
Defined.

Import WriteSample.
Lemma tags_stay_searchable_witness :
  exists bm, bitmap_value (db_get (bl_db (s_blobs OrmSample.written)) Bitmaps (BitmapKey.serialize_tag 1 Collection.Mail 1 (Id 1))) = Some bm /\
    8 ∈ bm.
Proof.
  destruct OrmSample.written_runs as [r Hw].
  assert (forall p t, canonical t -> exists bm,
    bitmap_value (db_get (bl_db (s_blobs empty_store)) Bitmaps (BitmapKey.serialize_tag 1 Collection.Mail
      (property_id (p : OrmSample.property)) t)) = Some bm /\ (8 ∈ bm <-> t ∈ default ∅ (get_tags OrmSample.untagged p))) as Hb.
  { intros p t _. exists ∅. cbn [empty_store s_blobs bl_db]. rewrite empty_get. split; [done|]. by destruct p. }
  assert (canonical (Id 1)) as Hc by (split; [cbn; unfold fits; lia|done]).
  destruct (tags_stay_searchable English 0 empty_store 1 8 changes OrmSample.untagged OrmSample.tagged.1.1 OrmSample.tagging
    OrmSample.tagged.1.2 OrmSample.tagged.2 OrmSample.written r) with (p := OrmSample.Mailboxes) (t := Id 1)
    as (_ & bm' & _ & Hbm' & Hin & _).
  - apply edited_inv, orm_new_inv.
  - intros p s t Hs. by destruct p.
  - intros p s t Hs Ht. destruct p; [done|].
    assert (vm_get (tags (edited (track_changes OrmSample.untagged) OrmSample.tagging)) OrmSample.Mailboxes = Some {[Id 1]}) as Hm
      by (vm_compute; reflexivity).
    assert (Some s = Some {[Id 1]}) as [= ->] by (rewrite <- Hm; symmetry; exact Hs). apply elem_of_singleton in Ht as ->. exact Hc.
  - unfold fits. lia.
  - unfold fits. lia.
  - exact Hb.
  - vm_compute. reflexivity.
  - exact Hw.
  - exact Hc.
  - exists bm'. split; [exact Hbm'|]. apply Hin.
    assert (get_tags OrmSample.tagged.1.1 OrmSample.Mailboxes = Some {[Id 1]}) as -> by (vm_compute; reflexivity).
    by apply elem_of_singleton.
Defined.
