(* ===== verification/OrmStore.v ===== *)
(** * Objects through the writer: components/jmap/src/orm and
      components/store/src/write/update.rs together

    [Orm] says what the documents of an object do to the index entries, tags,
    access rights and serialized form that the store holds of it
    ([apply_document], a specification). Here the writer is shown to implement
    it, key by key, and the two are put together: what the store holds of an
    object through its whole life. The sorted index, the bitmaps of tags, the
    rights and the object itself are covered; the bitmaps of words are not,
    where an item of a list that goes away takes words with it that others
    still have ([shared_word_lost]). *)

From S2P Require Import Prelude Lang Leb128 Serialize Types TermIndex Nlp Keys Bitmap BitList VecMap KV Blob ChangeLog RaftLog Read Write Orm.
#[local] Open Scope Z_scope.

(** ** Entries and their bytes *)

(** The values of one indexed property are of one kind. *)
Inductive value_kind : Set := TextValues | IntegerValues | LongValues.
Definition entry_ok (k : value_kind) (e : entry) : Prop :=
  match k, e with
  | TextValues, EText t => Forall is_char t
  | IntegerValues, ENumber (NInteger i) => fits 32 i
  | LongValues, ENumber (NLongInteger i) => fits 64 i
  | _, _ => False
  end.
(** The bytes in the key of an index entry, and those stored as the value. *)
Definition entry_bytes (e : entry) : list Z := match e with EText t => str_bytes t | ENumber n => number_to_be_bytes n end.
Definition entry_stored (e : entry) : list Z := match e with EText t => str_bytes t | ENumber n => number_serialize n end.

Lemma encode_utf8_inj c c' l l' : is_char c -> is_char c' -> encode_utf8 c ++ l = encode_utf8 c' ++ l' -> c = c' /\ l = l'.
Proof.
  unfold is_char, encode_utf8. change (2 ^ 6) with 64. change (2 ^ 12) with 4096. change (2 ^ 18) with 262144. intros Hc Hc'.
  destruct (Z.ltb_spec c 0x80) as [L1|L1]; [|destruct (Z.ltb_spec c 0x800) as [L2|L2]; [|destruct (Z.ltb_spec c 0x10000) as [L3|L3]]];
  (destruct (Z.ltb_spec c' 0x80) as [L4|L4]; [|destruct (Z.ltb_spec c' 0x800) as [L5|L5]; [|destruct (Z.ltb_spec c' 0x10000) as [L6|L6]]]);
    cbn [app]; intros Heq; injection Heq; intros; subst; first [split; [|done]|exfalso]; Z.to_euclidean_division_equations; lia.
Qed.

Lemma str_bytes_inj t t' : Forall is_char t -> Forall is_char t' -> str_bytes t = str_bytes t' -> t = t'.
Proof.
  assert (forall c l, encode_utf8 c ++ l <> []) as Hne by (intros c l; unfold encode_utf8; by repeat case_match).
  intros Ht. revert t'. induction Ht as [|c t Hc _ IH]; intros [|c' t'] Ht' Heq; unfold str_bytes in *; cbn [mbind list_bind] in *.
  - done.
  - symmetry in Heq. by apply Hne in Heq.
  - by apply Hne in Heq.
  - apply Forall_cons in Ht' as [Hc' Ht']. apply encode_utf8_inj in Heq as [-> Heq]; [|done..]. f_equal. by apply IH.
Qed.

Lemma entry_bytes_inj k e e' : entry_ok k e -> entry_ok k e' -> entry_bytes e = entry_bytes e' -> e = e'.
Proof.
  destruct k, e as [t|[]], e' as [t'|[]]; cbn -[be_bytes]; try done; intros He He' Heq.
  - by rewrite (str_bytes_inj t t').
  - by rewrite (be_bytes_inj 4 i i0).
  - by rewrite (be_bytes_inj 8 i i0).
Qed.

Lemma index_key_bytes_inj a c i f b f' b' : index_key a c i f b = index_key a c i f' b' -> f = f' /\ b = b'.
Proof. unfold index_key, IndexKey.serialize. intros Heq%app_inv_head. cbn in Heq. by injection Heq as -> ->%app_inv_tail. Qed.

Lemma value_key_bytes_inj k k' : value_key_wf k -> value_key_wf k' -> value_key_bytes k = value_key_bytes k' -> k = k'.
Proof.
  intros Hk%value_key_parse_bytes Hk'%value_key_parse_bytes Heq. rewrite Heq, Hk' in Hk. by injection Hk.
Qed.

(** ** Last operations *)

Lemma last_op_rename {K K' A} `{EqDecision K, EqDecision K'} (f : K -> K') (l : list (K * A)) k :
  (forall x, x ∈ l -> f x.1 = f k -> x.1 = k) -> last_op ((fun x => (f x.1, x.2)) <$> l) (f k) = last_op l k.
Proof.
  induction l as [|x l IH] using rev_ind; intros Hf; [done|]. rewrite fmap_app, !last_op_app.
  rewrite IH by (intros y Hy; apply Hf, elem_of_app; by left). unfold last_op at 1 3. cbn.
  assert (f x.1 = f k -> x.1 = k) as Hx by (apply Hf, elem_of_app; right; by apply list_elem_of_singleton).
  case_bool_decide; case_bool_decide; naive_solver congruence.
Qed.
Lemma last_op_fmap {K A B} `{EqDecision K} (g : A -> B) (l : list (K * A)) k :
  last_op ((fun x => (x.1, g x.2)) <$> l) k = g <$> last_op l k.
Proof.
  induction l as [|x l IH] using rev_ind; [done|]. rewrite fmap_app, !last_op_app, IH. unfold last_op at 1 3. cbn. by case_bool_decide.
Qed.
Lemma last_op_elem {K A} `{EqDecision K} (l : list (K * A)) k x : last_op l k = Some x -> (k, x) ∈ l.
Proof.
  induction l as [|[k' y] l IH] using rev_ind; [done|]. rewrite last_op_app. unfold last_op at 1. cbn. rewrite elem_of_app.
  case_bool_decide as Hk; [intros [= ->]; right; by apply list_elem_of_singleton; subst|auto].
Qed.

Lemma op_effect_assign `{Store DB} cf k v clear cf' k' x :
  op_effect cf k v (set_or_delete clear cf' k' x) = if decide (cf' = cf /\ k' = k) then (if clear then None else Some x) else v.
Proof.
  unfold op_effect, set_or_delete. destruct clear; cbn; case_bool_decide as Hb; case_decide as Hd; naive_solver.
Qed.

(** Operations that assign the values of some keys. *)
Lemma assign_ops_effect `{Store DB} {X} cf (key : X -> list Z) (clear : X -> bool) (val : X -> list Z) l k v :
  fold_left (op_effect cf k) (map (fun x => set_or_delete (clear x) cf (key x) (val x)) l) v =
  default v (last_op ((fun x => (key x, if clear x then None else Some (val x))) <$> l) k).
Proof.
  induction l as [|x l IH] using rev_ind; [done|]. rewrite map_app, fmap_app, fold_left_app, last_op_app, IH. cbn [map fold_left].
  rewrite op_effect_assign. unfold last_op at 2. cbn. case_bool_decide as Hb; case_decide as Hd; naive_solver.
Qed.

(** ** Documents the writer always accepts *)

(** Texts that are not full texts, of unknown language. *)
Definition plain_text (f : Field Write.Text) : Prop :=
  is_full_text (f_options f) = false /\ tx_language (f_value f) = Unknown.
(** A bitmap key that is not the key of a tag. *)
Definition no_tag (a : AccountId) (k : list Z) : Prop :=
  exists k', k = bitmap_key_bytes k' /\ bitmap_key_account k' = a /\ match k' with KTag _ _ _ _ => False | _ => True end.

Section Writer.
Context `{StoreLaws DB} `{BlobStore E} `{Unicode} `{Linguistics} `{BitPacker} `{WriteEnv}.
Variables (language : Language) (a : AccountId) (c : Collection.t) (i : DocumentId).

(** The operations of a document, but for the bitmaps and the links of blobs. *)
Definition text_field_ops (fields : list (Field Write.Text)) : list WriteOperation :=
  fields ≫= fun f => field_ops a c i f (str_bytes (tx_text (f_value f))) (str_bytes (tx_text (f_value f))).
Definition document_ops (d : Document) : list WriteOperation :=
  text_field_ops (d_text_fields d) ++ number_ops a c i (d_number_fields d) ++ binary_ops a c i (d_binary_fields d) ++
  blob_ops a c i (d_blobs d) ++ acl_ops a c i (d_acls d).

Lemma text_field_plain l f st :
  plain_text f -> exists bits, Forall (fun kb => no_tag a kb.1) bits /\
  text_field a c i l st f =
    Ok (mkTextState (assign_bits i bits (ts_bitmaps st))
      (ts_ops st ++ field_ops a c i f (str_bytes (tx_text (f_value f))) (str_bytes (tx_text (f_value f)))) (ts_index st)).
Proof.
  intros [Hfull Hlang]. apply Z.leb_gt in Hfull. unfold text_field. rewrite Hlang.
  assert (forall w, no_tag a (BitmapKey.serialize_term a c (f_field f) w true)) as Hterm.
  { intros w. by exists (KTerm a c (f_field f) w true). }
  destruct (Z.eqb_spec (get_text_options (f_options f)) F_KEYWORD) as [|Hk].
  { eexists [(_, _)]. split; [apply Forall_singleton, Hterm|]. done. }
  destruct (Z.eqb_spec (get_text_options (f_options f)) F_TOKENIZE) as [|Ht].
  { unfold tokenizer_tokens. rewrite !bool_decide_eq_false_2, indo_european_tokens_runs by done. cbn [mbind res_bind].
    eexists. split; [|by rewrite term_bits_assign]. rewrite map_map. apply Forall_map, Forall_forall. intros t _. apply Hterm. }
  destruct (Z.eqb_spec (get_text_options (f_options f)) F_NONE) as [|Hn].
  { exists []. by split. }
  exfalso. assert (0 <= get_text_options (f_options f)) by (apply Z.land_nonneg; by right).
  unfold F_FULL_TEXT, F_KEYWORD, F_TOKENIZE, F_NONE in *. lia.
Qed.

Lemma text_loop_plain l fields st :
  Forall plain_text fields -> exists bits, Forall (fun kb => no_tag a kb.1) bits /\
  text_fields_loop a c i l st fields =
    Ok (mkTextState (assign_bits i bits (ts_bitmaps st)) (ts_ops st ++ text_field_ops fields) (ts_index st)).
Proof.
  intros Hf. revert st. induction Hf as [|f fields Hf _ IH]; intros st; cbn [text_fields_loop].
  - exists []. split; [constructor|]. unfold text_field_ops. cbn. rewrite app_nil_r. by destruct st.
  - destruct (text_field_plain l f st Hf) as (b1 & H1' & ->). cbn [mbind res_bind].
    destruct (IH (mkTextState (assign_bits i b1 (ts_bitmaps st)) (ts_ops st ++ field_ops a c i f (str_bytes (tx_text (f_value f)))
      (str_bytes (tx_text (f_value f)))) (ts_index st))) as (b2 & H2' & ->).
    exists (b1 ++ b2). split; [by apply Forall_app|]. cbn [ts_bitmaps ts_ops ts_index]. rewrite assign_bits_app, <- app_assoc. done.
Qed.

(** Such a document without a term index is prepared; the bitmaps get the bits
    of its tags, after those of its words. *)
Lemma prepare_object ts (st : prepared (DB := DB) (E := E)) action :
  let d := action_document action in
  d_collection d = c -> d_document_id d = i -> Forall plain_text (d_text_fields d) -> d_term_index d = None ->
  db_get (bl_db (pr_blobs st)) Values (term_index_key a c i) = None ->
  exists bits, Forall (fun kb => no_tag a kb.1) bits /\
  prepare_document language ts a false st action =
    Ok (mkPrepared (pr_blobs st) (pr_ops st ++ document_ops d)
      (assign_bits i (bits ++ map (tag_bit a c) (d_tag_fields d)) (pr_bitmaps st)) (pr_tombstones st)).
Proof.
  intros d Hc Hi Ht Hti Hdb. unfold prepare_document. rewrite andb_false_r. fold d. rewrite Hc, Hi.
  assert (exists head, Forall (fun kb => no_tag a kb.1) head /\
    enter_document a st action = Ok (assign_bits i head (pr_bitmaps st), None)) as (head & Hh & ->).
  { assert (no_tag a (BitmapKey.serialize_document_ids a c)) as Hn by by exists (KDocumentIds a c).
    unfold enter_document. fold d. rewrite Hc, Hi, Hti. destruct action.
    - eexists [(_, _)]. split; [by apply Forall_singleton|]. done.
    - exists []. by split.
    - unfold get_as. rewrite Hdb. cbn [mbind res_bind]. eexists [(_, _)]. split; [by apply Forall_singleton|]. done. }
  cbn [mbind res_bind].
  assert (exists bits, Forall (fun kb => no_tag a kb.1) bits /\
    match d_text_fields d with
    | [] => Ok (pr_blobs st, assign_bits i head (pr_bitmaps st), pr_ops st, [])
    | fields => text_fields language ts a c i (pr_blobs st) (assign_bits i head (pr_bitmaps st)) (pr_ops st) fields
    end = Ok (pr_blobs st, assign_bits i (head ++ bits) (pr_bitmaps st), pr_ops st ++ text_field_ops (d_text_fields d), [])) as (bits & Hb & ->).
  { destruct (text_loop_plain (batch_language language (d_text_fields d)) _
      (mkTextState (assign_bits i head (pr_bitmaps st)) (pr_ops st) builder_new) Ht) as (bits & Hb & Hl).
    destruct (d_text_fields d) as [|f fields] eqn:Ef.
    - exists []. split; [constructor|]. unfold text_field_ops. cbn. by rewrite !app_nil_r.
    - exists bits. split; [done|]. unfold text_fields. rewrite Hl. cbn [mbind res_bind ts_index builder_is_empty]. 
      by rewrite assign_bits_app. }
  cbn [mbind res_bind]. exists (head ++ bits). split; [by apply Forall_app|]. rewrite tag_bits_assign, <- assign_bits_app. unfold document_ops.
  rewrite !app_nil_r, <- !app_assoc. done.
Qed.

Context `{RoaringLaws} `{!BitmapMerges DB}.

(** The batch of one such document is written: the keys of the values and of
    the sorted index are changed by the operations of the document, and its
    tags set and clear its bits. *)
Lemma write_object_spec ts changes (s : store (DB := DB) (E := E)) action :
  let d := action_document action in
  fits 32 a -> fits 32 i -> s_tombstone_deletions s = false ->
  d_collection d = c -> d_document_id d = i -> Forall plain_text (d_text_fields d) -> d_term_index d = None ->
  Forall (fun x => canonical (f_value x)) (d_tag_fields d) ->
  db_get (bl_db (s_blobs s)) Values (term_index_key a c i) = None ->
  exists s' r, write language ts s (mkBatch a changes [action] []) = Ok (s', r) /\ s_tombstone_deletions s' = false /\
    (forall cf k, cf = Values \/ cf = Indexes ->
      db_get (bl_db (s_blobs s')) cf k = fold_left (op_effect cf k) (document_ops d) (db_get (bl_db (s_blobs s)) cf k)) /\
    (forall f t bm, canonical t -> bitmap_value (db_get (bl_db (s_blobs s)) Bitmaps (BitmapKey.serialize_tag a c f t)) = Some bm ->
      exists bm', bitmap_value (db_get (bl_db (s_blobs s')) Bitmaps (BitmapKey.serialize_tag a c f t)) = Some bm' /\
        (i ∈ bm' <-> applied (i ∈ bm) (tag_op d f t))).
Proof.
  intros d Ha Hi Hlead Hc Hid Ht Hti Htags Hdb.
  destruct (prepare_object ts (mkPrepared (s_blobs s) [] ∅ []) action Hc Hid Ht Hti Hdb) as (bits & Hb & Hp). fold d in Hp.
  set (st := mkPrepared _ _ _ _) in Hp at 2.
  assert (prepare_documents language ts a (s_tombstone_deletions s) (mkPrepared (s_blobs s) [] ∅ []) [action] = Ok st) as Hps.
  { rewrite Hlead. cbn [prepare_documents]. by rewrite Hp. }
  destruct (write_total language ts s a changes [action] st Hps eq_refl) as (s' & r & Hw). exists s', r. split; [done|]. split; [|split].
  - apply write_spec in Hw as (? & ? & ? & _ & -> & _). done.
  - intros cf k Hcf. rewrite (write_get language ts s a changes [action] s' r st cf k Hw Hps) by naive_solver.
    apply avoids_effect, bitmap_ops_cf. naive_solver.
  - intros f t bm Hct Hbm. set (key := BitmapKey.serialize_tag a c f t) in *.
    destruct (write_bitmap language ts s a changes [action] s' r st key bm Hw Hps) as (bm' & Hbm' & Haft); [|done|].
    { constructor; [|constructor]. fold d. by rewrite Hid. }
    exists bm'. split; [done|]. rewrite (Haft i). unfold st. cbn [pr_bitmaps].
    rewrite assigned_bits. change (assigned ∅ key i) with (@None bool). unfold doc_effects at 1. rewrite map_app, last_bit_app.
    pose proof (tag_bits_last a c i f t (d_tag_fields d) Ha Hct Htags) as Htb. unfold doc_effects in Htb. fold key in Htb. rewrite Htb.
    rewrite last_bit_none; [unfold tag_op, applied; by destruct (last_op _ _)|].
    intros k b ([k' b'] & [= -> ->] & Hin)%list_elem_of_fmap. rewrite Forall_forall in Hb. destruct (Hb _ Hin) as (k'' & Hk & Hacc & Hno).
    cbn in Hk. rewrite Hk. intros Hkey. apply (bitmap_key_bytes_inj k'' (KTag a c f t)) in Hkey.
    + by destruct k''.
    + split; [by rewrite Hacc|]. by destruct k''.
    + split; [done|apply Hct].
Qed.
End Writer.

(** ** What the operations of a document do to the keys of an object *)

Section Keys.
Context `{StoreLaws DB} `{ObjectLaws P V}.
Variables (kind : P -> value_kind) (a : AccountId) (c : Collection.t) (i : DocumentId).

(** The texts and numbers of a document, in the order they are written. *)
Definition entry_fields (d : Document) : list (Field entry) :=
  ((fun f => mkField (f_field f) (f_options f) (EText (tx_text (f_value f)))) <$> d_text_fields d) ++
  ((fun f => mkField (f_field f) (f_options f) (ENumber (f_value f))) <$> d_number_fields d).
Definition entry_op (f : Field entry) : (FieldId * entry) * bool := ((f_field f, f_value f), negb (is_clear (f_options f))).
Definition entry_ops (fields : list (Field entry)) : list WriteOperation :=
  fields ≫= fun f => field_ops a c i f (entry_stored (f_value f)) (entry_bytes (f_value f)).

(** A field of an indexed property, of its kind. *)
Definition field_typed (f : Field entry) : Prop :=
  exists p o, f_field f = property_id p /\ find_indexed p = Some o /\ (f_options f = o \/ f_options f = opt_clear o) /\
    entry_ok (kind p) (f_value f).

Lemma document_entry_ops d :
  document_ops a c i d = entry_ops (entry_fields d) ++ binary_ops a c i (d_binary_fields d) ++ blob_ops a c i (d_blobs d) ++ acl_ops a c i (d_acls d).
Proof.
  unfold document_ops, entry_ops, entry_fields, text_field_ops, number_ops. rewrite bind_app, <- app_assoc. f_equal; [|f_equal].
  - induction (d_text_fields d) as [|f l IH]; [done|]. by rewrite fmap_cons, !bind_cons, IH.
  - induction (d_number_fields d) as [|f l IH]; [done|]. by rewrite fmap_cons, !bind_cons, IH.
Qed.

Lemma index_op_fields d f e : index_op d f e = last_op (entry_op <$> entry_fields d) (f, e).
Proof.
  assert (forall {A} (g : A -> (FieldId * entry) * bool) l, (forall x, x ∈ l -> (g x).1 <> (f, e)) -> last_op (g <$> l) (f, e) = None) as Hno.
  { intros A g l Hl. destruct (last_op (g <$> l) (f, e)) eqn:E; [|done]. apply last_op_elem in E.
    apply list_elem_of_fmap in E as (x & E & Hx). destruct (Hl x Hx). by rewrite <- E. }
  unfold entry_fields. rewrite fmap_app, last_op_app, <- !list_fmap_compose. destruct e as [t|n]; cbn [index_op].
  - by rewrite (Hno _ (entry_op ∘ _)).
  - rewrite (Hno _ (entry_op ∘ (fun f : Field Write.Text => _))) by done. unfold number_entry, compose, entry_op. cbn.
    by destruct (last_op _ _).
Qed.

Lemma is_index_clear o : is_index (opt_clear o) = is_index o.
Proof.
  unfold is_index, opt_clear. rewrite Z.land_lor_distr_l. change (Z.land F_CLEAR F_INDEX) with 0. by rewrite Z.lor_0_r.
Qed.
Lemma is_full_text_clear o : is_full_text (opt_clear o) = is_full_text o.
Proof.
  unfold is_full_text, get_text_options, opt_clear. rewrite Z.land_lor_distr_l. change (Z.land F_CLEAR 0xFFFFFFFF) with 0. by rewrite Z.lor_0_r.
Qed.

Lemma field_ops_index (x : Field entry) f b v :
  fold_left (op_effect Indexes (index_key a c i f b)) (field_ops a c i x (entry_stored (f_value x)) (entry_bytes (f_value x))) v =
  if decide (is_index (f_options x) = true /\ f_field x = f /\ entry_bytes (f_value x) = b)
  then (if is_clear (f_options x) then None else Some []) else v.
Proof.
  unfold field_ops. rewrite fold_left_app. rewrite (avoids_effect Indexes _ v).
  2: { destruct (is_store _); [|constructor]. apply Forall_singleton. by rewrite set_or_delete_cf. }
  destruct (is_index (f_options x)); [|by rewrite decide_False by naive_solver]. cbn [fold_left]. rewrite op_effect_assign.
  case_decide as H1'; case_decide as H2'; try done; exfalso.
  - apply H2'. destruct H1' as [_ [-> ->]%index_key_bytes_inj]. done.
  - apply H1'. by destruct H2' as (_ & -> & ->).
Qed.

(** The sorted index: the key of an entry is set or cleared by the last
    operation on the entry. *)
Lemma entry_ops_index fields p o b v :
  Forall field_typed fields -> find_indexed p = Some o -> is_index o = true ->
  let v' := fold_left (op_effect Indexes (index_key a c i (property_id p) b)) (entry_ops fields) v in
  (exists e (x : bool), entry_ok (kind p) e /\ entry_bytes e = b /\ last_op (entry_op <$> fields) (property_id p, e) = Some x /\
    v' = (if x : bool then Some [] else None)) \/
  (v' = v /\ forall e, entry_ok (kind p) e -> entry_bytes e = b -> last_op (entry_op <$> fields) (property_id p, e) = None).
Proof.
  intros Hf Ho Hidx. cbn zeta. induction fields as [|x fields IH] using rev_ind; [by right|].
  apply Forall_app in Hf as [Hf (q & oq & Hq & Hoq & Hopt & Hok)%Forall_singleton].
  unfold entry_ops in *. rewrite bind_app, fold_left_app, bind_cons, app_nil_r, field_ops_index.
  assert (forall e, last_op (entry_op <$> fields ++ [x]) (property_id p, e) =
    if decide (q = p /\ f_value x = e) then Some (negb (is_clear (f_options x))) else last_op (entry_op <$> fields) (property_id p, e)) as Hlast.
  { intros e. rewrite fmap_app, last_op_app. unfold last_op at 1. cbn. rewrite Hq. case_bool_decide as Hb.
    - injection Hb as Hqp%property_id_inj He. by rewrite decide_True.
    - rewrite decide_False; [done|]. by intros [-> <-]. }
  destruct (decide (q = p)) as [->|Hne].
  2: { rewrite decide_False; [|rewrite Hq; intros (_ & ?%property_id_inj & _); done].
       destruct (IH Hf) as [(e & y & He & Hb & Hl & Hv)|[Hv Hn]]; [left; exists e, y|right; split; [done|]; intros e He Hb; specialize (Hn e He Hb)];
         rewrite Hlast, decide_False by naive_solver; done. }
  assert (is_index (f_options x) = true) as Hxi.
  { rewrite Ho in Hoq. injection Hoq as <-. destruct Hopt as [->| ->]; [done|by rewrite is_index_clear]. }
  destruct (decide (entry_bytes (f_value x) = b)) as [Hb|Hb].
  - rewrite decide_True by done. left. exists (f_value x), (negb (is_clear (f_options x))). rewrite Hlast, decide_True by done.
    split_and!; [done..|]. by destruct (is_clear _).
  - rewrite decide_False by tauto.
    destruct (IH Hf) as [(e & y & He & Hb' & Hl & Hv)|[Hv Hn]]; [left; exists e, y|right; split; [done|]; intros e He Hb'; specialize (Hn e He Hb')];
      rewrite Hlast, decide_False by (intros [_ <-]; done); done.
Qed.

(** The keys of values that the fields of a document do not touch. *)
Definition object_key (k : Keys.value_key) : Prop :=
  match k with
  | VValue a' c' i' f => a' = a /\ c' = c /\ i' = i /\ f = FIELD_ID
  | VTermIndex a' c' i' => a' = a /\ c' = c /\ i' = i
  | VAcl id a' c' i' => fits 32 id /\ a' = a /\ c' = c /\ i' = i
  | VCollection _ _ => False
  end.
Lemma object_key_wf k : fits 32 a -> fits 32 i -> object_key k -> value_key_wf k.
Proof. destruct k; cbn; naive_solver. Qed.

Lemma entry_ops_values fields k v :
  fits 32 a -> fits 32 i -> Forall field_typed fields -> object_key k -> fold_left (op_effect Values (value_key_bytes k)) (entry_ops fields) v = v.
Proof.
  intros Ha Hi Hf Hk. apply ops_effect_other. unfold entry_ops. induction Hf as [|x fields (p & o & Hp & _) _ IH]; [constructor|].
  rewrite bind_cons. apply Forall_app. split; [|done]. unfold field_ops. apply Forall_app. split.
  - destruct (is_store _); [|constructor]. apply Forall_singleton. right.
    assert (op_key (set_or_delete (is_clear (f_options x)) Values (Write.value_key a c i (f_field x)) (entry_stored (f_value x))) =
      value_key_bytes (VValue a c i (f_field x))) as -> by by destruct (is_clear _).
    intros Heq%value_key_bytes_inj; [|done|by apply object_key_wf]. subst k. destruct Hk as (_ & _ & _ & Hk). rewrite Hp in Hk.
    by apply property_id_field in Hk.
  - destruct (is_index _); [|constructor]. apply Forall_singleton. left. by rewrite set_or_delete_cf.
Qed.

(** The serialized object, the rights on it, and its term index. *)
Lemma document_ops_values d k v :
  fits 32 a -> fits 32 i -> Forall field_typed (entry_fields d) -> Forall (fun x => fits 32 (perm_id x.1)) (d_acls d) -> object_key k ->
  fold_left (op_effect Values (value_key_bytes k)) (document_ops a c i d) v =
  match k with
  | VValue _ _ _ _ => default v (binary_op d FIELD_ID)
  | VAcl id _ _ _ => default v (fmap (M := option) (le_bytes 8) <$> acl_op d id)
  | _ => v
  end.
Proof.
  intros Ha Hi Hf Hacl Hk. rewrite document_entry_ops, !fold_left_app, entry_ops_values by done.
  pose proof (object_key_wf k Ha Hi Hk) as Hwf.
  rewrite (avoids_effect Values _ _ (blob_ops a c i (d_blobs d))) by (apply map_avoid; intros [? ?]; by rewrite set_or_delete_cf).
  assert (forall x : Permission * Z, fits 32 (perm_id x.1) -> ValueKey.serialize_acl (perm_id x.1) a c i = value_key_bytes k -> VAcl (perm_id x.1) a c i = k) as Hka.
  { intros x Hx Heq. by apply value_key_bytes_inj. }
  assert (forall f, Write.value_key a c i f = value_key_bytes k -> VValue a c i f = k) as Hkv.
  { intros f Heq. by apply value_key_bytes_inj. }
  unfold binary_ops. rewrite assign_ops_effect.
  assert (acl_ops a c i (d_acls d) = map (fun x => set_or_delete (is_clear x.2) Values (ValueKey.serialize_acl (perm_id x.1) a c i) (le_bytes 8 (perm_acl x.1))) (d_acls d)) as ->.
  { apply map_ext. by intros [? ?]. }
  rewrite assign_ops_effect. rewrite Forall_forall in Hacl.
  set (lb := last_op _ (value_key_bytes k)) at 1. set (la := last_op _ (value_key_bytes k)).
  assert ((forall f, VValue a c i f <> k) -> lb = None) as Hb.
  { intros Hno. destruct lb as [y|] eqn:E; [|done]. unfold lb in E. apply last_op_elem in E. apply list_elem_of_fmap in E as (f & [= E _] & _). by destruct (Hno (f_field f)); auto. }
  assert ((forall id, VAcl id a c i <> k) -> la = None) as Hl.
  { intros Hno. destruct la as [y|] eqn:E; [|done]. unfold la in E. apply last_op_elem in E. apply list_elem_of_fmap in E as (x & [= E _] & Hx). by destruct (Hno (perm_id x.1)); auto. }
  destruct k as [a' c'|a' c' i' f|a' c' i'|id a' c' i']; cbn in Hk; [done|..]; destruct_and? Hk; subst.
  - rewrite Hl by done. cbn. f_equal. unfold lb, binary_op.
    rewrite <- (last_op_rename (Write.value_key a c i)); [by rewrite <- list_fmap_compose|].
    intros x _ Heq. by injection (Hkv _ Heq).
  - by rewrite Hl, Hb.
  - rewrite Hb by done. cbn [default]. f_equal. unfold la, acl_op. rewrite <- last_op_fmap.
    rewrite <- (last_op_rename (fun id => ValueKey.serialize_acl id a c i)).
    + rewrite <- !list_fmap_compose. cbn [value_key_bytes]. f_equal. apply list_fmap_ext. intros _ x _. unfold compose, acl_entry. cbn. by destruct (is_clear x.2).
    + intros x (y & -> & (z & -> & Hz)%list_elem_of_fmap)%list_elem_of_fmap Heq. cbn in *. by injection (Hka z (Hacl z Hz) Heq).
Qed.
End Keys.

(** ** The writer implements the documents of objects *)

Section Implements.
Context `{StoreLaws DB} `{BlobStore E} `{Unicode} `{Linguistics} `{BitPacker} `{WriteEnv} `{RoaringLaws} `{!BitmapMerges DB}.
Context `{ObjectLaws P V} `{OrmCodec P V}.
Variables (kind : P -> value_kind) (language : Language) (a : AccountId) (i : DocumentId).
Hypothesis account_fits : fits 32 a.
Hypothesis document_fits : fits 32 i.
Hypothesis no_full_text : Forall (fun e => is_full_text e.2 = false) (indexed (P := P)).
Abbreviation store := (store (DB := DB) (E := E)).
Abbreviation field_typed := (field_typed kind).

(** A document of an object. *)
Record doc_ok (d : Document) : Prop := {
  do_collection : d_collection d = collection;
  do_id : d_document_id d = i;
  do_term_index : d_term_index d = None;
  do_typed : Forall field_typed (entry_fields d);
  do_unknown : Forall (fun f => tx_language (f_value f) = Unknown) (d_text_fields d);
  do_tags : Forall (fun f => canonical (f_value f)) (d_tag_fields d);
  do_acls : Forall (fun x => fits 32 (perm_id x.1)) (d_acls d) }.

(** The keys of the store that belong to the document say what the store holds
    of it. *)
Record represents (s : store) (x : stored) : Prop := {
  rep_index p o b : find_indexed p = Some o -> is_index o = true ->
    is_Some (db_get (bl_db (s_blobs s)) Indexes (index_key a collection i (property_id p) b)) <->
    exists e, entry_ok (kind p) e /\ entry_bytes e = b /\ st_index x (property_id p) e;
  rep_tags (p : P) t : canonical t -> exists bm,
    bitmap_value (db_get (bl_db (s_blobs s)) Bitmaps (BitmapKey.serialize_tag a collection (property_id p) t)) = Some bm /\
    (i ∈ bm <-> st_tag x (property_id p) t);
  rep_acls id : fits 32 id ->
    db_get (bl_db (s_blobs s)) Values (ValueKey.serialize_acl id a collection i) = le_bytes 8 <$> st_acl x id;
  rep_object : db_get (bl_db (s_blobs s)) Values (Write.value_key a collection i FIELD_ID) = st_object x;
  rep_term_index : db_get (bl_db (s_blobs s)) Values (term_index_key a collection i) = None;
  rep_commits : s_tombstone_deletions s = false }.

Lemma find_indexed_plain (p : P) o : find_indexed p = Some o -> is_full_text o = false.
Proof.
  unfold find_indexed. destruct (find _ _) as [[q o']|] eqn:Ef; [|done]. intros [= <-].
  apply List.find_some in Ef as [Hin _]. pose proof no_full_text as Hs. rewrite List.Forall_forall in Hs. apply (Hs _ Hin).
Qed.

Lemma doc_plain d : doc_ok d -> Forall plain_text (d_text_fields d).
Proof.
  intros Hd. pose proof (do_unknown _ Hd) as Hu. pose proof (do_typed _ Hd) as Ht. unfold entry_fields in Ht. apply Forall_app in Ht as [Ht _].
  rewrite Forall_fmap in Ht. rewrite Forall_forall in *. intros f Hf. split; [|by apply Hu].
  destruct (Ht f Hf) as (p & o & _ & Ho%find_indexed_plain & Hopt & _). cbn in Hopt. destruct Hopt as [->| ->]; [done|by rewrite is_full_text_clear].
Qed.

(** Writing a document succeeds and does what the document says. *)
Lemma write_represents s x ts changes action :
  doc_ok (action_document action) -> represents s x ->
  exists s' r, write language ts s (mkBatch a changes [action] []) = Ok (s', r) /\
    represents s' (apply_document x (action_document action)).
Proof.
  intros Hd Hs. set (d := action_document action) in *.
  destruct (write_object_spec language a collection i ts changes s action account_fits document_fits (rep_commits _ _ Hs)
    (do_collection _ Hd) (do_id _ Hd) (doc_plain _ Hd) (do_term_index _ Hd) (do_tags _ Hd) (rep_term_index _ _ Hs))
    as (s' & r & Hw & Hlead & Hget & Htags). fold d in Hget, Htags. exists s', r. split; [done|].
  assert (forall k, object_key a collection i k -> db_get (bl_db (s_blobs s')) Values (value_key_bytes k) = _) as Hval
    by (intros k Hk; rewrite Hget by auto; exact (document_ops_values kind a collection i d k _ account_fits document_fits (do_typed _ Hd) (do_acls _ Hd) Hk)).
  split; cbn [apply_document st_index st_tag st_acl st_object]; [| | | | |done].
  - intros p o b Ho Hi. rewrite Hget by auto. rewrite document_entry_ops, fold_left_app, avoids_effect.
    2: { rewrite !avoids_app. split_and!; apply map_avoid; intros [? ?] || intros ?; by rewrite set_or_delete_cf. }
    pose proof (rep_index _ _ Hs p o b Ho Hi) as Hold. revert Hold.
    generalize (db_get (bl_db (s_blobs s)) Indexes (index_key a collection i (property_id p) b)). intros v Hold.
    destruct (entry_ops_index kind a collection i (entry_fields d) p o b v (do_typed _ Hd) Ho Hi) as [(e & y & He & Hb & Hl & ->)|[-> Hn]].
    + assert (is_Some (if y then Some [] else None) <-> y = true) as -> by (destruct y; split; intros Hy; (done || by destruct Hy || by eexists)).
      split.
      * intros ->. exists e. rewrite index_op_fields, Hl. done.
      * intros (e' & He' & Hb' & Hap). assert (e' = e) as -> by (eapply entry_bytes_inj; [done..|congruence]).
        by rewrite index_op_fields, Hl in Hap.
    + rewrite Hold. split; intros (e & He & Hb & Hx); exists e; (split; [done|]; split; [done|]); revert Hx; by rewrite index_op_fields, Hn.
  - intros p t Ht. destruct (rep_tags _ _ Hs p t Ht) as (bm & Hbm & Hin). destruct (Htags _ t bm Ht Hbm) as (bm' & Hbm' & Hi).
    exists bm'. split; [done|]. rewrite Hi. by rewrite Hin.
  - intros id Hid. pose proof (Hval (VAcl id a collection i) ltac:(done)) as Hv. cbn [value_key_bytes] in Hv. rewrite Hv, (rep_acls _ _ Hs) by done.
    by destruct (acl_op d id).
  - pose proof (Hval (VValue a collection i FIELD_ID) ltac:(done)) as Hv. cbn [value_key_bytes] in Hv. unfold Write.value_key at 1. rewrite Hv.
    f_equal. apply Hs.
  - pose proof (Hval (VTermIndex a collection i) ltac:(done)) as Hv. cbn [value_key_bytes] in Hv. unfold term_index_key. rewrite Hv. apply Hs.
Qed.

(** ** The documents of an object are accepted *)

Definition value_ok (p : P) (v : V) : Prop := Forall (entry_ok (kind p)) (index_entries (index_as v)).
Record orm_ok (o : TinyORM P V) : Prop := {
  ok_inv : orm_inv o;
  ok_values p v : orm_get o p = Some v -> find_indexed p <> None -> value_ok p v;
  ok_tags : Forall (fun s => forall t, t ∈ (s : gset Tag) -> canonical t) (vm_v (tags o));
  ok_acls : Forall (fun x => fits 32 (perm_id x)) (acls o) }.

Definition edit_ok (e : edit P V) : Prop :=
  match e with
  | ESet p v => find_indexed p <> None -> value_ok p v
  | ETag _ t => canonical t
  | EAclUpdate id _ | EAclSet id _ _ => fits 32 id
  | _ => True
  end.

Lemma revoke_fits l id : Forall (fun x => fits 32 (perm_id x)) l -> Forall (fun x => fits 32 (perm_id x)) (revoke l id).
Proof.
  intros Hl. unfold revoke. destruct (perm_position id l) as [pos|] eqn:Ep; [|done].
  apply perm_position_Some in Ep as (p & Hp & _). destruct (vec_swap_remove_Some l pos p Hp) as (l' & -> & _ & Hlook). cbn.
  apply Forall_lookup. intros j x. rewrite Hlook. case_decide; [|done]. intros Hx. rewrite Forall_lookup in Hl. by eapply Hl.
Qed.
Lemma alter_fits f pos l :
  (forall p, perm_id (f p) = perm_id p) -> Forall (fun x => fits 32 (perm_id x)) l -> Forall (fun x => fits 32 (perm_id x)) (alter f pos l).
Proof. intros Hf Hl. apply Forall_alter; [done|]. intros x _ Hx. by rewrite Hf. Qed.

Lemma edit_acls_ok (o : TinyORM P V) e :
  edit_ok e -> Forall (fun x => fits 32 (perm_id x)) (acls o) -> Forall (fun x => fits 32 (perm_id x)) (acls (apply_edit o e)).
Proof.
  intros He Ho. destruct e as [p v|p|p t|p t|p|id acl|id acl b|id| |]; cbn in *; try done.
  - unfold orm_tag. by destruct (vm_get_mut_or_insert _ _ _).
  - unfold acl_update. destruct (bm_is_empty acl); [by apply revoke_fits|]. cbn.
    destruct (perm_position _ _); [by apply alter_fits|]. apply Forall_app. split; [done|]. by apply Forall_singleton.
  - unfold acl_set. case_bool_decide; [done|]. destruct (perm_position _ _).
    + destruct b; [by apply alter_fits|]. case_match; cbn; [apply revoke_fits|]; by apply alter_fits.
    + destruct b; [|done]. apply Forall_app. split; [done|]. by apply Forall_singleton.
  - by apply revoke_fits.
  - by rewrite merge_sort_Permutation.
Qed.

Lemma edit_tags_ok (o : TinyORM P V) e :
  edit_ok e -> Forall (fun s => forall t, t ∈ (s : gset Tag) -> canonical t) (vm_v (tags o)) ->
  Forall (fun s => forall t, t ∈ (s : gset Tag) -> canonical t) (vm_v (tags (apply_edit o e))).
Proof.
  assert (forall (m : VecMap P (gset Tag)) p f, (forall s, (forall t, t ∈ s -> canonical t) -> forall t, t ∈ (f s : gset Tag) -> canonical t) ->
    Forall (fun s => forall t, t ∈ (s : gset Tag) -> canonical t) (vm_v m) -> Forall (fun s => forall t, t ∈ (s : gset Tag) -> canonical t) (vm_v (vm_update m p f))) as Hup.
  { intros m p f Hf Hm. unfold vm_update. destruct (position p (vm_k m)); [|done]. cbn. by apply Forall_alter; [|intros ? _; apply Hf]. }
  intros He Ho. destruct e as [p v|p|p t|p t|p|id acl|id acl b|id| |]; cbn in *; try done.
  - unfold orm_tag, vm_get_mut_or_insert. destruct (position p (vm_k (tags o))); cbn; (apply Forall_alter; [|set_solver]); [done|].
    apply Forall_app. split; [done|]. apply Forall_singleton. set_solver.
  - apply Hup; [set_solver|done].
  - apply Hup; [set_solver|done].
  - unfold acl_update. by destruct (bm_is_empty acl).
  - unfold acl_set. case_bool_decide; [done|]. destruct (perm_position _ _), b; try done. by case_match.
Qed.

Lemma edit_ok_keeps (o : TinyORM P V) e : edit_ok e -> orm_ok o -> orm_ok (apply_edit o e).
Proof.
  intros He Ho. destruct (edit_inv o e (ok_inv _ Ho)) as [Hinv _]. pose proof (inv_properties _ (ok_inv _ Ho)) as Hp.
  split; [done| |by apply edit_tags_ok, Ho|by apply edit_acls_ok, Ho]. intros q w Hq Hx.
  assert (forall o', properties o' = properties o -> orm_get o' q = Some w -> value_ok q w) as Hsame.
  { intros o' Eo. unfold orm_get. rewrite Eo. intros ?. by apply (ok_values _ Ho). }
  destruct e as [p v|p|p t|p t|p|id acl|id acl b|id| |]; cbn in *; try by eapply Hsame.
  - unfold orm_get in Hq. cbn in Hq. rewrite vm_set_get in Hq by done. destruct (decide (p = q)) as [<-|]; [injection Hq as <-; by apply He|]. by apply (ok_values _ Ho).
  - unfold orm_get in Hq. cbn in Hq. destruct (vm_drop_spec (properties o) p Hp) as [_ Hd]. rewrite Hd in Hq.
    destruct (decide (p = q)); [done|]. by apply (ok_values _ Ho).
  - eapply Hsame; [|done]. unfold orm_tag. by destruct (vm_get_mut_or_insert _ _ _).
  - eapply Hsame; [|done]. unfold acl_update. by destruct (bm_is_empty acl).
  - eapply Hsame; [|done]. unfold acl_set. case_bool_decide; [done|]. destruct (perm_position _ _), b; try done. by case_match.
Qed.

Lemma edited_ok l (o : TinyORM P V) : Forall edit_ok l -> orm_ok o -> orm_ok (edited o l).
Proof. intros Hl. revert o. induction Hl as [|e l He _ IH]; intros o Ho; [done|]. cbn. by apply IH, edit_ok_keeps. Qed.

Lemma ok_canonical (o : TinyORM P V) : orm_ok o -> canonical_tags (tags o).
Proof.
  intros Ho p s t Hs Ht. apply vm_get_maps in Hs as (j & _ & Hj); [|apply Ho].
  pose proof (ok_tags _ Ho) as Hall. rewrite Forall_lookup in Hall. by eapply Hall.
Qed.
Lemma track_changes_ok (o : TinyORM P V) : orm_ok o -> orm_ok (track_changes o).
Proof. intros [[Hp Ht Ha] Hv Hc Hf]. split; [split; [apply vm_new_inv|done..]|done..]. Qed.
Lemma orm_new_ok : orm_ok (orm_new : TinyORM P V).
Proof. split; [apply orm_new_inv|done|constructor..]. Qed.

Lemma document_new_ok : doc_ok (document_new collection i).
Proof. by split; try constructor. Qed.
Lemma document_text_ok (p : P) o opts d t :
  doc_ok d -> find_indexed p = Some o -> opts = o \/ opts = opt_clear o -> entry_ok (kind p) (EText t) ->
  doc_ok (document_text d (property_id p) t Unknown opts).
Proof.
  intros [H1' H2' H3' H4' H5' H6' H7'] Ho Hopt Ht. destruct d as [dc di dt dx dn db dg da dl]. unfold entry_fields in *. cbn in *. split; try done; cbn.
  - unfold entry_fields. cbn. rewrite fmap_app. apply Forall_app in H4' as [Hx Hn]. apply Forall_app. split; [|done].
    apply Forall_app. split; [done|]. apply Forall_singleton. by exists p, o.
  - apply Forall_app. split; [done|]. by apply Forall_singleton.
Qed.
Lemma document_number_ok (p : P) o opts d n :
  doc_ok d -> find_indexed p = Some o -> opts = o \/ opts = opt_clear o -> entry_ok (kind p) (ENumber n) ->
  doc_ok (document_number d (property_id p) n opts).
Proof.
  intros [H1' H2' H3' H4' H5' H6' H7'] Ho Hopt Ht. destruct d as [dc di dt dx dn db dg da dl]. unfold entry_fields in *. cbn in *. split; try done; cbn.
  unfold entry_fields. cbn. rewrite fmap_app, app_assoc. apply Forall_app. split; [done|]. apply Forall_singleton. by exists p, o.
Qed.

Lemma index_texts_ok (p : P) o opts d l :
  doc_ok d -> find_indexed p = Some o -> opts = o \/ opts = opt_clear o -> Forall (fun t => entry_ok (kind p) (EText t)) l ->
  doc_ok (index_texts p opts d l).
Proof.
  intros Hd Ho Hopt Hl. unfold index_texts. revert d Hd.
  induction Hl as [|t l Ht _ IH]; intros d Hd; [done|]. cbn. apply IH. by eapply document_text_ok.
Qed.
Lemma index_integers_ok (p : P) o opts d l :
  doc_ok d -> find_indexed p = Some o -> opts = o \/ opts = opt_clear o -> Forall (fun n => entry_ok (kind p) (ENumber (NInteger n))) l ->
  doc_ok (index_integers p opts d l).
Proof.
  intros Hd Ho Hopt Hl. unfold index_integers. revert d Hd.
  induction Hl as [|t l Ht _ IH]; intros d Hd; [done|]. cbn. apply IH. by eapply document_number_ok.
Qed.
Lemma index_value_ok (p : P) o opts d x :
  doc_ok d -> find_indexed p = Some o -> opts = o \/ opts = opt_clear o -> Forall (entry_ok (kind p)) (index_entries x) ->
  doc_ok (index_value p opts d x).
Proof.
  intros Hd Ho Hopt. destruct x as [t|l|n|l|n|]; cbn [index_value index_entries]; rewrite ?Forall_fmap, ?Forall_singleton; intros Hx.
  - by eapply document_text_ok.
  - by eapply index_texts_ok.
  - by eapply document_number_ok.
  - by eapply index_integers_ok.
  - by eapply document_number_ok.
  - done.
Qed.

Lemma document_binary_ok d f b o : doc_ok d -> doc_ok (document_binary d f b o).
Proof. intros [H1' H2' H3' H4' H5' H6' H7']. by destruct d as [dc di dt dx dn db dg da dl]. Qed.
Lemma tag_loop_ok g o l d :
  doc_ok d -> (forall p s t, (p, s) ∈ l -> t ∈ g p s -> canonical t) -> doc_ok (tag_loop (P := P) g o l d).
Proof.
  intros Hd Hl. destruct (tag_loop_rest g o l d) as (E1 & E2 & E3 & E4 & E5 & _ & E7 & _). destruct Hd as [H1' H2' H3' H4' H5' H6' H7'].
  split; unfold entry_fields in *; rewrite ?E1, ?E2, ?E3, ?E4, ?E5, ?E7; try done. by apply tag_loop_canonical.
Qed.
Lemma acl_document_ok o d l : doc_ok d -> Forall (fun x => fits 32 (perm_id x)) l -> doc_ok (acl_document o d l).
Proof.
  intros Hd Hl. destruct (acl_document_fields o d l) as (Ea & E1 & E2 & E3 & E4 & E5 & _ & E7 & _). destruct Hd as [H1' H2' H3' H4' H5' H6' H7'].
  split; unfold entry_fields in *; rewrite ?E1, ?E2, ?E3, ?E4, ?E5, ?E7; try done. rewrite Ea. apply Forall_app. split; [done|]. by apply Forall_fmap.
Qed.

Definition values_ok (m : VecMap P V) : Prop := forall p v, vm_get m p = Some v -> find_indexed p <> None -> value_ok p v.
Lemma merge_property_doc st p new :
  doc_ok (ms_document st) -> values_ok (ms_properties st) -> (find_indexed p <> None -> value_ok p new) ->
  doc_ok (ms_document (merge_property st (p, new))).
Proof.
  intros Hd Hv Hnew. unfold merge_property. destruct (find_indexed p) as [o|] eqn:Ho.
  2: { destruct (vm_get (ms_properties st) p); [case_bool_decide|]; by cbn. }
  specialize (Hnew ltac:(done)). assert (forall d, doc_ok d -> doc_ok (index_value p o d (index_as new))) as Hadd.
  { intros d Hok. eapply index_value_ok; [done..|by left|done]. }
  destruct (vm_get (ms_properties st) p) as [cur|] eqn:Ec; [|by apply Hadd]. case_bool_decide; [done|].
  assert (value_ok p cur) as Hcur by (apply Hv; [done|by rewrite Ho]).
  assert (doc_ok (index_value p (opt_clear o) (ms_document st) (index_as cur))) as Hclear.
  { eapply index_value_ok; [done..|by right|done]. }
  unfold value_ok in *.
  assert (forall {A} (g : A -> entry) (l : list A) f `{!forall x, Decision (f x)}, Forall (entry_ok (kind p)) (g <$> l) ->
    Forall (fun x => entry_ok (kind p) (g x)) (filter f l)) as Hfil.
  { intros A g l f Hdec Hg. apply Forall_forall. intros x [_ Hx]%list_elem_of_filter. rewrite Forall_forall in Hg. by apply Hg, list_elem_of_fmap_2. }
  destruct (index_as cur) as [t|lc|n|lc|n|] eqn:Ic; try by apply Hadd.
  - destruct (index_as new) as [t|ln|n|ln|n|] eqn:In; try exact Hclear. cbn [ms_document]. unfold diff_list.
    eapply index_texts_ok; [eapply index_texts_ok; [done..|by right|]|done|by left|]; by apply (Hfil _ EText).
  - destruct (index_as new) as [t|ln|n|ln|n|] eqn:In; try exact Hclear. cbn [ms_document]. unfold diff_list.
    eapply index_integers_ok; [eapply index_integers_ok; [done..|by right|]|done|by left|]; by apply (Hfil _ (fun n => ENumber (NInteger n))).
Qed.

Lemma merge_property_values st p new :
  vm_inv (ms_properties st) -> values_ok (ms_properties st) -> (find_indexed p <> None -> value_ok p new) ->
  vm_inv (ms_properties (merge_property st (p, new))) /\ values_ok (ms_properties (merge_property st (p, new))).
Proof.
  intros Hi Hv Hnew. destruct (merge_property_value st p new) as [(v & d & b & -> & Hvn & _)|[-> _]]; [|done].
  destruct (merged_get st p v d b Hi) as [Hi' Hget]. split; [done|]. intros q w. rewrite Hget. destruct (decide (p = q)) as [<-|]; [|by apply Hv].
  destruct Hvn as [->| ->]; [intros [= <-]; exact Hnew|done].
Qed.

Lemma merge_properties_ok l st :
  doc_ok (ms_document st) -> vm_inv (ms_properties st) -> values_ok (ms_properties st) ->
  (forall p v, (p, v) ∈ l -> find_indexed p <> None -> value_ok p v) ->
  let st' := fold_left merge_property l st in doc_ok (ms_document st') /\ values_ok (ms_properties st').
Proof.
  revert st. induction l as [|[p v] l IH]; intros st Hd Hi Hv Hl; [done|]. cbn [fold_left].
  assert (find_indexed p <> None -> value_ok p v) as Hpv by (apply Hl; by left).
  destruct (merge_property_values st p v Hi Hv Hpv) as [Hi' Hv']. apply IH; [by apply merge_property_doc|done..|].
  intros q w Hq. apply Hl. by right.
Qed.

(** A merge: the object stays well-formed and its document is accepted. *)
Lemma orm_merge_ok (o changes o' : TinyORM P V) d b :
  orm_ok o -> orm_ok changes -> orm_inv o' -> orm_merge o (document_new collection i) changes = Some (o', d, b) -> orm_ok o' /\ doc_ok d.
Proof.
  intros Ho Hc Hinv Hm. unfold orm_merge in Hm. set (st := fold_left merge_property _ _) in Hm.
  destruct (merge_properties_ok (vm_iter (properties changes)) (mkMerge (properties o) (document_new collection i) false)) as [Hd Hv].
  { apply document_new_ok. } { apply (ok_inv _ Ho). } { exact (ok_values _ Ho). }
  { intros p v Hp%vm_iter_elem; [|apply (ok_inv _ Hc)]. by apply (ok_values _ Hc). }
  fold st in Hd, Hv. pose proof (ok_canonical _ Ho) as Co. pose proof (ok_canonical _ Hc) as Cc.
  set (td := negb (bool_decide (tags o = tags changes))) in *. set (d1 := if td then _ else ms_document st) in Hm.
  set (ad := negb (bool_decide (acls o = acls changes))) in *. set (d2 := if ad then _ else d1) in Hm. set (o1 := mkOrm _ _ _) in Hm.
  assert (doc_ok d1) as Hd1.
  { unfold d1. destruct td; [|done]. rewrite add_tags_loop, clear_tags_loop. apply tag_loop_ok; [apply tag_loop_ok; [done|]|].
    - intros p s t Hs%vm_iter_elem Ht; [|apply (ok_inv _ Ho)]. apply (Co p s t Hs). revert Ht. unfold cleared_tags.
      destruct (vm_get (tags changes) p) as [g|]; [|by intros ?%elem_of_nil]. destruct (bool_decide (s = g)); [by intros ?%elem_of_nil|].
      by intros [_ ?%elem_of_elements]%list_elem_of_filter.
    - intros p s t Hs%vm_iter_elem Ht; [|apply (ok_inv _ Hc)]. apply (Cc p s t Hs). revert Ht. unfold added_tags.
      destruct (vm_get (tags o) p) as [g|]; [destruct (bool_decide (s = g)); [by intros ?%elem_of_nil|]; by intros [_ ?%elem_of_elements]%list_elem_of_filter|by intros ?%elem_of_elements]. }
  assert (doc_ok d2) as Hd2.
  { pose proof (ok_acls _ Ho) as Fo. pose proof (ok_acls _ Hc) as Fc. rewrite Forall_forall in Fo, Fc. unfold d2.
    destruct ad; [|done]. apply acl_document_ok; [apply acl_document_ok; [done|]|]; apply Forall_forall; intros x [_ Hx]%list_elem_of_filter; auto. }
  assert (orm_inv o1 -> orm_ok o1) as Ho1.
  { intros ?. split; [done|exact Hv|..]; unfold o1; cbn; [destruct td; [apply Hc|apply Ho]|destruct ad; [apply Hc|apply Ho]]. }
  destruct (ms_changed st || td || ad); [|injection Hm as <- <- <-; auto].
  destruct (insert_orm o1 d2) as [d'|] eqn:Ei; [|done]. injection Hm as <- <- <-. split; [auto|].
  unfold insert_orm in Ei. destruct (orm_serialize o1); [|done]. injection Ei as <-. by apply document_binary_ok.
Qed.

Lemma update_document_ok (o : TinyORM P V) d del :
  indexed (P := P) <> [] -> orm_ok o -> doc_ok d -> doc_ok (orm_update_document o d del).
Proof.
  intros Hne Ho Hd. rewrite update_document_loops by by left. apply acl_document_ok; [|apply Ho]. apply tag_loop_ok.
  - assert (forall p v, (p, v) ∈ vm_iter (properties o) -> find_indexed p <> None -> value_ok p v) as Hv.
    { intros p v Hp%vm_iter_elem; [|apply (ok_inv _ Ho)]. by apply (ok_values _ Ho). }
    revert d Hd. induction (vm_iter (properties o)) as [|[p v] l IH]; intros d Hd; [done|]. cbn [fold_left]. apply IH.
    { intros q w Hq. apply Hv. by right. }
    unfold index_step. cbn. destruct (find_indexed p) as [x|] eqn:Ex; [|done]. eapply index_value_ok; [done..| |].
    + destruct del; [by right|by left].
    + apply Hv; [by left|by rewrite Ex].
  - intros p s t Hs%vm_iter_elem Ht%elem_of_elements; [|apply (ok_inv _ Ho)]. by apply (ok_canonical _ Ho p s).
Qed.

(** ** The life of an object in the store

    What the handlers of the object types do: an object is created with its
    first edits, then rounds of edits are merged and written, and in the end it
    is deleted. Each round writes a batch with the document and the changes to
    log. *)
Record round := mkRound { rd_edits : list (edit P V); rd_timestamp : Z; rd_changes : VecMap Collection.t Batch.Change }.

Definition write_round (r : round) (s : store) (action : WriteAction) : option store :=
  match write language (rd_timestamp r) s (mkBatch a (rd_changes r) [action] []) with
  | Ok (s, _) => Some s
  | _ => None
  end.
Definition object_create (r : round) (s : store) : option (TinyORM P V * store) :=
  let o := edited orm_new (rd_edits r) in
  d ← orm_insert o (document_new collection i);
  s ← write_round r s (WInsert d);
  Some (o, s).
Fixpoint object_updates (rs : list round) (os : TinyORM P V * store) : option (TinyORM P V * store) :=
  match rs with
  | [] => Some os
  | r :: rs =>
      '(o, d, _) ← orm_merge os.1 (document_new collection i) (edited (track_changes os.1) (rd_edits r));
      s ← write_round r os.2 (WUpdate d);
      object_updates rs (o, s)
  end.
Definition object_destroy (r : round) (os : TinyORM P V * store) : option store :=
  write_round r os.2 (WDelete (orm_delete os.1 (document_new collection i))).

(** The store holds the object: the keys of the sorted index, the bitmaps of
    the tags, the rights, and the serialized object. *)
Record object_stored (s : store) (o : TinyORM P V) : Prop := {
  os_index p opts b : find_indexed p = Some opts -> is_index opts = true ->
    is_Some (db_get (bl_db (s_blobs s)) Indexes (index_key a collection i (property_id p) b)) <->
    exists e, e ∈ entries p (orm_get o p) /\ entry_bytes e = b;
  os_tags p t : canonical t -> exists bm,
    bitmap_value (db_get (bl_db (s_blobs s)) Bitmaps (BitmapKey.serialize_tag a collection (property_id p) t)) = Some bm /\
    (i ∈ bm <-> t ∈ default ∅ (get_tags o p));
  os_acls id : fits 32 id ->
    db_get (bl_db (s_blobs s)) Values (ValueKey.serialize_acl id a collection i) = le_bytes 8 <$> rights (acls o) id;
  os_object : db_get (bl_db (s_blobs s)) Values (Write.value_key a collection i FIELD_ID) = orm_serialize o }.

(** The store holds nothing of the document. *)
Record nothing_stored (s : store) : Prop := {
  ns_index p opts b : find_indexed p = Some opts -> is_index opts = true ->
    db_get (bl_db (s_blobs s)) Indexes (index_key a collection i (property_id (p : P)) b) = None;
  ns_tags (p : P) t : canonical t -> exists bm,
    bitmap_value (db_get (bl_db (s_blobs s)) Bitmaps (BitmapKey.serialize_tag a collection (property_id p) t)) = Some bm /\ i ∉ bm;
  ns_acls id : fits 32 id -> db_get (bl_db (s_blobs s)) Values (ValueKey.serialize_acl id a collection i) = None;
  ns_object : db_get (bl_db (s_blobs s)) Values (Write.value_key a collection i FIELD_ID) = None;
  ns_term_index : db_get (bl_db (s_blobs s)) Values (term_index_key a collection i) = None }.

Lemma nothing_represents s : nothing_stored s -> s_tombstone_deletions s = false -> represents s stored_empty.
Proof.
  intros [Hi Ht Ha Ho Hx] Hl. split; cbn; try done.
  - intros p o b Hp Ho'. rewrite (Hi p o b Hp Ho'). split; [by intros []|]. by intros (e & _ & _ & []).
  - intros p t Hc. destruct (Ht p t Hc) as (bm & Hbm & Hin). exists bm. tauto.
Qed.
Lemma represents_nothing s x :
  represents s x -> (forall p e, ~ st_index x (property_id (p : P)) e) -> (forall p t, ~ st_tag x (property_id (p : P)) t) ->
  (forall id, st_acl x id = None) -> st_object x = None -> nothing_stored s.
Proof.
  intros [Hi Ht Ha Ho Hx Hl] Ni Nt Na No. split; [..|done].
  - intros p o b Hp Hop. apply eq_None_not_Some. intros (e & _ & _ & He)%(Hi p o b Hp Hop). by apply Ni in He.
  - intros p t Hc. destruct (Ht p t Hc) as (bm & Hbm & Hin). exists bm. split; [done|]. intros ?%Hin. by eapply Nt.
  - intros id Hid. by rewrite Ha, Na.
  - by rewrite Ho.
Qed.
Lemma represents_object s x (o : TinyORM P V) : represents s x -> Orm.holds x o -> orm_ok o -> object_stored s o.
Proof.
  intros [Hi Ht Ha Hb Hx Hl] Hh Ho. split.
  - intros p opts b Hp Hop. rewrite (Hi p opts b Hp Hop). split.
    + intros (e & _ & Hbe & He). exists e. split; [|done]. by apply (holds_index _ _ Hh).
    + intros (e & He & Hbe). exists e. split; [|split; [done|by apply (holds_index _ _ Hh)]].
      unfold entries in He. rewrite Hp in He. destruct (orm_get o p) as [v|] eqn:Ev; [|by apply elem_of_nil in He].
      pose proof (ok_values _ Ho p v Ev ltac:(by rewrite Hp)) as Hv. unfold value_ok in Hv. rewrite Forall_forall in Hv. by apply Hv.
  - intros p t Hc. destruct (Ht p t Hc) as (bm & Hbm & Hin). exists bm. split; [done|]. by rewrite Hin, (holds_tags _ _ Hh).
  - intros id Hid. by rewrite Ha, (holds_acls _ _ Hh).
  - by rewrite Hb, (holds_object _ _ Hh).
Qed.

Hypothesis some_indexed : indexed (P := P) <> [].
Hypothesis serializes : forall o : TinyORM P V, is_Some (orm_serialize o).

Lemma orm_merge_total (o changes : TinyORM P V) d : is_Some (orm_merge o d changes).
Proof.
  unfold orm_merge. destruct (_ || _); [|by eexists]. unfold insert_orm.
  match goal with |- context [orm_serialize ?x] => destruct (serializes x) as [bytes ->] end. by eexists.
Qed.

Lemma write_round_ok r s x action :
  doc_ok (action_document action) -> represents s x ->
  exists s', write_round r s action = Some s' /\ represents s' (apply_document x (action_document action)).
Proof.
  intros Hd Hs. destruct (write_represents s x (rd_timestamp r) (rd_changes r) action Hd Hs) as (s' & c & Hw & Hr).
  exists s'. unfold write_round. by rewrite Hw.
Qed.

Lemma object_create_ok r s :
  Forall edit_ok (rd_edits r) -> represents s stored_empty ->
  exists o s' x, object_create r s = Some (o, s') /\ represents s' x /\ Orm.holds x o /\ orm_ok o.
Proof.
  intros He Hs. set (o := edited orm_new (rd_edits r)). assert (orm_ok o) as Ho by (apply edited_ok; [done|apply orm_new_ok]).
  assert (exists d, orm_insert o (document_new collection i) = Some d) as [d Hd].
  { unfold orm_insert, insert_orm. destruct (serializes o) as [bytes ->]. by eexists. }
  destruct (write_round_ok r s stored_empty (WInsert d)) as (s' & Hw & Hr); [|done|].
  { cbn. revert Hd. unfold orm_insert, insert_orm. destruct (orm_serialize o); [|done]. intros [= <-].
    apply update_document_ok; [done..|]. apply (document_binary_ok (document_new collection i)), document_new_ok. }
  exists o, s', (apply_document stored_empty d). split; [|split; [done|split; [|done]]].
  - unfold object_create. fold o. rewrite Hd. cbn [mbind option_bind]. by rewrite Hw.
  - eapply object_insert_holds; [apply Ho|by intros ?|done].
Qed.

Lemma object_updates_ok rs s x o :
  Forall (fun r => Forall edit_ok (rd_edits r)) rs -> represents s x -> Orm.holds x o -> orm_ok o ->
  exists o' s' x', object_updates rs (o, s) = Some (o', s') /\ represents s' x' /\ Orm.holds x' o' /\ orm_ok o'.
Proof.
  intros Hrs. revert s x o. induction Hrs as [|r rs Hr _ IH]; intros s x o Hs Hx Ho; [by exists o, s, x|].
  pose proof (edited_ok _ _ Hr (track_changes_ok _ Ho)) as Hc.
  destruct (edited_inv (rd_edits r) (track_changes o) (ok_inv _ (track_changes_ok _ Ho))) as [_ Hk].
  destruct (orm_merge_total o (edited (track_changes o) (rd_edits r)) (document_new collection i)) as [[[o1 d] b] Hm].
  destruct (orm_merge_holds o _ o1 collection i d b x (ok_inv _ Ho) (ok_inv _ Hc) Hk Hm Hx) as (Hi1 & Hx1 & _).
  destruct (orm_merge_ok o _ o1 d b Ho Hc Hi1 Hm) as [Ho1 Hd].
  destruct (write_round_ok r s x (WUpdate d) Hd Hs) as (s1 & Hw & Hs1). cbn [action_document] in Hs1.
  destruct (IH s1 _ o1 Hs1 Hx1 Ho1) as (o' & s' & x' & Hu & Hrest). exists o', s', x'. split; [|done].
  cbn [object_updates fst snd]. rewrite Hm. cbn [mbind option_bind]. rewrite Hw. exact Hu.
Qed.

Lemma object_destroy_ok r s x o :
  represents s x -> Orm.holds x o -> orm_ok o -> exists s', object_destroy r (o, s) = Some s' /\ nothing_stored s'.
Proof.
  intros Hs Hx Ho. destruct (write_round_ok r s x (WDelete (orm_delete o (document_new collection i)))) as (s' & Hw & Hr); [|done|].
  { apply update_document_ok; [done..|]. by apply document_binary_ok, document_new_ok. }
  exists s'. split; [exact Hw|]. cbn [action_document] in Hr.
  destruct (object_delete_holds o collection i x (ok_inv _ Ho) ltac:(by intros ?) Hx) as (Ni & Nt & Na & No).
  by eapply represents_nothing.
Qed.
End Implements.

(** C4. Objects through the writer. An object is created from edits
    (properties set and removed, tags, access rights), changed by rounds of
    edits that are merged into it, and deleted, each time by a batch that the
    store writes. The store accepts every batch. After every round it holds
    exactly the object: the sorted index has a key of the document under an
    indexed property for exactly the bytes of the entries of the property's
    value, the bitmap of every tag has the document exactly if the object has
    the tag, every account has exactly the rights that the object grants it,
    and the value of the document is the serialized object. After the deletion
    nothing of this is left. (For an object type with at least one indexed
    property and no full-text one, whose properties each have values of one
    kind; tags in the form their key has, where the default tag is the static
    tag 0; objects that bincode accepts; a store that does not keep tombstones.
    The bitmaps of the words of a property are not covered: see
    [shared_word_lost].) *)
Theorem object_indexes_exact `{StoreLaws DB} `{BlobStore E} `{Unicode} `{Linguistics} `{BitPacker} `{WriteEnv} `{RoaringLaws}
    `{!BitmapMerges DB} `{ObjectLaws P V} `{OrmCodec P V} (kind : P -> value_kind) language a i (s : store (DB := DB) (E := E))
    (first : round (P := P) (V := V)) rounds last :
  indexed (P := P) <> [] -> Forall (fun e => is_full_text e.2 = false) (indexed (P := P)) ->
  (forall o : TinyORM P V, is_Some (orm_serialize o)) ->
  fits 32 a -> fits 32 i -> s_tombstone_deletions s = false -> nothing_stored a i s ->
  Forall (edit_ok kind) (rd_edits first) -> Forall (fun r => Forall (edit_ok kind) (rd_edits r)) rounds ->
  exists o1 s1 o s2 s3,
    object_create language a i first s = Some (o1, s1) /\ object_updates language a i rounds (o1, s1) = Some (o, s2) /\
    object_stored a i s2 o /\
    object_destroy language a i last (o, s2) = Some s3 /\ nothing_stored a i s3.
Proof.
  intros Hne Hft Hser Ha Hi Hl Hs He Hes.
  destruct (object_create_ok kind language a i Ha Hi Hft Hne Hser first s He (nothing_represents kind a i s Hs Hl)) as (o1 & s1 & x1 & Hc & Hs1 & Hx1 & Ho1).
  destruct (object_updates_ok kind language a i Ha Hi Hft Hser rounds s1 x1 o1 Hes Hs1 Hx1 Ho1) as (o & s2 & x & Hu & Hs2 & Hx & Ho).
  destruct (object_destroy_ok kind language a i Ha Hi Hft Hne last s2 x o Hs2 Hx Ho) as (s3 & Hd & Hn).
  exists o1, s1, o, s2, s3. split; [done|]. split; [done|]. split; [by eapply represents_object|done].
Qed.

(** ** A sample object: a name, members and mailboxes *)
Module OrmStoreSample.
Inductive property : Set := Name | Members | Mailboxes.
Inductive value : Set := VText (text : list Z) | VMembers (members : list Z) | VNull.
#[export] Instance value_eq_dec : EqDecision value.
Proof. solve_decision. Defined.
#[export] Instance property_eq_dec : EqDecision property.
Proof. solve_decision. Defined.
#[export] Instance value_orm : OrmValue value := {|
  ov_eq_dec := value_eq_dec;
  index_as v := match v with VText t => IText t | VMembers l => IIntegerList l | VNull => INull end;
  value_is_empty v := bool_decide (v = VNull); value_len _ := 0; value_default := VNull |}.
#[export] Instance object : Object property value := {|
  ob_eq_dec := property_eq_dec; ob_value := value_orm;
  property_id p := match p with Name => 0 | Members => 1 | Mailboxes => 2 end;
  required := [Name]; indexed := [(Name, Z.lor F_TOKENIZE F_INDEX); (Members, F_INDEX)]; max_len := []; collection := Collection.Mail |}.
#[export] Instance laws : ObjectLaws property value.
Proof.
  split; [by intros [] []|by intros []|]. cbn. repeat constructor.
Qed.
#[export] Instance codec : OrmCodec property value := {|
  orm_serialize o := Some (match orm_get o Members with Some (VMembers l) => l | _ => [] end); orm_deserialize _ := None |}.
Definition kind (p : property) : value_kind := match p with Members => IntegerValues | _ => TextValues end.

Import WriteSample.
Definition first : round (P := property) (V := value) :=
  mkRound [ESet Name (VText [97; 32; 98]); ESet Members (VMembers [5; 6]); ETag Mailboxes (Id 1); EAclUpdate 5 (bm_from_list [ACL.Read])] 0 changes.
Definition second : round (P := property) (V := value) :=
  mkRound [ESet Name (VText [98]); ESet Members (VMembers [6; 7]); EUntag Mailboxes (Id 1); ETag Mailboxes (Id 3)] 10 changes.
Definition last : round (P := property) (V := value) := mkRound [] 20 changes.
Definition expected : TinyORM property value :=
  mkOrm (mkVecMap [Name; Members] [VText [98]; VMembers [6; 7]]) (mkVecMap [Mailboxes] [{[Id 3]}]) [mkPermission 5 (bm_from_list [ACL.Read])].
Definition after : option (TinyORM property value * store (DB := MemStore.t) (E := unit)) :=
  object_create English 1 8 first empty_store ≫= object_updates English 1 8 [second].
End OrmStoreSample.
Import (hints) OrmStoreSample.
Import WriteSample.

Lemma object_indexes_exact_witness :
  exists s2, OrmStoreSample.after = Some (OrmStoreSample.expected, s2) /\
    is_Some (db_get (bl_db (s_blobs s2)) Indexes (index_key 1 Collection.Mail 8 0 [98])) /\
    ~ is_Some (db_get (bl_db (s_blobs s2)) Indexes (index_key 1 Collection.Mail 8 0 [97; 32; 98])) /\
    exists s3, object_destroy English 1 8 OrmStoreSample.last (OrmStoreSample.expected, s2) = Some s3 /\
      db_get (bl_db (s_blobs s3)) Indexes (index_key 1 Collection.Mail 8 0 [98]) = None.
Proof.
  assert (canonical (Id 1) /\ canonical (Id 3)) as [H1' H3'] by (split; (split; [cbn; unfold fits; lia|done])).
  destruct (object_indexes_exact OrmStoreSample.kind English 1 8 empty_store OrmStoreSample.first [OrmStoreSample.second] OrmStoreSample.last)
    as (o1 & s1 & o & s2 & s3 & Hc & Hu & Hs & Hd & Hn).
  - done.
  - repeat constructor.
  - intros o. by eexists.
  - unfold fits. lia.
  - unfold fits. lia.
  - done.
  - split; intros; cbn [empty_store s_blobs bl_db]; rewrite ?empty_get; try done. by exists ∅.
  - repeat constructor; cbn; unfold is_char, fits; try lia; apply H1'.
  - repeat constructor; cbn; unfold is_char, fits; try lia; apply H3'.
  - assert (OrmStoreSample.after = Some (o, s2)) as Ha by (unfold OrmStoreSample.after; rewrite Hc; exact Hu).
    assert (fst <$> OrmStoreSample.after = Some OrmStoreSample.expected) as Ho by (vm_compute; reflexivity).
    rewrite Ha in Ho. injection Ho as ->. exists s2. split; [exact Ha|].
    assert (forall b, is_Some (db_get (bl_db (s_blobs s2)) Indexes (index_key 1 Collection.Mail 8 0 b)) <-> [98] = b) as Hi.
    { intros b. rewrite (os_index _ _ _ _ Hs OrmStoreSample.Name _ b eq_refl eq_refl). split.
      - by intros (e & ->%list_elem_of_singleton & Hb).
      - intros <-. exists (EText [98]). split; [by apply list_elem_of_singleton|done]. }
    split; [by apply Hi|]. split; [by intros ?%Hi|]. exists s3. split; [exact Hd|].
    apply (ns_index _ _ _ Hn OrmStoreSample.Name _ [98] eq_refl eq_refl).
Defined.
