(* ===== verification/Search.v ===== *)
(** * Full-text search: components/store/src/read/get.rs, and the text
      conditions of read/query.rs over the written index

    The interface [Search] of the query evaluator is implemented here by the
    tokenizers, the stemmer and the stored term indexes, and a written text is
    shown to be found by exactly the queries that share words with it. *)

From S2P Require Import Prelude Lang Leb128 Serialize Types TermIndex Nlp Keys Bitmap BitList VecMap KV Blob ChangeLog RaftLog Read Query Write.

Section Search.
Context `{Store DB} `{BlobStore E} `{Unicode} `{Linguistics} `{BitPacker}.

Definition get_term_index (s : blobs (DB := DB) (E := E)) (account_id : AccountId) (collection : Collection.t)
    (document_id : DocumentId) : res (option TermIndex) :=
  blob_id ← get_as blob_deserialize (bl_db s) Values (ValueKey.serialize_term_index account_id collection document_id);
  match blob_id with
  | Some blob_id =>
      blob ← blob_get s blob_id;
      bytes ← ok_or blob;
      Some <$> ok_or (term_index_deserialize bytes)
  | None => Ok None
  end.

Definition get_term_index_id (s : blobs (DB := DB) (E := E)) (account_id : AccountId) (collection : Collection.t)
    (document_id : DocumentId) : res (option BlobId) :=
  get_as blob_deserialize (bl_db s) Values (ValueKey.serialize_term_index account_id collection document_id).

(** The phrase test of a candidate. *)
Definition phrase_in_document (s : blobs (DB := DB) (E := E)) (account_id : AccountId) (collection : Collection.t)
    (document_id : DocumentId) (phrase : list (list Z)) : res bool :=
  term_index ← get_term_index s account_id collection document_id;
  match term_index with
  | Some term_index =>
      groups ← term_index_match (map (fun w => get_match_term term_index w None) phrase) None true false false term_index;
      Ok (bool_decide (is_Some groups))
  | None => Ok false
  end.

(** The external blobs and the configured language are fixed. *)
Variables (ext : E) (config_language : Language).
Definition text_search : Search DB := {|
  tokenize text language :=
    match tokenizer_tokens text language MAX_TOKEN_LENGTH with
    | Ok tokens => map (fun t => str_bytes (wd_word t)) tokens
    | _ => []
    end;
  stem text language :=
    match stemmer_tokens text language MAX_TOKEN_LENGTH with
    | Ok tokens => map (fun t => (tk_word t, tk_stemmed_word t)) tokens
    | _ => []
    end;
  phrase_matches db := phrase_in_document (mkBlobs db ext);
  default_language := config_language
|}.
End Search.

(** ** Unions of bitmaps *)

Section Unions.
Context `{StoreLaws DB} `{RoaringLaws}.

Definition in_bitmap (db : DB) (key : list Z) (d : DocumentId) : Prop :=
  exists bm, bitmap_value (db_get db Bitmaps key) = Some bm /\ d ∈ bm.
Definition readable (db : DB) : Prop := forall key, is_Some (bitmap_value (db_get db Bitmaps key)).

Lemma union_loop_elem (result : option (gset Z)) bitmaps d :
  d ∈ default ∅ (union_loop result bitmaps) <-> d ∈ default ∅ result \/ exists bm, Some bm ∈ bitmaps /\ d ∈ bm.
Proof.
  revert result. induction bitmaps as [|[bm|] bitmaps IH]; intros result; cbn [union_loop].
  - split; [by left|]. by intros [?|(? & ?%not_elem_of_nil & _)].
  - rewrite IH. setoid_rewrite elem_of_cons. destruct result; cbn; set_solver.
  - rewrite IH. setoid_rewrite elem_of_cons. naive_solver.
Qed.

Lemma get_bitmaps_union_elem db keys :
  readable db -> exists r, get_bitmaps_union db keys = Ok r /\
    forall d, d ∈ default ∅ r <-> exists k, k ∈ keys /\ in_bitmap db k d.
Proof.
  intros Hr. unfold get_bitmaps_union, multi_get_as.
  assert (exists l, res_mapM (get_as bitmap_deserialize db Bitmaps) keys = Ok l /\
    forall d, (exists bm, Some bm ∈ l /\ d ∈ bm) <-> exists k, k ∈ keys /\ in_bitmap db k d) as (l & -> & Hl).
  { induction keys as [|k keys (l & IH & Hl)]; cbn [res_mapM].
    { exists []. split; [done|]. intros d. split; [by intros (? & ?%not_elem_of_nil & _)|by intros (? & ?%not_elem_of_nil & _)]. }
    destruct (Hr k) as [bm Hbm]. unfold bitmap_value in Hbm.
    destruct (db_get db Bitmaps k) as [v|] eqn:Ek.
    - assert (get_as bitmap_deserialize db Bitmaps k = Ok (Some bm)) as -> by (unfold get_as; by rewrite Ek, Hbm).
      cbn [mbind res_bind]. rewrite IH. cbn [mbind res_bind]. eexists. split; [done|].
      intros d. setoid_rewrite elem_of_cons. split.
      + intros (bm' & [[= ->]|Hin] & Hd); [exists k; split; [by left|]; exists bm; unfold bitmap_value; by rewrite Ek|].
        destruct (proj1 (Hl d)) as (k' & ? & ?); [by exists bm'|]. exists k'. split; [by right|done].
      + intros (k' & [->|Hin] & Hd).
        * destruct Hd as (bm' & Hb' & Hd). unfold bitmap_value in Hb'. rewrite Ek in Hb'. exists bm'. split; [left; congruence|done].
        * destruct (proj2 (Hl d)) as (bm' & ? & ?); [by exists k'|]. exists bm'. split; [by right|done].
    - assert (get_as bitmap_deserialize db Bitmaps k = Ok None) as -> by (unfold get_as; by rewrite Ek).
      cbn [mbind res_bind]. rewrite IH. cbn [mbind res_bind]. eexists. split; [done|].
      intros d. setoid_rewrite elem_of_cons. split.
      + intros (bm' & [?|Hin] & Hd); [done|]. destruct (proj1 (Hl d)) as (k' & ? & ?); [by exists bm'|]. exists k'. split; [by right|done].
      + intros (k' & [->|Hin] & Hd).
        * destruct Hd as (bm' & Hb' & Hd). unfold bitmap_value in Hb'. rewrite Ek in Hb'. injection Hb' as <-. by apply not_elem_of_empty in Hd.
        * destruct (proj2 (Hl d)) as (bm' & ? & ?); [by exists k'|]. exists bm'. split; [by right|done]. }
  eexists. split; [done|]. intros d. rewrite union_loop_elem, Hl. cbn. set_solver.
Qed.

(** ** Tokens of a query *)

Lemma token_keys_elem requested keys :
  (forall k, k ∈ (token_keys requested keys).1 <-> k ∈ keys /\ k ∉ requested) /\
  (forall k, k ∈ (token_keys requested keys).2 <-> k ∈ keys \/ k ∈ requested).
Proof.
  revert requested. induction keys as [|key keys IH]; intros requested; cbn [token_keys].
  { split; intros k; cbn [fst snd]; rewrite elem_of_nil; tauto. }
  case_bool_decide as Hr.
  - destruct (IH requested) as [H1' H2']. split; intros k; rewrite ?H1', ?H2', elem_of_cons; naive_solver.
  - destruct (IH (key :: requested)) as [H1' H2']. destruct (token_keys (key :: requested) keys) as [new req]. cbn [fst snd] in *.
    split; intros k; [rewrite elem_of_cons, H1', !elem_of_cons|rewrite H2', !elem_of_cons]; [|naive_solver].
    destruct (decide (k = key)) as [->|]; naive_solver.
Qed.

Context `{!Search DB}.
Variables (db : DB) (a : AccountId) (c : Collection.t) (ids : gset Z) (f : FieldId).
Hypothesis db_readable : readable db.

(** Queries whose words share no form with each other. *)
Definition separate (tokens : list (list Z * option (list Z))) : Prop :=
  forall i j q q' k, i <> j -> tokens !! i = Some q -> tokens !! j = Some q' ->
    k ∈ stem_keys a c f q -> k ∉ stem_keys a c f q'.

Definition token_found (q : list Z * option (list Z)) (d : DocumentId) : Prop :=
  exists k, k ∈ stem_keys a c f q /\ in_bitmap db k d.

Lemma match_tokens_exact requested tb tokens :
  (forall q k, q ∈ tokens -> k ∈ stem_keys a c f q -> k ∉ requested) -> separate tokens ->
  exists r, match_tokens db a c ids f requested tb tokens = Ok r /\ (tokens = [] -> r = tb) /\
    forall d, tokens <> [] \/ tb <> None ->
      d ∈ default ∅ r <-> (tb = None \/ d ∈ default ∅ tb) /\ forall q, q ∈ tokens -> token_found q d.
Proof.
  revert requested tb. induction tokens as [|q tokens IH]; intros requested tb Hreq Hsep; cbn [match_tokens].
  { exists tb. split; [done|]. split; [done|]. intros d [?|Htb]; [done|]. split; [intros Hd; split; [by right|]; by intros q ?%not_elem_of_nil|].
    by intros [[?|?] _]. }
  destruct (token_keys_elem requested (stem_keys a c f q)) as [Hnew Hreq']. 
  destruct (token_keys requested (stem_keys a c f q)) as [keys req]. cbn [fst snd] in *.
  assert (forall k, k ∈ keys <-> k ∈ stem_keys a c f q) as Hkeys.
  { intros k. rewrite Hnew. split; [tauto|]. intros Hk. split; [done|]. apply (Hreq q); [by apply elem_of_cons; left|done]. }
  assert (keys <> []) as Hne.
  { intros ->. assert (term_key a c f q.1 true ∈ @nil (list Z)) as Hin; [|by apply not_elem_of_nil in Hin].
    apply Hkeys. unfold stem_keys. apply elem_of_app. left. by apply elem_of_cons; left. }
  destruct (get_bitmaps_union_elem db keys db_readable) as (bm & -> & Hbm). destruct keys as [|k0 keys']; [done|].
  cbn [mbind res_bind].
  assert (forall d, d ∈ default ∅ bm <-> token_found q d) as Hfound by (intros d; rewrite Hbm; unfold token_found; by setoid_rewrite Hkeys).
  assert (exists s, apply And tb bm ids = Some s /\ forall d, d ∈ s <-> (tb = None \/ d ∈ default ∅ tb) /\ token_found q d) as (s & Es & Hs).
  { unfold apply. destruct tb as [t|], bm as [b|]; cbn [default] in *; eexists; (split; [done|]); intros d; rewrite <- Hfound;
      [rewrite elem_of_intersection|rewrite !elem_of_empty|..]; try rewrite elem_of_empty; naive_solver. }
  rewrite Es. assert (separate tokens) as Hsep'.
  { intros i j q1 q2 k Hij Hi Hj. apply (Hsep (S i) (S j)); [lia|done|done]. }
  assert (forall q' k, q' ∈ tokens -> k ∈ stem_keys a c f q' -> k ∉ req) as Hreq2.
  { intros q' k Hin Hk [Hk'|Hk']%Hreq'; [|by apply (Hreq q' k); [by apply elem_of_cons; right|..]].
    apply list_elem_of_lookup in Hin as [j Hj]. by apply (Hsep 0%nat (S j) q q' k). }
  case_bool_decide as He.
  - exists (Some s). split; [done|]. split; [done|]. intros d _. cbn [default]. injection He as ->. split; [by intros ?%not_elem_of_empty|].
    intros [Htb Hall]. apply Hs. split; [done|]. apply Hall. by apply elem_of_cons; left.
  - destruct (IH req (Some s) Hreq2 Hsep') as (r & -> & Hnil & Hr). exists r. split; [done|]. split; [done|]. intros d _.
    rewrite Hr by (by right). cbn [default]. rewrite Hs. setoid_rewrite elem_of_cons. split.
    + intros [[?|[Ht Hq]] Hall]; [done|]. split; [done|]. intros q' [->|Hin]; [done|by apply Hall].
    + intros [Ht Hall]. split; [right; split; [done|apply Hall; by left]|]. intros q' Hin. apply Hall. by right.
Qed.
End Unions.

(** ** Written texts *)

(** The forms of a word: itself and its stem. *)
Definition forms (t : StemmedToken) : list (list Z) := tk_word t :: option_list (tk_stemmed_word t).
Definition distinct_forms (tokens : list StemmedToken) : Prop :=
  forall i j t t' w, i <> j -> tokens !! i = Some t -> tokens !! j = Some t' -> w ∈ forms t -> w ∉ forms t'.
Definition query_token (t : StemmedToken) : list Z * option (list Z) := (tk_word t, tk_stemmed_word t).

Lemma term_key_inj a c f w e f' w' e' :
  fits 32 a -> BitmapKey.serialize_term a c f w e = BitmapKey.serialize_term a c f' w' e' -> f = f' /\ w = w' /\ e = e'.
Proof.
  intros Ha Heq. pose proof (bitmap_key_bytes_inj (KTerm a c f w e) (KTerm a c f' w' e') (conj Ha I) (conj Ha I) Heq) as Hk.
  by injection Hk.
Qed.

Lemma stem_keys_elem a c f t k :
  k ∈ stem_keys a c f (query_token t) <-> exists w e, w ∈ forms t /\ k = BitmapKey.serialize_term a c f w e.
Proof.
  unfold stem_keys, term_key, query_token, forms. cbn [fst snd]. rewrite elem_of_app, elem_of_cons, list_elem_of_singleton. split.
  - intros [[->| ->]|Hk]; [exists (tk_word t), true|exists (tk_word t), false|]; [split; [by apply elem_of_cons; left|done]..|].
    destruct (tk_stemmed_word t) as [w|]; [|by apply not_elem_of_nil in Hk]. rewrite elem_of_cons, list_elem_of_singleton in Hk.
    destruct Hk as [->| ->]; [exists w, true|exists w, false]; (split; [|done]); apply elem_of_cons; right; by apply elem_of_cons; left.
  - intros (w & e & [->|Hw]%elem_of_cons & ->); [left; destruct e; [by left|by right]|]. right.
    destruct (tk_stemmed_word t) as [w'|]; [|by apply not_elem_of_nil in Hw]. cbn in Hw. apply list_elem_of_singleton in Hw as ->.
    rewrite elem_of_cons, list_elem_of_singleton. destruct e; [by left|by right].
Qed.

Lemma distinct_separate a c f tokens :
  fits 32 a -> distinct_forms tokens -> separate a c f (map query_token tokens).
Proof.
  intros Ha Hd i j q q' k Hij Hi Hj Hk Hk'. rewrite list_lookup_fmap in Hi, Hj.
  destruct (tokens !! i) as [t|] eqn:Ei; [|done]. destruct (tokens !! j) as [t'|] eqn:Ej; [|done]. injection Hi as <-. injection Hj as <-.
  apply stem_keys_elem in Hk as (w & e & Hw & ->), Hk' as (w' & e' & Hw' & Heq).
  apply term_key_inj in Heq as (_ & -> & _); [|done]. by apply (Hd i j t t' w').
Qed.

(** A query word and a text word that share a form: the text is stored under
    its word and under its stem. *)
Definition shares_form (q t : StemmedToken) : Prop :=
  tk_word t ∈ forms q \/ exists w, tk_stemmed_word t = Some w /\ w ∈ forms q.

Lemma shares_keys a c f f' q t :
  fits 32 a ->
  (exists k, k ∈ stem_keys a c f (query_token q) /\ k ∈ token_keys_of a c f' t) <-> f = f' /\ shares_form q t.
Proof.
  intros Ha. unfold token_keys_of, shares_form. split.
  - intros (k & (w & e & Hw & ->)%stem_keys_elem & [Heq|Hk]%elem_of_cons).
    + apply term_key_inj in Heq as (-> & -> & _); [|done]. split; [done|by left].
    + destruct (tk_stemmed_word t) as [w'|]; [|by apply not_elem_of_nil in Hk]. apply list_elem_of_singleton in Hk.
      apply term_key_inj in Hk as (-> & -> & _); [|done]. split; [done|]. right. by exists w'.
  - intros [-> [Hw|(w & Hs & Hw)]].
    + exists (BitmapKey.serialize_term a c f' (tk_word t) true). split; [apply stem_keys_elem; by eexists _, _|by apply elem_of_cons; left].
    + exists (BitmapKey.serialize_term a c f' w false). split; [apply stem_keys_elem; by eexists _, _|]. rewrite Hs.
      apply elem_of_cons. right. by apply elem_of_cons; left.
Qed.

Section Written.
Context `{StoreLaws DB} `{BlobStore E} `{UnicodeLaws} `{LinguisticsLaws} `{BitPackerLaws} `{WriteEnv} `{RoaringLaws} `{!BitmapMerges DB}.
Variables (language : Language) (timestamp : Z) (a : AccountId) (c : Collection.t) (d : DocumentId).

Definition field_language (default : Language) (fld : Field Text) : Language :=
  if bool_decide (tx_language (f_value fld) = Unknown) then default else tx_language (f_value fld).
(** A word of a full-text field of the document. *)
Definition indexed_word (fields : list (Field Text)) (f : FieldId) (t : StemmedToken) : Prop :=
  exists fld tokens, fld ∈ fields /\ f_field fld = f /\
    stemmer_tokens (tx_text (f_value fld)) (field_language (batch_language language fields) fld) MAX_TOKEN_LENGTH = Ok tokens /\
    t ∈ tokens.

Lemma full_text_keys lang fld keys :
  full_text_wf lang fld -> text_keys a c lang fld = Ok keys ->
  exists tokens, stemmer_tokens (tx_text (f_value fld)) (field_language lang fld) MAX_TOKEN_LENGTH = Ok tokens /\
    keys = tokens ≫= token_keys_of a c (f_field fld).
Proof.
  intros Hf. pose proof (ft_options _ _ Hf) as Ho. unfold is_full_text in Ho. apply Z.leb_le in Ho. unfold F_FULL_TEXT in Ho.
  unfold text_keys. rewrite !(proj2 (Z.eqb_neq (get_text_options (f_options fld)) _)) by (unfold F_KEYWORD, F_TOKENIZE, F_NONE; lia).
  fold (field_language lang fld). destruct (stemmer_tokens _ _ _) as [tokens| |]; [|done..]. cbn [mbind res_bind].
  intros [= <-]. by exists tokens.
Qed.

(** The keys of the texts, all of them set. *)
Lemma text_bits_keys lang fields texts :
  Forall (full_text_wf lang) fields -> res_mapM (text_bits a c lang) fields = Ok texts ->
  exists keys, concat texts = map (fun k => (k, true)) keys /\
    forall k, k ∈ keys <-> exists fld tokens t, fld ∈ fields /\
      stemmer_tokens (tx_text (f_value fld)) (field_language lang fld) MAX_TOKEN_LENGTH = Ok tokens /\
      t ∈ tokens /\ k ∈ token_keys_of a c (f_field fld) t.
Proof.
  intros Hf. revert texts. induction Hf as [|fld fields Hfld _ IH]; intros texts; cbn [res_mapM].
  { intros [= <-]. exists []. split; [done|]. intros k. rewrite elem_of_nil. split; [done|]. by intros (? & ? & ? & ?%not_elem_of_nil & _). }
  destruct (text_bits a c lang fld) as [l| |] eqn:El; [|done..]. unfold text_bits in El.
  destruct (text_keys a c lang fld) as [keys| |] eqn:Ek; [|done..]. cbn [mbind res_bind] in *. injection El as <-.
  destruct (res_mapM _ fields) as [texts'| |]; [|done..]. cbn [mbind res_bind]. intros [= <-].
  destruct (IH texts' eq_refl) as (keys' & Hc & Hk'). destruct (full_text_keys _ _ _ Hfld Ek) as (tokens & Et & ->).
  exists ((tokens ≫= token_keys_of a c (f_field fld)) ++ keys'). cbn [concat]. rewrite Hc, (ft_set _ _ Hfld), map_app. split; [done|].
  intros k. rewrite elem_of_app, Hk', list_elem_of_bind. split.
  - intros [(t & Hk & Ht)|(fld' & toks & t & Hin & ?)]; [exists fld, tokens, t|exists fld', toks, t].
    + split_and!; [by apply elem_of_cons; left|done..].
    + split; [by apply elem_of_cons; right|done].
  - intros (fld' & toks & t & [->|Hin]%elem_of_cons & Etk & Ht & Hk); [left|right; by exists fld', toks, t].
    rewrite Et in Etk. injection Etk as <-. by exists t.
Qed.

Lemma last_bit_all_true keys key x :
  last_bit (doc_effects d (map (fun k => (k, true)) keys)) key x = if decide (x = d /\ key ∈ keys) then Some true else None.
Proof. pose proof (assigned_keys d true keys key x) as Hk. rewrite assigned_bits in Hk. by destruct (last_bit _ key x). Qed.

Lemma insert_bitmaps s fields changes s1 r :
  insertable language a c d s fields ->
  write language timestamp s (mkBatch a changes [WInsert (text_document c d fields)] []) = Ok (s1, r) ->
  exists keys, (forall k, k ∈ keys <-> exists fld tokens t, fld ∈ fields /\
      stemmer_tokens (tx_text (f_value fld)) (field_language (batch_language language fields) fld) MAX_TOKEN_LENGTH = Ok tokens /\
      t ∈ tokens /\ k ∈ token_keys_of a c (f_field fld) t) /\
    (readable (bl_db (s_blobs s)) -> readable (bl_db (s_blobs s1)) /\
      forall k, in_bitmap (bl_db (s_blobs s1)) k d <-> k ∈ BitmapKey.serialize_document_ids a c :: keys).
Proof.
  intros Hin Hw. pose proof Hw as (st & _ & _ & Hp & _)%write_spec.
  destruct (prepare_documents_plain _ _ _ _ _ [WInsert (text_document c d fields)] _ ltac:(repeat constructor) Hp) as (effects & He & Has).
  unfold batch_effects, action_bits in He. cbn [res_mapM action_document text_document d_collection d_text_fields d_tag_fields d_document_id map] in He.
  destruct (res_mapM (text_bits a c (batch_language language fields)) fields) as [texts| |] eqn:Et; [|done..]. cbn [mbind res_bind] in He.
  destruct (text_bits_keys _ _ _ (in_fields _ _ _ _ _ _ Hin) Et) as (keys & Hc & Hk). exists keys. split; [done|]. intros Hr.
  injection He as <-. cbn [concat] in Has. rewrite !app_nil_r, Hc in Has.
  change ((BitmapKey.serialize_document_ids a c, d, true) :: doc_effects d (map (fun k => (k, true)) keys)) with
    (doc_effects d (map (fun k => (k, true)) (BitmapKey.serialize_document_ids a c :: keys))) in Has.
  assert (forall k bm, bitmap_value (db_get (bl_db (s_blobs s)) Bitmaps k) = Some bm ->
    exists bm1, bitmap_value (db_get (bl_db (s_blobs s1)) Bitmaps k) = Some bm1 /\
      (d ∈ bm1 <-> k ∈ BitmapKey.serialize_document_ids a c :: keys)) as Hbm.
  { intros k bm Hb. destruct (write_bitmap _ _ _ _ _ _ _ _ _ k bm Hw Hp) as (bm1 & Hb1 & Ha); [apply Forall_singleton, Hin|done|].
    exists bm1. split; [done|]. rewrite (Ha d), Has, last_bit_all_true. cbn [pr_bitmaps]. unfold assigned. rewrite lookup_empty.
    pose proof (in_no_bit _ _ _ _ _ _ Hin k bm Hb). destruct (decide _) as [[_ ?]|Hn]; [naive_solver|].
    cbn [mbind option_bind]. split; [done|]. intros ?. destruct Hn. done. }
  split.
  - intros k. destruct (Hr k) as [bm Hb]. destruct (Hbm k bm Hb) as (bm1 & -> & _). by eexists.
  - intros k. destruct (Hr k) as [bm Hb]. destruct (Hbm k bm Hb) as (bm1 & Hb1 & Hd). rewrite <- Hd. unfold in_bitmap. rewrite Hb1.
    split; [by intros (? & [= <-] & ?)|]. intros ?. by exists bm1.
Qed.
End Written.

(** ** Properties *)

(** C8. A written text is found by its words. After a new document with
    full-text fields is written, a query for words (not for a phrase), no two of
    which share a form, so that no word is repeated either, returns the document
    exactly when each of its words shares a form (the word or its stem) with a
    word of that field. A repeated word or a common stem is excluded:
    [common_stem_misses] shows what happens then. This composes the
    tokenizer, the stemmer, the write path, the bitmap encoding and merging,
    the key layout and the query evaluator. *)
Theorem written_text_found `{StoreLaws DB} `{BlobStore E} `{UnicodeLaws} `{LinguisticsLaws} `{BitPackerLaws} `{WriteEnv}
    `{RoaringLaws} `{!BitmapMerges DB} language timestamp a c d (s : store (DB := DB) (E := E)) fields changes s1 r ext ids f text lang tokens :
  insertable language a c d s fields -> fits 32 a -> readable (bl_db (s_blobs s)) ->
  write language timestamp s (mkBatch a changes [WInsert (text_document c d fields)] []) = Ok (s1, r) ->
  stemmer_tokens text (if bool_decide (lang = Unknown) then language else lang) MAX_TOKEN_LENGTH = Ok tokens ->
  tokens <> [] -> distinct_forms tokens ->
  exists result,
    eval_condition (Search0 := text_search (E := E) ext language) (bl_db (s_blobs s1)) a c ids (mkCondition f Equal (Match text lang false)) = Ok result /\
    (d ∈ default ∅ result <-> forall q, q ∈ tokens -> exists t, indexed_word language fields f t /\ shares_form q t).
Proof.
  intros Hin Ha Hr Hw Htok Hne Hdist. destruct (insert_bitmaps _ _ _ _ _ _ _ _ _ _ Hin Hw) as (keys & Hk & Hrd).
  destruct (Hrd Hr) as [Hr1 Hd]. unfold eval_condition. cbn [fc_value fc_field]. unfold stem, text_search, default_language. rewrite Htok.
  change (map (fun t => (tk_word t, tk_stemmed_word t)) tokens) with (map query_token tokens).
  destruct (match_tokens_exact (bl_db (s_blobs s1)) a c ids f Hr1 [] None (map query_token tokens)) as (result & E1 & _ & Hres).
  { intros q k _ _. apply not_elem_of_nil. }
  { by apply distinct_separate. }
  exists result. split; [exact E1|]. rewrite Hres by (left; by destruct tokens). split.
  - intros [_ Hall] q Hq. destruct (Hall (query_token q)) as (k & Hks & Hkd); [by apply list_elem_of_fmap_2|].
    apply Hd, elem_of_cons in Hkd as [->|Hkd].
    { apply stem_keys_elem in Hks as (w & e & _ & Heq).
      pose proof (bitmap_key_bytes_inj (KDocumentIds a c) (KTerm a c f w e) (conj Ha I) (conj Ha I) Heq). done. }
    apply Hk in Hkd as (fld & toks & t & Hfld & Et & Ht & Hkt).
    destruct (proj1 (shares_keys a c f (f_field fld) q t Ha)) as [-> Hsh]; [by exists k|]. exists t. split; [|done]. by exists fld, toks.
  - intros Hall. split; [by left|]. intros q' (q & -> & Hq)%list_elem_of_fmap. destruct (Hall q Hq) as (t & (fld & toks & Hfld & <- & Et & Ht) & Hsh).
    destruct (proj2 (shares_keys a c (f_field fld) (f_field fld) q t Ha)) as (k & Hks & Hkt); [done|]. exists k. split; [done|].
    apply Hd, elem_of_cons. right. apply Hk. by exists fld, toks, t.
Qed.

Import WriteSample.

Lemma written_text_found_witness :
  exists result, eval_condition (Search0 := text_search tt English) (bl_db (s_blobs inserted)) 1 Collection.Mail ∅
      (mkCondition 3 Equal (Match [67; 65; 84] English false)) = Ok result /\
    (8 ∈ default ∅ result <->
     forall q, q ∈ [mkToken [99; 97; 116] None 0 3] -> exists t, indexed_word English [cats] 3 t /\ shares_form q t).
Proof.
  apply (written_text_found English 0 1 Collection.Mail 8 empty_store [cats] changes inserted reported tt ∅ 3 [67; 65; 84] English
    [mkToken [99; 97; 116] None 0 3] sample_insertable).
  - split; lia.
  - intros key. cbn [empty_store s_blobs bl_db]. rewrite empty_get. by eexists.
  - exact insert_runs.
  - vm_compute. reflexivity.
  - discriminate.
  - intros i j t t' w Hij Hi Hj. destruct i, j; [lia|done..].
Defined.

(** A document whose text is the word "baked". *)
Definition baked : Field Text := mkField 3 (opt_full_text 0 0) (mkText [98; 97; 107; 101; 100] English).

(** Words with a common stem shadow each other: a document with the word
    "baked" is found by a search for "baked", by one for "bakes" and by one
    for "bakes baked", but not by a search for "baked bakes", because the
    second word is only looked up under the keys the first one did not
    request, and their common stem is not among them. *)
Theorem common_stem_misses :
  exists s r, write English 0 empty_store (mkBatch 1 changes [WInsert (text_document Collection.Mail 8 [baked])] []) = Ok (s, r) /\
    let search text := eval_condition (Search0 := text_search tt English) (bl_db (s_blobs s)) 1 Collection.Mail ∅
      (mkCondition 3 Equal (Match text English false)) in
    search [98; 97; 107; 101; 100] = Ok (Some {[8]}) /\
    search [98; 97; 107; 101; 115] = Ok (Some {[8]}) /\
    search [98; 97; 107; 101; 115; 32; 98; 97; 107; 101; 100] = Ok (Some {[8]}) /\
    search [98; 97; 107; 101; 100; 32; 98; 97; 107; 101; 115] = Ok (Some ∅).
Proof.
  destruct (write _ _ _ _) as [[s r]| |] eqn:E; [|vm_compute in E; discriminate..].
  exists s, r. split; [done|]. vm_compute in E. injection E as <- <-. split_and!; vm_compute; reflexivity.
Qed.
