(* ===== verification/Gossip.v ===== *)
(** * Gossip packets: src/cluster/gossip/request.rs, gossip/mod.rs

    The nodes of a cluster exchange their view of each other in UDP packets.
    The number that opens a packet tells its kind: a join request, a reply, or,
    for the three packets that carry peers, the number of peers plus 2 (ping),
    3 (pong) or 4 (leave); a reader that finds fewer peers than announced
    recovers the kind from the difference. *)

From S2P Require Import Prelude Leb128.

Abbreviation PeerId := Z (only parsing).
Abbreviation ShardId := Z (only parsing).
Abbreviation EpochId := Z (only parsing).
Abbreviation GenerationId := Z (only parsing).

Definition UDP_MAX_PAYLOAD : Z := 65500.

Record PeerStatus : Set := mkPeerStatus {
  ps_peer_id : PeerId; ps_epoch : EpochId; ps_generation : GenerationId; ps_last_log_term : Z; ps_last_log_index : Z }.
(** [std::mem::size_of::<PeerStatus>()]: five [u64]. *)
Definition PEER_STATUS_SIZE : Z := 40.

Inductive GossipRequest : Set :=
| Join (id port : Z)
| JoinReply (id : Z)
| Ping (peers : list PeerStatus)
| Pong (peers : list PeerStatus)
| Leave (peers : list PeerStatus).

Definition JOIN : Z := 0.
Definition JOIN_REPLY : Z := 1.
Definition PING : Z := 2.
Definition PONG : Z := 3.
Definition LEAVE : Z := 4.

(** The loop [while num_peers > 0], and how many peers were missing. *)
Fixpoint read_peers (num_peers : nat) (it : list Z) : option (list PeerStatus * nat) :=
  match num_peers with
  | O => Some ([], O)
  | S n =>
      match next_leb128 U64 it with
      | None => Some ([], num_peers)
      | Some (peer_id, it) =>
          '(epoch, it) ← next_leb128 U64 it;
          '(generation, it) ← next_leb128 U64 it;
          '(last_log_term, it) ← next_leb128 U64 it;
          '(last_log_index, it) ← next_leb128 U64 it;
          '(peers, missing) ← read_peers n it;
          Some (mkPeerStatus peer_id epoch generation last_log_term last_log_index :: peers, missing)
      end
  end.

(** [Vec::with_capacity(num_peers - 2)] panics when the subtraction underflows:
    on the subtraction in a debug build, on the capacity in a release build. *)
Definition from_bytes (bytes : list Z) : res (option GossipRequest) :=
  match next_leb128 Usize bytes with
  | None => Ok None
  | Some (kind, it) =>
      if kind =? JOIN then
        Ok ('(id, it) ← next_leb128 Usize it; '(port, it) ← next_leb128 U16 it; Some (Join id port))
      else if kind =? JOIN_REPLY then
        Ok ('(id, it) ← next_leb128 Usize it; Some (JoinReply id))
      else
        let num_peers := kind - PING in
        if UDP_MAX_PAYLOAD / PEER_STATUS_SIZE <? num_peers then Ok None
        else if num_peers <? 2 then Panic
        else
          Ok ('(peers, missing) ← read_peers (Z.to_nat num_peers) it;
              match missing with
              | 0%nat => Some (Ping peers)
              | 1%nat => Some (Pong peers)
              | 2%nat => Some (Leave peers)
              | _ => None
              end)
  end.

Definition status_bytes (peer : PeerStatus) : list Z :=
  push_leb128 (push_leb128 (push_leb128 (push_leb128 (push_leb128 [] (ps_peer_id peer)) (ps_epoch peer))
    (ps_generation peer)) (ps_last_log_term peer)) (ps_last_log_index peer).

(** [to_bytes] at the time [timestamp]. *)
Definition to_bytes (timestamp : Z) (request : GossipRequest) : list Z :=
  let peers_bytes flag peers := push_leb128 [] (flag + Z.of_nat (length peers)) ++ flat_map status_bytes peers in
  match request with
  | Join id port => push_leb128 (push_leb128 (push_leb128 [JOIN] id) port) timestamp
  | JoinReply id => push_leb128 (push_leb128 [JOIN_REPLY] id) timestamp
  | Ping peers => peers_bytes PING peers
  | Pong peers => peers_bytes PONG peers
  | Leave peers => peers_bytes LEAVE peers
  end.

(** ** What a node can send *)

Definition status_fits (p : PeerStatus) : Prop :=
  fits 64 (ps_peer_id p) /\ fits 64 (ps_epoch p) /\ fits 64 (ps_generation p) /\
  fits 64 (ps_last_log_term p) /\ fits 64 (ps_last_log_index p).

Definition request_fits (r : GossipRequest) : Prop :=
  match r with
  | Join id port => fits 64 id /\ fits 16 port
  | JoinReply id => fits 64 id
  | Ping peers => (2 <= length peers <= 1637)%nat /\ Forall status_fits peers
  | Pong peers => (1 <= length peers <= 1636)%nat /\ Forall status_fits peers
  | Leave peers => (length peers <= 1635)%nat /\ Forall status_fits peers
  end.

Lemma read_peers_none n : read_peers n [] = Some ([], n).
Proof. by destruct n. Qed.

Lemma status_bytes_app p rest :
  status_bytes p ++ rest = leb128 (ps_peer_id p) ++ leb128 (ps_epoch p) ++ leb128 (ps_generation p) ++
    leb128 (ps_last_log_term p) ++ leb128 (ps_last_log_index p) ++ rest.
Proof. unfold status_bytes, push_leb128, to_leb128_bytes. by rewrite <- !app_assoc. Qed.

Lemma read_peers_app peers missing :
  Forall status_fits peers -> read_peers (length peers + missing) (flat_map status_bytes peers) = Some (peers, missing).
Proof.
  induction 1 as [|p peers (H1 & H2 & H3 & H4 & H5) _ IH]; [apply read_peers_none|].
  cbn [length Nat.add read_peers flat_map]. rewrite status_bytes_app.
  do 5 (rewrite next_leb128_app by (by apply u64_decodable); cbn [mbind option_bind]).
  rewrite IH. cbn [mbind option_bind]. by destruct p.
Qed.

Lemma peers_roundtrip flag peers missing :
  2 <= flag <= 4 -> missing = Z.to_nat (flag - 2) -> Forall status_fits peers ->
  (2 <= length peers + missing <= 1637)%nat ->
  from_bytes (push_leb128 [] (flag + Z.of_nat (length peers)) ++ flat_map status_bytes peers) =
  Ok (match missing with
      | 0%nat => Some (Ping peers)
      | 1%nat => Some (Pong peers)
      | 2%nat => Some (Leave peers)
      | _ => None
      end).
Proof.
  intros Hf Hm Hp Hl. unfold from_bytes, push_leb128, to_leb128_bytes. cbn [app].
  rewrite next_leb128_app by (apply usize_decodable; unfold fits; lia). unfold JOIN, JOIN_REPLY, PING.
  rewrite !(proj2 (Z.eqb_neq _ _)) by lia. change (UDP_MAX_PAYLOAD / PEER_STATUS_SIZE) with 1637.
  rewrite !(proj2 (Z.ltb_ge _ _)) by lia.
  replace (Z.to_nat (flag + Z.of_nat (length peers) - 2)) with (length peers + missing)%nat by lia.
  by rewrite read_peers_app.
Qed.

(** ** Properties *)

(** A gossip packet is read back as it was sent: joins and replies, and
    the three packets with peers, whose kind the reader recovers from the
    number of missing peers. A ping has at least two peers, the sender and the
    receiver. *)
Theorem gossip_roundtrip timestamp request :
  request_fits request -> from_bytes (to_bytes timestamp request) = Ok (Some request).
Proof.
  destruct request as [id port|id|peers|peers|peers]; cbn [request_fits to_bytes].
  - intros [Hi Hp]. unfold from_bytes, push_leb128, to_leb128_bytes. rewrite <- !app_assoc.
    change [JOIN] with (leb128 0). rewrite next_leb128_app by (by apply usize_decodable; split).
    change (0 =? JOIN) with true. cbn match.
    rewrite next_leb128_app by (by apply usize_decodable). cbn [mbind option_bind].
    by rewrite next_leb128_app by (by apply (decodable_fits U16)).
  - intros Hi. unfold from_bytes, push_leb128, to_leb128_bytes. rewrite <- !app_assoc.
    change [JOIN_REPLY] with (leb128 1). rewrite next_leb128_app by (by apply usize_decodable; split).
    change (1 =? JOIN) with false. change (1 =? JOIN_REPLY) with true. cbn match.
    by rewrite next_leb128_app by (by apply usize_decodable).
  - intros [Hl Hp]. rewrite (peers_roundtrip PING peers 0); [done|unfold PING; lia|done|done|lia].
  - intros [Hl Hp]. rewrite (peers_roundtrip PONG peers 1); [done|unfold PONG; lia|done|done|lia].
  - intros [Hl Hp]. rewrite (peers_roundtrip LEAVE peers 2); [done|unfold LEAVE; lia|done|done|lia].
Qed.

Lemma gossip_roundtrip_witness :
  from_bytes (to_bytes 0 (Leave [mkPeerStatus 7 1 300 4 5])) = Ok (Some (Leave [mkPeerStatus 7 1 300 4 5])).
Proof.
  apply (gossip_roundtrip 0 (Leave [mkPeerStatus 7 1 300 4 5])). split; [cbn; lia|].
  constructor; [|constructor]. unfold status_fits, fits. cbn. lia.
Defined.

(** A packet that announces a single peer in a ping, or none, stops the
    node that reads it: the capacity [num_peers - 2] underflows. *)
Theorem gossip_short_ping_panics peer rest :
  from_bytes (to_bytes 0 (Ping [peer]) ++ rest) = Panic /\ from_bytes (to_bytes 0 (Ping []) ++ rest) = Panic.
Proof. split; reflexivity. Qed.
