(* ===== verification/Cluster.v ===== *)
(** * A node of the cluster: src/cluster

    A node keeps a list of peers, whose health it tracks with a failure
    detector fed by gossip, and takes part in Raft elections: it waits, votes,
    runs for election, follows a leader or leads. The handlers of gossip
    packets, of remote calls and of internal events change the node and
    produce messages ([Output]). Times are milliseconds; an event reads the
    clock and the random generator of the election timer once ([Env]). *)

From Stdlib Require Import SpecFloat.
From S2P Require Import Prelude Lang Leb128 Types Keys KV ChangeLog RaftLog Gossip.

(** ** Data *)

Record Addr : Set := mkAddr { ad_ip : Z; ad_port : Z }.
#[export] Instance addr_eq_dec : EqDecision Addr.
Proof. solve_decision. Defined.

(** [gossip::State]. *)
Inductive PeerState : Set := Seed | Alive | Suspected | Offline | Left_.
#[export] Instance peer_state_eq_dec : EqDecision PeerState.
Proof. solve_decision. Defined.

Record PeerInfo : Set := mkPeerInfo {
  pi_peer_id : PeerId; pi_shard_id : ShardId; pi_epoch : EpochId; pi_last_log_term : Z; pi_last_log_index : LogIndex;
  pi_generation : GenerationId; pi_addr : Addr; pi_hostname : list Z }.

Definition HEARTBEAT_WINDOW : Z := 1 ≪ 10.
Definition HEARTBEAT_WINDOW_MASK : Z := HEARTBEAT_WINDOW - 1.

(** The heartbeat state of a peer. *)
Record Heartbeat : Set := mkHeartbeat {
  last_heartbeat : Z; hb_window : list Z; hb_window_pos : Z; hb_sum : Z; hb_sq_sum : Z; hb_is_full : bool }.
Record Peer : Set := mkPeer {
  peer_id : PeerId; shard_id : ShardId; epoch : EpochId; generation : GenerationId; peer_state : PeerState;
  addr : Addr; hostname : list Z; heartbeat : Heartbeat;
  last_log_index : LogIndex; last_log_term : Z; commit_index : LogIndex; vote_granted : bool }.

(** [raft::State]; the channels to the tasks of a leader or follower are outputs. *)
Inductive State : Set :=
| Leader
| Wait (election_due : Z)
| Candidate (election_due : Z)
| VotedFor (peer_id : PeerId) (election_due : Z)
| Follower (peer_id : PeerId).

(** The parts of the server that the cluster changes. *)
Definition RAFT_LOG_BEHIND : Z := 0.
Definition RAFT_LOG_UPDATED : Z := 1.
Definition RAFT_LOG_LEADER : Z := 2.
Record Core : Set := mkCore {
  core_status : Z; leader_hostname : option (list Z); tombstone_deletions : bool; raft_term : Z; raft_index : LogIndex }.

Record Cluster : Set := mkCluster {
  c_peer_id : PeerId; c_shard_id : ShardId; c_generation : GenerationId; c_epoch : EpochId; c_addr : Addr;
  c_hostname : list Z; raft_election_timeout : Z; peers : list Peer; last_peer_pinged : Z; core : Core;
  term : Z; last_log : RaftId; uncommitted_index : LogIndex; state : State }.

Definition set_peers (c : Cluster) (l : list Peer) : Cluster :=
  mkCluster (c_peer_id c) (c_shard_id c) (c_generation c) (c_epoch c) (c_addr c) (c_hostname c)
    (raft_election_timeout c) l (last_peer_pinged c) (core c) (term c) (last_log c) (uncommitted_index c) (state c).
Definition set_core (c : Cluster) (k : Core) : Cluster :=
  mkCluster (c_peer_id c) (c_shard_id c) (c_generation c) (c_epoch c) (c_addr c) (c_hostname c)
    (raft_election_timeout c) (peers c) (last_peer_pinged c) k (term c) (last_log c) (uncommitted_index c) (state c).
Definition set_epoch (c : Cluster) (e : Z) : Cluster :=
  mkCluster (c_peer_id c) (c_shard_id c) (c_generation c) e (c_addr c) (c_hostname c)
    (raft_election_timeout c) (peers c) (last_peer_pinged c) (core c) (term c) (last_log c) (uncommitted_index c) (state c).
Definition set_pinged (c : Cluster) (p : Z) : Cluster :=
  mkCluster (c_peer_id c) (c_shard_id c) (c_generation c) (c_epoch c) (c_addr c) (c_hostname c)
    (raft_election_timeout c) (peers c) p (core c) (term c) (last_log c) (uncommitted_index c) (state c).
Definition set_log (c : Cluster) (ll : RaftId) (u : Z) : Cluster :=
  mkCluster (c_peer_id c) (c_shard_id c) (c_generation c) (c_epoch c) (c_addr c) (c_hostname c)
    (raft_election_timeout c) (peers c) (last_peer_pinged c) (core c) (term c) ll u (state c).
Definition set_raft (c : Cluster) (tm : Z) (st : State) : Cluster :=
  mkCluster (c_peer_id c) (c_shard_id c) (c_generation c) (c_epoch c) (c_addr c) (c_hostname c)
    (raft_election_timeout c) (peers c) (last_peer_pinged c) (core c) tm (last_log c) (uncommitted_index c) st.

(** Remote calls; the requests of the log synchronization other than [Match]
    and the commands forwarded to a leader are payloads. *)
Inductive AppendEntriesRequest : Set := Match (last_log : RaftId) | Payload (bytes : list Z).
Inductive RpcRequest : Set :=
| UpdatePeers (l : list PeerInfo)
| Vote (tm : Z) (last : RaftId)
| BecomeFollower (tm : Z) (last : RaftId)
| AppendEntries (tm : Z) (request : AppendEntriesRequest)
| Command (payload : list Z)
| RpcPing
| RpcNone.
Inductive RpcResponse : Set :=
| RUpdatePeers (l : list PeerInfo)
| RVote (tm : Z) (granted : bool)
| RStepDown (tm : Z)
| RCommandError
| RPong
| RUnregisteredPeer
| RNone.

(** What a handler does besides changing the node. *)
Inductive Output : Set :=
| SendGossip (dest : Addr) (request : GossipRequest)
| SendRpc (dest : PeerId) (request : RpcRequest)
| Reply (response : RpcResponse)
| ToFollowerTask (request : AppendEntriesRequest)
| SpawnLeader (follower : PeerId)
| SpawnLeaderInit
| BroadcastAppend (last uncommitted : LogIndex)
| CommitLeader (index : LogIndex)
| NotifyCommit (index : LogIndex)
| Reconnect (peer : PeerId) (address : Addr)
| SavePeers (l : list PeerInfo)
| RunCommand (payload : list Z)
| ForwardCommand (dest : PeerId) (payload : list Z)
| CommandError
| StopServices.

(** The clock, a random number in [50..300], what [has_pending_rollback]
    answers, and the functions of the C library the detector uses. *)
Record Env := mkEnv { now : Z; jitter : Z; pending_rollback : res bool; f64_exp : f64 -> f64; f64_log10 : f64 -> f64 }.

Definition ELECTION_TIMEOUT_RAND_FROM : Z := 50.
Definition ELECTION_TIMEOUT_RAND_TO : Z := 300.

(** ** Peers *)

Definition new_heartbeat (env : Env) : Heartbeat := mkHeartbeat (now env) (replicate (Z.to_nat HEARTBEAT_WINDOW) 0) 0 0 0 false.
Definition new_seed (env : Env) (id : PeerId) (a : Addr) : Peer :=
  mkPeer id 0 0 0 Seed a [] (new_heartbeat env) 0 0 0 false.
Definition new_peer (env : Env) (info : PeerInfo) (st : PeerState) : Peer :=
  mkPeer (pi_peer_id info) (pi_shard_id info) (pi_epoch info) (pi_generation info) st (pi_addr info) (pi_hostname info)
    (new_heartbeat env) (pi_last_log_index info) (pi_last_log_term info) (pi_last_log_index info) false.

Definition is_seed (p : Peer) : bool := bool_decide (peer_state p = Seed).
Definition is_healthy (p : Peer) : bool := match peer_state p with Alive | Suspected => true | _ => false end.
Definition is_offline (p : Peer) : bool := match peer_state p with Offline | Left_ => true | _ => false end.
Definition is_in_shard (p : Peer) (shard : ShardId) : bool := shard_id p =? shard.

Definition get_peer (c : Cluster) (id : PeerId) : option Peer := find (fun p => peer_id p =? id) (peers c).
Definition is_known_peer (c : Cluster) (id : PeerId) : bool := existsb (fun p => peer_id p =? id) (peers c).

Definition peer_status (p : Peer) : PeerStatus :=
  mkPeerStatus (peer_id p) (epoch p) (generation p) (last_log_term p) (last_log_index p).
Definition cluster_status (c : Cluster) : PeerStatus :=
  mkPeerStatus (c_peer_id c) (c_epoch c) (c_generation c) (rid_term (last_log c)) (rid_index (last_log c)).
Definition peer_info (p : Peer) : PeerInfo :=
  mkPeerInfo (peer_id p) (shard_id p) (epoch p) (last_log_term p) (last_log_index p) (generation p) (addr p) (hostname p).
Definition cluster_info (c : Cluster) : PeerInfo :=
  mkPeerInfo (c_peer_id c) (c_shard_id c) (c_epoch c) (rid_term (last_log c)) (rid_index (last_log c))
    (c_generation c) (c_addr c) (c_hostname c).
Definition build_peer_status (c : Cluster) : list PeerStatus := cluster_status c :: map peer_status (peers c).
Definition build_peer_info (c : Cluster) : list PeerInfo :=
  cluster_info c :: map peer_info (filter (fun p => is_seed p = false) (peers c)).

Definition shard_status (c : Cluster) : Z * Z :=
  fold_left (fun '(total, healthy) p =>
    if is_in_shard p (c_shard_id c) then (total + 1, if is_healthy p then healthy + 1 else healthy) else (total, healthy))
    (peers c) (0, 0).

(** ** Failure detection *)

Definition set_status (p : Peer) (st : PeerState) (hb : Heartbeat) : Peer :=
  mkPeer (peer_id p) (shard_id p) (epoch p) (generation p) st
    (addr p) (hostname p) hb (last_log_index p) (last_log_term p) (commit_index p) (vote_granted p).

(** The window: the sums are those of its values. *)
Definition hb_record (hb : Heartbeat) (hb_diff : Z) : Heartbeat :=
  let pos := Z.land (hb_window_pos hb + 1) HEARTBEAT_WINDOW_MASK in
  let full := hb_is_full hb || ((pos =? 0) && (0 <? hb_sum hb)) in
  let old := default 0 (hb_window hb !! Z.to_nat pos) in
  let '(sum, sq_sum) :=
    if full then (u64 (hb_sum hb - old), u64 (hb_sq_sum hb - Z.min (old * old) U64_MAX)) else (hb_sum hb, hb_sq_sum hb) in
  mkHeartbeat (last_heartbeat hb) (<[Z.to_nat pos := u32 hb_diff]> (hb_window hb)) pos
    (u64 (sum + hb_diff)) (u64 (sq_sum + Z.min (hb_diff * hb_diff) U64_MAX)) full.

Definition touch (env : Env) (hb : Heartbeat) : Heartbeat :=
  mkHeartbeat (now env) (hb_window hb) (hb_window_pos hb) (hb_sum hb) (hb_sq_sum hb) (hb_is_full hb).

Definition update_heartbeat (env : Env) (p : Peer) (is_direct_ping : bool) : Peer * bool :=
  let hb_diff := Z.min (Z.max 0 (now env - last_heartbeat (heartbeat p))) (60 * 60 * 1000) in
  let hb := touch env (heartbeat p) in
  match peer_state p with
  | Seed | Offline => (set_status p Alive hb, true)
  | Suspected => (set_status p Alive (hb_record hb hb_diff), false)
  | Left_ => if is_direct_ping then (set_status p Alive hb, true) else (set_status p Left_ (hb_record hb hb_diff), false)
  | Alive => (set_status p Alive (hb_record hb hb_diff), false)
  end.

(** The constants of the Phi accrual detector: 0, 300, 5, 9, 1, 1.5976 and 0.070566. *)
Definition HB_MAX_PAUSE_MS : f64 := S754_zero false.
Definition HB_MIN_STD_DEV : f64 := S754_finite false 5277655813324800 (-44).
Definition HB_PHI_SUSPECT_THRESHOLD : f64 := S754_finite false 5629499534213120 (-50).
Definition HB_PHI_CONVICT_THRESHOLD : f64 := S754_finite false 5066549580791808 (-49).
Definition F64_1 : f64 := S754_finite false 4503599627370496 (-52).
Definition F64_1_5976 : f64 := S754_finite false 7194950764687104 (-52).
Definition F64_0_070566 : f64 := S754_finite false 5084816180880423 (-56).
Definition f64_sub : f64 -> f64 -> f64 := SFsub 53 1024.
Definition f64_sqrt : f64 -> f64 := SFsqrt 53 1024.
Definition f64_gt (x y : f64) : bool := SFltb y x.
(** [f64::max] ignores a NaN. *)
Definition f64_max (x y : f64) : f64 :=
  match x, y with S754_nan, _ => y | _, S754_nan => x | _, _ => if SFltb x y then y else x end.

Definition phi (env : Env) (hb : Heartbeat) : f64 :=
  let hb_diff := f64_of (Z.max 0 (now env - last_heartbeat hb)) in
  let sample_size := f64_of (if hb_is_full hb then HEARTBEAT_WINDOW else hb_window_pos hb + 1) in
  let hb_mean := f64_add (f64_div (f64_of (hb_sum hb)) sample_size) HB_MAX_PAUSE_MS in
  let hb_variance := f64_sub (f64_div (f64_of (hb_sq_sum hb)) sample_size) (f64_mul hb_mean hb_mean) in
  let hb_std_dev := f64_sqrt hb_variance in
  let y := f64_div (f64_sub hb_diff hb_mean) (f64_max hb_std_dev HB_MIN_STD_DEV) in
  let e := f64_exp env (f64_mul (SFopp y) (f64_add F64_1_5976 (f64_mul (f64_mul F64_0_070566 y) y))) in
  if f64_gt hb_diff hb_mean then SFopp (f64_log10 env (f64_div e (f64_add F64_1 e)))
  else SFopp (f64_log10 env (f64_sub F64_1 (f64_div F64_1 (f64_add F64_1 e)))).

Definition check_heartbeat (env : Env) (p : Peer) : Peer * bool :=
  if hb_sum (heartbeat p) =? 0 then (p, false)
  else
    let phi := phi env (heartbeat p) in
    if f64_gt phi HB_PHI_CONVICT_THRESHOLD then (set_status p Offline (heartbeat p), false)
    else if f64_gt phi HB_PHI_SUSPECT_THRESHOLD then (set_status p Suspected (heartbeat p), true)
    else (p, true).

(** ** Raft *)

Section Raft.
Variable env : Env.

(** [set_follower] of the server. *)
Definition set_follower (c : Cluster) (leader : option (list Z)) : Cluster * list Output :=
  (set_core c (mkCore RAFT_LOG_BEHIND leader false (raft_term (core c)) (raft_index (core c))), [StopServices]).
(** [set_leader] of the server, once the task of a new leader has replayed its log. *)
Definition set_leader (c : Cluster) (tm : Z) : Cluster :=
  set_core c (mkCore RAFT_LOG_LEADER (leader_hostname (core c)) true tm (raft_index (core c))).
Definition set_up_to_date (c : Cluster) (is_up_to_date : bool) : Cluster :=
  set_core c (mkCore (if is_up_to_date then RAFT_LOG_UPDATED else RAFT_LOG_BEHIND) (leader_hostname (core c))
    (tombstone_deletions (core c)) (raft_term (core c)) (raft_index (core c))).
Definition update_raft_index (c : Cluster) (index : LogIndex) : Cluster :=
  set_core c (mkCore (core_status (core c)) (leader_hostname (core c)) (tombstone_deletions (core c)) (raft_term (core c)) index).

Definition is_leading (c : Cluster) : bool := match state c with Leader => true | _ => false end.
Definition is_candidate (c : Cluster) : bool := match state c with Candidate _ => true | _ => false end.
Definition is_following_peer (c : Cluster) (leader : PeerId) : bool :=
  match state c with Follower id => id =? leader | _ => false end.
Definition leader_peer_id (c : Cluster) : option PeerId :=
  match state c with Leader => Some (c_peer_id c) | Follower id => Some id | _ => None end.
Definition leader_peer (c : Cluster) : option Peer :=
  match state c with Follower id => get_peer c id | _ => None end.

(** Indexes are compared after adding one, which turns the index of an empty log into 0. *)
Definition next_index (index : LogIndex) : Z := u64 (index + 1).
Definition log_is_behind_or_eq (c : Cluster) (tm : Z) (index : LogIndex) : bool :=
  (rid_term (last_log c) <? tm) ||
  ((tm =? rid_term (last_log c)) && (next_index (rid_index (last_log c)) <=? next_index index)).
Definition log_is_behind (c : Cluster) (tm : Z) (index : LogIndex) : bool :=
  (rid_term (last_log c) <? tm) ||
  ((tm =? rid_term (last_log c)) && (next_index (rid_index (last_log c)) <? next_index index)).

Definition election_timeout (c : Cluster) (at_once : bool) : Z :=
  now env + (if at_once then 0 else raft_election_timeout c) + jitter env.
Definition init_state : State := Wait (now env + 1000 + jitter env).
Definition time_to_next_election (c : Cluster) : option Z :=
  match state c with
  | Candidate due | Wait due | VotedFor _ due => Some (if now env <? due then due - now env else 0)
  | _ => None
  end.
Definition is_election_due (c : Cluster) : bool :=
  match state c with Candidate due | Wait due | VotedFor _ due => negb (now env <=? due) | _ => true end.

(** [((total as f64 + 1.0) / 2.0).floor() as u32]; a [u32] is exact in [f64]. *)
Definition half (total : Z) : Z := (total + 1) / 2.
Definition has_election_quorum (c : Cluster) : bool :=
  let '(total, healthy) := shard_status c in half total <=? healthy.

Definition set_vote (p : Peer) (v : bool) : Peer :=
  mkPeer (peer_id p) (shard_id p) (epoch p) (generation p) (peer_state p)
    (addr p) (hostname p) (heartbeat p) (last_log_index p) (last_log_term p) (commit_index p) v.
Definition reset_votes (c : Cluster) : Cluster := set_peers c (map (fun p => set_vote p false) (peers c)).

Definition can_grant_vote (c : Cluster) (candidate : PeerId) : bool :=
  match state c with
  | Wait _ => true
  | VotedFor id _ => candidate =? id
  | Leader | Follower _ | Candidate _ => false
  end.

Definition count_step (id : PeerId) (shard : ShardId) (acc : list Peer * Z * Z) (p : Peer) : list Peer * Z * Z :=
  let '(l, total, votes) := acc in
  if is_in_shard p shard then
    if peer_id p =? id then (l ++ [set_vote p true], total + 1, votes + 1)
    else (l ++ [p], total + 1, if vote_granted p then votes + 1 else votes)
  else (l ++ [p], total, votes).
Definition count_loop (id : PeerId) (c : Cluster) : list Peer * Z * Z :=
  fold_left (count_step id (c_shard_id c)) (peers c) ([], 0, 1).
Definition count_vote (c : Cluster) (id : PeerId) : Cluster * bool :=
  let '(l, total, votes) := count_loop id c in (set_peers c l, half total <? votes).

Definition start_election_timer (c : Cluster) (at_once : bool) : Cluster * list Output :=
  set_follower (reset_votes (set_raft c (term c) (Wait (election_timeout c at_once)))) None.
Definition run_for_election (c : Cluster) (at_once : bool) : Cluster * list Output :=
  set_follower (reset_votes (set_raft c (u64 (term c + 1)) (Candidate (election_timeout c at_once)))) None.
Definition step_down (c : Cluster) (tm : Z) : Cluster * list Output :=
  let due :=
    match state c with
    | Wait due | Candidate due | VotedFor _ due => if due <? now env then due else election_timeout c false
    | _ => election_timeout c false
    end in
  let '(c, o) := set_follower (reset_votes c) None in
  (set_raft c tm (Wait due), o).
Definition vote_for (c : Cluster) (id : PeerId) : res (Cluster * list Output) :=
  voted ← unwrap (get_peer c id);
  Ok (set_follower (reset_votes (set_raft c (term c) (VotedFor id (election_timeout c false)))) None).
Definition become_leader (c : Cluster) : Cluster * list Output :=
  let followers := map peer_id (filter (fun p => is_in_shard p (c_shard_id c) = true) (peers c)) in
  let c := set_log c (last_log c) (rid_index (last_log c)) in
  (reset_votes (set_raft c (term c) Leader), SpawnLeaderInit :: map SpawnLeader followers).
Definition follow_leader (c : Cluster) (id : PeerId) : res (Cluster * list Output) :=
  p ← unwrap (get_peer c id);
  Ok (set_follower (reset_votes (set_raft c (term c) (Follower id))) (Some (hostname p))).
Definition add_follower (c : Cluster) (id : PeerId) : res (list Output) :=
  if is_leading c then p ← unwrap (get_peer c id); Ok [SpawnLeader (peer_id p)] else Ok [].

(** [self.peers.iter().any(..)]: a reachable peer of the shard has more log. *)
Definition peer_is_ahead (c : Cluster) : bool :=
  existsb (fun p => is_in_shard p (c_shard_id c) && negb (is_offline p) && log_is_behind c (last_log_term p) (last_log_index p)) (peers c).
Definition request_votes (c : Cluster) (at_once : bool) : res (Cluster * list Output) :=
  if has_election_quorum c then
    if peer_is_ahead c then Ok (start_election_timer c at_once)
    else
      rollback ← pending_rollback env;
      if (rollback : bool) then Ok (start_election_timer c at_once)
      else
        let '(c, o) := run_for_election c at_once in
        let voters := filter (fun p => is_in_shard p (c_shard_id c) = true /\ is_offline p = false) (peers c) in
        Ok (c, o ++ map (fun p => SendRpc (peer_id p) (Vote (term c) (last_log c))) voters)
  else Ok (start_election_timer c false).

Definition handle_vote_request (c : Cluster) (id : PeerId) (tm : Z) (last : RaftId) : res (Cluster * list Output) :=
  if is_known_peer c id then
    let '(c, o) := if term c <? tm then step_down c tm else (c, []) in
    if (term c =? tm) && can_grant_vote c id && log_is_behind_or_eq c (rid_term last) (rid_index last) then
      let tm := term c in
      '(c, o') ← vote_for c id;
      Ok (c, o ++ o' ++ [Reply (RVote tm true)])
    else Ok (c, o ++ [Reply (RVote (term c) false)])
  else Ok (c, [Reply RUnregisteredPeer]).

Definition handle_vote_response (c : Cluster) (id : PeerId) (tm : Z) (granted : bool) : Cluster * list Output :=
  if term c <? tm then step_down c tm
  else if negb (is_candidate c) || negb granted || negb (term c =? tm) then (c, [])
  else
    let '(c, won) := count_vote c id in
    if won then become_leader c else (c, []).

Definition set_term (c : Cluster) (tm : Z) : Cluster := set_raft c tm (state c).
Definition handle_become_follower (c : Cluster) (id : PeerId) (tm : Z) (last : RaftId) : res (Cluster * list Output) :=
  if is_known_peer c id then
    let c := if term c <? tm then set_term c tm else c in
    if (term c =? tm) && log_is_behind_or_eq c (rid_term last) (rid_index last) then
      '(c, o) ← follow_leader c id;
      Ok (c, o ++ [ToFollowerTask (Match last)])
    else Ok (c, [Reply (RStepDown (term c))])
  else Ok (c, [Reply RUnregisteredPeer]).
Definition handle_append_entries (c : Cluster) (id : PeerId) (tm : Z) (request : AppendEntriesRequest) : Cluster * list Output :=
  let c := if term c <? tm then set_term c tm else c in
  if is_following_peer c id then (c, [ToFollowerTask request]) else (c, [Reply (RStepDown (term c))]).

(** ** Commits *)

Definition set_commit (p : Peer) (index : LogIndex) : Peer :=
  mkPeer (peer_id p) (shard_id p) (epoch p) (generation p) (peer_state p)
    (addr p) (hostname p) (heartbeat p) (last_log_index p) (last_log_term p) index (vote_granted p).
Definition acknowledge (c : Cluster) (id : PeerId) (index : LogIndex) (p : Peer) : Peer :=
  if is_in_shard p (c_shard_id c) && (peer_id p =? id) && ((commit_index p <? index) || (commit_index p =? U64_MAX))
  then set_commit p index else p.
Definition commit_indexes (c : Cluster) : list Z :=
  map (fun p => next_index (commit_index p)) (filter (fun p => is_in_shard p (c_shard_id c) = true) (peers c)) ++
  [next_index (uncommitted_index c)].
Definition send_append_entries (c : Cluster) : list Output :=
  if is_leading c then [BroadcastAppend (rid_index (last_log c)) (uncommitted_index c)] else [].
Definition advance_commit_index (c : Cluster) (id : PeerId) (index : LogIndex) : Cluster * list Output :=
  let c := set_peers c (map (acknowledge c id index) (peers c)) in
  let indexes := merge_sort Z.le (commit_indexes c) in
  let commit := nth (length indexes / 2) indexes 0 in
  if next_index (rid_index (last_log c)) <? commit then
    let c := set_log c (mkRaftId (term c) (u64 (commit - 1))) (uncommitted_index c) in
    (c, [CommitLeader (rid_index (last_log c))] ++ send_append_entries c ++ [NotifyCommit (rid_index (last_log c))])
  else (c, []).
Definition advance_uncommitted (c : Cluster) (index : LogIndex) : Cluster * list Output :=
  if (uncommitted_index c <? index) || (uncommitted_index c =? U64_MAX) then
    let c := set_log c (last_log c) index in (c, send_append_entries c)
  else (c, []).
End Raft.

(** ** Gossip *)

Section GossipHandlers.
Variable env : Env.

Definition set_seen (p : Peer) (e : Z) (li : LogIndex) (lt : Z) : Peer :=
  mkPeer (peer_id p) (shard_id p) e (generation p) (peer_state p)
    (addr p) (hostname p) (heartbeat p) li lt (commit_index p) (vote_granted p).

(** [sync_peer_info]: the entry [info] for the local peer [p]. *)
Definition sync_known (shard : ShardId) (pos : nat) (info : PeerInfo) (p : Peer) : Peer * list Output * bool :=
  let update_peer_info := (pos =? 0)%nat && negb (generation p =? pi_generation info) in
  let '(p, o, update_peer_info) :=
    if epoch p <? pi_epoch info then
      let update_peer_info := update_peer_info || negb (generation p =? pi_generation info) in
      let '(p, woke) := update_heartbeat env (set_seen p (pi_epoch info) (pi_last_log_index info) (pi_last_log_term info)) (pos =? 0)%nat in
      (p, if woke && is_in_shard p shard then [SendRpc (peer_id p) RpcPing] else [], update_peer_info)
    else (p, [], update_peer_info) in
  if update_peer_info then
    let o := o ++ if bool_decide (addr p = pi_addr info) then [] else [Reconnect (peer_id p) (pi_addr info)] in
    (mkPeer (peer_id p) (pi_shard_id info) (epoch p) (pi_generation info) (peer_state p) (pi_addr info) (pi_hostname info)
       (heartbeat p) (last_log_index p) (last_log_term p) (commit_index p) (vote_granted p), o, true)
  else (p, o, false).

(** The inner loop: the peers with [info] applied, unless it is new; whether a
    seed was passed, and whether the list changed. *)
Fixpoint sync_local (shard : ShardId) (pos : nat) (info : PeerInfo) (l : list Peer)
    : option (list Peer * list Output * bool) * bool :=
  match l with
  | [] => (None, false)
  | p :: l =>
      if is_seed p then
        let '(r, _) := sync_local shard pos info l in
        (option_map (fun '(l, o, ch) => (p :: l, o, ch)) r, true)
      else if peer_id p =? pi_peer_id info then
        let '(p, o, ch) := sync_known shard pos info p in (Some (p :: l, o, ch), false)
      else
        let '(r, seeds) := sync_local shard pos info l in
        (option_map (fun '(l, o, ch) => (p :: l, o, ch)) r, seeds)
  end.

Record sync := mkSync { sy_cluster : Cluster; sy_out : list Output; sy_seeds : bool; sy_changed : bool }.
Definition sync_entry (s : sync) (pos : nat) (info : PeerInfo) : res sync :=
  let c := sy_cluster s in
  if pi_peer_id info =? c_peer_id c then
    Ok (if c_epoch c <? pi_epoch info then mkSync (set_epoch c (u64 (pi_epoch info + 1))) (sy_out s) (sy_seeds s) (sy_changed s) else s)
  else
    let '(r, seeds) := sync_local (c_shard_id c) pos info (peers c) in
    match r with
    | Some (l, o, ch) => Ok (mkSync (set_peers c l) (sy_out s ++ o) (sy_seeds s || seeds) (sy_changed s || ch))
    | None =>
        let c := set_peers c (peers c ++ [new_peer env info Alive]) in
        o ← (if is_leading c && (pi_shard_id info =? c_shard_id c) then add_follower c (pi_peer_id info) else Ok []);
        Ok (mkSync c (sy_out s ++ o) (sy_seeds s || seeds) true)
    end.
Fixpoint sync_loop (s : sync) (pos : nat) (l : list PeerInfo) : res sync :=
  match l with
  | [] => Ok s
  | info :: l => s ← sync_entry s pos info; sync_loop s (S pos) l
  end.
Definition sync_peer_info (c : Cluster) (l : list PeerInfo) : res (Cluster * list Output) :=
  s ← sync_loop (mkSync c [] false false) 0 l;
  let c := sy_cluster s in
  let c := if sy_seeds s then set_peers c (filter (fun p => is_seed p = false) (peers c)) else c in
  Ok (c, sy_out s ++ if sy_changed s then [SavePeers (map peer_info (peers c))] else []).

Definition handle_update_peers (c : Cluster) (l : list PeerInfo) : res (Cluster * list Output) :=
  '(c, o) ← sync_peer_info c l; Ok (c, o ++ [Reply (RUpdatePeers (build_peer_info c))]).

(** [handle_ping]: an entry of the packet against the local peers. *)
Fixpoint ping_local (shard : ShardId) (pos : nat) (status : PeerStatus) (idx : nat) (l : list Peer)
    : option (list Peer * list Output * bool * nat) :=
  match l with
  | [] => None
  | p :: l =>
      if peer_id p =? ps_peer_id status then
        if epoch p <? ps_epoch status then
          let '(p, woke) :=
            update_heartbeat env (set_seen p (ps_epoch status) (ps_last_log_index status) (ps_last_log_term status)) (pos =? 0)%nat in
          let wake_rpc := woke && negb (pos =? 0)%nat && is_in_shard p shard in
          Some (p :: l, if wake_rpc then [SendRpc (peer_id p) RpcPing] else [],
                (woke && negb wake_rpc) || negb (generation p =? ps_generation status), idx)
        else Some (p :: l, [], false, idx)
      else '(l, o, full, i) ← ping_local shard pos status (S idx) l; Some (p :: l, o, full, i)
  end.
Record pinged := mkPinged { pg_cluster : Cluster; pg_out : list Output; pg_full_sync : bool; pg_source : option nat }.
Fixpoint ping_loop (s : pinged) (pos : nat) (l : list PeerStatus) : pinged :=
  match l with
  | [] => s
  | status :: l =>
      let c := pg_cluster s in
      let s :=
        if c_peer_id c =? ps_peer_id status then s
        else
          match ping_local (c_shard_id c) pos status 0 (peers c) with
          | Some (ps, o, full, idx) =>
              mkPinged (set_peers c ps) (pg_out s ++ o) (pg_full_sync s || full) (if (pos =? 0)%nat then Some idx else pg_source s)
          | None => mkPinged c (pg_out s) true (pg_source s)
          end in
      ping_loop s (S pos) l
  end.
Definition handle_ping (c : Cluster) (l : list PeerStatus) (send_pong : bool) : res (Cluster * list Output) :=
  let c := set_epoch c (u64 (c_epoch c + 1)) in
  let s := ping_loop (mkPinged c [] (negb (length (peers c) + 1 =? length l)%nat) None) 0 l in
  let c := pg_cluster s in
  match pg_source s with
  | Some idx =>
      p ← unwrap (peers c !! idx);
      Ok (c, pg_out s ++
        (if pg_full_sync s then [SendRpc (peer_id p) (UpdatePeers (build_peer_info c))]
         else if send_pong then [SendGossip (addr p) (Pong (build_peer_status c))] else []))
  | None => Ok (c, pg_out s)
  end.

Definition handle_join (c : Cluster) (id : Z) (dest : Addr) (port : Z) : Cluster * list Output :=
  (c, [SendGossip (mkAddr (ad_ip dest) port) (JoinReply id)]).
Definition handle_join_reply (c : Cluster) (id : Z) : Cluster * list Output :=
  (c, match peers c !! Z.to_nat id with
      | Some p => if is_seed p then [SendRpc (peer_id p) (UpdatePeers (build_peer_info c))] else []
      | None => []
      end).

Definition broadcast_ping (c : Cluster) : list Output :=
  map (fun p => SendGossip (addr p) (Pong (build_peer_status c))) (filter (fun p => is_offline p = false) (peers c)).
Definition broadcast_leave (c : Cluster) : list Output :=
  map (fun p => SendGossip (addr p) (Leave [cluster_status c])) (filter (fun p => is_offline p = false) (peers c)).

(** [handle_leave]: the first local peer with the id of the sender. *)
Definition mark_left (status : PeerStatus) (p : Peer) : Peer :=
  set_status (set_seen p (ps_epoch status) (ps_last_log_index status) (ps_last_log_term status)) Left_ (heartbeat p).
Fixpoint leave_loop (is_leading : bool) (shard : ShardId) (status : PeerStatus) (l : list Peer) : list Peer * Z :=
  match l with
  | [] => ([], U64_MAX)
  | p :: l =>
      if peer_id p =? ps_peer_id status then
        (mark_left status p :: l,
         if is_leading && is_in_shard p shard && (last_log_index p <? ps_last_log_index status) then ps_last_log_index status else U64_MAX)
      else let '(l, index) := leave_loop is_leading shard status l in (p :: l, index)
  end.
Definition handle_leave (c : Cluster) (l : list PeerStatus) : res (Cluster * list Output) :=
  match l with
  | [] => Ok (c, [])
  | status :: _ =>
      let is_leader_leaving := is_following_peer c (ps_peer_id status) in
      let '(ps, peer_commit_index) := leave_loop (is_leading c) (c_shard_id c) status (peers c) in
      let c := set_peers c ps in
      let '(c, o) :=
        if peer_commit_index =? U64_MAX then (c, []) else advance_commit_index c (ps_peer_id status) peer_commit_index in
      if is_leader_leaving then '(c, o') ← request_votes env c true; Ok (c, o ++ o') else Ok (c, o)
  end.

(** [ping_peers]: failure detection, an election when the leader is gone, and
    a packet to the next peer that can be pinged. *)
Fixpoint check_loop (leader : option PeerId) (l : list Peer) (alive : Z) (leader_is_offline : bool) : list Peer * Z * bool :=
  match l with
  | [] => ([], alive, leader_is_offline)
  | p :: l =>
      if is_offline p then
        let '(l, alive, off) := check_loop leader l alive leader_is_offline in (p :: l, alive, off)
      else
        let '(p, ok) := check_heartbeat env p in
        let '(alive, off) :=
          if ok then (alive + 1, leader_is_offline)
          else (alive, leader_is_offline || (bool_decide (leader = Some (peer_id p)) && (0 <? hb_sum (heartbeat p)))) in
        let '(l, alive, off) := check_loop leader l alive off in (p :: l, alive, off)
  end.
Fixpoint ping_next (n : nat) (c : Cluster) (alive : Z) : res (Cluster * list Output) :=
  match n with
  | O => Ok (c, [])
  | S n =>
      let total := Z.of_nat (length (peers c)) in
      let c := set_pinged c (u64 (last_peer_pinged c + 1) mod total) in
      p ← unwrap (peers c !! Z.to_nat (last_peer_pinged c));
      match peer_state p with
      | Seed => Ok (c, [SendGossip (addr p) (Join (last_peer_pinged c) (ad_port (c_addr c)))])
      | Alive | Suspected =>
          let c := set_epoch c (u64 (c_epoch c + 1)) in Ok (c, [SendGossip (addr p) (Ping (build_peer_status c))])
      | Offline =>
          if alive =? 0 then Ok (c, [SendGossip (addr p) (Ping (build_peer_status c))]) else ping_next n c alive
      | Left_ => ping_next n c alive
      end
  end.
Definition ping_peers (c : Cluster) : res (Cluster * list Output) :=
  let '(l, alive, leader_is_offline) := check_loop (leader_peer_id c) (peers c) 0 false in
  let total_peers := length (peers c) in
  let c := set_peers c l in
  '(c, o) ← (if leader_is_offline then request_votes env c true else Ok (c, []));
  '(c, o') ← ping_next total_peers c alive;
  Ok (c, o ++ o').

(** ** Messages *)

Inductive Event : Set :=
| EGossip (from : Addr) (request : GossipRequest)
| ERpcRequest (from : PeerId) (request : RpcRequest)
| ERpcResponse (from : PeerId) (response : RpcResponse)
| ERpcCommand (payload : list Z)
| EStepDown (tm : Z)
| EUpdateLastLog (last : RaftId)
| EAdvanceUncommittedIndex (index : LogIndex)
| EAdvanceCommitIndex (from : PeerId) (index : LogIndex)
| EShutdown.

(** [handle_command] and [send_command]: a leader runs a command, others
    forward theirs to the leader they follow. *)
Definition handle_command (c : Cluster) (payload : list Z) : list Output :=
  if is_leading c then [RunCommand payload] else [Reply RCommandError].
Definition send_command (c : Cluster) (payload : list Z) : list Output :=
  match leader_peer c with Some p => [ForwardCommand (peer_id p) payload] | None => [CommandError] end.

(** [handle_message]; [None] for a shutdown. *)
Definition handle_message (c : Cluster) (message : Event) : res (option (Cluster * list Output)) :=
  match message with
  | EGossip from (Join id port) => Ok (Some (handle_join c id from port))
  | EGossip _ (JoinReply id) => Ok (Some (handle_join_reply c id))
  | EGossip _ (Ping l) => Some <$> handle_ping c l true
  | EGossip _ (Pong l) => Some <$> handle_ping c l false
  | EGossip _ (Leave l) => Some <$> handle_leave c l
  | ERpcRequest _ (UpdatePeers l) => Some <$> handle_update_peers c l
  | ERpcRequest id (Vote tm last) => Some <$> handle_vote_request env c id tm last
  | ERpcRequest id (BecomeFollower tm last) => Some <$> handle_become_follower c id tm last
  | ERpcRequest id (AppendEntries tm request) => Ok (Some (handle_append_entries c id tm request))
  | ERpcRequest _ RpcPing => Ok (Some (c, [Reply RPong]))
  | ERpcRequest _ (Command payload) => Ok (Some (c, handle_command c payload))
  | ERpcRequest _ RpcNone => Ok (Some (c, [Reply RNone]))
  | ERpcResponse _ (RUpdatePeers l) => Some <$> sync_peer_info c l
  | ERpcResponse id (RVote tm granted) => Ok (Some (handle_vote_response env c id tm granted))
  | ERpcResponse id RUnregisteredPeer =>
      p ← unwrap (get_peer c id); Ok (Some (c, [SendRpc (peer_id p) (UpdatePeers (build_peer_info c))]))
  | ERpcResponse _ _ => Ok (Some (c, []))
  | ERpcCommand payload => Ok (Some (c, send_command c payload))
  | EStepDown tm => Ok (Some (if term c <? tm then step_down env c tm else start_election_timer env c false))
  | EUpdateLastLog last => Ok (Some (update_raft_index (set_log c last (uncommitted_index c)) (rid_index last), []))
  | EAdvanceUncommittedIndex index => Ok (Some (advance_uncommitted c index))
  | EAdvanceCommitIndex id index => Ok (Some (advance_commit_index c id index))
  | EShutdown => Ok None
  end.

(** The rest of a turn of the main loop, at most [ping_interval] after the
    last ping: ping peers, start an election that is due, and the time to wait. *)
Definition turn (ping_interval : Z) (c : Cluster) (last_ping : Z) : res (Cluster * list Output * Z * option Z) :=
  match peers c with
  | [] => Ok (c, [], last_ping, None)
  | _ =>
      let elapsed := Z.max 0 (now env - last_ping) in
      '(c, o, last_ping, to_ping) ←
        (if ping_interval <=? elapsed then
           '(c, o) ← ping_peers c; Ok (c, o, now env, ping_interval)
         else Ok (c, [], last_ping, ping_interval - elapsed));
      match time_to_next_election env c with
      | Some 0 => '(c, o') ← request_votes env c false; Ok (c, o ++ o', last_ping, Some to_ping)
      | Some due => Ok (c, o, last_ping, Some (if due <? to_ping then due else to_ping))
      | None => Ok (c, o, last_ping, Some to_ping)
      end
  end.
End GossipHandlers.

(** ** The heartbeat window *)

Definition zsum (l : list Z) : Z := fold_right Z.add 0 l.

Lemma zsum_insert l i x y : l !! i = Some x -> zsum (<[i := y]> l) = zsum l - x + y.
Proof.
  revert i. induction l as [|z l IH]; intros [|i] Hi; [done..| |].
  - injection Hi as <-. cbn. lia.
  - change (z + zsum (<[i := y]> l) = z + zsum l - x + y). rewrite (IH i) by done. lia.
Qed.

Lemma zsum_bounds l b : Forall (fun x => 0 <= x <= b) l -> 0 <= zsum l <= b * Z.of_nat (length l).
Proof. unfold zsum. induction 1; cbn [fold_right length]; lia. Qed.

Lemma zsum_elem l b i x : Forall (fun x => 0 <= x <= b) l -> l !! i = Some x -> x <= zsum l.
Proof.
  intros Hl Hx. pose proof (zsum_insert l i x 0 Hx) as Hi. rewrite Forall_lookup in Hl. pose proof (Hl i x Hx).
  pose proof (zsum_bounds (<[i := 0]> l) b ltac:(apply Forall_insert; [by apply Forall_lookup|lia])). lia.
Qed.

Lemma zsum_zero l b : Forall (fun x => 0 <= x <= b) l -> zsum l = 0 -> Forall (fun x => x = 0) l.
Proof.
  unfold zsum. induction 1 as [|x l Hx Hl IH]; cbn [fold_right]; [constructor|].
  pose proof (zsum_bounds l b Hl) as Hb. unfold zsum in Hb. intros E. constructor; [lia|apply IH; lia].
Qed.

Definition squares (l : list Z) : list Z := map (fun x => x * x) l.
Definition HOUR : Z := 60 * 60 * 1000.

Record hb_wf (hb : Heartbeat) : Prop := {
  hb_length : length (hb_window hb) = 1024%nat;
  hb_values : Forall (fun x => 0 <= x <= HOUR) (hb_window hb);
  hb_pos : 0 <= hb_window_pos hb < 1024;
  hb_sum_exact : hb_sum hb = zsum (hb_window hb);
  hb_sq_sum_exact : hb_sq_sum hb = zsum (squares (hb_window hb));
  hb_unused : hb_is_full hb = false -> forall j : nat, hb_window_pos hb < Z.of_nat j < 1024 -> hb_window hb !! j = Some 0
}.

Lemma squares_bounds l : Forall (fun x => 0 <= x <= HOUR) l -> Forall (fun x => 0 <= x <= HOUR * HOUR) (squares l).
Proof. intros Hl. apply Forall_map. eapply Forall_impl; [exact Hl|]. unfold HOUR. intros x Hx. nia. Qed.

Lemma new_heartbeat_wf env : hb_wf (new_heartbeat env).
Proof.
  split; cbn -[replicate]; [apply length_replicate|apply Forall_replicate; unfold HOUR; lia|lia|vm_compute; reflexivity..|].
  intros _ j Hj. apply lookup_replicate. split; [done|]. change (Z.to_nat HEARTBEAT_WINDOW) with 1024%nat. lia.
Qed.

(** The slot that a new value overwrites, and what it holds while the window
    is filling. *)
Lemma hb_slot hb :
  hb_wf hb -> exists old, hb_window hb !! Z.to_nat ((hb_window_pos hb + 1) mod 1024) = Some old /\ 0 <= old <= HOUR /\
    (hb_is_full hb || ((((hb_window_pos hb + 1) mod 1024) =? 0) && (0 <? hb_sum hb)) = false -> old = 0).
Proof.
  intros [Hl Hv Hp Hs _ Hu]. set (pos := (hb_window_pos hb + 1) mod 1024).
  assert (0 <= pos < 1024) as Hpos by (apply Z.mod_pos_bound; lia).
  destruct (lookup_lt_is_Some_2 (hb_window hb) (Z.to_nat pos) ltac:(lia)) as [old Ho]. exists old. split; [done|].
  rewrite Forall_lookup in Hv. split; [by apply (Hv (Z.to_nat pos))|]. intros [Hf Hz]%orb_false_iff.
  destruct (Z.eqb_spec pos 0) as [E|E]; cbn [andb] in Hz.
  - apply Z.ltb_ge in Hz. pose proof (zsum_zero _ HOUR ltac:(by apply Forall_lookup)) as Hzero.
    pose proof (zsum_bounds (hb_window hb) HOUR ltac:(by apply Forall_lookup)).
    specialize (Hzero ltac:(lia)). rewrite Forall_lookup in Hzero. by apply (Hzero (Z.to_nat pos)).
  - assert (pos = hb_window_pos hb + 1) as Ep by (unfold pos in *; Z.to_euclidean_division_equations; lia).
    rewrite (Hu Hf (Z.to_nat pos)) in Ho by lia. by injection Ho.
Qed.

Lemma hb_record_wf hb diff : hb_wf hb -> 0 <= diff <= HOUR -> hb_wf (hb_record hb diff).
Proof.
  intros Hwf Hd. destruct (hb_slot hb Hwf) as (old & Ho & Hold & Hzero). destruct Hwf as [Hl Hv Hp Hs Hq Hu].
  unfold hb_record. change HEARTBEAT_WINDOW_MASK with (2 ^ 10 - 1). rewrite land_mask by lia. change (2 ^ 10) with 1024.
  set (pos := (hb_window_pos hb + 1) mod 1024) in *. assert (0 <= pos < 1024) as Hpos by (apply Z.mod_pos_bound; lia).
  rewrite Ho. cbn [default from_option]. unfold id. set (full := hb_is_full hb || _) in *. rewrite (wrap_small 32 diff) by (unfold fits, HOUR in *; lia).
  set (window := <[Z.to_nat pos := diff]> (hb_window hb)).
  assert (Forall (fun x => 0 <= x <= HOUR) window) as Hv' by (by apply Forall_insert).
  assert (length window = 1024%nat) as Hl' by (unfold window; by rewrite length_insert).
  assert (zsum window = hb_sum hb - old + diff) as Hsum by (unfold window; by rewrite (zsum_insert _ _ old), Hs).
  assert (zsum (squares window) = hb_sq_sum hb - old * old + diff * diff) as Hsq.
  { unfold window, squares. change (map ?f ?l) with (f <$> l). rewrite list_fmap_insert, (zsum_insert _ _ (old * old)); [by rewrite Hq|].
    by rewrite list_lookup_fmap, Ho. }
  pose proof (zsum_bounds _ _ Hv') as Hb. pose proof (zsum_bounds _ _ (squares_bounds _ Hv')) as Hbq.
  pose proof (zsum_bounds _ _ Hv) as Hb0. pose proof (zsum_bounds _ _ (squares_bounds _ Hv)) as Hbq0.
  unfold squares in Hbq, Hbq0. rewrite length_map in Hbq, Hbq0. fold (squares window) in Hbq. fold (squares (hb_window hb)) in Hbq0.
  rewrite Hl' in *. rewrite Hl in *. unfold HOUR in *.
  assert (old <= hb_sum hb) by (rewrite Hs; by apply (zsum_elem _ _ _ _ Hv Ho)).
  assert (old * old <= hb_sq_sum hb).
  { rewrite Hq. apply (zsum_elem _ _ (Z.to_nat pos) _ (squares_bounds _ Hv)).
    unfold squares. change (map ?f ?l) with (f <$> l). by rewrite list_lookup_fmap, Ho. }
  assert (0 <= diff * diff <= 12960000000000) by nia. assert (0 <= old * old <= 12960000000000) by nia.
  rewrite !Z.min_l by lia.
  assert ((if full then (u64 (hb_sum hb - old), u64 (hb_sq_sum hb - old * old)) else (hb_sum hb, hb_sq_sum hb)) =
          (hb_sum hb - old, hb_sq_sum hb - old * old)) as ->.
  { destruct full; [by rewrite !wrap_small by (unfold fits; lia)|]. specialize (Hzero eq_refl). subst old. by rewrite !Z.sub_0_r. }
  rewrite !wrap_small by (unfold fits; lia). split; cbn [hb_window hb_window_pos hb_sum hb_sq_sum hb_is_full]; [done..|].
  intros Hf j Hj. specialize (Hzero Hf). unfold window. rewrite list_lookup_insert_ne by lia.
  apply orb_false_iff in Hf as [Hf Hz]. destruct (Z.eqb_spec pos 0) as [E|E]; cbn [andb] in Hz.
  - apply Z.ltb_ge in Hz. pose proof (zsum_zero _ _ Hv ltac:(lia)) as Hall. rewrite Forall_lookup in Hall.
    destruct (lookup_lt_is_Some_2 (hb_window hb) j ltac:(lia)) as [x Hx]. rewrite Hx. f_equal. by apply (Hall j).
  - apply Hu; [done|]. unfold pos in *. Z.to_euclidean_division_equations; lia.
Qed.

(** ** Well-formed nodes: every field is in the range of its type *)

Record peer_wf (p : Peer) : Prop := {
  pw_id : fits 64 (peer_id p); pw_shard : fits 32 (shard_id p); pw_epoch : fits 64 (epoch p); pw_generation : fits 64 (generation p);
  pw_index : fits 64 (last_log_index p); pw_term : fits 64 (last_log_term p); pw_commit : fits 64 (commit_index p);
  pw_heartbeat : hb_wf (heartbeat p) }.
Record node_wf (c : Cluster) : Prop := {
  nw_peers : Forall peer_wf (peers c); nw_term : fits 64 (term c); nw_log : rid_fits (last_log c);
  nw_uncommitted : fits 64 (uncommitted_index c); nw_epoch : fits 64 (c_epoch c); nw_pinged : fits 64 (last_peer_pinged c) }.

Definition info_fits (i : PeerInfo) : Prop :=
  fits 64 (pi_peer_id i) /\ fits 32 (pi_shard_id i) /\ fits 64 (pi_epoch i) /\ fits 64 (pi_last_log_term i) /\
  fits 64 (pi_last_log_index i) /\ fits 64 (pi_generation i).
Definition event_fits (e : Event) : Prop :=
  match e with
  | EGossip _ (Ping l | Pong l | Leave l) => Forall status_fits l
  | ERpcRequest _ (UpdatePeers l) | ERpcResponse _ (RUpdatePeers l) => Forall info_fits l
  | ERpcRequest _ (Vote tm _ | BecomeFollower tm _ | AppendEntries tm _) | ERpcResponse _ (RVote tm _) | EStepDown tm => fits 64 tm
  | EUpdateLastLog last => rid_fits last
  | EAdvanceUncommittedIndex index | EAdvanceCommitIndex _ index => fits 64 index
  | _ => True
  end.

Definition all_ok {A} (P : A -> Prop) (r : res A) : Prop := match r with Ok a => P a | _ => True end.
Lemma all_ok_bind {A B} (P : A -> Prop) (Q : B -> Prop) (r : res A) (f : A -> res B) :
  all_ok P r -> (forall a, P a -> all_ok Q (f a)) -> all_ok Q (r ≫= f).
Proof. destruct r; [|done..]. intros Hp Hf. by apply Hf. Qed.
Lemma all_ok_fmap {A B} (P : A -> Prop) (Q : B -> Prop) (r : res A) (f : A -> B) :
  all_ok P r -> (forall a, P a -> Q (f a)) -> all_ok Q (f <$> r).
Proof. destruct r; [|done..]. intros Hp Hf. by apply Hf. Qed.

Create HintDb node.
#[export] Hint Resolve wrap_fits : node.

Section WellFormed.
Variable env : Env.
Abbreviation wf1 r := (node_wf r.1).

Lemma wf_peers c l : node_wf c -> Forall peer_wf l -> node_wf (set_peers c l).
Proof. by intros []. Qed.
Lemma wf_raft c tm st : node_wf c -> fits 64 tm -> node_wf (set_raft c tm st).
Proof. by intros []. Qed.
Lemma wf_core c k : node_wf c -> node_wf (set_core c k).
Proof. by intros []. Qed.
Lemma wf_epoch c e : node_wf c -> fits 64 e -> node_wf (set_epoch c e).
Proof. by intros []. Qed.
Lemma wf_log c ll u : node_wf c -> rid_fits ll -> fits 64 u -> node_wf (set_log c ll u).
Proof. by intros []. Qed.
Lemma wf_pinged c p : node_wf c -> fits 64 p -> node_wf (set_pinged c p).
Proof. by intros []. Qed.
Hint Resolve wf_peers wf_raft wf_core wf_epoch wf_log wf_pinged nw_term nw_log nw_uncommitted nw_epoch nw_peers : node.

Lemma set_vote_wf p v : peer_wf p -> peer_wf (set_vote p v).
Proof. by intros []. Qed.
Lemma set_seen_wf p e li lt : peer_wf p -> fits 64 e -> fits 64 li -> fits 64 lt -> peer_wf (set_seen p e li lt).
Proof. by intros []. Qed.
Lemma set_status_wf p st hb : peer_wf p -> hb_wf hb -> peer_wf (set_status p st hb).
Proof. by intros []. Qed.
Hint Resolve set_vote_wf set_seen_wf set_status_wf pw_heartbeat : node.

Lemma reset_votes_wf c : node_wf c -> node_wf (reset_votes c).
Proof. intros Hc. apply wf_peers; [done|]. apply Forall_map. eapply Forall_impl; [by apply nw_peers|]. intros p. by apply set_vote_wf. Qed.
Hint Resolve reset_votes_wf : node.

Lemma touch_wf hb : hb_wf hb -> hb_wf (touch env hb).
Proof. by intros []. Qed.
Lemma update_heartbeat_wf p d : peer_wf p -> peer_wf (update_heartbeat env p d).1.
Proof.
  intros Hp. unfold update_heartbeat. pose proof (touch_wf _ (pw_heartbeat _ Hp)) as Ht.
  assert (hb_wf (hb_record (touch env (heartbeat p)) (Z.min (Z.max 0 (now env - last_heartbeat (heartbeat p))) (60 * 60 * 1000)))) as Hr.
  { apply hb_record_wf; [done|unfold HOUR; lia]. }
  repeat case_match; simplify_eq; cbn [fst]; by apply set_status_wf.
Qed.
Lemma check_heartbeat_wf p : peer_wf p -> peer_wf (check_heartbeat env p).1.
Proof. intros Hp. unfold check_heartbeat. repeat case_match; cbn [fst]; auto with node. Qed.
Hint Resolve update_heartbeat_wf check_heartbeat_wf : node.

Lemma new_peer_wf info st : info_fits info -> peer_wf (new_peer env info st).
Proof. intros (? & ? & ? & ? & ? & ?). split; [done..|]. apply new_heartbeat_wf. Qed.

Lemma start_election_timer_wf c b : node_wf c -> wf1 (start_election_timer env c b).
Proof. intros. unfold start_election_timer, set_follower. cbn [fst]. auto with node. Qed.
Lemma step_down_wf c tm : node_wf c -> fits 64 tm -> wf1 (step_down env c tm).
Proof. intros. unfold step_down, set_follower. cbn [fst]. auto with node. Qed.
Lemma run_for_election_wf c b : node_wf c -> wf1 (run_for_election env c b).
Proof. intros. unfold run_for_election, set_follower. cbn [fst]. apply wf_core, reset_votes_wf, wf_raft; [done|]. by apply wrap_fits. Qed.
Lemma become_leader_wf c : node_wf c -> wf1 (become_leader c).
Proof. intros Hc. unfold become_leader. cbn [fst]. destruct Hc as [? ? Hl ? ? ?]. apply reset_votes_wf. split; try done. apply Hl. Qed.
Hint Resolve start_election_timer_wf step_down_wf run_for_election_wf become_leader_wf : node.

Lemma vote_for_wf c id : node_wf c -> all_ok (fun r => wf1 r) (vote_for env c id).
Proof. intros. unfold vote_for. destruct (get_peer c id); [|done]. cbn. auto with node. Qed.
Lemma follow_leader_wf c id : node_wf c -> all_ok (fun r => wf1 r) (follow_leader c id).
Proof. intros. unfold follow_leader. destruct (get_peer c id); [|done]. cbn. auto with node. Qed.
Lemma request_votes_wf c b : node_wf c -> all_ok (fun r => wf1 r) (request_votes env c b).
Proof.
  intros Hc. unfold request_votes. destruct (has_election_quorum c); [|by apply start_election_timer_wf].
  destruct (peer_is_ahead c); [by apply start_election_timer_wf|].
  destruct (pending_rollback env) as [[]| |]; [by apply start_election_timer_wf| |done..].
  cbn [mbind res_bind]. pose proof (run_for_election_wf c b Hc). by destruct (run_for_election env c b).
Qed.

Lemma handle_vote_request_wf c id tm last : node_wf c -> fits 64 tm -> all_ok (fun r => wf1 r) (handle_vote_request env c id tm last).
Proof.
  intros Hc Ht. unfold handle_vote_request. destruct (is_known_peer c id); [|done].
  assert (wf1 (if term c <? tm then step_down env c tm else (c, []))) as H1 by (destruct (term c <? tm); auto with node).
  destruct (if term c <? tm then step_down env c tm else (c, [])) as [c1 o1]. cbn [fst] in H1. case_match; [|done].
  eapply all_ok_bind; [by apply vote_for_wf|]. by intros [].
Qed.

Lemma count_fold id shard l acc :
  fold_left (count_step id shard) l acc =
  (acc.1.1 ++ map (fun p => if is_in_shard p shard && (peer_id p =? id) then set_vote p true else p) l,
   acc.1.2 + Z.of_nat (length (filter (fun p => is_in_shard p shard = true) l)),
   acc.2 + Z.of_nat (length (filter (fun p => is_in_shard p shard = true /\ (peer_id p = id \/ vote_granted p = true)) l))).
Proof.
  revert acc. induction l as [|p l IH]; intros [[l0 t] v]; cbn [fold_left map fst snd]; [by rewrite app_nil_r, !Z.add_0_r|].
  rewrite IH, !filter_cons. unfold count_step. destruct (is_in_shard p shard) eqn:Es; cbn [andb].
  - rewrite (decide_True (P := true = true)) by done. destruct (Z.eqb_spec (peer_id p) id) as [Ei|Ei]; cbn [fst snd].
    + rewrite decide_True by auto. rewrite <- app_assoc. cbn [length app]. apply pair_eq; split; [apply pair_eq; split; [done|lia]|lia].
    + rewrite <- app_assoc. destruct (vote_granted p) eqn:Ev.
      * rewrite decide_True by auto. cbn [length app]. apply pair_eq; split; [apply pair_eq; split; [done|lia]|lia].
      * rewrite decide_False by naive_solver. cbn [length app]. apply pair_eq; split; [apply pair_eq; split; [done|lia]|lia].
  - cbn [fst snd]. rewrite !decide_False by naive_solver. rewrite <- app_assoc. done.
Qed.

Lemma count_loop_peers id c :
  (count_loop id c).1.1 = map (fun p => if is_in_shard p (c_shard_id c) && (peer_id p =? id) then set_vote p true else p) (peers c).
Proof. unfold count_loop. by rewrite count_fold. Qed.

Lemma handle_vote_response_wf c id tm b : node_wf c -> fits 64 tm -> wf1 (handle_vote_response env c id tm b).
Proof.
  intros Hc Ht. unfold handle_vote_response. case_match; [auto with node|]. case_match; [done|].
  unfold count_vote. pose proof (count_loop_peers id c) as Hl. destruct (count_loop id c) as [[l total] votes]. cbn [fst] in Hl.
  assert (node_wf (set_peers c l)).
  { subst l. apply wf_peers; [done|]. apply Forall_map. eapply Forall_impl; [by apply nw_peers|]. intros p Hp. cbn.
    case_match; auto with node. }
  case_match; cbn [fst]; auto with node.
Qed.

Lemma set_term_wf c tm : node_wf c -> fits 64 tm -> node_wf (if term c <? tm then set_term c tm else c).
Proof. intros. case_match; unfold set_term; auto with node. Qed.
Lemma handle_become_follower_wf c id tm last : node_wf c -> fits 64 tm -> all_ok (fun r => wf1 r) (handle_become_follower c id tm last).
Proof.
  intros Hc Ht. unfold handle_become_follower. destruct (is_known_peer c id); [|done].
  pose proof (set_term_wf c tm Hc Ht) as H1. set (c1 := if term c <? tm then _ else c) in *. clearbody c1. case_match; [|done].
  eapply all_ok_bind; [by apply follow_leader_wf|]. by intros [].
Qed.
Lemma handle_append_entries_wf c id tm r : node_wf c -> fits 64 tm -> wf1 (handle_append_entries c id tm r).
Proof. intros Hc Ht. unfold handle_append_entries. pose proof (set_term_wf c tm Hc Ht) as H1.
  set (c1 := if term c <? tm then _ else c) in *. clearbody c1. by case_match.
Qed.

Lemma advance_commit_index_wf c id index : node_wf c -> fits 64 index -> wf1 (advance_commit_index c id index).
Proof.
  intros Hc Hi. unfold advance_commit_index.
  assert (node_wf (set_peers c (map (acknowledge c id index) (peers c)))) as H1.
  { apply wf_peers; [done|]. apply Forall_map. eapply Forall_impl; [by apply nw_peers|]. intros p []. unfold acknowledge. by case_match. }
  case_match; [|done]. cbn [fst]. apply wf_log; [done| |apply H1]. split; [by apply wrap_fits|apply H1].
Qed.
Lemma advance_uncommitted_wf c index : node_wf c -> fits 64 index -> wf1 (advance_uncommitted c index).
Proof. intros Hc Hi. unfold advance_uncommitted. case_match; [|done]. cbn [fst]. auto with node. Qed.

Lemma sync_known_wf shard pos info p : peer_wf p -> info_fits info -> peer_wf (sync_known env shard pos info p).1.1.
Proof.
  intros Hp (? & ? & ? & ? & ? & ?). unfold sync_known.
  pose proof (update_heartbeat_wf (set_seen p (pi_epoch info) (pi_last_log_index info) (pi_last_log_term info)) (pos =? 0)%nat
    ltac:(auto with node)) as Hu.
  destruct (epoch p <? pi_epoch info).
  - destruct (update_heartbeat _ _ _) as [p' w]. cbn [fst] in Hu. case_match; cbn [fst]; [|done]. by destruct Hu.
  - case_match; cbn [fst]; [|done]. by destruct Hp.
Qed.
Lemma sync_local_wf shard pos info l r :
  Forall peer_wf l -> info_fits info -> (sync_local env shard pos info l).1 = Some r -> Forall peer_wf r.1.1.
Proof.
  intros Hl Hi. revert r. induction Hl as [|p l Hp Hl IH]; intros r; [done|]. cbn [sync_local]. destruct (is_seed p).
  - destruct (sync_local _ _ _ _ l) as [[[[l' o] ch]|] s]; [|done]. cbn. intros [= <-]. constructor; [done|]. by apply (IH _ eq_refl).
  - destruct (peer_id p =? pi_peer_id info).
    + pose proof (sync_known_wf shard pos info p Hp Hi) as Hk. destruct (sync_known _ _ _ _ _) as [[p' o] ch]. cbn. intros [= <-]. by constructor.
    + destruct (sync_local _ _ _ _ l) as [[[[l' o] ch]|] s]; [|done]. cbn. intros [= <-]. constructor; [done|]. by apply (IH _ eq_refl).
Qed.
Lemma sync_entry_wf s pos info : node_wf (sy_cluster s) -> info_fits info -> all_ok (fun s => node_wf (sy_cluster s)) (sync_entry env s pos info).
Proof.
  intros Hc Hi. unfold sync_entry. case_match.
  - cbn [all_ok]. case_match; [|done]. apply wf_epoch; [done|]. by apply wrap_fits.
  - pose proof (sync_local_wf (c_shard_id (sy_cluster s)) pos info (peers (sy_cluster s))) as Hl.
    destruct (sync_local _ _ _ _ _) as [[[[l o] ch]|] seeds].
    + cbn [all_ok sy_cluster]. apply wf_peers; [done|]. apply (Hl (l, o, ch)); [by apply nw_peers|done..].
    + apply (all_ok_bind (fun _ => True)); [by destruct (if _ && _ then _ else _)|]. intros o _. cbn [all_ok sy_cluster]. apply wf_peers; [done|].
      apply Forall_app. split; [by apply nw_peers|]. constructor; [|constructor]. by apply new_peer_wf.
Qed.
Lemma sync_peer_info_wf c l : node_wf c -> Forall info_fits l -> all_ok (fun r => wf1 r) (sync_peer_info env c l).
Proof.
  intros Hc Hl. unfold sync_peer_info. apply (all_ok_bind (fun s => node_wf (sy_cluster s))).
  - generalize 0%nat. assert (node_wf (sy_cluster (mkSync c [] false false))) as Hs by done. revert Hs. generalize (mkSync c [] false false).
    induction Hl as [|info l Hi _ IH]; intros s Hs pos; [done|]. cbn [sync_loop].
    eapply all_ok_bind; [by apply sync_entry_wf|]. intros s' Hs'. by apply IH.
  - intros s Hs. cbn [all_ok fst]. case_match; [|done]. apply wf_peers; [done|].
    apply Forall_forall. intros p [_ Hp]%list_elem_of_filter. pose proof (nw_peers _ Hs) as Hf. rewrite Forall_forall in Hf. by apply Hf.
Qed.

Lemma ping_local_wf shard pos status idx l r :
  Forall peer_wf l -> status_fits status -> ping_local env shard pos status idx l = Some r -> Forall peer_wf r.1.1.1.
Proof.
  intros Hl (? & ? & ? & ? & ?). revert idx r. induction Hl as [|p l Hp Hl IH]; intros idx r; [done|]. cbn [ping_local].
  destruct (peer_id p =? ps_peer_id status).
  - destruct (epoch p <? ps_epoch status); [|intros [= <-]; by constructor].
    pose proof (update_heartbeat_wf (set_seen p (ps_epoch status) (ps_last_log_index status) (ps_last_log_term status)) (pos =? 0)%nat
      ltac:(auto with node)) as Hu.
    destruct (update_heartbeat _ _ _) as [p' w]. intros [= <-]. by constructor.
  - destruct (ping_local _ _ _ _ _ l) as [[[[l' o] f] i]|] eqn:E; [|done]. cbn. intros [= <-]. constructor; [done|]. by apply (IH _ _ E).
Qed.
Lemma handle_ping_wf c l b : node_wf c -> Forall status_fits l -> all_ok (fun r => wf1 r) (handle_ping env c l b).
Proof.
  intros Hc Hl. unfold handle_ping. assert (node_wf (set_epoch c (u64 (c_epoch c + 1)))) as H1 by (apply wf_epoch; [done|by apply wrap_fits]).
  set (s := mkPinged _ _ _ _). assert (node_wf (pg_cluster s)) as Hs by done. clearbody s.
  assert (forall n, node_wf (pg_cluster (ping_loop env s n l))) as Hp.
  { clear H1. revert s Hs. induction Hl as [|st l Hst _ IH]; intros s Hs n; [done|]. cbn [ping_loop]. apply IH. case_match; [done|].
    pose proof (ping_local_wf (c_shard_id (pg_cluster s)) n st 0 (peers (pg_cluster s))) as Hpl.
    destruct (ping_local _ _ _ _ _ _) as [[[[ps o] full] i]|]; [|done]. cbn [pg_cluster]. apply wf_peers; [done|].
    apply (Hpl (ps, o, full, i)); [by apply nw_peers|done..]. }
  case_match; [|apply Hp]. destruct (peers _ !! _); [|done]. apply Hp.
Qed.

Lemma handle_leave_wf c l : node_wf c -> Forall status_fits l -> all_ok (fun r => wf1 r) (handle_leave env c l).
Proof.
  intros Hc Hl. unfold handle_leave. destruct Hl as [|st l (? & ? & ? & ? & ?) _]; [done|].
  assert (Forall peer_wf (leave_loop (is_leading c) (c_shard_id c) st (peers c)).1 /\
          fits 64 (leave_loop (is_leading c) (c_shard_id c) st (peers c)).2) as [Hp Hi].
  { pose proof (nw_peers _ Hc) as Hps. induction Hps as [|p ps Hp Hps [IH1 IH2]]; cbn [leave_loop fst snd]; [split; [constructor|unfold fits; lia]|].
    destruct (peer_id p =? ps_peer_id st); cbn [fst snd].
    - split; [|case_match; [done|unfold fits; lia]]. constructor; [|done]. unfold mark_left. auto with node.
    - destruct (leave_loop _ _ _ ps). cbn [fst snd] in *. split; [by constructor|done]. }
  destruct (leave_loop _ _ _ _) as [ps index]. cbn [fst snd] in *.
  assert (wf1 (if index =? U64_MAX then (set_peers c ps, []) else advance_commit_index (set_peers c ps) (ps_peer_id st) index)) as Hadv.
  { case_match; [cbn; auto with node|]. apply advance_commit_index_wf; auto with node. }
  destruct (if index =? U64_MAX then _ else _) as [c1 o1]. cbn [fst] in Hadv. case_match; [|done].
  eapply all_ok_bind; [by apply request_votes_wf|]. by intros [].
Qed.
Lemma check_loop_wf leader l n b : Forall peer_wf l -> Forall peer_wf (check_loop env leader l n b).1.1.
Proof.
  intros Hl. revert n b. induction Hl as [|p l Hp _ IH]; intros n b; [constructor|]. cbn [check_loop]. destruct (is_offline p).
  - specialize (IH n b). destruct (check_loop _ _ l n b) as [[l' n'] b']. by constructor.
  - pose proof (check_heartbeat_wf p Hp) as Hc. destruct (check_heartbeat env p) as [p' ok]. cbn [fst] in Hc.
    destruct (if ok then _ else _) as [n1 b1]. specialize (IH n1 b1). destruct (check_loop _ _ l n1 b1) as [[l' n'] b']. by constructor.
Qed.
Lemma ping_next_wf n c alive : node_wf c -> all_ok (fun r => wf1 r) (ping_next n c alive).
Proof.
  revert c. induction n as [|n IH]; intros c Hc; [done|]. cbn [ping_next].
  set (c1 := set_pinged c _). assert (node_wf c1) as H1.
  { apply wf_pinged; [done|]. pose proof (wrap_fits 64 (last_peer_pinged c + 1) ltac:(lia)) as Hf.
    destruct (Z.eq_dec (Z.of_nat (length (peers c))) 0) as [->|]; [by rewrite Z.mod_0_r|].
    pose proof (Z.mod_pos_bound (u64 (last_peer_pinged c + 1)) (Z.of_nat (length (peers c))) ltac:(lia)).
    pose proof (Z.mod_le (u64 (last_peer_pinged c + 1)) (Z.of_nat (length (peers c)))). unfold fits in *. lia. }
  clearbody c1. destruct (peers c1 !! _) as [p|]; [|done]. cbn [unwrap mbind res_bind].
  assert (node_wf (set_epoch c1 (u64 (c_epoch c1 + 1)))) by (apply wf_epoch; [done|by apply wrap_fits]).
  destruct (peer_state p); [done..| |by apply IH]. destruct (alive =? 0); [done|by apply IH].
Qed.
Lemma ping_peers_wf c : node_wf c -> all_ok (fun r => wf1 r) (ping_peers env c).
Proof.
  intros Hc. unfold ping_peers. pose proof (check_loop_wf (leader_peer_id c) (peers c) 0 false (nw_peers _ Hc)) as Hl.
  destruct (check_loop _ _ _ _ _) as [[l alive] off]. cbn [fst] in Hl. apply (all_ok_bind (fun r => wf1 r)).
  - destruct off; [apply request_votes_wf|]; by apply wf_peers.
  - intros [c1 o1] H1. eapply all_ok_bind; [by apply ping_next_wf|]. by intros [].
Qed.
Lemma turn_wf interval c last : node_wf c -> all_ok (fun r => node_wf r.1.1.1) (turn env interval c last).
Proof.
  intros Hc. unfold turn. destruct (peers c); [done|]. apply (all_ok_bind (fun r => node_wf r.1.1.1)).
  - case_match; [|done]. eapply all_ok_bind; [by apply ping_peers_wf|]. by intros [].
  - intros [[[c1 o1] lp] tp] H1. case_match; [|done]. case_match; try done.
    eapply all_ok_bind; [by apply request_votes_wf|]. by intros [].
Qed.
End WellFormed.

(** ** Commits and elections *)

(** The members of the shard with what each has acknowledged. *)
Definition acks (c : Cluster) : list (PeerId * Z) :=
  map (fun p => (peer_id p, next_index (commit_index p))) (filter (fun p => is_in_shard p (c_shard_id c) = true) (peers c)) ++
  [(c_peer_id c, next_index (uncommitted_index c))].
Definition shard_ids (c : Cluster) : list PeerId := (acks c).*1.

Lemma commit_indexes_acks c : commit_indexes c = (acks c).*2.
Proof. unfold commit_indexes, acks. rewrite fmap_app. f_equal. symmetry. apply map_map. Qed.


Lemma sorted_upper l k :
  StronglySorted Z.le l -> (k < length l)%nat -> (length l - k <= length (filter (fun y => (nth k l 0 <= y)%Z) l))%nat.
Proof.
  intros Hs. revert k. induction Hs as [|x l Hs IH Hx]; intros k Hk; cbn [length] in *; [lia|]. destruct k as [|k]; cbn [nth].
  - rewrite filter_cons_True by lia. cbn [length]. rewrite filter_all by done. lia.
  - specialize (IH k ltac:(lia)). rewrite filter_cons. case_decide; cbn [length]; lia.
Qed.

Lemma acknowledge_shard c id index p shard : is_in_shard (acknowledge c id index p) shard = is_in_shard p shard.
Proof. unfold acknowledge. by destruct (_ && _ && _). Qed.
Lemma acknowledge_id c id index p : peer_id (acknowledge c id index p) = peer_id p.
Proof. unfold acknowledge. by destruct (_ && _ && _). Qed.
Lemma acknowledge_ids c id index l shard :
  map peer_id (filter (fun p => is_in_shard p shard = true) (map (acknowledge c id index) l)) =
  map peer_id (filter (fun p => is_in_shard p shard = true) l).
Proof.
  induction l as [|p l IH]; [done|]. cbn [map]. rewrite !filter_cons, acknowledge_shard. case_decide; [|done].
  cbn [map]. by rewrite IH, acknowledge_id.
Qed.

Lemma shard_ids_eq c : shard_ids c = map peer_id (filter (fun p => is_in_shard p (c_shard_id c) = true) (peers c)) ++ [c_peer_id c].
Proof. unfold shard_ids, acks. rewrite fmap_app. f_equal. apply map_map. Qed.

Lemma commit_quorum c :
  let indexes := merge_sort Z.le (commit_indexes c) in
  let commit := nth (length indexes / 2) indexes 0 in
  (length (acks c) - length (acks c) / 2 <= length (filter (fun a => (commit <= a.2)%Z) (acks c)))%nat.
Proof.
  cbn zeta. set (l := merge_sort Z.le (commit_indexes c)).
  assert (l ≡ₚ commit_indexes c) as Hp by apply merge_sort_Permutation.
  assert (length l = length (acks c)) as Hl by (rewrite Hp, commit_indexes_acks; apply length_fmap).
  assert (0 < length (acks c))%nat as Hn by (unfold acks; rewrite length_app; cbn; lia).
  pose proof (sorted_upper l (length l / 2) ltac:(apply StronglySorted_merge_sort; [apply _|intros ? ?; lia]) ltac:(apply Nat.div_lt; lia)) as Hu.
  rewrite Hl in *. set (commit := nth _ l 0) in *. rewrite Hp, commit_indexes_acks in Hu. etrans; [exact Hu|].
  apply Nat.eq_le_incl. clearbody commit. clear. induction (acks c) as [|a acks IH]; [done|]. rewrite fmap_cons, !filter_cons. repeat case_decide; cbn [length]; auto.
Qed.

(** Two sets of members with more elements than there are members meet. *)
Lemma quorums_meet (ids l l' : list Z) :
  NoDup l -> NoDup l' -> l ⊆ ids -> l' ⊆ ids -> (length ids < length l + length l')%nat -> exists x, x ∈ l /\ x ∈ l'.
Proof.
  intros Hl Hl' Hs Hs' Hlen. destruct (decide (Exists (fun x => x ∈ l') l)) as [(x & ? & ?)%Exists_exists|Hd]; [by exists x|].
  exfalso. assert (NoDup (l ++ l')) as Hnd.
  { apply NoDup_app. split_and!; [done| |done]. intros x Hx Hx'. apply Hd, Exists_exists. by exists x. }
  pose proof (NoDup_submseteq _ ids Hnd) as Hsub. apply submseteq_length in Hsub; [rewrite length_app in Hsub; lia|].
  intros x [?|?]%elem_of_app; auto.
Qed.

(** ** Properties *)

(** C35. Every event and every turn of the main loop leaves a node well formed:
    its term, epochs and log indexes stay in the range of their types, and the
    heartbeat window of each peer holds 1024 values of at most an hour whose
    sum and sum of squares are exactly those the failure detector uses, so the
    subtractions of expired values never underflow. *)
Theorem node_stays_wf env c event interval last_ping :
  node_wf c -> event_fits event ->
  all_ok (fun r => match r with Some (c', _) => node_wf c' | None => True end) (handle_message env c event) /\
  all_ok (fun r => node_wf r.1.1.1) (turn env interval c last_ping).
Proof.
  intros Hc He. split; [|by apply turn_wf].
  assert (forall r : res (Cluster * list Output), all_ok (fun x => node_wf x.1) r ->
    all_ok (fun x => match x with Some (c', _) => node_wf c' | None => True end) (Some <$> r)) as Hlift by (by intros [[]| |]).
  assert (forall r : Cluster * list Output, node_wf r.1 -> let '(c', _) := r in node_wf c') as Hpure by (by intros []).
  destruct event as [from [ | |l|l|l]|id [l|tm last|tm last|tm r|pl| |]|id [l|tm b| | | | |]|pl|tm|last|index|id index|]; cbn [handle_message event_fits] in *;
    try done; try (apply Hlift); try (cbn [all_ok]; apply Hpure).
  - by apply handle_ping_wf.
  - by apply handle_ping_wf.
  - by apply handle_leave_wf.
  - unfold handle_update_peers. eapply all_ok_bind; [by apply sync_peer_info_wf|]. by intros [].
  - by apply handle_vote_request_wf.
  - by apply handle_become_follower_wf.
  - by apply handle_append_entries_wf.
  - by apply sync_peer_info_wf.
  - by apply handle_vote_response_wf.
  - by destruct (get_peer c id).
  - case_match; [by apply step_down_wf|by apply start_election_timer_wf].
  - unfold update_raft_index. cbn [fst]. apply wf_core, wf_log; [done..|apply Hc].
  - by apply advance_uncommitted_wf.
  - by apply advance_commit_index_wf.
Qed.

(** C20. A commit survives every election. When a leader commits up to an
    index, that index is one that so many members of its shard have
    acknowledged that any set of voters large enough to win an election
    ([count_vote]) contains one of them. With an even number of members half
    of them suffice for a commit; a majority is still needed for an election. *)
Theorem commit_meets_elections c id index c' o voters :
  NoDup (shard_ids c) ->
  advance_commit_index c id index = (c', o) -> last_log c' <> last_log c ->
  NoDup voters -> voters ⊆ shard_ids c -> half (Z.of_nat (length (shard_ids c)) - 1) < Z.of_nat (length voters) ->
  exists v i, v ∈ voters /\ (v, i) ∈ acks c' /\ next_index (rid_index (last_log c')) <= i.
Proof.
  unfold advance_commit_index. intros Hnd E Hne Hv Hsub Hq. set (c1 := set_peers c (map (acknowledge c id index) (peers c))) in *.
  assert (shard_ids c1 = shard_ids c) as Hids.
  { rewrite !shard_ids_eq. unfold c1. cbn [set_peers c_shard_id peers c_peer_id]. by rewrite acknowledge_ids. }
  pose proof (commit_quorum c1) as Hc. cbn zeta in Hc. set (commit := nth _ _ 0) in *.
  destruct (next_index (rid_index (last_log c1)) <? commit) eqn:Hlt; injection E as <- <-; [|done].
  cbn [set_log last_log rid_index uncommitted_index]. change (acks (set_log c1 _ _)) with (acks c1).
  set (A := filter (fun a => (commit <= a.2)%Z) (acks c1)) in *.
  destruct (quorums_meet (shard_ids c) voters A.*1) as (v & Hvv & Hva); [done| |done| | |].
  - rewrite <- Hids in Hnd. unfold shard_ids in Hnd. revert Hnd. unfold A. generalize (acks c1). induction l as [|a l IH]; [done|].
    rewrite fmap_cons. intros [Hn Hl]%NoDup_cons. rewrite filter_cons. case_decide; [|auto]. rewrite fmap_cons. constructor; [|auto].
    intros (b & Eb & [_ Hb]%list_elem_of_filter)%list_elem_of_fmap. apply Hn. rewrite Eb. by apply list_elem_of_fmap_2.
  - rewrite <- Hids. intros x (b & -> & [_ Hb]%list_elem_of_filter)%list_elem_of_fmap. by apply list_elem_of_fmap_2.
  - rewrite length_fmap. assert (length (acks c1) = length (shard_ids c)) as El by (rewrite <- Hids; symmetry; apply length_fmap).
    rewrite El in Hc. unfold half in Hq. Z.to_euclidean_division_equations. pose proof (Nat.div_mod_eq (length (shard_ids c)) 2).
    pose proof (Nat.mod_upper_bound (length (shard_ids c)) 2). lia.
  - apply list_elem_of_fmap in Hva as ([v' i] & -> & [Hi Hin]%list_elem_of_filter). exists v', i. split_and!; [done..|].
    cbn [snd] in Hi. etrans; [|exact Hi]. unfold next_index. apply Z.ltb_lt in Hlt.
    assert (fits 64 commit) as Hf.
    { assert (commit ∈ commit_indexes c1) as Hin'.
      { rewrite <- (merge_sort_Permutation Z.le (commit_indexes c1)). apply list_elem_of_In, nth_In. apply Nat.div_lt; [|lia].
        rewrite merge_sort_Permutation, commit_indexes_acks, length_fmap. unfold acks. rewrite length_app. cbn. lia. }
      unfold commit_indexes in Hin'. apply elem_of_app in Hin' as [(p & -> & _)%list_elem_of_fmap| ->%list_elem_of_singleton]; by apply wrap_fits. }
    unfold next_index in Hlt. pose proof (wrap_fits 64 (rid_index (last_log c1) + 1) ltac:(lia)).
    rewrite (wrap_small 64 (commit - 1)) by (unfold fits in *; lia). rewrite Z.sub_add, wrap_small by done. done.
Qed.

(** ** Samples *)

Module ClusterSample.
Definition env0 : Env := mkEnv 0 50 (Ok false) (fun x => x) (fun x => x).
Definition info (id : PeerId) : PeerInfo := mkPeerInfo id 0 0 0 U64_MAX 0 (mkAddr 0 id) [].
Definition node (id : PeerId) (others : list PeerId) : Cluster :=
  mkCluster id 0 0 0 (mkAddr 0 id) [] 1000 (map (fun i => new_peer env0 (info i) Alive) others) U32_MAX
    (mkCore RAFT_LOG_BEHIND None false 0 U64_MAX) 0 raft_id_none U64_MAX (init_state env0).

Lemma node_is_wf id others : Forall (fits 64) others -> node_wf (node id others).
Proof.
  intros Hf. split; cbn [node peers term last_log uncommitted_index c_epoch last_peer_pinged]; try (unfold fits; lia).
  - apply Forall_map. eapply Forall_impl; [exact Hf|]. intros i Hi. apply new_peer_wf. split; [exact Hi|]. cbn. unfold fits. lia.
  - split; cbn; unfold fits; lia.
Qed.

(** The leader of three nodes with entries up to 5. *)
Definition leader : Cluster := set_log (set_raft (node 1 [2; 3]) 1 Leader) raft_id_none 5.
End ClusterSample.
Import ClusterSample.

Lemma node_stays_wf_witness :
  all_ok (fun r => match r with Some (c', _) => node_wf c' | None => True end)
    (handle_message env0 (node 1 [2; 3]) (ERpcRequest 2 (Vote 1 raft_id_none))) /\
  all_ok (fun r => node_wf r.1.1.1) (turn env0 500 (node 1 [2; 3]) 0).
Proof.
  apply (node_stays_wf env0 (node 1 [2; 3]) (ERpcRequest 2 (Vote 1 raft_id_none)) 500 0).
  - apply node_is_wf. repeat constructor; cbn; lia.
  - cbn. unfold fits. lia.
Defined.

Lemma commit_meets_elections_witness :
  exists v i, v ∈ [2; 3] /\ (v, i) ∈ acks (advance_commit_index leader 2 4).1 /\
    next_index (rid_index (last_log (advance_commit_index leader 2 4).1)) <= i.
Proof.
  apply (commit_meets_elections leader 2 4 (advance_commit_index leader 2 4).1 (advance_commit_index leader 2 4).2 [2; 3]).
  - apply (bool_decide_unpack _). vm_compute. exact I.
  - by destruct (advance_commit_index leader 2 4).
  - vm_compute. discriminate.
  - apply (bool_decide_unpack _). vm_compute. exact I.
  - intros x Hx. change (shard_ids leader) with [2; 3; 1]. set_solver.
  - vm_compute. reflexivity.
Defined.
