(* ===== verification/Election.v ===== *)
(** * Elections: the nodes of a shard and their messages

    The network of nodes that run the handlers of [Cluster]: any node may at
    any time handle an event, ping its peers or have its election timer fire;
    requests and gossip may be arbitrary, lost, repeated or reordered, and
    only the answers to vote requests must have been sent by the peer they
    come from. [moves] sums up what a step does to the vote of a node. *)

From S2P Require Import Prelude Leb128 Types Keys KV ChangeLog RaftLog Gossip Cluster.

(** ** Steps of a node *)

Inductive input : Set := IEvent (event : Event) | IPing | IElection.

Definition react (env : Env) (c : Cluster) (inp : input) : res (option (Cluster * list Output)) :=
  match inp with
  | IEvent event => handle_message env c event
  | IPing => Some <$> ping_peers env c
  | IElection =>
      match time_to_next_election env c with Some 0 => Some <$> request_votes env c false | _ => Ok None end
  end.

Definition flagged (c : Cluster) (v : PeerId) : Prop := exists p, p ∈ peers c /\ peer_id p = v /\ vote_granted p = true.
Definition no_grant (o : list Output) : Prop := forall t, Reply (RVote t true) ∉ o.

(** The vote of the node is as before. *)
Record stays (c c' : Cluster) : Prop := {
  st_term : term c' = term c; st_state : state c' = state c; st_flags v : flagged c' v -> flagged c v }.

Inductive moves (c c' : Cluster) (inp : input) (o : list Output) : Prop :=
| m_stay : stays c c' -> no_grant o -> moves c c' inp o
| m_raise : term c < term c' -> state c' = state c -> (forall v, flagged c' v -> flagged c v) -> no_grant o -> moves c c' inp o
| m_wait due : term c <= term c' -> state c' = Wait due -> no_grant o -> moves c c' inp o
| m_campaign due : term c < term c' -> state c' = Candidate due -> (forall v, ~ flagged c' v) -> no_grant o -> moves c c' inp o
| m_vote id due tm last :
    inp = IEvent (ERpcRequest id (Vote tm last)) -> term c <= term c' -> state c' = VotedFor id due ->
    (term c < term c' \/ (exists due', state c = Wait due') \/ (exists due', state c = VotedFor id due')) ->
    (forall t, Reply (RVote t true) ∈ o -> t = term c') -> moves c c' inp o
| m_follow id : term c <= term c' -> state c' = Follower id -> no_grant o -> moves c c' inp o
| m_count id due :
    inp = IEvent (ERpcResponse id (RVote (term c) true)) -> state c = Candidate due -> term c' = term c -> state c' = Candidate due ->
    (forall v, flagged c' v -> flagged c v \/ v = id) -> o = [] -> moves c c' inp o
| m_lead id due :
    inp = IEvent (ERpcResponse id (RVote (term c) true)) -> state c = Candidate due -> term c' = term c -> state c' = Leader ->
    half (Z.of_nat (length (filter (fun p => is_in_shard p (c_shard_id c) = true) (peers c)))) <
      1 + Z.of_nat (length (filter (fun p => is_in_shard p (c_shard_id c) = true /\ (peer_id p = id \/ vote_granted p = true)) (peers c))) ->
    no_grant o -> moves c c' inp o.

(** ** What each handler does to the vote *)

Lemma not_flagged_reset c v : ~ flagged (reset_votes c) v.
Proof. intros (p & (q & -> & _)%list_elem_of_fmap & _ & Hv). done. Qed.

Lemma flagged_map (f : Peer -> Peer) c c' v :
  peers c' = map f (peers c) -> (forall p, peer_id (f p) = peer_id p /\ vote_granted (f p) = vote_granted p) -> flagged c' v -> flagged c v.
Proof.
  intros E Hf (p & Hp & Hid & Hv). rewrite E in Hp. apply list_elem_of_fmap in Hp as (q & -> & Hq).
  destruct (Hf q) as [H1 H2]. exists q. rewrite <- H1, <- H2. done.
Qed.

(** Peers with the same ids and flags. *)
Definition same_votes : list Peer -> list Peer -> Prop :=
  Forall2 (fun p q => peer_id p = peer_id q /\ vote_granted p = vote_granted q).
Lemma same_votes_refl l : same_votes l l.
Proof. unfold same_votes. induction l; by constructor. Qed.
Lemma same_votes_flagged c c' v : same_votes (peers c') (peers c) -> flagged c' v -> flagged c v.
Proof.
  intros Hs (p & Hp & Hid & Hv). apply list_elem_of_lookup in Hp as [i Hi].
  destruct (Forall2_lookup_l _ _ _ _ _ Hs Hi) as (q & Hq & E1 & E2). exists q. rewrite <- E1, <- E2.
  split; [by eapply list_elem_of_lookup_2|done].
Qed.
Lemma stays_peers c l : same_votes l (peers c) -> stays c (set_peers c l).
Proof. intros Hs. split; [done..|]. intros v. by apply same_votes_flagged. Qed.
Lemma stays_refl c : stays c c.
Proof. by split. Qed.
Lemma stays_trans c c1 c2 : stays c c1 -> stays c1 c2 -> stays c c2.
Proof. intros [? ? ?] [? ? ?]. split; [congruence..|auto]. Qed.

Lemma advance_commit_stays c id index : stays c (advance_commit_index c id index).1 /\ no_grant (advance_commit_index c id index).2.
Proof.
  unfold advance_commit_index. set (c1 := set_peers c _).
  assert (stays c c1) as [H1 H2 H3].
  { split; [done..|]. intros v. apply (flagged_map (acknowledge c id index)); [done|]. intros p. unfold acknowledge. by destruct (_ && _ && _). }
  case_match; cbn [fst snd]; [|split; [by split|by intros t ?%not_elem_of_nil]]. split; [by split|].
  intros t Ht. unfold send_append_entries in Ht. destruct (is_leading _); set_solver.
Qed.

Lemma update_heartbeat_votes env p d :
  peer_id (update_heartbeat env p d).1 = peer_id p /\ vote_granted (update_heartbeat env p d).1 = vote_granted p.
Proof. unfold update_heartbeat. by repeat case_match. Qed.
Lemma check_heartbeat_votes env p :
  peer_id (check_heartbeat env p).1 = peer_id p /\ vote_granted (check_heartbeat env p).1 = vote_granted p.
Proof. unfold check_heartbeat. by repeat case_match. Qed.

Section Handlers.
Variable env : Env.

Lemma no_grant_app o o' : no_grant o -> no_grant o' -> no_grant (o ++ o').
Proof. intros H1 H2 t [?|?]%elem_of_app; [by apply (H1 t)|by apply (H2 t)]. Qed.
Lemma no_grant_nil : no_grant [].
Proof. by intros t ?%not_elem_of_nil. Qed.
Lemma no_grant_map {A} (f : A -> Output) l : (forall x t, f x <> Reply (RVote t true)) -> no_grant (map f l).
Proof. intros Hf t (x & E & _)%list_elem_of_fmap. by apply (Hf x t). Qed.

Lemma no_grant_one x : (forall t, x <> Reply (RVote t true)) -> no_grant [x].
Proof. intros Hx t Ht. apply list_elem_of_singleton in Ht. by apply (Hx t). Qed.
Lemma no_grant_cons x o : (forall t, x <> Reply (RVote t true)) -> no_grant o -> no_grant (x :: o).
Proof. intros Hx Ho t [E|?]%elem_of_cons; [by apply (Hx t)|by apply (Ho t)]. Qed.
Lemma no_grant_if (b : bool) o o' : no_grant o -> no_grant o' -> no_grant (if b then o else o').
Proof. by destruct b. Qed.
Hint Resolve no_grant_app no_grant_nil no_grant_one no_grant_cons no_grant_if : core.

Lemma sync_known_votes shard pos info p :
  peer_id (sync_known env shard pos info p).1.1 = peer_id p /\ vote_granted (sync_known env shard pos info p).1.1 = vote_granted p /\
  no_grant (sync_known env shard pos info p).1.2.
Proof.
  unfold sync_known. set (q := set_seen p _ _ _).
  destruct (update_heartbeat_votes env q (pos =? 0)%nat) as [H1 H2].
  destruct (epoch p <? pi_epoch info).
  - destruct (update_heartbeat env q _) as [q' w]. cbn [fst] in H1, H2.
    assert (no_grant (if w && is_in_shard q' shard then [SendRpc (peer_id q') RpcPing] else [])) by auto.
    destruct (_ || _); cbn [fst snd peer_id vote_granted]; split_and!; try done. by auto 6.
  - destruct (_ && _); cbn [fst snd peer_id vote_granted app]; split_and!; try done; auto 6.
Qed.

Lemma sync_local_votes shard pos info l l' o ch :
  (sync_local env shard pos info l).1 = Some (l', o, ch) -> same_votes l' l /\ no_grant o.
Proof.
  revert l' o ch. induction l as [|p l IH]; intros l' o ch; [done|]. cbn [sync_local]. destruct (is_seed p).
  - destruct (sync_local _ _ _ _ l) as [[[[l1 o1] ch1]|] s]; [|done]. cbn. intros [= <- <- <-].
    destruct (IH _ _ _ eq_refl). split; [by constructor|done].
  - destruct (peer_id p =? pi_peer_id info).
    + pose proof (sync_known_votes shard pos info p) as Hk. destruct (sync_known _ _ _ _ _) as [[p' o1] ch1]. cbn. intros [= <- <- <-].
      destruct Hk as (? & ? & ?). split; [constructor; [done|apply same_votes_refl]|done].
    + destruct (sync_local _ _ _ _ l) as [[[[l1 o1] ch1]|] s]; [|done]. cbn. intros [= <- <- <-].
      destruct (IH _ _ _ eq_refl). split; [by constructor|done].
Qed.

Lemma sync_entry_stays s pos info s' :
  sync_entry env s pos info = Ok s' -> no_grant (sy_out s) -> stays (sy_cluster s) (sy_cluster s') /\ no_grant (sy_out s').
Proof.
  unfold sync_entry. case_match.
  - intros [= <-] Hn. by case_match.
  - pose proof (sync_local_votes (c_shard_id (sy_cluster s)) pos info (peers (sy_cluster s))) as Hl.
    destruct (sync_local _ _ _ _ _) as [[[[l o] ch]|] seeds].
    + intros [= <-] Hn. destruct (Hl _ _ _ eq_refl). cbn [sy_cluster sy_out]. split; [by apply stays_peers|by apply no_grant_app].
    + set (c1 := set_peers _ _).
      assert (stays (sy_cluster s) c1) as Hs.
      { split; [done..|]. intros v (p & [Hp| ->%list_elem_of_singleton]%elem_of_app & Hid & Hv); [by exists p|done]. }
      destruct (if _ && _ then _ else _) as [o| |] eqn:Eo; [|done..]. cbn [mbind res_bind]. intros [= <-] Hn. split; [done|].
      apply no_grant_app; [done|]. unfold add_follower in Eo. repeat case_match; simplify_eq; [|apply no_grant_nil..].
      destruct (get_peer _ _); [|done]. injection Eo as <-. by auto.
Qed.

Lemma sync_peer_info_stays c l c' o : sync_peer_info env c l = Ok (c', o) -> stays c c' /\ no_grant o.
Proof.
  unfold sync_peer_info. intros E. destruct (sync_loop env _ 0 l) as [s| |] eqn:El; [|done..]. cbn [mbind res_bind] in E. injection E as <- <-.
  assert (stays c (sy_cluster s) /\ no_grant (sy_out s)) as [Hs Hn].
  { revert El. assert (no_grant (sy_out (mkSync c [] false false))) as Hn by apply no_grant_nil. revert Hn.
    change c with (sy_cluster (mkSync c [] false false)) at 3. generalize (mkSync c [] false false), 0%nat.
    induction l as [|info l IH]; intros s0 pos Hn; cbn [sync_loop]; [intros [= <-]; split; [apply stays_refl|done]|].
    destruct (sync_entry env s0 pos info) as [s1| |] eqn:E1; [|done..]. cbn [mbind res_bind]. intros E2.
    destruct (sync_entry_stays _ _ _ _ E1 Hn) as [H1 H2]. destruct (IH s1 (S pos) H2 E2) as [H3 H4].
    split; [by eapply stays_trans|done]. }
  split.
  - destruct (sy_seeds s); [|done]. eapply stays_trans; [exact Hs|]. split; [done..|].
    intros v (p & [_ Hp]%list_elem_of_filter & Hid & Hv). by exists p.
  - by auto.
Qed.

Lemma ping_local_votes shard pos status idx l l' o f i :
  ping_local env shard pos status idx l = Some (l', o, f, i) -> same_votes l' l /\ no_grant o.
Proof.
  revert idx l' o f i. induction l as [|p l IH]; intros idx l' o f i; [done|]. cbn [ping_local].
  destruct (peer_id p =? ps_peer_id status).
  - case_match.
    + pose proof (update_heartbeat_votes env (set_seen p (ps_epoch status) (ps_last_log_index status) (ps_last_log_term status)) (pos =? 0)%nat) as Hu.
      destruct (update_heartbeat _ _ _) as [p' w]. intros [= <- <- _ _]. split; [constructor; [done|apply same_votes_refl]|].
      by auto.
    + intros [= <- <- _ _]. split; [apply same_votes_refl|apply no_grant_nil].
  - destruct (ping_local _ _ _ _ _ l) as [[[[l1 o1] f1] i1]|] eqn:E; [|done]. cbn. intros [= <- <- _ _].
    destruct (IH _ _ _ _ _ E). split; [by constructor|done].
Qed.

Lemma handle_ping_stays c l b c' o : handle_ping env c l b = Ok (c', o) -> stays c c' /\ no_grant o.
Proof.
  unfold handle_ping. set (s := mkPinged _ _ _ _).
  assert (stays c (pg_cluster s) /\ no_grant (pg_out s)) as Hs by (split; [by split|apply no_grant_nil]). clearbody s.
  assert (forall n, stays c (pg_cluster (ping_loop env s n l)) /\ no_grant (pg_out (ping_loop env s n l))) as Hl.
  { revert s Hs. induction l as [|st l IH]; intros s [H1 H2] n; [done|]. cbn [ping_loop]. apply IH. case_match; [done|].
    destruct (ping_local _ _ _ _ _ _) as [[[[ps o1] full] i]|] eqn:E; [|done]. apply ping_local_votes in E as [E1 E2].
    cbn [pg_cluster pg_out]. split; [eapply stays_trans; [done|by apply stays_peers]|by apply no_grant_app]. }
  specialize (Hl 0%nat). destruct Hl as [H1 H2]. case_match; [|by intros [= <- <-]].
  destruct (peers _ !! _); [|done]. cbn [unwrap mbind res_bind]. intros [= <- <-]. split; [done|]. apply no_grant_app; [done|].
  by auto 8.
Qed.

(** The outcomes of an election timer. *)
Definition timer_moves (c c' : Cluster) (o : list Output) : Prop :=
  no_grant o /\
  ((exists due, term c' = term c /\ state c' = Wait due) \/
   (exists due, term c' = term c + 1 /\ state c' = Candidate due /\ forall v, ~ flagged c' v)).

Lemma request_votes_moves c b c' o :
  0 <= term c < U64_MAX -> request_votes env c b = Ok (c', o) -> timer_moves c c' o.
Proof.
  intros Ht. unfold request_votes.
  assert (forall b, timer_moves c (start_election_timer env c b).1 (start_election_timer env c b).2) as Hw.
  { intros b'. unfold start_election_timer, set_follower. cbn [fst snd]. split; [by auto|]. left. by eexists. }
  assert (forall b0 r, Ok (start_election_timer env c b0) = Ok r -> timer_moves c r.1 r.2) as Hw' by (intros b0 r [= <-]; apply Hw).
  destruct (has_election_quorum c); [|intros E; by apply (Hw' _ (c', o)) in E].
  destruct (peer_is_ahead c); [intros E; by apply (Hw' _ (c', o)) in E|].
  destruct (pending_rollback env) as [[]| |]; [intros E; by apply (Hw' _ (c', o)) in E| |done..]. cbn [mbind res_bind].
  unfold run_for_election, set_follower. intros [= <- <-]. split.
  - apply (no_grant_app [StopServices]); [by auto|]. by apply no_grant_map.
  - right. eexists. split; [|split; [done|]].
    + cbn. apply wrap_small. unfold fits. lia.
    + intros v (p & (q & -> & _)%list_elem_of_fmap & _ & Hv). done.
Qed.

Lemma timer_moves_after c c1 c' o inp : stays c c1 -> timer_moves c1 c' o -> moves c c' inp o.
Proof.
  intros [H1 H2 H3] (Hn & [(due & Ht & Hs)|(due & Ht & Hs & Hf)]).
  - apply (m_wait _ _ _ _ due); [lia|done..].
  - apply (m_campaign _ _ _ _ due); [lia|done..].
Qed.

Lemma leave_loop_votes b shard st l : same_votes (leave_loop b shard st l).1 l.
Proof.
  induction l as [|p l IH]; [constructor|]. cbn [leave_loop]. case_match; [constructor; [done|apply same_votes_refl]|].
  destruct (leave_loop _ _ _ l). by constructor.
Qed.

Lemma handle_leave_moves c l c' o inp :
  0 <= term c < U64_MAX -> handle_leave env c l = Ok (c', o) -> moves c c' inp o.
Proof.
  intros Ht. unfold handle_leave. destruct l as [|st l]; [intros [= <- <-]; apply m_stay; [apply stays_refl|done]|].
  pose proof (leave_loop_votes (is_leading c) (c_shard_id c) st (peers c)) as Hl. destruct (leave_loop _ _ _ _) as [ps index]. cbn [fst] in Hl.
  assert (stays c (if index =? U64_MAX then (set_peers c ps, []) else advance_commit_index (set_peers c ps) (ps_peer_id st) index).1 /\
    no_grant (if index =? U64_MAX then (set_peers c ps, []) else advance_commit_index (set_peers c ps) (ps_peer_id st) index).2) as [H1 H2].
  { destruct (index =? U64_MAX); [split; [by apply stays_peers|apply no_grant_nil]|].
    destruct (advance_commit_stays (set_peers c ps) (ps_peer_id st) index). split; [|done].
    eapply stays_trans; [by apply stays_peers|done]. }
  destruct (if index =? U64_MAX then _ else _) as [c1 o1]. cbn [fst snd] in *.
  destruct (is_following_peer c _); [|intros [= <- <-]; by apply m_stay].
  destruct (request_votes env c1 true) as [[c2 o2]| |] eqn:Er; [|done..]. cbn [mbind res_bind]. intros [= <- <-].
  apply request_votes_moves in Er as [Hn Hm]; [|by rewrite (st_term _ _ H1)].
  apply (timer_moves_after c c1); [done|]. split; [by apply no_grant_app|done].
Qed.

Lemma step_down_moves c tm inp : term c < tm -> moves c (step_down env c tm).1 inp (step_down env c tm).2.
Proof. intros Ht. unfold step_down, set_follower. cbn [fst snd]. eapply m_wait; [cbn; lia|done|by auto]. Qed.

Lemma handle_vote_request_moves c id tm last c' o :
  handle_vote_request env c id tm last = Ok (c', o) -> moves c c' (IEvent (ERpcRequest id (Vote tm last))) o.
Proof.
  unfold handle_vote_request. destruct (is_known_peer c id); [|intros [= <- <-]; apply m_stay; [apply stays_refl|by auto]].
  assert (exists c1 o1, (if term c <? tm then step_down env c tm else (c, [])) = (c1, o1) /\ no_grant o1 /\
    ((term c < tm /\ term c1 = tm /\ exists due, state c1 = Wait due) \/ c1 = c)) as (c1 & o1 & -> & Hn & Hc).
  { destruct (Z.ltb_spec (term c) tm); eexists _, _; (split; [reflexivity|]); (split; [unfold set_follower; by auto|]); [left|by right].
    split; [done|]. split; [done|]. by eexists. }
  destruct (term c1 =? tm) eqn:Etm; cbn [andb].
  2: { intros [= <- <-]. destruct Hc as [(Hlt & E & due & Hw)| ->]; [lia|]. apply m_stay; [apply stays_refl|]. by auto. }
  destruct (can_grant_vote c1 id) eqn:Eg, (log_is_behind_or_eq c1 _ _); cbn [andb].
  2,3,4: intros [= <- <-]; destruct Hc as [(Hlt & E & due & Hw)| ->]; [apply (m_wait _ _ _ _ due); [lia|done|by auto]|apply m_stay; [apply stays_refl|by auto]].
  unfold vote_for. destruct (get_peer c1 id); [|done]. cbn [unwrap mbind res_bind]. unfold set_follower. intros [= <- <-].
  eapply m_vote; [done|destruct Hc as [(? & E & _)| ->]; cbn; lia|done| |].
  - destruct Hc as [(? & E & _)| ->]; [left; cbn; lia|]. right. unfold can_grant_vote in Eg. cbn.
    destruct (state c) as [|due|due|id' due|id'] eqn:Es; try done; [left; by eexists|].
    apply Z.eqb_eq in Eg as ->. right. by eexists.
  - intros t [Ht|Ht]%elem_of_app; [by apply Hn in Ht|]. apply elem_of_cons in Ht as [?|Ht]; [done|].
    apply list_elem_of_singleton in Ht. by injection Ht as ->.
Qed.

Lemma handle_vote_response_moves c id tm b :
  let r := handle_vote_response env c id tm b in moves c r.1 (IEvent (ERpcResponse id (RVote tm b))) r.2.
Proof.
  cbn zeta. unfold handle_vote_response. destruct (Z.ltb_spec (term c) tm); [by apply step_down_moves|].
  destruct (negb (is_candidate c) || negb b || negb (term c =? tm)) eqn:Ec; [apply m_stay; [apply stays_refl|done]|].
  apply orb_false_iff in Ec as [[Hc Hb]%orb_false_iff Ht]. apply negb_false_iff in Hc, Hb, Ht. apply Z.eqb_eq in Ht as <-. subst b.
  unfold is_candidate in Hc. destruct (state c) as [| |due| |] eqn:Es; try done.
  unfold count_vote, count_loop. rewrite count_fold. cbn [fst snd app]. rewrite Z.add_0_l.
  case_match eqn:Ew; cbn [fst snd].
  - apply Z.ltb_lt in Ew. unfold become_leader. cbn [fst snd]. eapply m_lead; [done..|].
    apply (no_grant_app [SpawnLeaderInit]); [by auto|]. by apply no_grant_map.
  - eapply m_count; [done..| |done]. intros v (p & (q & -> & Hq)%list_elem_of_fmap & Hid & Hv).
    destruct (is_in_shard q _ && (peer_id q =? id)) eqn:Eq; [|left; by exists q].
    apply andb_true_iff in Eq as [_ Eq%Z.eqb_eq]. right. cbn in Hid. congruence.
Qed.

(** A term taken over from a request leaves the state of the node. *)
Lemma set_term_moves c tm inp o :
  no_grant o -> moves c (if term c <? tm then set_term c tm else c) inp o.
Proof.
  intros Hn. destruct (Z.ltb_spec (term c) tm); [|apply m_stay; [apply stays_refl|done]]. apply m_raise; [cbn; lia|done|by intros v|done].
Qed.

Lemma handle_become_follower_moves c id tm last c' o inp :
  handle_become_follower c id tm last = Ok (c', o) -> moves c c' inp o.
Proof.
  unfold handle_become_follower. destruct (is_known_peer c id); [|intros [= <- <-]; apply m_stay; [apply stays_refl|by auto]].
  assert (term c <= term (if term c <? tm then set_term c tm else c)) as Ht by (destruct (Z.ltb_spec (term c) tm); cbn; lia).
  set (c1 := if term c <? tm then _ else c) in *. destruct (_ && _).
  - unfold follow_leader. destruct (get_peer c1 id); [|done]. cbn [unwrap mbind res_bind]. intros [= <- <-].
    eapply m_follow; [done..|]. by auto.
  - intros [= <- <-]. apply set_term_moves. by auto.
Qed.

Lemma handle_append_entries_moves c id tm r inp : let r := handle_append_entries c id tm r in moves c r.1 inp r.2.
Proof. cbn zeta. unfold handle_append_entries. destruct (is_following_peer _ id); cbn [fst snd]; apply set_term_moves; by auto. Qed.

Lemma ping_next_stays n c alive c' o : ping_next n c alive = Ok (c', o) -> stays c c' /\ no_grant o.
Proof.
  revert c. induction n as [|n IH]; intros c; cbn [ping_next]; [intros [= <- <-]; split; [apply stays_refl|done]|].
  set (c1 := set_pinged c _). assert (stays c c1) as H1 by (by split). clearbody c1.
  destruct (peers c1 !! _) as [p|]; [|done]. cbn [unwrap mbind res_bind].
  assert (ping_next n c1 alive = Ok (c', o) -> stays c c' /\ no_grant o) as Hnext.
  { intros [H2 H3]%IH. split; [by eapply stays_trans|done]. }
  destruct (peer_state p); [intros [= <- <-]; split; [|by auto]..| |done].
  - done.
  - eapply stays_trans; [done|]. by split.
  - eapply stays_trans; [done|]. by split.
  - destruct (alive =? 0); [|done]. intros [= <- <-]. split; [done|by auto].
Qed.

Lemma check_loop_votes leader l n b : same_votes (check_loop env leader l n b).1.1 l.
Proof.
  revert n b. induction l as [|p l IH]; intros n b; [constructor|]. cbn [check_loop]. destruct (is_offline p).
  - specialize (IH n b). destruct (check_loop _ _ l n b) as [[l' n'] b']. by constructor.
  - pose proof (check_heartbeat_votes env p) as Hc. destruct (check_heartbeat env p) as [p' ok]. cbn [fst] in Hc.
    destruct (if ok then _ else _) as [n1 b1]. specialize (IH n1 b1). destruct (check_loop _ _ l n1 b1) as [[l' n'] b']. by constructor.
Qed.

Lemma ping_peers_moves c c' o inp : 0 <= term c < U64_MAX -> ping_peers env c = Ok (c', o) -> moves c c' inp o.
Proof.
  intros Ht. unfold ping_peers. pose proof (check_loop_votes (leader_peer_id c) (peers c) 0 false) as Hl.
  destruct (check_loop _ _ _ _ _) as [[l alive] off]. cbn [fst] in Hl. pose proof (stays_peers c l Hl) as Hs.
  destruct off.
  - destruct (request_votes env (set_peers c l) true) as [[c1 o1]| |] eqn:Er; [|done..]. cbn [mbind res_bind].
    destruct (ping_next _ c1 alive) as [[c2 o2]| |] eqn:Ep; [|done..]. cbn [mbind res_bind]. intros [= <- <-].
    apply request_votes_moves in Er as [Hn Hm]; [|done]. apply ping_next_stays in Ep as [[H1 H2 H3] Hn2].
    apply (timer_moves_after c (set_peers c l)); [done|]. split; [by apply no_grant_app|].
    destruct Hm as [(due & E1 & E2)|(due & E1 & E2 & E3)]; [left|right]; exists due; [split; congruence|].
    split_and!; [congruence..|]. intros v Hv. by apply (E3 v), H3.
  - cbn [mbind res_bind]. destruct (ping_next _ (set_peers c l) alive) as [[c2 o2]| |] eqn:Ep; [|done..]. cbn [mbind res_bind].
    intros [= <- <-]. apply ping_next_stays in Ep as [H1 Hn]. apply m_stay; [by eapply stays_trans|done].
Qed.
End Handlers.

(** Every step of a node is one of the moves. *)
Lemma react_moves env c inp c' o :
  0 <= term c < U64_MAX -> react env c inp = Ok (Some (c', o)) -> moves c c' inp o.
Proof.
  intros Ht. assert (forall r : res (Cluster * list Output), Some <$> r = Ok (Some (c', o)) -> r = Ok (c', o)) as Hs.
  { intros [r| |]; [|done..]. by intros [= ->]. }
  assert (forall r : Cluster * list Output, Ok (Some r) = Ok (Some (c', o)) -> c' = r.1 /\ o = r.2) as Hp by (by intros r [= ->]).
  assert (no_grant [] /\ stays c c) as [Hn Hr] by (split; [apply no_grant_nil|apply stays_refl]).
  destruct inp as [e| |]; cbn [react]; [|intros E%Hs; by eapply ping_peers_moves|].
  2: { destruct (time_to_next_election env c) as [[]|]; [|done..]. intros E%Hs. apply request_votes_moves in E; [|done].
       by apply (timer_moves_after c c). }
  destruct e as [from [id port|id|l|l|l]|id [l|tm last|tm last|tm r|pl| |]|id [l|tm b|tm| | | |]|pl|tm|last|index|id index|]; cbn [handle_message];
    first [intros [-> ->]%Hp | intros E%Hs | idtac]; cbn [fst snd]; try done.
  - apply m_stay; [done|]. by apply no_grant_one.
  - unfold handle_join_reply. cbn [fst snd]. apply m_stay; [done|]. destruct (peers c !! _); [|done]. destruct (is_seed _); [|done]. by apply no_grant_one.
  - apply handle_ping_stays in E as [? ?]. by apply m_stay.
  - apply handle_ping_stays in E as [? ?]. by apply m_stay.
  - by eapply handle_leave_moves.
  - unfold handle_update_peers in E. destruct (sync_peer_info env c l) as [[c1 o1]| |] eqn:Ei; [|done..]. cbn [mbind res_bind] in E.
    injection E as <- <-. apply sync_peer_info_stays in Ei as [? ?]. apply m_stay; [done|]. apply no_grant_app; [done|]. by apply no_grant_one.
  - by apply (handle_vote_request_moves env).
  - by eapply handle_become_follower_moves.
  - apply handle_append_entries_moves.
  - apply m_stay; [done|]. unfold handle_command. destruct (is_leading c); by apply no_grant_one.
  - apply m_stay; [done|]. by apply no_grant_one.
  - apply m_stay; [done|]. by apply no_grant_one.
  - apply sync_peer_info_stays in E as [? ?]. by apply m_stay.
  - apply handle_vote_response_moves.
  - by apply m_stay.
  - by apply m_stay.
  - by apply m_stay.
  - destruct (get_peer c id); [|done]. cbn. intros [= <- <-]. apply m_stay; [done|]. by apply no_grant_one.
  - by apply m_stay.
  - apply m_stay; [done|]. unfold send_command. destruct (leader_peer c); by apply no_grant_one.
  - destruct (Z.ltb_spec (term c) tm); [by apply step_down_moves|]. unfold start_election_timer, set_follower.
    eapply m_wait; [cbn; lia|done|by apply no_grant_one].
  - by apply m_stay; [split|].
  - unfold advance_uncommitted, send_append_entries. destruct (_ || _); [|by apply m_stay]. cbn [fst snd].
    apply m_stay; [by split|]. destruct (is_leading _); [by apply no_grant_one|done].
  - destruct (advance_commit_stays c id index). by apply m_stay.
Qed.

(** ** The network *)

Record net := mkNet { nodes : gmap PeerId Cluster; sent : list (PeerId * PeerId * RpcResponse) }.

Definition delivered (s : net) (i : PeerId) (inp : input) : Prop :=
  match inp with IEvent (ERpcResponse from r) => (from, i, r) ∈ sent s | _ => True end.
Definition replies (i : PeerId) (inp : input) (o : list Output) : list (PeerId * PeerId * RpcResponse) :=
  match inp with
  | IEvent (ERpcRequest from _) => omap (fun x => match x with Reply r => Some (i, from, r) | _ => None end) o
  | _ => []
  end.

(** A node reacts, where [P] limits how it may change. *)
Inductive step (P : Cluster -> Cluster -> Prop) : net -> net -> Prop :=
| step_node env i inp s c c' o :
    nodes s !! i = Some c -> delivered s i inp -> react env c inp = Ok (Some (c', o)) -> P c c' ->
    step P s (mkNet (<[i := c']> (nodes s)) (sent s ++ replies i inp o)).

(** What an election relies on and the handlers do not ensure by themselves:
    the members of the shard are fixed and terms do not overflow; a node goes
    back to waiting in its term only from waiting, not after it voted or
    campaigned; and no leader or candidate is moved to another term in place. *)
Record steady (c c' : Cluster) : Prop := {
  sd_members : shard_ids c' = shard_ids c /\ c_shard_id c' = c_shard_id c;
  sd_term : 0 <= term c < U64_MAX;
  sd_wait due : state c' = Wait due -> term c' = term c -> exists due', state c = Wait due';
  sd_leader : state c = Leader -> state c' = Leader -> term c' = term c;
  sd_candidate due v : state c' = Candidate due -> term c < term c' -> ~ flagged c' v }.
Definition uniform (s : net) : Prop :=
  forall i c, nodes s !! i = Some c -> c_peer_id c = i /\ NoDup (shard_ids c) /\ forall v, v ∈ shard_ids c <-> v ∈ dom (nodes s).
Definition initial (s : net) : Prop :=
  uniform s /\ sent s = [] /\ forall i c, nodes s !! i = Some c -> exists due, state c = Wait due.

Record safe (s : net) : Prop := {
  sf_uniform : uniform s;
  sf_term v k t : (v, k, RVote t true) ∈ sent s -> exists n, nodes s !! v = Some n /\ t <= term n;
  sf_once v k k' t : (v, k, RVote t true) ∈ sent s -> (v, k', RVote t true) ∈ sent s -> k = k';
  sf_state v n k : nodes s !! v = Some n -> (v, k, RVote (term n) true) ∈ sent s ->
    match state n with VotedFor p _ => k = p | Follower _ => True | _ => False end;
  sf_flags v n due p : nodes s !! v = Some n -> state n = Candidate due -> flagged n p -> (p, v, RVote (term n) true) ∈ sent s;
  sf_leader v n : nodes s !! v = Some n -> state n = Leader -> exists Q, NoDup Q /\ ~ (v ∈ Q) /\
    (forall p, p ∈ Q -> p ∈ dom (nodes s) /\ (p, v, RVote (term n) true) ∈ sent s) /\
    half (Z.of_nat (size (nodes s)) - 1) < 1 + Z.of_nat (length Q) }.

Lemma initial_safe s : initial s -> safe s.
Proof.
  intros (Hu & Hs & Hw). split; [done|..]; rewrite ?Hs; try (by intros * ?%not_elem_of_nil).
  - by intros v n k _ ?%not_elem_of_nil.
  - intros v n due p Hn E. destruct (Hw v n Hn). congruence.
  - intros v n Hn E. destruct (Hw v n Hn). congruence.
Qed.

Lemma replies_grant i inp o v k t :
  (v, k, RVote t true) ∈ replies i inp o ->
  v = i /\ Reply (RVote t true) ∈ o /\ exists r, inp = IEvent (ERpcRequest k r).
Proof.
  destruct inp as [[]| |]; cbn [replies]; try (by intros ?%not_elem_of_nil). intros (x & Hx & E)%list_elem_of_omap.
  destruct x; try done. injection E as <- <- ->. split_and!; [done..|]. by eexists.
Qed.

Section Step.
Variables (s : net) (i : PeerId) (inp : input) (c c' : Cluster) (o : list Output).
Hypotheses (Hsafe : safe s) (Hi : nodes s !! i = Some c) (Hd : delivered s i inp) (Hm : moves c c' inp o) (Hst : steady c c').
Abbreviation s' := (mkNet (<[i := c']> (nodes s)) (sent s ++ replies i inp o)).

Lemma term_grows : term c <= term c'.
Proof. destruct Hm as [[]| | | | | | |]; lia. Qed.

(** A vote the step adds is the one of [m_vote]. *)
Lemma new_grant v k t :
  (v, k, RVote t true) ∈ sent s' ->
  (v, k, RVote t true) ∈ sent s \/
  (v = i /\ t = term c' /\ (exists due, state c' = VotedFor k due) /\
   (term c < term c' \/ (exists due', state c = Wait due') \/ (exists due', state c = VotedFor k due'))).
Proof.
  intros [?|(-> & Hr & r & ->)%replies_grant]%elem_of_app; [by left|]. right.
  destruct Hm as [? Hn|? ? ? Hn|? ? ? Hn|? ? ? ? Hn|id due tm last E ? Hs Hb Ht|? ? ? Hn|? ? E|? ? E]; try (by apply Hn in Hr); try done.
  injection E as <- _. split_and!; [done|by apply Ht|by eexists|done].
Qed.

(** Votes of this node in its old term say what its state says. *)
Lemma old_grant k t : (i, k, RVote t true) ∈ sent s -> t <= term c.
Proof. intros Hk. destruct (sf_term _ Hsafe _ _ _ Hk) as (n & Hn & ?). by rewrite Hi in Hn; injection Hn as ->. Qed.

Lemma grant_before k :
  (i, k, RVote (term c') true) ∈ sent s -> term c' = term c /\ (i, k, RVote (term c) true) ∈ sent s.
Proof. intros Hk. pose proof (old_grant _ _ Hk). pose proof term_grows. assert (term c' = term c) as E by lia. by rewrite E in Hk. Qed.

Lemma step_once v k k' t : (v, k, RVote t true) ∈ sent s' -> (v, k', RVote t true) ∈ sent s' -> k = k'.
Proof.
  assert (forall k k', (v, k, RVote t true) ∈ sent s -> v = i -> t = term c' -> (exists due, state c' = VotedFor k' due) ->
    (term c < term c' \/ (exists due', state c = Wait due') \/ (exists due', state c = VotedFor k' due')) -> k = k') as Hold.
  { intros k1 k2 H1 -> -> _ Hb. destruct (grant_before _ H1) as [E H1']. pose proof (sf_state _ Hsafe _ _ _ Hi H1') as Hs.
    destruct Hb as [?|[[due E']|[due E']]]; [lia|by rewrite E' in Hs|by rewrite E' in Hs]. }
  intros [H1|(V1 & T1 & S1 & B1)]%new_grant [H2|(V2 & T2 & S2 & B2)]%new_grant.
  - by apply (sf_once _ Hsafe v k k' t).
  - by apply Hold.
  - symmetry. by apply Hold.
  - destruct S1 as [d1 E1], S2 as [d2 E2]. rewrite E1 in E2. by injection E2.
Qed.

Lemma step_state k : (i, k, RVote (term c') true) ∈ sent s' ->
  match state c' with VotedFor p _ => k = p | Follower _ => True | _ => False end.
Proof.
  intros [Hk|(_ & _ & [due E] & _)]%new_grant; [|by rewrite E]. destruct (grant_before _ Hk) as [Et Hk'].
  pose proof (sf_state _ Hsafe _ _ _ Hi Hk') as Hs.
  destruct Hm as [[_ E _]|Ht|due _ E|due Ht|id due tm last _ _ E Hb _|id _ E|id due _ E|id due _ E]; try lia.
  - by rewrite E.
  - destruct (sd_wait _ _ Hst due E Et) as [due' E']. by rewrite E' in Hs.
  - rewrite E. destruct Hb as [?|[[due' E']|[due' E']]]; [lia|by rewrite E' in Hs|by rewrite E' in Hs].
  - by rewrite E.
  - by rewrite E in Hs.
  - by rewrite E in Hs.
Qed.

Lemma step_flags due p : state c' = Candidate due -> flagged c' p -> (p, i, RVote (term c') true) ∈ sent s'.
Proof.
  intros Ec Hp. apply elem_of_app. left. pose proof (sd_candidate _ _ Hst due p Ec) as Hj.
  destruct Hm as [[Et E Hf]|Ht|? _ E|? _ _ Hn|? ? ? ? _ _ E|? _ E|id due' Ein E Et E' Hf|? ? _ _ _ E]; try congruence; try tauto.
  - rewrite Et. eapply (sf_flags _ Hsafe i c due); [done|congruence|auto].
  - by apply Hn in Hp.
  - rewrite Et. destruct (Hf p Hp) as [?| ->]; [by eapply (sf_flags _ Hsafe i c)|]. rewrite Ein in Hd. exact Hd.
Qed.

Lemma members_size : Z.of_nat (size (nodes s)) = 1 + Z.of_nat (length (filter (fun p => is_in_shard p (c_shard_id c) = true) (peers c))).
Proof.
  destruct (sf_uniform _ Hsafe i c Hi) as (_ & Hnd & Hdom). rewrite <- size_dom.
  assert (dom (nodes s) = list_to_set (C := gset Z) (shard_ids c)) as ->.
  { apply set_eq. intros v. rewrite elem_of_list_to_set. symmetry. apply Hdom. }
  rewrite size_list_to_set, shard_ids_eq, length_app, length_map by done. cbn. lia.
Qed.

Lemma dom_same : dom (<[i := c']> (nodes s)) = dom (nodes s).
Proof. rewrite dom_insert_L. apply elem_of_dom_2 in Hi. set_solver. Qed.

(** The voters of a candidate that wins. *)
Definition voters (id : PeerId) : list PeerId :=
  map peer_id (filter (fun p => is_in_shard p (c_shard_id c) = true /\ (peer_id p = id \/ vote_granted p = true)) (peers c)).

Lemma voters_sublist id : voters id `sublist_of` map peer_id (filter (fun p => is_in_shard p (c_shard_id c) = true) (peers c)).
Proof.
  unfold voters. induction (peers c) as [|p l IH]; [constructor|]. rewrite !filter_cons.
  destruct (decide (is_in_shard p (c_shard_id c) = true)) as [Hp|Hp].
  - case_decide; cbn [map]; by constructor.
  - rewrite decide_False by naive_solver. done.
Qed.

Lemma step_leader : state c' = Leader -> exists Q, NoDup Q /\ ~ (i ∈ Q) /\
  (forall p, p ∈ Q -> p ∈ dom (nodes s') /\ (p, i, RVote (term c') true) ∈ sent s') /\
  half (Z.of_nat (size (nodes s')) - 1) < 1 + Z.of_nat (length Q).
Proof.
  intros El. cbn [nodes sent]. rewrite <- size_dom, dom_same, size_dom.
  destruct Hm as [[Et E _]|Ht E|? _ E|? _ E|? ? ? ? _ _ E|? _ E|? ? _ _ _ E|id due Ein E Et _ Hq _]; try congruence.
  - rewrite Et. destruct (sf_leader _ Hsafe i c Hi ltac:(congruence)) as (Q & H1 & H2 & H3 & H4). exists Q. split_and!; [done..| |done].
    intros p Hp. destruct (H3 p Hp). split; [done|]. apply elem_of_app. by left.
  - pose proof (sd_leader _ _ Hst ltac:(congruence) El). lia.
  - destruct (sf_uniform _ Hsafe i c Hi) as (Hid & Hnd & Hdom). rewrite shard_ids_eq, Hid in Hnd. apply NoDup_app in Hnd as (Hnd & Hni & _).
    pose proof (voters_sublist id) as Hsub. exists (voters id). split_and!.
    + by eapply sublist_NoDup.
    + intros Hv. apply (Hni i); [by eapply elem_of_sublist|by apply list_elem_of_singleton].
    + intros v Hv. split.
      * apply Hdom. rewrite shard_ids_eq. apply elem_of_app. left. by eapply elem_of_sublist.
      * rewrite Et. apply elem_of_app. left. apply list_elem_of_fmap in Hv as (p & -> & ((_ & [->|Hg]) & Hp)%list_elem_of_filter).
        -- rewrite Ein in Hd. exact Hd.
        -- eapply (sf_flags _ Hsafe i c due); [done..|]. by exists p.
    + rewrite members_size. unfold voters. rewrite length_map. by rewrite Z.add_simpl_l.
Qed.

Lemma step_safe : safe s'.
Proof.
  assert (forall v n, <[i := c']> (nodes s) !! v = Some n -> (v = i /\ n = c') \/ (v <> i /\ nodes s !! v = Some n)) as Hcase.
  { intros v n Hn. destruct (decide (v = i)) as [->|Hv]; [rewrite lookup_insert_eq in Hn|rewrite lookup_insert_ne in Hn by done]; naive_solver. }
  assert (forall v k t, v <> i -> (v, k, RVote t true) ∈ sent s' -> (v, k, RVote t true) ∈ sent s) as Hother.
  { intros v k t Hv [?|(-> & _)]%new_grant; done. }
  assert (forall x, x ∈ sent s -> x ∈ sent s') as Hmono by (intros x Hx; apply elem_of_app; by left).
  split.
  - intros v n Hn. cbn [nodes] in *. rewrite dom_same.
    destruct (Hcase _ _ Hn) as [[-> ->]|[? Hn']]; [|by apply (sf_uniform _ Hsafe)].
    destruct (sf_uniform _ Hsafe i c Hi) as (Hid & Hnd & Hdom). destruct (sd_members _ _ Hst) as [Em _]. rewrite Em. split_and!; [|done..].
    rewrite !shard_ids_eq in Em. apply app_inj_tail in Em as [_ Em]. congruence.
  - intros v k t [Hk|(-> & -> & _)]%new_grant; cbn [nodes].
    + destruct (sf_term _ Hsafe _ _ _ Hk) as (n & Hn & Ht). destruct (decide (v = i)) as [->|Hv].
      * rewrite Hi in Hn. injection Hn as <-. exists c'. rewrite lookup_insert_eq. split; [done|]. pose proof term_grows. lia.
      * exists n. by rewrite lookup_insert_ne.
    + exists c'. by rewrite lookup_insert_eq.
  - apply step_once.
  - intros v n k Hn Hk. destruct (Hcase _ _ Hn) as [[-> ->]|[? Hn']]; [by apply step_state|].
    apply (sf_state _ Hsafe v n k Hn'). by apply Hother.
  - intros v n due p Hn E Hp. destruct (Hcase _ _ Hn) as [[-> ->]|[? Hn']]; [by eapply step_flags|].
    apply Hmono. by eapply (sf_flags _ Hsafe).
  - intros v n Hn E. destruct (Hcase _ _ Hn) as [[-> ->]|[? Hn']]; [by apply step_leader|].
    destruct (sf_leader _ Hsafe v n Hn' E) as (Q & H1 & H2 & H3 & H4). exists Q. cbn [nodes].
    rewrite dom_same, <- size_dom, dom_same, size_dom. split_and!; [done..| |done]. intros p Hp. destruct (H3 p Hp). split; [done|by apply Hmono].
Qed.
End Step.

Lemma steady_step_safe s s' : safe s -> step steady s s' -> safe s'.
Proof.
  intros Hs Hstep. destruct Hstep as [env i inp s c c' o Hi Hd Hr Hst].
  apply (step_safe s i inp c c' o); [done..| |done]. eapply react_moves; [|done]. apply Hst.
Qed.

(** Two leaders of a term share a voter, so they are the same. *)
Lemma safe_unique s i j c d :
  safe s -> nodes s !! i = Some c -> nodes s !! j = Some d -> state c = Leader -> state d = Leader -> term c = term d -> i = j.
Proof.
  intros Hs Hi Hj Ec Ed Et. destruct (decide (i = j)) as [|Hne]; [done|exfalso].
  destruct (sf_leader _ Hs i c Hi Ec) as (Q & N1 & N2 & N3 & N4), (sf_leader _ Hs j d Hj Ed) as (R & M1 & M2 & M3 & M4).
  destruct (quorums_meet (elements (dom (nodes s))) (i :: Q) (j :: R)) as (v & Hv & Hw).
  - by constructor.
  - by constructor.
  - intros x [->|Hx]%elem_of_cons; apply elem_of_elements; [by eapply elem_of_dom_2|by apply N3].
  - intros x [->|Hx]%elem_of_cons; apply elem_of_elements; [by eapply elem_of_dom_2|by apply M3].
  - cbn [length]. change (length (elements (dom (nodes s)))) with (size (dom (nodes s))). rewrite size_dom. unfold half in *.
    Z.to_euclidean_division_equations. lia.
  - apply elem_of_cons in Hv, Hw. destruct Hv as [->|Hv], Hw as [E|Hw]; [done|..].
    + destruct (M3 i Hw) as [_ Hk]. rewrite <- Et in Hk. pose proof (sf_state _ Hs i c j Hi Hk) as H. by rewrite Ec in H.
    + subst v. destruct (N3 j Hv) as [_ Hk]. rewrite Et in Hk. pose proof (sf_state _ Hs j d i Hj Hk) as H. by rewrite Ed in H.
    + destruct (N3 v Hv) as [_ Hk], (M3 v Hw) as [_ Hk']. rewrite <- Et in Hk'. by apply Hne, (sf_once _ Hs v i j (term c)).
Qed.

(** ** Executions *)

#[export] Instance gossip_status_eq_dec : EqDecision PeerStatus.
Proof. solve_decision. Defined.
#[export] Instance peer_info_eq_dec : EqDecision PeerInfo.
Proof. solve_decision. Defined.
#[export] Instance response_eq_dec : EqDecision RpcResponse.
Proof. solve_decision. Defined.

Definition deliveredb (s : net) (i : PeerId) (inp : input) : bool :=
  match inp with IEvent (ERpcResponse from r) => bool_decide ((from, i, r) ∈ sent s) | _ => true end.
(** The nodes react to a list of inputs, if each of them can and [check] allows it. *)
Fixpoint run (check : Cluster -> Cluster -> bool) (s : net) (l : list (Env * PeerId * input)) : option net :=
  match l with
  | [] => Some s
  | (env, i, inp) :: l =>
      c ← nodes s !! i;
      if deliveredb s i inp then
        match react env c inp with
        | Ok (Some (c', o)) =>
            if check c c' then run check (mkNet (<[i := c']> (nodes s)) (sent s ++ replies i inp o)) l else None
        | _ => None
        end
      else None
  end.

Lemma run_steps check (P : Cluster -> Cluster -> Prop) s l s' :
  (forall c c', check c c' = true -> P c c') -> run check s l = Some s' -> rtc (step P) s s'.
Proof.
  intros Hc. revert s. induction l as [|[[env i] inp] l IH]; intros s; cbn [run]; [intros [= <-]; constructor|].
  destruct (nodes s !! i) as [c|] eqn:Ei; [|done]. cbn [mbind option_bind]. destruct (deliveredb s i inp) eqn:Ed; [|done].
  destruct (react env c inp) as [[[c' o]|]| |] eqn:Er; [|done..]. destruct (check c c') eqn:Ec; [|done]. intros Hr.
  eapply rtc_l; [|by apply IH]. econstructor; [done| |done|by apply Hc].
  destruct inp as [[]| |]; try done. by apply bool_decide_eq_true in Ed.
Qed.

Definition steadyb (c c' : Cluster) : bool :=
  bool_decide (shard_ids c' = shard_ids c) && (c_shard_id c' =? c_shard_id c) && (0 <=? term c) && (term c <? U64_MAX) && (term c <=? term c') &&
  match state c' with
  | Wait _ => (term c <? term c') || match state c with Wait _ => true | _ => false end
  | Leader => match state c with Leader => term c' =? term c | _ => true end
  | Candidate _ => forallb (fun p => negb (vote_granted p)) (peers c') || negb (term c <? term c')
  | _ => true
  end.

Lemma steadyb_steady c c' : steadyb c c' = true -> steady c c'.
Proof.
  intros Hb. unfold steadyb in Hb. repeat (apply andb_true_iff in Hb as [Hb ?]).
  apply bool_decide_eq_true in Hb. split; [split; [done|lia]|lia| | |].
  - intros due E Et. rewrite E in *. rewrite (proj2 (Z.ltb_ge _ _)) in * by lia. cbn [orb] in *. destruct (state c); try done. by eexists.
  - intros E E'. rewrite E, E' in *. lia.
  - intros due v E Ht (p & Hp & _ & Hv). rewrite E in *. rewrite (proj2 (Z.ltb_lt _ _)) in * by lia. rewrite orb_false_r in *.
    rewrite forallb_forall in *. match goal with H : forall x, In x _ -> _ |- _ => specialize (H p) end.
    rewrite Hv in *. by rewrite <- list_elem_of_In in *; naive_solver.
Qed.

(** ** Properties *)

(** C7. Election safety. From nodes that wait and know each other, through
    any steps of any nodes - events, gossip, timers, lost, repeated or
    reordered messages - in which no node goes back to waiting in a term in
    which it voted or campaigned, and no leader or candidate is moved to
    another term in place, at most one node leads a term. *)
Theorem election_safety s0 s i j c d :
  initial s0 -> rtc (step steady) s0 s ->
  nodes s !! i = Some c -> nodes s !! j = Some d -> state c = Leader -> state d = Leader -> term c = term d -> i = j.
Proof.
  intros Hinit Hsteps. apply safe_unique. apply initial_safe in Hinit.
  induction Hsteps as [|s0 s1 s Hstep _ IH]; [done|]. apply IH. by eapply steady_step_safe.
Qed.

(** *** A shard of three nodes *)
Import ClusterSample.
Definition shard3 : net := mkNet {[ 1 := node 1 [2; 3]; 2 := node 2 [1; 3]; 3 := node 3 [1; 2] ]} [].
Definition at_time (t : Z) (rollback : bool) : Env := mkEnv t 50 (Ok rollback) (fun x => x) (fun x => x).
Definition vote_request (id tm : Z) : input := IEvent (ERpcRequest id (Vote tm raft_id_none)).
Definition vote_response (id tm : Z) : input := IEvent (ERpcResponse id (RVote tm true)).

Lemma shard3_initial : initial shard3.
Proof.
  split; [|split; [done|]].
  - intros i c Hi. assert (i = 1 /\ c = node 1 [2; 3] \/ i = 2 /\ c = node 2 [1; 3] \/ i = 3 /\ c = node 3 [1; 2]) as Hc.
    { revert Hi. unfold shard3. cbn [nodes]. rewrite !lookup_insert_Some, lookup_singleton_Some. naive_solver. }
    assert (dom (nodes shard3) = {[1; 2; 3]}) as -> by (vm_compute; reflexivity).
    destruct Hc as [[-> ->]|[[-> ->]|[-> ->]]]; (split; [done|]); (split; [apply (bool_decide_unpack _); vm_compute; exact I|]);
      rewrite shard_ids_eq; vm_compute map; set_solver.
  - intros i c Hi. revert Hi. unfold shard3. cbn [nodes]. rewrite !lookup_insert_Some, lookup_singleton_Some.
    intros [[_ <-]|[_ [[_ <-]|[_ [_ <-]]]]]; by eexists.
Qed.

(** Node 1 is elected by node 2. *)
Definition election : list (Env * PeerId * input) :=
  [(at_time 2000 false, 1, IElection); (at_time 2001 false, 2, vote_request 1 1); (at_time 2002 false, 1, vote_response 2 1)].
Definition after (l : list (Env * PeerId * input)) : net := default shard3 (run (fun _ _ => true) shard3 l).
Definition leads (s : net) (i tm : Z) : bool :=
  match nodes s !! i with Some c => is_leading c && (term c =? tm) | None => false end.
Definition runs (check : Cluster -> Cluster -> bool) (l : list (Env * PeerId * input)) : bool :=
  match run check shard3 l with Some _ => true | None => false end.

Lemma run_unchecked check s l s' : run check s l = Some s' -> run (fun _ _ => true) s l = Some s'.
Proof.
  revert s. induction l as [|[[env i] inp] l IH]; intros s; cbn [run]; [done|].
  destruct (nodes s !! i) as [c|]; [|done]. cbn [mbind option_bind]. destruct (deliveredb s i inp); [|done].
  destruct (react env c inp) as [[[c' o]|]| |]; [|done..]. destruct (check c c'); [|done]. apply IH.
Qed.

Lemma after_steps check (P : Cluster -> Cluster -> Prop) l :
  (forall c c', check c c' = true -> P c c') -> runs check l = true -> rtc (step P) shard3 (after l).
Proof.
  intros Hc. unfold runs. destruct (run check shard3 l) as [s|] eqn:E; [|done]. intros _.
  unfold after. rewrite (run_unchecked _ _ _ _ E). by apply (run_steps check P _ l).
Qed.

Lemma leads_leader s i tm : leads s i tm = true -> exists c, nodes s !! i = Some c /\ state c = Leader /\ term c = tm.
Proof.
  unfold leads. destruct (nodes s !! i) as [c|]; [|done]. intros [Hl Ht%Z.eqb_eq]%andb_true_iff. exists c. split_and!; [done| |done].
  unfold is_leading in Hl. by destruct (state c).
Qed.

Lemma election_safety_witness :
  leads (after election) 1 1 = true /\
  forall j d, nodes (after election) !! j = Some d -> state d = Leader -> term d = 1 -> j = 1.
Proof.
  assert (leads (after election) 1 1 = true) as Hlead by (vm_compute; reflexivity).
  split; [exact Hlead|]. intros j d Hd El Et. destruct (leads_leader _ _ _ Hlead) as (c & Hc & Hl & Ht).
  symmetry. apply (election_safety shard3 (after election) 1 j c d shard3_initial); try done; [|by rewrite Ht, Et].
  apply (after_steps steadyb steady); [apply steadyb_steady|]. vm_compute. reflexivity.
Defined.

(** Node 2 votes twice in term 1. *)
Definition double_vote : list (Env * PeerId * input) :=
  [(at_time 2000 false, 1, IElection); (at_time 2000 false, 3, IElection); (at_time 2001 false, 2, vote_request 1 1);
   (at_time 9000 true, 2, IElection); (at_time 9001 true, 2, vote_request 3 1);
   (at_time 9002 false, 1, vote_response 2 1); (at_time 9002 false, 3, vote_response 2 1)].
(** Node 1 is moved from term 1 to term 2. *)
Definition moved_leader : list (Env * PeerId * input) :=
  election ++ [(at_time 2003 false, 1, IEvent (EAdvanceUncommittedIndex 0)); (at_time 2004 false, 1, IEvent (EAdvanceCommitIndex 2 0));
   (at_time 2005 false, 3, IElection); (at_time 5000 false, 3, IElection); (at_time 5001 false, 2, vote_request 3 2);
   (at_time 5002 false, 3, vote_response 2 2); (at_time 5003 false, 1, IEvent (ERpcRequest 3 (BecomeFollower 2 raft_id_none)))].

(** Elections are not safe without these conditions, and the handlers do
    not ensure them. In the first execution node 2 votes for node 1, its timer
    fires while it has a rollback pending, so it waits again in the same term
    and votes for node 3: nodes 1 and 3 both lead term 1. In the second, node
    1 leads term 1 and has committed an entry that the others have not yet;
    node 3 wins term 2 with the vote of node 2 and asks node 1 to follow it;
    node 1 refuses but takes over the term, and both lead term 2. *)
Theorem two_leaders :
  (exists s, rtc (step (fun _ _ => True)) shard3 s /\ leads s 1 1 = true /\ leads s 3 1 = true) /\
  (exists s, rtc (step (fun _ _ => True)) shard3 s /\ leads s 1 2 = true /\ leads s 3 2 = true).
Proof.
  split; [exists (after double_vote)|exists (after moved_leader)];
    (split; [apply (after_steps (fun _ _ => true)); [done|vm_compute; reflexivity]|split; vm_compute; reflexivity]).
Qed.
