(* ===== verification/Address.v ===== *)
(** * Addresses: components/jmap/src/lib.rs

    The sanitizers of e-mail addresses and domain names, on the characters of a
    text, and the shape of what they return. *)

From S2P Require Import Prelude Text Lang Types TermIndex Nlp.
#[local] Open Scope Z_scope.

(** [@], [.], [-] and [_]. *)
Definition AT : Z := 64.
Definition DOT : Z := 46.

Section Sanitize.
Context `{Unicode}.

(** What may stand before a dot. *)
Definition before_dot (ch : Z) : bool := is_alphanumeric ch || (ch =? 45) || (ch =? 95).

(** [char::to_lowercase] is the lowercase of a text of one character. *)
Fixpoint sanitize_loop (l result : list Z) (found_local found_domain : bool) (last_ch : Z) : option (list Z) :=
  match l with
  | [] => if found_domain && negb (last_ch =? DOT) then Some result else None
  | ch :: l =>
      if is_whitespace ch then sanitize_loop l result found_local found_domain last_ch
      else if ch =? AT then
        if negb (bool_decide (result = [])) && negb found_local then sanitize_loop l (result ++ to_lowercase [ch]) true found_domain ch
        else None
      else if ch =? DOT then
        if negb (before_dot last_ch) then None
        else sanitize_loop l (result ++ to_lowercase [ch]) found_local (found_local || found_domain) ch
      else sanitize_loop l (result ++ to_lowercase [ch]) found_local found_domain ch
  end.
Definition sanitize_email (email : list Z) : option (list Z) := sanitize_loop email [] false false 0.

Fixpoint sanitize_domain_loop (l result : list Z) (found_domain : bool) (last_ch : Z) : option (list Z) :=
  match l with
  | [] => if found_domain && negb (last_ch =? DOT) then Some result else None
  | ch :: l =>
      if is_whitespace ch then sanitize_domain_loop l result found_domain last_ch
      else if ch =? DOT then
        if negb (before_dot last_ch) then None else sanitize_domain_loop l (result ++ to_lowercase [ch]) true ch
      else sanitize_domain_loop l (result ++ to_lowercase [ch]) found_domain ch
  end.
Definition sanitize_domain (domain : list Z) : option (list Z) := sanitize_domain_loop domain [] false 0.
End Sanitize.

(** Lower case keeps the characters that structure an address. *)
Class AddressLaws `{Unicode} : Prop := {
  lower_at : to_lowercase [AT] = [AT];
  lower_dot : to_lowercase [DOT] = [DOT];
  lower_nonempty c : to_lowercase [c] <> [];
  lower_no_at c : c <> AT -> AT ∉ to_lowercase [c];
  lower_no_space c d : is_whitespace c = false -> d ∈ to_lowercase [c] -> is_whitespace d = false }.

Section Shape.
Context `{AddressLaws}.

(** An address has a local part and, behind the only [@], a domain with a dot. *)
Definition address_shape (r : list Z) : Prop :=
  exists local domain, r = local ++ AT :: domain /\ AT ∉ local /\ AT ∉ domain /\ local <> [] /\ DOT ∈ domain /\
    forall c, c ∈ r -> is_whitespace c = false.

(** The address read so far. *)
Definition partly_read (result : list Z) (found_local found_domain : bool) : Prop :=
  (forall c, c ∈ result -> is_whitespace c = false) /\
  if found_local then exists local domain, result = local ++ AT :: domain /\ AT ∉ local /\ AT ∉ domain /\ local <> [] /\ (found_domain = true -> DOT ∈ domain)
  else AT ∉ result /\ found_domain = false.

Lemma partly_push result found_local found_domain c :
  is_whitespace c = false -> c <> AT -> partly_read result found_local found_domain ->
  partly_read (result ++ to_lowercase [c]) found_local (if c =? DOT then found_local || found_domain else found_domain).
Proof.
  intros Hw Hc [Hs Hp]. split.
  { intros d [?|?]%elem_of_app; [by apply Hs|by eapply lower_no_space]. }
  pose proof (lower_no_at c Hc) as Hat. destruct found_local; cbn [orb].
  - destruct Hp as (local & domain & -> & H1 & H2 & H3 & H4). exists local, (domain ++ to_lowercase [c]). rewrite <- app_assoc. cbn [app].
    split_and!; [done..|rewrite not_elem_of_app; done|done|]. destruct (Z.eqb_spec c DOT) as [->|].
    + intros _. rewrite lower_dot. apply elem_of_app. right. apply list_elem_of_here.
    + intros Hd. apply elem_of_app. left. by apply H4.
  - destruct Hp as [H1 ->]. split; [rewrite not_elem_of_app; done|by destruct (c =? DOT)].
Qed.

Lemma sanitize_loop_shape l result found_local found_domain last_ch r :
  partly_read result found_local found_domain -> sanitize_loop l result found_local found_domain last_ch = Some r -> address_shape r.
Proof.
  revert result found_local found_domain last_ch. induction l as [|ch l IH]; intros result fl fd last_ch Hp; cbn [sanitize_loop].
  { destruct fd; [|done]. cbn [andb]. destruct (negb _); [|done]. intros [= <-]. destruct Hp as [Hs Hp]. destruct fl; [|by destruct Hp].
    destruct Hp as (local & domain & -> & H1 & H2 & H3 & H4). exists local, domain. by split_and!; [..|apply H4|]. }
  destruct (is_whitespace ch) eqn:Ew; [by apply IH|]. destruct (Z.eqb_spec ch AT) as [->|Hat].
  - case_bool_decide as Hr; cbn [negb andb]; [done|]. destruct fl; cbn [negb]; [done|]. apply IH. destruct Hp as [Hs [Hp ->]]. rewrite lower_at. split.
    + intros d [?| ->%list_elem_of_singleton]%elem_of_app; [by apply Hs|done].
    + exists result, []. split_and!; [done..|apply not_elem_of_nil|done|done].
  - pose proof (partly_push result fl fd ch Ew Hat Hp) as Hpush. destruct (ch =? DOT); [destruct (negb _); [done|]|]; by apply IH.
Qed.

Lemma sanitize_email_shape email r : sanitize_email email = Some r -> address_shape r.
Proof. apply sanitize_loop_shape. split; [by intros c ?%elem_of_nil|]. split; [apply not_elem_of_nil|done]. Qed.

(** The domain of an address. *)
Lemma address_domain r : address_shape r -> exists domain, split_once AT r = Some (take (length r - S (length domain)) r, domain) /\ DOT ∈ domain.
Proof.
  intros (local & domain & -> & H1 & H2 & H3 & H4 & _). exists domain. split; [|done]. rewrite split_once_first by done.
  rewrite length_app. cbn [length]. replace (length local + S (length domain) - S (length domain))%nat with (length local) by lia. by rewrite take_app_length.
Qed.
End Shape.
