(* ===== verification/Lmtp.v ===== *)
(** * Mail reception: src/lmtp/request.rs, lmtp/session.rs, lmtp/response.rs,
      lmtp/ingest.rs

    The LMTP server reads commands and messages from a connection. The parser
    is a state machine over the bytes received; the session runs the parsed
    requests, collects the recipients of a message and hands it over for
    delivery. Texts are their bytes. The directory of recipients, the delivery
    of a message, the clock and TLS are the class [Backend]. *)

From Stdlib Require Import String Ascii.
From S2P Require Import Prelude Text Lang Types TermIndex Nlp Address.
#[local] Open Scope Z_scope.

(** ** Requests *)

Inductive Param : Set := BodyBinaryMime | Body8BitMime | Size (size : Z).
Inductive Request : Set :=
| Lhlo (domain : list Z)
| Mail (sender : list Z) (params : list Param)
| Rcpt (recipient : list Z) (params : list Param)
| Data (data : list Z)
| Bdat (data : list Z) (is_last : bool)
| Rset
| Vrfy (mailbox : list Z)
| Expn (list : list Z)
| Help (argument : option (list Z))
| Noop
| Quit
| StartTls.

(** An error response: code, enhanced code and text. *)
Record Message : Set := mkMessage { ms_code : Z; ms_esn : Z; ms_text : list Z }.
Inductive Event : Set := NeedsMoreBytes | EData | EMessage (response : Message).

Inductive StateData : Set := DNone | DCr | DCrLf | DCrLfDot | DCrLfDotCr.
Inductive ParserState : Set :=
| Start
| InRequest (in_addr : bool)
| InBdat (chunk_size : Z) (is_last : bool)
| InData (state : StateData).

Inductive LmtpToken : Set := Lt_ | Gt_ | Eq_ | Colon | TextToken (text : list Z).

Record RequestParser : Set := mkParser {
  buf : list Z; tokens : list LmtpToken; state : ParserState; command_size : Z; max_command_size : Z; max_message_size : Z }.

Definition parser_new (max_command max_message : Z) : RequestParser := mkParser [] [] Start 0 max_command max_message.

Definition parse_error (message : string) : Event := EMessage (mkMessage 500 552 (chars message)).

(** ** Bytes *)

Definition CR : Z := 13.
Definition LF : Z := 10.
Definition CRLF : list Z := [CR; LF].

(** ** The parser *)

Section Parser.
(** [str::to_uppercase]. *)
Variable to_uppercase : list Z -> list Z.

Definition set_buf (p : RequestParser) (b : list Z) : RequestParser :=
  mkParser b (tokens p) (state p) (command_size p) (max_command_size p) (max_message_size p).
Definition set_state (p : RequestParser) (st : ParserState) : RequestParser :=
  mkParser (buf p) (tokens p) st (command_size p) (max_command_size p) (max_message_size p).
Definition set_size (p : RequestParser) (n : Z) : RequestParser :=
  mkParser (buf p) (tokens p) (state p) n (max_command_size p) (max_message_size p).
Definition set_tokens (p : RequestParser) (l : list LmtpToken) : RequestParser :=
  mkParser (buf p) l (state p) (command_size p) (max_command_size p) (max_message_size p).

(** A handler answers with the parser and a result; [None] goes on reading. *)
Abbreviation outcome := (RequestParser * option (Request + Event))%type.

Definition error_reset (p : RequestParser) (message : list Z) : outcome :=
  (mkParser [] [] Start 0 (max_command_size p) (max_message_size p), Some (inr (EMessage (mkMessage 500 552 message)))).

(** [push_buf]: on invalid UTF-8 the bytes are gone. *)
Definition push_buf (p : RequestParser) : RequestParser * option Event :=
  match buf p with
  | [] => (p, None)
  | b =>
      if utf8_valid b then (mkParser [] (tokens p ++ [TextToken b]) (state p) (command_size p) (max_command_size p) (max_message_size p), None)
      else (set_buf p [], Some (parse_error "Invalid UTF-8"))
  end.
Definition push_token (p : RequestParser) (token : LmtpToken) : RequestParser * option Event :=
  let p := set_size p (command_size p + 1) in
  if max_command_size p <? command_size p then (p, Some (parse_error "Request too long"))
  else (set_tokens p (tokens p ++ [token]), None).
(** [push_buf()?; push_token(..)?] and the state after them. *)
Definition push_both (p : RequestParser) (token : LmtpToken) (in_addr : bool) : outcome :=
  let '(p, e) := push_buf p in
  match e with
  | Some e => (p, Some (inr e))
  | None =>
      let '(p, e) := push_token p token in
      match e with Some e => (p, Some (inr e)) | None => (set_state p (InRequest in_addr), None) end
  end.

Definition unwrap_text (t : LmtpToken) : option (list Z) := match t with TextToken text => Some text | _ => None end.
(** [tokens.next().and_then(|t| t.unwrap_text())]: the text and the other tokens. *)
Definition next_text (l : list LmtpToken) : option (list Z) := t ← head l; unwrap_text t.

(** [parse_params], after the closing bracket. *)
Fixpoint params_loop (fuel : nat) (max_message : Z) (l : list LmtpToken) (params : list Param) : list Param + Event :=
  match fuel, l with
  | _, [] | O, _ => inl params
  | S fuel, name :: l =>
      match unwrap_text name with
      | None => inr (parse_error "Parameter name must be a text value.")
      | Some name =>
          match l with
          | Eq_ :: l =>
              match l with
              | TextToken value :: l =>
                  if bool_decide (name = chars "body") then
                    if bool_decide (value = chars "binarymime") then params_loop fuel max_message l (params ++ [BodyBinaryMime])
                    else if bool_decide (value = chars "8bitmime") then params_loop fuel max_message l (params ++ [Body8BitMime])
                    else params_loop fuel max_message l params
                  else if bool_decide (name = chars "size") then
                    match parse_uint 32 value with
                    | None => inr (parse_error "Size parameter must be a number.")
                    | Some size =>
                        if u32 max_message <? size then
                          inr (EMessage (mkMessage 552 534
                            (chars "Message cannot exceed maximum of " ++ decimal max_message ++ chars " bytes.")))
                        else params_loop fuel max_message l (params ++ [Size size])
                    end
                  else params_loop fuel max_message l params
              | _ :: _ => inr (parse_error "Parameter value must be a text value.")
              | [] => inr (parse_error "Missing parameter value.")
              end
          | l => params_loop fuel max_message (tail l) params
          end
      end
  end.
Definition parse_params (p : RequestParser) (l : list LmtpToken) : list Param + Event :=
  match l with
  | Gt_ :: l => params_loop (length l) (max_message_size p) l []
  | _ => inr (parse_error "Missing > after mailbox.")
  end.

Definition with_params (p : RequestParser) (l : list LmtpToken) (f : list Param -> Request) : outcome :=
  (p, Some (match parse_params p l with inl params => inl (f params) | inr e => inr e end)).
Definition text_or (p : RequestParser) (l : list LmtpToken) (message : string) (f : list Z -> Request) : outcome :=
  (p, Some (match next_text l with Some text => inl (f text) | None => inr (parse_error message) end)).

(** A complete command line. *)
Definition parse_command (p : RequestParser) (command : list Z) (l : list LmtpToken) : outcome :=
  let named name := bool_decide (command = chars name) in
  if named "lhlo"%string then text_or p l "LHLO requires a domain name as argument." Lhlo
  else if named "mail"%string then
    match l with
    | TextToken from :: Colon :: Lt_ :: l' =>
        if bool_decide (from = chars "from") then
          match l' with
          | TextToken sender :: l' => with_params p l' (Mail sender)
          | Gt_ :: _ => with_params p l' (Mail [])
          | _ => (p, Some (inr (parse_error "MAIL FROM requires a mailbox as an argument.")))
          end
        else (p, Some (inr (parse_error "Invalid MAIL FROM syntax.")))
    | _ => (p, Some (inr (parse_error "Invalid MAIL FROM syntax.")))
    end
  else if named "rcpt"%string then
    match l with
    | TextToken to :: Colon :: Lt_ :: l' =>
        if bool_decide (to = chars "to") then
          match next_text l' with
          | Some recipient => with_params p (tail l') (Rcpt recipient)
          | None => (p, Some (inr (parse_error "RCPT TO requires a mailbox as an argument.")))
          end
        else (p, Some (inr (parse_error "Invalid RCPT TO syntax.")))
    | _ => (p, Some (inr (parse_error "Invalid RCPT TO syntax.")))
    end
  else if named "data"%string then (set_state p (InData DNone), Some (inr EData))
  else if named "bdat"%string then
    match next_text l with
    | None => (p, Some (inr (parse_error "BDAT requires a chunk size as argument.")))
    | Some size =>
        match parse_uint 64 size with
        | None => (p, Some (inr (parse_error "Failed to parse chunk size.")))
        | Some chunk_size =>
            let is_last := bool_decide (next_text (tail l) = Some (chars "last")) in
            if chunk_size =? 0 then (p, Some (inl (Bdat [] is_last)))
            else if chunk_size <? max_message_size p then (set_state (set_buf p []) (InBdat chunk_size is_last), None)
            else (p, Some (inr (EMessage (mkMessage 500 534
                   (chars "BDAT chunk size exceeds maximum of " ++ decimal (max_message_size p) ++ chars " bytes.")))))
        end
    end
  else if named "rset"%string then (p, Some (inl Rset))
  else if named "vrfy"%string then text_or p l "EXPN requires a valid text argument." Vrfy
  else if named "expn"%string then text_or p l "EXPN requires a valid text argument." Expn
  else if named "help"%string then (p, Some (inl (Help (next_text l))))
  else if named "noop"%string then (p, Some (inl Noop))
  else if named "starttls"%string then (p, Some (inl StartTls))
  else if named "quit"%string then (p, Some (inl Quit))
  else error_reset p (chars "Unknown command '" ++ to_uppercase command ++ chars "'.").

(** A byte of a message: the state and what is added to the message, or its end. *)
Definition data_byte (st : StateData) (ch : Z) : option (StateData * list Z) :=
  if ch =? CR then
    Some (match st with
          | DNone => (DCr, [])
          | DCrLfDot => (DCrLfDotCr, [])
          | DCr => (DCr, [CR])
          | DCrLf => (DCr, [CR; LF])
          | DCrLfDotCr => (DCr, [CR; LF; DOT])
          end)
  else if ch =? LF then
    match st with
    | DNone => Some (DNone, [LF])
    | DCr => Some (DCrLf, [])
    | DCrLfDotCr => None
    | DCrLf => Some (DNone, [CR; LF; LF])
    | DCrLfDot => Some (DNone, [CR; LF; DOT; LF])
    end
  else if ch =? DOT then
    Some (match st with
          | DNone => (DNone, [DOT])
          | DCrLf => (DCrLfDot, [])
          | DCr => (DNone, [CR; DOT])
          | DCrLfDot => (DNone, [CR; LF; DOT])
          | DCrLfDotCr => (DNone, [CR; LF; DOT; CR; DOT])
          end)
  else
    Some (DNone,
      match st with
      | DCr => [CR; ch]
      | DCrLf | DCrLfDot => [CR; LF; ch]
      | DCrLfDotCr => [CR; LF; DOT; CR; ch]
      | DNone => [ch]
      end).

Definition parse_byte (p : RequestParser) (ch : Z) : res outcome :=
  match state p with
  | Start =>
      if negb (is_ascii_whitespace ch) then
        Ok (set_state (set_size (set_buf p (buf p ++ [to_ascii_lowercase ch])) 1) (InRequest false), None)
      else if ch =? LF then Ok (error_reset p (chars "Expected a command."))
      else Ok (p, None)
  | InRequest in_addr =>
      if (ch =? 58) && negb in_addr then Ok (push_both p Colon in_addr)
      else if (ch =? 61) && negb in_addr then Ok (push_both p Eq_ in_addr)
      else if ch =? 60 then Ok (push_both p Lt_ true)
      else if ch =? 62 then Ok (push_both p Gt_ false)
      else if ch =? CR then Ok (p, None)
      else if ch =? LF then
        let '(p, e) := push_buf p in
        match e with
        | Some e => Ok (p, Some (inr e))
        | None =>
            let l := tokens p in
            let p := set_state (set_tokens (set_size p 0) []) Start in
            command ← unwrap (next_text l);
            Ok (parse_command p command (tail l))
        end
      else if negb (is_ascii_whitespace ch) then
        let p := set_size p (command_size p + 1) in
        if max_command_size p <? command_size p then Ok (p, Some (inr (parse_error "Request is too long.")))
        else Ok (set_buf p (buf p ++ [if in_addr then ch else to_ascii_lowercase ch]), None)
      else
        let '(p, e) := push_buf p in
        Ok (p, match e with Some e => Some (inr e) | None => None end)
  | InData st =>
      match data_byte st ch with
      | None => Ok (set_state (set_buf p []) Start, Some (inl (Data (buf p))))
      | Some (st, bytes) =>
          let p := set_buf p (buf p ++ bytes) in
          if max_message_size p <? Z.of_nat (length (buf p)) then
            Ok (p, Some (inr (EMessage (mkMessage 500 534
              (chars "Message exceeds maximum of " ++ decimal (max_message_size p) ++ chars " bytes.")))))
          else Ok (set_state p (InData st), None)
      end
  | InBdat chunk_size is_last =>
      let b := buf p ++ [ch] in
      if Z.of_nat (length b) =? chunk_size then Ok (set_state (set_buf p []) Start, Some (inl (Bdat b is_last)))
      else Ok (set_buf p b, None)
  end.

(** [parse]: bytes are consumed until one of them completes something. *)
Fixpoint parse (p : RequestParser) (bytes : list Z) : res (RequestParser * list Z * (Request + Event)) :=
  match bytes with
  | [] => Ok (p, [], inr NeedsMoreBytes)
  | ch :: bytes =>
      '(p, r) ← parse_byte p ch;
      match r with Some r => Ok (p, bytes, r) | None => parse p bytes end
  end.
End Parser.

(** ** Responses *)

Inductive Extension : Set :=
| EightBitMime | BinaryMime | ExtSize (size : Z) | ExtVrfy | ExtHelp | Pipelining | Chunking | SmtpUtf8 | ExtStartTls | EnhancedStatusCodes.

Definition message_bytes (m : Message) : list Z :=
  decimal (ms_code m) ++ [32] ++ decimal (ms_esn m / 100) ++ [DOT] ++ decimal (ms_esn m mod 100 / 10) ++ [DOT] ++
  decimal (ms_esn m mod 10) ++ [32] ++ ms_text m ++ CRLF.

Definition extension_bytes (e : Extension) : list Z :=
  match e with
  | EightBitMime => chars "8BITMIME"
  | BinaryMime => chars "BINARYMIME"
  | ExtSize size => chars "SIZE " ++ decimal size
  | ExtVrfy => chars "VRFY"
  | ExtHelp => chars "HELP"
  | Pipelining => chars "PIPELINING"
  | Chunking => chars "CHUNKING"
  | SmtpUtf8 => chars "SMTPUTF8"
  | ExtStartTls => chars "STARTTLS"
  | EnhancedStatusCodes => chars "ENHANCEDSTATUSCODES"
  end.
(** One line for each item; the last one has its own prefix. *)
Fixpoint lines {A} (prefix last_prefix : list Z) (f : A -> list Z) (l : list A) : list Z :=
  match l with
  | [] => []
  | [a] => last_prefix ++ f a ++ CRLF
  | a :: l => prefix ++ f a ++ CRLF ++ lines prefix last_prefix f l
  end.
Definition lhlo_bytes (local_host remote_host : list Z) (extensions : list Extension) : list Z :=
  chars "250-" ++ local_host ++ chars " welcomes " ++ remote_host ++ CRLF ++
  lines (chars "250-") (chars "250 ") extension_bytes extensions.

(** ** Recipients *)

(** [str::chars]. *)
Fixpoint decode_utf8 (l : list Z) : list Z :=
  match l with
  | [] => []
  | b :: l1 =>
      if b <? 0x80 then b :: decode_utf8 l1
      else
        match l1 with
        | [] => []
        | b1 :: l2 =>
            if b <? 0xE0 then ((b - 0xC0) * 2 ^ 6 + (b1 - 0x80)) :: decode_utf8 l2
            else
              match l2 with
              | [] => []
              | b2 :: l3 =>
                  if b <? 0xF0 then ((b - 0xE0) * 2 ^ 12 + (b1 - 0x80) * 2 ^ 6 + (b2 - 0x80)) :: decode_utf8 l3
                  else
                    match l3 with
                    | [] => []
                    | b3 :: l4 =>
                        ((b - 0xF0) * 2 ^ 18 + (b1 - 0x80) * 2 ^ 12 + (b2 - 0x80) * 2 ^ 6 + (b3 - 0x80)) :: decode_utf8 l4
                    end
              end
        end
  end.

(** [sanitize_email] on the bytes of a text. *)
Definition sanitize_address `{Unicode} (email : list Z) : option (list Z) := str_bytes <$> sanitize_email (decode_utf8 email).

Inductive DeliveryStatus : Set :=
| Success
| TemporaryFailure (reason : list Z)
| PermanentFailure (code reason : list Z)
| Duplicated.

Inductive RcptType : Set :=
| RcptMailbox (id : Z) (name : list Z) (status : DeliveryStatus)
| RcptList (ids : list Z) (name : list Z) (status : DeliveryStatus).

Definition rcpt_name (r : RcptType) : list Z := match r with RcptMailbox _ name _ | RcptList _ name _ => name end.
Definition rcpt_status (r : RcptType) : DeliveryStatus := match r with RcptMailbox _ _ status | RcptList _ _ status => status end.

Record OutgoingMessage : Set := mkOutgoing { og_mail_from : list Z; og_rcpt_to : list (list Z); og_message : list Z }.

(** The changes of an account: its last change and the collections changed. *)
Record AccountChanges : Set := mkChanges { ch_change_id : Z; ch_collections : list Collection.t }.
Record IngestResult : Set := mkIngest {
  in_rcpt_to : list RcptType; in_changes : list (Z * AccountChanges); in_messages : list OutgoingMessage; in_last_change_id : Z }.

Inductive Command : Set :=
| IngestMessage (mail_from : list Z) (rcpt_to : list RcptType) (raw_message : list Z)
| ExpandRcpt (mailbox : list Z).
Inductive CommandResponse : Set :=
| IngestMessageResponse (result : list RcptType + list Z)
| ExpandRcptResponse (rt : RecipientType)
| CommandError (message : list Z).

(** What a session uses: the connection, the clock, the cluster, the
    directory, the delivery to one account. Each may change the world. *)
Class Backend := {
  world : Type;
  write_all : world -> list Z -> world * bool;
  tls_accept : world -> world * bool;
  local_now : world -> world * list Z;
  is_leader : world -> bool;
  is_up_to_date : world -> bool;
  is_in_cluster : world -> bool;
  rpc_command : world -> Command -> world * option CommandResponse;
  store_expand_rcpt : world -> list Z -> world * option RecipientType;
  blob_store : world -> list Z -> world * option (list Z);
  mail_deliver_rcpt : world -> IngestResult -> Z -> list Z -> list Z -> list Z -> world * IngestResult * DeliveryStatus;
  commit_index : world -> Z -> world * bool;
  publish_state_change : world -> Z -> list (TypeState * Z) -> world * bool;
  notify_email_delivery : world -> OutgoingMessage -> world * bool;
  uppercase : list Z -> list Z
}.

(** ** Delivery of a message *)

Section Delivery.
Context `{Backend}.

Definition is_duplicated (s : DeliveryStatus) : bool := match s with Duplicated => true | _ => false end.
Definition keep_status (prev : option (gmap Z DeliveryStatus)) (id : Z) (s : DeliveryStatus) : option (gmap Z DeliveryStatus) :=
  (fun m => <[id := s]> m) <$> prev.

(** The members of a list, with the successes and temporary failures. *)
Fixpoint deliver_list (w : world) (r : IngestResult) (prev : option (gmap Z DeliveryStatus)) (success temp : Z)
    (ids : list Z) (name raw_message mail_from : list Z) : world * IngestResult * option (gmap Z DeliveryStatus) * Z * Z :=
  match ids with
  | [] => (w, r, prev, success, temp)
  | id :: ids =>
      let '(w, r, status) := mail_deliver_rcpt w r id raw_message mail_from name in
      let success := match status with Success => success + 1 | _ => success end in
      let temp := match status with TemporaryFailure _ => temp + 1 | _ => temp end in
      deliver_list w r (keep_status prev id status) success temp ids name raw_message mail_from
  end.

(** One recipient, with its status replaced by the outcome. *)
Definition deliver_one (w : world) (r : IngestResult) (prev : option (gmap Z DeliveryStatus)) (recipient : RcptType)
    (raw_message mail_from : list Z) : res (world * IngestResult * option (gmap Z DeliveryStatus) * RcptType) :=
  match recipient with
  | RcptMailbox id name status =>
      if negb (is_duplicated status) then
        let '(w, r, status) := mail_deliver_rcpt w r id raw_message mail_from name in
        Ok (w, r, keep_status prev id status, RcptMailbox id name status)
      else
        m ← unwrap prev;
        Ok (w, r, prev, RcptMailbox id name (default Success (m !! id)))
  | RcptList ids name status =>
      if negb (is_duplicated status) then
        let '(w, r, prev, success, temp) := deliver_list w r prev 0 0 ids name raw_message mail_from in
        Ok (w, r, prev, RcptList ids name
          (if 0 <? success then Success
           else if 0 <? temp then TemporaryFailure (chars "temporary failure")
           else PermanentFailure (chars "5.5.0") (chars "permanent failure")))
      else Ok (w, r, prev, RcptList ids name Success)
  end.
Fixpoint deliver_loop (w : world) (r : IngestResult) (prev : option (gmap Z DeliveryStatus)) (rcpt_to : list RcptType)
    (raw_message mail_from : list Z) : res (world * IngestResult) :=
  match rcpt_to with
  | [] => Ok (w, r)
  | recipient :: rcpt_to =>
      '(w, r, prev, recipient) ← deliver_one w r prev recipient raw_message mail_from;
      deliver_loop w (mkIngest (in_rcpt_to r ++ [recipient]) (in_changes r) (in_messages r) (in_last_change_id r)) prev
        rcpt_to raw_message mail_from
  end.

(** [JMAPMailIngest::mail_ingest] of the store. *)
Definition store_mail_ingest (w : world) (mail_from : list Z) (rcpt_to : list RcptType) (raw_message : list Z) :
    res (world * option IngestResult) :=
  let '(w, stored) := blob_store w raw_message in
  match stored with
  | None => Ok (w, None)
  | Some raw_message =>
      let prev := if existsb (fun r => is_duplicated (rcpt_status r)) rcpt_to then Some ∅ else None in
      '(w, r) ← deliver_loop w (mkIngest [] [] [] U64_MAX) prev rcpt_to raw_message mail_from;
      Ok (w, Some r)
  end.

Fixpoint publish_all (w : world) (changes : list (Z * AccountChanges)) : world :=
  match changes with
  | [] => w
  | (account_id, c) :: changes =>
      let types := omap (fun c' => t ← type_state c'; Some (t, ch_change_id c)) (ch_collections c) ++ [(TSEmailDelivery, ch_change_id c)] in
      publish_all (publish_state_change w account_id types).1 changes
  end.
Fixpoint notify_all (w : world) (messages : list OutgoingMessage) : world :=
  match messages with
  | [] => w
  | message :: messages =>
      let '(w, sent) := notify_email_delivery w message in
      if sent then notify_all w messages else w
  end.

(** [JMAPServer::mail_ingest]. *)
Definition mail_ingest (w : world) (mail_from : list Z) (rcpt_to : list RcptType) (raw_message : list Z) :
    res (world * (list RcptType + list Z)) :=
  '(w, status) ← store_mail_ingest w mail_from rcpt_to raw_message;
  match status with
  | None => Ok (w, inr (chars "450 4.3.2 Temporary server failure." ++ CRLF))
  | Some status =>
      let '(w, committed) :=
        if negb (in_last_change_id status =? U64_MAX) && is_in_cluster w then commit_index w (in_last_change_id status) else (w, true) in
      if negb committed then Ok (w, inr (chars "450 4.3.2 Temporary cluster failure." ++ CRLF))
      else Ok (notify_all (publish_all w (in_changes status)) (in_messages status), inl (in_rcpt_to status))
  end.
End Delivery.

(** ** Sessions *)

Inductive Stream : Set := Clear | Tls | NoStream.

Section Session.
Context `{Unicode} `{Backend}.

(** What the listener fixes for a connection. *)
Record SessionConfig : Type := mkConfig { hostname : list Z; peer_ip : list Z; tls_acceptor : bool; mail_max_size : Z }.

Record Session : Type := mkSession {
  parser : RequestParser; stream : Stream; remote_hostname : option (list Z); mail_from : option (list Z);
  mail_size : option Z; rcpt_to : list RcptType; rcpt_to_dup : gset Z; message : list Z; the_world : world }.

Definition MAX_COMMAND_LENGTH : Z := 1024.
Definition session_new (c : SessionConfig) (st : Stream) (w : world) : Session :=
  mkSession (parser_new MAX_COMMAND_LENGTH (mail_max_size c)) st None None None [] ∅ [] w.

(** A step goes on, closes the connection ([Err(())]) or panics. *)
Inductive flow : Type := Next (s : Session) | Closed (s : Session) | Crashed.
Definition andthen (f : flow) (k : Session -> flow) : flow := match f with Next s => k s | _ => f end.

Definition on_world (s : Session) (w : world) : Session :=
  mkSession (parser s) (stream s) (remote_hostname s) (mail_from s) (mail_size s) (rcpt_to s) (rcpt_to_dup s) (message s) w.
Definition on_parser (s : Session) (p : RequestParser) : Session :=
  mkSession p (stream s) (remote_hostname s) (mail_from s) (mail_size s) (rcpt_to s) (rcpt_to_dup s) (message s) (the_world s).
Definition on_stream (s : Session) (st : Stream) : Session :=
  mkSession (parser s) st (remote_hostname s) (mail_from s) (mail_size s) (rcpt_to s) (rcpt_to_dup s) (message s) (the_world s).
Definition on_sender (s : Session) (from : option (list Z)) (size : option Z) : Session :=
  mkSession (parser s) (stream s) (remote_hostname s) from size (rcpt_to s) (rcpt_to_dup s) (message s) (the_world s).
Definition on_rcpt (s : Session) (l : list RcptType) (dup : gset Z) : Session :=
  mkSession (parser s) (stream s) (remote_hostname s) (mail_from s) (mail_size s) l dup (message s) (the_world s).
Definition on_message (s : Session) (m : list Z) : Session :=
  mkSession (parser s) (stream s) (remote_hostname s) (mail_from s) (mail_size s) (rcpt_to s) (rcpt_to_dup s) m (the_world s).
Definition on_hostname (s : Session) (domain : list Z) : Session :=
  mkSession (parser s) (stream s) (Some domain) (mail_from s) (mail_size s) (rcpt_to s) (rcpt_to_dup s) (message s) (the_world s).

Definition write_bytes (s : Session) (b : list Z) : flow :=
  match stream s with
  | NoStream => Crashed
  | _ => let '(w, ok) := write_all (the_world s) b in if ok then Next (on_world s w) else Closed (on_world s w)
  end.
Definition reply (s : Session) (text : string) : flow := write_bytes s (chars text ++ CRLF).

Definition build_return_path (c : SessionConfig) (s : Session) : Session * list Z :=
  let '(w, now) := local_now (the_world s) in
  (on_world s w,
   chars "Received: from " ++ default (chars "unknown") (remote_hostname s) ++ chars " ([" ++ hostname c ++ chars "])" ++ CRLF ++
   [9] ++ chars "by " ++ peer_ip c ++ chars " (Stalwart JMAP) with LMTP;" ++ CRLF ++ [9] ++ now ++ CRLF).

(** [expand_rcpt]. *)
Definition expand_rcpt (w : world) (email : list Z) : world * option RecipientType :=
  match sanitize_address email with
  | None => (w, Some NotFound)
  | Some email =>
      if is_leader w || is_up_to_date w then store_expand_rcpt w email
      else
        let '(w, r) := rpc_command w (ExpandRcpt email) in
        (w, match r with Some (ExpandRcptResponse rt) => Some rt | _ => None end)
  end.

Definition status_line (r : RcptType) : list Z :=
  match rcpt_status r with
  | Success => chars "250 2.1.5 <" ++ rcpt_name r ++ chars "> delivered" ++ CRLF
  | TemporaryFailure reason => chars "451 4.3.0 <" ++ rcpt_name r ++ chars "> " ++ reason ++ CRLF
  | PermanentFailure code reason => chars "550 " ++ code ++ chars " <" ++ rcpt_name r ++ chars "> " ++ reason ++ CRLF
  | Duplicated => []
  end.

(** [ingest_message]. *)
Definition ingest_message (s : Session) : flow :=
  if bool_decide (message s = []) then reply s "554 5.7.7 Empty message not accepted."
  else if bool_decide (rcpt_to s = []) then reply s "503 5.5.1 Missing RCPT TO."
  else
    match mail_from s with
    | None => reply s "503 5.5.1 Missing MAIL FROM."
    | Some from =>
        let msg := message s in
        let rcpt := rcpt_to s in
        let s := on_rcpt (on_message (on_sender s None (mail_size s)) []) [] ∅ in
        let w := the_world s in
        if is_leader w then
          match mail_ingest w from rcpt msg with
          | Ok (w, inl rcpt) => write_bytes (on_world s w) (rcpt ≫= status_line)
          | Ok (w, inr err) => write_bytes (on_world s w) err
          | _ => Crashed
          end
        else
          let '(w, r) := rpc_command w (IngestMessage from rcpt msg) in
          match r with
          | Some (IngestMessageResponse (inl rcpt)) => write_bytes (on_world s w) (rcpt ≫= status_line)
          | Some (IngestMessageResponse (inr err)) => write_bytes (on_world s w) err
          | _ => reply (on_world s w) "450 4.3.2 Temporary Failure."
          end
    end.

(** The accounts of a list that are not recipients yet. *)
Fixpoint add_members (dup : gset Z) (accounts : list (Z * list Z)) (ids : list Z) : gset Z * list Z :=
  match accounts with
  | [] => (dup, ids)
  | (account_id, _) :: accounts =>
      if bool_decide (account_id ∈ dup) then add_members dup accounts ids
      else add_members ({[account_id]} ∪ dup) accounts (ids ++ [account_id])
  end.
Definition find_size (params : list Param) : option Z :=
  match omap (fun p => match p with Size size => Some size | _ => None end) params with [] => None | size :: _ => Some size end.

Definition handle_rcpt (s : Session) (recipient : list Z) : flow :=
  let '(w, rt) := expand_rcpt (the_world s) recipient in
  let s := on_world s w in
  let accepted := chars "250 2.1.5 Recipient <" ++ recipient ++ chars "> accepted." ++ CRLF in
  match rt with
  | Some (Individual account_id) =>
      andthen (write_bytes s accepted) (fun s =>
        let fresh := negb (bool_decide (account_id ∈ rcpt_to_dup s)) in
        Next (on_rcpt s (rcpt_to s ++ [RcptMailbox account_id recipient (if fresh then Success else Duplicated)])
                ({[account_id]} ∪ rcpt_to_dup s)))
  | Some (RList accounts) =>
      andthen (write_bytes s accepted) (fun s =>
        let '(dup, ids) := add_members (rcpt_to_dup s) accounts [] in
        Next (on_rcpt s (rcpt_to s ++ [RcptList ids recipient (if bool_decide (ids = []) then Duplicated else Success)]) dup))
  | Some NotFound => reply s "550 5.1.1 Mailbox not found."
  | None => reply s "450 4.3.2 Temporary server failure."
  end.

Definition handle_bdat (c : SessionConfig) (s : Session) (data : list Z) (is_last : bool) : flow :=
  if Z.of_nat (length (message s)) + Z.of_nat (length data) <? mail_max_size c then
    let s := if bool_decide (message s = []) then let '(s, rp) := build_return_path c s in on_message s rp else s in
    let s := on_message s (message s ++ data) in
    if is_last then ingest_message s else reply s "250 2.1.0 Message chunk accepted."
  else write_bytes s (chars "500 5.3.4 Message exceeds maximum size of " ++ decimal (mail_max_size c) ++ chars " bytes." ++ CRLF).

Definition handle_vrfy (s : Session) (mailbox : list Z) : flow :=
  let '(w, rt) := expand_rcpt (the_world s) mailbox in
  let s := on_world s w in
  match rt with
  | Some (Individual _) | Some (RList _) => write_bytes s (chars "250 2.1.5 Mailbox <" ++ mailbox ++ chars "> exists." ++ CRLF)
  | Some NotFound => reply s "550 5.1.1 Mailbox not found."
  | None => reply s "450 4.3.2 Temporary server failure."
  end.
Definition handle_expn (s : Session) (list_ : list Z) : flow :=
  let '(w, rt) := expand_rcpt (the_world s) list_ in
  let s := on_world s w in
  match rt with
  | Some (RList accounts) => write_bytes s (lines (chars "250- <") (chars "250  <") (fun a => a.2 ++ [62]) accounts)
  | Some (Individual _) =>
      write_bytes s (chars "550 5.1.0 Address <" ++ list_ ++ chars "> exists but is not a mailing list." ++ CRLF)
  | Some NotFound => reply s "550 5.1.1 List not found."
  | None => reply s "450 4.3.2 Temporary server failure."
  end.
Definition handle_starttls (c : SessionConfig) (s : Session) : flow :=
  match stream s, tls_acceptor c with
  | Clear, true =>
      andthen (reply s "220 2.0.0 Ready to start TLS") (fun s =>
        let '(w, ok) := tls_accept (the_world s) in
        if ok then Next (on_stream (on_world s w) Tls) else Closed (on_stream (on_world s w) NoStream))
  | Clear, false => reply s "501 5.7.4 TLS not configured on this server."
  | Tls, _ => reply s "501 5.7.0 Already in TLS mode."
  | NoStream, _ => Crashed
  end.

(** A parsed request. *)
Definition handle_request (c : SessionConfig) (s : Session) (r : Request) : flow :=
  match r with
  | Lhlo domain =>
      let extensions :=
        [EnhancedStatusCodes; Pipelining; Chunking; EightBitMime; BinaryMime; SmtpUtf8; ExtVrfy; ExtHelp; ExtSize (u32 (mail_max_size c))]
        ++ match stream s with Tls => [] | _ => [ExtStartTls] end in
      andthen (write_bytes s (lhlo_bytes (hostname c) domain extensions)) (fun s => Next (on_hostname s domain))
  | Mail sender params =>
      andthen (write_bytes s (chars "250 2.1.0 Sender <" ++ sender ++ chars "> accepted." ++ CRLF)) (fun s =>
        Next (on_sender s (Some sender) (find_size params)))
  | Rcpt recipient _ => handle_rcpt s recipient
  | Data data => ingest_message (on_message s data)
  | Bdat data is_last => handle_bdat c s data is_last
  | Vrfy mailbox => handle_vrfy s mailbox
  | Expn list_ => handle_expn s list_
  | Help _ => reply s "250 2.0.0 Help can be found at https://stalw.art/jmap/"
  | StartTls => handle_starttls c s
  | Rset => reply (on_rcpt (on_message (on_sender s None None) []) [] ∅) "250 2.0.0 OK"
  | Noop => reply s "250 2.0.0 OK"
  | Quit => andthen (reply s "221 2.0.0 Bye") Closed
  end.

(** What the parser reports besides requests; [None] when it needs more bytes. *)
Definition handle_event (c : SessionConfig) (s : Session) (e : Event) : option flow :=
  match e with
  | NeedsMoreBytes => None
  | EData =>
      Some (if negb (bool_decide (rcpt_to_dup s = ∅)) then
        let '(s, rp) := build_return_path c s in
        reply (on_parser s (set_buf (parser s) rp)) "354 3.0.0 Start mail input; end with <CRLF>.<CRLF>."
      else reply s "503 5.5.1 Missing RCPT TO.")
  | EMessage m => Some (write_bytes s (message_bytes m))
  end.

(** [ingest]: each turn of the loop consumes a byte or ends it. *)
Fixpoint ingest_loop (fuel : nat) (c : SessionConfig) (s : Session) (bytes : list Z) : flow :=
  match fuel with
  | O => Crashed
  | S fuel =>
      match parse uppercase (parser s) bytes with
      | Ok (p, bytes, inl request) => andthen (handle_request c (on_parser s p) request) (fun s => ingest_loop fuel c s bytes)
      | Ok (p, bytes, inr event) =>
          match handle_event c (on_parser s p) event with
          | Some f => andthen f (fun s => ingest_loop fuel c s bytes)
          | None => Next (on_parser s p)
          end
      | _ => Crashed
      end
  end.
Definition ingest (c : SessionConfig) (s : Session) (bytes : list Z) : flow := ingest_loop (S (length bytes)) c s bytes.

(** [handle_conn]: what arrives on the connection. *)
Inductive input : Set := Read (bytes : list Z) | EndOfFile | ReadError | Timeout | Shutdown.
Definition farewell (s : Session) (text : string) : flow :=
  match reply s text with Next s | Closed s => Closed s | Crashed => Crashed end.
Fixpoint handle_conn (c : SessionConfig) (s : Session) (inputs : list input) : flow :=
  match inputs with
  | [] => Next s
  | Read bytes :: inputs => andthen (ingest c s bytes) (fun s => handle_conn c s inputs)
  | (EndOfFile | ReadError) :: _ => Closed s
  | Timeout :: _ => farewell s "221 2.0.0 Disconnecting inactive client."
  | Shutdown :: _ => farewell s "421 4.3.0 Server shutting down."
  end.
End Session.

(** ** A connection is a stream of bytes *)

Section Stream.
Context `{Unicode} `{Backend}.

(** The effect of one byte. *)
Definition step_byte (c : SessionConfig) (s : Session) (ch : Z) : flow :=
  match parse_byte uppercase (parser s) ch with
  | Ok (p, None) => Next (on_parser s p)
  | Ok (p, Some (inl request)) => handle_request c (on_parser s p) request
  | Ok (p, Some (inr event)) => default (Next (on_parser s p)) (handle_event c (on_parser s p) event)
  | _ => Crashed
  end.
Fixpoint feed (c : SessionConfig) (s : Session) (bytes : list Z) : flow :=
  match bytes with [] => Next s | ch :: bytes => andthen (step_byte c s ch) (fun s => feed c s bytes) end.

Lemma on_parser_same s : on_parser s (parser s) = s.
Proof. by destruct s. Qed.

(** The parser asks for more bytes only when there are none left. *)
Definition conclusive (o : option (Request + Event)) : Prop := o <> Some (inr NeedsMoreBytes).
Lemma push_buf_conclusive p : (push_buf p).2 <> Some NeedsMoreBytes.
Proof. unfold push_buf. destruct (buf p); [done|]. by destruct (utf8_valid _). Qed.
Lemma push_both_conclusive p t b : conclusive (push_both p t b).2.
Proof.
  unfold push_both, conclusive. pose proof (push_buf_conclusive p) as Hp. destruct (push_buf p) as [q [e|]]; [cbn in *; congruence|].
  unfold push_token. by destruct (_ <? _).
Qed.
Lemma params_conclusive p l f : conclusive (with_params p l f).2.
Proof.
  unfold with_params, conclusive, parse_params. cbn [snd].
  assert (forall fuel m l params, params_loop fuel m l params <> inr NeedsMoreBytes) as Hl.
  { induction fuel as [|fuel IH]; intros m l' params; destruct l' as [|[] l']; cbn [params_loop]; try done.
    cbn [unwrap_text]. destruct l' as [|[] [|[] l']]; try done; try apply IH.
    repeat (destruct (bool_decide _); try apply IH). destruct (parse_uint _ _); [|done]. destruct (_ <? _); [done|]. apply IH. }
  destruct l as [|[] l]; try done. specialize (Hl (length l) (max_message_size p) l []). destruct (params_loop _ _ _ _); [done|congruence].
Qed.
Lemma text_conclusive p l m f : conclusive (text_or p l m f).2.
Proof. unfold text_or, conclusive. by destruct (next_text l). Qed.
Lemma command_conclusive p cmd l : conclusive (parse_command uppercase p cmd l).2.
Proof.
  unfold parse_command. cbv zeta.
  repeat (first [apply params_conclusive | apply text_conclusive | done | match goal with
    | |- conclusive (if bool_decide (_ = ?n) then _ else _).2 => destruct (bool_decide (_ = n))
    | |- conclusive (if ?b then _ else _).2 => destruct b
    | |- conclusive (match ?l with _ => _ end).2 => destruct l
    end]).
Qed.
Ltac split_if := match goal with |- (if ?b then _ else _) = _ -> _ => destruct b end.
Lemma parse_byte_conclusive p ch q r : parse_byte uppercase p ch = Ok (q, r) -> conclusive r.
Proof.
  unfold parse_byte. pose proof (push_buf_conclusive p) as Hp.
  destruct (state p) as [|in_addr|n l|st].
  - repeat split_if; intros; by simplify_eq/=.
  - do 4 (split_if; [intros [= Hb]; change r with (q, r).2; rewrite <- Hb; apply push_both_conclusive|]).
    split_if; [by intros [= <- <-]|]. split_if.
    + destruct (push_buf p) as [p' [e|]]; [intros [= <- <-]; unfold conclusive; cbn in *; congruence|].
      destruct (next_text _) as [cmd|]; [|done]. intros [= Hc]. change r with (q, r).2. rewrite <- Hc. apply command_conclusive.
    + split_if; [cbv zeta; split_if; by intros [= <- <-]|].
      destruct (push_buf p) as [p' [e|]]; intros [= <- <-]; unfold conclusive; cbn in *; congruence.
  - cbv zeta. split_if; by intros [= <- <-].
  - destruct (data_byte st ch) as [[st' bytes]|]; [|by intros [= <- <-]]. cbv zeta. split_if; by intros [= <- <-].
Qed.

Lemma event_conclusive c s e : e <> NeedsMoreBytes -> is_Some (handle_event c s e).
Proof. destruct e; [done|by eexists..]. Qed.

Lemma ingest_loop_feed c bytes : forall fuel s, (length bytes < fuel)%nat -> ingest_loop fuel c s bytes = feed c s bytes.
Proof.
  induction bytes as [|ch bytes IH]; intros [|fuel] s Hf; try (cbn in Hf; lia).
  - cbn. by rewrite on_parser_same.
  - cbn in Hf. cbn [feed]. unfold step_byte. destruct (parse_byte _ _ _) as [[p r]| |] eqn:Hp; cbn [ingest_loop parse]; rewrite Hp; try done.
    cbn. destruct r as [[request|event]|].
    + destruct (handle_request _ _ _); [|done..]. apply IH. lia.
    + apply parse_byte_conclusive in Hp. destruct (event_conclusive c (on_parser s p) event) as [f ->]; [unfold conclusive in Hp; congruence|].
      destruct f; [|done..]. apply IH. lia.
    + cbn [andthen]. rewrite <- (IH (S fuel)) by lia. done.
Qed.
Lemma ingest_feed c s bytes : ingest c s bytes = feed c s bytes.
Proof. apply ingest_loop_feed. lia. Qed.
Lemma feed_app c bytes1 bytes2 : forall s, feed c s (bytes1 ++ bytes2) = andthen (feed c s bytes1) (fun s => feed c s bytes2).
Proof. induction bytes1 as [|ch bytes1 IH]; intros s; [done|]. cbn. destruct (step_byte _ _ _); [|done..]. apply IH. Qed.
End Stream.

(** C17. How the network cuts the bytes of a client into reads does not matter:
    a session that reads them chunk by chunk sends the same responses, delivers
    the same messages and ends in the same state as one that reads them at
    once, whatever the clients, the directory, the store and the other nodes do. *)
Theorem reads_do_not_matter `{Unicode} `{Backend} c s chunks :
  handle_conn c s (Read <$> chunks) = ingest c s (concat chunks).
Proof.
  rewrite ingest_feed. revert s. induction chunks as [|bytes chunks IH]; intros s; [done|].
  cbn [fmap list_fmap handle_conn concat]. rewrite ingest_feed, feed_app. destruct (feed c s bytes); [|done..]. apply IH.
Qed.

(** ** Messages *)

(** What a client sends: a dot that starts a line is doubled. *)
Inductive line_state : Set := Middle | AfterCr | LineStart.
Definition next_line_state (st : line_state) (ch : Z) : line_state :=
  if ch =? CR then AfterCr else if (ch =? LF) && match st with AfterCr => true | _ => false end then LineStart else Middle.
Fixpoint dot_stuff (st : line_state) (m : list Z) : list Z :=
  match m with
  | [] => []
  | ch :: m =>
      (if (ch =? DOT) && match st with LineStart => true | _ => false end then [DOT; DOT] else [ch])
      ++ dot_stuff (next_line_state st ch) m
  end.
Definition end_of_data : list Z := CRLF ++ [DOT] ++ CRLF.

(** The parser holds back the line ending it has just seen. *)
Definition data_state (st : line_state) : StateData := match st with Middle => DNone | AfterCr => DCr | LineStart => DCrLf end.
Definition held_back (st : line_state) : list Z := match st with Middle => [] | AfterCr => [CR] | LineStart => CRLF end.

Section DataBytes.
Variable up : list Z -> list Z.

Lemma data_byte_step p ch st bytes rest :
  (exists st0, state p = InData st0 /\ data_byte st0 ch = Some (st, bytes)) ->
  Z.of_nat (length (buf p)) + Z.of_nat (length bytes) <= max_message_size p ->
  parse up p (ch :: rest) = parse up (set_state (set_buf p (buf p ++ bytes)) (InData st)) rest.
Proof.
  intros (st0 & Hs & Hb) Hl. cbn [parse]. unfold parse_byte. rewrite Hs, Hb. cbv zeta.
  destruct (Z.ltb_spec (max_message_size (set_buf p (buf p ++ bytes))) (Z.of_nat (length (buf (set_buf p (buf p ++ bytes)))))) as [Hlt|Hle];
    [cbn in Hlt; rewrite length_app in Hlt; lia|done].
Qed.

Lemma data_char p st ch rest :
  state p = InData (data_state st) ->
  Z.of_nat (length (buf p)) + Z.of_nat (length (held_back st)) + 1 <= max_message_size p ->
  exists b, b ++ held_back (next_line_state st ch) = buf p ++ held_back st ++ [ch] /\
    parse up p ((if (ch =? DOT) && match st with LineStart => true | _ => false end then [DOT; DOT] else [ch]) ++ rest) =
    parse up (set_state (set_buf p b) (InData (data_state (next_line_state st ch)))) rest.
Proof.
  intros Hs Hl. unfold next_line_state.
  destruct (Z.eqb_spec ch CR) as [->|Hcr]; [|destruct (Z.eqb_spec ch LF) as [->|Hlf]; [|destruct (Z.eqb_spec ch DOT) as [->|Hdot]]];
    destruct st; change (CR =? DOT) with false; change (LF =? DOT) with false;
    cbn [andb app length held_back data_state CRLF] in *;
    try (eexists; split; [|apply data_byte_step; [eexists; split; [exact Hs|]; unfold data_byte; rewrite ?(proj2 (Z.eqb_neq _ _) Hcr), ?(proj2 (Z.eqb_neq _ _) Hlf), ?(proj2 (Z.eqb_neq _ _) Hdot); reflexivity|cbn; lia]]; cbn; by rewrite ?app_nil_r, <- ?(assoc_L (++))).
  exists (buf p ++ [CR; LF; DOT]). split; [by rewrite ?app_nil_r|].
  rewrite (data_byte_step p DOT DCrLfDot []) by (first [by eauto|cbn; lia]).
  rewrite (data_byte_step _ DOT DNone [CR; LF; DOT]) by (first [by eauto|cbn; rewrite ?app_nil_r; lia]). cbn. by rewrite ?app_nil_r.
Qed.

Lemma data_end p rest : state p = InData DCr -> Z.of_nat (length (buf p)) <= max_message_size p ->
  parse up p ([LF; DOT; CR; LF] ++ rest) = Ok (set_state (set_buf p []) Start, rest, inl (Data (buf p))).
Proof.
  intros Hs Hl. cbn [app].
  rewrite (data_byte_step p LF DCrLf []), app_nil_r by (first [by eauto|cbn; lia]).
  rewrite (data_byte_step _ DOT DCrLfDot []) by (first [by eauto|cbn; lia]).
  rewrite (data_byte_step _ CR DCrLfDotCr []) by (first [by eauto|cbn; rewrite ?app_nil_r; lia]).
  cbn. by rewrite !app_nil_r.
Qed.

Lemma data_message m : forall p st rest,
  state p = InData (data_state st) ->
  Z.of_nat (length (buf p)) + Z.of_nat (length (held_back st ++ m)) <= max_message_size p ->
  parse up p (dot_stuff st m ++ end_of_data ++ rest) =
    Ok (set_state (set_buf p []) Start, rest, inl (Data (buf p ++ held_back st ++ m))).
Proof.
  induction m as [|ch m IH]; intros p st rest Hs Hl; rewrite length_app in Hl; cbn [length dot_stuff] in *.
  - rewrite app_nil_r. change ([] ++ end_of_data ++ rest) with (CR :: [LF; DOT; CR; LF] ++ rest).
    rewrite (data_byte_step p CR DCr (held_back st)) by (first [by destruct st; eauto|lia]).
    rewrite data_end; [done..|]. cbn. rewrite length_app. lia.
  - rewrite <- (assoc_L (++)). destruct (data_char p st ch (dot_stuff (next_line_state st ch) m ++ end_of_data ++ rest) Hs) as (b & Hb & ->); [lia|].
    assert (length (b ++ held_back (next_line_state st ch)) = length (buf p ++ held_back st ++ [ch])) as Hlen by by rewrite Hb.
    rewrite !length_app in Hlen. cbn in Hlen.
    rewrite IH; [|done|cbn; rewrite length_app; lia]. cbn. rewrite (assoc_L (++) b), Hb, <- !(assoc_L (++)). done.
Qed.
End DataBytes.

(** Messages arrive as they were sent: the parser, reading a message whose
    lines the client has dot-stuffed and the end of data, gives back the bytes
    of the message, after the trace header it started with, and leaves what the
    client pipelined behind it; for every message that does not start with a
    dot and fits the maximum size, bare carriage returns and line feeds included. *)
Theorem data_roundtrip up p m rest :
  state p = InData DNone -> head m <> Some DOT ->
  Z.of_nat (length (buf p ++ m)) <= max_message_size p ->
  parse up p (dot_stuff LineStart m ++ end_of_data ++ rest) =
    Ok (set_state (set_buf p []) Start, rest, inl (Data (buf p ++ m))).
Proof.
  intros Hs Hm Hl. rewrite length_app in Hl.
  replace (dot_stuff LineStart m) with (dot_stuff Middle m);
    [by rewrite data_message by (first [done|cbn; lia])|].
  destruct m as [|ch m]; [done|]. cbn [dot_stuff]. destruct (Z.eqb_spec ch DOT) as [->|]; [done|]. cbn [andb]. do 2 f_equal.
Qed.

Definition sample_parser : RequestParser := mkParser (chars "Received: x") [] (InData DNone) 0 1024 60.
Lemma data_roundtrip_witness :
  let m := chars "hi" ++ CRLF ++ chars "..end" ++ [CR; CR; LF; DOT] in
  parse id sample_parser (dot_stuff LineStart m ++ end_of_data ++ chars "QUIT") =
    Ok (set_state (set_buf sample_parser []) Start, chars "QUIT", inl (Data (chars "Received: x" ++ m))).
Proof. apply (data_roundtrip id sample_parser); [done|done|vm_compute; discriminate]. Defined.

(** ** Delivery *)

(** [delivered] observes the accounts a message was handed to for delivery.
    [mail_deliver_rcpt] ends with success or a failure of its own, and adds to
    the changes and outgoing messages of the result; the blob store gives back
    the bytes it was given. *)
Class DeliveryLog `{Backend} := {
  delivered : world -> list (Z * list Z);
  deliver_logged w r id raw from to w' r' st :
    mail_deliver_rcpt w r id raw from to = (w', r', st) ->
    delivered w' = delivered w ++ [(id, raw)] /\ st <> Duplicated /\ in_rcpt_to r' = in_rcpt_to r;
  blob_logged w raw : delivered (blob_store w raw).1 = delivered w;
  blob_same w raw w' raw' : blob_store w raw = (w', Some raw') -> raw' = raw;
  write_logged w b : delivered (write_all w b).1 = delivered w;
  commit_logged w i : delivered (commit_index w i).1 = delivered w;
  publish_logged w a l : delivered (publish_state_change w a l).1 = delivered w;
  notify_logged w m : delivered (notify_email_delivery w m).1 = delivered w
}.

(** The accounts a message is to be delivered to. *)
Definition rcpt_accounts (r : RcptType) : list Z :=
  match r with
  | RcptMailbox id _ st => if is_duplicated st then [] else [id]
  | RcptList ids _ st => if is_duplicated st then [] else ids
  end.
Definition pending (l : list RcptType) : list Z := l ≫= rcpt_accounts.
Definition to_each (ids : list Z) (raw : list Z) : list (Z * list Z) := (fun id => (id, raw)) <$> ids.

Section DeliveryLaws.
Context `{DeliveryLog}.

Definition prev_ok (prev : option (gmap Z DeliveryStatus)) : Prop :=
  match prev with Some m => forall id s, m !! id = Some s -> s <> Duplicated | None => True end.
Lemma keep_status_ok prev id s : s <> Duplicated -> prev_ok prev -> prev_ok (keep_status prev id s).
Proof.
  intros Hs. destruct prev as [m|]; cbn; [|done]. intros Hm id' s'. destruct (decide (id = id')) as [<-|].
  - rewrite lookup_insert_eq. by intros [= <-].
  - rewrite lookup_insert_ne by done. apply Hm.
Qed.
Lemma keep_status_some prev id s : is_Some (keep_status prev id s) <-> is_Some prev.
Proof. apply fmap_is_Some. Qed.

Lemma deliver_list_spec ids name raw from : forall w r prev success temp, exists w' r' prev' success' temp',
  deliver_list w r prev success temp ids name raw from = (w', r', prev', success', temp') /\
  delivered w' = delivered w ++ to_each ids raw /\ in_rcpt_to r' = in_rcpt_to r /\
  (is_Some prev' <-> is_Some prev) /\ (prev_ok prev -> prev_ok prev').
Proof.
  induction ids as [|id ids IH]; intros; cbn.
  - do 5 eexists. split; [done|]. by rewrite app_nil_r.
  - destruct (mail_deliver_rcpt w r id raw from name) as [[w1 r1] st] eqn:E. apply deliver_logged in E as (Hd & Hs & Hr).
    edestruct (IH w1 r1) as (w' & r' & prev' & s' & t' & -> & Hd' & Hr' & Hp & Ho). do 5 eexists. split; [done|].
    rewrite Hd', Hd, Hr', Hr, <- (assoc_L (++)), Hp, keep_status_some. split_and!; [done..|]. auto using keep_status_ok.
Qed.

Lemma deliver_one_spec w r prev recipient raw from :
  prev_ok prev -> (is_duplicated (rcpt_status recipient) = true -> is_Some prev) ->
  exists w' r' prev' recipient', deliver_one w r prev recipient raw from = Ok (w', r', prev', recipient') /\
    delivered w' = delivered w ++ to_each (rcpt_accounts recipient) raw /\ in_rcpt_to r' = in_rcpt_to r /\
    (is_Some prev' <-> is_Some prev) /\ prev_ok prev' /\
    rcpt_name recipient' = rcpt_name recipient /\ rcpt_status recipient' <> Duplicated.
Proof.
  intros Hp Hd. destruct recipient as [id name st|ids name st]; cbn in *; destruct (is_duplicated st); cbn.
  - destruct Hd as [m ->]; [done|]. cbn. do 4 eexists. split; [done|]. rewrite app_nil_r. split_and!; [done..|].
    cbn in *. destruct (m !! id) eqn:E; [by eapply Hp|done].
  - destruct (mail_deliver_rcpt w r id raw from name) as [[w1 r1] st1] eqn:E. apply deliver_logged in E as (Hl & Hs & Hr).
    do 4 eexists. split; [done|]. rewrite keep_status_some. split_and!; auto using keep_status_ok.
  - do 4 eexists. split; [done|]. by rewrite app_nil_r.
  - destruct (deliver_list_spec ids name raw from w r prev 0 0) as (w' & r' & prev' & s' & t' & -> & Hl & Hr & Hi & Ho).
    do 4 eexists. split; [done|]. split_and!; [done..|by apply Ho|done|]. cbn. by repeat destruct (_ <? _).
Qed.

(** Each recipient is answered. *)
Definition answers (asked answered : list RcptType) : Prop :=
  rcpt_name <$> answered = rcpt_name <$> asked /\ Forall (fun r => rcpt_status r <> Duplicated) answered.
Lemma answers_snoc l l' a r : answers l l' -> rcpt_name r = rcpt_name a -> rcpt_status r <> Duplicated -> answers (l ++ [a]) (l' ++ [r]).
Proof. intros [Hn Hs] Ha Hr. split; [by rewrite !fmap_app, Hn; cbn; rewrite Ha|]. apply Forall_app. auto. Qed.

Lemma deliver_loop_spec rcpt raw from : forall before w r prev,
  prev_ok prev -> (existsb (fun r => is_duplicated (rcpt_status r)) rcpt = true -> is_Some prev) ->
  answers before (in_rcpt_to r) ->
  exists w' r', deliver_loop w r prev rcpt raw from = Ok (w', r') /\
    delivered w' = delivered w ++ to_each (pending rcpt) raw /\ answers (before ++ rcpt) (in_rcpt_to r').
Proof.
  induction rcpt as [|a rcpt IH]; intros before w r prev Hp Hs Ha; cbn.
  - do 2 eexists. split; [done|]. by rewrite !app_nil_r.
  - cbn [existsb] in Hs. rewrite orb_true_iff in Hs.
    destruct (deliver_one_spec w r prev a raw from Hp) as (w1 & r1 & prev1 & a' & -> & Hl & Hr & Hi & Hp1 & Hn & Hst); [auto|]. cbn.
    edestruct (IH (before ++ [a]) w1 (mkIngest (in_rcpt_to r1 ++ [a']) (in_changes r1) (in_messages r1) (in_last_change_id r1)) prev1)
      as (w' & r' & -> & Hl' & Ha'); [done|rewrite Hi; auto|cbn; rewrite Hr; by apply answers_snoc|].
    do 2 eexists. split; [done|]. rewrite Hl', Hl, <- !(assoc_L (++)). split; [|by rewrite <- (assoc_L (++)) in Ha'].
    unfold to_each. by rewrite <- fmap_app.
Qed.

Lemma publish_all_logged changes : forall w, delivered (publish_all w changes) = delivered w.
Proof. induction changes as [|[a c] changes IH]; intros w; cbn; [done|]. by rewrite IH, publish_logged. Qed.
Lemma notify_all_logged ms : forall w, delivered (notify_all w ms) = delivered w.
Proof.
  induction ms as [|m ms IH]; intros w; cbn; [done|]. pose proof (notify_logged w m) as Hn.
  destruct (notify_email_delivery w m) as [w' []]; cbn in *; [by rewrite IH|done].
Qed.

(** The outcome of [mail_ingest]: it does not panic, the message was handed to
    each pending account, and each recipient has an answer. *)
Lemma mail_ingest_spec w from rcpt raw : exists w' out, mail_ingest w from rcpt raw = Ok (w', out) /\
  delivered w' = delivered w ++ match (blob_store w raw).2 with Some _ => to_each (pending rcpt) raw | None => [] end /\
  match out with inl l => answers rcpt l | inr _ => True end.
Proof.
  unfold mail_ingest, store_mail_ingest. pose proof (blob_logged w raw) as Hb.
  destruct (blob_store w raw) as [w0 [raw'|]] eqn:E; cbn in *; [|do 2 eexists; split; [done|]; by rewrite Hb, app_nil_r].
  apply blob_same in E as ->.
  destruct (deliver_loop_spec rcpt raw from [] w0 (mkIngest [] [] [] U64_MAX)
    (if existsb (fun r => is_duplicated (rcpt_status r)) rcpt then Some ∅ else None)) as (w1 & r & -> & Hl & Ha).
  - by destruct (existsb _ _).
  - intros ->. by eexists.
  - by split.
  - cbn. set (f := if negb (in_last_change_id r =? U64_MAX) && is_in_cluster w1 then _ else _).
    assert (delivered f.1 = delivered w1) as Hf by (subst f; destruct (_ && _); [apply commit_logged|done]).
    destruct f as [w2 committed]. cbn in Hf. rewrite Hb in Hl.
    destruct committed; cbn; (do 2 eexists; split; [done|]).
    + by rewrite notify_all_logged, publish_all_logged, Hf.
    + by rewrite Hf.
Qed.
End DeliveryLaws.

(** ** The recipients of a session *)

Section SessionLaws.
Context `{Unicode} `{Backend}.

(** The connection is open and the accounts seen are the pending ones, each once. *)
Definition session_ok (s : Session) : Prop :=
  stream s <> NoStream /\ NoDup (pending (rcpt_to s)) /\ forall a, a ∈ pending (rcpt_to s) <-> a ∈ rcpt_to_dup s.
Definition flow_ok (f : flow) : Prop := match f with Next s => session_ok s | _ => True end.

Lemma session_ok_fields s s' :
  stream s' = stream s -> rcpt_to s' = rcpt_to s -> rcpt_to_dup s' = rcpt_to_dup s -> session_ok s -> session_ok s'.
Proof. unfold session_ok. by intros -> -> ->. Qed.
Lemma session_ok_empty s : stream s <> NoStream -> session_ok (on_rcpt s [] ∅).
Proof. intros Hs. split_and!; [done|constructor|]. intros a. cbn. set_solver. Qed.

Lemma write_bytes_ok s b : session_ok s -> flow_ok (write_bytes s b).
Proof.
  intros Hs. unfold write_bytes. destruct (write_all (the_world s) b) as [w []], (stream s) eqn:E; try done;
    try (eapply session_ok_fields; [..|exact Hs]; done). all: by destruct Hs.
Qed.
Lemma andthen_ok f k : flow_ok f -> (forall s, session_ok s -> flow_ok (k s)) -> flow_ok (andthen f k).
Proof. destruct f; cbn; auto. Qed.

Lemma add_members_spec accounts : forall dup ids, exists new,
  (add_members dup accounts ids).2 = ids ++ new /\ NoDup new /\ (forall a, a ∈ new -> a ∉ dup) /\
  forall a, a ∈ (add_members dup accounts ids).1 <-> a ∈ dup \/ a ∈ new.
Proof.
  induction accounts as [|[id addr] accounts IH]; intros dup ids; cbn.
  - exists []. rewrite app_nil_r. split_and!; [done|constructor|set_solver..].
  - case_bool_decide as Hin; [apply IH|].
    destruct (IH ({[id]} ∪ dup) (ids ++ [id])) as (new & -> & Hnd & Hfresh & Hdup). exists (id :: new).
    rewrite <- (assoc_L (++)). split_and!; [done| | |].
    + constructor; [|done]. intros Hid. apply (Hfresh id Hid). set_solver.
    + intros a [->|Ha]%elem_of_cons; [done|]. specialize (Hfresh a Ha). set_solver.
    + intros a. rewrite Hdup, elem_of_cons. set_solver.
Qed.

(** A recipient that adds fresh accounts. *)
Lemma session_ok_add s r dup :
  session_ok s -> NoDup (rcpt_accounts r) -> (forall a, a ∈ rcpt_accounts r -> a ∉ rcpt_to_dup s) ->
  (forall a, a ∈ dup <-> a ∈ rcpt_to_dup s \/ a ∈ rcpt_accounts r) ->
  session_ok (on_rcpt s (rcpt_to s ++ [r]) dup).
Proof.
  intros (Hst & Hnd & Hiff) Hr Hf Hd. split; [done|]. cbn. unfold pending in *. rewrite bind_app. cbn. rewrite app_nil_r. split.
  - apply NoDup_app. split_and!; [done| |done]. intros a Ha Hin. by apply (Hf a), Hiff.
  - intros a. by rewrite elem_of_app, Hiff, Hd.
Qed.

Lemma handle_rcpt_ok s recipient : session_ok s -> flow_ok (handle_rcpt s recipient).
Proof.
  intros Hs. unfold handle_rcpt. destruct (expand_rcpt _ _) as [w [[id|accounts|]|]]; try by apply write_bytes_ok.
  - apply andthen_ok; [by apply write_bytes_ok|]. intros s' Hs'. apply session_ok_add; [done|..]; case_bool_decide; cbn;
      set_solver by (auto using NoDup_singleton, NoDup_nil_2).
  - apply andthen_ok; [by apply write_bytes_ok|]. intros s' Hs'.
    destruct (add_members_spec accounts (rcpt_to_dup s') []) as (new & Hn & Hnd & Hfresh & Hdup).
    destruct (add_members _ _ _) as [dup ids]. cbn in *. subst ids.
    assert (rcpt_accounts (RcptList new recipient (if bool_decide (new = []) then Duplicated else Success)) = new) as Ha
      by (cbn; by case_bool_decide).
    apply session_ok_add; [done|by rewrite Ha..].
Qed.

Lemma ingest_message_ok s : session_ok s -> flow_ok (ingest_message s).
Proof.
  intros Hs. unfold ingest_message. do 2 (case_bool_decide; [by apply write_bytes_ok|]).
  destruct (mail_from s); [|by apply write_bytes_ok]. cbv zeta.
  set (s' := on_rcpt _ _ _). assert (forall w, session_ok (on_world s' w)) as Hw
    by (intros w; apply (session_ok_fields s'); [done..|]; apply session_ok_empty; by destruct Hs).
  destruct (is_leader _).
  - destruct (mail_ingest _ _ _ _) as [[w []]| |]; [by apply write_bytes_ok..|done|done].
  - destruct (rpc_command _ _) as [w [[[]| |]|]]; by apply write_bytes_ok.
Qed.

Lemma handle_request_ok c s r : session_ok s -> flow_ok (handle_request c s r).
Proof.
  intros Hs. destruct r; cbn [handle_request].
  - apply andthen_ok; [by apply write_bytes_ok|]. intros s' Hs'. by apply (session_ok_fields s').
  - apply andthen_ok; [by apply write_bytes_ok|]. intros s' Hs'. by apply (session_ok_fields s').
  - by apply handle_rcpt_ok.
  - apply ingest_message_ok. by apply (session_ok_fields s).
  - unfold handle_bdat. destruct (_ <? _); [|by apply write_bytes_ok].
    set (s1 := if bool_decide _ then _ else _). assert (session_ok s1) as Hs1.
    { subst s1. case_bool_decide; [|done]. unfold build_return_path. destruct (local_now _). by apply (session_ok_fields s). }
    destruct is_last; [apply ingest_message_ok|apply write_bytes_ok]; by apply (session_ok_fields s1).
  - apply write_bytes_ok, session_ok_empty. by destruct Hs.
  - unfold handle_vrfy. destruct (expand_rcpt _ _) as [w [[]|]]; by apply write_bytes_ok.
  - unfold handle_expn. destruct (expand_rcpt _ _) as [w [[]|]]; by apply write_bytes_ok.
  - by apply write_bytes_ok.
  - by apply write_bytes_ok.
  - apply andthen_ok; [by apply write_bytes_ok|done].
  - unfold handle_starttls. destruct (stream s), (tls_acceptor c); try done; try by apply write_bytes_ok.
    apply andthen_ok; [by apply write_bytes_ok|]. intros s' Hs'. destruct (tls_accept _) as [w []]; [|done]. by destruct Hs'.
Qed.

Lemma handle_event_ok c s e : session_ok s -> flow_ok (default (Next s) (handle_event c s e)).
Proof.
  intros Hs. destruct e; cbn; [done| |by apply write_bytes_ok]. case_bool_decide; cbn; [by apply write_bytes_ok|].
  unfold build_return_path. destruct (local_now (the_world s)). apply write_bytes_ok. by apply (session_ok_fields s).
Qed.

Lemma feed_ok c bytes : forall s, session_ok s -> flow_ok (feed c s bytes).
Proof.
  induction bytes as [|ch bytes IH]; intros s Hs; cbn; [done|]. apply andthen_ok; [|done].
  unfold step_byte. destruct (parse_byte _ _ _) as [[p [[]|]]| |]; try done;
    [apply handle_request_ok|apply handle_event_ok]; by apply (session_ok_fields s).
Qed.
Lemma reached_ok c st w bytes s : st <> NoStream -> ingest c (session_new c st w) bytes = Next s -> session_ok s.
Proof.
  intros Hst. rewrite ingest_feed. intros Hf. pose proof (feed_ok c bytes (session_new c st w)) as Hok. rewrite Hf in Hok.
  apply Hok. apply (session_ok_empty (session_new c st w)). done.
Qed.

Lemma add_members_set accounts : forall dup ids, (add_members dup accounts ids).1 = dup ∪ list_to_set accounts.*1.
Proof.
  induction accounts as [|[id addr] accounts IH]; intros dup ids; cbn; [set_solver|].
  case_bool_decide; rewrite IH; set_solver.
Qed.
Lemma write_bytes_next s b s' : write_bytes s b = Next s' -> exists w, s' = on_world s w.
Proof. unfold write_bytes. destruct (stream s), (write_all (the_world s) b) as [w []]; intros; simplify_eq; by eexists. Qed.

(** ** What a client asked for

    The requests of a connection, each with the session that serves it, and the
    mail transaction they make up: whether there is a sender, whether a
    recipient was accepted, and the accounts that the directory gave for the
    accepted recipients. A transaction ends with [RSET] or with a message that
    is taken. *)
Fixpoint requests_of (c : SessionConfig) (s : Session) (bytes : list Z) : list (Session * Request) :=
  match bytes with
  | [] => []
  | ch :: bytes =>
      match parse_byte uppercase (parser s) ch with Ok (p, Some (inl r)) => [(on_parser s p, r)] | _ => [] end ++
      match step_byte c s ch with Next s => requests_of c s bytes | _ => [] end
  end.

Record transaction := mkTransaction { tx_sender : bool; tx_recipient : bool; tx_accounts : gset Z }.
Definition no_transaction : transaction := mkTransaction false false ∅.
(** A request that ends a message, when there is something to send. *)
Definition ends_message (c : SessionConfig) (s : Session) (r : Request) : bool :=
  match r with
  | Data data => negb (bool_decide (data = []))
  | Bdat data true => Z.of_nat (length (message s)) + Z.of_nat (length data) <? mail_max_size c
  | _ => false
  end.
Definition transact (c : SessionConfig) (tx : transaction) (sr : Session * Request) : transaction :=
  let (s, r) := sr in
  match r with
  | Mail _ _ => mkTransaction true (tx_recipient tx) (tx_accounts tx)
  | Rcpt address _ =>
      match (expand_rcpt (the_world s) address).2 with
      | Some (Individual id) => mkTransaction (tx_sender tx) true ({[id]} ∪ tx_accounts tx)
      | Some (RList members) => mkTransaction (tx_sender tx) true (list_to_set members.*1 ∪ tx_accounts tx)
      | _ => tx
      end
  | Rset => no_transaction
  | _ => if ends_message c s r && tx_sender tx && tx_recipient tx then no_transaction else tx
  end.
Definition transaction_of (c : SessionConfig) (s : Session) (bytes : list Z) : transaction :=
  fold_left (transact c) (requests_of c s bytes) no_transaction.

(** The session keeps the transaction. *)
Definition keeps_transaction (tx : transaction) (s : Session) : Prop :=
  tx_sender tx = negb (bool_decide (mail_from s = None)) /\ tx_recipient tx = negb (bool_decide (rcpt_to s = [])) /\
  tx_accounts tx = rcpt_to_dup s.
Definition flow_keeps (tx : transaction) (f : flow) : Prop := match f with Next s => keeps_transaction tx s | _ => True end.

Lemma keeps_fields tx s s' :
  mail_from s' = mail_from s -> rcpt_to s' = rcpt_to s -> rcpt_to_dup s' = rcpt_to_dup s -> keeps_transaction tx s -> keeps_transaction tx s'.
Proof. unfold keeps_transaction. by intros -> -> ->. Qed.
Lemma write_bytes_keeps tx s b : keeps_transaction tx s -> flow_keeps tx (write_bytes s b).
Proof.
  intros Hs. destruct (write_bytes s b) as [s'| |] eqn:E; [|done..]. apply write_bytes_next in E as [w ->]. by apply (keeps_fields tx s).
Qed.
Lemma andthen_keeps tx tx' f k :
  flow_keeps tx f -> (forall s, keeps_transaction tx s -> flow_keeps tx' (k s)) -> flow_keeps tx' (andthen f k).
Proof. destruct f; cbn; auto. Qed.

Lemma handle_rcpt_keeps c tx s address params :
  keeps_transaction tx s -> flow_keeps (transact c tx (s, Rcpt address params)) (handle_rcpt s address).
Proof.
  intros Hs. unfold handle_rcpt. cbn [transact]. destruct (expand_rcpt _ _) as [w [[id|members|]|]]; cbn [snd]; [..|by apply write_bytes_keeps].
  - apply (andthen_keeps tx); [by apply write_bytes_keeps|]. intros s' (Hf & _ & Ha). split; [done|].
    rewrite bool_decide_eq_false_2 by (cbn; by destruct (rcpt_to s')). split; [done|]. cbn. by rewrite Ha.
  - apply (andthen_keeps tx); [by apply write_bytes_keeps|]. intros s' (Hf & _ & Ha).
    pose proof (add_members_set members (rcpt_to_dup s') []) as Hd. destruct (add_members _ _ _) as [dup ids]. cbn in Hd. split; [done|].
    rewrite bool_decide_eq_false_2 by (cbn; by destruct (rcpt_to s')). split; [done|]. cbn. rewrite Ha, Hd. apply (comm_L (∪)).
  - by apply write_bytes_keeps.
Qed.

Lemma ingest_message_keeps tx s :
  keeps_transaction tx s ->
  flow_keeps (if negb (bool_decide (message s = [])) && tx_sender tx && tx_recipient tx then no_transaction else tx) (ingest_message s).
Proof.
  intros Hs. pose proof Hs as (Hf & Hr & Ha). rewrite Hf, Hr. unfold ingest_message.
  destruct (bool_decide (message s = [])); [by apply write_bytes_keeps|].
  destruct (bool_decide (rcpt_to s = [])); [cbn [negb]; rewrite andb_false_r; by apply write_bytes_keeps|].
  destruct (mail_from s); [|by apply write_bytes_keeps]. rewrite bool_decide_eq_false_2 by done. cbn [negb andb]. cbv zeta.
  set (s' := on_rcpt _ _ _). assert (forall w, keeps_transaction no_transaction (on_world s' w)) as Hw by done.
  destruct (is_leader _).
  - destruct (mail_ingest _ _ _ _) as [[w []]| |]; [by apply write_bytes_keeps..|done|done].
  - destruct (rpc_command _ _) as [w [[[]| |]|]]; by apply write_bytes_keeps.
Qed.

Lemma handle_bdat_keeps c tx s data is_last :
  keeps_transaction tx s -> flow_keeps (transact c tx (s, Bdat data is_last)) (handle_bdat c s data is_last).
Proof.
  intros Hs. unfold handle_bdat. cbn [transact ends_message]. destruct (_ <? _) eqn:El; [|destruct is_last; by apply write_bytes_keeps].
  set (s1 := if bool_decide _ then _ else _). assert (keeps_transaction tx s1 /\ message s1 <> []) as [Hs1 Hm].
  { subst s1. case_bool_decide; [|done]. unfold build_return_path. destruct (local_now _). split; [by apply (keeps_fields tx s)|done]. }
  destruct is_last; [|apply write_bytes_keeps; by apply (keeps_fields tx s1)].
  pose proof (ingest_message_keeps tx (on_message s1 (message s1 ++ data))) as Hi.
  rewrite bool_decide_eq_false_2 in Hi by (cbn; by destruct (message s1)). apply Hi. by apply (keeps_fields tx s1).
Qed.

Lemma handle_request_keeps c tx s r : keeps_transaction tx s -> flow_keeps (transact c tx (s, r)) (handle_request c s r).
Proof.
  intros Hs. destruct r; cbn [handle_request].
  - apply (andthen_keeps tx); [by apply write_bytes_keeps|]. intros s' Hs'. by apply (keeps_fields tx s').
  - apply (andthen_keeps tx); [by apply write_bytes_keeps|]. by intros s' (_ & Hr & Ha).
  - by apply handle_rcpt_keeps.
  - apply (ingest_message_keeps tx (on_message s data)). by apply (keeps_fields tx s).
  - by apply handle_bdat_keeps.
  - by apply write_bytes_keeps.
  - unfold handle_vrfy. destruct (expand_rcpt _ _) as [w [[]|]]; by apply write_bytes_keeps.
  - unfold handle_expn. destruct (expand_rcpt _ _) as [w [[]|]]; by apply write_bytes_keeps.
  - by apply write_bytes_keeps.
  - by apply write_bytes_keeps.
  - apply (andthen_keeps tx); [by apply write_bytes_keeps|done].
  - unfold handle_starttls. destruct (stream s), (tls_acceptor c); try done; try by apply write_bytes_keeps.
    apply (andthen_keeps tx); [by apply write_bytes_keeps|]. intros s' Hs'. destruct (tls_accept _) as [w []]; [|done]. by apply (keeps_fields tx s').
Qed.

Lemma handle_event_keeps c tx s e : keeps_transaction tx s -> flow_keeps tx (default (Next s) (handle_event c s e)).
Proof.
  intros Hs. destruct e; cbn; [done| |by apply write_bytes_keeps]. case_bool_decide; cbn; [by apply write_bytes_keeps|].
  unfold build_return_path. destruct (local_now (the_world s)). apply write_bytes_keeps. by apply (keeps_fields tx s).
Qed.

Lemma feed_keeps c bytes : forall tx s,
  keeps_transaction tx s -> flow_keeps (fold_left (transact c) (requests_of c s bytes) tx) (feed c s bytes).
Proof.
  induction bytes as [|ch bytes IH]; intros tx s Hs; cbn [feed requests_of]; [done|]. rewrite fold_left_app.
  set (tx1 := fold_left _ (match parse_byte _ _ _ with Ok _ => _ | _ => _ end) tx).
  assert (flow_keeps tx1 (step_byte c s ch)) as H1.
  { subst tx1. unfold step_byte. destruct (parse_byte _ _ _) as [[p [[]|]]| |]; try done.
    - apply handle_request_keeps. by apply (keeps_fields tx s).
    - apply handle_event_keeps. by apply (keeps_fields tx s). }
  destruct (step_byte c s ch) as [s1| |]; [|done..]. by apply IH.
Qed.
End SessionLaws.


(** LMTP answers for every recipient: when [mail_ingest] succeeds, it
    returns the recipients it was given, in order, each with a final status,
    so that [ingest_message] writes exactly one status line for each of
    them; it never panics, whichever recipients are marked as duplicates. *)
Theorem every_recipient_answered `{DeliveryLog} w from rcpt raw : exists w' out,
  mail_ingest w from rcpt raw = Ok (w', out) /\
  match out with
  | inl l => rcpt_name <$> l = rcpt_name <$> rcpt /\ Forall (fun r => status_line r <> []) l
  | inr err => err <> []
  end.
Proof.
  destruct (mail_ingest_spec w from rcpt raw) as (w' & out & E & _ & Ha). exists w', out. split; [done|].
  destruct out as [l|err].
  - destruct Ha as [Hn Hs]. split; [done|]. eapply Forall_impl; [exact Hs|]. intros r Hr. cbn beta in Hr. unfold status_line. destruct (rcpt_status r); [cbn; discriminate..|done].
  - unfold mail_ingest in E. destruct (store_mail_ingest _ _ _ _) as [[w1 [st|]]| |]; cbn in E; [|by simplify_eq|done|done].
    destruct (if negb _ && _ then _ else (w1, true)) as [w2 []]; by simplify_eq/=.
Qed.

(** ** A server to try the definitions on *)

Module LmtpSample.
Import AsciiText.
(** Bytes written and deliveries made. *)
Record log : Type := mkLog { lg_out : list (list Z); lg_delivered : list (Z * list Z) }.
(** [jane] and [bill] have mailboxes, [team] is a list of both and [empty] a
    list without members. *)
Definition directory (email : list Z) : RecipientType :=
  if bool_decide (email = chars "jane@example.org") then Individual 1
  else if bool_decide (email = chars "j.doe@example.org") then Individual 1
  else if bool_decide (email = chars "bill@example.org") then Individual 2
  else if bool_decide (email = chars "team@example.org") then RList [(1, chars "jane@example.org"); (2, chars "bill@example.org")]
  else if bool_decide (email = chars "empty@example.org") then RList []
  else NotFound.
#[export] Instance backend : Backend := {|
  world := log;
  write_all w b := (mkLog (lg_out w ++ [b]) (lg_delivered w), true);
  tls_accept w := (w, true);
  local_now w := (w, chars "now");
  is_leader _ := true;
  is_up_to_date _ := true;
  is_in_cluster _ := false;
  rpc_command w _ := (w, None);
  store_expand_rcpt w email := (w, Some (directory email));
  blob_store w raw := (w, Some raw);
  mail_deliver_rcpt w r id raw from to := (mkLog (lg_out w) (lg_delivered w ++ [(id, raw)]), r, Success);
  commit_index w _ := (w, true);
  publish_state_change w _ _ := (w, true);
  notify_email_delivery w _ := (w, true);
  uppercase := id
|}.
#[export] Instance delivery_log : DeliveryLog.
Proof. refine (Build_DeliveryLog _ (lg_delivered : world -> _) _ _ _ _ _ _ _); try done; intros; by simplify_eq/=. Defined.

Definition config : SessionConfig := mkConfig (chars "mx") (chars "::1") true 200.
Definition start : Session := session_new config Clear (mkLog [] []).
Definition line (text : string) : list Z := chars text ++ CRLF.
Definition lmtp_run (bytes : list Z) : flow := ingest config start bytes.
Definition received (m : string) : list Z :=
  line "Received: from unknown ([mx])" ++ [9] ++ line "by ::1 (Stalwart JMAP) with LMTP;" ++ [9] ++ line "now" ++ chars m.
Definition deliveries (f : flow) : list (Z * list Z) := match f with Next s | Closed s => lg_delivered (the_world s) | Crashed => [] end.

Example sample_run : deliveries (lmtp_run (line "LHLO here" ++ line "MAIL FROM:<a@b.org>" ++ line "RCPT TO:<team@example.org>"
    ++ line "RCPT TO:<J.Doe@example.org>" ++ line "DATA" ++ chars "x"  ++ end_of_data))
  = [(1, line "Received: from here ([mx])" ++ [9] ++ line "by ::1 (Stalwart JMAP) with LMTP;" ++ [9] ++ line "now" ++ chars "x");
     (2, line "Received: from here ([mx])" ++ [9] ++ line "by ::1 (Stalwart JMAP) with LMTP;" ++ [9] ++ line "now" ++ chars "x")].
Proof. vm_compute. reflexivity. Qed.
End LmtpSample.
Import AsciiText LmtpSample.

Definition session0 (bytes : list Z) : Session := match lmtp_run bytes with Next s | Closed s => s | Crashed => start end.
Definition conversation : list Z :=
  line "MAIL FROM:<a@b.org>" ++ line "RCPT TO:<team@example.org>" ++ line "RCPT TO:<bill@example.org>".

(** A rejected message leaks into the next one: chunks that were answered
    with "Missing MAIL FROM" (or "Missing RCPT TO") stay in the session, and
    the next message sent in chunks is delivered with the rejected bytes in
    front of it. *)
Theorem rejected_chunks_leak :
  deliveries (lmtp_run (line "RCPT TO:<bill@example.org>" ++ line "BDAT 6 LAST" ++ chars "secret"
    ++ line "MAIL FROM:<a@b.org>" ++ line "RCPT TO:<jane@example.org>" ++ line "BDAT 5 LAST" ++ chars "hello"))
  = [(2, received "secrethello"); (1, received "secrethello")].
Proof. vm_compute. reflexivity. Qed.

(** A list without members counts as a duplicate: the message is answered as
    delivered and handed to nobody. *)
Theorem empty_list_loses_message : exists s,
  lmtp_run (line "MAIL FROM:<a@b.org>" ++ line "RCPT TO:<empty@example.org>" ++ line "BDAT 1 LAST" ++ chars "x") = Next s /\
  lg_delivered (the_world s) = [] /\ last (lg_out (the_world s)) = Some (line "250 2.1.5 <empty@example.org> delivered").
Proof. eexists. vm_compute. auto. Qed.

(** DATA without recipients is refused, but what follows is read as a message:
    the client's QUIT is not seen. *)
Theorem refused_data_swallows : exists s,
  lmtp_run (line "DATA" ++ line "QUIT") = Next s /\ lg_out (the_world s) = [line "503 5.5.1 Missing RCPT TO."] /\
  state (parser s) = InData DCrLf.
Proof. eexists. vm_compute. auto. Qed.

(** Commands received in the clear behind STARTTLS are run inside the TLS session. *)
Theorem starttls_injection : exists s,
  lmtp_run (line "STARTTLS" ++ line "MAIL FROM:<eve@evil.org>") = Next s /\ stream s = Tls /\ mail_from s = Some (chars "eve@evil.org").
Proof. eexists. vm_compute. auto. Qed.

(** A command line whose only word is not UTF-8 panics the session. *)
Theorem invalid_utf8_panics : lmtp_run ([0xFF; 32] ++ CRLF) = Crashed.
Proof. vm_compute. reflexivity. Qed.

(** A first line that starts with a dot is not unstuffed, and a lone dot
    does not end an empty message. *)
Theorem first_line_dot : exists p,
  parse id (set_state (parser_new 10 10) (InData DNone)) (dot_stuff LineStart [DOT] ++ end_of_data) = Ok (p, [], inl (Data [DOT; DOT])) /\
  parse id (set_state (parser_new 10 10) (InData DNone)) ([DOT] ++ CRLF) <> Ok (p, [], inl (Data [])).
Proof. eexists. vm_compute. split; [reflexivity|discriminate]. Qed.
