(* ===== verification/JmapDate.v ===== *)
(** * Dates: components/jmap/src/types/date.rs

    JMAP dates are read from and printed as RFC 3339 text, and converted from
    and to seconds since the epoch with day-count formulas. The formulas are
    checked against a calendar defined by the lengths of the months. *)

From Stdlib Require Import String Ascii.
From S2P Require Import Prelude Lang.
#[local] Open Scope Z_scope.

Record JMAPDate : Set := mkDate {
  year : Z; month : Z; day : Z; hour : Z; minute : Z; second : Z; tz_before_gmt : bool; tz_hour : Z; tz_minute : Z }.

(** ** Text *)

(** The state of the parser: the part being read, the parts, the digits
    missing in each, and the two flags. *)
Record date_parser : Set := mkDateParser {
  dp_pos : nat; dp_parts : list Z; dp_sizes : list Z; dp_skip : bool; dp_plus : bool }.
Definition date_start : date_parser := mkDateParser 0 [0; 0; 0; 0; 0; 0; 0; 0] [4; 2; 2; 2; 2; 2; 2; 2] false true.

Definition is_digit (ch : Z) : bool := (48 <=? ch) && (ch <=? 57).
Definition date_advance (p : date_parser) (skip plus : bool) : date_parser :=
  mkDateParser (S (dp_pos p)) (dp_parts p) (dp_sizes p) skip plus.
Definition date_step (p : date_parser) (ch : Z) : option date_parser :=
  let pos := dp_pos p in
  if is_digit ch && negb (dp_skip p) then
    let size := nth pos (dp_sizes p) 0 in
    if 0 <? size then
      Some (mkDateParser pos (<[pos := u32 (nth pos (dp_parts p) 0 + (ch - 48) * 10 ^ (size - 1))]> (dp_parts p))
              (<[pos := size - 1]> (dp_sizes p)) (dp_skip p) (dp_plus p))
    else None
  else if ch =? 45 then
    if (pos <=? 1)%nat then Some (date_advance p (dp_skip p) (dp_plus p))
    else if (pos =? 5)%nat then Some (date_advance p false false)
    else None
  else if ch =? 84 then if (pos =? 2)%nat then Some (date_advance p (dp_skip p) (dp_plus p)) else None
  else if ch =? 58 then
    if (pos =? 3)%nat || (pos =? 4)%nat || (pos =? 6)%nat then Some (date_advance p (dp_skip p) (dp_plus p)) else None
  else if ch =? 43 then if (pos =? 5)%nat then Some (date_advance p false (dp_plus p)) else None
  else if ch =? 46 then
    if (pos =? 5)%nat then Some (mkDateParser pos (dp_parts p) (dp_sizes p) true (dp_plus p)) else None
  else Some p.
Fixpoint date_loop (p : date_parser) (value : list Z) : option date_parser :=
  match value with [] => Some p | ch :: value => p ← date_step p ch; date_loop p value end.
Definition date_of (p : date_parser) : JMAPDate :=
  let part i := nth i (dp_parts p) 0 in
  mkDate (wrap 16 (part 0%nat)) (u8 (part 1%nat)) (u8 (part 2%nat)) (u8 (part 3%nat)) (u8 (part 4%nat)) (u8 (part 5%nat))
    (negb (dp_plus p)) (u8 (part 6%nat)) (u8 (part 7%nat)).
Definition date_parse (value : list Z) : option JMAPDate :=
  p ← date_loop date_start value;
  if (5 <=? dp_pos p)%nat then Some (date_of p) else None.

(** [{:02}] of a byte and [{:04}] of 16 bits. *)
Definition digits2 (n : Z) : list Z := [48 + n / 10; 48 + n mod 10].
Definition digits4 (n : Z) : list Z := digits2 (n / 100) ++ digits2 (n mod 100).
Definition pad2 (n : Z) : list Z := if n <? 100 then digits2 n else (48 + n / 100) :: digits2 (n mod 100).
Definition pad4 (n : Z) : list Z := if n <? 10000 then digits4 n else (48 + n / 10000) :: digits4 (n mod 10000).
Definition date_time (d : JMAPDate) : list Z :=
  pad4 (year d) ++ [45] ++ pad2 (month d) ++ [45] ++ pad2 (day d) ++ [84] ++
  pad2 (hour d) ++ [58] ++ pad2 (minute d) ++ [58] ++ pad2 (second d).
Definition date_zone (d : JMAPDate) : list Z :=
  if negb (tz_hour d =? 0) || negb (tz_minute d =? 0) then
    (if tz_before_gmt d && ((0 <? tz_hour d) || (0 <? tz_minute d)) then [45] else [43]) ++ pad2 (tz_hour d) ++ [58] ++ pad2 (tz_minute d)
  else [90].
Definition date_fmt (d : JMAPDate) : list Z := date_time d ++ date_zone d.

(** ** Seconds since the epoch *)

(** Signed 64-bit division of Rust truncates: [Z.quot] and [Z.rem]. *)
Definition civil (z : Z) : Z * Z * Z :=
  let era := Z.quot (if 0 <=? z then z else z - 146096) 146097 in
  let doe := z - era * 146097 in
  let yoe := (doe - doe / 1460 + doe / 36524 - doe / 146096) / 365 in
  let y := yoe + era * 400 in
  let doy := doe - (365 * yoe + yoe / 4 - yoe / 100) in
  let mp := (5 * doy + 2) / 153 in
  let d := doy - (153 * mp + 2) / 5 + 1 in
  let m := if mp <? 10 then mp + 3 else mp - 9 in
  (y + (if m <=? 2 then 1 else 0), m, d).
Definition from_timestamp (timestamp : Z) : JMAPDate :=
  let z := Z.quot timestamp 86400 + 719468 in
  let seconds := Z.rem timestamp 86400 in
  let '(y, m, d) := civil z in
  mkDate (wrap 16 y) (u8 m) (u8 d) (u8 (Z.quot seconds 3600)) (u8 (Z.rem (Z.quot seconds 60) 60)) (u8 (Z.rem seconds 60)) false 0 0.

Definition is_valid (d : JMAPDate) : bool :=
  (tz_hour d <=? 23) && (1970 <=? year d) && (year d <=? 3000) && (tz_minute d <=? 59) &&
  (1 <=? month d) && (month d <=? 12) && (1 <=? day d) && (day d <=? 31) &&
  (hour d <=? 23) && (minute d <=? 59) && (second d <=? 59).

Definition timestamp (d : JMAPDate) : Z :=
  let year_base := 4800 in
  let m_adj := u32 (month d - 3) in
  let carry := if month d <? m_adj then 1 else 0 in
  let adjust := if 0 <? carry then 12 else 0 in
  let y_adj := year d + year_base - carry in
  let month_days := u32 (u32 (m_adj + adjust) * 62719 + 769) / 2048 in
  let leap_days := Z.quot y_adj 4 - Z.quot y_adj 100 + Z.quot y_adj 400 in
  (y_adj * 365 + leap_days + month_days + (day d - 1) - 2472632) * 86400
  + hour d * 3600 + minute d * 60 + second d
  + (tz_hour d * 3600 + tz_minute d * 60) * (if tz_before_gmt d then 1 else -1).

(** ** The calendar *)

Definition is_leap (y : Z) : bool := (y mod 4 =? 0) && (negb (y mod 100 =? 0) || (y mod 400 =? 0)).
Definition days_in_month (y m : Z) : Z :=
  if m =? 2 then if is_leap y then 29 else 28
  else if (m =? 4) || (m =? 6) || (m =? 9) || (m =? 11) then 30 else 31.
Definition next_day (date : Z * Z * Z) : Z * Z * Z :=
  let '(y, m, d) := date in
  if d <? days_in_month y m then (y, m, d + 1) else if m <? 12 then (y, m + 1, 1) else (y + 1, 1, 1).
Definition calendar_day (y m d : Z) : Prop := 1 <= m <= 12 /\ 1 <= d <= days_in_month y m.

(** ** Counting days

    Years are counted from March, so that the leap day is the last one. *)

Definition year_start (y : Z) : Z := 365 * y + y / 4 - y / 100 + y / 400.
Definition month_start (mp : Z) : Z := (153 * mp + 2) / 5.
Definition march_year (y m : Z) : Z := if m <=? 2 then y - 1 else y.
Definition march_month (m : Z) : Z := if m <=? 2 then m + 9 else m - 3.
(** The number of a date in a calendar that starts in March of the year 0. *)
Definition day_number (y m d : Z) : Z := year_start (march_year y m) + month_start (march_month m) + d - 1.

Ltac euclid := Z.to_euclidean_division_equations; lia.

Lemma year_start_mono y y' : y <= y' -> year_start y <= year_start y'.
Proof. unfold year_start. intros. euclid. Qed.
Lemma year_start_cycle y k : year_start (y + 400 * k) = year_start y + 146097 * k.
Proof. unfold year_start. euclid. Qed.
Lemma year_length y : year_start (y + 1) = year_start y + 365 + (if is_leap (y + 1) then 1 else 0).
Proof.
  unfold year_start, is_leap.
  destruct (Z.eqb_spec ((y + 1) mod 4) 0), (Z.eqb_spec ((y + 1) mod 100) 0), (Z.eqb_spec ((y + 1) mod 400) 0); cbn; euclid.
Qed.

(** Months by their number from March. *)
Definition month_check (m : Z) : bool :=
  let mp := march_month m in
  (0 <=? mp) && (mp <=? 11) &&
  (if m =? 2 then month_start mp =? 337 else month_start (mp + 1) =? month_start mp + days_in_month 1 m) &&
  ((u32 (u32 (u32 (m - 3) + (if m <? u32 (m - 3) then 12 else 0)) * 62719 + 769)) / 2048 =? month_start mp) &&
  ((if m <? u32 (m - 3) then 1 else 0) =? (if m <=? 2 then 1 else 0)) &&
  (m =? if mp <? 10 then mp + 3 else mp - 9).
Lemma month_checks m : 1 <= m <= 12 -> month_check m = true.
Proof.
  intros. assert (forallb month_check [1; 2; 3; 4; 5; 6; 7; 8; 9; 10; 11; 12] = true) as Hall by (vm_compute; reflexivity).
  rewrite forallb_forall in Hall. apply Hall. cbn. lia.
Qed.
Lemma march_month_range m : 1 <= m <= 12 -> 0 <= march_month m <= 11.
Proof. unfold march_month. intros. destruct (Z.leb_spec m 2); lia. Qed.
Lemma march_month_inj m m' : 1 <= m <= 12 -> 1 <= m' <= 12 -> march_month m = march_month m' -> m = m'.
Proof. unfold march_month. intros. destruct (Z.leb_spec m 2), (Z.leb_spec m' 2); lia. Qed.
Lemma month_start_mono mp mp' : mp <= mp' -> month_start mp <= month_start mp'.
Proof. unfold month_start. intros. euclid. Qed.
Lemma month_end y m : 1 <= m <= 12 -> m <> 2 -> month_start (march_month m + 1) = month_start (march_month m) + days_in_month y m.
Proof.
  intros Hm H2. assert (days_in_month y m = days_in_month 1 m) as -> by (unfold days_in_month; by rewrite (proj2 (Z.eqb_neq m 2))).
  pose proof (month_checks m Hm) as Hc. unfold month_check in Hc. rewrite (proj2 (Z.eqb_neq m 2)) in Hc by done. lia.
Qed.

(** A day belongs to the year and the month it is counted in. *)
Lemma day_in_month y m d : calendar_day y m d ->
  month_start (march_month m) <= month_start (march_month m) + d - 1 /\
  (march_month m < 11 -> month_start (march_month m) + d - 1 < month_start (march_month m + 1)) /\
  month_start (march_month m) + d - 1 < year_start (march_year y m + 1) - year_start (march_year y m).
Proof.
  intros (Hm & Hd). split; [lia|]. rewrite year_length. destruct (Z.eq_dec m 2) as [->|H2].
  - change (march_month 2) with 11. change (march_year y 2) with (y - 1). change (days_in_month y 2) with (if is_leap y then 29 else 28) in Hd.
    change (month_start 11) with 337. replace (y - 1 + 1) with y by lia. destruct (is_leap y); lia.
  - pose proof (month_end y m Hm H2). split; [lia|].
    assert (march_month m <= 10) by (unfold march_month; destruct (Z.leb_spec m 2); lia).
    pose proof (month_start_mono (march_month m + 1) 11 ltac:(lia)) as Hs. change (month_start 11) with 337 in Hs. destruct (is_leap _); lia.
Qed.

Lemma interval_unique (f : Z -> Z) a b n :
  (forall x y, x <= y -> f x <= f y) -> f a <= n < f (a + 1) -> f b <= n < f (b + 1) -> a = b.
Proof.
  intros Hf Ha Hb. destruct (Z.lt_trichotomy a b) as [Hlt|[->|Hlt]]; [|done|].
  - specialize (Hf (a + 1) b ltac:(lia)). lia.
  - specialize (Hf (b + 1) a ltac:(lia)). lia.
Qed.

Lemma day_number_inj y m d y' m' d' :
  calendar_day y m d -> calendar_day y' m' d' -> day_number y m d = day_number y' m' d' -> (y, m, d) = (y', m', d').
Proof.
  unfold day_number. intros Hc Hc' Heq. destruct (day_in_month _ _ _ Hc) as (H1 & H2 & H3), (day_in_month _ _ _ Hc') as (H1' & H2' & H3').
  destruct Hc as [Hm Hd], Hc' as [Hm' Hd']. pose proof (march_month_range m Hm). pose proof (march_month_range m' Hm').
  assert (0 <= month_start (march_month m) /\ 0 <= month_start (march_month m')) as [? ?].
  { split; (etrans; [|apply (month_start_mono 0); lia]); done. }
  assert (march_year y m = march_year y' m') as Hy.
  { apply (interval_unique year_start _ _ (day_number y m d)); [apply year_start_mono|unfold day_number; lia..]. }
  rewrite Hy in Heq. assert (month_start (march_month m) + d = month_start (march_month m') + d') as Hmd by lia.
  assert (march_month m = march_month m') as Hmm.
  { destruct (Z.lt_trichotomy (march_month m) (march_month m')) as [Hlt|[->|Hlt]]; [|done|].
    - pose proof (month_start_mono (march_month m + 1) (march_month m') ltac:(lia)). lia.
    - pose proof (month_start_mono (march_month m' + 1) (march_month m) ltac:(lia)). lia. }
  rewrite Hmm in Hmd. apply march_month_inj in Hmm as ->; [|done..]. unfold march_year in Hy. destruct (m' <=? 2); repeat f_equal; lia.
Qed.

(** The year of a day of the cycle. *)
Definition year_of_era (doe : Z) : Z := (doe - doe / 1460 + doe / 36524 - doe / 146096) / 365.
Definition year_check (y : Z) : bool := (year_of_era (year_start y) =? y) && (year_of_era (year_start (y + 1) - 1) =? y).
Lemma year_checks y : 0 <= y < 400 -> year_check y = true.
Proof.
  intros. assert (forallb year_check (seqZ 0 400) = true) as Hall by (vm_compute; reflexivity).
  rewrite forallb_forall in Hall. apply Hall. apply list_elem_of_In, elem_of_seqZ. lia.
Qed.
Lemma year_of_era_mono a b : 0 <= a -> a <= b -> b < 146097 -> year_of_era a <= year_of_era b.
Proof.
  intros. unfold year_of_era. apply Z.div_le_mono; [lia|].
  assert (b / 1460 - a / 1460 <= b - a) by euclid. destruct (Z.eq_dec b 146096) as [->|].
  - change (146096 / 1460) with 100 in *. change (146096 / 36524) with 4. change (146096 / 146096) with 1.
    destruct (Z.eq_dec a 146096) as [->|]; [done|]. replace (a / 146096) with 0 by euclid. euclid.
  - replace (b / 146096) with 0 by euclid. replace (a / 146096) with 0 by euclid. assert (a / 36524 <= b / 36524) by euclid. lia.
Qed.
Lemma year_exists doe : forall n : nat, 0 <= doe < year_start (Z.of_nat n) -> exists y, 0 <= y < Z.of_nat n /\ year_start y <= doe < year_start (y + 1).
Proof.
  induction n as [|n IH]; intros Hd; [change (year_start (Z.of_nat 0)) with 0 in Hd; lia|]. destruct (Z_lt_le_dec doe (year_start (Z.of_nat n))) as [Hlt|Hge].
  - destruct IH as (y & Hy & ?); [lia|]. exists y. split; [lia|done].
  - exists (Z.of_nat n). split; [lia|]. replace (Z.of_nat n + 1) with (Z.of_nat (S n)) by lia. lia.
Qed.
Lemma year_of_era_spec doe : 0 <= doe < 146097 ->
  0 <= year_of_era doe < 400 /\ year_start (year_of_era doe) <= doe < year_start (year_of_era doe + 1).
Proof.
  intros Hd. destruct (year_exists doe 400) as (y & Hy & Hs); [change (year_start (Z.of_nat 400)) with 146097; lia|].
  assert (year_of_era doe = y) as ->; [|by split].
  pose proof (year_checks y ltac:(lia)) as Hc. unfold year_check in Hc.
  assert (0 <= year_start y) by (pose proof (year_start_mono 0 y ltac:(lia)) as H0; change (year_start 0) with 0 in H0; lia).
  pose proof (year_of_era_mono (year_start y) doe). pose proof (year_of_era_mono doe (year_start (y + 1) - 1)).
  assert (year_start (y + 1) <= 146097) by (change 146097 with (year_start 400); apply year_start_mono; lia). lia.
Qed.

(** The month and day of a day of the year. *)
Definition month_of (doy : Z) : Z := (5 * doy + 2) / 153.
Lemma month_of_spec doy : 0 <= doy <= 365 ->
  0 <= month_of doy <= 11 /\ month_start (month_of doy) <= doy /\ (month_of doy < 11 -> doy < month_start (month_of doy + 1)).
Proof. unfold month_of, month_start. intros. split_and!; euclid. Qed.

Lemma floor_era z : Z.quot (if 0 <=? z then z else z - 146096) 146097 = z / 146097.
Proof. destruct (Z.leb_spec 0 z); euclid. Qed.

Lemma civil_spec z : let '(y, m, d) := civil z in calendar_day y m d /\ day_number y m d = z.
Proof.
  unfold civil. rewrite floor_era. cbv zeta.
  set (era := z / 146097). set (doe := z - era * 146097).
  assert (0 <= doe < 146097) as Hdoe by (subst doe era; euclid).
  change ((doe - doe / 1460 + doe / 36524 - doe / 146096) / 365) with (year_of_era doe).
  destruct (year_of_era_spec doe Hdoe) as (Hyoe & Hs). set (yoe := year_of_era doe) in *. clearbody yoe.
  replace (365 * yoe + yoe / 4 - yoe / 100) with (year_start yoe) by (unfold year_start; rewrite (Z.div_small yoe 400); lia).
  set (doy := doe - year_start yoe). change ((5 * doy + 2) / 153) with (month_of doy).
  rewrite year_length in Hs.
  destruct (month_of_spec doy) as (Hmp & Hlo & Hhi); [subst doy; destruct (is_leap _); lia|]. set (mp := month_of doy) in *. clearbody mp.
  change ((153 * mp + 2) / 5) with (month_start mp).
  set (m := if mp <? 10 then mp + 3 else mp - 9).
  assert (1 <= m <= 12 /\ march_month m = mp) as [Hm Hmm].
  { subst m. unfold march_month. destruct (Z.ltb_spec mp 10); [destruct (Z.leb_spec (mp + 3) 2)|destruct (Z.leb_spec (mp - 9) 2)]; lia. }
  set (y := yoe + era * 400 + (if m <=? 2 then 1 else 0)).
  assert (march_year y m = yoe + 400 * era) as Hy by (subst y; unfold march_year; destruct (m <=? 2); lia).
  split.
  - split; [done|]. split; [lia|]. destruct (Z.eq_dec m 2) as [E2|E2].
    + assert (mp = 11) as -> by (rewrite E2 in Hmm; done). change (month_start 11) with 337 in *.
      assert (is_leap y = is_leap (yoe + 1)) as Hleap.
      { replace y with (yoe + 1 + 4 * (100 * era)) by (rewrite E2 in Hy; unfold march_year in Hy; cbn in Hy; lia).
        unfold is_leap. repeat match goal with |- context [(?a + 4 * (100 * era)) mod ?k] =>
          replace ((a + 4 * (100 * era)) mod k) with (a mod k) by (clear; euclid) end. done. }
      rewrite E2. unfold days_in_month. cbn. rewrite Hleap. destruct (is_leap (yoe + 1)); lia.
    + pose proof (month_end y m Hm E2) as He. rewrite Hmm in He.
      assert (mp < 11) by (rewrite <- Hmm; unfold march_month; destruct (Z.leb_spec m 2); lia). lia.
  - unfold day_number. rewrite Hy, Hmm, year_start_cycle. lia.
Qed.

Lemma next_day_spec y m d : calendar_day y m d ->
  let '(y', m', d') := next_day (y, m, d) in calendar_day y' m' d' /\ day_number y' m' d' = day_number y m d + 1.
Proof.
  intros (Hm & Hd). unfold next_day. destruct (Z.ltb_spec d (days_in_month y m)).
  { split; [split; lia|]. unfold day_number. lia. }
  assert (forall y m, 28 <= days_in_month y m) as Hlen.
  { intros y0 m0. unfold days_in_month. repeat (match goal with |- context [if ?b then _ else _] => destruct b end); lia. }
  destruct (Z.ltb_spec m 12).
  - split; [split; [lia|]; pose proof (Hlen y (m + 1)); lia|].
    unfold day_number. destruct (Z.eq_dec m 2) as [->|E2].
    + change (march_month (2 + 1)) with 0. change (march_month 2) with 11. change (march_year y 2) with (y - 1). change (march_year y (2 + 1)) with y.
      pose proof (year_length (y - 1)) as Hy. replace (y - 1 + 1) with y in Hy by lia. change (month_start 0) with 0. change (month_start 11) with 337.
      change (days_in_month y 2) with (if is_leap y then 29 else 28) in *. destruct (is_leap y); lia.
    + pose proof (month_end y m Hm E2). unfold march_year, march_month in *. destruct (Z.leb_spec m 2), (Z.leb_spec (m + 1) 2); try lia.
      all: replace (m + 1 + 9) with (m + 9 + 1) by lia; replace (m + 1 - 3) with (m - 3 + 1) by lia; lia.
  - assert (m = 12) as -> by lia. split; [split; [lia|]; pose proof (Hlen (y + 1) 1); lia|].
    unfold day_number. change (march_month 1) with 10. change (march_month 12) with 9. change (days_in_month y 12) with 31 in *.
    change (march_year (y + 1) 1) with (y + 1 - 1). change (march_year y 12) with y. replace (y + 1 - 1) with y by lia.
    change (month_start 10) with 306. change (month_start 9) with 275. lia.
Qed.

(** ** Timestamps *)

(** The first second of the year 65536, which the year of a date cannot hold. *)
Definition MAX_TIMESTAMP : Z := 2005949145600.
Definition civil_day (d : JMAPDate) : Z * Z * Z := (year d, month d, day d).
Definition seconds_of_day (d : JMAPDate) : Z := hour d * 3600 + minute d * 60 + second d.
Definition real_date (d : JMAPDate) : Prop :=
  1970 <= year d < 65536 /\ calendar_day (year d) (month d) (day d) /\
  0 <= hour d < 24 /\ 0 <= minute d < 60 /\ 0 <= second d < 60.

Lemma timestamp_days d : 0 <= year d -> 1 <= month d <= 12 ->
  timestamp d = (day_number (year d) (month d) (day d) - 719468) * 86400 + seconds_of_day d
    + (tz_hour d * 3600 + tz_minute d * 60) * (if tz_before_gmt d then 1 else -1).
Proof.
  intros Hy Hm. pose proof (month_checks _ Hm) as Hc. unfold month_check in Hc. unfold timestamp, seconds_of_day, day_number. cbv zeta.
  assert ((if 0 <? (if month d <? u32 (month d - 3) then 1 else 0) then 12 else 0) = (if month d <? u32 (month d - 3) then 12 else 0)) as ->
    by (by destruct (_ <? u32 _)).
  assert (u32 (u32 (u32 (month d - 3) + (if month d <? u32 (month d - 3) then 12 else 0)) * 62719 + 769) / 2048 = month_start (march_month (month d))) as ->
    by lia.
  assert ((if month d <? u32 (month d - 3) then 1 else 0) = (if month d <=? 2 then 1 else 0)) as -> by lia.
  assert (year d + 4800 - (if month d <=? 2 then 1 else 0) = march_year (year d) (month d) + 4800) as ->
    by (unfold march_year; destruct (month d <=? 2); lia).
  assert (-1 <= march_year (year d) (month d)) by (unfold march_year; destruct (month d <=? 2); lia).
  rewrite !Z.quot_div_nonneg by lia. unfold year_start. clear Hc. euclid.
Qed.

Lemma month_range_byte y m d : calendar_day y m d -> fits 8 m /\ fits 8 d.
Proof.
  intros [Hm Hd]. assert (days_in_month y m <= 31).
  { unfold days_in_month. repeat (match goal with |- context [if ?b then _ else _] => destruct b end); lia. }
  unfold fits. lia.
Qed.
Lemma day_number_mono y m d y' m' d' : calendar_day y m d -> calendar_day y' m' d' -> y < y' -> day_number y m d < day_number y' m' d'.
Proof.
  intros Hc Hc' Hlt. unfold day_number.
  destruct (day_in_month _ _ _ Hc) as (H1 & H2 & H3), (day_in_month _ _ _ Hc') as (H1' & H2' & H3').
  destruct (Z.le_gt_cases (march_year y m + 1) (march_year y' m')) as [Hle|Hgt].
  - pose proof (year_start_mono _ _ Hle). pose proof (month_start_mono 0 (march_month m') ltac:(pose proof (march_month_range m' ltac:(apply Hc')); lia)) as H0.
    change (month_start 0) with 0 in H0. lia.
  - destruct Hc as [Hm _], Hc' as [Hm' _]. unfold march_year, march_month in *. destruct (Z.leb_spec m 2), (Z.leb_spec m' 2); try lia.
    replace (y' - 1) with y in * by lia. specialize (H2 ltac:(lia)).
    pose proof (month_start_mono (m - 3 + 1) (m' + 9) ltac:(lia)). lia.
Qed.

Lemma first_day y m d : calendar_day y m d -> day_number y 1 1 <= day_number y m d.
Proof.
  intros [Hm Hd]. pose proof (march_month_range m Hm). unfold day_number, march_year, march_month in *. cbn [Z.leb Z.compare Pos.compare Pos.compare_cont].
  destruct (Z.leb_spec m 2).
  - pose proof (month_start_mono (1 + 9) (m + 9) ltac:(lia)). lia.
  - pose proof (year_length (y - 1)) as Hl. replace (y - 1 + 1) with y in Hl by lia. change (month_start (1 + 9)) with 306.
    pose proof (month_start_mono 0 (m - 3) ltac:(lia)) as Hms0. change (month_start 0) with 0 in Hms0. destruct (is_leap y); lia.
Qed.
Lemma day_range y m d : calendar_day y m d -> (1970 <= y < 65536 <-> 719468 <= day_number y m d < 23936472).
Proof.
  intros Hc. change 719468 with (day_number 1970 1 1). change 23936472 with (day_number 65536 1 1).
  assert (forall y0, calendar_day y0 1 1) as H1 by (intros; split; [lia|]; cbn; lia).
  assert (forall y0, y0 <= y <-> day_number y0 1 1 <= day_number y m d) as Hle.
  { intros y0. split; intros Hy.
    - destruct (Z.eq_dec y0 y) as [->|]; [by apply first_day|]. apply Z.lt_le_incl, day_number_mono; [done..|lia].
    - destruct (Z.le_gt_cases y0 y) as [|Hlt]; [done|]. pose proof (day_number_mono _ _ _ _ _ _ Hc (H1 y0) Hlt). lia. }
  pose proof (Hle 1970). pose proof (Hle 65536). lia.
Qed.

Lemma from_timestamp_spec t : 0 <= t < MAX_TIMESTAMP ->
  civil_day (from_timestamp t) = civil (t / 86400 + 719468) /\ seconds_of_day (from_timestamp t) = t mod 86400 /\
  real_date (from_timestamp t) /\
  day_number (year (from_timestamp t)) (month (from_timestamp t)) (day (from_timestamp t)) = t / 86400 + 719468 /\
  tz_before_gmt (from_timestamp t) = false /\ tz_hour (from_timestamp t) = 0 /\ tz_minute (from_timestamp t) = 0.
Proof.
  intros Ht. unfold from_timestamp, civil_day, seconds_of_day, real_date. rewrite Z.quot_div_nonneg, Z.rem_mod_nonneg by lia.
  pose proof (civil_spec (t / 86400 + 719468)) as Hc. destruct (civil (t / 86400 + 719468)) as [[y m] d]. destruct Hc as [Hc Hn].
  pose proof (month_range_byte _ _ _ Hc) as [Hfm Hfd]. cbn [year month day hour minute second tz_before_gmt tz_hour tz_minute].
  assert (1970 <= y < 65536) as Hy by (apply (day_range _ _ _ Hc); rewrite Hn; unfold MAX_TIMESTAMP in Ht; clear -Ht; euclid).
  assert (0 <= t mod 86400 < 86400) as Hs by (apply Z.mod_pos_bound; lia). set (s := t mod 86400) in *. clearbody s.
  rewrite !Z.quot_div_nonneg, !Z.rem_mod_nonneg by (try apply Z.div_pos; lia).
  rewrite !wrap_small by (first [done|unfold fits; clear -Hs Hy; euclid]). split_and!; try done; try lia; try (clear -Hs; euclid); apply Hc.
Qed.

(** Dates follow the calendar: the date of a timestamp is found by counting
    the days since 1 January 1970 with the lengths of the months, leap years
    included, its time is the time of day, and it is a date that exists; up to
    the last second of the year 65535. *)
Theorem from_timestamp_calendar t : 0 <= t < MAX_TIMESTAMP ->
  civil_day (from_timestamp t) = Nat.iter (Z.to_nat (t / 86400)) next_day (1970, 1, 1) /\
  seconds_of_day (from_timestamp t) = t mod 86400 /\ real_date (from_timestamp t).
Proof.
  intros Ht. destruct (from_timestamp_spec t Ht) as (-> & Hs & Hr & _). split; [|done].
  assert (0 <= t / 86400) as Hd by (apply Z.div_pos; lia). clear Hs Hr. revert Hd. generalize (t / 86400). apply natlike_ind; [done|].
  intros n Hn IH. rewrite Z2Nat.inj_succ by done. cbn [Nat.iter nat_rect]. fold (Nat.iter (Z.to_nat n) next_day (1970, 1, 1)). rewrite <- IH.
  pose proof (civil_spec (n + 719468)) as H1. pose proof (civil_spec (Z.succ n + 719468)) as H2.
  destruct (civil (n + 719468)) as [[y m] d], H1 as [Hc Hn1]. pose proof (next_day_spec y m d Hc) as H3.
  destruct (next_day (y, m, d)) as [[y' m'] d'], (civil (Z.succ n + 719468)) as [[y2 m2] d2], H2 as [Hc2 Hn2], H3 as [Hc3 Hn3].
  apply day_number_inj; [done..|lia].
Qed.

(** Timestamps and dates are in correspondence: the timestamp of the date
    of a timestamp is that timestamp, and the date of the timestamp of a date
    in UTC that exists is that date, for the years 1970 to 65535. *)
Theorem timestamp_roundtrip :
  (forall t, 0 <= t < MAX_TIMESTAMP -> timestamp (from_timestamp t) = t) /\
  (forall d, real_date d -> tz_before_gmt d = false -> tz_hour d = 0 -> tz_minute d = 0 -> from_timestamp (timestamp d) = d).
Proof.
  split.
  - intros t Ht. destruct (from_timestamp_spec t Ht) as (_ & Hs & ((Hy & _) & Hm & _) & Hn & H1 & H2 & H3).
    rewrite timestamp_days by (destruct Hm; lia). rewrite H1, H2, H3, Hs, Hn. clear. euclid.
  - intros d (Hy & Hc & Hh & Hm & Hs) H1 H2 H3. assert (timestamp d = (day_number (year d) (month d) (day d) - 719468) * 86400 + seconds_of_day d) as Ht.
    { rewrite timestamp_days by (destruct Hc; lia). rewrite H1, H2, H3. lia. }
    assert (0 <= seconds_of_day d < 86400) as Hsec by (unfold seconds_of_day; lia).
    pose proof (proj1 (day_range _ _ _ Hc) Hy) as Hn. assert (0 <= timestamp d < MAX_TIMESTAMP) as Hr by (unfold MAX_TIMESTAMP; lia).
    destruct (from_timestamp_spec _ Hr) as (_ & Hsd & (_ & Hc' & Hh' & Hm' & Hs') & Hn' & T1 & T2 & T3).
    generalize dependent (from_timestamp (timestamp d)). intros d' Hsd Hc' Hh' Hm' Hs' Hn' T1 T2 T3.
    replace (timestamp d / 86400 + 719468) with (day_number (year d) (month d) (day d)) in Hn' by (rewrite Ht; clear -Hsec; euclid).
    apply day_number_inj in Hn'; [|done..]. replace (timestamp d mod 86400) with (seconds_of_day d) in Hsd by (rewrite Ht; clear -Hsec; euclid).
    unfold seconds_of_day in Hsd. clear -Hn' Hsd Hh Hm Hs Hh' Hm' Hs' H1 H2 H3 T1 T2 T3. destruct d', d. cbn in *. simplify_eq. f_equal; lia.
Qed.
Lemma timestamp_roundtrip_witness : timestamp (from_timestamp 951782400) = 951782400 /\ from_timestamp (timestamp (mkDate 2000 2 29 23 59 59 false 0 0)) = mkDate 2000 2 29 23 59 59 false 0 0.
Proof. split; [apply (proj1 timestamp_roundtrip); unfold MAX_TIMESTAMP; lia|]. apply (proj2 timestamp_roundtrip); [|done..].
  unfold real_date, calendar_day. change (days_in_month _ _) with 29. cbn [year month day hour minute second]. lia. Defined.
Lemma from_timestamp_calendar_witness :
  civil_day (from_timestamp 5184000) = Nat.iter (Z.to_nat (5184000 / 86400)) next_day (1970, 1, 1) /\ seconds_of_day (from_timestamp 5184000) = 5184000 mod 86400 /\ real_date (from_timestamp 5184000).
Proof. apply (from_timestamp_calendar 5184000). unfold MAX_TIMESTAMP. lia. Defined.

(** Before 1970 the division truncates towards zero: one second before the
    epoch is 00:00:255 of the following day. *)
Theorem from_timestamp_negative :
  from_timestamp (-1) = mkDate 1970 1 1 0 0 255 false 0 0 /\ timestamp (from_timestamp (-1)) = 255.
Proof. split; vm_compute; reflexivity. Qed.

(** ** Reading what was printed *)

(** A digit is added to the part being read. *)
Lemma date_digit pos parts sizes plus n rest :
  0 <= n <= 9 -> 0 < nth pos sizes 0 ->
  date_loop (mkDateParser pos parts sizes false plus) ((48 + n) :: rest) =
  date_loop (mkDateParser pos (<[pos := u32 (nth pos parts 0 + n * 10 ^ (nth pos sizes 0 - 1))]> parts)
    (<[pos := nth pos sizes 0 - 1]> sizes) false plus) rest.
Proof.
  intros Hn Hs. cbn [date_loop]. unfold date_step. cbn [dp_skip dp_pos dp_sizes dp_parts dp_plus].
  unfold is_digit. rewrite (proj2 (Z.leb_le 48 (48 + n))), (proj2 (Z.leb_le (48 + n) 57)), (proj2 (Z.ltb_lt _ _) Hs) by lia. cbn [andb negb mbind option_bind].
  by replace (48 + n - 48) with n by lia.
Qed.

(** Two digits are a part of two digits. *)
Lemma date_digits2 pos parts sizes plus n rest :
  (pos < length parts)%nat -> (pos < length sizes)%nat -> nth pos sizes 0 = 2 -> nth pos parts 0 = 0 -> 0 <= n < 100 ->
  date_loop (mkDateParser pos parts sizes false plus) (digits2 n ++ rest) =
  date_loop (mkDateParser pos (<[pos := n]> parts) (<[pos := 0]> sizes) false plus) rest.
Proof.
  intros Hp Hs H2 H0 Hn. unfold digits2. cbn [app].
  rewrite date_digit by (rewrite ?H2; euclid).
  assert (forall (l : list Z) x, (pos < length l)%nat -> nth pos (<[pos := x]> l) 0 = x) as Hnth.
  { intros l x Hl. apply nth_lookup_Some with (d := 0). by apply list_lookup_insert_eq. }
  rewrite date_digit by (rewrite ?Hnth, ?H2 by done; euclid). rewrite !Hnth, !list_insert_insert_eq, H2, H0 by done.
  change (10 ^ (2 - 1)) with 10. change (10 ^ (2 - 1 - 1)) with 1.
  rewrite (wrap_small 32 (0 + _)), wrap_small by (unfold fits; euclid). do 3 f_equal. euclid.
Qed.
Lemma date_year n rest : 0 <= n < 10000 ->
  date_loop date_start (pad4 n ++ rest) = date_loop (mkDateParser 0 [n; 0; 0; 0; 0; 0; 0; 0] [0; 2; 2; 2; 2; 2; 2; 2] false true) rest.
Proof.
  intros Hn. unfold pad4, digits4, digits2, date_start. rewrite (proj2 (Z.ltb_lt n 10000)) by lia. cbn [app].
  do 4 (rewrite date_digit by (cbn; euclid); cbn [nth insert list_insert]).
  change (4 - 1) with 3. change (3 - 1) with 2. change (2 - 1) with 1. change (1 - 1) with 0.
  change (10 ^ 3) with 1000. change (10 ^ 2) with 100. change (10 ^ 1) with 10. change (10 ^ 0) with 1.
  rewrite (wrap_small 32 (0 + _)) by (unfold fits; euclid).
  rewrite (wrap_small 32 (0 + _ + _)) by (unfold fits; euclid).
  rewrite (wrap_small 32 (0 + _ + _ + _)) by (unfold fits; euclid).
  rewrite wrap_small by (unfold fits; euclid). do 3 f_equal. euclid.
Qed.

(** The digits of a fraction are skipped. *)
Lemma date_fraction parts sizes digits rest : forallb is_digit digits = true ->
  date_loop (mkDateParser 5 parts sizes true true) (digits ++ rest) = date_loop (mkDateParser 5 parts sizes true true) rest.
Proof.
  induction digits as [|ch digits IH]; [done|]. cbn [forallb]. intros [Hch Hd]%andb_true_iff. cbn [app date_loop].
  assert (date_step (mkDateParser 5 parts sizes true true) ch = Some (mkDateParser 5 parts sizes true true)) as ->; [|by apply IH].
  unfold date_step, is_digit in *. cbn [dp_skip negb]. rewrite andb_false_r.
  repeat (match goal with |- context [ch =? ?k] => destruct (Z.eqb_spec ch k) as [->|]; [done|] end). done.
Qed.

Definition printable (d : JMAPDate) : Prop :=
  0 <= year d < 10000 /\ Forall (fun n => 0 <= n < 100) [month d; day d; hour d; minute d; second d; tz_hour d; tz_minute d].
Definition is_fraction (l : list Z) : Prop := l = [] \/ exists digits, l = 46 :: digits /\ forallb is_digit digits = true.
(** The sign of an empty offset is not printed. *)
Definition normal_zone (d : JMAPDate) : JMAPDate :=
  mkDate (year d) (month d) (day d) (hour d) (minute d) (second d)
    (tz_before_gmt d && negb ((tz_hour d =? 0) && (tz_minute d =? 0))) (tz_hour d) (tz_minute d).

(** A part of two digits and the separator after it. *)
Lemma date_part pos parts sizes plus n rest :
  (pos < length parts)%nat -> (pos < length sizes)%nat -> nth pos sizes 0 = 2 -> nth pos parts 0 = 0 -> 0 <= n < 100 ->
  date_loop (mkDateParser pos parts sizes false plus) (pad2 n ++ rest) =
  date_loop (mkDateParser pos (<[pos := n]> parts) (<[pos := 0]> sizes) false plus) rest.
Proof. intros. unfold pad2. rewrite (proj2 (Z.ltb_lt n 100)) by lia. by apply date_digits2. Qed.
Lemma date_sep p ch p' rest : date_step p ch = Some p' -> date_loop p (ch :: rest) = date_loop p' rest.
Proof. intros E. cbn [date_loop]. by rewrite E. Qed.

Ltac date_sep_step := erewrite date_sep by reflexivity; unfold date_advance; cbn [dp_pos dp_parts dp_sizes dp_skip dp_plus].
Ltac date_part_step := rewrite date_part by (try done; cbn; lia); cbn [insert list_insert].

Lemma date_time_parsed d rest : printable d ->
  date_loop date_start (date_time d ++ rest) =
  date_loop (mkDateParser 5 [year d; month d; day d; hour d; minute d; second d; 0; 0] [0; 0; 0; 0; 0; 0; 2; 2] false true) rest.
Proof.
  intros [Hy Hd]. repeat (apply Forall_cons in Hd as [? Hd]). unfold date_time. rewrite <- !(assoc_L (++)). rewrite date_year by done.
  cbn [app]. date_sep_step. do 4 (date_part_step; date_sep_step). by date_part_step.
Qed.

Lemma date_zone_parsed d skip : printable d -> exists sizes skip',
  date_loop (mkDateParser 5 [year d; month d; day d; hour d; minute d; second d; 0; 0] [0; 0; 0; 0; 0; 0; 2; 2] skip true) (date_zone d) =
  Some (mkDateParser (if (tz_hour d =? 0) && (tz_minute d =? 0) then 5 else 7)
    [year d; month d; day d; hour d; minute d; second d; tz_hour d; tz_minute d] sizes skip' (negb (tz_before_gmt (normal_zone d)))).
Proof.
  intros [Hy Hd]. repeat (apply Forall_cons in Hd as [? Hd]). unfold date_zone, normal_zone. cbn [tz_before_gmt].
  rewrite <- negb_andb. destruct (Z.eqb_spec (tz_hour d) 0) as [Eh|Eh], (Z.eqb_spec (tz_minute d) 0) as [Em|Em]; cbn [negb andb].
  { rewrite Eh, Em, andb_false_r. by repeat eexists. }
  all: assert ((0 <? tz_hour d) || (0 <? tz_minute d) = true) as -> by lia; rewrite !andb_true_r;
    destruct (tz_before_gmt d); cbn [app negb]; date_sep_step; date_part_step; date_sep_step;
    rewrite <- (app_nil_r (pad2 (tz_minute d))); date_part_step; by repeat eexists.
Qed.

(** Dates are read back as they were printed: the text of a date with a
    year of four digits and parts of two digits is parsed to that date, its
    offset included, also when a fraction of a second was added to it. The
    sign of a zero offset is not kept. *)
Theorem date_text_roundtrip d fraction : printable d -> is_fraction fraction ->
  date_parse (date_time d ++ fraction ++ date_zone d) = Some (normal_zone d) /\ date_parse (date_fmt d) = Some (normal_zone d).
Proof.
  intros Hp Hf. assert (forall fraction, is_fraction fraction -> date_parse (date_time d ++ fraction ++ date_zone d) = Some (normal_zone d)) as Hall;
    [|split; [by apply Hall|]; apply (Hall []); by left].
  clear fraction Hf. intros fraction Hf. unfold date_parse. rewrite date_time_parsed by done.
  assert (exists skip, date_loop (mkDateParser 5 [year d; month d; day d; hour d; minute d; second d; 0; 0] [0; 0; 0; 0; 0; 0; 2; 2] false true)
      (fraction ++ date_zone d) =
    date_loop (mkDateParser 5 [year d; month d; day d; hour d; minute d; second d; 0; 0] [0; 0; 0; 0; 0; 0; 2; 2] skip true) (date_zone d)) as [skip ->].
  { destruct Hf as [->|(digits & -> & Hd)]; [by eexists|]. exists true. cbn [app]. date_sep_step. by apply date_fraction. }
  destruct (date_zone_parsed d skip Hp) as (sizes & skip' & ->). cbn [mbind option_bind dp_pos].
  replace (Nat.leb 5 (if (tz_hour d =? 0) && (tz_minute d =? 0) then 5 else 7)) with true by (by destruct (_ && _)).
  destruct Hp as [Hy Hd]. repeat (apply Forall_cons in Hd as [? Hd]). unfold date_of. cbn [dp_parts dp_plus nth].
  rewrite !wrap_small by (unfold fits; lia). by rewrite negb_involutive.
Qed.
Lemma date_text_roundtrip_witness :
  let d := mkDate 2021 1 1 9 55 6 true 2 30 in
  date_parse (date_time d ++ chars ".4567"%string ++ date_zone d) = Some d /\ date_parse (chars "2021-01-01T09:55:06-02:30"%string) = Some d.
Proof.
  apply (date_text_roundtrip (mkDate 2021 1 1 9 55 6 true 2 30) (chars ".4567"%string)).
  - split; [cbn; lia|]. cbn. repeat constructor; lia.
  - right. eexists. split; [reflexivity|]. reflexivity.
Defined.
