(* ===== verification/MergeLog.v ===== *)
(** * Merged changes: src/cluster/log/changes_merge.rs

    A follower folds the change entries it has received, and a node that rolls
    back the entries it drops, into the documents that were inserted, updated
    and deleted. The fold, its serialization and the scan over the log are
    modelled; the fold is proved to be the difference between the documents
    before and after the entries. *)

From S2P Require Import Prelude Leb128 Serialize Types Keys BitList KV ChangeLog JmapId Compact.

Record MergedChanges : Type := mkMerged { mg_inserts : gset Z; mg_updates : gset Z; mg_deletes : gset Z }.
Definition merged_new : MergedChanges := mkMerged ∅ ∅ ∅.
Definition merged_is_empty (m : MergedChanges) : bool :=
  bool_decide (mg_inserts m = ∅) && bool_decide (mg_updates m = ∅) && bool_decide (mg_deletes m = ∅).

(** ** Folding an entry *)

(** An update of a document that was not inserted by an earlier entry. *)
Definition merge_update (m : MergedChanges) (id : Z) : MergedChanges :=
  let document_id := id_document_id id in
  if bool_decide (document_id ∈ mg_inserts m) then m
  else mkMerged (mg_inserts m) ({[document_id]} ∪ mg_updates m) (mg_deletes m).

(** [Vec::remove] of the first position that satisfies the predicate. *)
Fixpoint remove_first (f : Z -> bool) (l : list Z) : option (list Z) :=
  match l with
  | [] => None
  | x :: l => if f x then Some l else (fun l => x :: l) <$> remove_first f l
  end.
Definition is_move (deleted_id inserted_id : Z) : bool :=
  (id_document_id inserted_id =? id_document_id deleted_id) && negb (id_prefix_id inserted_id =? id_prefix_id deleted_id).

(** A deletion: with an insertion of the same document under another prefix
    it is an update. *)
Definition merge_delete (st : MergedChanges * list Z) (deleted_id : Z) : MergedChanges * list Z :=
  let '(m, inserted_ids) := st in
  let document_id := id_document_id deleted_id in
  match remove_first (is_move deleted_id) inserted_ids with
  | Some inserted_ids => (merge_update m deleted_id, inserted_ids)
  | None =>
      let deletes := if bool_decide (document_id ∈ mg_inserts m) then mg_deletes m else {[document_id]} ∪ mg_deletes m in
      (mkMerged (mg_inserts m ∖ {[document_id]}) (mg_updates m ∖ {[document_id]}) deletes, inserted_ids)
  end.
Definition merge_insert (m : MergedChanges) (id : Z) : MergedChanges :=
  mkMerged ({[id_document_id id]} ∪ mg_inserts m) (mg_updates m) (mg_deletes m).

Section Merge.
Context `{Treemap} `{Roaring} `{Store DB}.

(** [MergedChanges::deserialize_changes]. *)
Definition merge_entry (m : MergedChanges) (bytes : list Z) : option MergedChanges :=
  match bytes with
  | [] => None
  | tag :: bytes_it =>
      if tag =? Batch.ENTRY then
        '(total_inserts, bytes_it) ← next_leb128 Usize bytes_it;
        '(total_updates, bytes_it) ← next_leb128 Usize bytes_it;
        '(total_child_updates, bytes_it) ← next_leb128 Usize bytes_it;
        '(total_deletes, bytes_it) ← next_leb128 Usize bytes_it;
        '(inserted_ids, bytes_it) ← for_leb128 U64 (fun _ l id => l ++ [id]) total_inserts [] bytes_it;
        '(m, bytes_it) ← for_leb128 U64 (fun _ => merge_update) total_updates m bytes_it;
        bytes_it ← skip_ids total_child_updates bytes_it;
        '(st, bytes_it) ← for_leb128 U64 (fun _ => merge_delete) total_deletes (m, inserted_ids) bytes_it;
        Some (fold_left merge_insert st.2 st.1)
      else if tag =? Batch.SNAPSHOT then
        ids ← treemap_deserialize bytes_it;
        Some (fold_left merge_insert (treemap_iter ids) m)
      else None
  end.

(** ** Serialization *)

(** The bytes of a set that is not empty; an empty set has none. *)
Definition set_bytes (s : gset Z) : list Z := if bool_decide (s = ∅) then [] else roaring_serialize s.
Definition merged_serialize (m : MergedChanges) : list Z :=
  let size s := Z.of_nat (length (set_bytes s)) in
  let bytes := push_leb128 [] (size (mg_inserts m)) in
  let bytes := push_leb128 bytes (size (mg_updates m)) in
  let bytes := push_leb128 bytes (size (mg_deletes m)) in
  bytes ++ set_bytes (mg_inserts m) ++ set_bytes (mg_updates m) ++ set_bytes (mg_deletes m).

Definition read_set (bytes : list Z) (pos : nat) (size : Z) : option (gset Z) :=
  if 0 <? size then b ← get_range bytes pos (pos + Z.to_nat size); roaring_deserialize b else Some ∅.
Definition merged_from_bytes (bytes : list Z) : option MergedChanges :=
  '(insert_size, read_bytes) ← read_leb128 Usize bytes;
  rest ← get_from bytes read_bytes;
  '(update_size, read) ← read_leb128 Usize rest;
  let read_bytes := (read_bytes + read)%nat in
  rest ← get_from bytes read_bytes;
  '(delete_size, read) ← read_leb128 Usize rest;
  let read_bytes := (read_bytes + read)%nat in
  inserts ← read_set bytes read_bytes insert_size;
  let read_bytes := (read_bytes + Z.to_nat insert_size)%nat in
  updates ← read_set bytes read_bytes update_size;
  let read_bytes := (read_bytes + Z.to_nat update_size)%nat in
  deletes ← read_set bytes read_bytes delete_size;
  Some (mkMerged inserts updates deletes).

(** ** The scan *)

Fixpoint merge_loop (prefix : list Z) (from_id to_id : ChangeId) (it : list (list Z * list Z)) (m : MergedChanges) : option MergedChanges :=
  match it with
  | [] => Some m
  | (key, value) :: it =>
      if negb (starts_with key prefix) then Some m
      else
        change_id ← LogKey.deserialize_change_id key;
        if ((from_id <=? change_id) || (from_id =? U64_MAX)) && (change_id <=? to_id) then
          m ← merge_entry m value;
          merge_loop prefix from_id to_id it m
        else merge_loop prefix from_id to_id it m
  end.
Definition merge_changes (db : DB) (account : AccountId) (collection : Collection.t) (from_id to_id : ChangeId) : option MergedChanges :=
  let key := LogKey.serialize_change account collection (if negb (from_id =? U64_MAX) then from_id else 0) in
  let prefix := take LogKey.CHANGE_ID_POS key in
  merge_loop prefix from_id to_id (db_iterator db Logs key Forward) merged_new.
End Merge.

(** ** What an entry does to the documents *)

(** The documents of a set of ids; an entry replaces ids. *)
Definition docs (ids : gset Z) : gset Z := set_map id_document_id ids.
Definition ids_after (ids : gset Z) (c : Batch.Change) : gset Z :=
  (ids ∖ list_to_set (Batch.deletes c)) ∪ list_to_set (Batch.inserts c).

(** At any time a document has one id. *)
Definition one_id (ids : gset Z) : Prop := forall x y, x ∈ ids -> y ∈ ids -> id_document_id x = id_document_id y -> x = y.
Definition entry_applies (ids : gset Z) (c : Batch.Change) : Prop :=
  change_wf c /\ NoDup (Batch.inserts c) /\ NoDup (Batch.deletes c) /\
  (forall x, x ∈ Batch.inserts c -> x ∉ ids) /\ (forall x, x ∈ Batch.deletes c -> x ∈ ids) /\
  (forall x, x ∈ Batch.updates c -> id_document_id x ∈ docs ids) /\ one_id (ids_after ids c).

(** The entry mentions the document. *)
Definition mentions (c : Batch.Change) (d : Z) : Prop :=
  d ∈ (id_document_id <$> (Batch.inserts c ++ Batch.updates c ++ Batch.deletes c)).

(** The fold of entries is the difference between the documents before them
    and the documents after them. *)
Record merged_ok (before after : gset Z) (touched : Z -> Prop) (m : MergedChanges) : Prop := {
  mk_after : forall d, d ∈ docs after <-> (d ∈ docs before /\ d ∉ mg_deletes m) \/ d ∈ mg_inserts m;
  mk_deletes : forall d, d ∈ mg_deletes m -> d ∈ docs before;
  mk_inserts : forall d, d ∈ mg_inserts m -> d ∈ docs before -> d ∈ mg_deletes m;
  mk_updates : forall d, d ∈ mg_updates m -> d ∈ docs before /\ d ∉ mg_deletes m /\ d ∉ mg_inserts m;
  mk_seen : forall d, touched d -> d ∈ docs after -> d ∈ mg_inserts m \/ d ∈ mg_updates m;
  mk_touched : forall d, d ∈ mg_inserts m \/ d ∈ mg_updates m \/ d ∈ mg_deletes m -> touched d
}.

(** The fold of an entry without its bytes. *)
Definition merge_change (m : MergedChanges) (c : Batch.Change) : MergedChanges :=
  let st := fold_left merge_delete (Batch.deletes c) (fold_left merge_update (Batch.updates c) m, Batch.inserts c) in
  fold_left merge_insert st.2 st.1.

Lemma merge_entry_change `{Treemap} m c : change_wf c -> merge_entry m (Batch.serialize c) = Some (merge_change m c).
Proof.
  intros (Hids & Hi & Hu & Hc & Hd). rewrite !Forall_app in Hids. destruct Hids as (Wi & Wu & Wc & Wd).
  rewrite batch_serialize_bytes, flat_map_app. unfold merge_entry. rewrite (Z.eqb_refl Batch.ENTRY).
  repeat (rewrite next_leb128_app by (apply usize_decodable; unfold fits; lia); cbn [mbind option_bind]).
  rewrite for_leb128_app by (eapply Forall_impl; [done|apply u64_decodable]). cbn [mbind option_bind]. rewrite <- !app_assoc.
  rewrite for_leb128_app by (eapply Forall_impl; [done|apply u64_decodable]). cbn [mbind option_bind].
  rewrite skip_ids_app by done. cbn [mbind option_bind].
  rewrite for_leb128_app by (eapply Forall_impl; [done|apply u64_decodable]). cbn [mbind option_bind].
  rewrite !fold_pos_const. unfold merge_change. by rewrite RaftLog.fold_snoc.
Qed.

(** *** The three loops, document by document *)

Definition agree (d : Z) (m m' : MergedChanges) : Prop :=
  (d ∈ mg_inserts m <-> d ∈ mg_inserts m') /\ (d ∈ mg_updates m <-> d ∈ mg_updates m') /\ (d ∈ mg_deletes m <-> d ∈ mg_deletes m').
#[export] Instance agree_equivalence d : Equivalence (agree d).
Proof. split; unfold agree; repeat intro; tauto. Qed.

Lemma merge_updates_spec ids m :
  mg_inserts (fold_left merge_update ids m) = mg_inserts m /\ mg_deletes (fold_left merge_update ids m) = mg_deletes m /\
  forall d, d ∈ mg_updates (fold_left merge_update ids m) <-> d ∈ mg_updates m \/ (d ∈ (id_document_id <$> ids) /\ d ∉ mg_inserts m).
Proof.
  revert m. induction ids as [|id ids IH]; intros m; cbn [fold_left fmap list_fmap]; [set_solver|].
  destruct (IH (merge_update m id)) as (-> & -> & Hu). clear IH. unfold merge_update in *.
  case_bool_decide as Hb; cbn in *; (split_and!; [done..|]); intros d; rewrite Hu, elem_of_cons, ?elem_of_union, ?elem_of_singleton; naive_solver.
Qed.
Lemma merge_inserts_spec ids m :
  mg_updates (fold_left merge_insert ids m) = mg_updates m /\ mg_deletes (fold_left merge_insert ids m) = mg_deletes m /\
  forall d, d ∈ mg_inserts (fold_left merge_insert ids m) <-> d ∈ mg_inserts m \/ d ∈ (id_document_id <$> ids).
Proof.
  revert m. induction ids as [|id ids IH]; intros m; cbn [fold_left fmap list_fmap]; [set_solver|].
  destruct (IH (merge_insert m id)) as (-> & -> & Hu). clear IH. cbn in *. split_and!; [done..|].
  intros d. rewrite Hu, elem_of_cons, elem_of_union, elem_of_singleton. tauto.
Qed.

Lemma remove_first_elem f l l' y : remove_first f l = Some l' -> f y = false -> (y ∈ l' <-> y ∈ l).
Proof.
  revert l'. induction l as [|x l IH]; intros l'; cbn; [done|]. destruct (f x) eqn:Ef.
  - intros [= ->] Hy. rewrite elem_of_cons. split; [by right|]. intros [->|]; [congruence|done].
  - destruct (remove_first f l) as [k|]; [|done]. intros [= <-] Hy. rewrite !elem_of_cons. by rewrite (IH k).
Qed.
Lemma remove_first_none f l : remove_first f l = None <-> forall y, y ∈ l -> f y = false.
Proof.
  induction l as [|x l IH]; cbn; [set_solver|]. destruct (f x) eqn:Ef.
  - split; [done|]. intros Hall. rewrite (Hall x) in Ef; [done|by left].
  - rewrite fmap_None, IH. split; [intros Hl y [->|]%elem_of_cons; auto|]. intros Hl y Hy. apply Hl. by right.
Qed.
Lemma remove_first_some f l l' : remove_first f l = Some l' -> exists k1 y k2, l = k1 ++ y :: k2 /\ l' = k1 ++ k2 /\ f y = true.
Proof.
  revert l'. induction l as [|x l IH]; intros l'; cbn; [done|]. destruct (f x) eqn:Ef.
  - intros [= ->]. by exists [], x, l'.
  - destruct (remove_first f l) as [k|] eqn:E; [|done]. intros [= <-]. destruct (IH k eq_refl) as (k1 & y & k2 & -> & -> & Hy).
    by exists (x :: k1), y, k2.
Qed.

(** The documents of the ids in a list, restricted to one document. *)
Definition same_at (d : Z) (l l' : list Z) : Prop := forall y, id_document_id y = d -> (y ∈ l <-> y ∈ l').

Lemma merge_delete_other d st x : id_document_id x <> d -> agree d (merge_delete st x).1 st.1 /\ same_at d (merge_delete st x).2 st.2.
Proof.
  intros Hx. destruct st as [m l]. unfold merge_delete, agree. destruct (remove_first (is_move x) l) as [l'|] eqn:E; cbn.
  - split; [unfold merge_update; case_bool_decide; cbn; set_solver|]. intros y Hy. apply (remove_first_elem _ _ _ _ E).
    unfold is_move. rewrite Hy. apply andb_false_iff. left. apply Z.eqb_neq. congruence.
  - split; [|done]. case_bool_decide; set_solver.
Qed.
Lemma merge_deletes_other d dels st : d ∉ (id_document_id <$> dels) ->
  agree d (fold_left merge_delete dels st).1 st.1 /\ same_at d (fold_left merge_delete dels st).2 st.2.
Proof.
  revert st. induction dels as [|x dels IH]; intros st Hd; cbn [fold_left fmap list_fmap] in *; [done|].
  destruct (IH (merge_delete st x)) as [Ha Hs]; [set_solver|]. destruct (merge_delete_other d st x) as [Ha' Hs']; [set_solver|].
  split; [by etrans|]. intros y Hy. by rewrite (Hs y Hy), (Hs' y Hy).
Qed.

Lemma id_parts_inj x y : fits 64 x -> fits 64 y -> id_document_id x = id_document_id y -> id_prefix_id x = id_prefix_id y -> x = y.
Proof.
  unfold id_document_id, id_prefix_id. change 0xFFFFFFFF with (2 ^ 32 - 1). rewrite !land_mask by lia. intros Hx Hy.
  rewrite !Z.shiftr_div_pow2 by lia. unfold wrap, fits in *. rewrite !Z.mod_mod by lia.
  rewrite !(Z.mod_small (_ / _)) by (Z.to_euclidean_division_equations; lia). intros. rewrite (Z.div_mod x (2 ^ 32)), (Z.div_mod y (2 ^ 32)) by lia. congruence.
Qed.

Lemma merge_deletes_NoDup dels st : NoDup st.2 -> NoDup (fold_left merge_delete dels st).2.
Proof.
  revert st. induction dels as [|x dels IH]; intros [m l] Hl; cbn [fold_left]; [done|]. apply IH. cbn.
  destruct (remove_first (is_move x) l) as [l'|] eqn:E; [|done]. apply remove_first_some in E as (k1 & y & k2 & -> & -> & _). cbn in *.
  eapply sublist_NoDup; [done|]. apply sublist_app; [done|]. by apply sublist_cons.
Qed.

Lemma elem_of_docs_list d (l : list Z) : d ∈ (id_document_id <$> l) <-> exists x, x ∈ l /\ id_document_id x = d.
Proof. rewrite list_elem_of_fmap. naive_solver. Qed.

Section Step.
Variables (ids : gset Z) (c : Batch.Change) (m : MergedChanges) (d : Z).
Hypothesis (Happly : entry_applies ids c) (Hone : one_id ids) (Hids : ids_ok ids).

Let deleted : Prop := d ∈ (id_document_id <$> Batch.deletes c).
Let inserted : Prop := d ∈ (id_document_id <$> Batch.inserts c).
Let updated : Prop := d ∈ (id_document_id <$> Batch.updates c).
Let m1 := fold_left merge_update (Batch.updates c) m.
Let st := fold_left merge_delete (Batch.deletes c) (m1, Batch.inserts c).

Lemma inserted_fits x : x ∈ Batch.inserts c -> fits 64 x.
Proof. destruct Happly as ((Hf & _) & _). rewrite Forall_app, Forall_forall in Hf. intros. by apply Hf. Qed.

(** A deletion and an insertion of a document are a move. *)
Lemma move_iff x y : x ∈ Batch.deletes c -> y ∈ Batch.inserts c -> id_document_id x = d -> (is_move x y = true <-> id_document_id y = d).
Proof.
  intros Hx Hy Hd. destruct Happly as (_ & _ & _ & Hins & Hdel & _). unfold is_move. rewrite andb_true_iff, Z.eqb_eq, negb_true_iff, Z.eqb_neq, Hd.
  split; [by intros []|]. intros Hyd. split; [done|]. intros Hp. apply (Hins y Hy).
  rewrite (id_parts_inj y x); [by apply Hdel|by apply inserted_fits|by apply Hids, Hdel|congruence|done].
Qed.

Lemma deletes_split x : x ∈ Batch.deletes c -> id_document_id x = d ->
  exists l1 l2, Batch.deletes c = l1 ++ x :: l2 /\ d ∉ (id_document_id <$> l1) /\ d ∉ (id_document_id <$> l2).
Proof.
  intros Hx Hd. destruct Happly as (_ & _ & Hnd & _ & Hdel & _). destruct (list_elem_of_split _ _ Hx) as (l1 & l2 & E). exists l1, l2. split; [done|].
  rewrite E in Hnd. apply NoDup_app in Hnd as (_ & Hdisj & [Hx2 _]%NoDup_cons).
  assert (forall y, y ∈ Batch.deletes c -> id_document_id y = d -> y = x) as Huniq
    by (intros y Hy Hyd; apply Hone; [by apply Hdel..|congruence]).
  split; intros (y & Hy & Hyd)%elem_of_docs_list.
  - assert (y = x) as -> by (apply Huniq; [rewrite E; set_solver|done]). apply (Hdisj x Hy). left.
  - assert (y = x) as -> by (apply Huniq; [rewrite E; set_solver|done]). done.
Qed.

(** The deletions, at the document. *)
Lemma merge_deletes_at :
  (d ∈ mg_inserts st.1 <-> d ∈ mg_inserts m1 /\ (deleted -> inserted)) /\
  (d ∈ mg_updates st.1 <-> (d ∈ mg_updates m1 /\ (deleted -> inserted)) \/ (deleted /\ inserted /\ d ∉ mg_inserts m1)) /\
  (d ∈ mg_deletes st.1 <-> d ∈ mg_deletes m1 \/ (deleted /\ ~ inserted /\ d ∉ mg_inserts m1)) /\
  (d ∈ (id_document_id <$> st.2) <-> inserted /\ ~ deleted).
Proof.
  destruct (decide (d ∈ (id_document_id <$> Batch.deletes c))) as [Hdel|Hdel]; fold deleted in Hdel.
  - apply elem_of_docs_list in Hdel as Hx. destruct Hx as (x & Hx & Hxd).
    destruct (deletes_split x Hx Hxd) as (l1 & l2 & E & H1 & H2). subst st. rewrite E, fold_left_app. cbn [fold_left].
    set (st1 := fold_left merge_delete l1 (m1, Batch.inserts c)).
    destruct (merge_deletes_other d l1 (m1, Batch.inserts c) H1) as [(Hi1 & Hu1 & Hd1) Hs1]. fold st1 in Hi1, Hu1, Hd1, Hs1. cbn in Hi1, Hu1, Hd1, Hs1.
    assert (NoDup st1.2) as Hnd by (apply merge_deletes_NoDup; apply Happly).
    destruct (merge_deletes_other d l2 (merge_delete st1 x) H2) as [(-> & -> & ->) Hs2].
    assert (d ∈ (id_document_id <$> (fold_left merge_delete l2 (merge_delete st1 x)).2) <-> d ∈ (id_document_id <$> (merge_delete st1 x).2)) as ->.
    { rewrite !elem_of_docs_list. split; intros (y & Hy & Hyd); exists y; (split; [by apply (Hs2 y Hyd)|done]). }
    assert (inserted <-> exists y, y ∈ st1.2 /\ is_move x y = true) as Hins.
    { unfold inserted. rewrite elem_of_docs_list. split; intros (y & Hy & Hyd); exists y.
      - split; [by apply (Hs1 y Hyd)|]. by apply move_iff.
      - assert (id_document_id y = d) as Hd' by (unfold is_move in Hyd; apply andb_true_iff in Hyd as [Hyd _]; apply Z.eqb_eq in Hyd; congruence).
        split; [by apply (Hs1 y Hd')|done]. }
    destruct st1 as [m2 l]. cbn [fst snd] in *. unfold merge_delete. destruct (remove_first (is_move x) l) as [l'|] eqn:Er.
    + apply remove_first_some in Er as Er'. destruct Er' as (k1 & y & k2 & -> & -> & Hy).
      assert (inserted) as Hi by (apply Hins; exists y; split; [set_solver|done]).
      assert (d ∉ (id_document_id <$> (k1 ++ k2))) as Hno.
      { intros (z & Hz & Hzd)%elem_of_docs_list. assert (id_document_id y = d) as Hyd.
        { unfold is_move in Hy. apply andb_true_iff in Hy as [Hyd _]. apply Z.eqb_eq in Hyd. congruence. }
        assert (z = y) as ->.
        { destruct Happly as (_ & _ & _ & _ & _ & _ & Hafter). apply Hafter; [| |congruence]; unfold ids_after; apply elem_of_union; right; apply elem_of_list_to_set.
          - apply (Hs1 z Hzd). set_solver.
          - apply (Hs1 y Hyd). set_solver. }
        apply NoDup_app in Hnd as (_ & Hdisj & [Hy2 _]%NoDup_cons). apply elem_of_app in Hz as [Hz|Hz]; [|done]. apply (Hdisj _ Hz). left. }
      cbn [fst snd]. unfold merge_update. rewrite Hxd. case_bool_decide as Hb; cbn; rewrite ?elem_of_union, ?elem_of_singleton; tauto.
    + assert (~ inserted) as Hi.
      { intros (y & Hy & Hm)%Hins. rewrite remove_first_none in Er. rewrite (Er y Hy) in Hm. done. }
      assert (d ∉ (id_document_id <$> l)) as Hno.
      { intros (z & Hz & Hzd)%elem_of_docs_list. apply Hi. apply elem_of_docs_list. exists z. split; [by apply (Hs1 z Hzd)|done]. }
      rewrite Hxd. cbn. case_bool_decide; rewrite ?elem_of_difference, ?elem_of_union, ?elem_of_singleton; tauto.
  - destruct (merge_deletes_other d (Batch.deletes c) (m1, Batch.inserts c) Hdel) as [(Hi1 & Hu1 & Hd1) Hs1]. fold st in Hi1, Hu1, Hd1, Hs1. cbn in Hi1, Hu1, Hd1, Hs1.
    assert (d ∈ (id_document_id <$> st.2) <-> inserted) as Hst.
    { unfold inserted. rewrite !elem_of_docs_list. split; intros (y & Hy & Hyd); exists y; (split; [by apply (Hs1 y Hyd)|done]). }
    tauto.
Qed.

Lemma merge_change_at :
  (d ∈ mg_inserts (merge_change m c) <-> (d ∈ mg_inserts m /\ (deleted -> inserted)) \/ (inserted /\ ~ deleted)) /\
  (d ∈ mg_updates (merge_change m c) <->
     ((d ∈ mg_updates m \/ (updated /\ d ∉ mg_inserts m)) /\ (deleted -> inserted)) \/ (deleted /\ inserted /\ d ∉ mg_inserts m)) /\
  (d ∈ mg_deletes (merge_change m c) <-> d ∈ mg_deletes m \/ (deleted /\ ~ inserted /\ d ∉ mg_inserts m)).
Proof.
  unfold merge_change. fold m1. fold st. destruct (merge_inserts_spec st.2 st.1) as (-> & -> & ->).
  destruct merge_deletes_at as (Hi & Hu & Hd & Hl). destruct (merge_updates_spec (Batch.updates c) m) as (Ei & Ed & Eu).
  fold m1 in Ei, Ed, Eu. rewrite Hi, Hu, Hd, Hl, Ei, Ed, Eu. clear. split_and!; tauto.
Qed.
End Step.

(** *** A sequence of entries *)

Fixpoint applies_all (ids : gset Z) (l : list Batch.Change) : Prop :=
  match l with [] => True | c :: l => entry_applies ids c /\ applies_all (ids_after ids c) l end.
Definition ids_after_all (ids : gset Z) (l : list Batch.Change) : gset Z := fold_left ids_after l ids.
Definition mentioned (l : list Batch.Change) (d : Z) : Prop := exists c, c ∈ l /\ mentions c d.

Lemma elem_of_docs d ids : d ∈ docs ids <-> exists x, x ∈ ids /\ id_document_id x = d.
Proof. unfold docs. rewrite elem_of_map. naive_solver. Qed.
Lemma mentions_iff c d :
  mentions c d <-> d ∈ (id_document_id <$> Batch.inserts c) \/ d ∈ (id_document_id <$> Batch.updates c) \/ d ∈ (id_document_id <$> Batch.deletes c).
Proof. unfold mentions. by rewrite !fmap_app, !elem_of_app. Qed.

Section StepOk.
Variables (ids : gset Z) (c : Batch.Change).
Hypothesis (Happly : entry_applies ids c) (Hone : one_id ids) (Hids : ids_ok ids).

Lemma elem_of_ids_after x : x ∈ ids_after ids c <-> (x ∈ ids /\ x ∉ Batch.deletes c) \/ x ∈ Batch.inserts c.
Proof. unfold ids_after. by rewrite elem_of_union, elem_of_difference, !elem_of_list_to_set. Qed.
Lemma ids_after_ok : one_id (ids_after ids c) /\ ids_ok (ids_after ids c).
Proof.
  destruct Happly as (Hwf & _ & _ & _ & _ & _ & Ho). split; [done|]. intros x [[Hx _]|Hx]%elem_of_ids_after; [by apply Hids|].
  by apply (inserted_fits ids c).
Qed.
Lemma deleted_before d : d ∈ (id_document_id <$> Batch.deletes c) -> d ∈ docs ids.
Proof. intros (x & Hx & Hd)%elem_of_docs_list. apply elem_of_docs. exists x. split; [by apply Happly|done]. Qed.
Lemma updated_before d : d ∈ (id_document_id <$> Batch.updates c) -> d ∈ docs ids.
Proof. intros (x & Hx & <-)%elem_of_docs_list. by apply Happly. Qed.
Lemma docs_after d : d ∈ docs (ids_after ids c) <->
  (d ∈ docs ids /\ d ∉ (id_document_id <$> Batch.deletes c)) \/ d ∈ (id_document_id <$> Batch.inserts c).
Proof.
  destruct Happly as (_ & _ & _ & _ & Hdel & _). rewrite !elem_of_docs, !elem_of_docs_list. split.
  - intros (x & [[Hx Hnd]|Hx]%elem_of_ids_after & Hd); [left|right; by exists x].
    split; [by exists x|]. intros (y & Hy & Hyd). apply Hnd. rewrite (Hone x y); [done|done|by apply Hdel|congruence].
  - intros [[(x & Hx & Hd) Hnd]|(x & Hx & Hd)]; exists x; (split; [|done]).
    + apply elem_of_ids_after. left. split; [done|]. intros Hx'. apply Hnd. by exists x.
    + apply elem_of_ids_after. by right.
Qed.
Lemma inserted_fresh d : d ∈ (id_document_id <$> Batch.inserts c) -> d ∉ (id_document_id <$> Batch.deletes c) -> d ∉ docs ids.
Proof.
  intros (y & Hy & Hyd)%elem_of_docs_list Hnd (x & Hx & Hxd)%elem_of_docs. destruct Happly as (_ & _ & _ & Hins & _ & _ & Ho).
  apply (Hins y Hy). rewrite (Ho y x); [done|apply elem_of_ids_after; by right| |congruence].
  apply elem_of_ids_after. left. split; [done|]. intros Hx'. apply Hnd, elem_of_docs_list. by exists x.
Qed.

Lemma merged_ok_step before T m :
  merged_ok before ids T m -> merged_ok before (ids_after ids c) (fun d => T d \/ mentions c d) (merge_change m c).
Proof.
  intros [Ha Hd Hi Hu Hs Ht].
  assert (forall d, (d ∈ docs before -> d ∉ mg_deletes m -> d ∈ docs ids) /\ (d ∈ mg_inserts m -> d ∈ docs ids)) as Hb
    by (intros d; specialize (Ha d); tauto).
  assert (forall d, (d ∈ docs before -> d ∉ mg_deletes m -> d ∈ docs ids) /\ (d ∈ docs ids -> d ∈ docs before \/ d ∈ mg_inserts m)) as Hb'
    by (intros d; specialize (Ha d); tauto).
  split; intros d; pose proof (merge_change_at ids c m d Happly Hone Hids) as (Ei & Eu & Ed); rewrite ?Ei, ?Eu, ?Ed; clear Ei Eu Ed.
  1: specialize (Ha d); specialize (Hi d); clear Hd Hu Hs Ht Hb Hb'.
  2: specialize (Hd d); specialize (Hb' d); clear Ha Hi Hu Hs Ht Hb.
  3: specialize (Hi d); specialize (Hb' d); clear Ha Hd Hu Hs Ht Hb.
  4: specialize (Hu d); specialize (Hb d); specialize (Ha d); clear Hd Hi Hs Ht Hb'.
  5: specialize (Hs d); specialize (Ha d); clear Hd Hi Hu Ht Hb Hb'.
  6: specialize (Ht d); clear Ha Hd Hi Hu Hs Hb Hb'.
  all: pose proof (deleted_before d); pose proof (updated_before d); pose proof (inserted_fresh d); rewrite ?docs_after, ?mentions_iff;
    destruct (decide (d ∈ (id_document_id <$> Batch.deletes c))), (decide (d ∈ (id_document_id <$> Batch.inserts c))), (decide (d ∈ mg_inserts m));
    first [tauto | destruct (decide (d ∈ mg_deletes m)); tauto].
Qed.
End StepOk.

Lemma merged_start ids : merged_ok ids ids (fun _ => False) merged_new.
Proof. split; cbn; set_solver. Qed.

Lemma merged_ok_all before l : forall ids T m,
  one_id ids -> ids_ok ids -> applies_all ids l -> merged_ok before ids T m ->
  merged_ok before (ids_after_all ids l) (fun d => T d \/ mentioned l d) (fold_left merge_change l m).
Proof.
  induction l as [|c l IH]; intros ids T m Ho Hok Ha Hm; cbn in *.
  - destruct Hm as [H1 H2 H3 H4 H5 H6]. split; [done..| |]; unfold mentioned; intros d; [|by left; apply H6].
    intros [HT|(c & Hc & _)]; [by apply H5|by apply not_elem_of_nil in Hc].
  - destruct Ha as [Hc Ha]. destruct (ids_after_ok ids c Hc Hok) as [Ho' Hok'].
    specialize (IH _ _ _ Ho' Hok' Ha (merged_ok_step ids c Hc Ho Hok before T m Hm)).
    destruct IH as [H1 H2 H3 H4 H5 H6]. unfold mentioned in *. split; [done..| |]; intros d.
    + intros HT. apply H5. destruct HT as [HT|(c' & [->|Hin]%elem_of_cons & Hm')]; [by do 2 left|by left; right|right; by exists c'].
    + intros Hd%H6. destruct Hd as [[HT|Hm']|(c' & Hin & Hm')]; [by left|right; exists c; split; [left|done]|right; exists c'; split; [by right|done]].
Qed.

(** *** The scan visits the entries of the range *)

Definition merge_range (from_id to_id i : ChangeId) : bool := ((from_id <=? i) || (from_id =? U64_MAX)) && (i <=? to_id).
Definition merge_from (from_id : ChangeId) : ChangeId := if negb (from_id =? U64_MAX) then from_id else 0.

Lemma merge_loop_entries `{Treemap} prefix from_id to_id it : forall m,
  (forall kv, kv ∈ take_prefix prefix it -> is_Some (LogKey.deserialize_change_id kv.1)) ->
  merge_loop prefix from_id to_id it m =
  fold_left (fun m (e : ChangeId * list Z) => m ← m; merge_entry m e.2)
    (filter (fun e : ChangeId * list Z => merge_range from_id to_id e.1 = true)
      ((fun kv => (default 0 (LogKey.deserialize_change_id kv.1), kv.2)) <$> take_prefix prefix it)) (Some m).
Proof.
  induction it as [|[k v] it IH]; intros m Hd; [done|]. cbn [take_prefix merge_loop fst] in *.
  destruct (starts_with k prefix); [|done]. cbn [negb fmap list_fmap fst snd].
  destruct (Hd (k, v)) as [i Hi]; [by left|]. cbn in Hi. rewrite Hi. cbn [mbind option_bind default id].
  assert (forall kv, kv ∈ take_prefix prefix it -> is_Some (LogKey.deserialize_change_id kv.1)) as Hd' by (intros; apply Hd; by right).
  rewrite filter_cons. cbn [fst]. fold (merge_range from_id to_id i). destruct (merge_range from_id to_id i) eqn:Er.
  - rewrite decide_True by done. cbn [fold_left snd mbind option_bind]. destruct (merge_entry m v) as [m'|]; [by apply IH|]. cbn [mbind option_bind].
    symmetry. generalize (filter (fun e : ChangeId * list Z => merge_range from_id to_id e.1 = true)
      ((fun kv => (default 0 (LogKey.deserialize_change_id kv.1), kv.2)) <$> take_prefix prefix it)). intros l. by induction l.
  - by rewrite decide_False, IH.
Qed.

Lemma merge_changes_stored `{Treemap} `{StoreLaws DB} (db : DB) a c from_id to_id log :
  log_wf db -> fits 32 a -> fits 64 from_id -> StronglySorted (fun e e' => e.1 < e'.1) log -> Forall (fun e => change_wf e.2) log ->
  (forall i v, (fits 64 i /\ merge_range from_id to_id i = true /\ db_get db Logs (LogKey.serialize_change a c i) = Some v) <->
     exists ch, (i, ch) ∈ log /\ v = Batch.serialize ch) ->
  merge_changes db a c from_id to_id = Some (fold_left merge_change log.*2 merged_new).
Proof.
  intros Hwf Ha Hf Hs Hch Hlog. assert (fits 64 (merge_from from_id)) as Hmf by (unfold merge_from; destruct (_ =? _); cbn; [unfold fits; lia|done]).
  unfold merge_changes. fold (merge_from from_id). rewrite take_change_prefix, merge_loop_entries.
  - change ((fun kv : list Z * list Z => (default 0 (LogKey.deserialize_change_id kv.1), kv.2)) <$>
      take_prefix (change_prefix a c) (db_iterator db Logs (LogKey.serialize_change a c (merge_from from_id)) Forward))
      with (visited db a c (merge_from from_id)).
    pose proof (visited_stored db a c (merge_from from_id) (merge_range from_id to_id) log) as Hv. cbn beta in Hv. rewrite Hv; [|done..| |done|done].
    + clear Hv Hlog Hs. generalize merged_new. induction Hch as [|[i ch] log Hc _ IH]; intros m; [done|].
      cbn [fmap list_fmap stored fst snd fold_left mbind option_bind]. cbn in Hc. rewrite merge_entry_change by done. apply IH.
    + intros i Hi. unfold merge_range, merge_from. intros [Hr _]%andb_true_iff. unfold fits in Hi. destruct (Z.eqb_spec from_id U64_MAX); cbn; lia.
  - intros [k v] (i & Hi & _ & -> & _)%visited_key; [|done..]. cbn. by rewrite change_id_decode.
Qed.

(** C23. The merged changes of a range of the log are the difference it makes to
    the documents. Let [log] be the entries of an account and collection from
    [from_id] (all of them for [U64_MAX]) to [to_id], each of which applies to
    the ids left by those before it, [ids] at the start. Then [merge_changes]
    succeeds, the documents at the end are those of the start without the
    deleted ones and with the inserted ones, only documents of the start are
    deleted, a document that is there at the start and inserted was deleted in
    between, updates are documents that stayed, and each document that is
    there at the end and was mentioned by an entry is inserted or updated: it
    is what a follower asks for and what a rollback undoes. *)
Theorem merge_net_effect `{Treemap} `{StoreLaws DB} (db : DB) a c from_id to_id log ids :
  log_wf db -> fits 32 a -> fits 64 from_id -> StronglySorted (fun e e' => e.1 < e'.1) log ->
  (forall i v, (fits 64 i /\ merge_range from_id to_id i = true /\ db_get db Logs (LogKey.serialize_change a c i) = Some v) <->
     exists ch, (i, ch) ∈ log /\ v = Batch.serialize ch) ->
  one_id ids -> ids_ok ids -> applies_all ids log.*2 ->
  exists m, merge_changes db a c from_id to_id = Some m /\
    merged_ok ids (ids_after_all ids log.*2) (mentioned log.*2) m.
Proof.
  intros Hwf Ha Hf Hs Hlog Ho Hok Happ. eexists. split.
  - apply merge_changes_stored; [done..| |done]. clear -Happ. revert ids Happ. induction log as [|[i ch] log IH]; intros ids; [constructor|].
    cbn. intros [Hc Happ]. constructor; [apply Hc|by eapply IH].
  - pose proof (merged_ok_all ids log.*2 ids _ _ Ho Hok Happ (merged_start ids)) as [M1 M2 M3 M4 M5 M6].
    split; [done..| |]; intros d; [intros Hd; apply M5; by right|]. intros Hd%M6. by destruct Hd.
Qed.

Import SampleStore.

Lemma db_of_log_selected a c log (P : ChangeId -> bool) :
  Forall (fun e => fits 64 e.1 /\ P e.1 = true) log -> StronglySorted (fun e e' => e.1 < e'.1) log ->
  forall i v, (fits 64 i /\ P i = true /\ db_get (SampleStore.db_of_log a c log) Logs (LogKey.serialize_change a c i) = Some v) <->
    exists ch, (i, ch) ∈ log /\ v = Batch.serialize ch.
Proof.
  intros Hlog Hs i v. rewrite Forall_forall in Hlog. split.
  - intros (Hi & _ & (e & He & Hk & ->)%db_of_log_get). apply change_key_inj in Hk; [|done|by apply (Hlog e)]. subst i. exists e.2.
    split; [by destruct e|done].
  - intros (ch & Hin & ->). destruct (Hlog _ Hin) as [Hi HP]. split_and!; [done..|]. apply db_of_log_elem; [|done..].
    apply Forall_forall. intros e He. by apply Hlog.
Qed.

(** Documents 5 and 6 under prefix 1; the first entry moves document 5 to
    prefix 2 and inserts 7, the second deletes 6, the third inserts it again. *)
Definition moves_log : list (ChangeId * Batch.Change) :=
  [(3, Batch.mkChange [id_from_parts 2 5; id_from_parts 1 7] [] [id_from_parts 1 5] []);
   (4, Batch.mkChange [] [id_from_parts 2 5] [id_from_parts 1 6] []);
   (6, Batch.mkChange [id_from_parts 3 6] [id_from_parts 1 7] [] [])].
Definition moves_start : gset Z := {[id_from_parts 1 5; id_from_parts 1 6]}.

Lemma one_id_list (l : list Z) : NoDup (id_document_id <$> l) -> one_id (list_to_set l).
Proof.
  intros Hnd x y Hx%elem_of_list_to_set Hy%elem_of_list_to_set E. apply list_elem_of_lookup in Hx as [i Hi], Hy as [j Hj].
  assert (i = j) as ->; [|congruence].
  apply (NoDup_lookup _ i j (id_document_id x) Hnd); rewrite list_lookup_fmap; [by rewrite Hi|by rewrite Hj; cbn; rewrite E].
Qed.
Definition entry_appliesb (ids : gset Z) (c : Batch.Change) : bool :=
  bool_decide (Forall (fun x => 0 <= x < 2 ^ 64) (Batch.inserts c ++ Batch.updates c ++ Batch.child_updates c ++ Batch.deletes c)) &&
  bool_decide (length (Batch.inserts c ++ Batch.updates c ++ Batch.child_updates c ++ Batch.deletes c) < 100)%nat &&
  bool_decide (NoDup (Batch.inserts c)) && bool_decide (NoDup (Batch.deletes c)) &&
  bool_decide (Forall (fun x => x ∉ ids) (Batch.inserts c)) && bool_decide (Forall (fun x => x ∈ ids) (Batch.deletes c)) &&
  bool_decide (Forall (fun x => id_document_id x ∈ docs ids) (Batch.updates c)) &&
  bool_decide (NoDup (id_document_id <$> elements (ids_after ids c))).
Lemma entry_appliesb_ok ids c : entry_appliesb ids c = true -> entry_applies ids c.
Proof.
  unfold entry_appliesb. rewrite !andb_true_iff, !bool_decide_eq_true, !Forall_forall, !length_app.
  intros (((((((Hf & Hl) & Hi) & Hd) & Hni) & Hnd) & Hu) & Hone). unfold entry_applies, change_wf. split_and!; try done; try lia.
  - apply Forall_forall. intros x Hx. by apply Hf.
  - apply one_id_list in Hone. by rewrite list_to_set_elements_L in Hone.
Qed.

Lemma merge_net_effect_witness : exists m,
  merge_changes (SampleStore.db_of_log 1 Collection.Mail moves_log) 1 Collection.Mail 3 6 = Some m /\
  merged_ok moves_start (ids_after_all moves_start moves_log.*2) (mentioned moves_log.*2) m.
Proof.
  apply (merge_net_effect (SampleStore.db_of_log 1 Collection.Mail moves_log) 1 Collection.Mail 3 6 moves_log moves_start).
  - apply db_of_log_wf; [split; cbn; lia|repeat constructor; cbn; lia].
  - split; cbn; lia.
  - split; cbn; lia.
  - repeat constructor.
  - apply db_of_log_selected; [|repeat constructor]. repeat (constructor; [split; [split; cbn; lia|reflexivity]|]). constructor.
  - apply (one_id_list [id_from_parts 1 5; id_from_parts 1 6]). apply (bool_decide_eq_true_1 _). vm_compute. reflexivity.
  - intros x [Hx|Hx]%elem_of_union; apply elem_of_singleton in Hx as ->; split; vm_compute; congruence.
  - do 3 (split; [apply entry_appliesb_ok; vm_compute; reflexivity|]). exact I.
Defined.

(** ** Serialization *)

(** The serialization of a [RoaringBitmap] that is not empty has bytes, and
    fewer than [2^63]. *)
Class RoaringSize `{Roaring} : Prop := {
  roaring_size bm : docs_ok bm -> bm <> ∅ -> 0 < Z.of_nat (length (roaring_serialize bm)) < 2 ^ 63
}.

Section Codec.
Context `{RoaringLaws} `{!RoaringSize}.

Lemma set_bytes_size s : docs_ok s -> 0 <= Z.of_nat (length (set_bytes s)) < 2 ^ 63.
Proof. intros Hs. unfold set_bytes. case_bool_decide; [cbn; lia|]. pose proof (roaring_size s Hs). intuition lia. Qed.
Lemma read_set_app before s after :
  docs_ok s -> read_set (before ++ set_bytes s ++ after) (length before) (Z.of_nat (length (set_bytes s))) = Some s.
Proof.
  intros Hs. unfold read_set. rewrite Nat2Z.id. destruct (Z.ltb_spec 0 (Z.of_nat (length (set_bytes s)))) as [Hlt|Hge].
  - rewrite get_range_app. cbn [mbind option_bind]. unfold set_bytes in *. case_bool_decide; [cbn in Hlt; lia|]. by apply roaring_roundtrip.
  - unfold set_bytes in Hge. case_bool_decide as E; [by rewrite E|]. pose proof (roaring_size s Hs E). lia.
Qed.
End Codec.

(** Merged changes are read back as they were written, as the rollback
    records of a node and the requests of a follower need it. *)
Theorem merged_roundtrip `{RoaringLaws} `{!RoaringSize} m :
  docs_ok (mg_inserts m) -> docs_ok (mg_updates m) -> docs_ok (mg_deletes m) ->
  merged_from_bytes (merged_serialize m) = Some m.
Proof.
  destruct m as [i u d]. cbn. intros Hi Hu Hd. pose proof (set_bytes_size i Hi). pose proof (set_bytes_size u Hu). pose proof (set_bytes_size d Hd).
  unfold merged_serialize, push_leb128, to_leb128_bytes. cbn [mg_inserts mg_updates mg_deletes app]. rewrite <- !app_assoc.
  assert (forall (x y : list Z), get_from (x ++ y) (length x) = Some y) as Hfrom.
  { intros x y. unfold get_from. rewrite length_app, (proj2 (Nat.leb_le _ _)) by lia. by rewrite drop_app_length. }
  unfold merged_from_bytes. rewrite read_leb128_app by (apply usize_decodable; unfold fits; lia). cbn [mbind option_bind].
  rewrite Hfrom. cbn [mbind option_bind]. rewrite read_leb128_app by (apply usize_decodable; unfold fits; lia). cbn [mbind option_bind].
  rewrite (assoc_L (++)), <- length_app, Hfrom. cbn [mbind option_bind].
  rewrite read_leb128_app by (apply usize_decodable; unfold fits; lia). cbn [mbind option_bind].
  rewrite (assoc_L (++) (_ ++ _)), <- length_app, read_set_app by done. cbn [mbind option_bind]. rewrite !Nat2Z.id.
  rewrite (assoc_L (++) (_ ++ _)), <- length_app, read_set_app by done. cbn [mbind option_bind].
  rewrite <- (app_nil_r (set_bytes d)), (assoc_L (++) (_ ++ _)), <- length_app, app_nil_r.
  pose proof (read_set_app ((((leb128 (Z.of_nat (length (set_bytes i))) ++ leb128 (Z.of_nat (length (set_bytes u)))) ++
    leb128 (Z.of_nat (length (set_bytes d)))) ++ set_bytes i) ++ set_bytes u) d [] Hd) as Hr. rewrite app_nil_r in Hr. by rewrite Hr.
Qed.

Import BitList.ListRoaring.
#[export] Instance list_roaring_size : RoaringSize.
Proof.
  split. intros bm Hok Hne. change (roaring_serialize bm) with (flat_map leb128 (elements bm)).
  assert (Forall (fits 32) (elements bm)) as Hf by by apply set_Forall_elements. split.
  - destruct (elements bm) as [|x l] eqn:E; [by apply elements_empty_inv in E; apply leibniz_equiv in E|].
    cbn. rewrite length_app. pose proof (leb128_nonempty x). lia.
  - assert (Z.of_nat (length (flat_map leb128 (elements bm))) <= 5 * Z.of_nat (length (elements bm))) as Hl.
    { clear Hok Hne. induction Hf as [|x l Hx Hf IH]; [done|]. cbn [flat_map length]. rewrite length_app.
      pose proof (leb128_length 5 x ltac:(lia) ltac:(unfold fits in Hx; cbn; lia)). lia. }
    pose proof (NoDup_bounded (elements bm) (2 ^ 32) ltac:(lia) (NoDup_elements bm) Hf). lia.
Qed.
Lemma merged_roundtrip_witness : merged_from_bytes (merged_serialize (mkMerged {[1; 300]} ∅ {[70000]})) = Some (mkMerged {[1; 300]} ∅ {[70000]}).
Proof.
  apply merged_roundtrip; cbn; intros x; rewrite ?elem_of_union, ?elem_of_singleton; unfold fits; [lia|set_solver|lia].
Defined.
