(* ===== verification/Rollback.v ===== *)
(** * Rolling back the log: src/cluster/log/rollback_prepare.rs, rollback_get.rs,
      rollback_remove.rs

    When a node has entries its leader does not have, it removes them from
    its log and keeps, per account and collection, the merged changes that are
    to be undone. The scan over the log, the writes on the way and the reading
    of the records are modelled. Operations return the store, also on an
    error, and whether they succeeded. *)

From S2P Require Import Prelude Leb128 Serialize Types Keys Bitmap BitList KV ChangeLog RaftLog JmapId Compact MergeLog.

Section Rollback.
Context `{Treemap} `{Roaring} `{Store DB}.

(** The variables of [prepare_rollback_changes]. *)
Record rollback := mkRollback {
  rb_db : DB; rb_account : AccountId; rb_collection : Collection.t; rb_changes : MergedChanges; rb_batch : list WriteOperation }.

(** Without [restore_deletions] the deletions are left out of the record. *)
Definition restored (restore_deletions : bool) (m : MergedChanges) : MergedChanges :=
  if negb restore_deletions then mkMerged (mg_inserts m) (mg_updates m) ∅ else m.
Definition rollback_flush (restore_deletions : bool) (st : rollback) : DB :=
  match rb_batch st with
  | [] => rb_db st
  | batch =>
      let changes := restored restore_deletions (rb_changes st) in
      db_write (rb_db st)
        (if negb (merged_is_empty changes) then
           batch ++ [OpSet Logs (LogKey.serialize_rollback (rb_account st) (rb_collection st)) (merged_serialize changes)]
         else batch)
  end.
Definition rollback_entry (restore_deletions : bool) (account_id : AccountId) (collection : Collection.t) (key value : list Z)
    (st : rollback) : rollback * bool :=
  let st :=
    if negb (account_id =? rb_account st) || negb (bool_decide (collection = rb_collection st)) then
      mkRollback (rollback_flush restore_deletions st) account_id collection merged_new []
    else st in
  match merge_entry (rb_changes st) value with
  | None => (st, false)
  | Some changes => (mkRollback (rb_db st) (rb_account st) (rb_collection st) changes (rb_batch st ++ [OpDelete Logs key]), true)
  end.
Fixpoint rollback_loop (after_index : LogIndex) (restore_deletions : bool) (it : list (list Z * list Z)) (st : rollback) : rollback * bool :=
  match it with
  | [] => (st, true)
  | (key, value) :: it =>
      if negb (starts_with key [LogKey.CHANGE_KEY_PREFIX]) then (st, true)
      else
        match (if negb (after_index =? U64_MAX) then (fun i => i <=? after_index) <$> LogKey.deserialize_change_id key else Some false) with
        | None => (st, false)
        | Some true => rollback_loop after_index restore_deletions it st
        | Some false =>
            match deserialize_be_u32 key LogKey.ACCOUNT_POS, key !! LogKey.COLLECTION_POS with
            | Some account_id, Some collection =>
                let '(st, ok) := rollback_entry restore_deletions account_id (Collection.of_u8 collection) key value st in
                if ok then rollback_loop after_index restore_deletions it st else (st, false)
            | _, _ => (st, false)
            end
        end
  end.

(** The Raft entries to delete. *)
Fixpoint rollback_raft (after_index : LogIndex) (it : list (list Z * list Z)) : option (list (list Z)) :=
  match it with
  | [] => Some []
  | (key, _) :: it =>
      if starts_with key [LogKey.RAFT_KEY_PREFIX] then
        deleted ← (if after_index =? U64_MAX then Some true else (fun r => after_index <? rid_index r) <$> LogKey.deserialize_raft key);
        keys ← rollback_raft after_index it;
        Some (if (deleted : bool) then key :: keys else keys)
      else Some []
  end.

Definition prepare_rollback_changes (db : DB) (after_index : LogIndex) (restore_deletions : bool) : DB * bool :=
  let st := mkRollback db U32_MAX Collection.None merged_new [] in
  let '(st, ok) := rollback_loop after_index restore_deletions (db_iterator db Logs [LogKey.CHANGE_KEY_PREFIX] Forward) st in
  if negb ok then (rb_db st, false)
  else
    let db := rollback_flush restore_deletions st in
    match rollback_raft after_index (db_iterator db Logs [LogKey.RAFT_KEY_PREFIX] Forward) with
    | None => (db, false)
    | Some [] => (db, true)
    | Some keys => (db_write db (OpDelete Logs <$> keys), true)
    end.

(** ** The records *)

Definition next_rollback_change (db : DB) : option (option (AccountId * Collection.t * MergedChanges)) :=
  match db_iterator db Logs [LogKey.ROLLBACK_KEY_PREFIX] Forward with
  | (key, value) :: _ =>
      if starts_with key [LogKey.ROLLBACK_KEY_PREFIX] then
        account_id ← deserialize_be_u32 key LogKey.ACCOUNT_POS;
        collection ← key !! LogKey.COLLECTION_POS;
        changes ← merged_from_bytes value;
        Some (Some (account_id, Collection.of_u8 collection, changes))
      else Some None
  | [] => Some None
  end.
Definition remove_rollback_change (db : DB) (account_id : AccountId) (collection : Collection.t) : DB :=
  db_write db [OpDelete Logs (LogKey.serialize_rollback account_id collection)].

Definition has_pending_rollback (db : DB) : option bool :=
  match db_iterator db Logs [LogKey.ROLLBACK_KEY_PREFIX] Forward with
  | _ :: _ => Some true
  | [] =>
      match db_get db Values LEADER_COMMIT_INDEX_KEY with
      | Some bytes =>
          commit_index ← deserialize_le 8 bytes;
          last_log ← get_prev_raft_id db (mkRaftId U64_MAX U64_MAX);
          Some (negb (rid_index (default raft_id_none last_log) =? commit_index))
      | None => Some false
      end
  end.
End Rollback.

(** ** Reading the log back *)

Section RollbackSpec.
Context `{TreemapLaws} `{Roaring} `{StoreLaws DB}.
Variables (db0 : DB) (after_index : LogIndex) (restore_deletions : bool).

(** The entries that are removed. *)
Definition gone (i : LogIndex) : bool := (after_index =? U64_MAX) || (after_index <? i).
Definition rollback_key (g : group) : list Z := LogKey.serialize_rollback g.1 g.2.

(** The changes of the entries of a group, merged in order. *)
Definition merge_values (l : list (list Z)) : option MergedChanges := fold_left (fun m v => m ← m; merge_entry m v) l (Some merged_new).
Definition group_values (g : group) (d : list entry) : list (list Z) := (fun e => e.2.2) <$> filter (fun e => e.1 = g) d.
Definition record (old : option (list Z)) (m : option MergedChanges) : option (list Z) :=
  match restored restore_deletions <$> m with
  | Some m => if merged_is_empty m then old else Some (merged_serialize m)
  | None => old
  end.

Lemma rollback_key_inj g g' : group_fits g -> group_fits g' -> rollback_key g = rollback_key g' -> g = g'.
Proof.
  intros Hg Hg' E. apply (group_key_inj g 0 g' 0); [done|done|(unfold fits; lia)..|].
  destruct g as [a c], g' as [a' c']. unfold rollback_key, group_key, LogKey.serialize_rollback, LogKey.serialize_change in *.
  cbn [fst snd] in *. apply (f_equal tail) in E. cbn [tail] in E. by rewrite !(assoc_L (++)), E.
Qed.
Lemma rollback_key_entry g g' i : rollback_key g <> group_key g' i.
Proof. intros E. apply (f_equal head) in E. discriminate E. Qed.

Lemma merge_entry_value v m : entry_value v -> is_Some (merge_entry m v).
Proof.
  intros [(c & Hc & ->)|(ids & Hok & ->)]; [rewrite merge_entry_change by done; by eexists|].
  unfold merge_entry, change_snapshot. cbn. rewrite treemap_roundtrip by done. cbn. by eexists.
Qed.
Lemma merge_values_snoc l v : merge_values (l ++ [v]) = m ← merge_values l; merge_entry m v.
Proof. unfold merge_values. by rewrite fold_left_app. Qed.

Lemma merge_values_some l : Forall entry_value l -> is_Some (merge_values l).
Proof.
  induction l as [|v l IH] using rev_ind; [by eexists|]. intros [Hl Hv]%Forall_app. rewrite merge_values_snoc.
  apply Forall_cons in Hv as [Hv _]. destruct (IH Hl) as [m ->]. by apply merge_entry_value.
Qed.

(** The state after the entries [d]: the groups before the current one are
    removed and recorded, the current one is being read. *)
Definition cur (st : rollback (DB := DB)) : group := (rb_account st, rb_collection st).
Definition not_record (cf : ColumnFamily) (k : list Z) : Prop := cf = Logs -> forall g, group_fits g -> k <> rollback_key g.
Record rolled (d : list entry) (db : DB) : Prop := {
  rolled_keys cf k : not_record cf k -> db_get db cf k = if decide (cf = Logs /\ k ∈ (entry_key <$> d)) then None else db_get db0 cf k;
  rolled_record g : group_fits g -> db_get db Logs (rollback_key g) = record (db_get db0 Logs (rollback_key g)) (merge_values (group_values g d))
}.
Record rollback_inv (d : list entry) (st : rollback (DB := DB)) : Prop := {
  ri_cur : d = [] \/ exists d' l, d = d' ++ [l] /\ l.1 = cur st;
  ri_fits : group_fits (cur st);
  ri_changes : merge_values (group_values (cur st) d) = Some (rb_changes st);
  ri_batch : rb_batch st = OpDelete Logs <$> (entry_key <$> filter (fun e => e.1 = cur st) d);
  ri_db : rolled (filter (fun e => e.1 <> cur st) d) (rb_db st)
}.

Lemma values_others g g' (d : list entry) : g <> g' -> group_values g (filter (fun e => e.1 <> g') d) = group_values g d.
Proof.
  intros Hne. unfold group_values. f_equal. induction d as [|e d IH]; [done|]. rewrite (filter_cons _ e d).
  destruct (decide (e.1 <> g')) as [Hn|Hn]; rewrite !filter_cons, IH; [done|].
  rewrite decide_False; [done|]. apply dec_stable in Hn. congruence.
Qed.
Lemma values_own g (d : list entry) : group_values g (filter (fun e => e.1 <> g) d) = [].
Proof.
  unfold group_values. rewrite filter_none; [done|]. intros e [Hn _]%list_elem_of_filter. done.
Qed.
Lemma record_new old : record old (merge_values []) = old.
Proof. unfold record, merge_values, restored. cbn. by destruct restore_deletions. Qed.

(** Writing the batch of the current group. *)
Lemma flush_get st ks cf k :
  rb_batch st = OpDelete Logs <$> ks -> (ks = [] -> merged_is_empty (restored restore_deletions (rb_changes st)) = true) ->
  db_get (rollback_flush restore_deletions st) cf k =
  if decide (cf = Logs /\ k = rollback_key (cur st) /\ merged_is_empty (restored restore_deletions (rb_changes st)) = false)
  then Some (merged_serialize (restored restore_deletions (rb_changes st)))
  else if decide (cf = Logs /\ k ∈ ks) then None else db_get (rb_db st) cf k.
Proof.
  intros Hb He. unfold rollback_flush. rewrite Hb. destruct ks as [|k0 ks].
  { rewrite He by done. cbn [fmap list_fmap]. rewrite !decide_False; [done| |].
    - by intros [_ ?%not_elem_of_nil].
    - by intros (_ & _ & ?). }
  change (OpDelete Logs <$> k0 :: ks) with (OpDelete Logs k0 :: (OpDelete Logs <$> ks)). cbv iota beta zeta.
  change (OpDelete Logs k0 :: (OpDelete Logs <$> ks)) with (OpDelete Logs <$> k0 :: ks).
  destruct (merged_is_empty _) eqn:E; cbn [negb].
  - rewrite write_deletes. rewrite (decide_False (P := _ /\ _ /\ true = false)) by (by intros (_ & _ & ?)). done.
  - change (LogKey.serialize_rollback (rb_account st) (rb_collection st)) with (rollback_key (cur st)). rewrite write_deletes_set.
    destruct (decide (cf = Logs /\ k = rollback_key (cur st))) as [Hk|Hk].
    + by rewrite decide_True by naive_solver.
    + by rewrite (decide_False (P := _ /\ _ /\ false = false)) by naive_solver.
Qed.

Lemma flush_rolled d st : rollback_inv d st -> rolled d (rollback_flush restore_deletions st).
Proof.
  intros [_ Hfit Hch Hb [Hk Hr]].
  assert (entry_key <$> filter (fun e => e.1 = cur st) d = [] -> merged_is_empty (restored restore_deletions (rb_changes st)) = true) as He.
  { intros E%fmap_nil_inv. unfold group_values in Hch. rewrite E in Hch. injection Hch as <-. unfold restored. by destruct restore_deletions. }
  split.
  - intros cf k Hnk. rewrite (flush_get _ _ _ _ Hb He), Hk by done. rewrite decide_False by (intros (-> & -> & _); by apply (Hnk eq_refl (cur st))).
    assert (k ∈ (entry_key <$> d) <-> k ∈ (entry_key <$> filter (fun e => e.1 = cur st) d) \/ k ∈ (entry_key <$> filter (fun e => e.1 <> cur st) d)) as Hs.
    { rewrite !list_elem_of_fmap. setoid_rewrite list_elem_of_filter. split; [|intros [(e & ? & _ & ?)|(e & ? & _ & ?)]; by exists e].
      intros (e & -> & He'). destruct (decide (e.1 = cur st)); [left|right]; by exists e. }
    destruct (decide (cf = Logs /\ k ∈ (entry_key <$> d))) as [[-> Hin]|Hn].
    + destruct (decide _) as [|Hno]; [done|]. rewrite decide_True; [done|]. split; [done|]. apply Hs in Hin as [Hin|Hin]; [|done]. by destruct Hno.
    + rewrite !decide_False; [done|..]; intros [-> Hin]; apply Hn; (split; [done|]); apply Hs; auto.
  - intros g Hg. rewrite (flush_get _ _ _ _ Hb He). rewrite (decide_False (P := Logs = Logs /\ rollback_key g ∈ _)).
    2: { intros [_ (e & E & _)%list_elem_of_fmap]. exact (rollback_key_entry g e.1 e.2.1 E). }
    rewrite Hr by done. destruct (decide (g = cur st)) as [->|Hne].
    + rewrite values_own, record_new, Hch. unfold record. cbn [fmap option_fmap option_map].
      destruct (merged_is_empty _); [by rewrite decide_False by (by intros (_ & _ & ?))|by rewrite decide_True].
    + rewrite values_others by done. rewrite decide_False; [done|]. intros (_ & E & _). by apply rollback_key_inj in E.
Qed.

(** An entry that is removed. *)
Lemma rollback_entry_inv all d e rest st :
  Forall entry_fits all -> StronglySorted entry_lt all -> all = d ++ e :: rest -> entry_value e.2.2 -> rollback_inv d st ->
  exists st', rollback_entry restore_deletions e.1.1 e.1.2 (entry_key e) e.2.2 st = (st', true) /\ rollback_inv (d ++ [e]) st'.
Proof.
  intros Hf Hs E Hv Hi. destruct (prefix_fits all Hf _ _ _ E) as [_ [Hg _]].
  assert (exists st1, (if negb (e.1.1 =? rb_account st) || negb (bool_decide (e.1.2 = rb_collection st)) then
      mkRollback (rollback_flush restore_deletions st) e.1.1 e.1.2 merged_new [] else st) = st1 /\ cur st1 = e.1 /\
      merge_values (group_values e.1 d) = Some (rb_changes st1) /\
      rb_batch st1 = OpDelete Logs <$> (entry_key <$> filter (fun e' => e'.1 = e.1) d) /\
      rolled (filter (fun e' => e'.1 <> e.1) d) (rb_db st1)) as (st1 & Est & Hc & Hm & Hb & Hr).
  { eexists. split; [reflexivity|]. destruct (decide (cur st = e.1)) as [Ec|Ec].
    - assert (e.1.1 = rb_account st /\ e.1.2 = rb_collection st) as [E1 E2] by (by rewrite <- Ec).
      rewrite E1, E2, Z.eqb_refl, bool_decide_true by done. cbn [negb orb]. destruct Hi as [_ _ Hi1 Hi2 Hi3]. rewrite Ec in *. done.
    - assert (negb (e.1.1 =? rb_account st) || negb (bool_decide (e.1.2 = rb_collection st)) = true) as ->.
      { destruct (Z.eqb_spec e.1.1 (rb_account st)), (bool_decide_reflect (e.1.2 = rb_collection st)); try done.
        destruct Ec. destruct e as [[a c] ?]. unfold cur. cbn in *. congruence. }
      assert (forall e', e' ∈ d -> e'.1 <> e.1) as Hnew.
      { intros e' Hin Eg. destruct (ri_cur _ _ Hi) as [->|(d' & l & -> & Hl)]; [by apply not_elem_of_nil in Hin|].
        apply Ec. rewrite <- Hl. symmetry. destruct e' as [g [i v]]. cbn in Eg. subst g. by eapply (group_run all). }
      assert (filter (fun e' : entry => e'.1 = e.1) d = []) as E1 by (by apply filter_none).
      assert (filter (fun e' : entry => e'.1 <> e.1) d = d) as E2 by (apply filter_all; by apply Forall_forall).
      unfold group_values. rewrite E1, E2. cbn. split; [by destruct e as [[? ?] ?]|]. split; [done|]. split; [done|]. by apply flush_rolled. }
  unfold rollback_entry. rewrite Est. destruct (merge_entry_value _ (rb_changes st1) Hv) as [m Hme]. rewrite Hme. eexists. split; [done|].
  split; unfold cur in *; cbn [rb_account rb_collection rb_changes rb_batch rb_db]; rewrite ?Hc.
  - right. by exists d, e.
  - done.
  - unfold group_values. rewrite filter_app, filter_cons, decide_True by done. cbn. rewrite fmap_app. cbn. rewrite merge_values_snoc.
    fold (group_values e.1 d). by rewrite Hm.
  - rewrite Hb, filter_app, filter_cons, decide_True by done. cbn. by rewrite !fmap_app.
  - rewrite filter_app, filter_cons, decide_False by (by intros ?). cbn. by rewrite app_nil_r.
Qed.

Lemma rollback_loop_inv all l d st :
  Forall entry_fits all -> StronglySorted entry_lt all -> Forall entry_fits l -> (forall e, e ∈ l -> entry_value e.2.2) ->
  all = d ++ filter (fun e => gone e.2.1 = true) l -> rollback_inv d st ->
  exists st', rollback_loop after_index restore_deletions (kv_of <$> l) st = (st', true) /\ rollback_inv all st'.
Proof.
  intros Hf Hs Hl. revert d st. induction Hl as [|e l [Hg Hi] Hl IH]; intros d st Hv E Hinv.
  { cbn in E. rewrite app_nil_r in E. subst d. by exists st. }
  assert (forall e, e ∈ l -> entry_value e.2.2) as Hv' by (intros; apply Hv; by right).
  cbn [fmap list_fmap rollback_loop]. unfold kv_of at 1. cbv beta iota. unfold entry_key at 1 2 3 4.
  destruct (group_key_fields e.1 e.2.1 Hg Hi) as (-> & -> & ->). rewrite group_key_starts, Collection.of_to_u8. cbn [negb].
  rewrite filter_cons in E. assert (gone e.2.1 = (after_index =? U64_MAX) || (after_index <? e.2.1)) as Eg by done.
  destruct (Z.eqb_spec after_index U64_MAX) as [Em|Em]; cbn [negb fmap option_fmap option_map orb] in *;
    [|rewrite Z.leb_antisym; destruct (Z.ltb_spec after_index e.2.1); cbn [negb]].
  3: { rewrite decide_False in E by (by rewrite Eg). by apply (IH d). }
  all: rewrite decide_True in E by done; destruct (rollback_entry_inv all d e _ st Hf Hs E (Hv e ltac:(by left)) Hinv) as (st' & Est & Hinv').
  all: change (group_key e.1 e.2.1) with (entry_key e); rewrite Est; apply (IH (d ++ [e])); [done|by rewrite <- app_assoc|done].
Qed.

Lemma rollback_loop_prefix it st :
  rollback_loop after_index restore_deletions (take_prefix [LogKey.CHANGE_KEY_PREFIX] it) st = rollback_loop after_index restore_deletions it st.
Proof.
  revert st. induction it as [|[k v] it IH]; intros st; [done|]. cbn [take_prefix fst].
  destruct (starts_with k _) eqn:E; cbn [rollback_loop]; rewrite E; [|done]. cbn [negb].
  destruct (if negb (after_index =? U64_MAX) then _ else _) as [[]|]; [by apply IH| |done].
  destruct (deserialize_be_u32 _ _), (k !! LogKey.COLLECTION_POS); try done.
  destruct (rollback_entry _ _ _ _ _ _) as [st' []]; [by apply IH|done].
Qed.

(** The Raft keys that are removed. *)
Lemma rollback_raft_keys it :
  (forall kv, kv ∈ take_prefix [LogKey.RAFT_KEY_PREFIX] it -> exists r, rid_fits r /\ kv.1 = LogKey.serialize_raft r) ->
  exists keys, rollback_raft after_index it = Some keys /\ Forall (fun k => exists r, rid_fits r /\ k = LogKey.serialize_raft r) keys /\
    forall r, rid_fits r -> LogKey.serialize_raft r ∈ keys <->
      gone (rid_index r) = true /\ LogKey.serialize_raft r ∈ (take_prefix [LogKey.RAFT_KEY_PREFIX] it).*1.
Proof.
  induction it as [|[k v] it IH]; intros Hk.
  { exists []. split; [done|]. split; [done|]. intros r _. cbn. rewrite elem_of_nil. naive_solver. }
  cbn [take_prefix fst rollback_raft] in *. destruct (starts_with k _) eqn:Es.
  2: { exists []. split; [done|]. split; [done|]. intros r _. cbn. rewrite elem_of_nil. naive_solver. }
  destruct (Hk (k, v)) as (r & Hr & E); [by left|]. cbn in E. subst k. destruct IH as (keys & -> & Hraft & Hkeys); [intros; apply Hk; by right|].
  assert ((if after_index =? U64_MAX then Some true else (fun r0 => after_index <? rid_index r0) <$> LogKey.deserialize_raft (LogKey.serialize_raft r))
    = Some (gone (rid_index r))) as ->.
  { rewrite raft_key_decode by done. unfold gone. by destruct (after_index =? U64_MAX). }
  cbn [mbind option_bind]. eexists. split; [reflexivity|].
  split; [destruct (gone _); [constructor; [by exists r|done]|done]|]. intros r' Hr'. cbn [fmap list_fmap fst]. rewrite elem_of_cons.
  specialize (Hkeys r' Hr'). destruct (gone (rid_index r)) eqn:Eg; rewrite ?elem_of_cons, Hkeys; [|]; split.
  - intros [E%raft_key_inj|[? ?]]; [subst r'; auto|done..|auto].
  - tauto.
  - intros [? ?]. auto.
  - intros [? [E%raft_key_inj|?]]; [subst r'; congruence|done..|auto].
Qed.

(** The merged changes of the removed entries, as the scan of one group finds them. *)
Definition rollback_from : ChangeId := if after_index =? U64_MAX then U64_MAX else after_index + 1.
Hypothesis after_fits : fits 64 after_index.
Hypothesis after_max : after_index <> U64_MAX - 1.

Lemma gone_range i : fits 64 i -> merge_range rollback_from U64_MAX i = gone i.
Proof.
  intros [Hi Hi']. apply eq_true_iff_eq. unfold merge_range, rollback_from, gone. destruct after_fits.
  destruct (Z.eqb_spec after_index U64_MAX) as [->|]; rewrite ?andb_true_iff, ?orb_true_iff, !Z.leb_le, ?Z.eqb_eq, ?Z.ltb_lt; split; intros; try done; lia.
Qed.

Lemma merge_changes_group all g :
  log_wf db0 -> group_fits g -> StronglySorted entry_lt all ->
  (forall e, e ∈ all <-> gone e.2.1 = true /\ entry_fits e /\ db_get db0 Logs (entry_key e) = Some e.2.2) ->
  merge_changes db0 g.1 g.2 rollback_from U64_MAX = merge_values (group_values g all).
Proof.
  intros Hwf Hg Hs Hall. assert (fits 64 (merge_from rollback_from)) as Hmf.
  { destruct after_fits. unfold merge_from, rollback_from, fits. destruct (Z.eqb_spec after_index U64_MAX); [rewrite Z.eqb_refl; cbn [negb]; lia|].
    destruct (Z.eqb_spec (after_index + 1) U64_MAX); cbn [negb]; lia. }
  unfold merge_changes. fold (merge_from rollback_from). rewrite take_change_prefix, merge_loop_entries.
  2: { intros [k v] (i & Hi & _ & -> & _)%visited_key; [|done..]. cbn. by rewrite change_id_decode. }
  change ((fun kv : list Z * list Z => (default 0 (LogKey.deserialize_change_id kv.1), kv.2)) <$> take_prefix (change_prefix g.1 g.2) _)
    with (visited db0 g.1 g.2 (merge_from rollback_from)).
  assert (filter (fun e => merge_range rollback_from U64_MAX e.1 = true) (visited db0 g.1 g.2 (merge_from rollback_from)) =
    snd <$> filter (fun e => e.1 = g) all) as ->.
  { apply (sorted_by_unique (fun e e' : ChangeId * list Z => e.1 < e'.1)); [intros x; lia|intros x y z; lia|by apply StronglySorted_filter, visited_sorted| |].
    - apply (group_sorted g); [|by apply StronglySorted_filter]. intros e [? (_ & ? & _)%Hall]%list_elem_of_filter. done.
    - intros [i v]. rewrite list_elem_of_filter, elem_of_visited, list_elem_of_fmap by done. cbn [fst]. split.
      + intros (Hr & Hi & _ & Hv). exists (g, (i, v)). split; [done|]. apply list_elem_of_filter. split; [done|]. apply Hall.
        rewrite <- gone_range by done. done.
      + intros ([g' [i' v']] & [= -> ->] & [Eg (Hr & [_ Hi] & Hv)%Hall]%list_elem_of_filter). cbn in *. subst g'.
        rewrite gone_range by done. split_and!; [done..| |done].
        rewrite <- gone_range in Hr by done. revert Hr. destruct Hi. unfold merge_range, merge_from. destruct (_ =? U64_MAX); cbn; lia. }
  unfold merge_values, group_values. generalize (Some merged_new). induction (filter (fun e => e.1 = g) all) as [|e l IH]; intros m; [done|]. apply IH.
Qed.

(** The first loop with its last batch. *)
Lemma rollback_changes_spec :
  log_wf db0 -> change_values db0 ->
  exists all st, (forall e, e ∈ all <-> gone e.2.1 = true /\ entry_fits e /\ db_get db0 Logs (entry_key e) = Some e.2.2) /\
    (forall g, group_fits g -> merge_changes db0 g.1 g.2 rollback_from U64_MAX = merge_values (group_values g all)) /\
    rollback_loop after_index restore_deletions (db_iterator db0 Logs [LogKey.CHANGE_KEY_PREFIX] Forward)
      (mkRollback db0 U32_MAX Collection.None merged_new []) = (st, true) /\
    rolled all (rollback_flush restore_deletions st).
Proof.
  intros Hwf Hv. destruct (log_entries db0 Hwf) as (l & El & Hf & Hs & Hl).
  set (all := filter (fun e : entry => gone e.2.1 = true) l).
  assert (forall e, e ∈ all <-> gone e.2.1 = true /\ entry_fits e /\ db_get db0 Logs (entry_key e) = Some e.2.2) as Hall.
  { intros e. unfold all. by rewrite list_elem_of_filter, Hl. }
  assert (StronglySorted entry_lt all) as Hsa by (by apply StronglySorted_filter).
  destruct (rollback_loop_inv all l [] (mkRollback db0 U32_MAX Collection.None merged_new [])) as (st & Est & Hi); [|done|done| |done| |].
  - apply Forall_forall. intros e (_ & ? & _)%Hall. done.
  - intros e [[? ?] Hg]%Hl. by eapply (Hv e.1 e.2.1).
  - split; [by left|split; cbn; lia|done|done|]. split; cbn.
    + intros cf k _. rewrite decide_False; [done|]. by intros [_ ?%not_elem_of_nil].
    + intros g _. symmetry. apply record_new.
  - exists all, st. split; [done|]. split; [intros; by apply merge_changes_group|].
    split; [by rewrite <- rollback_loop_prefix, El|]. by apply flush_rolled.
Qed.

Lemma gone_lookup (all : list entry) g i :
  (forall e, e ∈ all <-> gone e.2.1 = true /\ entry_fits e /\ db_get db0 Logs (entry_key e) = Some e.2.2) ->
  group_fits g -> fits 64 i ->
  (if decide (Logs = Logs /\ group_key g i ∈ (entry_key <$> all)) then None else db_get db0 Logs (group_key g i)) =
  if gone i then None else db_get db0 Logs (group_key g i).
Proof.
  intros Hall Hg Hi. case_decide as Hd.
  - destruct Hd as [_ (e & E & (Hgo & [Hg' Hi'] & _)%Hall)%list_elem_of_fmap]. unfold entry_key in E.
    apply group_key_inj in E as [_ ->]; [|done..]. by rewrite Hgo.
  - destruct (gone i) eqn:Eg; [|done]. destruct (db_get db0 Logs (group_key g i)) as [v|] eqn:Ev; [|done].
    destruct Hd. split; [done|]. apply list_elem_of_fmap. exists (g, (i, v)). split; [done|]. by apply Hall.
Qed.
Lemma raft_not_record r : not_record Logs (LogKey.serialize_raft r).
Proof. intros _ g _ E. apply (f_equal head) in E. discriminate E. Qed.
Lemma group_not_record g i : not_record Logs (group_key g i).
Proof. intros _ g' _ E. by apply (rollback_key_entry g' g i). Qed.

Lemma raft_not_entry r (d : list entry) : LogKey.serialize_raft r ∉ (entry_key <$> d).
Proof. intros (e & E & _)%list_elem_of_fmap. apply (f_equal head) in E. discriminate E. Qed.

(** The second loop, on the store that the first one leaves. *)
Lemma rolled_raft all db1 :
  raft_wf db0 -> rolled all db1 ->
  exists keys, rollback_raft after_index (db_iterator db1 Logs [LogKey.RAFT_KEY_PREFIX] Forward) = Some keys /\
    Forall (fun k => exists r, rid_fits r /\ k = LogKey.serialize_raft r) keys /\
    forall r, rid_fits r -> LogKey.serialize_raft r ∈ keys <->
      gone (rid_index r) = true /\ is_Some (db_get db0 Logs (LogKey.serialize_raft r)).
Proof.
  intros Hwf [Hk Hr]. assert (forall k, starts_with k [LogKey.RAFT_KEY_PREFIX] = true -> db_get db1 Logs k = db_get db0 Logs k) as Hsame.
  { intros k Hp. apply starts_with_iff in Hp as [x ->]. rewrite Hk.
    - rewrite decide_False; [done|]. intros [_ (e & E & _)%list_elem_of_fmap]. apply (f_equal head) in E. discriminate E.
    - intros _ g _ E. apply (f_equal head) in E. discriminate E. }
  destruct (rollback_raft_keys (db_iterator db1 Logs [LogKey.RAFT_KEY_PREFIX] Forward)) as (keys & E & Hraft & Hkeys).
  { intros [k v] [Hg Hp]%prefix_scan. rewrite Hsame in Hg by done. by apply (Hwf k v). }
  exists keys. split; [done|]. split; [done|]. intros r Hfit. rewrite Hkeys by done. rewrite <- Hsame by apply raft_key_starts. f_equiv. split.
  - intros ([k v] & Ek & [Hg _]%prefix_scan)%list_elem_of_fmap. cbn in Ek. subst k. by exists v.
  - intros [v Hv]. apply list_elem_of_fmap. exists (LogKey.serialize_raft r, v). split; [done|]. by apply prefix_scan.
Qed.
End RollbackSpec.

Lemma prepare_rollback_spec `{TreemapLaws} `{Roaring} `{StoreLaws DB} (db : DB) after_index restore_deletions :
  log_wf db -> change_values db -> raft_wf db -> fits 64 after_index -> after_index <> U64_MAX - 1 ->
  exists db', prepare_rollback_changes db after_index restore_deletions = (db', true) /\
    (forall g i, group_fits g -> fits 64 i ->
       db_get db' Logs (group_key g i) = if gone after_index i then None else db_get db Logs (group_key g i)) /\
    (forall r, rid_fits r ->
       db_get db' Logs (LogKey.serialize_raft r) = if gone after_index (rid_index r) then None else db_get db Logs (LogKey.serialize_raft r)) /\
    (forall g, group_fits g -> exists m, merge_changes db g.1 g.2 (rollback_from after_index) U64_MAX = Some m /\
       db_get db' Logs (rollback_key g) =
       if merged_is_empty (restored restore_deletions m) then db_get db Logs (rollback_key g) else Some (merged_serialize (restored restore_deletions m))) /\
    (forall cf k, (cf = Logs -> (forall g i, group_fits g -> fits 64 i -> k <> group_key g i) /\
         (forall r, rid_fits r -> k <> LogKey.serialize_raft r) /\ (forall g, group_fits g -> k <> rollback_key g)) ->
       db_get db' cf k = db_get db cf k).
Proof.
  intros Hwf Hval Hraft Hfit Hmax. destruct (rollback_changes_spec db after_index restore_deletions Hfit Hmax Hwf Hval) as (all & st & Hall & Hm & Est & Hr).
  destruct (rolled_raft db after_index restore_deletions all _ Hraft Hr) as (keys & Ek & Hkr & Hk).
  unfold prepare_rollback_changes. rewrite Est. cbn [negb]. rewrite Ek. rewrite Forall_forall in Hkr.
  set (db1 := rollback_flush restore_deletions st) in *.
  assert (exists db', match keys with [] => (db1, true) | _ :: _ => (db_write db1 (OpDelete Logs <$> keys), true) end = (db', true) /\
    forall cf k, db_get db' cf k = if decide (cf = Logs /\ k ∈ keys) then None else db_get db1 cf k) as (db' & Edb & Hdb).
  { destruct keys as [|k0 keys]; eexists; (split; [reflexivity|]); intros cf k; [|apply write_deletes].
    rewrite decide_False; [done|]. by intros [_ ?%not_elem_of_nil]. }
  exists db'. split; [exact Edb|]. clear Edb Est.
  assert (forall cf k, (cf = Logs -> forall r, rid_fits r -> k <> LogKey.serialize_raft r) -> db_get db' cf k = db_get db1 cf k) as Hsame.
  { intros cf k Hn. rewrite Hdb, decide_False; [done|]. intros [-> (r & Hr' & ->)%Hkr]. by apply (Hn eq_refl r). }
  split; [|split; [|split]].
  - intros g i Hg Hi. rewrite Hsame by (intros _ r _ E; apply (f_equal head) in E; discriminate E).
    rewrite (rolled_keys _ _ _ _ Hr) by apply group_not_record. by apply gone_lookup.
  - intros r Hr'. rewrite Hdb, (rolled_keys _ _ _ _ Hr) by apply raft_not_record.
    rewrite (decide_False (P := Logs = Logs /\ _ ∈ (entry_key <$> all))) by (intros [_ Hin]; by apply raft_not_entry in Hin).
    specialize (Hk r Hr'). destruct (gone after_index (rid_index r)), (db_get db Logs (LogKey.serialize_raft r)) as [v|]; case_decide as Hd; try done.
    + destruct Hd. split; [done|]. apply Hk. eauto.
    + destruct Hd as [_ [? _]%Hk]. done.
  - intros g Hg. rewrite Hsame by (intros _ r _ E; apply (f_equal head) in E; discriminate E).
    rewrite (rolled_record _ _ _ _ Hr) by done. destruct (merge_values_some (group_values g all)) as [m Em].
    { apply Forall_forall. intros v (e & -> & [_ (_ & [? ?] & ?)%Hall]%list_elem_of_filter)%list_elem_of_fmap. by apply (Hval e.1 e.2.1). }
    exists m. rewrite Hm, Em by done. done.
  - intros cf k Hn. rewrite Hsame by (intros E; apply (Hn E)). rewrite (rolled_keys _ _ _ _ Hr) by (intros E; apply (Hn E)).
    rewrite decide_False; [done|]. intros [-> (e & -> & (_ & [? ?] & _)%Hall)%list_elem_of_fmap]. by apply (proj1 (Hn eq_refl) e.1 e.2.1).
Qed.

(** C24. Rolling back is exact. On a log with well-formed keys and values,
    [prepare_rollback_changes] succeeds. Afterwards the change entries and the
    Raft entries above [after_index] (all of them for [U64_MAX]) are gone and
    the others are as before. Each account and collection has a record of the
    merged changes of its removed entries, without the deletions unless they
    are to be restored; when there is nothing to record the old record stays.
    No other key of any column family changes. *)
Theorem rollback_exact `{TreemapLaws} `{Roaring} `{StoreLaws DB} (db : DB) after_index restore_deletions :
  log_wf db -> change_values db -> raft_wf db -> fits 64 after_index -> after_index <> U64_MAX - 1 ->
  exists db', prepare_rollback_changes db after_index restore_deletions = (db', true) /\
    (forall g i, group_fits g -> fits 64 i ->
       db_get db' Logs (group_key g i) = if gone after_index i then None else db_get db Logs (group_key g i)) /\
    (forall r, rid_fits r ->
       db_get db' Logs (LogKey.serialize_raft r) = if gone after_index (rid_index r) then None else db_get db Logs (LogKey.serialize_raft r)) /\
    (forall g, group_fits g -> exists m, merge_changes db g.1 g.2 (rollback_from after_index) U64_MAX = Some m /\
       db_get db' Logs (rollback_key g) =
       if merged_is_empty (restored restore_deletions m) then db_get db Logs (rollback_key g) else Some (merged_serialize (restored restore_deletions m))) /\
    (forall cf k, (cf = Logs -> (forall g i, group_fits g -> fits 64 i -> k <> group_key g i) /\
         (forall r, rid_fits r -> k <> LogKey.serialize_raft r) /\ (forall g, group_fits g -> k <> rollback_key g)) ->
       db_get db' cf k = db_get db cf k).
Proof. apply prepare_rollback_spec. Qed.

Import CompactSample.
Import BitList.ListRoaring.

(** The sample log without what follows index 2: the deletion of 10 and the
    insertion of 12 are undone by account 1, and account 2 keeps its entry. *)
Lemma rollback_exact_witness :
  exists db', prepare_rollback_changes CompactSample.log 2 true = (db', true) /\
    db_get db' Logs (group_key (mail 1) 3) = None /\
    db_get db' Logs (group_key (mail 2) 2) = db_get CompactSample.log Logs (group_key (mail 2) 2) /\
    db_get db' Logs (rollback_key (mail 1)) = Some (merged_serialize (mkMerged {[12]} ∅ {[10]})).
Proof.
  destruct sample_compactable as [_ Hwf Hval [Hraft _ _ _] _ _].
  destruct (rollback_exact CompactSample.log 2 true Hwf Hval Hraft) as (db' & E & Hg & _ & Hm & _); [split; lia|done|].
  exists db'. split; [exact E|]. split; [|split].
  - rewrite Hg by (split; cbn; lia). reflexivity.
  - rewrite Hg by (split; cbn; lia). reflexivity.
  - destruct (Hm (mail 1)) as (m & Em & ->); [split; cbn; lia|].
    assert (merge_changes CompactSample.log (mail 1).1 (mail 1).2 (rollback_from 2) U64_MAX = Some (mkMerged {[12]} ∅ {[10]})) as Ec
      by (vm_compute; reflexivity).
    rewrite Ec in Em. injection Em as <-. vm_compute. reflexivity.
Defined.

(** ** Working off the records *)

Section Records.
Context `{RoaringLaws} `{!RoaringSize} `{StoreLaws DB}.

(** The keys with the prefix of the records hold records. *)
Definition merged_docs_ok (m : MergedChanges) : Prop := docs_ok (mg_inserts m) /\ docs_ok (mg_updates m) /\ docs_ok (mg_deletes m).
Definition records_wf (db : DB) : Prop :=
  forall k v, db_get db Logs k = Some v -> starts_with k [LogKey.ROLLBACK_KEY_PREFIX] = true ->
  exists g m, group_fits g /\ merged_docs_ok m /\ k = rollback_key g /\ v = merged_serialize m.

Lemma rollback_key_fields g : group_fits g ->
  deserialize_be_u32 (rollback_key g) LogKey.ACCOUNT_POS = Some g.1 /\ rollback_key g !! LogKey.COLLECTION_POS = Some (Collection.to_u8 g.2).
Proof.
  intros Hg. split; [by apply (deserialize_be_u32_app [LogKey.ROLLBACK_KEY_PREFIX])|].
  change ((be_bytes 4 g.1 ++ [Collection.to_u8 g.2]) !! 4%nat = Some (Collection.to_u8 g.2)). rewrite lookup_app_r; rewrite be_bytes_length; done.
Qed.

(** The first key the scan from the prefix finds. *)
Lemma first_record (db : DB) :
  match db_iterator db Logs [LogKey.ROLLBACK_KEY_PREFIX] Forward with
  | (k, v) :: _ => db_get db Logs k = Some v /\
      (starts_with k [LogKey.ROLLBACK_KEY_PREFIX] = false -> take_prefix [LogKey.ROLLBACK_KEY_PREFIX] (db_iterator db Logs [LogKey.ROLLBACK_KEY_PREFIX] Forward) = [])
  | [] => take_prefix [LogKey.ROLLBACK_KEY_PREFIX] (db_iterator db Logs [LogKey.ROLLBACK_KEY_PREFIX] Forward) = []
  end.
Proof.
  pose proof (fun k v => db_forward_elem db Logs [LogKey.ROLLBACK_KEY_PREFIX] k v) as Hin.
  destruct (db_iterator db Logs _ Forward) as [|[k v] it]; [done|]. split; [apply Hin; by left|]. intros E. cbn [take_prefix fst]. by rewrite E.
Qed.
End Records.

(** The records are worked off one by one. On a store whose records are
    well formed, [next_rollback_change] never fails: it returns nothing only
    when there is no record left, and otherwise a group with the changes of its
    record; [remove_rollback_change] of that group removes this record and
    nothing else, and leaves the records well formed. *)
Theorem rollback_records_drained `{RoaringLaws} `{!RoaringSize} `{StoreLaws DB} (db : DB) :
  records_wf db ->
  match next_rollback_change db with
  | Some None => forall k, starts_with k [LogKey.ROLLBACK_KEY_PREFIX] = true -> db_get db Logs k = None
  | Some (Some (account_id, collection, changes)) =>
      db_get db Logs (rollback_key (account_id, collection)) = Some (merged_serialize changes) /\
      (forall cf k, db_get (remove_rollback_change db account_id collection) cf k =
         if decide (cf = Logs /\ k = rollback_key (account_id, collection)) then None else db_get db cf k) /\
      records_wf (remove_rollback_change db account_id collection)
  | None => False
  end.
Proof.
  intros Hwf. unfold next_rollback_change. pose proof (first_record db) as Hfirst.
  pose proof (fun k v => prefix_scan db Logs [LogKey.ROLLBACK_KEY_PREFIX] k v) as Hscan.
  assert (take_prefix [LogKey.ROLLBACK_KEY_PREFIX] (db_iterator db Logs [LogKey.ROLLBACK_KEY_PREFIX] Forward) = [] ->
    forall k, starts_with k [LogKey.ROLLBACK_KEY_PREFIX] = true -> db_get db Logs k = None) as Hnone.
  { intros E k Hp. destruct (db_get db Logs k) as [v|] eqn:Ev; [|done]. specialize (Hscan k v). rewrite E in Hscan.
    destruct (not_elem_of_nil (k, v)). by apply Hscan. }
  destruct (db_iterator db Logs _ Forward) as [|[k v] it]; [by apply Hnone|]. destruct Hfirst as [Hg Hno].
  destruct (starts_with k _) eqn:Ep; [|by apply Hnone, Hno].
  destruct (Hwf k v Hg Ep) as ([a c] & m & Hfit & (Hi & Hu & Hd) & -> & ->). destruct (rollback_key_fields (a, c) Hfit) as [-> ->].
  cbn [mbind option_bind fst snd]. rewrite merged_roundtrip by done. cbn [mbind option_bind]. rewrite Collection.of_to_u8.
  assert (forall cf k, db_get (remove_rollback_change db a c) cf k = if decide (cf = Logs /\ k = rollback_key (a, c)) then None else db_get db cf k) as Hrm.
  { intros cf k. unfold remove_rollback_change. etrans; [apply (write_deletes db Logs [rollback_key (a, c)])|].
    repeat case_decide; rewrite ?list_elem_of_singleton in *; naive_solver. }
  split; [done|]. split; [exact Hrm|]. intros k v. rewrite Hrm. case_decide; [done|]. apply Hwf.
Qed.

(** A tombstone, which a leader writes to the log when a document is deleted
    and removes when the deletion is committed, counts as a pending rollback
    although no record is there: the scan does not look at the prefix of the
    key it finds. *)
Theorem tombstone_pends_rollback :
  let db := db_write MemStore.empty [OpSet Logs (LogKey.serialize_tombstone 7 1) [0]] in
  next_rollback_change db = Some None /\ has_pending_rollback db = Some true.
Proof. split; vm_compute; reflexivity. Qed.
