(* ===== verification/Replicate.v ===== *)
(** * Copying the log to a follower: src/cluster/log/entries_get.rs,
      log/changes_get.rs, follower/log_update.rs, and the state [AppendLogs] of
      leader/spawn_leader.rs

    A leader sends its log from the last index of a follower on, in batches of
    limited size: each Raft entry, followed by the change entries of the
    accounts and collections it names. The follower writes them to its own
    log. The batches, the writes and the exchange of the two are modelled; a
    message that gets lost ends the exchange and is not part of it. Sizes are
    sums of lengths of stored values and are not wrapped. *)

From S2P Require Import Prelude Leb128 Serialize Types Keys Bitmap KV ChangeLog RaftLog JmapId Compact MergeLog Rollback.

Inductive DocumentUpdate : Type :=
| DInsert (jmap_id : Z) (fields : list Z) (blobs : list BlobId) (term_index : option BlobId)
| DUpdate (jmap_id : Z) (fields : list Z)
| DDelete (document_id : DocumentId).
Inductive Update : Type :=
| UBegin (account_id : AccountId) (collection : Collection.t)
| UDocument (update : DocumentUpdate)
| UChange (change : list Z)
| UBlob (blob_id : BlobId) (blob : list Z)
| ULog (raft_id : RaftId) (log : list Z)
| UEof.

(** Collections still to be sent, with their accounts. *)
Abbreviation pending := (list (Z * list AccountId)).

Section Leader.
Context `{Store DB}.

Fixpoint log_changes (db : DB) (account_id : AccountId) (change_id : ChangeId) (collections : list Collection.t) (size : Z)
    (entries : list Update) : option (list Update * Z) :=
  match collections with
  | [] => Some (entries, size)
  | collection :: collections =>
      change ← db_get db Logs (LogKey.serialize_change account_id collection change_id);
      log_changes db account_id change_id collections (size + Z.of_nat (length change) + 4 + 1)
        (entries ++ [UBegin account_id collection; UChange change])
  end.
Definition get_log_changes (db : DB) (entries : list Update) (account_id : AccountId) (changed_collections : Z) (change_id : ChangeId)
    : option (list Update * Z) :=
  log_changes db account_id change_id (bm_to_list changed_collections) 0 entries.

(** The loop over the Raft log: the updates, their size, the last index and
    the accounts of a snapshot, which ends the loop. *)
Fixpoint entries_loop (db : DB) (start_index to_index : LogIndex) (batch_size : Z) (it : list (list Z * list Z))
    (entries : list Update) (entries_size : Z) (last_index : LogIndex) : option (list Update * Z * LogIndex * pending) :=
  match it with
  | [] => Some (entries, entries_size, last_index, [])
  | (key, value) :: it =>
      if negb (starts_with key [LogKey.RAFT_KEY_PREFIX]) then Some (entries, entries_size, last_index, [])
      else
        raft_id ← LogKey.deserialize_raft key;
        if (start_index <? rid_index raft_id) || (start_index =? U64_MAX) then
          let last_index := rid_index raft_id in
          let entries_size := entries_size + Z.of_nat (length value) + 16 in
          let entries := entries ++ [ULog raft_id value] in
          entry ← entry_deserialize value;
          match entry with
          | Item account_id changed_collections =>
              '(entries, size) ← get_log_changes db entries account_id changed_collections (rid_index raft_id);
              let entries_size := entries_size + size in
              if (rid_index raft_id =? to_index) || (batch_size <=? entries_size) then Some (entries, entries_size, last_index, [])
              else entries_loop db start_index to_index batch_size it entries entries_size last_index
          | Snapshot changed_accounts => Some (entries, entries_size, last_index, changed_accounts)
          end
        else entries_loop db start_index to_index batch_size it entries entries_size last_index
  end.

(** The loop over the accounts of a snapshot; each turn removes an account or
    a group. *)
Fixpoint pending_loop (fuel : nat) (db : DB) (last_index : LogIndex) (batch_size : Z) (pending_changes : pending)
    (entries : list Update) (entries_size : Z) : option (list Update * pending) :=
  match fuel with
  | O => None
  | S fuel =>
      match last pending_changes with
      | None => Some (entries, pending_changes)
      | Some (collections, account_ids) =>
          match last account_ids with
          | Some account_id =>
              let pending_changes := removelast pending_changes ++ [(collections, removelast account_ids)] in
              '(entries, size) ← get_log_changes db entries account_id collections last_index;
              let entries_size := entries_size + size in
              if batch_size <=? entries_size then Some (entries, pending_changes)
              else pending_loop fuel db last_index batch_size pending_changes entries entries_size
          | None => pending_loop fuel db last_index batch_size (removelast pending_changes) entries entries_size
          end
      end
  end.
Definition pending_size (p : pending) : nat := sum_list ((fun g => S (length g.2)) <$> p).

Definition get_log_entries (db : DB) (last_index to_index : LogIndex) (pending_changes : pending) (batch_size : Z)
    : option (list Update * pending * LogIndex) :=
  let start_index := last_index in
  let key := LogKey.serialize_raft (mkRaftId 0 (if negb (start_index =? U64_MAX) then start_index else 0)) in
  '(entries, entries_size, last_index, pending_changes) ←
    (if bool_decide (pending_changes = []) && negb (start_index =? to_index) then
       entries_loop db start_index to_index batch_size (db_iterator db Logs key Forward) [] 0 last_index
     else Some ([], 0, last_index, pending_changes));
  '(entries, pending_changes) ←
    (if negb (bool_decide (pending_changes = [])) then
       pending_loop (S (pending_size pending_changes)) db last_index batch_size pending_changes entries entries_size
     else Some (entries, pending_changes));
  let entries := if (last_index =? to_index) && bool_decide (pending_changes = []) then entries ++ [UEof] else entries in
  Some (entries, pending_changes, last_index).
End Leader.

(** ** The follower *)

(** The fields of [RaftIndexes] that the log phase changes, with the changed
    accounts. *)
Record log_state := mkLogState { uncommitted_index : LogIndex; merge_index : LogIndex; changed_accounts : gmap AccountId Z }.
(** The variables of the loop over the updates. *)
Record update_state := mkUpdateState {
  us_account : AccountId; us_collection : Collection.t; us_batch : list WriteOperation; us_done : bool; us_log : log_state }.
Definition update_step (st : update_state) (update : Update) : update_state :=
  match update with
  | UBegin account_id collection => mkUpdateState account_id collection (us_batch st) (us_done st) (us_log st)
  | UChange change =>
      let l := us_log st in
      mkUpdateState (us_account st) (us_collection st)
        (us_batch st ++ [OpSet Logs (LogKey.serialize_change (us_account st) (us_collection st) (uncommitted_index l)) change]) (us_done st)
        (mkLogState (uncommitted_index l) (merge_index l)
           (<[us_account st := bm_insert (default bm_new (changed_accounts l !! us_account st)) (us_collection st)]> (changed_accounts l)))
  | ULog raft_id log =>
      let l := us_log st in
      mkUpdateState (us_account st) (us_collection st) (us_batch st ++ [OpSet Logs (LogKey.serialize_raft raft_id) log]) (us_done st)
        (mkLogState (rid_index raft_id) (if merge_index l =? U64_MAX then rid_index raft_id else merge_index l) (changed_accounts l))
  | UEof => mkUpdateState (us_account st) (us_collection st) (us_batch st) true (us_log st)
  | UDocument _ | UBlob _ _ => st
  end.
(** [handle_update_log]: the store, the indexes and whether the log is complete,
    upon which the follower requests the documents. *)
Definition handle_update_log `{Store DB} (db : DB) (l : log_state) (updates : list Update) : DB * log_state * bool :=
  let st := fold_left update_step updates (mkUpdateState U32_MAX Collection.None [] (bool_decide (updates = [])) l) in
  (match us_batch st with [] => db | batch => db_write db batch end, us_log st, us_done st).

(** ** The exchange *)

(** A leader in [AppendLogs] and a follower that takes what it sends, until
    there is nothing to send or the follower says that the log is complete. *)
Fixpoint log_phase `{Store DB} (fuel : nat) (leader : DB) (to_index : LogIndex) (batch_size : Z) (pending_changes : pending)
    (follower_last_index : LogIndex) (follower : DB) (l : log_state) : option (DB * log_state * LogIndex) :=
  match fuel with
  | O => None
  | S fuel =>
      if negb (bool_decide (pending_changes = [])) || negb (follower_last_index =? to_index) then
        '(updates, pending_changes, last_index) ← get_log_entries leader follower_last_index to_index pending_changes batch_size;
        let '(follower, l, is_done) := handle_update_log follower l updates in
        if (is_done : bool) then Some (follower, l, last_index)
        else log_phase fuel leader to_index batch_size pending_changes last_index follower l
      else Some (follower, l, follower_last_index)
  end.

(** ** What is sent *)

(** A batch is made of whole items: a Raft entry, or the change entries of an
    account at the index of the last Raft entry. *)
Inductive item : Type :=
| ILog (raft_id : RaftId) (log : list Z)
| IAccount (account_id : AccountId) (collections : Z).
Definition change_key (a : AccountId) (i : LogIndex) (c : Collection.t) : list Z := LogKey.serialize_change a c i.
Definition item_last (i : LogIndex) (x : item) : LogIndex := match x with ILog r _ => rid_index r | IAccount _ _ => i end.
Definition item_keys (i : LogIndex) (x : item) : list (list Z) :=
  match x with ILog r _ => [LogKey.serialize_raft r] | IAccount a cs => change_key a i <$> bm_to_list cs end.

Section Items.
Context `{StoreLaws DB}.
Variable leader : DB.

Definition stored_value (k : list Z) : list Z := default [] (db_get leader Logs k).
Definition item_updates (i : LogIndex) (x : item) : list Update :=
  match x with
  | ILog r v => [ULog r v]
  | IAccount a cs => bm_to_list cs ≫= (fun c => [UBegin a c; UChange (stored_value (change_key a i c))])
  end.
Fixpoint items_last (i : LogIndex) (l : list item) : LogIndex := match l with [] => i | x :: l => items_last (item_last i x) l end.
Fixpoint items_keys (i : LogIndex) (l : list item) : list (list Z) :=
  match l with [] => [] | x :: l => item_keys i x ++ items_keys (item_last i x) l end.
Fixpoint items_updates (i : LogIndex) (l : list item) : list Update :=
  match l with [] => [] | x :: l => item_updates i x ++ items_updates (item_last i x) l end.
(** The leader has what the items stand for. *)
Definition item_ok (i : LogIndex) (x : item) : Prop :=
  Forall (fun k => is_Some (db_get leader Logs k)) (item_keys i x) /\
  match x with ILog r v => db_get leader Logs (LogKey.serialize_raft r) = Some v | IAccount _ _ => True end.
Fixpoint items_ok (i : LogIndex) (l : list item) : Prop :=
  match l with [] => True | x :: l => item_ok i x /\ items_ok (item_last i x) l end.

Lemma items_last_app i l k : items_last i (l ++ k) = items_last (items_last i l) k.
Proof. revert i. induction l as [|x l IH]; intros i; cbn; [done|apply IH]. Qed.
Lemma items_keys_app i l k : items_keys i (l ++ k) = items_keys i l ++ items_keys (items_last i l) k.
Proof. revert i. induction l as [|x l IH]; intros i; cbn; [done|]. by rewrite IH, app_assoc. Qed.
Lemma items_updates_app i l k : items_updates i (l ++ k) = items_updates i l ++ items_updates (items_last i l) k.
Proof. revert i. induction l as [|x l IH]; intros i; cbn; [done|]. by rewrite IH, app_assoc. Qed.
Lemma items_ok_app i l k : items_ok i (l ++ k) <-> items_ok i l /\ items_ok (items_last i l) k.
Proof. revert i. induction l as [|x l IH]; intros i; cbn; [tauto|]. rewrite IH. tauto. Qed.

(** *** The follower writes the keys of the items *)

(** Operations that copy values of the leader. *)
Definition copies (ops : list WriteOperation) (keys : list (list Z)) : Prop :=
  ops = (fun k => OpSet Logs k (stored_value k)) <$> keys /\ Forall (fun k => is_Some (db_get leader Logs k)) keys.
Lemma copies_app ops keys ops' keys' : copies ops keys -> copies ops' keys' -> copies (ops ++ ops') (keys ++ keys').
Proof. intros [-> H1'] [-> H2']. split; [by rewrite fmap_app|by apply Forall_app]. Qed.
Lemma copies_get (db : DB) ops keys cf k : copies ops keys ->
  db_get (db_write db ops) cf k = if decide (cf = Logs /\ k ∈ keys) then db_get leader Logs k else db_get db cf k.
Proof.
  intros [-> Hk]. rewrite db_write_get. generalize (db_get db cf k). induction Hk as [|k' keys [v Hv] _ IH]; intros o; cbn [fmap list_fmap fold_left].
  - rewrite decide_False; [done|]. by intros [_ ?%not_elem_of_nil].
  - rewrite IH. unfold op_effect. cbn [op_cf op_key]. case_bool_decide as E1.
    + destruct E1 as [<- <-]. rewrite (decide_True (P := _ /\ _ ∈ _ :: keys)) by (split; [done|by left]).
      unfold stored_value. rewrite Hv. cbn. by destruct (decide _).
    + destruct (decide (cf = Logs /\ k ∈ keys)) as [Hd|Hd], (decide (cf = Logs /\ k ∈ k' :: keys)) as [Hd'|Hd']; try done; exfalso.
      * apply Hd'. destruct Hd. split; [done|by right].
      * destruct Hd' as [-> [->|Hin]%elem_of_cons]; [by apply E1|by apply Hd].
Qed.

Lemma update_items i l st : items_ok i l -> uncommitted_index (us_log st) = i ->
  let st' := fold_left update_step (items_updates i l) st in
  uncommitted_index (us_log st') = items_last i l /\ us_done st' = us_done st /\
  exists ops, us_batch st' = us_batch st ++ ops /\ copies ops (items_keys i l).
Proof.
  cbn zeta. revert i st. induction l as [|x l IH]; intros i st Hok Hi; cbn [items_updates items_keys items_last fold_left].
  { split_and!; [done..|]. exists []. by rewrite app_nil_r. }
  destruct Hok as [Hx Hok]. rewrite fold_left_app.
  assert (let st1 := fold_left update_step (item_updates i x) st in uncommitted_index (us_log st1) = item_last i x /\ us_done st1 = us_done st /\
    exists ops, us_batch st1 = us_batch st ++ ops /\ copies ops (item_keys i x)) as (E1 & E2 & ops & E3 & Hc).
  { cbn zeta. destruct Hx as [Hk Hv]. destruct x as [r v|a cs]; cbn [item_updates item_last item_keys] in *.
    - cbn. split_and!; [done..|]. eexists. split; [done|]. split; [|done]. cbn. unfold stored_value. by rewrite Hv.
    - clear IH Hok Hv. revert st Hi. induction (bm_to_list cs) as [|c cl IHc]; intros st Hi; cbn [mbind list_bind app fold_left fmap list_fmap].
      { split_and!; [done..|]. exists []. by rewrite app_nil_r. }
      apply Forall_cons in Hk as [Hc Hk]. destruct (IHc Hk (update_step (update_step st (UBegin a c)) (UChange (stored_value (change_key a i c))))) as (E1 & E2 & ops & E3 & Ho); [done|].
      split; [exact E1|]. split; [exact E2|]. eexists. split; [etrans; [exact E3|cbn; by rewrite <- app_assoc]|].
      cbn [us_log uncommitted_index us_account us_collection]. rewrite Hi. apply (copies_app [_] [_]); [|done]. split; [done|by constructor]. }
  destruct (IH (item_last i x) _ Hok E1) as (F1 & F2 & ops' & F3 & Hc'). split; [exact F1|]. split; [by rewrite F2|].
  exists (ops ++ ops'). split; [by rewrite F3, E3, app_assoc|by apply copies_app].
Qed.

(** A batch of items, with or without the end mark. *)
Lemma handle_items (follower : DB) i l items (eof : bool) :
  items_ok i items -> uncommitted_index l = i \/ (exists r v k, items = ILog r v :: k) ->
  exists db' l', handle_update_log follower l (items_updates i items ++ if eof then [UEof] else []) =
    (db', l', eof || bool_decide (items_updates i items = [])) /\
    uncommitted_index l' = items_last i items /\
    forall cf k, db_get db' cf k = if decide (cf = Logs /\ k ∈ items_keys i items) then db_get leader Logs k else db_get follower cf k.
Proof.
  intros Hok Hi. assert (exists j, uncommitted_index l = j /\ items_ok j items /\ items_updates i items = items_updates j items /\
    items_last i items = items_last j items /\ items_keys i items = items_keys j items) as (j & Hj & Hokj & -> & -> & ->).
  { destruct Hi as [Hi|(r & v & k & ->)]; [by exists i|by eexists]. }
  clear i Hi Hok. rename j into i, Hj into Hi, Hokj into Hok. unfold handle_update_log. set (d := bool_decide _).
  destruct (update_items i items (mkUpdateState U32_MAX Collection.None [] d l) Hok Hi) as (E1 & E2 & ops & E3 & Hc).
  rewrite fold_left_app. set (st := fold_left update_step (items_updates i items) _) in *. cbn in E2, E3.
  exists (match ops with [] => follower | _ => db_write follower ops end), (us_log st). split; [|split; [done|]].
  - destruct eof; cbn; rewrite ?E3; cbn; [by destruct ops|]. rewrite E2. unfold d. rewrite app_nil_r. by destruct ops.
  - intros cf k. destruct ops as [|op ops]; [|by apply copies_get].
    destruct Hc as [Hc _]. symmetry in Hc. apply fmap_nil_inv in Hc. rewrite Hc, decide_False; [done|]. by intros [_ ?%not_elem_of_nil].
Qed.
End Items.

(** ** The leader sends the items that remain *)

(** The accounts of a snapshot, in the order in which they are sent. *)
Definition pend_items (p : pending) : list item := rev p ≫= (fun g => (fun a => IAccount a g.1) <$> rev g.2).
Definition entry_items (e : raft_entry) : list item :=
  ILog e.1 e.2.1 :: match e.2.2 with Item a cs => [IAccount a cs] | Snapshot g => pend_items g end.
Definition is_account (x : item) : Prop := match x with IAccount _ _ => True | ILog _ _ => False end.

Lemma pend_items_account p cs ids a : pend_items (p ++ [(cs, ids ++ [a])]) = IAccount a cs :: pend_items (p ++ [(cs, ids)]).
Proof. unfold pend_items. rewrite !rev_app_distr. cbn. by rewrite rev_app_distr. Qed.
Lemma pend_items_group p cs : pend_items (p ++ [(cs, [])]) = pend_items p.
Proof. unfold pend_items. by rewrite rev_app_distr. Qed.
Lemma pend_items_accounts p : Forall is_account (pend_items p).
Proof. apply Forall_forall. by intros x (g & (a & -> & _)%list_elem_of_fmap & _)%list_elem_of_bind. Qed.
Lemma accounts_last i l : Forall is_account l -> items_last i l = i.
Proof. induction 1 as [|[] l Hx _ IH]; cbn; done. Qed.
Lemma sum_list_app l k : sum_list (l ++ k) = (sum_list l + sum_list k)%nat.
Proof. induction l as [|x l IH]; cbn; lia. Qed.
Lemma pending_size_snoc p g : pending_size (p ++ [g]) = (pending_size p + S (length g.2))%nat.
Proof. unfold pending_size. rewrite fmap_app, sum_list_app. cbn. lia. Qed.

Section Sending.
Context `{StoreLaws DB}.
Variable leader : DB.

Lemma log_changes_spec a i cl : forall size entries,
  Forall (fun k => is_Some (db_get leader Logs k)) (change_key a i <$> cl) ->
  exists sz, log_changes leader a i cl size entries =
    Some (entries ++ (cl ≫= (fun c => [UBegin a c; UChange (stored_value leader (change_key a i c))])), sz) /\ size <= sz /\ (sz = size -> cl = []).
Proof.
  induction cl as [|c cl IH]; intros size entries Hk; cbn [log_changes mbind list_bind].
  { exists size. rewrite app_nil_r. split_and!; [done|lia|done]. }
  cbn in Hk. apply Forall_cons in Hk as [[v Hv] Hk]. unfold change_key at 1 in Hv. rewrite Hv. cbn [mbind option_bind].
  destruct (IH (size + Z.of_nat (length v) + 4 + 1) (entries ++ [UBegin a c; UChange v]) Hk) as (sz & -> & Hle & _).
  exists sz. split; [|lia]. unfold stored_value, change_key. rewrite Hv. by rewrite <- app_assoc.
Qed.
Lemma get_log_changes_spec a i cs entries : item_ok leader i (IAccount a cs) ->
  exists sz, get_log_changes leader entries a cs i = Some (entries ++ item_updates leader i (IAccount a cs), sz) /\
    0 <= sz /\ (item_updates leader i (IAccount a cs) = [] -> sz = 0).
Proof.
  intros [Hk _]. destruct (log_changes_spec a i (bm_to_list cs) 0 entries Hk) as (sz & E & Hle & Hz). exists sz. split; [exact E|]. split; [done|].
  cbn [item_updates]. unfold get_log_changes in E. destruct (bm_to_list cs) as [|c cl]; intros Hn; [|discriminate Hn]. cbn in E. by injection E.
Qed.

Lemma pending_loop_spec batch i fuel : forall p entries size,
  (pending_size p < fuel)%nat -> items_ok leader i (pend_items p) -> 0 < batch -> (entries = [] -> size = 0) ->
  exists its p', pending_loop fuel leader i batch p entries size = Some (entries ++ items_updates leader i its, p') /\
    pend_items p = its ++ pend_items p' /\ Forall is_account its /\ (p <> [] -> (pending_size p' < pending_size p)%nat) /\
    (entries ++ items_updates leader i its = [] -> p' = []).
Proof.
  induction fuel as [|fuel IH]; intros p entries size Hf Hok Hb He; [lia|]. cbn [pending_loop].
  destruct p as [|[cs ids] p _] using rev_ind.
  { exists [], []. cbn. rewrite app_nil_r. split_and!; try done. }
  rewrite last_snoc. rewrite pending_size_snoc in *. cbn [snd] in *. rewrite removelast_last.
  destruct ids as [|a ids _] using rev_ind.
  { cbn [last]. rewrite pend_items_group in *. destruct (IH p entries size) as (its & p' & E & Ep & Ha & Hlt & Hn); [cbn in Hf; lia|done..|].
    exists its, p'. split_and!; try done. intros _. destruct p as [|g p]; [|specialize (Hlt ltac:(done)); lia].
    destruct fuel; cbn in E; [done|]. injection E as _ <-. cbn. lia. }
  rewrite last_snoc, removelast_last, pend_items_account in *. destruct Hok as [Hx Hok]. cbn [item_last] in Hok.
  destruct (get_log_changes_spec a i cs entries Hx) as (sz & -> & Hsz & Hz). cbn [mbind option_bind].
  assert (pending_size (p ++ [(cs, ids)]) = (pending_size p + S (length ids))%nat) as Es by apply pending_size_snoc.
  rewrite length_app in *. cbn [length] in *.
  assert (entries ++ item_updates leader i (IAccount a cs) = [] -> size + sz = 0) as Hzero.
  { intros [E1 E2]%app_nil. rewrite He, Hz by done. lia. }
  destruct (Z.leb_spec batch (size + sz)) as [Hle|Hgt].
  - exists [IAccount a cs], (p ++ [(cs, ids)]). cbn [items_updates]. rewrite app_nil_r. split_and!; [done|done|by repeat constructor|lia|].
    intros E. specialize (Hzero E). lia.
  - destruct (IH (p ++ [(cs, ids)]) (entries ++ item_updates leader i (IAccount a cs)) (size + sz)) as (its & p' & E & Ep & Ha & Hlt & Hn);
      [lia|done|done|done|].
    exists (IAccount a cs :: its), p'. cbn [items_updates item_last]. rewrite E, Ep, !app_assoc. split_and!; [done|done|by constructor| |by rewrite <- app_assoc in *].
    intros _. assert (p ++ [(cs, ids)] <> []) as Hne by (by destruct p). specialize (Hlt Hne). lia.
Qed.

(** *** The Raft log of the leader *)

Definition is_entry (e : raft_entry) : Prop :=
  rid_fits e.1 /\ db_get leader Logs (LogKey.serialize_raft e.1) = Some e.2.1 /\ entry_deserialize e.2.1 = Some e.2.2.
(** A log that can be sent: readable entries, one for an index, whose changes
    are in the change log. *)
Record sendable : Prop := {
  sd_wf : raft_wf leader;
  sd_read r v : rid_fits r -> db_get leader Logs (LogKey.serialize_raft r) = Some v -> exists e, entry_deserialize v = Some e /\ entry_ok e;
  sd_changes e a cs c : is_entry e -> (a, cs) ∈ entry_pairs e.2.2 -> c ∈ bm_to_list cs ->
    is_Some (db_get leader Logs (LogKey.serialize_change a c (rid_index e.1)));
  sd_unique r r' : in_log leader r -> in_log leader r' -> rid_index r = rid_index r' -> r = r';
  sd_max r : in_log leader r -> rid_index r < U64_MAX
}.
Definition index_lt (e e' : raft_entry) : Prop := rid_index e.1 < rid_index e'.1.

Hypothesis Hsend : sendable.

Lemma entry_in_log e : is_entry e -> in_log leader e.1.
Proof. intros (Hf & Hg & _). split; [done|]. rewrite Hg. by eexists. Qed.
Lemma entry_unique e e' : is_entry e -> is_entry e' -> rid_index e.1 = rid_index e'.1 -> e = e'.
Proof.
  intros He He' E. assert (e.1 = e'.1) as Er by (apply (sd_unique Hsend); [by apply entry_in_log..|done]).
  destruct He as (_ & Hg & Hd), He' as (_ & Hg' & Hd'). rewrite Er in Hg. destruct e as [r [v x]], e' as [r' [v' x']]. cbn in *. congruence.
Qed.

Lemma raft_scan i : fits 64 i ->
  exists E, take_prefix [LogKey.RAFT_KEY_PREFIX] (db_iterator leader Logs (LogKey.serialize_raft (mkRaftId 0 i)) Forward) = raft_kv <$> E /\
    StronglySorted index_lt E /\ forall e, e ∈ E <-> is_entry e /\ i <= rid_index e.1.
Proof.
  intros Hi. assert (rid_fits (mkRaftId 0 i)) as Hri by (split; [done|split; cbn; lia]).
  set (it := db_iterator leader Logs (LogKey.serialize_raft (mkRaftId 0 i)) Forward).
  pose proof (fun k v => prefix_iteration leader Logs [LogKey.RAFT_KEY_PREFIX] (be_bytes 8 i ++ be_bytes 8 0) k v) as Hscan. fold it in Hscan.
  pose proof (take_prefix_sorted [LogKey.RAFT_KEY_PREFIX] it (db_forward_sorted leader Logs _)) as Hs.
  change ([LogKey.RAFT_KEY_PREFIX] ++ be_bytes 8 i ++ be_bytes 8 0) with (LogKey.serialize_raft (mkRaftId 0 i)) in Hscan. fold it in Hscan.
  destruct (Forall_image raft_kv (fun e => is_entry e /\ i <= rid_index e.1) (take_prefix [LogKey.RAFT_KEY_PREFIX] it)) as (E & Eq & HE).
  { intros [k v] (Hg & Hp & Hle)%Hscan. destruct (sd_wf Hsend k v Hg Hp) as (r & Hr & ->). destruct (sd_read Hsend r v Hr Hg) as (x & Hx & _).
    exists (r, (v, x)). split; [done|]. split; [done|]. apply raft_key_le in Hle as [?|[? _]]; [cbn in *; lia..|done|done]. }
  exists E. split; [exact Eq|]. rewrite Eq in Hs, Hscan. rewrite Forall_forall in HE. split.
  - clear Hscan Eq. induction E as [|e E IH]; [constructor|]. cbn [fmap list_fmap] in Hs. apply StronglySorted_inv in Hs as [Hs Hlt].
    constructor; [apply IH; [done|intros; apply HE; by right]|]. rewrite Forall_fmap, Forall_forall in Hlt. apply Forall_forall. intros e' He'.
    destruct (HE e) as [Hx _]; [by left|]. destruct (HE e') as [Hy _]; [by right|]. specialize (Hlt _ He'). unfold index_lt.
    assert (bytes_le (LogKey.serialize_raft e.1) (LogKey.serialize_raft e'.1)) as Hle by (apply bytes_le_lt_eq; by left).
    apply raft_key_le in Hle; [|apply Hx|apply Hy]. destruct (Z.eq_dec (rid_index e.1) (rid_index e'.1)) as [Ei|]; [|destruct Hle; lia].
    rewrite (entry_unique _ _ Hx Hy Ei) in Hlt. exfalso. revert Hlt. unfold compose, raft_kv. cbn. apply bytes_lt_irrefl.
  - intros e. split; [apply HE|]. intros [He Hle]. assert (raft_kv e ∈ (raft_kv <$> E)) as Hin.
    { destruct e as [r [v x]]. apply Hscan. destruct He as (Hr & Hg & _). split_and!; [done|done|]. apply raft_key_le; [done..|]. unfold rid_le. cbn in *. destruct Hr as [_ [? _]]. lia. }
    apply list_elem_of_fmap in Hin as (e' & Ek & Hin). destruct (HE _ Hin) as [He' _]. pose proof (f_equal fst Ek) as Hk. cbn in Hk.
    apply raft_key_inj in Hk; [|apply He|apply He']. rewrite (entry_unique e e'); [done..|]. by rewrite Hk.
Qed.

Lemma entries_loop_prefix start to batch it : forall entries size i,
  entries_loop leader start to batch (take_prefix [LogKey.RAFT_KEY_PREFIX] it) entries size i = entries_loop leader start to batch it entries size i.
Proof.
  induction it as [|[k v] it IH]; intros entries size i; [done|]. cbn [take_prefix fst].
  destruct (starts_with k _) eqn:E; cbn [entries_loop]; rewrite E; [|done]. cbn [negb].
  destruct (LogKey.deserialize_raft k); [|done]. cbn [mbind option_bind]. destruct (_ || _); [|apply IH].
  destruct (entry_deserialize v) as [[a cs|g]|]; [|done..]. cbn [mbind option_bind].
  destruct (get_log_changes _ _ _ _ _) as [[us sz]|]; [|done]. cbn [mbind option_bind]. destruct (_ || _); [done|apply IH].
Qed.

(** A scan of the log: whole entries up to one that ends the batch, whose
    accounts may be left to send. *)
Lemma entries_loop_spec start to batch E : forall entries size i,
  Forall is_entry E -> (exists e, e ∈ E /\ gone start (rid_index e.1) = true /\ rid_index e.1 = to) ->
  items_ok leader i (filter (fun e : raft_entry => gone start (rid_index e.1) = true) E ≫= entry_items) ->
  exists l1 e l2 its size' p,
    filter (fun e : raft_entry => gone start (rid_index e.1) = true) E = l1 ++ e :: l2 /\ Forall (fun e => rid_index e.1 <> to) l1 /\
    entries_loop leader start to batch (raft_kv <$> E) entries size i = Some (entries ++ items_updates leader i its, size', rid_index e.1, p) /\
    its <> [] /\ (l1 ++ [e]) ≫= entry_items = its ++ pend_items p /\ items_last i its = rid_index e.1 /\
    (pending_size p <= match e.2.2 with Snapshot g => pending_size g | Item _ _ => 0 end)%nat.
Proof.
  induction E as [|e E IH]; intros entries size i HE (e0 & Hin & Hg0 & Ht) Hok; [by apply not_elem_of_nil in Hin|].
  apply Forall_cons in HE as [(Hr & Hg & Hd) HE]. cbn [fmap list_fmap entries_loop]. unfold raft_kv at 1. cbv beta iota.
  rewrite raft_key_starts, raft_key_decode by done. cbn [negb mbind option_bind]. rewrite filter_cons in *.
  assert ((start <? rid_index e.1) || (start =? U64_MAX) = gone start (rid_index e.1)) as -> by apply orb_comm.
  destruct (gone start (rid_index e.1)) eqn:Eg.
  2: { rewrite decide_False in * by done. apply IH; [done| |done]. exists e0. apply elem_of_cons in Hin as [->|Hin]; [congruence|done]. }
  rewrite decide_True in * by done. rewrite Hd. cbn [mbind option_bind]. cbn [mbind list_bind] in Hok. apply items_ok_app in Hok as [Hoke Hok].
  assert (items_last i (entry_items e) = rid_index e.1) as Hle.
  { unfold entry_items. cbn. apply accounts_last. destruct e.2.2; [by repeat constructor|apply pend_items_accounts]. }
  rewrite Hle in Hok. unfold entry_items in Hoke. destruct e.2.2 as [a cs|g] eqn:Ee; cbn [items_ok item_last] in Hoke; destruct Hoke as [_ Hoke].
  - destruct Hoke as [Hx _]. destruct (get_log_changes_spec a (rid_index e.1) cs (entries ++ [ULog e.1 e.2.1]) Hx) as (sz & -> & _ & _).
    cbn [mbind option_bind]. destruct (Z.eqb_spec (rid_index e.1) to) as [Et|Et]; cbn [orb].
    2: destruct (batch <=? _).
    1,2: exists [], e, (filter (fun e : raft_entry => gone start (rid_index e.1) = true) E), (entry_items e); eexists _, [];
      (split; [done|]); (split; [done|]);
      (split; [unfold entry_items; rewrite Ee; cbn [items_updates item_last]; rewrite app_nil_r, <- app_assoc; reflexivity|]);
      (split; [done|]); (split; [cbn [app mbind list_bind]; by rewrite !app_nil_r|]); (split; [exact Hle|cbn; lia]).
    destruct (IH ((entries ++ [ULog e.1 e.2.1]) ++ item_updates leader (rid_index e.1) (IAccount a cs))
      (size + Z.of_nat (length e.2.1) + 16 + sz) (rid_index e.1) HE) as (l1 & e' & l2 & its & size' & p & E1 & E2 & E3 & E4 & E5 & E6 & E7); [|done|].
    { exists e0. apply elem_of_cons in Hin as [->|Hin]; [congruence|done]. }
    exists (e :: l1), e', l2, (entry_items e ++ its), size', p. split; [by rewrite E1|]. split; [by constructor|]. split.
    { rewrite E3. rewrite items_updates_app, Hle. unfold entry_items. rewrite Ee. cbn [items_updates item_last item_updates]. by rewrite app_nil_r, !app_assoc. }
    split; [by destruct its|]. split; [cbn [app mbind list_bind] in *; by rewrite E5, app_assoc|]. split; [by rewrite items_last_app, Hle|done].
  - exists [], e, (filter (fun e : raft_entry => gone start (rid_index e.1) = true) E), [ILog e.1 e.2.1]. eexists _, g. rewrite Ee.
    split_and!; try done. cbn. unfold entry_items. by rewrite Ee, app_nil_r.
Qed.

Lemma elem_of_rev {A} (x : A) l : x ∈ rev l <-> x ∈ l.
Proof. by rewrite !list_elem_of_In, <- in_rev. Qed.
Lemma pend_items_pairs a cs g : IAccount a cs ∈ pend_items g -> (a, cs) ∈ entry_pairs (Snapshot g).
Proof.
  intros ([c l] & (a' & E & Hin)%list_elem_of_fmap & Hg)%list_elem_of_bind. cbn in E, Hin. injection E as -> ->. cbn [entry_pairs].
  apply list_elem_of_bind. exists (c, l). rewrite elem_of_rev in Hg. rewrite elem_of_rev in Hin. split; [|done]. unfold group_accounts. apply list_elem_of_fmap. by exists a'.
Qed.
Lemma accounts_ok i l : Forall is_account l -> (forall a cs, IAccount a cs ∈ l -> item_ok leader i (IAccount a cs)) -> items_ok leader i l.
Proof.
  induction 1 as [|[r v|a cs] l Hx _ IH]; intros Hok; cbn; [done..|]. split; [apply Hok; by left|]. apply IH. intros; apply Hok; by right.
Qed.
Lemma entry_items_last i e : items_last i (entry_items e) = rid_index e.1.
Proof. unfold entry_items. cbn. apply accounts_last. destruct e.2.2; [by repeat constructor|apply pend_items_accounts]. Qed.
Lemma entry_items_ok i e : is_entry e -> items_ok leader i (entry_items e).
Proof.
  intros He. split.
  - destruct He as (_ & Hg & _). split; [|done]. cbn. constructor; [rewrite Hg; by eexists|done].
  - cbn [item_last]. apply accounts_ok; [destruct e.2.2; [by repeat constructor|apply pend_items_accounts]|].
    intros a cs Hin. split; [|done]. apply Forall_forall. intros k (c & -> & Hc)%list_elem_of_fmap. apply (sd_changes Hsend e a cs); [done| |done].
    destruct e.2.2; [apply list_elem_of_singleton in Hin as [= -> ->]; by left|by apply pend_items_pairs].
Qed.
Lemma entries_items_ok i l : Forall is_entry l -> items_ok leader i (l ≫= entry_items).
Proof.
  intros Hl. revert i. induction Hl as [|e l He _ IH]; intros i; cbn [mbind list_bind]; [done|].
  apply items_ok_app. split; [by apply entry_items_ok|apply IH].
Qed.

(** *** One call *)

Section Position.
Variables (T : list raft_entry) (to : LogIndex) (batch : Z).
Hypothesis T_sorted : StronglySorted index_lt T.
Hypothesis T_elem : forall e, e ∈ T <-> is_entry e.
Hypothesis to_in : exists e, e ∈ T /\ rid_index e.1 = to.
Hypothesis batch_pos : 0 < batch.

(** The entries after an index, the items left to send, and a bound on the
    number of calls this takes. *)
Definition rest (i : LogIndex) : list raft_entry := filter (fun e : raft_entry => gone i (rid_index e.1) = true) T.
Definition left_items (p : pending) (i : LogIndex) : list item := pend_items p ++ (rest i ≫= entry_items).
Definition weight (e : raft_entry) : nat := S (match e.2.2 with Snapshot g => pending_size g | Item _ _ => 0 end).
Definition left_size (p : pending) (i : LogIndex) : nat := (pending_size p + sum_list (weight <$> rest i))%nat.
Definition before_end (i : LogIndex) : Prop := fits 64 i /\ (gone i to = true \/ i = to).

Lemma rest_entries i : Forall is_entry (rest i).
Proof. apply Forall_forall. by intros e [_ ?%T_elem]%list_elem_of_filter. Qed.

Lemma rest_after i l1 e l2 : rest i = l1 ++ e :: l2 -> rest (rid_index e.1) = l2.
Proof.
  intros E. assert (is_entry e) as He.
  { pose proof (rest_entries i) as Hf. rewrite E in Hf. apply Forall_app in Hf as [_ [? _]%Forall_cons]. done. }
  pose proof (sd_max Hsend _ (entry_in_log _ He)) as Hmax.
  assert (rest (rid_index e.1) = filter (fun e' : raft_entry => gone (rid_index e.1) (rid_index e'.1) = true) (rest i)) as ->.
  { unfold rest. symmetry. apply list_filter_filter_l. intros e' Hg. assert (e ∈ rest i) as Hin by (rewrite E; apply elem_of_app; right; by left).
    apply list_elem_of_filter in Hin as [Hgi _]. unfold gone in *. destruct (i =? U64_MAX); [done|]. cbn in *.
    destruct (Z.eqb_spec (rid_index e.1) U64_MAX); [lia|]. cbn in Hg. lia. }
  assert (StronglySorted index_lt (rest i)) as Hs by by apply StronglySorted_filter. rewrite E in *. clear E.
  assert (forall x, gone (rid_index e.1) x = (rid_index e.1 <? x)) as Hgo.
  { intros x. unfold gone. destruct (Z.eqb_spec (rid_index e.1) U64_MAX); [lia|done]. }
  induction l1 as [|e1 l1 IH]; cbn [app] in *; apply StronglySorted_inv in Hs as [Hs Hlt]; rewrite Forall_forall in Hlt; rewrite filter_cons, Hgo.
  - rewrite decide_False by (rewrite Z.ltb_irrefl; done). apply filter_all, Forall_forall. intros e' He'. rewrite Hgo. apply Z.ltb_lt. by apply Hlt.
  - rewrite decide_False; [by apply IH|]. specialize (Hlt e ltac:(apply elem_of_app; right; by left)). unfold index_lt in Hlt.
    intros ?%Z.ltb_lt. lia.
Qed.

Lemma to_rest i : gone i to = true -> exists e, e ∈ rest i /\ rid_index e.1 = to.
Proof. intros Hg. destruct to_in as (e & Hin & E). exists e. split; [|done]. apply list_elem_of_filter. by rewrite E. Qed.

(** The scan from an index on. *)
Lemma scan_rest i : before_end i -> i <> to ->
  exists l1 e l2 its size p, rest i = l1 ++ e :: l2 /\ Forall (fun e => rid_index e.1 <> to) l1 /\
    entries_loop leader i to batch
      (db_iterator leader Logs (LogKey.serialize_raft (mkRaftId 0 (if negb (i =? U64_MAX) then i else 0))) Forward) [] 0 i =
      Some (items_updates leader i its, size, rid_index e.1, p) /\
    its <> [] /\ (l1 ++ [e]) ≫= entry_items = its ++ pend_items p /\ items_last i its = rid_index e.1 /\
    (pending_size p < weight e)%nat.
Proof.
  intros [Hi Hend] Hne. assert (gone i to = true) as Hg by (by destruct Hend). set (j := if negb (i =? U64_MAX) then i else 0).
  assert (fits 64 j) as Hj by (unfold j; destruct (negb _); [done|split; lia]).
  destruct (raft_scan j Hj) as (E & EE & Hs & HE).
  assert (filter (fun e : raft_entry => gone i (rid_index e.1) = true) E = rest i) as Er.
  { apply (sorted_by_unique index_lt); [intros x; unfold index_lt; lia|intros x y z; unfold index_lt; lia|by apply StronglySorted_filter..|].
    intros e. unfold rest. rewrite !list_elem_of_filter, HE, T_elem. split; [tauto|]. intros [Hge He]. split_and!; [done..|].
    destruct He as ((Hlo & _) & _). destruct Hlo. revert Hge. unfold gone, j. destruct (i =? U64_MAX); cbn; lia. }
  destruct (to_rest i Hg) as (e0 & Hin & E0). rewrite <- Er in Hin. apply list_elem_of_filter in Hin as [Hg0 Hin0].
  destruct (entries_loop_spec i to batch E [] 0 i) as (l1 & e & l2 & its & size & p & F1 & F2 & F3 & F4 & F5 & F6 & F7).
  - apply Forall_forall. intros e [? _]%HE. done.
  - by exists e0.
  - rewrite Er. apply entries_items_ok, rest_entries.
  - rewrite Er in F1. exists l1, e, l2, its, size, p. split_and!; try done; [by rewrite <- entries_loop_prefix, EE|]. unfold weight. lia.
Qed.

(** What a call sends, with the position it leaves. *)
Record sent (p : pending) (i : LogIndex) (its : list item) (eof : bool) (p' : pending) (i' : LogIndex) : Prop := {
  sent_items : left_items p i = its ++ left_items p' i';
  sent_last : items_last i its = i';
  sent_end : before_end i';
  sent_eof : eof = true <-> i' = to /\ p' = [];
  sent_less : (left_size p' i' < left_size p i)%nat;
  sent_none : items_updates leader i its = [] -> p' = [];
  sent_first : p = [] -> (exists r v k, its = ILog r v :: k) /\ gone i i' = true /\ i' < U64_MAX;
  sent_same : p <> [] -> i' = i
}.

(** The rest of a snapshot. *)
Lemma pending_sent i p entries size :
  p <> [] -> items_ok leader i (pend_items p) -> (entries = [] -> size = 0) ->
  exists its p', pending_loop (S (pending_size p)) leader i batch p entries size = Some (entries ++ items_updates leader i its, p') /\
    pend_items p = its ++ pend_items p' /\ items_last i its = i /\ (pending_size p' < pending_size p)%nat /\
    (entries ++ items_updates leader i its = [] -> p' = []).
Proof.
  intros Hp Hok He. destruct (pending_loop_spec batch i (S (pending_size p)) p entries size) as (its & p' & E & Ep & Ha & Hlt & Hn); [lia|done..|].
  exists its, p'. split_and!; [done|done|by apply accounts_last|by apply Hlt|done].
Qed.

Lemma scan_sends i : before_end i -> i <> to ->
  exists its size p i', entries_loop leader i to batch
      (db_iterator leader Logs (LogKey.serialize_raft (mkRaftId 0 (if negb (i =? U64_MAX) then i else 0))) Forward) [] 0 i =
      Some (items_updates leader i its, size, i', p) /\
    left_items [] i = its ++ left_items p i' /\ items_last i its = i' /\ before_end i' /\ (left_size p i' < left_size [] i)%nat /\
    (exists r v k, its = ILog r v :: k) /\ gone i i' = true /\ i' < U64_MAX.
Proof.
  intros Hend Hne. destruct (scan_rest i Hend Hne) as (l1 & e & l2 & its & size & p & Er & Hl1 & E & Hits & Ei & El & Hw).
  exists its, size, p, (rid_index e.1). split; [exact E|]. clear E. pose proof (rest_after i l1 e l2 Er) as Ea.
  assert (e ∈ rest i) as Hin by (rewrite Er; apply elem_of_app; right; by left).
  assert (is_entry e) as He by (pose proof (rest_entries i) as Hf; rewrite Forall_forall in Hf; by apply Hf).
  split; [|split; [done|]].
  { unfold left_items. cbn [pend_items app]. rewrite Ea, Er. change (e :: l2) with ([e] ++ l2). rewrite (app_assoc l1), bind_app, Ei.
    by rewrite <- app_assoc. }
  split; [|split; [|split; [|split]]].
  - split; [apply He|]. destruct (to_rest i) as (e0 & Hin0 & E0); [by destruct Hend as [_ []]|]. rewrite Er in Hin0.
    apply elem_of_app in Hin0 as [Hin0|[->|Hin0]%elem_of_cons]; [rewrite Forall_forall in Hl1; by destruct (Hl1 _ Hin0)|by right|].
    left. rewrite <- Ea in Hin0. apply list_elem_of_filter in Hin0 as [? _]. by rewrite <- E0.
  - unfold left_size. unfold weight in Hw. rewrite Ea, Er, fmap_app, sum_list_app. cbn. lia.
  - destruct its as [|x k]; [done|]. destruct l1 as [|e1 l1]; cbn in Ei; injection Ei as <- _; by eexists _, _, _.
  - by apply list_elem_of_filter in Hin as [? _].
  - by apply (sd_max Hsend), entry_in_log.
Qed.

Lemma call_sends (p : pending) i : before_end i -> p <> [] \/ i <> to -> items_ok leader i (left_items p i) ->
  exists its (eof : bool) p' i', get_log_entries leader i to p batch = Some (items_updates leader i its ++ (if eof then [UEof] else []), p', i') /\
    sent p i its eof p' i'.
Proof.
  intros Hend Hgo Hok. unfold get_log_entries. destruct (decide (p = [])) as [->|Hp].
  - assert (i <> to) as Hne by (by destruct Hgo). rewrite bool_decide_true by done. rewrite (proj2 (Z.eqb_neq i to)) by done. cbn [negb andb].
    destruct (scan_sends i Hend Hne) as (its & size & p & i' & -> & Hleft & El & Hend' & Hsz & Hfirst & Hge). cbn [mbind option_bind].
    assert (items_updates leader i its <> []) as Hu by (destruct Hfirst as (r & v & k & ->); done).
    destruct (decide (p = [])) as [->|Hp].
    + rewrite bool_decide_true by done. cbn [negb mbind option_bind]. rewrite andb_true_r.
      exists its, (i' =? to), [], i'. split; [by destruct (_ =? _); rewrite ?app_nil_r|].
      split; [done|done|done|rewrite Z.eqb_eq; naive_solver|done|done|done|done].
    + rewrite bool_decide_false by done. cbn [negb].
      assert (items_ok leader i' (pend_items p)) as Hokp.
      { rewrite Hleft in Hok. apply items_ok_app in Hok as [_ Hok]. rewrite El in Hok. by apply items_ok_app in Hok as [? _]. }
      destruct (pending_sent i' p (items_updates leader i its) size Hp Hokp) as (its' & p' & -> & Ep & El' & Hlt & _); [done|].
      cbn [mbind option_bind]. exists (its ++ its'), ((i' =? to) && bool_decide (p' = [])), p', i'. split.
      { rewrite items_updates_app, El. by destruct (_ && _); rewrite ?app_nil_r. }
      split; [|by rewrite items_last_app, El|done|by rewrite andb_true_iff, Z.eqb_eq, bool_decide_eq_true| | | |done].
      * rewrite Hleft. unfold left_items. by rewrite Ep, !app_assoc.
      * unfold left_size in *. lia.
      * rewrite items_updates_app. by intros [? _]%app_nil.
      * intros _. split; [|done]. destruct Hfirst as (r & v & k & ->). by eexists _, _, _.
  - rewrite bool_decide_false by done. cbn [andb mbind option_bind]. rewrite bool_decide_false by done. cbn [negb].
    apply items_ok_app in Hok as [Hokp _]. destruct (pending_sent i p [] 0 Hp Hokp) as (its & p' & -> & Ep & El & Hlt & Hn); [done|].
    cbn [mbind option_bind app] in *. exists its, ((i =? to) && bool_decide (p' = [])), p', i. split; [by destruct (_ && _); rewrite ?app_nil_r|].
    split; [unfold left_items; by rewrite Ep, app_assoc|done|done|by rewrite andb_true_iff, Z.eqb_eq, bool_decide_eq_true| |done|done|done].
    unfold left_size. lia.
Qed.

(** *** The whole exchange *)

Lemma phase_copies fuel : forall p i follower l,
  (left_size p i < fuel)%nat -> before_end i -> items_ok leader i (left_items p i) -> uncommitted_index l = i \/ p = [] ->
  exists its db' l' i', log_phase fuel leader to batch p i follower l = Some (db', l', i') /\
    left_items p i = its ++ left_items [] i' /\ before_end i' /\ (i' = i \/ gone i i' = true /\ i' < U64_MAX) /\
    (p = [] -> i <> to -> i' <> i) /\ (p <> [] \/ i <> to \/ uncommitted_index l = i -> uncommitted_index l' = i') /\
    forall cf k, db_get db' cf k = if decide (cf = Logs /\ k ∈ items_keys i its) then db_get leader Logs k else db_get follower cf k.
Proof.
  induction fuel as [|fuel IH]; intros p i follower l Hf Hend Hok Hl; [lia|]. cbn [log_phase].
  destruct (decide (p <> [] \/ i <> to)) as [Hgo|Hno].
  2: { assert (p = [] /\ i = to) as [-> ->] by (split; apply dec_stable; tauto). rewrite bool_decide_true, Z.eqb_refl by done. cbn.
       exists [], follower, l, to. split_and!; try done; [by left|tauto|]. intros cf k. rewrite decide_False; [done|]. by intros [_ ?%not_elem_of_nil]. }
  assert (negb (bool_decide (p = [])) || negb (i =? to) = true) as ->.
  { destruct Hgo; [by rewrite bool_decide_false|]. rewrite (proj2 (Z.eqb_neq i to)) by done. apply orb_true_r. }
  destruct (call_sends p i Hend Hgo Hok) as (its & eof & p' & i' & -> & Hs). destruct Hs as [Hleft Hlast Hend' Heof Hless Hnone Hfirst Hsame].
  cbn [mbind option_bind]. rewrite Hleft in Hok. apply items_ok_app in Hok as [Hits Hok]. rewrite Hlast in Hok.
  assert (uncommitted_index l = i \/ (exists r v k, its = ILog r v :: k)) as Hl' by (destruct Hl as [?|E]; [by left|right; by apply Hfirst]).
  destruct (handle_items leader follower i l its eof Hits Hl') as (db1 & l1 & -> & Hu & Hdb). rewrite Hlast in Hu.
  assert (i' = i \/ gone i i' = true /\ i' < U64_MAX) as Hmove by (destruct (decide (p = [])) as [->|]; [right; by apply Hfirst|left; by apply Hsame]).
  assert (p = [] -> i' <> i) as Hne.
  { intros E. destruct (Hfirst E) as (_ & Hg & Hm). intros ->. unfold gone in Hg. destruct (Z.eqb_spec i U64_MAX); [lia|]. rewrite Z.ltb_irrefl in Hg. done. }
  destruct (eof || _) eqn:Ed.
  - assert (p' = []) as -> by (apply orb_true_iff in Ed as [Ed|Ed%bool_decide_eq_true]; [by apply Heof|by apply Hnone]).
    exists its, db1, l1, i'. split_and!; try done. intros ? _. by apply Hne.
  - destruct (IH p' i' db1 l1) as (its2 & db2 & l2 & i2 & E & E1 & E2 & E3 & E4 & E5 & E6); [lia|done|done|by left|].
    exists (its ++ its2), db2, l2, i2. split; [exact E|]. split; [by rewrite Hleft, E1, app_assoc|]. split; [done|].
    assert (gone i' i2 = true -> i' < U64_MAX -> i' < i2) as Hlt by (unfold gone; destruct (Z.eqb_spec i' U64_MAX); [lia|cbn; lia]).
    assert (i2 = i \/ gone i i2 = true /\ i2 < U64_MAX) as Hmove2.
    { destruct Hmove as [->|[Hg Hm]]; [done|]. right. destruct E3 as [->|[Hg2 Hm2]]; [done|]. specialize (Hlt Hg2 Hm). split; [|done].
      revert Hg. unfold gone. destruct (i =? U64_MAX); cbn; [done|lia]. }
    split; [done|]. split; [|split; [intros _; apply E5; auto|]].
    + intros Ep _ ->. specialize (Hne Ep). destruct Hmove as [|[Hg Hm]]; [done|]. destruct E3 as [->|[Hg2 Hm2]]; [done|]. specialize (Hlt Hg2 Hm).
      revert Hg. unfold gone. destruct (Z.eqb_spec i U64_MAX); cbn; lia.
    + intros cf k. rewrite E6, Hdb, items_keys_app, Hlast. clear.
      destruct (decide (cf = Logs /\ k ∈ items_keys i' its2)) as [[-> Hin]|Hn].
      { rewrite decide_True; [done|]. split; [done|]. apply elem_of_app. by right. }
      destruct (decide (cf = Logs /\ k ∈ items_keys i its)) as [[-> Hin]|Hn'].
      { rewrite decide_True; [done|]. split; [done|]. apply elem_of_app. by left. }
      rewrite decide_False; [done|]. by intros [-> [Hin|Hin]%elem_of_app]; [apply Hn'|apply Hn].
Qed.

(** The entries behind one index and up to another. *)
Lemma sent_entries i i' its : gone i i' = true -> i' < U64_MAX -> left_items [] i = its ++ left_items [] i' ->
  exists d, its = d ≫= entry_items /\ forall e, e ∈ d <-> is_entry e /\ gone i (rid_index e.1) = true /\ gone i' (rid_index e.1) = false.
Proof.
  intros Hg Hm Hleft. assert (forall x, gone i' x = (i' <? x)) as Hgo by (intros x; unfold gone; destruct (Z.eqb_spec i' U64_MAX); [lia|done]).
  assert (filter (fun e : raft_entry => i' < rid_index e.1) (rest i) = rest i') as Er.
  { unfold rest. rewrite list_filter_filter_l.
    - apply list_filter_iff. intros e. by rewrite Hgo, Z.ltb_lt.
    - intros e He. revert Hg. unfold gone. destruct (i =? U64_MAX); cbn; lia. }
  exists (filter (fun e : raft_entry => rid_index e.1 <= i') (rest i)). split.
  - unfold left_items in Hleft. change (pend_items []) with (@nil item) in Hleft. cbn [app] in Hleft.
    rewrite (sorted_split (fun e : raft_entry => rid_index e.1) i' (rest i)), bind_app, Er in Hleft by (by apply StronglySorted_filter).
    symmetry. by apply app_inv_tail in Hleft.
  - intros e. unfold rest. rewrite !list_elem_of_filter, T_elem, Hgo, Z.ltb_ge. tauto.
Qed.
End Position.

Lemma pairs_pend_items a cs g : (a, cs) ∈ entry_pairs (Snapshot g) -> IAccount a cs ∈ pend_items g.
Proof.
  cbn [entry_pairs]. intros ([c l] & (a' & [= -> ->] & Hin)%list_elem_of_fmap & Hg)%list_elem_of_bind. apply list_elem_of_bind. exists (c, l).
  rewrite elem_of_rev. split; [|done]. apply list_elem_of_fmap. exists a'. by rewrite elem_of_rev.
Qed.
Lemma account_keys i l k : Forall is_account l ->
  k ∈ items_keys i l <-> exists a cs c, IAccount a cs ∈ l /\ c ∈ bm_to_list cs /\ k = change_key a i c.
Proof.
  induction 1 as [|[r v|a cs] l Hx _ IH]; [|done|]; cbn [items_keys item_last item_keys].
  { split; [by intros ?%not_elem_of_nil|]. by intros (? & ? & ? & ?%not_elem_of_nil & _). }
  rewrite elem_of_app, IH, list_elem_of_fmap. setoid_rewrite elem_of_cons. split.
  - intros [(c & -> & Hc)|(a' & cs' & c & Hin & Hc & ->)]; [by exists a, cs, c; auto|by exists a', cs', c; auto].
  - intros (a' & cs' & c & [[= -> ->]|Hin] & Hc & ->); [left; by exists c|right; by exists a', cs', c].
Qed.
(** The keys of entries. *)
Definition names (e : raft_entry) (k : list Z) : Prop :=
  k = LogKey.serialize_raft e.1 \/ exists a cs c, (a, cs) ∈ entry_pairs e.2.2 /\ c ∈ bm_to_list cs /\ k = change_key a (rid_index e.1) c.
Lemma entries_keys i (l : list raft_entry) k : k ∈ items_keys i (l ≫= entry_items) <-> exists e, e ∈ l /\ names e k.
Proof.
  revert i. induction l as [|e l IH]; intros i; cbn [mbind list_bind].
  { split; [by intros ?%not_elem_of_nil|]. by intros (? & ?%not_elem_of_nil & _). }
  rewrite items_keys_app, elem_of_app. etrans; [apply or_iff_compat_l, IH|].
  assert (k ∈ items_keys i (entry_items e) <-> names e k) as Hk.
  { unfold entry_items, names. cbn [items_keys item_keys item_last]. rewrite elem_of_app, list_elem_of_singleton, account_keys.
    2: { destruct e.2.2; [by repeat constructor|apply pend_items_accounts]. }
    apply or_iff_compat_l. split; intros (a & cs & c & Hin & Hc & ->); exists a, cs, c; (split; [|done]); destruct e.2.2 as [a' cs'|g].
    - apply list_elem_of_singleton in Hin as [= -> ->]. by left.
    - by apply pend_items_pairs.
    - apply list_elem_of_singleton in Hin as [= -> ->]. by left.
    - by apply pairs_pend_items. }
  split.
  - intros [Hx%Hk|(e' & Hin & Hx)]; [exists e; split; [by left|done]|exists e'; split; [by right|done]].
  - intros (e' & [->|Hin]%elem_of_cons & Hx); [left; by apply Hk|right; by exists e'].
Qed.

(** *** Logs that agree *)

(** Every change entry is named by the Raft entry of its index. *)
Definition changes_named : Prop := forall g j v, group_fits g -> fits 64 j -> db_get leader Logs (group_key g j) = Some v ->
  exists e cs, is_entry e /\ rid_index e.1 = j /\ (g.1, cs) ∈ entry_pairs e.2.2 /\ g.2 ∈ bm_to_list cs.
(** The log of [follower] is that of the leader up to an index. *)
Definition log_upto (follower : DB) (i : LogIndex) : Prop :=
  (forall g j, group_fits g -> fits 64 j ->
     db_get follower Logs (group_key g j) = if gone i j then None else db_get leader Logs (group_key g j)) /\
  (forall r, rid_fits r ->
     db_get follower Logs (LogKey.serialize_raft r) = if gone i (rid_index r) then None else db_get leader Logs (LogKey.serialize_raft r)).

Lemma entry_fits_pairs e a cs : is_entry e -> (a, cs) ∈ entry_pairs e.2.2 -> fits 32 a.
Proof.
  intros (Hr & Hg & Hd) Hin. destruct (sd_read Hsend _ _ Hr Hg) as (x & Hx & Hok). rewrite Hd in Hx. injection Hx as <-.
  unfold entry_ok in Hok. rewrite Forall_forall in Hok. by apply (Hok _ Hin).
Qed.
Lemma names_group e g j : is_entry e -> group_fits g -> fits 64 j -> names e (group_key g j) ->
  rid_index e.1 = j /\ is_Some (db_get leader Logs (group_key g j)).
Proof.
  intros He Hg Hj [E|(a & cs & c & Hin & Hc & E)]; [apply (f_equal head) in E; discriminate E|].
  assert (fits 32 a) as Ha by by eapply entry_fits_pairs. pose proof (sd_changes Hsend e a cs c He Hin Hc) as Hs. rewrite E. split; [|done].
  apply (group_key_inj g j (a, c)) in E as [_ ->]; [done..|]. apply He.
Qed.
Lemma names_raft e r : is_entry e -> rid_fits r -> names e (LogKey.serialize_raft r) -> e.1 = r.
Proof.
  intros He Hr [E|(a & cs & c & _ & _ & E)]; [|apply (f_equal head) in E; discriminate E]. symmetry. apply raft_key_inj; [done|apply He|done].
Qed.

Lemma copy_step (follower db' : DB) i i' (keys : list (list Z)) k j :
  gone i i' = true -> i' < U64_MAX ->
  (k ∈ keys <-> gone i j = true /\ gone i' j = false /\ is_Some (db_get leader Logs k)) ->
  db_get db' Logs k = (if decide (Logs = Logs /\ k ∈ keys) then db_get leader Logs k else db_get follower Logs k) ->
  db_get follower Logs k = (if gone i j then None else db_get leader Logs k) ->
  db_get db' Logs k = if gone i' j then None else db_get leader Logs k.
Proof.
  intros Hg Hm Hk -> ->. assert (gone i' j = true -> gone i j = true) as Hmono.
  { revert Hg. unfold gone. destruct (Z.eqb_spec i' U64_MAX); [lia|]. destruct (i =? U64_MAX); cbn; lia. }
  destruct (decide _) as [[_ Hin]|Hn]; [apply Hk in Hin as (_ & -> & _); done|].
  destruct (gone i' j) eqn:E'; [by rewrite Hmono|]. destruct (gone i j) eqn:E; [|done].
  destruct (db_get leader Logs k) as [v|] eqn:Ev; [|done]. destruct Hn. split; [done|]. apply Hk. by rewrite ?Ev.
Qed.
End Sending.

(** A follower gets the log of its leader. Let the log of the leader be
    readable, with one Raft entry for an index and each change entry named by
    the Raft entry of its index, let [to_index] be the index of an entry, and
    let the log of the follower be that of the leader up to an index before it
    ([U64_MAX] for an empty log). Then the exchange ends, for every positive
    batch size; it ends at an index behind the first one and not behind
    [to_index], which the follower takes for its uncommitted index, the log of
    the follower is that of the leader up to this index, and no other key of
    the follower changes. *)
Theorem follower_copies_log `{StoreLaws DB} (leader follower : DB) r0 i batch_size l :
  sendable leader -> changes_named leader -> in_log leader r0 -> 0 < batch_size -> fits 64 i -> gone i (rid_index r0) = true ->
  log_upto leader follower i ->
  exists n, forall fuel, (n <= fuel)%nat ->
  exists db' l' i', log_phase fuel leader (rid_index r0) batch_size [] i follower l = Some (db', l', i') /\
    gone i i' = true /\ i' <= rid_index r0 /\ uncommitted_index l' = i' /\ log_upto leader db' i' /\
    forall cf k, (cf = Logs -> (forall g j, group_fits g -> fits 64 j -> k <> group_key g j) /\ (forall r, rid_fits r -> k <> LogKey.serialize_raft r)) ->
      db_get db' cf k = db_get follower cf k.
Proof.
  intros Hsend Hnamed [Hr0 [v0 Hv0]] Hb Hi Hg [Hlg Hlr]. destruct (raft_scan leader Hsend 0) as (T & _ & HT & HTe); [split; lia|].
  assert (forall e, e ∈ T <-> is_entry leader e) as Hin.
  { intros e. rewrite HTe. split; [tauto|]. intros He. split; [done|]. destruct He as (((? & _) & _) & _). done. }
  assert (exists e, e ∈ T /\ rid_index e.1 = rid_index r0) as Hto.
  { destruct (sd_read _ Hsend r0 v0 Hr0 Hv0) as (x & Hx & _). exists (r0, (v0, x)). split; [by apply Hin|done]. }
  exists (S (left_size T [] i)). intros fuel Hf.
  assert (i <> rid_index r0) as Hne.
  { intros ->. unfold gone in Hg. pose proof (sd_max _ Hsend r0 (conj Hr0 (mk_is_Some _ _ Hv0))). destruct (Z.eqb_spec (rid_index r0) U64_MAX); [lia|].
    rewrite Z.ltb_irrefl in Hg. done. }
  destruct (phase_copies leader Hsend T (rid_index r0) batch_size HT Hin Hto Hb fuel [] i follower l) as
    (its & db' & l' & i' & E & Hleft & [_ Hend] & Hmove & Hnei & Hu & Hdb); [lia|by split; [|left]| |by right|].
  { apply (entries_items_ok leader Hsend), (rest_entries leader T Hin). }
  destruct Hmove as [Hmove|[Hgi Hm]]; [by destruct (Hnei eq_refl Hne)|].
  destruct (sent_entries leader T HT Hin i i' its Hgi Hm Hleft) as (d & -> & Hd).
  exists db', l', i'. split; [exact E|]. split; [done|]. split.
  { revert Hend. unfold gone. destruct (Z.eqb_spec i' U64_MAX); [lia|]. cbn. intros [?| ->]; lia. }
  split; [by apply Hu; auto|].
  assert (forall k, k ∈ items_keys i (d ≫= entry_items) <->
    exists e, is_entry leader e /\ gone i (rid_index e.1) = true /\ gone i' (rid_index e.1) = false /\ names e k) as Hkeys.
  { intros k. rewrite entries_keys. split; intros (e & He); exists e; [destruct He as [(? & ? & ?)%Hd ?]; done|]. rewrite Hd. tauto. }
  split; [split|].
  - intros g j Hgf Hj. apply (copy_step leader follower db' i i' (items_keys i (d ≫= entry_items)) _ j); [done|done| |apply Hdb|by apply Hlg].
    rewrite Hkeys. split.
    + intros (e & He & H1' & H2' & Hn). destruct (names_group leader Hsend e g j He Hgf Hj Hn) as [<- ?]. done.
    + intros (H1' & H2' & [v Hv]). destruct (Hnamed g j v Hgf Hj Hv) as (e & cs & He & <- & Hp & Hc). exists e. split_and!; [done..|].
      right. by exists g.1, cs, g.2.
  - intros r Hr. apply (copy_step leader follower db' i i' (items_keys i (d ≫= entry_items)) _ (rid_index r)); [done|done| |apply Hdb|by apply Hlr].
    rewrite Hkeys. split.
    + intros (e & He & H1' & H2' & Hn). apply (names_raft leader e r) in Hn as <-; [|done..]. split_and!; [done..|]. destruct He as (_ & -> & _). by eexists.
    + intros (H1' & H2' & [v Hv]). destruct (sd_read _ Hsend r v Hr Hv) as (x & Hx & _). exists (r, (v, x)). split_and!; [done..|by left].
  - intros cf k Hk. rewrite Hdb, decide_False; [done|]. intros [-> (e & He & _ & _ & [->|(a & cs & c & Hp & Hc & ->)])%Hkeys]; specialize (Hk eq_refl) as [Hk1 Hk2].
    + apply (Hk2 e.1); [apply He|done].
    + apply (Hk1 (a, c) (rid_index e.1)); [by eapply (entry_fits_pairs leader Hsend)|apply He|done].
Qed.

Import CompactSample.

(** The sample log is sent to an empty follower in one batch. *)
Lemma sample_entry e : is_entry CompactSample.log e ->
  exists i a, (i, a) ∈ sample_raft /\ e = (mkRaftId 1 i, (item_bytes a 4, Item a 4)).
Proof.
  destruct e as [r [v x]]. intros (Hr & Hg & Hd). cbn [fst snd] in *. destruct (sample_raft_get r v Hr Hg) as ([i a] & Hin & -> & ->).
  exists i, a. split; [done|]. do 2 f_equal. revert Hin Hd. unfold sample_raft. rewrite !elem_of_cons, elem_of_nil.
  intros [[= -> ->]|[[= -> ->]|[[= -> ->]|[[= -> ->]|[]]]]]; vm_compute; by intros [= <-].
Qed.
Lemma sample_sendable : sendable CompactSample.log.
Proof.
  destruct sample_compactable as [_ _ _ [Hwf Hval _ _] _ _]. split.
  - done.
  - done.
  - intros e a cs c (i & a' & Hin & ->)%sample_entry Hp Hc. apply list_elem_of_singleton in Hp as [= -> ->].
    apply (list_elem_of_singleton c Collection.Mail) in Hc as ->. revert Hin. unfold sample_raft. rewrite !elem_of_cons, elem_of_nil.
    intros [[= -> ->]|[[= -> ->]|[[= -> ->]|[[= -> ->]|[]]]]]; vm_compute; by eexists.
  - intros r r' [Hr [v (e & _ & -> & _)%sample_raft_get]] [Hr' [v' (e' & _ & -> & _)%sample_raft_get]]; [|done..]. cbn. by intros ->.
  - intros r [Hr [v (e & Hin & -> & _)%sample_raft_get]]; [|done]. revert Hin. unfold sample_raft. rewrite !elem_of_cons, elem_of_nil.
    intros [->|[->|[->|[->|[]]]]]; cbn; lia.
Qed.
Lemma sample_named : changes_named CompactSample.log.
Proof.
  intros g j v Hg Hj (c & Hin & _)%sample_change_get; [|done..]. unfold sample_changes in Hin. rewrite !elem_of_cons, elem_of_nil in Hin.
  assert (exists a, (j, a) ∈ sample_raft /\ g = mail a) as (a & Ha & ->).
  { destruct Hin as [[= -> -> _]|[[= -> -> _]|[[= -> -> _]|[[= -> -> _]|[]]]]]; eexists; (split; [|reflexivity]); unfold sample_raft; set_solver. }
  exists (mkRaftId 1 j, (item_bytes a 4, Item a 4)), 4. split; [|split; [done|]; split; [by left|by left]].
  revert Ha. unfold sample_raft. rewrite !elem_of_cons, elem_of_nil.
  intros [[= -> ->]|[[= -> ->]|[[= -> ->]|[[= -> ->]|[]]]]]; (split; [split; split; cbn; lia|]); split; vm_compute; reflexivity.
Qed.

Lemma follower_copies_log_witness :
  exists n, forall fuel, (n <= fuel)%nat ->
  exists db' l' i', log_phase fuel CompactSample.log 4 10000 [] U64_MAX MemStore.empty (mkLogState U64_MAX U64_MAX ∅) = Some (db', l', i') /\
    i' <= 4 /\ uncommitted_index l' = i' /\ log_upto CompactSample.log db' i'.
Proof.
  destruct (follower_copies_log CompactSample.log MemStore.empty (mkRaftId 1 4) U64_MAX 10000 (mkLogState U64_MAX U64_MAX ∅)) as [n Hn].
  - apply sample_sendable.
  - apply sample_named.
  - split; [split; split; cbn; lia|]. vm_compute. by eexists.
  - lia.
  - split; lia.
  - reflexivity.
  - split; intros; reflexivity.
  - exists n. intros fuel Hf. destruct (Hn fuel Hf) as (db' & l' & i' & E & _ & Hle & Hu & Hlog & _). by exists db', l', i'.
Defined.

(** Behind a snapshot the exchange can end early: when a batch is full with the
    last account of the snapshot, an empty group is left, the next message has
    no updates, and the follower takes it for the end. Here the entry at 4 is
    not sent in this exchange. *)
Theorem exchange_ends_early :
  (fun x => (uncommitted_index x.1.2, x.2)) <$>
    log_phase 10 (compact_log_up_to CompactSample.log 3).1 4 1 [] U64_MAX MemStore.empty (mkLogState U64_MAX U64_MAX ∅) = Some (3, 3).
Proof. vm_compute. reflexivity. Qed.
