(* ===== verification/LogMatch.v ===== *)
(** * Matching the logs of a leader and a follower: src/cluster/log/index_match.rs,
      follower/log_match.rs, follower/log_synchronize.rs, follower/log_merge.rs, and
      the answers [Match] and [Synchronize] in leader/spawn_leader.rs

    A new leader looks for the last entry it has in common with a follower. If
    the last entry of the follower is in its log, it sends what follows; else
    the two compare the first entries of their terms, and the follower rolls
    its log back to the entry that was found. What the two nodes compute is
    modelled, and the entry they agree on is characterised. *)

From S2P Require Import Prelude Leb128 Serialize Types Keys Bitmap BitList KV ChangeLog RaftLog JmapId Compact MergeLog Rollback Replicate.

Section Match.
Context `{Treemap} `{Store DB}.

(** The first entry of each run of a term. *)
Fixpoint match_terms_loop (it : list (list Z * list Z)) (last_term_id : TermId) : option (list RaftId) :=
  match it with
  | [] => Some []
  | (key, _) :: it =>
      if starts_with key [LogKey.RAFT_KEY_PREFIX] then
        raft_id ← LogKey.deserialize_raft key;
        if negb (rid_term raft_id =? last_term_id) then
          l ← match_terms_loop it (rid_term raft_id);
          Some (raft_id :: l)
        else match_terms_loop it last_term_id
      else Some []
  end.
Definition get_raft_match_terms (db : DB) : option (list RaftId) :=
  match_terms_loop (db_iterator db Logs [LogKey.RAFT_KEY_PREFIX] Forward) U64_MAX.

Fixpoint match_indexes_loop (prefix : list Z) (it : list (list Z * list Z)) (term_id : TermId) (l : gset Z) : option (TermId * gset Z) :=
  match it with
  | [] => Some (term_id, l)
  | (key, _) :: it =>
      if starts_with key prefix then
        raft_id ← LogKey.deserialize_raft key;
        if term_id =? U64_MAX then match_indexes_loop prefix it (rid_term raft_id) ({[rid_index raft_id]} ∪ l)
        else if negb (term_id =? rid_term raft_id) then Some (term_id, l)
        else match_indexes_loop prefix it term_id ({[rid_index raft_id]} ∪ l)
      else Some (term_id, l)
  end.
Definition get_raft_match_indexes (db : DB) (start_log_index : LogIndex) : option (TermId * gset Z) :=
  let from_key := LogKey.serialize_raft (mkRaftId 0 start_log_index) in
  let prefix := take LogKey.RAFT_TERM_POS from_key in
  match_indexes_loop prefix (db_iterator db Logs prefix Forward) U64_MAX ∅.

(** ** The follower *)

(** The answer to [Match], with what [set_up_to_date] is called with. *)
Definition handle_match_log (db : DB) (last_log : RaftId) : option (RaftId * option bool) :=
  matched ← get_prev_raft_id db last_log;
  Some match matched with
       | Some matched => (matched, Some (bool_decide (matched = last_log)))
       | None => (raft_id_none, if raft_id_is_none last_log then Some true else None)
       end.

Fixpoint matched_loop (matched_id : RaftId) (pairs : list (RaftId * RaftId)) : RaftId :=
  match pairs with
  | [] => matched_id
  | (local_id, remote_id) :: pairs => if bool_decide (local_id = remote_id) then matched_loop local_id pairs else matched_id
  end.
(** The answer to [Synchronize]: the bytes of the matched indexes. *)
Definition handle_synchronize_log (db : DB) (match_terms : list RaftId) : option (list Z) :=
  if bool_decide (match_terms = []) then None
  else
    local_match_terms ← get_raft_match_terms db;
    let matched_id := matched_loop raft_id_none (zip local_match_terms match_terms) in
    if negb (raft_id_is_none matched_id) then
      '(_, match_indexes) ← get_raft_match_indexes db (rid_index matched_id);
      if negb (bool_decide (match_indexes = ∅)) then Some (treemap_serialize match_indexes) else None
    else Some [].

(** ** The leader *)

(** What the leader does next for a peer. *)
Inductive leader_state : Set :=
| BecomeLeader | SynchronizeState | MergeState (matched_log : RaftId) | AppendLogs | WaitState | Exit.

(** The answer [Match]: the next state and [follower_last_index]. *)
Definition on_match (db : DB) (uncommitted_index : LogIndex) (match_log : RaftId) : leader_state * LogIndex :=
  (if negb (raft_id_is_none match_log) then
     match get_next_raft_id db match_log with
     | Some (Some local_match) => if bool_decide (local_match = match_log) then AppendLogs else SynchronizeState
     | _ => Exit
     end
   else if negb (uncommitted_index =? U64_MAX) then AppendLogs else WaitState,
   rid_index match_log).

(** [RoaringTreemap::min] and [max]. *)
Definition treemap_min (s : gset Z) : option Z := head (treemap_iter s).
Definition treemap_max (s : gset Z) : option Z := last (treemap_iter s).
(** The answer [Synchronize]. *)
Definition on_synchronize (db : DB) (match_indexes : list Z) : leader_state :=
  match match_indexes with
  | [] => MergeState raft_id_none
  | _ =>
      match treemap_deserialize match_indexes with
      | None => Exit
      | Some matched_indexes =>
          match treemap_min matched_indexes with
          | None => Exit
          | Some start =>
              match get_raft_match_indexes db start with
              | None => Exit
              | Some (match_term, local_match_indexes) =>
                  match treemap_max (local_match_indexes ∩ matched_indexes) with
                  | None => BecomeLeader
                  | Some index => MergeState (mkRaftId match_term index)
                  end
              end
          end
      end
  end.
End Match.

(** ** What is found *)

(** Serialized sets that are not empty have bytes. *)
Class TreemapSize `{Treemap} : Prop := { treemap_bytes ids : ids_ok ids -> ids <> ∅ -> treemap_serialize ids <> [] }.

(** A log with one entry for an index. *)
Record matchable `{Store DB} (db : DB) : Prop := {
  mb_wf : raft_wf db;
  mb_unique r r' : in_log db r -> in_log db r' -> rid_index r = rid_index r' -> r = r';
  mb_max r : in_log db r -> rid_index r < U64_MAX
}.
(** The ids of the log in order, and the first of each run of a term. *)
Definition ids_of `{Store DB} (db : DB) (l : list RaftId) : Prop :=
  StronglySorted (fun r r' => rid_index r < rid_index r') l /\ forall r, r ∈ l <-> in_log db r.
Fixpoint term_starts (last_term : TermId) (l : list RaftId) : list RaftId :=
  match l with
  | [] => []
  | r :: l => if rid_term r =? last_term then term_starts last_term l else r :: term_starts (rid_term r) l
  end.

Section MatchSpec.
Context `{StoreLaws DB}.
Variable db : DB.
Hypothesis Hdb : matchable db.

Lemma ids_exist : exists l, ids_of db l /\
  (take_prefix [LogKey.RAFT_KEY_PREFIX] (db_iterator db Logs [LogKey.RAFT_KEY_PREFIX] Forward)).*1 = LogKey.serialize_raft <$> l.
Proof.
  pose proof (fun k v => prefix_scan db Logs [LogKey.RAFT_KEY_PREFIX] k v) as Hscan.
  pose proof (take_prefix_sorted [LogKey.RAFT_KEY_PREFIX] _ (db_forward_sorted db Logs [LogKey.RAFT_KEY_PREFIX])) as Hs.
  set (it := take_prefix _ _) in *. destruct (Forall_image LogKey.serialize_raft (in_log db) it.*1) as (l & E & Hl).
  { intros k ([k' v] & -> & [Hg Hp]%Hscan)%list_elem_of_fmap. destruct (mb_wf _ Hdb _ _ Hg Hp) as (r & Hr & E). exists r. split; [done|].
    split; [done|]. cbn in E. rewrite <- E, Hg. by eexists. }
  exists l. split; [|done]. rewrite Forall_forall in Hl. split.
  - assert (StronglySorted bytes_lt it.*1) as Hs'.
    { clear -Hs. induction Hs as [|x it Hs IH Hx]; [constructor|]. constructor; [done|]. by apply Forall_fmap. }
    rewrite E in Hs'. clear E Hs Hscan. induction l as [|r l IH]; [constructor|]. cbn in Hs'. apply StronglySorted_inv in Hs' as [Hs Hx].
    constructor; [apply IH; [|done]; intros; apply Hl; by right|]. rewrite Forall_fmap, Forall_forall in Hx. apply Forall_forall. intros r' Hin.
    assert (in_log db r) as Hr by (apply Hl; by left). assert (in_log db r') as Hr' by (apply Hl; by right). specialize (Hx _ Hin).
    assert (bytes_le (LogKey.serialize_raft r) (LogKey.serialize_raft r')) as Hle by (apply bytes_le_lt_eq; by left).
    apply raft_key_le in Hle; [|apply Hr|apply Hr']. destruct (Z.eq_dec (rid_index r) (rid_index r')) as [Ei|]; [|destruct Hle; lia].
    rewrite (mb_unique _ Hdb _ _ Hr Hr' Ei) in Hx. by apply bytes_lt_irrefl in Hx.
  - intros r. split; [apply Hl|]. intros [Hr [v Hv]]. assert (LogKey.serialize_raft r ∈ it.*1) as Hin.
    { apply list_elem_of_fmap. exists (LogKey.serialize_raft r, v). split; [done|]. by apply Hscan. }
    rewrite E in Hin. apply list_elem_of_fmap in Hin as (r' & Ek & Hin). apply raft_key_inj in Ek as ->; [done..|]. by apply Hl.
Qed.

Lemma match_terms_spec l : ids_of db l -> get_raft_match_terms db = Some (term_starts U64_MAX l).
Proof.
  intros [Hs Hl]. destruct ids_exist as (l' & [Hs' Hl'] & E).
  assert (l' = l) as ->.
  { apply (sorted_by_unique (fun r r' => rid_index r < rid_index r')); [intros x; lia|intros x y z; lia|done|done|]. intros r. by rewrite Hl, Hl'. }
  unfold get_raft_match_terms. generalize (U64_MAX) as t. intros t.
  assert (Forall (fun r => rid_fits r) l) as Hf by (apply Forall_forall; intros r [? _]%Hl; done). clear Hs Hl Hs' Hl'.
  revert l E Hf t. induction (db_iterator db Logs [LogKey.RAFT_KEY_PREFIX] Forward) as [|[k v] it IH]; intros l E Hf t; cbn [take_prefix fst match_terms_loop] in *.
  { symmetry in E. apply fmap_nil_inv in E as ->. done. }
  destruct (starts_with k _).
  2: { symmetry in E. apply fmap_nil_inv in E as ->. done. }
  destruct l as [|r l]; [discriminate E|]. cbn [fmap list_fmap fst] in E. injection E as -> E. apply Forall_cons in Hf as [Hr Hf].
  rewrite raft_key_decode by done. cbn [mbind option_bind term_starts]. destruct (_ =? _); cbn [negb]; [by apply IH|].
  by rewrite (IH l E Hf).
Qed.

(** Only the index asked for is ever listed: the prefix of the scan holds it. *)
Lemma match_indexes_spec r : in_log db r -> get_raft_match_indexes db (rid_index r) = Some (rid_term r, {[rid_index r]}).
Proof.
  intros [Hr [v Hv]]. unfold get_raft_match_indexes.
  assert (take LogKey.RAFT_TERM_POS (LogKey.serialize_raft (mkRaftId 0 (rid_index r))) = LogKey.RAFT_KEY_PREFIX :: be_bytes 8 (rid_index r)) as ->.
  { done. }
  set (p := LogKey.RAFT_KEY_PREFIX :: _). assert (take_prefix p (db_iterator db Logs p Forward) = [(LogKey.serialize_raft r, v)]) as E.
  { pose proof (take_prefix_sorted p _ (db_forward_sorted db Logs p)) as Hs.
    assert (forall kv, kv ∈ take_prefix p (db_iterator db Logs p Forward) <-> kv = (LogKey.serialize_raft r, v)) as Hin.
    { intros [k w]. rewrite prefix_scan. split.
      - intros [Hg Hp]. assert (starts_with k [LogKey.RAFT_KEY_PREFIX] = true) as Hp' by (apply starts_with_iff in Hp as [x ->]; done).
        destruct (mb_wf _ Hdb _ _ Hg Hp') as (r' & Hr' & ->). assert (r' = r) as ->; [|congruence].
        apply (mb_unique _ Hdb); [by split; [|rewrite Hg; eexists]|by split; [|rewrite Hv; eexists]|].
        apply starts_with_iff in Hp as [x Ex]. unfold p, LogKey.serialize_raft in Ex. apply (f_equal tail) in Ex. cbn [tail app] in Ex.
        apply app_inj_1 in Ex as [Ex _]; [|by rewrite !be_bytes_length]. apply be_bytes_inj in Ex; [done|apply Hr'|apply Hr].
      - intros [= -> ->]. split; [done|]. apply starts_with_iff. by exists (be_bytes 8 (rid_term r)). }
    apply (sorted_by_unique (fun kv kv' => bytes_lt kv.1 kv'.1)); [intros x; apply bytes_lt_irrefl|intros x y z; apply bytes_lt_trans|exact Hs|by repeat constructor|].
    intros kv. by rewrite Hin, list_elem_of_singleton. }
  assert (forall l, match_indexes_loop p (db_iterator db Logs p Forward) U64_MAX l = Some (rid_term r, {[rid_index r]} ∪ l)) as Hloop.
  { intros l. destruct (db_iterator db Logs p Forward) as [|[k w] it]; [discriminate E|]. cbn [take_prefix fst match_indexes_loop] in *.
    destruct (starts_with k p); [|discriminate E]. injection E as -> -> E. rewrite raft_key_decode, Z.eqb_refl by done. cbn [mbind option_bind].
    destruct it as [|[k w] it]; [done|]. cbn [take_prefix fst match_indexes_loop] in *. by destruct (starts_with k p). }
  rewrite Hloop. by rewrite (right_id_L ∅ (∪)).
Qed.
End MatchSpec.

(** The answer [Match]: the follower names its last entry that is not behind
    the last one of the leader, and entries are sent from there on exactly when
    the leader has it too. *)
Theorem append_from_common `{StoreLaws DB} (leader follower : DB) last_log uncommitted_index :
  raft_wf leader -> raft_wf follower -> rid_fits last_log ->
  exists m up_to_date, handle_match_log follower last_log = Some (m, up_to_date) /\ (on_match leader uncommitted_index m).2 = rid_index m /\
    (raft_id_is_none m = false -> in_log follower m /\ rid_le m last_log /\
       ((on_match leader uncommitted_index m).1 = AppendLogs <-> in_log leader m)).
Proof.
  intros Hl Hf Hfit. pose proof (get_prev_raft_id_spec follower last_log Hf Hfit) as Hp. unfold handle_match_log.
  destruct (get_prev_raft_id follower last_log) as [[m|]|]; [| |done]; cbn [mbind option_bind]; eexists _, _; (split; [done|]); (split; [done|]); [|discriminate].
  intros Hn. destruct Hp as (Hm & Hle & _). split; [done|]. split; [done|]. unfold on_match. rewrite Hn. cbn [negb fst].
  pose proof (get_next_raft_id_spec leader m Hl (proj1 Hm)) as Hx. assert (rid_le m m) as Hrefl by (right; lia).
  destruct (get_next_raft_id leader m) as [[r|]|]; [|by split; [|intros Hin; destruct (Hx _ Hin)]|done].
  destruct Hx as (Hr & Hge & Hmin). case_bool_decide as E; [by subst r|]. split; [done|]. intros Hin. destruct E.
  specialize (Hmin m Hin Hrefl). destruct r, m. unfold rid_le in *. cbn in *. f_equal; lia.
Qed.

Lemma term_starts_elem t l r : r ∈ term_starts t l -> r ∈ l.
Proof.
  revert t. induction l as [|r' l IH]; intros t; cbn; [done|]. destruct (_ =? _); [intros; right; by eapply IH|].
  intros [->|Hin]%elem_of_cons; [by left|right; by eapply IH].
Qed.
Lemma matched_loop_spec l : forall a k, exists pre, pre `prefix_of` l /\ pre `prefix_of` k /\
  (forall r, ~ (pre ++ [r] `prefix_of` l /\ pre ++ [r] `prefix_of` k)) /\ matched_loop a (zip l k) = default a (last pre).
Proof.
  induction l as [|x l IH]; intros a k.
  { exists []. split_and!; [done|apply prefix_nil|by intros r [[? ?] _]|done]. }
  destruct k as [|y k].
  { exists []. split_and!; [apply prefix_nil|done|by intros r [_ [? ?]]|done]. }
  cbn [zip zip_with matched_loop]. case_bool_decide as E.
  - subst y. destruct (IH x k) as (pre & H1' & H2' & H3' & H4'). exists (x :: pre). split_and!; [by apply prefix_cons..| |].
    + intros r [Hp%prefix_cons_inv_2 Hp'%prefix_cons_inv_2]. by apply (H3' r).
    + change (zip_with pair l k) with (zip l k). rewrite H4'. rewrite last_cons. by destruct (last pre).
  - exists []. split_and!; [apply prefix_nil..| |done]. intros r [Hp%prefix_cons_inv_1 Hp'%prefix_cons_inv_1]. congruence.
Qed.
Lemma singleton_iter x : treemap_iter {[x]} = [x].
Proof. unfold treemap_iter. by rewrite elements_singleton. Qed.

(** C26. What leader and follower agree on. On logs with one Raft entry for an
    index, of which the leader's is not empty, the exchange of the first
    entries of the terms succeeds, and the log is merged at the last of the
    first entries that both logs start with in common, or at none if the first
    ones differ; the entry is in both logs. Entries of that term behind the
    first one do not count, although both may have them. *)
Theorem matching_finds_term_start `{TreemapLaws} `{!TreemapSize} `{StoreLaws DB} (leader follower : DB) ll lf :
  matchable leader -> matchable follower -> ids_of leader ll -> ids_of follower lf -> term_starts U64_MAX ll <> [] ->
  exists terms bytes pre m, get_raft_match_terms leader = Some terms /\ handle_synchronize_log follower terms = Some bytes /\
    on_synchronize leader bytes = MergeState m /\ m = default raft_id_none (last pre) /\
    pre `prefix_of` term_starts U64_MAX ll /\ pre `prefix_of` term_starts U64_MAX lf /\
    (forall r, ~ (pre ++ [r] `prefix_of` term_starts U64_MAX ll /\ pre ++ [r] `prefix_of` term_starts U64_MAX lf)) /\
    (pre <> [] -> in_log leader m /\ in_log follower m).
Proof.
  intros Hl Hf Hll Hlf Hne. destruct (matched_loop_spec (term_starts U64_MAX lf) raft_id_none (term_starts U64_MAX ll)) as (pre & Hp1 & Hp2 & Hmax & Em).
  set (m := default raft_id_none (last pre)) in *.
  assert (pre <> [] -> in_log leader m /\ in_log follower m) as Hin.
  { intros Hn. destruct pre as [|r pre _] using rev_ind; [done|]. unfold m. rewrite last_snoc. cbn [default id].
    split; [apply Hll, (term_starts_elem U64_MAX)|apply Hlf, (term_starts_elem U64_MAX)];
      [destruct Hp2 as [x ->]|destruct Hp1 as [x ->]]; apply elem_of_app; left; apply elem_of_app; right; by left. }
  assert (exists bytes, handle_synchronize_log follower (term_starts U64_MAX ll) = Some bytes /\ on_synchronize leader bytes = MergeState m) as (bytes & E1 & E2).
  { unfold handle_synchronize_log. rewrite bool_decide_false, (match_terms_spec follower Hf lf Hlf) by done. cbn [mbind option_bind]. rewrite Em.
    destruct (decide (pre = [])) as [->|Hn]; [by exists []|]. destruct (Hin Hn) as [Hml Hmf].
    pose proof (mb_max _ Hf m Hmf) as Hlt. unfold raft_id_is_none. rewrite (proj2 (Z.eqb_neq _ _)) by lia. cbn [negb].
    rewrite match_indexes_spec by done. cbn [mbind option_bind]. rewrite bool_decide_false by (apply non_empty_singleton_L). cbn [negb].
    eexists. split; [done|]. assert (ids_ok {[rid_index m]}) as Hok by (apply set_Forall_singleton; apply Hml).
    unfold on_synchronize. destruct (treemap_serialize {[rid_index m]}) eqn:Es; [by apply treemap_bytes in Es; [|done|apply non_empty_singleton_L]|].
    rewrite <- Es, treemap_roundtrip by done. unfold treemap_min. rewrite singleton_iter. cbn [head].
    rewrite match_indexes_spec by done. unfold treemap_max. rewrite (idemp_L (∩)), singleton_iter. cbn [last]. by destruct m. }
  exists (term_starts U64_MAX ll), bytes, pre, m. split; [by apply match_terms_spec|]. split_and!; try done. intros r [? ?]. by apply (Hmax r).
Qed.

(** C22. A follower that diverged catches up. Let the logs of leader and
    follower agree up to an index ([U64_MAX] for not at all), as they do at a
    matched entry by the log matching of Raft. Then rolling the follower back
    to the index succeeds, and the exchange of entries that follows ends with
    the log of the follower being that of the leader up to an index behind it:
    what the follower had alone is gone, and no batch size loses an entry. *)
Theorem diverged_follower_catches_up `{TreemapLaws} `{Roaring} `{StoreLaws DB} (leader follower : DB) m r0 batch_size l :
  sendable leader -> changes_named leader -> in_log leader r0 -> 0 < batch_size ->
  log_wf follower -> change_values follower -> raft_wf follower -> fits 64 m -> gone m (rid_index r0) = true ->
  (forall g j, group_fits g -> fits 64 j -> gone m j = false -> db_get follower Logs (group_key g j) = db_get leader Logs (group_key g j)) ->
  (forall r, rid_fits r -> gone m (rid_index r) = false -> db_get follower Logs (LogKey.serialize_raft r) = db_get leader Logs (LogKey.serialize_raft r)) ->
  exists follower' n, prepare_rollback_changes follower m true = (follower', true) /\
  forall fuel, (n <= fuel)%nat ->
  exists db' l' i', log_phase fuel leader (rid_index r0) batch_size [] m follower' l = Some (db', l', i') /\
    gone m i' = true /\ i' <= rid_index r0 /\ uncommitted_index l' = i' /\ log_upto leader db' i'.
Proof.
  intros Hs Hn Hr0 Hb Hw Hv Hr Hm Hg Hag Har.
  assert (m <> U64_MAX - 1) as Hmax by (pose proof (sd_max _ Hs r0 Hr0); revert Hg; unfold gone; destruct (Z.eqb_spec m U64_MAX); cbn; lia).
  destruct (prepare_rollback_spec follower m true Hw Hv Hr Hm Hmax) as (f1 & E & Hgk & Hrk & _).
  destruct (follower_copies_log leader f1 r0 m batch_size l) as [n Hcopy]; [done..| |].
  { split.
    - intros g j Hgf Hj. rewrite Hgk by done. destruct (gone m j) eqn:Eg; [done|by apply Hag].
    - intros r Hrf. rewrite Hrk by done. destruct (gone m (rid_index r)) eqn:Eg; [done|by apply Har]. }
  exists f1, n. split; [exact E|]. intros fuel Hf. destruct (Hcopy fuel Hf) as (db' & l' & i' & ? & ? & ? & ? & ? & _). by exists db', l', i'.
Qed.

Import CompactSample.
Import BitList.ListRoaring.

#[export] Instance sample_treemap_size : TreemapSize.
Proof.
  split. intros ids Hok Hne. change (treemap_serialize ids) with (flat_map leb128 (elements ids)).
  destruct (elements ids) as [|x l] eqn:E; [by apply elements_empty_inv in E; apply leibniz_equiv in E|].
  cbn. pose proof (leb128_nonempty x) as Hx. destruct (leb128 x); [cbn in Hx; lia|discriminate].
Qed.

(** The sample log as the log of both: the follower is rolled back to index 2
    and gets the entries behind it again. *)
Lemma diverged_follower_catches_up_witness : exists follower' n, prepare_rollback_changes CompactSample.log 2 true = (follower', true) /\
  forall fuel, (n <= fuel)%nat ->
  exists db' l' i', log_phase fuel CompactSample.log 4 10000 [] 2 follower' (mkLogState 2 U64_MAX ∅) = Some (db', l', i') /\
    gone 2 i' = true /\ i' <= 4 /\ uncommitted_index l' = i' /\ log_upto CompactSample.log db' i'.
Proof.
  destruct sample_compactable as [_ Hwf Hval [Hraft _ _ _] _ _].
  apply (diverged_follower_catches_up CompactSample.log CompactSample.log 2 (mkRaftId 1 4) 10000 (mkLogState 2 U64_MAX ∅)).
  - apply sample_sendable.
  - apply sample_named.
  - split; [split; split; cbn; lia|]. vm_compute. by eexists.
  - lia.
  - exact Hwf.
  - exact Hval.
  - exact Hraft.
  - split; lia.
  - reflexivity.
  - done.
  - done.
Defined.

(** Two logs with the entries 1 to 3 of term 1 in common, and then different
    entries: of term 2 in the log of the leader, of term 1 in the other. *)
Definition raft_log (ids : list RaftId) : MemStore.t :=
  db_write MemStore.empty ((fun r => OpSet Logs (LogKey.serialize_raft r) (item_bytes 1 4)) <$> ids).
Definition common_leader : list RaftId := [mkRaftId 1 1; mkRaftId 1 2; mkRaftId 1 3; mkRaftId 2 4].
Definition common_follower : list RaftId := [mkRaftId 1 1; mkRaftId 1 2; mkRaftId 1 3; mkRaftId 1 4].

Lemma raft_log_ids ids : StronglySorted (fun r r' => rid_index r < rid_index r') ids ->
  Forall (fun r => rid_fits r /\ rid_index r < U64_MAX /\ is_Some (db_get (raft_log ids) Logs (LogKey.serialize_raft r))) ids ->
  matchable (raft_log ids) /\ ids_of (raft_log ids) ids.
Proof.
  intros Hs Hids. rewrite Forall_forall in Hids.
  assert (forall k v, db_get (raft_log ids) Logs k = Some v -> exists r, r ∈ ids /\ k = LogKey.serialize_raft r) as Hget.
  { intros k v Hg. apply written_get in Hg; [|apply Forall_forall; intros op (r & -> & _)%list_elem_of_fmap; by eexists _, _, _].
    apply list_elem_of_fmap in Hg as (r & E & Hin). exists r. split; [done|]. exact (f_equal op_key E). }
  assert (forall r, r ∈ ids <-> in_log (raft_log ids) r) as Hin.
  { intros r. split; [intros Hr; destruct (Hids r Hr) as (? & _ & ?); done|].
    intros [Hr [v (r' & Hr' & E)%Hget]]. apply raft_key_inj in E as ->; [done..|]. by apply Hids. }
  split; [split|done].
  - intros k v (r & Hr & ->)%Hget _. exists r. split; [by apply Hids|done].
  - intros r r' Hr%Hin Hr'%Hin E. clear Hids Hget Hin. induction Hs as [|x l Hs IH Hx]; [by apply not_elem_of_nil in Hr|]. rewrite Forall_forall in Hx.
    apply elem_of_cons in Hr as [->|Hr], Hr' as [->|Hr']; [done| | |by apply IH].
    + specialize (Hx _ Hr'). lia.
    + specialize (Hx _ Hr). lia.
  - intros r Hr%Hin. by apply Hids.
Qed.
Lemma common_logs : (matchable (raft_log common_leader) /\ ids_of (raft_log common_leader) common_leader) /\
  (matchable (raft_log common_follower) /\ ids_of (raft_log common_follower) common_follower).
Proof.
  split; apply raft_log_ids; [repeat constructor; cbn; lia| |repeat constructor; cbn; lia|].
  all: repeat (constructor; [split; [split; split; cbn; lia|split; [cbn; lia|vm_compute; by eexists]]|]); constructor.
Qed.

Lemma matching_finds_term_start_witness : exists terms bytes pre m,
  get_raft_match_terms (raft_log common_leader) = Some terms /\ handle_synchronize_log (raft_log common_follower) terms = Some bytes /\
  on_synchronize (raft_log common_leader) bytes = MergeState m /\ m = default raft_id_none (last pre) /\
  pre `prefix_of` term_starts U64_MAX common_leader.
Proof.
  destruct common_logs as [[H1' H2'] [H3' H4']].
  destruct (matching_finds_term_start (raft_log common_leader) (raft_log common_follower) common_leader common_follower H1' H3' H2' H4')
    as (terms & bytes & pre & m & E1 & E2 & E3 & E4 & E5 & _); [by vm_compute|].
  exists terms, bytes, pre, m. exact (conj E1 (conj E2 (conj E3 (conj E4 E5)))).
Defined.

(** Entries that both logs have are rolled back: the merge is at 1, although
    the entries 2 and 3 are the same in both logs, and the rollback of the
    follower removes them. *)
Theorem common_entries_rolled_back :
  (terms ← get_raft_match_terms (raft_log common_leader); bytes ← handle_synchronize_log (raft_log common_follower) terms;
   Some (on_synchronize (raft_log common_leader) bytes)) = Some (MergeState (mkRaftId 1 1)) /\
  db_get (raft_log common_leader) Logs (LogKey.serialize_raft (mkRaftId 1 3)) = db_get (raft_log common_follower) Logs (LogKey.serialize_raft (mkRaftId 1 3)) /\
  db_get (prepare_rollback_changes (raft_log common_follower) 1 true).1 Logs (LogKey.serialize_raft (mkRaftId 1 3)) = None.
Proof. split_and!; vm_compute; reflexivity. Qed.
