(* ===== verification/OAuth.v ===== *)
(** * OAuth: src/authorization/oauth.rs

    The codes of the device and authorization code flows, the requests that
    create, authorize and redeem them, and the access and refresh tokens. A
    code of [oauth_codes] refers to a shared [OAuthCode]: the device code and
    the user code of one request are two names of one object, and a task that
    waits for a password check keeps a reference to it. So the server holds a
    heap of objects and a map from codes to references. Requests run on several
    threads: in a run they interleave at every load and store of the status and
    of the account of an object and where the handlers wait; these atomic
    operations take effect one after the other.

    Texts are UTF-8 bytes; the pages are lists of the templates under
    resources/oauth with what is put in for the mark. Passwords and secrets
    are looked up in the account store, an argument, since it changes between
    requests; so are random numbers and the clocks. The ciphers, the hash, base64 and bincode are
    other crates: an interface with its laws. *)

From Stdlib Require Import String.
From S2P Require Import Prelude Text Types Lang Leb128 Serialize Nlp.
#[local] Open Scope Z_scope.

(** ** Constants and data *)

Definition STATUS_AUTHORIZED : Z := 0.
Definition STATUS_TOKEN_ISSUED : Z := 1.
Definition STATUS_PENDING : Z := 2.
Definition DEVICE_CODE_LEN : nat := 40.
Definition USER_CODE_LEN : nat := 8.
Definition RANDOM_CODE_LEN : nat := 32.
Definition CLIENT_ID_MAX_LEN : Z := 20.
Definition USER_CODE_ALPHABET : list Z := chars "ABCDEFGHJKLMNPQRSTUVWXYZ23456789".
Definition ENCRYPT_TAG_LEN : nat := 16.
Definition NONCE_LEN : nat := 12.

Record OAuth := mkOAuth {
  oauth_key : list Z; expiry_user_code : Z; expiry_auth_code : Z; expiry_token : Z; expiry_refresh_token : Z;
  expiry_refresh_token_renew : Z; max_auth_attempts : Z }.

Record OAuthCode := mkCode {
  code_status : Z; code_account_id : Z; code_expiry : Z; code_client_id : list Z; code_redirect_uri : option (list Z) }.

Record DeviceAuthPost := mkDevicePost {
  dp_code : option (list Z); dp_email : option (list Z); dp_password : option (list Z) }.

Record DeviceAuthResponse := mkDeviceResponse {
  device_code : list Z; user_code : list Z; verification_uri : list Z; verification_uri_complete : list Z;
  expires_in : Z; interval : Z }.

Record CodeAuthRequest := mkCodeRequest {
  cr_response_type : list Z; cr_client_id : list Z; cr_redirect_uri : list Z; cr_scope : option (list Z);
  cr_state : option (list Z) }.

Record CodeAuthForm := mkCodeForm {
  cf_code : list Z; cf_email : option (list Z); cf_password : option (list Z) }.

Record TokenRequest := mkTokenRequest {
  tr_grant_type : list Z; tr_code : option (list Z); tr_device_code : option (list Z); tr_client_id : option (list Z);
  tr_refresh_token : option (list Z); tr_redirect_uri : option (list Z) }.

Inductive ErrorType : Set :=
| InvalidGrant | InvalidClient | InvalidScope | InvalidRequest | UnauthorizedClient | UnsupportedGrantType
| AuthorizationPending | SlowDown | AccessDenied | ExpiredToken.

Inductive TokenResponse : Set :=
| Granted (access_token token_type : list Z) (expires_in : Z) (refresh_token scope : option (list Z))
| TokenError (error : ErrorType).

Definition is_error (r : TokenResponse) : bool := match r with TokenError _ => true | _ => false end.

(** Pages: the templates with the text put in for the mark [@@@]. *)
Inductive html : Set :=
| HTML_HEADER (action : list Z) | HTML_FOOTER | HTML_LOGIN_HEADER_CLIENT | HTML_LOGIN_HEADER_DEVICE
| HTML_LOGIN_HEADER_FAILED | HTML_LOGIN_FORM (cancel : list Z) | HTML_LOGIN_CODE (code : list Z)
| HTML_LOGIN_CODE_HIDDEN (code : list Z) | HTML_LOGIN_SUCCESS | HTML_ERROR (message : list Z).

Inductive HttpResponse : Set :=
| BadRequest (body : list Z)
| Page (body : list html)
| TemporaryRedirect (location : list Z).

(** ** What OAuth uses of other parts *)

(** [JMAPAccountStore]. *)
Record AccountStore := mkAccounts {
  authenticate : list Z -> list Z -> result (option Z);
  get_account_secret_hash : Z -> result (option (list Z)) }.

(** AES-256-GCM-SIV, BLAKE3, base64 and bincode. *)
Class Crypto := {
  derive_key : list Z -> list Z -> list Z;
  blake3 : list Z -> list Z;
  aes_encrypt : list Z -> list Z -> list Z -> option (list Z);
  aes_decrypt : list Z -> list Z -> list Z -> option (list Z);
  base64_encode : list Z -> list Z;
  decode_base64 : list Z -> option (list Z);
  bincode_serialize : Z * CodeAuthRequest -> list Z;
  bincode_deserialize : list Z -> option (Z * CodeAuthRequest) }.

(** A cipher text is its plain text encrypted, [ENCRYPT_TAG_LEN] bytes longer,
    and no other text decrypts: the tag is a function of the plain text. *)
Class CryptoLaws `{Crypto} : Prop := {
  aes_total k n m : Z.of_nat (length m) <= 2 ^ 36 -> exists c, aes_encrypt k n m = Some c;
  aes_length k n m c : aes_encrypt k n m = Some c -> length c = (length m + ENCRYPT_TAG_LEN)%nat;
  aes_bytes k n m c : bytes_ok m -> aes_encrypt k n m = Some c -> bytes_ok c;
  aes_exact k n m c : aes_decrypt k n c = Some m <-> aes_encrypt k n m = Some c;
  base64_inverse m : bytes_ok m -> decode_base64 (base64_encode m) = Some m;
  bincode_bytes x : bytes_ok (bincode_serialize x);
  bincode_inverse x : bincode_deserialize (bincode_serialize x) = Some x }.

(** ** The server *)

Record Server := mkServer { oauth_codes : gmap (list Z) nat; cells : list OAuthCode }.
Definition server0 : Server := mkServer ∅ [].

Definition get_code (s : Server) (code : list Z) : option (nat * OAuthCode) :=
  c ← oauth_codes s !! code; o ← cells s !! c; Some (c, o).
Definition set_status (s : Server) (c : nat) (st : Z) : Server :=
  mkServer (oauth_codes s) (alter (fun o => mkCode st (code_account_id o) (code_expiry o) (code_client_id o) (code_redirect_uri o)) c (cells s)).
Definition set_account (s : Server) (c : nat) (a : Z) : Server :=
  mkServer (oauth_codes s) (alter (fun o => mkCode (code_status o) a (code_expiry o) (code_client_id o) (code_redirect_uri o)) c (cells s)).

(** [Arc::new] and the inserts of its codes. *)
Definition add_code (s : Server) (codes : list (list Z)) (o : OAuthCode) : Server :=
  mkServer (foldl (fun m code => <[code := length (cells s)]> m) (oauth_codes s) codes) (cells s ++ [o]).

(** The clocks: [Instant] in nanoseconds, [SystemTime] in seconds. *)
Record Clock := mkClock { instant : Z; system_time : Z }.
Definition elapsed_secs (k : Clock) (t : Z) : Z := Z.max 0 (instant k - t) / 1000000000.
Definition since_2000 (k : Clock) : Z := Z.max 0 (Z.max 0 (system_time k) - 946684800).

Definition pending (cfg : OAuth) (status : Z) : bool :=
  (STATUS_PENDING <=? status) && (status <? u32 (STATUS_PENDING + max_auth_attempts cfg)).

(** ** Tokens *)

Section Handlers.
Context `{Crypto}.
Variable cfg : OAuth.

Definition token_context (grant_type client_id : list Z) (account_id : Z) (password_hash : list Z) : list Z :=
  grant_type ++ [32] ++ client_id ++ [32] ++ decimal account_id ++ [32] ++ password_hash.
Definition token_nonce (grant_type password_hash : list Z) (expiry : Z) : list Z :=
  take NONCE_LEN (blake3 (grant_type ++ chars " nonce " ++ password_hash ++ be_bytes 8 expiry)).

Definition encode_access_token (k : Clock) (grant_type : list Z) (account_id : Z) (password_hash client_id : list Z)
    (expiry_in : Z) (random : list Z) : result (list Z) :=
  if CLIENT_ID_MAX_LEN <? Z.of_nat (length client_id) then inl StoreError.DeserializeError
  else
    let context := token_context grant_type client_id account_id password_hash in
    let expiry := u64 (since_2000 k + expiry_in) in
    let nonce := token_nonce grant_type password_hash expiry in
    match aes_encrypt (derive_key context (oauth_key cfg)) nonce random with
    | None => inl StoreError.DeserializeError
    | Some token =>
        let token := push_leb128 token account_id in
        let token := push_leb128 token expiry in
        inr (base64_encode (token ++ client_id))
    end.

(** The client of a token is read back byte by byte: [char::from] makes a
    Latin-1 character of each. *)
Definition latin1 (bytes : list Z) : list Z := str_bytes bytes.

Definition token_header_len : nat := RANDOM_CODE_LEN + ENCRYPT_TAG_LEN.
Definition token_parts (token : list Z) : option (Z * Z * list Z) :=
  if (length token <? token_header_len)%nat then None
  else
    '(account_id, bytes) ← next_leb128 U32 (drop token_header_len token);
    '(expiry, bytes) ← next_leb128 U64 bytes;
    Some (account_id, expiry, latin1 bytes).

Definition validate_access_token (st : AccountStore) (k : Clock) (grant_type token : list Z) :
    result (Z * list Z * Z) :=
  match decode_base64 token with
  | None => inl StoreError.DeserializeError
  | Some token =>
      match token_parts token with
      | None => inl StoreError.DeserializeError
      | Some (account_id, expiry, client_id) =>
          let now := since_2000 k in
          if expiry <=? now then inl StoreError.DeserializeError
          else
            match get_account_secret_hash st account_id with
            | inl e => inl e
            | inr None => inl StoreError.DeserializeError
            | inr (Some password_hash) =>
                let context := token_context grant_type client_id account_id password_hash in
                let nonce := token_nonce grant_type password_hash expiry in
                match aes_decrypt (derive_key context (oauth_key cfg)) nonce (take token_header_len token) with
                | None => inl StoreError.DeserializeError
                | Some _ => inr (account_id, client_id, expiry - now)
                end
            end
      end
  end.

(** [random]: the random bytes of both tokens. *)
Definition issue_token (st : AccountStore) (k : Clock) (random : list Z * list Z) (account_id : Z)
    (client_id : list Z) (with_refresh_token : bool) : result TokenResponse :=
  match get_account_secret_hash st account_id with
  | inl e => inl e
  | inr None => inl StoreError.DeserializeError
  | inr (Some password_hash) =>
      match encode_access_token k (chars "access_token") account_id password_hash client_id (expiry_token cfg) random.1 with
      | inl e => inl e
      | inr access_token =>
          if with_refresh_token then
            match encode_access_token k (chars "refresh_token") account_id password_hash client_id
                    (expiry_refresh_token cfg) random.2 with
            | inl e => inl e
            | inr refresh_token =>
                inr (Granted access_token (chars "bearer") (expiry_token cfg) (Some refresh_token) None)
            end
          else inr (Granted access_token (chars "bearer") (expiry_token cfg) None None)
      end
  end.

(** ** Requests *)

Fixpoint user_code_loop (pos : nat) (values : list Z) : list Z :=
  match values with
  | [] => []
  | v :: values =>
      (if (pos =? USER_CODE_LEN / 2)%nat then [45] else []) ++
      [default 0 (USER_CODE_ALPHABET !! Z.to_nat (v mod 32))] ++ user_code_loop (S pos) values
  end.

(** [device_code] are [DEVICE_CODE_LEN] random letters and digits, [values]
    [USER_CODE_LEN] random integers. *)
Definition handle_device_auth (base_url : list Z) (k : Clock) (client_id device_code values : list Z) (s : Server) :
    Server * (HttpResponse + DeviceAuthResponse) :=
  if CLIENT_ID_MAX_LEN <? Z.of_nat (length client_id) then (s, inl (BadRequest (chars "Client ID is too long")))
  else
    let user_code := user_code_loop 0 values in
    (add_code s [device_code; user_code] (mkCode STATUS_PENDING U32_MAX (instant k) client_id None),
     inr (mkDeviceResponse device_code user_code (base_url ++ chars "/auth") (base_url ++ chars "/auth/code?=" ++ user_code)
            (expiry_user_code cfg) 5)).

(** The token endpoint up to the [load] of the status: an answer, or the
    object whose token is to be issued. *)
Inductive loaded := Answer (r : TokenResponse) | Issue (c : nat) (o : OAuthCode).

Definition load_auth_code (k : Clock) (p : TokenRequest) (s : Server) : loaded :=
  match tr_code p, tr_client_id p, tr_redirect_uri p with
  | Some code, Some client_id, Some redirect_uri =>
      match get_code s code with
      | Some (c, oauth) =>
          if negb (bool_decide (client_id = code_client_id oauth)) ||
             negb (bool_decide (redirect_uri = default [] (code_redirect_uri oauth))) then Answer (TokenError InvalidClient)
          else if (code_status oauth =? STATUS_AUTHORIZED) && (elapsed_secs k (code_expiry oauth) <? expiry_auth_code cfg)
          then Issue c oauth
          else Answer (TokenError InvalidGrant)
      | None => Answer (TokenError AccessDenied)
      end
  | _, _, _ => Answer (TokenError InvalidClient)
  end.

Definition load_device_code (k : Clock) (p : TokenRequest) (s : Server) : loaded :=
  match tr_device_code p ≫= get_code s, tr_client_id p with
  | Some (c, oauth), Some client_id =>
      if negb (bool_decide (code_client_id oauth = client_id)) then Answer (TokenError InvalidClient)
      else if elapsed_secs k (code_expiry oauth) <? expiry_user_code cfg then
        if code_status oauth =? STATUS_AUTHORIZED then Issue c oauth
        else if pending cfg (code_status oauth) then Answer (TokenError AuthorizationPending)
        else if code_status oauth =? STATUS_TOKEN_ISSUED then Answer (TokenError ExpiredToken)
        else Answer (TokenError AccessDenied)
      else Answer (TokenError ExpiredToken)
  | _, _ => Answer (TokenError ExpiredToken)
  end.

(** The rest: the [store] of the status, the [load] of the account, and the token. *)
Definition mark_issued (s : Server) (c : nat) : Server := set_status s c STATUS_TOKEN_ISSUED.
Definition load_account (s : Server) (c : nat) : Z := from_option code_account_id U32_MAX (cells s !! c).
Definition client_of (s : Server) (c : nat) : list Z := from_option code_client_id [] (cells s !! c).
Definition answer_token (st : AccountStore) (k : Clock) (random : list Z * list Z) (account_id : Z) (client_id : list Z) : TokenResponse :=
  match issue_token st k random account_id client_id true with inr r => r | inl _ => TokenError InvalidRequest end.
Definition issue_loaded (st : AccountStore) (k : Clock) (random : list Z * list Z) (c : nat) (s : Server) :
    Server * TokenResponse :=
  let s := mark_issued s c in (s, answer_token st k random (load_account s c) (client_of s c)).

Definition refresh_request (st : AccountStore) (k : Clock) (random : list Z * list Z) (p : TokenRequest) : TokenResponse :=
  match tr_refresh_token p with
  | Some refresh_token =>
      match validate_access_token st k (chars "refresh_token") refresh_token with
      | inr (account_id, client_id, time_left) =>
          match issue_token st k random account_id client_id (time_left <=? expiry_refresh_token_renew cfg) with
          | inr r => r
          | inl _ => TokenError InvalidGrant
          end
      | inl _ => TokenError InvalidGrant
      end
  | None => TokenError InvalidRequest
  end.

Definition load_token_request (st : AccountStore) (k : Clock) (random : list Z * list Z) (p : TokenRequest) (s : Server) :
    loaded :=
  if eq_ignore_ascii_case (tr_grant_type p) (chars "authorization_code") then load_auth_code k p s
  else if eq_ignore_ascii_case (tr_grant_type p) (chars "urn:ietf:params:oauth:grant-type:device_code") then load_device_code k p s
  else if eq_ignore_ascii_case (tr_grant_type p) (chars "refresh_token") then Answer (refresh_request st k random p)
  else Answer (TokenError InvalidGrant).

(** The whole handler, when nothing happens between its operations. *)
Definition handle_token_request (st : AccountStore) (k : Clock) (random : list Z * list Z) (p : TokenRequest) (s : Server) :
    Server * TokenResponse :=
  match load_token_request st k random p s with
  | Answer r => (s, r)
  | Issue c _ => issue_loaded st k random c s
  end.

Definition with_state (link : list Z) (state : option (list Z)) : list Z :=
  match state with Some state => link ++ chars "&state=" ++ state | None => link end.
Definition form_code (attempts : Z) (req : CodeAuthRequest) : list Z := base64_encode (bincode_serialize (attempts, req)).

Definition handle_user_code_auth (p : CodeAuthRequest) : HttpResponse :=
  if CLIENT_ID_MAX_LEN <? Z.of_nat (length (cr_client_id p)) then BadRequest (chars "Client ID is too long")
  else if negb (bool_decide (take 8 (cr_redirect_uri p) = chars "https://")) then BadRequest (chars "Redirect URI must be HTTPS")
  else
    let cancel_link := with_state (cr_redirect_uri p ++ chars "?error=access_denied") (cr_state p) in
    Page [HTML_HEADER (chars "/auth/code"); HTML_LOGIN_HEADER_CLIENT; HTML_LOGIN_CODE_HIDDEN (form_code 1 p);
          HTML_LOGIN_FORM cancel_link; HTML_FOOTER].

(** [client_code] are [DEVICE_CODE_LEN] random letters and digits. *)
Definition handle_user_code_auth_post (st : AccountStore) (k : Clock) (client_code : list Z) (p : CodeAuthForm) (s : Server) :
    Server * HttpResponse :=
  match decode_base64 (cf_code p) ≫= bincode_deserialize with
  | None => (s, BadRequest (chars "Failed to deserialize code."))
  | Some (auth_attempts, code_req) =>
      let login :=
        match cf_email p, cf_password p with
        | Some email, Some password => match authenticate st email password with inr (Some a) => Some a | _ => None end
        | _, _ => None
        end in
      match login with
      | Some account_id =>
          (add_code s [client_code] (mkCode STATUS_AUTHORIZED account_id (instant k) (cr_client_id code_req)
                                       (Some (cr_redirect_uri code_req))),
           TemporaryRedirect (with_state (cr_redirect_uri code_req ++ chars "?code=" ++ client_code) (cr_state code_req)))
      | None =>
          let redirect_link := with_state (cr_redirect_uri code_req ++ chars "?error=access_denied") (cr_state code_req) in
          (s, if auth_attempts <? max_auth_attempts cfg then
                Page [HTML_HEADER (chars "/auth/code"); HTML_LOGIN_HEADER_FAILED;
                      HTML_LOGIN_CODE_HIDDEN (form_code (u32 (auth_attempts + 1)) code_req);
                      HTML_LOGIN_FORM redirect_link; HTML_FOOTER]
              else TemporaryRedirect redirect_link)
      end
  end.

Definition handle_user_device_auth (code : option (list Z)) : HttpResponse :=
  Page [HTML_HEADER (chars "/auth"); HTML_LOGIN_HEADER_DEVICE; HTML_LOGIN_CODE (default [] code);
        HTML_LOGIN_FORM (chars "about:blank"); HTML_FOOTER].

Inductive Response : Set := Success | Failed | InvalidCode | Error.

Definition device_page (p : DeviceAuthPost) (r : Response) : HttpResponse :=
  Page ([HTML_HEADER (chars "/auth")] ++
    match r with
    | Success => [HTML_LOGIN_SUCCESS]
    | Failed => [HTML_LOGIN_HEADER_FAILED; HTML_LOGIN_CODE (default [] (dp_code p)); HTML_LOGIN_FORM (chars "about:blank")]
    | InvalidCode => [HTML_ERROR (chars "Invalid or expired authentication code.")]
    | Error => [HTML_ERROR (chars "There was a problem processing your request, please try again later.")]
    end ++ [HTML_FOOTER]).

(** The device form up to the password check: an answer, or the object and the
    credentials the task waits with. *)
Definition device_post_check (k : Clock) (p : DeviceAuthPost) (s : Server) : Response + (nat * list Z * list Z) :=
  match dp_code p ≫= get_code s with
  | Some (c, oauth) =>
      if pending cfg (code_status oauth) && (elapsed_secs k (code_expiry oauth) <? expiry_user_code cfg) then
        match dp_email p, dp_password p with
        | Some email, Some password => inr (c, email, password)
        | _, _ => inl Failed
        end
      else inl InvalidCode
  | None => inl InvalidCode
  end.

(** The rest, when the password was checked: [fetch_add] of the status, or the
    stores of the account and of the status. *)
Definition count_failure (s : Server) (c : nat) : Server :=
  set_status s c (u32 (from_option code_status 0 (cells s !! c) + 1)).
Definition device_post_finish (checked : result (option Z)) (c : nat) (s : Server) : Server * Response :=
  match checked with
  | inr (Some account_id) => (set_status (set_account s c account_id) c STATUS_AUTHORIZED, Success)
  | inr None => (count_failure s c, Failed)
  | inl _ => (s, Error)
  end.

(** The whole handler, when nothing happens while it waits. *)
Definition handle_user_device_auth_post (st : AccountStore) (k : Clock) (p : DeviceAuthPost) (s : Server) :
    Server * HttpResponse :=
  match device_post_check k p s with
  | inl r => (s, device_page p r)
  | inr (c, email, password) =>
      let (s, r) := device_post_finish (authenticate st email password) c s in (s, device_page p r)
  end.

(** ** Runs

    A request in progress: what it will do next. A device form waits for the
    password check, then stores the account and the status, or counts the
    failure; a token request that has loaded the status of an authorized object
    stores the new status, loads the account, and issues the token. *)
Inductive task :=
| TLogin (c : nat) (email password : list Z)
| TAccount (c : nat) (account_id : Z)
| TAuthorize (c : nat)
| TCount (c : nat)
| TMark (c : nat)
| TLoad (c : nat)
| TIssue (c : nat) (account_id : Z).

(** The events of a run: requests up to their first atomic operation on an
    object, the next operation of a task, and the cache dropping a code. *)
Inductive event :=
| DeviceAuth (client_id device_code values : list Z)
| CodePost (st : AccountStore) (client_code : list Z) (p : CodeAuthForm)
| DevicePost (p : DeviceAuthPost)
| Token (st : AccountStore) (random : list Z * list Z) (p : TokenRequest)
| Run (st : AccountStore) (random : list Z * list Z) (i : nat)
| Evict (code : list Z).

Record World := mkWorld { server : Server; tasks : list (option task) }.

(** What happened to an object of [oauth_codes]: it was created, a password
    check for it succeeded, its status was set to authorized, a failure was
    counted, task [i] loaded its status to redeem it, stored it, and issued a
    token. *)
Inductive note :=
| Created (c : nat) (client_id : list Z) (at_ : Z)
| Checked (c : nat) (account_id : Z)
| Authorized (c : nat)
| Denied (c : nat)
| Redeemed (i c : nat) (at_ : Z)
| Marked (i c : nat)
| Issued (i c : nat) (account_id : Z) (client_id : list Z) (r : TokenResponse).

Definition run_task (st : AccountStore) (k : Clock) (random : list Z * list Z) (i : nat) (t : task) (s : Server) :
    Server * option task * list note :=
  match t with
  | TLogin c email password =>
      match authenticate st email password with
      | inr (Some a) => (s, Some (TAccount c a), [Checked c a])
      | inr None => (s, Some (TCount c), [])
      | inl _ => (s, None, [])
      end
  | TAccount c a => (set_account s c a, Some (TAuthorize c), [])
  | TAuthorize c => (set_status s c STATUS_AUTHORIZED, None, [Authorized c])
  | TCount c => (count_failure s c, None, [Denied c])
  | TMark c => (mark_issued s c, Some (TLoad c), [Marked i c])
  | TLoad c => (s, Some (TIssue c (load_account s c)), [])
  | TIssue c a =>
      let r := answer_token st k random a (client_of s c) in
      (s, None, if is_error r then [] else [Issued i c a (client_of s c) r])
  end.

Definition oauth_step (base_url : list Z) (k : Clock) (e : event) (w : World) : World * list note :=
  let s := server w in
  match e with
  | DeviceAuth client_id device_code values =>
      match handle_device_auth base_url k client_id device_code values s with
      | (s', inr _) => (mkWorld s' (tasks w), [Created (length (cells s)) client_id (instant k)])
      | (s', inl _) => (mkWorld s' (tasks w), [])
      end
  | CodePost st client_code p =>
      let s' := (handle_user_code_auth_post st k client_code p s).1 in
      (mkWorld s' (tasks w),
       match cells s' !! length (cells s) with
       | Some o => [Authorized (length (cells s)); Checked (length (cells s)) (code_account_id o);
                    Created (length (cells s)) (code_client_id o) (instant k)]
       | None => []
       end)
  | DevicePost p =>
      match device_post_check k p s with
      | inl _ => (w, [])
      | inr (c, email, password) => (mkWorld s (tasks w ++ [Some (TLogin c email password)]), [])
      end
  | Token st random p =>
      match load_token_request st k random p s with
      | Issue c _ => (mkWorld s (tasks w ++ [Some (TMark c)]), [Redeemed (length (tasks w)) c (instant k)])
      | Answer _ => (w, [])
      end
  | Run st random i =>
      match tasks w !! i with
      | Some (Some t) => let '(s, t, new) := run_task st k random i t s in (mkWorld s (<[i := t]> (tasks w)), new)
      | _ => (w, [])
      end
  | Evict code => (mkWorld (mkServer (delete code (oauth_codes s)) (cells s)) (tasks w), [])
  end.

(** The notes of a run, the newest first. *)
Fixpoint oauth_run (base_url : list Z) (es : list (Clock * event)) (w : World) (log : list note) : World * list note :=
  match es with
  | [] => (w, log)
  | (k, e) :: es => let (w, new) := oauth_step base_url k e w in oauth_run base_url es w (new ++ log)
  end.
End Handlers.

(** The status of an object was last set by a login. *)
Fixpoint authorized (c : nat) (log : list note) : bool :=
  match log with
  | [] => false
  | Authorized c' :: log => if decide (c = c') then true else authorized c log
  | (Denied c' | Marked _ c') :: log => if decide (c = c') then false else authorized c log
  | _ :: log => authorized c log
  end.

(** ** Tokens follow logins *)

Section Runs.
Context `{Crypto}.
Variable cfg : OAuth.
Variable base_url : list Z.

Definition no_token (i : nat) (log : list note) : Prop := forall c a client_id r, Issued i c a client_id r ∉ log.

(** Task [i] loaded the status of an authorized object of the client that was
    not too old, and has stored the new status if [marked]. *)
Definition redeemed (i c : nat) (client_id : list Z) (marked : bool) (log : list note) : Prop :=
  exists mid older k t0,
    log = mid ++ Redeemed i c (instant k) :: older /\ (marked = true -> Marked i c ∈ mid) /\
    authorized c older = true /\ Created c client_id t0 ∈ older /\
    elapsed_secs k t0 < Z.max (expiry_user_code cfg) (expiry_auth_code cfg).

(** What justifies a token: its request loaded the status when the last thing
    that set it was a login, and set it before the token was issued, the only
    one of the request; and a password check for the object gave the account. *)
Definition justified (i c : nat) (a : Z) (client_id : list Z) (r : TokenResponse) (log : list note) : Prop :=
  redeemed i c client_id true log /\ no_token i log /\ Checked c a ∈ log /\
  exists st k random, issue_token cfg st k random a client_id true = inr r.

Definition log_justified (log : list note) : Prop :=
  forall newer i c a client_id r older, log = newer ++ Issued i c a client_id r :: older -> justified i c a client_id r older.

Definition cell_ok (n : Z) (log : list note) (c : nat) (o : OAuthCode) : Prop :=
  0 <= code_status o <= STATUS_PENDING + n /\
  Created c (code_client_id o) (code_expiry o) ∈ log /\
  (code_status o = STATUS_AUTHORIZED -> authorized c log = true /\ Checked c (code_account_id o) ∈ log).

(** The account of an object comes from a password check. *)
Definition has_account (s : Server) (log : list note) (c : nat) : Prop :=
  forall o, cells s !! c = Some o -> Checked c (code_account_id o) ∈ log.
Definition task_cell (t : task) : nat :=
  match t with TLogin c _ _ | TAccount c _ | TAuthorize c | TCount c | TMark c | TLoad c | TIssue c _ => c end.
Definition task_ok (s : Server) (log : list note) (i : nat) (t : task) : Prop :=
  (task_cell t < length (cells s))%nat /\ no_token i log /\
  match t with
  | TLogin _ _ _ | TCount _ => True
  | TAccount c a => Checked c a ∈ log
  | TAuthorize c => has_account s log c
  | TMark c => has_account s log c /\ redeemed i c (client_of s c) false log
  | TLoad c => has_account s log c /\ redeemed i c (client_of s c) true log
  | TIssue c a => Checked c a ∈ log /\ redeemed i c (client_of s c) true log
  end.

Definition note_task (x : note) : option nat :=
  match x with Redeemed i _ _ | Marked i _ | Issued i _ _ _ _ => Some i | _ => None end.

Record run_inv (n : Z) (w : World) (log : list note) : Prop := {
  inv_tasks i t : tasks w !! i = Some (Some t) -> task_ok (server w) log i t;
  inv_fresh x i : x ∈ log -> note_task x = Some i -> (i < length (tasks w))%nat;
  inv_cells c o : cells (server w) !! c = Some o -> cell_ok n log c o;
  inv_log : log_justified log }.

Lemma get_code_cell s code c o : get_code s code = Some (c, o) -> cells s !! c = Some o.
Proof.
  unfold get_code. destruct (oauth_codes s !! code) as [c'|]; [|done]. cbn.
  destruct (cells s !! c') as [o'|] eqn:E; [|done]. cbn. by intros [= <- <-].
Qed.

Lemma log_justified_cons x log :
  match x with Issued i c a cl r => justified i c a cl r log | _ => True end -> log_justified log -> log_justified (x :: log).
Proof.
  intros Hx Hl [|y newer] i c a cl r older E; cbn in E.
  - injection E as -> ->. exact Hx.
  - injection E as -> E. by eapply Hl.
Qed.

Lemma cell_ok_mono n n' log c o : n <= n' -> cell_ok n log c o -> cell_ok n' log c o.
Proof. intros Hn (? & ? & ?). split; [lia|done]. Qed.

(** Notes that say nothing of the status of an object. *)
Definition quiet (c : nat) (x : note) : Prop := match x with Authorized c' | Denied c' | Marked _ c' => c' <> c | _ => True end.
Lemma authorized_quiet c new log : Forall (quiet c) new -> authorized c (new ++ log) = authorized c log.
Proof.
  induction 1 as [|x new Hx _ IH]; [done|]. cbn [app authorized]. rewrite IH.
  destruct x; cbn in Hx; try done; by rewrite decide_False by congruence.
Qed.
Lemma cell_ok_quiet n new log c o : Forall (quiet c) new -> cell_ok n log c o -> cell_ok n (new ++ log) c o.
Proof.
  intros Hn (? & Hc & Hl). split; [done|]. split; [by apply elem_of_app; right|]. intros [Ha Hk]%Hl. rewrite authorized_quiet by done.
  split; [done|by apply elem_of_app; right].
Qed.

Lemma redeemed_more i c cl m new log : redeemed i c cl m log -> redeemed i c cl m (new ++ log).
Proof.
  intros (mid & older & k & t0 & -> & Hm & Hr). exists (new ++ mid), older, k, t0. rewrite app_assoc. split; [done|]. split; [|done].
  intros ?%Hm. apply elem_of_app. by right.
Qed.
Lemma no_token_app i new log : no_token i new -> no_token i log -> no_token i (new ++ log).
Proof. intros H1 H2' c a cl r [?|?]%elem_of_app; [by eapply H1|by eapply H2']. Qed.

(** The objects of a server become those of a later one. *)
Definition evolves (s s' : Server) (log : list note) : Prop :=
  (length (cells s) <= length (cells s'))%nat /\
  forall c o', (c < length (cells s))%nat -> cells s' !! c = Some o' ->
    exists o, cells s !! c = Some o /\ code_client_id o' = code_client_id o /\
      (code_account_id o' = code_account_id o \/ Checked c (code_account_id o') ∈ log).
Lemma evolves_same s s' log : cells s' = cells s -> evolves s s' log.
Proof. intros E. split; [by rewrite E|]. intros c o' _. rewrite E. intros Hc. exists o'. auto. Qed.
Lemma evolves_alter codes s c f log :
  (forall o, cells s !! c = Some o -> code_client_id (f o) = code_client_id o /\
    (code_account_id (f o) = code_account_id o \/ Checked c (code_account_id (f o)) ∈ log)) ->
  evolves s (mkServer codes (alter f c (cells s))) log.
Proof.
  intros Hf. split; cbn; [by rewrite length_alter|]. intros c' o' _ Hc. destruct (decide (c' = c)) as [->|Hne].
  - rewrite list_lookup_alter_eq in Hc. destruct (cells s !! c) as [o|]; [|done]. injection Hc as <-. exists o. by destruct (Hf o eq_refl).
  - rewrite list_lookup_alter_ne in Hc by done. exists o'. auto.
Qed.
Lemma client_of_evolves s s' log c : evolves s s' log -> (c < length (cells s))%nat -> client_of s' c = client_of s c.
Proof.
  intros [Hle Hev] Hc. unfold client_of. destruct (lookup_lt_is_Some_2 (cells s') c) as [o' Ho']; [lia|].
  destruct (Hev c o' Hc Ho') as (o & Ho & E & _). by rewrite Ho', Ho.
Qed.
Lemma task_ok_evolves s s' new log i t :
  evolves s s' (new ++ log) -> no_token i new -> task_ok s log i t -> task_ok s' (new ++ log) i t.
Proof.
  intros Hev Hn (Hc & Hno & Ht). pose proof (client_of_evolves _ _ _ _ Hev Hc) as Hcl. pose proof Hev as [Hle Hcells].
  split; [lia|]. split; [by apply no_token_app|].
  assert (forall x, x ∈ log -> x ∈ new ++ log) as Hin by (intros x ?; apply elem_of_app; by right).
  assert (has_account s log (task_cell t) -> has_account s' (new ++ log) (task_cell t)) as Hacc.
  { intros Ha o' Ho'. destruct (Hcells _ _ Hc Ho') as (o & Ho & _ & [->|?]); [|done]. by apply Hin, Ha. }
  destruct t; cbn in *; rewrite ?Hcl; naive_solver eauto using redeemed_more.
Qed.

(** Any step: the objects evolve and are fine, tasks are old or fine. *)
Lemma advance n w log s' tasks' new :
  run_inv n w log -> evolves (server w) s' (new ++ log) ->
  (forall c o, cells s' !! c = Some o -> cell_ok (n + 1) (new ++ log) c o) ->
  (length (tasks w) <= length tasks')%nat ->
  (forall i t, tasks' !! i = Some (Some t) -> (tasks w !! i = Some (Some t) /\ no_token i new) \/ task_ok s' (new ++ log) i t) ->
  (forall x i, x ∈ new -> note_task x = Some i -> (i < length tasks')%nat) -> log_justified (new ++ log) ->
  run_inv (n + 1) (mkWorld s' tasks') (new ++ log).
Proof.
  intros Hw Hev Hc Hle Ht Hf Hl. split; cbn; [|..|done].
  - intros i t Hi. destruct (Ht i t Hi) as [[Hold Hno]|?]; [|done]. eapply task_ok_evolves; [done..|]. by apply (inv_tasks _ _ _ Hw).
  - intros x i [Hx|Hx]%elem_of_app Hi; [by eapply Hf|]. pose proof (inv_fresh _ _ _ Hw x i Hx Hi). lia.
  - done.
Qed.

Lemma no_token_quiet i new : Forall (fun x => match x with Issued _ _ _ _ _ => False | _ => True end) new -> no_token i new.
Proof. intros Hn c a cl r Hin. rewrite Forall_forall in Hn. apply (Hn _ Hin). Qed.

Lemma mono_inv n w log : run_inv n w log -> run_inv (n + 1) w log.
Proof.
  intros Hw. split; [apply Hw|apply Hw| |apply Hw]. intros c o Hc. eapply cell_ok_mono; [|by eapply inv_cells]. lia.
Qed.

Lemma add_code_inv n w log codes o new :
  run_inv n w log -> Forall (fun x => note_task x = None /\ forall c, (c < length (cells (server w)))%nat -> quiet c x) new ->
  cell_ok (n + 1) (new ++ log) (length (cells (server w))) o ->
  run_inv (n + 1) (mkWorld (add_code (server w) codes o) (tasks w)) (new ++ log).
Proof.
  intros Hw Hn Ho. rewrite Forall_forall in Hn.
  assert (forall i, no_token i new) as Hno by (intros i c a cl r Hin; by destruct (Hn _ Hin)).
  apply (advance n w); [done|..|done| | |].
  - split; cbn; [rewrite length_app; lia|]. intros c o' Hc Hl. rewrite lookup_app_l in Hl by done. exists o'. auto.
  - cbn. intros c o' [Hc|[Hge E]]%lookup_app_Some.
    + apply cell_ok_quiet; [|eapply cell_ok_mono; [|by eapply inv_cells]; lia]. apply Forall_forall. intros x Hx.
      apply (Hn _ Hx). by apply lookup_lt_Some in Hc.
    + apply list_lookup_singleton_Some in E as [E <-]. by replace c with (length (cells (server w))) by lia.
  - intros i t Hi. left. auto.
  - intros x i Hx Hi. destruct (Hn _ Hx). congruence.
  - clear -Hn Hw. induction new as [|x new IH]; [apply Hw|]. cbn. apply log_justified_cons.
    + destruct (Hn x (list_elem_of_here _ _)). by destruct x.
    + apply IH. intros y Hy. by apply Hn; right.
Qed.

(** Only an authorized object of the client that asks, not too old, is redeemed. *)
Lemma load_issue st k random p s c o :
  load_token_request cfg st k random p s = Issue c o ->
  cells s !! c = Some o /\ code_status o = STATUS_AUTHORIZED /\ tr_client_id p = Some (code_client_id o) /\
  elapsed_secs k (code_expiry o) < Z.max (expiry_user_code cfg) (expiry_auth_code cfg).
Proof.
  unfold load_token_request, load_auth_code, load_device_code. intros E.
  repeat case_match; simplify_eq;
    repeat match goal with
    | H : _ || _ = false |- _ => apply orb_false_iff in H as [? ?]
    | H : _ && _ = true |- _ => apply andb_true_iff in H as [? ?]
    | H : negb _ = false |- _ => apply negb_false_iff, bool_decide_eq_true in H
    | H : (_ =? _) = true |- _ => apply Z.eqb_eq in H
    | H : (_ <? _) = true |- _ => apply Z.ltb_lt in H
    | H : _ ≫= get_code _ = Some _ |- _ => apply bind_Some in H as (? & ? & ?)
    | H : get_code _ _ = Some _ |- _ => apply get_code_cell in H
    end; subst; repeat split; try done; lia.
Qed.

Lemma new_task_inv n w log t new :
  run_inv n w log -> Forall (fun x => exists c t, x = Redeemed (length (tasks w)) c t) new ->
  task_ok (server w) (new ++ log) (length (tasks w)) t ->
  run_inv (n + 1) (mkWorld (server w) (tasks w ++ [Some t])) (new ++ log).
Proof.
  intros Hw Hn Ht. rewrite Forall_forall in Hn. assert (forall i, no_token i new) as Hno by (intros i c a cl r (? & ? & [=])%Hn).
  apply (advance n w); [done|by apply evolves_same|..].
  - intros c o Hc. apply cell_ok_quiet; [|eapply cell_ok_mono; [|by eapply inv_cells]; lia]. apply Forall_forall. by intros x (? & ? & ->)%Hn.
  - rewrite length_app. lia.
  - intros i t' [Hi|[Hge E]]%lookup_app_Some; [left; auto|]. apply list_lookup_singleton_Some in E as [E [= <-]]. right.
    by replace i with (length (tasks w)) by lia.
  - intros x i (? & ? & ->)%Hn [= <-]. rewrite length_app. cbn. lia.
  - clear -Hn Hw. induction new as [|x new IH]; [apply Hw|]. cbn. apply log_justified_cons.
    + by destruct (Hn x (list_elem_of_here _ _)) as (? & ? & ->).
    + apply IH. intros y Hy. by apply Hn; right.
Qed.

Lemma fresh_no_token n w log i : run_inv n w log -> (length (tasks w) <= i)%nat -> no_token i log.
Proof. intros Hw Hi c a cl r Hin. pose proof (inv_fresh _ _ _ Hw _ i Hin eq_refl). lia. Qed.

(** Tasks that leave the objects alone. *)
Lemma same_cells_inv n w log i t' new :
  run_inv n w log -> is_Some (tasks w !! i) ->
  Forall (fun x => (forall c, quiet c x) /\ match note_task x with Some j => j = i | None => True end) new ->
  match t' with Some t' => task_ok (server w) (new ++ log) i t' | None => True end -> log_justified (new ++ log) ->
  run_inv (n + 1) (mkWorld (server w) (<[i := t']> (tasks w))) (new ++ log).
Proof.
  intros Hw [t0 Hi] Hn Ht Hl. rewrite Forall_forall in Hn. pose proof (lookup_lt_Some _ _ _ Hi) as Hlt.
  apply (advance n w); [done|by apply evolves_same|..|done].
  - intros c o Hc. apply cell_ok_quiet; [|eapply cell_ok_mono; [|by eapply inv_cells]; lia]. apply Forall_forall. intros x [? _]%Hn. auto.
  - by rewrite length_insert.
  - intros j u Hj. destruct (decide (i = j)) as [<-|Hne].
    + rewrite list_lookup_insert_eq in Hj by done. injection Hj as ->. by right.
    + rewrite list_lookup_insert_ne in Hj by done. left. split; [done|]. intros c a cl r [_ Hj']%Hn. cbn in Hj'. congruence.
  - intros x j [_ Hj]%Hn Ej. rewrite Ej in Hj. subst j. by rewrite length_insert.
Qed.

(** A task that changes an object. *)
Lemma alter_inv n w log i t' c f new :
  run_inv n w log -> is_Some (tasks w !! i) ->
  Forall (fun x => (forall c', c' <> c -> quiet c' x) /\ match x with Issued _ _ _ _ _ => False | _ => True end /\
    match note_task x with Some j => j = i | None => True end) new ->
  (forall o, cells (server w) !! c = Some o -> cell_ok (n + 1) (new ++ log) c (f o) /\ code_client_id (f o) = code_client_id o /\
    (code_account_id (f o) = code_account_id o \/ Checked c (code_account_id (f o)) ∈ new ++ log)) ->
  (evolves (server w) (mkServer (oauth_codes (server w)) (alter f c (cells (server w)))) (new ++ log) ->
   match t' with Some t' => task_ok (mkServer (oauth_codes (server w)) (alter f c (cells (server w)))) (new ++ log) i t' | None => True end) ->
  run_inv (n + 1) (mkWorld (mkServer (oauth_codes (server w)) (alter f c (cells (server w)))) (<[i := t']> (tasks w))) (new ++ log).
Proof.
  intros Hw [t0 Hi] Hn Hf Ht. rewrite Forall_forall in Hn. pose proof (lookup_lt_Some _ _ _ Hi) as Hlt.
  assert (evolves (server w) (mkServer (oauth_codes (server w)) (alter f c (cells (server w)))) (new ++ log)) as Hev
    by (apply evolves_alter; intros o Ho; apply (Hf o Ho)).
  specialize (Ht Hev). apply (advance n w); [done|done|..].
  - cbn. intros c' o Hc. destruct (decide (c' = c)) as [->|Hne].
    + rewrite list_lookup_alter_eq in Hc. destruct (cells (server w) !! c) as [o'|] eqn:E; [|done]. injection Hc as <-. by apply Hf.
    + rewrite list_lookup_alter_ne in Hc by done. apply cell_ok_quiet; [|eapply cell_ok_mono; [|by eapply inv_cells]; lia].
      apply Forall_forall. intros x (? & _)%Hn. auto.
  - by rewrite length_insert.
  - intros j u Hj. destruct (decide (i = j)) as [<-|Hne].
    + rewrite list_lookup_insert_eq in Hj by done. injection Hj as ->. by right.
    + rewrite list_lookup_insert_ne in Hj by done. left. split; [done|]. by intros c' a cl r (_ & [] & _)%Hn.
  - intros x j (_ & _ & Hj)%Hn Ej. rewrite Ej in Hj. subst j. by rewrite length_insert.
  - clear -Hn Hw. induction new as [|x new IH]; [apply Hw|]. cbn. apply log_justified_cons.
    + destruct (Hn x (list_elem_of_here _ _)) as (_ & ? & _). by destruct x.
    + apply IH. intros y Hy. by apply Hn; right.
Qed.

Lemma run_inv_step n k st random i t w log :
  run_inv n w log -> 0 <= n < 2 ^ 32 - 3 -> tasks w !! i = Some (Some t) ->
  let '(s', t', new) := run_task cfg st k random i t (server w) in run_inv (n + 1) (mkWorld s' (<[i := t']> (tasks w))) (new ++ log).
Proof.
  intros Hw Hn Hi. pose proof (inv_tasks _ _ _ Hw i t Hi) as (Hc & Hno & Ht). assert (is_Some (tasks w !! i)) as His by by eexists.
  assert (forall c o (x : note), cells (server w) !! c = Some o -> Created c (code_client_id o) (code_expiry o) ∈ x :: log) as Hcr
    by (intros c o x Ho; apply list_elem_of_further; by apply (inv_cells _ _ _ Hw)).
  destruct t as [c email password|c a|c|c|c|c|c a]; cbn [run_task task_cell] in *.
  - destruct (authenticate st email password) as [e|[a|]]; (eapply same_cells_inv; [done|done| | |]); try (by repeat constructor); try apply Hw; try done.
    + split; [done|]. split; [|apply list_elem_of_here]. apply (no_token_app i [Checked c a]); [by apply no_token_quiet; repeat constructor|done].
    + by apply log_justified_cons, Hw.
  - apply (alter_inv n w log i (Some (TAuthorize c)) c _ []); [done|done|constructor| |].
    + intros o Ho. destruct (inv_cells _ _ _ Hw _ _ Ho) as (Hs & Hcr' & Ha). split; [|by auto]. split; [cbn; lia|]. split; [done|].
      cbn. intros [? _]%Ha. done.
    + intros _. split; [cbn; by rewrite length_alter|]. split; [done|]. intros o'. cbn. rewrite list_lookup_alter_eq.
      destruct (cells (server w) !! c); [|done]. by intros [= <-].
  - apply (alter_inv n w log i None c _ [Authorized c]); [done|done| | |done].
    + repeat constructor. cbn. congruence.
    + intros o Ho. cbn. split; [|by auto]. split; [cbn; unfold STATUS_AUTHORIZED, STATUS_PENDING; lia|]. split; [exact (Hcr c o _ Ho)|].
      intros _. cbn. rewrite decide_True by done. split; [done|]. by apply list_elem_of_further, Ht.
  - unfold count_failure. apply (alter_inv n w log i None c _ [Denied c]); [done|done| | |done].
    + repeat constructor. cbn. congruence.
    + intros o Ho. rewrite Ho. destruct (inv_cells _ _ _ Hw _ _ Ho) as (Hs & _). unfold STATUS_PENDING in Hs.
      assert (u32 (code_status o + 1) = code_status o + 1) as E by (apply wrap_small; unfold fits; lia).
      cbn. rewrite E. split; [|by auto]. split; [cbn; unfold STATUS_PENDING; lia|]. split; [exact (Hcr c o _ Ho)|]. cbn. unfold STATUS_AUTHORIZED. lia.
  - apply (alter_inv n w log i (Some (TLoad c)) c _ [Marked i c]); [done|done| | |].
    + repeat constructor. cbn. congruence.
    + intros o Ho. cbn. split; [|by auto]. split; [cbn; unfold STATUS_TOKEN_ISSUED, STATUS_PENDING; lia|]. split; [exact (Hcr c o _ Ho)|done].
    + intros Hev. assert (task_ok (server w) log i (TMark c)) as Hold by done.
      assert (no_token i [Marked i c]) as Hm by by apply no_token_quiet; repeat constructor.
      pose proof (task_ok_evolves _ _ [Marked i c] log i _ Hev Hm Hold) as Hnew. clear Hold Hm.
      destruct Hnew as (? & ? & ? & (mid & older & k0 & t0 & E & _ & Hr)). split; [done|]. split; [done|]. split; [done|].
      destruct mid as [|x mid]; [done|]. injection E as <- E. exists (Marked i c :: mid), older, k0, t0. cbn. rewrite E. split; [done|]. split; [|done].
      intros _. apply list_elem_of_here.
  - apply (same_cells_inv n w log i _ []); [done|done|constructor| |apply Hw]. destruct Ht as [Ha Hr]. split; [done|]. split; [done|].
    split; [|done]. unfold load_account. destruct (lookup_lt_is_Some_2 (cells (server w)) c Hc) as [o Ho]. rewrite Ho. by apply Ha.
  - unfold answer_token. destruct Ht as [Ha Hr].
    destruct (issue_token cfg st k random a (client_of (server w) c) true) as [e|r] eqn:Ei; cbn [is_error].
    { apply (same_cells_inv n w log i None []); [done|done|constructor|done|apply Hw]. }
    destruct (is_error r); [apply (same_cells_inv n w log i None []); [done|done|constructor|done|apply Hw]|].
    apply (same_cells_inv n w log i None [_]); [done|done|by repeat constructor|done|]. apply log_justified_cons; [|apply Hw].
    split; [done|]. split; [done|]. split; [done|]. by exists st, k, random.
Qed.

Lemma step_inv n k e w log :
  run_inv n w log -> 0 <= n < 2 ^ 32 - 3 ->
  let r := oauth_step cfg base_url k e w in run_inv (n + 1) r.1 (r.2 ++ log).
Proof.
  intros Hw Hn. destruct e as [client_id code values|st code p|p|st random p|st random i|code]; cbn [oauth_step].
  - unfold handle_device_auth. destruct (_ <? _); cbn -[add_code]; [destruct w; by apply mono_inv|].
    apply (add_code_inv n w log _ _ [_]); [done|by repeat constructor|].
    split; [cbn; unfold STATUS_PENDING; lia|]. split; [apply list_elem_of_here|done].
  - unfold handle_user_code_auth_post.
    assert (cells (server w) !! length (cells (server w)) = None) as Hno by (by apply lookup_ge_None).
    destruct (decode_base64 _ ≫= _) as [[attempts req]|]; cbn -[add_code]; [|rewrite Hno; destruct w; by apply mono_inv].
    case_match; cbn -[add_code]; [|rewrite Hno; destruct w; by apply mono_inv].
    unfold add_code at 2. cbn -[add_code]. rewrite list_lookup_middle by done.
    apply (add_code_inv n w log _ _ [_; _; _]); [done| |].
    + repeat constructor. cbn. lia.
    + split; [cbn; unfold STATUS_AUTHORIZED, STATUS_PENDING; lia|]. cbn. rewrite decide_True by done.
      split; [do 2 apply list_elem_of_further; apply list_elem_of_here|]. intros _. split; [done|]. apply list_elem_of_further, list_elem_of_here.
  - unfold device_post_check. destruct (dp_code p ≫= get_code (server w)) as [[c o]|] eqn:E; [|by apply mono_inv].
    destruct (_ && _); [|by apply mono_inv]. destruct (dp_email p), (dp_password p); try by apply mono_inv. cbn.
    apply bind_Some in E as (code & _ & Hc%get_code_cell%lookup_lt_Some).
    apply (new_task_inv n w log _ []); [done|constructor|]. split; [done|]. split; [by eapply fresh_no_token|done].
  - destruct (load_token_request cfg st k random p (server w)) as [r|c o] eqn:E; cbn; [by apply mono_inv|].
    apply load_issue in E as (Hc & Hs & _ & He). destruct (inv_cells _ _ _ Hw _ _ Hc) as (_ & Hcr & Ha). destruct (Ha Hs) as [Hau Hck].
    apply (new_task_inv n w log _ [_]); [done|by repeat econstructor|]. split; [by apply lookup_lt_Some in Hc|]. split.
    { apply (no_token_app _ [_]); [by apply no_token_quiet; repeat constructor|by eapply fresh_no_token]. }
    split; [intros o'; rewrite Hc; intros [= <-]; by apply list_elem_of_further|].
    exists [], log, k, (code_expiry o). unfold client_of. by rewrite Hc.
  - destruct (tasks w !! i) as [[t|]|] eqn:Et; [|by apply mono_inv..].
    pose proof (run_inv_step n k st random i t w log Hw Hn Et) as Hr. by destruct (run_task cfg st k random i t (server w)) as [[s' t'] new].
  - cbn. apply (advance n w log _ _ []); [done|by apply evolves_same| |done| |by intros ? ? ?%elem_of_nil|apply Hw].
    + cbn. intros c o Hc. eapply cell_ok_mono; [|by eapply inv_cells]. lia.
    + intros i t Hi. left. split; [done|]. by intros c a cl r ?%elem_of_nil.
Qed.

Lemma oauth_run_inv n es w log :
  run_inv n w log -> 0 <= n -> n + Z.of_nat (length es) < 2 ^ 32 - 2 ->
  let r := oauth_run cfg base_url es w log in run_inv (n + Z.of_nat (length es)) r.1 r.2.
Proof.
  revert n w log. induction es as [|[k e] es IH]; intros n w log Hw Hn He; cbn [oauth_run length] in *.
  - cbn. by replace (n + Z.of_nat 0) with n by lia.
  - pose proof (step_inv n k e w log Hw ltac:(lia)) as Hs. destruct (oauth_step cfg base_url k e w) as [w' new].
    replace (n + Z.of_nat (S (length es))) with (n + 1 + Z.of_nat (length es)) by lia. apply IH; [done|lia..].
Qed.

Lemma world0_inv : run_inv 0 (mkWorld server0 []) [].
Proof. split; cbn; [done|by intros x i ?%elem_of_nil|done|]. by intros [] ? ? ? ? ? ? ?. Qed.

(** A token request whose steps nothing interrupts is [handle_token_request],
    and a device form is [handle_user_device_auth_post]. *)
Lemma token_uninterrupted st k random p w :
  let i := length (tasks w) in
  let es := [(k, Token st random p); (k, Run st random i); (k, Run st random i); (k, Run st random i)] in
  server (oauth_run cfg base_url es w []).1 = (handle_token_request cfg st k random p (server w)).1 /\
  forall j c a cl r, Issued j c a cl r ∈ (oauth_run cfg base_url es w []).2 -> r = (handle_token_request cfg st k random p (server w)).2.
Proof.
  cbn zeta. unfold handle_token_request. set (i := length (tasks w)). cbn [oauth_run oauth_step].
  destruct (load_token_request cfg st k random p (server w)) as [r|c o] eqn:E.
  { assert (tasks w !! i = None) as Hi by by apply lookup_ge_None. rewrite !Hi. split; [done|]. by intros ? ? ? ? ? ?%elem_of_nil. }
  cbn [tasks server app]. rewrite lookup_app_r, Nat.sub_diag by done. cbn [lookup list_lookup run_task tasks server].
  assert (forall t, (<[i := t]> (tasks w ++ [Some (TMark c)])) !! i = Some t) as Hs
    by (intros t; apply list_lookup_insert_eq; rewrite length_app; cbn; lia).
  rewrite Hs. cbn [run_task tasks server]. rewrite list_insert_insert_eq, Hs. cbn [run_task tasks server app]. split; [done|].
  intros j c' a cl r. destruct (is_error _); cbn [snd app]; rewrite ?elem_of_cons, elem_of_nil.
  - by intros [[=]|[[=]|[]]].
  - by intros [[=]|[[=]|[[=]|[]]]].
Qed.
Lemma device_post_uninterrupted st k random p w :
  let i := length (tasks w) in
  let es := [(k, DevicePost p); (k, Run st random i); (k, Run st random i); (k, Run st random i)] in
  server (oauth_run cfg base_url es w []).1 = (handle_user_device_auth_post cfg st k p (server w)).1.
Proof.
  cbn zeta. unfold handle_user_device_auth_post. set (i := length (tasks w)). cbn [oauth_run oauth_step].
  destruct (device_post_check cfg k p (server w)) as [r|[[c email] password]] eqn:E.
  { assert (tasks w !! i = None) as Hi by by apply lookup_ge_None. by rewrite !Hi. }
  cbn [tasks server app]. rewrite lookup_app_r, Nat.sub_diag by done. cbn [lookup list_lookup run_task tasks server].
  assert (forall t, (<[i := t]> (tasks w ++ [Some (TLogin c email password)])) !! i = Some t) as Hs
    by (intros t; apply list_lookup_insert_eq; rewrite length_app; cbn; lia).
  destruct (authenticate st email password) as [e|[a|]]; cbn [run_task tasks server]; rewrite !Hs; cbn [run_task tasks server];
    rewrite ?list_insert_insert_eq, ?Hs; done.
Qed.
End Runs.


(** ** Tokens carry their account and client *)

Section Tokens.
Context `{CryptoLaws}.
Variable cfg : OAuth.

Definition ascii (s : list Z) : Prop := Forall (fun b => 0 <= b < 128) s.

Lemma latin1_ascii s : ascii s -> latin1 s = s.
Proof.
  intros Hs. unfold latin1, str_bytes. induction Hs as [|b s Hb Hs IH]; [done|]. cbn. rewrite IH.
  unfold encode_utf8. by rewrite (proj2 (Z.ltb_lt b 0x80)) by lia.
Qed.

Lemma ascii_bytes s : ascii s -> bytes_ok s.
Proof. intros Hs. eapply Forall_impl; [exact Hs|]. unfold fits. intros b ?. cbn in *. lia. Qed.

Lemma token_parts_app header account_id expiry client_id :
  length header = token_header_len -> fits 32 account_id -> fits 64 expiry ->
  token_parts (header ++ leb128 account_id ++ leb128 expiry ++ client_id) = Some (account_id, expiry, latin1 client_id).
Proof.
  intros Hh Ha He. unfold token_parts. rewrite length_app, Hh. rewrite (proj2 (Nat.ltb_ge _ _)) by lia.
  rewrite <- Hh, drop_app_length. rewrite next_leb128_app by (by apply decodable_fits). cbn [mbind option_bind].
  rewrite next_leb128_app by (by apply decodable_fits). done.
Qed.

(** The token of a client in ASCII is accepted until it expires, and names its
    account and client; any token is refused from then on. *)
Lemma token_accepted st k k' grant_type account_id password_hash client_id expiry_in random token :
  encode_access_token cfg k grant_type account_id password_hash client_id expiry_in random = inr token ->
  get_account_secret_hash st account_id = inr (Some password_hash) ->
  length random = RANDOM_CODE_LEN -> bytes_ok random -> ascii client_id -> fits 32 account_id ->
  0 <= expiry_in -> since_2000 k + expiry_in < 2 ^ 64 ->
  validate_access_token cfg st k' grant_type token =
    if since_2000 k + expiry_in <=? since_2000 k' then inl StoreError.DeserializeError
    else inr (account_id, client_id, since_2000 k + expiry_in - since_2000 k').
Proof.
  intros E Hst Hlen Hrand Hcl Hacc Hin Hov. unfold encode_access_token in E. destruct (_ <? _); [done|].
  assert (fits 64 (since_2000 k + expiry_in)) as Hfit by (unfold fits, since_2000 in *; lia).
  rewrite wrap_small in E by done. set (expiry := since_2000 k + expiry_in) in *.
  destruct (aes_encrypt _ _ random) as [header|] eqn:Haes; [|done]. injection E as <-.
  unfold push_leb128, to_leb128_bytes. rewrite <- !app_assoc.
  pose proof (aes_length _ _ _ _ Haes) as Hh. rewrite Hlen in Hh. change (_ + _)%nat with token_header_len in Hh.
  unfold validate_access_token. rewrite base64_inverse.
  2: { repeat apply Forall_app_2; [by eapply aes_bytes|apply leb128_ok; eapply fits_mono; [|exact Hacc]; lia|by apply leb128_ok|by apply ascii_bytes]. }
  rewrite token_parts_app, latin1_ascii by done. destruct (_ <=? _); [done|]. rewrite Hst.
  rewrite <- Hh at 1. rewrite take_app_length. by rewrite (proj2 (aes_exact _ _ random header) Haes).
Qed.

Lemma token_issued st k random account_id client_id :
  (Z.of_nat (length client_id) <= CLIENT_ID_MAX_LEN) -> (exists h, get_account_secret_hash st account_id = inr (Some h)) ->
  length random.1 = RANDOM_CODE_LEN -> length random.2 = RANDOM_CODE_LEN ->
  exists at_ rt, issue_token cfg st k random account_id client_id true =
    inr (Granted at_ (chars "bearer") (expiry_token cfg) (Some rt) None).
Proof.
  intros Hcl [h Hh] H1 H2'. unfold issue_token, encode_access_token. rewrite Hh.
  rewrite (proj2 (Z.ltb_ge _ _)) by lia.
  set (k1 := derive_key _ _). set (n1 := token_nonce _ _ _). destruct (aes_total k1 n1 random.1) as [c1 ->]; [rewrite H1; unfold RANDOM_CODE_LEN; lia|].
  set (k2 := derive_key _ _). set (n2 := token_nonce _ _ _). destruct (aes_total k2 n2 random.2) as [c2 ->]; [rewrite H2'; unfold RANDOM_CODE_LEN; lia|].
  eauto.
Qed.

(** What decrypts was made for its context. *)
Lemma token_made st k grant_type token account_id client_id left_ :
  validate_access_token cfg st k grant_type token = inr (account_id, client_id, left_) ->
  exists bytes expiry password_hash random,
    decode_base64 token = Some bytes /\ token_parts bytes = Some (account_id, expiry, client_id) /\
    get_account_secret_hash st account_id = inr (Some password_hash) /\
    aes_encrypt (derive_key (token_context grant_type client_id account_id password_hash) (oauth_key cfg))
      (token_nonce grant_type password_hash expiry) random = Some (take token_header_len bytes) /\
    0 < left_ /\ left_ = expiry - since_2000 k.
Proof.
  unfold validate_access_token. intros E. destruct (decode_base64 token) as [bytes|]; [|done].
  destruct (token_parts bytes) as [[[a e] cl]|] eqn:Hp; [|done]. destruct (Z.leb_spec e (since_2000 k)); [done|].
  destruct (get_account_secret_hash st a) as [|[h|]] eqn:Hh; [done| |done].
  destruct (aes_decrypt _ _ _) as [random|] eqn:Hd; [|done]. injection E as <- <- <-.
  exists bytes, e, h, random. apply aes_exact in Hd. repeat split; try done; lia.
Qed.
End Tokens.

Lemma separated_last_inj (ch : Z) a b a' b' : ch ∉ b -> ch ∉ b' -> a ++ ch :: b = a' ++ ch :: b' -> a = a' /\ b = b'.
Proof.
  intros Hb Hb' E. apply (f_equal reverse) in E. rewrite !reverse_app, !reverse_cons, <- !app_assoc in E.
  apply separated_inj in E as [E1%(inj reverse) E2%(inj reverse)]; [done|by rewrite elem_of_reverse..].
Qed.

Lemma digits_no_space n : 32 ∉ decimal n.
Proof. intros Hn. eapply Forall_forall in Hn; [|apply decimal_digits]. unfold is_digit in Hn. lia. Qed.

(** Tokens are bound to what they were issued for: the text that the key
    of a token is derived from determines the kind of token, the client (which
    may contain spaces), the account and the secret, so that the key of an
    access token is derived from another text than that of a refresh token, or
    of a token of another client or account, or of the account with another
    password. *)
Theorem token_context_inj grant client account hash grant' client' account' hash' :
  32 ∉ grant -> 32 ∉ grant' -> 32 ∉ hash -> 32 ∉ hash' -> fits 32 account -> fits 32 account' ->
  token_context grant client account hash = token_context grant' client' account' hash' ->
  grant = grant' /\ client = client' /\ account = account' /\ hash = hash'.
Proof.
  intros Hg Hg' Hh Hh' Ha Ha' E. unfold token_context in E. cbn [app] in E.
  apply separated_inj in E as [-> E]; [|done..].
  rewrite !(app_comm_cons (decimal _)), !app_assoc in E.
  apply separated_last_inj in E as [E ->]; [|done..].
  apply separated_last_inj in E as [-> E]; [|apply digits_no_space..].
  apply decimal_inj in E; [done|eapply fits_mono; [|done]; lia..].
Qed.

(** C29. Access tokens work: a token that was issued for an account and a client
    in ASCII is accepted as a bearer token as long as the account keeps its
    secret, and yields that account, that client and the time left, until it
    expires; then it is refused. *)
Theorem access_token_valid `{CryptoLaws} cfg st k random account_id client_id with_refresh token ty ex refresh scope st' k' hash :
  issue_token cfg st k random account_id client_id with_refresh = inr (Granted token ty ex refresh scope) ->
  get_account_secret_hash st account_id = inr (Some hash) -> get_account_secret_hash st' account_id = inr (Some hash) ->
  length random.1 = RANDOM_CODE_LEN -> bytes_ok random.1 -> ascii client_id -> fits 32 account_id ->
  0 <= expiry_token cfg -> since_2000 k + expiry_token cfg < 2 ^ 64 ->
  validate_access_token cfg st' k' (chars "access_token") token =
    if since_2000 k + expiry_token cfg <=? since_2000 k' then inl StoreError.DeserializeError
    else inr (account_id, client_id, since_2000 k + expiry_token cfg - since_2000 k').
Proof.
  intros Hi Hst Hst' ??????. unfold issue_token in Hi. rewrite Hst in Hi.
  destruct (encode_access_token _ _ (chars "access_token") _ _ _ _ _) as [|tok] eqn:E; [done|].
  assert (tok = token) as -> by (by repeat case_match; simplify_eq). by eapply token_accepted.
Qed.

(** ** Races

    A password check that fails after another one succeeded withdraws the
    login, and one that fails after the token was issued makes the code
    pending again. *)
Lemma late_failures s c o :
  cells s !! c = Some o ->
  (code_status o = STATUS_AUTHORIZED ->
   code_status <$> cells (device_post_finish (inr None) c s).1 !! c = Some STATUS_TOKEN_ISSUED) /\
  (code_status o = STATUS_TOKEN_ISSUED ->
   code_status <$> cells (device_post_finish (inr None) c s).1 !! c = Some STATUS_PENDING).
Proof. intros Hc. cbn. rewrite list_lookup_alter_eq, Hc. cbn. split; by intros ->. Qed.

(** ** A concrete instance

    A checksum as the tag, two letters per byte as the text encoding, and the
    bits of a numbering as the serialization. *)
Module OAuthSample.
#[export] Instance request_eq_dec : EqDecision CodeAuthRequest.
Proof. solve_decision. Defined.

#[export] Instance request_countable : Countable CodeAuthRequest.
Proof.
  refine (inj_countable'
    (fun r => (cr_response_type r, cr_client_id r, cr_redirect_uri r, cr_scope r, cr_state r))
    (fun '(a, b, c, d, e) => mkCodeRequest a b c d e) _).
  by intros [].
Defined.

Fixpoint bits_of (p : positive) : list Z :=
  match p with xH => [] | xO p => 0 :: bits_of p | xI p => 1 :: bits_of p end.
Fixpoint of_bits (l : list Z) : positive :=
  match l with [] => xH | b :: l => if b =? 0 then xO (of_bits l) else xI (of_bits l) end.
Lemma of_bits_of p : of_bits (bits_of p) = p.
Proof. induction p as [p IH|p IH|]; cbn; by rewrite ?IH. Qed.
Lemma bits_of_bytes p : bytes_ok (bits_of p).
Proof. induction p; cbn; constructor; try done; unfold fits; lia. Qed.

Definition tag (k n m : list Z) : list Z := be_bytes 16 (foldl (fun h b => (h * 131 + b) mod 2 ^ 128) 7 (k ++ n ++ m)).
Definition hex (m : list Z) : list Z := m ≫= fun b => [97 + b / 16; 97 + b mod 16].
Fixpoint unhex (m : list Z) : option (list Z) :=
  match m with
  | [] => Some []
  | a :: b :: m => cons ((a - 97) * 16 + (b - 97)) <$> unhex m
  | _ => None
  end.

#[export] Instance crypto : Crypto := {
  derive_key context key := context ++ [0] ++ key;
  blake3 m := m;
  aes_encrypt k n m := Some (m ++ tag k n m);
  aes_decrypt k n c :=
    let m := take (length c - 16) c in if bool_decide (c = m ++ tag k n m) then Some m else None;
  base64_encode := hex;
  decode_base64 := unhex;
  bincode_serialize x := bits_of (encode x);
  bincode_deserialize l := decode (of_bits l) }.

#[export] Instance crypto_laws : CryptoLaws.
Proof.
  assert (forall k n m, length (m ++ tag k n m) = length m + 16)%nat as Hlen
    by (intros; unfold tag; by rewrite length_app, be_bytes_length).
  split; cbn.
  - eauto.
  - intros k n m c [= <-]. apply Hlen.
  - intros k n m c Hm [= <-]. apply Forall_app. split; [done|apply be_bytes_ok].
  - intros k n m c. split.
    + case_bool_decide as E; [|done]. intros [= <-]. by rewrite <- E.
    + intros [= <-]. rewrite Hlen. replace (length m + 16 - 16)%nat with (length m) by lia.
      by rewrite take_app_length, bool_decide_eq_true_2.
  - intros m Hm. induction Hm as [|b m Hb Hm IH]; [done|]. cbn. unfold hex in IH. rewrite IH. cbn.
    do 2 f_equal. pose proof (Z.div_mod b 16). lia.
  - intros x. apply bits_of_bytes.
  - intros x. rewrite of_bits_of. apply decode_encode.
Qed.

Definition cfg : OAuth := mkOAuth (chars "secret") 600 300 3600 86400 7200 3.
Definition store : AccountStore :=
  mkAccounts (fun email password => inr (if bool_decide (password = chars "pass") then Some 7 else None))
    (fun a => inr (if a =? 7 then Some (chars "$argon2$h") else None)).
Definition at_ (s : Z) : Clock := mkClock (s * 1000000000) (1700000000 + s).
Definition bytes32 : list Z := replicate 32 5.
Definition redeem : TokenRequest :=
  mkTokenRequest (chars "urn:ietf:params:oauth:grant-type:device_code") None (Some (chars "DEV")) (Some (chars "app")) None None.
Definition login (password : list Z) : DeviceAuthPost :=
  mkDevicePost (Some (user_code_loop 0 [1; 2; 3; 4; 5; 6; 7; 8])) (Some (chars "jane")) (Some password).

(** A device asks for a code; a first password fails, the second is right;
    the device gets its token, and no second one. *)
Definition step_of (i : nat) : event := Run store (bytes32, bytes32) i.
Definition ask : event := Token store (bytes32, bytes32) redeem.
Definition events : list (Clock * event) :=
  [(at_ 0, DeviceAuth (chars "app") (chars "DEV") [1; 2; 3; 4; 5; 6; 7; 8]); (at_ 5, ask);
   (at_ 9, DevicePost (login (chars "word"))); (at_ 10, step_of 0); (at_ 10, step_of 0);
   (at_ 19, DevicePost (login (chars "pass"))); (at_ 20, step_of 1); (at_ 20, step_of 1); (at_ 20, step_of 1);
   (at_ 25, ask); (at_ 25, step_of 2); (at_ 25, step_of 2); (at_ 26, step_of 2); (at_ 30, ask)].
(** Two token requests load the status before one of them stores it. *)
Definition overlapping : list (Clock * event) :=
  [(at_ 0, DeviceAuth (chars "app") (chars "DEV") [1; 2; 3; 4; 5; 6; 7; 8]);
   (at_ 19, DevicePost (login (chars "pass"))); (at_ 20, step_of 0); (at_ 20, step_of 0); (at_ 20, step_of 0);
   (at_ 25, ask); (at_ 25, ask); (at_ 25, step_of 1); (at_ 25, step_of 2); (at_ 25, step_of 1); (at_ 25, step_of 2);
   (at_ 26, step_of 1); (at_ 26, step_of 2)].
End OAuthSample.
Import (hints) OAuthSample.


(** One login, two tokens: the status of a code is loaded and stored in two
    steps, and two requests that both load it before one stores it both get a
    token. *)
Theorem two_tokens_of_one_login : exists r r',
  (oauth_run OAuthSample.cfg (chars "https://x") OAuthSample.overlapping (mkWorld server0 []) []).2 =
    [Issued 2 0 7 (chars "app") r'; Issued 1 0 7 (chars "app") r; Marked 2 0; Marked 1 0;
     Redeemed 2 0 25000000000; Redeemed 1 0 25000000000; Authorized 0; Checked 0 7; Created 0 (chars "app") 0].
Proof. do 2 eexists. vm_compute. reflexivity. Qed.

Lemma token_context_inj_witness :
  chars "my app" = chars "my app" /\ 12 = 12.
Proof.
  destruct (token_context_inj (chars "access_token") (chars "my app") 12 (chars "$h") (chars "access_token") (chars "my app") 12
    (chars "$h")) as (_ & ? & ? & _); 
    first [refine (bool_decide_unpack _ _); vm_compute; exact I|reflexivity|unfold fits; lia|by split|done].
Defined.

Lemma access_token_valid_witness :
  exists token ty ex refresh scope,
    issue_token OAuthSample.cfg OAuthSample.store (OAuthSample.at_ 25) (OAuthSample.bytes32, OAuthSample.bytes32) 7
      (chars "app") true = inr (Granted token ty ex refresh scope) /\
    validate_access_token OAuthSample.cfg OAuthSample.store (OAuthSample.at_ 100) (chars "access_token") token
      = inr (7, chars "app", 3525).
Proof.
  do 5 eexists. split; [vm_compute; reflexivity|].
  assert (Forall (fun b => 0 <= b < 128) (chars "app")) as Happ by (refine (bool_decide_unpack _ _); vm_compute; exact I).
  assert (bytes_ok OAuthSample.bytes32) as Hr by (refine (bool_decide_unpack _ _); vm_compute; exact I).
  etransitivity; [eapply (access_token_valid OAuthSample.cfg OAuthSample.store (OAuthSample.at_ 25)
    (OAuthSample.bytes32, OAuthSample.bytes32) 7 (chars "app") true _ _ _ _ _ OAuthSample.store (OAuthSample.at_ 100) (chars "$argon2$h"));
    [vm_compute; reflexivity|reflexivity|reflexivity|reflexivity|exact Hr|exact Happ|unfold fits; lia|by vm_compute|by vm_compute]|].
  reflexivity.
Defined.
