(* ===== verification/JsonPointer.v ===== *)
(** * JSON pointers: components/jmap/src/types/json_pointer.rs and the
      evaluation of pointers in components/jmap/src/request

    A pointer into the response of an earlier method. [parse] scans the text
    once with four flags; its result is shown to be the tokens that a printer
    after RFC 6901 wrote. Texts are lists of characters and positions count
    characters. *)

From Stdlib Require Import String.
From S2P Require Import Prelude Text Lang.
#[local] Open Scope Z_scope.

Inductive JSONPointer : Set := Root | Wildcard | PString (s : list Z) | PNumber (n : Z) | PPath (path : list JSONPointer).

#[export] Instance json_pointer_eq_dec : EqDecision JSONPointer.
Proof.
  refine (fix go p q : Decision (p = q) :=
    match p, q with
    | Root, Root => left _
    | Wildcard, Wildcard => left _
    | PString s, PString s' => cast_if (decide (s = s'))
    | PNumber n, PNumber n' => cast_if (decide (n = n'))
    | PPath l, PPath l' => cast_if (@list_eq_dec JSONPointer go l l')
    | _, _ => right _
    end); clear go; abstract congruence.
Defined.

(** [str::get(a..b)]. *)
Definition str_get (value : list Z) (a b : nat) : option (list Z) :=
  if bool_decide (a <= b <= length value)%nat then Some (take (b - a) (drop a value)) else None.

Record scan := mkScan { sc_path : list JSONPointer; is_number : bool; is_wildcard : bool; is_escaped : bool; is_string : bool; last_pos : nat }.

Fixpoint unescape (last_is_escaped : bool) (s : list Z) : list Z :=
  match s with
  | [] => []
  | ch :: s =>
      if ch =? 126 then unescape true s
      else if (ch =? 48) && last_is_escaped then 126 :: unescape false s
      else if (ch =? 49) && last_is_escaped then 47 :: unescape false s
      else ch :: unescape false s
  end.

(** The token from [last_pos] to [pos]. *)
Definition make_token (value : list Z) (st : scan) (pos : nat) : option JSONPointer :=
  if is_number st && negb (is_escaped st) && negb (is_string st) && negb (is_wildcard st) then
    s ← str_get value (last_pos st) pos; Some (PNumber (default 0 (parse_uint 64 s)))
  else if is_wildcard st && (pos - last_pos st =? 1)%nat then Some Wildcard
  else if is_escaped st then s ← str_get value (last_pos st) pos; Some (PString (unescape false s))
  else s ← str_get value (last_pos st) pos; Some (PString s).
Definition end_token (value : list Z) (st : scan) (pos : nat) : option scan :=
  token ← make_token value st pos; Some (mkScan (sc_path st ++ [token]) false false false false (pos + 1)).

Definition is_digit_char (ch : Z) : bool := (48 <=? ch) && (ch <=? 57).
Definition scan_char (value : list Z) (pos : nat) (ch : Z) (st : scan) : option scan :=
  let '(st, add) :=
    if is_digit_char ch then (mkScan (sc_path st) true (is_wildcard st) (is_escaped st) (is_string st) (last_pos st), false)
    else if ch =? 126 then (mkScan (sc_path st) (is_number st) (is_wildcard st) true (is_string st) (last_pos st), false)
    else if ch =? 42 then (mkScan (sc_path st) (is_number st) true (is_escaped st) (is_string st) (last_pos st), false)
    else if ch =? 47 then
      if (0 <? pos)%nat then (st, true)
      else (mkScan (sc_path st) (is_number st) (is_wildcard st) (is_escaped st) (is_string st) (pos + 1), false)
    else (mkScan (sc_path st) (is_number st) (is_wildcard st) (is_escaped st) true (last_pos st), false) in
  if add then end_token value st pos
  else if (pos + 1 =? length value)%nat then end_token value st (length value)
  else Some st.

Fixpoint scan_chars (value : list Z) (pos : nat) (chars : list Z) (st : scan) : option scan :=
  match chars with
  | [] => Some st
  | ch :: chars => st ← scan_char value pos ch st; scan_chars value (pos + 1) chars st
  end.

Definition pointer_of (path : list JSONPointer) : JSONPointer :=
  match path with [] => Root | [p] => p | _ => PPath path end.
Definition pointer_parse (value : list Z) : option JSONPointer :=
  st ← scan_chars value 0 value (mkScan [] false false false false 0); Some (pointer_of (sc_path st)).

Definition is_item_query (p : JSONPointer) (name : list Z) : bool :=
  match p with
  | PString property => bool_decide (property = name)
  | PPath [PString property; Wildcard] => bool_decide (property = name)
  | _ => false
  end.

(** ** Result references *)

Module Method.
Inductive t : Set :=
| Echo | CopyBlob | GetPushSubscription | SetPushSubscription | GetMailbox | ChangesMailbox | QueryMailbox
| QueryChangesMailbox | SetMailbox | GetThread | ChangesThread | GetEmail | ChangesEmail | QueryEmail
| QueryChangesEmail | SetEmail | CopyEmail | ImportEmail | ParseEmail | GetSearchSnippet | GetIdentity
| ChangesIdentity | SetIdentity | GetEmailSubmission | ChangesEmailSubmission | QueryEmailSubmission
| QueryChangesEmailSubmission | SetEmailSubmission | GetVacationResponse | SetVacationResponse
| GetSieveScript | SetSieveScript | QuerySieveScript | ValidateSieveScript | GetPrincipal | SetPrincipal
| QueryPrincipal | Error.
#[export] Instance eq_dec : EqDecision t.
Proof. solve_decision. Defined.
End Method.
#[export] Existing Instance Method.eq_dec.

Record ResultReference : Set := mkResultReference { rr_result_of : list Z; rr_name : Method.t; rr_path : JSONPointer }.
#[export] Instance result_reference_eq_dec : EqDecision ResultReference.
Proof. solve_decision. Defined.

(** ** Evaluation in the responses *)

(** [QueryResponse], [QueryChangesResponse], [GetResponse], [ChangesResponse]. *)
Definition eval_query (ids : list Z) (p : JSONPointer) : option (list Z) := if is_item_query p (chars "ids") then Some ids else None.
Definition eval_query_changes (added : list Z) (p : JSONPointer) : option (list Z) :=
  match p with
  | PPath [PString root; Wildcard; PString property] =>
      if bool_decide (root = chars "added") && bool_decide (property = chars "id") then Some added else None
  | _ => None
  end.
Definition eval_get {I Prop_ : Type} (parse_property : list Z -> option Prop_) (get_as_id : I -> Prop_ -> option (list Z))
    (items : list I) (p : JSONPointer) : option (list Z) :=
  match p with
  | PPath [PString root; Wildcard; PString property] =>
      if bool_decide (root = chars "list") then
        property ← parse_property property;
        Some (concat (omap (fun item => get_as_id item property) items))
      else None
  | _ => None
  end.
Definition eval_changes (created updated : list Z) (arguments : JSONPointer -> option (list Z)) (p : JSONPointer) : option (list Z) :=
  match match p with PString property => Some property | PPath [PString property; Wildcard] => Some property | _ => None end with
  | None => None
  | Some property =>
      if bool_decide (property = chars "created") then Some created
      else if bool_decide (property = chars "updated") then Some updated
      else arguments p
  end.

(** ** Printing a pointer *)

Definition pointer_escape (ch : Z) : list Z := if ch =? 126 then [126; 48] else if ch =? 47 then [126; 49] else [ch].
Definition escape (s : list Z) : list Z := concat (map pointer_escape s).
Definition print_token (p : JSONPointer) : list Z :=
  match p with PString s => escape s | PNumber n => decimal n | Wildcard => [42] | Root | PPath _ => [] end.
Definition print_pointer (l : list JSONPointer) : list Z := concat (map (fun p => 47 :: print_token p) l).

(** Tokens: a text of digits is a number, and ["*"] is the wildcard. *)
Definition token_ok (p : JSONPointer) : Prop :=
  match p with
  | PString s => (s = [] \/ exists ch, ch ∈ s /\ is_digit_char ch = false) /\ s <> [42]
  | PNumber n => fits 64 n
  | Wildcard => True
  | Root | PPath _ => False
  end.

(** ** The scan of a token *)

Definition plain (ch : Z) : bool := negb (is_digit_char ch) && negb (ch =? 126) && negb (ch =? 42).
(** The flags after the characters [t], none of which is a slash. *)
Definition flags (path : list JSONPointer) (p : nat) (t : list Z) : scan :=
  mkScan path (existsb is_digit_char t) (existsb (Z.eqb 42) t) (existsb (Z.eqb 126) t) (existsb plain t) p.

Lemma flags_snoc path p t ch value pos :
  ch <> 47 ->
  scan_char value pos ch (flags path p t) =
    if (pos + 1 =? length value)%nat then end_token value (flags path p (t ++ [ch])) (length value) else Some (flags path p (t ++ [ch])).
Proof.
  intros Hch. assert ((ch =? 47) = false) as Hs by lia. unfold scan_char, flags.
  rewrite !existsb_app. cbn [existsb].
  change (plain ch) with (negb (is_digit_char ch) && negb (ch =? 126) && negb (ch =? 42)). rewrite (Z.eqb_sym 42), (Z.eqb_sym 126), !orb_false_r, Hs.
  assert (is_digit_char ch = true -> (ch =? 126) = false /\ (ch =? 42) = false) as Hd by (unfold is_digit_char; lia).
  destruct (is_digit_char ch); [destruct Hd as [-> ->]; [done|]|clear Hd; destruct (ch =? 126) eqn:E1; [assert ((ch =? 42) = false) as -> by lia|destruct (ch =? 42)]];
    cbn [negb andb sc_path is_number is_wildcard is_escaped is_string last_pos]; by rewrite ?orb_false_r, ?orb_true_r.
Qed.

Lemma scan_token value path p t t' rest :
  47 ∉ t' -> (length t + length t' + p < length value)%nat ->
  scan_chars value (p + length t) (t' ++ rest) (flags path p t) = scan_chars value (p + length t + length t') rest (flags path p (t ++ t')).
Proof.
  revert t. induction t' as [|ch t' IH]; intros t Hs Hlen; [by rewrite app_nil_r, Nat.add_0_r|].
  apply not_elem_of_cons in Hs as [Hch Hs]. cbn [app scan_chars length] in *. rewrite flags_snoc by done.
  rewrite (proj2 (Nat.eqb_neq _ _)) by lia. cbn. specialize (IH (t ++ [ch]) Hs). rewrite length_app in IH. cbn [length] in IH.
  rewrite <- app_assoc in IH. cbn [app] in IH. replace (p + length t + 1)%nat with (p + (length t + 1))%nat by lia. rewrite IH by lia.
  f_equal. lia.
Qed.

(** A token that another one follows, and the last token. *)
Lemma scan_token_slash value path p t rest :
  47 ∉ t -> (0 < p)%nat -> (p + length t < length value)%nat ->
  scan_chars value p (t ++ 47 :: rest) (flags path p []) =
    st ← end_token value (flags path p t) (p + length t); scan_chars value (p + length t + 1) rest st.
Proof.
  intros Ht Hp Hlen. pose proof (scan_token value path p [] t (47 :: rest) Ht) as Hs. cbn [length app] in Hs.
  rewrite Nat.add_0_r in Hs. rewrite Hs by lia. cbn [scan_chars]. unfold scan_char.
  change (is_digit_char 47) with false. cbn [Z.eqb Pos.eqb]. by rewrite (proj2 (Nat.ltb_lt _ _)) by lia.
Qed.

Lemma scan_token_last value path p t :
  47 ∉ t -> t <> [] -> (p + length t = length value)%nat ->
  scan_chars value p t (flags path p []) = end_token value (flags path p t) (length value).
Proof.
  intros Ht Hne Hlen. destruct (exists_last Hne) as (t0 & ch & ->). rewrite length_app in Hlen. cbn in Hlen.
  apply not_elem_of_app in Ht as [Ht Hch]. rewrite list_elem_of_singleton in Hch.
  pose proof (scan_token value path p [] t0 [ch] Ht) as Hs. cbn [length app] in Hs. rewrite Nat.add_0_r in Hs. rewrite Hs by lia.
  cbn [scan_chars]. rewrite flags_snoc by done. rewrite (proj2 (Nat.eqb_eq _ _)) by lia.
  destruct (end_token _ _ _); done.
Qed.

(** ** Tokens read back *)

Lemma pointer_escape_no_slash ch : 47 ∉ pointer_escape ch.
Proof.
  unfold pointer_escape. intros Hin. destruct (ch =? 126); [|destruct (Z.eqb_spec ch 47)];
    repeat (apply elem_of_cons in Hin as [?|Hin]; [lia|]); by apply elem_of_nil in Hin.
Qed.
Lemma escape_no_slash s : 47 ∉ escape s.
Proof.
  induction s as [|ch s IH]; [apply not_elem_of_nil|]. apply not_elem_of_app. split; [apply pointer_escape_no_slash|done].
Qed.

Lemma unescape_escape s : unescape false (escape s) = s.
Proof.
  unfold escape. induction s as [|ch s IH]; [done|]. cbn. unfold pointer_escape at 1.
  destruct (Z.eqb_spec ch 126) as [->|]; [cbn; by rewrite IH|]. destruct (Z.eqb_spec ch 47) as [->|]; [cbn; by rewrite IH|].
  cbn. rewrite (proj2 (Z.eqb_neq ch 126)), !andb_false_r by done. by rewrite IH.
Qed.

Lemma digits_no_slash s : Forall is_digit s -> 47 ∉ s.
Proof. rewrite Forall_forall. intros Hs Hin. specialize (Hs _ Hin). unfold is_digit in Hs. lia. Qed.

Lemma print_no_slash p : 47 ∉ print_token p.
Proof.
  destruct p; cbn; try apply not_elem_of_nil.
  - apply not_elem_of_cons. split; [lia|apply not_elem_of_nil].
  - apply escape_no_slash.
  - apply digits_no_slash, decimal_digits.
Qed.

Lemma existsb_false {A} (f : A -> bool) l : (forall x, x ∈ l -> f x = false) -> existsb f l = false.
Proof.
  induction l as [|x l IH]; intros Hl; [done|]. cbn. rewrite (Hl x), IH; [done| |by apply list_elem_of_here].
  intros y Hy. by apply Hl, list_elem_of_further.
Qed.
Lemma existsb_true {A} (f : A -> bool) x l : x ∈ l -> f x = true -> existsb f l = true.
Proof. intros Hx Hf. apply existsb_exists. exists x. split; [by apply list_elem_of_In|done]. Qed.

Lemma digits_flags path p s :
  Forall is_digit s -> s <> [] -> flags path p s = mkScan path true false false false p.
Proof.
  intros Hs Hne. assert (forall x, x ∈ s -> 48 <= x <= 57) as Hd by (by rewrite Forall_forall in Hs). unfold flags. f_equal.
  - destruct s as [|x s]; [done|]. apply (existsb_true _ x); [by apply list_elem_of_here|].
    specialize (Hd x (list_elem_of_here _ _)). unfold is_digit_char. lia.
  - apply existsb_false. intros x Hx. specialize (Hd x Hx). lia.
  - apply existsb_false. intros x Hx. specialize (Hd x Hx). lia.
  - apply existsb_false. intros x Hx. specialize (Hd x Hx). unfold plain, is_digit_char. lia.
Qed.

Lemma escape_id s : 126 ∉ s -> 47 ∉ s -> escape s = s.
Proof.
  induction s as [|ch s IH]; intros H1 H2; [done|]. apply not_elem_of_cons in H1 as [H1 H1'], H2 as [H2 H2'].
  unfold escape in *. cbn. rewrite IH by done. unfold pointer_escape. by rewrite !(proj2 (Z.eqb_neq ch _)) by done.
Qed.
Lemma escape_tilde s : (126 ∈ s \/ 47 ∈ s) -> 126 ∈ escape s.
Proof.
  unfold escape. induction s as [|ch s IH]; [by intros [?%elem_of_nil|?%elem_of_nil]|]. intros Hin. cbn. apply elem_of_app.
  destruct (decide (ch = 126 \/ ch = 47)) as [Hch|Hch].
  - left. unfold pointer_escape. destruct Hch as [->| ->]; apply list_elem_of_here.
  - right. apply IH. destruct Hin as [[?|?]%elem_of_cons|[?|?]%elem_of_cons]; auto; lia.
Qed.

Lemma escape_length s : (126 ∈ s \/ 47 ∈ s) -> (2 <= length (escape s))%nat.
Proof.
  unfold escape. induction s as [|ch s IH]; [by intros [?%elem_of_nil|?%elem_of_nil]|]. intros Hin. cbn. rewrite length_app.
  destruct (decide (ch = 126 \/ ch = 47)) as [Hch|Hch].
  - unfold pointer_escape. destruct Hch as [->| ->]; cbn; lia.
  - enough (2 <= length (concat (map pointer_escape s)))%nat by lia.
    apply IH. destruct Hin as [[?|?]%elem_of_cons|[?|?]%elem_of_cons]; auto; lia.
Qed.

(** A text is not taken for a number or the wildcard. *)
Lemma text_read value path p s :
  token_ok (PString s) -> str_get value p (p + length (escape s)) = Some (escape s) ->
  make_token value (flags path p (escape s)) (p + length (escape s)) = Some (PString s).
Proof.
  intros [Hs Hw] Hget. unfold make_token. cbn [flags is_number is_wildcard is_escaped is_string last_pos]. rewrite Hget.
  replace (p + length (escape s) - p)%nat with (length (escape s)) by lia. destruct (decide (126 ∈ s \/ 47 ∈ s)) as [Hin|Hin].
  - rewrite (existsb_true (Z.eqb 126) 126) by (done || by apply escape_tilde). rewrite andb_false_r. cbn [andb].
    rewrite (proj2 (Nat.eqb_neq (length (escape s)) 1)), andb_false_r by (pose proof (escape_length s Hin); lia).
    cbn. by rewrite unescape_escape.
  - assert ((126 ∉ s) /\ (47 ∉ s)) as [H1 H2] by tauto. rewrite escape_id by done.
    rewrite (existsb_false (Z.eqb 126)) by (intros x Hx; apply Z.eqb_neq; by intros <-).
    assert ((existsb (Z.eqb 42) s && (length s =? 1)%nat) = false) as ->.
    { destruct s as [|x [|y s]]; [done| |by rewrite andb_false_r]. destruct (Z.eqb_spec 42 x) as [<-|Hx]; [done|].
      cbn [existsb]. by rewrite (proj2 (Z.eqb_neq _ _) Hx). }
    assert ((existsb is_digit_char s && negb false && negb (existsb plain s) && negb (existsb (Z.eqb 42) s)) = false) as ->; [|done].
    destruct Hs as [->|(ch & Hch & Hd)]; [done|]. destruct (decide (ch = 42)) as [->|Hne].
    + by rewrite (existsb_true (Z.eqb 42) 42), andb_false_r by done.
    + rewrite (existsb_true plain ch), andb_false_r by (done || (unfold plain; rewrite Hd, !(proj2 (Z.eqb_neq ch _)); [done|done|by intros ->])).
      done.
Qed.

(** What a printed token is read as. *)
Lemma token_read value path p tok :
  token_ok tok -> str_get value p (p + length (print_token tok)) = Some (print_token tok) ->
  make_token value (flags path p (print_token tok)) (p + length (print_token tok)) = Some tok.
Proof.
  intros Hok Hget. destruct tok as [| |s|n|l]; try done.
  - unfold make_token. cbn. by rewrite (proj2 (Nat.eqb_eq _ _)) by lia.
  - by apply text_read.
  - cbn [print_token] in *. unfold make_token. rewrite digits_flags by (apply decimal_digits || apply decimal_nonempty).
    cbn [is_number is_escaped is_string is_wildcard last_pos negb andb]. rewrite Hget. cbn [mbind option_bind].
    by rewrite parse_decimal.
Qed.

Lemma str_get_middle pre t post : str_get (pre ++ t ++ post) (length pre) (length pre + length t) = Some t.
Proof.
  unfold str_get. rewrite bool_decide_true by (rewrite !length_app; lia). f_equal.
  rewrite drop_app_length. replace (length pre + length t - length pre)%nat with (length t) by lia. apply take_app_length.
Qed.

Lemma scan_tokens l tok pre path :
  Forall token_ok (tok :: l) -> print_token (List.last (tok :: l) Root) <> [] -> pre <> [] ->
  let value := pre ++ print_token tok ++ print_pointer l in
  sc_path <$> scan_chars value (length pre) (print_token tok ++ print_pointer l) (flags path (length pre) []) = Some (path ++ tok :: l).
Proof.
  revert tok pre path. induction l as [|tok' l IH]; intros tok pre path Hok Hlast Hpre value; apply Forall_cons in Hok as [Htok Hok].
  - unfold print_pointer in *. cbn [map concat] in *. rewrite app_nil_r in *. rewrite scan_token_last.
    + unfold end_token. assert (length value = length pre + length (print_token tok))%nat as -> by (unfold value; by rewrite app_nil_r, length_app).
      rewrite token_read; [done|done|]. apply str_get_middle.
    + apply print_no_slash.
    + done.
    + unfold value. by rewrite app_nil_r, length_app.
  - change (print_pointer (tok' :: l)) with (47 :: print_token tok' ++ print_pointer l) in *.
    assert (value = (pre ++ print_token tok ++ [47]) ++ print_token tok' ++ print_pointer l) as Hv by (unfold value; by rewrite <- !app_assoc).
    rewrite scan_token_slash.
    + unfold end_token. rewrite token_read; [|done|apply str_get_middle]. cbn [mbind option_bind sc_path flags].
      change (mkScan (path ++ [tok]) false false false false (length pre + length (print_token tok) + 1))
        with (flags (path ++ [tok]) (length pre + length (print_token tok) + 1) []).
      specialize (IH tok' (pre ++ print_token tok ++ [47]) (path ++ [tok]) Hok Hlast). cbn zeta in IH. rewrite <- Hv in IH.
      rewrite !length_app, !Nat.add_assoc in IH. cbn [length] in IH. rewrite IH by (by destruct pre). by rewrite <- app_assoc.
    + apply print_no_slash.
    + destruct pre; [done|]. cbn. lia.
    + unfold value. rewrite !length_app. cbn. lia.
Qed.

(** ** The parser is total *)

Lemma str_get_Some value a b : (a <= b <= length value)%nat -> is_Some (str_get value a b).
Proof. intros H. unfold str_get. rewrite bool_decide_true by done. by eexists. Qed.

Lemma end_token_total value st pos :
  (last_pos st <= pos <= length value)%nat -> exists st', end_token value st pos = Some st' /\ last_pos st' = (pos + 1)%nat.
Proof.
  intros Hp. destruct (str_get_Some value (last_pos st) pos Hp) as [s Hs]. unfold end_token, make_token. rewrite Hs. cbn.
  destruct (_ && _); [by eexists|]. destruct (_ && _); [by eexists|]. destruct (is_escaped st); by eexists.
Qed.

Lemma scan_chars_total value pos cs st :
  (pos + length cs = length value)%nat -> (last_pos st <= pos \/ cs = [])%nat -> is_Some (scan_chars value pos cs st).
Proof.
  revert pos st. induction cs as [|ch cs IH]; intros pos st Hlen Hlast; [by eexists|]. cbn [scan_chars length] in *.
  destruct Hlast as [Hlast|]; [|done].
  assert (exists st', scan_char value pos ch st = Some st' /\ (last_pos st' <= pos + 1 \/ cs = [])%nat) as (st' & -> & Hl); cycle 1.
  { cbn. apply IH; [lia|]. done. }
  unfold scan_char.
  assert (Hend : forall st : scan, (last_pos st <= pos + 1)%nat -> exists st',
    (if (pos + 1 =? length value)%nat then end_token value st (length value) else Some st) = Some st' /\ (last_pos st' <= pos + 1 \/ cs = [])%nat).
  { intros st0 H0. destruct (Nat.eqb_spec (pos + 1) (length value)) as [E|]; [|exists st0; by auto].
    destruct (end_token_total value st0 (length value)) as (st' & -> & Hst'); [lia|]. exists st'. split; [done|]. right.
    apply nil_length_inv. lia. }
  destruct (is_digit_char ch); [apply Hend; cbn; lia|]. destruct (ch =? 126); [apply Hend; cbn; lia|].
  destruct (ch =? 42); [apply Hend; cbn; lia|]. destruct (ch =? 47); [|apply Hend; cbn; lia].
  destruct (0 <? pos)%nat; [|apply Hend; cbn; lia].
  destruct (end_token_total value st pos) as (st' & -> & Hst'); [lia|]. exists st'. split; [done|]. left. lia.
Qed.

(** ** Properties *)

(** C33. JSON pointers. Parsing never fails, and it reads back the tokens of a
    printed pointer: texts with their escapes, numbers of 64 bits and wildcards,
    provided that the last token is not empty or the only one. *)
Theorem json_pointer_roundtrip (value : list Z) (l : list JSONPointer) :
  is_Some (pointer_parse value) /\
  (Forall token_ok l -> (print_token (List.last l Root) <> [] \/ (length l <= 1)%nat) -> pointer_parse (print_pointer l) = Some (pointer_of l)).
Proof.
  split.
  - unfold pointer_parse. destruct (scan_chars_total value 0 value (mkScan [] false false false false 0)) as [st ->]; [done|cbn; lia|]. by eexists.
  - intros Hok Hlast. destruct l as [|tok l]; [done|]. destruct (decide (print_token (List.last (tok :: l) Root) = [])) as [He|Hne].
    + destruct l as [|tok' l]; [|destruct Hlast; [done|cbn in *; lia]]. cbn [List.last] in He. unfold print_pointer. cbn [map concat].
      apply Forall_cons in Hok as [Htok _]. rewrite He. destruct tok as [| |s|n|]; try done; [|by apply decimal_nonempty in He].
      destruct s as [|ch s]; [done|]. exfalso. revert He. unfold print_token, escape. cbn. unfold pointer_escape.
      by destruct (ch =? 126), (ch =? 47).
    + pose proof (scan_tokens l tok [47] [] Hok Hne ltac:(done)) as Hs. cbn zeta in Hs. unfold pointer_parse.
      change (print_pointer (tok :: l)) with ([47] ++ print_token tok ++ print_pointer l). set (value' := [47] ++ _) in *.
      assert (scan_chars value' 0 value' (mkScan [] false false false false 0) =
        scan_chars value' (length [47]) (print_token tok ++ print_pointer l) (flags [] (length [47]) [])) as ->.
      { unfold value' at 2. cbn [app scan_chars]. unfold scan_char. change (is_digit_char 47) with false. cbn [Z.eqb Pos.eqb Nat.ltb Nat.leb].
        rewrite (proj2 (Nat.eqb_neq _ _)); [done|]. unfold value'. rewrite length_app. cbn.
        destruct l; [|unfold print_pointer; cbn; rewrite length_app; cbn; lia]. cbn [List.last] in Hne. destruct (print_token tok); [done|]. cbn. lia. }
      destruct (scan_chars _ _ _ _) as [st|]; [|done]. cbn in *. injection Hs as ->. done.
Qed.

(** ["/list/*/a~1b/7"]. *)
Lemma json_pointer_roundtrip_witness :
  let l := [PString (chars "list"); Wildcard; PString (chars "a/b"); PNumber 7] in
  Forall token_ok l /\ pointer_parse (chars "/list/*/a~1b/7") = Some (PPath l).
Proof.
  assert (Forall token_ok [PString (chars "list"); Wildcard; PString (chars "a/b"); PNumber 7]) as Hok.
  { repeat (apply Forall_cons; split); [..|by apply Forall_nil].
    - split; [|by vm_compute]. right. exists 108. split; [apply list_elem_of_here|reflexivity].
    - exact I.
    - split; [|by vm_compute]. right. exists 97. split; [apply list_elem_of_here|reflexivity].
    - unfold token_ok, fits. lia. }
  split; [exact Hok|]. apply (json_pointer_roundtrip [] [PString (chars "list"); Wildcard; PString (chars "a/b"); PNumber 7]); [exact Hok|].
  left. by vm_compute.
Defined.

(** An empty token at the end is lost, and so is a number of more than 64 bits. *)
Lemma json_pointer_loses :
  pointer_parse (chars "/a/") = Some (PString (chars "a")) /\
  pointer_parse (chars "/a/18446744073709551616") = Some (PPath [PString (chars "a"); PNumber 0]).
Proof. split; vm_compute; reflexivity. Qed.
