(* ===== verification/SetRequest.v ===== *)
(** * Requests that change objects: components/jmap/src/request/set.rs,
      components/jmap/src/jmap_store/set.rs, error/set.rs

    A [/set] request creates, updates and destroys objects of one type.
    [eval_references] puts the objects to create in an order in which the
    objects they refer to come first. [SetHelper] runs the three loops that all
    types share: it calls the functions of the type, collects the changes in a
    batch and fills in the response. Store and object type are interfaces, so
    that the theorems hold for every type of object. Texts are lists of
    characters; descriptions of errors are left out. *)

From S2P Require Import Prelude Types Bitmap BitList VecMap KV Blob ChangeLog RaftLog JmapId Write Orm.
#[local] Open Scope Z_scope.

(** ** Errors *)

Module SetErrorType.
Inductive t : Set :=
| Forbidden | OverQuota | TooLarge | RateLimit | NotFound | InvalidPatch | WillDestroy | InvalidProperties | Singleton
| MailboxHasChild | MailboxHasEmail | BlobNotFound | TooManyKeywords | TooManyMailboxes | ForbiddenFrom | InvalidEmail
| TooManyRecipients | NoRecipients | InvalidRecipients | ForbiddenMailFrom | ForbiddenToSend | CannotUnsend | AlreadyExists
| InvalidScript | ScriptIsActive.
End SetErrorType.

Record SetError (P : Type) := mkSetError { se_type : SetErrorType.t; se_properties : option (list P); se_existing_id : option Z }.
Arguments mkSetError {P}.
Arguments se_type {P}.
Arguments se_properties {P}.
Arguments se_existing_id {P}.

Section SetError.
Context {P : Type}.
Definition set_error (t : SetErrorType.t) : SetError P := mkSetError t None None.
Definition with_property (e : SetError P) (p : P) : SetError P := mkSetError (se_type e) (Some [p]) (se_existing_id e).
Definition invalid_properties : SetError P := set_error SetErrorType.InvalidProperties.
Definition forbidden : SetError P := set_error SetErrorType.Forbidden.
(** [From<StoreError>]. *)
Definition from_store_error (e : StoreError.t) : SetError P :=
  match e with StoreError.NotFound => set_error SetErrorType.NotFound | _ => forbidden end.
Definition lift {A} (r : result A) : SetError P + A := match r with inl e => inl (from_store_error e) | inr a => inr a end.
End SetError.

Module MethodError.
Inductive t : Set :=
| InvalidArguments | RequestTooLarge | StateMismatch | AnchorNotFound | UnsupportedFilter | UnsupportedSort | ServerFail (e : StoreError.t)
| UnknownMethod | ServerUnavailable | ServerPartialFail | InvalidResultReference | Forbidden | AccountNotFound
| AccountNotSupportedByMethod | AccountReadOnly | NotFound.
End MethodError.
Abbreviation MethodError := MethodError.t.
Definition method_error (e : StoreError.t) : MethodError :=
  match e with
  | StoreError.AnchorNotFound => MethodError.AnchorNotFound
  | StoreError.NotFound => MethodError.NotFound
  | StoreError.InvalidArguments => MethodError.InvalidArguments
  | _ => MethodError.ServerFail e
  end.

(** ** Requests *)

(** [SetObject]: [eval_id_references] calls the function, which has a state,
    on the references of the object in order. *)
Class SetObject (R Obj : Type) := {
  object_id : Obj -> option Z;
  eval_id_references {S : Type} : (S -> list Z -> S * option Z) -> S -> Obj -> S * Obj;
  eval_result_references : (R -> option (list Z)) -> Obj -> Obj }.
Class SetObjectLaws (R Obj : Type) `{SetObject R Obj} := {
  id_references : Obj -> list (list Z);
  eval_id_references_calls {S} (f : S -> list Z -> S * option Z) s o :
    (eval_id_references f s o).1 = fold_left (fun s r => (f s r).1) (id_references o) s;
  eval_id_references_answers {S} (f : S -> list Z -> S * option Z) (g : list Z -> option Z) s o :
    (forall s r, (f s r).2 = g r) -> (eval_id_references f s o).2 = (eval_id_references (fun u r => (u, g r)) tt o).2 }.

Inductive MaybeResultReference (R A : Type) := RValue (value : A) | RReference (r : R) | RError.
Arguments RValue {R A}.
Arguments RReference {R A}.
Arguments RError {R A}.

Record SetRequest (R Obj : Type) := mkSetRequest {
  sr_account_id : Z; sr_if_in_state : option JMAPState; sr_create : option (VecMap (list Z) Obj); sr_update : option (VecMap Z Obj);
  sr_destroy : option (MaybeResultReference R (list Z)) }.
Arguments mkSetRequest {R Obj}.
Arguments sr_account_id {R Obj}.
Arguments sr_if_in_state {R Obj}.
Arguments sr_create {R Obj}.
Arguments sr_update {R Obj}.
Arguments sr_destroy {R Obj}.

Section References.
Context `{SetObject R Obj}.
Abbreviation Graph := (gmap (list Z) (list (list Z))).

(** The call on a reference of the object [child_id]: an id created by an
    earlier method, or an edge of the graph. *)
Definition note_reference (created_ids : gmap (list Z) Z) (child_id : list Z) (graph : Graph) (parent_id : list Z) : Graph * option Z :=
  match created_ids !! parent_id with
  | Some id => (graph, Some id)
  | None => (<[child_id := default [] (graph !! child_id) ++ [parent_id]]> graph, None)
  end.
Definition resolve_object (result_map_fnc : R -> option (list Z)) (created_ids : gmap (list Z) Z) (st : Graph * list Obj)
    (kv : list Z * Obj) : Graph * list Obj :=
  let object := eval_result_references result_map_fnc kv.2 in
  let '(graph, object) := eval_id_references (note_reference created_ids kv.1) st.1 object in
  (graph, st.2 ++ [object]).
Definition resolve_objects (result_map_fnc : R -> option (list Z)) (created_ids : gmap (list Z) Z) (objects : VecMap (list Z) Obj) :
    Graph * VecMap (list Z) Obj :=
  let '(graph, values) := fold_left (resolve_object result_map_fnc created_ids) (vm_iter objects) (∅, []) in
  (graph, mkVecMap (vm_k objects) values).

Record sorting := mkSorting { so_objects : VecMap (list Z) Obj; so_create : VecMap (list Z) Obj }.
(** Moves an object over, if it is still there. *)
Definition take_object (st : sorting) (id : list Z) : sorting :=
  match vm_remove_entry (so_objects st) id with
  | Some (id, value, objects) => mkSorting objects (vm_append (so_create st) id value)
  | None => st
  end.
Definition pending (st : sorting) (id : list Z) : bool := vm_contains_key (so_objects st) id.
Definition no_objects (st : sorting) : bool := (vm_len (so_objects st) =? 0)%nat.

(** One round of the loops ['main]; the stack holds the iterators that wait
    and the object whose references are being looked at. *)
Fixpoint sort_loop (fuel : nat) (graph : Graph) (st : sorting) (it_stack : list (list (list Z) * list Z)) (it : list (list Z)) :
    option (MethodError + sorting) :=
  match fuel with
  | O => None
  | S fuel =>
      match it with
      | from_id :: it =>
          match graph !! from_id with
          | Some to_ids =>
              let it_stack := (it, from_id) :: it_stack in
              if (1000 <? length it_stack)%nat then Some (inl MethodError.InvalidArguments) else sort_loop fuel graph st it_stack to_ids
          | None =>
              if pending st from_id then
                let st := take_object st from_id in
                if no_objects st then Some (inr st) else sort_loop fuel graph st it_stack it
              else sort_loop fuel graph st it_stack it
          end
      | [] =>
          match it_stack with
          | (prev_it, from_id) :: it_stack =>
              if pending st from_id then
                let st := take_object st from_id in
                if no_objects st then Some (inr st) else sort_loop fuel graph st it_stack prev_it
              else sort_loop fuel graph st it_stack prev_it
          | [] => Some (inr st)
          end
      end
  end.

(** [keys]: the keys of the hash map in the order it lists them. *)
Definition sort_creates (fuel : nat) (keys : Graph -> list (list Z)) (graph : Graph) (objects : VecMap (list Z) Obj) :
    option (MethodError + VecMap (list Z) Obj) :=
  r ← (if bool_decide (graph = ∅) then Some (inr (mkSorting objects vm_new))
       else sort_loop fuel graph (mkSorting objects vm_new) [] (keys graph));
  Some (st ← r; inr (fold_left (fun m kv => vm_append m kv.1 kv.2) (vm_iter (so_objects st)) (so_create st))).

Definition eval_update_references (result_map_fnc : R -> option (list Z)) (created_ids : gmap (list Z) Z) (o : Obj) : Obj :=
  eval_result_references result_map_fnc (eval_id_references (fun u parent_id => (u, created_ids !! parent_id)) tt o).2.

Definition eval_destroy_references (result_map_fnc : R -> option (list Z)) (items : MaybeResultReference R (list Z)) :
    MethodError + MaybeResultReference R (list Z) :=
  match items with
  | RReference rr => match result_map_fnc rr with Some ids => inr (RValue ids) | None => inl MethodError.InvalidResultReference end
  | RValue _ => inr items
  | RError => inl MethodError.InvalidArguments
  end.

Definition eval_references (fuel : nat) (keys : Graph -> list (list Z)) (result_map_fnc : R -> option (list Z))
    (created_ids : gmap (list Z) Z) (r : SetRequest R Obj) : option (MethodError + SetRequest R Obj) :=
  create ←
    match sr_create r with
    | Some objects =>
        let '(graph, objects) := resolve_objects result_map_fnc created_ids objects in
        fmap (FMap := option_fmap) (fmap Some) (sort_creates fuel keys graph objects)
    | None => Some (inr None)
    end;
  Some
    (create ← create;
     let update := (fun m => mkVecMap (vm_k m) (map (eval_update_references result_map_fnc created_ids) (vm_v m))) <$> sr_update r in
     destroy ← match sr_destroy r with Some items => Some <$> eval_destroy_references result_map_fnc items | None => inr None end;
     inr (mkSetRequest (sr_account_id r) (sr_if_in_state r) create update destroy)).
End References.

(** ** Rights: [ACLEnforce] *)

Definition SUPERUSER_ID : AccountId := 0.
Record ACLToken := mkToken { member_of : list AccountId; access_to : list (AccountId * Z) }.
Definition has_access (t : ACLToken) (to_account_id : AccountId) (to_collection : Collection.t) : bool :=
  bool_decide (to_account_id ∈ member_of t) ||
  existsb (fun '(id, collections) => (id =? to_account_id) && bm_contains collections to_collection) (access_to t) ||
  bool_decide (SUPERUSER_ID ∈ member_of t).
Definition is_member (t : ACLToken) (account_id : AccountId) : bool :=
  bool_decide (account_id ∈ member_of t) || bool_decide (SUPERUSER_ID ∈ member_of t).
Definition is_shared (t : ACLToken) (account_id : AccountId) : bool :=
  negb (is_member t account_id) && existsb (fun '(id, _) => id =? account_id) (access_to t).
(** Tokens start with the account itself; [unwrap] does not fail on them. *)
Definition primary_id (t : ACLToken) : AccountId := hd 0 (member_of t).

(** ** Objects of the store *)

(** [ACLUpdate]: accounts are named by an e-mail address. *)
Inductive ACLUpdate : Set :=
| AReplace (acls : VecMap (list Z) (list ACL.t)) | AUpdate (account_id : list Z) (acls : list ACL.t)
| ASet (account_id : list Z) (acl : ACL.t) (is_set : bool).
#[export] Instance acl_update_eq_dec : EqDecision ACLUpdate.
Proof. solve_decision. Defined.

(** Queries on the indexed properties. *)
Inductive OQuery : Set := QIndex (text : list Z) | QKeyword (text : list Z) | QInteger (i : Z) | QLongInteger (i : Z).
Inductive OFilter (P : Type) := FEq (p : P) (q : OQuery) | FAnd (l : list (OFilter P)) | FOr (l : list (OFilter P)).
Arguments FEq {P}.
Arguments FAnd {P}.
Arguments FOr {P}.

Section Objects.
Context `{Object P V}.

Definition query_entry (q : OQuery) : entry :=
  match q with
  | QIndex t => EText t | QKeyword t => EText t | QInteger i => ENumber (NInteger i) | QLongInteger i => ENumber (NLongInteger i)
  end.
(** An object matches by its index entries. *)
Fixpoint matches (f : OFilter P) (o : TinyORM P V) : bool :=
  match f with
  | FEq p q => bool_decide (query_entry q ∈ entries p (orm_get o p))
  | FAnd l => forallb (fun f => matches f o) l
  | FOr l => existsb (fun f => matches f o) l
  end.

(** What a store that holds the objects [m] answers to a query. *)
Definition finds (r : result (list DocumentId)) (m : gmap Z (TinyORM P V)) (f : OFilter P) : Prop :=
  exists l, r = inr l /\ NoDup l /\ forall id, id ∈ l <-> exists o, m !! id = Some o /\ matches f o = true.

(** The updates of the rights in a request. *)
Fixpoint acl_update_all (to_id : list Z -> SetError P + AccountId) (o : TinyORM P V) (l : list (list Z * list ACL.t)) :
    SetError P + TinyORM P V :=
  match l with
  | [] => inr o
  | (account_id, acls) :: l => id ← to_id account_id; acl_update_all to_id (acl_update o id (bm_from_list acls)) l
  end.
Definition acl_apply (to_id : list Z -> SetError P + AccountId) (o : TinyORM P V) (u : ACLUpdate) : SetError P + TinyORM P V :=
  match u with
  | AReplace acls => acl_update_all to_id (acl_clear o) (vm_iter acls)
  | AUpdate account_id acls => id ← to_id account_id; inr (acl_update o id (bm_from_list acls))
  | ASet account_id acl is_set => id ← to_id account_id; inr (acl_set o id acl is_set)
  end.
Fixpoint acl_apply_all (to_id : list Z -> SetError P + AccountId) (o : TinyORM P V) (l : list ACLUpdate) : SetError P + TinyORM P V :=
  match l with
  | [] => inr (acl_finish o)
  | u :: l => o ← acl_apply to_id o u; acl_apply_all to_id o l
  end.
(** The errors of the object-relational layer. *)
Definition from_orm_error (e : Orm.set_error (P := P)) : SetError P :=
  match e with
  | PropertyEmpty p | PropertyTooLong p _ => with_property invalid_properties p
  | SerializeError => from_store_error StoreError.SerializeError
  end.
End Objects.

(** ** The helper *)

Record SetResponse (P Obj : Type) := mkSetResponse {
  rs_account_id : option Z; rs_old_state : JMAPState; rs_new_state : JMAPState;
  rs_created : gmap (list Z) Obj; rs_not_created : VecMap (list Z) (SetError P);
  rs_updated : VecMap Z (option Obj); rs_not_updated : VecMap Z (SetError P);
  rs_destroyed : list Z; rs_not_destroyed : VecMap Z (SetError P);
  rs_change_id : option ChangeId; rs_state_changes : option (list (TypeState * ChangeId)) }.
Arguments mkSetResponse {P Obj}.
Arguments rs_account_id {P Obj}.
Arguments rs_old_state {P Obj}.
Arguments rs_new_state {P Obj}.
Arguments rs_created {P Obj}.
Arguments rs_not_created {P Obj}.
Arguments rs_updated {P Obj}.
Arguments rs_not_updated {P Obj}.
Arguments rs_destroyed {P Obj}.
Arguments rs_not_destroyed {P Obj}.
Arguments rs_change_id {P Obj}.
Arguments rs_state_changes {P Obj}.

Record SetHelper (P Obj : Type) := mkSetHelper {
  h_changes : WriteBatch; h_document_ids : gset Z; h_account_id : AccountId; h_acl : ACLToken; h_collection : Collection.t;
  h_will_destroy : list Z; h_batch_writes : bool; h_change_id : ChangeId; h_state_changes : list (TypeState * ChangeId);
  h_response : SetResponse P Obj }.
Arguments mkSetHelper {P Obj}.
Arguments h_changes {P Obj}.
Arguments h_document_ids {P Obj}.
Arguments h_account_id {P Obj}.
Arguments h_acl {P Obj}.
Arguments h_collection {P Obj}.
Arguments h_will_destroy {P Obj}.
Arguments h_batch_writes {P Obj}.
Arguments h_change_id {P Obj}.
Arguments h_state_changes {P Obj}.
Arguments h_response {P Obj}.

(** What the helper uses of the store: the calls may change its state. *)
Class SetStore (W : Type) := {
  store_state : W -> AccountId -> Collection.t -> result JMAPState;
  store_document_ids : W -> AccountId -> Collection.t -> result (option (gset Z));
  store_assign_id : W -> AccountId -> Collection.t -> W * result DocumentId;
  store_write : W -> WriteBatch -> W * result (option WriteChanges) }.

Inductive outcome (A : Type) := Returned (a : A) | Failed (e : MethodError) | Panicked.
Arguments Returned {A}.
Arguments Failed {A}.
Arguments Panicked {A}.

Section Helper.
Context {P : Type} `{SetObject R Obj} `{SetStore W}.
Abbreviation SetHelper := (SetHelper P Obj).
Abbreviation SetResponse := (SetResponse P Obj).
Abbreviation SetError := (SetError P).

Definition h_set_changes (h : SetHelper) (changes : WriteBatch) : SetHelper :=
  mkSetHelper changes (h_document_ids h) (h_account_id h) (h_acl h) (h_collection h) (h_will_destroy h) (h_batch_writes h)
    (h_change_id h) (h_state_changes h) (h_response h).
Definition h_set_response (h : SetHelper) (r : SetResponse) : SetHelper :=
  mkSetHelper (h_changes h) (h_document_ids h) (h_account_id h) (h_acl h) (h_collection h) (h_will_destroy h) (h_batch_writes h)
    (h_change_id h) (h_state_changes h) r.
Definition h_set_ids (h : SetHelper) (ids : gset Z) (will_destroy : list Z) : SetHelper :=
  mkSetHelper (h_changes h) ids (h_account_id h) (h_acl h) (h_collection h) will_destroy (h_batch_writes h)
    (h_change_id h) (h_state_changes h) (h_response h).
Definition h_set_written (h : SetHelper) (change_id : ChangeId) (state_changes : list (TypeState * ChangeId)) : SetHelper :=
  mkSetHelper (h_changes h) (h_document_ids h) (h_account_id h) (h_acl h) (h_collection h) (h_will_destroy h) (h_batch_writes h)
    change_id state_changes (h_response h).

Definition answer_created (r : SetResponse) (create_id : list Z) (result : Obj) : SetResponse :=
  mkSetResponse (rs_account_id r) (rs_old_state r) (rs_new_state r) (<[create_id := result]> (rs_created r)) (rs_not_created r)
    (rs_updated r) (rs_not_updated r) (rs_destroyed r) (rs_not_destroyed r) (rs_change_id r) (rs_state_changes r).
Definition answer_not_created (r : SetResponse) (create_id : list Z) (err : SetError) : SetResponse :=
  mkSetResponse (rs_account_id r) (rs_old_state r) (rs_new_state r) (rs_created r) (vm_append (rs_not_created r) create_id err)
    (rs_updated r) (rs_not_updated r) (rs_destroyed r) (rs_not_destroyed r) (rs_change_id r) (rs_state_changes r).
Definition answer_updated (r : SetResponse) (id : Z) (result : option Obj) : SetResponse :=
  mkSetResponse (rs_account_id r) (rs_old_state r) (rs_new_state r) (rs_created r) (rs_not_created r)
    (vm_append (rs_updated r) id result) (rs_not_updated r) (rs_destroyed r) (rs_not_destroyed r) (rs_change_id r) (rs_state_changes r).
Definition answer_not_updated (r : SetResponse) (id : Z) (err : SetError) : SetResponse :=
  mkSetResponse (rs_account_id r) (rs_old_state r) (rs_new_state r) (rs_created r) (rs_not_created r)
    (rs_updated r) (vm_append (rs_not_updated r) id err) (rs_destroyed r) (rs_not_destroyed r) (rs_change_id r) (rs_state_changes r).
Definition answer_destroyed (r : SetResponse) (id : Z) : SetResponse :=
  mkSetResponse (rs_account_id r) (rs_old_state r) (rs_new_state r) (rs_created r) (rs_not_created r)
    (rs_updated r) (rs_not_updated r) (rs_destroyed r ++ [id]) (rs_not_destroyed r) (rs_change_id r) (rs_state_changes r).
Definition answer_not_destroyed (r : SetResponse) (id : Z) (err : SetError) : SetResponse :=
  mkSetResponse (rs_account_id r) (rs_old_state r) (rs_new_state r) (rs_created r) (rs_not_created r)
    (rs_updated r) (rs_not_updated r) (rs_destroyed r) (vm_append (rs_not_destroyed r) id err) (rs_change_id r) (rs_state_changes r).
Definition answer_written (r : SetResponse) (new_state : JMAPState) (change_id : option ChangeId)
    (state_changes : option (list (TypeState * ChangeId))) : SetResponse :=
  mkSetResponse (rs_account_id r) (rs_old_state r) new_state (rs_created r) (rs_not_created r)
    (rs_updated r) (rs_not_updated r) (rs_destroyed r) (rs_not_destroyed r) change_id state_changes.

Definition state_exact (change_id : ChangeId) : JMAPState := Exact change_id.

(** The collection is locked from here on; [acl] is the token of the request. *)
Definition helper_new (collection : Collection.t) (w : W) (acl : ACLToken) (request : SetRequest R Obj) : outcome SetHelper :=
  let account_id := id_document_id (sr_account_id request) in
  match store_state w account_id collection with
  | inl e => Failed (method_error e)
  | inr old_state =>
      if from_option (fun if_in_state => negb (bool_decide (old_state = if_in_state))) false (sr_if_in_state request) then Failed MethodError.StateMismatch
      else
        let will_destroy := match sr_destroy request with Some (RValue ids) => ids | _ => [] end in
        match store_document_ids w account_id collection with
        | inl e => Failed (method_error e)
        | inr ids =>
            Returned
              (mkSetHelper (batch_new account_id) (default ∅ ids) account_id acl collection will_destroy true U64_MAX []
                 (mkSetResponse (Some (sr_account_id request)) old_state old_state ∅ vm_new vm_new vm_new [] vm_new None None))
        end
  end.

Definition map_id_reference (h : SetHelper) (create_id : list Z) : option Z := rs_created (h_response h) !! create_id ≫= object_id.
Definition get_id_reference (h : SetHelper) (property : P) (id : list Z) : SetError + Z :=
  match map_id_reference h id with Some id => inr id | None => inl (with_property invalid_properties property) end.

(** [MaybeIdReference]: an id, or the name of an object created before. *)
Definition unwrap_id_reference (h : SetHelper) (property : P) (id : list Z + Z) : SetError + Z :=
  match id with inr id => inr id | inl create_id => get_id_reference h property create_id end.
Definition disable_write_batch (h : SetHelper) : SetHelper :=
  mkSetHelper (h_changes h) (h_document_ids h) (h_account_id h) (h_acl h) (h_collection h) (h_will_destroy h) false
    (h_change_id h) (h_state_changes h) (h_response h).

Definition note_state_change (l : list (TypeState * ChangeId)) (change_id : ChangeId) (c : Collection.t) : list (TypeState * ChangeId) :=
  match type_state c with
  | Some t =>
      match list_find (fun e => e.1 = t) l with
      | Some (i, _) => <[i := (t, change_id)]> l
      | None => l ++ [(t, change_id)]
      end
  | None => l
  end.
Definition helper_write (w : W) (h : SetHelper) : W * SetHelper * outcome unit :=
  let '(batch, rest) := batch_take (h_changes h) in
  let h := h_set_changes h rest in
  let '(w, r) := store_write w batch in
  match r with
  | inl e => (w, h, Failed (method_error e))
  | inr None => (w, h, Returned tt)
  | inr (Some changes) =>
      (w, h_set_written h (wc_change_id changes)
            (fold_left (fun l c => note_state_change l (wc_change_id changes) c) (bm_to_list (wc_collections changes)) (h_state_changes h)),
       Returned tt)
  end.

Fixpoint helper_create (create_fnc : list Z -> Obj -> W -> SetHelper -> Document -> W * SetHelper * Document * (SetError + Obj))
    (w : W) (h : SetHelper) (l : list (list Z * Obj)) : W * SetHelper * outcome unit :=
  match l with
  | [] => (w, h, Returned tt)
  | (create_id, item) :: l =>
      let '(w, r) := store_assign_id w (h_account_id h) (h_collection h) in
      match r with
      | inl e => (w, h, Failed (method_error e))
      | inr document_id =>
          let '(w, h, document, r) := create_fnc create_id item w h (document_new (h_collection h) document_id) in
          match r with
          | inl err => helper_create create_fnc w (h_set_response h (answer_not_created (h_response h) create_id err)) l
          | inr result =>
              let h := h_set_ids h (h_document_ids h ∪ {[d_document_id document]}) (h_will_destroy h) in
              match object_id result with
              | None => (w, h, Panicked)
              | Some id =>
                  let h := h_set_changes h (log_insert (insert_document (h_changes h) document) (h_collection h) id) in
                  let '(w, h, r) := if h_batch_writes h then (w, h, Returned tt) else helper_write w h in
                  match r with
                  | Returned _ => helper_create create_fnc w (h_set_response h (answer_created (h_response h) create_id result)) l
                  | _ => (w, h, r)
                  end
              end
          end
      end
  end.

Fixpoint helper_update (update_fnc : Z -> Obj -> W -> SetHelper -> Document -> W * SetHelper * Document * (SetError + option Obj))
    (w : W) (h : SetHelper) (l : list (Z * Obj)) : W * SetHelper :=
  match l with
  | [] => (w, h)
  | (id, item) :: l =>
      let document_id := id_document_id id in
      if negb (bool_decide (document_id ∈ h_document_ids h)) then
        helper_update update_fnc w (h_set_response h (answer_not_updated (h_response h) id (set_error SetErrorType.NotFound))) l
      else if bool_decide (id ∈ h_will_destroy h) then
        helper_update update_fnc w (h_set_response h (answer_not_updated (h_response h) id (set_error SetErrorType.WillDestroy))) l
      else
        let '(w, h, document, r) := update_fnc id item w h (document_new (h_collection h) document_id) in
        match r with
        | inl err => helper_update update_fnc w (h_set_response h (answer_not_updated (h_response h) id err)) l
        | inr result =>
            let h :=
              if negb (document_is_empty document) then
                h_set_changes h (log_update (update_document (h_changes h) document) (h_collection h) id)
              else h in
            helper_update update_fnc w (h_set_response h (answer_updated (h_response h) id result)) l
        end
  end.

Fixpoint helper_destroy_loop (destroy_fnc : Z -> W -> SetHelper -> Document -> W * SetHelper * Document * (SetError + unit))
    (w : W) (h : SetHelper) (l : list Z) : W * SetHelper :=
  match l with
  | [] => (w, h)
  | id :: l =>
      let document_id := id_document_id id in
      if bool_decide (document_id ∈ h_document_ids h) then
        let '(w, h, document, r) := destroy_fnc id w h (document_new (h_collection h) document_id) in
        match r with
        | inr _ =>
            let h := h_set_changes h (log_delete (delete_document (h_changes h) document) (h_collection h) id) in
            helper_destroy_loop destroy_fnc w (h_set_response h (answer_destroyed (h_response h) id)) l
        | inl err => helper_destroy_loop destroy_fnc w (h_set_response h (answer_not_destroyed (h_response h) id err)) l
        end
      else
        helper_destroy_loop destroy_fnc w (h_set_response h (answer_not_destroyed (h_response h) id (set_error SetErrorType.NotFound))) l
  end.
Definition helper_destroy destroy_fnc (w : W) (h : SetHelper) : W * SetHelper :=
  helper_destroy_loop destroy_fnc w (h_set_ids h (h_document_ids h) []) (h_will_destroy h).

Definition commit_changes (w : W) (h : SetHelper) : W * SetHelper * outcome unit :=
  if negb (batch_is_empty (h_changes h)) then
    let '(w, h, r) := helper_write w h in
    match r with Returned _ => (w, h_set_changes h (batch_new (h_account_id h)), r) | _ => (w, h, r) end
  else (w, h, Returned tt).

Definition into_response (w : W) (h : SetHelper) : W * outcome SetResponse :=
  let '(w, h, r) := if batch_is_empty (h_changes h) then (w, h, Returned tt) else helper_write w h in
  match r with
  | Returned _ =>
      let r := h_response h in
      (w, Returned
            (if h_change_id h =? U64_MAX then r
             else answer_written r (state_exact (h_change_id h)) (Some (h_change_id h))
                    (match h_state_changes h with [] => rs_state_changes r | l => Some l end)))
  | Failed e => (w, Failed e)
  | Panicked => (w, Panicked)
  end.

(** Changes to answers that were given before; [set_property] and
    [object_default] are those of the type of objects. *)
Definition set_created_property (set_property : Obj -> Obj) (h : SetHelper) (create_id : list Z) : SetHelper :=
  let r := h_response h in
  h_set_response h
    (mkSetResponse (rs_account_id r) (rs_old_state r) (rs_new_state r) (alter set_property create_id (rs_created r)) (rs_not_created r)
       (rs_updated r) (rs_not_updated r) (rs_destroyed r) (rs_not_destroyed r) (rs_change_id r) (rs_state_changes r)).
Definition set_updated_property (object_default : Obj) (set_property : Obj -> Obj) (h : SetHelper) (set_id : Z) : SetHelper :=
  let r := h_response h in
  let updated :=
    match vm_get (rs_updated r) set_id with
    | Some response => (vm_set (rs_updated r) set_id (Some (set_property (default object_default response)))).1
    | None => (vm_set (rs_updated r) set_id (Some (set_property object_default))).1
    end in
  h_set_response h
    (mkSetResponse (rs_account_id r) (rs_old_state r) (rs_new_state r) (rs_created r) (rs_not_created r)
       updated (rs_not_updated r) (rs_destroyed r) (rs_not_destroyed r) (rs_change_id r) (rs_state_changes r)).

(** The course of a [/set] method: the three loops with the functions of the
    type, then the write. *)
Definition run_set create_fnc update_fnc destroy_fnc (w : W) (h : SetHelper) (request : SetRequest R Obj) : W * outcome SetResponse :=
  let '(w, h, r) := helper_create create_fnc w h (from_option vm_iter [] (sr_create request)) in
  match r with
  | Returned _ =>
      let '(w, h) := helper_update update_fnc w h (from_option vm_iter [] (sr_update request)) in
      let '(w, h) := helper_destroy destroy_fnc w h in
      into_response w h
  | Failed e => (w, Failed e)
  | Panicked => (w, Panicked)
  end.
End Helper.

(** ** The order of the objects to create *)

Section Sorting.
Context {Obj : Type}.
Abbreviation Graph := (gmap (list Z) (list (list Z))).
Abbreviation sorting := (@sorting Obj).

Definition refs (graph : Graph) (x : list Z) : list (list Z) := default [] (graph !! x).

(** Every object comes after the objects among [ks] that it refers to. *)
Definition parents_first (graph : Graph) (ks l : list (list Z)) : Prop :=
  forall l1 x l2 p, l = l1 ++ x :: l2 -> p ∈ refs graph x -> p ∈ ks -> p ∈ l1.

Lemma parents_first_snoc graph ks l x :
  parents_first graph ks l -> (forall p, p ∈ refs graph x -> p ∈ ks -> p ∈ l) -> parents_first graph ks (l ++ [x]).
Proof.
  intros Hl Hx l1 y l2 p Heq Hp Hk. destruct l2 as [|z l2 _] using rev_ind.
  - apply app_inj_tail in Heq as [-> ->]. auto.
  - rewrite app_comm_cons, app_assoc in Heq. apply app_inj_tail in Heq as [Heq _]. by eapply Hl.
Qed.

(** The two maps hold the objects of [m0], in the right order as far as they
    have been moved. *)
Record split_of (graph : Graph) (m0 : VecMap (list Z) Obj) (st : sorting) : Prop := {
  sp_objects : vm_inv (so_objects st);
  sp_create : vm_inv (so_create st);
  sp_get k : vm_get m0 k = match vm_get (so_create st) k with Some v => Some v | None => vm_get (so_objects st) k end;
  sp_disjoint k : k ∈ vm_k (so_create st) -> k ∉ vm_k (so_objects st);
  sp_order : parents_first graph (vm_k m0) (vm_k (so_create st)) }.

(** An object that has its place, or is no object of the request. *)
Definition settled (m0 : VecMap (list Z) Obj) (st : sorting) (p : list Z) : Prop := p ∈ vm_k m0 -> p ∈ vm_k (so_create st).

Lemma settled_gone graph m0 st p : vm_inv m0 -> split_of graph m0 st -> p ∉ vm_k (so_objects st) -> settled m0 st p.
Proof.
  intros Hm [Ho Hc Hg _ _] Hp Hk. apply vm_key_get in Hk as [v Hv]; [|done]. rewrite Hg in Hv. apply vm_key_get; [done|].
  destruct (vm_get (so_create st) p) eqn:E; [by eauto|]. apply vm_get_None in Hp; [|done]. congruence.
Qed.

Lemma take_object_split graph m0 st x :
  vm_inv m0 -> split_of graph m0 st -> (forall p, p ∈ refs graph x -> settled m0 st p) ->
  split_of graph m0 (take_object st x) /\ settled m0 (take_object st x) x /\
  forall p, settled m0 st p -> settled m0 (take_object st x) p.
Proof.
  intros Hm Hst Hx. unfold take_object. destruct (vm_get (so_objects st) x) as [v|] eqn:Hv; cycle 1.
  { apply vm_get_None in Hv; [|apply Hst]. unfold vm_remove_entry. apply position_None in Hv as Hn. rewrite Hn. cbn.
    split_and!; [done| |done]. by eapply settled_gone. }
  destruct (vm_remove_entry_get _ _ _ (sp_objects _ _ _ Hst) Hv) as (m' & -> & Hm' & Hg').
  destruct Hst as [Ho Hc Hg Hd Hord].
  assert (x ∉ vm_k (so_create st)) as Hnew. { intros Hin%Hd. apply Hin, vm_key_get; [done|by eauto]. }
  split_and!; cbn.
  - split; cbn [so_objects so_create]; [done|by apply vm_append_inv| | |].
    + intros k. rewrite vm_append_get, Hg, Hg' by done. destruct (decide (x = k)) as [<-|]; [|done].
      apply vm_get_None in Hnew; [|done]. by rewrite Hnew.
    + intros k [Hk| ->%list_elem_of_singleton]%elem_of_app; rewrite <- vm_get_None, Hg' by done; destruct (decide _); try done.
      by apply vm_get_None, Hd.
    + cbn. apply parents_first_snoc; [done|]. intros p Hp Hk. by apply Hx.
  - intros _. cbn. apply elem_of_app. right. by apply list_elem_of_singleton.
  - intros p Hp Hk. cbn. apply elem_of_app. by left; apply Hp.
Qed.

(** The references of the objects on the stack are settled or still to come. *)
Fixpoint frames (graph : Graph) (m0 : VecMap (list Z) Obj) (keys : list (list Z)) (st : sorting)
    (it_stack : list (list (list Z) * list Z)) (it : list (list Z)) : Prop :=
  match it_stack with
  | [] => forall k, k ∈ keys -> settled m0 st k \/ k ∈ it
  | (prev_it, from_id) :: it_stack =>
      (forall p, p ∈ refs graph from_id -> settled m0 st p \/ p ∈ it) /\
      ((forall p, p ∈ it -> p ∈ refs graph from_id) /\ is_Some (graph !! from_id)) /\
      frames graph m0 keys st it_stack (from_id :: prev_it)
  end.

Lemma frames_mono graph m0 keys st st' it_stack it :
  (forall p, settled m0 st p -> settled m0 st' p) -> frames graph m0 keys st it_stack it -> frames graph m0 keys st' it_stack it.
Proof.
  intros Hm. revert it. induction it_stack as [|[prev_it from_id] it_stack IH]; cbn; intros it.
  - intros Hk k Hin. destruct (Hk k Hin); auto.
  - intros (H1 & H2 & H3). split; [|split; [done|by apply IH]]. intros p Hp. destruct (H1 p Hp); auto.
Qed.

Lemma frames_next graph m0 keys st st' it_stack x it :
  (forall p, settled m0 st p -> settled m0 st' p) -> settled m0 st' x ->
  frames graph m0 keys st it_stack (x :: it) -> frames graph m0 keys st' it_stack it.
Proof.
  intros Hm Hx. assert (forall p, settled m0 st p \/ p ∈ x :: it -> settled m0 st' p \/ p ∈ it) as Hor.
  { intros p [?|[->|?]%elem_of_cons]; auto. }
  destruct it_stack as [|[prev_it from_id] it_stack]; cbn; [intros H k Hk; by apply Hor, H|].
  intros (H1 & H2 & H3). split_and!; [intros p Hp; by apply Hor, H1|..].
  - intros p Hp. by apply H2, elem_of_cons; right.
  - apply H2.
  - by eapply frames_mono.
Qed.

(** A list of objects each of which refers to the one before. *)
Fixpoint chain (graph : Graph) (l : list (list Z)) : Prop :=
  match l with
  | x :: (y :: _) as l => x ∈ refs graph y /\ chain graph l
  | _ => True
  end.
Lemma frames_chain graph m0 keys st it_stack x it :
  frames graph m0 keys st it_stack (x :: it) -> is_Some (graph !! x) ->
  chain graph (x :: map snd it_stack) /\ Forall (fun x => is_Some (graph !! x)) (x :: map snd it_stack).
Proof.
  revert x it. induction it_stack as [|[prev_it from_id] it_stack IH]; intros x it; [by repeat constructor|].
  intros (_ & [H2 H2'] & H3) Hx. destruct (IH _ _ H3 H2') as [Hc Hs]. split; [|by constructor]. split; [|done].
  apply H2, elem_of_cons. by left.
Qed.

(** What a run of the loop returns: the objects in order, or a chain of
    references longer than the stack. *)
Definition sorted (graph : Graph) (m0 : VecMap (list Z) Obj) (keys : list (list Z)) (r : MethodError + sorting) : Prop :=
  match r with
  | inl e => e = MethodError.InvalidArguments /\ exists l, length l = 1001%nat /\ chain graph l /\ Forall (fun x => is_Some (graph !! x)) l
  | inr st => split_of graph m0 st /\ forall k, k ∈ keys -> settled m0 st k
  end.

Definition sorts (fuel : nat) (graph : Graph) (m0 : VecMap (list Z) Obj) (keys : list (list Z)) : Prop :=
  forall st it_stack it r, split_of graph m0 st -> frames graph m0 keys st it_stack it -> (length it_stack <= 1000)%nat ->
    sort_loop fuel graph st it_stack it = Some r -> sorted graph m0 keys r.

Lemma sort_move fuel graph m0 keys st x it_stack it r :
  vm_inv m0 -> sorts fuel graph m0 keys -> split_of graph m0 st -> (forall p, p ∈ refs graph x -> settled m0 st p) ->
  frames graph m0 keys st it_stack (x :: it) -> (length it_stack <= 1000)%nat ->
  (if pending st x then
     if no_objects (take_object st x) then Some (inr (take_object st x)) else sort_loop fuel graph (take_object st x) it_stack it
   else sort_loop fuel graph st it_stack it) = Some r -> sorted graph m0 keys r.
Proof.
  intros Hm IH Hst Hx Hf Hl. destruct (take_object_split graph m0 st x) as (Hst' & Hsx & Hmono); [done..|].
  destruct (pending st x) eqn:Et.
  - destruct (no_objects (take_object st x)) eqn:En.
    + intros [= <-]. split; [done|]. intros k _. eapply settled_gone; [done..|]. apply Nat.eqb_eq, nil_length_inv in En.
      rewrite En. apply not_elem_of_nil.
    + apply IH; [done| |done]. by eapply frames_next.
  - apply IH; [done| |done]. eapply frames_next; [by intros p|..|done]. eapply settled_gone; [done..|].
    by apply bool_decide_eq_false in Et.
Qed.

Lemma sort_loop_result fuel graph m0 keys : vm_inv m0 -> sorts fuel graph m0 keys.
Proof.
  intros Hm. induction fuel as [|fuel IH]; [done|]. intros st it_stack it r Hst Hf Hl. cbn [sort_loop].
  destruct it as [|x it].
  - destruct it_stack as [|[prev_it from_id] it_stack].
    + intros [= <-]. split; [done|]. intros k Hk. destruct (Hf k Hk) as [?|Hn]; [done|]. by apply elem_of_nil in Hn.
    + destruct Hf as (H1 & _ & H3). apply sort_move; [done..| |done|cbn in Hl; lia].
      intros p Hp. destruct (H1 p Hp) as [?|Hn]; [done|]. by apply elem_of_nil in Hn.
  - destruct (graph !! x) as [to_ids|] eqn:Ex.
    + cbn [length]. destruct (1000 <? S (length it_stack))%nat eqn:Elen.
      * intros [= <-]. split; [done|]. exists (x :: map snd it_stack). split; [|eapply frames_chain; [done|by rewrite Ex]].
        apply Nat.ltb_lt in Elen. cbn. rewrite length_map. lia.
      * apply IH; [done| |apply Nat.ltb_ge in Elen; cbn; lia]. cbn. unfold refs. rewrite Ex. cbn. split_and!; eauto.
    + apply sort_move; [done..| |done|done]. unfold refs. rewrite Ex. intros p Hp. by apply elem_of_nil in Hp.
Qed.

(** The loop ends: it returns, or comes to the end of the iterator with the
    stack as it was. *)
Definition drains (graph : Graph) (st : sorting) it_stack it it_stack' : Prop :=
  exists k, (exists r, forall fuel, sort_loop (k + fuel) graph st it_stack it = Some r) \/
    (exists st', forall fuel, sort_loop (k + fuel) graph st it_stack it = sort_loop fuel graph st' it_stack' []).

Lemma drains_step graph st it_stack it it_stack' st1 it_stack1 it1 :
  (forall fuel, sort_loop (S fuel) graph st it_stack it = sort_loop fuel graph st1 it_stack1 it1) ->
  drains graph st1 it_stack1 it1 it_stack' -> drains graph st it_stack it it_stack'.
Proof.
  intros Hs (k & [[r Hr]|[st' Hr]]); exists (S k); [left; exists r|right; exists st']; intros fuel; cbn [Nat.add]; by rewrite Hs.
Qed.

Lemma drains_returns graph st it_stack it it_stack' r :
  (forall fuel, sort_loop (S fuel) graph st it_stack it = Some r) -> drains graph st it_stack it it_stack'.
Proof. intros Hs. exists 1%nat. left. by exists r. Qed.

Lemma drains_move graph st it_stack it it_stack' x it_stack1 it1 :
  (forall fuel, sort_loop (S fuel) graph st it_stack it =
    (if pending st x then
       if no_objects (take_object st x) then Some (inr (take_object st x)) else sort_loop fuel graph (take_object st x) it_stack1 it1
     else sort_loop fuel graph st it_stack1 it1)) ->
  (forall st, drains graph st it_stack1 it1 it_stack') -> drains graph st it_stack it it_stack'.
Proof.
  intros Hs Hd. destruct (pending st x); [destruct (no_objects _)|].
  - by eapply drains_returns.
  - by eapply drains_step.
  - by eapply drains_step.
Qed.

Lemma sort_loop_drains graph d (st : sorting) it_stack it :
  (length it_stack + d = 1000)%nat -> drains graph st it_stack it it_stack.
Proof.
  revert st it_stack it. induction d as [d IHd] using lt_wf_ind; intros st it_stack it Hd. revert st.
  induction it as [|x it IHit]; intros st; [by exists 0%nat; right; exists st|].
  destruct (graph !! x) as [to_ids|] eqn:Ex; [|eapply drains_move; [|done]; intros fuel; cbn [sort_loop]; by rewrite Ex].
  destruct (decide (d = 0)%nat) as [->|].
  { eapply drains_returns. intros fuel. cbn [sort_loop]. rewrite Ex. cbn [length]. by rewrite (proj2 (Nat.ltb_lt _ _)) by lia. }
  assert (forall fuel, sort_loop (S fuel) graph st it_stack (x :: it) = sort_loop fuel graph st ((it, x) :: it_stack) to_ids) as Hpush.
  { intros fuel. cbn [sort_loop]. rewrite Ex. cbn [length]. by rewrite (proj2 (Nat.ltb_ge _ _)) by lia. }
  destruct (IHd (d - 1)%nat ltac:(lia) st ((it, x) :: it_stack) to_ids) as (k & [[r Hr]|[st' Hr]]); [cbn; lia|..].
  - exists (S k). left. exists r. intros fuel. cbn [Nat.add]. by rewrite Hpush.
  - assert (drains graph st' ((it, x) :: it_stack) [] it_stack) as (k' & Hk').
    { eapply drains_move; [by intros fuel|done]. }
    exists (S (k + k')). destruct Hk' as [[r Hk']|[st'' Hk']]; [left; exists r|right; exists st''];
      intros fuel; cbn [Nat.add]; by rewrite Hpush, <- Nat.add_assoc, Hr, Hk'.
Qed.

Lemma sort_loop_ends graph (st : sorting) it : exists k r, forall fuel, (k <= fuel)%nat -> sort_loop fuel graph st [] it = Some r.
Proof.
  destruct (sort_loop_drains graph 1000 st [] it eq_refl) as (k & [[r Hr]|[st' Hr]]).
  - exists k, r. intros fuel Hle. by rewrite <- (Nat.sub_add k fuel Hle), Nat.add_comm, Hr.
  - exists (S k), (inr st'). intros fuel Hle. replace fuel with (k + S (fuel - S k))%nat by lia. by rewrite Hr.
Qed.
End Sorting.

Section Resolving.
Context `{SetObjectLaws R Obj}.
Variables (fnc : R -> option (list Z)) (created_ids : gmap (list Z) Z).
Abbreviation Graph := (gmap (list Z) (list (list Z))).

(** The references of an object that no earlier method has created, and the
    object with the others replaced. *)
Definition open_references (o : Obj) : list (list Z) :=
  filter (fun r => created_ids !! r = None) (id_references (eval_result_references fnc o)).
Definition resolved (o : Obj) : Obj := (eval_id_references (fun u r => (u, created_ids !! r)) tt (eval_result_references fnc o)).2.

(** The object [x] of the request refers to [p]. *)
Definition refers (objects : VecMap (list Z) Obj) (x p : list Z) : Prop :=
  exists o, vm_get objects x = Some o /\ p ∈ open_references o.

Lemma note_references (l : list (list Z)) (c : list Z) (graph : Graph) (k : list Z) :
  let graph' := fold_left (fun g r => (note_reference created_ids c g r).1) l graph in
  graph' !! k =
    if decide (k = c /\ filter (fun r => created_ids !! r = None) l <> []) then
      Some (refs graph c ++ filter (fun r => created_ids !! r = None) l)
    else graph !! k.
Proof.
  cbn zeta. revert graph. induction l as [|r l IH]; intros graph; cbn [fold_left].
  { rewrite filter_nil. destruct (decide _) as [[_ ?]|]; done. }
  rewrite IH. unfold note_reference, refs. rewrite filter_cons.
  destruct (created_ids !! r) as [id|] eqn:Er; cbn [fst].
  { destruct (decide (Some id = None)); [done|]. done. }
  destruct (decide (@None Z = None)) as [_|]; [|done]. rewrite lookup_insert_eq. cbn [default from_option id].
  destruct (decide (k = c)) as [->|].
  - rewrite lookup_insert_eq. destruct (decide (c = c /\ r :: _ <> [])) as [_|Hn]; [|by destruct Hn].
    destruct (decide _) as [_|Hn]; [by rewrite <- app_assoc|].
    assert (filter (fun r => created_ids !! r = None) l = []) as ->; [|done].
    destruct (filter _ l); [done|]. by destruct Hn.
  - rewrite lookup_insert_ne by done. destruct (decide _) as [[]|], (decide _) as [[]|]; done.
Qed.

(** The graph has the open references of the objects. *)
Lemma resolve_objects_fold (l : list (list Z * Obj)) (graph : Graph) values :
  NoDup l.*1 -> (forall k, k ∈ l.*1 -> graph !! k = None) ->
  let '(graph', values') := fold_left (resolve_object fnc created_ids) l (graph, values) in
  values' = values ++ map (fun kv => resolved kv.2) l /\
  (forall k, k ∉ l.*1 -> graph' !! k = graph !! k) /\
  (forall k o, (k, o) ∈ l -> refs graph' k = open_references o /\ graph' !! k <> Some []).
Proof.
  revert graph values. induction l as [|[c o] l IH]; intros graph values Hnd Hfree.
  { cbn. rewrite app_nil_r. split_and!; [done..|]. intros k o Hin. by apply elem_of_nil in Hin. }
  cbn [fold_left fmap list_fmap fst] in *. apply NoDup_cons in Hnd as [Hc Hnd]. unfold resolve_object at 2. cbn [fst snd].
  pose proof (eval_id_references_calls (note_reference created_ids c) graph (eval_result_references fnc o)) as Hg.
  pose proof (eval_id_references_answers (note_reference created_ids c) (fun r => created_ids !! r) graph (eval_result_references fnc o)) as Ho.
  destruct (eval_id_references (note_reference created_ids c) graph (eval_result_references fnc o)) as [graph1 o1]. cbn [fst snd] in *.
  rewrite Ho by (intros s r; unfold note_reference; by destruct (created_ids !! r)).
  assert (forall k, graph1 !! k = if decide (k = c /\ open_references o <> []) then Some (open_references o) else graph !! k) as Hg1.
  { intros k. rewrite Hg, note_references. unfold refs. rewrite (Hfree c) by (apply elem_of_cons; by left). done. }
  specialize (IH graph1 (values ++ [resolved o]) Hnd). destruct (fold_left _ l _) as [graph' values'].
  destruct IH as (-> & IH1 & IH2).
  { intros k Hk. rewrite Hg1. destruct (decide _) as [[-> _]|]; [done|]. apply Hfree, elem_of_cons. by right. }
  rewrite <- app_assoc. split_and!; [done|..].
  - intros k [Hk Hl]%not_elem_of_cons. rewrite IH1, Hg1 by done. destruct (decide _) as [[-> _]|]; done.
  - intros k o' [[= -> ->]|Hin]%elem_of_cons; [|by apply IH2]. unfold refs. rewrite IH1, Hg1 by done.
    destruct (decide _) as [[_ Hne]|Hn]; [by split; [|intros [=]]|].
    rewrite (Hfree c) by (apply elem_of_cons; by left). split; [|done]. destruct (open_references o); [done|]. by destruct Hn.
Qed.

Lemma resolve_objects_graph (objects : VecMap (list Z) Obj) :
  vm_inv objects ->
  let '(graph, objects') := resolve_objects fnc created_ids objects in
  vm_inv objects' /\ vm_k objects' = vm_k objects /\ (forall k, vm_get objects' k = resolved <$> vm_get objects k) /\
  (forall x p, p ∈ refs graph x <-> refers objects x p) /\ (forall x, is_Some (graph !! x) <-> exists p, refers objects x p).
Proof.
  intros Hm. unfold resolve_objects.
  pose proof (resolve_objects_fold (vm_iter objects) ∅ []) as Hf. rewrite (vm_iter_keys objects (vm_inv_length _ Hm)) in Hf.
  destruct (fold_left _ _ _) as [graph values]. destruct Hf as (-> & Hout & Hin); [apply Hm|by intros; rewrite lookup_empty|].
  cbn [app]. pose proof (vm_map_get objects resolved Hm) as [Hinv Hget].
  assert (map (fun kv => resolved kv.2) (vm_iter objects) = map resolved (vm_v objects)) as ->.
  { rewrite <- (vm_iter_values objects Hm). symmetry. apply map_map. }
  assert (forall x p, p ∈ refs graph x <-> refers objects x p) as Hrefs.
  { intros x p. unfold refers. destruct (vm_get objects x) as [o|] eqn:Ex.
    - destruct (Hin x o) as [-> _]; [by apply vm_iter_elem|]. split; [by eauto|]. by intros (? & [= <-] & ?).
    - unfold refs. rewrite Hout, lookup_empty by (by apply vm_get_None). split; [by intros ?%elem_of_nil|]. by intros (? & [=] & _). }
  split_and!; [done..|]. intros x. setoid_rewrite <- Hrefs. unfold refs. split.
  - intros [l Hl]. rewrite Hl. cbn. destruct l as [|p l]; [|exists p; by apply elem_of_cons; left].
    destruct (vm_get objects x) as [o|] eqn:Ex; [by destruct (Hin x o) as [_ []]; [apply vm_iter_elem|]|].
    rewrite Hout, lookup_empty in Hl by (by apply vm_get_None). done.
  - intros [p Hp]. destruct (graph !! x); [by eexists|]. by apply elem_of_nil in Hp.
Qed.

(** A chain of references as an index into the list. *)
Lemma chain_refers (graph : Graph) (objects : VecMap (list Z) Obj) l :
  (forall x p, p ∈ refs graph x <-> refers objects x p) -> chain graph l ->
  forall i x y, l !! i = Some x -> l !! S i = Some y -> refers objects y x.
Proof.
  intros Hr. induction l as [|a l IH]; [done|]. intros Hc i x y Hx Hy. destruct l as [|b l]; [by destruct i|].
  destruct Hc as [Hab Hc]. destruct i as [|i]; [|by eapply IH]. injection Hx as ->. injection Hy as ->. by apply Hr.
Qed.

(** The objects that are left refer to nothing, so they can come last. *)
Lemma append_rest (graph : Graph) (m0 : VecMap (list Z) Obj) (l : list (list Z * Obj)) create :
  vm_inv create -> NoDup l.*1 -> (forall k, k ∈ l.*1 -> k ∉ vm_k create) -> (forall k, k ∈ l.*1 -> graph !! k = None) ->
  parents_first graph (vm_k m0) (vm_k create) ->
  let create' := fold_left (fun m kv => vm_append m kv.1 kv.2) l create in
  vm_inv create' /\ vm_k create' = vm_k create ++ l.*1 /\ parents_first graph (vm_k m0) (vm_k create') /\
  forall k, vm_get create' k = match vm_get create k with Some v => Some v | None => vm_get (mkVecMap l.*1 l.*2) k end.
Proof.
  cbn zeta. revert create. induction l as [|[c o] l IH]; intros create Hc Hnd Hdisj Hfree Hpf.
  { cbn. rewrite app_nil_r. split_and!; [done..|]. intros k. by destruct (vm_get create k). }
  cbn [fold_left fmap list_fmap fst snd] in *. apply NoDup_cons in Hnd as [Hnc Hnd].
  assert (c ∉ vm_k create) as Hcc by (apply Hdisj, elem_of_cons; by left).
  destruct (IH (vm_append create c o)) as (I1 & I2 & I3 & I4); [by apply vm_append_inv|done|..].
  - intros k Hk. cbn. rewrite elem_of_app, list_elem_of_singleton. intros [Hin| ->]; [|done].
    by apply (Hdisj k); [apply elem_of_cons; right|].
  - intros k Hk. apply Hfree, elem_of_cons. by right.
  - cbn. apply parents_first_snoc; [done|]. unfold refs. rewrite (Hfree c) by (apply elem_of_cons; by left).
    intros p Hp. by apply elem_of_nil in Hp.
  - split_and!; [done|by rewrite I2; cbn; rewrite <- app_assoc|done|]. intros k. rewrite I4, vm_append_get by done.
    assert (forall k, vm_get (mkVecMap (c :: l.*1) (o :: l.*2)) k = if decide (c = k) then Some o else vm_get (mkVecMap l.*1 l.*2) k) as ->.
    { intros k'. unfold vm_get, position. cbn. destruct (decide (k' = c)) as [->|Hne]; [by rewrite decide_True|].
      rewrite decide_False by congruence. destruct (list_find _ _) as [[i x]|]; done. }
    destruct (decide (c = k)) as [<-|]; [|done]. apply vm_get_None in Hcc; [|done]. by rewrite Hcc.
Qed.

Lemma split_of_start (graph : Graph) (m0 : VecMap (list Z) Obj) : vm_inv m0 -> split_of graph m0 (mkSorting m0 vm_new).
Proof.
  intros Hm. split; cbn; [done|apply vm_new_inv|done|by intros k ?%elem_of_nil|]. intros l1 x l2 p Heq. by destruct l1.
Qed.

Lemma rest_appended (graph : Graph) (m0 : VecMap (list Z) Obj) (keys : list (list Z)) (st : sorting) :
  vm_inv m0 -> split_of graph m0 st -> (forall k, k ∈ keys -> settled m0 st k) -> (forall k, k ∉ keys -> graph !! k = None) ->
  let create := fold_left (fun m kv => vm_append m kv.1 kv.2) (vm_iter (so_objects st)) (so_create st) in
  vm_inv create /\ (forall k, vm_get create k = vm_get m0 k) /\ parents_first graph (vm_k m0) (vm_k create).
Proof.
  intros Hm [Ho Hc Hg Hd Hord] Hkeys Hg0. pose proof (vm_iter_keys _ (vm_inv_length _ Ho)) as Hk.
  destruct (append_rest graph m0 (vm_iter (so_objects st)) (so_create st)) as (R1 & R2 & R3 & R4); rewrite ?Hk.
  - done.
  - apply Ho.
  - intros k Hin Hin'. by apply (Hd k).
  - intros k Hin. apply Hg0. intros Hkey. apply (Hd k); [|done]. apply Hkeys; [done|]. apply vm_key_get; [done|].
    apply vm_key_get in Hin as [v Hv]; [|done]. rewrite Hg, Hv. destruct (vm_get (so_create st) k); by eauto.
  - done.
  - split_and!; [done| |done]. intros k. rewrite R4, Hk, vm_iter_values, Hg by done. by destruct (so_objects st).
Qed.

Definition long_chain (graph : Graph) : Prop :=
  exists l, length l = 1001%nat /\ chain graph l /\ Forall (fun x => is_Some (graph !! x)) l.

Lemma sort_creates_result (keys : Graph -> list (list Z)) (graph : Graph) (objects : VecMap (list Z) Obj) :
  vm_inv objects -> (forall k, k ∈ keys graph <-> is_Some (graph !! k)) ->
  exists n, forall fuel, (n <= fuel)%nat ->
  exists r, sort_creates fuel keys graph objects = Some r /\
    match r with
    | inl e => e = MethodError.InvalidArguments /\ long_chain graph
    | inr create => vm_inv create /\ (forall k, vm_get create k = vm_get objects k) /\ parents_first graph (vm_k objects) (vm_k create)
    end.
Proof.
  intros Hm Hkeys. pose proof (split_of_start graph objects Hm) as Hs.
  assert (forall k, k ∉ keys graph -> graph !! k = None) as Hnone.
  { intros k Hk. rewrite Hkeys in Hk. by apply eq_None_not_Some. }
  unfold sort_creates. destruct (sort_loop_ends graph (mkSorting objects vm_new) (keys graph)) as (n & r & Hr).
  exists n. intros fuel Hle. case_bool_decide as Eg.
  - eexists. split; [done|]. refine (rest_appended graph objects (keys graph) _ Hm Hs _ Hnone).
    intros k [l Hk]%Hkeys. by rewrite Eg, lookup_empty in Hk.
  - rewrite (Hr fuel Hle). cbn. eexists. split; [done|].
    pose proof (sort_loop_result fuel graph objects (keys graph) Hm (mkSorting objects vm_new) [] (keys graph) r Hs) as Hres.
    specialize (Hres ltac:(by right) ltac:(cbn; lia) (Hr fuel Hle)). destruct r as [e|st]; cbn; [done|].
    destruct Hres as [Hsp Hset]. exact (rest_appended graph objects (keys graph) _ Hm Hsp Hset Hnone).
Qed.
End Resolving.

(** ** The log of a batch *)

Definition log_of (b : WriteBatch) (c : Collection.t) : Batch.Change := default change_default (vm_get (wb_changes b) c).

Lemma log_change_log f b c c' :
  vm_inv (wb_changes b) ->
  vm_inv (wb_changes (log_change f b c)) /\ log_of (log_change f b c) c' = if decide (c = c') then f (log_of b c) else log_of b c'.
Proof.
  intros Hm. unfold log_change, log_of, vm_get_mut_or_insert. destruct (position c (vm_k (wb_changes b))) as [pos|] eqn:Ep; cbn [wb_changes].
  - split; [destruct Hm; split; cbn; [by rewrite length_alter|done]|]. pose proof (proj1 (position_Some _ _ _ (vm_inv_nodup _ Hm)) Ep) as Hpos.
    unfold vm_get. cbn [vm_k vm_v]. destruct (decide (c = c')) as [<-|Hne].
    + rewrite Ep. cbn. rewrite list_lookup_alter_eq. pose proof (lookup_lt_Some _ _ _ Hpos) as Hlt. rewrite (vm_inv_length _ Hm) in Hlt.
      apply lookup_lt_is_Some_2 in Hlt as [x ->]. done.
    + destruct (position c' (vm_k (wb_changes b))) as [pos'|] eqn:Ep'; [|done]. cbn.
      rewrite list_lookup_alter_ne; [done|]. intros <-. apply position_Some in Ep'; [congruence|apply Hm].
  - apply position_None in Ep. assert (forall g : Batch.Change, mkVecMap (vm_k (vm_append (wb_changes b) c change_default))
      (alter f (length (vm_v (wb_changes b))) (vm_v (vm_append (wb_changes b) c change_default))) =
      vm_append (wb_changes b) c (f change_default)) as Hap.
    { intros _. unfold vm_append. cbn. f_equal. rewrite <- (Nat.add_0_r (length _)), alter_app_r. done. }
    rewrite Hap by exact change_default. split; [by apply vm_append_inv|]. rewrite vm_append_get by done.
    apply vm_get_None in Ep; [|done]. rewrite Ep. by destruct (decide (c = c')).
Qed.

(** A batch that has grown: no document is lost, and the log of a collection
    [c] gained at most updates of the ids [extra]. *)
Record grows (extra : Z -> Prop) (c : Collection.t) (b b' : WriteBatch) : Prop := {
  gr_inv : vm_inv (wb_changes b) -> vm_inv (wb_changes b');
  gr_documents a : a ∈ wb_documents b -> a ∈ wb_documents b';
  gr_log id : vm_inv (wb_changes b) ->
    (id ∈ Batch.inserts (log_of b' c) <-> id ∈ Batch.inserts (log_of b c)) /\
    (id ∈ Batch.deletes (log_of b' c) <-> id ∈ Batch.deletes (log_of b c)) /\
    (id ∈ Batch.updates (log_of b c) -> id ∈ Batch.updates (log_of b' c)) /\
    (id ∈ Batch.updates (log_of b' c) -> id ∈ Batch.updates (log_of b c) \/ extra id) }.
Definition nothing (_ : Z) : Prop := False.
Definition anything (_ : Z) : Prop := True.
#[export] Instance grows_preorder extra c : PreOrder (grows extra c).
Proof.
  split; [intros b; split; [done..|]; intros id _; split_and!; auto|]. intros b1 b2 b3 [I1 D1 L1] [I2 D2 L2]. split; [by auto|by auto|]. intros id Hb.
  destruct (L1 id Hb) as (E1 & E2 & E3 & E4), (L2 id (I1 Hb)) as (F1 & F2 & F3 & F4). rewrite F1, F2. split_and!; [done|done|by auto|].
  intros [?|?]%F4; auto.
Qed.
Lemma grows_mono (extra extra' : Z -> Prop) c b b' : (forall id, extra id -> extra' id) -> grows extra c b b' -> grows extra' c b b'.
Proof. intros He [I D L]. split; [done..|]. intros id Hb. destruct (L id Hb) as (? & ? & ? & E4). split_and!; [done..|]. intros [?|?]%E4; auto. Qed.
Lemma elem_of_hash_insert l x id : id ∈ hash_insert l x <-> id = x \/ id ∈ l.
Proof. unfold hash_insert. case_bool_decide; [naive_solver|]. rewrite elem_of_app, list_elem_of_singleton. tauto. Qed.
Lemma push_action_grows extra c b a : grows extra c b (push_action b a).
Proof. split; [done| |intros id _; split_and!; auto]. intros a' Ha. apply elem_of_app. by left. Qed.
Lemma linked_grows extra c b b' : grows extra c b (add_linked_batch b b').
Proof. split; [done..|]. intros id _. split_and!; auto. Qed.
Lemma log_change_documents f b c : wb_documents (log_change f b c) = wb_documents b.
Proof. unfold log_change. by destruct (vm_get_mut_or_insert _ _ _). Qed.
Lemma log_change_grows extra f b c c' :
  (c' = c -> forall ch id, (id ∈ Batch.inserts (f ch) <-> id ∈ Batch.inserts ch) /\ (id ∈ Batch.deletes (f ch) <-> id ∈ Batch.deletes ch) /\
    (id ∈ Batch.updates ch -> id ∈ Batch.updates (f ch)) /\ (id ∈ Batch.updates (f ch) -> id ∈ Batch.updates ch \/ extra id)) ->
  grows extra c b (log_change f b c').
Proof.
  intros Hf. split; [intros Hb; by apply (log_change_log f b c' c)|by rewrite log_change_documents|]. intros id Hb.
  destruct (log_change_log f b c' c Hb) as [_ ->]. destruct (decide _) as [<-|]; [by apply Hf|]. split_and!; auto.
Qed.
Lemma log_update_grows (extra : Z -> Prop) b c c' id : (c' = c -> extra id) -> grows extra c b (log_update b c' id).
Proof. intros He. apply log_change_grows. intros Hid%He ch x. cbn. rewrite elem_of_hash_insert. naive_solver. Qed.
Lemma log_delete_grows extra b c c' id : c' <> c -> grows extra c b (log_delete b c' id).
Proof. intros Hc. by apply log_change_grows. Qed.
Create HintDb grows.
#[export] Hint Resolve push_action_grows linked_grows log_update_grows log_delete_grows : grows.
#[export] Hint Unfold insert_document update_document delete_document : grows.

(** ** The answers of a request *)

Section Answers.
Context {P : Type} `{SetObject R Obj} `{SetStore W}.
Abbreviation SetHelper := (SetHelper P Obj).
Abbreviation SetResponse := (SetResponse P Obj).
Abbreviation SetError := (SetError P).

(** A function of a type may add documents and log, in the collection of the
    request only updates of the ids [extra]; the rest of the helper it leaves
    alone. *)
Record leaves (extra : Z -> Prop) (h h' : SetHelper) : Prop := {
  lv_changes : grows extra (h_collection h) (h_changes h) (h_changes h');
  lv_document_ids : h_document_ids h' = h_document_ids h;
  lv_account_id : h_account_id h' = h_account_id h;
  lv_acl : h_acl h' = h_acl h;
  lv_collection : h_collection h' = h_collection h;
  lv_will_destroy : h_will_destroy h' = h_will_destroy h;
  lv_batch_writes : h_batch_writes h' = h_batch_writes h;
  lv_change_id : h_change_id h' = h_change_id h;
  lv_state_changes : h_state_changes h' = h_state_changes h;
  lv_response : h_response h' = h_response h }.
#[export] Instance leaves_preorder extra : PreOrder (leaves extra).
Proof.
  split; [by split|]. intros h1 h2 h3 [C1 ? ? ? E1] [C2 ? ? ? E2]. split; [|congruence..]. etrans; [exact C1|]. by rewrite E1 in C2.
Qed.
Lemma set_changes_leaves extra (h : SetHelper) b : grows extra (h_collection h) (h_changes h) b -> leaves extra h (h_set_changes h b).
Proof. by split. Qed.

Definition polite {A B : Type} (extra : Z -> Prop) (c : Collection.t) (fnc : A -> W -> SetHelper -> Document -> W * SetHelper * Document * B) : Prop :=
  forall a w h d w' h' d' r, h_collection h = c -> fnc a w h d = (w', h', d', r) -> leaves extra h h'.
Lemma polite_mono {A B : Type} (extra extra' : Z -> Prop) c (fnc : A -> W -> SetHelper -> Document -> W * SetHelper * Document * B) :
  (forall id, extra id -> extra' id) -> polite extra c fnc -> polite extra' c fnc.
Proof.
  intros He Hp a w h d w' h' d' r Hc Hf. destruct (Hp _ _ _ _ _ _ _ _ Hc Hf). split; [|done..]. by eapply grows_mono.
Qed.
(** A function was called for a document of the collection and returned a
    document and an answer. *)
Definition returns {A B : Type} (c : Collection.t) (fnc : A -> W -> SetHelper -> Document -> W * SetHelper * Document * B)
    (a : A) (i : DocumentId) (d : Document) (r : B) : Prop :=
  exists w h w' h', fnc a w h (document_new c i) = (w', h', d, r).

Section Functions.
Context (create_fnc : list Z -> Obj -> W -> SetHelper -> Document -> W * SetHelper * Document * (SetError + Obj)).
Context (update_fnc : Z -> Obj -> W -> SetHelper -> Document -> W * SetHelper * Document * (SetError + option Obj)).
Context (destroy_fnc : Z -> W -> SetHelper -> Document -> W * SetHelper * Document * (SetError + unit)).
Context (extra : Z -> Prop) (c : Collection.t).
Abbreviation create1 := (fun kv w h d => create_fnc kv.1 kv.2 w h d).
Abbreviation update1 := (fun kv w h d => update_fnc kv.1 kv.2 w h d).

(** The requests answered so far, and that the batch has what the answers say:
    the log of the collection lists the created objects as inserted, the
    destroyed ones as deleted and, besides [extra], only updated ones as
    updated, and the documents the functions returned are to be written. *)
Record logged (b : WriteBatch) (creates : list (list Z * Obj)) (updates : list (Z * Obj)) (rs : SetResponse) : Prop := {
  lg_inserts id : id ∈ Batch.inserts (log_of b c) <-> exists k o, rs_created rs !! k = Some o /\ object_id o = Some id;
  lg_deletes id : id ∈ Batch.deletes (log_of b c) <-> id ∈ rs_destroyed rs;
  lg_updates id : id ∈ Batch.updates (log_of b c) -> id ∈ vm_k (rs_updated rs) \/ extra id;
  lg_created k o : rs_created rs !! k = Some o -> exists item i d,
    (k, item) ∈ creates /\ returns c create1 (k, item) i d (inr o) /\ WInsert d ∈ wb_documents b;
  lg_updated id : id ∈ vm_k (rs_updated rs) -> exists item d o,
    (id, item) ∈ updates /\ returns c update1 (id, item) (id_document_id id) d (inr o) /\
    (document_is_empty d = false -> id ∈ Batch.updates (log_of b c) /\ WUpdate d ∈ wb_documents b);
  lg_destroyed id : id ∈ rs_destroyed rs -> exists d,
    returns c destroy_fnc id (id_document_id id) d (inr tt) /\ WDelete d ∈ wb_documents b }.
Record answered (h0 h : SetHelper) (creates : list (list Z * Obj)) (updates : list (Z * Obj)) (destroys : list Z) : Prop := {
  an_created : elements (dom (rs_created (h_response h))) ++ vm_k (rs_not_created (h_response h)) ≡ₚ creates.*1;
  an_updated : vm_k (rs_updated (h_response h)) ++ vm_k (rs_not_updated (h_response h)) ≡ₚ updates.*1;
  an_destroyed : rs_destroyed (h_response h) ++ vm_k (rs_not_destroyed (h_response h)) ≡ₚ destroys;
  an_log : vm_inv (wb_changes (h_changes h));
  an_logged : logged (h_changes h) creates updates (h_response h);
  an_collection : h_collection h = c;
  an_same : h_batch_writes h = true /\ h_change_id h = U64_MAX /\ h_state_changes h = [] /\
    rs_old_state (h_response h) = rs_old_state (h_response h0) /\ rs_new_state (h_response h) = rs_new_state (h_response h0) }.

Lemma logged_grows b b' cs us rs : vm_inv (wb_changes b) -> grows extra c b b' -> logged b cs us rs -> logged b' cs us rs.
Proof.
  intros Hb [I D L] [G1 G2 G3 G4 G5 G6]. split.
  - intros id. destruct (L id Hb) as (-> & _). apply G1.
  - intros id. destruct (L id Hb) as (_ & -> & _). apply G2.
  - intros id. destruct (L id Hb) as (_ & _ & _ & E4). intros [?|?]%E4; auto.
  - intros k o (item & i & d & ? & ? & ?)%G4. exists item, i, d. auto.
  - intros id (item & d & o & ? & ? & Hd)%G5. exists item, d, o. split_and!; [done..|]. intros [Hu Hw]%Hd. split; [|by auto]. by apply (L id Hb).
  - intros id (d & ? & ?)%G6. exists d. auto.
Qed.
Lemma answered_leaves h0 h h' cs us ds : answered h0 h cs us ds -> leaves extra h h' -> answered h0 h' cs us ds.
Proof.
  intros [A1 A2 A3 A4 A5 A6 A7] [L1 L2 L3 L4 L5 L6 L7 L8 L9 L10]. rewrite A6 in L1.
  split; rewrite ?L10, ?L5, ?L7, ?L8, ?L9; [done..|by apply (gr_inv _ _ _ _ L1)| |done|done]. by eapply logged_grows.
Qed.

Lemma elements_insert {A} (m : gmap (list Z) A) k x : m !! k = None -> elements (dom (<[k := x]> m)) ≡ₚ k :: elements (dom m).
Proof. intros Hk. rewrite dom_insert_L, elements_union_singleton; [done|]. by apply not_elem_of_dom. Qed.

(** What the helper adds to the batch for an answer. *)
Lemma logged_more b cs us cs' us' rs : cs ⊆ cs' -> us ⊆ us' -> logged b cs us rs -> logged b cs' us' rs.
Proof.
  intros Hc Hu [G1 G2 G3 G4 G5 G6]. split; [done..| | |done].
  - intros k o (item & i & d & ? & ? & ?)%G4. exists item, i, d. auto.
  - intros id (item & d & o & ? & ? & ?)%G5. exists item, d, o. auto.
Qed.
Lemma logged_created b cs us rs k item o id i d :
  vm_inv (wb_changes b) -> logged b cs us rs -> rs_created rs !! k = None -> (k, item) ∈ cs -> object_id o = Some id ->
  returns c create1 (k, item) i d (inr o) -> logged (log_insert (insert_document b d) c id) cs us (answer_created rs k o).
Proof.
  intros Hb [G1 G2 G3 G4 G5 G6] Hk Hin Hid Hret. unfold log_insert.
  match goal with |- logged (log_change ?f ?b' c) _ _ _ => destruct (log_change_log f b' c c Hb) as [_ Hlog] end. rewrite decide_True in Hlog by done.
  split; rewrite ?Hlog, ?log_change_documents; cbn; [|done|done|..].
  - intros x. rewrite elem_of_hash_insert. change (log_of (insert_document b d) c) with (log_of b c). rewrite G1. split.
    + intros [->|(k' & o' & ? & ?)]; [exists k, o; by rewrite lookup_insert_eq|]. exists k', o'. by rewrite lookup_insert_ne by congruence.
    + intros (k' & o' & [[<- <-]|[_ ?]]%lookup_insert_Some & ?); [left; congruence|right; by exists k', o'].
  - intros k' o' [[<- <-]|[_ Hk']]%lookup_insert_Some.
    + exists item, i, d. split_and!; [done..|]. apply elem_of_app. right. by apply list_elem_of_singleton.
    + destruct (G4 _ _ Hk') as (item' & i' & d' & ? & ? & ?). exists item', i', d'. split_and!; [done..|]. apply elem_of_app. by left.
  - intros x (item' & d' & o' & ? & ? & Hd)%G5. exists item', d', o'. split_and!; [done..|]. intros [? ?]%Hd. split; [done|]. apply elem_of_app. by left.
  - intros x (d' & ? & ?)%G6. exists d'. split; [done|]. apply elem_of_app. by left.
Qed.
Lemma logged_updated b cs us rs id item o d :
  vm_inv (wb_changes b) -> logged b cs us rs -> (id, item) ∈ us -> returns c update1 (id, item) (id_document_id id) d (inr o) ->
  logged (if document_is_empty d then b else log_update (update_document b d) c id) cs us (answer_updated rs id o).
Proof.
  intros Hb [G1 G2 G3 G4 G5 G6] Hin Hret. destruct (document_is_empty d) eqn:Ed.
  { split; cbn; [done|done| |done| |done].
    - intros x [?|?]%G3; [left; apply elem_of_app; by left|by right].
    - intros x [?| ->%list_elem_of_singleton]%elem_of_app; [by apply G5|]. exists item, d, o. split_and!; [done..|]. congruence. }
  unfold log_update. match goal with |- logged (log_change ?f ?b' c) _ _ _ => destruct (log_change_log f b' c c Hb) as [_ Hlog] end. rewrite decide_True in Hlog by done.
  split; rewrite ?Hlog, ?log_change_documents; cbn; [done|done|..].
  - intros x [->|[?|?]%G3]%elem_of_hash_insert; [left; apply elem_of_app; right; by apply list_elem_of_singleton|left; apply elem_of_app; by left|by right].
  - intros k o' (item' & i' & d' & ? & ? & ?)%G4. exists item', i', d'. split_and!; [done..|]. apply elem_of_app. by left.
  - intros x [(item' & d' & o' & ? & ? & Hd)%G5| ->%list_elem_of_singleton]%elem_of_app.
    + exists item', d', o'. split_and!; [done..|]. intros [? ?]%Hd. split; [apply elem_of_hash_insert; by right|apply elem_of_app; by left].
    + exists item, d, o. split_and!; [done..|]. intros _. split; [apply elem_of_hash_insert; by left|]. apply elem_of_app. right. by apply list_elem_of_singleton.
  - intros x (d' & ? & ?)%G6. exists d'. split; [done|]. apply elem_of_app. by left.
Qed.
Lemma logged_destroyed b cs us rs id d :
  vm_inv (wb_changes b) -> logged b cs us rs -> returns c destroy_fnc id (id_document_id id) d (inr tt) ->
  logged (log_delete (delete_document b d) c id) cs us (answer_destroyed rs id).
Proof.
  intros Hb [G1 G2 G3 G4 G5 G6] Hret. unfold log_delete.
  match goal with |- logged (log_change ?f ?b' c) _ _ _ => destruct (log_change_log f b' c c Hb) as [_ Hlog] end. rewrite decide_True in Hlog by done.
  split; rewrite ?Hlog, ?log_change_documents; cbn; [done| |done|..].
  - intros x. rewrite elem_of_hash_insert, elem_of_app, list_elem_of_singleton. change (log_of (delete_document b d) c) with (log_of b c). rewrite G2. tauto.
  - intros k o' (item' & i' & d' & ? & ? & ?)%G4. exists item', i', d'. split_and!; [done..|]. apply elem_of_app. by left.
  - intros x (item' & d' & o' & ? & ? & Hd)%G5. exists item', d', o'. split_and!; [done..|]. intros [? ?]%Hd. split; [done|]. apply elem_of_app. by left.
  - intros x [(d' & ? & ?)%G6| ->%list_elem_of_singleton]%elem_of_app; [exists d'; split; [done|]; apply elem_of_app; by left|].
    exists d. split; [done|]. apply elem_of_app. right. by apply list_elem_of_singleton.
Qed.
(** A refused request changes nothing of the log. *)
Lemma logged_refused b cs us rs rs' :
  rs_created rs' = rs_created rs -> rs_updated rs' = rs_updated rs -> rs_destroyed rs' = rs_destroyed rs -> logged b cs us rs -> logged b cs us rs'.
Proof. intros E1 E2 E3 [G1 G2 G3 G4 G5 G6]. split; rewrite ?E1, ?E2, ?E3; done. Qed.

Lemma create_answers cs us ds l h0 w h w' h' :
  polite extra c create1 -> NoDup (cs.*1 ++ l.*1) -> answered h0 h cs us ds ->
  helper_create create_fnc w h l = (w', h', Returned tt) -> answered h0 h' (cs ++ l) us ds /\ h_will_destroy h' = h_will_destroy h.
Proof.
  intros Hp. revert cs w h. induction l as [|[k item] l IH]; intros cs w h Hnd Ha; cbn [helper_create].
  { intros [= <- <-]. by rewrite app_nil_r. }
  rewrite (an_collection _ _ _ _ _ Ha). destruct (store_assign_id w _ _) as [w1 [e|i]]; [done|].
  destruct (create_fnc k item w1 h _) as [[[w2 h2] d] r] eqn:Ef. pose proof (Hp (k, item) _ _ _ _ _ _ _ (an_collection _ _ _ _ _ Ha) Ef) as Hl.
  pose proof (answered_leaves _ _ _ _ _ _ Ha Hl) as [A1 A2 A3 A4 A5 A6 A7]. rewrite <- (lv_will_destroy _ _ _ Hl).
  change (((k, item) :: l).*1) with ([k] ++ l.*1) in Hnd. rewrite app_assoc in Hnd. rewrite cons_middle, app_assoc. assert (k ∉ cs.*1) as Hk.
  { intros Hin. apply NoDup_app in Hnd as (Hnd & _ & _). apply NoDup_app in Hnd as (_ & Hd & _). apply (Hd k Hin), list_elem_of_here. }
  assert (NoDup ((cs ++ [(k, item)]).*1 ++ l.*1)) as Hnd' by by rewrite fmap_app.
  assert (cs ⊆ cs ++ [(k, item)]) as Hsub by (intros x ?; apply elem_of_app; by left).
  destruct r as [err|result].
  - intros Hrun. apply (IH (cs ++ [(k, item)])) in Hrun; [done..|]. split; cbn; [|done..| |done|done].
    + by rewrite fmap_app, app_assoc, A1.
    + eapply logged_refused; [..|by eapply (logged_more _ cs us)]; done.
  - destruct (object_id result) as [id|] eqn:Eid; [|done]. cbn [h_batch_writes h_set_changes h_set_ids]. rewrite (proj1 A7).
    assert (rs_created (h_response h2) !! k = None) as Hnone.
    { apply not_elem_of_dom. intros Hin. apply Hk. rewrite <- A1. apply elem_of_app. left. by apply elem_of_elements. }
    intros Hrun. apply (IH (cs ++ [(k, item)])) in Hrun; [done..|]. split; cbn; [|done|done|by apply log_change_log|..|done|done].
    + rewrite elements_insert by done. by rewrite fmap_app, <- app_comm_cons, A1, Permutation_cons_append.
    + rewrite A6. apply (logged_created _ _ _ _ _ item _ _ i); [done|by eapply (logged_more _ cs us)|done|..|done|].
      * apply elem_of_app. right. by apply list_elem_of_singleton.
      * by exists w1, h, w2, h2.
Qed.
Lemma not_updated_answered h0 h cs us ds id item err :
  answered h0 h cs us ds -> answered h0 (h_set_response h (answer_not_updated (h_response h) id err)) cs (us ++ [(id, item)]) ds.
Proof.
  intros [A1 A2 A3 A4 A5 A6 A7]. split; cbn; [done| |done|done| |done|done].
  - by rewrite fmap_app, app_assoc, A2.
  - apply (logged_refused _ _ _ (h_response h)); [done..|]. apply (logged_more _ cs us); [done| |done]. intros x ?. apply elem_of_app. by left.
Qed.
Lemma not_destroyed_answered h0 h cs us ds id err :
  answered h0 h cs us ds -> answered h0 (h_set_response h (answer_not_destroyed (h_response h) id err)) cs us (ds ++ [id]).
Proof. intros [A1 A2 A3 A4 A5 A6 A7]. split; cbn; [done|done| |done| |done|done]; [by rewrite app_assoc, A3|]. by eapply logged_refused; [..|exact A5]. Qed.

Lemma update_answers cs us ds l h0 w h w' h' :
  polite extra c update1 -> answered h0 h cs us ds ->
  helper_update update_fnc w h l = (w', h') -> answered h0 h' cs (us ++ l) ds /\ h_will_destroy h' = h_will_destroy h.
Proof.
  intros Hp. revert us w h. induction l as [|[id item] l IH]; intros us w h Ha; cbn [helper_update].
  { intros [= <- <-]. by rewrite app_nil_r. }
  rewrite cons_middle, app_assoc.
  destruct (negb _); [intros Hrun; by eapply (IH (us ++ [(id, item)])) in Hrun; [|by apply not_updated_answered]|].
  destruct (bool_decide (id ∈ h_will_destroy h)); [intros Hrun; by eapply (IH (us ++ [(id, item)])) in Hrun; [|by apply not_updated_answered]|].
  pose proof (an_collection _ _ _ _ _ Ha) as Hc. rewrite Hc.
  destruct (update_fnc id item w h _) as [[[w2 h2] d] r] eqn:Ef. pose proof (Hp (id, item) _ _ _ _ _ _ _ Hc Ef) as Hl.
  rewrite <- (lv_will_destroy _ _ _ Hl). apply answered_leaves with (h' := h2) in Ha; [|done].
  destruct r as [err|o]; [intros Hrun; by eapply (IH (us ++ [(id, item)])) in Hrun; [|by apply not_updated_answered]|].
  intros Hrun. apply (IH (us ++ [(id, item)])) in Hrun; [by destruct (document_is_empty d)|].
  destruct Ha as [A1 A2 A3 A4 A5 A6 A7].
  pose proof (logged_updated (h_changes h2) cs (us ++ [(id, item)]) (h_response h2) id item o d A4) as Hlog.
  specialize (Hlog ltac:(eapply (logged_more _ cs us); [done|intros x ?; apply elem_of_app; by left|done])).
  specialize (Hlog ltac:(apply elem_of_app; right; by apply list_elem_of_singleton) ltac:(by exists w, h, w2, h2)).
  assert (vm_k (rs_updated (answer_updated (h_response h2) id o)) ++ vm_k (rs_not_updated (h_response h2)) ≡ₚ (us ++ [(id, item)]).*1) as Hu
    by (cbn; by rewrite fmap_app, <- app_assoc, (Permutation_app_comm [id]), app_assoc, A2).
  destruct (document_is_empty d); cbn.
  - split; cbn; [done|exact Hu|done|done|exact Hlog|done|done].
  - split; cbn; [done|exact Hu|done|by apply log_change_log|by rewrite A6|done|done].
Qed.

Lemma destroy_answers cs us ds l h0 w h w' h' :
  polite extra c destroy_fnc -> answered h0 h cs us ds ->
  helper_destroy_loop destroy_fnc w h l = (w', h') -> answered h0 h' cs us (ds ++ l).
Proof.
  intros Hp. revert ds w h. induction l as [|id l IH]; intros ds w h Ha; cbn [helper_destroy_loop].
  { intros [= <- <-]. by rewrite app_nil_r. }
  rewrite cons_middle, app_assoc. case_bool_decide; [|by apply IH, not_destroyed_answered].
  pose proof (an_collection _ _ _ _ _ Ha) as Hc. rewrite Hc.
  destruct (destroy_fnc id w h _) as [[[w2 h2] d] r] eqn:Ef. pose proof (Hp _ _ _ _ _ _ _ _ Hc Ef) as Hl.
  apply answered_leaves with (h' := h2) in Ha; [|done]. destruct r as [err|[]]; [by apply IH, not_destroyed_answered|].
  apply IH. destruct Ha as [A1 A2 A3 A4 A5 A6 A7]. split; cbn; [done|done| |by apply log_change_log| |done|done].
  - by rewrite <- app_assoc, (Permutation_app_comm [id]), app_assoc, A3.
  - rewrite A6. apply logged_destroyed; [done..|]. by exists w, h, w2, h2.
Qed.
Lemma new_answered w acl (request : SetRequest R Obj) h :
  helper_new c w acl request = Returned h ->
  answered h h [] [] [] /\ rs_new_state (h_response h) = rs_old_state (h_response h) /\
  h_will_destroy h = match sr_destroy request with Some (RValue ids) => ids | _ => [] end.
Proof.
  unfold helper_new. destruct (store_state w _ c) as [e|old_state]; [done|]. destruct (from_option _ false _); [done|].
  destruct (store_document_ids w _ c) as [e|ids]; [done|]. intros [= <-]. split_and!; cbn; [|done..]. split; cbn; try done; [apply vm_new_inv|].
  split; cbn; try by intros ? ?%elem_of_nil.
  - intros id. split; [by intros ?%elem_of_nil|]. intros (k & o & E & _). by rewrite lookup_empty in E.
  - done.
  - intros k o E. by rewrite lookup_empty in E.
Qed.

(** The state after the write, if there was one. *)
Definition state_after (old_state : JMAPState) (changes : option WriteChanges) : JMAPState :=
  match changes with Some ch => if wc_change_id ch =? U64_MAX then old_state else Exact (wc_change_id ch) | None => old_state end.

Lemma into_response_written h0 w h w' rs cs us ds :
  answered h0 h cs us ds -> into_response w h = (w', Returned rs) ->
  rs_created rs = rs_created (h_response h) /\ rs_not_created rs = rs_not_created (h_response h) /\
  rs_updated rs = rs_updated (h_response h) /\ rs_not_updated rs = rs_not_updated (h_response h) /\
  rs_destroyed rs = rs_destroyed (h_response h) /\ rs_not_destroyed rs = rs_not_destroyed (h_response h) /\
  rs_old_state rs = rs_old_state (h_response h) /\
  exists changes, rs_new_state rs = state_after (rs_new_state (h_response h)) changes /\
    (batch_is_empty (h_changes h) = true /\ w' = w /\ changes = None \/ store_write w (h_changes h) = (w', inr changes)).
Proof.
  intros [_ _ _ _ _ _ (_ & S3 & _)]. unfold into_response, helper_write. destruct (batch_is_empty (h_changes h)) eqn:Eb.
  - rewrite S3. intros [= <- <-]. split_and!; [done..|]. exists None. split; [done|by left].
  - cbn. destruct (store_write w (h_changes h)) as [w1 [e|[ch|]]]; cbn; [done|..].
    + destruct (wc_change_id ch =? U64_MAX) eqn:Ec; intros [= <- <-]; (split_and!; [done..|]); exists (Some ch); cbn; rewrite Ec; by auto.
    + rewrite S3. intros [= <- <-]. split_and!; [done..|]. exists None. by auto.
Qed.
End Functions.
End Answers.

(** ** Properties *)

(** C14. Creation references. [eval_references] ends on every request. It either
    returns the objects to create with their references to objects of earlier
    methods replaced, in an order where every object comes after the objects of
    the request it refers to; or it fails, and then the reference that lists
    what to destroy is wrong or there is a chain of 1001 objects each of which
    refers to the one before, such as a cycle. *)
Theorem creations_in_order `{SetObjectLaws R Obj} (fnc : R -> option (list Z)) (created_ids : gmap (list Z) Z)
    (keys : gmap (list Z) (list (list Z)) -> list (list Z)) (r : SetRequest R Obj) objects :
  (forall graph k, k ∈ keys graph <-> is_Some (graph !! k)) -> sr_create r = Some objects -> vm_inv objects ->
  exists n, forall fuel, (n <= fuel)%nat ->
  exists res, eval_references fuel keys fnc created_ids r = Some res /\
    match res with
    | inr r' => exists create, sr_create r' = Some create /\ vm_inv create /\
        (forall k, vm_get create k = resolved fnc created_ids <$> vm_get objects k) /\
        forall l1 x l2 p, vm_k create = l1 ++ x :: l2 -> refers fnc created_ids objects x p -> p ∈ vm_k objects -> p ∈ l1
    | inl e =>
        (exists items, sr_destroy r = Some items /\ eval_destroy_references fnc items = inl e) \/
        exists l, length l = 1001%nat /\ forall i x y, l !! i = Some x -> l !! S i = Some y -> refers fnc created_ids objects y x
    end.
Proof.
  intros Hkeys Hr Hm. unfold eval_references. rewrite Hr. pose proof (resolve_objects_graph fnc created_ids objects Hm) as Hg.
  destruct (resolve_objects fnc created_ids objects) as [graph objects']. destruct Hg as (Hm' & Hk & Hget & Hrefs & _).
  destruct (sort_creates_result keys graph objects' Hm' (Hkeys graph)) as (n & Hn). exists n. intros fuel Hle.
  destruct (Hn fuel Hle) as (res & -> & Hres). cbn. eexists. split; [done|]. destruct res as [e|create]; cbn.
  - right. destruct Hres as (_ & l & Hl & Hc & _). exists l. split; [done|]. by eapply chain_refers.
  - destruct Hres as (Hc & Hgc & Hpf). destruct (sr_destroy r) as [items|] eqn:Ed; cbn.
    + destruct (eval_destroy_references fnc items) eqn:Ee; cbn; [left; by eauto|]. exists create. split_and!; [done..| |].
      * intros k. by rewrite Hgc.
      * intros l1 x l2 p Heq Href Hp. eapply Hpf; [done|by apply Hrefs|by rewrite Hk].
    + exists create. split_and!; [done..| |].
      * intros k. by rewrite Hgc.
      * intros l1 x l2 p Heq Href Hp. eapply Hpf; [done|by apply Hrefs|by rewrite Hk].
Qed.

(** C13. Answers of a [/set] request, for any functions of the object type that
    leave the answers to the helper and log, in the collection of the request,
    at most updates of some ids [extra] (such as lists a destroyed principal
    was a member of). If the method returns, every object to create, update or
    destroy has been answered exactly once, as done or as refused. The log of
    the batch written at the end is exact for the collection: inserted are the
    created objects, deleted the destroyed ones, and updated the updated ones,
    except those for which the function returned an empty document, and
    [extra]; refused requests leave nothing. The documents returned for the
    done ones are in the batch. The new state is that of the write, or the old
    one if nothing was written. *)
Theorem set_answers_each {P : Type} `{SetObject R Obj} `{SetStore W} create_fnc update_fnc destroy_fnc (extra : Z -> Prop) (c : Collection.t)
    (w w' : W) (acl : ACLToken) (request : SetRequest R Obj) (h : SetHelper P Obj) rs :
  let creates := from_option vm_iter [] (sr_create request) in
  let updates := from_option vm_iter [] (sr_update request) in
  polite extra c (fun kv w h d => create_fnc kv.1 kv.2 w h d) -> polite extra c (fun kv w h d => update_fnc kv.1 kv.2 w h d) ->
  polite extra c destroy_fnc ->
  (forall m, sr_create request = Some m -> vm_inv m) -> (forall m, sr_update request = Some m -> vm_inv m) ->
  helper_new c w acl request = Returned h -> run_set create_fnc update_fnc destroy_fnc w h request = (w', Returned rs) ->
  elements (dom (rs_created rs)) ++ vm_k (rs_not_created rs) ≡ₚ from_option vm_k [] (sr_create request) /\
  vm_k (rs_updated rs) ++ vm_k (rs_not_updated rs) ≡ₚ from_option vm_k [] (sr_update request) /\
  rs_destroyed rs ++ vm_k (rs_not_destroyed rs) ≡ₚ match sr_destroy request with Some (RValue ids) => ids | _ => [] end /\
  exists w1 batch changes,
    (batch_is_empty batch = true /\ w' = w1 /\ changes = None \/ store_write w1 batch = (w', inr changes)) /\
    rs_new_state rs = state_after (rs_old_state rs) changes /\
    (forall id, id ∈ Batch.inserts (log_of batch c) <-> exists k o, rs_created rs !! k = Some o /\ object_id o = Some id) /\
    (forall id, id ∈ Batch.deletes (log_of batch c) <-> id ∈ rs_destroyed rs) /\
    (forall id, id ∈ Batch.updates (log_of batch c) -> id ∈ vm_k (rs_updated rs) \/ extra id) /\
    (forall k o, rs_created rs !! k = Some o -> exists item i d, (k, item) ∈ creates /\
      returns c (fun kv w h d => create_fnc kv.1 kv.2 w h d) (k, item) i d (inr o) /\ WInsert d ∈ wb_documents batch) /\
    (forall id, id ∈ vm_k (rs_updated rs) -> exists item d o, (id, item) ∈ updates /\
      returns c (fun kv w h d => update_fnc kv.1 kv.2 w h d) (id, item) (id_document_id id) d (inr o) /\
      (document_is_empty d = false -> id ∈ Batch.updates (log_of batch c) /\ WUpdate d ∈ wb_documents batch)) /\
    (forall id, id ∈ rs_destroyed rs -> exists d,
      returns c destroy_fnc id (id_document_id id) d (inr tt) /\ WDelete d ∈ wb_documents batch).
Proof.
  intros creates updates Pc Pu Pd Vc Vu Hnew. destruct (new_answered create_fnc update_fnc destroy_fnc extra c w acl request h Hnew) as (Ha & Hstate & Hd).
  unfold run_set. fold creates updates.
  assert (Hk : forall A B (o : option (VecMap A B)), (forall m, o = Some m -> vm_inv m) -> (from_option vm_iter [] o).*1 = from_option vm_k [] o).
  { intros A B [m|] Hm; [|done]. cbn. apply vm_iter_keys. by apply Hm. }
  destruct (helper_create create_fnc w h _) as [[w1 h1] [[]|e|]] eqn:E1; [|done..].
  eapply (create_answers _ _ _ _ _ [] [] [] _ h) in E1 as [A1 Hd1]; [|done| |exact Ha].
  2: { cbn. subst creates. rewrite Hk by done. destruct (sr_create request) as [m|]; [by apply Vc|constructor]. }
  destruct (helper_update update_fnc w1 h1 _) as [w2 h2] eqn:E2. eapply (update_answers _ _ _ _ _ _ [] [] _ h) in E2 as [A2 Hd2]; [|done..].
  unfold helper_destroy. destruct (helper_destroy_loop destroy_fnc w2 _ _) as [w3 h3] eqn:E3.
  eapply (destroy_answers _ _ _ _ _ _ _ [] _ h) in E3 as A3; [|done|by destruct A2]. intros Hr.
  destruct (into_response_written _ _ _ _ _ _ _ _ _ _ _ _ _ A3 Hr) as (Q1 & Q2 & Q3 & Q4 & Q5 & Q6 & Q7 & ch & Hns & Hw).
  cbn [app] in A3. destruct A3 as [R1 R2 R3 _ [G1 G2 G3 G4 G5 G6] _ (_ & _ & _ & S5 & S6)].
  subst creates updates. rewrite Hk in R1, R2 by done. rewrite Hd2, Hd1, Hd in R3. rewrite Q1, Q2, Q3, Q4, Q5, Q6, Q7.
  split_and!; [done..|]. exists w3, (h_changes h3), ch. rewrite Hns, S5, S6, Hstate. by split_and!.
Qed.

(** ** A sample: folders that refer to each other *)

Module SetSample.
(** An object is its id and the names it refers to. *)
Definition folder : Type := option Z * list (list Z + Z).
Definition resolve_parent {S} (f : S -> list Z -> S * option Z) (st : S * list (list Z + Z)) (r : list Z + Z) : S * list (list Z + Z) :=
  match r with
  | inl name => let '(s, id) := f st.1 name in (s, st.2 ++ [match id with Some id => inr id | None => r end])
  | inr _ => (st.1, st.2 ++ [r])
  end.
Definition resolve_parents {S} (f : S -> list Z -> S * option Z) (s : S) (o : folder) : S * folder :=
  let '(s, l) := fold_left (resolve_parent f) o.2 (s, []) in (s, (o.1, l)).
Definition names (l : list (list Z + Z)) : list (list Z) := omap (fun r => match r with inl name => Some name | inr _ => None end) l.
#[export] Instance set_object : SetObject unit folder := {|
  object_id o := o.1; eval_id_references S := resolve_parents; eval_result_references _ o := o |}.

Lemma resolve_calls {S} (f : S -> list Z -> S * option Z) l s acc :
  (fold_left (resolve_parent f) l (s, acc)).1 = fold_left (fun s r => (f s r).1) (names l) s.
Proof.
  revert s acc. induction l as [|[name|id] l IH]; intros s acc; cbn; [done|..].
  - destruct (f s name) as [s' r]. cbn. apply IH.
  - apply IH.
Qed.
Lemma resolve_answers {S} (f : S -> list Z -> S * option Z) (g : list Z -> option Z) l s acc :
  (forall s r, (f s r).2 = g r) ->
  (fold_left (resolve_parent f) l (s, acc)).2 = (fold_left (resolve_parent (fun u r => (u, g r))) l (tt, acc)).2.
Proof.
  intros Hf. revert s acc. induction l as [|[name|id] l IH]; intros s acc; cbn; [done|..].
  - pose proof (Hf s name) as Hn. destruct (f s name) as [s' r]. cbn in *. rewrite Hn. apply IH.
  - apply IH.
Qed.
#[export] Instance set_object_laws : SetObjectLaws unit folder.
Proof.
  refine {| id_references o := names o.2 |}.
  - intros S f s [id l]. cbn [snd]. rewrite <- (resolve_calls f l s []). cbn. unfold resolve_parents. cbn [fst snd].
    by destruct (fold_left _ l _).
  - intros S f g s [id l] Hf. cbn. unfold resolve_parents. cbn [fst snd]. pose proof (resolve_answers f g l s [] Hf) as Hl.
    destruct (fold_left _ l (s, [])) as [s1 l1], (fold_left _ l (tt, [])) as [s2 l2]. cbn in *. by rewrite Hl.
Defined.

Definition objects : VecMap (list Z) folder := mkVecMap [[97]; [98]; [99]] [(None, [inl [98]]); (None, [inl [99]; inl [120]]); (None, [])].
Definition keys (graph : gmap (list Z) (list (list Z))) : list (list Z) := (map_to_list graph).*1.
Lemma keys_dom graph k : k ∈ keys graph <-> is_Some (graph !! k).
Proof.
  unfold keys. rewrite list_elem_of_fmap. split.
  - intros ([k' v] & -> & Hin%elem_of_map_to_list). by eexists.
  - intros [v Hv]. exists (k, v). split; [done|]. by apply elem_of_map_to_list.
Qed.
Definition created_before : gmap (list Z) Z := {[ [120] := 7 ]}.
Definition folder_updates : VecMap Z folder := mkVecMap [10; 7] [(None, []); (None, [])].
Definition request : SetRequest unit folder := mkSetRequest 1 None (Some objects) (Some folder_updates) (Some (RValue [4; 5])).
Lemma objects_inv : vm_inv objects.
Proof. split; [done|]. refine (bool_decide_unpack _ _). vm_compute. exact I. Qed.
Lemma folder_updates_inv : vm_inv folder_updates.
Proof. split; [done|]. refine (bool_decide_unpack _ _). vm_compute. exact I. Qed.

(** The folder [a] refers to [b], which refers to [c]. *)
Lemma creations_in_order_witness :
  (forall graph k, k ∈ keys graph <-> is_Some (graph !! k)) /\ sr_create request = Some objects /\ vm_inv objects /\
  refers (fun _ => None) created_before objects [97] [98] /\
  exists n, forall fuel, (n <= fuel)%nat -> exists res, eval_references fuel keys (fun _ => None) created_before request = Some res.
Proof.
  split_and!; [exact keys_dom|reflexivity|exact objects_inv|..].
  - exists (None, [inl [98]]). split; [reflexivity|]. apply list_elem_of_here.
  - destruct (creations_in_order (fun _ => None) created_before keys request objects keys_dom eq_refl objects_inv) as (n & Hn).
    exists n. intros fuel Hle. destruct (Hn fuel Hle) as (res & Hres & _). exists res. exact Hres.
Defined.

(** The store counts ids up and numbers the batches. *)
#[export] Instance set_store : SetStore (Z * Z) := {|
  store_state w _ _ := inr (Exact w.2); store_document_ids _ _ _ := inr (Some {[4]});
  store_assign_id w _ _ := ((w.1 + 1, w.2), inr w.1);
  store_write w b := ((w.1, w.2 + 1), inr (Some (mkWriteChanges 8 (w.2 + 1)))) |}.
Definition create_folder (name : list Z) (o : folder) (w : Z * Z) (h : SetHelper unit folder) (d : Document) :
    (Z * Z) * SetHelper unit folder * Document * (SetError unit + folder) :=
  (w, h, d, if bool_decide (name = [99]) then inl forbidden else inr (Some (d_document_id d), o.2)).
Definition update_folder (id : Z) (o : folder) (w : Z * Z) (h : SetHelper unit folder) (d : Document) :
    (Z * Z) * SetHelper unit folder * Document * (SetError unit + option folder) := (w, h, document_tag d 1 (Id 2) F_NONE, inr None).
Definition destroy_folder (id : Z) (w : Z * Z) (h : SetHelper unit folder) (d : Document) :
    (Z * Z) * SetHelper unit folder * Document * (SetError unit + unit) := (w, h, d, inr tt).
Definition helper : SetHelper unit folder :=
  match helper_new Collection.Mailbox (10, 20) (mkToken [1] []) request with
  | Returned h => h
  | _ => mkSetHelper (batch_new 0) ∅ 0 (mkToken [] []) Collection.Mailbox [] true 0 []
           (mkSetResponse None Initial Initial ∅ vm_new vm_new vm_new [] vm_new None None)
  end.
Definition answer : SetResponse unit folder :=
  match run_set create_folder update_folder destroy_folder (10, 20) helper request with
  | (_, Returned rs) => rs
  | _ => h_response helper
  end.

(** Two folders are created and one refused, one of them is updated and another
    not found, one is destroyed and one not found. *)
Lemma set_answers_each_witness :
  elements (dom (rs_created answer)) ++ vm_k (rs_not_created answer) ≡ₚ [[97]; [98]; [99]] /\
  vm_k (rs_updated answer) = [10] /\ vm_k (rs_not_updated answer) = [7] /\
  rs_destroyed answer = [4] /\ vm_k (rs_not_destroyed answer) = [5] /\
  exists w1 batch changes, rs_new_state answer = state_after (rs_old_state answer) changes /\
    (batch_is_empty batch = true /\ changes = None \/ store_write w1 batch = ((13, 21), inr changes)) /\
    (forall id, id ∈ Batch.deletes (log_of batch Collection.Mailbox) <-> id ∈ rs_destroyed answer) /\
    (forall id, id ∈ Batch.updates (log_of batch Collection.Mailbox) -> id ∈ vm_k (rs_updated answer) \/ nothing id).
Proof.
  destruct (set_answers_each create_folder update_folder destroy_folder nothing Collection.Mailbox (10, 20) (13, 21) (mkToken [1] []) request helper answer)
    as (Hc & _ & _ & w1 & batch & changes & Hw & Hs & _ & Hd & Hu & _).
  - intros kv w h d w' h' d' r _ [= <- <- <- <-]. reflexivity.
  - intros kv w h d w' h' d' r _ [= <- <- <- <-]. reflexivity.
  - intros id w h d w' h' d' r _ [= <- <- <- <-]. reflexivity.
  - intros m [= <-]. exact objects_inv.
  - intros m [= <-]. exact folder_updates_inv.
  - reflexivity.
  - vm_compute. reflexivity.
  - split_and!; [exact Hc|vm_compute; reflexivity..|]. exists w1, batch, changes. split_and!; [exact Hs| |exact Hd|exact Hu].
    destruct Hw as [(? & _ & ?)|?]; [left; split; assumption|right; assumption].
Defined.
End SetSample.
