(* ===== verification/GetRequest.v ===== *)
(** * Requests that read objects: components/jmap/src/jmap_store/get.rs,
      components/jmap/src/request/get.rs

    A [/get] request names objects and properties; without names it is about
    all objects. [GetHelper] finds out which documents the caller may see and
    calls the function of the type on each id. Store and function are
    parameters, as in the requests that change objects. *)

From S2P Require Import Prelude Types Bitmap BitList VecMap KV Blob ChangeLog RaftLog JmapId Write Orm SetRequest.
#[local] Open Scope Z_scope.

Record GetRequest (R P : Type) := mkGetRequest {
  gr_account_id : Z; gr_ids : option (MaybeResultReference R (list Z)); gr_properties : option (MaybeResultReference R (list P)) }.
Arguments mkGetRequest {R P}.
Arguments gr_account_id {R P}.
Arguments gr_ids {R P}.
Arguments gr_properties {R P}.

Record GetResponse (Obj : Type) := mkGetResponse {
  gs_account_id : option Z; gs_state : JMAPState; gs_list : list Obj; gs_not_found : list Z }.
Arguments mkGetResponse {Obj}.
Arguments gs_account_id {Obj}.
Arguments gs_state {Obj}.
Arguments gs_list {Obj}.
Arguments gs_not_found {Obj}.

Record GetHelper (P Obj : Type) := mkGetHelper {
  g_account_id : AccountId; g_acl : ACLToken; g_document_ids : gset Z; g_properties : list P; g_request_ids : list Z;
  g_validate_ids : bool; g_response : GetResponse Obj }.
Arguments mkGetHelper {P Obj}.
Arguments g_account_id {P Obj}.
Arguments g_acl {P Obj}.
Arguments g_document_ids {P Obj}.
Arguments g_properties {P Obj}.
Arguments g_request_ids {P Obj}.
Arguments g_validate_ids {P Obj}.
Arguments g_response {P Obj}.

(** ** References to earlier results *)

Section References.
Context {R P : Type}.
Variable fnc : R -> option (list Z).
(** [O::Property::from] of a number. *)
Variable property_from : Z -> P.

Definition eval_items {A} (read : list Z -> list A) (items : option (MaybeResultReference R (list A))) :
    MethodError + option (MaybeResultReference R (list A)) :=
  match items with
  | Some (RReference rr) => match fnc rr with Some ids => inr (Some (RValue (read ids))) | None => inl MethodError.InvalidResultReference end
  | Some RError => inl MethodError.InvalidArguments
  | _ => inr items
  end.
Definition get_result_references (r : GetRequest R P) : MethodError + GetRequest R P :=
  ids ← eval_items (fun ids => ids) (gr_ids r);
  properties ← eval_items (map (fun id => property_from (u8 id))) (gr_properties r);
  inr (mkGetRequest (gr_account_id r) ids properties).
End References.

Definition unwrap_value {R A} (r : option (MaybeResultReference R A)) : option A :=
  match r with Some (RValue a) => Some a | _ => None end.

(** ** The helper *)

Definition default_mapper (document_ids : list DocumentId) : MethodError + list Z := inr document_ids.

Section Helper.
Context {R P Obj : Type} `{SetStore W}.
Abbreviation GetHelper := (GetHelper P Obj).
Variables (collection : Collection.t) (default_properties : list P) (max_objects_in_get : nat)
  (id_mapper : option (list DocumentId -> MethodError + list Z))
  (** The documents shared with the members of a group; fills a cache. *)
  (shared_documents : option (W -> AccountId -> list AccountId -> W * result (option (gset Z)))).

(** The documents that the request may name, if ids are checked. *)
Definition visible_documents (w : W) (acl : ACLToken) (account_id : AccountId) : W * (MethodError + gset Z) :=
  match id_mapper with
  | None => (w, inr ∅)
  | Some _ =>
      match store_document_ids w account_id collection with
      | inl e => (w, inl (method_error e))
      | inr document_ids =>
          let document_ids := default ∅ document_ids in
          match shared_documents with
          | Some fnc =>
              if is_shared acl account_id then
                let '(w, r) := fnc w account_id (member_of acl) in
                (w, match r with
                    | inl e => inl (method_error e)
                    | inr (Some shared_ids) => inr (document_ids ∩ shared_ids)
                    | inr None => inr ∅
                    end)
              else (w, inr document_ids)
          | None => (w, inr document_ids)
          end
      end
  end.

(** The ids of the request, or those of the first documents; [None] if a
    mapper is missing. *)
Definition requested_ids (ids : option (list Z)) (document_ids : gset Z) : option (MethodError + list Z) :=
  match ids with
  | Some request_ids =>
      if (max_objects_in_get <? length request_ids)%nat then Some (inl MethodError.RequestTooLarge) else Some (inr request_ids)
  | None =>
      if bool_decide (document_ids = ∅) then Some (inr [])
      else id_mapper ← id_mapper; Some (id_mapper (take max_objects_in_get (treemap_iter document_ids)))
  end.

Definition get_new (w : W) (acl : ACLToken) (request : GetRequest R P) : W * outcome GetHelper :=
  let account_id := id_document_id (gr_account_id request) in
  let '(w, r) := visible_documents w acl account_id in
  match r with
  | inl e => (w, Failed e)
  | inr document_ids =>
      match requested_ids (unwrap_value (gr_ids request)) document_ids with
      | None => (w, Panicked)
      | Some (inl e) => (w, Failed e)
      | Some (inr request_ids) =>
          match store_state w account_id collection with
          | inl e => (w, Failed (method_error e))
          | inr state =>
              (w, Returned (mkGetHelper account_id acl document_ids (default default_properties (unwrap_value (gr_properties request)))
                              request_ids (bool_decide (is_Some id_mapper)) (mkGetResponse (Some (gr_account_id request)) state [] [])))
          end
      end
  end.

(** [get]: the function has a state. *)
Fixpoint get_loop {S : Type} (get_fnc : Z -> list P -> S -> S * outcome (option Obj)) (h : GetHelper) (s : S) (l : list Z)
    (list_ : list Obj) (not_found : list Z) : S * outcome (list Obj * list Z) :=
  match l with
  | [] => (s, Returned (list_, not_found))
  | id :: l =>
      if negb (g_validate_ids h) || bool_decide (id_document_id id ∈ g_document_ids h) then
        let '(s, r) := get_fnc id (g_properties h) s in
        match r with
        | Returned (Some result) => get_loop get_fnc h s l (list_ ++ [result]) not_found
        | Returned None | Failed MethodError.NotFound => get_loop get_fnc h s l list_ (not_found ++ [id])
        | Failed err => (s, Failed err)
        | Panicked => (s, Panicked)
        end
      else get_loop get_fnc h s l list_ (not_found ++ [id])
  end.
Definition helper_get {S : Type} (get_fnc : Z -> list P -> S -> S * outcome (option Obj)) (h : GetHelper) (s : S) :
    S * outcome (GetResponse Obj) :=
  let '(s, r) := get_loop get_fnc h s (g_request_ids h) [] [] in
  (s, match r with
      | Returned (list_, not_found) =>
          Returned (mkGetResponse (gs_account_id (g_response h)) (gs_state (g_response h)) list_ not_found)
      | Failed e => Failed e
      | Panicked => Panicked
      end).
End Helper.

(** ** What a request answers *)

(** Sets of documents are listed in ascending order. *)
Lemma treemap_iter_sorted (s : gset Z) : StronglySorted Z.lt (treemap_iter s) /\ NoDup (treemap_iter s) /\ forall x, x ∈ treemap_iter s <-> x ∈ s.
Proof.
  assert (NoDup (treemap_iter s)) as Hnd by (unfold treemap_iter; rewrite merge_sort_Permutation; apply NoDup_elements).
  split_and!; [|done|intros x; unfold treemap_iter; by rewrite merge_sort_Permutation, elem_of_elements].
  assert (StronglySorted Z.le (treemap_iter s)) as Hs by (apply StronglySorted_merge_sort; [apply _|intros ? ?; lia]).
  induction Hs as [|x l Hl IH Hx]; [constructor|]. apply NoDup_cons in Hnd as [Hin Hnd]. constructor; [by apply IH|].
  apply Forall_forall. intros y Hy. rewrite Forall_forall in Hx. specialize (Hx y Hy). assert (x <> y) by (by intros ->). lia.
Qed.

Section Answers.
Context {R P Obj : Type} `{SetStore W}.
Variables (collection : Collection.t) (default_properties : list P) (max_objects_in_get : nat)
  (id_mapper : option (list DocumentId -> MethodError + list Z))
  (shared_documents : option (W -> AccountId -> list AccountId -> W * result (option (gset Z)))).

(** The caller may see a document: it exists, and it is shared with them if
    the account is not theirs. *)
Definition sees (w : W) (acl : ACLToken) (account_id : AccountId) (d : DocumentId) : Prop :=
  exists docs, store_document_ids w account_id collection = inr (Some docs) /\ d ∈ docs /\
  forall fnc, shared_documents = Some fnc -> is_shared acl account_id = true ->
    exists shared, (fnc w account_id (member_of acl)).2 = inr (Some shared) /\ d ∈ shared.

Lemma visible_sees w acl a w' ids :
  is_Some id_mapper -> visible_documents collection id_mapper shared_documents w acl a = (w', inr ids) ->
  forall d, d ∈ ids <-> sees w acl a d.
Proof.
  intros [mapper ->]. unfold visible_documents, sees. destruct (store_document_ids w a collection) as [e|docs]; [done|].
  intros Hv d. destruct docs as [docs|]; cbn [default from_option id] in Hv; cycle 1.
  { assert (ids = ∅) as ->; [|set_solver].
    destruct shared_documents as [fnc|]; [destruct (is_shared acl a); [destruct (fnc w a _) as [w1 [e|[s|]]]|]|]; injection Hv as _ ?; set_solver. }
  assert (forall X : Prop, (exists docs0, @inr StoreError.t _ (Some docs) = inr (Some docs0) /\ d ∈ docs0 /\ X) <-> d ∈ docs /\ X) as Hone.
  { intros X. split; [by intros (docs0 & [= <-] & ?)|by exists docs]. }
  rewrite Hone. clear Hone. destruct shared_documents as [fnc|]; cycle 1.
  { injection Hv as _ <-. naive_solver. }
  destruct (is_shared acl a); cycle 1. { injection Hv as _ <-. naive_solver. }
  assert (forall X : _ -> Prop, (forall fnc0, Some fnc = Some fnc0 -> true = true -> X fnc0) <-> X fnc) as -> by (intros X; naive_solver).
  destruct (fnc w a (member_of acl)) as [w1 [e|[shared|]]]; [done|..]; injection Hv as _ <-; cbn; [|set_solver].
  rewrite elem_of_intersection. naive_solver.
Qed.

Lemma get_loop_answers {S} (get_fnc : Z -> list P -> S -> S * outcome (option Obj)) h s l acc nf s' list_ not_found :
  get_loop get_fnc h s l acc nf = (s', Returned (list_, not_found)) ->
  exists answers : list (Z * option Obj),
    answers.*1 = l /\ list_ = acc ++ omap snd answers /\ not_found = nf ++ (filter (fun a => a.2 = None) answers).*1 /\
    forall id o, (id, Some o) ∈ answers ->
      (g_validate_ids h = false \/ id_document_id id ∈ g_document_ids h) /\
      exists s1 s2, get_fnc id (g_properties h) s1 = (s2, Returned (Some o)).
Proof.
  revert s acc nf. induction l as [|id l IH]; intros s acc nf; cbn [get_loop].
  { intros [= _ <- <-]. exists []. cbn. rewrite !app_nil_r. split_and!; [done..|]. by intros ? ? ?%elem_of_nil. }
  assert (forall acc nf s, get_loop get_fnc h s l acc (nf ++ [id]) = (s', Returned (list_, not_found)) ->
    exists answers : list (Z * option Obj), answers.*1 = id :: l /\ list_ = acc ++ omap snd answers /\
      not_found = nf ++ (filter (fun a => a.2 = None) answers).*1 /\ forall id o, (id, Some o) ∈ answers ->
      (g_validate_ids h = false \/ id_document_id id ∈ g_document_ids h) /\
      exists s1 s2, get_fnc id (g_properties h) s1 = (s2, Returned (Some o))) as Hnone.
  { intros acc' nf' s1 (answers & Hl & Hlist & Hnf & Hall)%IH. exists ((id, None) :: answers). rewrite filter_cons_True by done.
    cbn. rewrite Hl, Hnf, <- app_assoc. split_and!; [done..|]. intros id' o [?|?]%elem_of_cons; [done|by apply Hall]. }
  destruct (negb _ || _) eqn:Ev; [|apply Hnone]. destruct (get_fnc id (g_properties h) s) as [s1 [[o|]|e|]] eqn:Eg; [| |destruct e; try done|done];
    [|apply Hnone..].
  intros (answers & Hl & Hlist & Hnf & Hall)%IH. exists ((id, Some o) :: answers). rewrite filter_cons_False by done.
  cbn. rewrite Hl, Hlist, <- app_assoc. split_and!; [done..|]. intros id' o' [[= -> ->]|Hin]%elem_of_cons; [|by apply Hall].
  split; [|by eauto]. apply orb_true_iff in Ev as [?%negb_true_iff|?%bool_decide_eq_true]; [by left|by right].
Qed.

Lemma get_loop_returns {S} (get_fnc : Z -> list P -> S -> S * outcome (option Obj)) h s l acc nf :
  (forall id s, exists s' r, get_fnc id (g_properties h) s = (s', r) /\ ((exists o, r = Returned o) \/ r = Failed MethodError.NotFound)) ->
  exists s' r, get_loop get_fnc h s l acc nf = (s', Returned r).
Proof.
  intros Hf. revert s acc nf. induction l as [|id l IH]; intros s acc nf; cbn [get_loop]; [by eauto|].
  destruct (negb _ || _); [|apply IH]. destruct (Hf id s) as (s1 & r & -> & [[[o|] ->]| ->]); apply IH.
Qed.

Lemma get_new_request w acl request w1 h :
  is_Some id_mapper -> get_new (Obj := Obj) collection default_properties max_objects_in_get id_mapper shared_documents w acl request = (w1, Returned h) ->
  g_validate_ids h = true /\ g_properties h = default default_properties (unwrap_value (gr_properties (R := R) request)) /\
  (forall d, d ∈ g_document_ids h <-> sees w acl (id_document_id (gr_account_id request)) d) /\
  requested_ids max_objects_in_get id_mapper (unwrap_value (gr_ids request)) (g_document_ids h) = Some (inr (g_request_ids h)).
Proof.
  intros Hm. unfold get_new. destruct (visible_documents _ _ _ w acl _) as [w2 [e|ids]] eqn:Ev; [done|].
  destruct (requested_ids _ _ _ _) as [[e|rids]|] eqn:Er; try done. destruct (store_state _ _ _) as [e|st]; [done|].
  intros [= _ <-]. cbn. rewrite bool_decide_true by done. split_and!; [done..| |done]. by apply (visible_sees _ _ _ _ _ Hm Ev).
Qed.

(** The first documents of those that the caller may see. *)
Lemma first_documents (mapper : list DocumentId -> MethodError + list Z) (docs : gset Z) w acl a ids :
  (forall d, d ∈ docs <-> sees w acl a d) -> mapper (take max_objects_in_get (treemap_iter docs)) = inr ids ->
  exists l, mapper l = inr ids /\ NoDup l /\ StronglySorted Z.lt l /\ (length l <= max_objects_in_get)%nat /\
    (forall d, d ∈ l -> sees w acl a d) /\
    (forall d, sees w acl a d -> d ∈ l \/ length l = max_objects_in_get /\ forall d', d' ∈ l -> d' < d).
Proof.
  intros Hs Hm. destruct (treemap_iter_sorted docs) as (Hsort & Hnd & Hin). exists (take max_objects_in_get (treemap_iter docs)).
  pose proof (take_drop max_objects_in_get (treemap_iter docs)) as Htd. rewrite <- Htd in Hsort, Hnd.
  pose proof (fun x y => StronglySorted_app_1_elem_of _ _ _ x y Hsort) as Hlt.
  apply StronglySorted_app_1_l in Hsort. apply NoDup_app in Hnd as (Hnd & _).
  assert (forall d, d ∈ docs <-> d ∈ take max_objects_in_get (treemap_iter docs) \/ d ∈ drop max_objects_in_get (treemap_iter docs)) as Hsplit.
  { intros d. by rewrite <- elem_of_app, Htd, Hin. }
  split_and!; [done..|rewrite length_take; lia| |].
  - intros d Hd. apply Hs, Hsplit. by left.
  - intros d [Hd|Hd]%Hs%Hsplit; [by left|]. right. split; [|by intros d' Hd'; apply Hlt].
    rewrite length_take. destruct (decide (max_objects_in_get <= length (treemap_iter docs))%nat); [lia|].
    rewrite drop_ge in Hd by lia. by apply elem_of_nil in Hd.
Qed.
End Answers.

(** ** Properties *)

(** C15. Requests that read. A [/get] request answers each id it names once, and
    more ids than the limit are refused; without names it is about the first
    documents, up to the limit, that the caller may see. Objects come in the
    order of the ids, and every object in the answer is the one that the type
    reads for a document that exists and, in an account of somebody else, is
    shared with the caller; all other ids are reported as not found. If the
    type reads each object without an error of its own, the request returns. *)
Theorem get_answers_each {R P Obj : Type} `{SetStore W} {S : Type} (c : Collection.t) (default_properties : list P) (max : nat)
    mapper shared (w w1 : W) (acl : ACLToken) (request : GetRequest R P) (h : GetHelper P Obj) get_fnc (s : S) :
  let a := id_document_id (gr_account_id request) in
  get_new c default_properties max (Some mapper) shared w acl request = (w1, Returned h) ->
  (exists ids,
    match unwrap_value (gr_ids request) with
    | Some given => ids = given /\ (length given <= max)%nat
    | None => (forall d, ~ sees c shared w acl a d) /\ ids = [] \/
              exists docs, mapper docs = inr ids /\ NoDup docs /\ StronglySorted Z.lt docs /\ (length docs <= max)%nat /\
                (forall d, d ∈ docs -> sees c shared w acl a d) /\
                (forall d, sees c shared w acl a d -> d ∈ docs \/ length docs = max /\ forall d', d' ∈ docs -> d' < d)
    end /\
    forall s' rs, helper_get get_fnc h s = (s', Returned rs) ->
      exists answers, answers.*1 = ids /\ gs_list rs = omap snd answers /\ gs_not_found rs = (filter (fun a => a.2 = None) answers).*1 /\
      forall id o, (id, Some o) ∈ answers -> sees c shared w acl a (id_document_id id) /\
        exists s1 s2, get_fnc id (default default_properties (unwrap_value (gr_properties request))) s1 = (s2, Returned (Some o))) /\
  ((forall id s, exists s' r, get_fnc id (g_properties h) s = (s', r) /\ ((exists o, r = Returned o) \/ r = Failed MethodError.NotFound)) ->
    exists s' rs, helper_get get_fnc h s = (s', Returned rs)).
Proof.
  intros a Hn. apply get_new_request in Hn as (Hv & Hp & Hs & Hr); [|done]. split; cycle 1.
  { intros Hf. destruct (get_loop_returns get_fnc h s (g_request_ids h) [] [] Hf) as (s' & [l nf] & El). unfold helper_get. rewrite El. by eauto. }
  exists (g_request_ids h). split.
  - unfold requested_ids in Hr. destruct (unwrap_value (gr_ids request)) as [given|].
    + destruct (Nat.ltb_spec max (length given)); [done|]. by injection Hr as <-.
    + case_bool_decide as He; [injection Hr as <-; left; split; [|done]; intros d Hd%Hs; set_solver|]. right. cbn in Hr. injection Hr as Hr.
      by apply (first_documents c max shared mapper (g_document_ids h) w acl a).
  - intros s' rs. unfold helper_get. destruct (get_loop get_fnc h s (g_request_ids h) [] []) as [s1 [[l nf]|e|]] eqn:El; try done.
    intros [= _ <-]. apply get_loop_answers in El as (answers & Ha & -> & -> & Hall). exists answers. split_and!; [done..|].
    intros id o Hin. destruct (Hall id o Hin) as [[?|?] Hf]; [congruence|]. rewrite <- Hp. split; [by apply Hs|done].
Qed.

Module GetSample.
Import SetSample.
(** The caller 2 may see document 4 of account 1; document 6 does not exist. *)
Definition caller : ACLToken := mkToken [2] [(1, 1)].
Definition shared_with (w : Z * Z) (a : AccountId) (members : list AccountId) : Z * Z * result (option (gset Z)) := (w, inr (Some {[4; 6]})).
Definition read_folder (id : Z) (properties : list unit) (s : nat) : nat * outcome (option folder) := (S s, Returned (Some (Some id, []))).
Definition get_request : GetRequest unit unit := mkGetRequest 1 (Some (RValue [4; 5; 6])) None.
Definition get_helper : GetHelper unit folder := mkGetHelper 1 caller {[4]} [tt] [4; 5; 6] true (mkGetResponse (Some 1) (Exact 3) [] []).
Definition get_answer : GetResponse folder := mkGetResponse (Some 1) (Exact 3) [(Some 4, [])] [5; 6].
Lemma get_answers_each_witness :
  get_new Collection.Mailbox [tt] 3 (Some default_mapper) (Some shared_with) (0, 3) caller get_request = ((0, 3), Returned get_helper) /\
  helper_get read_folder get_helper 0%nat = (1%nat, Returned get_answer) /\
  exists answers : list (Z * option folder), answers.*1 = [4; 5; 6] /\ gs_list get_answer = omap snd answers /\
    sees Collection.Mailbox (Some shared_with) (0, 3) caller 1 4.
Proof.
  assert (get_new Collection.Mailbox [tt] 3 (Some default_mapper) (Some shared_with) (0, 3) caller get_request = ((0, 3), Returned get_helper)) as En
    by (vm_compute; reflexivity).
  assert (helper_get read_folder get_helper 0%nat = (1%nat, Returned get_answer)) as Eg by (vm_compute; reflexivity).
  split; [exact En|]. split; [exact Eg|].
  destruct (get_answers_each Collection.Mailbox [tt] 3 default_mapper (Some shared_with) (0, 3) (0, 3) caller get_request get_helper read_folder
    0%nat En) as [(ids & [-> _] & Hall) _].
  destruct (Hall _ _ Eg) as (answers & Ha & Hl & _ & Hs). exists answers. split; [exact Ha|]. split; [exact Hl|].
  destruct (list_elem_of_omap snd answers (Some 4, [])) as [Hin _]. cbn in Hl. rewrite <- Hl in Hin.
  destruct Hin as ([id o] & Hin & Ho); [left|]. cbn in Ho. subst o. destruct (Hs id _ Hin) as [Hsee (s1 & s2 & Hr)].
  injection Hr as _ ->. exact Hsee.
Defined.
End GetSample.
