(* ===== verification/Mailbox.v ===== *)
(** * Mailboxes: components/jmap_mail/src/mailbox/schema.rs, mod.rs, set.rs

    The schema of mailboxes, the validation of changes to a mailbox, the
    functions that [Mailbox/set] gives to the helper, and the creation of a
    path of mailboxes for messages filed by a script. A mailbox keeps the
    document id of its parent plus one, or zero at the root. Reads of the store
    and of the messages are an interface. *)

From Stdlib Require Import String.
From S2P Require Import Prelude Lang Types TermIndex Nlp Bitmap BitList VecMap KV Blob ChangeLog RaftLog JmapId Write Orm JsonPointer SetRequest.
#[local] Open Scope Z_scope.

(** ** Schema *)

Module Mailbox.
Inductive Property : Set :=
| Id | Name | ParentId | Role | SortOrder | TotalEmails | UnreadEmails | TotalThreads | UnreadThreads | MyRights | IsSubscribed
| ACL | Invalid.
Record MailboxRights : Set := mkRights {
  may_read_items : bool; may_add_items : bool; may_remove_items : bool; may_set_seen : bool; may_set_keywords : bool;
  may_create_child : bool; may_rename : bool; may_delete : bool; may_submit : bool }.
Inductive Value : Set :=
| VId (value : Z) | VText (value : list Z) | VBool (value : bool) | VNumber (value : Z) | VSubscriptions (value : list AccountId)
| VMailboxRights (value : MailboxRights) | VResultReference (value : ResultReference) | VIdReference (value : list Z)
| VACLSet (value : list ACLUpdate) | VACLGet (value : VecMap (list Z) (list ACL.t)) | VNull.

#[export] Instance property_eq_dec : EqDecision Property.
Proof. solve_decision. Defined.
#[export] Instance rights_eq_dec : EqDecision MailboxRights.
Proof. solve_decision. Defined.
#[export] Instance value_eq_dec : EqDecision Value.
Proof. solve_decision. Defined.

Definition value_index_as (v : Value) : Index :=
  match v with
  | VId value => ILongInteger value
  | VText value => IText value
  | VNumber value => IInteger value
  | VSubscriptions [] => INull
  | VSubscriptions value => IIntegerList value
  | _ => INull
  end.
Definition value_empty (v : Value) : bool := match v with VText [] => true | VNull => true | _ => false end.
Definition property_number (p : Property) : Z :=
  match p with
  | Id => 0 | Name => 1 | ParentId => 2 | Role => 3 | SortOrder => 4 | TotalEmails => 5 | UnreadEmails => 6 | TotalThreads => 7
  | UnreadThreads => 8 | MyRights => 9 | IsSubscribed => 10 | ACL => 11 | Invalid => 12
  end.

(** No property has a limit on its length, so that no length is used. *)
#[export] Instance value_orm : OrmValue Value := {|
  ov_eq_dec := value_eq_dec; index_as := value_index_as; value_is_empty := value_empty; value_len _ := 0; value_default := VNull |}.
#[export] Instance object : Object Property Value := {|
  ob_eq_dec := property_eq_dec; ob_value := value_orm; property_id := property_number; required := [Name];
  indexed := [(Name, Z.lor F_TOKENIZE F_INDEX); (Role, F_KEYWORD); (ParentId, F_INDEX); (SortOrder, F_INDEX)];
  max_len := []; collection := Collection.Mailbox |}.
#[export] Instance laws : ObjectLaws Property Value.
Proof. split; [by intros [] []|by intros []|]. cbn. repeat constructor. Qed.

Definition as_text (v : Value) : option (list Z) := match v with VText value => Some value | _ => None end.
Definition as_id (v : Value) : option Z := match v with VId value => Some value | _ => None end.
End Mailbox.
#[export] Existing Instances Mailbox.property_eq_dec Mailbox.value_eq_dec Mailbox.value_orm Mailbox.object Mailbox.laws.
Abbreviation Fields := (TinyORM Mailbox.Property Mailbox.Value).
(** The properties of a mailbox in a request. *)
Abbreviation MailboxItem := (VecMap Mailbox.Property Mailbox.Value).

Definition mailbox_new (id : Z) : MailboxItem := vm_append vm_new Mailbox.Id (Mailbox.VId id).
Definition mailbox_id (o : MailboxItem) : option Z := match vm_get o Mailbox.Id with Some (Mailbox.VId value) => Some value | _ => None end.
Definition is_valid_role (role : list Z) : bool :=
  bool_decide (role ∈ [chars "inbox"; chars "trash"; chars "spam"; chars "junk"; chars "drafts"; chars "archive"; chars "sent"]).
Definition new_mailbox (name role : list Z) : Fields :=
  orm_set (orm_tag (orm_set (orm_set orm_new Mailbox.Name (Mailbox.VText name)) Mailbox.Role (Mailbox.VText role)) Mailbox.Role Default)
    Mailbox.ParentId (Mailbox.VId 0).

(** ** References in a request *)

Definition eval_reference {S} (f : S -> list Z -> S * option Z) (st : S * list Mailbox.Value) (v : Mailbox.Value) : S * list Mailbox.Value :=
  match v with
  | Mailbox.VIdReference value =>
      let '(s, r) := f st.1 value in (s, st.2 ++ [match r with Some id => Mailbox.VId id | None => v end])
  | _ => (st.1, st.2 ++ [v])
  end.
Definition mailbox_id_references {S} (f : S -> list Z -> S * option Z) (s : S) (o : MailboxItem) : S * MailboxItem :=
  let '(s, l) := fold_left (eval_reference f) (vm_v o) (s, []) in (s, mkVecMap (vm_k o) l).
Definition eval_result (f : ResultReference -> option (list Z)) (v : Mailbox.Value) : Mailbox.Value :=
  match v with
  | Mailbox.VResultReference value => match f value ≫= last with Some id => Mailbox.VId id | None => v end
  | _ => v
  end.
#[export] Instance mailbox_set_object : SetObject ResultReference MailboxItem := {|
  object_id := mailbox_id; eval_id_references S := mailbox_id_references;
  eval_result_references f o := mkVecMap (vm_k o) (map (eval_result f) (vm_v o)) |}.

Lemma eval_reference_calls {S} (f : S -> list Z -> S * option Z) l s acc :
  (fold_left (eval_reference f) l (s, acc)).1 =
    fold_left (fun s r => (f s r).1) (omap (fun v => match v with Mailbox.VIdReference r => Some r | _ => None end) l) s.
Proof.
  revert s acc. induction l as [|v l IH]; intros s acc; [done|]. destruct v; cbn; try apply IH.
  destruct (f s value) as [s' r]. apply IH.
Qed.
Lemma eval_reference_answers {S} (f : S -> list Z -> S * option Z) (g : list Z -> option Z) l s acc :
  (forall s r, (f s r).2 = g r) ->
  (fold_left (eval_reference f) l (s, acc)).2 = (fold_left (eval_reference (fun u r => (u, g r))) l (tt, acc)).2.
Proof.
  intros Hf. revert s acc. induction l as [|v l IH]; intros s acc; [done|]. destruct v; cbn; try apply IH.
  pose proof (Hf s value) as Hv. destruct (f s value) as [s' r]. cbn in *. rewrite Hv. apply IH.
Qed.
#[export] Instance mailbox_set_object_laws : SetObjectLaws ResultReference MailboxItem.
Proof.
  refine {| id_references o := omap (fun v => match v with Mailbox.VIdReference r => Some r | _ => None end) (vm_v o) |}.
  - intros S f s o. rewrite <- (eval_reference_calls f (vm_v o) s []). cbn. unfold mailbox_id_references. by destruct (fold_left _ _ _).
  - intros S f g s o Hf. cbn. unfold mailbox_id_references. pose proof (eval_reference_answers f g (vm_v o) s [] Hf) as Hl.
    destruct (fold_left _ _ (s, [])) as [s1 l1], (fold_left _ _ (tt, [])) as [s2 l2]. cbn in *. by rewrite Hl.
Defined.

(** ** What mailboxes use of the store *)

Class MailboxStore (W : Type) := {
  mailbox_orm : W -> AccountId -> DocumentId -> result (option Fields);
  mailbox_query : W -> AccountId -> OFilter Mailbox.Property -> result (list DocumentId);
  (** [mail_shared_folders]: fills a cache. *)
  shared_folders : W -> AccountId -> list AccountId -> ACL.t -> W * result (option (gset Z));
  principal_to_id : W -> list Z -> SetError Mailbox.Property + AccountId;
  (** Invalidation of the caches for the rights of an account. *)
  invalidate_acl : W -> AccountId -> Permission -> W;
  (** [get_tag] of the messages in a mailbox, and the lock on the messages. *)
  mailbox_messages : W -> AccountId -> DocumentId -> result (option (list DocumentId));
  lock_messages : W -> AccountId -> bool;
  (** Messages: the object, the thread and [mail_delete], which adds to the
      batch and to the document. *)
  email_property : Type; email_value : Type; email_object :: Object email_property email_value;
  email_codec :: OrmCodec email_property email_value; mailbox_ids : email_property;
  email_orm : W -> AccountId -> DocumentId -> result (option (TinyORM email_property email_value));
  email_thread : W -> AccountId -> DocumentId -> result (option DocumentId);
  mail_delete : W -> AccountId -> WriteBatch -> Document -> WriteBatch * Document * result (option Z) }.

Record MailboxConfig := mkMailboxConfig { mailbox_name_max_len : Z; mailbox_max_depth : nat }.
Definition INBOX_ID : DocumentId := 0.
Definition TRASH_ID : DocumentId := 1.

Section MailboxSet.
Context `{SetStore W} `{MailboxStore W} `{Unicode} `{OrmCodec Mailbox.Property Mailbox.Value}.
Variable config : MailboxConfig.
Abbreviation SetError := (SetError Mailbox.Property).
Abbreviation SetHelper := (SetHelper Mailbox.Property MailboxItem).

Definition subscribed (o : option Fields) : option (list AccountId) :=
  o ≫= fun o => match orm_get o Mailbox.IsSubscribed with Some (Mailbox.VSubscriptions value) => Some value | _ => None end.

(** The value of a property, and [None] for [continue]; tags and rights of the
    object may change. *)
Definition mailbox_value (w : W) (h : SetHelper) (current_fields : option Fields) (self : Fields) (property : Mailbox.Property)
    (value : Mailbox.Value) : SetError + (Fields * option Mailbox.Value) :=
  match property, value with
  | Mailbox.Name, Mailbox.VText value =>
      if Z.of_nat (length (str_bytes value)) <? mailbox_name_max_len config then inr (self, Some (Mailbox.VText value))
      else inl (with_property invalid_properties property)
  | Mailbox.ParentId, Mailbox.VId value =>
      let parent_id := id_document_id value in
      if bool_decide (value ∈ h_will_destroy h) then inl (set_error SetErrorType.WillDestroy)
      else if negb (bool_decide (parent_id ∈ h_document_ids h)) then inl invalid_properties
      else inr (self, Some (Mailbox.VId (u32 (parent_id + 1))))
  | Mailbox.ParentId, Mailbox.VIdReference value =>
      id ← get_id_reference h Mailbox.ParentId value; inr (self, Some (Mailbox.VId (u64 (id + 1))))
  | Mailbox.IsSubscribed, Mailbox.VBool subscribe =>
      let account_id := primary_id (h_acl h) in
      match subscribed current_fields with
      | Some value =>
          if subscribe then
            if bool_decide (account_id ∈ value) then inr (self, None)
            else inr (self, Some (Mailbox.VSubscriptions (value ++ [account_id])))
          else if bool_decide (account_id ∈ value) then
            if (1 <? length value)%nat then inr (self, Some (Mailbox.VSubscriptions (filter (fun id => id <> account_id) value)))
            else inr (self, Some Mailbox.VNull)
          else inr (self, None)
      | None => inr (self, if subscribe then Some (Mailbox.VSubscriptions [account_id]) else None)
      end
  | Mailbox.ParentId, Mailbox.VNull => inr (self, Some (Mailbox.VId 0))
  | Mailbox.Role, Mailbox.VText value =>
      let role := to_lowercase value in
      if is_valid_role role then inr (orm_tag self property Default, Some (Mailbox.VText role))
      else inl (with_property invalid_properties property)
  | Mailbox.Role, Mailbox.VNull => inr (orm_untag self property Default, Some Mailbox.VNull)
  | Mailbox.SortOrder, Mailbox.VNumber n => inr (self, Some (Mailbox.VNumber n))
  | Mailbox.ACL, Mailbox.VACLSet value => self ← acl_apply_all (principal_to_id w) self value; inr (self, None)
  | _, _ => inl (with_property invalid_properties property)
  end.
Fixpoint mailbox_properties (w : W) (h : SetHelper) (current_fields : option Fields) (self : Fields)
    (l : list (Mailbox.Property * Mailbox.Value)) : SetError + Fields :=
  match l with
  | [] => inr self
  | (property, value) :: l =>
      r ← mailbox_value w h current_fields self property value;
      mailbox_properties w h current_fields (from_option (orm_set r.1 property) r.1 r.2) l
  end.

Definition parent_of (o : Fields) : option Z := orm_get o Mailbox.ParentId ≫= Mailbox.as_id.

(** The loop over the parents, at most [mailbox_max_depth] rounds. *)
Fixpoint check_parents (n : nat) (w : W) (h : SetHelper) (mailbox_id : DocumentId) (mailbox_parent_id : Z) : SetError + unit :=
  match n with
  | O => inl invalid_properties
  | S n =>
      if mailbox_parent_id =? mailbox_id + 1 then inl invalid_properties
      else if mailbox_parent_id =? 0 then inr tt
      else
        let parent_document_id := id_document_id (mailbox_parent_id - 1) in
        fields ← lift (mailbox_orm w (h_account_id h) parent_document_id);
        match fields with
        | Some fields => check_parents n w h mailbox_id (default 0 (parent_of fields))
        | None => if bool_decide (parent_document_id ∈ h_document_ids h) then inr tt else inl invalid_properties
        end
  end.

(** No object is found by the filter. *)
Definition check_unused (w : W) (h : SetHelper) (f : OFilter Mailbox.Property) : SetError + unit :=
  ids ← lift (mailbox_query w (h_account_id h) f);
  match ids with [] => inr tt | _ => inl invalid_properties end.

(** The parent under which the name has to be new. *)
Definition name_scope (current_fields : option Fields) (self : Fields) (mailbox_name : list Z) : option Z :=
  match parent_of self with
  | Some mailbox_parent_id => Some mailbox_parent_id
  | None =>
      match current_fields with
      | Some current_fields =>
          if bool_decide (orm_get current_fields Mailbox.Name ≫= Mailbox.as_text <> Some mailbox_name) then
            Some (default 0 (parent_of current_fields))
          else None
      | None => Some 0
      end
  end.

Definition invalidate_changed (w : W) (h : SetHelper) (current_fields : option Fields) (self : Fields) : W :=
  match get_changed_acls self current_fields with
  | Some permissions => fold_left (fun w p => invalidate_acl w (h_account_id h) p) permissions w
  | None => w
  end.

Definition mailbox_set (w : W) (h : SetHelper) (self : Fields) (mailbox : MailboxItem) (mailbox_id : option DocumentId)
    (current_fields : option Fields) : W * (SetError + Fields) :=
  let checked :=
    self ← mailbox_properties w h current_fields self (vm_iter mailbox);
    _ ← match mailbox_id, parent_of self with
        | Some mailbox_id, Some mailbox_parent_id => check_parents (mailbox_max_depth config) w h mailbox_id mailbox_parent_id
        | _, _ => inr tt
        end;
    _ ← match orm_get self Mailbox.Role with
        | Some (Mailbox.VText mailbox_role) => check_unused w h (FEq Mailbox.Role (QKeyword mailbox_role))
        | _ => inr tt
        end;
    _ ← match orm_get self Mailbox.Name with
        | Some (Mailbox.VText mailbox_name) =>
            match name_scope current_fields self mailbox_name with
            | Some parent_mailbox_id =>
                check_unused w h (FAnd [FEq Mailbox.ParentId (QLongInteger parent_mailbox_id); FEq Mailbox.Name (QIndex mailbox_name)])
            | None => inr tt
            end
        | _ => inr tt
        end;
    inr self in
  match checked with
  | inl e => (w, inl e)
  | inr self => (invalidate_changed w h current_fields self, inr self)
  end.

(** ** The functions of [Mailbox/set] *)

(** [has_access] of the shared folders, or an error. *)
Definition check_shared (w : W) (h : SetHelper) (acl : ACL.t) (document_id : DocumentId) : W * (SetError + unit) :=
  let '(w, r) := shared_folders w (h_account_id h) (member_of (h_acl h)) acl in
  (w, b ← lift r; if shared_has_access b document_id then inr tt else inl forbidden).

Definition mailbox_create (create_id : list Z) (mailbox : MailboxItem) (w : W) (h : SetHelper) (document : Document) :
    W * SetHelper * Document * (SetError + MailboxItem) :=
  let '(w, r) := mailbox_set w h orm_new mailbox None None in
  match r with
  | inl e => (w, h, document, inl e)
  | inr mailbox =>
      let '(w, r) :=
        if is_shared (h_acl h) (h_account_id h) then
          match orm_get mailbox Mailbox.ParentId with
          | Some (Mailbox.VId value) => check_shared w h ACL.CreateChild (id_document_id value)
          | _ => (w, inl forbidden)
          end
        else (w, inr tt) in
      match r with
      | inl e => (w, h, document, inl e)
      | inr _ =>
          let mailbox := if has_property mailbox Mailbox.ParentId then mailbox else orm_set mailbox Mailbox.ParentId (Mailbox.VId 0) in
          match insert_validate mailbox document with
          | inl e => (w, h, document, inl (from_orm_error e))
          | inr document => (w, h, document, inr (mailbox_new (d_document_id document)))
          end
      end
  end.

Definition is_internal (document_id : DocumentId) : bool := (document_id =? INBOX_ID) || (document_id =? TRASH_ID).

Definition mailbox_update (id : Z) (mailbox : MailboxItem) (w : W) (h : SetHelper) (document : Document) :
    W * SetHelper * Document * (SetError + option MailboxItem) :=
  let document_id := id_document_id id in
  match lift (mailbox_orm w (h_account_id h) document_id) with
  | inl e => (w, h, document, inl e)
  | inr None => (w, h, document, inl (set_error SetErrorType.NotFound))
  | inr (Some current_fields) =>
      let '(w, r) := mailbox_set w h (track_changes current_fields) mailbox (Some document_id) (Some current_fields) in
      match r with
      | inl e => (w, h, document, inl e)
      | inr fields =>
          if is_internal document_id && has_property fields Mailbox.Role && negb (is_member (h_acl h) SUPERUSER_ID) then
            (w, h, document, inl forbidden)
          else
            let '(w, r) :=
              if is_shared (h_acl h) (h_account_id h) then
                let '(w, r) := check_shared w h ACL.Modify document_id in
                match r with
                | inl e => (w, inl e)
                | inr _ => if has_property fields Mailbox.ACL then check_shared w h ACL.Administer document_id else (w, inr tt)
                end
              else (w, inr tt) in
            match r with
            | inl e => (w, h, document, inl e)
            | inr _ =>
                match merge_validate current_fields document fields with
                | inl e => (w, h, document, inl (from_orm_error e))
                | inr (_, document, _) => (w, h, document, inr None)
                end
            end
      end
  end.
(** The messages of a mailbox that is destroyed: out of the mailbox, or deleted
    if they are in no other. *)
Definition remove_message (w : W) (account_id : AccountId) (document_id : DocumentId) (changes : WriteBatch) (message_id : DocumentId) :
    WriteBatch * (SetError + unit) :=
  let document := document_new Collection.Mail message_id in
  match lift (email_orm w account_id message_id) with
  | inl e => (changes, inl e)
  | inr None => (changes, inr tt)
  | inr (Some current_fields) =>
      if from_option (fun tags => (1 <? size tags)%nat) false (get_tags current_fields mailbox_ids) then
        match lift (email_thread w account_id message_id) with
        | inl e => (changes, inl e)
        | inr None => (changes, inl (from_store_error StoreError.DataCorruption))
        | inr (Some thread_id) =>
            let fields := orm_untag (track_changes current_fields) mailbox_ids (Id document_id) in
            match orm_merge current_fields document fields with
            | None => (changes, inl (from_store_error StoreError.SerializeError))
            | Some (_, document, _) =>
                (log_update (update_document changes document) Collection.Mail (id_from_parts thread_id message_id), inr tt)
            end
        end
      else
        let '(changes, document, r) := mail_delete w account_id changes document in
        match lift r with
        | inl e => (changes, inl e)
        | inr None => (changes, inr tt)
        | inr (Some id) => (log_delete (delete_document changes document) Collection.Mail id, inr tt)
        end
  end.
Fixpoint remove_messages (w : W) (account_id : AccountId) (document_id : DocumentId) (changes : WriteBatch) (l : list DocumentId) :
    WriteBatch * (SetError + unit) :=
  match l with
  | [] => (changes, inr tt)
  | message_id :: l =>
      let '(changes, r) := remove_message w account_id document_id changes message_id in
      match r with inl e => (changes, inl e) | inr _ => remove_messages w account_id document_id changes l end
  end.

Definition mailbox_destroy (on_destroy_remove_emails : bool) (id : Z) (w : W) (h : SetHelper) (document : Document) :
    W * SetHelper * Document * (SetError + unit) :=
  let document_id := id_document_id id in
  if is_internal document_id && negb (is_member (h_acl h) SUPERUSER_ID) then (w, h, document, inl forbidden)
  else
    let '(w, r) :=
      if is_shared (h_acl h) (h_account_id h) then
        let '(w, r) := check_shared w h ACL.Delete document_id in
        match r with
        | inl e => (w, inl e)
        | inr _ => if on_destroy_remove_emails then check_shared w h ACL.RemoveItems document_id else (w, inr tt)
        end
      else (w, inr tt) in
    match r with
    | inl e => (w, h, document, inl e)
    | inr _ =>
        match lift (mailbox_query w (h_account_id h) (FEq Mailbox.ParentId (QLongInteger (u32 (document_id + 1))))) with
        | inl e => (w, h, document, inl e)
        | inr (_ :: _) => (w, h, document, inl (set_error SetErrorType.MailboxHasChild))
        | inr [] =>
            let '(changes, r) :=
              match lift (mailbox_messages w (h_account_id h) document_id) with
              | inl e => (h_changes h, inl e)
              | inr None => (h_changes h, inr tt)
              | inr (Some message_doc_ids) =>
                  if on_destroy_remove_emails then
                    if lock_messages w (h_account_id h) then remove_messages w (h_account_id h) document_id (h_changes h) message_doc_ids
                    else (h_changes h, inl (set_error SetErrorType.RateLimit))
                  else (h_changes h, inl (set_error SetErrorType.MailboxHasEmail))
              end in
            let h := h_set_changes h changes in
            match r with
            | inl e => (w, h, document, inl e)
            | inr _ =>
                match lift (mailbox_orm w (h_account_id h) document_id) with
                | inl e => (w, h, document, inl e)
                | inr None => (w, h, document, inr tt)
                | inr (Some orm) => (w, h, orm_delete orm document, inr tt)
                end
            end
        end
    end.

(** [Mailbox/set]. *)
Definition mailbox_set_request (on_destroy_remove_emails : bool) (w : W) (acl : ACLToken) (request : SetRequest ResultReference MailboxItem) :
    W * outcome (SetResponse Mailbox.Property MailboxItem) :=
  match helper_new Collection.Mailbox w acl request with
  | Returned h => run_set mailbox_create mailbox_update (mailbox_destroy on_destroy_remove_emails) w h request
  | Failed e => (w, Failed e)
  | Panicked => (w, Panicked)
  end.

Definition mailbox_delete (w : W) (account_id : AccountId) (document : Document) : result Document :=
  orm ← mailbox_orm w account_id (d_document_id document);
  match orm with Some orm => inr (orm_delete orm document) | None => inl StoreError.NotFound end.

(** ** A path of mailboxes *)

(** [str::trim] and [str::split]. *)
Fixpoint trim_start (s : list Z) : list Z := match s with ch :: s' => if is_whitespace ch then trim_start s' else s | [] => [] end.
Definition trim (s : list Z) : list Z := reverse (trim_start (reverse (trim_start s))).
Fixpoint split_on (ch : Z) (cur s : list Z) : list (list Z) :=
  match s with
  | [] => [cur]
  | c :: s => if c =? ch then cur :: split_on ch [] s else split_on ch (cur ++ [c]) s
  end.
Definition path_names (path : list Z) : list (list Z) := filter (fun p => p <> []) (map trim (split_on 47 [] path)).

(** The mailboxes found: name, parent and document id plus one. *)
Fixpoint found_names (w : W) (account_id : AccountId) (ids : list DocumentId) : result (option (list (list Z * Z * Z))) :=
  match ids with
  | [] => inr (Some [])
  | document_id :: ids =>
      orm ← mailbox_orm w account_id document_id;
      match orm with
      | None => inr None
      | Some orm =>
          match orm_get orm Mailbox.Name with
          | Some (Mailbox.VText value) =>
              rest ← found_names w account_id ids;
              inr (option_map (cons (value, from_option id_document_id 0 (parent_of orm), u32 (document_id + 1))) rest)
          | _ => inr None
          end
      end
  end.

(** The longest start of the path that exists. *)
Fixpoint walk_path (found : list (list Z * Z * Z)) (next_parent_id : Z) (path : list (list Z)) : Z * list (list Z) :=
  match path with
  | [] => (next_parent_id, [])
  | name :: rest =>
      match find (fun '(part, parent_id, _) => bool_decide (part = name) && (parent_id =? next_parent_id)) found with
      | Some (_, _, document_id) => walk_path found document_id rest
      | None => (next_parent_id, path)
      end
  end.

Definition path_mailbox (name : list Z) (parent : Z) : Fields :=
  orm_set (orm_set orm_new Mailbox.Name (Mailbox.VText name)) Mailbox.ParentId (Mailbox.VId parent).
(** The folders that are missing; [None] if a name is too long. *)
Fixpoint create_folders (w : W) (account_id : AccountId) (batch : WriteBatch) (next_parent_id : Z) (path : list (list Z)) :
    W * result (option (WriteBatch * Z)) :=
  match path with
  | [] => (w, inr (Some (batch, next_parent_id)))
  | name :: path =>
      if mailbox_name_max_len config <? Z.of_nat (length (str_bytes name)) then (w, inr None)
      else
        let '(w, r) := store_assign_id w account_id Collection.Mailbox in
        match r with
        | inl e => (w, inl e)
        | inr document_id =>
            match orm_insert (path_mailbox name next_parent_id) (document_new Collection.Mailbox document_id) with
            | None => (w, inl StoreError.SerializeError)
            | Some document =>
                create_folders w account_id (log_insert (insert_document batch document) Collection.Mailbox document_id)
                  (u32 (document_id + 1)) path
            end
        end
  end.

(** [locked]: whether the lock on the mailboxes was obtained. *)
Definition mailbox_create_path (locked : bool) (w : W) (account_id : AccountId) (path : list Z) :
    W * result (option (DocumentId * option WriteChanges)) :=
  let path := path_names path in
  if (length path =? 0)%nat || (mailbox_max_depth config <? length path)%nat then (w, inr None)
  else if negb locked then (w, inl StoreError.InternalError)
  else
    match (ids ← mailbox_query w account_id (FOr (map (fun n => FEq Mailbox.Name (QIndex n)) path)); found_names w account_id ids) with
    | inl e => (w, inl e)
    | inr None => (w, inr None)
    | inr (Some found) =>
        let '(next_parent_id, path) := walk_path found 0 path in
        match path with
        | [] => (w, inr (Some (next_parent_id - 1, None)))
        | _ =>
            let '(w, r) := create_folders w account_id (batch_new account_id) next_parent_id path in
            match r with
            | inl e => (w, inl e)
            | inr None => (w, inr None)
            | inr (Some (batch, next_parent_id)) =>
                let '(w, r) := store_write w batch in
                (w, changes ← r; inr (Some (next_parent_id - 1, changes)))
            end
        end
    end.
End MailboxSet.

(** ** The properties a request sets *)

Section Properties.
Context `{Object P V}.
Lemma orm_set_get (o : TinyORM P V) p v q :
  vm_inv (properties o) -> vm_inv (properties (orm_set o p v)) /\ orm_get (orm_set o p v) q = if decide (p = q) then Some v else orm_get o q.
Proof. intros Ho. split; [by apply vm_set_inv|by apply vm_set_get]. Qed.
Lemma orm_tag_properties (o : TinyORM P V) p t : properties (orm_tag o p t) = properties o.
Proof. unfold orm_tag. by destruct (vm_get_mut_or_insert _ _ _). Qed.
Lemma acl_set_properties (o : TinyORM P V) id acl b : properties (acl_set o id acl b) = properties o.
Proof.
  unfold acl_set. case_bool_decide; [done|]. destruct (perm_position _ _), b; try done. by destruct (from_option _ false _).
Qed.
Lemma acl_update_properties (o : TinyORM P V) id acl : properties (acl_update o id acl) = properties o.
Proof. unfold acl_update. by destruct (bm_is_empty acl). Qed.
Lemma acl_update_all_properties to_id (o o' : TinyORM P V) l : acl_update_all to_id o l = inr o' -> properties o' = properties o.
Proof.
  revert o. induction l as [|[name acls] l IH]; intros o; cbn; [by intros [= ->]|]. destruct (to_id name) as [e|id]; cbn; [done|].
  intros E. by rewrite (IH _ E), acl_update_properties.
Qed.
Lemma acl_apply_all_properties to_id (o o' : TinyORM P V) l : acl_apply_all to_id o l = inr o' -> properties o' = properties o.
Proof.
  revert o. induction l as [|u l IH]; intros o; cbn; [by intros [= <-]|]. destruct (acl_apply to_id o u) as [e|o1] eqn:Eu; cbn; [done|].
  intros E. rewrite (IH _ E). clear E IH. destruct u as [acls|name acls|name acl is_set]; cbn in Eu.
  - by apply acl_update_all_properties in Eu.
  - destruct (to_id name) as [e|id]; cbn in Eu; [done|]. injection Eu as <-. apply acl_update_properties.
  - destruct (to_id name) as [e|id]; cbn in Eu; [done|]. injection Eu as <-. apply acl_set_properties.
Qed.
End Properties.

Section Sets.
Context `{SetStore W} `{MailboxStore W} `{Unicode} `{OrmCodec Mailbox.Property Mailbox.Value}.
Variable config : MailboxConfig.
Abbreviation SetHelper := (SetHelper Mailbox.Property MailboxItem).

(** The values that a request can give to a property. *)
Definition allowed (h : SetHelper) (p : Mailbox.Property) (v : Mailbox.Value) : Prop :=
  match p with
  | Mailbox.Name => exists name, v = Mailbox.VText name
  | Mailbox.ParentId =>
      v = Mailbox.VId 0 \/ (exists id, id_document_id id ∈ h_document_ids h /\ v = Mailbox.VId (u32 (id_document_id id + 1))) \/
      (exists name id, map_id_reference h name = Some id /\ v = Mailbox.VId (u64 (id + 1)))
  | Mailbox.Role => v = Mailbox.VNull \/ exists role, v = Mailbox.VText role
  | Mailbox.IsSubscribed | Mailbox.SortOrder => True
  | _ => False
  end.

Lemma mailbox_value_allowed w h current self p value self' r :
  mailbox_value config w h current self p value = inr (self', r) ->
  properties self' = properties self /\ forall v, r = Some v -> allowed h p v.
Proof.
  unfold mailbox_value. destruct p, value; cbn; try done.
  - case_match; [|done]. intros [= <- <-]. split; [done|]. intros v [= <-]. by eexists.
  - case_bool_decide; [done|]. case_bool_decide; cbn; [|done]. intros [= <- <-]. split; [done|]. intros v [= <-]. right. left. by eexists.
  - unfold get_id_reference. destruct (map_id_reference h value) as [id|] eqn:Er; cbn; [|done]. intros [= <- <-]. split; [done|].
    intros v [= <-]. right. right. by exists value, id.
  - intros [= <- <-]. split; [done|]. intros v [= <-]. by left.
  - case_match; [|done]. intros [= <- <-]. split; [apply orm_tag_properties|]. intros v [= <-]. right. by eexists.
  - intros [= <- <-]. split; [done|]. intros v [= <-]. by left.
  - by intros [= <- <-].
  - repeat case_match; intros [= <- <-]; by split.
  - destruct (acl_apply_all _ self value) as [e|o] eqn:Ea; cbn; [done|]. intros [= <- <-]. split; [|done].
    by eapply acl_apply_all_properties.
Qed.

Lemma mailbox_properties_allowed w h current l self self' :
  vm_inv (properties self) -> mailbox_properties config w h current self l = inr self' ->
  vm_inv (properties self') /\ forall p v, orm_get self' p = Some v -> orm_get self p = Some v \/ (p ∈ l.*1 /\ allowed h p v).
Proof.
  revert self. induction l as [|[q value] l IH]; intros self Hs; cbn [mailbox_properties].
  { intros [= <-]. split; [done|by left]. }
  destruct (mailbox_value config w h current self q value) as [e|[self1 r]] eqn:Ev; cbn [mbind sum_bind fst snd]; [done|].
  apply mailbox_value_allowed in Ev as [Hp Hr]. assert (vm_inv (properties self1)) as Hs1 by (by rewrite Hp).
  intros Hrun. apply IH in Hrun as [I1 I2]; [|destruct r as [v|]; [by apply (orm_set_get self1 q v q)|done]].
  split; [done|]. intros p v Hv. cbn [fmap list_fmap fst]. destruct (I2 p v Hv) as [Hg|[Hin Ha]]; [|right; split; [by right|done]].
  destruct r as [x|]; cbn [from_option] in Hg.
  - destruct (orm_set_get self1 q x p Hs1) as [_ Hget]. rewrite Hget in Hg. destruct (decide (q = p)) as [->|].
    + injection Hg as <-. right. split; [by left|by apply Hr].
    + left. revert Hg. unfold orm_get. by rewrite Hp.
  - left. revert Hg. unfold orm_get. by rewrite Hp.
Qed.

(** What a change that passed has been checked for. *)
Lemma mailbox_set_checked w h self item i current w' self' :
  mailbox_set config w h self item i current = (w', inr self') ->
  mailbox_properties config w h current self (vm_iter item) = inr self' /\
  (forall i' p, i = Some i' -> parent_of self' = Some p -> check_parents (mailbox_max_depth config) w h i' p = inr tt) /\
  (forall role, orm_get self' Mailbox.Role = Some (Mailbox.VText role) -> check_unused w h (FEq Mailbox.Role (QKeyword role)) = inr tt) /\
  (forall name p, orm_get self' Mailbox.Name = Some (Mailbox.VText name) -> name_scope current self' name = Some p ->
    check_unused w h (FAnd [FEq Mailbox.ParentId (QLongInteger p); FEq Mailbox.Name (QIndex name)]) = inr tt).
Proof.
  unfold mailbox_set. destruct (mailbox_properties config w h current self (vm_iter item)) as [e|o] eqn:Ep; cbn [mbind sum_bind]; [done|].
  intros Hrun.
  assert (forall (c1 c2 c3 : SetError Mailbox.Property + unit), 
    match (_ ← c1; _ ← c2; _ ← c3; inr o) with inl e => (w, inl e) | inr self => (invalidate_changed w h current self, inr self) end = (w', inr self') ->
    c1 = inr tt /\ c2 = inr tt /\ c3 = inr tt /\ self' = o) as Hsplit.
  { intros [?|[]] [?|[]] [?|[]]; cbn; try done. by intros [= _ ->]. }
  apply Hsplit in Hrun as (C1 & C2 & C3 & ->). split_and!; [done|..].
  - intros i' p -> Hp. by rewrite Hp in C1.
  - intros role Hr. by rewrite Hr in C2.
  - intros name p Hn Hs. by rewrite Hn, Hs in C3.
Qed.
End Sets.

(** ** The tree of mailboxes *)

Definition name_of (o : Fields) : option (list Z) := orm_get o Mailbox.Name ≫= Mailbox.as_text.
Definition role_of (o : Fields) : option (list Z) := orm_get o Mailbox.Role ≫= Mailbox.as_text.

(** A stored mailbox has a name and a parent. *)
Record stored_ok (o : Fields) : Prop := {
  so_inv : vm_inv (properties o);
  so_name : exists name, orm_get o Mailbox.Name = Some (Mailbox.VText name);
  so_parent : exists p, orm_get o Mailbox.ParentId = Some (Mailbox.VId p);
  so_role v : orm_get o Mailbox.Role = Some v -> v = Mailbox.VNull \/ exists role, v = Mailbox.VText role }.

(** From the parent [p] up to the root in [n] steps. *)
Inductive rooted (m : gmap Z Fields) : Z -> nat -> Prop :=
| rooted_root : rooted m 0 0
| rooted_parent p o q n : p <> 0 -> m !! (p - 1) = Some o -> parent_of o = Some q -> rooted m q n -> rooted m p (S n).

(** Every mailbox comes from the root, siblings have different names, and a
    role is that of one mailbox. *)
Record mailbox_tree (m : gmap Z Fields) : Prop := {
  mt_ids i o : m !! i = Some o -> 0 <= i < U32_MAX /\ stored_ok o;
  mt_rooted i o p : m !! i = Some o -> parent_of o = Some p -> exists n, rooted m p n;
  mt_names i j o o' : m !! i = Some o -> m !! j = Some o' -> parent_of o = parent_of o' -> name_of o = name_of o' -> i = j;
  mt_roles i j o o' role : m !! i = Some o -> m !! j = Some o' -> role_of o = Some role -> role_of o' = Some role -> i = j }.

(** What the store promises: filling a cache changes no mailbox, and
    [mail_delete] only adds to the batch, in the log of mailboxes at most child
    updates. *)
Class MailboxStoreLaws (W : Type) `{MailboxStore W} : Prop := {
  shared_folders_keeps w a l acl w' r : shared_folders w a l acl = (w', r) -> mailbox_orm w' = mailbox_orm w /\ mailbox_query w' = mailbox_query w;
  mail_delete_grows w a b d : grows nothing Collection.Mailbox b (mail_delete w a b d).1.1 }.

(** The store holds the mailboxes [m] of an account. *)
Record holds_mailboxes `{MailboxStore W} (w : W) (account_id : AccountId) (m : gmap Z Fields) : Prop := {
  hm_orm i : mailbox_orm w account_id i = inr (m !! i);
  hm_query f : finds (mailbox_query w account_id f) m f }.

Section Tree.
Context `{SetStore W} `{MailboxStore W} `{Unicode} `{OrmCodec Mailbox.Property Mailbox.Value}.
Variable config : MailboxConfig.
Abbreviation SetHelper := (SetHelper Mailbox.Property MailboxItem).

(** The helper of a request that has not changed anything yet. *)
Definition untouched (h : SetHelper) (m : gmap Z Fields) : Prop := h_document_ids h = dom m /\ rs_created (h_response h) = ∅.

Lemma check_unused_none w h m f i o :
  holds_mailboxes w (h_account_id h) m -> check_unused w h f = inr tt -> m !! i = Some o -> matches f o = false.
Proof.
  intros [_ Hq] Hc Hi. destruct (Hq f) as (l & Hl & _ & Hin). unfold check_unused in Hc. rewrite Hl in Hc. cbn in Hc.
  destruct l as [|x l]; [|done]. apply not_true_iff_false. intros Hm. assert (i ∈ @nil Z) as []%elem_of_nil. apply Hin. by eauto.
Qed.

Lemma id_document_id_small x : 0 <= x <= U32_MAX -> id_document_id x = x.
Proof.
  intros Hx. unfold id_document_id. change 0xFFFFFFFF with (Z.ones 32). rewrite Z.land_ones by lia. unfold u32, wrap.
  rewrite Z.mod_mod by lia. apply Z.mod_small. lia.
Qed.
Lemma id_document_id_range x : 0 <= id_document_id x <= U32_MAX.
Proof. unfold id_document_id, u32, wrap. pose proof (Z.mod_pos_bound (Z.land x 0xFFFFFFFF) (2 ^ 32)). lia. Qed.

(** Going up from [p] never meets the mailbox [i], whatever [i] becomes. *)
Lemma check_parents_rooted n w h m i p o :
  holds_mailboxes w (h_account_id h) m -> mailbox_tree m -> h_document_ids h = dom m ->
  (p = 0 \/ 0 <= p - 1 < U32_MAX) -> check_parents n w h i p = inr tt -> exists k, (k < n)%nat /\ rooted (<[i := o]> m) p k.
Proof.
  intros [Ho _] Ht Hids. revert p. induction n as [|n IH]; intros p Hp; cbn [check_parents]; [done|].
  destruct (Z.eqb_spec p (i + 1)); [done|]. destruct (Z.eqb_spec p 0) as [->|Hp0]; [exists 0%nat; split; [lia|constructor]|].
  destruct Hp as [?|Hp]; [done|]. rewrite id_document_id_small, Ho by lia. cbn [lift mbind sum_bind].
  destruct (m !! (p - 1)) as [o1|] eqn:E1; cycle 1.
  { rewrite Hids, bool_decide_false; [done|]. by apply not_elem_of_dom. }
  destruct (mt_ids m Ht _ _ E1) as [_ Hok]. destruct (so_parent _ Hok) as [q Hq]. assert (parent_of o1 = Some q) as Hq1 by (unfold parent_of; by rewrite Hq).
  rewrite Hq1. cbn [default]. intros Hc. destruct (IH q) as (k & Hk & Hr); [|done|].
  - destruct (mt_rooted m Ht _ _ _ E1 Hq1) as [k Hr]. inversion Hr as [|q' o2 q2 k' Hq0 Hl]; subst; [by left|]. right.
    apply (mt_ids m Ht) in Hl as [? _]. done.
  - exists (S k). split; [lia|]. econstructor; [done| |done..]. rewrite lookup_insert_ne by lia. done.
Qed.

(** Mailboxes that come from the root still do when another one has changed. *)
Lemma rooted_insert m i o p n :
  (forall q, parent_of o = Some q -> exists k, rooted (<[i := o]> m) q k) -> parent_of o <> None -> rooted m p n -> exists k, rooted (<[i := o]> m) p k.
Proof.
  intros Ho Hne. induction 1 as [|p o1 q n Hp Hl Hq _ IH]; [exists 0%nat; constructor|].
  destruct (decide (p - 1 = i)) as [<-|].
  - destruct (parent_of o) as [q'|] eqn:Eq; [|done]. destruct (Ho q' eq_refl) as [k Hk]. exists (S k).
    econstructor; [done|by rewrite lookup_insert_eq|done..].
  - destruct IH as [k Hk]. exists (S k). econstructor; [done| |done..]. by rewrite lookup_insert_ne.
Qed.
Lemma rooted_delete m i p n : (forall j o, m !! j = Some o -> parent_of o <> Some (i + 1)) -> p <> i + 1 -> rooted m p n -> rooted (delete i m) p n.
Proof.
  intros Hi Hp Hr. induction Hr as [|p o1 q n Hp0 Hl Hq _ IH]; [constructor|].
  econstructor; [done| |done|].
  - rewrite lookup_delete_ne; [done|]. lia.
  - apply IH. intros ->. by apply (Hi (p - 1) o1).
Qed.

(** A mailbox put in the place of another one, or new. *)
Lemma tree_insert m i o :
  mailbox_tree m -> 0 <= i < U32_MAX -> stored_ok o ->
  (forall p, parent_of o = Some p -> exists k, rooted (<[i := o]> m) p k) ->
  (forall j o', j <> i -> m !! j = Some o' -> parent_of o' = parent_of o -> name_of o' = name_of o -> False) ->
  (forall j o' role, j <> i -> m !! j = Some o' -> role_of o' = Some role -> role_of o = Some role -> False) ->
  mailbox_tree (<[i := o]> m).
Proof.
  intros [T1 T2 T3 T4] Hi Ho Hr Hn Hro.
  assert (parent_of o <> None) as Hpo by (destruct (so_parent _ Ho) as [p Hp]; unfold parent_of; by rewrite Hp).
  split.
  - intros j o' [[<- <-]|[_ Hj]]%lookup_insert_Some; [done|by eapply T1].
  - intros j o' p [[<- <-]|[_ Hj]]%lookup_insert_Some Hp; [by apply Hr|]. destruct (T2 _ _ _ Hj Hp) as [n Hrt]. by eapply rooted_insert.
  - intros j j' o1 o2 [[<- <-]|[Hj L1]]%lookup_insert_Some [[<- <-]|[Hj' L2]]%lookup_insert_Some Hp Hnm; [done|..|by eapply T3].
    + exfalso. eapply (Hn j' o2); by eauto.
    + exfalso. eapply (Hn j o1); by eauto.
  - intros j j' o1 o2 role [[<- <-]|[Hj L1]]%lookup_insert_Some [[<- <-]|[Hj' L2]]%lookup_insert_Some Hr1 Hr2; [done|..|by eapply T4].
    + exfalso. eapply (Hro j' o2); by eauto.
    + exfalso. eapply (Hro j o1); by eauto.
Qed.
(** ** Which mailboxes a query finds *)

Lemma parent_indexed : find_indexed Mailbox.ParentId = Some F_INDEX.
Proof. vm_compute. reflexivity. Qed.
Lemma name_indexed : find_indexed Mailbox.Name = Some (Z.lor F_TOKENIZE F_INDEX).
Proof. vm_compute. reflexivity. Qed.
Lemma role_indexed : find_indexed Mailbox.Role = Some F_KEYWORD.
Proof. vm_compute. reflexivity. Qed.
Lemma entries_indexed (p : Mailbox.Property) o v : find_indexed p = Some o -> entries p (Some v) = index_entries (Mailbox.value_index_as v).
Proof. intros Hp. unfold entries. by rewrite Hp. Qed.

Lemma matches_parent o p v : stored_ok o -> parent_of o = Some p -> matches (FEq Mailbox.ParentId (QLongInteger v)) o = bool_decide (p = v).
Proof.
  intros Ho Hp. destruct (so_parent _ Ho) as [q Hq]. unfold parent_of in Hp. rewrite Hq in Hp. injection Hp as ->.
  cbn [matches query_entry]. rewrite Hq, (entries_indexed _ _ _ parent_indexed). apply bool_decide_ext. cbn. rewrite list_elem_of_singleton. naive_solver.
Qed.
Lemma matches_name o name v : stored_ok o -> name_of o = Some name -> matches (FEq Mailbox.Name (QIndex v)) o = bool_decide (name = v).
Proof.
  intros Ho Hp. destruct (so_name _ Ho) as [q Hq]. unfold name_of in Hp. rewrite Hq in Hp. injection Hp as ->.
  cbn [matches query_entry]. rewrite Hq, (entries_indexed _ _ _ name_indexed). apply bool_decide_ext. cbn. rewrite list_elem_of_singleton. naive_solver.
Qed.
Lemma matches_role (o : Fields) role v : role_of o = Some role -> matches (FEq Mailbox.Role (QKeyword v)) o = bool_decide (role = v).
Proof.
  unfold role_of. intros Hr. destruct (orm_get o Mailbox.Role) as [x|] eqn:Ex; [|done]. destruct x; try done. injection Hr as ->.
  cbn [matches query_entry]. rewrite Ex, (entries_indexed _ _ _ role_indexed). apply bool_decide_ext. cbn. rewrite list_elem_of_singleton. naive_solver.
Qed.

(** The values after a change. *)
Lemma keeps_value p v : (p = Mailbox.Name \/ p = Mailbox.ParentId \/ p = Mailbox.Role) -> is_null (Mailbox.value_index_as v) = false -> keeps p v = true.
Proof.
  intros [->|[->| ->]] Hv; unfold keeps; [rewrite name_indexed|rewrite parent_indexed|rewrite role_indexed]; cbn; by rewrite Hv.
Qed.

Lemma merged_mailbox (h : SetHelper) o fields d o' d' b :
  stored_ok o -> vm_inv (properties fields) -> (forall p v, orm_get fields p = Some v -> allowed h p v) ->
  merge_validate o d fields = inr (o', d', b) ->
  stored_ok o' /\
  parent_of o' = match parent_of fields with Some p => Some p | None => parent_of o end /\
  name_of o' = match name_of fields with Some n => Some n | None => name_of o end /\
  (forall role, role_of o' = Some role -> role_of fields = Some role \/ (orm_get fields Mailbox.Role = None /\ role_of o = Some role)).
Proof.
  intros Ho Hf Ha Hm. assert (orm_merge o d fields = Some (o', d', b)) as Hmerge.
  { unfold merge_validate in Hm. destruct (check_required _ _); [done|]. destruct (check_max_len _ _); [done|].
    destruct (orm_merge o d fields); [by injection Hm as ->|done]. }
  destruct (so_name _ Ho) as [n0 Hn0], (so_parent _ Ho) as [p0 Hp0].
  destruct (orm_merge_get o fields o' d d' b Mailbox.Name (so_inv _ Ho) Hf Hmerge) as [Hinv Hname].
  destruct (orm_merge_get o fields o' d d' b Mailbox.ParentId (so_inv _ Ho) Hf Hmerge) as [_ Hparent].
  destruct (orm_merge_get o fields o' d d' b Mailbox.Role (so_inv _ Ho) Hf Hmerge) as [_ Hrole].
  assert (exists n, orm_get o' Mailbox.Name = Some (Mailbox.VText n) /\ Some n = match name_of fields with Some n => Some n | None => name_of o end) as (n & Hn & En).
  { unfold name_of. destruct (orm_get fields Mailbox.Name) as [v|] eqn:Ev.
    - destruct (Ha _ _ Ev) as [n ->]. exists n. split; [|done]. apply Hname; [by apply keeps_value; [auto|]|]. by rewrite Hn0.
    - exists n0. by rewrite Hname, Hn0. }
  assert (exists p, orm_get o' Mailbox.ParentId = Some (Mailbox.VId p) /\ Some p = match parent_of fields with Some p => Some p | None => parent_of o end) as (p & Hp & Ep).
  { unfold parent_of. destruct (orm_get fields Mailbox.ParentId) as [v|] eqn:Ev.
    - assert (exists p, v = Mailbox.VId p) as [p ->] by (destruct (Ha _ _ Ev) as [->|[(? & _ & ->)|(? & ? & _ & ->)]]; by eexists).
      exists p. split; [|done]. apply Hparent; [by apply keeps_value; [auto|]|]. by rewrite Hp0.
    - exists p0. by rewrite Hparent, Hp0. }
  assert (forall v, orm_get o' Mailbox.Role = Some v -> v = Mailbox.VNull \/ exists role, v = Mailbox.VText role /\
    (role_of fields = Some role \/ (orm_get fields Mailbox.Role = None /\ role_of o = Some role))) as Hr.
  { intros v Hv. unfold role_of. destruct (orm_get fields Mailbox.Role) as [x|] eqn:Ex.
    - destruct Hrole as [[Hr|Hr] _]; rewrite Hr in Hv; [|done]. injection Hv as <-.
      destruct (Ha _ _ Ex) as [->|[role ->]]; [by left|]. right. exists role. by auto.
    - rewrite Hrole in Hv. destruct (so_role _ Ho _ Hv) as [->|[role ->]]; [by left|]. right. exists role. rewrite Hv. by auto. }
  split_and!.
  - split; [done|by eexists|by eexists|]. intros v Hv. destruct (Hr v Hv) as [->|(role & -> & _)]; [by left|by right; eexists].
  - unfold parent_of at 1. rewrite Hp. done.
  - unfold name_of at 1. rewrite Hn. done.
  - intros role Hro. unfold role_of in Hro. destruct (orm_get o' Mailbox.Role) as [v|]; [|done].
    destruct (Hr v eq_refl) as [->|(role' & -> & Hor)]; [done|]. by injection Hro as <-.
Qed.
(** The parent that an untouched request can give. *)
Lemma allowed_parent (h : SetHelper) m v :
  mailbox_tree m -> untouched h m -> allowed h Mailbox.ParentId v ->
  exists p, v = Mailbox.VId p /\ (p = 0 \/ (0 <= p - 1 < U32_MAX /\ is_Some (m !! (p - 1)))).
Proof.
  intros Ht [Hids Hc] [->|[(id & Hin & ->)|(name & id & Hr & _)]].
  - exists 0. by auto.
  - rewrite Hids in Hin. apply elem_of_dom in Hin as [o Ho]. destruct (mt_ids m Ht _ _ Ho) as [Hi _]. eexists. split; [done|]. right.
    unfold u32, wrap. rewrite Z.mod_small by lia. replace (id_document_id id + 1 - 1) with (id_document_id id) by lia. by eauto.
  - unfold map_id_reference in Hr. by rewrite Hc, lookup_empty in Hr.
Qed.

(** What a change that passed cannot collide with. *)
Lemma checked_names w h m self item i current w' self' j o' name p :
  holds_mailboxes w (h_account_id h) m -> mailbox_tree m -> mailbox_set config w h self item i current = (w', inr self') ->
  orm_get self' Mailbox.Name = Some (Mailbox.VText name) -> name_scope current self' name = Some p ->
  m !! j = Some o' -> parent_of o' = Some p -> name_of o' = Some name -> False.
Proof.
  intros Hw Ht Hs Hn Hsc Hj Hp Hnm. apply mailbox_set_checked in Hs as (_ & _ & _ & Hc). specialize (Hc _ _ Hn Hsc).
  pose proof (check_unused_none w h m _ j o' Hw Hc Hj) as Hm. apply (mt_ids m Ht) in Hj as [_ Ho].
  cbn [matches forallb] in Hm. change (bool_decide _) with (matches (FEq Mailbox.ParentId (QLongInteger p)) o') in Hm at 1.
  change (bool_decide _) with (matches (FEq Mailbox.Name (QIndex name)) o') in Hm.
  rewrite (matches_parent _ p), (matches_name _ name), !bool_decide_true in Hm by done. done.
Qed.
Lemma checked_roles w h m self item i current w' self' j o' role :
  holds_mailboxes w (h_account_id h) m -> mailbox_set config w h self item i current = (w', inr self') ->
  role_of self' = Some role -> m !! j = Some o' -> role_of o' = Some role -> False.
Proof.
  intros Hw Hs Hr Hj Hr'. apply mailbox_set_checked in Hs as (_ & _ & Hc & _).
  assert (orm_get self' Mailbox.Role = Some (Mailbox.VText role)) as Hg.
  { unfold role_of in Hr. destruct (orm_get self' Mailbox.Role) as [v|]; [|done]. destruct v; try done. by injection Hr as ->. }
  pose proof (check_unused_none w h m _ j o' Hw (Hc _ Hg) Hj) as Hm. by rewrite (matches_role _ role), bool_decide_true in Hm.
Qed.

Lemma text_name (h : SetHelper) (o : Fields) : (forall p v, orm_get o p = Some v -> allowed h p v) ->
  forall name, name_of o = Some name -> orm_get o Mailbox.Name = Some (Mailbox.VText name).
Proof.
  intros Ha name Hn. unfold name_of in Hn. destruct (orm_get o Mailbox.Name) as [v|] eqn:Ev; [|done].
  destruct (Ha _ _ Ev) as [n ->]. by injection Hn as ->.
Qed.

Lemma name_set w h current l self self' :
  vm_inv (properties self) -> mailbox_properties config w h current self l = inr self' ->
  Mailbox.Name ∈ l.*1 \/ is_Some (orm_get self Mailbox.Name) -> is_Some (orm_get self' Mailbox.Name).
Proof.
  revert self. induction l as [|[q value] l IH]; intros self Hs; cbn [mailbox_properties].
  { intros [= <-] [Hin|?]; [by apply elem_of_nil in Hin|done]. }
  destruct (mailbox_value config w h current self q value) as [e|[self1 r]] eqn:Ev; cbn [mbind sum_bind fst snd]; [done|].
  pose proof (mailbox_value_allowed config _ _ _ _ _ _ _ _ Ev) as [Hp _]. assert (vm_inv (properties self1)) as Hs1 by (by rewrite Hp).
  intros Hrun Hor. eapply IH; [|exact Hrun|]; [destruct r as [v|]; [by apply (orm_set_get self1 q v q)|done]|].
  destruct (decide (q = Mailbox.Name)) as [->|Hq].
  - right. destruct value; try done. cbn in Ev. destruct (_ <? _); [|done]. injection Ev as <- <-. cbn [from_option].
    destruct (orm_set_get self Mailbox.Name (Mailbox.VText value) Mailbox.Name Hs) as [_ ->]. by rewrite decide_True.
  - destruct Hor as [[Hq'|Hin]%elem_of_cons|Hn]; [by symmetry in Hq'|by left|right].
    assert (orm_get self1 Mailbox.Name = orm_get self Mailbox.Name) as E1 by (unfold orm_get; by rewrite Hp).
    destruct r as [v|]; cbn [from_option]; [|by rewrite E1].
    destruct (orm_set_get self1 q v Mailbox.Name Hs1) as [_ ->]. by rewrite decide_False, E1.
Qed.

Lemma rooted_same_parent m i o o' p n :
  m !! i = Some o -> parent_of o' = parent_of o -> rooted m p n -> rooted (<[i := o']> m) p n.
Proof.
  intros Hi Hp. induction 1 as [|p o1 q n Hp0 Hl Hq _ IH]; [constructor|]. destruct (decide (p - 1 = i)) as [<-|].
  - econstructor; [done|by rewrite lookup_insert_eq| |done]. congruence.
  - econstructor; [done|by rewrite lookup_insert_ne|done..].
Qed.

Lemma get_parent (o : Fields) p : parent_of o = Some p -> orm_get o Mailbox.ParentId = Some (Mailbox.VId p).
Proof.
  unfold parent_of. destruct (orm_get o Mailbox.ParentId) as [v|]; [|done]. destruct v; try done. cbn. by intros [= ->].
Qed.

Lemma update_tree w h m item i o w' fields d o' d' b :
  holds_mailboxes w (h_account_id h) m -> mailbox_tree m -> untouched h m -> m !! i = Some o -> vm_inv item ->
  (Mailbox.Name ∈ vm_k item \/ Mailbox.ParentId ∉ vm_k item) ->
  mailbox_set config w h (track_changes o) item (Some i) (Some o) = (w', inr fields) ->
  merge_validate o d fields = inr (o', d', b) -> mailbox_tree (<[i := o']> m).
Proof.
  intros Hw Ht Hu Hi Hitem Hsent Hs Hm. destruct (mt_ids m Ht _ _ Hi) as [Hr Hok].
  pose proof (mailbox_set_checked config _ _ _ _ _ _ _ _ Hs) as (Hp & Hpar & _).
  destruct (mailbox_properties_allowed config w h (Some o) (vm_iter item) (track_changes o) fields) as [Hf Hset]; [apply vm_new_inv|done|].
  rewrite (vm_iter_keys _ (vm_inv_length _ Hitem)) in Hset.
  assert (forall p v, orm_get fields p = Some v -> p ∈ vm_k item /\ allowed h p v) as Ha.
  { intros p v Hv. by destruct (Hset p v Hv) as [?|?]. }
  assert (forall p v, orm_get fields p = Some v -> allowed h p v) as Ha' by (intros p v Hv; by apply Ha).
  destruct (merged_mailbox h o fields d o' d' b Hok Hf Ha' Hm) as (Hok' & Epar & Ename & Erole).
  apply tree_insert; [done..| | |].
  - intros p Ep. rewrite Epar in Ep. destruct (parent_of fields) as [q|] eqn:Eq.
    + injection Ep as ->. destruct (allowed_parent h m _ Ht Hu (Ha' _ _ (get_parent _ _ Eq))) as (p' & [= <-] & Hp').
      destruct (check_parents_rooted (mailbox_max_depth config) w h m i p o' Hw Ht (proj1 Hu)) as (k & _ & Hk); [naive_solver|by apply Hpar|by eauto].
    + destruct (mt_rooted m Ht _ _ _ Hi Ep) as [k Hk]. exists k. by eapply rooted_same_parent.
  - intros j oj Hj Hoj Epj Enj. destruct (so_parent _ Hok') as [p Hp'], (so_name _ Hok') as [n Hn'].
    assert (parent_of o' = Some p) as Hpp by (unfold parent_of; by rewrite Hp'). assert (name_of o' = Some n) as Hnn by (unfold name_of; by rewrite Hn').
    destruct (decide (parent_of o' = parent_of o /\ name_of o' = name_of o)) as [[E1 E2]|Hne].
    { apply Hj. eapply (mt_names m Ht); [done..|by rewrite Epj|by rewrite Enj]. }
    assert (name_of fields = Some n) as Hnf.
    { rewrite Ename in Hnn. destruct (name_of fields) as [n1|] eqn:E1; [done|]. exfalso. destruct Hsent as [Hin|Hin].
      - destruct (name_set w h (Some o) (vm_iter item) (track_changes o) fields) as [v Hv]; [apply vm_new_inv|done| |].
        + left. by rewrite (vm_iter_keys _ (vm_inv_length _ Hitem)).
        + destruct (Ha' _ _ Hv) as [t ->]. unfold name_of in E1. by rewrite Hv in E1.
      - apply Hne. split; [|by rewrite Ename]. rewrite Epar. destruct (parent_of fields) as [q|] eqn:Eq; [|done].
        by destruct (Ha _ _ (get_parent _ _ Eq)). }
    eapply (checked_names w h m); [done..|by apply (text_name h)| |exact Hoj|by rewrite Epj|by rewrite Enj].
    unfold name_scope. rewrite Epar in Hpp. destruct (parent_of fields) as [q|] eqn:Eq; [done|].
    rewrite bool_decide_true; [by rewrite Hpp|]. intros Hc. apply Hne. split; [by rewrite Epar|]. rewrite Hnn. unfold name_of. by rewrite Hc.
  - intros j oj role Hj Hoj Erj Er. destruct (Erole role Er) as [Hrf|[_ Hro]].
    + by eapply (checked_roles w h m).
    + apply Hj. by eapply (mt_roles m Ht).
Qed.
Lemma create_tree w h m item i w' fields o d d' :
  holds_mailboxes w (h_account_id h) m -> mailbox_tree m -> untouched h m -> m !! i = None -> 0 <= i < U32_MAX ->
  mailbox_set config w h orm_new item None None = (w', inr fields) ->
  o = (if has_property fields Mailbox.ParentId then fields else orm_set fields Mailbox.ParentId (Mailbox.VId 0)) ->
  insert_validate o d = inr d' -> mailbox_tree (<[i := o]> m).
Proof.
  intros Hw Ht Hu Hi Hr Hs Ho Hv.
  pose proof (mailbox_set_checked config _ _ _ _ _ _ _ _ Hs) as (Hp & _).
  destruct (mailbox_properties_allowed config w h None (vm_iter item) orm_new fields) as [Hf Hset]; [apply vm_new_inv|done|].
  assert (forall p v, orm_get fields p = Some v -> allowed h p v) as Ha by (intros p v Hpv; by destruct (Hset p v Hpv) as [?|[_ ?]]).
  assert (vm_inv (properties o) /\ parent_of o = Some (default 0 (parent_of fields)) /\
    (forall p, p <> Mailbox.ParentId -> orm_get o p = orm_get fields p)) as (Hoi & Hop & Hog).
  { subst o. unfold has_property, vm_contains_key. case_bool_decide as Hin.
    - split_and!; [done| |done]. apply vm_key_get in Hin as [v Hpv]; [|done]. destruct (allowed_parent h m v Ht Hu (Ha _ _ Hpv)) as (p & -> & _).
      unfold parent_of. change (vm_get (properties fields) Mailbox.ParentId) with (orm_get fields Mailbox.ParentId) in Hpv. by rewrite Hpv.
    - apply vm_get_None in Hin; [|done]. change (vm_get (properties fields) Mailbox.ParentId) with (orm_get fields Mailbox.ParentId) in Hin.
      split_and!; [by apply (orm_set_get fields Mailbox.ParentId (Mailbox.VId 0) Mailbox.ParentId)|..].
      + unfold parent_of at 1. destruct (orm_set_get fields Mailbox.ParentId (Mailbox.VId 0) Mailbox.ParentId Hf) as [_ ->].
        unfold parent_of. by rewrite decide_True, Hin.
      + intros p Hpp. destruct (orm_set_get fields Mailbox.ParentId (Mailbox.VId 0) p Hf) as [_ ->]. by rewrite decide_False. }
  assert (exists name, orm_get fields Mailbox.Name = Some (Mailbox.VText name)) as [name Hn].
  { unfold insert_validate in Hv. cbn [required Mailbox.object check_required] in Hv. rewrite Hog in Hv by done.
    destruct (orm_get fields Mailbox.Name) as [v|] eqn:Ev; [|done]. destruct (Ha _ _ Ev) as [name ->]. by eexists. }
  assert (orm_get o Mailbox.Name = Some (Mailbox.VText name)) as Hon by (by rewrite Hog).
  apply tree_insert; [done..| | | |].
  - split; [done|by eexists|by eexists; apply get_parent|]. intros v Hrv. rewrite Hog in Hrv by done. destruct (Ha _ _ Hrv) as [->|[role ->]]; [by left|by right; eexists].
  - intros p Hpp. rewrite Hop in Hpp. injection Hpp as <-. destruct (parent_of fields) as [p|] eqn:Ep; [|exists 0%nat; constructor]. cbn [default from_option id].
    destruct (allowed_parent h m _ Ht Hu (Ha _ _ (get_parent _ _ Ep))) as (p' & [= <-] & [->|[_ [op Hp1]]]); [exists 0%nat; constructor|].
    destruct (mt_ids m Ht _ _ Hp1) as [Hp1r Hok]. destruct (so_parent _ Hok) as [q Hq]. assert (parent_of op = Some q) as Hq' by (unfold parent_of; by rewrite Hq).
    destruct (mt_rooted m Ht _ _ _ Hp1 Hq') as [k Hk]. exists (S k). assert (p - 1 <> i) as Hne by (intros <-; congruence).
    econstructor; [lia|by rewrite lookup_insert_ne|done|]. clear -Hk Hi. induction Hk as [|p o1 q n Hp0 Hl Hq _ IH]; [constructor|].
    econstructor; [done| |done..]. rewrite lookup_insert_ne; [done|]. intros ->. congruence.
  - intros j oj Hj Hoj Epj Enj. unfold name_of in Enj at 2. rewrite Hon in Enj. cbn in Enj.
    apply (checked_names w h m orm_new item None None w' fields j oj name (default 0 (parent_of fields))); [done..| |done|by rewrite Epj|done].
    unfold name_scope. by destruct (parent_of fields).
  - intros j oj role Hj Hoj Erj Er. eapply (checked_roles w h m); [done..| |exact Hoj|done].
    unfold role_of in Er |- *. by rewrite Hog in Er.
Qed.
Lemma destroy_tree m i : mailbox_tree m -> (forall j o, m !! j = Some o -> parent_of o <> Some (i + 1)) -> mailbox_tree (delete i m).
Proof.
  intros [T1 T2 T3 T4] Hc. split.
  - intros j o [_ Hj]%lookup_delete_Some. by eapply T1.
  - intros j o p [_ Hj]%lookup_delete_Some Hp. destruct (T2 _ _ _ Hj Hp) as [n Hn]. exists n. apply rooted_delete; [done| |done].
    intros ->. by apply (Hc _ _ Hj).
  - intros j j' o o' [_ Hj]%lookup_delete_Some [_ Hj']%lookup_delete_Some. by eapply T3.
  - intros j j' o o' role [_ Hj]%lookup_delete_Some [_ Hj']%lookup_delete_Some. by eapply T4.
Qed.

Lemma check_shared_keeps `{!MailboxStoreLaws W} w h acl i w' r m :
  check_shared w h acl i = (w', r) -> holds_mailboxes w (h_account_id h) m -> holds_mailboxes w' (h_account_id h) m.
Proof.
  unfold check_shared. destruct (shared_folders w _ _ _) as [w1 r1] eqn:E. intros [= <- _] [Ho Hq].
  apply shared_folders_keeps in E as [E1 E2]. split; [by rewrite E1|by rewrite E2].
Qed.

Lemma destroy_checked `{!MailboxStoreLaws W} rm w h m id d w' h' d' :
  holds_mailboxes w (h_account_id h) m -> mailbox_tree m -> id_document_id id < U32_MAX ->
  mailbox_destroy rm id w h d = (w', h', d', inr tt) -> forall j o, m !! j = Some o -> parent_of o <> Some (id_document_id id + 1).
Proof.
  intros Hw Ht Hid. unfold mailbox_destroy. destruct (_ && _); [done|].
  assert (forall w1, holds_mailboxes w1 (h_account_id h) m ->
    match lift (P := Mailbox.Property) (mailbox_query w1 (h_account_id h) (FEq Mailbox.ParentId (QLongInteger (u32 (id_document_id id + 1))))) with
    | inr [] => True | _ => False end -> forall j o, m !! j = Some o -> parent_of o <> Some (id_document_id id + 1)) as Hnone.
  { intros w1 [_ Hq] Hf j o Hj Hp. destruct (Hq (FEq Mailbox.ParentId (QLongInteger (u32 (id_document_id id + 1))))) as (l & Hl & _ & Hin).
    rewrite Hl in Hf. cbn in Hf. destruct l; [|done]. assert (j ∈ @nil Z) as []%elem_of_nil. apply Hin. exists o. split; [done|].
    rewrite (matches_parent _ _ _ (proj2 (mt_ids m Ht _ _ Hj)) Hp). apply bool_decide_true. unfold u32, wrap.
    pose proof (id_document_id_range id). rewrite Z.mod_small by lia. done. }
  assert (exists w1, holds_mailboxes w1 (h_account_id h) m /\ forall w2 r, (if is_shared (h_acl h) (h_account_id h) then
        let '(w, r) := check_shared w h ACL.Delete (id_document_id id) in
        match r with inl e => (w, inl e) | inr _ => if rm then check_shared w h ACL.RemoveItems (id_document_id id) else (w, inr tt) end
      else (w, inr tt)) = (w2, r) -> w2 = w1) as (w1 & Hw1 & Heq).
  { destruct (is_shared _ _); [|exists w; split; [done|by intros ?? [= <- _]]].
    destruct (check_shared w h ACL.Delete _) as [wa ra] eqn:Ea. pose proof (check_shared_keeps _ _ _ _ _ _ m Ea Hw) as Hwa.
    destruct ra as [e|u]; [exists wa; split; [done|by intros ?? [= <- _]]|].
    destruct rm; [|exists wa; split; [done|by intros ?? [= <- _]]].
    destruct (check_shared wa h ACL.RemoveItems _) as [wb rb] eqn:Eb. exists wb. split; [by eapply check_shared_keeps|by intros ?? [= <- _]]. }
  destruct (if is_shared _ _ then _ else _) as [w2 r]. pose proof (Heq _ _ eq_refl) as ->. destruct r as [e|u]; [done|].
  specialize (Hnone w1 Hw1). destruct (lift _) as [e|[|x l]]; [done| |done]. intros _. by apply Hnone.
Qed.
End Tree.

(** ** Paths *)

(** From the parent [p], the names lead to the mailbox [q - 1]; [folders] are
    new mailboxes, by id, name and parent. *)
Inductive path_in (m : gmap Z Fields) (folders : list (Z * list Z * Z)) : Z -> list (list Z) -> Z -> Prop :=
| path_here p : path_in m folders p [] p
| path_stored p i o name names q : m !! i = Some o -> name_of o = Some name -> parent_of o = Some p ->
    path_in m folders (i + 1) names q -> path_in m folders p (name :: names) q
| path_new p i name names q : (i, name, p) ∈ folders -> path_in m folders (i + 1) names q -> path_in m folders p (name :: names) q.

Section Paths.
Context `{SetStore W} `{MailboxStoreLaws W} `{Unicode} `{OrmCodec Mailbox.Property Mailbox.Value}.
Variable config : MailboxConfig.

Lemma path_in_app m folders p names q names' r : path_in m folders p names q -> path_in m folders q names' r -> path_in m folders p (names ++ names') r.
Proof.
  induction 1 as [|p i o name names q Hi Hn Hp _ IH|p i name names q Hi _ IH]; intros Hr; [done|by eapply path_stored; eauto|by eapply path_new; eauto].
Qed.
Lemma path_in_more m folders folders' p names q : path_in m folders p names q -> path_in m (folders ++ folders') p names q.
Proof.
  induction 1 as [|p i o name names q Hi Hn Hp _ IH|p i name names q Hi _ IH]; [constructor|by eapply path_stored; eauto|].
  eapply path_new; [|done]. apply elem_of_app. by left.
Qed.

Lemma stored_parent m i o : mailbox_tree m -> m !! i = Some o -> exists p, parent_of o = Some p /\ 0 <= p <= U32_MAX.
Proof.
  intros Ht Hi. destruct (mt_ids m Ht _ _ Hi) as [_ Hok]. destruct (so_parent _ Hok) as [p Hp]. exists p.
  assert (parent_of o = Some p) as Hpo by (unfold parent_of; by rewrite Hp). split; [done|].
  destruct (mt_rooted m Ht _ _ _ Hi Hpo) as [n Hr]. inversion Hr as [|p' o' q n' Hp0 Hl]; subst; [lia|]. apply (mt_ids m Ht) in Hl as [? _]. lia.
Qed.

(** The mailboxes found are those of the store with one of the names. *)
Lemma found_names_exact (w : W) a m l found :
  holds_mailboxes w a m -> mailbox_tree m -> (forall i, i ∈ l -> is_Some (m !! i)) -> found_names w a l = inr (Some found) ->
  forall name p d, (name, p, d) ∈ found <-> exists i o, i ∈ l /\ d = i + 1 /\ m !! i = Some o /\ name_of o = Some name /\ parent_of o = Some p.
Proof.
  intros Hw Ht. revert found. induction l as [|i l IH]; intros found Hl.
  { intros [= <-] name p d. split; [by intros ?%elem_of_nil|]. by intros (i & _ & Hi%elem_of_nil & _). }
  cbn [found_names]. rewrite (hm_orm _ _ _ Hw). destruct (Hl i (list_elem_of_here _ _)) as [o Ho]. rewrite Ho. cbn [mbind sum_bind].
  destruct (mt_ids m Ht _ _ Ho) as [Hi Hok]. destruct (so_name _ Hok) as [n Hn], (stored_parent m i o Ht Ho) as (p0 & Hp0 & Hr0).
  rewrite Hn, Hp0. cbn [from_option]. destruct (found_names w a l) as [e|[found'|]] eqn:Ef; cbn [mbind sum_bind option_map]; [done| |done].
  intros [= <-] name p d. rewrite elem_of_cons, (IH found' (fun i Hi => Hl i (list_elem_of_further _ _ _ Hi)) eq_refl).
  rewrite id_document_id_small by lia. unfold u32, wrap. rewrite Z.mod_small by lia.
  assert (name_of o = Some n) as Hno by (unfold name_of; by rewrite Hn). split.
  - intros [[= -> -> ->]|(j & o' & Hj & ?)]; [exists i, o; split_and!; [apply list_elem_of_here|done..]|].
    exists j, o'. split; [by apply list_elem_of_further|done].
  - intros (j & o' & [->|Hj]%elem_of_cons & -> & Hm & Hnm & Hpm); [left|right; by eauto 10]. simplify_eq. congruence.
Qed.

Lemma walk_path_longest (m : gmap Z Fields) (found : list (list Z * Z * Z)) (names0 : list (list Z)) (p : Z) (names : list (list Z)) q rest :
  (forall name p d, name ∈ names0 -> (name, p, d) ∈ found <-> exists i o, d = i + 1 /\ m !! i = Some o /\ name_of o = Some name /\ parent_of o = Some p) ->
  (forall name, name ∈ names -> name ∈ names0) -> walk_path found p names = (q, rest) ->
  exists pre, names = pre ++ rest /\ path_in m [] p pre q /\
    forall name l i o, rest = name :: l -> m !! i = Some o -> name_of o = Some name -> parent_of o <> Some q.
Proof.
  intros Hf. revert p. induction names as [|name names IH]; intros p Hin; cbn [walk_path].
  { intros [= <- <-]. exists []. split_and!; [done|constructor|done]. }
  destruct (find _ found) as [[[n' p'] d]|] eqn:Ef.
  - apply find_some in Ef as [Hfound Hb]. apply list_elem_of_In in Hfound. apply andb_true_iff in Hb as [->%bool_decide_eq_true ->%Z.eqb_eq].
    apply Hf in Hfound as (i & o & -> & Hm & Hn & Hp); [|apply Hin, list_elem_of_here].
    intros Hw. destruct (IH (i + 1)) as (pre & -> & Hpre & Hrest); [|done|].
    + intros name' Hname'. by apply Hin, list_elem_of_further.
    + exists (name :: pre). split_and!; [done|by eapply path_stored|done].
  - intros [= <- <-]. exists []. split_and!; [done|constructor|]. intros name' l i o [= <- _] Hm Hn Hp.
    assert ((name, p, i + 1) ∈ found) as Hin' by (apply Hf; [apply Hin, list_elem_of_here|by exists i, o]).
    apply list_elem_of_In in Hin'. pose proof (find_none _ _ Ef _ Hin') as Hb. cbn in Hb. by rewrite bool_decide_true, Z.eqb_refl in Hb.
Qed.

Lemma found_names_total (w : W) a m l :
  holds_mailboxes w a m -> mailbox_tree m -> (forall i, i ∈ l -> is_Some (m !! i)) -> exists found, found_names w a l = inr (Some found).
Proof.
  intros Hw Ht. induction l as [|i l IH]; intros Hl; cbn [found_names]; [by eexists|].
  destruct (Hl i (list_elem_of_here _ _)) as [o Ho]. destruct (so_name _ (proj2 (mt_ids m Ht _ _ Ho))) as [n Hn].
  rewrite (hm_orm _ _ _ Hw), Ho. cbn [mbind sum_bind]. rewrite Hn.
  destruct IH as [found ->]; [intros j Hj; by apply Hl, list_elem_of_further|]. cbn. by eexists.
Qed.
(** The search for the mailboxes of a path, and the way down through them. *)
Lemma path_search (w : W) a m (names : list (list Z)) :
  holds_mailboxes w a m -> mailbox_tree m ->
  exists ids found pre q rest,
    mailbox_query w a (FOr (map (fun n => FEq Mailbox.Name (QIndex n)) names)) = inr ids /\ NoDup ids /\
    (forall i o name, name ∈ names -> m !! i = Some o -> name_of o = Some name -> i ∈ ids) /\
    found_names w a ids = inr (Some found) /\ walk_path found 0 names = (q, rest) /\ names = pre ++ rest /\ path_in m [] 0 pre q /\
    forall name l i o, rest = name :: l -> m !! i = Some o -> name_of o = Some name -> parent_of o <> Some q.
Proof.
  intros Hw Ht. destruct (hm_query _ _ _ Hw (FOr (map (fun n => FEq Mailbox.Name (QIndex n)) names))) as (l & Hl & Hnd & Hin).
  assert (forall i o name, name ∈ names -> m !! i = Some o -> name_of o = Some name -> i ∈ l) as Hall.
  { intros i o name Hname Hi Hn. apply Hin. exists o. split; [done|]. apply existsb_exists. exists (FEq Mailbox.Name (QIndex name)).
    split; [apply in_map_iff; exists name; split; [done|by apply list_elem_of_In]|].
    change (matches (FEq Mailbox.Name (QIndex name)) o = true).
    rewrite (matches_name _ _ _ (proj2 (mt_ids m Ht _ _ Hi)) Hn). by apply bool_decide_true. }
  destruct (found_names_total w a m l Hw Ht) as [found Ef]; [intros j (o & Hj & _)%Hin; by eauto|].
  destruct (walk_path found 0 names) as [q rest] eqn:Ew.
  destruct (walk_path_longest m found names 0 names q rest) as (pre & Hpath & Hpre & Hrest); [|done|done|].
  { intros name p d Hname. rewrite (found_names_exact w a m l found Hw Ht) by (done || (intros j (o & Hj & _)%Hin; by eauto)).
    split; [intros (j & o & _ & ?); by eauto|]. intros (j & o & -> & Hj & Hn & Hp). exists j, o. split_and!; [by eapply Hall|done..]. }
  exists l, found, pre, q, rest. by split_and!.
Qed.

Definition inserted_folder (f : Z * list Z * Z) (a : WriteAction) : Prop :=
  exists d, a = WInsert d /\ orm_insert (path_mailbox f.1.2 f.2) (document_new Collection.Mailbox f.1.1) = Some d.

Lemma create_folders_path m (w : W) a batch p names w' batch' q :
  (forall w c w' i, store_assign_id w a c = (w', inr i) -> 0 <= i < U32_MAX) ->
  create_folders config w a batch p names = (w', inr (Some (batch', q))) ->
  exists folders, path_in m folders p names q /\
    exists actions, wb_documents batch' = wb_documents batch ++ actions /\ Forall2 inserted_folder folders actions.
Proof.
  intros Hid. revert w batch p. induction names as [|name names IH]; intros w batch p; cbn [create_folders].
  { intros [= _ <- <-]. exists []. split; [constructor|]. exists []. by rewrite app_nil_r. }
  destruct (_ <? _); [done|]. destruct (store_assign_id w a _) as [w1 [e|i]] eqn:Ei; [done|]. apply Hid in Ei.
  destruct (orm_insert _ _) as [d|] eqn:Ed; [|done]. unfold u32, wrap. rewrite Z.mod_small by lia. intros Hrun.
  apply IH in Hrun as (folders & Hp & actions & Hd & Hall). exists ((i, name, p) :: folders). split.
  - eapply path_new; [apply list_elem_of_here|]. clear -Hp. induction Hp as [|p' i' o name' names q Hi Hn Hp _ IH|p' i' name' names q Hi _ IH];
      [constructor|by eapply path_stored; eauto|]. eapply path_new; [by apply list_elem_of_further|done].
  - exists (WInsert d :: actions). split; [|constructor; [by exists d|done]]. rewrite Hd. unfold log_insert, log_change.
    destruct (vm_get_mut_or_insert _ _ _) as [mm pos]. cbn. by rewrite <- app_assoc.
Qed.
End Paths.

(** ** Properties *)

(** C5. The tree of mailboxes. A request that creates, changes or destroys one
    mailbox, in a store whose mailboxes form a tree, leaves a tree: every
    mailbox can be reached from the root in finitely many steps, no two
    mailboxes under the same parent have the same name, and no two have the
    same role. A change that gives a new parent has to repeat the name. *)
Theorem mailbox_tree_kept `{SetStore W} `{MailboxStoreLaws W} `{Unicode} `{OrmCodec Mailbox.Property Mailbox.Value} (config : MailboxConfig)
    (w : W) (h : SetHelper Mailbox.Property MailboxItem) (m : gmap Z Fields) (d : Document) :
  let i := d_document_id d in
  holds_mailboxes w (h_account_id h) m -> mailbox_tree m -> untouched h m -> 0 <= i < U32_MAX ->
  (forall create_id item w' h' d' r, m !! i = None -> mailbox_create config create_id item w h d = (w', h', d', inr r) ->
    exists o, insert_validate o d = inr d' /\ mailbox_tree (<[i := o]> m)) /\
  (forall id item w' h' d' r, id_document_id id = i -> vm_inv item -> Mailbox.Name ∈ vm_k item \/ Mailbox.ParentId ∉ vm_k item ->
    mailbox_update config id item w h d = (w', h', d', inr r) ->
    exists o fields o' b, m !! i = Some o /\ merge_validate o d fields = inr (o', d', b) /\ mailbox_tree (<[i := o']> m)) /\
  (forall id rm w' h' d', id_document_id id = i -> mailbox_destroy rm id w h d = (w', h', d', inr tt) -> mailbox_tree (delete i m)).
Proof.
  intros i Hw Ht Hu Hi. split_and!.
  - intros create_id item w' h' d' r Hnew. unfold mailbox_create. destruct (mailbox_set config w h orm_new item None None) as [w1 [e|fields]] eqn:Es; [done|].
    destruct (if is_shared _ _ then _ else _) as [w2 [e|[]]]; [done|]. set (o := if has_property fields _ then _ else _).
    destruct (insert_validate o d) as [e|d1] eqn:Ev; [done|]. intros [= _ _ <- _]. exists o. split; [done|].
    by eapply (create_tree config w h m item i w1 fields o d d1).
  - intros id item w' h' d' r Hid Hitem Hsent. unfold mailbox_update. rewrite Hid, (hm_orm _ _ _ Hw). cbn [lift].
    destruct (m !! i) as [o|] eqn:Eo; [|done].
    destruct (mailbox_set config w h (track_changes o) item (Some i) (Some o)) as [w1 [e|fields]] eqn:Es; [done|].
    destruct (_ && _); [done|]. destruct (if is_shared _ _ then _ else _) as [w2 [e|[]]]; [done|].
    destruct (merge_validate o d fields) as [e|[[o' d1] b]] eqn:Em; [done|]. intros [= _ _ <- _]. exists o, fields, o', b. split_and!; [done..|].
    by eapply (update_tree config w h m item i o w1 fields d o' d1 b).
  - intros id rm w' h' d' Hid Hd. apply destroy_tree; [done|]. rewrite <- Hid. eapply destroy_checked; [done..| |done]. rewrite Hid. lia.
Qed.

(** C32. Paths of mailboxes. [mailbox_create_path] returns a mailbox that the
    names of the path lead to, from the root: through mailboxes of the store
    alone if it has written nothing, and otherwise through the longest part of
    the path that the store has and then the new mailboxes of the batch that it
    has written. *)
Theorem created_path_leads `{SetStore W} `{MailboxStoreLaws W} `{Unicode} `{OrmCodec Mailbox.Property Mailbox.Value} (config : MailboxConfig)
    (w w' : W) a (m : gmap Z Fields) (path : list Z) i changes :
  holds_mailboxes w a m -> mailbox_tree m -> (forall w c w' i, store_assign_id w a c = (w', inr i) -> 0 <= i < U32_MAX) ->
  mailbox_create_path config true w a path = (w', inr (Some (i, changes))) ->
  (w' = w /\ changes = None /\ path_in m [] 0 (path_names path) (i + 1)) \/
  exists pre name rest q folders w1 batch,
    path_names path = pre ++ name :: rest /\ path_in m [] 0 pre q /\
    (forall j o, m !! j = Some o -> name_of o = Some name -> parent_of o <> Some q) /\
    path_in m folders 0 (path_names path) (i + 1) /\ Forall2 inserted_folder folders (wb_documents batch) /\
    store_write w1 batch = (w', inr changes).
Proof.
  intros Hw Ht Hid. unfold mailbox_create_path. destruct (_ || _); [done|]. cbn [negb].
  destruct (path_search w a m (path_names path) Hw Ht) as (l & found & pre & q & rest & -> & _ & _ & Ef & Ew & Hpath & Hpre & Hrest).
  cbn [mbind sum_bind]. rewrite Ef, Ew.
  destruct rest as [|name rest].
  - intros [= <- <- <-]. left. split_and!; [done..|]. rewrite app_nil_r in Hpath. rewrite Hpath. by replace (q - 1 + 1) with q by lia.
  - destruct (create_folders config w a (batch_new a) q (name :: rest)) as [w1 [e|[[batch q']|]]] eqn:Ec; [done| |done].
    destruct (store_write w1 batch) as [w2 r] eqn:Es. destruct r as [e|ch]; cbn [mbind sum_bind]; [done|]. intros [= <- <- <-].
    right. apply (create_folders_path config m) in Ec as (folders & Hp & actions & Hd & Hall); [|done]. cbn in Hd.
    exists pre, name, rest, q, folders, w1, batch. replace (q' - 1 + 1) with q' by lia. split_and!; [done..|by eauto| |by rewrite Hd|done].
    rewrite Hpath. eapply path_in_app; [|exact Hp]. change folders with ([] ++ folders). by apply path_in_more.
Qed.

(** ** The functions of [Mailbox/set] as the helper wants them *)

Section Polite.
Context `{SetStore W} `{MailboxStoreLaws W} `{Unicode} `{OrmCodec Mailbox.Property Mailbox.Value}.
Variable config : MailboxConfig.
Abbreviation SetHelper := (SetHelper Mailbox.Property MailboxItem).

Lemma remove_message_grows (w : W) a i changes id : grows nothing Collection.Mailbox changes (remove_message w a i changes id).1.
Proof.
  unfold remove_message. destruct (lift _) as [e|[o|]]; [done| |done]. destruct (from_option _ false _).
  - destruct (lift _) as [e|[t|]]; [done| |done]. destruct (orm_merge _ _ _) as [[[o' d] b]|]; [|done].
    etrans; [apply push_action_grows|by apply log_update_grows].
  - pose proof (mail_delete_grows w a changes (document_new Collection.Mail id)) as Hg.
    destruct (mail_delete w a changes _) as [[changes' d] r]. cbn in Hg. destruct (lift r) as [e|[x|]]; [done| |done]. cbn.
    etrans; [exact Hg|]. etrans; [apply push_action_grows|by apply log_delete_grows].
Qed.
Lemma remove_messages_grows (w : W) a i changes l : grows nothing Collection.Mailbox changes (remove_messages w a i changes l).1.
Proof.
  revert changes. induction l as [|id l IH]; intros changes; cbn [remove_messages]; [done|].
  pose proof (remove_message_grows w a i changes id) as Hg. destruct (remove_message w a i changes id) as [changes' [e|u]]; cbn in Hg; [done|].
  by etrans; [|apply IH].
Qed.

(** The functions of mailboxes leave the answers and the log of mailboxes to
    the helper, so that the theorem on the answers of a request holds for
    [Mailbox/set]. *)
Theorem mailbox_functions_polite (rm : bool) :
  polite nothing Collection.Mailbox (fun kv (w : W) (h : SetHelper) d => mailbox_create config kv.1 kv.2 w h d) /\
  polite nothing Collection.Mailbox (fun kv (w : W) (h : SetHelper) d => mailbox_update config kv.1 kv.2 w h d) /\
  polite nothing Collection.Mailbox (mailbox_destroy (W := W) rm).
Proof.
  split_and!.
  - intros [k item] w h d w' h' d' r _. cbn. unfold mailbox_create. destruct (mailbox_set _ _ _ _ _ _ _) as [w1 [e|o]]; [by intros [= _ <- _ _]|].
    destruct (if is_shared _ _ then _ else _) as [w2 [e|[]]]; [by intros [= _ <- _ _]|]. destruct (insert_validate _ _); by intros [= _ <- _ _].
  - intros [id item] w h d w' h' d' r _. cbn. unfold mailbox_update. destruct (lift _) as [e|[o|]]; [by intros [= _ <- _ _]| |by intros [= _ <- _ _]].
    destruct (mailbox_set _ _ _ _ _ _ _) as [w1 [e|f]]; [by intros [= _ <- _ _]|]. destruct (_ && _); [by intros [= _ <- _ _]|].
    destruct (if is_shared _ _ then _ else _) as [w2 [e|[]]]; [by intros [= _ <- _ _]|]. destruct (merge_validate _ _ _) as [e|[[? ?] ?]]; by intros [= _ <- _ _].
  - intros id w h d w' h' d' r Hc. unfold mailbox_destroy. destruct (_ && _); [by intros [= _ <- _ _]|].
    destruct (if is_shared _ _ then _ else _) as [w2 [e|u]]; [by intros [= _ <- _ _]|]. destruct (lift _) as [e|[|x l]]; [by intros [= _ <- _ _]| |by intros [= _ <- _ _]].
    match goal with |- context [let '(changes, r) := ?x in _] => assert (grows nothing (h_collection h) (h_changes h) x.1) as Hg; [|destruct x as [changes [e|[]]]] end.
    + rewrite Hc. destruct (lift _) as [e|[ids|]]; [done| |done]. destruct rm; [|done]. destruct (lock_messages w2 _); [|done]. apply remove_messages_grows.
    + intros [= _ <- _ _]. by apply set_changes_leaves.
    + destruct (lift _) as [e|[o|]]; intros [= _ <- _ _]; by apply set_changes_leaves.
Qed.

(** No change sets the property that the check for the right to administer
    looks for: changes of the rights go to the rights of the object. *)
Theorem administer_never_checked (w : W) (h : SetHelper) o item i w' fields :
  mailbox_set config w h (track_changes o) item (Some i) (Some o) = (w', inr fields) -> has_property fields Mailbox.ACL = false.
Proof.
  intros Hs. apply mailbox_set_checked in Hs as (Hp & _). apply mailbox_properties_allowed in Hp as [Hf Hset]; [|apply vm_new_inv].
  apply bool_decide_false. intros Hin. apply vm_key_get in Hin as [v Hv]; [|done]. by destruct (Hset Mailbox.ACL v Hv) as [?|[_ []]].
Qed.
End Polite.

(** ** A sample store *)

Module MailboxSample.
Import AsciiText.
#[export] Instance codec : OrmCodec Mailbox.Property Mailbox.Value := {| orm_serialize _ := Some [1]; orm_deserialize _ := None |}.

(** Mailboxes, the rights of the reader, the next id and the batches written. *)
Record world := mkWorld { wo_boxes : gmap Z Fields; wo_shared : ACL.t -> gset Z; wo_next : Z; wo_written : list WriteBatch }.
#[export] Instance set_store : SetStore world := {|
  store_state _ _ _ := inr (Exact 1); store_document_ids w _ _ := inr (Some (dom (wo_boxes w)));
  store_assign_id w _ _ := (mkWorld (wo_boxes w) (wo_shared w) (wo_next w + 1) (wo_written w), inr (wo_next w mod 1000));
  store_write w b := (mkWorld (wo_boxes w) (wo_shared w) (wo_next w) (wo_written w ++ [b]), inr (Some (mkWriteChanges 8 2))) |}.
#[export] Instance mailbox_store : MailboxStore world := {|
  mailbox_orm w _ i := inr (wo_boxes w !! i);
  mailbox_query w _ f := inr (filter (fun i => from_option (matches f) false (wo_boxes w !! i) = true) (map_to_list (wo_boxes w)).*1);
  shared_folders w _ _ acl := (w, inr (Some (wo_shared w acl)));
  principal_to_id _ _ := inr 9; invalidate_acl w _ _ := w; mailbox_messages _ _ i := inr (if i =? 4 then Some [10; 11; 12] else None); lock_messages _ _ := true;
  email_property := Mailbox.Property; email_value := Mailbox.Value; email_object := Mailbox.object; email_codec := codec;
  mailbox_ids := Mailbox.Id; email_orm _ _ _ := inr None; email_thread _ _ _ := inr None; mail_delete _ _ b d := (b, d, inr None) |}.
#[export] Instance mailbox_store_laws : MailboxStoreLaws world.
Proof. split; [by intros w a l acl w' r [= <- _]|done]. Qed.

Definition box (name : list Z) (parent : Z) : Fields := path_mailbox name parent.
(** Inbox and Trash, [A] with [C] in it, and another [C] at the root. *)
Definition boxes : gmap Z Fields :=
  {[ 0 := box (chars "Inbox") 0; 1 := box (chars "Trash") 0; 4 := box (chars "A") 0; 5 := box (chars "C") 5; 6 := box (chars "C") 0 ]}.
Definition start : world := mkWorld boxes (fun _ => ∅) 7 [].
Definition config : MailboxConfig := mkMailboxConfig 100 10.
Definition owner : ACLToken := mkToken [1] [].
Definition item (l : list (Mailbox.Property * Mailbox.Value)) : MailboxItem := vm_from_iter l.
Definition request (create : list (list Z * MailboxItem)) (update : list (Z * MailboxItem)) (destroy : list Z) :
    SetRequest ResultReference MailboxItem :=
  mkSetRequest 1 None (Some (vm_from_iter create)) (Some (vm_from_iter update)) (Some (RValue destroy)).
Definition run_request (w : world) (acl : ACLToken) (r : SetRequest ResultReference MailboxItem) :
    option (list (list Z) * list (list Z) * list Z * list Z * list WriteBatch) :=
  match mailbox_set_request config false w acl r with
  | (w, Returned rs) =>
      Some ((map_to_list (rs_created rs)).*1, vm_k (rs_not_created rs), vm_k (rs_updated rs), vm_k (rs_not_updated rs), wo_written w)
  | _ => None
  end.

(** The index entries of the parents that a batch adds. *)
Definition parents_written (l : list WriteBatch) : list (Z * Z) :=
  b ← l; a ← wb_documents b;
  omap (fun f => match f with
                 | mkField f o (NLongInteger p) => if (f =? 2) && negb (is_clear o) then Some (d_document_id (action_document a), p) else None
                 | _ => None end) (d_number_fields (action_document a)).

(** A mailbox is created under [A] and [A] is moved under it in one request:
    both are done, and both are then their own ancestors. *)
Lemma cycle_in_one_request :
  (fun r => let '(created, _, updated, _, written) := r in (created, updated, parents_written written)) <$>
  run_request start owner (request [(chars "n", item [(Mailbox.Name, Mailbox.VText (chars "N")); (Mailbox.ParentId, Mailbox.VId 4)])]
                           [(4, item [(Mailbox.ParentId, Mailbox.VIdReference (chars "n"))])] []) =
  Some ([chars "n"], [4], [(7, 5); (4, 8)]).
Proof. vm_compute. reflexivity. Qed.
(** Moving [C] out of [A] without its name puts it beside the other [C]; a
    request that repeats the name, or only the name and parent that a mailbox
    has, is refused. *)
Lemma moved_beside_namesake :
  (fun r => let '(_, _, updated, not_updated, written) := r in (updated, not_updated, parents_written written)) <$>
  run_request start owner (request [] [(5, item [(Mailbox.ParentId, Mailbox.VNull)])] []) = Some ([5], [], [(5, 0)]) /\
  (fun r => let '(_, _, updated, not_updated, written) := r in (updated, not_updated, written)) <$>
  run_request start owner (request [] [(5, item [(Mailbox.ParentId, Mailbox.VNull); (Mailbox.Name, Mailbox.VText (chars "C"))]);
                               (4, item [(Mailbox.ParentId, Mailbox.VNull); (Mailbox.Name, Mailbox.VText (chars "A"))])] []) =
  Some ([], [5; 4], []).
Proof. split; vm_compute; reflexivity. Qed.

(** A reader that may create mailboxes under 5 only: they are created under 4
    and refused under 5, because the parent is looked up with the one added. *)
Definition reader : ACLToken := mkToken [2] [(1, 12)].
Definition shared : world := mkWorld boxes (fun acl => if bool_decide (acl = ACL.CreateChild) then {[5]} else if bool_decide (acl = ACL.Modify) then {[4]} else ∅) 7 [].
Lemma create_right_of_next_folder :
  (fun r => let '(created, not_created, _, _, written) := r in (created, not_created, parents_written written)) <$>
  run_request shared reader (request [(chars "x", item [(Mailbox.Name, Mailbox.VText (chars "X")); (Mailbox.ParentId, Mailbox.VId 4)]);
                              (chars "y", item [(Mailbox.Name, Mailbox.VText (chars "Y")); (Mailbox.ParentId, Mailbox.VId 5)])] [] []) =
  Some ([chars "x"], [chars "y"], [(7, 5)]).
Proof. vm_compute. reflexivity. Qed.

(** A reader that may modify 4 but not administer it gives away rights on it. *)
Definition rights_written (l : list WriteBatch) : list (Z * Permission) :=
  b ← l; a ← wb_documents b; (fun p => (d_document_id (action_document a), p.1)) <$> d_acls (action_document a).
Lemma rights_changed_without_administer :
  (fun r => let '(_, _, updated, _, written) := r in (updated, rights_written written)) <$>
  run_request shared reader (request [] [(4, item [(Mailbox.ACL, Mailbox.VACLSet [ASet (chars "u") ACL.Administer true])])] []) =
  Some ([4], [(4, mkPermission 9 (bm_insert bm_new ACL.Administer))]).
Proof. vm_compute. reflexivity. Qed.

(** The tree of the sample. *)
Lemma boxes_lookup i o : boxes !! i = Some o -> (i, o) ∈
  [(0, box (chars "Inbox") 0); (1, box (chars "Trash") 0); (4, box (chars "A") 0); (5, box (chars "C") 5); (6, box (chars "C") 0)].
Proof.
  unfold boxes. rewrite !lookup_insert_Some, lookup_singleton_Some, !elem_of_cons. naive_solver.
Qed.
Lemma box_ok name parent : stored_ok (box name parent).
Proof. split; [by repeat apply vm_set_inv; apply vm_new_inv|by eexists|by eexists|done]. Qed.
Ltac boxes_cases H :=
  apply boxes_lookup in H; repeat (apply elem_of_cons in H; destruct H as [[= -> ->]|H]); [..|by apply elem_of_nil in H].
Lemma root_rooted m : rooted m 0 0.
Proof. constructor. Qed.
Lemma boxes_tree : mailbox_tree boxes.
Proof.
  split.
  - intros i o Hi. boxes_cases Hi; (split; [lia|apply box_ok]).
  - intros i o p Hi Hp. assert (p = 0 \/ p = 5) as [->| ->] by (boxes_cases Hi; injection Hp as <-; auto); [exists 0%nat; apply root_rooted|].
    exists 1%nat. apply (rooted_parent _ _ (box (chars "A") 0) 0 0); [done|reflexivity|reflexivity|apply root_rooted].
  - intros i j o o' Hi Hj Hp Hn. boxes_cases Hi; boxes_cases Hj; try reflexivity; exfalso; revert Hp Hn; vm_compute; intros; congruence.
  - intros i j o o' role Hi Hj Hr. boxes_cases Hi; by vm_compute in Hr.
Qed.
Lemma start_holds : holds_mailboxes start 1 boxes.
Proof.
  split; [done|]. intros f. eexists. split; [reflexivity|]. split; [apply NoDup_filter, NoDup_fst_map_to_list|].
  intros i. rewrite list_elem_of_filter, list_elem_of_fmap. cbn. split.
  - intros [Hm ([i' o] & -> & Hin%elem_of_map_to_list)]. cbn in *. exists o. by rewrite Hin in Hm.
  - intros (o & Ho & Hm). split; [by rewrite Ho|]. exists (i, o). split; [done|]. by apply elem_of_map_to_list.
Qed.
Definition helper : SetHelper Mailbox.Property MailboxItem :=
  mkSetHelper (batch_new 1) (dom boxes) 1 owner Collection.Mailbox [] true U64_MAX []
    (mkSetResponse None Initial Initial ∅ vm_new vm_new vm_new [] vm_new None None).
Definition new_box : MailboxItem := item [(Mailbox.Name, Mailbox.VText (chars "N")); (Mailbox.ParentId, Mailbox.VId 4)].
Definition moved : MailboxItem := item [(Mailbox.Name, Mailbox.VText (chars "M")); (Mailbox.ParentId, Mailbox.VId 6)].

(** A new mailbox under [A], [C] moved and renamed, and [C] destroyed. *)
Lemma mailbox_tree_kept_witness :
  (exists w h d r, mailbox_create config (chars "n") new_box start helper (document_new Collection.Mailbox 7) = (w, h, d, inr r) /\
    exists o, mailbox_tree (<[7 := o]> boxes)) /\
  (exists w h d r, mailbox_update config 5 moved start helper (document_new Collection.Mailbox 5) = (w, h, d, inr r) /\
    exists o, mailbox_tree (<[5 := o]> boxes)) /\
  (exists w h d, mailbox_destroy false 5 start helper (document_new Collection.Mailbox 5) = (w, h, d, inr tt) /\ mailbox_tree (delete 5 boxes)).
Proof.
  assert (untouched helper boxes) as Hu by (split; reflexivity).
  destruct (mailbox_tree_kept config start helper boxes (document_new Collection.Mailbox 7) start_holds boxes_tree Hu) as (Hc & _ & _); [cbn; lia|].
  destruct (mailbox_tree_kept config start helper boxes (document_new Collection.Mailbox 5) start_holds boxes_tree Hu) as (_ & Hup & Hd); [cbn; lia|].
  split_and!.
  - assert (exists w h d r, mailbox_create config (chars "n") new_box start helper (document_new Collection.Mailbox 7) = (w, h, d, inr r))
      as (w & h & d & r & E) by (eexists _, _, _, _; reflexivity).
    exists w, h, d, r. split; [exact E|]. destruct (Hc _ _ _ _ _ _ eq_refl E) as (o & _ & Ho). exists o. exact Ho.
  - assert (exists w h d r, mailbox_update config 5 moved start helper (document_new Collection.Mailbox 5) = (w, h, d, inr r))
      as (w & h & d & r & E) by (eexists _, _, _, _; reflexivity).
    exists w, h, d, r. split; [exact E|]. destruct (Hup 5 moved w h d r eq_refl) as (o & f & o' & b & _ & _ & Ho); [| |exact E|exists o'; exact Ho].
    + split; [reflexivity|]. refine (bool_decide_unpack _ _). vm_compute. exact I.
    + left. apply list_elem_of_here.
  - assert (exists w h d, mailbox_destroy false 5 start helper (document_new Collection.Mailbox 5) = (w, h, d, inr tt))
      as (w & h & d & E) by (eexists _, _, _; reflexivity).
    exists w, h, d. split; [exact E|]. exact (Hd 5 false w h d eq_refl E).
Defined.

(** ["A/ C /new"]: the first two exist, the last one is created. *)
Lemma created_path_leads_witness :
  exists w, mailbox_create_path config true start 1 (chars "A/ C /new") = (w, inr (Some (7, Some (mkWriteChanges 8 2)))) /\
  exists pre name rest q folders w1 batch, path_names (chars "A/ C /new") = pre ++ name :: rest /\
    path_in boxes folders 0 (path_names (chars "A/ C /new")) (7 + 1) /\ Forall2 inserted_folder folders (wb_documents batch) /\
    store_write w1 batch = (w, inr (Some (mkWriteChanges 8 2))) /\ path_in boxes [] 0 pre q.
Proof.
  assert (exists w, mailbox_create_path config true start 1 (chars "A/ C /new") = (w, inr (Some (7, Some (mkWriteChanges 8 2))))) as (w & E)
    by (eexists; reflexivity).
  exists w. split; [exact E|].
  destruct (created_path_leads config start w 1 boxes (chars "A/ C /new") 7 (Some (mkWriteChanges 8 2)) start_holds boxes_tree)
    as [(_ & Hn & _)|(pre & name & rest & q & folders & w1 & batch & H1 & H2 & _ & H4 & H5 & H6)].
  - intros w1 c w2 i [= _ <-]. pose proof (Z.mod_pos_bound (wo_next w1) 1000). lia.
  - exact E.
  - discriminate Hn.
  - exists pre, name, rest, q, folders, w1, batch. split_and!; assumption.
Defined.
End MailboxSample.
