(* ===== verification/MailboxRead.v ===== *)
(** * Reading mailboxes: components/jmap_mail/src/mailbox/get.rs, query.rs,
      changes.rs

    The properties of a mailbox that a request returns, among them the counts
    of its messages and threads; mailboxes looked up by path or role; the
    filter of a query, and the treatment of its result as a tree. *)

From Stdlib Require Import String.
From S2P Require Import Prelude Lang Types TermIndex Nlp Bitmap BitList VecMap KV Blob ChangeLog RaftLog Read Query JmapId JmapQuery Write Orm JsonPointer.
From S2P Require Import SetRequest GetRequest Mailbox.
#[local] Open Scope Z_scope.

(** ** Properties of a mailbox *)

Definition rights_owner : Mailbox.MailboxRights := Mailbox.mkRights true true true true true true true true true.
Definition rights_shared (acl : Z) : Mailbox.MailboxRights :=
  Mailbox.mkRights (bm_contains acl ACL.ReadItems) (bm_contains acl ACL.AddItems) (bm_contains acl ACL.RemoveItems)
    (bm_contains acl ACL.ModifyItems) (bm_contains acl ACL.ModifyItems) (bm_contains acl ACL.CreateChild) (bm_contains acl ACL.Modify)
    (bm_contains acl ACL.Delete) (bm_contains acl ACL.Submit).

Definition default_properties : list Mailbox.Property :=
  [Mailbox.Id; Mailbox.Name; Mailbox.ParentId; Mailbox.Role; Mailbox.SortOrder; Mailbox.IsSubscribed; Mailbox.TotalEmails;
   Mailbox.UnreadEmails; Mailbox.TotalThreads; Mailbox.UnreadThreads; Mailbox.MyRights].
Definition mailbox_get_as_id (o : MailboxItem) (p : Mailbox.Property) : option (list Z) :=
  match vm_get o p with Some (Mailbox.VId value) => Some [value] | _ => None end.

(** What reading mailboxes uses of the store besides: messages with the keyword
    [$seen], the threads of messages, the rights of the members of a group and
    the addresses of accounts. *)
Class MailboxReads (W : Type) := {
  seen_messages : W -> AccountId -> result (option (gset Z));
  message_threads : W -> AccountId -> list DocumentId -> result (list (option DocumentId));
  mailbox_acl : W -> list AccountId -> AccountId -> DocumentId -> result Z;
  principal_to_email : W -> AccountId -> MethodError + option (list Z) }.

Section MailboxGet.
Context `{SetStore W} `{MailboxStore W} `{MailboxReads W}.

Definition mailbox_tags (w : W) (account_id : AccountId) (document_id : DocumentId) : result (option (gset Z)) :=
  ids ← mailbox_messages w account_id document_id; inr (option_map list_to_set ids).
Definition mailbox_unread_tags (w : W) (account_id : AccountId) (document_id : DocumentId) (mail_document_ids : option (gset Z)) :
    result (option (gset Z)) :=
  match mail_document_ids with
  | Some mail_document_ids =>
      mailbox ← mailbox_tags w account_id document_id;
      match mailbox with
      | Some mailbox =>
          seen ← seen_messages w account_id;
          match seen with
          | Some seen =>
              let seen := ((seen ∖ mail_document_ids) ∪ (mail_document_ids ∖ seen)) ∩ mailbox in
              inr (if bool_decide (seen = ∅) then None else Some seen)
          | None => inr (Some mailbox)
          end
      | None => inr None
      end
  | None => inr None
  end.
Definition mailbox_count_threads (w : W) (account_id : AccountId) (document_ids : option (gset Z)) : result nat :=
  match document_ids with
  | Some document_ids =>
      threads ← message_threads w account_id (treemap_iter document_ids);
      inr (size (list_to_set (omap (fun t => t) threads) : gset Z))
  | None => inr 0%nat
  end.
Definition set_len (s : option (gset Z)) : Z := from_option (fun s => u32 (Z.of_nat (size s))) 0 s.

(** Rights are listed by address, accounts without one are left out. *)
Fixpoint acl_addresses (w : W) (l : list Permission) (acl_get : VecMap (list Z) (list ACL.t)) :
    MethodError + VecMap (list Z) (list ACL.t) :=
  match l with
  | [] => inr acl_get
  | p :: l =>
      email ← principal_to_email w (perm_id p);
      acl_addresses w l (match email with Some email => vm_append acl_get email (bm_to_list (perm_acl p)) | None => acl_get end)
  end.

Variables (acl : ACLToken) (account_id : AccountId) (mail_document_ids : option (gset Z)).

Definition of_result {A} (r : result A) : outcome A := match r with inl e => Failed (method_error e) | inr a => Returned a end.

(** One property; [remove] takes the value out of the object read. *)
Definition read_property (id : Z) (property : Mailbox.Property) (w : W) (fields : option Fields) :
    W * option Fields * outcome Mailbox.Value :=
  let document_id := id_document_id id in
  let number (r : result Z) := (w, fields, of_result (n ← r; inr (Mailbox.VNumber n))) in
  let take (default_ : Mailbox.Value) :=
    match fields with
    | Some o => (w, Some (orm_remove o property).2, Returned (default default_ (orm_remove o property).1))
    | None => (w, fields, Panicked)
    end in
  match property with
  | Mailbox.Id => (w, fields, Returned (Mailbox.VId id))
  | Mailbox.Name | Mailbox.Role => take Mailbox.VNull
  | Mailbox.SortOrder => take (Mailbox.VNumber 0)
  | Mailbox.ParentId =>
      (w, fields,
       match fields with
       | Some o =>
           Returned (match orm_get o property with
                     | Some (Mailbox.VId value) =>
                         if 0 <? id_document_id value then Mailbox.VId (id_document_id value - 1) else Mailbox.VNull
                     | _ => Mailbox.VNull
                     end)
       | None => Panicked
       end)
  | Mailbox.TotalEmails => number (s ← mailbox_tags w account_id document_id; inr (set_len s))
  | Mailbox.UnreadEmails => number (s ← mailbox_unread_tags w account_id document_id mail_document_ids; inr (set_len s))
  | Mailbox.TotalThreads =>
      number (s ← mailbox_tags w account_id document_id; n ← mailbox_count_threads w account_id s; inr (u32 (Z.of_nat n)))
  | Mailbox.UnreadThreads =>
      number (s ← mailbox_unread_tags w account_id document_id mail_document_ids; n ← mailbox_count_threads w account_id s;
              inr (u32 (Z.of_nat n)))
  | Mailbox.MyRights =>
      (w, fields,
       if is_shared acl account_id then
         of_result (b ← mailbox_acl w (member_of acl) account_id document_id; inr (Mailbox.VMailboxRights (rights_shared b)))
       else Returned (Mailbox.VMailboxRights rights_owner))
  | Mailbox.IsSubscribed =>
      (w, fields,
       match fields with
       | Some o =>
           Returned (Mailbox.VBool (match orm_get o property with
                                    | Some (Mailbox.VSubscriptions value) => bool_decide (primary_id acl ∈ value)
                                    | _ => false
                                    end))
       | None => Panicked
       end)
  | Mailbox.ACL =>
      let '(w, r) :=
        if is_member acl account_id then (w, inr true)
        else
          let '(w, r) := shared_folders w account_id (member_of acl) ACL.Administer in
          (w, b ← r; inr (shared_has_access b document_id)) in
      (w, fields,
       match r with
       | inl e => Failed (method_error e)
       | inr true =>
           match fields with
           | Some o =>
               match acl_addresses w (acls o) vm_new with
               | inl e => Failed e
               | inr acl_get => Returned (Mailbox.VACLGet acl_get)
               end
           | None => Panicked
           end
       | inr false => Returned Mailbox.VNull
       end)
  | Mailbox.Invalid => (w, fields, Returned Mailbox.VNull)
  end.

Fixpoint read_properties (id : Z) (properties : list Mailbox.Property) (w : W) (fields : option Fields) (mailbox : MailboxItem) :
    W * outcome MailboxItem :=
  match properties with
  | [] => (w, Returned mailbox)
  | property :: properties =>
      let '(w, fields, r) := read_property id property w fields in
      match r with
      | Returned value => read_properties id properties w fields (vm_append mailbox property value)
      | Failed e => (w, Failed e)
      | Panicked => (w, Panicked)
      end
  end.

Definition needs_fields (p : Mailbox.Property) : bool :=
  match p with Mailbox.Name | Mailbox.ParentId | Mailbox.Role | Mailbox.SortOrder | Mailbox.ACL => true | _ => false end.
(** The function that [Mailbox/get] gives to the helper. *)
Definition mailbox_read (fetch_fields : bool) (id : Z) (properties : list Mailbox.Property) (w : W) : W * outcome (option MailboxItem) :=
  let fields :=
    if fetch_fields then
      fields ← mailbox_orm w account_id (id_document_id id);
      match fields with Some fields => inr (Some fields) | None => inl StoreError.NotFound end
    else inr None in
  match fields with
  | inl e => (w, Failed (method_error e))
  | inr fields =>
      let '(w, r) := read_properties id properties w fields vm_new in
      (w, match r with Returned mailbox => Returned (Some mailbox) | Failed e => Failed e | Panicked => Panicked end)
  end.
End MailboxGet.

Definition add_property {Obj} (h : GetHelper Mailbox.Property Obj) (p : Mailbox.Property) : GetHelper Mailbox.Property Obj :=
  if bool_decide (p ∈ g_properties h) then h
  else mkGetHelper (g_account_id h) (g_acl h) (g_document_ids h) (g_properties h ++ [p]) (g_request_ids h) (g_validate_ids h) (g_response h).

(** [Mailbox/get]. *)
Definition mailbox_get `{SetStore W} `{MailboxStore W} `{MailboxReads W} (max_objects_in_get : nat) (w : W) (acl : ACLToken)
    (request : GetRequest ResultReference Mailbox.Property) : W * outcome (GetResponse MailboxItem) :=
  let '(w, r) :=
    get_new Collection.Mailbox default_properties max_objects_in_get (Some default_mapper)
      (Some (fun w account_id member_of => shared_folders w account_id member_of ACL.ReadItems)) w acl request in
  match r with
  | Failed e => (w, Failed e)
  | Panicked => (w, Panicked)
  | Returned h =>
      let fetch_fields := existsb needs_fields (g_properties h) in
      match store_document_ids w (g_account_id h) Collection.Mail with
      | inl e => (w, Failed (method_error e))
      | inr mail_document_ids =>
          helper_get (mailbox_read acl (g_account_id h) mail_document_ids fetch_fields) (add_property h Mailbox.Id) w
      end
  end.

(** ** Lookups *)

Section Lookup.
Context `{MailboxStore W} `{Unicode}.
Variable config : MailboxConfig.

Definition mailbox_get_by_name (w : W) (account_id : AccountId) (path : list Z) : result (option DocumentId) :=
  let path := path_names path in
  if (length path =? 0)%nat || (mailbox_max_depth config <? length path)%nat then inr None
  else
    ids ← mailbox_query w account_id (FOr (map (fun n => FEq Mailbox.Name (QIndex n)) path));
    if (length ids <? length path)%nat then inr None
    else
      found ← found_names w account_id ids;
      match found with
      | None => inr None
      | Some found =>
          match walk_path found 0 path with
          | (next_parent_id, []) => inr (Some (next_parent_id - 1))
          | _ => inr None
          end
      end.
Definition mailbox_get_by_role (w : W) (account_id : AccountId) (role : list Z) : result (option DocumentId) :=
  ids ← mailbox_query w account_id (FEq Mailbox.Role (QKeyword role)); inr (head (merge_sort Z.le ids)).
End Lookup.

(** ** Queries *)

Module MailboxFilter.
Inductive t : Set :=
| ParentId (value : option Z) | Name (value : list Z) | Role (value : option (list Z)) | HasAnyRole (value : bool)
| IsSubscribed (value : bool) | Unsupported (value : list Z).
End MailboxFilter.
Inductive MailboxComparator : Set := CName | CSortOrder | CParentId.

Definition filter_eq (p : Mailbox.Property) (q : Query.Query) : Filter := Condition (mkCondition (Mailbox.property_number p) Equal q).
Definition filter_not (f : Filter) : Filter := Operator Not [f].

Definition mailbox_filter `{Unicode} (primary_account_id : AccountId) (f : MailboxFilter.t) : res Filter :=
  match f with
  | MailboxFilter.ParentId value => Ok (filter_eq Mailbox.ParentId (LongInteger (from_option (fun id => u64 (id + 1)) 0 value)))
  | MailboxFilter.Name value => Ok (filter_eq Mailbox.Name (Tokenize (to_lowercase value)))
  | MailboxFilter.Role (Some value) => Ok (filter_eq Mailbox.Role (Keyword (to_lowercase value)))
  | MailboxFilter.Role None => Ok (filter_not (filter_eq Mailbox.Role (QTag Default)))
  | MailboxFilter.HasAnyRole value =>
      let filter := filter_eq Mailbox.Role (QTag Default) in Ok (if negb value then filter_not filter else filter)
  | MailboxFilter.IsSubscribed value =>
      let filter := filter_eq Mailbox.IsSubscribed (Integer primary_account_id) in Ok (if negb value then filter_not filter else filter)
  | MailboxFilter.Unsupported _ => Err
  end.
Definition mailbox_comparator (c : MailboxComparator) : Z :=
  Mailbox.property_number (match c with CName => Mailbox.Name | CSortOrder => Mailbox.SortOrder | CParentId => Mailbox.ParentId end).

(** The mailboxes by id and parent, both plus one, and the children of each. *)
Fixpoint mailbox_hierarchy `{MailboxStore W} (w : W) (account_id : AccountId) (ids : list DocumentId) (hierarchy : gmap Z Z)
    (tree : gmap Z (gset Z)) : result (gmap Z Z * gmap Z (gset Z)) :=
  match ids with
  | [] => inr (hierarchy, tree)
  | doc_id :: ids =>
      fields ← mailbox_orm w account_id doc_id;
      let parent_id := default 0 (fields ≫= parent_of) in
      mailbox_hierarchy w account_id ids (<[u32 (doc_id + 1) := parent_id]> hierarchy)
        (<[parent_id := default ∅ (tree !! parent_id) ∪ {[u32 (doc_id + 1)]}]> tree)
  end.

(** The way up from a mailbox, through results alone. *)
Fixpoint keep_mailbox (n : nat) (hierarchy : gmap Z Z) (results : list Z) (jmap_id : Z) : bool :=
  match n with
  | O => false
  | S n =>
      match hierarchy !! jmap_id with
      | Some parent_id =>
          if parent_id =? 0 then true
          else if negb (bool_decide (parent_id - 1 ∈ results)) then false
          else keep_mailbox n hierarchy results parent_id
      | None => false
      end
  end.
Definition filter_as_tree (mailbox_max_depth : nat) (hierarchy : gmap Z Z) (results : list Z) : list Z :=
  let filtered_ids := filter (fun doc_id => keep_mailbox mailbox_max_depth hierarchy results (doc_id + 1) = true) results in
  if negb (length filtered_ids =? length results)%nat then filtered_ids else results.

(** The next result that is a child, and the last one looked at. *)
Fixpoint next_child (children : gset Z) (it : list Z) (jmap_id : Z) : Z * option (Z * list Z) :=
  match it with
  | [] => (jmap_id, None)
  | doc_id :: it =>
      let jmap_id := doc_id + 1 in
      if bool_decide (jmap_id ∈ children) then (jmap_id, Some (doc_id, it)) else next_child children it jmap_id
  end.

Section SortAsTree.
(** The order in which a hash set lists its elements. *)
Variable set_iter : gset Z -> list Z.

Record tree_state := mkTreeState { ts_tree : gmap Z (gset Z); ts_stack : list (gset Z * list Z); ts_sorted : list Z; ts_id : Z }.

(** A round of ['outer]; [None] is [break]. *)
Definition tree_round (results : list Z) (st : tree_state) : option (gset Z * list Z * tree_state) :=
  match ts_tree st !! ts_id st with
  | Some children => Some (children, results, mkTreeState (delete (ts_id st) (ts_tree st)) (ts_stack st) (ts_sorted st) (ts_id st))
  | None =>
      match ts_stack st with
      | (children, it) :: stack => Some (children, it, mkTreeState (ts_tree st) stack (ts_sorted st) (ts_id st))
      | [] => None
      end
  end.
Fixpoint tree_loop (rounds : nat) (results : list Z) (st : tree_state) : list Z :=
  match rounds with
  | O => ts_sorted st
  | S rounds =>
      match tree_round results st with
      | None => ts_sorted st
      | Some (children, it, mkTreeState tree stack sorted_list jmap_id) =>
          match next_child children it jmap_id with
          | (jmap_id, Some (doc_id, it)) =>
              let sorted_list := sorted_list ++ [doc_id] in
              if (length sorted_list =? length results)%nat then sorted_list
              else tree_loop rounds results (mkTreeState tree ((children ∖ {[jmap_id]}, it) :: stack) sorted_list jmap_id)
          | (jmap_id, None) =>
              match set_iter children with
              | child :: _ => tree_loop rounds results (mkTreeState tree ((children ∖ {[child]}, []) :: stack) sorted_list child)
              | [] => tree_loop rounds results (mkTreeState tree stack sorted_list jmap_id)
              end
          end
      end
  end.
Definition sort_as_tree (mailbox_max_depth : nat) (tree : gmap Z (gset Z)) (results : list Z) : list Z :=
  if (1 <? length results)%nat then
    tree_loop (length results * 10 * mailbox_max_depth) results (mkTreeState tree [] [] 0)
  else results.
End SortAsTree.

Record MailboxQuery := mkMailboxQuery {
  mq_filter : option (JFilter MailboxFilter.t); mq_sort : option (list (MailboxComparator * bool)); mq_args : QueryArgs;
  mq_sort_as_tree : option bool; mq_filter_as_tree : option bool }.

Section MailboxQuery.
Context `{SetStore W} `{MailboxStore W} `{Unicode}.
Variables (config : MailboxConfig) (query_max_results : Z) (set_iter : gset Z -> list Z)
  (** [query_store]: a filter and the fields to sort by, with their direction. *)
  (query_store : W -> AccountId -> Filter -> option (list (Z * bool)) -> res (list DocumentId)).

Definition of_store {A} (r : result A) : res A := match r with inl _ => Err | inr a => Ok a end.

Definition list_as_tree (w : W) (account_id : AccountId) (sort_as filter_as : bool) (results : list Z) : res (list Z) :=
  ids ← of_store (store_document_ids w account_id Collection.Mailbox);
  '(hierarchy, tree) ← of_store (mailbox_hierarchy w account_id (treemap_iter (default ∅ ids)) ∅ ∅);
  let results := if filter_as then filter_as_tree (mailbox_max_depth config) hierarchy results else results in
  Ok (if sort_as then sort_as_tree set_iter (mailbox_max_depth config) tree results else results).

(** [Mailbox/query]; [fuel] bounds the parsing of the filter. *)
Definition mailbox_query_request (fuel : nat) (w : W) (acl : ACLToken) (account_id : AccountId) (request : MailboxQuery) :
    W * option (res QueryResponse) :=
  let '(w, shared) :=
    if is_shared acl account_id then
      let '(w, r) := shared_folders w account_id (member_of acl) ACL.ReadItems in (w, option_map Some (match r with inl _ => None | inr b => Some b end))
    else (w, Some None) in
  match shared with
  | None => (w, Some Err)
  | Some shared =>
      let sort_as := default false (mq_sort_as_tree request) in
      let filter_as := default false (mq_filter_as_tree request) in
      (w, f ← parse_filter (mailbox_filter (primary_id acl)) fuel (mq_filter request);
          Some (f ← f;
                results ← if negb (from_option has_some_access true shared) then Ok [] else query_store w account_id f (option_map (map (fun c => (mailbox_comparator c.1, c.2))) (mq_sort request));
                query query_max_results (mq_args request) shared (fun id => Ok (Some id))
                  (if filter_as || sort_as then Some (list_as_tree w account_id sort_as filter_as) else None) results))
  end.
End MailboxQuery.

(** [Mailbox/changes]: the properties that change with the messages. *)
Definition updated_properties (has_children_changes : bool) : option (list Mailbox.Property) :=
  if has_children_changes then Some [Mailbox.TotalEmails; Mailbox.UnreadEmails; Mailbox.TotalThreads; Mailbox.UnreadThreads] else None.
Definition eval_updated_properties (l : option (list Mailbox.Property)) (p : JSONPointer) : option (list Z) :=
  if is_item_query p (chars "updatedProperties") then Some (map Mailbox.property_number (default [] l)) else None.

(** ** Sorting as a tree *)

Section SortProof.
Variables (hierarchy : gmap Z Z) (results : list Z) (set_iter : gset Z -> list Z).
Hypothesis set_iter_elements : forall s, set_iter s ≡ₚ elements s.
Hypothesis results_nodup : NoDup results.
Hypothesis results_known : forall r, r ∈ results -> is_Some (hierarchy !! (r + 1)).

(** The children that are still to be visited. *)
Definition pool (tree : gmap Z (gset Z)) (stack : list (gset Z * list Z)) : list Z :=
  concat (map (fun e => elements e.2) (map_to_list tree)) ++ concat (map (fun f => elements f.1) stack).

(** [done]: the mailboxes visited; [j]: the one whose children come next. *)
Record tree_inv (j : option Z) (tree : gmap Z (gset Z)) (stack : list (gset Z * list Z)) (sorted done : list Z) : Prop := {
  ti_pool : done ++ pool tree stack ≡ₚ (map_to_list hierarchy).*1;
  ti_tree p s c : tree !! p = Some s -> c ∈ s -> hierarchy !! c = Some p;
  ti_done p : p = 0 \/ p ∈ done -> is_Some (tree !! p) -> j = Some p;
  ti_sorted r : r ∈ sorted <-> r ∈ results /\ r + 1 ∈ done;
  ti_nodup : NoDup sorted;
  ti_frames ch it : (ch, it) ∈ stack -> (forall r, r ∈ it -> r ∈ results) /\ forall r, r ∈ results -> r + 1 ∈ ch -> r ∈ it }.

Lemma elements_take (s : gset Z) x : x ∈ s -> elements s ≡ₚ x :: elements (s ∖ {[x]}).
Proof.
  intros Hx. rewrite <- elements_union_singleton by set_solver. by rewrite <- union_difference_singleton_L.
Qed.
Lemma nodes_nodup : NoDup ((map_to_list hierarchy).*1).
Proof. apply NoDup_fst_map_to_list. Qed.
Lemma inv_disjoint j tree stack sorted done x : tree_inv j tree stack sorted done -> x ∈ done -> x ∉ pool tree stack.
Proof.
  intros Hi Hd Hp. pose proof nodes_nodup as Hnd. rewrite <- (ti_pool _ _ _ _ _ Hi) in Hnd. apply NoDup_app in Hnd as (_ & Hnd & _). by apply (Hnd x).
Qed.
Lemma sorted_results j tree stack sorted done r : tree_inv j tree stack sorted done -> r ∈ sorted -> r ∈ results.
Proof. by intros Hi [? _]%(ti_sorted _ _ _ _ _ Hi). Qed.

Lemma round_inv tree stack sorted id done ch it tree' stack' sorted' id' :
  tree_inv (Some id) tree stack sorted done ->
  tree_round results (mkTreeState tree stack sorted id) = Some (ch, it, mkTreeState tree' stack' sorted' id') ->
  sorted' = sorted /\ id' = id /\ tree_inv None tree' ((ch, it) :: stack') sorted done /\
  (size tree' + S (length stack') = size tree + length stack)%nat.
Proof.
  intros Hi. unfold tree_round. cbn [ts_tree ts_stack ts_sorted ts_id]. destruct (tree !! id) as [s|] eqn:Es.
  - intros [= <- <- <- <- <- <-]. split_and!; [done..| |].
    + split; [|..|apply Hi|apply Hi|].
      * rewrite <- (ti_pool _ _ _ _ _ Hi). unfold pool. rewrite <- (map_to_list_delete tree id s Es). cbn. solve_Permutation.
      * intros p s' c Hp. rewrite lookup_delete_Some in Hp. destruct Hp as [_ Hp]. by apply (ti_tree _ _ _ _ _ Hi).
      * intros p Hp [s' Hs']. rewrite lookup_delete_Some in Hs'. destruct Hs' as [Hne Hs'].
        assert (Some id = Some p) as [= ->] by (apply (ti_done _ _ _ _ _ Hi); by eauto). done.
      * intros ch it [[= -> ->]|Hin]%elem_of_cons; [|by apply (ti_frames _ _ _ _ _ Hi)]. done.
    + rewrite map_size_delete_Some by done. assert (size tree <> 0)%nat; [|lia]. apply map_size_non_empty_iff. intros ->. by rewrite lookup_empty in Es.
  - destruct stack as [|[ch' it'] stack]; [done|]. intros [= -> -> -> <- <- <-]. split_and!; [done..| |cbn; lia].
    split; [apply Hi|apply Hi| |apply Hi|apply Hi|apply Hi]. intros p Hp Hs.
    pose proof (ti_done _ _ _ _ _ Hi p Hp Hs) as [= ->]. rewrite Es in Hs. by destruct Hs.
Qed.

Lemma next_child_spec ch it j j' r :
  next_child ch it j = (j', r) ->
  match r with
  | Some (doc, it') => j' = doc + 1 /\ doc + 1 ∈ ch /\ exists pre, it = pre ++ doc :: it' /\ forall x, x ∈ pre -> x + 1 ∉ ch
  | None => forall x, x ∈ it -> x + 1 ∉ ch
  end.
Proof.
  revert j. induction it as [|doc it IH]; intros j; cbn [next_child]; [by intros [= _ <-] x ?%elem_of_nil|]. case_bool_decide as Hd.
  - intros [= <- <-]. split_and!; [done..|]. exists []. split; [done|]. by intros x ?%elem_of_nil.
  - intros Hn%IH. destruct r as [[d it']|].
    + destruct Hn as (-> & Hin & pre & -> & Hpre). split_and!; [done..|]. exists (doc :: pre). split; [done|].
      intros x [->|Hx]%elem_of_cons; [done|by apply Hpre].
    + intros x [->|Hx]%elem_of_cons; [done|by apply Hn].
Qed.

(** A child leaves its frame. *)
Lemma visit_inv tree ch it stack sorted done c it' sorted' :
  tree_inv None tree ((ch, it) :: stack) sorted done -> c ∈ ch ->
  (forall r, r ∈ it' -> r ∈ results) -> (forall r, r ∈ results -> r + 1 ∈ ch -> r + 1 <> c -> r ∈ it') ->
  (forall r, r ∈ sorted' <-> r ∈ sorted \/ r ∈ results /\ r + 1 = c) -> NoDup sorted' ->
  tree_inv (Some c) tree ((ch ∖ {[c]}, it') :: stack) sorted' (c :: done) /\
  S (length (pool tree ((ch ∖ {[c]}, it') :: stack))) = length (pool tree ((ch, it) :: stack)).
Proof.
  intros Hi Hc Hit Hrest Hs Hnd. split; [split|].
  - rewrite <- (ti_pool _ _ _ _ _ Hi). unfold pool. cbn. rewrite (elements_take ch c Hc). solve_Permutation.
  - apply Hi.
  - intros p [->|[->|Hp]%elem_of_cons] Ht; [|done|]; by (assert (@None Z = Some _) by (apply (ti_done _ _ _ _ _ Hi _); eauto)).
  - intros r. rewrite Hs, (ti_sorted _ _ _ _ _ Hi), elem_of_cons. naive_solver.
  - done.
  - intros ch' it1 [[= -> ->]|Hin]%elem_of_cons; [|apply (ti_frames _ _ _ _ _ Hi); by right]. split; [done|].
    intros r Hr [Hr1 Hr2%not_elem_of_singleton]%elem_of_difference. by apply Hrest.
  - unfold pool. cbn. rewrite !length_app, (elements_take ch c Hc). cbn [length]. lia.
Qed.
Lemma drop_frame j tree it stack sorted done : tree_inv None tree ((∅, it) :: stack) sorted done -> tree_inv (Some j) tree stack sorted done.
Proof.
  intros Hi. split; [|apply Hi|..|apply Hi|apply Hi|].
  - rewrite <- (ti_pool _ _ _ _ _ Hi). unfold pool. cbn. by rewrite elements_empty.
  - intros p Hp Ht. by pose proof (ti_done _ _ _ _ _ Hi p Hp Ht).
  - intros ch' it' Hin. apply (ti_frames _ _ _ _ _ Hi). by right.
Qed.

(** The way up from a mailbox ends at the root. *)
Inductive grounded : Z -> Prop :=
| grounded_root c : hierarchy !! c = Some 0 -> grounded c
| grounded_child c p : hierarchy !! c = Some p -> grounded p -> grounded c.
Hypothesis all_grounded : forall c, is_Some (hierarchy !! c) -> grounded c.

Lemma complete_permutation (l : list Z) : NoDup l -> (forall r, r ∈ l -> r ∈ results) -> (length results <= length l)%nat -> l ≡ₚ results.
Proof. intros Hnd Hl Hlen. apply submseteq_length_Permutation; [by apply NoDup_submseteq|done]. Qed.

(** When nothing is left to visit, every mailbox has been visited. *)
Lemma all_visited id tree sorted done :
  tree_inv (Some id) tree [] sorted done -> tree !! id = None -> sorted ≡ₚ results.
Proof.
  intros Hi Hid.
  assert (forall p, p = 0 \/ p ∈ done -> tree !! p = None) as Hgone.
  { intros p Hp. destruct (tree !! p) eqn:Ep; [|done]. pose proof (ti_done _ _ _ _ _ Hi p Hp ltac:(by eauto)) as [= ->]. congruence. }
  assert (forall c, grounded c -> c ∈ done) as Hall.
  { assert (forall c p, hierarchy !! c = Some p -> p = 0 \/ p ∈ done -> c ∈ done) as Hstep.
    { intros c p Hc Hp. assert (c ∈ done ++ pool tree []) as [?|Hin]%elem_of_app; [|done|].
      - rewrite (ti_pool _ _ _ _ _ Hi). apply list_elem_of_fmap. exists (c, p). split; [done|]. by apply elem_of_map_to_list.
      - exfalso. unfold pool in Hin. cbn in Hin. rewrite app_nil_r in Hin. apply list_elem_of_In, in_concat in Hin as (l & Hl & Hin).
        apply in_map_iff in Hl as ([q s] & <- & Hq). apply list_elem_of_In, elem_of_map_to_list in Hq. cbn in Hin.
        apply list_elem_of_In, elem_of_elements in Hin. pose proof (ti_tree _ _ _ _ _ Hi q s c Hq Hin) as Hq'. assert (q = p) as -> by congruence.
        by rewrite (Hgone p Hp) in Hq. }
    induction 1; eauto. }
  apply complete_permutation; [apply Hi|intros r Hr; by eapply sorted_results|].
  apply submseteq_length, NoDup_submseteq; [done|]. intros r Hr. apply (ti_sorted _ _ _ _ _ Hi). split; [done|]. by apply Hall, all_grounded, results_known.
Qed.

Lemma tree_loop_sorts rounds tree stack sorted id done :
  tree_inv (Some id) tree stack sorted done ->
  let l := tree_loop set_iter rounds results (mkTreeState tree stack sorted id) in
  NoDup l /\ (forall r, r ∈ l -> r ∈ results) /\ ((size tree + length stack + length (pool tree stack) <= rounds)%nat -> l ≡ₚ results).
Proof.
  revert tree stack sorted id done. induction rounds as [|rounds IH]; intros tree stack sorted id done Hi; cbn zeta; cbn [tree_loop].
  { split_and!; [apply Hi|intros r Hr; by eapply sorted_results|]. intros Hm. cbn. destruct stack; cbn in Hm; [|lia].
    assert (tree = ∅) as -> by (apply map_size_empty_iff; lia). by eapply all_visited. }
  destruct (tree_round results _) as [[[ch it] [tree' stack' sorted' id']]|] eqn:Er; cycle 1.
  { split_and!; [apply Hi|intros r Hr; by eapply sorted_results|]. intros _. unfold tree_round in Er. cbn in *.
    destruct (tree !! id) eqn:Et; [done|]. destruct stack as [|[ch it] stack]; [|done]. by eapply all_visited. }
  apply (round_inv _ _ _ _ done) in Er as (-> & -> & Hf & Hm); [|done].
  assert (length (pool tree' ((ch, it) :: stack')) = length (pool tree stack)) as Hp.
  { pose proof (Permutation_length (ti_pool _ _ _ _ _ Hi)) as H1. pose proof (Permutation_length (ti_pool _ _ _ _ _ Hf)) as H2.
    rewrite !length_app in H1, H2. lia. }
  destruct (ti_frames _ _ _ _ _ Hf ch it (list_elem_of_here _ _)) as [Hit Hch].
  destruct (next_child ch it id) as [j [[doc it']|]] eqn:En; apply next_child_spec in En.
  - destruct En as (-> & Hin & pre & -> & Hpre). assert (doc ∈ results) as Hdoc by (apply Hit, elem_of_app; right; apply list_elem_of_here).
    assert (doc ∉ sorted) as Hnew.
    { intros [_ Hd]%(ti_sorted _ _ _ _ _ Hf). apply (inv_disjoint _ _ _ _ _ _ Hf Hd). unfold pool. cbn. apply elem_of_app. right.
      apply elem_of_app. left. by apply elem_of_elements. }
    destruct (visit_inv tree' ch _ stack' sorted done (doc + 1) it' (sorted ++ [doc]) Hf Hin) as [Hv Hl].
    + intros r Hr. apply Hit, elem_of_app. right. by apply list_elem_of_further.
    + intros r Hr Hrc Hne. pose proof (Hch r Hr Hrc) as [Hr'|[->|?]%elem_of_cons]%elem_of_app; [by apply Hpre in Hr'|done..].
    + intros r. rewrite elem_of_app, list_elem_of_singleton. split; [intros [?| ->]; [by left|by right]|].
      intros [?|[_ ?]]; [by left|right; lia].
    + apply NoDup_app. split_and!; [apply Hf| |apply NoDup_singleton]. intros x Hx Hx2%list_elem_of_singleton. by subst x.
    + destruct (Nat.eqb_spec (length (sorted ++ [doc])) (length results)) as [He|].
      * split_and!; [apply Hv|intros r Hr; by eapply sorted_results|]. intros _. apply complete_permutation; [apply Hv| |lia].
        intros r Hr; by eapply sorted_results.
      * destruct (IH _ _ _ _ _ Hv) as (I1 & I2 & I3). split_and!; [done..|]. intros Hr. apply I3. cbn [length] in *. lia.
  - destruct (set_iter ch) as [|c l] eqn:Es.
    + assert (ch = ∅) as -> by (apply leibniz_equiv, elements_empty_iff, Permutation_nil_r; by rewrite <- set_iter_elements, Es).
      destruct (IH tree' stack' sorted j done) as (I1 & I2 & I3); [by eapply drop_frame|]. split_and!; [done..|]. intros Hr. apply I3.
      assert (pool tree' ((∅, it) :: stack') = pool tree' stack') as Hpe by (unfold pool; cbn; by rewrite elements_empty). rewrite Hpe in Hp. lia.
    + assert (c ∈ ch) as Hc by (apply elem_of_elements; rewrite <- set_iter_elements, Es; apply list_elem_of_here).
      destruct (visit_inv tree' ch it stack' sorted done c [] sorted Hf Hc) as [Hv Hl]; [by intros r ?%elem_of_nil| | |apply Hf|].
      * intros r Hr Hrc _. by destruct (En r (Hch r Hr Hrc)).
      * intros r. split; [by left|]. intros [?|[Hr <-]]; [done|]. by destruct (En r (Hch r Hr Hc)).
      * destruct (IH _ _ _ _ _ Hv) as (I1 & I2 & I3). split_and!; [done..|]. intros Hr. apply I3. cbn [length] in *. lia.
Qed.
End SortProof.

(** ** The tree that a query reads *)

(** The children of each mailbox, for the parents of all. *)
Record tree_agrees (hierarchy : gmap Z Z) (tree : gmap Z (gset Z)) : Prop := {
  ta_children p s : tree !! p = Some s -> s <> ∅ /\ forall c, c ∈ s <-> hierarchy !! c = Some p;
  ta_parents c p : hierarchy !! c = Some p -> is_Some (tree !! p);
  ta_pool : pool tree [] ≡ₚ (map_to_list hierarchy).*1 }.

Lemma tree_agrees_insert hierarchy tree c p :
  tree_agrees hierarchy tree -> hierarchy !! c = None -> tree_agrees (<[c := p]> hierarchy) (<[p := default ∅ (tree !! p) ∪ {[c]}]> tree).
Proof.
  intros [Hc Hp Hpool] Hnew.
  assert (forall d, d ∈ default ∅ (tree !! p) <-> hierarchy !! d = Some p) as Hp0.
  { intros d. destruct (tree !! p) as [s|] eqn:Es; cbn; [by apply Hc|]. split; [set_solver|]. intros [s Hs]%Hp. congruence. }
  split.
  - intros q s. rewrite lookup_insert_Some. intros [[<- <-]|[Hne Hs]].
    + split; [set_solver|]. intros d. rewrite elem_of_union, elem_of_singleton, Hp0, lookup_insert_Some. naive_solver.
    + destruct (Hc q s Hs) as [Hs0 Hsc]. split; [done|]. intros d. rewrite Hsc, lookup_insert_Some. split; [|naive_solver].
      intros Hd. right. split; [|done]. intros ->. congruence.
  - intros d q. rewrite lookup_insert_Some. intros [[<- <-]|[_ Hd%Hp]]; [by rewrite lookup_insert_eq|].
    destruct (decide (q = p)) as [->|]; [by rewrite lookup_insert_eq|by rewrite lookup_insert_ne].
  - rewrite map_to_list_insert by done. cbn [fmap list_fmap fst]. rewrite <- Hpool. unfold pool. cbn [map concat]. rewrite !app_nil_r.
    assert (elements (default ∅ (tree !! p) ∪ {[c]}) ≡ₚ c :: elements (default ∅ (tree !! p))) as He.
    { rewrite union_comm_L. apply elements_union_singleton. rewrite Hp0. congruence. }
    destruct (tree !! p) as [s|] eqn:Es; cbn [default from_option id] in *.
    + rewrite <- insert_delete_eq, map_to_list_insert by apply lookup_delete_eq. rewrite <- (map_to_list_delete tree p s Es). cbn. by rewrite He.
    + rewrite map_to_list_insert by done. cbn. by rewrite He, elements_empty.
Qed.

Lemma mailbox_hierarchy_exact `{MailboxStore W} (w : W) a m ids hierarchy tree :
  holds_mailboxes w a m -> mailbox_tree m -> NoDup ids -> (forall i, i ∈ ids -> is_Some (m !! i) /\ hierarchy !! (i + 1) = None) ->
  tree_agrees hierarchy tree ->
  exists hierarchy' tree', mailbox_hierarchy w a ids hierarchy tree = inr (hierarchy', tree') /\ tree_agrees hierarchy' tree' /\
    forall c p, hierarchy' !! c = Some p <-> hierarchy !! c = Some p \/ exists i o, i ∈ ids /\ c = i + 1 /\ m !! i = Some o /\ parent_of o = Some p.
Proof.
  intros Hw Ht. revert hierarchy tree. induction ids as [|i ids IH]; intros hierarchy tree Hnd Hin Ha; cbn [mailbox_hierarchy].
  { exists hierarchy, tree. split_and!; [done..|]. intros c p. split; [by left|]. intros [?|(i & o & ?%elem_of_nil & _)]; done. }
  apply NoDup_cons in Hnd as [Hi Hnd]. destruct (Hin i (list_elem_of_here _ _)) as [[o Ho] Hnew].
  destruct (mt_ids m Ht _ _ Ho) as [Hrange _], (stored_parent m i o Ht Ho) as (p & Hp & _).
  rewrite (hm_orm _ _ _ Hw), Ho. cbn [mbind sum_bind option_bind]. rewrite Hp. cbn [default from_option id].
  unfold u32, wrap. rewrite Z.mod_small by lia.
  destruct (IH (<[i + 1 := p]> hierarchy) (<[p := default ∅ (tree !! p) ∪ {[i + 1]}]> tree)) as (h' & t' & -> & Ha' & Hh); [done| |by apply tree_agrees_insert|].
  - intros j Hj. destruct (Hin j (list_elem_of_further _ _ _ Hj)) as [? ?]. split; [done|]. rewrite lookup_insert_ne; [done|]. intros ?. by assert (j = i) as -> by lia.
  - exists h', t'. split_and!; [done..|]. intros c q. rewrite Hh, lookup_insert_Some. split.
    + intros [[[<- <-]|[_ ?]]|(j & o' & Hj & ?)]; [right|by left|right; exists j, o'; split; [by right|done]]. exists i, o. by split_and!; [left|..].
    + intros [Hc|(j & o' & [->|Hj]%elem_of_cons & -> & Ho' & Hp')]; [|left; left; split; [done|congruence]|right; by eauto 10].
      left. right. split; [|done]. intros <-. congruence.
Qed.

(** All mailboxes above a result are results, at most [n] with it. *)
Inductive up_through (m : gmap Z Fields) (results : list Z) : Z -> nat -> Prop :=
| up_root i o n : m !! i = Some o -> parent_of o = Some 0 -> up_through m results i (S n)
| up_parent i o p n : m !! i = Some o -> parent_of o = Some p -> p <> 0 -> p - 1 ∈ results -> up_through m results (p - 1) n ->
    up_through m results i (S n).

Lemma keep_mailbox_exact m (hierarchy : gmap Z Z) results n i :
  (forall c p, hierarchy !! c = Some p <-> exists i o, c = i + 1 /\ m !! i = Some o /\ parent_of o = Some p) ->
  keep_mailbox n hierarchy results (i + 1) = true <-> up_through m results i n.
Proof.
  intros Hh. revert i. induction n as [|n IH]; intros i; cbn [keep_mailbox]; [split; [done|inversion 1]|].
  destruct (hierarchy !! (i + 1)) as [p|] eqn:Ep.
  - apply Hh in Ep as (j & o & Hj & Ho & Hp). assert (j = i) as -> by lia. destruct (Z.eqb_spec p 0) as [->|Hp0].
    { split; [intros _; by eapply up_root|done]. }
    case_bool_decide as Hin; cbn [negb].
    + replace p with (p - 1 + 1) at 1 by lia. rewrite IH. split; [intros Hu; by eapply up_parent|].
      inversion 1 as [? o' ? Ho' Hp'|? o' p' ? Ho' Hp']; simplify_eq; done.
    + split; [done|]. inversion 1 as [? o' ? Ho' Hp'|? o' p' ? Ho' Hp']; simplify_eq; done.
  - split; [done|]. intros Hu. assert (exists p, hierarchy !! (i + 1) = Some p) as [p Hp]; [|congruence].
    inversion Hu as [? o ? Ho Hp|? o p ? Ho Hp]; subst; eexists; apply Hh; by eauto.
Qed.

Lemma tree_grounded m (hierarchy : gmap Z Z) c :
  mailbox_tree m -> (forall c p, hierarchy !! c = Some p <-> exists i o, c = i + 1 /\ m !! i = Some o /\ parent_of o = Some p) ->
  is_Some (hierarchy !! c) -> grounded hierarchy c.
Proof.
  intros Ht Hh [p Hc]. pose proof (proj1 (Hh c p) Hc) as (i & o & -> & Ho & Hp). destruct (mt_rooted m Ht i o p Ho Hp) as [n Hr].
  clear Ho Hp. revert i Hc. induction Hr as [|p o' q n Hp0 Ho' Hq _ IH]; intros i Hc; [by apply grounded_root|].
  eapply grounded_child; [done|]. replace p with (p - 1 + 1) by lia. apply IH, Hh. exists (p - 1), o'. split_and!; [lia|done..].
Qed.

Lemma pool_size hierarchy tree : tree_agrees hierarchy tree -> (size tree <= size hierarchy)%nat.
Proof.
  intros Ha. rewrite <- !length_map_to_list. rewrite <- (length_fmap fst (map_to_list hierarchy)), <- (ta_pool _ _ Ha). unfold pool. cbn. rewrite app_nil_r.
  assert (Forall (fun e => e.2 <> ∅) (map_to_list tree)) as Hne.
  { apply Forall_forall. intros [p s] Hin%elem_of_map_to_list. by apply (ta_children _ _ Ha) in Hin as [? _]. }
  induction Hne as [|[p s] l Hs _ IH]; [done|]. cbn in *. rewrite length_app. assert (length (elements s) <> 0)%nat; [|lia].
  intros He%nil_length_inv%elements_empty_iff%leibniz_equiv. done.
Qed.
Lemma hierarchy_size m (hierarchy : gmap Z Z) :
  mailbox_tree m -> (forall c p, hierarchy !! c = Some p <-> exists i o, c = i + 1 /\ m !! i = Some o /\ parent_of o = Some p) ->
  size hierarchy = size m.
Proof.
  intros Ht Hh. rewrite <- !length_map_to_list, <- (length_fmap fst (map_to_list hierarchy)), <- (length_fmap (fun e => e.1 + 1) (map_to_list m)).
  apply Permutation_length, NoDup_Permutation; [apply NoDup_fst_map_to_list|..].
  - change (fun e : Z * Fields => e.1 + 1) with ((fun i => i + 1) ∘ fst : Z * Fields -> Z). rewrite list_fmap_compose. apply NoDup_fmap; [intros ? ? ?; lia|apply NoDup_fst_map_to_list].
  - intros c. rewrite !list_elem_of_fmap. split.
    + intros ([c' p] & -> & Hc%elem_of_map_to_list). apply Hh in Hc as (i & o & -> & Ho & _). exists (i, o). split; [done|]. by apply elem_of_map_to_list.
    + intros ([i o] & -> & Hi%elem_of_map_to_list). destruct (stored_parent m i o Ht Hi) as (p & Hp & _).
      exists (i + 1, p). split; [done|]. apply elem_of_map_to_list, Hh. by eauto.
Qed.
Lemma sublist_full {A} (l1 l2 : list A) : sublist l1 l2 -> (length l2 <= length l1)%nat -> l1 = l2.
Proof.
  induction 1 as [|x l1 l2 _ IH|x l1 l2 Hs _]; intros Hl; cbn in Hl; [done|f_equal; apply IH; lia|]. apply sublist_length in Hs. lia.
Qed.
Lemma filter_as_tree_filter depth hierarchy results :
  filter_as_tree depth hierarchy results = filter (fun r => keep_mailbox depth hierarchy results (r + 1) = true) results.
Proof.
  unfold filter_as_tree. destruct (Nat.eqb_spec (length (filter (fun r => keep_mailbox depth hierarchy results (r + 1) = true) results)) (length results)) as [He|];
    [|done]. cbn. symmetry. apply sublist_full; [apply sublist_filter|lia].
Qed.

Lemma sort_as_tree_sorts m (hierarchy : gmap Z Z) tree set_iter depth results :
  mailbox_tree m -> (forall c p, hierarchy !! c = Some p <-> exists i o, c = i + 1 /\ m !! i = Some o /\ parent_of o = Some p) ->
  tree_agrees hierarchy tree -> (forall s, set_iter s ≡ₚ elements s) -> NoDup results -> (forall r, r ∈ results -> is_Some (m !! r)) ->
  NoDup (sort_as_tree set_iter depth tree results) /\ (forall r, r ∈ sort_as_tree set_iter depth tree results -> r ∈ results) /\
  ((2 * size hierarchy <= length results * 10 * depth)%nat -> sort_as_tree set_iter depth tree results ≡ₚ results).
Proof.
  intros Ht Hh Ha Hset Hnd Hin. unfold sort_as_tree. destruct (1 <? length results)%nat; [|done].
  assert (tree_inv hierarchy results (Some 0) tree [] [] []) as Hi.
  { split; [by rewrite (ta_pool _ _ Ha)|..].
    - intros p s c Hs. by apply (ta_children _ _ Ha) in Hs as [_ ->].
    - intros p [->|?%elem_of_nil]; done.
    - intros r. split; [by intros ?%elem_of_nil|by intros [_ ?%elem_of_nil]].
    - constructor.
    - by intros ? ? ?%elem_of_nil. }
  destruct (tree_loop_sorts hierarchy results set_iter Hset Hnd) with (rounds := (length results * 10 * depth)%nat) (tree := tree)
    (stack := @nil (gset Z * list Z)) (sorted := @nil Z) (id := 0) (done := @nil Z) as (I1 & I2 & I3); [| |done|].
  - intros r [o Ho]%Hin. destruct (stored_parent m r o Ht Ho) as (p & Hp & _). exists p. apply Hh. by eauto.
  - intros c. by apply (tree_grounded m).
  - split_and!; [done..|]. intros Hrounds. apply I3. rewrite (ta_pool _ _ Ha), length_fmap, length_map_to_list.
    pose proof (pool_size _ _ Ha). cbn. lia.
Qed.

(** ** Paths are unique *)

Lemma rooted_depth m p n n' : rooted m p n -> rooted m p n' -> n = n'.
Proof.
  intros Hr. revert n'. induction Hr as [|p o q n Hp Hl Hq _ IH]; intros n'; inversion 1 as [|? o' q' k Hp' Hl' Hq' Hr']; subst; try done.
  simplify_eq. f_equal. by apply IH.
Qed.
(** The mailboxes on a path have different depths, so that they are different. *)
Lemma path_mailboxes m p names q k :
  path_in m [] p names q -> rooted m p k -> (forall i o, m !! i = Some o -> 0 <= i) ->
  exists l, length l = length names /\ NoDup l /\
    forall i, i ∈ l -> (exists o name, m !! i = Some o /\ name_of o = Some name /\ name ∈ names) /\ exists n, (k < n)%nat /\ rooted m (i + 1) n.
Proof.
  intros Hp Hr Hpos. revert k Hr.
  induction Hp as [p|p i o name names q Hi Hn Hpar _ IH|p i name names q Hi]; intros k Hr; [..|by apply elem_of_nil in Hi].
  { exists []. split_and!; [done|constructor|by intros i ?%elem_of_nil]. }
  assert (rooted m (i + 1) (S k)) as Hr1.
  { pose proof (Hpos i o Hi). econstructor; [lia|by replace (i + 1 - 1) with i by lia|done..]. }
  destruct (IH _ Hr1) as (l & Hlen & Hnd & Hl). exists (i :: l). cbn. split_and!; [lia| |].
  - apply NoDup_cons. split; [|done]. intros (_ & n & Hn1 & Hn2)%Hl. pose proof (rooted_depth _ _ _ _ Hr1 Hn2). lia.
  - intros j [->|Hj]%elem_of_cons; [split; [exists o, name; split_and!; [done..|apply list_elem_of_here]|exists (S k); split; [lia|done]]|].
    destruct (Hl j Hj) as [(o' & name' & ? & ? & ?) (n & ? & ?)].
    split; [exists o', name'; split_and!; [done..|by apply list_elem_of_further]|exists n; split; [lia|done]].
Qed.
Lemma path_unique m p names q q' : mailbox_tree m -> path_in m [] p names q -> path_in m [] p names q' -> q = q'.
Proof.
  intros Ht Hp. revert q'. induction Hp as [p|p i o name names q Hi Hn Hpar _ IH|p i name names q Hi]; intros q' Hq; [by inversion Hq|..|by apply elem_of_nil in Hi].
  inversion Hq as [|? j o' ? ? ? Hj Hn' Hpar' Hrest|? ? ? ? ? Hj]; subst; [|by apply elem_of_nil in Hj].
  assert (i = j) as -> by (eapply (mt_names m Ht); [done..|congruence|congruence]). by apply IH.
Qed.
Lemma path_in_split m p pre rest r : path_in m [] p (pre ++ rest) r -> exists q, path_in m [] p pre q /\ path_in m [] q rest r.
Proof.
  revert p. induction pre as [|name pre IH]; intros p; cbn; [intros Hp; exists p; split; [constructor|done]|].
  inversion 1 as [|? i o ? ? ? Hi Hn Hpar Hrest|? ? ? ? ? Hj]; subst; [|by apply elem_of_nil in Hj].
  destruct (IH _ Hrest) as (q & H1 & H2). exists q. split; [by eapply path_stored|done].
Qed.

(** ** Counts *)

Section Counts.
Context `{SetStore W} `{MailboxStore W} `{MailboxReads W}.

(** The unread messages of a mailbox: those without the keyword. *)
Lemma unread_exact (w : W) a i (mails box seen : gset Z) tags seen_tag :
  mailbox_tags w a i = inr tags -> default ∅ tags = box -> seen_messages w a = inr seen_tag -> default ∅ seen_tag = seen ->
  box ⊆ mails -> seen ⊆ mails ->
  exists unread, mailbox_unread_tags w a i (Some mails) = inr unread /\ default ∅ unread = box ∖ seen.
Proof.
  intros Ht <- Hs <- Hb Hk. unfold mailbox_unread_tags. rewrite Ht. cbn [mbind sum_bind]. destruct tags as [box|]; cbn [default from_option id] in *.
  - rewrite Hs. cbn [mbind sum_bind]. destruct seen_tag as [seen|]; cbn [default from_option id] in *.
    + eexists. split; [done|]. case_bool_decide as He; cbn [default from_option id]; set_solver.
    + eexists. split; [done|]. cbn. set_solver.
  - eexists. split; [done|]. cbn. set_solver.
Qed.

Lemma threads_counted (w : W) a (s : option (gset Z)) (thread : Z -> option Z) :
  (forall l, message_threads w a l = inr (map thread l)) ->
  mailbox_count_threads w a s = inr (size (list_to_set (omap thread (elements (default ∅ s))) : gset Z)).
Proof.
  intros Ht. unfold mailbox_count_threads. destruct s as [s|]; cbn [default from_option id]; [|by rewrite elements_empty].
  rewrite Ht. cbn [mbind sum_bind]. do 2 f_equal. apply leibniz_equiv. intros t. rewrite !elem_of_list_to_set.
  unfold treemap_iter. rewrite !list_elem_of_omap. setoid_rewrite list_elem_of_fmap. setoid_rewrite merge_sort_Permutation. naive_solver.
Qed.
End Counts.

(** ** Properties *)

(** C30. Queries as a tree. With [filterAsTree], a query keeps exactly the
    results whose parents, up to the root and within the maximal depth, are all
    results. With [sortAsTree] it lists no mailbox twice and none that is not a
    result; and if twice the number of mailboxes is at most ten times the depth
    per result, it lists all of them, whatever the order of hash sets is. *)
Theorem tree_listing `{SetStore W} `{MailboxStore W} (config : MailboxConfig) set_iter (w : W) a (m : gmap Z Fields) sort_as filter_as results :
  let depth := mailbox_max_depth config in
  holds_mailboxes w a m -> mailbox_tree m -> store_document_ids w a Collection.Mailbox = inr (Some (dom m)) ->
  (forall s, set_iter s ≡ₚ elements s) -> NoDup results -> (forall r, r ∈ results -> is_Some (m !! r)) ->
  exists kept listed, list_as_tree config set_iter w a sort_as filter_as results = Ok listed /\
    sublist kept results /\ (forall r, r ∈ kept <-> r ∈ results /\ (filter_as = true -> up_through m results r depth)) /\
    (sort_as = false -> listed = kept) /\ NoDup listed /\ (forall r, r ∈ listed -> r ∈ kept) /\
    ((2 * size m <= length kept * 10 * depth)%nat -> listed ≡ₚ kept).
Proof.
  intros depth Hw Ht Hids Hset Hnd Hin. unfold list_as_tree. rewrite Hids. cbn [of_store mbind res_bind default from_option id].
  destruct (treemap_iter_sorted (dom m)) as (_ & Hnd' & Hiter).
  destruct (mailbox_hierarchy_exact w a m (treemap_iter (dom m)) ∅ ∅ Hw Ht Hnd') as (h & t & -> & Ha & Hh).
  { intros i. rewrite Hiter, elem_of_dom. by split. }
  { split; [intros ? ? Hl|intros ? ? Hl|]; [by rewrite lookup_empty in Hl..|]. unfold pool. by rewrite !map_to_list_empty. }
  assert (forall c p, h !! c = Some p <-> exists i o, c = i + 1 /\ m !! i = Some o /\ parent_of o = Some p) as Hh'.
  { intros c p. rewrite Hh, lookup_empty. split; [intros [?|(i & o & _ & ?)]; [done|by eauto]|]. intros (i & o & -> & Ho & Hp).
    right. exists i, o. split_and!; [apply Hiter, elem_of_dom; by eauto|done..]. }
  clear Hh. cbn [of_store mbind res_bind]. set (kept := if filter_as then filter_as_tree depth h results else results).
  assert (sublist kept results /\ forall r, r ∈ kept <-> r ∈ results /\ (filter_as = true -> up_through m results r depth)) as [Hsub Hkept].
  { unfold kept. destruct filter_as; [|split; [done|naive_solver]]. split; [rewrite filter_as_tree_filter; apply sublist_filter|].
    intros r. rewrite filter_as_tree_filter, list_elem_of_filter, (keep_mailbox_exact m) by done. naive_solver. }
  assert (NoDup kept) as Hndk by (by apply (sublist_NoDup _ results)).
  assert (forall r, r ∈ kept -> is_Some (m !! r)) as Hink by (intros r [Hr _]%Hkept; by apply Hin).
  destruct (sort_as_tree_sorts m h t set_iter depth kept Ht Hh' Ha Hset Hndk Hink) as (S1 & S2 & S3).
  exists kept. destruct sort_as; eexists; split_and!; try done.
  rewrite <- (hierarchy_size m h Ht Hh'). done.
Qed.

(** Mailboxes by path. [mailbox_get_by_name] finds the mailbox that the names
    of the path lead to from the root, which is the only one, exactly if there
    is one and the path is not empty and not deeper than allowed. *)
Theorem mailbox_path_found `{SetStore W} `{MailboxStoreLaws W} `{Unicode} (config : MailboxConfig) (w : W) a (m : gmap Z Fields) (path : list Z) :
  holds_mailboxes w a m -> mailbox_tree m ->
  exists r, mailbox_get_by_name config w a path = inr r /\
    forall i, r = Some i <-> (0 < length (path_names path) <= mailbox_max_depth config)%nat /\ path_in m [] 0 (path_names path) (i + 1).
Proof.
  intros Hw Ht. unfold mailbox_get_by_name. destruct ((length (path_names path) =? 0)%nat || _) eqn:Eb.
  { exists None. split; [done|]. intros i. split; [done|]. intros [? _]. apply orb_true_iff in Eb as [?%Nat.eqb_eq|?%Nat.ltb_lt]; lia. }
  apply orb_false_iff in Eb as [Hlen%Nat.eqb_neq Hdeep%Nat.ltb_ge].
  destruct (path_search w a m (path_names path) Hw Ht) as (l & found & pre & q & rest & -> & Hnd & Hall & Ef & Ew & Hpath & Hpre & Hrest).
  cbn [mbind sum_bind]. destruct (Nat.ltb_spec (length l) (length (path_names path))) as [Hshort|_].
  { exists None. split; [done|]. intros i. split; [done|]. intros [_ Hp]. exfalso.
    destruct (path_mailboxes m 0 _ _ 0 Hp) as (l' & Hl' & Hnd' & Hin'); [constructor|by intros j o [? _]%(mt_ids m Ht); lia|].
    assert (length l' <= length l)%nat; [|lia]. apply submseteq_length, NoDup_submseteq; [done|].
    intros j Hj. destruct (Hin' j Hj) as [(o & name & ? & ? & ?) _]. by eapply Hall. }
  rewrite Ef. cbn [mbind sum_bind]. rewrite Ew. destruct rest as [|name rest].
  - exists (Some (q - 1)). split; [done|]. rewrite app_nil_r in Hpath. rewrite <- Hpath in Hpre. intros i. split.
    + intros [= <-]. replace (q - 1 + 1) with q by lia. split; [lia|done].
    + intros [_ Hp]. rewrite (path_unique m _ _ _ _ Ht Hpre Hp). f_equal. lia.
  - exists None. split; [done|]. intros i. split; [done|]. intros [_ Hp]. exfalso. rewrite Hpath in Hp.
    apply path_in_split in Hp as (q' & Hp1 & Hp2). rewrite <- (path_unique m _ _ _ _ Ht Hpre Hp1) in Hp2.
    inversion Hp2 as [|? j o ? ? ? Hj Hn Hpar|? ? ? ? ? Hj]; subst; [|by apply elem_of_nil in Hj]. by apply (Hrest name rest j o).
Qed.

(** C31. Counts of a mailbox. Of a mailbox with the messages [box], among which
    those of [seen] have the keyword [$seen], the properties are the number of
    messages, of messages without the keyword, and of the threads of both, in
    32 bits. *)
Theorem mailbox_counts_exact `{SetStore W} `{MailboxStore W} `{MailboxReads W} (w : W) acl a id fields (mails box seen : gset Z)
    (tags seen_tag : option (gset Z)) (thread : Z -> option Z) :
  mailbox_tags w a (id_document_id id) = inr tags -> default ∅ tags = box -> seen_messages w a = inr seen_tag -> default ∅ seen_tag = seen ->
  (forall l, message_threads w a l = inr (map thread l)) -> box ⊆ mails -> seen ⊆ mails ->
  let read p := read_property acl a (Some mails) id p w fields in
  let threads (s : gset Z) : gset Z := list_to_set (omap thread (elements s)) in
  let count (s : gset Z) := (w, fields, Returned (Mailbox.VNumber (u32 (Z.of_nat (size s))))) in
  read Mailbox.TotalEmails = count box /\ read Mailbox.UnreadEmails = count (box ∖ seen) /\
  read Mailbox.TotalThreads = count (threads box) /\ read Mailbox.UnreadThreads = count (threads (box ∖ seen)).
Proof.
  intros Ht Hb Hs Hk Hthread Hbox Hseen. destruct (unread_exact w a (id_document_id id) mails box seen tags seen_tag Ht Hb Hs Hk Hbox Hseen) as (unread & Hu & Hub).
  assert (forall s, set_len s = u32 (Z.of_nat (size (default ∅ s)))) as Hlen by (by intros [s|]).
  cbn zeta. unfold read_property. rewrite Ht, Hu. cbn [mbind sum_bind]. rewrite !(threads_counted w a _ thread Hthread), !Hlen, Hub, Hb. by split_and!.
Qed.

(** ** Samples *)

Module ReadSample.
Import AsciiText MailboxSample.
Definition thread (i : Z) : option Z := Some (i / 2).
#[export] Instance mailbox_reads : MailboxReads world := {|
  seen_messages _ _ := inr (Some {[10]}); message_threads _ _ l := inr (map thread l); mailbox_acl _ _ _ _ := inr 0;
  principal_to_email _ _ := inr None |}.
Definition iter (s : gset Z) : list Z := merge_sort Z.le (elements s).
Lemma iter_elements s : iter s ≡ₚ elements s.
Proof. apply merge_sort_Permutation. Qed.

(** Inbox, [C] in [A] and the other [C] as results: [C] in [A] is left out. *)
Lemma tree_listing_witness :
  exists kept listed, list_as_tree config iter start 1 true true [6; 5; 0] = Ok listed /\ sublist kept [6; 5; 0] /\ listed ≡ₚ kept.
Proof.
  assert (store_document_ids start 1 Collection.Mailbox = inr (Some (dom boxes))) as Hids by reflexivity.
  destruct (tree_listing config iter start 1 boxes true true [6; 5; 0] start_holds boxes_tree Hids iter_elements)
    as (kept & listed & E & Hs & Hk & _ & _ & _ & Hp).
  - refine (bool_decide_unpack _ _). vm_compute. exact I.
  - intros r Hr. repeat (apply elem_of_cons in Hr as [->|Hr]; [by eexists|]). by apply elem_of_nil in Hr.
  - exists kept, listed. split; [exact E|]. split; [exact Hs|]. apply Hp.
    assert (6 ∈ kept) as Hin.
    { apply Hk. split; [left|]. intros _. apply (up_root _ _ 6 (box (chars "C") 0) 9); reflexivity. }
    destruct kept; [by apply elem_of_nil in Hin|]. cbn [length]. change (size boxes) with 5%nat. change (mailbox_max_depth config) with 10%nat. lia.
Defined.

Lemma mailbox_path_found_witness : mailbox_get_by_name config start 1 (chars "A/C") = inr (Some 5) /\ path_in boxes [] 0 [chars "A"; chars "C"] 6.
Proof.
  assert (mailbox_get_by_name config start 1 (chars "A/C") = inr (Some 5)) as E by (vm_compute; reflexivity).
  split; [exact E|]. destruct (mailbox_path_found config start 1 boxes (chars "A/C") start_holds boxes_tree) as (r & Er & Hr).
  assert (Some 5 = r) as <- by (rewrite E in Er; injection Er as <-; reflexivity). destruct (Hr 5) as [H1 _]. destruct (H1 eq_refl) as [_ Hp]. exact Hp.
Defined.

Lemma mailbox_counts_exact_witness :
  (read_property owner 1 (Some {[10; 11; 12]}) 4 Mailbox.UnreadEmails start None).2 = Returned (Mailbox.VNumber 2) /\
  (read_property owner 1 (Some {[10; 11; 12]}) 4 Mailbox.TotalThreads start None).2 = Returned (Mailbox.VNumber 2).
Proof.
  destruct (mailbox_counts_exact start owner 1 4 None {[10; 11; 12]} {[10; 11; 12]} {[10]} (Some {[10; 11; 12]}) (Some {[10]}) thread)
    as (_ & Hu & Ht & _); [reflexivity..|set_solver|set_solver|]. rewrite Hu, Ht. split; vm_compute; reflexivity.
Defined.

(** [isSubscribed] asked for without another property of the object: the object
    is not read, and [unwrap] panics. *)
Lemma subscription_alone_panics :
  (mailbox_get 10 start owner (mkGetRequest 1 (Some (RValue [4])) (Some (RValue [Mailbox.IsSubscribed])))).2 = Panicked /\
  exists rs, (mailbox_get 10 start owner (mkGetRequest 1 (Some (RValue [4])) (Some (RValue [Mailbox.IsSubscribed; Mailbox.Name])))).2 = Returned rs.
Proof. split; [vm_compute; reflexivity|]. eexists. vm_compute. reflexivity. Qed.
(** No object has an entry for the property that the filter [isSubscribed] asks for. *)
Lemma subscriptions_not_indexed (v : option Mailbox.Value) : entries Mailbox.IsSubscribed v = [].
Proof. by destruct v. Qed.

(** Mailboxes 0, 1 in 0, 2, 4 in 2 and 3 in 4: the child 3 is listed before its
    parent 4, because the last result looked at is taken for one visited. *)
Lemma child_before_parent :
  sort_as_tree iter 10 {[ 0 := {[1; 3]}; 1 := {[2]}; 3 := {[5]}; 5 := {[4]} ]} [0; 1; 2; 3; 4] = [0; 1; 3; 2; 4].
Proof. vm_compute. reflexivity. Qed.
(** Two results in the last of 250 mailboxes at the root: none is listed. *)
Lemma results_dropped :
  sort_as_tree iter 10 {[ 0 := list_to_set (seqZ 1 250); 250 := {[251; 252]} ]} [250; 251] = [].
Proof. vm_compute. reflexivity. Qed.
End ReadSample.
