(* ===== verification/Directory.v ===== *)
(** * Accounts: components/jmap/src/principal and
      components/jmap_sharing/src/principal/account.rs

    Individuals, groups, lists and domains are principals, objects of the
    object-relational layer in the account of the superuser. This file has their
    schema and the principals as other parts of the server see them: logins,
    the groups of an account and the expansion of recipients. Reads and queries
    of the store are an interface, the directory, whose law is that a query
    finds the principals whose index entries match. Texts are lists of
    characters; the password hash is a parameter. *)

From Stdlib Require Import String.
From S2P Require Import Prelude Text Lang Types TermIndex Nlp Bitmap BitList VecMap KV Blob ChangeLog RaftLog JmapId Write Orm Address SetRequest.
#[local] Open Scope Z_scope.

(** ** Schema *)

Module Principal.
Inductive Property : Set :=
| Id | Type_ | Name | Description | Email | Timezone | Capabilities | Aliases | Secret | DKIM | Quota | Picture | Members | ACL | Invalid.
Inductive Type' : Set := Individual | Group | Resource | Location | Domain | List_ | Other.
Inductive Patch : Set :=
| PatchACL (updates : list ACLUpdate) | PatchMembers (l : VecMap Z bool) | PatchAliases (l : VecMap (list Z) bool).
Inductive Value : Set :=
| VId (value : Z) | VBlob (value : JMAPBlob) | VText (value : list Z) | VTextList (value : list (list Z)) | VNumber (value : Z)
| VType (value : Type') | VDKIM (selector : option (list Z)) (expiration : option Z) | VMembers (value : list Z)
| VACL (value : VecMap (list Z) (list ACL.t)) | VPatch (p : Patch) | VNull.

#[export] Instance property_eq_dec : EqDecision Property.
Proof. solve_decision. Defined.
#[export] Instance type_eq_dec : EqDecision Type'.
Proof. solve_decision. Defined.
#[export] Instance section_eq_dec : EqDecision BlobSection.
Proof. solve_decision. Defined.
#[export] Instance blob_eq_dec : EqDecision JMAPBlob.
Proof. solve_decision. Defined.
#[export] Instance patch_eq_dec : EqDecision Patch.
Proof. solve_decision. Defined.
#[export] Instance value_eq_dec : EqDecision Value.
Proof. solve_decision. Defined.

Definition type_keyword (t : Type') : list Z :=
  match t with
  | Individual => chars "i" | Group => chars "g" | Resource => chars "r" | Location => chars "l" | Domain => chars "d"
  | List_ => chars "t" | Other => chars "o"
  end.

Definition value_index_as (v : Value) : Index :=
  match v with
  | VText value => IText value
  | VTextList [] => INull
  | VTextList value => ITextList value
  | VNumber value => ILongInteger (u64 value)
  | VType value => IText (type_keyword value)
  | VMembers [] => INull
  | VMembers value => IIntegerList (map id_document_id value)
  | _ => INull
  end.
Definition value_empty (v : Value) : bool := match v with VText [] => true | VNull => true | _ => false end.
Definition property_number (p : Property) : Z :=
  match p with
  | Id => 0 | Type_ => 1 | Name => 2 | Description => 3 | Email => 4 | Timezone => 5 | Capabilities => 6 | Aliases => 7
  | Secret => 8 | DKIM => 9 | Quota => 10 | Picture => 11 | Members => 12 | ACL => 13 | Invalid => 14
  end.

(** The sizes of the values of properties with a limit; blobs, types and patches
    have the sizes of their types, and no limit. *)
Definition value_length (v : Value) : Z :=
  match v with
  | VId _ | VNumber _ => 8
  | VText value => Z.of_nat (length (str_bytes value))
  | VTextList value => fold_left (fun acc item => acc + Z.of_nat (length (str_bytes item))) value 0
  | VDKIM selector _ => from_option (fun s => Z.of_nat (length (str_bytes s))) 0 selector + 8
  | VMembers value => Z.of_nat (length value) * 8
  | VACL value => fold_left (fun acc kv => acc + Z.of_nat (length (str_bytes kv.1)) + Z.of_nat (length kv.2)) (vm_iter value) 0
  | VBlob _ | VType _ | VPatch _ | VNull => 0
  end.

#[export] Instance value_orm : OrmValue Value := {|
  ov_eq_dec := value_eq_dec; index_as := value_index_as; value_is_empty := value_empty; value_len := value_length;
  value_default := VNull |}.
#[export] Instance object : Object Property Value := {|
  ob_eq_dec := property_eq_dec; ob_value := value_orm; property_id := property_number; required := [];
  indexed :=
    [(Type_, Z.lor F_KEYWORD F_INDEX); (Name, Z.lor F_TOKENIZE F_INDEX); (Email, Z.lor F_TOKENIZE F_INDEX);
     (Aliases, Z.lor F_TOKENIZE F_INDEX); (Members, F_INDEX); (Description, F_TOKENIZE); (Timezone, F_TOKENIZE); (Quota, F_INDEX)];
  max_len :=
    [(Name, 255); (Email, 255); (Aliases, 255 * 1000); (Capabilities, 100 * 10); (Description, 512); (Timezone, 100);
     (Secret, 2048); (DKIM, 100)];
  collection := Collection.Principal |}.
#[export] Instance laws : ObjectLaws Property Value.
Proof. split; [by intros [] []|by intros []|]. cbn. repeat constructor. Qed.
End Principal.
#[export] Existing Instances Principal.property_eq_dec Principal.type_eq_dec Principal.value_eq_dec Principal.value_orm Principal.object
  Principal.laws.
Abbreviation PFields := (TinyORM Principal.Property Principal.Value).
(** The properties of a principal in a request. *)
Abbreviation PrincipalItem := (VecMap Principal.Property Principal.Value).

(** [Principal::new] and [id]. *)
Definition principal_new (id : Z) : PrincipalItem := vm_append vm_new Principal.Id (Principal.VId id).
Definition principal_id (o : PrincipalItem) : option Z := match vm_get o Principal.Id with Some (Principal.VId value) => Some value | _ => None end.

(** ** The directory *)

Class Directory (W : Type) := {
  principal_orm : W -> DocumentId -> result (option PFields);
  principal_query : W -> OFilter Principal.Property -> result (list DocumentId);
  (** [get_shared_accounts]: the rights that others gave to the members. *)
  shared_accounts : W -> list AccountId -> result (list (AccountId * Z)) }.

(** The directory holds the principals [dir]. *)
Record serves `{Directory W} (w : W) (dir : gmap Z PFields) : Prop := {
  sv_orm i : principal_orm w i = inr (dir !! i);
  sv_query f : finds (principal_query w f) dir f }.

(** Results are read in ascending order. *)
Definition first_id (ids : list DocumentId) : option DocumentId := head (merge_sort Z.le ids).

Definition email_filter (email : list Z) : OFilter Principal.Property := FEq Principal.Email (QIndex email).
Definition type_filter (t : Principal.Type') : OFilter Principal.Property := FEq Principal.Type_ (QKeyword (Principal.type_keyword t)).
Definition address_filter (email : list Z) : OFilter Principal.Property := FOr [email_filter email; FEq Principal.Aliases (QIndex email)].
Definition text_of (v : option Principal.Value) : option (list Z) := match v with Some (Principal.VText t) => Some t | _ => None end.

Section Accounts.
Context `{Directory W}.

(** ** Logins *)

Definition find_individual (w : W) (email : list Z) : result (option AccountId) :=
  ids ← principal_query w (FAnd [email_filter email; type_filter Principal.Individual]); inr (first_id ids).

(** [argon2::verify_encoded]: an error for a hash that it cannot read. *)
Variable verify_encoded : list Z -> list Z -> option bool.

Definition authenticate (w : W) (login password : list Z) : result (option AccountId) :=
  account ← find_individual w login;
  match account with
  | None => inr None
  | Some account_id =>
      fields ← principal_orm w account_id;
      inr match fields with
          | None => None
          | Some fields =>
              if negb (bool_decide (orm_get fields Principal.Type_ = Some (Principal.VType Principal.Individual))) then None
              else
                match text_of (orm_get fields Principal.Email), text_of (orm_get fields Principal.Secret) with
                | Some email, Some password_hash =>
                    if negb (bool_decide (email = login)) then None
                    else match verify_encoded password_hash password with Some true => Some account_id | _ => None end
                | _, _ => None
                end
          end
  end.

(** ** The groups of an account *)

Definition groups_of (w : W) (current_id : AccountId) : result (list AccountId) :=
  ids ← principal_query w (FAnd [FEq Principal.Members (QInteger current_id); type_filter Principal.Group]);
  inr (merge_sort Z.le ids).

(** The loops of [get_acl_token]: the iterators of the groups that wait are on a
    stack of at most 10. *)
Fixpoint member_loop (fuel : nat) (w : W) (member_of : list AccountId) (iter_stack : list (list AccountId)) (iter : list AccountId) :
    option (result (list AccountId)) :=
  match fuel with
  | O => None
  | S fuel =>
      match iter with
      | member_account :: iter =>
          if bool_decide (member_account ∈ member_of) then member_loop fuel w member_of iter_stack iter
          else
            let member_of := member_of ++ [member_account] in
            if (length iter_stack <? 10)%nat then
              match groups_of w member_account with
              | inl e => Some (inl e)
              | inr groups => member_loop fuel w member_of (iter :: iter_stack) groups
              end
            else member_loop fuel w member_of iter_stack iter
      | [] =>
          match iter_stack with
          | prev_it :: iter_stack => member_loop fuel w member_of iter_stack prev_it
          | [] => Some (inr member_of)
          end
      end
  end.
Definition find_member_of (fuel : nat) (w : W) (primary_id : AccountId) : option (result (list AccountId)) :=
  match groups_of w primary_id with
  | inl e => Some (inl e)
  | inr groups => member_loop fuel w [primary_id] [] groups
  end.

(** [acl_tokens]: [try_get_with] keeps a token but no error. *)
Definition get_acl_token (fuel : nat) (w : W) (acl_tokens : gmap Z ACLToken) (primary_id : AccountId) :
    option (gmap Z ACLToken * result ACLToken) :=
  match acl_tokens !! primary_id with
  | Some token => Some (acl_tokens, inr token)
  | None =>
      r ← find_member_of fuel w primary_id;
      Some
        match (members ← r; access_to ← shared_accounts w members; inr (mkToken members access_to)) with
        | inl e => (acl_tokens, inl e)
        | inr token => (<[primary_id := token]> acl_tokens, inr token)
        end
  end.

(** ** Details and recipients *)

Definition get_account_details (w : W) (account_id : AccountId) : result (option (list Z * list Z * Principal.Type')) :=
  fields ← principal_orm w account_id;
  inr (option_map
         (fun o => (default [] (text_of (orm_get o Principal.Email)), default [] (text_of (orm_get o Principal.Name)),
                    match orm_get o Principal.Type_ with Some (Principal.VType t) => t | _ => Principal.Individual end)) fields).
Definition get_account_secret_hash (w : W) (account_id : AccountId) : result (option (list Z)) :=
  fields ← principal_orm w account_id; inr (option_map (fun o => default [] (text_of (orm_get o Principal.Secret))) fields).

Fixpoint expand_members (w : W) (ids : list Z) : result (list (AccountId * list Z)) :=
  match ids with
  | [] => inr []
  | id :: ids =>
      let account_id := id_document_id id in
      details ← get_account_details w account_id;
      rest ← expand_members w ids;
      inr match details with Some (email, _, Principal.Individual) => (account_id, email) :: rest | _ => rest end
  end.
Definition expand_address (w : W) (email : list Z) : result RecipientType :=
  ids ← principal_query w (address_filter email);
  match first_id ids with
  | None => inr NotFound
  | Some account_id =>
      fields ← principal_orm w account_id;
      match fields with
      | None => inr NotFound
      | Some fields =>
          match orm_get fields Principal.Type_ with
          | Some (Principal.VType Principal.List_) =>
              match orm_get fields Principal.Members with
              | Some (Principal.VMembers []) => inr NotFound
              | Some (Principal.VMembers value) => l ← expand_members w value; inr (RList l)
              | _ => inr NotFound
              end
          | _ => inr (Individual account_id)
          end
      end
  end.
(** [recipients]: the cache of expansions. *)
Definition expand_rcpt (w : W) (recipients : gmap (list Z) RecipientType) (email : list Z) :
    gmap (list Z) RecipientType * result RecipientType :=
  match recipients !! email with
  | Some r => (recipients, inr r)
  | None => match expand_address w email with inl e => (recipients, inl e) | inr r => (<[email := r]> recipients, inr r) end
  end.

(** [JMAPPrincipals]. *)
Definition principal_email (w : W) (id : AccountId) : MethodError + option (list Z) :=
  match principal_orm w id with inl e => inl (method_error e) | inr p => inr (p ≫= fun p => text_of (orm_get p Principal.Email)) end.
Definition principal_by_email `{Unicode} {U : Type} (w : W) (email : list Z) : SetError U + AccountId :=
  match sanitize_email email with
  | None => inl invalid_properties
  | Some email_clean =>
      ids ← lift (principal_query w (address_filter email_clean));
      match first_id ids with Some id => inr id | None => inl invalid_properties end
  end.
End Accounts.

(** ** Principals of a directory *)

Definition ptype_of (o : PFields) : option Principal.Type' :=
  match orm_get o Principal.Type_ with Some (Principal.VType t) => Some t | _ => None end.
Definition aliases_of (o : PFields) : list (list Z) := match orm_get o Principal.Aliases with Some (Principal.VTextList l) => l | _ => [] end.
Definition members_of (o : PFields) : list Z := match orm_get o Principal.Members with Some (Principal.VMembers l) => l | _ => [] end.
Definition addresses (o : PFields) : list (list Z) := option_list (text_of (orm_get o Principal.Email)) ++ aliases_of o.

(** Each property has a value of its type. *)
Record principal_ok (o : PFields) : Prop := {
  po_inv : vm_inv (properties o);
  po_type : is_Some (ptype_of o);
  po_email v : orm_get o Principal.Email = Some v -> v = Principal.VNull \/ exists t, v = Principal.VText t;
  po_aliases v : orm_get o Principal.Aliases = Some v -> v = Principal.VNull \/ exists l, v = Principal.VTextList l;
  po_members v : orm_get o Principal.Members = Some v -> v = Principal.VNull \/ exists l, v = Principal.VMembers l }.
(** No address belongs to two principals. *)
Record directory_ok (dir : gmap Z PFields) : Prop := {
  do_ok i o : dir !! i = Some o -> principal_ok o;
  do_unique i j o o' e : dir !! i = Some o -> dir !! j = Some o' -> e ∈ addresses o -> e ∈ addresses o' -> i = j }.

Lemma principal_entries (p : Principal.Property) v :
  p ∈ [Principal.Type_; Principal.Name; Principal.Email; Principal.Aliases; Principal.Members] ->
  entries p (Some v) = index_entries (Principal.value_index_as v).
Proof.
  intros Hp. assert (exists o, find_indexed p = Some o) as [o Ho]; [|unfold entries; by rewrite Ho].
  repeat (apply elem_of_cons in Hp as [->|Hp]; [by eexists; vm_compute|]). by apply elem_of_nil in Hp.
Qed.
Ltac principal_entries := rewrite principal_entries by (rewrite !elem_of_cons; naive_solver).
Lemma no_entries (p : Principal.Property) : entries p None = [].
Proof. unfold entries. by destruct (find_indexed p). Qed.
Lemma type_keyword_inj t t' : Principal.type_keyword t = Principal.type_keyword t' -> t = t'.
Proof. by destruct t, t'. Qed.

Lemma matches_type o t : principal_ok o -> matches (type_filter t) o = bool_decide (ptype_of o = Some t).
Proof.
  intros Ho. destruct (po_type _ Ho) as [t' Ht]. unfold ptype_of in *. destruct (orm_get o Principal.Type_) as [[]|] eqn:E; try done. injection Ht as ->.
  cbn [matches type_filter]. rewrite E. principal_entries. apply bool_decide_ext. cbn. rewrite list_elem_of_singleton. split.
  - intros [= Hk]. f_equal. by apply type_keyword_inj.
  - by intros [= ->].
Qed.
Lemma matches_email o e : principal_ok o -> matches (email_filter e) o = bool_decide (text_of (orm_get o Principal.Email) = Some e).
Proof.
  intros Ho. cbn [matches email_filter]. destruct (orm_get o Principal.Email) as [v|] eqn:E; [|rewrite no_entries; by rewrite !bool_decide_false by (set_solver || done)].
  destruct (po_email _ Ho v E) as [->|[t ->]]; principal_entries; apply bool_decide_ext; cbn; [set_solver|]. rewrite list_elem_of_singleton. naive_solver.
Qed.
Lemma text_list_entries l : index_entries (Principal.value_index_as (Principal.VTextList l)) = EText <$> l.
Proof. by destruct l. Qed.
Lemma member_entries l : index_entries (Principal.value_index_as (Principal.VMembers l)) = (fun id => ENumber (NInteger (id_document_id id))) <$> l.
Proof. destruct l as [|x l]; [done|]. cbn. f_equal. rewrite <- list_fmap_compose. done. Qed.
Lemma matches_alias o e : principal_ok o -> matches (FEq Principal.Aliases (QIndex e)) o = bool_decide (e ∈ aliases_of o).
Proof.
  intros Ho. unfold aliases_of. cbn [matches]. destruct (orm_get o Principal.Aliases) as [v|] eqn:E; [|rewrite no_entries; by rewrite !bool_decide_false by set_solver].
  destruct (po_aliases _ Ho v E) as [->|[l ->]]; principal_entries; apply bool_decide_ext; [set_solver|]. rewrite text_list_entries, list_elem_of_fmap. naive_solver.
Qed.
Lemma matches_address o e : principal_ok o -> matches (address_filter e) o = bool_decide (e ∈ addresses o).
Proof.
  intros Ho. change (matches (address_filter e) o) with (matches (email_filter e) o || (matches (FEq Principal.Aliases (QIndex e)) o || false)).
  rewrite matches_email, matches_alias, orb_false_r, <- bool_decide_or by done. apply bool_decide_ext. unfold addresses.
  rewrite elem_of_app. by destruct (text_of _); cbn; rewrite ?list_elem_of_singleton, ?elem_of_nil; naive_solver.
Qed.
Lemma matches_member o i : principal_ok o -> matches (FEq Principal.Members (QInteger i)) o = bool_decide (i ∈ id_document_id <$> members_of o).
Proof.
  intros Ho. unfold members_of. cbn [matches]. destruct (orm_get o Principal.Members) as [v|] eqn:E; [|rewrite no_entries; by rewrite !bool_decide_false by set_solver].
  destruct (po_members _ Ho v E) as [->|[l ->]]; principal_entries; apply bool_decide_ext; [set_solver|]. rewrite member_entries, !list_elem_of_fmap. naive_solver.
Qed.

(** What a query for an address or for a type finds. *)
Lemma first_id_Some ids i : first_id ids = Some i -> i ∈ ids.
Proof.
  unfold first_id. intros Hi. rewrite <- (merge_sort_Permutation Z.le). destruct (merge_sort Z.le ids) as [|j l]; [done|].
  injection Hi as ->. apply list_elem_of_here.
Qed.
Lemma first_id_None ids : first_id ids = None -> ids = [].
Proof.
  unfold first_id. intros Hi. pose proof (merge_sort_Permutation Z.le ids) as Hp. destruct (merge_sort Z.le ids); [|done].
  by apply Permutation_nil_l in Hp.
Qed.
(** If at most one principal matches, it is the first one. *)
Lemma first_found `{Directory W} (w : W) dir f (P : Z -> PFields -> Prop) :
  serves w dir -> (forall i o, dir !! i = Some o -> matches f o = true <-> P i o) ->
  (forall i j o o', dir !! i = Some o -> dir !! j = Some o' -> P i o -> P j o' -> i = j) ->
  exists ids, principal_query w f = inr ids /\ forall i, first_id ids = Some i <-> exists o, dir !! i = Some o /\ P i o.
Proof.
  intros Hs Hf Hu. destruct (sv_query _ _ Hs f) as (ids & Hq & _ & Hin). exists ids. split; [done|]. intros i. split.
  - intros (o & Ho & Hm)%first_id_Some%Hin. exists o. split; [done|]. by apply Hf.
  - intros (o & Ho & Hp). destruct (first_id ids) as [j|] eqn:Ej.
    + f_equal. apply first_id_Some, Hin in Ej as (o' & Ho' & Hm). apply (Hu j i o' o); [done..|by apply Hf|done].
    + apply first_id_None in Ej as ->. assert (i ∈ @nil Z) as []%elem_of_nil. apply Hin. exists o. split; [done|]. by apply (Hf i).
Qed.

(** ** The search for groups *)

Section Groups.
Context `{Directory W}.
Variables (w : W) (dir : gmap Z PFields).
Hypothesis Hs : serves w dir.
Hypothesis Hok : forall i o, dir !! i = Some o -> principal_ok o.

(** [g] is a group that [a] is a member of. *)
Definition member_step (a g : Z) : Prop :=
  exists o, dir !! g = Some o /\ ptype_of o = Some Principal.Group /\ a ∈ id_document_id <$> members_of o.

Lemma groups_of_exact a : exists l, groups_of w a = inr l /\ forall g, g ∈ l <-> member_step a g.
Proof.
  unfold groups_of. destruct (sv_query _ _ Hs (FAnd [FEq Principal.Members (QInteger a); type_filter Principal.Group])) as (ids & -> & _ & Hin).
  cbn [mbind sum_bind]. eexists. split; [done|]. intros g. rewrite merge_sort_Permutation, Hin. unfold member_step.
  assert (forall o, dir !! g = Some o -> matches (FAnd [FEq Principal.Members (QInteger a); type_filter Principal.Group]) o = true <->
    ptype_of o = Some Principal.Group /\ a ∈ id_document_id <$> members_of o) as Hm.
  { intros o Ho. change (matches (FAnd _) o) with (matches (FEq Principal.Members (QInteger a)) o && (matches (type_filter Principal.Group) o && true)).
    rewrite (matches_member _ _ (Hok _ _ Ho)), (matches_type _ _ (Hok _ _ Ho)), andb_true_r, andb_true_iff, !bool_decide_eq_true. naive_solver. }
  split; intros (o & Ho & Hp); exists o; (split; [done|by apply (Hm o Ho)]).
Qed.

(** The groups found so far, and those still to be looked at. *)
Record found_groups (a : Z) (found : list Z) (stack : list (list Z)) (iter : list Z) : Prop := {
  fg_nodup : NoDup found; fg_first : head found = Some a;
  fg_sound g : g ∈ found \/ g ∈ iter \/ g ∈ concat stack -> rtc member_step a g;
  fg_dir g : g ∈ iter \/ g ∈ concat stack -> is_Some (dir !! g);
  fg_depth : (length stack < length found)%nat; fg_stack : (length stack <= 10)%nat;
  (** With at most ten groups, the stack never stops the search. *)
  fg_complete : (length found <= 11)%nat ->
    forall g g', g ∈ found -> member_step g g' -> g' ∈ found \/ g' ∈ iter \/ g' ∈ concat stack }.

(** What is left to do: groups not found, then iterators. *)
Definition unfound (found : list Z) : nat := size ((dom dir : gset Z) ∖ list_to_set found).
Definition iter_size (stack : list (list Z)) (iter : list Z) : nat := (length iter + length (concat stack) + length stack)%nat.

Definition groups_done (a : Z) (l : list Z) : Prop :=
  NoDup l /\ head l = Some a /\ (forall g, g ∈ l -> rtc member_step a g) /\
  ((length l <= 11)%nat -> forall g, rtc member_step a g -> g ∈ l).

Lemma unfound_snoc found g : is_Some (dir !! g) -> g ∉ found -> (unfound (found ++ [g]) < unfound found)%nat.
Proof.
  intros Hg Hn. unfold unfound. apply subset_size. apply elem_of_dom in Hg. split; [set_solver|]. intros Hsub.
  assert (g ∈ (dom dir : gset Z) ∖ list_to_set found) as Hin by set_solver. apply Hsub in Hin. set_solver.
Qed.

Lemma NoDup_snoc (l : list Z) x : NoDup l -> x ∉ l -> NoDup (l ++ [x]).
Proof.
  intros Hl Hx. apply NoDup_app. split_and!; [done| |apply NoDup_singleton]. intros y Hy Hy2%list_elem_of_singleton. by subst y.
Qed.
(** A new group is found and its own groups are looked at next. *)
Lemma visit_group a found stack iter g groups :
  found_groups a found stack (g :: iter) -> g ∉ found -> (length stack < 10)%nat -> (forall g', g' ∈ groups <-> member_step g g') ->
  found_groups a (found ++ [g]) (iter :: stack) groups.
Proof.
  intros [F1 F2 F3 F4 F5 F6 F7] Hin Hd Hgin. assert (rtc member_step a g) as Hrg by (apply F3; right; left; apply list_elem_of_here). split.
  - by apply NoDup_snoc.
  - by destruct found.
  - intros g'. cbn [concat]. rewrite !elem_of_app, list_elem_of_singleton. intros [[?| ->]|[Hg'|[?|?]]]; [apply F3; auto|done| |apply F3; set_solver..].
    eapply rtc_r; [done|]. by apply Hgin.
  - intros g'. cbn [concat]. rewrite elem_of_app. intros [(o & Ho & _)%Hgin|[?|?]]; [by eauto|apply F4; set_solver..].
  - rewrite length_app. cbn. lia.
  - cbn. lia.
  - rewrite length_app. cbn [length]. intros Hlen g1 g2 Hg1 Hg2. cbn [concat]. rewrite !elem_of_app, list_elem_of_singleton.
    apply elem_of_app in Hg1 as [Hg1| ->%list_elem_of_singleton]; [|right; left; by apply Hgin].
    destruct (F7 ltac:(lia) g1 g2 Hg1 Hg2) as [?|[[->|?]%elem_of_cons|?]]; auto.
Qed.

Lemma member_loop_ends a n k found stack iter :
  (unfound found <= n)%nat -> (iter_size stack iter <= k)%nat -> found_groups a found stack iter ->
  exists m l, groups_done a l /\ forall fuel, (m <= fuel)%nat -> member_loop fuel w found stack iter = Some (inr l).
Proof.
  revert k found stack iter. induction n as [n IHn] using lt_wf_ind. induction k as [k IHk] using lt_wf_ind.
  intros found stack iter Hn Hk Hf. destruct iter as [|g iter].
  - destruct stack as [|it stack].
    + exists 1%nat, found. split; [|intros [|fuel] ?; [lia|done]]. split_and!; [apply Hf..| |].
      * intros g Hg. apply (fg_sound _ _ _ _ Hf). by left.
      * intros Hl g. revert g. apply rtc_ind_r.
        -- destruct Hf as [_ Hh _ _ _ _ _]. destruct found; [done|]. injection Hh as ->. apply list_elem_of_here.
        -- intros g g' _ Hg IH. destruct (fg_complete _ _ _ _ Hf Hl g g' IH Hg) as [?|[?%elem_of_nil|?%elem_of_nil]]; done.
    + destruct (IHk (iter_size stack it)) with (found := found) (stack := stack) (iter := it) as (m & l & Hl & Hm); [..|].
      * unfold iter_size in *. cbn [concat length] in Hk. rewrite length_app in Hk. lia.
      * done.
      * done.
      * destruct Hf as [F1 F2 F3 F4 F5 F6 F7]. split; [done|done| | |cbn in F5; lia|cbn in F6; lia|].
        -- intros g Hg. apply F3. cbn [concat]. rewrite elem_of_app. set_solver.
        -- intros g Hg. apply F4. cbn [concat]. rewrite elem_of_app. set_solver.
        -- intros Hlen g g' Hg Hgg. destruct (F7 Hlen g g' Hg Hgg) as [?|[?|Hc]]; [by left|set_solver|]. cbn [concat] in Hc. apply elem_of_app in Hc. set_solver.
      * exists (S m), l. split; [done|]. intros [|fuel] Hfuel; [lia|]. cbn [member_loop]. apply Hm. lia.
  - assert (rtc member_step a g) as Hrg by (apply (fg_sound _ _ _ _ Hf); right; left; apply list_elem_of_here).
    assert (is_Some (dir !! g)) as Hdg by (apply (fg_dir _ _ _ _ Hf); left; apply list_elem_of_here).
    destruct (decide (g ∈ found)) as [Hin|Hin]; [|destruct (decide (length stack < 10)%nat) as [Hd|Hd]].
    + destruct (IHk (iter_size stack iter)) with (found := found) (stack := stack) (iter := iter) as (m & l & Hl & Hm); [unfold iter_size in *; cbn in Hk; lia|done..| |].
      * destruct Hf as [F1 F2 F3 F4 F5 F6 F7]. split; [done|done|intros g' ?; apply F3; set_solver|intros g' ?; apply F4; set_solver|done|done|].
        intros Hlen g1 g2 Hg1 Hg2. destruct (F7 Hlen g1 g2 Hg1 Hg2) as [?|[[->|?]%elem_of_cons|?]]; auto.
      * exists (S m), l. split; [done|]. intros [|fuel] Hfuel; [lia|]. cbn [member_loop]. rewrite bool_decide_true by done. apply Hm. lia.
    + destruct (groups_of_exact g) as (groups & Hg & Hgin). pose proof (unfound_snoc found g Hdg Hin) as Hu.
      destruct (IHn (unfound (found ++ [g]))) with (k := iter_size (iter :: stack) groups) (found := found ++ [g]) (stack := iter :: stack) (iter := groups)
        as (m & l & Hl & Hm); [lia|done..| |].
      * by apply visit_group.
      * exists (S m), l. split; [done|]. intros [|fuel] Hfuel; [lia|]. cbn [member_loop]. rewrite bool_decide_false, (proj2 (Nat.ltb_lt _ _)), Hg by done. apply Hm. lia.
    + pose proof (unfound_snoc found g Hdg Hin) as Hu.
      destruct (IHn (unfound (found ++ [g]))) with (k := iter_size stack iter) (found := found ++ [g]) (stack := stack) (iter := iter)
        as (m & l & Hl & Hm); [lia|done..| |].
      * destruct Hf as [F1 F2 F3 F4 F5 F6 F7]. split.
        -- by apply NoDup_snoc.
        -- destruct found; done.
        -- intros g' [[?| ->%list_elem_of_singleton]%elem_of_app|[?|?]]; [apply F3; auto|done|apply F3; set_solver..].
        -- intros g' ?. apply F4. set_solver.
        -- rewrite length_app. lia.
        -- done.
        -- rewrite length_app. cbn. lia.
      * exists (S m), l. split; [done|]. intros [|fuel] Hfuel; [lia|]. cbn [member_loop]. rewrite bool_decide_false, (proj2 (Nat.ltb_ge _ _)) by (done || lia). apply Hm. lia.
Qed.
End Groups.

(** ** Properties *)

(** C10. Logins. In a directory whose addresses are unique, a login succeeds for
    an account exactly if it is an individual whose address is the name given
    and whose stored hash accepts the password. *)
Theorem authenticate_exact `{Directory W} verify_encoded (w : W) (dir : gmap Z PFields) (login password : list Z) :
  serves w dir -> directory_ok dir ->
  exists r, authenticate verify_encoded w login password = inr r /\
    forall i, r = Some i <->
      exists o hash, dir !! i = Some o /\ ptype_of o = Some Principal.Individual /\ text_of (orm_get o Principal.Email) = Some login /\
        text_of (orm_get o Principal.Secret) = Some hash /\ verify_encoded hash password = Some true.
Proof.
  intros Hs [Hok Hu]. unfold authenticate, find_individual.
  destruct (first_found w dir (FAnd [email_filter login; type_filter Principal.Individual])
    (fun _ o => ptype_of o = Some Principal.Individual /\ text_of (orm_get o Principal.Email) = Some login) Hs) as (ids & -> & Hfirst).
  { intros i o Ho. change (matches (FAnd _) o) with (matches (email_filter login) o && (matches (type_filter Principal.Individual) o && true)).
    rewrite (matches_email _ _ (Hok _ _ Ho)), (matches_type _ _ (Hok _ _ Ho)), andb_true_r, andb_true_iff, !bool_decide_eq_true. naive_solver. }
  { intros i j o o' Hi Hj [_ H1] [_ H2]. apply (Hu i j o o' login); [done..| |]; apply elem_of_app; left; [rewrite H1|rewrite H2]; apply list_elem_of_here. }
  cbn [mbind sum_bind]. destruct (first_id ids) as [i|] eqn:Ei; cycle 1.
  { exists None. split; [done|]. intros i. split; [done|]. intros (o & hash & Ho & Ht & He & _).
    assert (@None Z = Some i) by (apply Hfirst; by eauto). done. }
  destruct (proj1 (Hfirst i) eq_refl) as (o & Ho & Ht & He). rewrite (sv_orm _ _ Hs), Ho. cbn [mbind sum_bind].
  assert (orm_get o Principal.Type_ = Some (Principal.VType Principal.Individual)) as ->.
  { unfold ptype_of in Ht. destruct (orm_get o Principal.Type_) as [[]|]; try done. by injection Ht as ->. }
  rewrite bool_decide_true by done. cbn [negb]. rewrite He, bool_decide_true by done. cbn [negb].
  assert (forall j, (exists o' hash, dir !! j = Some o' /\ ptype_of o' = Some Principal.Individual /\ text_of (orm_get o' Principal.Email) = Some login /\
    text_of (orm_get o' Principal.Secret) = Some hash /\ verify_encoded hash password = Some true) <->
    i = j /\ exists hash, text_of (orm_get o Principal.Secret) = Some hash /\ verify_encoded hash password = Some true) as Hone.
  { intros j. split; [|intros [-> (hash & ? & ?)]; exists o, hash; by split_and!].
    intros (o' & hash & Ho' & Ht' & He' & Hh & Hv). assert (Some i = Some j) as [= ->] by (apply Hfirst; by eauto). simplify_eq. by eauto. }
  eexists. split; [done|]. intros j. rewrite Hone. destruct (text_of (orm_get o Principal.Secret)) as [hash|]; [|split; [done|by intros (_ & ? & ? & _)]].
  destruct (verify_encoded hash password) as [[]|] eqn:Ev; split; try done.
  - intros [= ->]. by eauto.
  - by intros [-> _].
  - intros (_ & hash' & [= <-] & ?). congruence.
  - intros (_ & hash' & [= <-] & ?). congruence.
Qed.

(** C16. Groups. The search for the groups of an account ends, starts with the
    account, names no group twice and only groups that it belongs to, directly
    or through groups; if it names at most ten groups, it names all of them. *)
Theorem groups_found `{Directory W} (w : W) (dir : gmap Z PFields) (a : Z) :
  serves w dir -> (forall i o, dir !! i = Some o -> principal_ok o) ->
  exists n l, (forall fuel, (n <= fuel)%nat -> find_member_of fuel w a = Some (inr l)) /\
    NoDup l /\ head l = Some a /\ (forall g, g ∈ l -> rtc (member_step dir) a g) /\
    ((length l <= 11)%nat -> forall g, rtc (member_step dir) a g -> g ∈ l).
Proof.
  intros Hs Hok. unfold find_member_of. destruct (groups_of_exact w dir Hs Hok a) as (groups & -> & Hg).
  destruct (member_loop_ends w dir Hs Hok a (unfound dir [a]) (iter_size [] groups) [a] [] groups) as (m & l & (H1 & H2 & H3 & H4) & Hm); [done..| |exists m, l; by split_and!].
  split; cbn; [apply NoDup_singleton|done|..|lia|lia|].
  - intros g [->%list_elem_of_singleton|[?|?%elem_of_nil]]; [done|by apply rtc_once, Hg|done].
  - intros g [(o & Ho & _)%Hg|?%elem_of_nil]; [by eauto|done].
  - intros _ g g' ->%list_elem_of_singleton Hg'. right. left. by apply Hg.
Qed.

(** The members of a list that get a message. *)
Definition list_recipients (dir : gmap Z PFields) (ids : list Z) : list (AccountId * list Z) :=
  omap (fun id => o ← dir !! id_document_id id;
                  if bool_decide (ptype_of o = Some Principal.Individual)
                  then Some (id_document_id id, default [] (text_of (orm_get o Principal.Email))) else None) ids.
Lemma expand_members_exact `{Directory W} (w : W) dir ids :
  serves w dir -> (forall i o, dir !! i = Some o -> principal_ok o) -> expand_members w ids = inr (list_recipients dir ids).
Proof.
  intros Hs Hok. induction ids as [|id ids IH]; [done|]. cbn [expand_members]. unfold get_account_details. rewrite (sv_orm _ _ Hs). cbn [mbind sum_bind].
  rewrite IH. cbn [mbind sum_bind list_recipients omap list_omap]. destruct (dir !! id_document_id id) as [o|] eqn:Eo; cbn [option_map mbind option_bind]; [|done].
  destruct (po_type _ (Hok _ _ Eo)) as [t Ht]. rewrite Ht. unfold ptype_of in Ht. destruct (orm_get o Principal.Type_) as [[]|]; try done. injection Ht as ->.
  destruct t; [rewrite bool_decide_true by done|rewrite bool_decide_false by done..]; done.
Qed.

(** C12. Recipients. In a directory whose addresses are unique, an address that
    nobody has is not found; the address or an alias of a list stands for the
    individuals among its members, in order, and is not found if the list has
    none; any other address stands for the principal that has it. *)
Theorem recipients_expanded `{Directory W} (w : W) (dir : gmap Z PFields) (e : list Z) :
  serves w dir -> directory_ok dir ->
  exists r, expand_address w e = inr r /\
    ((forall i o, dir !! i = Some o -> e ∉ addresses o) -> r = NotFound) /\
    forall i o, dir !! i = Some o -> e ∈ addresses o ->
      r = if bool_decide (ptype_of o = Some Principal.List_) then
            match members_of o with [] => NotFound | ids => RList (list_recipients dir ids) end
          else Individual i.
Proof.
  intros Hs [Hok Hu]. unfold expand_address.
  destruct (first_found w dir (address_filter e) (fun _ o => e ∈ addresses o) Hs) as (ids & -> & Hfirst).
  { intros i o Ho. rewrite (matches_address _ _ (Hok _ _ Ho)). apply bool_decide_eq_true. }
  { by intros i j o o' Hi Hj; apply Hu. }
  cbn [mbind sum_bind]. destruct (first_id ids) as [i|] eqn:Ei; cycle 1.
  { exists NotFound. split_and!; [done..|]. intros i o Ho He. assert (@None Z = Some i) by (apply Hfirst; by eauto). done. }
  destruct (proj1 (Hfirst i) eq_refl) as (o & Ho & He). rewrite (sv_orm _ _ Hs), Ho. cbn [mbind sum_bind].
  assert (forall r, (if bool_decide (ptype_of o = Some Principal.List_) then
      match members_of o with [] => NotFound | ids => RList (list_recipients dir ids) end else Individual i) = r ->
    ((forall i o, dir !! i = Some o -> e ∉ addresses o) -> r = NotFound) /\
    forall i o, dir !! i = Some o -> e ∈ addresses o ->
      r = if bool_decide (ptype_of o = Some Principal.List_) then
            match members_of o with [] => NotFound | ids => RList (list_recipients dir ids) end
          else Individual i) as Hr.
  { intros r <-. split; [intros Hno; by destruct (Hno i o Ho)|]. intros j o' Hj He'. assert (j = i) as -> by (by apply (Hu j i o' o e)). by simplify_eq. }
  destruct (po_type _ (Hok _ _ Ho)) as [t Ht]. rewrite Ht in Hr. unfold ptype_of in Ht. destruct (orm_get o Principal.Type_) as [[]|]; try done. injection Ht as ->.
  unfold members_of in Hr. destruct t; try (eexists; split; [done|by apply Hr]).
  destruct (orm_get o Principal.Members) as [[]|]; try (eexists; split; [done|by apply Hr]).
  destruct value as [|id l]; [eexists; split; [done|by apply Hr]|]. rewrite (expand_members_exact w dir) by done. cbn [mbind sum_bind].
  eexists. split; [done|]. by apply Hr.
Qed.

(** ** A sample directory *)

Module DirectorySample.
#[export] Instance directory : Directory (gmap Z PFields) := {|
  principal_orm w i := inr (w !! i);
  principal_query w f := inr (filter (fun i => from_option (matches f) false (w !! i) = true) (map_to_list w).*1);
  shared_accounts _ _ := inr [] |}.
Lemma sample_serves dir : serves dir dir.
Proof.
  split; [done|]. intros f. eexists. split; [reflexivity|]. split; [apply NoDup_filter, NoDup_fst_map_to_list|].
  intros i. rewrite list_elem_of_filter, list_elem_of_fmap. split.
  - intros [Hm ([i' o] & -> & Hin%elem_of_map_to_list)]. cbn in *. exists o. by rewrite Hin in Hm.
  - intros (o & Ho & Hm). split; [by rewrite Ho|]. exists (i, o). split; [done|]. by apply elem_of_map_to_list.
Qed.

Definition principal (t : Principal.Type') (email : list Z) (l : list (Principal.Property * Principal.Value)) : PFields :=
  fold_left (fun o pv => orm_set o pv.1 pv.2) ((Principal.Type_, Principal.VType t) :: (Principal.Email, Principal.VText email) :: l) orm_new.
(** Jane with a password, the group [team] with her, and the list [all]. *)
Definition jane : PFields := principal Principal.Individual (chars "jane@x.org") [(Principal.Secret, Principal.VText (chars "hash")); (Principal.Aliases, Principal.VTextList [chars "j@x.org"])].
Definition team : PFields := principal Principal.Group (chars "team@x.org") [(Principal.Members, Principal.VMembers [1])].
Definition all : PFields := principal Principal.List_ (chars "all@x.org") [(Principal.Members, Principal.VMembers [1; 2])].
Definition dir : gmap Z PFields := {[ 1 := jane; 2 := team; 3 := all ]}.
Definition verify (hash password : list Z) : option bool := Some (bool_decide (hash = chars "hash") && bool_decide (password = chars "secret")).

Lemma dir_lookup i o : dir !! i = Some o -> (i, o) ∈ [(1, jane); (2, team); (3, all)].
Proof. unfold dir. rewrite !lookup_insert_Some, lookup_singleton_Some, !elem_of_cons. naive_solver. Qed.
Ltac dir_cases H := apply dir_lookup in H; repeat (apply elem_of_cons in H; destruct H as [[= -> ->]|H]); [..|by apply elem_of_nil in H].
Lemma jane_addresses : addresses jane = [chars "jane@x.org"; chars "j@x.org"].
Proof. vm_compute. reflexivity. Qed.
Lemma team_addresses : addresses team = [chars "team@x.org"].
Proof. vm_compute. reflexivity. Qed.
Lemma all_addresses : addresses all = [chars "all@x.org"].
Proof. vm_compute. reflexivity. Qed.
Lemma dir_ok : directory_ok dir.
Proof.
  split.
  - intros i o Hi. split; [|dir_cases Hi; by eexists|dir_cases Hi; intros v [= <-]; right; by eexists|..].
    + dir_cases Hi; repeat apply vm_set_inv; apply vm_new_inv.
    + intros v. dir_cases Hi; vm_compute; intros [= <-]; right; by eexists.
    + intros v. dir_cases Hi; vm_compute; intros [= <-]; right; by eexists.
  - intros i j o o' e Hi Hj He He'.
    assert (forall k p, dir !! k = Some p -> e ∈ addresses p -> (e, k) ∈ [(chars "jane@x.org", 1); (chars "j@x.org", 1); (chars "team@x.org", 2); (chars "all@x.org", 3)]) as Ha.
    { intros k p Hk Hp. rewrite !elem_of_cons. dir_cases Hk; [rewrite jane_addresses in Hp|rewrite team_addresses in Hp|rewrite all_addresses in Hp];
        rewrite !elem_of_cons, elem_of_nil in Hp; naive_solver. }
    pose proof (Ha i o Hi He) as H1. pose proof (Ha j o' Hj He') as H2. rewrite !elem_of_cons, elem_of_nil in H1, H2.
    destruct H1 as [[= -> ->]|[[= -> ->]|[[= -> ->]|[[= -> ->]|[]]]]]; destruct H2 as [[= <-]|[[= <-]|[[= <-]|[[= <-]|[]]]]]; reflexivity.
Qed.

Lemma authenticate_exact_witness :
  authenticate verify dir (chars "jane@x.org") (chars "secret") = inr (Some 1) /\
  exists o hash, dir !! 1 = Some o /\ text_of (orm_get o Principal.Secret) = Some hash /\ verify hash (chars "secret") = Some true.
Proof.
  assert (authenticate verify dir (chars "jane@x.org") (chars "secret") = inr (Some 1)) as E by (vm_compute; reflexivity).
  split; [exact E|]. destruct (authenticate_exact verify dir dir (chars "jane@x.org") (chars "secret") (sample_serves dir) dir_ok) as (r & Er & Hr).
  assert (Some 1 = r) as <- by (rewrite E in Er; injection Er as <-; reflexivity).
  destruct (Hr 1) as [H1 _]. destruct (H1 eq_refl) as (o & hash & Ho & _ & _ & Hh & Hv). exists o, hash. split; [exact Ho|]. split; [exact Hh|exact Hv].
Defined.
Lemma groups_found_witness :
  find_member_of 10 dir 1 = Some (inr [1; 2]) /\ exists n l, (forall fuel, (n <= fuel)%nat -> find_member_of fuel dir 1 = Some (inr l)) /\ NoDup l.
Proof.
  split; [vm_compute; reflexivity|].
  destruct (groups_found dir dir 1 (sample_serves dir) (do_ok _ dir_ok)) as (n & l & Hl & Hnd & _). exists n, l. split; [exact Hl|exact Hnd].
Defined.
(** The group among the members of the list gets nothing. *)
Lemma recipients_expanded_witness :
  expand_address dir (chars "all@x.org") = inr (RList [(1, chars "jane@x.org")]) /\ expand_address dir (chars "j@x.org") = inr (Individual 1).
Proof.
  destruct (recipients_expanded dir dir (chars "all@x.org") (sample_serves dir) dir_ok) as (r & Er & _ & Hr).
  destruct (recipients_expanded dir dir (chars "j@x.org") (sample_serves dir) dir_ok) as (r' & Er' & _ & Hr').
  rewrite Er, Er'. rewrite (Hr 3 all), (Hr' 1 jane); [split; vm_compute; reflexivity|reflexivity|apply (bool_decide_unpack _); vm_compute; exact I|reflexivity|apply (bool_decide_unpack _); vm_compute; exact I].
Defined.

(** Groups 11 to 22 in a chain, from account 1: the stack is full at 21, whose
    groups are not looked at, so that 22 is missed. *)
Definition group (members : list Z) : PFields := principal Principal.Group [] [(Principal.Members, Principal.VMembers members)].
Definition deep : gmap Z PFields :=
  list_to_map ((11, group [1]) :: map (fun i => (i, group [i - 1])) (seqZ 12 11)).
Lemma deep_group_missed :
  find_member_of 1000 deep 1 = Some (inr (1 :: seqZ 11 11)) /\ member_step deep 21 22.
Proof.
  split; [vm_compute; reflexivity|]. exists (group [21]). split; [vm_compute; reflexivity|]. split; [vm_compute; reflexivity|].
  apply (bool_decide_unpack _). vm_compute. exact I.
Qed.
End DirectorySample.
