(* ===== verification/Principals.v ===== *)
(** * Changes to principals: components/jmap_sharing/src/principal/set.rs, get.rs,
      query.rs and mod.rs

    The validation of a principal in a request, the functions that
    [Principal/set] gives to the helper, the deletion of accounts, and the
    requests that read principals. Password hashes and DKIM keys are parameters;
    the caches of tokens and recipients are reached by their invalidation. *)

From Stdlib Require Import String.
From S2P Require Import Prelude Text Lang Types TermIndex Nlp Bitmap BitList VecMap KV Blob ChangeLog RaftLog Read Query JmapId JmapQuery Write Orm.
From S2P Require Import Address JsonPointer SetRequest GetRequest Mailbox MailboxRead Directory.
#[local] Open Scope Z_scope.

#[export] Instance principal_set_object : SetObject ResultReference PrincipalItem := {|
  object_id := principal_id; eval_id_references S f s o := (s, o); eval_result_references f o := o |}.
#[export] Instance principal_set_object_laws : SetObjectLaws ResultReference PrincipalItem.
Proof. refine {| id_references _ := [] |}; done. Defined.

Definition ACCOUNTS_TO_DELETE : Z := 255.

Class PrincipalStore (W : Type) `{Directory W} `{SetStore W} := {
  (** The principals tagged for deletion. *)
  to_delete : W -> result (option (gset Z));
  invalidate_recipient : W -> list Z -> W;
  invalidate_token : W -> AccountId -> W;
  (** [argon2::hash_encoded] with a random salt. *)
  hash_encoded : W -> list Z -> W * option (list Z);
  (** [DKIM::from_pkcs1_pem] succeeds. *)
  dkim_key : list Z -> bool;
  delete_accounts : W -> gset Z -> W * result unit;
  untag_accounts : W -> gset Z -> W * result unit }.

Section PrincipalSet.
Context `{PrincipalStore W} `{Unicode} `{OrmCodec Principal.Property Principal.Value} `{OrmCodec Mailbox.Property Mailbox.Value}.
Abbreviation SetError := (SetError Principal.Property).
Abbreviation SetHelper := (SetHelper Principal.Property PrincipalItem).
Abbreviation Value := Principal.Value.

Definition invalid (p : Principal.Property) : SetError := with_property invalid_properties p.
Definition domain_filter (domain : list Z) : OFilter Principal.Property := FAnd [FEq Principal.Name (QIndex domain); type_filter Principal.Domain].

(** A value of the property other than [t]. *)
Definition differs (current_fields : option PFields) (p : Principal.Property) (t : list Z) : bool :=
  match current_fields with Some v => negb (bool_decide (text_of (orm_get v p) = Some t)) | None => true end.

Definition set_name (w : W) (current_fields : option PFields) (ptype : Principal.Type') (value : list Z) : SetError + Value :=
  if bool_decide (ptype = Principal.Domain) then
    match sanitize_domain value with
    | Some domain =>
        if differs current_fields Principal.Name domain then
          ids ← lift (principal_query w (domain_filter domain));
          match ids with [] => inr (Principal.VText domain) | _ => inl (invalid Principal.Name) end
        else inr (Principal.VText domain)
    | None => inl (invalid Principal.Name)
    end
  else inr (Principal.VText value).

Definition set_email (current_fields : option PFields) (value : list Z) : SetError + (list (list Z) * Value) :=
  match sanitize_email value with
  | Some email => inr (if differs current_fields Principal.Email email then [email] else [], Principal.VText email)
  | None => inl (invalid Principal.Email)
  end.

(** The whole list of aliases; a new one is looked for in the property
    [Email], as the code has it. *)
Definition new_alias (current_fields : option PFields) (email : list Z) : bool :=
  match current_fields with
  | Some v => match orm_get v Principal.Email with Some (Principal.VTextList value) => negb (bool_decide (email ∈ value)) | _ => true end
  | None => true
  end.
Fixpoint set_aliases (current_fields : option PFields) (l : list (list Z)) (validate_emails aliases : list (list Z)) :
    SetError + (list (list Z) * Value) :=
  match l with
  | [] => inr (validate_emails, Principal.VTextList aliases)
  | email :: l =>
      match sanitize_email email with
      | Some email =>
          set_aliases current_fields l (if new_alias current_fields email then validate_emails ++ [email] else validate_emails) (aliases ++ [email])
      | None => inl (invalid Principal.Aliases)
      end
  end.
Fixpoint patch_aliases (l : list (list Z * bool)) (validate_emails aliases : list (list Z)) : SetError + (list (list Z) * Value) :=
  match l with
  | [] => inr (validate_emails, match aliases with [] => Principal.VNull | _ => Principal.VTextList aliases end)
  | (email, do_set) :: l =>
      if do_set then
        match sanitize_email email with
        | Some email =>
            if negb (bool_decide (email ∈ aliases)) then patch_aliases l (validate_emails ++ [email]) (aliases ++ [email])
            else patch_aliases l validate_emails aliases
        | None => inl (invalid Principal.Aliases)
        end
      else patch_aliases l validate_emails (filter (fun v => v <> email) aliases)
  end.

(** Members of a group: the tokens of those that come or go are dropped. *)
Fixpoint check_group_members (w : W) (h : SetHelper) (document_id : DocumentId) (current_members : option (list Z)) (l : list Z) :
    W * (SetError + unit) :=
  match l with
  | [] => (w, inr tt)
  | id :: l =>
      let account_id := id_document_id id in
      if account_id =? document_id then (w, inl (invalid Principal.Members))
      else if bool_decide (account_id ∈ h_document_ids h) then
        let w := if from_option (fun l => negb (bool_decide (id ∈ l))) true current_members then invalidate_token w account_id else w in
        check_group_members w h document_id current_members l
      else (w, inl (invalid Principal.Members))
  end.
Definition set_group_members (w : W) (h : SetHelper) (current_fields : option PFields) (document_id : DocumentId) (value : list Z) :
    W * (SetError + Value) :=
  let current_members :=
    current_fields ≫= fun f => match orm_get f Principal.Members with Some (Principal.VMembers l) => Some l | _ => None end in
  let w :=
    fold_left (fun w id => if negb (bool_decide (id ∈ value)) then invalidate_token w (id_document_id id) else w) (default [] current_members) w in
  let '(w, r) := check_group_members w h document_id current_members value in
  (w, _ ← r; inr (Principal.VMembers value)).
Fixpoint patch_group_members (w : W) (h : SetHelper) (document_id : DocumentId) (l : list (Z * bool)) (members : list Z) :
    W * (SetError + Value) :=
  match l with
  | [] => (w, inr (Principal.VMembers members))
  | (id, do_set) :: l =>
      let account_id := id_document_id id in
      if do_set then
        if negb (bool_decide (id ∈ members)) then
          if account_id =? document_id then (w, inl (invalid Principal.Members))
          else if bool_decide (account_id ∈ h_document_ids h) then
            patch_group_members (invalidate_token w account_id) h document_id l (members ++ [id])
          else (w, inl (invalid Principal.Members))
        else patch_group_members w h document_id l members
      else
        match list_find (eq id) members with
        | Some (pos, _) => patch_group_members (invalidate_token w account_id) h document_id l (from_option snd members (vec_swap_remove members pos))
        | None => patch_group_members w h document_id l members
        end
  end.

(** Members of a mailing list are individuals. *)
Definition individuals (w : W) : SetError + list DocumentId := lift (principal_query w (type_filter Principal.Individual)).
Fixpoint check_list_members (document_id : DocumentId) (individuals : list DocumentId) (l : list Z) : SetError + unit :=
  match l with
  | [] => inr tt
  | id :: l =>
      if negb (bool_decide (id_document_id id ∈ individuals)) then inl (invalid Principal.Members)
      else if id_document_id id =? document_id then inl (invalid Principal.Members)
      else check_list_members document_id individuals l
  end.
Fixpoint patch_list_members (document_id : DocumentId) (individuals : list DocumentId) (l : list (Z * bool)) (members : list Z) :
    SetError + Value :=
  match l with
  | [] => inr (Principal.VMembers members)
  | (id, do_set) :: l =>
      if do_set then
        if negb (bool_decide (id ∈ members)) then
          if negb (bool_decide (id_document_id id ∈ individuals)) then inl (invalid Principal.Members)
          else if id_document_id id =? document_id then inl (invalid Principal.Members)
          else patch_list_members document_id individuals l (members ++ [id])
        else patch_list_members document_id individuals l members
      else patch_list_members document_id individuals l (filter (fun m => m <> id) members)
  end.

Definition current_aliases (current_fields : option PFields) : list (list Z) := from_option aliases_of [] current_fields.
Definition current_members (current_fields : option PFields) : list Z := from_option members_of [] current_fields.
Definition is_principal_with_time (ptype : Principal.Type') : bool := negb (bool_decide (ptype ∈ [Principal.Domain; Principal.List_])).

(** What a property adds to the addresses to validate, and its value, or
    [None] for [continue]; tags and rights of the object may change. *)
Definition setting : Type := PFields * list (list Z) * option Value.
Definition keep_value (self : PFields) (v : Value) : SetError + setting := inr (self, [], Some v).

Definition secret_value (w : W) (ptype : Principal.Type') (self : PFields) (value : list Z) : W * (SetError + setting) :=
  if negb (bool_decide (value = [])) && bool_decide (ptype = Principal.Individual) then
    let '(w, r) := hash_encoded w value in
    (w, match r with Some hash => keep_value self (Principal.VText hash) | None => inl (invalid Principal.Secret) end)
  else if negb (bool_decide (value = [])) && bool_decide (ptype = Principal.Domain) then
    (w, if dkim_key value then keep_value (orm_tag self Principal.DKIM Default) (Principal.VText value) else inl (invalid Principal.Secret))
  else (w, inl (invalid Principal.Secret)).

Definition members_value (w : W) (h : SetHelper) (current_fields : option PFields) (document_id : DocumentId) (ptype : Principal.Type')
    (self : PFields) (value : Value) : W * (SetError + setting) :=
  match value, ptype with
  | Principal.VMembers value, Principal.Group =>
      let '(w, r) := set_group_members w h current_fields document_id value in (w, v ← r; keep_value self v)
  | Principal.VPatch (Principal.PatchMembers value), Principal.Group =>
      let '(w, r) := patch_group_members w h document_id (vm_iter value) (current_members current_fields) in (w, v ← r; keep_value self v)
  | Principal.VMembers value, Principal.List_ =>
      (w, ids ← individuals w; _ ← check_list_members document_id ids value; keep_value self (Principal.VMembers value))
  | Principal.VPatch (Principal.PatchMembers value), Principal.List_ =>
      (w, ids ← individuals w; v ← patch_list_members document_id ids (vm_iter value) (current_members current_fields); keep_value self v)
  | Principal.VNull, _ => (w, keep_value self Principal.VNull)
  | _, _ => (w, inl (invalid Principal.Members))
  end.

Definition principal_value (w : W) (h : SetHelper) (current_fields : option PFields) (document_id : DocumentId) (ptype : Principal.Type')
    (self : PFields) (property : Principal.Property) (value : Value) : W * (SetError + setting) :=
  let emails (r : SetError + (list (list Z) * Value)) : SetError + setting := r ← r; inr (self, r.1, Some r.2) in
  match property, value with
  | Principal.Name, Principal.VText value =>
      (w, if bool_decide (value = []) then inl (invalid property) else v ← set_name w current_fields ptype value; keep_value self v)
  | Principal.Description, (Principal.VText _ | Principal.VNull) => (w, keep_value self value)
  | Principal.Email, Principal.VText value =>
      (w, if bool_decide (ptype <> Principal.Domain) then emails (set_email current_fields value) else inl (invalid property))
  | Principal.Timezone, (Principal.VText _ | Principal.VNull) | Principal.Capabilities, (Principal.VTextList _ | Principal.VNull) =>
      (w, if is_principal_with_time ptype then keep_value self value else inl (invalid property))
  | Principal.Aliases, Principal.VTextList value =>
      (w, if bool_decide (ptype <> Principal.Domain) then emails (set_aliases current_fields value [] []) else inl (invalid property))
  | Principal.Aliases, Principal.VPatch (Principal.PatchAliases value) =>
      (w, if bool_decide (ptype <> Principal.Domain) then emails (patch_aliases (vm_iter value) [] (current_aliases current_fields))
          else inl (invalid property))
  | Principal.Secret, Principal.VText value => secret_value w ptype self value
  | Principal.Secret, Principal.VNull =>
      (w, keep_value (if bool_decide (ptype = Principal.Domain) then orm_untag self Principal.DKIM Default else self) Principal.VNull)
  | Principal.ACL, Principal.VPatch (Principal.PatchACL value) =>
      (w, self ← acl_apply_all (principal_by_email w) self value; inr (self, [], None))
  | Principal.DKIM, Principal.VDKIM _ _ =>
      (w, if bool_decide (ptype = Principal.Domain) then keep_value self value else inl (invalid property))
  | Principal.Quota, (Principal.VNumber _ | Principal.VNull) | Principal.Picture, (Principal.VBlob _ | Principal.VNull) =>
      (w, keep_value self value)
  | Principal.Members, value => members_value w h current_fields document_id ptype self value
  | (Principal.Email | Principal.DKIM | Principal.Aliases), Principal.VNull => (w, keep_value self Principal.VNull)
  | Principal.Type_, _ => (w, inr (self, [], None))
  | _, _ => (w, inl (invalid property))
  end.
Fixpoint principal_properties (w : W) (h : SetHelper) (current_fields : option PFields) (document_id : DocumentId) (ptype : Principal.Type')
    (self : PFields) (validate_emails : list (list Z)) (l : list (Principal.Property * Value)) : W * (SetError + (PFields * list (list Z))) :=
  match l with
  | [] => (w, inr (self, validate_emails))
  | (property, value) :: l =>
      let '(w, r) := principal_value w h current_fields document_id ptype self property value in
      match r with
      | inl e => (w, inl e)
      | inr (self, emails, v) =>
          principal_properties w h current_fields document_id ptype (from_option (orm_set self property) self v) (validate_emails ++ emails) l
      end
  end.

(** The type: of the stored principal, or the first thing that is set. *)
Definition principal_type (current_fields : option PFields) (self : PFields) (principal : PrincipalItem) :
    SetError + (Principal.Type' * PFields * PrincipalItem) :=
  match current_fields with
  | Some current_fields =>
      match orm_get current_fields Principal.Type_ with
      | Some (Principal.VType value) => inr (value, self, principal)
      | _ => inl (invalid Principal.Type_)
      end
  | None =>
      match vm_remove principal Principal.Type_ with
      | Some (Principal.VType value, principal) => inr (value, orm_set self Principal.Type_ (Principal.VType value), principal)
      | _ => inl (invalid Principal.Type_)
      end
  end.

(** The domains of the addresses exist; the set is read in some order. *)
Definition domains_of (emails : list (list Z)) : list (list Z) := remove_dups (omap (fun e => snd <$> split_once AT e) emails).
Fixpoint check_domains (w : W) (domains : list (list Z)) : SetError + unit :=
  match domains with
  | [] => inr tt
  | domain :: domains =>
      ids ← lift (principal_query w (domain_filter domain));
      match ids with [] => inl (invalid Principal.Email) | _ => check_domains w domains end
  end.
(** No principal has one of the addresses. *)
Definition check_addresses (w : W) (validate_emails : list (list Z)) : SetError + unit :=
  match validate_emails with
  | [] => inr tt
  | _ =>
      _ ← check_domains w (domains_of validate_emails);
      ids ← lift (principal_query w (FOr (map address_filter validate_emails)));
      match ids with [] => inr tt | _ => inl (invalid Principal.Email) end
  end.

(** A text in the changes, or in the stored principal. *)
Definition has_text (current_fields : option PFields) (self : PFields) (p : Principal.Property) : bool :=
  match (match orm_get self p with Some v => Some v | None => current_fields ≫= fun f => orm_get f p end) with
  | Some (Principal.VText _) => true
  | _ => false
  end.
Definition has_address (ptype : Principal.Type') : bool := bool_decide (ptype ∈ [Principal.Individual; Principal.List_; Principal.Group]).
Definition check_principal (current_fields : option PFields) (self : PFields) (ptype : Principal.Type') : SetError + unit :=
  if has_address ptype && negb (has_text current_fields self Principal.Email) then inl (invalid Principal.Email)
  else if negb (has_text current_fields self Principal.Name) then inl (invalid Principal.Email)
  else if bool_decide (ptype = Principal.Individual) && negb (has_text current_fields self Principal.Secret) then inl (invalid Principal.Email)
  else inr tt.

Definition DEFAULT_MAILBOXES : list (list Z * list Z) :=
  [(chars "Inbox", chars "inbox"); (chars "Deleted Items", chars "trash"); (chars "Drafts", chars "drafts");
   (chars "Sent Items", chars "sent"); (chars "Junk Mail", chars "junk")].
Fixpoint default_mailboxes (w : W) (account_id : AccountId) (batch : WriteBatch) (l : list (list Z * list Z)) : W * (SetError + WriteBatch) :=
  match l with
  | [] => (w, inr batch)
  | (name, role) :: l =>
      let '(w, r) := store_assign_id w account_id Collection.Mailbox in
      match lift r with
      | inl e => (w, inl e)
      | inr id =>
          match orm_insert (new_mailbox name role) (document_new Collection.Mailbox id) with
          | None => (w, inl (from_store_error StoreError.SerializeError))
          | Some document =>
              default_mailboxes w account_id (insert_document (log_insert batch Collection.Mailbox (d_document_id document)) document) l
          end
      end
  end.
Definition is_account (ptype : Principal.Type') : bool := bool_decide (ptype ∈ [Principal.Individual; Principal.Group]).

(** The validation of a principal; the mailboxes of a new account go to a
    batch of their own. *)
Definition principal_set (w : W) (h : SetHelper) (self : PFields) (principal : PrincipalItem) (current_fields : option PFields)
    (document_id : DocumentId) : W * SetHelper * (SetError + PFields) :=
  match principal_type current_fields self principal with
  | inl e => (w, h, inl e)
  | inr (ptype, self, principal) =>
      let '(w, r) := principal_properties w h current_fields document_id ptype self [] (vm_iter principal) in
      match (r ← r; _ ← check_addresses w r.2; _ ← check_principal current_fields r.1 ptype; inr r.1) with
      | inl e => (w, h, inl e)
      | inr self =>
          if bool_decide (current_fields = None) && is_account ptype then
            let '(w, r) := default_mailboxes w document_id (batch_new document_id) DEFAULT_MAILBOXES in
            match r with
            | inl e => (w, h, inl e)
            | inr batch => (w, h_set_changes h (add_linked_batch (h_changes h) batch), inr self)
            end
          else (w, h, inr self)
      end
  end.

(** ** The functions of [Principal/set] *)

(** Ids of accounts that are still to be deleted are passed over; the loop
    ends if ids do not repeat. *)
Fixpoint fresh_id (fuel : nat) (w : W) (tagged : gset Z) (id : DocumentId) : option (W * (SetError + DocumentId)) :=
  match fuel with
  | O => None
  | S fuel =>
      if bool_decide (id ∈ tagged) then
        let '(w, r) := store_assign_id w SUPERUSER_ID Collection.Principal in
        match lift r with
        | inl e => Some (w, inl e)
        | inr id => fresh_id fuel w tagged id
        end
      else Some (w, inr id)
  end.
Definition set_document_id (d : Document) (id : DocumentId) : Document :=
  mkDocument (d_collection d) id (d_term_index d) (d_text_fields d) (d_number_fields d) (d_binary_fields d) (d_tag_fields d) (d_acls d) (d_blobs d).
Definition invalidate_aliases (w : W) (o : PFields) : W := fold_left invalidate_recipient (aliases_of o) w.
Definition invalidate_email (w : W) (o : PFields) : W := from_option (invalidate_recipient w) w (text_of (orm_get o Principal.Email)).

Definition create_with (create_id : list Z) (item : PrincipalItem) (w : W) (h : SetHelper) (document : Document) :
    W * SetHelper * Document * (SetError + PrincipalItem) :=
  let '(w, h, r) := principal_set w h orm_new item None (d_document_id document) in
  match r with
  | inl e => (w, h, document, inl e)
  | inr fields =>
      let w := invalidate_aliases (invalidate_email w fields) fields in
      match insert_validate fields document with
      | inl e => (w, h, document, inl (from_orm_error e))
      | inr document => (w, h, document, inr (principal_new (d_document_id document)))
      end
  end.
(** With fuel for one id more than there are accounts to delete; [None] of
    [fresh_id] is not reached by ids that do not repeat. *)
Definition principal_create (tagged_for_deletion_ids : option (gset Z)) (create_id : list Z) (item : PrincipalItem) (w : W) (h : SetHelper)
    (document : Document) : W * SetHelper * Document * (SetError + PrincipalItem) :=
  match tagged_for_deletion_ids with
  | Some tagged =>
      match fresh_id (S (size tagged)) w tagged (d_document_id document) with
      | Some (w, inr id) => create_with create_id item w h (set_document_id document id)
      | Some (w, inl e) => (w, h, document, inl e)
      | None => (w, h, document, inl forbidden)
      end
  | None => create_with create_id item w h document
  end.

Definition update_caches (w : W) (fields current_fields : PFields) : W :=
  let w :=
    match text_of (orm_get fields Principal.Email), text_of (orm_get current_fields Principal.Email) with
    | Some new_email, Some old_email =>
        if negb (bool_decide (new_email = old_email)) then invalidate_recipient (invalidate_recipient w new_email) old_email else w
    | _, _ => w
    end in
  let w :=
    if negb (bool_decide (orm_get fields Principal.Aliases = orm_get current_fields Principal.Aliases)) then
      invalidate_aliases (invalidate_aliases w current_fields) fields
    else w in
  if bool_decide (orm_get current_fields Principal.Type_ = Some (Principal.VType Principal.List_)) then invalidate_email w current_fields else w.

Definition principal_update (id : Z) (item : PrincipalItem) (w : W) (h : SetHelper) (document : Document) :
    W * SetHelper * Document * (SetError + option PrincipalItem) :=
  match lift (principal_orm w (id_document_id id)) with
  | inl e => (w, h, document, inl e)
  | inr None => (w, h, document, inl (set_error SetErrorType.NotFound))
  | inr (Some current_fields) =>
      let '(w, h, r) := principal_set w h (track_changes current_fields) item (Some current_fields) (d_document_id document) in
      match r with
      | inl e => (w, h, document, inl e)
      | inr fields =>
          let w := update_caches w fields current_fields in
          match merge_validate current_fields document fields with
          | inl e => (w, h, document, inl (from_orm_error e))
          | inr (_, document, _) => (w, h, document, inr None)
          end
      end
  end.

(** The principal is no member any more. *)
Definition drop_member (id : Z) (fields : PFields) : option PFields :=
  match orm_get fields Principal.Members with
  | Some (Principal.VMembers value) =>
      if bool_decide (id ∈ value) then
        Some (orm_set (track_changes fields) Principal.Members
                (if (1 <? length value)%nat then Principal.VMembers (filter (fun m => m <> id) value) else Principal.VNull))
      else None
  | _ => None
  end.
Fixpoint remove_member (id : Z) (w : W) (changes : WriteBatch) (l : list DocumentId) : WriteBatch * (SetError + unit) :=
  match l with
  | [] => (changes, inr tt)
  | document_id :: l =>
      match lift (principal_orm w document_id) with
      | inl e => (changes, inl e)
      | inr fields =>
          match fields ≫= fun fields => (fields,.) <$> drop_member id fields with
          | Some (fields, new_fields) =>
              match orm_merge fields (document_new Collection.Principal document_id) new_fields with
              | None => (changes, inl (from_store_error StoreError.SerializeError))
              | Some (_, document, _) =>
                  remove_member id w (log_update (update_document changes document) Collection.Principal document_id) l
              end
          | None => remove_member id w changes l
          end
      end
  end.
Definition tag_deletion (document_id : DocumentId) : Document :=
  document_tag (document_new Collection.Principal document_id) ACCOUNTS_TO_DELETE (Static ACCOUNTS_TO_DELETE) 0.

Definition principal_destroy (id : Z) (w : W) (h : SetHelper) (document : Document) : W * SetHelper * Document * (SetError + unit) :=
  let document_id := d_document_id document in
  if document_id =? SUPERUSER_ID then (w, h, document, inl forbidden)
  else
    match lift (principal_orm w document_id) with
    | inl e => (w, h, document, inl e)
    | inr None => (w, h, document, inr tt)
    | inr (Some fields) =>
        match lift (principal_query w (FEq Principal.Members (QInteger document_id))) with
        | inl e => (w, h, document, inl e)
        | inr ids =>
            let '(changes, r) := remove_member id w (h_changes h) (merge_sort Z.le ids) in
            match r with
            | inl e => (w, h_set_changes h changes, document, inl e)
            | inr _ =>
                (invalidate_token (invalidate_email w fields) document_id,
                 h_set_changes h (update_document changes (tag_deletion document_id)), orm_delete fields document, inr tt)
            end
        end
    end.

(** [Principal/set]. *)
Definition principal_set_request (w : W) (acl : ACLToken) (request : SetRequest ResultReference PrincipalItem) :
    W * outcome (SetResponse Principal.Property PrincipalItem) :=
  match helper_new Collection.Principal w acl request with
  | Returned h =>
      match to_delete w with
      | inl e => (w, Failed (method_error e))
      | inr tagged => run_set (principal_create tagged) principal_update principal_destroy w h request
      end
  | Failed e => (w, Failed e)
  | Panicked => (w, Panicked)
  end.

(** ** Deletion of accounts *)

Definition principal_delete (w : W) (batch : WriteBatch) (document : Document) : WriteBatch * Document * result unit :=
  match principal_orm w (d_document_id document) with
  | inl e => (batch, document, inl e)
  | inr None => (batch, document, inl StoreError.NotFound)
  | inr (Some fields) =>
      (update_document batch (tag_deletion (d_document_id document)), orm_delete fields document, inr tt)
  end.
Definition principal_purge (w : W) : W * result unit :=
  match to_delete w with
  | inl e => (w, inl e)
  | inr None => (w, inr tt)
  | inr (Some accounts_to_delete) =>
      let '(w, r) := delete_accounts w accounts_to_delete in
      match r with inl e => (w, inl e) | inr _ => untag_accounts w accounts_to_delete end
  end.

(** ** Accounts made by the server *)

Definition secret_hash (w : W) (secret : list Z) : W * Value :=
  let '(w, r) := hash_encoded w secret in (w, Principal.VText (default [] r)).
Definition new_account (w : W) (email secret name : list Z) : W * PFields :=
  let '(w, hash) := secret_hash w secret in
  (w, orm_set (orm_set (orm_set (orm_set orm_new Principal.Name (Principal.VText name)) Principal.Email (Principal.VText email))
                 Principal.Secret hash) Principal.Type_ (Principal.VType Principal.Individual)).
Definition change_secret (w : W) (self : PFields) (secret : list Z) : W * PFields :=
  let '(w, hash) := secret_hash w secret in (w, orm_set self Principal.Secret hash).
End PrincipalSet.

(** ** Requests that read principals *)

Definition principal_default_properties : list Principal.Property :=
  [Principal.Id; Principal.Name; Principal.Email; Principal.Type_; Principal.Description].

Section PrincipalReads.
Context `{Directory W} `{SetStore W}.
(** [get_orm] in the account of the request. *)
Variable account_orm : W -> AccountId -> DocumentId -> result (option PFields).

Fixpoint acl_emails (w : W) (l : list Permission) (acl_get : VecMap (list Z) (list ACL.t)) : MethodError + VecMap (list Z) (list ACL.t) :=
  match l with
  | [] => inr acl_get
  | p :: l =>
      email ← principal_email w (perm_id p);
      acl_emails w l (match email with Some email => vm_append acl_get email (bm_to_list (perm_acl p)) | None => acl_get end)
  end.
(** One property; [remove] takes the value out of the object read. *)
Definition read_principal_property (w : W) (id : Z) (property : Principal.Property) (fields : PFields) : MethodError + (Principal.Value * PFields) :=
  match property with
  | Principal.Id => inr (Principal.VId id, fields)
  | Principal.ACL => acl_get ← acl_emails w (acls fields) vm_new; inr (Principal.VACL acl_get, fields)
  | Principal.Secret => inr (Principal.VNull, fields)
  | _ => inr (default Principal.VNull (orm_remove fields property).1, (orm_remove fields property).2)
  end.
Fixpoint read_principal (w : W) (id : Z) (properties : list Principal.Property) (fields : PFields) (principal : PrincipalItem) :
    MethodError + PrincipalItem :=
  match properties with
  | [] => inr principal
  | property :: properties =>
      r ← read_principal_property w id property fields; read_principal w id properties r.2 (vm_append principal property r.1)
  end.
(** [Principal/get]. *)
Definition principal_get (max_objects_in_get : nat) (w : W) (acl : ACLToken) (request : GetRequest ResultReference Principal.Property) :
    W * outcome (GetResponse PrincipalItem) :=
  let '(w, r) := get_new Collection.Principal principal_default_properties max_objects_in_get (Some default_mapper) None w acl request in
  match r with
  | Failed e => (w, Failed e)
  | Panicked => (w, Panicked)
  | Returned h =>
      helper_get
        (fun id properties w =>
           (w, match account_orm w (g_account_id h) (id_document_id id) with
               | inl e => Failed (method_error e)
               | inr None => Failed (method_error StoreError.NotFound)
               | inr (Some fields) =>
                   match read_principal w id properties fields vm_new with inl e => Failed e | inr p => Returned (Some p) end
               end)) h w
  end.

(** [dkim_get]: the key of the first domain of that name that has one. *)
Record DKIM := mkDKIM { dk_key : list Z; dk_domain : list Z; dk_selector : list Z; dk_expiration : option Z }.
Definition dkim_get (query_dkim : W -> list Z -> result (list DocumentId)) (pkcs1_pem : list Z -> bool) (w : W) (domain_name : list Z) :
    result (option DKIM) :=
  ids ← query_dkim w domain_name;
  match first_id ids with
  | None => inr None
  | Some domain_id =>
      p ← principal_orm w domain_id;
      match p ≫= fun p => orm_get p Principal.Secret, p ≫= fun p => orm_get p Principal.DKIM with
      | Some (Principal.VText dkim), dkim_settings =>
          if pkcs1_pem dkim then
            inr (Some
              match dkim_settings with
              | Some (Principal.VDKIM selector expiration) =>
                  mkDKIM dkim domain_name (default (chars "default") selector) (u64 <$> expiration)
              | _ => mkDKIM dkim domain_name (chars "default") None
              end)
          else inl StoreError.InternalError
      | _, _ => inr None
      end
  end.
End PrincipalReads.

Module PrincipalFilter.
Inductive t : Set :=
| Email (value : list Z) | Name (value : list Z) | DomainName (value : list Z) | Text (value : list Z) | Type_ (value : Principal.Type')
| Timezone (value : list Z) | Members (value : Z) | QuotaLt (value : Z) | QuotaGt (value : Z) | Unsupported (value : list Z).
End PrincipalFilter.
Inductive PrincipalComparator : Set := PType | PName | PEmail.

Definition principal_condition (p : Principal.Property) (op : ComparisonOperator) (q : Query.Query) : Filter :=
  Condition (mkCondition (Principal.property_number p) op q).
Definition principal_filter (f : PrincipalFilter.t) : res Filter :=
  match f with
  | PrincipalFilter.Email value => Ok (principal_condition Principal.Email Equal (Query.Index value))
  | PrincipalFilter.Name value => Ok (principal_condition Principal.Name Equal (Tokenize value))
  | PrincipalFilter.DomainName value => Ok (principal_condition Principal.Name Equal (Query.Index value))
  | PrincipalFilter.Timezone value => Ok (principal_condition Principal.Timezone Equal (Tokenize value))
  | PrincipalFilter.Text value =>
      Ok (Operator Or
            (map (fun p => principal_condition p Equal (Tokenize value))
               [Principal.Name; Principal.Email; Principal.Aliases; Principal.Description]))
  | PrincipalFilter.Type_ value => Ok (principal_condition Principal.Type_ Equal (Keyword (Principal.type_keyword value)))
  | PrincipalFilter.Members value => Ok (principal_condition Principal.Members Equal (Integer (id_document_id value)))
  | PrincipalFilter.QuotaLt value => Ok (principal_condition Principal.Quota LowerThan (LongInteger value))
  | PrincipalFilter.QuotaGt value => Ok (principal_condition Principal.Quota GreaterThan (LongInteger value))
  | PrincipalFilter.Unsupported _ => Err
  end.
Definition principal_comparator (c : PrincipalComparator) : Z :=
  Principal.property_number (match c with PType => Principal.Type_ | PName => Principal.Name | PEmail => Principal.Email end).
(** [Principal/query]; [fuel] bounds the parsing of the filter. *)
Definition principal_query_request {W : Type} (query_max_results : Z)
    (query_store : W -> AccountId -> Filter -> option (list (Z * bool)) -> res (list DocumentId)) (fuel : nat) (w : W) (account_id : AccountId)
    (filter : option (JFilter PrincipalFilter.t)) (sort : option (list (PrincipalComparator * bool))) (args : QueryArgs) :
    option (res QueryResponse) :=
  f ← parse_filter principal_filter fuel filter;
  Some (f ← f;
        results ← query_store w account_id f (option_map (map (fun c => (principal_comparator c.1, c.2))) sort);
        query query_max_results args None (fun id => Ok (Some id)) None results).

(** ** What holds of the principals of a server *)

(** Members are principals other than the group or list itself, lists have
    individuals as members, and no two domains have the same name. *)
Record principals_ok (dir : gmap Z PFields) : Prop := {
  pk_directory : directory_ok dir;
  pk_names i o v : dir !! i = Some o -> orm_get o Principal.Name = Some v -> exists t, v = Principal.VText t;
  pk_members i o m : dir !! i = Some o -> m ∈ members_of o ->
    0 <= m <= U32_MAX /\ m <> i /\
    exists o', dir !! m = Some o' /\ (ptype_of o = Some Principal.List_ -> ptype_of o' = Some Principal.Individual);
  pk_domains i j o o' t : dir !! i = Some o -> dir !! j = Some o' -> ptype_of o = Some Principal.Domain -> ptype_of o' = Some Principal.Domain ->
    text_of (orm_get o Principal.Name) = Some t -> text_of (orm_get o' Principal.Name) = Some t -> i = j }.

(** Caches, password hashes and ids change no principal. *)
Definition same_directory `{Directory W} (w w' : W) : Prop := principal_orm w' = principal_orm w /\ principal_query w' = principal_query w.
Class PrincipalStoreLaws (W : Type) `{PrincipalStore W} : Prop := {
  invalidate_recipient_keeps w e : same_directory w (invalidate_recipient w e);
  invalidate_token_keeps w a : same_directory w (invalidate_token w a);
  hash_encoded_keeps w t : same_directory w (hash_encoded w t).1;
  assign_id_keeps w a c : same_directory w (store_assign_id w a c).1 }.
#[export] Instance same_directory_preorder `{Directory W} : PreOrder (same_directory (W := W)).
Proof. split; [by split|]. intros w1 w2 w3 [E1 E2] [E3 E4]. split; congruence. Qed.

Lemma fold_keeps `{Directory W} {A} (f : W -> A -> W) l w : (forall w a, same_directory w (f w a)) -> same_directory w (fold_left f l w).
Proof. intros Hf. revert w. induction l as [|a l IH]; intros w; cbn; [done|]. by etrans; [apply Hf|apply IH]. Qed.

(** The member ids of a request are ids of documents. *)
Definition plain_value (v : Principal.Value) : Prop :=
  match v with
  | Principal.VMembers l => forall m, m ∈ l -> 0 <= m <= U32_MAX
  | Principal.VPatch (Principal.PatchMembers l) => forall m, m ∈ (vm_iter l).*1 -> 0 <= m <= U32_MAX
  | _ => True
  end.

Lemma vec_swap_remove_elem {A} (l l' : list A) pos x y : vec_swap_remove l pos = Some (x, l') -> y ∈ l' -> y ∈ l.
Proof.
  intros Hr Hy. destruct (l !! pos) as [z|] eqn:Ez; [|unfold vec_swap_remove in Hr; by rewrite Ez in Hr].
  destruct (vec_swap_remove_Some l pos z Ez) as (l1 & Hl1 & Hlen & Hlook). rewrite Hl1 in Hr. injection Hr as -> ->.
  apply list_elem_of_lookup in Hy as [j Hj]. rewrite Hlook in Hj. repeat case_match; try done; by apply list_elem_of_lookup; eexists.
Qed.

Section Checked.
Context `{PrincipalStoreLaws W}.
Variable dir : gmap Z PFields.
Hypothesis Hdir : principals_ok dir.

Lemma serves_same (w w' : W) : serves w dir -> same_directory w w' -> serves w' dir.
Proof. intros [So Sq] [Eo Eq]. split; [by rewrite Eo|by rewrite Eq]. Qed.

(** Addresses that have been checked. *)
Definition unused (t : list Z) : Prop := forall j o, dir !! j = Some o -> t ∉ addresses o.
Definition has_domain (t : list Z) : Prop := forall local domain, split_once AT t = Some (local, domain) ->
  exists j o, dir !! j = Some o /\ ptype_of o = Some Principal.Domain /\ text_of (orm_get o Principal.Name) = Some domain.
Lemma check_domains_ok (w : W) l t :
  serves w dir -> check_domains w l = inr tt -> t ∈ l ->
  exists j o, dir !! j = Some o /\ ptype_of o = Some Principal.Domain /\ text_of (orm_get o Principal.Name) = Some t.
Proof.
  intros Hs. induction l as [|d l IH]; cbn [check_domains]; [by intros _ ?%elem_of_nil|].
  destruct (sv_query _ _ Hs (domain_filter d)) as (ids & -> & _ & Hin). cbn [lift mbind sum_bind]. destruct ids as [|j ids]; [done|].
  intros E [->|Ht]%elem_of_cons; [|by apply IH]. destruct (Hin j) as [(o & Ho & Hm) _]; [apply list_elem_of_here|]. exists j, o. split; [done|].
  change (matches (domain_filter d) o) with (matches (FEq Principal.Name (QIndex d)) o && (matches (type_filter Principal.Domain) o && true)) in Hm.
  rewrite matches_type, andb_true_r, andb_true_iff in Hm by (by eapply (do_ok _ (pk_directory _ Hdir))). destruct Hm as [Hn Ht].
  split; [by apply bool_decide_eq_true in Ht|]. apply bool_decide_eq_true in Hn. destruct (orm_get o Principal.Name) as [v|] eqn:En; [|by rewrite no_entries, elem_of_nil in Hn].
  destruct (pk_names _ Hdir _ _ _ Ho En) as [t' ->]. revert Hn. principal_entries. cbn. rewrite list_elem_of_singleton. by intros [= ->].
Qed.
Lemma check_addresses_ok (w : W) emails t :
  serves w dir -> check_addresses w emails = inr tt -> t ∈ emails -> unused t /\ has_domain t.
Proof.
  intros Hs Hc Ht. unfold check_addresses in Hc. destruct emails as [|e emails]; [by apply elem_of_nil in Ht|].
  destruct (check_domains w (domains_of (e :: emails))) as [|[]] eqn:Ed; [done|]. cbn [mbind sum_bind] in Hc.
  destruct (sv_query _ _ Hs (FOr (map address_filter (e :: emails)))) as (ids & Eq & _ & Hin). rewrite Eq in Hc. cbn [lift mbind sum_bind] in Hc.
  destruct ids as [|x ids]; [|done]. split.
  - intros j o Ho Ha. assert (j ∈ @nil Z) as []%elem_of_nil. apply Hin. exists o. split; [done|]. cbn [matches]. apply existsb_exists.
    exists (address_filter t). split; [apply in_map, list_elem_of_In; done|]. rewrite matches_address by (by eapply (do_ok _ (pk_directory _ Hdir))).
    by apply bool_decide_true.
  - intros local domain Es. eapply check_domains_ok; [done..|]. unfold domains_of. rewrite elem_of_remove_dups, list_elem_of_omap. exists t. by rewrite Es.
Qed.
End Checked.

Section Allowed.
Context `{PrincipalStoreLaws W} `{Unicode}.
Abbreviation SetHelper := (SetHelper Principal.Property PrincipalItem).
Variables (h : SetHelper) (dir : gmap Z PFields) (current : option PFields) (i : Z) (ptype : Principal.Type').
Hypothesis Hdir : principals_ok dir.
Hypothesis Hids : h_document_ids h = dom dir.
Hypothesis Hcurrent : forall o, current = Some o -> dir !! i = Some o /\ ptype_of o = Some ptype.

Definition own_text (p : Principal.Property) : option (list Z) := current ≫= fun o => text_of (orm_get o p).

(** A principal that can be a member. *)
Definition member_ok (m : Z) : Prop :=
  0 <= m <= U32_MAX /\ m <> i /\ exists o, dir !! m = Some o /\ (ptype = Principal.List_ -> ptype_of o = Some Principal.Individual).
Definition new_domain (t : list Z) : Prop :=
  forall j o, dir !! j = Some o -> ptype_of o = Some Principal.Domain -> text_of (orm_get o Principal.Name) <> Some t.

(** The values that a request can give to a property; addresses that are new
    are in [emails]. *)
Definition allowed_value (emails : list (list Z)) (p : Principal.Property) (v : Principal.Value) : Prop :=
  match p with
  | Principal.Name => exists t, v = Principal.VText t /\ (ptype = Principal.Domain -> own_text Principal.Name = Some t \/ new_domain t)
  | Principal.Email => v = Principal.VNull \/ exists t, v = Principal.VText t /\ (own_text Principal.Email = Some t \/ t ∈ emails)
  | Principal.Aliases => v = Principal.VNull \/ exists l, v = Principal.VTextList l /\ forall t, t ∈ l -> t ∈ current_aliases current \/ t ∈ emails
  | Principal.Members => v = Principal.VNull \/ exists l, v = Principal.VMembers l /\ forall m, m ∈ l -> member_ok m
  | Principal.Type_ => False
  | _ => True
  end.

Lemma allowed_more emails emails' p v : (forall t, t ∈ emails -> t ∈ emails') -> allowed_value emails p v -> allowed_value emails' p v.
Proof. intros He. destruct p; cbn; naive_solver. Qed.

Lemma own_members m : m ∈ current_members current -> member_ok m.
Proof.
  unfold current_members. destruct current as [o|] eqn:Ec; cbn; [|by intros ?%elem_of_nil]. intros Hm. destruct (Hcurrent o eq_refl) as [Hi Ht].
  destruct (pk_members _ Hdir i o m Hi Hm) as (Hr & Hne & o' & Ho' & Hl). refine (conj Hr (conj Hne _)). exists o'. split; [done|]. intros ->. by apply Hl.
Qed.
Lemma listed_member m : 0 <= m <= U32_MAX -> id_document_id m <> i -> id_document_id m ∈ h_document_ids h -> ptype = Principal.Group -> member_ok m.
Proof.
  intros Hm Hi. rewrite id_document_id_small in * by done. rewrite Hids, elem_of_dom. intros [o Ho] Hg. refine (conj Hm (conj Hi _)). exists o. split; [done|]. rewrite Hg. done.
Qed.

(** New members of a group. *)
Lemma check_group_members_ok w cm l w' r :
  check_group_members w h i cm l = (w', r) -> same_directory w w' /\
  (r = inr tt -> ptype = Principal.Group -> forall m, m ∈ l -> 0 <= m <= U32_MAX -> member_ok m).
Proof.
  revert w. induction l as [|m l IH]; intros w; cbn [check_group_members]; [intros [= <- <-]; split; [done|by intros _ _ m ?%elem_of_nil]|].
  destruct (Z.eqb_spec (id_document_id m) i) as [|Hi]; [by intros [= <- <-]|]. case_bool_decide as Hin; [|by intros [= <- <-]].
  intros [Hs Hr]%IH. split.
  - etrans; [|exact Hs]. destruct (from_option _ true cm); [apply invalidate_token_keeps|done].
  - intros E Hg m' [->|Hm']%elem_of_cons Hp; [by apply listed_member|by apply Hr].
Qed.
Lemma set_group_members_ok w l w' r :
  (forall m, m ∈ l -> 0 <= m <= U32_MAX) -> ptype = Principal.Group -> set_group_members w h current i l = (w', r) -> same_directory w w' /\
  forall v, r = inr v -> exists ms, v = Principal.VMembers ms /\ forall m, m ∈ ms -> member_ok m.
Proof.
  intros Hl Hg. unfold set_group_members. set (w1 := fold_left _ _ w). destruct (check_group_members w1 h i _ l) as [w2 r2] eqn:Ec.
  apply check_group_members_ok in Ec as [Hs Hr]. intros [= <- <-]. split.
  - etrans; [|exact Hs]. apply fold_keeps. intros w0 m. case_bool_decide; cbn; [done|apply invalidate_token_keeps].
  - destruct r2 as [e|[]]; cbn; [done|]. intros v [= <-]. exists l. split; [done|]. intros m Hm. apply Hr; [done..|by apply Hl].
Qed.
Lemma patch_group_members_ok w l ms w' r :
  (forall m, m ∈ l.*1 -> 0 <= m <= U32_MAX) -> (forall m, m ∈ ms -> member_ok m) -> ptype = Principal.Group ->
  patch_group_members w h i l ms = (w', r) -> same_directory w w' /\
  forall v, r = inr v -> exists ms', v = Principal.VMembers ms' /\ forall m, m ∈ ms' -> member_ok m.
Proof.
  intros Hl Hms Hg. revert w ms Hl Hms. induction l as [|[m b] l IH]; intros w ms Hl Hms; cbn [patch_group_members].
  { intros [= <- <-]. split; [done|]. intros v [= <-]. by eexists. }
  assert (forall m, m ∈ l.*1 -> 0 <= m <= U32_MAX) as Hl' by (intros m' Hm'; apply Hl; by right).
  assert (0 <= m <= U32_MAX) as Hm by (apply Hl; by left).
  assert (forall w1 ms1, same_directory w w1 -> (forall m, m ∈ ms1 -> member_ok m) -> patch_group_members w1 h i l ms1 = (w', r) ->
    same_directory w w' /\ forall v, r = inr v -> exists ms', v = Principal.VMembers ms' /\ forall m, m ∈ ms' -> member_ok m) as Hnext.
  { intros w1 ms1 Hw1 Hms1 E. apply IH in E as [Hs Hr]; [|done..]. split; [by etrans|done]. }
  destruct b.
  - case_bool_decide; cbn [negb]; [by apply Hnext|]. destruct (Z.eqb_spec (id_document_id m) i) as [|Hi]; [by intros [= <- <-]|].
    case_bool_decide; [|by intros [= <- <-]]. apply Hnext; [apply invalidate_token_keeps|].
    intros m' [?| ->%list_elem_of_singleton]%elem_of_app; [by apply Hms|by apply listed_member].
  - destruct (list_find (eq m) ms) as [[pos x]|] eqn:Ef; [|by apply Hnext]. apply Hnext; [apply invalidate_token_keeps|].
    intros m' Hm'. apply Hms. destruct (vec_swap_remove ms pos) as [[y ms']|] eqn:Es; cbn in Hm'; [|done]. by eapply vec_swap_remove_elem.
Qed.

(** Members of a list. *)
Definition all_individuals (ids : list Z) : Prop := forall m, m ∈ ids <-> exists o, dir !! m = Some o /\ ptype_of o = Some Principal.Individual.
Lemma individuals_exact w : serves w dir -> exists ids, individuals w = inr ids /\ all_individuals ids.
Proof.
  intros Hs. unfold individuals. destruct (sv_query _ _ Hs (type_filter Principal.Individual)) as (ids & -> & _ & Hin). exists ids. split; [done|].
  intros m. rewrite Hin. split; intros (o & Ho & Hm); exists o; (split; [done|]).
  - rewrite matches_type in Hm by (by eapply (do_ok _ (pk_directory _ Hdir))). by apply bool_decide_eq_true in Hm.
  - rewrite matches_type by (by eapply (do_ok _ (pk_directory _ Hdir))). by apply bool_decide_true.
Qed.
Lemma individual_member ids m : all_individuals ids -> 0 <= m <= U32_MAX -> id_document_id m ∈ ids -> id_document_id m <> i -> member_ok m.
Proof.
  intros Hall Hm. rewrite id_document_id_small by done. intros (o & Ho & Ht)%Hall Hi. refine (conj Hm (conj Hi _)). exists o. by split.
Qed.
Lemma check_list_members_ok ids l :
  all_individuals ids -> check_list_members i ids l = inr tt -> forall m, m ∈ l -> 0 <= m <= U32_MAX -> member_ok m.
Proof.
  intros Hall. induction l as [|m l IH]; cbn [check_list_members]; [by intros _ m ?%elem_of_nil|]. case_bool_decide; cbn [negb]; [|done].
  destruct (Z.eqb_spec (id_document_id m) i); [done|]. intros E m' [->|Hm']%elem_of_cons Hp; [by eapply individual_member|by apply IH].
Qed.
Lemma patch_list_members_ok ids l ms v :
  all_individuals ids -> (forall m, m ∈ l.*1 -> 0 <= m <= U32_MAX) -> (forall m, m ∈ ms -> member_ok m) ->
  patch_list_members i ids l ms = inr v -> exists ms', v = Principal.VMembers ms' /\ forall m, m ∈ ms' -> member_ok m.
Proof.
  intros Hall. revert ms. induction l as [|[m b] l IH]; intros ms Hl Hms; cbn [patch_list_members]; [intros [= <-]; by eexists|].
  assert (forall m, m ∈ l.*1 -> 0 <= m <= U32_MAX) as Hl' by (intros m' Hm'; apply Hl; by right).
  assert (0 <= m <= U32_MAX) as Hm by (apply Hl; by left). destruct b.
  - case_bool_decide; cbn [negb]; [by apply IH|]. case_bool_decide; cbn [negb]; [|done]. destruct (Z.eqb_spec (id_document_id m) i); [done|]. apply IH; [done|].
    intros m' [?| ->%list_elem_of_singleton]%elem_of_app; [by apply Hms|by eapply individual_member].
  - apply IH; [done|]. intros m' [_ Hm']%list_elem_of_filter. by apply Hms.
Qed.
Lemma members_value_ok w self value w' r :
  serves w dir -> plain_value value -> members_value w h current i ptype self value = (w', r) -> same_directory w w' /\
  forall self' emails v, r = inr (self', emails, v) -> self' = self /\ emails = [] /\ exists x, v = Some x /\ allowed_value [] Principal.Members x.
Proof.
  intros Hs Hp. destruct (individuals_exact w Hs) as (ids & Ei & Hall).
  assert (forall w1 rv, same_directory w w1 -> (forall v, rv = inr v -> exists ms, v = Principal.VMembers ms /\ forall m, m ∈ ms -> member_ok m) ->
    (w1, v ← rv; keep_value self v) = (w', r) -> same_directory w w' /\
    forall self' emails v, r = inr (self', emails, v) -> self' = self /\ emails = [] /\ exists x, v = Some x /\ allowed_value [] Principal.Members x) as Hkeep.
  { intros w1 rv Hw1 Hms [= <- <-]. split; [done|]. intros self' emails v E. destruct rv as [e|x]; [done|]. injection E as <- <- <-.
    split_and!; [done..|]. eexists. split; [done|]. right. by apply Hms. }
  unfold members_value. destruct (ex_intro (fun t => t = ptype) ptype eq_refl) as [t Et]. rewrite <- Et.
  destruct value; try (intros [= <- <-]; done).
  - destruct t; try (intros [= <- <-]; done).
    + destruct (set_group_members w h current i value) as [w1 r1] eqn:Eg. apply set_group_members_ok in Eg as [Hw1 Hr1]; [|done..]. by apply Hkeep.
    + rewrite Ei. cbn [mbind sum_bind]. intros E. apply (Hkeep w (_ ← check_list_members i ids value; inr (Principal.VMembers value))); [done| |].
      * destruct (check_list_members i ids value) as [e|[]] eqn:Ec; [done|]. intros v [= <-]. exists value. split; [done|]. intros m Hm.
        eapply check_list_members_ok; [done..|by apply Hp].
      * rewrite <- E. by destruct (check_list_members i ids value) as [e|[]].
  - destruct p; try (intros [= <- <-]; done). destruct t; try (intros [= <- <-]; done).
    + destruct (patch_group_members w h i (vm_iter l) (current_members current)) as [w1 r1] eqn:Eg.
      apply patch_group_members_ok in Eg as [Hw1 Hr1]; [|done|apply own_members|done]. by apply Hkeep.
    + rewrite Ei. cbn [mbind sum_bind]. apply Hkeep; [done|]. intros v Ev. eapply patch_list_members_ok; [done..|apply own_members|done].
  - intros [= <- <-]. split; [done|]. intros self' emails v [= <- <- <-]. split_and!; [done..|]. eexists. split; [done|]. by left.
Qed.

(** New addresses. *)
Lemma stored_email o : current = Some o -> principal_ok o.
Proof. intros Ho. destruct (Hcurrent o Ho) as [Hi _]. by eapply (do_ok _ (pk_directory _ Hdir)). Qed.
Lemma new_alias_true t : new_alias current t = true.
Proof.
  unfold new_alias. destruct (ex_intro (fun c => current = c) current eq_refl) as [c Ec]. rewrite Ec. destruct c as [o|]; [|done]. destruct (orm_get o Principal.Email) as [[]|] eqn:Ee; try done.
  destruct (po_email _ (stored_email o Ec) _ Ee) as [|[? ?]]; done.
Qed.
Lemma set_aliases_ok l emails aliases emails' v :
  set_aliases current l emails aliases = inr (emails', v) -> (forall t, t ∈ emails -> t ∈ emails') /\
  exists l', v = Principal.VTextList l' /\ forall t, t ∈ l' -> t ∈ aliases \/ t ∈ emails'.
Proof.
  revert emails aliases. induction l as [|e l IH]; intros emails aliases; cbn [set_aliases]; [intros [= <- <-]; split; [done|]; eexists; by split; [|left]|].
  destruct (sanitize_email e) as [t|]; [|done]. rewrite new_alias_true. intros [He (l' & -> & Hl')]%IH. split; [set_solver|]. exists l'. split; [done|].
  intros x Hx. destruct (Hl' x Hx) as [[?| ->%list_elem_of_singleton]%elem_of_app|?]; [by left| |by right]. right. apply He. set_solver.
Qed.
Lemma patch_aliases_ok l emails aliases emails' v :
  patch_aliases l emails aliases = inr (emails', v) -> (forall t, t ∈ emails -> t ∈ emails') /\
  (v = Principal.VNull \/ exists l', v = Principal.VTextList l' /\ forall t, t ∈ l' -> t ∈ aliases \/ t ∈ emails').
Proof.
  revert emails aliases. induction l as [|[e b] l IH]; intros emails aliases; cbn [patch_aliases].
  { intros [= <- <-]. split; [done|]. destruct aliases as [|a aliases]; [by left|right]. eexists. by split; [|left]. }
  assert (forall emails1 aliases1, (forall t, t ∈ emails -> t ∈ emails1) -> (forall t, t ∈ aliases1 -> t ∈ aliases \/ t ∈ emails1) ->
    patch_aliases l emails1 aliases1 = inr (emails', v) -> (forall t, t ∈ emails -> t ∈ emails') /\
    (v = Principal.VNull \/ exists l', v = Principal.VTextList l' /\ forall t, t ∈ l' -> t ∈ aliases \/ t ∈ emails')) as Hnext.
  { intros emails1 aliases1 He1 Ha1 [He Hv]%IH. split; [auto|]. destruct Hv as [->|(l' & -> & Hl')]; [by left|right]. exists l'. split; [done|].
    intros t Ht. destruct (Hl' t Ht) as [Hin|]; [|by right]. destruct (Ha1 t Hin); auto. }
  destruct b; [|apply Hnext; [done|]; intros t [_ ?]%list_elem_of_filter; by left].
  destruct (sanitize_email e) as [t|]; [|done]. case_bool_decide; cbn [negb]; apply Hnext; set_solver.
Qed.
Lemma set_name_ok w value v :
  serves w dir -> set_name w current ptype value = inr v -> allowed_value [] Principal.Name v.
Proof.
  intros Hs. unfold set_name. case_bool_decide as Ed; [|intros [= <-]; eexists; by split].
  destruct (sanitize_domain value) as [t|]; [|done]. unfold differs. destruct (match current with Some _ => _ | None => true end) eqn:Ec.
  - destruct (sv_query _ _ Hs (domain_filter t)) as (ids & -> & _ & Hin). cbn [lift mbind sum_bind]. destruct ids as [|x ids]; [|done]. intros [= <-].
    exists t. split; [done|]. intros _. right. intros j o Ho Ht Hn. assert (j ∈ @nil Z) as []%elem_of_nil. apply Hin. exists o. split; [done|].
    change (matches (domain_filter t) o) with (matches (FEq Principal.Name (QIndex t)) o && (matches (type_filter Principal.Domain) o && true)).
    rewrite matches_type by (by eapply (do_ok _ (pk_directory _ Hdir))). rewrite (bool_decide_true (ptype_of o = _)) by done. rewrite !andb_true_r.
    destruct (orm_get o Principal.Name) as [[]|] eqn:En; try done. injection Hn as ->. cbn [matches]. rewrite En. principal_entries.
    apply bool_decide_true. cbn. apply list_elem_of_here.
  - intros [= <-]. exists t. split; [done|]. intros _. left. unfold own_text. destruct current as [o|]; [|done]. cbn [mbind option_bind].
    apply negb_false_iff, bool_decide_eq_true in Ec. done.
Qed.
Lemma set_email_ok value emails v : set_email current value = inr (emails, v) -> allowed_value emails Principal.Email v.
Proof.
  unfold set_email. destruct (sanitize_email value) as [t|]; [|done]. intros [= <- <-]. right. exists t. split; [done|]. unfold differs, own_text.
  destruct current as [o|]; [|right; apply list_elem_of_here]. cbn [mbind option_bind]. case_bool_decide; cbn; [by left|right; apply list_elem_of_here].
Qed.

Definition setting_ok (p : Principal.Property) (self : PFields) (r : SetError Principal.Property + setting) : Prop :=
  forall self' emails v, r = inr (self', emails, v) -> properties self' = properties self /\ forall x, v = Some x -> allowed_value emails p x.
Lemma keep_ok p self self' v : properties self' = properties self -> allowed_value [] p v -> setting_ok p self (keep_value self' v).
Proof. intros Hp Hv self1 emails x [= <- <- <-]. split; [done|]. by intros y [= <-]. Qed.
Lemma error_ok p self e : setting_ok p self (inl e).
Proof. done. Qed.
Lemma skip_ok p self : setting_ok p self (inr (self, [], None)).
Proof. by intros self' emails x [= <- <- <-]. Qed.
Lemma emails_ok p self (r : SetError Principal.Property + (list (list Z) * Principal.Value)) :
  (forall emails v, r = inr (emails, v) -> allowed_value emails p v) -> setting_ok p self (r ← r; inr (self, r.1, Some r.2)).
Proof.
  intros Hr self' emails v. destruct r as [e|[emails1 x]]; [done|]. intros [= <- <- <-]. split; [done|]. intros y [= <-]. by apply Hr.
Qed.

Lemma secret_value_ok w self value w' r :
  secret_value w ptype self value = (w', r) -> same_directory w w' /\ setting_ok Principal.Secret self r.
Proof.
  unfold secret_value. pose proof (hash_encoded_keeps w value) as Hh. destruct (hash_encoded w value) as [w1 [hash|]]; cbn in Hh.
  all: repeat (case_match; try (intros [= <- <-]; split; [done|])); try apply error_ok; try by apply keep_ok.
  all: apply keep_ok; [apply orm_tag_properties|done].
Qed.

Lemma principal_value_ok w self p value w' r :
  serves w dir -> plain_value value -> principal_value w h current i ptype self p value = (w', r) -> same_directory w w' /\ setting_ok p self r.
Proof.
  intros Hs Hp. destruct (decide (p = Principal.Members)) as [->|Hm].
  { unfold principal_value. intros [Hw Hr]%members_value_ok; [|done..]. split; [done|]. intros self' emails v E.
    destruct (Hr _ _ _ E) as (-> & -> & x & -> & Hx). split; [done|]. by intros y [= <-]. }
  assert (forall r', (w, r') = (w', r) -> setting_ok p self r' -> same_directory w w' /\ setting_ok p self r) as Hsame by (by intros r' [= <- <-]).
  unfold principal_value. destruct p, value; try done; try (intros E; apply (Hsame _ E); (by apply error_ok || by apply keep_ok; cbn; auto)).
  all: try (intros E; apply (Hsame _ E); case_match; (by apply error_ok || by apply keep_ok)).
  all: try (intros E; apply (Hsame _ E); apply skip_ok).
  - intros E. apply (Hsame _ E). case_match; [apply error_ok|]. destruct (set_name w current ptype value) as [e|v] eqn:En; [apply error_ok|].
    apply keep_ok; [done|]. by eapply set_name_ok.
  - intros E. apply (Hsame _ E). case_match; [|apply error_ok]. apply emails_ok. intros emails v. apply set_email_ok.
  - intros E. apply (Hsame _ E). case_match; [|apply error_ok]. apply emails_ok. intros emails v (_ & l & -> & Hl)%set_aliases_ok.
    right. exists l. split; [done|]. intros t Ht. right. destruct (Hl t Ht) as [?%elem_of_nil|?]; done.
  - destruct p; try (intros E; apply (Hsame _ E), error_ok). intros E. apply (Hsame _ E). case_match; [|apply error_ok].
    apply emails_ok. intros emails v (_ & Hv)%patch_aliases_ok. done.
  - apply secret_value_ok.
  - destruct p; try (intros E; apply (Hsame _ E), error_ok). intros E. apply (Hsame _ E).
    destruct (acl_apply_all _ self updates) as [e|o] eqn:Ea; [apply error_ok|]. intros self' emails v [= <- <- <-]. split; [|done].
    by eapply acl_apply_all_properties.
Qed.

Lemma other_property (self : PFields) p v q : vm_inv (properties self) -> p <> q -> orm_get (orm_set self p v) q = orm_get self q.
Proof. intros Hs Hp. destruct (orm_set_get self p v q Hs) as [_ ->]. by rewrite decide_False. Qed.

Lemma principal_properties_ok w self emails l w' r :
  serves w dir -> vm_inv (properties self) -> (forall p v, (p, v) ∈ l -> plain_value v) ->
  principal_properties w h current i ptype self emails l = (w', r) -> same_directory w w' /\
  forall self' emails', r = inr (self', emails') ->
    vm_inv (properties self') /\ (forall t, t ∈ emails -> t ∈ emails') /\ orm_get self' Principal.Type_ = orm_get self Principal.Type_ /\
    forall p v, orm_get self' p = Some v -> orm_get self p = Some v \/ allowed_value emails' p v.
Proof.
  revert w self emails. induction l as [|[q value] l IH]; intros w self emails Hw Hs Hl; cbn [principal_properties].
  { intros [= <- <-]. split; [done|]. intros self' emails' [= <- <-]. split_and!; [done..|]. by left. }
  destruct (principal_value w h current i ptype self q value) as [w1 r1] eqn:Ev.
  apply principal_value_ok in Ev as [Hw1 Hr1]; [|done|by eapply Hl; left]. destruct r1 as [e|[[self1 emails1] v]]; [by intros [= <- <-]|].
  destruct (Hr1 _ _ _ eq_refl) as [Ep Hv]. set (self2 := from_option (orm_set self1 q) self1 v).
  assert (vm_inv (properties self1)) as Hs1 by (by rewrite Ep).
  assert (vm_inv (properties self2)) as Hs2 by (subst self2; destruct v as [x|]; [by apply (orm_set_get self1 q x q)|done]).
  assert (forall p, orm_get self1 p = orm_get self p) as E1 by (intros p; unfold orm_get; by rewrite Ep).
  intros E. apply IH in E as [Hw2 Hr]; [|by eapply serves_same|done|intros p x Hx; eapply Hl; by right].
  split; [by etrans|]. intros self' emails' Er. destruct (Hr _ _ Er) as (R1 & R2 & R3 & R4). split_and!; [done|set_solver| |].
  - rewrite R3, <- E1. subst self2. destruct v as [x|]; [|done]. apply other_property; [done|]. intros ->. by destruct (Hv x eq_refl).
  - intros p x Hx. destruct (R4 p x Hx) as [Hg|]; [|by right]. subst self2. destruct v as [y|]; cbn [from_option] in Hg; [|left; by rewrite <- E1].
    destruct (decide (q = p)) as [->|Hne]; [|left; rewrite other_property in Hg by done; by rewrite <- E1].
    destruct (orm_set_get self1 p y p Hs1) as [_ Hget]. rewrite Hget, decide_True in Hg by done. injection Hg as <-. right.
    apply (allowed_more emails1); [set_solver|by apply Hv].
Qed.

(** The principal after the request. *)
Section Changed.
Variables (o' : PFields) (emails : list (list Z)).
Hypothesis Hstored : dir !! i = current.
Hypothesis Hinv : vm_inv (properties o').
Hypothesis Htype : ptype_of o' = Some ptype.
Hypothesis Hemails : forall t, t ∈ emails -> unused dir t.
Hypothesis Hvalues : forall p v, orm_get o' p = Some v -> p <> Principal.Type_ ->
  (exists o, current = Some o /\ orm_get o p = Some v) \/ allowed_value emails p v.

Lemma changed_principal_ok : principal_ok o'.
Proof.
  split; [done|by eexists|..]; intros v Hv; (destruct (Hvalues _ _ Hv ltac:(done)) as [(o & Ho & Hov)|Ha]);
    try (destruct Ha as [->|(x & -> & _)]; [by left|right; by eexists]).
  - by apply (po_email _ (stored_email o Ho)).
  - by apply (po_aliases _ (stored_email o Ho)).
  - by apply (po_members _ (stored_email o Ho)).
Qed.
Lemma changed_address t : t ∈ addresses o' -> (exists o, current = Some o /\ t ∈ addresses o) \/ t ∈ emails.
Proof.
  unfold addresses, aliases_of. rewrite elem_of_app. intros [Ht|Ht].
  - destruct (orm_get o' Principal.Email) as [[]|] eqn:E; cbn in Ht; try by apply elem_of_nil in Ht. apply list_elem_of_singleton in Ht as ->.
    destruct (Hvalues _ _ E ltac:(done)) as [(o & Ho & Hov)|[?|(x & [= <-] & [Hx|Hx])]]; [|done|left|by right].
    + left. exists o. split; [done|]. rewrite Hov. cbn. apply list_elem_of_here.
    + unfold own_text in Hx. apply bind_Some in Hx as (o & Ho & Hov). exists o. split; [done|]. rewrite Hov. cbn. apply list_elem_of_here.
  - destruct (orm_get o' Principal.Aliases) as [[]|] eqn:E; try by apply elem_of_nil in Ht.
    destruct (Hvalues _ _ E ltac:(done)) as [(o & Ho & Hov)|[?|(l & [= <-] & Hl)]]; [|done|].
    + left. exists o. split; [done|]. rewrite elem_of_app, Hov. by right.
    + destruct (Hl t Ht) as [Ha|]; [left|by right]. unfold current_aliases in Ha. destruct (ex_intro (fun c => current = c) current eq_refl) as [c Ec].
      rewrite Ec in Ha. destruct c as [o|]; [|by apply elem_of_nil in Ha]. exists o. split; [done|]. rewrite elem_of_app. by right.
Qed.
Lemma changed_member m : m ∈ members_of o' -> member_ok m.
Proof.
  unfold members_of. destruct (orm_get o' Principal.Members) as [[]|] eqn:E; try by intros ?%elem_of_nil. intros Hm.
  destruct (Hvalues _ _ E ltac:(done)) as [(o & Ho & Hov)|[?|(l & [= <-] & Hl)]]; [|done|by apply Hl].
  apply own_members. unfold current_members, members_of. rewrite Ho. cbn. by rewrite Hov.
Qed.
Lemma changed_name v : orm_get o' Principal.Name = Some v -> exists t, v = Principal.VText t /\
  (ptype = Principal.Domain -> own_text Principal.Name = Some t \/ new_domain t).
Proof.
  intros E. destruct (Hvalues _ _ E ltac:(done)) as [(o & Ho & Hov)|Ha]; [|done]. destruct (Hcurrent o Ho) as [Hi _].
  destruct (pk_names _ Hdir _ _ _ Hi Hov) as [t ->]. exists t. split; [done|]. intros _. left. unfold own_text. rewrite Ho. cbn. by rewrite Hov.
Qed.

Lemma changed_principals_ok : principals_ok (<[i := o']> dir).
Proof.
  assert (forall j o t, j <> i -> dir !! j = Some o -> t ∈ addresses o -> t ∈ addresses o' -> False) as Hadd.
  { intros j o t Hj Ho Ht [(oi & Hoi & Ht')|He]%changed_address; [|by eapply Hemails].
    apply Hj. eapply (do_unique _ (pk_directory _ Hdir)); [done| |done..]. by rewrite Hstored. }
  assert (forall j o t, j <> i -> dir !! j = Some o -> ptype_of o = Some Principal.Domain -> ptype = Principal.Domain ->
    text_of (orm_get o Principal.Name) = Some t -> text_of (orm_get o' Principal.Name) = Some t -> False) as Hdom.
  { intros j o t Hj Ho Ht Hd Hn Hn'. destruct (orm_get o' Principal.Name) as [v|] eqn:E; [|done]. destruct (changed_name v E) as (x & -> & Hx).
    injection Hn' as ->. destruct (Hx Hd) as [Hown|Hnew]; [|by eapply Hnew]. unfold own_text in Hown. apply bind_Some in Hown as (oi & Hoi & Hni).
    destruct (Hcurrent oi Hoi) as [Hi Hti]. apply Hj. eapply (pk_domains _ Hdir); [done..| |done|done]. by rewrite <- Hd. }
  split.
  - split.
    + intros j o [[<- <-]|[_ Ho]]%lookup_insert_Some; [apply changed_principal_ok|by eapply (do_ok _ (pk_directory _ Hdir))].
    + intros j k oj ok t [[<- <-]|[Hj Hoj]]%lookup_insert_Some [[<- <-]|[Hk Hok]]%lookup_insert_Some Htj Htk; [done|..].
      * exfalso. by eapply (Hadd k).
      * exfalso. by eapply (Hadd j).
      * by eapply (do_unique _ (pk_directory _ Hdir)).
  - intros j o v [[<- <-]|[_ Ho]]%lookup_insert_Some E; [|by eapply (pk_names _ Hdir)]. destruct (changed_name v E) as (t & -> & _). by eexists.
  - intros j o m [[<- <-]|[Hj Ho]]%lookup_insert_Some Hm.
    + destruct (changed_member m Hm) as (Hr & Hmi & om & Hom & Hl). refine (conj Hr (conj Hmi _)). exists om. rewrite lookup_insert_ne by done.
      split; [done|]. rewrite Htype. intros [= E]. by apply Hl.
    + destruct (pk_members _ Hdir j o m Ho Hm) as (Hr & Hmj & om & Hom & Hl). refine (conj Hr (conj Hmj _)).
      destruct (decide (i = m)) as [<-|Hne]; [|exists om; by rewrite lookup_insert_ne]. exists o'. rewrite lookup_insert_eq. split; [done|]. intros Ht.
      rewrite Hstored in Hom. destruct (Hcurrent om Hom) as [_ Ht']. rewrite Htype, <- Ht'. by apply Hl.
  - intros j k oj ok t [[<- <-]|[Hj Hoj]]%lookup_insert_Some [[<- <-]|[Hk Hok]]%lookup_insert_Some Htj Htk Hnj Hnk; [done|..].
    + exfalso. eapply (Hdom k); [done..| |done|done]. rewrite Htype in Htj. by injection Htj.
    + exfalso. eapply (Hdom j); [done..| |done|done]. rewrite Htype in Htk. by injection Htk.
    + by eapply (pk_domains _ Hdir).
Qed.
End Changed.
End Allowed.

(** ** Principals without a member *)

Section Destroyed.
Context `{PrincipalStoreLaws W} `{OrmCodec Principal.Property Principal.Value}.
Variable dir : gmap Z PFields.
Hypothesis Hdir : principals_ok dir.

Definition without_member (id j : Z) (o : PFields) : PFields :=
  match drop_member id o ≫= orm_merge o (document_new Collection.Principal j) with Some (o', _, _) => o' | None => o end.
(** The principals after the principal [id] is gone. *)
Definition after_destroy (id : Z) : gmap Z PFields := map_imap (fun j o => Some (without_member id j o)) (delete id dir).
(** The documents that are written for the others. *)
Definition member_documents (id : Z) (l : list Z) : list (Z * Document) :=
  omap (fun j => o ← dir !! j; c ← drop_member id o; '(_, doc, _) ← orm_merge o (document_new Collection.Principal j) c; Some (j, doc)) l.
Definition write_members (changes : WriteBatch) (docs : list (Z * Document)) : WriteBatch :=
  fold_left (fun b e => log_update (update_document b e.2) Collection.Principal e.1) docs changes.
(** Every principal with the member can be written. *)
Definition members_removed (id : Z) (l : list Z) : Prop :=
  forall j o c, j ∈ l -> dir !! j = Some o -> drop_member id o = Some c -> is_Some (orm_merge o (document_new Collection.Principal j) c).

Lemma remove_member_exact id w changes l changes' :
  serves w dir -> remove_member id w changes l = (changes', inr tt) ->
  changes' = write_members changes (member_documents id l) /\ members_removed id l.
Proof.
  intros Hs. revert changes. induction l as [|j l IH]; intros changes; cbn [remove_member].
  { intros [= <-]. split; [done|]. by intros ??? ?%elem_of_nil. }
  rewrite (sv_orm _ _ Hs). cbn [lift]. unfold member_documents. cbn [omap list_omap].
  destruct (dir !! j) as [o|] eqn:Eo; cbn [mbind option_bind].
  - destruct (drop_member id o) as [c|] eqn:Ed; cbn [fmap option_fmap option_map mbind option_bind].
    + destruct (orm_merge o _ c) as [[[o' doc] b]|] eqn:Em; [|done]. intros [-> Hr]%IH. split; [done|].
      intros j' o1 c1 [->|Hj]%elem_of_cons Ho1 Hd1; [|by eapply Hr]. rewrite Eo in Ho1. injection Ho1 as <-. rewrite Ed in Hd1. injection Hd1 as <-. rewrite Em. by eexists.
    + intros [-> Hr]%IH. split; [done|]. intros j' o1 c1 [->|Hj]%elem_of_cons Ho1 Hd1; [congruence|by eapply Hr].
  - intros [-> Hr]%IH. split; [done|]. intros j' o1 c1 [->|Hj]%elem_of_cons Ho1 Hd1; [congruence|by eapply Hr].
Qed.

Lemma drop_member_Some id o c : drop_member id o = Some c -> id ∈ members_of o /\ vm_inv (properties c) /\
  exists v, (v = Principal.VNull \/ v = Principal.VMembers (filter (fun m => m <> id) (members_of o))) /\
    forall p, orm_get c p = if decide (Principal.Members = p) then Some v else None.
Proof.
  unfold drop_member, members_of. destruct (orm_get o Principal.Members) as [[]|]; try done. case_bool_decide as Hin; [|done]. intros [= <-].
  split; [done|]. set (v := if (1 <? length value)%nat then _ else _).
  assert (forall p, _ /\ _) as Hset by (intros p; exact (orm_set_get (track_changes o) Principal.Members v p vm_new_inv)).
  split; [apply (Hset Principal.Members)|]. exists v. split; [subst v; destruct (1 <? length value)%nat; auto|]. intros p. apply Hset.
Qed.
Lemma drop_member_None id o : drop_member id o = None -> id ∉ members_of o.
Proof.
  unfold drop_member, members_of. destruct (orm_get o Principal.Members) as [[]|]; try (intros _; apply not_elem_of_nil). by case_bool_decide.
Qed.

Lemma without_member_ok id j o : dir !! j = Some o ->
  let o' := without_member id j o in
  vm_inv (properties o') /\ (forall p, p <> Principal.Members -> orm_get o' p = orm_get o p) /\
  (forall v, orm_get o' Principal.Members = Some v -> v = Principal.VNull \/ exists l, v = Principal.VMembers l) /\
  (forall m, m ∈ members_of o' -> m ∈ members_of o /\
    ((forall c, drop_member id o = Some c -> is_Some (orm_merge o (document_new Collection.Principal j) c)) -> m <> id)).
Proof.
  intros Ho o'. pose proof (do_ok _ (pk_directory _ Hdir) _ _ Ho) as Hok. subst o'. unfold without_member.
  destruct (drop_member id o) as [c|] eqn:Ed; cbn [mbind option_bind].
  - destruct (drop_member_Some id o c Ed) as (Hin & Hc & v & Hv & Hget). destruct (orm_merge o _ c) as [[[o' doc] b]|] eqn:Em.
    + assert (vm_inv (properties o')) as Hinv by apply (orm_merge_get o c o' _ doc b Principal.Members (po_inv _ Hok) Hc Em).
      split; [done|]. split; [|].
      { intros p Hp. pose proof (orm_merge_get o c o' _ doc b p (po_inv _ Hok) Hc Em) as [_ Hg]. rewrite Hget, decide_False in Hg; done. }
      pose proof (orm_merge_get o c o' _ doc b Principal.Members (po_inv _ Hok) Hc Em) as [_ Hg]. rewrite Hget, decide_True in Hg by done.
      destruct Hg as [[Hg|Hg] _]; unfold members_of at 1; rewrite Hg; (split; [|]); try (intros ?; done); try (by intros m ?%elem_of_nil).
      * intros x [= <-]. destruct Hv as [->| ->]; [by left|right; by eexists].
      * destruct Hv as [->| ->]; [by intros m ?%elem_of_nil|]. intros m [Hm Hm']%list_elem_of_filter. by split.
    + split_and!; [apply Hok|done|apply Hok|]. intros m Hm. split; [done|]. intros Hs. destruct (Hs c eq_refl) as [x Hx]. congruence.
  - split_and!; [apply Hok|done|apply Hok|]. intros m Hm. split; [done|]. intros _ ->. by apply (drop_member_None id o Ed).
Qed.

Lemma after_destroy_lookup id j o' : after_destroy id !! j = Some o' -> j <> id /\ exists o, dir !! j = Some o /\ o' = without_member id j o.
Proof.
  unfold after_destroy. rewrite map_lookup_imap. intros (o & Ho & [= <-])%bind_Some. apply lookup_delete_Some in Ho as [Hj Ho]. split; [done|]. by exists o.
Qed.
Lemma same_ptype id j o : dir !! j = Some o -> ptype_of (without_member id j o) = ptype_of o.
Proof. intros Ho. unfold ptype_of. by rewrite (proj1 (proj2 (without_member_ok id j o Ho))) by done. Qed.
Lemma same_addresses id j o : dir !! j = Some o -> addresses (without_member id j o) = addresses o.
Proof. intros Ho. unfold addresses, aliases_of. by rewrite !(proj1 (proj2 (without_member_ok id j o Ho))) by done. Qed.

Lemma after_destroy_ok id l :
  (forall j, j ∈ l <-> exists o, dir !! j = Some o /\ id ∈ members_of o) -> members_removed id l -> principals_ok (after_destroy id).
Proof.
  intros Hl Hr. split.
  - split.
    + intros j o' (_ & o & Ho & ->)%after_destroy_lookup. destruct (without_member_ok id j o Ho) as (Hi & Hg & Hm & _).
      pose proof (do_ok _ (pk_directory _ Hdir) _ _ Ho) as Hok. split; [done|rewrite same_ptype by done; apply Hok|..|done].
      * rewrite Hg by done. apply Hok.
      * rewrite Hg by done. apply Hok.
    + intros j k oj ok t (_ & o1 & Ho1 & ->)%after_destroy_lookup (_ & o2 & Ho2 & ->)%after_destroy_lookup. rewrite !same_addresses by done.
      by eapply (do_unique _ (pk_directory _ Hdir)).
  - intros j o' v (_ & o & Ho & ->)%after_destroy_lookup. rewrite (proj1 (proj2 (without_member_ok id j o Ho))) by done. by eapply (pk_names _ Hdir).
  - intros j o' m (_ & o & Ho & ->)%after_destroy_lookup Hm. destruct (without_member_ok id j o Ho) as (_ & _ & _ & Hmem).
    destruct (Hmem m Hm) as [Hm' Hne]. destruct (pk_members _ Hdir _ _ _ Ho Hm') as (Hrange & Hmj & om & Hom & Hty). refine (conj Hrange (conj Hmj _)).
    assert (m <> id) as Hid.
    { apply Hne. intros c Hc. eapply Hr; [|done..]. apply Hl. exists o. split; [done|]. by apply drop_member_Some in Hc as [? _]. }
    exists (without_member id m om). split; [|by rewrite !same_ptype].
    unfold after_destroy. rewrite map_lookup_imap, lookup_delete_ne by done. by rewrite Hom.
  - intros j k oj ok t (_ & o1 & Ho1 & ->)%after_destroy_lookup (_ & o2 & Ho2 & ->)%after_destroy_lookup. rewrite !same_ptype by done.
    rewrite (proj1 (proj2 (without_member_ok id j o1 Ho1))), (proj1 (proj2 (without_member_ok id k o2 Ho2))) by done. by eapply (pk_domains _ Hdir).
Qed.
End Destroyed.

(** ** Requests *)

Definition plain_item (item : PrincipalItem) : Prop := vm_inv item /\ forall p v, vm_get item p = Some v -> plain_value v.

Section Requests.
Context `{PrincipalStoreLaws W} `{Unicode} `{OrmCodec Principal.Property Principal.Value} `{OrmCodec Mailbox.Property Mailbox.Value}.
Abbreviation SetHelper := (SetHelper Principal.Property PrincipalItem).

Lemma default_mailboxes_keeps (w : W) a batch l : same_directory w (default_mailboxes w a batch l).1.
Proof.
  revert w batch. induction l as [|[name role] l IH]; intros w batch; cbn; [done|]. pose proof (assign_id_keeps w a Collection.Mailbox) as Ha.
  destruct (store_assign_id w a Collection.Mailbox) as [w1 r]. cbn in Ha. destruct (lift r) as [e|id]; [done|]. destruct (orm_insert _ _); [|done].
  by etrans; [exact Ha|apply IH].
Qed.

(** What a principal that passed has been checked for. *)
Lemma principal_set_checked (w : W) (h : SetHelper) self item current i w' h' fields :
  principal_set w h self item current i = (w', h', inr fields) ->
  exists ptype self1 item1 w1 emails, principal_type current self item = inr (ptype, self1, item1) /\
    principal_properties w h current i ptype self1 [] (vm_iter item1) = (w1, inr (fields, emails)) /\
    check_addresses w1 emails = inr tt /\ same_directory w1 w'.
Proof.
  unfold principal_set. destruct (principal_type current self item) as [e|[[ptype self1] item1]]; [done|].
  destruct (principal_properties w h current i ptype self1 [] (vm_iter item1)) as [w1 [e|[self2 emails]]] eqn:Ep; [done|]. cbn [mbind sum_bind fst snd].
  destruct (check_addresses w1 emails) as [e|[]] eqn:Ec; [done|]. cbn [mbind sum_bind].
  destruct (check_principal current self2 ptype) as [e|[]]; [done|]. cbn [mbind sum_bind]. intros E.
  exists ptype, self1, item1, w1, emails. destruct (_ && is_account ptype).
  - pose proof (default_mailboxes_keeps w1 i (batch_new i) DEFAULT_MAILBOXES) as Hd. destruct (default_mailboxes _ _ _ _) as [w2 [e|batch]]; [done|].
    injection E as <- _ <-. by rewrite Ep.
  - injection E as <- _ <-. by rewrite Ep.
Qed.

Lemma plain_removed item v item1 : plain_item item -> vm_remove item Principal.Type_ = Some (v, item1) -> plain_item item1.
Proof.
  intros [Hi Hp]. unfold vm_remove. destruct (vm_get item Principal.Type_) as [x|] eqn:Eg.
  - destruct (vm_remove_entry_get item _ x Hi Eg) as (m' & -> & Hm' & Hget). cbn. intros [= <- <-]. split; [done|]. intros p y. rewrite Hget.
    destruct (decide _); [done|]. apply Hp.
  - apply vm_get_None in Eg; [|done]. unfold vm_remove_entry. destruct (position _ _) as [pos|] eqn:Epos; [|done].
    apply position_Some in Epos; [|apply Hi]. destruct Eg. by eapply list_elem_of_lookup_2.
Qed.
Lemma plain_iter item p v : plain_item item -> (p, v) ∈ vm_iter item -> plain_value v.
Proof. intros [Hi Hp] Hin%vm_iter_elem; [|done]. by eapply Hp. Qed.

Lemma updated_ok (w : W) (h : SetHelper) dir i o item w' h' fields d o' d' b :
  serves w dir -> principals_ok dir -> h_document_ids h = dom dir -> dir !! i = Some o -> plain_item item ->
  principal_set w h (track_changes o) item (Some o) i = (w', h', inr fields) -> merge_validate o d fields = inr (o', d', b) ->
  principals_ok (<[i := o']> dir) /\ forall t, t ∈ addresses o' -> t ∈ addresses o \/ has_domain dir t.
Proof.
  intros Hs Hd Hids Hi Hp (ptype & self1 & item1 & w1 & emails & Et & Ep & Ec & _)%principal_set_checked Hm.
  pose proof (do_ok _ (pk_directory _ Hd) _ _ Hi) as Hok.
  assert (ptype_of o = Some ptype /\ self1 = track_changes o /\ item1 = item) as (Hty & -> & ->).
  { cbn in Et. unfold ptype_of. destruct (orm_get o Principal.Type_) as [[]|]; try done. by injection Et as -> -> ->. }
  assert (forall o1, Some o = Some o1 -> dir !! i = Some o1 /\ ptype_of o1 = Some ptype) as Hcur by (by intros o1 [= <-]).
  destruct (principal_properties_ok h dir (Some o) i ptype Hd Hids Hcur w (track_changes o) [] (vm_iter item) w1 (inr (fields, emails)) Hs)
    as [Hsame Hr]; [apply vm_new_inv|intros p v; by apply plain_iter|done|].
  destruct (Hr _ _ eq_refl) as (Hinv & _ & Htype & Hvalues).
  assert (forall t, t ∈ emails -> unused dir t /\ has_domain dir t) as Hemails.
  { intros t Ht. eapply (check_addresses_ok dir Hd w1); [by eapply serves_same|done..]. }
  assert (orm_merge o d fields = Some (o', d', b)) as Hmerge.
  { unfold merge_validate in Hm. repeat case_match; try done. by injection Hm as ->. }
  assert (forall p v, orm_get o' p = Some v -> p <> Principal.Type_ -> (exists o1, Some o = Some o1 /\ orm_get o1 p = Some v) \/
    allowed_value dir (Some o) i ptype emails p v) as Hv.
  { intros p v Hpv _. pose proof (orm_merge_get o fields o' d d' b p (po_inv _ Hok) Hinv Hmerge) as [_ Hg].
    destruct (orm_get fields p) as [x|] eqn:Ex; [|left; exists o; by rewrite <- Hg]. destruct Hg as [[Hg|Hg] _]; rewrite Hg in Hpv; [|done].
    injection Hpv as <-. right. by destruct (Hvalues p x Ex) as [?|?]. }
  assert (vm_inv (properties o')) as Hinv' by apply (orm_merge_get o fields o' d d' b Principal.Name (po_inv _ Hok) Hinv Hmerge).
  assert (ptype_of o' = Some ptype) as Hty'.
  { pose proof (orm_merge_get o fields o' d d' b Principal.Type_ (po_inv _ Hok) Hinv Hmerge) as [_ Hg]. rewrite Htype in Hg. cbn in Hg.
    unfold ptype_of. by rewrite Hg. }
  split.
  - eapply (changed_principals_ok dir (Some o) i ptype Hd Hcur o' emails); [done..|by intros t Ht; apply Hemails|done].
  - intros t Ht. destruct (changed_address dir (Some o) i ptype o' emails Hv t Ht) as [(o1 & [= <-] & ?)|He]; [by left|right]. by apply Hemails.
Qed.

Lemma created_ok (w : W) (h : SetHelper) dir i item w' h' fields :
  serves w dir -> principals_ok dir -> h_document_ids h = dom dir -> dir !! i = None -> plain_item item ->
  principal_set w h orm_new item None i = (w', h', inr fields) ->
  principals_ok (<[i := fields]> dir) /\ forall t, t ∈ addresses fields -> has_domain dir t.
Proof.
  intros Hs Hd Hids Hi Hp (ptype & self1 & item1 & w1 & emails & Et & Ep & Ec & _)%principal_set_checked.
  assert (self1 = orm_set orm_new Principal.Type_ (Principal.VType ptype) /\ plain_item item1) as (-> & Hp1).
  { cbn in Et. destruct (vm_remove item Principal.Type_) as [[v item2]|] eqn:Er; [|done]. pose proof (plain_removed _ _ _ Hp Er).
    destruct v; try done. by injection Et as -> <- <-. }
  assert (forall o1 : PFields, None = Some o1 -> dir !! i = Some o1 /\ ptype_of o1 = Some ptype) as Hcur by done.
  assert (forall p, _ /\ _) as Hset by (intros p; exact (orm_set_get orm_new Principal.Type_ (Principal.VType ptype) p vm_new_inv)).
  destruct (principal_properties_ok h dir None i ptype Hd Hids Hcur w (orm_set orm_new Principal.Type_ (Principal.VType ptype)) []
    (vm_iter item1) w1 (inr (fields, emails)) Hs)
    as [Hsame Hr]; [apply (Hset Principal.Type_)|intros p v; by apply plain_iter|done|].
  destruct (Hr _ _ eq_refl) as (Hinv & _ & Htype & Hvalues).
  assert (forall t, t ∈ emails -> unused dir t /\ has_domain dir t) as Hemails.
  { intros t Ht. eapply (check_addresses_ok dir Hd w1); [by eapply serves_same|done..]. }
  assert (forall p v, orm_get fields p = Some v -> p <> Principal.Type_ -> (exists o1 : PFields, None = Some o1 /\ orm_get o1 p = Some v) \/
    allowed_value dir None i ptype emails p v) as Hv.
  { intros p v Hpv Hne. right. destruct (Hvalues p v Hpv) as [Hx|?]; [|done]. rewrite (proj2 (Hset p)), decide_False in Hx; done. }
  assert (ptype_of fields = Some ptype) as Hty by (unfold ptype_of; rewrite Htype, (proj2 (Hset Principal.Type_)); done).
  split.
  - eapply (changed_principals_ok dir None i ptype Hd Hcur fields emails); [done..|by intros t Ht; apply Hemails|done].
  - intros t Ht. destruct (changed_address dir None i ptype fields emails Hv t Ht) as [(o1 & ? & ?)|He]; [done|]. by apply Hemails.
Qed.

Lemma fresh_id_keeps fuel (w : W) tagged id w' r :
  fresh_id fuel w tagged id = Some (w', r) -> same_directory w w' /\ forall id', r = inr id' -> id' ∉ tagged.
Proof.
  revert w id. induction fuel as [|fuel IH]; intros w id; [done|]. cbn [fresh_id]. case_bool_decide as Hin.
  - pose proof (assign_id_keeps w SUPERUSER_ID Collection.Principal) as Ha. destruct (store_assign_id _ _ _) as [w1 r1]. cbn in Ha.
    destruct (lift r1) as [e|id1]; [by intros [= <- <-]|]. intros [Hs Hr]%IH. split; [by etrans|done].
  - intros [= <- <-]. split; [done|]. by intros id' [= <-].
Qed.
(** If the ids that the store has given away are not given again, an id is
    found that is not that of an account to delete. *)
Lemma fresh_id_found (assigned : W -> gset Z) fuel (w : W) tagged id :
  (forall w w' id, store_assign_id w SUPERUSER_ID Collection.Principal = (w', inr id) -> id ∉ assigned w /\ assigned w' = {[id]} ∪ assigned w) ->
  (size (tagged ∖ assigned w) + (if bool_decide (id ∈ tagged) then 1 else 0) < fuel)%nat ->
  is_Some (fresh_id fuel w tagged id).
Proof.
  intros Ha. revert w id. induction fuel as [|fuel IH]; intros w id Hf; [lia|]. cbn [fresh_id]. case_bool_decide as Hin; [|by eexists].
  destruct (store_assign_id w SUPERUSER_ID Collection.Principal) as [w1 [e|id1]] eqn:Es; cbn [lift]; [by eexists|].
  apply IH. destruct (Ha _ _ _ Es) as [Hnew Has]. rewrite Has.
  assert (size (tagged ∖ ({[id1]} ∪ assigned w)) + (if bool_decide (id1 ∈ tagged) then 1 else 0) <= size (tagged ∖ assigned w))%nat; [|lia].
  case_bool_decide as Ht; [|rewrite Nat.add_0_r; apply subseteq_size; set_solver].
  assert (size (tagged ∖ ({[id1]} ∪ assigned w)) < size (tagged ∖ assigned w))%nat; [|lia]. apply subset_size. split; [set_solver|]. intros Hsub.
  assert (id1 ∈ tagged ∖ assigned w) as Hi by set_solver. apply Hsub in Hi. set_solver.
Qed.

(** The fuel of [principal_create] is enough. *)
Lemma fresh_id_enough (assigned : W -> gset Z) (w : W) tagged id :
  (forall w w' id, store_assign_id w SUPERUSER_ID Collection.Principal = (w', inr id) -> id ∉ assigned w /\ assigned w' = {[id]} ∪ assigned w) ->
  id ∈ assigned w -> is_Some (fresh_id (S (size tagged)) w tagged id).
Proof.
  intros Ha Hid. apply (fresh_id_found assigned); [done|]. case_bool_decide as Hin.
  - assert (size (tagged ∖ assigned w) < size tagged)%nat; [|lia]. apply subset_size. split; [set_solver|]. intros Hsub. apply Hsub in Hin. set_solver.
  - assert (size (tagged ∖ assigned w) <= size tagged)%nat; [|lia]. apply subseteq_size. set_solver.
Qed.

Lemma create_with_ok create_id item (w : W) (h : SetHelper) dir d w' h' d' r :
  serves w dir -> principals_ok dir -> h_document_ids h = dom dir -> plain_item item ->
  create_with create_id item w h d = (w', h', d', inr r) ->
  exists fields, insert_validate fields d = inr d' /\ r = principal_new (d_document_id d') /\
    (dir !! d_document_id d = None ->
      principals_ok (<[d_document_id d := fields]> dir) /\ forall t, t ∈ addresses fields -> has_domain dir t).
Proof.
  intros Hs Hd Hids Hp. unfold create_with. destruct (principal_set w h orm_new item None (d_document_id d)) as [[w1 h1] [e|fields]] eqn:Es; [done|].
  destruct (insert_validate fields d) as [e|d1] eqn:Ei; [done|]. intros [= _ _ <- <-]. exists fields. split_and!; [done..|]. intros Hn. by eapply created_ok.
Qed.

Lemma destroyed_ok id (w : W) (h : SetHelper) dir d w' h' d' :
  serves w dir -> principals_ok dir -> d_document_id d = id -> 
  principal_destroy id w h d = (w', h', d', inr tt) ->
  id <> SUPERUSER_ID /\ forall o, dir !! id = Some o ->
    d' = orm_delete o d /\ principals_ok (after_destroy dir id) /\
    exists l, (forall j, j ∈ l <-> exists o, dir !! j = Some o /\ id ∈ members_of o) /\
      h_changes h' = update_document (write_members (h_changes h) (member_documents dir id l)) (tag_deletion id).
Proof.
  intros Hs Hd Hid. unfold principal_destroy. rewrite Hid. destruct (Z.eqb_spec id SUPERUSER_ID) as [|Hne]; [done|]. intros E. split; [done|].
  intros o Ho. rewrite (sv_orm _ _ Hs), Ho in E. cbn [lift] in E.
  destruct (sv_query _ _ Hs (FEq Principal.Members (QInteger id))) as (ids & Eq & _ & Hin). rewrite Eq in E. cbn [lift] in E.
  destruct (remove_member id w (h_changes h) (merge_sort Z.le ids)) as [changes [e|[]]] eqn:Er; [done|]. injection E as _ <- <-.
  destruct (remove_member_exact dir id w _ _ _ Hs Er) as [-> Hr].
  assert (forall j, j ∈ merge_sort Z.le ids <-> exists o, dir !! j = Some o /\ id ∈ members_of o) as Hl.
  { intros j. rewrite merge_sort_Permutation, Hin. split; intros (oj & Hoj & Hm); exists oj; (split; [done|]).
    - rewrite matches_member in Hm by (by eapply (do_ok _ (pk_directory _ Hd))). apply bool_decide_eq_true, list_elem_of_fmap in Hm as (m & -> & Hm).
      destruct (pk_members _ Hd _ _ _ Hoj Hm) as (Hrange & _). by rewrite id_document_id_small.
    - rewrite matches_member by (by eapply (do_ok _ (pk_directory _ Hd))). apply bool_decide_true, list_elem_of_fmap. exists id. split; [|done].
      destruct (pk_members _ Hd _ _ _ Hoj Hm) as (Hrange & _). by rewrite id_document_id_small. }
  split_and!; [done|by eapply after_destroy_ok|]. by exists (merge_sort Z.le ids).
Qed.
End Requests.

(** C6. The directory is kept. A request that creates, changes or destroys one
    principal, in a directory where every address belongs to one principal,
    every member exists and is not the group or list itself, lists have
    individuals as members and the names of domains differ, leaves such a
    directory. The id of a new principal is not that of an account that is
    still to be deleted; every address that a request adds has a domain of the
    server. A principal that is destroyed, which the superuser cannot be, is
    taken out of all groups and lists it is a member of, in the same batch. *)
Theorem principals_kept `{PrincipalStoreLaws W} `{Unicode} `{OrmCodec Principal.Property Principal.Value} `{OrmCodec Mailbox.Property Mailbox.Value}
    (w : W) (h : SetHelper Principal.Property PrincipalItem) (dir : gmap Z PFields) (d : Document) :
  serves w dir -> principals_ok dir -> h_document_ids h = dom dir ->
  (forall tagged create_id item w' h' d' r, plain_item item -> principal_create tagged create_id item w h d = (w', h', d', inr r) ->
    exists fields d1, insert_validate fields d1 = inr d' /\ (forall ids, tagged = Some ids -> d_document_id d1 ∉ ids) /\
      r = principal_new (d_document_id d') /\
      (dir !! d_document_id d1 = None ->
        principals_ok (<[d_document_id d1 := fields]> dir) /\ forall t, t ∈ addresses fields -> has_domain dir t)) /\
  (forall id item w' h' d' r, id_document_id id = d_document_id d -> plain_item item -> principal_update id item w h d = (w', h', d', inr r) ->
    exists o fields o' b, dir !! d_document_id d = Some o /\ merge_validate o d fields = inr (o', d', b) /\
      principals_ok (<[d_document_id d := o']> dir) /\ forall t, t ∈ addresses o' -> t ∈ addresses o \/ has_domain dir t) /\
  (forall id w' h' d', d_document_id d = id -> principal_destroy id w h d = (w', h', d', inr tt) ->
    id <> SUPERUSER_ID /\ forall o, dir !! id = Some o ->
      d' = orm_delete o d /\ principals_ok (after_destroy dir id) /\
      exists l, (forall j, j ∈ l <-> exists o, dir !! j = Some o /\ id ∈ members_of o) /\
        h_changes h' = update_document (write_members (h_changes h) (member_documents dir id l)) (tag_deletion id)).
Proof.
  intros Hs Hd Hids. split_and!.
  - intros tagged create_id item w' h' d' r Hp. unfold principal_create. destruct tagged as [tagged|].
    + destruct (fresh_id _ w tagged (d_document_id d)) as [[w1 [e|id]]|] eqn:Ef; [done| |done]. apply fresh_id_keeps in Ef as [Hw1 Hid].
      intros E. apply (create_with_ok _ _ _ _ dir) in E as (fields & Hi & Hr & Hk); [|by eapply serves_same|done..].
      exists fields, (set_document_id d id). split_and!; [done| |done..]. intros ids [= <-]. by apply Hid.
    + intros E. apply (create_with_ok _ _ _ _ dir) in E as (fields & Hi & Hr & Hk); [|done..]. by exists fields, d.
  - intros id item w' h' d' r Hid Hp. unfold principal_update. rewrite Hid, (sv_orm _ _ Hs). cbn [lift].
    destruct (dir !! d_document_id d) as [o|] eqn:Eo; [|done].
    destruct (principal_set w h (track_changes o) item (Some o) (d_document_id d)) as [[w1 h1] [e|fields]] eqn:Es; [done|].
    destruct (merge_validate o d fields) as [e|[[o' d1] b]] eqn:Em; [done|]. intros [= _ _ <- _].
    exists o, fields, o', b. split_and!; [done..| |]; by eapply updated_ok.
  - intros id w' h' d' Hid E. by eapply destroyed_ok.
Qed.

(** ** The functions of [Principal/set] as the helper wants them *)

Section PolitePrincipals.
Context `{PrincipalStore W} `{Unicode} `{OrmCodec Principal.Property Principal.Value} `{OrmCodec Mailbox.Property Mailbox.Value}.
Abbreviation SetHelper := (SetHelper Principal.Property PrincipalItem).

Lemma principal_set_leaves (w : W) (h : SetHelper) self item current i : leaves nothing h (principal_set w h self item current i).1.2.
Proof.
  unfold principal_set. destruct (principal_type _ _ _) as [e|[[ptype self1] item1]]; [done|]. destruct (principal_properties _ _ _ _ _ _ _ _) as [w1 r].
  destruct (r ≫= _) as [e|o]; [done|]. destruct (_ && _); [|done]. destruct (default_mailboxes _ _ _ _) as [w2 [e|batch]]; [done|].
  apply set_changes_leaves, linked_grows.
Qed.
Lemma remove_member_grows id (w : W) coll changes l : grows anything coll changes (remove_member id w changes l).1.
Proof.
  revert changes. induction l as [|j l IH]; intros changes; cbn; [done|]. destruct (lift _) as [e|f]; [done|]. destruct (f ≫= _) as [[o c]|]; [|apply IH].
  destruct (orm_merge _ _ _) as [[[o' doc] b]|]; [|done]. etrans; [|apply IH]. by etrans; [apply push_action_grows|apply log_update_grows].
Qed.
(** Creating and updating leave the log of principals to the helper; destroying
    logs updates of the lists and groups that lose a member. *)
Theorem principal_functions_polite tagged c :
  polite nothing c (fun kv (w : W) (h : SetHelper) d => principal_create tagged kv.1 kv.2 w h d) /\
  polite nothing c (fun kv (w : W) (h : SetHelper) d => principal_update kv.1 kv.2 w h d) /\
  polite anything c (principal_destroy (W := W)).
Proof.
  assert (forall k item (w : W) (h : SetHelper) d w' h' d' r, create_with k item w h d = (w', h', d', r) -> leaves nothing h h') as Hc.
  { intros k item w h d w' h' d' r. unfold create_with. pose proof (principal_set_leaves w h orm_new item None (d_document_id d)) as Hl.
    destruct (principal_set _ _ _ _ _ _) as [[w1 h1] [e|o]]; [by intros [= _ <- _ _]|]. destruct (insert_validate _ _); by intros [= _ <- _ _]. }
  split_and!.
  - intros [k item] w h d w' h' d' r _. cbn. unfold principal_create. destruct tagged as [tagged|]; [|apply Hc].
    destruct (fresh_id _ _ _ _) as [[w1 [e|id]]|]; [by intros [= _ <- _ _]|apply Hc|by intros [= _ <- _ _]].
  - intros [id item] w h d w' h' d' r _. cbn. unfold principal_update. destruct (lift _) as [e|[o|]]; [by intros [= _ <- _ _]| |by intros [= _ <- _ _]].
    pose proof (principal_set_leaves w h (track_changes o) item (Some o) (d_document_id d)) as Hl.
    destruct (principal_set _ _ _ _ _ _) as [[w1 h1] [e|f]]; [by intros [= _ <- _ _]|]. destruct (merge_validate _ _ _) as [e|[[? ?] ?]]; by intros [= _ <- _ _].
  - intros id w h d w' h' d' r _. unfold principal_destroy. destruct (_ =? _); [by intros [= _ <- _ _]|].
    destruct (lift _) as [e|[o|]]; [by intros [= _ <- _ _]| |by intros [= _ <- _ _]]. destruct (lift _) as [e|ids]; [by intros [= _ <- _ _]|].
    pose proof (remove_member_grows id w (h_collection h) (h_changes h) (merge_sort Z.le ids)) as Hg. destruct (remove_member _ _ _ _) as [changes [e|[]]]; intros [= _ <- _ _];
      apply set_changes_leaves; [done|]. by etrans; [exact Hg|apply push_action_grows].
Qed.
End PolitePrincipals.

Module PrincipalSample.
Import AsciiText.
#[export] Instance principal_codec : OrmCodec Principal.Property Principal.Value := {| orm_serialize _ := Some [1]; orm_deserialize _ := None |}.
#[export] Instance mailbox_codec : OrmCodec Mailbox.Property Mailbox.Value := {| orm_serialize _ := Some [1]; orm_deserialize _ := None |}.

(** Principals, the next id and the batches written. *)
Record world := mkPWorld { pw_dir : gmap Z PFields; pw_next : Z; pw_written : list WriteBatch }.
#[export] Instance directory : Directory world := {|
  principal_orm w i := inr (pw_dir w !! i);
  principal_query w f := inr (filter (fun i => from_option (matches f) false (pw_dir w !! i) = true) (map_to_list (pw_dir w)).*1);
  shared_accounts _ _ := inr [] |}.
#[export] Instance set_store : SetStore world := {|
  store_state _ _ _ := inr (Exact 1); store_document_ids w _ _ := inr (Some (dom (pw_dir w)));
  store_assign_id w _ _ := (mkPWorld (pw_dir w) (pw_next w + 1) (pw_written w), inr (pw_next w));
  store_write w b := (mkPWorld (pw_dir w) (pw_next w) (pw_written w ++ [b]), inr (Some (mkWriteChanges 8 2))) |}.
#[export] Instance principal_store : PrincipalStore world := {|
  to_delete _ := inr (Some {[5; 6]}); invalidate_recipient w _ := w; invalidate_token w _ := w; hash_encoded w t := (w, Some (rev t));
  dkim_key _ := true; delete_accounts w _ := (w, inr tt); untag_accounts w _ := (w, inr tt) |}.
#[export] Instance principal_store_laws : PrincipalStoreLaws world.
Proof. by split. Qed.

Definition item (l : list (Principal.Property * Principal.Value)) : PrincipalItem := vm_from_iter l.
Definition stored (l : list (Principal.Property * Principal.Value)) : PFields := fold_left (fun o pv => orm_set o pv.1 pv.2) l orm_new.
Definition text (s : string) : Principal.Value := Principal.VText (chars s).
(** The domain [x.org], Jane, the group [team] and the list [all] with her. *)
Definition domain : PFields := stored [(Principal.Type_, Principal.VType Principal.Domain); (Principal.Name, text "x.org")].
Definition jane : PFields :=
  stored [(Principal.Type_, Principal.VType Principal.Individual); (Principal.Name, text "Jane"); (Principal.Email, text "jane@x.org");
          (Principal.Secret, text "hash"); (Principal.Aliases, Principal.VTextList [chars "j@x.org"])].
Definition team : PFields :=
  stored [(Principal.Type_, Principal.VType Principal.Group); (Principal.Name, text "Team"); (Principal.Email, text "team@x.org");
          (Principal.Members, Principal.VMembers [2])].
Definition all : PFields :=
  stored [(Principal.Type_, Principal.VType Principal.List_); (Principal.Name, text "All"); (Principal.Email, text "all@x.org");
          (Principal.Members, Principal.VMembers [2])].
Definition dir : gmap Z PFields := {[ 1 := domain; 2 := jane; 3 := team; 4 := all ]}.
Definition start : world := mkPWorld dir 7 [].
Definition helper : SetHelper Principal.Property PrincipalItem :=
  mkSetHelper (batch_new 0) (dom dir) 0 (mkToken [0] []) Collection.Principal [] true U64_MAX []
    (mkSetResponse None Initial Initial ∅ vm_new vm_new vm_new [] vm_new None None).
Definition doc (i : Z) : Document := document_new Collection.Principal i.

Lemma sample_dir_lookup i o : dir !! i = Some o -> (i, o) ∈ [(1, domain); (2, jane); (3, team); (4, all)].
Proof. unfold dir. rewrite !lookup_insert_Some, lookup_singleton_Some, !elem_of_cons. naive_solver. Qed.
Ltac dir_cases H := apply sample_dir_lookup in H; repeat (apply elem_of_cons in H; destruct H as [[= -> ->]|H]); [..|by apply elem_of_nil in H].
Lemma start_serves : serves start dir.
Proof.
  split; [done|]. intros f. eexists. split; [reflexivity|]. split; [apply NoDup_filter, NoDup_fst_map_to_list|].
  intros i. rewrite list_elem_of_filter, list_elem_of_fmap. split.
  - intros [Hm ([i' o] & -> & Hin%elem_of_map_to_list)]. cbn in *. exists o. by rewrite Hin in Hm.
  - intros (o & Ho & Hm). split; [cbn; by rewrite Ho|]. exists (i, o). split; [done|]. by apply elem_of_map_to_list.
Qed.
(** Whose address it is. *)
Lemma sample_addresses i o e : dir !! i = Some o -> e ∈ addresses o ->
  (e, i) ∈ [(chars "jane@x.org", 2); (chars "j@x.org", 2); (chars "team@x.org", 3); (chars "all@x.org", 4)].
Proof.
  intros Hi He. assert (e ∈ match i with 2 => [chars "jane@x.org"; chars "j@x.org"] | 3 => [chars "team@x.org"] | 4 => [chars "all@x.org"] | _ => [] end) as Hin.
  { dir_cases Hi; exact He. }
  dir_cases Hi; cbn in Hin; rewrite !elem_of_cons, ?elem_of_nil in *; naive_solver.
Qed.
Lemma dir_principals_ok : principals_ok dir.
Proof.
  split.
  - split.
    + intros i o Hi. split.
      * dir_cases Hi; repeat apply vm_set_inv; apply vm_new_inv.
      * dir_cases Hi; by eexists.
      * intros v. dir_cases Hi; vm_compute; try done; intros [= <-]; right; by eexists.
      * intros v. dir_cases Hi; vm_compute; try done; intros [= <-]; right; by eexists.
      * intros v. dir_cases Hi; vm_compute; try done; intros [= <-]; right; by eexists.
    + intros i j o o' e Hi Hj He He'. pose proof (sample_addresses _ _ _ Hi He) as E1. pose proof (sample_addresses _ _ _ Hj He') as E2.
      rewrite !elem_of_cons, elem_of_nil in E1, E2.
      destruct E1 as [[= -> ->]|[[= -> ->]|[[= -> ->]|[[= -> ->]|[]]]]]; destruct E2 as [[= <-]|[[= <-]|[[= <-]|[[= <-]|[]]]]]; reflexivity.
  - intros i o v Hi. dir_cases Hi; vm_compute; intros [= <-]; by eexists.
  - intros i o m Hi Hm. assert (m = 2 /\ i <> 2) as [-> Hne].
    { dir_cases Hi; try (by apply elem_of_nil in Hm); apply list_elem_of_singleton in Hm as ->; done. }
    split; [lia|]. split; [done|]. by exists jane.
  - intros i j o o' t Hi Hj Ht Ht' _ _. dir_cases Hi; try discriminate Ht; dir_cases Hj; try discriminate Ht'; reflexivity.
Qed.

Definition bob : PrincipalItem :=
  item [(Principal.Type_, Principal.VType Principal.Individual); (Principal.Name, text "Bob"); (Principal.Email, text "Bob@X.org"); (Principal.Secret, text "pw")].
Definition new_alias_item : PrincipalItem :=
  item [(Principal.Aliases, Principal.VPatch (Principal.PatchAliases (vm_from_iter [(chars "jj@x.org", true); (chars "j@x.org", false)])))].
Lemma plain_item_values (o : PrincipalItem) :
  length (vm_k o) = length (vm_v o) -> bool_decide (NoDup (vm_k o)) = true -> Forall plain_value (vm_v o) -> plain_item o.
Proof.
  intros Hlen Hk%bool_decide_eq_true Hp. assert (vm_inv o) as Hi by (split; done). split; [done|]. intros p v Hv%vm_iter_elem; [|done].
  rewrite Forall_forall in Hp. apply Hp. by apply elem_of_zip_r in Hv.
Qed.

(** Bob gets the id 7 because 5 is still to be deleted, Jane another alias, and
    then she is destroyed. *)
Lemma principals_kept_witness :
  (exists w h d r, principal_create (Some {[5; 6]}) (chars "b") bob start helper (doc 5) = (w, h, d, inr r) /\ d_document_id d = 7 /\
    exists fields d1, insert_validate fields d1 = inr d /\ d_document_id d1 ∉ ({[5; 6]} : gset Z)) /\
  (exists w h d r, principal_update 2 new_alias_item start helper (doc 2) = (w, h, d, inr r) /\ exists o, principals_ok (<[2 := o]> dir)) /\
  (exists w h d, principal_destroy 2 start helper (doc 2) = (w, h, d, inr tt) /\ principals_ok (after_destroy dir 2)).
Proof.
  assert (h_document_ids helper = dom dir) as Hids by reflexivity.
  destruct (principals_kept start helper dir (doc 5) start_serves dir_principals_ok Hids) as (Hc & _ & _).
  destruct (principals_kept start helper dir (doc 2) start_serves dir_principals_ok Hids) as (_ & Hu & Hd).
  split_and!.
  - assert (exists w h d r, principal_create (Some {[5; 6]}) (chars "b") bob start helper (doc 5) = (w, h, d, inr r) /\ d_document_id d = 7)
      as (w & h & d & r & E & E7) by (eexists _, _, _, _; split; [vm_compute; reflexivity|reflexivity]).
    exists w, h, d, r. split; [exact E|]. split; [exact E7|].
    destruct (Hc (Some {[5; 6]}) (chars "b") bob w h d r) as (fields & d1 & Hi & Hid & _); [|exact E|].
    + apply plain_item_values; [reflexivity|vm_compute; reflexivity|repeat constructor].
    + exists fields, d1. split; [exact Hi|]. apply Hid. reflexivity.
  - assert (exists w h d r, principal_update 2 new_alias_item start helper (doc 2) = (w, h, d, inr r)) as (w & h & d & r & E)
      by (eexists _, _, _, _; vm_compute; reflexivity).
    exists w, h, d, r. split; [exact E|]. destruct (Hu 2 new_alias_item w h d r) as (o & f & o' & b & _ & _ & Ho & _); [reflexivity| |exact E|].
    + apply plain_item_values; [reflexivity|vm_compute; reflexivity|repeat constructor].
    + exists o'. exact Ho.
  - assert (exists w h d, principal_destroy 2 start helper (doc 2) = (w, h, d, inr tt)) as (w & h & d & E)
      by (eexists _, _, _; vm_compute; reflexivity).
    exists w, h, d. split; [exact E|]. destruct (Hd 2 w h d) as [_ Hk]; [reflexivity|exact E|]. destruct (Hk jane) as (_ & Hp & _); [reflexivity|exact Hp].
Defined.

(** ** What the code does besides *)

(** A list of aliases that repeats one the principal has is refused: the
    aliases are compared with the property [Email]. *)
Lemma own_alias_refused :
  (principal_update 2 (item [(Principal.Aliases, Principal.VTextList [chars "j@x.org"; chars "jj@x.org"])]) start helper (doc 2)).2 =
  inl (invalid Principal.Email).
Proof. vm_compute. reflexivity. Qed.

(** A description that is too long is found by the insertion, when the mailboxes
    of the account are already in the batch: the account is refused, and its
    mailboxes are written. *)
Definition long_description : PrincipalItem := vm_append bob Principal.Description (Principal.VText (replicate 513 97)).
Lemma refused_account_has_mailboxes :
  let '(w, h, d, r) := principal_create None (chars "b") long_description start helper (doc 7) in
  r = inl (invalid Principal.Description) /\
  map (fun b => (wb_account_id b, length (wb_documents b))) (wb_linked_batch (h_changes h)) = [(7, 5%nat)].
Proof. vm_compute. split; reflexivity. Qed.

(** Two principals of one request get the same address: each is compared with
    the stored principals only. *)
Definition twins : SetRequest ResultReference PrincipalItem :=
  mkSetRequest 0 None (Some (vm_from_iter [(chars "b", bob); (chars "c", bob)])) None None.
Lemma same_address_in_one_request :
  match principal_set_request start (mkToken [0] []) twins with
  | (_, Returned rs) => length (map_to_list (rs_created rs)) = 2%nat /\ vm_k (rs_not_created rs) = []
  | _ => False
  end.
Proof. vm_compute. split; reflexivity. Qed.

(** A member id with a thread part is accepted, and stays when its principal
    is destroyed. *)
Definition odd_member : PrincipalItem := item [(Principal.Members, Principal.VMembers [2 ^ 32 + 2])].
Lemma odd_member_stays :
  (principal_update 3 odd_member start helper (doc 3)).2 = inr None /\
  drop_member 2 (orm_set team Principal.Members (Principal.VMembers [2 ^ 32 + 2])) = None.
Proof. split; vm_compute; reflexivity. Qed.
End PrincipalSample.
